(* ===== verification/_CoqProject ===== *)
-Q . S2P
Prelude.v
Values.v
GoFmt.v
Envelope.v
ObjStore.v
NodeHelpers.v
Merge.v
MergeSpec.v
Kahn.v
Graph.v
Unicode.v
Schema.v
Registry.v
Builtins.v
Template.v
GraphDef.v
ToolManifest.v
ToolDiscovery.v
ToolSchema.v
ToolAccept.v
ToolOverlay.v
Base64.v
ToolRegistry.v
ToolValidation.v
ToolInvoke.v
ToolService.v
ToolServiceSpec.v
McpClient.v
Daemon.v
ToolConfig.v
AgentWorkflow.v
AgentValid.v
AgentCompile.v
AgentSpec.v
AgentCorrect.v
Builder.v
Events.v
Bus.v
EventStore.v
Stream.v
StepController.v
Runtime.v
RuntimeSafety.v
NodeProg.v
MapNode.v
Cache.v
Human.v
Scheduler.v
Transform.v
TransformSpec.v
CallNodes.v
Webhook.v
Gate.v
RuleRouter.v
RuntimeSpec.v
Parallel.v
ParallelControl.v
ParallelSpec.v
Controllers.v
ExprLexer.v
ExprParser.v
ExprEval.v
Filter.v
Guardian.v
Conditional.v
Loader.v
Hydrate.v
Server.v
RunService.v
