(* ===== verification/Prelude.v ===== *)
(** * PetalFlow: a verification library

    PetalFlow (the Go module under src/) runs workflows: graphs of nodes that pass
    an envelope of variables, messages, artifacts and errors along their edges.
    This library models its core as Rocq functions and transition systems and proves
    what makes it correct. This file is the root: the documentation of the whole,
    and the prelude that every other file uses.

    ** The program and the files that model it

    - Data. core/envelope.go, core/types.go: Values.v (the dynamic values [any] of
      Go, errors with [errors.Is], IEEE doubles through [SpecFloat]), Envelope.v
      (the envelope and its accessors and mutators), ObjStore.v (maps as objects that
      are shared), GoFmt.v ([fmt]), Unicode.v (UTF-8, [strings.TrimSpace], case),
      Base64.v, NodeHelpers.v (nodes/helpers.go).
    - Graphs. graph/graph.go: Graph.v, [BasicGraph] and its operations; Kahn.v holds
      the worklist of Kahn's algorithm, which graph.go and definition.go both run.
      Graph.v also declares the interfaces between the graph and its clients: the
      classes [NodeIface], [GraphIface] and the laws [GraphLaws], proved there for
      [BasicGraph] and assumed (as a class) by the executors.
    - Graph definitions. graph/definition.go: GraphDef.v, every validation rule and
      [ToGraph]; schemafmt/schemafmt.go: Schema.v, with the version pattern as a
      regular expression matched by derivatives; registry/: Registry.v, Builtins.v;
      loader/: Loader.v; graph/builder.go: Builder.v.
    - Agent workflows. agent/: AgentWorkflow.v and AgentValid.v (validation),
      Template.v (placeholders), AgentCompile.v, AgentSpec.v, AgentCorrect.v (the
      compiler to graph definitions).
    - Hydration. hydrate/: Hydrate.v, from a definition to live nodes.
    - The executors. runtime/events.go, runtime/sequence.go and the emitter of [Run]:
      Events.v; runtime/runtime.go: Runtime.v ([Run], the sequential executor,
      successor selection, node execution, step points), Parallel.v (the parallel
      executor); runtime/step_controller.go: StepController.v (requests, responses,
      the interface) and Controllers.v (the four controllers).
    - Nodes. nodes/: Merge.v and MergeSpec.v, Transform.v and TransformSpec.v, MapNode.v,
      Cache.v, Human.v, Gate.v, RuleRouter.v, Filter.v, Guardian.v, CallNodes.v (models
      and tools), Webhook.v; NodeProg.v is the monad of nodes that call other code.
      nodes/conditional: ExprLexer.v, ExprParser.v, ExprEval.v, Conditional.v.
    - Events. bus/: Bus.v (the in-memory bus, the throttle), EventStore.v (the table of
      events); sse/handler.go and the streams of server/handlers.go: Stream.v.
    - Tools. tool/: ToolManifest.v, ToolSchema.v, ToolAccept.v (manifests and what the
      schema accepts), ToolDiscovery.v, ToolOverlay.v (MCP discovery and overlays),
      ToolRegistry.v (registrations, masking, secrets), ToolValidation.v, ToolInvoke.v
      (adapters, retries, errors), ToolService.v and ToolServiceSpec.v (the service over
      a store); tool/mcp/ and tool/mcp_pool.go: McpClient.v (client, transport that
      reconnects, pools); daemon/: Daemon.v (HTTP layer, catalogue of node types),
      ToolConfig.v (declarations in files).
    - The server. server/: Server.v (the table of workflows and its handlers),
      RunService.v (planning of runs, webhooks, answers), Scheduler.v (schedules).

    A client builds a graph with the builder, or loads a definition or an agent
    workflow, which is compiled to a definition, and hydrates it; it hands the graph
    with an envelope to [Run]. [Run] executes node after node, asks the graph for the
    successors, lets routers and gates choose among them, consults the step controller
    and emits events, to handlers, the bus and the event store; the stream of a run
    reads both. Tool nodes call the tools of the registrations of the tool service,
    whose actions the daemon adds to the registry of node types. The server stores
    workflows and starts runs for requests, webhooks and schedules.

    ** How the code is represented

    Definitions keep the names of the source where Rocq allows. A Go struct is a
    record, a map a [gmap], a map used as a set a [gset], a slice a list; a function
    that returns an error returns a sum or an option of [error]. Errors keep their
    format (verbs and operands), so that [errors.Is] and the texts are those of the
    code. Where Go ranges over a map the order is an argument (class [RangeOrder]).
    Machine integers are [Z] with the wrap-around written out where it matters
    (sequence numbers, durations, conversions of floats). Where the code mutates maps
    that are reached from several places, they are objects of a store (ObjStore.v).

    The runtime code is in the state monad [GoM], in which a nil dereference is a
    panic. What a run asks of its surroundings (clocks, identifiers, cancellation,
    the reader of the event channel) and the private state of nodes, handlers and
    controllers are one world type [W], with the operations of the class [World]. A
    node is a program that may emit events and act on the world and ends with the
    contents of its argument and a result; every theorem on the executors holds for
    all nodes, or for those with a stated property.

    Concurrent code is a transition system: a move is one channel operation, one
    critical section or one call between two of them, and a schedule is a list of
    moves. The parallel executor (where envelopes are behind pointers into a heap,
    since it aliases them), the map node, the bus, the throttle, the human queue, the
    step controllers, the scheduler, the streams, the reconnecting transport, the
    pools, the handlers of the server and of the daemon are of this kind; their
    theorems hold for all schedules. Databases are tables of rows; each statement of
    SQL is an operation on them, and an operation may fail.

    ** What the theorems show

    - RuntimeSpec.v (proved in RuntimeSafety.v): a sequential run returns, without a
      panic, within its fuel; no node is handled more often than [MaxHops]; the trace
      follows the graph from the entry, nothing selected is forgotten, and without
      routing it is exactly the reachable part; the event stream is framed and
      numbered; the errors are those stated.
    - ParallelSpec.v: the parallel executor refines the control skeleton of
      ParallelControl.v. From the skeleton: schedules over acyclic graphs are bounded;
      while the channels suffice no schedule blocks or panics; the trace is sound and
      complete, with merge nodes run after as many selections as they expect inputs.
      Two theorems show schedules that block, or panic, when the conditions fail.
    - Graph.v, GraphDef.v, Builder.v, Registry.v, Schema.v: topological sort and
      reachability are correct for every map order; validation accepts exactly the
      definitions its rules describe, and these convert to valid acyclic graphs;
      builder chains build well-formed graphs.
    - AgentValid.v, AgentCorrect.v: what agent validation accepts, and that compilation
      of it gives valid definitions with the stated nodes and edges. Hydrate.v,
      Loader.v: hydration gives the graph of the definition or the stated error, with
      one client per provider.
    - ExprParser.v, ExprEval.v, Conditional.v: the parser is equivalent to the precedence
      grammar; evaluation does not depend on the regexp cache; the successors the
      runtime activates.
    - MergeSpec.v, TransformSpec.v, MapNode.v, Cache.v, Filter.v, Guardian.v, Human.v,
      CallNodes.v, Webhook.v: the functional behaviour of the nodes: the merge against
      the merge of contents, isolation of the transforms, concurrent against sequential
      maps, soundness of the cache, verdicts, exchanges, retries and budgets.
    - Bus.v, EventStore.v, Stream.v: delivery by the bus and the throttle; what was
      appended is listed, and pruning keeps the newest; a stream neither repeats nor
      reorders events and accounts for every one, up to the ones stated.
    - ToolOverlay.v, ToolRegistry.v, ToolValidation.v, ToolInvoke.v, ToolServiceSpec.v,
      McpClient.v, Daemon.v, ToolConfig.v: discovered manifests are well typed; stored
      registrations round trip; validation accepts exactly the stated registrations;
      retries are bounded; the table of registrations keeps its invariant under every
      operation; the transport leaks no connection; the catalogue of node types keeps
      the built-in types and shows accepted registrations only.
    - Server.v, RunService.v, Scheduler.v, Controllers.v: the table of workflows keeps its
      invariant under interleaved requests; webhook runs start at their trigger;
      schedules never overlap; the pausing of the channel controller.

    ** Fuel and bounds

    Loops that are not structural carry fuel, [None] (or [Some None] in the monad)
    meaning that it ran out, and each is proved to have enough: Kahn's loop the number
    of nodes (plus edges for definitions with repeated IDs); reachability the number
    of nodes; the lexer the length of the source plus one; the parser's depth and
    loops the number of tokens; the sequential executor one pop for the entry and
    [MaxHops] times the number of edges; copies, flattenings and merges of shared maps
    the number of objects of the store; JSON schemas, field declarations and nested
    configurations their own depth; retry loops the number of attempts; the expansion
    of variables the length of the string.

    ** Parameters

    What is not in src/ or is a table of the standard library is an argument:
    [encoding/json], YAML, SQL drivers and clocks, regular expressions of users ([regexp],
    class [RegexpEngine]), templates, the letter, digit and case tables of [unicode]
    beyond ASCII, the authenticated cipher of secrets, SHA-256, the cron library,
    clients of models, MCP servers and HTTP services, the environment and the file
    system, node factories, event sinks and step controllers. What a theorem needs of
    them is a hypothesis of it or a law of their class, and its witness instantiates
    them.

    ** Not modelled

    The command line (cli/) parses flags and prints. Tracing and metrics (otel/,
    traceflow/, the decorators of providers) and the adapters of model providers
    (llmprovider/, irisadapter/) hand data to libraries. petalflow.go renames what the
    packages export; examples/ are programs that use them. The stdio and SSE
    transports of MCP and the HTTP pools are I/O, as are the opening of databases, the
    migration of tables from older versions, routing and the encoding of answers.
    Goroutines that only repeat a modelled pass (pruning, health checks, the ticks of
    the scheduler) are not modelled, their passes are. Within the modelled parts: the
    text of [String] methods of syntax trees, and channels of capacity zero in the step
    controllers. *)

From stdpp Require Import gmap strings list fin_maps pretty relations sorting.
From Stdlib Require Import ZArith Lia.

(** ** Notation scope of the development *)

Declare Scope petal_scope.
Delimit Scope petal_scope with petal.
Open Scope petal_scope.

(** Concatenation of Go strings (byte sequences). *)
Infix "^^" := String.append (at level 60, right associativity) : petal_scope.

Lemma append_cons c s t : String c s ^^ t = String c (s ^^ t).
Proof. done. Qed.

Lemma append_assoc s t u : (s ^^ t) ^^ u = s ^^ t ^^ u.
Proof. induction s as [|c s IH]; [done|]. by rewrite !append_cons, IH. Qed.

Lemma append_nil_l t : EmptyString ^^ t = t.
Proof. done. Qed.

Lemma append_nil_r s : s ^^ EmptyString = s.
Proof. induction s as [|c s IH]; [done|]. by rewrite append_cons, IH. Qed.

Lemma length_append_bytes s t : String.length (s ^^ t) = String.length s + String.length t.
Proof. induction s as [|c s IH]; [done|]. rewrite append_cons. simpl. by rewrite IH. Qed.

Lemma append_nil_inv s t : s ^^ t = EmptyString → s = EmptyString ∧ t = EmptyString.
Proof. destruct s; [done|discriminate]. Qed.

Lemma append_String_inv u t c s : u ^^ t = String c s →
  (u = EmptyString ∧ t = String c s) ∨ ∃ u', u = String c u' ∧ s = u' ^^ t.
Proof.
  destruct u as [|d u]; [by left|]. rewrite append_cons. intros [= -> <-]. eauto.
Qed.

(** ** Automation *)

(** Rewrite database for the equations of the components' operations, and
    resolution database for their invariants. *)
Create Rewrite HintDb petal_eqs.
Create HintDb petal discriminated.

(** Case analysis on the first [match] or [if] of the goal or of a hypothesis. *)
Ltac case_goal :=
  match goal with
  | |- context [match ?x with _ => _ end] => destruct x eqn:?
  end.

Ltac case_hyp H :=
  match type of H with
  | context [match ?x with _ => _ end] => destruct x eqn:?
  end.

(** Break the boolean tests of the goal and of the hypotheses into propositions. *)
Ltac bool_simp :=
  repeat match goal with
  | H : _ && _ = true |- _ => apply andb_true_iff in H as [? ?]
  | H : _ || _ = false |- _ => apply orb_false_iff in H as [? ?]
  | H : negb _ = true |- _ => apply negb_true_iff in H
  | H : negb _ = false |- _ => apply negb_false_iff in H
  | H : bool_decide _ = true |- _ => apply bool_decide_eq_true in H
  | H : bool_decide _ = false |- _ => apply bool_decide_eq_false in H
  | H : (_ =? _)%Z = true |- _ => apply Z.eqb_eq in H
  | H : (_ =? _)%Z = false |- _ => apply Z.eqb_neq in H
  | H : (_ <? _)%Z = true |- _ => apply Z.ltb_lt in H
  | H : (_ <? _)%Z = false |- _ => apply Z.ltb_ge in H
  | H : (_ <=? _)%Z = true |- _ => apply Z.leb_le in H
  | H : (_ <=? _)%Z = false |- _ => apply Z.leb_gt in H
  end.

(** ** Finite relations: a finite set closed under taking predecessors holds
    a cycle *)

Section Cycle.
Context {A : Type} `{EqDecision A}.

Lemma tc_tc (R : relation A) x y : tc (tc R) x y → tc R x y.
Proof. induction 1; [done|]. by etrans. Qed.

(** If every element of a non-empty finite collection has an [R]-predecessor in
    it, then some element reaches itself. *)
Lemma predecessors_cycle (l : list A) : ∀ (R : relation A),
  l ≠ [] →
  (∀ v, v ∈ l → ∃ u, u ∈ l ∧ R u v) →
  ∃ x, x ∈ l ∧ tc R x x.
Proof.
  induction l as [|x l IH]; intros R Hne Hpred; [done|].
  destruct (Hpred x ltac:(left)) as (w & Hw & Hwx).
  destruct (decide (w = x)) as [->|Hwx'].
  { exists x. split; [left|]. by apply tc_once. }
  assert (w ∈ l) as Hwl by (inversion Hw; by subst).
  destruct (IH (tc R)) as (y & Hy & Htc).
  - by intros ->; inversion Hwl.
  - intros v Hv. destruct (Hpred v ltac:(by right)) as (u & Hu & Huv).
    inversion Hu; subst.
    + exists w. split; [done|]. eapply tc_l; [done|]. by apply tc_once.
    + exists u. split; [done|]. by apply tc_once.
  - exists y. split; [by right|]. by apply tc_tc.
Qed.
End Cycle.

(** ** Lists *)

Section Lists.
Context {A B : Type}.

(** [u] occurs before every occurrence of [v]. *)
Definition before (l : list A) (u v : A) : Prop :=
  ∀ l1 l2, l = l1 ++ v :: l2 → u ∈ l1.

Lemma elem_of_snoc (l : list A) x y : x ∈ l ++ [y] ↔ x ∈ l ∨ x = y.
Proof. by rewrite elem_of_app, list_elem_of_singleton. Qed.

Lemma before_snoc (l : list A) u v w :
  before l u v → (w = v → u ∈ l) → before (l ++ [w]) u v.
Proof.
  intros Hb Hw l1 l2 Heq.
  destruct l2 as [|y l2 _] using rev_ind.
  - apply app_inj_tail in Heq as [-> ->]. by apply Hw.
  - rewrite app_comm_cons, app_assoc in Heq.
    apply app_inj_tail in Heq as [Heq _]. by eapply Hb.
Qed.

Lemma NoDup_subseteq_length (l k : list A) :
  NoDup l → l ⊆ k → length l ≤ length k.
Proof. intros. by apply submseteq_length, NoDup_submseteq. Qed.
End Lists.

Arguments before {A} l u v.

Lemma tc_mono {A} (R R' : relation A) x y :
  (∀ u v, R u v → R' u v) → tc R x y → tc R' x y.
Proof. intros HR. by apply (tc_congruence id). Qed.

Lemma filter_all {A} (P : A → Prop) `{∀ x, Decision (P x)} (l : list A) :
  (∀ x, x ∈ l → P x) → filter P l = l.
Proof.
  induction l as [|x l IH]; intros Hall; [done|].
  rewrite filter_cons_True by (apply Hall; left). f_equal. apply IH.
  intros y Hy. apply Hall. by right.
Qed.

Lemma sum_list_perm (l k : list nat) : l ≡ₚ k → sum_list l = sum_list k.
Proof. induction 1; simpl; lia. Qed.

(** Number of elements of [l] satisfying [P]. *)
Definition count {A} (P : A → Prop) `{∀ x, Decision (P x)} (l : list A) : nat :=
  length (filter P l).

Section Count.
Context {A : Type} (P : A → Prop) `{∀ x, Decision (P x)}.

Lemma count_nil : count P [] = 0.
Proof. done. Qed.

Lemma count_cons x l :
  count P (x :: l) = (if decide (P x) then 1 else 0) + count P l.
Proof. unfold count. rewrite filter_cons. by case_decide. Qed.

Lemma count_app l k : count P (l ++ k) = count P l + count P k.
Proof. unfold count. by rewrite filter_app, length_app. Qed.

Lemma count_pos l : 0 < count P l ↔ ∃ x, x ∈ l ∧ P x.
Proof.
  unfold count. split.
  - intros Hlen. destruct (filter P l) as [|x k] eqn:E; [simpl in Hlen; lia|].
    exists x. assert (x ∈ filter P l) as Hx by (rewrite E; left).
    apply list_elem_of_filter in Hx. naive_solver.
  - intros (x & Hx & HP).
    assert (x ∈ filter P l) as Hf by (by apply list_elem_of_filter).
    destruct (filter P l); [by inversion Hf|]. simpl. lia.
Qed.

Lemma count_zero l : count P l = 0 ↔ ∀ x, x ∈ l → ¬ P x.
Proof.
  pose proof (count_pos l) as Hp. split.
  - intros Hz x Hx HPx. assert (0 < count P l) by (apply Hp; eauto). lia.
  - intros Hn. destruct (count P l) eqn:E; [done|].
    destruct (proj1 Hp) as (x & Hx & HPx); [lia|]. by destruct (Hn x Hx).
Qed.

Lemma count_le_length l : count P l ≤ length l.
Proof. apply length_filter. Qed.
End Count.

Lemma count_ext {A} (P Q : A → Prop) `{∀ x, Decision (P x)} `{∀ x, Decision (Q x)} l :
  (∀ x, x ∈ l → (P x ↔ Q x)) → count P l = count Q l.
Proof.
  induction l as [|x l IH]; intros HPQ; [done|].
  rewrite !count_cons, IH by (intros y Hy; apply HPQ; by right).
  destruct (HPQ x ltac:(left)). by repeat case_decide; naive_solver.
Qed.

#[export] Hint Rewrite @count_nil @count_app : petal_eqs.

(** ** Go strings *)

Module GoStr.
(** [strings.HasPrefix]. *)
Fixpoint HasPrefix (s prefix : string) : bool :=
  match prefix, s with
  | EmptyString, _ => true
  | String a p, String b t => if decide (a = b) then HasPrefix t p else false
  | String _ _, EmptyString => false
  end.

(** [strings.Contains]. *)
Fixpoint Contains (s sub : string) : bool :=
  HasPrefix s sub ||
  match s with
  | EmptyString => false
  | String _ t => Contains t sub
  end.

(** [strings.HasSuffix]. *)
Fixpoint HasSuffix (s suffix : string) : bool :=
  bool_decide (s = suffix) ||
  match s with
  | EmptyString => false
  | String _ t => HasSuffix t suffix
  end.

(** [strings.Compare], the three-way byte-wise comparison. *)
Fixpoint Compare (a b : string) : Z :=
  match a, b with
  | EmptyString, EmptyString => 0
  | EmptyString, String _ _ => -1
  | String _ _, EmptyString => 1
  | String x a', String y b' =>
      let nx := Ascii.nat_of_ascii x in
      let ny := Ascii.nat_of_ascii y in
      if Nat.ltb nx ny then -1 else if Nat.ltb ny nx then 1 else Compare a' b'
  end%Z.

(** [strings.Split s "."] (a one-byte separator). *)
Fixpoint SplitOn (sep : Ascii.ascii) (s : string) : list string :=
  match s with
  | EmptyString => [EmptyString]
  | String c t =>
      if decide (c = sep) then EmptyString :: SplitOn sep t
      else match SplitOn sep t with
           | [] => [String c EmptyString]
           | h :: r => String c h :: r
           end
  end.

(** [strings.Join]. *)
Fixpoint Join (l : list string) (sep : string) : string :=
  match l with
  | [] => EmptyString
  | [x] => x
  | x :: r => x ^^ sep ^^ Join r sep
  end.

(** [strconv.Itoa] on a non-negative index. *)
Definition Itoa (n : nat) : string := pretty n.
End GoStr.

(** ** The order of Go strings *)

Lemma Compare_range a b : (GoStr.Compare a b = -1 ∨ GoStr.Compare a b = 0 ∨ GoStr.Compare a b = 1)%Z.
Proof.
  revert b. induction a as [|x a IH]; intros [|y b]; simpl; auto.
  destruct (Nat.ltb _ _); [auto|]. destruct (Nat.ltb _ _); auto.
Qed.

Lemma Compare_antisym a b : GoStr.Compare a b = (- GoStr.Compare b a)%Z.
Proof.
  revert b. induction a as [|x a IH]; intros [|y b]; simpl; [done..|].
  destruct (Nat.ltb_spec (Ascii.nat_of_ascii x) (Ascii.nat_of_ascii y)),
    (Nat.ltb_spec (Ascii.nat_of_ascii y) (Ascii.nat_of_ascii x)); [lia|done|done|apply IH].
Qed.

Lemma nat_of_ascii_inj x y : Ascii.nat_of_ascii x = Ascii.nat_of_ascii y → x = y.
Proof. intros E. by rewrite <- (Ascii.ascii_nat_embedding x), E, Ascii.ascii_nat_embedding. Qed.

Lemma Compare_refl a : GoStr.Compare a a = 0%Z.
Proof. induction a as [|x a IH]; [done|]. simpl. by rewrite Nat.ltb_irrefl. Qed.

Lemma Compare_eq a b : GoStr.Compare a b = 0%Z ↔ a = b.
Proof.
  split; [|intros ->; apply Compare_refl].
  revert b. induction a as [|x a IH]; intros [|y b]; simpl; [done..|].
  destruct (Nat.ltb_spec (Ascii.nat_of_ascii x) (Ascii.nat_of_ascii y)); [done|].
  destruct (Nat.ltb_spec (Ascii.nat_of_ascii y) (Ascii.nat_of_ascii x)); [done|].
  intros ->%IH. f_equal. apply nat_of_ascii_inj. lia.
Qed.

(** [a <= b] on Go strings. *)
Definition string_le (a b : string) : Prop := (GoStr.Compare a b <= 0)%Z.

#[export] Instance string_le_dec a b : Decision (string_le a b).
Proof. unfold string_le. apply _. Defined.

#[export] Instance string_le_total : Total string_le.
Proof. intros a b. unfold string_le. rewrite (Compare_antisym b a). lia. Qed.

#[export] Instance string_le_antisymm : AntiSymm (=) string_le.
Proof. intros a b Hab Hba. apply Compare_eq. unfold string_le in *. rewrite Compare_antisym in Hba. lia. Qed.

#[export] Instance string_le_trans : Transitive string_le.
Proof.
  unfold string_le. intros a. induction a as [|x a IH]; intros [|y b] [|z c]; simpl; try lia.
  repeat match goal with |- context [Nat.ltb ?u ?v] => destruct (Nat.ltb_spec u v) end; try lia.
  apply IH.
Qed.

#[export] Instance string_le_preorder : PreOrder string_le.
Proof. split; [|apply _]. intros a. unfold string_le. rewrite Compare_refl. lia. Qed.

(** [sort.Strings]. *)
Definition sort_Strings (l : list string) : list string := merge_sort string_le l.

Lemma sort_Strings_Permutation l : sort_Strings l ≡ₚ l.
Proof. apply merge_sort_Permutation. Qed.

Lemma sort_Strings_Sorted l : StronglySorted string_le (sort_Strings l).
Proof. apply StronglySorted_merge_sort; apply _. Qed.

Lemma sort_Strings_canonical l l' : l ≡ₚ l' → sort_Strings l = sort_Strings l'.
Proof.
  intros Hp. apply (StronglySorted_unique string_le); [apply sort_Strings_Sorted..|].
  by rewrite !sort_Strings_Permutation.
Qed.

(** Pairs by their first component. *)
Definition key_le {A} (x y : string * A) : Prop := string_le x.1 y.1.
#[export] Instance key_le_dec {A} (x y : string * A) : Decision (key_le x y).
Proof. unfold key_le. apply _. Defined.

(** A range over a map whose keys were sorted first. *)
Definition range_sorted {A B} (m : gmap string A) (f : string → A → B) : list B :=
  map snd (merge_sort key_le (map_fold (λ k x acc, (k, f k x) :: acc) [] m)).

Lemma range_sorted_Permutation {A B} (m : gmap string A) (f : string → A → B) :
  range_sorted m f ≡ₚ map (λ kx, f kx.1 kx.2) (map_to_list m).
Proof.
  unfold range_sorted. rewrite merge_sort_Permutation, map_fold_foldr.
  induction (map_to_list m) as [|[k x] l IH]; simpl; [done|]. by f_equiv.
Qed.

Lemma elem_of_range_sorted {A B} (m : gmap string A) (f : string → A → B) y :
  y ∈ range_sorted m f ↔ ∃ k x, m !! k = Some x ∧ y = f k x.
Proof.
  rewrite range_sorted_Permutation, list_elem_of_fmap. split.
  - intros ([k x] & -> & Hx%elem_of_map_to_list). eauto.
  - intros (k & x & Hx & ->). exists (k, x). by rewrite elem_of_map_to_list.
Qed.

Lemma app_nil_iff {A} (l k : list A) : l ++ k = [] ↔ l = [] ∧ k = [].
Proof. destruct l; naive_solver. Qed.

Lemma mjoin_nil_iff {A B} (f : A → list B) (l : list A) :
  mjoin (map f l) = [] ↔ ∀ x, x ∈ l → f x = [].
Proof.
  induction l as [|x l IH]; simpl; [split; [intros _ x Hx; inversion Hx|done]|].
  rewrite app_nil_iff, IH. setoid_rewrite elem_of_cons. naive_solver.
Qed.

Lemma join_range_sorted_nil {A B} (m : gmap string A) (f : string → A → list B) :
  mjoin (range_sorted m f) = [] ↔ ∀ k x, m !! k = Some x → f k x = [].
Proof.
  rewrite <- (map_id (range_sorted m f)), mjoin_nil_iff. split.
  - intros Hall k x Hx. apply (Hall (f k x)), elem_of_range_sorted. eauto.
  - intros Hall y (k & x & Hx & ->)%elem_of_range_sorted. by apply Hall.
Qed.

Lemma NoDup_map_filter {A B} (f : A → B) (P : A → Prop) `{!∀ x, Decision (P x)} (l : list A) :
  NoDup (map f l) → NoDup (map f (filter P l)).
Proof.
  intros Hnd. induction l as [|x l IH]; [constructor|]. simpl in Hnd. apply NoDup_cons in Hnd as [Hx Hnd].
  rewrite filter_cons. case_decide; [|by apply IH]. simpl. constructor; [|by apply IH].
  intros (y & Hy & [_ Hin]%list_elem_of_filter)%list_elem_of_fmap. apply Hx, list_elem_of_fmap. by exists y.
Qed.

Lemma lookup_set {A} (l : list A) i j x y z : l !! i = Some x → <[i := y]> l !! j = Some z → (i = j ∧ z = y) ∨ (i ≠ j ∧ l !! j = Some z).
Proof.
  intros Hi. destruct (decide (i = j)) as [<-|Hne]; [|rewrite list_lookup_insert_ne by done; by right].
  rewrite list_lookup_insert_eq by (by eapply lookup_lt_Some). intros [= <-]. by left.
Qed.

(** Decimal digits, as [strconv] reads them. *)
Fixpoint parse_digits (s : string) (n : Z) : option Z :=
  match s with
  | EmptyString => Some n
  | String c t =>
      let d := (Z.of_nat (Ascii.nat_of_ascii c) - 48)%Z in
      if (0 <=? d)%Z && (d <=? 9)%Z then parse_digits t (n * 10 + d)%Z else None
  end.

(** ** Ranging over maps *)

(** The order in which one execution of a [range] statement, identified by a
    label, visits a map. *)
Class RangeOrder := {
  range_map {A} : string → gmap string A → list (string * A);
  range_map_perm {A} site (m : gmap string A) : range_map site m ≡ₚ map_to_list m
}.

Lemma elem_of_range `{RangeOrder} {A} site (m : gmap string A) k x :
  (k, x) ∈ range_map site m ↔ m !! k = Some x.
Proof. by rewrite range_map_perm, elem_of_map_to_list. Qed.

(** What the bodies of a [range] statement append. *)
Definition range_over `{RangeOrder} {A B} (site : string) (m : gmap string A)
    (f : string → A → list B) : list B :=
  mjoin (map (λ kv, f kv.1 kv.2) (range_map site m)).

Lemma range_over_nil `{RangeOrder} {A B} site (m : gmap string A) (f : string → A → list B) :
  range_over site m f = [] ↔ ∀ k x, m !! k = Some x → f k x = [].
Proof.
  unfold range_over. rewrite mjoin_nil_iff. split.
  - intros Hall k x Hk. apply (Hall (k, x)), elem_of_range, Hk.
  - intros Hall [k x] Hk. by apply Hall, (elem_of_range site).
Qed.

Lemma elem_of_range_over `{RangeOrder} {A B} site (m : gmap string A) (f : string → A → list B) y :
  y ∈ range_over site m f ↔ ∃ k x, m !! k = Some x ∧ y ∈ f k x.
Proof.
  unfold range_over. rewrite list_elem_of_join. split.
  - intros (l & Hy & ([k x] & -> & Hx%elem_of_range)%list_elem_of_fmap). eauto.
  - intros (k & x & Hx & Hy). exists (f k x). split; [done|]. apply list_elem_of_fmap.
    exists (k, x). split; [done|]. by apply (elem_of_range site).
Qed.

(** The order of the keys as the map lists them, for samples. *)
Definition key_order : RangeOrder :=
  {| range_map A _ m := map_to_list m; range_map_perm A _ m := Permutation_refl _ |}.

(** ** Positions of a list *)

Lemma omap_nil_iff {A B} (f : A → option B) (l : list A) : omap f l = [] ↔ ∀ x, x ∈ l → f x = None.
Proof.
  induction l as [|y l IH]; simpl; [split; [by intros _ x ?%not_elem_of_nil|done]|].
  destruct (f y) eqn:Hy; [split; [done|]; intros Hall; by rewrite Hall in Hy by left|].
  rewrite IH. split; [intros Hall x [->|Hx]%elem_of_cons; auto|intros Hall x Hx; apply Hall; by right].
Qed.

Lemma sublist_omap {A B} (f : A → option B) (l1 l2 : list A) :
  l1 `sublist_of` l2 → omap f l1 `sublist_of` omap f l2.
Proof.
  induction 1 as [|x l1 l2 _ IH|x l1 l2 _ IH]; simpl; [constructor|..]; destruct (f x); by try constructor.
Qed.

Lemma list_omap_map {A B C} (f : B → option C) (g : A → B) (l : list A) : omap f (g <$> l) = omap (f ∘ g) l.
Proof. induction l as [|x l IH]; [done|]. simpl. unfold compose. destruct (f (g x)); [f_equal|]; apply IH. Qed.

Lemma list_omap_ext_in {A B} (f g : A → option B) (l : list A) :
  (∀ x, x ∈ l → f x = g x) → omap f l = omap g l.
Proof.
  induction l as [|x l IH]; intros Hfg; [done|]. simpl. rewrite Hfg by left.
  assert (omap f l = omap g l) as Hl by (apply IH; intros y Hy; apply Hfg; by right).
  unfold omap in Hl. by rewrite Hl.
Qed.

Lemma omap_seq_lookup {A} (l : list A) : omap (l !!.) (seq 0 (length l)) = l.
Proof.
  induction l as [|x l IH]; [done|]. simpl. f_equal. rewrite <- fmap_S_seq, list_omap_map. exact IH.
Qed.

Lemma filter_seq_sorted (P : nat → Prop) `{∀ i, Decision (P i)} j n : StronglySorted Nat.le (filter P (seq j n)).
Proof.
  revert j. induction n as [|n IH]; intros j; [constructor|]. simpl.
  destruct (decide (P j)); [rewrite filter_cons_True by done|by rewrite filter_cons_False by done].
  constructor; [apply IH|]. apply Forall_forall. intros i [_ Hi%elem_of_seq]%list_elem_of_filter. lia.
Qed.

(** Items at increasing positions. *)
Lemma sublist_positions {A} (l : list A) (ps : list nat) :
  NoDup ps → (∀ i, i ∈ ps → i < length l) → omap (l !!.) (merge_sort Nat.le ps) `sublist_of` l.
Proof.
  intros Hnd Hlt. assert (merge_sort Nat.le ps = filter (λ i, i ∈ ps) (seq 0 (length l))) as ->.
  { apply (Sorted_unique Nat.le).
    - apply Sorted_merge_sort. apply _.
    - apply StronglySorted_Sorted, filter_seq_sorted.
    - rewrite merge_sort_Permutation. apply NoDup_Permutation; [done|apply NoDup_filter, NoDup_seq|].
      intros i. rewrite list_elem_of_filter, elem_of_seq. split; [|tauto].
      intros Hi. specialize (Hlt i Hi). split; [done|lia]. }
  etrans; [apply sublist_omap, sublist_filter|]. by rewrite omap_seq_lookup.
Qed.

(** ** [int64] arithmetic *)

Definition wrap64 (z : Z) : Z := ((z + 2 ^ 63) mod 2 ^ 64 - 2 ^ 63)%Z.

(** ** A state monad for Go code: the state is threaded, [None] is a panic *)

Definition GoM (S A : Type) : Type := S → S * option A.

Section GoMonad.
Context {S : Type}.

#[export] Instance gom_ret : MRet (GoM S) := λ A x s, (s, Some x).
#[export] Instance gom_bind : MBind (GoM S) := λ A B f m s,
  match m s with
  | (s', Some a) => f a s'
  | (s', None) => (s', None)
  end.

Definition panic {A} : GoM S A := λ s, (s, None).
Definition gets {A} (f : S → A) : GoM S A := λ s, (s, Some (f s)).
Definition modify (f : S → S) : GoM S unit := λ s, (f s, Some tt).

(** [triple P m Q E]: from a state satisfying [P], the computation ends in
    [Q a s] with result [a], or panics in a state satisfying [E]. *)
Definition triple {A} (P : S → Prop) (m : GoM S A)
    (Q : A → S → Prop) (E : S → Prop) : Prop :=
  ∀ s, P s → match m s with (s', Some a) => Q a s' | (s', None) => E s' end.

Lemma triple_ret {A} (x : A) (Q : A → S → Prop) E : triple (Q x) (mret x) Q E.
Proof. by intros s HQ. Qed.

Lemma triple_bind {A B} (m : GoM S A) (f : A → GoM S B) P Q R E :
  triple P m Q E → (∀ a, triple (Q a) (f a) R E) → triple P (m ≫= f) R E.
Proof.
  intros Hm Hf s HP. unfold mbind, gom_bind.
  specialize (Hm s HP). destruct (m s) as [s' [a|]]; [|done].
  by apply Hf.
Qed.

Lemma triple_conseq {A} (m : GoM S A) (P P' : S → Prop) (Q Q' : A → S → Prop) (E E' : S → Prop) :
  triple P m Q E → (∀ s, P' s → P s) → (∀ a s, Q a s → Q' a s) → (∀ s, E s → E' s) →
  triple P' m Q' E'.
Proof.
  intros Hm HP HQ HE s Hs. specialize (Hm s (HP s Hs)).
  destruct (m s) as [s' [a|]]; auto.
Qed.

Lemma triple_panic {A} P (Q : A → S → Prop) : triple P panic Q P.
Proof. by intros s HP. Qed.
End GoMonad.
