(* ===== verification/Values.v ===== *)
(** * Go values

    The dynamic values ([any]) that flow through workflow variables, the binary64
    numbers they carry, and the error values of the Go code. *)

From stdpp Require Import gmap strings list fin_maps pretty.
From Stdlib Require Import ZArith SpecFloat Lia.
From S2P Require Import Prelude.

(** ** [float64] *)

(** IEEE 754 binary64, with the kernel-computable operations of [SpecFloat]. *)
Module F64.
Definition t : Type := spec_float.
Definition prec : Z := 53.
Definition emax : Z := 1024.

(** [float64(z)] for an integer [z]: round to nearest even. *)
Definition of_Z (z : Z) : t := binary_normalize prec emax z 0 false.

Definition zero : t := S754_zero false.

(** Go's [==], [<] and [>] on [float64] (all false when an operand is NaN). *)
Definition eqb (a b : t) : bool := SFeqb a b.
Definition ltb (a b : t) : bool := SFltb a b.

Definition mul (a b : t) : t := SFmul prec emax a b.

(** The decimal [± m / 10^k], correctly rounded. *)
Definition of_decimal (neg : bool) (m : Z) (k : nat) : t :=
  match m with
  | Zpos p =>
      SFdiv prec emax (S754_finite neg p 0) (S754_finite false (match k with O => 1%positive | _ => Pos.pow 10 (Pos.of_nat k) end) 0)
  | _ => S754_zero neg
  end.

Definition is_inf (f : t) : bool :=
  match f with S754_infinity _ => true | _ => false end.

(** [int(f)]: truncation towards zero; a value that no [int] represents gives
    the amd64 result, the least [int]. *)
Definition min_int : Z := - 2 ^ 63.
Definition max_int : Z := 2 ^ 63 - 1.
Definition to_int (f : t) : Z :=
  match f with
  | S754_zero _ => 0
  | S754_finite s m e =>
      let a := if (0 <=? e)%Z then (Zpos m * 2 ^ e)%Z else (Zpos m / 2 ^ (- e))%Z in
      let z := if s then (- a)%Z else a in
      if (min_int <=? z)%Z && (z <=? max_int)%Z then z else min_int
  | _ => min_int
  end.
End F64.

#[export] Instance spec_float_eq_dec : EqDecision spec_float.
Proof. solve_decision. Defined.

Example f64_tenth : F64.of_decimal false 1 1 = S754_finite false 7205759403792794 (-56).
Proof. reflexivity. Qed.
Example f64_five : F64.of_decimal false 5 0 = F64.of_Z 5.
Proof. reflexivity. Qed.
Example f64_trunc : F64.to_int (F64.of_decimal true 27 1) = (-2)%Z.
Proof. reflexivity. Qed.

(** ** [any] *)

(** The dynamic types the modelled code stores in, or reads from, a variable.
    [VSliceOf] is a slice of another element type than [any] and [string], by the
    name of that type; [VNilMap] is a nil [map[string]any] inside an interface;
    [VDecision] is [core.RouteDecision]; [VStruct] any other struct type, by its
    name. *)
Inductive value : Type :=
| VNil
| VBool (b : bool)
| VInt (z : Z)
| VInt32 (z : Z)
| VInt64 (z : Z)
| VFloat32 (f : F64.t)
| VFloat64 (f : F64.t)
| VString (s : string)
| VSlice (l : list value)
| VStrings (l : list string)
| VSliceOf (elem : string) (l : list value)
| VMap (m : gmap string value)
| VNilMap
| VDecision (targets : list string) (reason : string)
    (confidence : option F64.t) (meta : gmap string value)
| VStruct (ty : string) (fields : gmap string value).

(** The entries of a map-typed value, as [reflect] or a type switch sees them. *)
Definition value_map (v : value) : option (gmap string value) :=
  match v with
  | VMap m => Some m
  | VNilMap => Some ∅
  | _ => None
  end.

(** The nesting of the maps of a value. *)
Fixpoint depth (v : value) : nat :=
  match v with
  | VMap m => S (map_fold (λ _ x acc, max (depth x) acc) 0 m)
  | _ => 0
  end.

Lemma depth_lookup m k x : m !! k = Some x → depth x < depth (VMap m).
Proof.
  intros Hx%elem_of_map_to_list. simpl. rewrite map_fold_foldr.
  induction (map_to_list m) as [|[j y] l IH]; [by apply not_elem_of_nil in Hx|].
  apply elem_of_cons in Hx as [[= <- <-]|Hx]; simpl; [lia|]. specialize (IH Hx). lia.
Qed.

(** Induction over the maps inside a value. *)
Lemma value_map_induct (P : value → Prop) :
  (∀ v, (∀ m k x, value_map v = Some m → m !! k = Some x → P x) → P v) → ∀ v, P v.
Proof.
  intros Hstep v. remember (depth v) as d eqn:Hd. revert v Hd.
  induction (lt_wf d) as [d _ IH]. intros v ->. apply Hstep. intros m k x Hm Hx.
  destruct v; try discriminate; injection Hm as <-; [|by rewrite lookup_empty in Hx].
  by apply (IH (depth x) (depth_lookup _ _ _ Hx)).
Qed.

(** The dynamic type of a value, for [%T]. *)
Definition type_name (v : value) : string :=
  match v with
  | VNil => "<nil>" | VBool _ => "bool" | VInt _ => "int" | VInt32 _ => "int32"
  | VInt64 _ => "int64" | VFloat32 _ => "float32" | VFloat64 _ => "float64"
  | VString _ => "string" | VSlice _ => "[]interface {}" | VStrings _ => "[]string"
  | VSliceOf elem _ => "[]" ^^ elem
  | VMap _ | VNilMap => "map[string]interface {}"
  | VDecision _ _ _ _ => "core.RouteDecision" | VStruct ty _ => ty
  end.

(** [v.(string)]. *)
Definition as_string (v : value) : option string :=
  match v with VString s => Some s | _ => None end.

(** [s, _ := v.(string)]: the empty string when the assertion fails. *)
Definition string_or_empty (v : option value) : string :=
  match v with Some (VString s) => s | _ => EmptyString end.

(** ** Errors *)

(** An error is a package-level sentinel or a formatted message; [PW] is an
    argument of [%w] (kept for [errors.Is]), [PE] an error printed with [%v],
    [PQ] a string printed with [%q], [PF] a number with that many decimals. *)
Inductive error : Type :=
| ESentinel (msg : string)
| EFmt (parts : list part)
with part : Type :=
| PS (s : string)
| PQ (s : string)
| PD (z : Z)
| PV (v : value)
| PF (digits : nat) (f : F64.t)
| PL (l : list string)
| PE (e : error)
| PW (e : error).

(** [errors.Is e target] for a sentinel target: the chain of [%w] arguments. *)
Fixpoint errors_Is (e : error) (target : string) : bool :=
  match e with
  | ESentinel m => bool_decide (m = target)
  | EFmt ps => existsb (λ p, match p with PW e' => errors_Is e' target | _ => false end) ps
  end.

Definition sentinel_name (e : error) : string :=
  match e with ESentinel m => m | _ => EmptyString end.

(** [fmt.Errorf("%w: ...", sentinel, ...)]. *)
Definition wrapf (e : error) (ps : list part) : error := EFmt (PW e :: PS ": " :: ps).

Lemma errors_Is_wrapf e ps t :
  errors_Is (wrapf e ps) t =
  errors_Is e t || existsb (λ p, match p with PW e' => errors_Is e' t | _ => false end) ps.
Proof. done. Qed.

#[export] Hint Rewrite errors_Is_wrapf : petal_eqs.
