(* ===== verification/GoFmt.v ===== *)
(** * Default formatting ([fmt.Sprintf("%v", x)])

    The text of a dynamic value, which the rule router, the merge strategies and
    the helpers of the nodes compare and concatenate. Floating point numbers are
    printed with the shortest decimal that reads back as the same number, as
    [strconv.FormatFloat(f, 'g', -1, bits)] does. *)

From stdpp Require Import gmap strings list fin_maps pretty sorting.
From Stdlib Require Import Ascii ZArith SpecFloat Lia.
From S2P Require Import Prelude Values.

(** ** Floating point numbers *)

Module Ftoa.
(** The binary number closest to [q * 10^k]. *)
Definition of_scaled (prec emax q k : Z) : spec_float :=
  if (0 <=? k)%Z then binary_normalize prec emax (q * 10 ^ k) 0 false
  else match q with
       | Zpos p => SFdiv prec emax (S754_finite false p 0)
                     (S754_finite false (Z.to_pos (10 ^ (- k))) 0)
       | _ => S754_zero false
       end.

(** The number [m * 2^e] as a fraction. *)
Definition fraction (m : positive) (e : Z) : Z * Z :=
  if (0 <=? e)%Z then (Zpos m * 2 ^ e, 1)%Z else (Zpos m, 2 ^ (- e))%Z.

(** The position of the decimal point: the least [dp] with [a / b < 10^dp]. *)
Fixpoint decimal_point (fuel : nat) (a b dp : Z) : Z :=
  match fuel with
  | 0 => dp
  | S fuel' =>
      if (0 <=? dp)%Z then
        if (a <? b * 10 ^ dp)%Z then
          if (b * 10 ^ (dp - 1) <=? a)%Z && (1 <=? dp)%Z then dp
          else if (dp =? 0)%Z && (b <=? a * 10)%Z then dp
          else decimal_point fuel' a b (dp - 1)
        else decimal_point fuel' a b (dp + 1)
      else if (b <=? a * 10 ^ (1 - dp))%Z then dp else decimal_point fuel' a b (dp - 1)
  end.

(** [a / b] truncated to [n] digits, and the remainder and its divisor. *)
Definition truncated (a b dp n : Z) : Z * Z * Z :=
  let k := (n - dp)%Z in
  let '(a, b) := if (0 <=? k)%Z then (a * 10 ^ k, b)%Z else (a, b * 10 ^ (- k))%Z in
  (a / b, a mod b, b)%Z.

(** The first number of digits from [n] on at which truncating or rounding up
    gives [f] back: the digits and the decimal point. *)
Fixpoint shortest (fuel : nat) (prec emax : Z) (f : spec_float) (a b dp n : Z) : Z * Z :=
  let '(q, r, d) := truncated a b dp n in
  let okdown := SFeqb (of_scaled prec emax q (dp - n)) f in
  let okup := SFeqb (of_scaled prec emax (q + 1) (dp - n)) f in
  let up := if (q + 1 =? 10 ^ n)%Z then (1, dp + 1)%Z else (q + 1, dp)%Z in
  let roundUp := (d <? 2 * r)%Z || ((2 * r =? d)%Z && Z.odd q) in
  match fuel with
  | 0 => (q, dp)
  | S fuel' =>
      if okdown && okup then if roundUp then up else (q, dp)
      else if okdown then (q, dp)
      else if okup then up
      else shortest fuel' prec emax f a b dp (n + 1)
  end.

Fixpoint zeros (n : nat) : string :=
  match n with 0 => EmptyString | S n' => "0" ^^ zeros n' end.

Definition len (s : string) : Z := Z.of_nat (String.length s).

(** The format [%e] of the digits. *)
Definition fmtE (digits : string) (exp : Z) : string :=
  let mant := match digits with
              | String c EmptyString => String c EmptyString
              | String c r => String c EmptyString ^^ "." ^^ r
              | EmptyString => EmptyString
              end in
  let e := pretty (Z.abs exp) in
  mant ^^ "e" ^^ (if (exp <? 0)%Z then "-" else "+") ^^
    (if (len e <? 2)%Z then "0" ^^ e else e).

(** The format [%f] of the digits with as many decimals as there are. *)
Definition fmtF (digits : string) (dp : Z) : string :=
  let n := len digits in
  if (dp <=? 0)%Z then "0." ^^ zeros (Z.to_nat (- dp)) ^^ digits
  else if (n <=? dp)%Z then digits ^^ zeros (Z.to_nat (dp - n))
  else String.substring 0 (Z.to_nat dp) digits ^^ "." ^^
         String.substring (Z.to_nat dp) (Z.to_nat (n - dp)) digits.

(** [%v] of a floating point number with [prec] bits and exponents below [emax]. *)
Definition format (prec emax : Z) (f : spec_float) : string :=
  match f with
  | S754_nan => "NaN"
  | S754_infinity s => if s then "-Inf" else "+Inf"
  | S754_zero s => if s then "-0" else "0"
  | S754_finite s m e =>
      let '(a, b) := fraction m e in
      let dp := decimal_point 800 a b 0 in
      let '(q, dp) := shortest 17 prec emax (S754_finite false m e) a b dp 1 in
      let digits := pretty q in
      let exp := (dp - 1)%Z in
      (if s then "-" else "") ^^
        (if (exp <? -4)%Z || (6 <=? exp)%Z then fmtE digits exp
         else fmtF digits dp)
  end.
End Ftoa.

(** ** Values *)

(** What the text of a value depends on besides the value: the address a pointer
    is printed as, and the declared order of the fields of a struct type. *)
Class Printer := {
  print_pointer : F64.t → string;
  print_struct : string → gmap string value → string
}.

(** [strconv.Quote], which [%q] prints a string with. *)
Class Quoter := { strconv_Quote : string → string }.

(** [json.Marshal]: the text of a value, or why it has none. *)
Class JsonEncoder := { json_Marshal : value → string + error }.

(** [json.MarshalIndent] with two blanks. *)
Class JsonPrinter := { json_MarshalIndent : value → string + error }.

(** [text/template] with a function map: why a template does not parse, and its
    execution on the data of the top-level map. A function gives [None] when its
    arguments do not have the types of its parameters, which the engine reports. *)
Definition template_func : Type := list value → option value.
Class Templates := {
  template_parses : list (string * template_func) → string → option error;
  template_execute : list (string * template_func) → string → gmap string value → string + error
}.

(** A template parsed and executed on the data of its top-level map. *)
Class TemplateEngine := { template_render : string → gmap string value → string + error }.

(** [time.ParseDuration]: nanoseconds. *)
Class DurationParser := { time_ParseDuration : string → Z + error }.

(** [map[k:v ...]] with the keys in order. *)
Definition print_entries (kvs : list (string * string)) : string :=
  "map[" ^^ GoStr.Join (map (λ kv, kv.1 ^^ ":" ^^ kv.2) (merge_sort key_le kvs)) " " ^^ "]".

Definition print_list (l : list string) : string := "[" ^^ GoStr.Join l " " ^^ "]".

Section Sprint.
Context `{Printer}.

Fixpoint Sprint (v : value) : string :=
  let entries m := map_fold (λ k x acc, (k, Sprint x) :: acc) [] m in
  match v with
  | VNil => "<nil>"
  | VBool b => if b then "true" else "false"
  | VInt z | VInt32 z | VInt64 z => pretty z
  | VFloat32 f => Ftoa.format 24 128 f
  | VFloat64 f => Ftoa.format 53 1024 f
  | VString s => s
  | VSlice l | VSliceOf _ l => print_list (map Sprint l)
  | VStrings l => print_list l
  | VMap m => print_entries (entries m)
  | VNilMap => "map[]"
  | VDecision targets reason confidence meta =>
      "{" ^^ GoStr.Join [print_list targets; reason;
        match confidence with Some f => print_pointer f | None => "<nil>" end;
        print_entries (entries meta)] " " ^^ "}"
  | VStruct ty fields => print_struct ty fields
  end.
End Sprint.

(** ** Samples *)

Section Samples.
#[local] Instance sample_printer : Printer :=
  {| print_pointer _ := "0xc000012345"; print_struct ty _ := ty |}.

Example ftoa_samples :
  map (λ f, Sprint (VFloat64 f))
    [F64.of_decimal false 1 1; F64.of_Z 1000000; F64.of_decimal true 1234567 3;
     F64.of_decimal false 1 7; F64.of_Z (2 ^ 70); F64.of_decimal false 3 0;
     SFdiv 53 1024 (F64.of_Z 1) (F64.of_Z 3); F64.of_decimal false 20 0; S754_nan]
  = ["0.1"; "1e+06"; "-1234.567"; "1e-07"; "1.1805916207174113e+21"; "3";
     "0.3333333333333333"; "20"; "NaN"].
Proof. vm_compute. reflexivity. Qed.

Example ftoa_small : Ftoa.format 24 128 (SFdiv 24 128 (F64.of_Z 1) (F64.of_Z 10)) = "0.1".
Proof. vm_compute. reflexivity. Qed.

Example sprint_samples :
  map Sprint [VSlice [VInt 1; VString "a b"; VNil]; VBool true; VInt64 (-7);
     VMap (<["b" := VInt 2]> {[ "a" := VStrings ["x"; "y"] ]}); VDecision ["t"] "r" None ∅]
  = ["[1 a b <nil>]"; "true"; "-7"; "map[a:[x y] b:2]"; "{[t] r <nil> map[]}"].
Proof. vm_compute. reflexivity. Qed.
End Samples.
