(* ===== verification/Envelope.v ===== *)
(** * The envelope (core/envelope.go, core/types.go)

    The data carrier passed between nodes: its record, its accessors and its
    mutators. An envelope is a value here; the components that depend on the
    identity of envelopes (the parallel executor, the merge strategies) keep
    them in a store. *)

From stdpp Require Import gmap strings list fin_maps.
From Stdlib Require Import Ascii ZArith Lia.
From S2P Require Import Prelude Values.

(** ** Data *)

Record Message := mkMessage {
  msg_Role : string;
  msg_Content : string;
  msg_Name : string;
  msg_Meta : gmap string value
}.

Record Artifact := mkArtifact {
  art_ID : string;
  art_Type : string;
  art_MimeType : string;
  art_Text : string;
  art_Bytes : string;
  art_URI : string;
  art_Meta : gmap string value
}.

Record TraceInfo := mkTrace {
  tr_RunID : string;
  tr_ParentID : string;
  tr_SpanID : string;
  tr_TraceID : string;
  tr_Started : Z
}.

Record NodeError := mkNodeError {
  ne_NodeID : string;
  ne_Kind : string;
  ne_Message : error;      (** [err.Error()], kept unformatted *)
  ne_Attempt : Z;
  ne_At : Z;
  ne_Details : gmap string value;
  ne_Cause : option error
}.

(** [Vars = None] is the nil map. *)
Record Envelope := mkEnvelope {
  env_Input : value;
  env_Vars : option (gmap string value);
  env_Artifacts : list Artifact;
  env_Messages : list Message;
  env_Errors : list NodeError;
  env_Trace : TraceInfo
}.

Definition vars_of (e : Envelope) : gmap string value := default ∅ (env_Vars e).

Definition set_Vars (m : gmap string value) (e : Envelope) : Envelope :=
  mkEnvelope (env_Input e) (Some m) (env_Artifacts e) (env_Messages e) (env_Errors e) (env_Trace e).
Definition set_Errors (l : list NodeError) (e : Envelope) : Envelope :=
  mkEnvelope (env_Input e) (env_Vars e) (env_Artifacts e) (env_Messages e) l (env_Trace e).
Definition set_Trace (t : TraceInfo) (e : Envelope) : Envelope :=
  mkEnvelope (env_Input e) (env_Vars e) (env_Artifacts e) (env_Messages e) (env_Errors e) t.

(** ** Operations *)

Definition NewEnvelope (now : Z) : Envelope :=
  mkEnvelope VNil (Some ∅) [] [] []
    (mkTrace EmptyString EmptyString EmptyString EmptyString now).

(** The copy has fresh containers with the same contents; a nil pointer gives nil. *)
Definition Clone (e : option Envelope) : option Envelope :=
  match e with
  | None => None
  | Some e => Some (mkEnvelope (env_Input e) (env_Vars e) (env_Artifacts e) (env_Messages e)
                      (env_Errors e) (env_Trace e))
  end.

Definition GetVar (e : Envelope) (name : string) : option value :=
  match env_Vars e with
  | None => None
  | Some m => m !! name
  end.

Definition GetVarString (e : Envelope) (name : string) : string :=
  match GetVar e name with
  | None => EmptyString
  | Some v => match as_string v with None => EmptyString | Some s => s end
  end.

(** The loop of [GetVarNested] over the remaining parts of the path. *)
Fixpoint nested_lookup (current : value) (parts : list string) : option value :=
  match parts with
  | [] => Some current
  | part :: rest =>
      match value_map current with
      | Some m => match m !! part with
                  | Some v => nested_lookup v rest
                  | None => None
                  end
      | None => None
      end
  end.

Definition GetVarNested (e : Envelope) (path : string) : option value :=
  match env_Vars e with
  | None => None
  | Some m => nested_lookup (VMap m) (GoStr.SplitOn "."%char path)
  end.

Definition SetVar (name : string) (v : value) (e : Envelope) : Envelope :=
  set_Vars (<[name := v]> (vars_of e)) e.

(** [delete(e.Vars, name)], a no-op on a nil map. *)
Definition DeleteVar (name : string) (e : Envelope) : Envelope :=
  match env_Vars e with
  | None => e
  | Some m => set_Vars (delete name m) e
  end.

Definition AppendError (err : NodeError) (e : Envelope) : Envelope :=
  set_Errors (env_Errors e ++ [err]) e.

Definition AppendArtifact (a : Artifact) (e : Envelope) : Envelope :=
  mkEnvelope (env_Input e) (env_Vars e) (env_Artifacts e ++ [a]) (env_Messages e)
    (env_Errors e) (env_Trace e).

Definition AppendMessage (m : Message) (e : Envelope) : Envelope :=
  mkEnvelope (env_Input e) (env_Vars e) (env_Artifacts e) (env_Messages e ++ [m])
    (env_Errors e) (env_Trace e).

Definition HasErrors (e : Envelope) : bool := bool_decide (0 < length (env_Errors e)).

Definition GetArtifactsByType (e : Envelope) (ty : string) : list Artifact :=
  filter (λ a, art_Type a = ty) (env_Artifacts e).

Definition GetMessagesByRole (e : Envelope) (role : string) : list Message :=
  filter (λ m, msg_Role m = role) (env_Messages e).

Definition GetLastMessage (e : Envelope) : option Message :=
  if bool_decide (length (env_Messages e) = 0) then None
  else env_Messages e !! (length (env_Messages e) - 1).

Definition WithInput (v : value) (e : Envelope) : Envelope :=
  mkEnvelope v (env_Vars e) (env_Artifacts e) (env_Messages e) (env_Errors e) (env_Trace e).
Definition WithVar (name : string) (v : value) (e : Envelope) : Envelope := SetVar name v e.
Definition WithTrace (t : TraceInfo) (e : Envelope) : Envelope := set_Trace t e.

(** ** Lemmas *)

Lemma GetVar_SetVar_eq name v e : GetVar (SetVar name v e) name = Some v.
Proof. unfold GetVar, SetVar; simpl. apply lookup_insert_eq. Qed.

Lemma GetVar_SetVar_ne name name' v e :
  name ≠ name' → GetVar (SetVar name v e) name' = GetVar e name'.
Proof.
  intros Hne. unfold GetVar, SetVar, vars_of; simpl.
  rewrite lookup_insert_ne by done. by destruct (env_Vars e).
Qed.

Lemma GetVar_DeleteVar_eq name e : GetVar (DeleteVar name e) name = None.
Proof.
  unfold GetVar, DeleteVar. destruct (env_Vars e) eqn:E; simpl; [|by rewrite E].
  apply lookup_delete_eq.
Qed.

Lemma GetVar_DeleteVar_ne name name' e :
  name ≠ name' → GetVar (DeleteVar name e) name' = GetVar e name'.
Proof.
  intros Hne. unfold GetVar, DeleteVar. destruct (env_Vars e) eqn:E; simpl; [|by rewrite E].
  by rewrite lookup_delete_ne.
Qed.

Lemma GetVar_vars_of e name : GetVar e name = vars_of e !! name.
Proof. unfold GetVar, vars_of. by destruct (env_Vars e). Qed.

Lemma nested_lookup_app v p q :
  nested_lookup v (p ++ q) = nested_lookup v p ≫= λ w, nested_lookup w q.
Proof.
  revert v. induction p as [|x p IH]; intros v; [done|]. simpl.
  destruct (value_map v) as [m|]; [|done]. by destruct (m !! x).
Qed.

(** A separator-free name splits into itself. *)
Lemma SplitOn_no_sep sep s :
  sep ∉ String.list_ascii_of_string s → GoStr.SplitOn sep s = [s].
Proof.
  induction s as [|c s IH]; simpl; intros Hn; [done|].
  apply not_elem_of_cons in Hn as [Hc Hs].
  rewrite decide_False by congruence. by rewrite IH.
Qed.

Lemma SplitOn_app sep s t :
  sep ∉ String.list_ascii_of_string s →
  GoStr.SplitOn sep (s ^^ String sep t) = s :: GoStr.SplitOn sep t.
Proof.
  induction s as [|c s IH]; simpl; intros Hn.
  - by rewrite decide_True.
  - apply not_elem_of_cons in Hn as [Hc Hs].
    rewrite decide_False by congruence. by rewrite IH.
Qed.

#[export] Hint Rewrite GetVar_SetVar_eq GetVar_DeleteVar_eq nested_lookup_app : petal_eqs.
