(* ===== verification/ObjStore.v ===== *)
(** * Maps as shared objects

    In Go a [map[string]any] is a reference: a variable, an element of a slice and
    another map may hold the same map. Here maps are objects of a store and the
    values that hold them hold their location. Slices are not updated by the code
    modelled with the store and are values.

    The section on places gives every object one place, the path of keys under
    which it is reached; objects of different places cannot influence each other's
    contents, which is what the frame lemmas say. *)

From stdpp Require Import gmap strings list fin_maps.
From Stdlib Require Import Lia.
From S2P Require Import Prelude Values.

(** ** Objects *)

Notation loc := nat (only parsing).

(** [RList elem rs] is a slice with elements of the named type. *)
Inductive ref :=
| RVal (v : value)
| RMap (l : loc)
| RList (elem : string) (rs : list ref).

Lemma ref_induct (Q : ref → Prop) :
  (∀ v, Q (RVal v)) → (∀ l, Q (RMap l)) → (∀ elem rs, Forall Q rs → Q (RList elem rs)) → ∀ r, Q r.
Proof.
  intros HV HM HL. fix IH 1. intros [v|l|elem rs]; [apply HV|apply HM|].
  apply HL. induction rs as [|r rs IHrs]; constructor; [apply IH|exact IHrs].
Qed.

Notation obj := (gmap string ref).
Notation store := (list obj).

Definition new_map (o : obj) : GoM store loc := λ st, (st ++ [o], Some (length st)).
Definition object (st : store) (l : loc) : obj := default ∅ (st !! l).
(** [m[k] = r]. *)
Definition put (l : loc) (k : string) (r : ref) (st : store) : store :=
  <[l := <[k := r]> (object st l)]> st.

(** ** Reading *)

Definition slice_value (elem : string) (l : list value) : value :=
  if bool_decide (elem = "interface {}") then VSlice l else VSliceOf elem l.

Fixpoint read_ref (rd : loc → value) (r : ref) : value :=
  match r with
  | RVal v => v
  | RMap l => rd l
  | RList elem rs => slice_value elem (map (read_ref rd) rs)
  end.

Fixpoint read_map (fuel : nat) (st : store) (l : loc) : value :=
  match fuel with
  | 0 => VMap ∅
  | S fuel' => VMap (read_ref (read_map fuel' st) <$> object st l)
  end.

(** The contents of a value: the nesting is at most the number of objects. *)
Definition contents (st : store) (r : ref) : value := read_ref (read_map (length st) st) r.

(** ** Places *)

(** A key of a map, or (without a name) an element of a slice. *)
Notation place := (list (option string)).

Section Places.
Context (P : loc → place).

(** A value that may stand at a place; a leaf is no map. *)
Fixpoint fits (n : nat) (p : place) (r : ref) : Prop :=
  match r with
  | RVal v => value_map v = None
  | RMap l => P l = p ∧ l < n
  | RList _ rs => (fix go rs := match rs with [] => True | r :: rs => fits n (p ++ [None]) r ∧ go rs end) rs
  end.

Lemma fits_list n p elem rs : fits n p (RList elem rs) ↔ Forall (fits n (p ++ [None])) rs.
Proof.
  simpl. induction rs as [|r rs IH]; [by split|]. rewrite Forall_cons, IH. done.
Qed.

Definition placed (st : store) : Prop :=
  ∀ l o k r, st !! l = Some o → o !! k = Some r → fits (length st) (P l ++ [Some k]) r.

(** The objects that are at least as deep as a place. *)
Definition deep (n : nat) (p : place) : nat :=
  length (filter (λ l, length p ≤ length (P l)) (seq 0 n)).

Lemma deep_le n p : deep n p ≤ n.
Proof. unfold deep. rewrite <- (length_seq n 0) at 2. apply length_filter. Qed.

Lemma deep_mono n p q : length q ≤ length p → deep n p ≤ deep n q.
Proof.
  intros Hpq. unfold deep.
  rewrite <- (list_filter_filter_l (λ l, length p ≤ length (P l)) (λ l, length q ≤ length (P l)))
    by (intros l'; lia).
  apply length_filter.
Qed.

Lemma deep_step n l k : l < n → deep n (P l ++ [k]) < deep n (P l).
Proof.
  intros Hl. unfold deep.
  rewrite <- (list_filter_filter_l (λ l', length (P l ++ [k]) ≤ length (P l'))
    (λ l', length (P l) ≤ length (P l'))) by (intros l'; rewrite length_app; lia).
  apply (length_filter_lt _ _ l); [|rewrite length_app; simpl; lia].
  apply list_elem_of_filter. split; [done|]. apply elem_of_seq. lia.
Qed.

(** *** Reading depends only on the objects below *)

Lemma read_ref_ext rd rd' n p r : fits n p r →
  (∀ l, l < n → p `prefix_of` P l → rd l = rd' l) → read_ref rd r = read_ref rd' r.
Proof.
  revert p. induction r as [v|l|elem rs IH] using ref_induct; intros p.
  - done.
  - intros [Hl Hn] Hrd. simpl. apply Hrd; [done|by rewrite Hl].
  - rewrite fits_list. intros Hrs Hrd. simpl. f_equal. apply map_ext_in. intros r Hr%list_elem_of_In.
    rewrite Forall_forall in IH, Hrs. eapply IH; [done|by apply Hrs|].
    intros l Hl Hp. apply Hrd; [done|]. etrans; [|exact Hp]. by apply prefix_app_r.
Qed.

(** The stores agree below a place. *)
Definition agree_below (q : place) (st st' : store) : Prop := ∀ l, q `prefix_of` P l → st' !! l = st !! l.

Lemma read_map_ext st st' q : placed st → agree_below q st st' → ∀ n m l,
  l < length st → q `prefix_of` P l → deep (length st) (P l) ≤ n → deep (length st) (P l) ≤ m →
  read_map n st' l = read_map m st l.
Proof.
  intros Hpl Hag n. induction n as [|n IH]; intros m l Hl Hq Hn Hm;
    pose proof (deep_step (length st) l None Hl) as Hstep; [lia|].
  destruct m as [|m]; [lia|]. simpl. f_equal. unfold object. rewrite (Hag l Hq).
  destruct (lookup_lt_is_Some_2 st l Hl) as [o Ho]. rewrite Ho. simpl.
  apply map_eq. intros k. rewrite !lookup_fmap. destruct (o !! k) as [r|] eqn:Hr; [|done]. simpl. f_equal.
  pose proof (Hpl l o k r Ho Hr) as Hf. eapply read_ref_ext; [exact Hf|].
  intros l' Hl' Hp'. assert (length (P l ++ [Some k]) ≤ length (P l')) as Hlen by (by apply prefix_length).
  assert (deep (length st) (P l') < deep (length st) (P l)).
  { eapply Nat.le_lt_trans; [|exact Hstep]. apply deep_mono. rewrite length_app in *. done. }
  apply IH; [done| |lia|lia]. etrans; [exact Hq|]. etrans; [|exact Hp']. by apply prefix_app_r.
Qed.

Lemma contents_ext st st' q p r : placed st → length st' = length st → agree_below q st st' →
  q `prefix_of` p → fits (length st) p r → contents st' r = contents st r.
Proof.
  intros Hpl Hlen Hag Hq Hf. unfold contents. rewrite Hlen. eapply read_ref_ext; [exact Hf|].
  intros l Hl Hp. eapply read_map_ext; eauto using deep_le. by etrans.
Qed.

(** The contents of an object, entry by entry. *)
Lemma contents_map st l o : placed st → st !! l = Some o →
  contents st (RMap l) = VMap (contents st <$> o).
Proof.
  intros Hpl Ho. pose proof (lookup_lt_Some st l o Ho) as Hl. unfold contents at 1. simpl.
  rewrite (read_map_ext st st (P l) Hpl (λ _ _, eq_refl) _ (S (length st)) l)
    by (eauto using deep_le; pose proof (deep_le (length st) (P l)); lia).
  simpl. unfold object. by rewrite Ho.
Qed.

(** *** Reading inside a set of objects that is closed under their entries *)

Fixpoint inside (A : loc → Prop) (r : ref) : Prop :=
  match r with
  | RVal _ => True
  | RMap l => A l
  | RList _ rs => (fix go rs := match rs with [] => True | r :: rs => inside A r ∧ go rs end) rs
  end.

Lemma inside_list A elem rs : inside A (RList elem rs) ↔ Forall (inside A) rs.
Proof. simpl. induction rs as [|r rs IH]; [by split|]. rewrite Forall_cons, IH. done. Qed.

Lemma read_ref_inside A rd rd' r : inside A r → (∀ l, A l → rd l = rd' l) → read_ref rd r = read_ref rd' r.
Proof.
  intros Hr Hrd. induction r as [v|l|elem rs IH] using ref_induct; [done|by apply Hrd|].
  apply inside_list in Hr. simpl. f_equal. apply map_ext_in. intros r Hin%list_elem_of_In.
  rewrite Forall_forall in IH, Hr. eauto.
Qed.

Lemma read_map_inside A st st' n l :
  (∀ l o k r, A l → st !! l = Some o → o !! k = Some r → inside A r) →
  (∀ l, A l → st' !! l = st !! l) → A l → read_map n st' l = read_map n st l.
Proof.
  intros Hcl Hag. revert l. induction n as [|n IH]; intros l Hl; [done|]. simpl. f_equal.
  unfold object. rewrite (Hag l Hl). destruct (st !! l) as [o|] eqn:Ho; [|done]. simpl.
  apply map_eq. intros k. rewrite !lookup_fmap. destruct (o !! k) as [r|] eqn:Hr; [|done]. simpl. f_equal.
  apply (read_ref_inside A); [by eapply Hcl|exact IH].
Qed.

Lemma fits_inside (A : loc → Prop) n p r : fits n p r →
  (∀ l, l < n → p `prefix_of` P l → A l) → inside A r.
Proof.
  revert p. induction r as [v|l|elem rs IH] using ref_induct; intros p Hf HA; [done| |].
  - destruct Hf as [Hp Hl]. apply HA; [done|by rewrite Hp].
  - apply inside_list. rewrite fits_list in Hf. rewrite Forall_forall in *. intros r Hr.
    eapply (IH r Hr (p ++ [None])); [by apply Hf|]. intros l Hl Hp. apply HA; [done|].
    etrans; [|exact Hp]. by apply prefix_app_r.
Qed.

(** A new object does not change the contents of the others. *)
Lemma contents_new st o p r : placed st → fits (length st) p r → contents (st ++ [o]) r = contents st r.
Proof.
  intros Hpl Hf. unfold contents. rewrite length_app. simpl. rewrite Nat.add_comm.
  apply (read_ref_inside (λ l, l < length st)).
  - eapply fits_inside; [exact Hf|]. by intros l Hl _.
  - intros l Hl. rewrite (read_map_inside (λ l, l < length st) st); [| |intros l' Hl'; by apply lookup_app_l|done].
    + apply (read_map_ext st st (P l)); [done|by intros l' _|done|done| |apply deep_le].
      pose proof (deep_le (length st) (P l)). lia.
    + intros l' o' k r' Hl' Ho Hr. eapply fits_inside; [by eapply Hpl|]. by intros l'' Hl'' _.
Qed.
End Places.
