(* ===== verification/NodeHelpers.v ===== *)
(** * Helpers of the nodes (nodes/helpers.go)

    Conversion, comparison, containment, truthiness and nested access of dynamic
    values. They differ from those of the expression language (ExprEval.v): values
    that are not both numbers are compared by their printed text. *)

From stdpp Require Import gmap strings list fin_maps.
From Stdlib Require Import Ascii ZArith SpecFloat Lia.
From S2P Require Import Prelude Values GoFmt Envelope.

(** [json.Number] is not among the dynamic types of the model: no decoder that
    feeds variables produces it. *)
Definition toFloat64 (v : value) : option F64.t :=
  match v with
  | VInt z | VInt64 z => Some (F64.of_Z z)
  | VFloat32 f | VFloat64 f => Some f
  | _ => None
  end.

(** The slice types besides [[]any] that are converted element by element. *)
Definition toSlice (v : value) : list value + error :=
  match v with
  | VNil => inr (EFmt [PS "input is nil"])
  | VSlice s => inl s
  | VStrings s => inl (map VString s)
  | VSliceOf elem s =>
      if bool_decide (elem ∈ ["int"; "float64"; "map[string]interface {}"]) then inl s
      else inr (EFmt [PS "input is not a slice: "; PS (type_name v)])
  | _ => inr (EFmt [PS "input is not a slice: "; PS (type_name v)])
  end.

Definition toMap (v : value) : option (gmap string value) := value_map v.

Definition isTruthy (v : value) : bool :=
  match v with
  | VNil => false
  | VBool b => b
  | VInt z | VInt64 z => negb (z =? 0)%Z
  | VFloat64 f => negb (F64.eqb f F64.zero)
  | VString s => bool_decide (s ≠ EmptyString)
  | VSlice l => bool_decide (0 < length l)
  | VMap m => bool_decide (0 < size m)
  | VNilMap => false
  | _ => true
  end.

(** The loop of [getNestedValue]. *)
Fixpoint nested_value (current : value) (parts : list string) : option value :=
  match parts with
  | [] => Some current
  | part :: rest =>
      match value_map current with
      | None => None
      | Some m => match m !! part with None => None | Some v => nested_value v rest end
      end
  end.

Definition getNestedValue (m : gmap string value) (path : string) : option value :=
  nested_value (VMap m) (GoStr.SplitOn "."%char path).

(** Artifacts and messages as elements of a slice of [any]; the bytes of an
    artifact are kept as a string. *)
Definition artifact_value (a : Artifact) : value :=
  VStruct "core.Artifact" (list_to_map [("ID", VString (art_ID a)); ("Type", VString (art_Type a));
    ("MimeType", VString (art_MimeType a)); ("Text", VString (art_Text a)); ("Bytes", VString (art_Bytes a));
    ("URI", VString (art_URI a)); ("Meta", VMap (art_Meta a))]).

Definition message_value (m : Message) : value :=
  VStruct "core.Message" (list_to_map [("Role", VString (msg_Role m)); ("Content", VString (msg_Content m));
    ("Name", VString (msg_Name m)); ("Meta", VMap (msg_Meta m))]).

(** The type assertions back. *)
Definition map_field (fields : gmap string value) (k : string) : gmap string value :=
  match fields !! k with Some (VMap m) => m | _ => ∅ end.

Definition as_artifact (v : value) : option Artifact :=
  match v with
  | VStruct ty f =>
      if bool_decide (ty = "core.Artifact") then
        Some (mkArtifact (string_or_empty (f !! "ID")) (string_or_empty (f !! "Type"))
          (string_or_empty (f !! "MimeType")) (string_or_empty (f !! "Text"))
          (string_or_empty (f !! "Bytes")) (string_or_empty (f !! "URI")) (map_field f "Meta"))
      else None
  | _ => None
  end.

Definition as_message (v : value) : option Message :=
  match v with
  | VStruct ty f =>
      if bool_decide (ty = "core.Message") then
        Some (mkMessage (string_or_empty (f !! "Role")) (string_or_empty (f !! "Content"))
          (string_or_empty (f !! "Name")) (map_field f "Meta"))
      else None
  | _ => None
  end.

Lemma as_artifact_value a : as_artifact (artifact_value a) = Some a.
Proof. destruct a. reflexivity. Qed.

Lemma as_message_value m : as_message (message_value m) = Some m.
Proof. destruct m. reflexivity. Qed.

Definition artifactsToAny (artifacts : list Artifact) : list value := map artifact_value artifacts.
Definition messagesToAny (messages : list Message) : list value := map message_value messages.
Definition anyToArtifacts (items : list value) : list Artifact := omap as_artifact items.
Definition anyToMessages (items : list value) : list Message := omap as_message items.

Section Compare.
Context `{Printer}.

Definition valuesEqual (a b : value) : bool :=
  match as_string a, as_string b with
  | Some x, Some y => bool_decide (x = y)
  | _, _ =>
      match toFloat64 a, toFloat64 b with
      | Some x, Some y => F64.eqb x y
      | _, _ => bool_decide (Sprint a = Sprint b)
      end
  end.

Definition compare (a b : value) : Z :=
  match toFloat64 a, toFloat64 b with
  | Some x, Some y => if F64.ltb x y then -1 else if F64.ltb y x then 1 else 0
  | _, _ =>
      let c := GoStr.Compare (Sprint a) (Sprint b) in
      if (c <? 0)%Z then -1 else if (0 <? c)%Z then 1 else 0
  end%Z.

Definition containsValue (container v : value) : bool :=
  GoStr.Contains (Sprint container) (Sprint v).

Definition inValues (val : value) (values : list value) : bool :=
  existsb (λ v, (compare val v =? 0)%Z) values.

(** ** The comparison *)

Lemma SFcompare_swap x y :
  SFcompare y x = CompOpp <$> SFcompare x y.
Proof.
  assert (∀ m m', Pos.compare_cont Eq m' m = CompOpp (Pos.compare_cont Eq m m')) as Hm
    by (intros m m'; apply (Pos.compare_antisym m m')).
  destruct x as [[]|[]| |[] m e], y as [[]|[]| |[] m' e']; simpl; try done;
    rewrite (Z.compare_antisym e e'); destruct (Z.compare e e') eqn:E; simpl; try done;
    rewrite (Hm m m'); by destruct (Pos.compare_cont Eq m m').
Qed.

Lemma ltb_asym x y : F64.ltb x y = true → F64.ltb y x = false.
Proof.
  unfold F64.ltb, SFltb. rewrite (SFcompare_swap x y).
  by destruct (SFcompare x y) as [[]|].
Qed.

Lemma compare_range a b : compare a b = (-1)%Z ∨ compare a b = 0%Z ∨ compare a b = 1%Z.
Proof. unfold compare. repeat case_match; auto. Qed.

Lemma compare_antisym a b : compare a b = (- compare b a)%Z.
Proof.
  unfold compare. rewrite (Compare_antisym (Sprint a) (Sprint b)).
  destruct (Compare_range (Sprint b) (Sprint a)) as [E0|[E0|E0]]; rewrite E0;
  destruct (toFloat64 a) as [x|], (toFloat64 b) as [y|]; try done.
  all: destruct (F64.ltb x y) eqn:E; [by rewrite (ltb_asym _ _ E)|by destruct (F64.ltb y x)].
Qed.
End Compare.
