(* ===== verification/Merge.v ===== *)
(** * Merge nodes and their strategies (nodes/merge.go)

    The strategies that combine the envelopes of parallel branches. Variables are
    kept in a store of shared maps: the clone of an envelope shares the nested maps
    of the original, and [mergeVars] updates nested maps in place.

    The theorem on the JSON strategy states when the update in place is the merge
    of the contents; the examples show what happens to shared maps. *)

From stdpp Require Import gmap strings list fin_maps.
From Stdlib Require Import ZArith Lia.
From S2P Require Import Prelude Values GoFmt Envelope NodeHelpers ObjStore.

(** ** Envelopes over the store *)

(** [se_Vars = None] is the nil map. *)
Record senv := mkSenv {
  se_Input : value;
  se_Vars : option nat;
  se_Artifacts : list Artifact;
  se_Messages : list Message;
  se_Errors : list NodeError;
  se_Trace : TraceInfo
}.

Definition set_se_Vars (l : nat) (e : senv) : senv :=
  mkSenv (se_Input e) (Some l) (se_Artifacts e) (se_Messages e) (se_Errors e) (se_Trace e).

(** [append] of the other fields of an input. *)
Definition append_fields (input result : senv) : senv :=
  mkSenv (se_Input result) (se_Vars result) (se_Artifacts result ++ se_Artifacts input)
    (se_Messages result ++ se_Messages input) (se_Errors result ++ se_Errors input) (se_Trace result).

Definition new_senv (now : Z) : GoM store senv :=
  l ← new_map ∅;
  mret (mkSenv VNil (Some l) [] [] [] (mkTrace "" "" "" "" now)).

(** [Clone] of a pointer: nil gives nil. *)
Definition clone_senv (e : option senv) : GoM store (option senv) :=
  match e with
  | None => mret None
  | Some e =>
      match se_Vars e with
      | None => mret (Some e)
      | Some l =>
          o ← gets (λ st, object st l);
          l' ← new_map o;
          mret (Some (set_se_Vars l' e))
      end
  end.

Definition get_svar (e : senv) (name : string) (st : store) : option ref :=
  match se_Vars e with Some l => object st l !! name | None => None end.

(** [SetVar] creates a nil map first. *)
Definition set_svar (name : string) (r : ref) (e : senv) : GoM store senv :=
  match se_Vars e with
  | Some l => modify (put l name r);; mret e
  | None => l ← new_map {[ name := r ]}; mret (set_se_Vars l e)
  end.

(** ** Strategies *)

Record MergeStrategy := mkStrategy {
  ms_Name : string;
  ms_Merge : list (option senv) → GoM store (option senv + error)
}.

(** A method call on a pointer that must not be nil. *)
Definition deref {S A} (x : option A) : GoM S A := match x with Some a => mret a | None => panic end.

(** *** JSON merge *)

Record JSONMergeConfig := mkJSON { jm_DeepMerge : bool; jm_ConflictPolicy : string; jm_VarsOnly : bool }.

Definition NewJSONMergeStrategy (config : JSONMergeConfig) : JSONMergeConfig :=
  if bool_decide (jm_ConflictPolicy config = EmptyString)
  then mkJSON (jm_DeepMerge config) "last" (jm_VarsOnly config) else config.

(** [r.(map[string]any)]: a location, or nil. Maps are objects, so that no other
    value is one. *)
Definition as_map_ref (r : ref) : option (option nat) :=
  match r with RMap l => Some (Some l) | RVal VNilMap => Some None | _ => None end.

Definition map_object (m : option nat) (st : store) : obj :=
  match m with Some l => object st l | None => ∅ end.

(** [dest[k] = v], which panics on a nil map. *)
Definition map_write (dest : option nat) (k : string) (v : ref) : GoM store (option error) :=
  match dest with Some l => modify (put l k v);; mret None | None => panic end.

Section JSON.
Context `{RangeOrder} (cfg : JSONMergeConfig).

(** The body of the loop for one entry; [rec] merges nested maps. *)
Definition merge_entry (rec : option nat → option nat → GoM store (option error))
    (dest : option nat) (k : string) (v : ref) : GoM store (option error) :=
  existing ← gets (λ st, map_object dest st !! k);
  match existing with
  | None => map_write dest k v
  | Some existing =>
      if bool_decide (jm_ConflictPolicy cfg = "error") then
        mret (Some (EFmt [PS "key conflict: "; PQ k; PS " exists in multiple branches"]))
      else if bool_decide (jm_ConflictPolicy cfg = "first") then mret None
      else if bool_decide (jm_ConflictPolicy cfg = "last") then
        match jm_DeepMerge cfg, as_map_ref existing, as_map_ref v with
        | true, Some destMap, Some srcMap => rec destMap srcMap
        | _, _, _ => map_write dest k v
        end
      else map_write dest k v
  end.

(** The keys are those at the start of the loop, the values those of the moment. *)
Fixpoint merge_entries rec (dest src : option nat) (keys : list string) : GoM store (option error) :=
  match keys with
  | [] => mret None
  | k :: keys =>
      v ← gets (λ st, map_object src st !! k);
      match v with
      | None => merge_entries rec dest src keys
      | Some v =>
          err ← merge_entry rec dest k v;
          match err with
          | Some err => mret (Some err)
          | None => merge_entries rec dest src keys
          end
      end
  end.

(** Without fuel the recursion does not end, which overflows the stack. *)
Fixpoint mergeVars (fuel : nat) (dest src : option nat) : GoM store (option error) :=
  match fuel with
  | 0 => panic
  | S fuel' =>
      keys ← gets (λ st, map fst (range_map "mergeVars" (map_object src st)));
      merge_entries (mergeVars fuel') dest src keys
  end.

(** The nesting is at most the number of objects. *)
Definition merge_vars (dest src : option nat) : GoM store (option error) :=
  λ st, mergeVars (S (length st)) dest src st.

(** The loop over the inputs after the first. *)
Fixpoint json_inputs (result : option senv) (inputs : list (option senv)) : GoM store (option senv + error) :=
  match inputs with
  | [] => mret (inl result)
  | None :: inputs => json_inputs result inputs
  | Some input :: inputs =>
      match se_Vars input with
      | None => json_inputs result inputs
      | Some src =>
          r ← deref result;
          err ← merge_vars (se_Vars r) (Some src);
          match err with
          | Some err => mret (inr err)
          | None => json_inputs (Some (if jm_VarsOnly cfg then r else append_fields input r)) inputs
          end
      end
  end.

Definition JSONMerge (now : Z) (inputs : list (option senv)) : GoM store (option senv + error) :=
  match inputs with
  | [] => e ← new_senv now; mret (inl (Some e))
  | first :: rest =>
      result ← clone_senv first;
      json_inputs result rest
  end.

Definition JSONMergeStrategy (now : Z) : MergeStrategy := mkStrategy "json_merge" (JSONMerge now).
End JSON.

(** *** Concatenation *)

Record ConcatMergeConfig := mkConcat { cm_VarName : string; cm_OutputKey : string; cm_Separator : string }.

Definition newline : string := String (Ascii.ascii_of_nat 10) EmptyString.

Definition NewConcatMergeStrategy (config : ConcatMergeConfig) : ConcatMergeConfig :=
  mkConcat (cm_VarName config)
    (if bool_decide (cm_OutputKey config = EmptyString) then cm_VarName config else cm_OutputKey config)
    (if bool_decide (cm_Separator config = EmptyString) then newline else cm_Separator config).

Section Concat.
Context `{Printer} (cfg : ConcatMergeConfig).

Definition concat_text (st : store) (r : ref) : string :=
  match contents st r with VString s => s | v => Sprint v end.

Definition concat_values (inputs : list (option senv)) (st : store) : list string :=
  omap (λ e, match e with
             | Some e => concat_text st <$> get_svar e (cm_VarName cfg) st
             | None => None
             end) inputs.

Definition append_inputs (result : option senv) (inputs : list (option senv)) : option senv :=
  foldl (λ r e, match e, r with Some e, Some r => Some (append_fields e r) | _, _ => r end) result inputs.

Definition ConcatMerge (now : Z) (inputs : list (option senv)) : GoM store (option senv + error) :=
  match inputs with
  | [] => e ← new_senv now; mret (inl (Some e))
  | first :: rest =>
      values ← gets (concat_values inputs);
      result ← clone_senv first;
      r ← deref result;
      r ← set_svar (cm_OutputKey cfg) (RVal (VString (GoStr.Join values (cm_Separator cfg)))) r;
      mret (inl (append_inputs (Some r) rest))
  end.

Definition ConcatMergeStrategy (now : Z) : MergeStrategy := mkStrategy "concat_merge" (ConcatMerge now).
End Concat.

(** *** Best score *)

Record BestScoreMergeConfig := mkBest { bs_ScoreVar : string; bs_HigherIsBetter : bool }.

Definition ref_float (r : ref) : option F64.t := match r with RVal v => toFloat64 v | _ => None end.

Definition score_of (cfg : BestScoreMergeConfig) (st : store) (e : senv) : option F64.t :=
  match get_svar e (bs_ScoreVar cfg) st with Some r => ref_float r | None => None end.

Definition better (cfg : BestScoreMergeConfig) (score best : F64.t) : bool :=
  if bs_HigherIsBetter cfg then F64.ltb best score else F64.ltb score best.

(** One iteration; the state is the best envelope so far with its score. *)
Definition best_step (cfg : BestScoreMergeConfig) (st : store) (best : option (senv * F64.t))
    (input : option senv) : option (senv * F64.t) :=
  match input with
  | None => best
  | Some e =>
      match score_of cfg st e with
      | None => best
      | Some score =>
          match best with
          | None => Some (e, score)
          | Some (_, bestScore) => if better cfg score bestScore then Some (e, score) else best
          end
      end
  end.

Definition first_input (inputs : list (option senv)) : option senv := head (omap id inputs).

Definition BestScoreMerge (cfg : BestScoreMergeConfig) (now : Z) (inputs : list (option senv))
  : GoM store (option senv + error) :=
  best ← gets (λ st, foldl (best_step cfg st) None inputs);
  match best, first_input inputs with
  | Some (e, _), _ | None, Some e => r ← clone_senv (Some e); mret (inl r)
  | None, None => e ← new_senv now; mret (inl (Some e))
  end.

Definition BestScoreMergeStrategy cfg (now : Z) : MergeStrategy :=
  mkStrategy "best_score_merge" (BestScoreMerge cfg now).

(** *** A function *)

Definition FuncMerge (fn : option (list (option senv) → GoM store (option senv + error))) (now : Z)
    (inputs : list (option senv)) : GoM store (option senv + error) :=
  match fn, inputs with
  | Some fn, _ => fn inputs
  | None, first :: _ => r ← clone_senv first; mret (inl r)
  | None, [] => e ← new_senv now; mret (inl (Some e))
  end.

Definition FuncMergeStrategy (name : string) fn (now : Z) : MergeStrategy := mkStrategy name (FuncMerge fn now).

(** *** Collection of all inputs *)

Record AllMergeConfig := mkAll { am_inner : MergeStrategy; am_collectKey : string; am_collectVars : list string }.

Definition NewAllMergeStrategy `{RangeOrder} (now : Z) (inner : option MergeStrategy) (collectKey : string)
    (collectVars : list string) : AllMergeConfig :=
  mkAll (default (JSONMergeStrategy (NewJSONMergeStrategy (mkJSON false "" false)) now) inner)
    (if bool_decide (collectKey = EmptyString) then "all_inputs" else collectKey) collectVars.

(** The map collected for one input. *)
Definition collected_item (collectVars : list string) (e : senv) (st : store) : obj :=
  if bool_decide (length collectVars = 0) then map_object (se_Vars e) st
  else foldl (λ o name, match get_svar e name st with Some r => <[name := r]> o | None => o end) ∅ collectVars.

Fixpoint collect (collectVars : list string) (inputs : list (option senv)) : GoM store (list nat) :=
  match inputs with
  | [] => mret []
  | None :: inputs => collect collectVars inputs
  | Some e :: inputs =>
      o ← gets (collected_item collectVars e);
      l ← new_map o;
      ls ← collect collectVars inputs;
      mret (l :: ls)
  end.

Definition AllMerge (cfg : AllMergeConfig) (inputs : list (option senv)) : GoM store (option senv + error) :=
  res ← ms_Merge (am_inner cfg) inputs;
  match res with
  | inr err => mret (inr err)
  | inl result =>
      ls ← collect (am_collectVars cfg) inputs;
      r ← deref result;
      r ← set_svar (am_collectKey cfg) (RList "map[string]interface {}" (map RMap ls)) r;
      mret (inl (Some r))
  end.

Definition AllMergeStrategy (cfg : AllMergeConfig) : MergeStrategy := mkStrategy "all_merge" (AllMerge cfg).

(** ** The node *)

Record MergeNodeConfig := mkMergeConfig {
  mg_Strategy : option MergeStrategy; mg_OutputKey : string; mg_ExpectedInputs : Z
}.

Record MergeNode := mkMergeNode { mg_ID : string; mg_config : MergeNodeConfig }.

Definition NewMergeNode `{RangeOrder} (now : Z) (id : string) (config : MergeNodeConfig) : MergeNode :=
  mkMergeNode id (mkMergeConfig
    (Some (default (JSONMergeStrategy (NewJSONMergeStrategy (mkJSON false "" false)) now) (mg_Strategy config)))
    (if bool_decide (mg_OutputKey config = EmptyString) then id ^^ "_output" else mg_OutputKey config)
    (mg_ExpectedInputs config)).

Definition MergeInputs (now : Z) (n : MergeNode) (inputs : list (option senv)) : GoM store (option senv + error) :=
  match inputs with
  | [] => e ← new_senv now; mret (inl (Some e))
  | [input] => mret (inl input)
  | _ =>
      s ← deref (mg_Strategy (mg_config n));
      res ← ms_Merge s inputs;
      match res with
      | inr err => mret (inr (EFmt [PS "merge strategy "; PQ (ms_Name s); PS " failed: "; PW err]))
      | inl merged => mret (inl merged)
      end
  end.

Definition ExpectedInputs (n : MergeNode) : Z := mg_ExpectedInputs (mg_config n).
Definition SetExpectedInputs (count : Z) (n : MergeNode) : MergeNode :=
  mkMergeNode (mg_ID n) (mkMergeConfig (mg_Strategy (mg_config n)) (mg_OutputKey (mg_config n)) count).
