(* ===== verification/MergeSpec.v ===== *)
(** * The JSON merge on shared maps

    [JSONMerge] against the merge of contents: when no nested map is reached from
    two inputs, or twice from one of them, the envelope returned holds the merge of
    the contents of the inputs, whatever the order in which maps are ranged over. *)

From stdpp Require Import gmap strings list fin_maps.
From Stdlib Require Import ZArith Lia.
From S2P Require Import Prelude Values Envelope ObjStore Merge.

(** ** The merge of contents *)

(** [f] resolves the conflicts. *)
Definition merge_at (f : value → value → value) (d : option value) (s : value) : value :=
  match d with Some d => f d s | None => s end.

Definition merge_maps (f : value → value → value) (d s : gmap string value) : gmap string value :=
  map_imap (λ k v, Some (merge_at f (d !! k) v)) s ∪ d.

Fixpoint deep_value (d s : value) {struct s} : value :=
  match d, s with
  | VMap d, VMap s => VMap (map_imap (λ k v, Some (match d !! k with Some x => deep_value x v | None => v end)) s ∪ d)
  | _, _ => s
  end.

Definition resolve (cfg : JSONMergeConfig) (d s : value) : value :=
  if bool_decide (jm_ConflictPolicy cfg = "first") then d
  else if bool_decide (jm_ConflictPolicy cfg = "last") && jm_DeepMerge cfg then deep_value d s
  else s.

Definition conflicting (cfg : JSONMergeConfig) (d s : gmap string value) : bool :=
  bool_decide (jm_ConflictPolicy cfg = "error") && bool_decide (dom d ∩ dom s ≠ ∅).

(** The contents after merging the inputs one after the other, unless there is a conflict. *)
Fixpoint json_spec (cfg : JSONMergeConfig) (d : gmap string value) (ss : list (gmap string value))
  : option (gmap string value) :=
  match ss with
  | [] => Some d
  | s :: ss => if conflicting cfg d s then None else json_spec cfg (merge_maps (resolve cfg) d s) ss
  end.

Lemma deep_value_maps d s : deep_value (VMap d) (VMap s) = VMap (merge_maps deep_value d s).
Proof. reflexivity. Qed.

Lemma lookup_merge_maps f d s k :
  merge_maps f d s !! k = match s !! k with Some v => Some (merge_at f (d !! k) v) | None => d !! k end.
Proof.
  unfold merge_maps. rewrite lookup_union, map_lookup_imap.
  destruct (s !! k) as [v|]; simpl; [by destruct (d !! k)|by destruct (d !! k)].
Qed.

(** ** Reachable maps *)

Inductive reach (st : store) : nat → nat → Prop :=
| reach_here l : reach st l l
| reach_in l o k l1 l2 : st !! l = Some o → o !! k = Some (RMap l1) → reach st l1 l2 → reach st l l2.

Section Merge.
Context `{RangeOrder} (cfg : JSONMergeConfig) (P : nat → place).
Notation placed := (placed P).
Notation fits := (fits P).
Notation agree_below := (agree_below P).

Definition reach_key (st : store) (l : nat) (k : string) (l' : nat) : Prop :=
  ∃ l1, object st l !! k = Some (RMap l1) ∧ reach st l1 l'.

Lemma object_Some st l : l < length st → st !! l = Some (object st l).
Proof. intros [o Ho]%lookup_lt_is_Some_2. unfold object. by rewrite Ho. Qed.

Lemma placed_entry st l k r : placed st → l < length st → object st l !! k = Some r →
  fits (length st) (P l ++ [Some k]) r.
Proof. intros Hpl Hl Hr. eapply Hpl; [by apply object_Some|done]. Qed.

Lemma reach_place st l l' : placed st → l < length st → reach st l l' →
  P l `prefix_of` P l' ∧ l' < length st.
Proof.
  intros Hpl Hl Hr. induction Hr as [l|l o k l1 l2 Ho Hk _ IH]; [done|].
  destruct (Hpl l o k _ Ho Hk) as [H1 H1n]. destruct (IH H1n) as [IH1 ?]. split; [|done].
  etrans; [|exact IH1]. rewrite H1. by apply prefix_app_r.
Qed.

Lemma reach_ext st st' q l l' : placed st → agree_below q st st' → l < length st → q `prefix_of` P l →
  reach st' l l' ↔ reach st l l'.
Proof.
  intros Hpl Hag Hl Hq. split; intros Hr; revert Hl Hq.
  - induction Hr as [l|l o k l1 l2 Ho Hk _ IH]; intros Hl Hq; [constructor|].
    rewrite (Hag l Hq) in Ho. destruct (Hpl l o k _ Ho Hk) as [H1 H1n].
    eapply reach_in; [done..|]. apply IH; [done|]. rewrite H1. etrans; [exact Hq|by apply prefix_app_r].
  - induction Hr as [l|l o k l1 l2 Ho Hk _ IH]; intros Hl Hq; [constructor|].
    destruct (Hpl l o k _ Ho Hk) as [H1 H1n].
    eapply reach_in; [by rewrite (Hag l Hq)|done|]. apply IH; [done|].
    rewrite H1. etrans; [exact Hq|by apply prefix_app_r].
Qed.

Lemma reach_key_reach st l k l' : l < length st → reach_key st l k l' → reach st l l'.
Proof. intros Hl (l1 & Hk & Hr). eapply reach_in; [by apply object_Some|done|done]. Qed.

Lemma reach_cases st l l' : reach st l l' → l' = l ∨ ∃ k, reach_key st l k l'.
Proof.
  intros [|? o k l1 l2 Ho Hk Hr]; [by left|]. right. exists k, l1. split; [|done].
  unfold object. by rewrite Ho.
Qed.

Lemma reach_key_place st l k l' : placed st → l < length st → reach_key st l k l' →
  P l ++ [Some k] `prefix_of` P l' ∧ l' < length st.
Proof.
  intros Hpl Hl (l1 & Hk & Hr). destruct (placed_entry st l k _ Hpl Hl Hk) as [H1 H1n].
  rewrite <- H1. by apply reach_place.
Qed.

(** Places below different keys do not overlap. *)
Lemma place_keys (p q : place) k k' : p ++ [Some k] `prefix_of` q → p ++ [Some k'] `prefix_of` q → k = k'.
Proof.
  intros [r ->] [r' Hr]. rewrite <- !app_assoc in Hr. apply app_inv_head in Hr. by injection Hr as <-.
Qed.

Lemma place_above (p : place) k : ¬ p ++ [Some k] `prefix_of` p.
Proof. intros Hp%prefix_length. rewrite length_app in Hp. simpl in Hp. lia. Qed.

(** ** One map into another *)

Section Into.
Context (d s : nat).

(** The entries of the keys [ks] have been merged into [d]. *)
Record merged_keys (ks : list string) (st st' : store) : Prop := {
  mk_length : length st' = length st;
  mk_placed : placed st';
  mk_frame : ∀ l, l ≠ d → (∀ k, k ∈ ks → ¬ reach_key st d k l) → st' !! l = st !! l;
  mk_other : ∀ k, k ∉ ks → object st' d !! k = object st d !! k;
  mk_value : ∀ k v, k ∈ ks → object st s !! k = Some v →
    contents st' <$> object st' d !! k =
    Some (merge_at (resolve cfg) (contents st <$> object st d !! k) (contents st v));
  mk_reach : ∀ k l, k ∈ ks → reach_key st' d k l → reach_key st d k l ∨ reach_key st s k l
}.

(** What is assumed of the two maps. *)
Record apart (ks : list string) (st : store) : Prop := {
  ap_placed : placed st;
  ap_d : d < length st;
  ap_s : s < length st;
  ap_ne : d ≠ s;
  ap_place : P d = P s;
  ap_disjoint : ∀ k l, k ∈ ks → reach_key st d k l → reach_key st s k l → False
}.

Lemma merged_nil st : placed st → merged_keys [] st st.
Proof. intros Hpl. split; try done; intros k *; set_solver. Qed.

(** Below another key nothing changes. *)
Lemma merged_agree ks' ks st st' k : apart ks' st → merged_keys ks st st' → k ∉ ks →
  agree_below (P d ++ [Some k]) st st'.
Proof.
  intros Hap Hm Hk l Hl. apply (mk_frame _ _ _ Hm).
  - intros ->. by apply place_above in Hl.
  - intros k' Hk' Hr. apply (reach_key_place st d k' l (ap_placed _ _ Hap) (ap_d _ _ Hap)) in Hr as [Hp _].
    by rewrite (place_keys _ _ _ _ Hl Hp) in Hk.
Qed.

Lemma merged_source ks' ks st st' : apart ks' st → merged_keys ks st st' → object st' s = object st s.
Proof.
  intros Hap Hm. unfold object. rewrite (mk_frame _ _ _ Hm); [done|intros ->; by apply (ap_ne _ _ Hap)|].
  intros k _ [Hp _]%(reach_key_place st d k s (ap_placed _ _ Hap) (ap_d _ _ Hap)).
  rewrite <- (ap_place _ _ Hap) in Hp. by apply place_above in Hp.
Qed.

(** The entry of either map at another key, and what is below it. *)
Lemma merged_entry ks' ks st st' k x : apart ks' st → merged_keys ks st st' → k ∉ ks → x = d ∨ x = s →
  object st' x !! k = object st x !! k ∧ x < length st ∧ P x = P d.
Proof.
  intros Hap Hm Hk [-> | ->]; [split; [by apply (mk_other _ _ _ Hm)|]|];
    rewrite ?(merged_source ks' ks st st' Hap Hm); repeat split; try apply Hap. symmetry. apply Hap.
Qed.

Lemma merged_contents ks' ks st st' k x : apart ks' st → merged_keys ks st st' → k ∉ ks → x = d ∨ x = s →
  contents st' <$> object st' x !! k = contents st <$> object st x !! k.
Proof.
  intros Hap Hm Hk Hx. destruct (merged_entry ks' ks st st' k x) as (-> & Hxn & Hxp); [done..|].
  destruct (object st x !! k) as [r|] eqn:Hr; [|done]. simpl. f_equal.
  eapply contents_ext; [apply Hap|apply Hm|exact (merged_agree ks' ks st st' k Hap Hm Hk)| |].
  - rewrite <- Hxp. reflexivity.
  - by apply placed_entry; [apply Hap|..].
Qed.

Lemma merged_reach_key ks' ks st st' k l x : apart ks' st → merged_keys ks st st' → k ∉ ks → x = d ∨ x = s →
  reach_key st' x k l ↔ reach_key st x k l.
Proof.
  intros Hap Hm Hk Hx. destruct (merged_entry ks' ks st st' k x) as (Hobj & Hxn & Hxp); [done..|].
  unfold reach_key. rewrite Hobj. split; intros (l1 & H1 & Hr); exists l1; (split; [done|]);
    destruct (placed_entry st x k _ (ap_placed _ _ Hap) Hxn H1) as [Hp1 Hn1]; rewrite Hxp in Hp1;
    (pose proof (reach_ext st st' (P d ++ [Some k]) l1 l (ap_placed _ _ Hap)
       (merged_agree ks' ks st st' k Hap Hm Hk) Hn1 ltac:(by rewrite Hp1)) as E; by apply E).
Qed.

Lemma merged_apart k ks st st' : k ∉ ks → apart (k :: ks) st → merged_keys [k] st st' → apart ks st'.
Proof.
  intros Hk Hap Hm. split; try apply Hm; rewrite ?(mk_length _ _ _ Hm); try apply Hap.
  intros k' l Hk'. rewrite !(merged_reach_key _ _ st st' k' l _ Hap Hm) by set_solver.
  apply (ap_disjoint _ _ Hap). by right.
Qed.

Lemma merged_trans k ks st st1 st2 : k ∉ ks → apart (k :: ks) st → merged_keys [k] st st1 →
  merged_keys ks st1 st2 → merged_keys (k :: ks) st st2.
Proof.
  intros Hk Hap H1 H2. pose proof (merged_apart k ks st st1 Hk Hap H1) as Hap1. split.
  - rewrite (mk_length _ _ _ H2). apply H1.
  - apply H2.
  - intros l Hl Hr. rewrite (mk_frame _ _ _ H2 l Hl), (mk_frame _ _ _ H1 l Hl); [done|set_solver|].
    intros k' Hk' Hr'. apply (Hr k'); [by right|].
    by rewrite <- (merged_reach_key _ _ st st1 k' l d Hap H1) by set_solver.
  - intros k' Hk'. rewrite (mk_other _ _ _ H2), (mk_other _ _ _ H1) by set_solver. done.
  - intros k' v [->|Hk']%elem_of_cons Hv.
    + rewrite (merged_contents ks ks st1 st2 k d) by auto. by apply H1; [left|].
    + assert (k' ≠ k) as Hne by (by intros ->).
      pose proof (merged_contents _ _ st st1 k' s Hap H1) as Hs.
      rewrite (merged_source _ _ st st1 Hap H1), Hv in Hs.
      rewrite (mk_value _ _ _ H2 k' v Hk') by (by rewrite (merged_source _ _ st st1 Hap H1)).
      rewrite (merged_contents _ _ st st1 k' d Hap H1) by set_solver.
      specialize (Hs ltac:(set_solver) ltac:(auto)). injection Hs as ->. done.
  - intros k' l [->|Hk']%elem_of_cons.
    + rewrite (merged_reach_key ks ks st1 st2 k l d) by auto. by apply H1; left.
    + intros Hr. assert (k' ≠ k) as Hne by (by intros ->).
      apply (mk_reach _ _ _ H2 k' l Hk') in Hr.
      rewrite !(merged_reach_key _ _ st st1 k' l _ Hap H1) in Hr by set_solver. done.
Qed.
End Into.

Definition conflict_error (k : string) : error :=
  EFmt [PS "key conflict: "; PQ k; PS " exists in multiple branches"].

Definition keys_of (o : obj) : list string := map fst (range_map "mergeVars" o).

Lemma elem_of_keys o k : k ∈ keys_of o ↔ is_Some (o !! k).
Proof.
  unfold keys_of. rewrite list_elem_of_fmap. split.
  - intros ([k' r] & -> & Hr%elem_of_range). eauto.
  - intros [r Hr]. exists (k, r). split; [done|by apply elem_of_range].
Qed.

Lemma NoDup_keys o : NoDup (keys_of o).
Proof. unfold keys_of. rewrite (range_map_perm _ o). apply NoDup_fst_map_to_list. Qed.

(** All entries of the source have been merged: the contents are the merge of the contents. *)
Lemma merged_object d s st st' : apart d s (keys_of (object st s)) st →
  merged_keys d s (keys_of (object st s)) st st' →
  contents st' <$> object st' d =
  merge_maps (resolve cfg) (contents st <$> object st d) (contents st <$> object st s).
Proof.
  intros Hap Hm. apply map_eq. intros k. rewrite lookup_merge_maps, !lookup_fmap.
  destruct (object st s !! k) as [v|] eqn:Hv; simpl.
  - apply (mk_value _ _ _ _ _ Hm); [apply elem_of_keys; eauto|done].
  - rewrite (merged_contents d s _ _ st st' k d Hap Hm) by (rewrite ?elem_of_keys, ?Hv; auto; by intros []).
    done.
Qed.

Section Entry.
Context (d s : nat) (k : string) (v : ref) (st : store).
Hypothesis Hap : apart d s [k] st.
Hypothesis Hv : object st s !! k = Some v.

Lemma source_fits : fits (length st) (P d ++ [Some k]) v.
Proof. rewrite (ap_place _ _ _ _ Hap). by apply placed_entry; [apply Hap..|]. Qed.

Lemma agree_put : agree_below (P d ++ [Some k]) st (put d k v st).
Proof. intros l Hl. unfold put. apply list_lookup_insert_ne. intros <-. by apply place_above in Hl. Qed.

Lemma object_put k' : object (put d k v st) d !! k' = <[k := v]> (object st d) !! k'.
Proof. unfold put, object. by rewrite list_lookup_insert_eq by apply Hap. Qed.

Lemma put_placed : placed (put d k v st).
Proof.
  intros l o k' r Ho Hr. unfold put in *. rewrite length_insert.
  apply list_lookup_insert_Some in Ho as [(<- & <- & Hl)|[Hne Ho]]; [|by eapply (ap_placed _ _ _ _ Hap)].
  apply lookup_insert_Some in Hr as [[<- <-]|[Hk Hr]]; [apply source_fits|].
  by apply placed_entry; [apply Hap..|].
Qed.

(** The entry of the source is stored. *)
Lemma merged_put :
  merge_at (resolve cfg) (contents st <$> object st d !! k) (contents st v) = contents st v →
  merged_keys d s [k] st (put d k v st).
Proof.
  intros Hval. pose proof source_fits as Hf. split.
  - apply length_insert.
  - apply put_placed.
  - intros l Hl _. by apply list_lookup_insert_ne.
  - intros k' Hk'. rewrite object_put, lookup_insert_ne; set_solver.
  - intros k' v' ->%list_elem_of_singleton Hv'. rewrite object_put, lookup_insert_eq. simpl. f_equal.
    rewrite Hv in Hv'. injection Hv' as <-. rewrite Hval.
    eapply contents_ext; [apply Hap|apply length_insert|apply agree_put|reflexivity|done].
  - intros k' l ->%list_elem_of_singleton (l1 & H1 & Hr). right.
    rewrite object_put, lookup_insert_eq in H1. injection H1 as Hv1. exists l1.
    split; [by rewrite <- Hv1|]. rewrite Hv1 in Hf. destruct Hf as [Hp Hn].
    pose proof (reach_ext st (put d k v st) _ l1 l (ap_placed _ _ _ _ Hap) agree_put Hn
      ltac:(by rewrite Hp)) as E. by apply E.
Qed.

(** The entry of the destination is kept. *)
Lemma merged_keep r : object st d !! k = Some r →
  resolve cfg (contents st r) (contents st v) = contents st r → merged_keys d s [k] st st.
Proof.
  intros Hr Hval. split; try done; [apply Hap| |by left].
  intros k' v' ->%list_elem_of_singleton Hv'. rewrite Hv in Hv'. injection Hv' as <-.
  rewrite Hr. simpl. by rewrite Hval.
Qed.
End Entry.

(** ** The loop *)

(** What the recursion is assumed to do for maps at most [n] deep. *)
Definition rec_ok (rec : option nat → option nat → GoM store (option error)) (n : nat) : Prop :=
  jm_ConflictPolicy cfg = "last" → ∀ d s st,
    apart d s (keys_of (object st s)) st → deep P (length st) (P d) ≤ n →
    ∃ st', rec (Some d) (Some s) st = (st', Some None) ∧ merged_keys d s (keys_of (object st s)) st st'.

Lemma merged_nested d s k d1 s1 st st' : jm_ConflictPolicy cfg = "last" → jm_DeepMerge cfg = true →
  apart d s [k] st →
  object st d !! k = Some (RMap d1) → object st s !! k = Some (RMap s1) →
  apart d1 s1 (keys_of (object st s1)) st → merged_keys d1 s1 (keys_of (object st s1)) st st' →
  merged_keys d s [k] st st'.
Proof.
  intros Hpol Hdeep Hap Hd Hs Hap1 Hm. pose proof (ap_placed _ _ _ _ Hap) as Hpl.
  destruct (placed_entry st d k _ Hpl (ap_d _ _ _ _ Hap) Hd) as [Hd1 Hd1n].
  assert (∀ l, ¬ reach st d1 l → st' !! l = st !! l) as Hframe.
  { intros l Hl. apply (mk_frame _ _ _ _ _ Hm).
    - intros ->. apply Hl. constructor.
    - intros k' _ Hr. apply Hl. by eapply reach_key_reach. }
  assert (object st' d = object st d) as Hobj.
  { unfold object. rewrite Hframe; [done|]. intros [Hp _]%(reach_place st d1 d Hpl Hd1n).
    rewrite Hd1 in Hp. by apply place_above in Hp. }
  destruct (placed_entry st s k _ Hpl (ap_s _ _ _ _ Hap) Hs) as [Hs1 Hs1n].
  split; try apply Hm.
  - intros l Hl Hr. apply Hframe. intros Hr'. apply (Hr k); [by left|]. by exists d1.
  - intros k' _. by rewrite Hobj.
  - intros k' v ->%list_elem_of_singleton Hv. rewrite Hs in Hv. injection Hv as <-.
    rewrite Hobj, Hd. simpl. f_equal. unfold resolve.
    rewrite bool_decide_false, bool_decide_true, Hdeep by (rewrite ?Hpol; done). simpl.
    rewrite (contents_map P st d1 _ Hpl (object_Some _ _ Hd1n)),
      (contents_map P st s1 _ Hpl (object_Some _ _ Hs1n)), deep_value_maps.
    assert (d1 < length st') as Hd1n' by (by rewrite (mk_length _ _ _ _ _ Hm)).
    rewrite (contents_map P st' d1 _ (mk_placed _ _ _ _ _ Hm) (object_Some _ _ Hd1n')). f_equal.
    rewrite (merged_object d1 s1 st st' Hap1 Hm). f_equal. unfold resolve.
    by rewrite bool_decide_false, bool_decide_true, Hdeep by (rewrite ?Hpol; done).
  - intros k' l ->%list_elem_of_singleton (x & Hx & Hr). rewrite Hobj, Hd in Hx. injection Hx as <-.
    apply reach_cases in Hr as [->|[k' Hr]]; [left; exists d1; split; [done|constructor]|].
    assert (reach_key st d1 k' l ∨ reach_key st s1 k' l) as [Hr'|Hr'].
    { destruct (decide (k' ∈ keys_of (object st s1))); [by eapply (mk_reach _ _ _ _ _ Hm)|left].
      by rewrite <- (merged_reach_key d1 s1 _ _ st st' k' l d1 Hap1 Hm) by auto. }
    + left. exists d1. split; [done|by eapply reach_key_reach].
    + right. exists s1. split; [done|by eapply reach_key_reach].
Qed.

Lemma apart_nested d s k d1 s1 st : apart d s [k] st →
  object st d !! k = Some (RMap d1) → object st s !! k = Some (RMap s1) →
  apart d1 s1 (keys_of (object st s1)) st.
Proof.
  intros Hap Hd Hs. pose proof (ap_placed _ _ _ _ Hap) as Hpl.
  destruct (placed_entry st d k _ Hpl (ap_d _ _ _ _ Hap) Hd) as [Hd1 Hd1n].
  destruct (placed_entry st s k _ Hpl (ap_s _ _ _ _ Hap) Hs) as [Hs1 Hs1n].
  assert (∀ l, reach st d1 l → reach st s1 l → False) as Hdis.
  { intros l H1 H2. apply (ap_disjoint _ _ _ _ Hap k l); [by left|by exists d1|by exists s1]. }
  split; try done.
  - intros ->. eapply Hdis; constructor.
  - by rewrite Hd1, Hs1, (ap_place _ _ _ _ Hap).
  - intros k' l _ H1 H2. eapply Hdis; by eapply reach_key_reach.
Qed.

(** A leaf has no map among its contents. *)
Lemma contents_leaf st n p r : fits n p r → as_map_ref r = None → ∀ m, contents st r ≠ VMap m.
Proof.
  destruct r as [v|l|elem rs]; [|done|].
  - intros Hf _ m Hc. unfold contents in Hc. simpl in *. by rewrite Hc in Hf.
  - intros _ _ m. unfold contents. simpl. unfold slice_value. by case_bool_decide.
Qed.

Lemma fits_map_ref n p r m : fits n p r → as_map_ref r = Some m → ∃ l, r = RMap l ∧ m = Some l.
Proof.
  destruct r as [v|l|elem rs]; [|by intros _ [= <-]; eauto|done].
  intros Hf. simpl in *. by destruct v.
Qed.

Definition blocked (d : nat) (k : string) (st : store) : Prop :=
  jm_ConflictPolicy cfg = "error" ∧ is_Some (object st d !! k).

Lemma deep_value_other d s : (∀ m, d ≠ VMap m) ∨ (∀ m, s ≠ VMap m) → deep_value d s = s.
Proof. intros Hx. destruct d, s; try done; exfalso; destruct Hx as [Hx|Hx]; by eapply Hx. Qed.

Lemma merge_entry_ok rec n d s k v st : rec_ok rec n → apart d s [k] st → object st s !! k = Some v →
  deep P (length st) (P d ++ [Some k]) ≤ n →
  (blocked d k st ∧ merge_entry cfg rec (Some d) k v st = (st, Some (Some (conflict_error k)))) ∨
  (¬ blocked d k st ∧ ∃ st', merge_entry cfg rec (Some d) k v st = (st', Some None) ∧ merged_keys d s [k] st st').
Proof.
  intros Hrec Hap Hv Hn. unfold merge_entry, blocked.
  unfold mbind, gom_bind, gets. cbn beta iota. change (map_object (Some d) st) with (object st d).
  destruct (object st d !! k) as [r|] eqn:Hr.
  2: { right. split; [by intros [_ []]|]. exists (put d k v st). split; [done|].
       apply merged_put; [done..|]. by rewrite Hr. }
  case_bool_decide as He; [left; split; [eauto|done]|]. right. split; [by intros []|].
  case_bool_decide as Hf.
  { exists st. split; [done|]. eapply (merged_keep d s k v st Hap Hv r Hr). unfold resolve.
    by rewrite bool_decide_true. }
  pose proof (placed_entry st d k r (ap_placed _ _ _ _ Hap) (ap_d _ _ _ _ Hap) Hr) as Hfr.
  pose proof (source_fits d s k v st Hap Hv) as Hfv.
  assert (resolve cfg (contents st r) (contents st v) = contents st v → ∃ st',
    map_write (Some d) k v st = (st', Some None) ∧ merged_keys d s [k] st st') as Hput.
  { intros Hval. exists (put d k v st). split; [done|]. apply merged_put; [done..|]. by rewrite Hr. }
  unfold resolve in Hput. rewrite (bool_decide_false (_ = "first")) in Hput by done.
  case_bool_decide as Hl; simpl in Hput; [|by apply Hput].
  destruct (jm_DeepMerge cfg) eqn:Hd; [|by apply Hput].
  destruct (as_map_ref r) as [dm|] eqn:Hdm; [|apply Hput, deep_value_other; left; by eapply contents_leaf].
  destruct (as_map_ref v) as [sm|] eqn:Hsm; [|apply Hput, deep_value_other; right; by eapply contents_leaf].
  destruct (fits_map_ref _ _ _ _ Hfr Hdm) as (d1 & -> & ->).
  destruct (fits_map_ref _ _ _ _ Hfv Hsm) as (s1 & -> & ->).
  pose proof (apart_nested d s k d1 s1 st Hap Hr Hv) as Hap1.
  destruct (Hrec Hl d1 s1 st Hap1) as (st' & Hst & Hm); [by destruct Hfr as [-> _]|].
  exists st'. split; [done|]. by eapply merged_nested.
Qed.

Lemma apart_sub d s ks ks' st : apart d s ks st → (∀ k, k ∈ ks' → k ∈ ks) → apart d s ks' st.
Proof. intros Hap Hks. split; try apply Hap. eauto using ap_disjoint. Qed.

Lemma merge_entries_ok rec n d s ks st : rec_ok rec n → NoDup ks → apart d s ks st →
  (∀ k, k ∈ ks → is_Some (object st s !! k) ∧ deep P (length st) (P d ++ [Some k]) ≤ n) →
  (∃ k st', k ∈ ks ∧ blocked d k st ∧
     merge_entries cfg rec (Some d) (Some s) ks st = (st', Some (Some (conflict_error k)))) ∨
  ((∀ k, k ∈ ks → ¬ blocked d k st) ∧ ∃ st',
     merge_entries cfg rec (Some d) (Some s) ks st = (st', Some None) ∧ merged_keys d s ks st st').
Proof.
  intros Hrec Hnd. revert st. induction Hnd as [|k ks Hk Hnd IH]; intros st Hap Hks.
  { right. split; [set_solver|]. exists st. split; [done|]. apply merged_nil, Hap. }
  destruct (Hks k) as [[v Hv] Hn]; [by left|]. cbn [merge_entries].
  unfold mbind, gom_bind, gets. cbn beta iota. change (map_object (Some s) st) with (object st s). rewrite Hv.
  destruct (merge_entry_ok rec n d s k v st Hrec) as [[Hb He]|(Hb & st1 & He & H1)]; try done.
  { eapply apart_sub; [done|set_solver]. }
  { rewrite He. left. exists k, st. split_and!; [by left|done|done]. }
  rewrite He. pose proof (merged_apart d s k ks st st1 Hk Hap H1) as Hap1.
  destruct (IH st1 Hap1) as [(k' & st' & Hk' & Hb' & Hrun)|(Hb' & st' & Hrun & H2)].
  { intros k' Hk'. rewrite (merged_source d s _ _ st st1 Hap H1), (mk_length _ _ _ _ _ H1).
    apply Hks. by right. }
  - left. exists k', st'. split_and!; [by right| |done]. unfold blocked in *.
    rewrite (mk_other _ _ _ _ _ H1) in Hb' by set_solver. done.
  - right. split; [|exists st'; split; [done|by eapply merged_trans]].
    intros k' [->|Hk']%elem_of_cons; [done|]. specialize (Hb' k' Hk'). unfold blocked in *.
    by rewrite (mk_other _ _ _ _ _ H1) in Hb' by set_solver.
Qed.

Lemma mergeVars_loop n d s st : rec_ok (mergeVars cfg n) n → apart d s (keys_of (object st s)) st →
  deep P (length st) (P d) ≤ S n →
  (∃ k st', is_Some (object st s !! k) ∧ blocked d k st ∧
     mergeVars cfg (S n) (Some d) (Some s) st = (st', Some (Some (conflict_error k)))) ∨
  ((∀ k, is_Some (object st s !! k) → ¬ blocked d k st) ∧ ∃ st',
     mergeVars cfg (S n) (Some d) (Some s) st = (st', Some None) ∧
     merged_keys d s (keys_of (object st s)) st st').
Proof.
  intros Hrec Hap Hn.
  destruct (merge_entries_ok (mergeVars cfg n) n d s (keys_of (object st s)) st)
    as [(k & st' & Hk & Hb & Hrun)|(Hb & st' & Hrun & Hm)]; [done|apply NoDup_keys|done| | |].
  - intros k Hk%elem_of_keys. split; [done|].
    pose proof (deep_step P (length st) d (Some k) (ap_d _ _ _ _ Hap)). lia.
  - left. exists k, st'. by rewrite <- elem_of_keys.
  - right. split; [intros k Hk; by apply Hb, elem_of_keys|eauto].
Qed.

Lemma mergeVars_ok n : rec_ok (mergeVars cfg n) n.
Proof.
  induction n as [|n IH]; intros Hpol d s st Hap Hn.
  { pose proof (deep_step P (length st) d None (ap_d _ _ _ _ Hap)). lia. }
  destruct (mergeVars_loop n d s st IH Hap Hn) as [(k & st' & _ & [He _] & _)|(_ & Hm)]; [congruence|done].
Qed.

(** ** All inputs *)

Definition vars_at (st : store) (l : nat) : gmap string value := contents st <$> object st l.

(** Places of keys only: such a map is not an element of a slice. *)
Definition keyed (p : place) : Prop := Forall is_Some p.

Lemma reach_keyed st l l' : placed st → keyed (P l) → reach st l l' → keyed (P l').
Proof.
  intros Hpl Hk Hr. induction Hr as [l|l o k l1 l2 Ho Hx _ IH]; [done|].
  apply IH. destruct (Hpl l o k _ Ho Hx) as [-> _]. apply Forall_app_2; [done|]. repeat constructor. eauto.
Qed.

Lemma reach_same st st' l l' : (∀ x, reach st l x → st' !! x = st !! x) → reach st' l l' ↔ reach st l l'.
Proof.
  intros Hag. split; intros Hr.
  - revert Hag. induction Hr as [l|l o k l1 l2 Ho Hk _ IH]; intros Hag; [constructor|].
    rewrite Hag in Ho by constructor. eapply reach_in; [done..|]. apply IH.
    intros x Hx. apply Hag. by eapply reach_in.
  - revert Hag. induction Hr as [l|l o k l1 l2 Ho Hk _ IH]; intros Hag; [constructor|].
    eapply reach_in; [by rewrite Hag by constructor|done|]. apply IH.
    intros x Hx. apply Hag. by eapply reach_in.
Qed.

Lemma reach_snoc st l x o k y : reach st l x → st !! x = Some o → o !! k = Some (RMap y) → reach st l y.
Proof. induction 1; intros; eapply reach_in; eauto using reach_here. Qed.

(** What a map holds does not change while only other keyed maps change. *)
Lemma vars_same st st' l : placed st → length st' = length st → l < length st →
  (∀ x, reach st l x ∨ ¬ keyed (P x) → st' !! x = st !! x) → vars_at st' l = vars_at st l.
Proof.
  intros Hpl Hlen Hl Hag. set (A x := reach st l x ∨ ¬ keyed (P x)).
  assert (∀ x o k r, A x → st !! x = Some o → o !! k = Some r → inside A r) as Hcl.
  { intros x o k r Hx Ho Hr. pose proof (Hpl x o k r Ho Hr) as Hf. destruct r as [v|y|elem rs]; [done|..].
    - destruct Hx as [Hx|Hx]; [left; by eapply reach_snoc|right]. destruct Hf as [-> _].
      by intros [Hy _]%Forall_app.
    - rewrite fits_list in Hf. apply inside_list. eapply Forall_impl; [exact Hf|]. intros r Hfr.
      eapply fits_inside; [exact Hfr|]. intros y _ [q Hp]. right. unfold keyed. rewrite Hp, !Forall_app.
      intros [[_ Hn] _]. inversion Hn as [|? ? []]; done. }
  unfold vars_at, object. rewrite (Hag l (or_introl (reach_here st l))).
  rewrite (object_Some st l Hl). simpl. apply map_fmap_ext. intros k r Hr. unfold contents. rewrite Hlen.
  apply (read_ref_inside A); [by eapply Hcl; [left; constructor|by apply object_Some|]|].
  intros x Hx. by apply (read_map_inside A).
Qed.

(** The maps of variables that share no nested map with each other. *)
Definition roots (st : store) (ls : list nat) : Prop := Forall (λ l, l < length st ∧ P l = []) ls.

Definition separate (st : store) (ls : list nat) : Prop :=
  ∀ i j li lj x, i ≠ j → ls !! i = Some li → ls !! j = Some lj →
    reach st li x → reach st lj x → False.

Lemma separate_cons st l ls : separate st (l :: ls) ↔
  (∀ l', l' ∈ ls → ∀ x, reach st l x → reach st l' x → False) ∧ separate st ls.
Proof.
  split.
  - intros Hs. split.
    + intros l' [i Hi]%list_elem_of_lookup x H1 H2. by eapply (Hs 0 (S i)).
    + intros i j li lj x Hij Hi Hj. eapply (Hs (S i) (S j)); [lia|done|done].
  - intros [Hl Hls] [|i] [|j] li lj x Hij; simpl; intros Hi Hj Hri Hrj.
    + done.
    + injection Hi as ->. eapply Hl; [by eapply list_elem_of_lookup_2|done|done].
    + injection Hj as ->. eapply Hl; [by eapply list_elem_of_lookup_2|done|done].
    + eapply (Hls i j); [lia|done..].
Qed.

Lemma separate_apart st d s ks : placed st → roots st [d; s] →
  (∀ x, reach st d x → reach st s x → False) → apart d s ks st.
Proof.
  intros Hpl Hr Hdis. apply Forall_cons in Hr as [[Hd Hpd] Hr]. apply Forall_cons in Hr as [[Hs Hps] _].
  split; try done.
  - intros ->. eapply Hdis; constructor.
  - by rewrite Hpd, Hps.
  - intros k l _ H1 H2. eapply Hdis; by eapply reach_key_reach.
Qed.

(** A merge into [d] leaves the other inputs as they are. *)
Lemma merged_others d s ss st st' : placed st → roots st (d :: s :: ss) → separate st (d :: s :: ss) →
  merged_keys d s (keys_of (object st s)) st st' →
  roots st' (d :: ss) ∧ separate st' (d :: ss) ∧ map (vars_at st') ss = map (vars_at st) ss.
Proof.
  intros Hpl Hr Hsep Hm. pose proof (mk_length _ _ _ _ _ Hm) as Hlen.
  apply separate_cons in Hsep as [Hd Hsep]. apply separate_cons in Hsep as [Hs Hsep].
  apply Forall_cons in Hr as [[Hdn Hdp] Hr]. apply Forall_cons in Hr as [[Hsn Hsp] Hr].
  assert (apart d s (keys_of (object st s)) st) as Hap.
  { apply separate_apart; [done| |intros x; apply Hd; by left]. by repeat constructor. }
  assert (∀ x, ¬ reach st d x → st' !! x = st !! x) as Hframe.
  { intros x Hx. apply (mk_frame _ _ _ _ _ Hm); [intros ->; apply Hx; constructor|].
    intros k _ Hk. apply Hx. by eapply reach_key_reach. }
  assert (∀ l, l ∈ ss → ∀ x, reach st l x ∨ ¬ keyed (P x) → st' !! x = st !! x) as Hsame.
  { intros l Hl x [Hx|Hx]; apply Hframe; intros Hdx; [by eapply (Hd l); [right| |]|].
    apply Hx. eapply reach_keyed; [done| |done]. rewrite Hdp. constructor. }
  assert (∀ l, l ∈ ss → ∀ x, reach st' l x ↔ reach st l x) as Hreach.
  { intros l Hl x. apply reach_same. intros y Hy. apply (Hsame l Hl). by left. }
  split_and!.
  - apply Forall_cons. rewrite Hlen. split; [done|exact Hr].
  - apply separate_cons. split.
    + intros l Hl x Hx. rewrite (Hreach l Hl). intros Hlx.
      apply reach_cases in Hx as [->|[k Hx]]; [eapply (Hd l); [by right|constructor|done]|].
      assert (reach_key st d k x ∨ reach_key st s k x) as [Hk|Hk].
      { destruct (decide (k ∈ keys_of (object st s))); [by eapply (mk_reach _ _ _ _ _ Hm)|left].
        by rewrite <- (merged_reach_key d s _ _ st st' k x d Hap Hm) by auto. }
      * eapply (Hd l); [by right|by eapply reach_key_reach|done].
      * eapply (Hs l Hl); [by eapply reach_key_reach|done].
    + intros i j li lj x Hij Hi Hj.
      rewrite (Hreach li), (Hreach lj) by (by eapply list_elem_of_lookup_2). by eapply Hsep.
  - apply map_ext_in. intros l Hl%list_elem_of_In. rewrite Forall_forall in Hr.
    destruct (Hr l Hl) as [Hln _]. apply vars_same; eauto.
Qed.

(** The fields besides the variables. *)
Definition merge_fields (r : senv) (input : option senv) : senv :=
  match input with
  | Some e => match se_Vars e with
              | Some _ => if jm_VarsOnly cfg then r else append_fields e r
              | None => r
              end
  | None => r
  end.

Definition sources (inputs : list (option senv)) : list nat :=
  omap (λ e, match e with Some e => se_Vars e | None => None end) inputs.

Lemma sources_cons e inputs : sources (Some e :: inputs) =
  match se_Vars e with Some s => s :: sources inputs | None => sources inputs end.
Proof. unfold sources. simpl. by destruct (se_Vars e). Qed.

Lemma merge_fields_vars r e : se_Vars (merge_fields r e) = se_Vars r.
Proof. unfold merge_fields. repeat case_match; done. Qed.

Lemma blocked_conflict d s st :
  conflicting cfg (vars_at st d) (vars_at st s) = true ↔ ∃ k, is_Some (object st s !! k) ∧ blocked d k st.
Proof.
  unfold conflicting, blocked, vars_at. rewrite andb_true_iff, !bool_decide_eq_true, !dom_fmap_L. split.
  - intros [He [k Hk]%set_choose_L]. exists k. rewrite elem_of_intersection, !elem_of_dom in Hk. tauto.
  - intros (k & Hs & He & Hd). split; [done|]. intros Hx. assert (k ∈ (∅ : gset string)) as Hk.
    { rewrite <- Hx. by rewrite elem_of_intersection, !elem_of_dom. }
    by apply not_elem_of_empty in Hk.
Qed.

Lemma json_inputs_ok inputs r d st : se_Vars r = Some d → placed st →
  roots st (d :: sources inputs) → separate st (d :: sources inputs) →
  ∃ st' res, json_inputs cfg (Some r) inputs st = (st', Some res) ∧
    match json_spec cfg (vars_at st d) (map (vars_at st) (sources inputs)) with
    | None => ∃ k, res = inr (conflict_error k)
    | Some m => res = inl (Some (foldl merge_fields r inputs)) ∧ contents st' (RMap d) = VMap m
    end.
Proof.
  revert r st. induction inputs as [|[e|] inputs IH]; intros r st Hr Hpl Hroots Hsep.
  - exists st, (inl (Some r)). split; [done|]. simpl. split; [done|].
    apply Forall_cons in Hroots as [[Hd _] _]. by apply (contents_map P), object_Some.
  - rewrite sources_cons in *. cbn [json_inputs foldl]. unfold merge_fields at 2.
    destruct (se_Vars e) as [s|] eqn:He; [|by apply IH].
    unfold mbind, gom_bind, deref, mret, gom_ret. cbn beta iota. rewrite Hr. unfold merge_vars.
    assert (apart d s (keys_of (object st s)) st) as Hap.
    { apply separate_apart; [done| |].
      - eapply Forall_cons in Hroots as [? [? _]%Forall_cons]. by apply Forall_cons; split; [|apply Forall_singleton].
      - apply separate_cons in Hsep as [Hd _]. intros x. apply Hd. by left. }
    cbn [map json_spec].
    destruct (mergeVars_loop (length st) d s st (mergeVars_ok _) Hap) as [(k & st' & Hk & Hb & ->)|(Hb & st' & -> & Hm)].
    { pose proof (deep_le P (length st) (P d)). lia. }
    + exists st', (inr (conflict_error k)). split; [done|].
      destruct (conflicting cfg (vars_at st d) (vars_at st s)) eqn:Hc; [eauto|].
      rewrite <- not_true_iff_false, blocked_conflict in Hc. destruct Hc; eauto.
    + assert (conflicting cfg (vars_at st d) (vars_at st s) = false) as ->.
      { rewrite <- not_true_iff_false, blocked_conflict. intros (k & Hk & Hbk). by eapply Hb. }
      destruct (merged_others d s (sources inputs) st st' Hpl Hroots Hsep Hm) as (Hroots' & Hsep' & Hvars).
      rewrite <- Hvars. unfold vars_at at 1 2. rewrite <- (merged_object d s st st' Hap Hm).
      apply IH; [by destruct (jm_VarsOnly cfg)|apply Hm|done|done].
  - by apply IH.
Qed.
End Merge.

(** ** The clone of the first input *)

Section Clone.
Context (P : nat → place) (st : store) (l0 : nat).
Hypothesis Hpl : placed P st.
Hypothesis Hl0 : l0 < length st.
Hypothesis Hp0 : P l0 = [].

Definition place_new (l : nat) : place := if decide (l = length st) then [] else P l.
Definition cloned : store := st ++ [object st l0].

Lemma place_old l : l < length st → place_new l = P l.
Proof. intros Hl. unfold place_new. rewrite decide_False by lia. done. Qed.

Lemma fits_new p r : fits P (length st) p r → fits place_new (length cloned) p r.
Proof.
  unfold cloned. rewrite length_app. revert p. induction r as [v|l|elem rs IH] using ref_induct; intros p Hf.
  - done.
  - destruct Hf as [Hp Hl]. simpl. rewrite place_old by done. split; [done|lia].
  - rewrite fits_list in *. rewrite Forall_forall in *. eauto.
Qed.

Lemma placed_cloned : placed place_new cloned.
Proof.
  intros l o k r Ho Hr. unfold cloned in Ho. apply lookup_app_Some in Ho as [Ho|[Hl Ho]].
  - rewrite place_old by (by eapply lookup_lt_Some). apply fits_new. by eapply Hpl.
  - apply list_lookup_singleton_Some in Ho as [Hz <-]. unfold place_new.
    rewrite decide_True by lia. apply fits_new.
    pose proof (placed_entry P st l0 k r Hpl Hl0 Hr) as Hf. by rewrite Hp0 in Hf.
Qed.

Lemma reach_cloned l x : l < length st → reach cloned l x ↔ reach st l x.
Proof.
  intros Hl. apply reach_same. intros y Hy. apply lookup_app_l. by apply (reach_place P st l y).
Qed.

Lemma cloned_object : object cloned (length st) = object st l0.
Proof. unfold object at 1, cloned. by rewrite lookup_app_r, Nat.sub_diag by lia. Qed.

Lemma vars_cloned : vars_at cloned (length st) = vars_at st l0.
Proof.
  unfold vars_at. rewrite cloned_object. apply map_fmap_ext. intros k r Hr.
  eapply (contents_new P); [done|by apply placed_entry].
Qed.

Lemma vars_old l : l < length st → vars_at cloned l = vars_at st l.
Proof.
  intros Hl. unfold vars_at, object, cloned at 2. rewrite lookup_app_l by done.
  rewrite (object_Some st l Hl). apply map_fmap_ext. intros k r Hr.
  eapply (contents_new P); [done|by apply placed_entry].
Qed.

Lemma cloned_roots ls : roots P st ls → roots place_new cloned (length st :: ls).
Proof.
  intros Hls. unfold roots, cloned. rewrite length_app. apply Forall_cons. split.
  - split; [simpl; lia|]. unfold place_new. by rewrite decide_True.
  - eapply Forall_impl; [exact Hls|]. intros l [Hl Hp]. split; [lia|by rewrite place_old].
Qed.

Lemma cloned_separate ls : roots P st ls → separate st (l0 :: ls) → separate cloned (length st :: ls).
Proof.
  intros Hls [Hd Hsep]%separate_cons. unfold roots in Hls. rewrite Forall_forall in Hls.
  apply separate_cons. split.
  - intros l Hl x Hx. destruct (Hls l Hl) as [Hln _]. rewrite (reach_cloned l x Hln). intros Hlx.
    destruct (reach_place P st l x Hpl Hln Hlx) as [_ Hxn].
    apply reach_cases in Hx as [->|(k & l1 & H1 & Hr)]; [lia|]. rewrite cloned_object in H1.
    destruct (placed_entry P st l0 k _ Hpl Hl0 H1) as [_ Hn1]. rewrite reach_cloned in Hr by done.
    apply (Hd l Hl x); [|done]. eapply reach_in; [by apply object_Some|done|done].
  - intros i j li lj x Hij Hi Hj.
    rewrite !reach_cloned by (apply Hls; by eapply list_elem_of_lookup_2). by eapply Hsep.
Qed.
End Clone.

(** ** Without deep merge no map of an input changes *)

Definition shallow (cfg : JSONMergeConfig) : Prop := jm_DeepMerge cfg = false ∨ jm_ConflictPolicy cfg ≠ "last".

Definition only (d : nat) (st st' : store) : Prop := ∀ l, l ≠ d → st' !! l = st !! l.

Section Shallow.
Context `{RangeOrder} (cfg : JSONMergeConfig) (Hsh : shallow cfg).

Lemma merge_entry_only rec d k v st : only d st (merge_entry cfg rec (Some d) k v st).1.
Proof.
  unfold merge_entry, mbind, gom_bind, gets. cbn beta iota.
  assert (only d st (map_write (Some d) k v st).1) as Hw
    by (intros l Hl; by apply list_lookup_insert_ne).
  destruct (map_object (Some d) st !! k) as [r|]; [|done]. repeat case_bool_decide; try done.
  destruct Hsh as [->|Hp]; [done|]. by destruct Hp.
Qed.

Lemma merge_entries_only rec d src ks st : only d st (merge_entries cfg rec (Some d) src ks st).1.
Proof.
  revert st. induction ks as [|k ks IH]; intros st; [done|]. cbn [merge_entries].
  unfold mbind at 1, gom_bind at 1, gets at 1. cbn beta iota.
  destruct (map_object src st !! k) as [v|]; [|by apply IH].
  pose proof (merge_entry_only rec d k v st) as He. unfold mbind, gom_bind.
  destruct (merge_entry cfg rec (Some d) k v st) as [st1 [[err|]|]]; simpl in He; [done| |done].
  intros l Hl. rewrite (IH st1 l Hl). by apply He.
Qed.

Lemma json_inputs_only d r inputs st : se_Vars r = Some d →
  only d st (json_inputs cfg (Some r) inputs st).1.
Proof.
  revert r st. induction inputs as [|[e|] inputs IH]; intros r st Hr; [done| |by apply IH].
  cbn [json_inputs]. destruct (se_Vars e) as [s|]; [|by apply IH].
  unfold mbind, gom_bind, deref, mret, gom_ret. cbn beta iota. rewrite Hr.
  unfold merge_vars. cbn [mergeVars]. unfold mbind, gom_bind, gets. cbn beta iota.
  pose proof (merge_entries_only (mergeVars cfg (length st)) d (Some s)
    (map fst (range_map "mergeVars" (map_object (Some s) st))) st) as He.
  destruct (merge_entries _ _ _ _ _ st) as [st1 [[err|]|]]; simpl in He; [done| |done].
  intros l Hl. rewrite (IH _ st1) by (done || by destruct (jm_VarsOnly cfg)). by apply He.
Qed.
End Shallow.

(** C23: when no nested map is reached from two inputs, or at two places of one, the
    JSON strategy returns, and either reports a conflict (policy [error]) or returns
    a copy of the first envelope whose variables hold the merge of the variables of
    the inputs by the policy, with the other fields appended; without deep merge it
    changes no map of an input. *)
Theorem json_merge_correct `{RangeOrder} (cfg : JSONMergeConfig) (now : Z) (P : nat → place)
    (st : store) (e0 : senv) (l0 : nat) (inputs : list (option senv)) :
  placed P st → se_Vars e0 = Some l0 → roots P st (l0 :: sources inputs) →
  separate st (l0 :: sources inputs) →
  ∃ st' res, JSONMerge cfg now (Some e0 :: inputs) st = (st', Some res) ∧
    match json_spec cfg (vars_at st l0) (map (vars_at st) (sources inputs)) with
    | None => ∃ k, res = inr (conflict_error k)
    | Some m =>
        res = inl (Some (foldl (merge_fields cfg) (set_se_Vars (length st) e0) inputs)) ∧
        contents st' (RMap (length st)) = VMap m
    end ∧
    (shallow cfg → ∀ l, l < length st → st' !! l = st !! l).
Proof.
  intros Hpl He Hroots Hsep. pose proof Hroots as [[Hl0 Hp0] Hls]%Forall_cons.
  destruct (json_inputs_ok cfg (place_new P st) inputs (set_se_Vars (length st) e0) (length st) (cloned st l0))
    as (st' & res & Hrun & Hres).
  - done.
  - by apply placed_cloned.
  - by apply cloned_roots.
  - by apply (cloned_separate P).
  - exists st', res. unfold JSONMerge, clone_senv. rewrite He.
    unfold mbind, gom_bind, gets, new_map, mret, gom_ret. cbn beta iota. fold (cloned st l0).
    split; [exact Hrun|]. rewrite (vars_cloned P) in Hres by done.
    assert (map (vars_at (cloned st l0)) (sources inputs) = map (vars_at st) (sources inputs)) as Hmap.
    { apply map_ext_in. intros l Hl%list_elem_of_In. rewrite Forall_forall in Hls.
      apply (vars_old P); [done|by apply Hls]. }
    rewrite Hmap in Hres. split; [exact Hres|]. intros Hsh l Hl.
    pose proof (json_inputs_only cfg Hsh (length st) (set_se_Vars (length st) e0) inputs (cloned st l0) eq_refl) as Hon.
    rewrite Hrun in Hon. simpl in Hon. rewrite (Hon l) by lia. by apply lookup_app_l.
Qed.

(** ** Samples *)

Section Sample.
#[local] Existing Instance key_order.

Definition senv_of (l : nat) : senv := mkSenv VNil (Some l) [] [] [] (mkTrace "" "" "" "" 0).

Definition deep_last : JSONMergeConfig := NewJSONMergeStrategy (mkJSON true "" false).

(** Variables [{cfg: {a: 1}}] and [{cfg: {b: 2}}]. *)
Definition two_inputs : store :=
  [ {[ "cfg" := RMap 1 ]}; {[ "a" := RVal (VInt 1) ]};
    {[ "cfg" := RMap 3 ]}; {[ "b" := RVal (VInt 2) ]} ].

Definition two_places (l : nat) : place := if bool_decide (l = 1 ∨ l = 3) then [Some "cfg"] else [].

(** The variables of the merged envelope. *)
Definition merged_vars (cfg : JSONMergeConfig) (inputs : list (option senv)) (st : store) : option value :=
  match JSONMerge cfg 0 inputs st with
  | (st', Some (inl (Some e))) => (λ l, contents st' (RMap l)) <$> se_Vars e
  | _ => None
  end.

Lemma two_placed : placed two_places two_inputs.
Proof.
  intros l o k r Ho Hr. do 4 (destruct l as [|l]; [injection Ho as <-;
    apply lookup_singleton_Some in Hr as [<- <-]; vm_compute; by auto with lia|]). done.
Qed.

Lemma reach_pair st a b k k' v : object st a = {[ k := RMap b ]} → object st b = {[ k' := RVal v ]} →
  ∀ x, reach st a x → x = a ∨ x = b.
Proof.
  intros Ha Hb x Hx. apply reach_cases in Hx as [->|(j & l1 & H1 & Hr)]; [by left|right].
  rewrite Ha in H1. apply lookup_singleton_Some in H1 as [<- [= <-]].
  apply reach_cases in Hr as [->|(j & l2 & H2 & _)]; [done|].
  rewrite Hb in H2. by apply lookup_singleton_Some in H2 as [_ ?].
Qed.

Lemma two_separate : separate two_inputs [0; 2].
Proof.
  pose proof (reach_pair two_inputs 0 1 _ _ _ eq_refl eq_refl) as H0.
  pose proof (reach_pair two_inputs 2 3 _ _ _ eq_refl eq_refl) as H2.
  apply separate_cons. split.
  - intros l ->%list_elem_of_singleton x H0x H2x. apply H0 in H0x. apply H2 in H2x. lia.
  - apply separate_cons. split; [intros l Hl; by apply not_elem_of_nil in Hl|].
    intros i j li lj x _ Hi. by rewrite lookup_nil in Hi.
Qed.

Lemma json_merge_correct_witness :
  merged_vars deep_last [Some (senv_of 0); Some (senv_of 2)] two_inputs =
    Some (VMap {[ "cfg" := VMap {[ "a" := VInt 1; "b" := VInt 2 ]} ]}) ∧
  ∃ st' res, JSONMerge deep_last 0 [Some (senv_of 0); Some (senv_of 2)] two_inputs = (st', Some res) ∧
    match json_spec deep_last (vars_at two_inputs 0) (map (vars_at two_inputs) (sources [Some (senv_of 2)])) with
    | None => ∃ k, res = inr (conflict_error k)
    | Some m =>
        res = inl (Some (foldl (merge_fields deep_last) (set_se_Vars 4 (senv_of 0)) [Some (senv_of 2)])) ∧
        contents st' (RMap 4) = VMap m
    end ∧
    (shallow deep_last → ∀ l, l < 4 → st' !! l = two_inputs !! l).
Proof.
  split; [vm_compute; reflexivity|].
  apply (json_merge_correct deep_last 0 two_places two_inputs (senv_of 0) 0 [Some (senv_of 2)]).
  - exact two_placed.
  - reflexivity.
  - repeat constructor; vm_compute; by auto with lia.
  - exact two_separate.
Defined.

(** Three branches: the first and the last hold the map of the envelope they were
    cloned from, the second one has its own. The policy asks for the value of the
    last; the value of the second stays, in the shared map of all inputs. *)
Definition shared_inputs : store :=
  [ {[ "cfg" := RMap 1 ]}; {[ "a" := RVal (VInt 1) ]};
    {[ "cfg" := RMap 3 ]}; {[ "a" := RVal (VInt 2) ]}; {[ "cfg" := RMap 1 ]} ].

Example shared_map_wins :
  merged_vars deep_last [Some (senv_of 0); Some (senv_of 2); Some (senv_of 4)] shared_inputs =
    Some (VMap {[ "cfg" := VMap {[ "a" := VInt 2 ]} ]}) ∧
  json_spec deep_last (vars_at shared_inputs 0) [vars_at shared_inputs 2; vars_at shared_inputs 4] =
    Some {[ "cfg" := VMap {[ "a" := VInt 1 ]} ]}.
Proof. split; vm_compute; reflexivity. Qed.

(** The merge changes the map of the first input. *)
Example input_changed :
  contents (JSONMerge deep_last 0 [Some (senv_of 0); Some (senv_of 2)] two_inputs).1 (RMap 0) =
  VMap {[ "cfg" := VMap {[ "a" := VInt 1; "b" := VInt 2 ]} ]}.
Proof. vm_compute. reflexivity. Qed.

(** A clone without variables is a nil map, into which the merge panics. *)
Example nil_vars_panic :
  (JSONMerge deep_last 0 [Some (mkSenv VNil None [] [] [] (mkTrace "" "" "" "" 0)); Some (senv_of 2)]
     two_inputs).2 = None.
Proof. vm_compute. reflexivity. Qed.
End Sample.
