(* ===== verification/Kahn.v ===== *)
(** * Kahn's algorithm, generically

    [BasicGraph.TopologicalSort] and [GraphDefinition.detectCycle] run the same
    worklist over an in-degree table. This file holds that loop and its
    correctness for an arbitrary multigraph; the two components instantiate it. *)

From stdpp Require Import gmap strings list fin_maps relations.
From Stdlib Require Import ZArith Lia.
From S2P Require Import Prelude.

(** Reading a Go [map[string]int]: a missing key is 0. *)
Definition deg_get (deg : gmap string Z) (v : string) : Z := default 0%Z (deg !! v).

Lemma deg_get_insert deg v d w :
  deg_get (<[v := d]> deg) w = if decide (v = w) then d else deg_get deg w.
Proof. unfold deg_get. rewrite lookup_insert. by case_decide. Qed.

Section Loop.
Context (succs : string → list string).

(** The inner loop over the successors of the popped node: decrement, and
    enqueue the ones whose in-degree reaches zero. *)
Fixpoint reduce_degrees (ss : list string) (deg : gmap string Z) (queue : list string)
    : gmap string Z * list string :=
  match ss with
  | [] => (deg, queue)
  | s :: rest =>
      let d := (deg_get deg s - 1)%Z in
      let deg' := <[s := d]> deg in
      let queue' := if (d =? 0)%Z then queue ++ [s] else queue in
      reduce_degrees rest deg' queue'
  end.

(** The worklist loop; [None] when the fuel runs out. *)
Fixpoint kahn_loop (fuel : nat) (deg : gmap string Z) (queue result : list string)
    : option (gmap string Z * list string) :=
  match queue with
  | [] => Some (deg, result)
  | current :: queue' =>
      match fuel with
      | 0 => None
      | S fuel' =>
          let '(deg', queue'') := reduce_degrees (succs current) deg queue' in
          kahn_loop fuel' deg' queue'' (result ++ [current])
      end
  end.
End Loop.

(** ** Correctness *)

Section Correctness.
Context (V : list string) (E : list (string * string)) (succs : string → list string).

Definition edge (u v : string) : Prop := (u, v) ∈ E.
Definition acyclic : Prop := ∀ x, ¬ tc edge x x.

Hypothesis V_nodup : NoDup V.
Hypothesis E_in_V : ∀ u v, edge u v → u ∈ V ∧ v ∈ V.
Hypothesis succs_spec :
  ∀ u, succs u = map snd (filter (λ e : string * string, e.1 = u) E).

(** Edges into [v] whose source is not yet in the result. *)
Definition indeg (R : list string) (v : string) : nat :=
  count (λ e : string * string, e.2 = v ∧ e.1 ∉ R) E.

Definition occ (v : string) (l : list string) : nat := count (λ w, w = v) l.

Lemma occ_cons v w l : occ v (w :: l) = (if decide (w = v) then 1 else 0) + occ v l.
Proof. unfold occ. rewrite count_cons. by repeat case_decide. Qed.

Lemma occ_pos v l : 0 < occ v l ↔ v ∈ l.
Proof. unfold occ. rewrite count_pos. naive_solver. Qed.

(** Popping [c] removes exactly the edges from [c]. *)
Lemma indeg_snoc R c v :
  c ∉ R → indeg R v = occ v (succs c) + indeg (R ++ [c]) v.
Proof.
  intros Hc. rewrite succs_spec. unfold indeg, occ. clear -Hc.
  induction E as [|[a b] l IH]; [done|].
  rewrite filter_cons, !count_cons. simpl in *.
  destruct (decide (a = c)) as [->|Ha]; simpl; [rewrite count_cons|];
    rewrite IH; repeat case_decide; rewrite ?elem_of_snoc in *; naive_solver lia.
Qed.

(** What the inner loop computes. *)
Lemma reduce_degrees_spec ss : ∀ deg q deg' q',
  (∀ v, v ∈ ss → (Z.of_nat (occ v ss) <= deg_get deg v)%Z) →
  reduce_degrees ss deg q = (deg', q') →
  (∀ v, deg_get deg' v = (deg_get deg v - Z.of_nat (occ v ss))%Z) ∧
  ∃ new, q' = q ++ new ∧ NoDup new ∧
    ∀ v, v ∈ new ↔ v ∈ ss ∧ deg_get deg v = Z.of_nat (occ v ss).
Proof.
  induction ss as [|s ss IH]; intros deg q deg' q' Hge Heq.
  - simpl in Heq. simplify_eq. split.
    + intros v. unfold occ. rewrite count_nil. lia.
    + exists []. rewrite app_nil_r. split_and!; [done|constructor|].
      intros v. split; [intros H; inversion H|intros [H _]; inversion H].
  - cbn [reduce_degrees] in Heq.
    pose proof (Hge s ltac:(left)) as Hs. rewrite occ_cons, decide_True in Hs by done.
    apply IH in Heq as (Hdeg & new & -> & Hnd & Hnew).
    2:{ intros v Hv. rewrite deg_get_insert. case_decide; subst; [lia|].
        specialize (Hge v ltac:(by right)).
        rewrite occ_cons, decide_False in Hge by done. lia. }
    assert (∀ v, v ∈ new → v ∈ ss) as Hsub by naive_solver.
    split.
    { intros v. rewrite Hdeg, deg_get_insert, occ_cons. repeat case_decide; subst; lia. }
    destruct (decide (occ s ss = 0)) as [Hz|Hz].
    + assert (s ∉ ss) as Hns by (rewrite <- occ_pos; lia).
      case_match; bool_simp.
      * exists (s :: new). rewrite <- app_assoc. split_and!; [done|constructor; naive_solver|].
        intros v. rewrite elem_of_cons, Hnew, deg_get_insert, elem_of_cons, occ_cons.
        destruct (decide (s = v)); subst; [split; [|tauto]; intros _; split; [by left|lia]|].
        naive_solver.
      * exists new. split_and!; [done..|]. intros v.
        rewrite Hnew, deg_get_insert, elem_of_cons, occ_cons.
        destruct (decide (s = v)); subst; [|naive_solver].
        split; [tauto|]. intros [_ Hd]. lia.
    + assert (s ∈ ss) as Hin by (apply occ_pos; lia).
      rewrite (proj2 (Z.eqb_neq _ _)) by lia.
      exists new. split_and!; [done..|]. intros v.
      rewrite Hnew, deg_get_insert, elem_of_cons, occ_cons.
      destruct (decide (s = v)); subst; [|naive_solver].
      split; [intros [_ Hd]; split; [by left|lia]|intros [_ Hd]; split; [done|lia]].
Qed.

(** The invariant of the worklist: [R] is the result so far, [Q] the queue. *)
Record kahn_inv (R Q : list string) (deg : gmap string Z) : Prop := {
  ki_nodup : NoDup (R ++ Q);
  ki_in_V : ∀ v, v ∈ R ++ Q → v ∈ V;
  ki_deg : ∀ v, v ∈ V → deg_get deg v = Z.of_nat (indeg R v);
  ki_zero : ∀ v, v ∈ V → (v ∈ R ++ Q ↔ indeg R v = 0);
  ki_order : ∀ u v, edge u v → v ∈ R → before R u v
}.

Lemma elem_of_succs u v : v ∈ succs u ↔ edge u v.
Proof.
  rewrite succs_spec. unfold edge. rewrite list_elem_of_In, in_map_iff.
  split.
  - intros ([a b] & <- & Hin). apply list_elem_of_In, list_elem_of_filter in Hin.
    simpl in *. by destruct Hin as [-> ?].
  - intros He. exists (u, v). split; [done|].
    apply list_elem_of_In, list_elem_of_filter. done.
Qed.

Lemma kahn_inv_step R c Q deg deg' Q' :
  kahn_inv R (c :: Q) deg →
  reduce_degrees (succs c) deg Q = (deg', Q') →
  kahn_inv (R ++ [c]) Q' deg'.
Proof.
  intros [Hnd HV Hdeg Hzero Hord] Heq.
  assert (c ∉ R) as HcR.
  { rewrite NoDup_app in Hnd. intros Hin. destruct Hnd as (_ & Hd & _). apply (Hd c Hin). left. }
  assert (c ∈ V) as HcV by (apply HV, elem_of_app; right; left).
  assert (∀ v, v ∈ V → indeg R v = occ v (succs c) + indeg (R ++ [c]) v) as Hsplit
    by (intros; by apply indeg_snoc).
  apply reduce_degrees_spec in Heq as (Hdeg' & new & -> & Hndn & Hnew).
  2:{ intros v Hv. apply elem_of_succs, E_in_V in Hv as [_ Hv].
      rewrite Hdeg, Hsplit by done. lia. }
  assert (∀ v, v ∈ new ↔ v ∈ V ∧ v ∈ succs c ∧ indeg (R ++ [c]) v = 0) as Hnew'.
  { intros v. rewrite Hnew. split.
    - intros [Hv Hd]. pose proof Hv as HvV. apply elem_of_succs, E_in_V in HvV as [_ HvV].
      rewrite Hdeg, Hsplit in Hd by done. split_and!; [done..|lia].
    - intros (HvV & Hv & Hz). split; [done|]. rewrite Hdeg, Hsplit by done. lia. }
  assert (∀ v, v ∈ new → v ∉ R ++ c :: Q) as Hdisj.
  { intros v Hv Hin. apply Hnew' in Hv as (HvV & Hv & _).
    apply Hzero in Hin; [|done]. rewrite Hsplit in Hin by done.
    apply occ_pos in Hv. lia. }
  assert ((R ++ [c]) ++ Q ++ new = (R ++ c :: Q) ++ new) as Happ
    by (rewrite <- !app_assoc; done).
  split.
  - rewrite Happ, NoDup_app. split_and!; [done| |done].
    intros v Hv Hv'. by apply (Hdisj v).
  - intros v. rewrite Happ, elem_of_app. intros [Hv|Hv]; [by apply HV|].
    by apply Hnew' in Hv as [? _].
  - intros v Hv. rewrite Hdeg', Hdeg, Hsplit by done. lia.
  - intros v Hv. rewrite Happ, elem_of_app, Hzero, Hnew', Hsplit by done.
    split; [intros [?|(_ & _ & ?)]; lia|].
    intros Hz. destruct (decide (v ∈ succs c)) as [Hs|Hs]; [right; done|].
    left. rewrite <- occ_pos in Hs. lia.
  - intros u v He Hv. apply elem_of_snoc in Hv. apply before_snoc.
    + destruct (decide (v ∈ R)) as [HvR|HvR]; [by apply Hord|].
      intros l1 l2 ->. destruct HvR. apply elem_of_app; right; left.
    + intros ->. assert (indeg R v = 0) as Hz
        by (apply Hzero; [done|]; apply elem_of_app; right; left).
      unfold indeg in Hz. rewrite count_zero in Hz.
      destruct (decide (u ∈ R)); [done|]. destruct (Hz (u, v) He). done.
Qed.

(** Termination and the shape of the result, from any state of the worklist. *)
Lemma kahn_loop_inv fuel : ∀ R Q deg,
  kahn_inv R Q deg →
  length V - length R ≤ fuel →
  ∃ deg' R', kahn_loop succs fuel deg Q R = Some (deg', R') ∧ kahn_inv R' [] deg'.
Proof.
  induction fuel as [|fuel IH]; intros R Q deg Hinv Hfuel;
    (destruct Q as [|c Q]; [exists deg, R; by destruct fuel || done|]).
  - exfalso. destruct Hinv as [Hnd HV _ _ _].
    apply NoDup_subseteq_length with (k := V) in Hnd; [|done].
    rewrite length_app in Hnd. simpl in Hnd. lia.
  - simpl. destruct (reduce_degrees (succs c) deg Q) as [deg' Q'] eqn:Heq.
    apply (IH _ Q'); [by eapply kahn_inv_step|]. rewrite length_app. simpl. lia.
Qed.

(** *** From the final state to acyclicity *)

Lemma before_trans (R : list string) u w v :
  before R u w → before R w v → before R u v.
Proof.
  intros Huw Hwv l1 l2 HR. pose proof (Hwv l1 l2 HR) as Hw.
  apply list_elem_of_split in Hw as (a & b & ->).
  apply elem_of_app. left. apply (Huw a (b ++ v :: l2)).
  rewrite HR, <- app_assoc. done.
Qed.

Lemma before_irrefl (R : list string) x : NoDup R → x ∈ R → ¬ before R x x.
Proof.
  intros Hnd Hx Hb. apply list_elem_of_split in Hx as (l1 & l2 & ->).
  specialize (Hb l1 l2 eq_refl). apply NoDup_app in Hnd as (_ & Hd & _).
  apply (Hd x Hb). left.
Qed.

(** If the loop emptied the graph, the result is a topological order and the
    graph has no cycle. *)
Lemma kahn_complete_acyclic R deg :
  kahn_inv R [] deg → (∀ v, v ∈ V → v ∈ R) → acyclic.
Proof.
  intros [Hnd HV _ _ Hord] Hall x Hx. rewrite app_nil_r in Hnd.
  assert (∀ u v, tc edge u v → before R u v) as Htc.
  { induction 1 as [u v He|u w v He _ IH].
    - apply Hord; [done|]. by apply Hall, (E_in_V u).
    - eapply before_trans; [|done]. apply Hord; [done|]. by apply Hall, (E_in_V u). }
  apply Htc in Hx as Hb. apply (before_irrefl R x); [done| |done].
  apply Hall. inversion Hx; subst; by edestruct E_in_V.
Qed.

(** If it did not, every node left over has a predecessor left over. *)
Lemma kahn_incomplete_cycle R deg v :
  kahn_inv R [] deg → v ∈ V → v ∉ R → ∃ x, x ∈ V ∧ x ∉ R ∧ tc edge x x.
Proof.
  intros [Hnd HV Hdeg Hzero _] Hv HvR.
  destruct (predecessors_cycle (filter (λ w, w ∉ R) V) edge) as (x & Hx & Htc).
  - intros Hf. assert (v ∈ filter (λ w, w ∉ R) V) as Hin by (by apply list_elem_of_filter).
    rewrite Hf in Hin. inversion Hin.
  - intros w Hw. apply list_elem_of_filter in Hw as [HwR HwV].
    assert (indeg R w ≠ 0) as Hnz
      by (rewrite <- Hzero by done; by rewrite app_nil_r).
    destruct (proj1 (count_pos (λ e : string * string, e.2 = w ∧ e.1 ∉ R) E))
      as ([a b] & He & Hb & Ha).
    { unfold indeg in Hnz. lia. }
    simpl in *. subst b. exists a. split; [|done].
    apply list_elem_of_filter. split; [done|]. by edestruct E_in_V.
  - apply list_elem_of_filter in Hx as [? ?]. eauto.
Qed.

Lemma kahn_inv_all_length R deg :
  kahn_inv R [] deg → (length R = length V ↔ ∀ v, v ∈ V → v ∈ R).
Proof.
  intros [Hnd HV _ _ _]. rewrite app_nil_r in Hnd.
  assert (∀ v, v ∈ R → v ∈ V) as HV' by (intros v ?; apply HV; by rewrite app_nil_r).
  split.
  - intros Hlen v Hv.
    assert (R ≡ₚ V) as HP by (apply submseteq_length_Permutation;
      [by apply NoDup_submseteq|lia]).
    by rewrite HP.
  - intros Hall. apply Nat.le_antisymm; by apply NoDup_subseteq_length.
Qed.

Lemma kahn_inv_acyclic_iff R deg :
  kahn_inv R [] deg → (length R = length V ↔ acyclic).
Proof.
  intros Hinv. rewrite (kahn_inv_all_length _ _ Hinv). split.
  - by eapply kahn_complete_acyclic.
  - intros Hac v Hv. destruct (decide (v ∈ R)) as [|Hn]; [done|].
    destruct (kahn_incomplete_cycle _ _ _ Hinv Hv Hn) as (x & _ & _ & Hx).
    by destruct (Hac x).
Qed.

(** The initial state: the queue holds the nodes of in-degree zero, in any
    order. *)
Lemma kahn_inv_init deg Q :
  (∀ v, v ∈ V → deg_get deg v = Z.of_nat (indeg [] v)) →
  NoDup Q → (∀ v, v ∈ Q ↔ v ∈ V ∧ deg_get deg v = 0%Z) →
  kahn_inv [] Q deg.
Proof.
  intros Hdeg HQ HQspec. split; simpl.
  - done.
  - intros v Hv. by apply HQspec.
  - done.
  - intros v Hv. rewrite HQspec, Hdeg by done. naive_solver lia.
  - intros u v _ Hv. inversion Hv.
Qed.
End Correctness.

(** ** Termination, whatever the tables hold *)

(** Keys with a positive in-degree: each of them can be enqueued once. *)
Definition positives (deg : gmap string Z) : nat :=
  size (filter (λ kd : string * Z, (0 < kd.2)%Z) deg).

Lemma positives_insert deg s d :
  (deg_get deg s - 1 = d)%Z →
  positives (<[s := d]> deg) + (if (d =? 0)%Z then 1 else 0) ≤ positives deg.
Proof.
  intros Hd. unfold positives. rewrite map_filter_insert. simpl.
  assert ((0 < d + 1)%Z → filter (λ kd : string * Z, (0 < kd.2)%Z) deg !! s = Some (d + 1)%Z) as Hin.
  { intros Hpos. apply map_lookup_filter_Some. unfold deg_get in Hd.
    destruct (deg !! s) eqn:E; simpl in *; split; try (f_equal; lia); simpl; lia. }
  case_decide as Hp.
  - rewrite (proj2 (Z.eqb_neq _ _)) by lia.
    rewrite map_size_insert, Hin by lia. simpl. lia.
  - rewrite map_filter_delete, map_size_delete.
    destruct (Z.eqb_spec d 0) as [->|Hz].
    + pose proof (Hin ltac:(lia)) as Hin'. rewrite Hin'.
      assert (0 < size (filter (λ kd : string * Z, (0 < kd.2)%Z) deg)); [|lia].
      destruct (decide (size (filter (λ kd : string * Z, (0 < kd.2)%Z) deg) = 0)) as [Hs|]; [|lia].
      apply map_size_empty_inv in Hs. rewrite Hs, lookup_empty in Hin'. discriminate.
    + case_match; simpl; lia.
Qed.

Lemma reduce_degrees_potential ss : ∀ deg q deg' q',
  reduce_degrees ss deg q = (deg', q') →
  length q' + positives deg' ≤ length q + positives deg.
Proof.
  induction ss as [|s ss IH]; intros deg q deg' q' Heq; cbn [reduce_degrees] in Heq.
  - by simplify_eq.
  - apply IH in Heq. pose proof (positives_insert deg s _ eq_refl) as Hp.
    destruct (deg_get deg s - 1 =? 0)%Z; rewrite ?length_app in Heq; simpl in *; lia.
Qed.

Lemma kahn_loop_total succs fuel : ∀ deg q R,
  length q + positives deg ≤ fuel → is_Some (kahn_loop succs fuel deg q R).
Proof.
  induction fuel as [|fuel IH]; intros deg q R Hf;
    (destruct q as [|c q]; [by destruct fuel || (eexists; done)|]); simpl in *.
  - lia.
  - destruct (reduce_degrees (succs c) deg q) as [deg' q'] eqn:E.
    apply reduce_degrees_potential in E. apply IH. lia.
Qed.
