(* ===== verification/Graph.v ===== *)
(** * The executable graph (graph/graph.go)

    [BasicGraph]: insertion of nodes and edges, the entry node, validation,
    Kahn's topological sort and reachability. The component promises its
    clients (the runtime, the builder) the interface [GraphIface] with the laws
    [GraphLaws]. Go's iteration over a map has no fixed order: an operation that
    ranges over one takes the order as an argument. *)

From stdpp Require Import gmap strings list fin_maps relations.
From Stdlib Require Import ZArith Lia.
From S2P Require Import Prelude Values Kahn.

(** ** Interfaces *)

(** What the graph needs of a node ([core.Node], without [Run]). *)
Class NodeIface (N : Type) := {
  node_ID : N → string;
  node_Kind : N → string
}.

(** The [graph.Graph] interface. *)
Class GraphIface (G N : Type) := {
  Name : G → string;
  Nodes : G → list N;
  NodeByID : G → string → option N;
  Entry : G → string;
  Successors : G → string → list string;
  Predecessors : G → string → list string
}.

(** The promises of a well-formed graph to its clients. *)
Class GraphLaws (G N : Type) `{NodeIface N, GraphIface G N} (wf : G → Prop) := {
  gl_node_id : ∀ g id n, wf g → NodeByID g id = Some n → node_ID n = id;
  gl_nodes : ∀ g id n, wf g → NodeByID g id = Some n → n ∈ Nodes g;
  gl_succ_node : ∀ g u v, wf g → v ∈ Successors g u → is_Some (NodeByID g v);
  gl_succ_nodup : ∀ g u, wf g → NoDup (Successors g u);
  gl_pred_succ : ∀ g u v, wf g → (u ∈ Predecessors g v ↔ v ∈ Successors g u)
}.

(** ** Errors *)

Definition ErrNodeNotFound := ESentinel "node not found".
Definition ErrDuplicateNode := ESentinel "duplicate node ID".
Definition ErrInvalidEdge := ESentinel "invalid edge".
Definition ErrNoEntryNode := ESentinel "no entry node defined".
Definition ErrCycleDetected := ESentinel "cycle detected in graph".
Definition ErrEmptyGraph := ESentinel "graph has no nodes".

(** ** Data *)

Record Edge := mkEdge { e_From : string; e_To : string }.

#[export] Instance Edge_eq_dec : EqDecision Edge.
Proof. solve_decision. Defined.

Record BasicGraph (N : Type) := mkGraph {
  g_name : string;
  g_nodes : gmap string N;
  g_nodeOrder : list string;
  g_edges : list Edge;
  g_successors : gmap string (list string);
  g_predecessors : gmap string (list string);
  g_entry : string
}.
Arguments mkGraph {N}.
Arguments g_name {N}.
Arguments g_nodes {N}.
Arguments g_nodeOrder {N}.
Arguments g_edges {N}.
Arguments g_successors {N}.
Arguments g_predecessors {N}.
Arguments g_entry {N}.

(** Reading a [map[string][]string]: a missing key is the nil slice. *)
Definition adj (m : gmap string (list string)) (id : string) : list string := default [] (m !! id).

Section BasicGraph.
Context {N : Type} `{NodeIface N}.

Definition NewGraph (name : string) : BasicGraph N :=
  mkGraph name ∅ [] [] ∅ ∅ EmptyString.

Definition bg_Nodes (g : BasicGraph N) : list N :=
  omap (λ id, g_nodes g !! id) (g_nodeOrder g).

#[export] Instance BasicGraph_iface : GraphIface (BasicGraph N) N := {|
  Name := g_name;
  Nodes := bg_Nodes;
  NodeByID g id := g_nodes g !! id;
  Entry := g_entry;
  Successors g id := adj (g_successors g) id;
  Predecessors g id := adj (g_predecessors g) id
|}.

(** [if m[id] == nil { m[id] = make([]string, 0) }]. *)
Definition init_adj (id : string) (m : gmap string (list string)) : gmap string (list string) :=
  match m !! id with Some _ => m | None => <[id := []]> m end.

(** A nil [node] is [None]. *)
Definition AddNode (node : option N) (g : BasicGraph N) : BasicGraph N * option error :=
  match node with
  | None => (g, Some (EFmt [PS "cannot add nil node"]))
  | Some n =>
      let id := node_ID n in
      match g_nodes g !! id with
      | Some _ => (g, Some (wrapf ErrDuplicateNode [PS id]))
      | None =>
          (mkGraph (g_name g) (<[id := n]> (g_nodes g)) (g_nodeOrder g ++ [id]) (g_edges g)
             (init_adj id (g_successors g)) (init_adj id (g_predecessors g)) (g_entry g), None)
      end
  end.

Definition AddEdge (from to : string) (g : BasicGraph N) : BasicGraph N * option error :=
  match g_nodes g !! from with
  | None => (g, Some (wrapf ErrInvalidEdge [PS "source node "; PQ from; PS " not found"]))
  | Some _ =>
      match g_nodes g !! to with
      | None => (g, Some (wrapf ErrInvalidEdge [PS "target node "; PQ to; PS " not found"]))
      | Some _ =>
          if bool_decide (Exists (λ e, e_From e = from ∧ e_To e = to) (g_edges g))
          then (g, None)
          else
            (mkGraph (g_name g) (g_nodes g) (g_nodeOrder g) (g_edges g ++ [mkEdge from to])
               (<[from := adj (g_successors g) from ++ [to]]> (g_successors g))
               (<[to := adj (g_predecessors g) to ++ [from]]> (g_predecessors g))
               (g_entry g), None)
      end
  end.

Definition SetEntry (nodeID : string) (g : BasicGraph N) : BasicGraph N * option error :=
  match g_nodes g !! nodeID with
  | None => (g, Some (wrapf ErrNodeNotFound [PS nodeID]))
  | Some _ =>
      (mkGraph (g_name g) (g_nodes g) (g_nodeOrder g) (g_edges g)
         (g_successors g) (g_predecessors g) nodeID, None)
  end.

Definition Validate (g : BasicGraph N) : option error :=
  if bool_decide (size (g_nodes g) = 0) then Some ErrEmptyGraph
  else if bool_decide (g_entry g = EmptyString) then Some ErrNoEntryNode
  else match g_nodes g !! g_entry g with
       | None => Some (wrapf ErrNodeNotFound [PS "entry node "; PQ (g_entry g)])
       | Some _ => None
       end.

(** [inDegree[id] = len(g.predecessors[id])] for every node. *)
Definition init_degrees (g : BasicGraph N) : gmap string Z :=
  map_imap (λ id _, Some (Z.of_nat (length (adj (g_predecessors g) id)))) (g_nodes g).

(** [order]: the order in which [range inDegree] yields the nodes. The fuel
    [size (g_nodes g)] always suffices ([TopologicalSort_total]). *)
Definition TopologicalSort (order : list string) (allowCycles : bool) (g : BasicGraph N)
    : option (list string + error) :=
  let inDegree := init_degrees g in
  let queue := filter (λ id, deg_get inDegree id = 0%Z) order in
  match kahn_loop (adj (g_successors g)) (size (g_nodes g)) inDegree queue [] with
  | None => None
  | Some (_, result) =>
      if bool_decide (length result ≠ size (g_nodes g)) && negb allowCycles
      then Some (inr ErrCycleDetected)
      else Some (inl result)
  end.

(** The recursive closure [visit] of [Reachable]; the fuel bounds the depth of
    the recursion. *)
Fixpoint visit (succ : string → list string) (fuel : nat) (id : string)
    (st : gset string * list string) : gset string * list string :=
  if bool_decide (id ∈ st.1) then st
  else match fuel with
       | 0 => st
       | S fuel' =>
           foldl (λ st' s, visit succ fuel' s st') ({[id]} ∪ st.1, st.2 ++ [id]) (succ id)
       end.

Definition Reachable (startID : string) (g : BasicGraph N) : list string :=
  (visit (adj (g_successors g)) (S (size (g_nodes g))) startID (∅, [])).2.
End BasicGraph.

(** ** The well-formedness invariant *)

Section Invariant.
Context {N : Type} `{NodeIface N}.

Record graph_wf (g : BasicGraph N) : Prop := {
  wf_order_nodup : NoDup (g_nodeOrder g);
  wf_order_nodes : ∀ id, id ∈ g_nodeOrder g ↔ is_Some (g_nodes g !! id);
  wf_node_ids : ∀ id n, g_nodes g !! id = Some n → node_ID n = id;
  wf_edges_nodup : NoDup (g_edges g);
  wf_edges_nodes : ∀ u v, mkEdge u v ∈ g_edges g →
    is_Some (g_nodes g !! u) ∧ is_Some (g_nodes g !! v);
  wf_succ : ∀ u, adj (g_successors g) u = map e_To (filter (λ e, e_From e = u) (g_edges g));
  wf_pred : ∀ v, adj (g_predecessors g) v = map e_From (filter (λ e, e_To e = v) (g_edges g));
  wf_entry : g_entry g = EmptyString ∨ is_Some (g_nodes g !! g_entry g)
}.

Lemma adj_init_adj id m u : adj (init_adj id m) u = adj m u.
Proof.
  unfold adj, init_adj. destruct (m !! id) eqn:E; [done|].
  rewrite lookup_insert. case_decide; subst; by rewrite ?E.
Qed.

Lemma adj_insert m k l u : adj (<[k := l]> m) u = if decide (k = u) then l else adj m u.
Proof. unfold adj. rewrite lookup_insert. by case_decide. Qed.

Lemma NewGraph_wf name : graph_wf (NewGraph name).
Proof.
  split; simpl; try (by constructor); try done; try (by left).
  - intros id. rewrite lookup_empty. split; [intros Hin; inversion Hin|by intros []].
  - intros u v Hin. inversion Hin.
Qed.

Lemma AddNode_wf node g : graph_wf g → graph_wf (AddNode node g).1.
Proof.
  intros Hwf. destruct node as [n|]; [|done]. simpl.
  destruct (g_nodes g !! node_ID n) eqn:E; [done|].
  destruct Hwf as [Hnd Hord Hids Hed Hen Hs Hp Hent].
  assert (∀ u, is_Some (g_nodes g !! u) → is_Some (<[node_ID n:=n]> (g_nodes g) !! u)) as Hmono.
  { intros u [m Hm]. rewrite lookup_insert_ne by congruence. eauto. }
  split; simpl; try done.
  - apply NoDup_app. split_and!; [done| |apply NoDup_singleton].
    intros x Hx Hx'. apply list_elem_of_singleton in Hx' as ->.
    apply Hord in Hx. rewrite E in Hx. by destruct Hx.
  - intros id. rewrite elem_of_snoc, Hord, lookup_insert. case_decide; naive_solver.
  - intros id m. rewrite lookup_insert. case_decide; naive_solver.
  - intros u v Huv. destruct (Hen u v Huv). auto.
  - intros u. by rewrite adj_init_adj, Hs.
  - intros v. by rewrite adj_init_adj, Hp.
  - destruct Hent; auto.
Qed.

Lemma AddEdge_wf from to g : graph_wf g → graph_wf (AddEdge from to g).1.
Proof.
  intros Hwf. unfold AddEdge.
  destruct (g_nodes g !! from) eqn:Ef; [|done].
  destruct (g_nodes g !! to) eqn:Et; [|done].
  case_bool_decide as Hex; [done|].
  destruct Hwf as [Hnd Hord Hids Hed Hen Hs Hp Hent].
  split; simpl; try done.
  - apply NoDup_app. split_and!; [done| |apply NoDup_singleton].
    intros x Hx Hx'. apply list_elem_of_singleton in Hx' as ->. apply Hex.
    apply Exists_exists. by exists (mkEdge from to).
  - intros u v. rewrite elem_of_snoc. intros [Huv|[= -> ->]]; [by apply Hen|by rewrite Ef, Et].
  - intros u. rewrite adj_insert, filter_app, map_app, filter_cons, filter_nil. simpl.
    case_decide; subst; simpl; rewrite Hs; [done|by rewrite app_nil_r].
  - intros v. rewrite adj_insert, filter_app, map_app, filter_cons, filter_nil. simpl.
    case_decide; subst; simpl; rewrite Hp; [done|by rewrite app_nil_r].
Qed.

Lemma SetEntry_wf id g : graph_wf g → graph_wf (SetEntry id g).1.
Proof.
  intros Hwf. unfold SetEntry. destruct (g_nodes g !! id) eqn:E; [|done].
  destruct Hwf. split; simpl; try done. right. rewrite E. eauto.
Qed.

Lemma elem_of_adj_succ g u v :
  graph_wf g → v ∈ adj (g_successors g) u ↔ mkEdge u v ∈ g_edges g.
Proof.
  intros Hwf. rewrite (wf_succ _ Hwf), list_elem_of_In, in_map_iff. split.
  - intros ([a b] & <- & Hin). apply list_elem_of_In, list_elem_of_filter in Hin.
    simpl in *. by destruct Hin as [-> ?].
  - intros He. exists (mkEdge u v). split; [done|].
    by apply list_elem_of_In, list_elem_of_filter.
Qed.

Lemma elem_of_adj_pred g u v :
  graph_wf g → u ∈ adj (g_predecessors g) v ↔ mkEdge u v ∈ g_edges g.
Proof.
  intros Hwf. rewrite (wf_pred _ Hwf), list_elem_of_In, in_map_iff. split.
  - intros ([a b] & <- & Hin). apply list_elem_of_In, list_elem_of_filter in Hin.
    simpl in *. by destruct Hin as [-> ?].
  - intros He. exists (mkEdge u v). split; [done|].
    by apply list_elem_of_In, list_elem_of_filter.
Qed.

Lemma adj_succ_nodup g u : graph_wf g → NoDup (adj (g_successors g) u).
Proof.
  intros Hwf. rewrite (wf_succ _ Hwf).
  pose proof (NoDup_filter (λ e, e_From e = u) _ (wf_edges_nodup _ Hwf)) as Hnd.
  change (NoDup (e_To <$> filter (λ e : Edge, e_From e = u) (g_edges g))).
  apply (NoDup_fmap_2_strong e_To); [|done].
  intros [a b] [c d] H1 H2 Heq. apply list_elem_of_filter in H1 as [? _], H2 as [? _].
  simpl in *. congruence.
Qed.

#[export] Instance BasicGraph_laws : GraphLaws (BasicGraph N) N graph_wf.
Proof.
  split; simpl.
  - intros g id n Hwf. apply Hwf.
  - intros g id n Hwf Hn. unfold bg_Nodes. apply list_elem_of_omap.
    exists id. split; [|done]. apply Hwf. eauto.
  - intros g u v Hwf Hv. apply elem_of_adj_succ in Hv; [|done]. by eapply wf_edges_nodes.
  - intros. by apply adj_succ_nodup.
  - intros g u v Hwf. rewrite elem_of_adj_succ, elem_of_adj_pred by done. done.
Qed.
End Invariant.

#[export] Hint Resolve NewGraph_wf AddNode_wf AddEdge_wf SetEntry_wf : petal.

(** ** Topological sort *)

Section TopoSort.
Context {N : Type} `{NodeIface N}.
Implicit Types g : BasicGraph N.

Definition graph_edge g (u v : string) : Prop := mkEdge u v ∈ g_edges g.

Definition edge_pairs g : list (string * string) :=
  map (λ e, (e_From e, e_To e)) (g_edges g).

Lemma elem_of_edge_pairs g u v : edge (edge_pairs g) u v ↔ graph_edge g u v.
Proof.
  unfold edge, graph_edge, edge_pairs. rewrite list_elem_of_In, in_map_iff. split.
  - intros ([a b] & [= <- <-] & ?). by apply list_elem_of_In.
  - intros. exists (mkEdge u v). split; [done|]. by apply list_elem_of_In.
Qed.

Lemma tc_edge_pairs g x y : tc (edge (edge_pairs g)) x y ↔ tc (graph_edge g) x y.
Proof.
  split; (induction 1; [apply tc_once|eapply tc_l; [|done]]); by apply elem_of_edge_pairs.
Qed.

Lemma AddEdge_ok from to g :
  is_Some (g_nodes g !! from) → is_Some (g_nodes g !! to) →
  ∃ g', AddEdge from to g = (g', None) ∧ g_nodes g' = g_nodes g ∧
    g_nodeOrder g' = g_nodeOrder g ∧ g_entry g' = g_entry g ∧
    ∀ u v, graph_edge g' u v ↔ graph_edge g u v ∨ (u = from ∧ v = to).
Proof.
  intros [n Hn] [m Hm]. unfold AddEdge. rewrite Hn, Hm.
  case_bool_decide as Hex; eexists; split_and!; try done; intros u v; unfold graph_edge; simpl.
  - split; [by left|]. intros [?|[-> ->]]; [done|].
    apply Exists_exists in Hex as ([a b] & Hin & ? & ?). simpl in *. by subst.
  - rewrite elem_of_snoc. naive_solver.
Qed.

Lemma succ_pairs g u : graph_wf g →
  adj (g_successors g) u = map snd (filter (λ e : string * string, e.1 = u) (edge_pairs g)).
Proof.
  intros Hwf. rewrite (wf_succ _ Hwf). unfold edge_pairs.
  induction (g_edges g) as [|[a b] l IH]; [done|]. cbn [map].
  rewrite !filter_cons. simpl. by case_decide; simpl; rewrite IH.
Qed.

Lemma init_degrees_spec g v : graph_wf g → v ∈ g_nodeOrder g →
  deg_get (init_degrees g) v = Z.of_nat (indeg (edge_pairs g) [] v).
Proof.
  intros Hwf Hv. unfold deg_get, init_degrees. rewrite map_lookup_imap.
  apply (wf_order_nodes _ Hwf) in Hv as [n Hn]. rewrite Hn. simpl. f_equal.
  rewrite (wf_pred _ Hwf), length_map. unfold indeg, count, edge_pairs.
  induction (g_edges g) as [|[a b] l IH]; [done|]. cbn [map].
  rewrite !filter_cons. simpl.
  repeat case_decide; simpl; rewrite ?IH; try done; set_solver.
Qed.

Lemma size_nodes g : graph_wf g → size (g_nodes g) = length (g_nodeOrder g).
Proof.
  intros Hwf. rewrite <- size_dom.
  assert (dom (g_nodes g) = list_to_set (g_nodeOrder g)) as ->.
  { apply set_eq. intros id. rewrite elem_of_dom, elem_of_list_to_set. symmetry. apply Hwf. }
  apply size_list_to_set, Hwf.
Qed.

Lemma edge_pairs_nodes g u v : graph_wf g → edge (edge_pairs g) u v →
  u ∈ g_nodeOrder g ∧ v ∈ g_nodeOrder g.
Proof.
  intros Hwf He. apply elem_of_edge_pairs in He. rewrite !(wf_order_nodes _ Hwf).
  by apply (wf_edges_nodes _ Hwf).
Qed.

(** The run of the worklist on a well-formed graph, from any iteration order. *)
Lemma TopologicalSort_run g order : graph_wf g → order ≡ₚ g_nodeOrder g →
  ∃ deg R,
    kahn_loop (adj (g_successors g)) (size (g_nodes g)) (init_degrees g)
      (filter (λ id, deg_get (init_degrees g) id = 0%Z) order) [] = Some (deg, R) ∧
    kahn_inv (g_nodeOrder g) (edge_pairs g) R [] deg.
Proof.
  intros Hwf Hperm. apply kahn_loop_inv.
  - intros u v. by apply edge_pairs_nodes.
  - intros u. by apply succ_pairs.
  - apply kahn_inv_init.
    + intros u v. by apply edge_pairs_nodes.
    + intros v Hv. by apply init_degrees_spec.
    + apply NoDup_filter. rewrite Hperm. apply Hwf.
    + intros v. rewrite list_elem_of_filter, Hperm. naive_solver.
  - rewrite size_nodes by done. simpl. lia.
Qed.

(** [TopologicalSort(true)] never fails, whatever the iteration order. *)
Lemma TopologicalSort_total g order allow : graph_wf g → order ≡ₚ g_nodeOrder g →
  is_Some (TopologicalSort order allow g).
Proof.
  intros Hwf Hperm. destruct (TopologicalSort_run g order Hwf Hperm) as (deg & R & Hrun & _).
  unfold TopologicalSort. rewrite Hrun. by case_match.
Qed.
End TopoSort.

(** C11: on a well-formed graph, and for every order in which Go may range over
    the node map, [TopologicalSort(false)] terminates; it returns a permutation
    of the nodes in which every edge goes forward exactly when the graph has no
    cycle, and [ErrCycleDetected] exactly when it has one. *)
Theorem TopologicalSort_correct {N} `{NodeIface N} (g : BasicGraph N) (order : list string) :
  graph_wf g → order ≡ₚ g_nodeOrder g →
  (∃ l, TopologicalSort order false g = Some (inl l) ∧ l ≡ₚ g_nodeOrder g ∧
        (∀ u v, graph_edge g u v → before l u v) ∧ (∀ x, ¬ tc (graph_edge g) x x)) ∨
  (TopologicalSort order false g = Some (inr ErrCycleDetected) ∧
   ∃ x, tc (graph_edge g) x x).
Proof.
  intros Hwf Hperm. destruct (TopologicalSort_run g order Hwf Hperm) as (deg & R & Hrun & Hinv).
  assert (∀ u v, edge (edge_pairs g) u v → u ∈ g_nodeOrder g ∧ v ∈ g_nodeOrder g) as HE
    by (intros u v; by apply edge_pairs_nodes).
  unfold TopologicalSort. rewrite Hrun, andb_true_r, size_nodes by done.
  pose proof (kahn_inv_all_length _ _ ltac:(apply Hwf) _ _ Hinv) as Hall.
  case_bool_decide as Hlen.
  - right. split; [done|].
    destruct (decide (Forall (λ v, v ∈ R) (g_nodeOrder g))) as [HF|HF].
    + exfalso. apply Hlen, Hall. by apply Forall_forall.
    + apply not_Forall_Exists, Exists_exists in HF as (v & Hv & HvR); [|apply _].
      destruct (kahn_incomplete_cycle _ _ HE _ _ v Hinv Hv HvR) as (x & _ & _ & Hx).
      exists x. by apply tc_edge_pairs.
  - left. pose proof (proj1 Hall Hlen) as Hin.
    pose proof (ki_nodup _ _ _ _ _ Hinv) as Hnd. rewrite app_nil_r in Hnd.
    assert (R ≡ₚ g_nodeOrder g) as HP.
    { apply NoDup_Permutation; [done|apply Hwf|]. intros v. split; [|apply Hin].
      intros Hv. eapply ki_in_V; [done|]. by rewrite app_nil_r. }
    exists R. split_and!; [done|done| |].
    + intros u v He. apply elem_of_edge_pairs in He.
      apply (ki_order _ _ _ _ _ Hinv u v He). apply Hin. by eapply HE.
    + intros x Hx. apply tc_edge_pairs in Hx.
      by eapply (kahn_complete_acyclic _ _ HE).
Qed.

(** ** Reachability *)

Section ReachableSpec.
Context (succ : string → list string) (U : gset string).
Hypothesis U_closed : ∀ u v, u ∈ U → v ∈ succ u → v ∈ U.

Definition step_edge (u v : string) : Prop := v ∈ succ u.

(** What a call of [visit] adds to the visited set and to the result. *)
Record visited_more (id : string) (st st' : gset string * list string) : Prop := {
  vm_grow : st.1 ⊆ st'.1;
  vm_in_U : st'.1 ⊆ U;
  vm_closed : ∀ x y, x ∈ st'.1 → x ∉ st.1 → y ∈ succ x → y ∈ st'.1;
  vm_reach : ∀ x, x ∈ st'.1 → x ∉ st.1 → rtc step_edge id x;
  vm_result : ∃ new, st'.2 = st.2 ++ new ∧ NoDup new ∧ ∀ x, x ∈ new ↔ x ∈ st'.1 ∧ x ∉ st.1
}.

Lemma visited_more_refl id st : st.1 ⊆ U → visited_more id st st.
Proof.
  intros HU. split; [done..|naive_solver|naive_solver|].
  exists []. rewrite app_nil_r. split_and!; [done|constructor|].
  intros x. split; [intros Hx; inversion Hx|naive_solver].
Qed.

Lemma visited_more_trans id id' st st' st'' :
  visited_more id st st' → visited_more id' st' st'' → rtc step_edge id id' →
  visited_more id st st''.
Proof.
  intros [G1 _ C1 R1 (n1 & E1 & N1 & M1)] [G2 U2 C2 R2 (n2 & E2 & N2 & M2)] Hid.
  split.
  - set_solver.
  - done.
  - intros x y Hx Hn Hy. destruct (decide (x ∈ st'.1)); [|by eapply C2].
    apply G2. by eapply C1.
  - intros x Hx Hn. destruct (decide (x ∈ st'.1)); [by apply R1|].
    etrans; [done|]. by apply R2.
  - exists (n1 ++ n2). rewrite E2, E1, app_assoc. split_and!; [done| |].
    + apply NoDup_app. split_and!; [done| |done]. set_solver.
    + intros x. rewrite elem_of_app. destruct (decide (x ∈ st'.1)); set_solver.
Qed.

Lemma visit_spec fuel : ∀ id st,
  st.1 ⊆ U → id ∈ U → size (U ∖ st.1) ≤ fuel →
  visited_more id st (visit succ fuel id st) ∧ id ∈ (visit succ fuel id st).1.
Proof.
  induction fuel as [|fuel IH]; intros id st HU Hid Hfuel; simpl.
  - case_bool_decide as Hv; [by split; [apply visited_more_refl|]|].
    exfalso. apply Hv. assert (size (U ∖ st.1) = 0) as Hz by lia.
    apply size_empty_inv in Hz. set_solver.
  - case_bool_decide as Hv; [by split; [apply visited_more_refl|]|].
    assert (size (U ∖ ({[id]} ∪ st.1)) < size (U ∖ st.1)) as Hsz.
    { apply subset_size. set_solver. }
    assert (∀ ss st', (∀ s, s ∈ ss → s ∈ succ id) → {[id]} ∪ st.1 ⊆ st'.1 → st'.1 ⊆ U →
      visited_more id st' (foldl (λ st' s, visit succ fuel s st') st' ss) ∧
      ∀ s, s ∈ ss → s ∈ (foldl (λ st' s, visit succ fuel s st') st' ss).1) as Hfold.
    { induction ss as [|s ss IHs]; intros st' Hss Hsub HU'; simpl.
      { split; [by apply visited_more_refl|]. intros s Hs. inversion Hs. }
      destruct (IH s st') as [Hvm Hin]; [done| | |].
      { eapply U_closed; [exact Hid|]. apply Hss. left. }
      { assert (size (U ∖ st'.1) ≤ size (U ∖ ({[id]} ∪ st.1))) by (apply subseteq_size; set_solver).
        lia. }
      destruct (IHs (visit succ fuel s st')) as [Hvm' Hin'].
      { intros s' Hs'. apply Hss. by right. }
      { etrans; [done|]. apply Hvm. }
      { apply Hvm. }
      assert (rtc step_edge id s) as Hr by (apply rtc_once, Hss; left).
      split.
      - eapply visited_more_trans; [|exact Hvm'|apply rtc_refl].
        destruct Hvm as [G1 U1 C1 R1 HR]. split; try done.
        intros x Hx Hn. etrans; [exact Hr|]. by apply R1.
      - intros s' Hs'. apply elem_of_cons in Hs' as [->|Hs']; [|by apply Hin'].
        by apply Hvm'. }
    destruct (Hfold (succ id) ({[id]} ∪ st.1, st.2 ++ [id])) as [Hvm Hin];
      [done|simpl; set_solver|simpl; set_solver|].
    set (fin := foldl _ _ _) in *.
    destruct Hvm as [G1 U1 C1 R1 (n & E & Nn & M)]. simpl in *.
    split; [|set_solver]. split.
    + set_solver.
    + done.
    + intros x y Hx Hn Hy. destruct (decide (x = id)) as [->|]; [by apply Hin|].
      apply (C1 x); set_solver.
    + intros x Hx Hn. destruct (decide (x = id)) as [->|]; [apply rtc_refl|].
      apply R1; set_solver.
    + exists (id :: n). rewrite E, <- app_assoc. split_and!; [done| |].
      * constructor; [|done]. set_solver.
      * intros x. rewrite elem_of_cons, M. destruct (decide (x = id)); set_solver.
Qed.
End ReachableSpec.

(** [Reachable(start)] lists, without repetition, exactly the nodes that a
    path of edges links to [start]. *)
Theorem Reachable_correct {N} `{NodeIface N} (g : BasicGraph N) (start : string) :
  graph_wf g →
  NoDup (Reachable start g) ∧
  ∀ x, x ∈ Reachable start g ↔ rtc (graph_edge g) start x.
Proof.
  intros Hwf. unfold Reachable. set (succ := adj (g_successors g)).
  set (U := {[start]} ∪ dom (g_nodes g)).
  assert (∀ u v, v ∈ succ u ↔ graph_edge g u v) as Hsucc
    by (intros; by apply elem_of_adj_succ).
  assert (∀ x y, rtc (step_edge succ) x y ↔ rtc (graph_edge g) x y) as Hrtc.
  { intros. split; induction 1; try done; (eapply rtc_l; [|done]); by apply Hsucc. }
  destruct (visit_spec succ U) with (fuel := S (size (g_nodes g))) (id := start)
    (st := (∅ : gset string, @nil string)) as [[_ _ C R (n & E & Nn & M)] Hin].
  - intros u v _ Hv. apply Hsucc, (wf_edges_nodes _ Hwf) in Hv as [_ Hv].
    apply elem_of_union_r. by apply elem_of_dom.
  - set_solver.
  - set_solver.
  - simpl. unfold U. rewrite difference_empty_L.
    rewrite size_union_alt, size_singleton, <- size_dom.
    assert (size (dom (g_nodes g) ∖ {[start]}) ≤ size (dom (g_nodes g)))
      by (apply subseteq_size; set_solver).
    lia.
  - rewrite E. simpl in *. split; [done|].
    intros x. rewrite M, <- Hrtc. split.
    + intros [Hx Hn]. by apply R.
    + intros Hx. split; [|set_solver].
      assert (∀ a, rtc (step_edge succ) a x →
        a ∈ (visit succ (S (size (g_nodes g))) start (∅, [])).1 →
        x ∈ (visit succ (S (size (g_nodes g))) start (∅, [])).1) as Hcl; [|by eapply Hcl].
      induction 1 as [|a b c Hab _ IH]; [done|]. intros Ha.
      apply IH; [done|]. apply (C a); set_solver.
Qed.

(** ** A concrete graph: a diamond [a -> b -> d], [a -> c -> d] *)

Section Sample.
#[local] Instance pair_node : NodeIface (string * string) :=
  {| node_ID := fst; node_Kind := snd |}.

Definition sample_graph : BasicGraph (string * string) :=
  let add id g := (AddNode (Some (id, "noop")) g).1 in
  let edge u v g := (AddEdge u v g).1 in
  (SetEntry "a" (edge "c" "d" (edge "b" "d" (edge "a" "c" (edge "a" "b"
    (add "d" (add "c" (add "b" (add "a" (NewGraph "diamond")))))))))).1.

Lemma sample_graph_wf : graph_wf sample_graph.
Proof. unfold sample_graph. cbv zeta. auto 12 with petal. Qed.

Lemma TopologicalSort_correct_witness :
  TopologicalSort ["c"; "a"; "d"; "b"] false sample_graph = Some (inl ["a"; "b"; "c"; "d"]) ∧
  ((∃ l, TopologicalSort ["c"; "a"; "d"; "b"] false sample_graph = Some (inl l) ∧
      l ≡ₚ g_nodeOrder sample_graph ∧
      (∀ u v, graph_edge sample_graph u v → before l u v) ∧
      (∀ x, ¬ tc (graph_edge sample_graph) x x)) ∨
   (TopologicalSort ["c"; "a"; "d"; "b"] false sample_graph = Some (inr ErrCycleDetected) ∧
      ∃ x, tc (graph_edge sample_graph) x x)).
Proof.
  split; [vm_compute; reflexivity|].
  apply TopologicalSort_correct; [apply sample_graph_wf|].
  apply (bool_decide_unpack _). vm_compute. exact I.
Defined.

Lemma Reachable_correct_witness :
  Reachable "b" sample_graph = ["b"; "d"] ∧
  NoDup (Reachable "b" sample_graph) ∧
  ∀ x, x ∈ Reachable "b" sample_graph ↔ rtc (graph_edge sample_graph) "b" x.
Proof.
  split; [vm_compute; reflexivity|].
  apply (Reachable_correct sample_graph "b"), sample_graph_wf.
Defined.
End Sample.
