(* ===== verification/Unicode.v ===== *)
(** * Runes

    What the code uses of Go's [unicode/utf8], [unicode] and [strings]: decoding
    of UTF-8, the space, letter and digit predicates, [strings.TrimSpace]. The
    letter and digit tables above U+00FF are parameters of the model. *)

From stdpp Require Import gmap strings list fin_maps.
From Stdlib Require Import Ascii ZArith Lia.
From S2P Require Import Prelude Values.

(** The Unicode categories L and Nd, for runes above U+00FF. *)
Class UnicodeTables := {
  uni_Letter : Z → bool;
  uni_Digit : Z → bool
}.

Definition byte_val (c : ascii) : Z := Z.of_nat (nat_of_ascii c).
Definition in_range (lo hi x : Z) : bool := (lo <=? x)%Z && (x <=? hi)%Z.
Definition RuneError : Z := 65533.

(** The accepted range of the second byte, by lead byte, for the 3- and 4-byte forms. *)
Definition second_lo (b0 : Z) : Z :=
  if (b0 =? 224)%Z then 160 else if (b0 =? 240)%Z then 144 else 128.
Definition second_hi (b0 : Z) : Z :=
  if (b0 =? 237)%Z then 159 else if (b0 =? 244)%Z then 143 else 191.

(** [utf8.DecodeRuneInString]: the rune and its width in bytes. *)
Definition DecodeRune (s : string) : Z * nat :=
  match s with
  | EmptyString => (RuneError, 0)
  | String c0 r0 =>
      let b0 := byte_val c0 in
      if (b0 <? 128)%Z then (b0, 1)
      else if negb (in_range 194 244 b0) then (RuneError, 1)
      else match r0 with
           | EmptyString => (RuneError, 1)
           | String c1 r1 =>
               let b1 := byte_val c1 in
               if negb (in_range (second_lo b0) (second_hi b0) b1) then (RuneError, 1)
               else if (b0 <? 224)%Z then (((b0 - 192) * 64 + (b1 - 128))%Z, 2)
               else match r1 with
                    | EmptyString => (RuneError, 1)
                    | String c2 r2 =>
                        let b2 := byte_val c2 in
                        if negb (in_range 128 191 b2) then (RuneError, 1)
                        else if (b0 <? 240)%Z
                        then (((b0 - 224) * 4096 + (b1 - 128) * 64 + (b2 - 128))%Z, 3)
                        else match r2 with
                             | EmptyString => (RuneError, 1)
                             | String c3 _ =>
                                 let b3 := byte_val c3 in
                                 if negb (in_range 128 191 b3) then (RuneError, 1)
                                 else (((b0 - 240) * 262144 + (b1 - 128) * 4096
                                       + (b2 - 128) * 64 + (b3 - 128))%Z, 4)
                             end
                    end
           end
  end.

(** [unicode.IsSpace]. *)
Definition IsSpace (r : Z) : bool :=
  in_range 9 13 r || (r =? 32)%Z || (r =? 133)%Z || (r =? 160)%Z ||
  (r =? 5760)%Z || in_range 8192 8202 r || (r =? 8232)%Z || (r =? 8233)%Z ||
  (r =? 8239)%Z || (r =? 8287)%Z || (r =? 12288)%Z.

Section Tables.
Context `{UnicodeTables}.

(** [unicode.IsLetter]. *)
Definition IsLetter (r : Z) : bool :=
  if (r <=? 255)%Z then
    in_range 65 90 r || in_range 97 122 r || (r =? 170)%Z || (r =? 181)%Z || (r =? 186)%Z ||
    in_range 192 214 r || in_range 216 246 r || in_range 248 255 r
  else uni_Letter r.

(** [unicode.IsDigit]. *)
Definition IsDigit (r : Z) : bool :=
  if (r <=? 255)%Z then in_range 48 57 r else uni_Digit r.
End Tables.

(** The byte offset after [n] bytes. *)
Fixpoint drop_bytes (n : nat) (s : string) : string :=
  match n, s with
  | 0, _ => s
  | S n', String _ t => drop_bytes n' t
  | S _, EmptyString => EmptyString
  end.

Fixpoint take_bytes (n : nat) (s : string) : string :=
  match n, s with
  | 0, _ => EmptyString
  | S n', String c t => String c (take_bytes n' t)
  | S _, EmptyString => EmptyString
  end.

Lemma take_drop_bytes n s : take_bytes n s ^^ drop_bytes n s = s.
Proof.
  revert s. induction n as [|n IH]; intros [|c s]; simpl; try done.
  by rewrite append_cons, IH.
Qed.

Lemma length_drop_bytes n s : String.length (drop_bytes n s) = String.length s - n.
Proof. revert s. induction n; intros [|c s]; simpl; try done; by rewrite ?IHn. Qed.

Lemma DecodeRune_width c s : 0 < (DecodeRune (String c s)).2 ≤ String.length (String c s).
Proof.
  unfold DecodeRune.
  repeat (case_match; simpl); lia.
Qed.

(** [strings.TrimSpace]: drop the leading and the trailing white-space runes. *)
Fixpoint trim_left (fuel : nat) (s : string) : string :=
  match fuel with
  | 0 => s
  | S fuel' =>
      match s with
      | EmptyString => EmptyString
      | String _ _ =>
          let '(r, w) := DecodeRune s in
          if IsSpace r then trim_left fuel' (drop_bytes w s) else s
      end
  end.

(** The pieces of a string, one per rune. *)
Fixpoint pieces (fuel : nat) (s : string) : list (Z * string) :=
  match fuel with
  | 0 => []
  | S fuel' =>
      match s with
      | EmptyString => []
      | String _ _ =>
          let '(r, w) := DecodeRune s in
          (r, take_bytes w s) :: pieces fuel' (drop_bytes w s)
      end
  end.

(** Drop the trailing pieces whose rune is a space. *)
Fixpoint strip_trailing (l : list (Z * string)) : list (Z * string) :=
  match l with
  | [] => []
  | p :: r =>
      match strip_trailing r with
      | [] => if IsSpace p.1 then [] else [p]
      | r' => p :: r'
      end
  end.

Definition concat_pieces (l : list (Z * string)) : string :=
  foldr (λ p acc, p.2 ^^ acc) EmptyString l.

Definition TrimSpace (s : string) : string :=
  let t := trim_left (String.length s) s in
  concat_pieces (strip_trailing (pieces (String.length t) t)).

Example TrimSpace_ex : TrimSpace "  a b " = "a b".
Proof. reflexivity. Qed.

(** ** Case *)

(** [strings.ToLower] of a string with bytes above 127. *)
Class LowerTables := { lower_other : string → string }.

Definition lower_byte (c : ascii) : ascii :=
  if in_range 65 90 (byte_val c) then ascii_of_nat (nat_of_ascii c + 32) else c.

Fixpoint map_bytes (f : ascii → ascii) (s : string) : string :=
  match s with
  | EmptyString => EmptyString
  | String c t => String (f c) (map_bytes f t)
  end.

Definition all_bytes (p : ascii → bool) (s : string) : bool :=
  forallb p (String.list_ascii_of_string s).

Definition ToLower `{LowerTables} (s : string) : string :=
  if all_bytes (λ c, (byte_val c <? 128)%Z) s then map_bytes lower_byte s else lower_other s.

(** [strings.ToUpper], likewise. *)
Class UpperTables := { upper_other : string → string }.

Definition upper_byte (c : ascii) : ascii :=
  if in_range 97 122 (byte_val c) then ascii_of_nat (Z.to_nat (byte_val c - 32)) else c.

Definition ToUpper `{UpperTables} (s : string) : string :=
  if all_bytes (λ c, (byte_val c <? 128)%Z) s then map_bytes upper_byte s else upper_other s.

(** [strings.EqualFold] with an ASCII word none of whose letters folds to a rune
    outside ASCII (that is, without [k] and [s]). *)
Definition EqualFold (s word : string) : bool :=
  bool_decide (map_bytes lower_byte s = map_bytes lower_byte word).

(** [strings.Trim] with a single byte as the cutset. *)
Fixpoint trim_left_byte (c : ascii) (s : string) : string :=
  match s with
  | String d t => if decide (d = c) then trim_left_byte c t else s
  | EmptyString => EmptyString
  end.

Fixpoint trim_right_byte (c : ascii) (s : string) : string :=
  match s with
  | EmptyString => EmptyString
  | String d t =>
      match trim_right_byte c t with
      | EmptyString => if decide (d = c) then EmptyString else String d EmptyString
      | t' => String d t'
      end
  end.

Definition TrimByte (c : ascii) (s : string) : string := trim_right_byte c (trim_left_byte c s).

Example TrimByte_ex : TrimByte "_"%char "__a_b_" = "a_b".
Proof. reflexivity. Qed.

Lemma byte_val_range c : (0 ≤ byte_val c < 256)%Z.
Proof. unfold byte_val. pose proof (nat_ascii_bounded c). lia. Qed.

Lemma all_bytes_Forall p s :
  all_bytes p s = true ↔ Forall (λ c, p c = true) (String.list_ascii_of_string s).
Proof.
  unfold all_bytes. induction (String.list_ascii_of_string s) as [|c l IH]; simpl; [done|].
  rewrite andb_true_iff, IH, Forall_cons. done.
Qed.

(** A string of printable ASCII bytes has no space to trim. *)
Definition printable (c : ascii) : bool := in_range 33 126 (byte_val c).

Lemma DecodeRune_printable c s : printable c = true →
  DecodeRune (String c s) = (byte_val c, 1) ∧ IsSpace (byte_val c) = false.
Proof.
  unfold printable, in_range. intros Hc. bool_simp. split.
  - unfold DecodeRune. by destruct (Z.ltb_spec (byte_val c) 128); [|lia].
  - unfold IsSpace, in_range. repeat (apply orb_false_iff; split);
      rewrite ?andb_false_iff, ?Z.leb_gt, ?Z.eqb_neq; lia.
Qed.

Lemma strip_pieces_printable n s : String.length s ≤ n → all_bytes printable s = true →
  concat_pieces (strip_trailing (pieces n s)) = s ∧
  (s ≠ EmptyString → strip_trailing (pieces n s) ≠ []).
Proof.
  revert s. induction n as [|n IH]; intros [|c s] Hn Hs; simpl in Hn; try done; try lia.
  unfold all_bytes in Hs. simpl in Hs. apply andb_prop in Hs as [Hc Hs].
  cbn [pieces]. destruct (DecodeRune_printable c s Hc) as [-> Hsp].
  destruct (IH s) as [He Hne]; [lia|done|]. simpl drop_bytes. simpl take_bytes. cbn [strip_trailing].
  destruct s as [|d s].
  - destruct n; simpl; by rewrite Hsp.
  - specialize (Hne ltac:(done)). destruct (strip_trailing (pieces n (String d s))) as [|q l] eqn:E; [done|].
    split; [|done]. change (concat_pieces ((byte_val c, String c EmptyString) :: q :: l))
      with (String c EmptyString ^^ concat_pieces (q :: l)). by rewrite He.
Qed.

Lemma TrimSpace_printable s : all_bytes printable s = true → TrimSpace s = s.
Proof.
  intros Hs. unfold TrimSpace. assert (trim_left (String.length s) s = s) as ->.
  { destruct s as [|c s]; [done|]. unfold all_bytes in Hs. simpl in Hs. apply andb_prop in Hs as [Hc _].
    cbn [String.length trim_left]. destruct (DecodeRune_printable c s Hc) as [-> ->]. done. }
  by apply strip_pieces_printable.
Qed.

(** *** Trimming twice *)

(** Bytes after a rune do not matter to it. *)
Lemma DecodeRune_prefix p q : p ≠ EmptyString → (DecodeRune (p ^^ q)).2 ≤ String.length p →
  DecodeRune p = DecodeRune (p ^^ q).
Proof.
  destruct p as [|c0 [|c1 [|c2 [|c3 p]]]]; [done|..]; intros _; rewrite !append_cons; unfold DecodeRune;
    rewrite ?append_nil_l; repeat (case_match; simpl; try done; try lia).
Qed.

Lemma take_append_bytes s t : take_bytes (String.length s) (s ^^ t) = s.
Proof. induction s as [|c s IH]; [by destruct t|]. simpl. by f_equal. Qed.

Lemma drop_append_bytes s t : drop_bytes (String.length s) (s ^^ t) = t.
Proof. induction s as [|c s IH]; [by destruct t|]. done. Qed.

Lemma length_take_bytes n s : String.length (take_bytes n s) = n `min` String.length s.
Proof. revert s. induction n; intros [|c s]; simpl; try done. by rewrite IHn. Qed.

(** The pieces that are left are the pieces of what is left. *)
Lemma pieces_strip n s : String.length s ≤ n →
  let l := strip_trailing (pieces n s) in
  (∀ m, String.length (concat_pieces l) ≤ m → pieces m (concat_pieces l) = l) ∧
  strip_trailing l = l ∧ ∃ q, s = concat_pieces l ^^ q.
Proof.
  revert s. induction n as [|n IH]; intros s Hn l.
  { subst l. split_and!; [by intros []|done|by exists s]. }
  destruct s as [|c s]; [subst l; split_and!; [by intros []|done|by exists EmptyString]|].
  subst l. cbn [pieces]. pose proof (DecodeRune_width c s) as Hw.
  destruct (DecodeRune (String c s)) as [r w] eqn:E. cbn [snd] in Hw. cbn [strip_trailing fst].
  pose proof (take_drop_bytes w (String c s)) as Hs. pose proof (length_take_bytes w (String c s)) as Ht. rewrite Nat.min_l in Ht by lia.
  destruct (IH (drop_bytes w (String c s))) as (Hp & Hl & q & Hq); [rewrite length_drop_bytes; simpl in *; lia|].
  set (t := take_bytes w (String c s)) in *.
  assert (∀ x m, (∃ q, String c s = (t ^^ x) ^^ q) → String.length (t ^^ x) ≤ m →
    ∃ m', m = S m' ∧ String.length x ≤ m' ∧ pieces m (t ^^ x) = (r, t) :: pieces m' x) as Hstep.
  { intros x m [q' Hq'] Hm. rewrite length_append_bytes, Ht in Hm. destruct m as [|m']; [lia|].
    exists m'. split_and!; [done|lia|].
    assert (DecodeRune (t ^^ x) = (r, w)) as Hd.
    { rewrite <- E, Hq'. apply DecodeRune_prefix; [|rewrite <- Hq', E, length_append_bytes; simpl; lia].
      intros He. apply (f_equal String.length) in He. rewrite length_append_bytes in He. simpl in He. lia. }
    destruct (t ^^ x) as [|d y] eqn:Ex; [by apply (f_equal String.length) in Ex; rewrite length_append_bytes in Ex; simpl in Ex; lia|].
    cbn [pieces]. rewrite Hd, <- Ex, <- Ht, take_append_bytes, drop_append_bytes. done. }
  destruct (strip_trailing (pieces n (drop_bytes w (String c s)))) as [|p l'] eqn:El.
  - destruct (IsSpace r) eqn:Er; [split_and!; [by intros []|done|by exists (String c s)]|].
    assert (concat_pieces [(r, t)] = t ^^ EmptyString) as -> by done. split_and!.
    + intros m Hm. destruct (Hstep EmptyString m) as (m' & -> & _ & ->); [|done|by destruct m'].
      exists (drop_bytes w (String c s)). by rewrite append_nil_r.
    + simpl. by rewrite Er.
    + exists (drop_bytes w (String c s)). by rewrite append_nil_r.
  - change (concat_pieces ((r, t) :: p :: l')) with (t ^^ concat_pieces (p :: l')).
    assert (String c s = (t ^^ concat_pieces (p :: l')) ^^ q) as Heq by (by rewrite append_assoc, <- Hq).
    split_and!; [|cbn [strip_trailing]; cbn [strip_trailing] in Hl; by rewrite Hl|by exists q].
    intros m Hm. destruct (Hstep (concat_pieces (p :: l')) m) as (m' & -> & Hm' & ->); [eauto|done|].
    by rewrite Hp.
Qed.

Lemma trim_left_head n s : String.length s ≤ n →
  trim_left n s = EmptyString ∨ IsSpace (DecodeRune (trim_left n s)).1 = false.
Proof.
  revert s. induction n as [|n IH]; intros [|c s] Hn; simpl in Hn; try (by left); try lia. cbn [trim_left].
  pose proof (DecodeRune_width c s). destruct (DecodeRune (String c s)) as [r w] eqn:E. simpl in H.
  destruct (IsSpace r) eqn:Er; [apply IH; rewrite length_drop_bytes; simpl; lia|]. right. by rewrite E.
Qed.

Lemma TrimSpace_idem s : TrimSpace (TrimSpace s) = TrimSpace s.
Proof.
  unfold TrimSpace at 2 3. set (t := trim_left (String.length s) s).
  destruct (pieces_strip (String.length t) t ltac:(done)) as (Hp & Hl & _).
  destruct (trim_left_head (String.length s) s ltac:(done)) as [Ht|Ht]; fold t in Ht; [by rewrite Ht|].
  set (l := strip_trailing (pieces (String.length t) t)) in *.
  assert (trim_left (String.length (concat_pieces l)) (concat_pieces l) = concat_pieces l) as E.
  { specialize (Hp _ ltac:(done)). destruct (concat_pieces l) as [|d y] eqn:Ec; [done|].
    cbn [String.length pieces] in Hp. cbn [String.length trim_left].
    destruct (DecodeRune (String d y)) as [r w]. enough (IsSpace r = false) as -> by done.
    assert (∃ z l', l = (r, z) :: l') as (z & l' & El) by eauto. clear Hp Hl Ec. subst l.
    destruct t as [|d' t']; [done|]. cbn [String.length pieces] in El.
    destruct (DecodeRune (String d' t')) as [r' w']. cbn [strip_trailing fst] in El.
    destruct (strip_trailing _); [destruct (IsSpace r') eqn:E'; [done|]|]; simpl in Ht; by simplify_eq/=. }
  unfold TrimSpace. by rewrite E, Hp, Hl.
Qed.
