(* ===== verification/Schema.v ===== *)
(** * Schema headers (schemafmt/schemafmt.go)

    Canonical workflow kinds and semantic-version checks. The package's regular
    expression is kept as a regular expression: a derivative-based matcher runs
    it, and its correctness is proved against the language it denotes. *)

From stdpp Require Import gmap strings list fin_maps.
From Stdlib Require Import Ascii ZArith Lia.
From S2P Require Import Prelude Values Unicode.

(** ** Regular expressions *)

Inductive regex : Type :=
| RNone
| REps
| RClass (f : ascii → bool)
| RSeq (a b : regex)
| RAlt (a b : regex)
| RStar (a : regex).

(** The language of a regular expression. *)
Inductive denotes : regex → string → Prop :=
| den_eps : denotes REps EmptyString
| den_class f c : f c = true → denotes (RClass f) (String c EmptyString)
| den_seq a b s t : denotes a s → denotes b t → denotes (RSeq a b) (s ^^ t)
| den_alt_l a b s : denotes a s → denotes (RAlt a b) s
| den_alt_r a b s : denotes b s → denotes (RAlt a b) s
| den_star_nil a : denotes (RStar a) EmptyString
| den_star_cons a s t : denotes a s → denotes (RStar a) t → denotes (RStar a) (s ^^ t).

Fixpoint nullable (r : regex) : bool :=
  match r with
  | RNone | RClass _ => false
  | REps | RStar _ => true
  | RSeq a b => nullable a && nullable b
  | RAlt a b => nullable a || nullable b
  end.

Fixpoint deriv (c : ascii) (r : regex) : regex :=
  match r with
  | RNone | REps => RNone
  | RClass f => if f c then REps else RNone
  | RSeq a b =>
      if nullable a then RAlt (RSeq (deriv c a) b) (deriv c b) else RSeq (deriv c a) b
  | RAlt a b => RAlt (deriv c a) (deriv c b)
  | RStar a => RSeq (deriv c a) (RStar a)
  end.

Fixpoint regex_match (r : regex) (s : string) : bool :=
  match s with
  | EmptyString => nullable r
  | String c t => regex_match (deriv c r) t
  end.

Definition ROpt (r : regex) : regex := RAlt REps r.
Definition RChar (c : ascii) : regex := RClass (λ d, bool_decide (d = c)).
Definition RPlus (r : regex) : regex := RSeq r (RStar r).

(** ** schemafmt *)

Definition is_digit_byte (c : ascii) : bool := in_range 48 57 (byte_val c).
Definition is_letter_byte (c : ascii) : bool :=
  in_range 65 90 (byte_val c) || in_range 97 122 (byte_val c).
Definition is_letter_dash (c : ascii) : bool := is_letter_byte c || bool_decide (c = "-"%char).
Definition is_alnum_dash (c : ascii) : bool := is_digit_byte c || is_letter_dash c.

(** [0|[1-9][0-9]*]. *)
Definition numeric_id : regex :=
  RAlt (RChar "0"%char)
    (RSeq (RClass (λ c, in_range 49 57 (byte_val c))) (RStar (RClass is_digit_byte))).

(** [0|[1-9][0-9]*|[0-9A-Za-z-]*[A-Za-z-][0-9A-Za-z-]*]. *)
Definition prerelease_id : regex :=
  RAlt numeric_id
    (RSeq (RStar (RClass is_alnum_dash))
       (RSeq (RClass is_letter_dash) (RStar (RClass is_alnum_dash)))).

(** [MINOR.PATCH(-prerelease)?(+build)?], what follows the major and its dot. *)
Definition semver_tail : regex :=
  RSeq numeric_id (RSeq (RChar "."%char) (RSeq numeric_id
    (RSeq (ROpt (RSeq (RChar "-"%char)
             (RSeq prerelease_id (RStar (RSeq (RChar "."%char) prerelease_id)))))
       (ROpt (RSeq (RChar "+"%char)
             (RSeq (RPlus (RClass is_alnum_dash))
                (RStar (RSeq (RChar "."%char) (RPlus (RClass is_alnum_dash)))))))))).

Definition semverPattern : regex :=
  RSeq numeric_id (RSeq (RChar "."%char) semver_tail).

Inductive WorkflowKind := KindAgent | KindGraph.

(** [NormalizeKind]: canonical kind and whether the legacy alias was used. *)
Definition NormalizeKind (raw : string) : (WorkflowKind * bool) + error :=
  let kind := TrimSpace raw in
  if bool_decide (kind = "agent_workflow") then inl (KindAgent, false)
  else if bool_decide (kind = "agent-workflow") then inl (KindAgent, true)
  else if bool_decide (kind = "graph") then inl (KindGraph, false)
  else inr (EFmt [PS "invalid kind "; PQ raw]).

(** The first capture group of [semverPattern]: the bytes before the first dot. *)
Fixpoint before_dot (s : string) : string :=
  match s with
  | EmptyString => EmptyString
  | String c t => if decide (c = "."%char) then EmptyString else String c (before_dot t)
  end.

(** The value of a string of decimal digits. *)
Fixpoint digits_val (acc : Z) (s : string) : Z :=
  match s with
  | EmptyString => acc
  | String c t => digits_val (acc * 10 + (byte_val c - 48))%Z t
  end.

(** [strconv.Atoi] on a string of digits: out of range above the largest [int]. *)
Definition Atoi (s : string) : option Z :=
  let z := digits_val 0 s in if (z <=? F64.max_int)%Z then Some z else None.

Definition SupportedGraphSchemaMajor : Z := 1.
Definition SupportedAgentSchemaMajor : Z := 1.

Definition ValidateSchemaVersion (version : string) (supportedMajor : Z) : option error :=
  let v := TrimSpace version in
  if bool_decide (v = EmptyString) then Some (EFmt [PS "schema_version is required"])
  else if negb (regex_match semverPattern v) then
    Some (EFmt [PS "schema_version "; PQ version;
                PS " must be a valid semantic version (MAJOR.MINOR.PATCH)"])
  else match Atoi (before_dot v) with
       | None => Some (EFmt [PS "parsing schema_version major: "])
       | Some major =>
           if (major =? supportedMajor)%Z then None
           else Some (EFmt [PS "schema_version "; PQ version; PS " has unsupported major ";
                            PD major; PS " (supported: "; PD supportedMajor; PS ".x.x)"])
       end.

(** ** The matcher decides the language *)

Lemma nullable_spec r : nullable r = true ↔ denotes r EmptyString.
Proof.
  split.
  - induction r; simpl; intros Hn; try discriminate; bool_simp.
    + constructor.
    + change EmptyString with (EmptyString ^^ EmptyString). constructor; auto.
    + apply orb_true_iff in Hn as [?|?]; [apply den_alt_l|apply den_alt_r]; auto.
    + constructor.
  - intros Hd. remember EmptyString as s eqn:Es. revert Es.
    induction Hd; simpl; intros Es; try done; try discriminate.
    + apply append_nil_inv in Es as [-> ->]. by rewrite IHHd1, IHHd2.
    + by rewrite IHHd.
    + rewrite IHHd by done. apply orb_true_r.
Qed.

Lemma denotes_none s : ¬ denotes RNone s.
Proof. intros Hd. inversion Hd. Qed.

Lemma deriv_spec r : ∀ c s, denotes (deriv c r) s ↔ denotes r (String c s).
Proof.
  induction r as [| |f|a IHa b IHb|a IHa b IHb|a IHa]; intros c s; simpl.
  - split; intros Hd; inversion Hd.
  - split; intros Hd; inversion Hd.
  - split.
    + destruct (f c) eqn:E; intros Hd; inversion Hd; subst. by constructor.
    + intros Hd. inversion Hd as [|? ? Hf| | | | |]; subst. rewrite Hf. constructor.
  - assert (denotes (RSeq a b) (String c s) ↔
      denotes (RSeq (deriv c a) b) s ∨ (nullable a = true ∧ denotes (deriv c b) s)) as Hseq.
    { split.
      - intros Hd. inversion Hd as [| |? ? u t Hu Ht Heq1 Heq2| | | |]; subst.
        apply append_String_inv in Heq2 as [[-> ->]|(u' & -> & ->)].
        + right. rewrite nullable_spec, IHb. done.
        + left. constructor; [by apply IHa|done].
      - intros [Hd|[Hn Hd]].
        + inversion Hd as [| |? ? u t Hu Ht Heq1 Heq2| | | |]; subst.
          apply IHa in Hu. change (String c (u ^^ t)) with (String c u ^^ t). by constructor.
        + change (String c s) with (EmptyString ^^ String c s).
          constructor; [by apply nullable_spec|by apply IHb]. }
    rewrite Hseq. destruct (nullable a).
    + split.
      * intros Hd. inversion Hd; subst; auto.
      * intros [?|[_ ?]]; [by apply den_alt_l|by apply den_alt_r].
    + naive_solver.
  - split; intros Hd; inversion Hd; subst;
      (apply den_alt_l; by apply IHa) || (apply den_alt_r; by apply IHb).
  - split.
    + intros Hd. inversion Hd as [| |? ? u t Hu Ht| | | |]; subst.
      apply IHa in Hu. change (String c (u ^^ t)) with (String c u ^^ t). by constructor.
    + intros Hd. remember (RStar a) as r eqn:Er. remember (String c s) as w eqn:Ew.
      revert Er Ew. induction Hd as [| | | | | |a' u t Hu _ Ht IHt]; intros Er Ew; try discriminate.
      injection Er as ->. apply append_String_inv in Ew as [[-> ->]|(u' & -> & ->)];
        [by apply IHt|]. constructor; [by apply IHa|done].
Qed.

Lemma regex_match_spec r s : regex_match r s = true ↔ denotes r s.
Proof.
  revert r. induction s as [|c s IH]; intros r; simpl; [apply nullable_spec|].
  by rewrite IH, deriv_spec.
Qed.

(** The digits of a version component hold no dot. *)
Lemma numeric_id_no_dot s : denotes numeric_id s → "."%char ∉ String.list_ascii_of_string s.
Proof.
  assert (∀ t, denotes (RStar (RClass is_digit_byte)) t →
    "."%char ∉ String.list_ascii_of_string t) as Hstar.
  { intros t Ht. remember (RStar (RClass is_digit_byte)) as r eqn:Er. revert Er.
    induction Ht as [| | | | |a|a u t Hu _ Ht IHt]; intros Er; try discriminate;
      [simpl; apply not_elem_of_nil|].
    injection Er as ->. inversion Hu as [|? c Hc| | | | |]; subst. simpl.
    apply not_elem_of_cons. split; [|by apply IHt]. intros <-. discriminate. }
  intros Hd. inversion Hd as [| | |? ? ? H1|? ? ? H1| |]; subst;
    inversion H1 as [|? c Hc|? ? u t Hu Ht| | | |]; subst.
  - bool_simp. subst. simpl. set_solver.
  - inversion Hu as [|? c Hc| | | | |]; subst. simpl.
    apply not_elem_of_cons. split; [|by apply Hstar]. intros <-. discriminate.
Qed.

Lemma before_dot_app s t :
  "."%char ∉ String.list_ascii_of_string s → before_dot (s ^^ String "."%char t) = s.
Proof.
  induction s as [|c s IH]; simpl; intros Hn; [done|].
  apply not_elem_of_cons in Hn as [Hc Hs]. rewrite decide_False by congruence. by rewrite IH.
Qed.

(** A version string of the language: major, dot, rest. *)
Lemma semver_split v : denotes semverPattern v ↔
  ∃ major rest, v = major ^^ String "."%char rest ∧
    denotes numeric_id major ∧ denotes semver_tail rest.
Proof.
  split.
  - intros Hd. inversion Hd as [| |? ? m t Hm Ht| | | |]; subst.
    inversion Ht as [| |? ? d u Hdot Hu| | | |]; subst.
    inversion Hdot as [|? c Hc| | | | |]; subst. bool_simp. subst. eauto.
  - intros (m & rest & -> & Hm & Hr). constructor; [done|].
    change (String "." rest) with (String "." EmptyString ^^ rest).
    constructor; [|done]. constructor. by apply bool_decide_eq_true.
Qed.

(** [ValidateSchemaVersion] accepts a version exactly when, with the
    surrounding white space removed, it is a semantic version in the language of
    the package's pattern, and its major component is the supported one (an
    [int]). *)
Theorem ValidateSchemaVersion_spec (version : string) (major : Z) :
  ValidateSchemaVersion version major = None ↔
  ∃ m rest, TrimSpace version = m ^^ String "."%char rest ∧
    denotes numeric_id m ∧ denotes semver_tail rest ∧
    digits_val 0 m = major ∧ (major <= F64.max_int)%Z.
Proof.
  unfold ValidateSchemaVersion. set (v := TrimSpace version). split.
  - intros Hv. case_bool_decide; [discriminate|].
    destruct (regex_match semverPattern v) eqn:Hm; [|discriminate]. simpl in Hv.
    apply regex_match_spec, semver_split in Hm as (m & rest & Hvm & Hd & Hr).
    exists m, rest. rewrite Hvm, before_dot_app in Hv by (by apply numeric_id_no_dot).
    unfold Atoi in Hv. destruct (Z.leb_spec (digits_val 0 m) F64.max_int); [|discriminate].
    destruct (Z.eqb_spec (digits_val 0 m) major); [|discriminate]. subst. eauto 6.
  - intros (m & rest & Hvm & Hd & Hr & Hmaj & Hle).
    assert (denotes semverPattern v) as Hv by (apply semver_split; eauto).
    rewrite bool_decide_eq_false_2 by (rewrite Hvm; by destruct m).
    apply regex_match_spec in Hv. rewrite Hv. simpl.
    rewrite Hvm, before_dot_app by (by apply numeric_id_no_dot).
    unfold Atoi. rewrite Hmaj, (proj2 (Z.leb_le _ _) Hle).
    by rewrite Z.eqb_refl.
Qed.

Example version_ok : ValidateSchemaVersion " 1.0.0 " 1 = None.
Proof. vm_compute. reflexivity. Qed.
Example version_pre : ValidateSchemaVersion "1.2.3-rc.1+build.5" 1 = None.
Proof. vm_compute. reflexivity. Qed.
Example version_bad : ValidateSchemaVersion "01.0.0" 1 ≠ None.
Proof. vm_compute. discriminate. Qed.
