(* ===== verification/Registry.v ===== *)
(** * The node-type registry (registry/registry.go)

    The table of node types, with the registration order that [All] exposes. *)

From stdpp Require Import gmap strings list fin_maps.
From S2P Require Import Prelude Values.

Record PortDef := mkPort { port_Name : string; port_Type : string; port_Required : bool }.
Record PortSchema := mkPorts { ports_Inputs : list PortDef; ports_Outputs : list PortDef }.

Record NodeTypeDef := mkNodeType {
  nt_Type : string;
  nt_Category : string;
  nt_DisplayName : string;
  nt_Description : string;
  nt_Ports : PortSchema;
  nt_ConfigSchema : value;
  nt_IsTool : bool;
  nt_ToolMode : string
}.

Record Registry := mkRegistry {
  reg_types : gmap string NodeTypeDef;
  reg_order : list string
}.

Definition newRegistry : Registry := mkRegistry ∅ [].

Definition Register (def : NodeTypeDef) (r : Registry) : Registry :=
  mkRegistry (<[nt_Type def := def]> (reg_types r))
    (match reg_types r !! nt_Type def with
     | Some _ => reg_order r
     | None => reg_order r ++ [nt_Type def]
     end).

(** The loop of [Delete] over the order slice: drop the first occurrence. *)
Fixpoint remove_first (name : string) (l : list string) : list string :=
  match l with
  | [] => []
  | x :: r => if decide (x = name) then r else x :: remove_first name r
  end.

Definition Delete (typeName : string) (r : Registry) : Registry * bool :=
  match reg_types r !! typeName with
  | None => (r, false)
  | Some _ =>
      (mkRegistry (delete typeName (reg_types r)) (remove_first typeName (reg_order r)), true)
  end.

Definition Get (r : Registry) (typeName : string) : option NodeTypeDef := reg_types r !! typeName.
Definition Has (r : Registry) (typeName : string) : bool :=
  match reg_types r !! typeName with Some _ => true | None => false end.
Definition HasTool (r : Registry) (toolID : string) : bool :=
  match reg_types r !! toolID with Some def => nt_IsTool def | None => false end.
Definition ToolMode (r : Registry) (toolID : string) : string :=
  match reg_types r !! toolID with Some def => nt_ToolMode def | None => EmptyString end.
Definition All (r : Registry) : list NodeTypeDef :=
  omap (λ name, reg_types r !! name) (reg_order r).
Definition Len (r : Registry) : nat := size (reg_types r).

(** ** Invariant *)

(** The order slice lists every registered type exactly once, and each entry is
    stored under its own name. *)
Record registry_wf (r : Registry) : Prop := {
  rw_nodup : NoDup (reg_order r);
  rw_order : ∀ t, t ∈ reg_order r ↔ is_Some (reg_types r !! t);
  rw_key : ∀ t d, reg_types r !! t = Some d → nt_Type d = t
}.

(** One registry operation, and the states that sequences of them reach. *)
Inductive registry_step : Registry → Registry → Prop :=
| rs_register def r : registry_step r (Register def r)
| rs_delete t r : registry_step r (Delete t r).1.

Lemma newRegistry_wf : registry_wf newRegistry.
Proof.
  split; simpl; [constructor| |done].
  intros t. rewrite lookup_empty. split; [intros Hin; inversion Hin|by intros []].
Qed.

Lemma Register_wf def r : registry_wf r → registry_wf (Register def r).
Proof.
  intros [Hnd Hord Hkey]. destruct (reg_types r !! nt_Type def) eqn:E;
    split; unfold Register; simpl; rewrite ?E; try done.
  - intros t. rewrite Hord, lookup_insert. case_decide; subst; rewrite ?E; naive_solver.
  - intros t d. rewrite lookup_insert. case_decide; naive_solver.
  - apply NoDup_app. split_and!; [done| |apply NoDup_singleton].
    intros t Ht Ht'. apply list_elem_of_singleton in Ht' as ->.
    apply Hord in Ht. rewrite E in Ht. by destruct Ht.
  - intros t. rewrite elem_of_snoc, Hord, lookup_insert. case_decide; naive_solver.
  - intros t d. rewrite lookup_insert. case_decide; naive_solver.
Qed.

Lemma remove_first_spec name l t :
  NoDup l → (t ∈ remove_first name l ↔ t ∈ l ∧ t ≠ name) ∧ NoDup (remove_first name l).
Proof.
  induction l as [|x l IH]; simpl; intros Hnd.
  - split; [|constructor]. split; [intros Hin; inversion Hin|intros [Hin _]; inversion Hin].
  - apply NoDup_cons in Hnd as [Hx Hnd]. destruct (IH Hnd) as [IH1 IH2].
    case_decide; subst.
    + split; [|done]. rewrite elem_of_cons. naive_solver.
    + split; [rewrite !elem_of_cons, IH1; naive_solver|].
      constructor; [|done]. clear IH1. intros Hin.
      assert (∀ k, x ∈ remove_first name k → x ∈ k) as Hsub.
      { induction k as [|y k IHk]; simpl; [done|].
        case_decide; rewrite ?elem_of_cons; naive_solver. }
      by apply Hx, Hsub.
Qed.

Lemma Delete_wf t r : registry_wf r → registry_wf (Delete t r).1.
Proof.
  intros [Hnd Hord Hkey]. unfold Delete. destruct (reg_types r !! t) eqn:E; [|done].
  split; simpl.
  - by apply (remove_first_spec t _ t).
  - intros s. destruct (remove_first_spec t (reg_order r) s Hnd) as [-> _].
    rewrite Hord, lookup_delete. case_decide; naive_solver.
  - intros s d. rewrite lookup_delete. case_decide; naive_solver.
Qed.

#[export] Hint Resolve newRegistry_wf Register_wf Delete_wf : petal.

Lemma registry_reachable_wf r : rtc registry_step newRegistry r → registry_wf r.
Proof.
  revert r. apply rtc_ind_r; [auto with petal|].
  intros r1 r2 _ [] Hwf; auto with petal.
Qed.

Lemma All_lookup r d : registry_wf r → d ∈ All r ↔ Get r (nt_Type d) = Some d.
Proof.
  intros [Hnd Hord Hkey]. unfold All, Get. rewrite list_elem_of_omap. split.
  - intros (t & Ht & Hd). by rewrite (Hkey _ _ Hd).
  - intros Hd. exists (nt_Type d). split; [|done]. apply Hord. eauto.
Qed.

Lemma All_length r : registry_wf r → length (All r) = Len r.
Proof.
  intros [Hnd Hord Hkey]. unfold All, Len. rewrite <- size_dom.
  assert (dom (reg_types r) = list_to_set (reg_order r)) as ->.
  { apply set_eq. intros t. rewrite elem_of_dom, elem_of_list_to_set. symmetry. apply Hord. }
  rewrite size_list_to_set by done.
  assert (∀ k, (∀ t, t ∈ k → is_Some (reg_types r !! t)) →
    length (omap (λ name, reg_types r !! name) k) = length k) as Hlen.
  { induction k as [|x k IH]; intros Hk; [done|]. simpl.
    destruct (Hk x ltac:(left)) as [d ->]. simpl. f_equal.
    apply IH. intros t Ht. apply Hk. by right. }
  apply Hlen. intros t. apply Hord.
Qed.

(** After any sequence of registrations (overwriting ones included) and
    deletions, the listing of node types holds exactly the registered
    definitions, each once, and its length is the size of the table. *)
Theorem registry_listing (r : Registry) :
  rtc registry_step newRegistry r →
  (∀ d, d ∈ All r ↔ Get r (nt_Type d) = Some d) ∧ NoDup (map nt_Type (All r)) ∧
  length (All r) = Len r.
Proof.
  intros Hr. apply registry_reachable_wf in Hr as Hwf.
  split_and!; [intros; by apply All_lookup| |by apply All_length].
  assert (map nt_Type (All r) = reg_order r) as ->; [|apply Hwf].
  destruct Hwf as [_ Hord Hkey]. unfold All.
  assert (∀ k, (∀ t, t ∈ k → is_Some (reg_types r !! t)) →
    map nt_Type (omap (λ name, reg_types r !! name) k) = k) as Hm; [|apply Hm; intros t; apply Hord].
  induction k as [|x k IH]; intros Hk; [done|]. simpl.
  destruct (Hk x ltac:(left)) as [d Hd]. rewrite Hd. simpl. rewrite (Hkey _ _ Hd). f_equal.
  apply IH. intros t Ht. apply Hk. by right.
Qed.

(** Witness of [registry_listing]: a registration, an overwrite and a deletion. *)
Lemma registry_listing_witness :
  let ports := mkPorts [] [] in
  let a := mkNodeType "a" "data" "A" "" ports VNil false "" in
  let a' := mkNodeType "a" "tool" "A2" "" ports VNil true "standalone" in
  let b := mkNodeType "b" "data" "B" "" ports VNil false "" in
  let r := (Delete "b" (Register a' (Register b (Register a newRegistry)))).1 in
  All r = [a'] ∧ ∀ d, d ∈ All r ↔ Get r (nt_Type d) = Some d.
Proof.
  split; [vm_compute; reflexivity|].
  apply registry_listing.
  repeat (eapply rtc_r; [|constructor]). apply rtc_refl.
Defined.
