(* ===== verification/Builtins.v ===== *)
(** * The built-in node types (registry/builtins.go)

    The table of node types that the process-wide registry starts with, and that
    each of them is found in it, with the ports it declares. *)

From stdpp Require Import gmap strings list fin_maps.
From Stdlib Require Import ZArith.
From S2P Require Import Prelude Values Registry.

Definition builtins : list NodeTypeDef :=
  [mkNodeType "llm_prompt" "ai" "LLM Prompt"
     "Send a prompt to a language model and receive a completion"
     (mkPorts [mkPort "input" "string" true; mkPort "context" "string" false] [mkPort "output" "string" false]) VNil false "";
   mkNodeType "llm_router" "ai" "LLM Router"
     "Use an LLM to classify input and route to a target node"
     (mkPorts [mkPort "input" "string" true] [mkPort "output" "string" false; mkPort "decision" "object" false]) VNil false "";
   mkNodeType "rule_router" "control" "Rule Router"
     "Route to a target node based on conditional rules evaluated against envelope state"
     (mkPorts [mkPort "input" "any" true] [mkPort "output" "any" false; mkPort "decision" "object" false]) VNil false "";
   mkNodeType "filter" "data" "Filter"
     "Filter collections (artifacts, messages, or variables) by rules"
     (mkPorts [mkPort "input" "array" true] [mkPort "output" "array" false]) VNil false "";
   mkNodeType "transform" "data" "Transform"
     "Reshape data using pick, rename, flatten, template, or custom operations"
     (mkPorts [mkPort "input" "any" true] [mkPort "output" "any" false]) VNil false "";
   mkNodeType "merge" "control" "Merge"
     "Combine multiple parallel branch outputs into a single envelope"
     (mkPorts [mkPort "input" "any" true] [mkPort "output" "any" false]) VNil false "";
   mkNodeType "tool" "tool" "Tool"
     "Execute an external tool with arguments from the envelope"
     (mkPorts [mkPort "input" "object" true] [mkPort "output" "object" false]) VNil true "standalone";
   mkNodeType "gate" "control" "Gate"
     "Evaluate a condition and block, skip, or redirect execution"
     (mkPorts [mkPort "input" "any" true] [mkPort "output" "any" false]) VNil false "";
   mkNodeType "guardian" "control" "Guardian"
     "Validate input data against a set of checks (type, pattern, PII, schema)"
     (mkPorts [mkPort "input" "any" true] [mkPort "output" "any" false; mkPort "result" "object" false]) VNil false "";
   mkNodeType "human" "control" "Human-in-the-Loop"
     "Pause for human approval, choice, edit, or input"
     (mkPorts [mkPort "input" "any" true] [mkPort "output" "any" false; mkPort "response" "object" false]) VNil false "";
   mkNodeType "map" "control" "Map"
     "Apply a node or function to each item in a collection"
     (mkPorts [mkPort "input" "array" true] [mkPort "output" "array" false]) VNil false "";
   mkNodeType "cache" "data" "Cache"
     "Cache the output of a wrapped node to avoid repeated computation"
     (mkPorts [mkPort "input" "any" true] [mkPort "output" "any" false]) VNil false "";
   mkNodeType "webhook_trigger" "control" "Webhook Trigger"
     "Receive inbound webhook payloads and map request context into workflow vars"
     (mkPorts [mkPort "input" "any" false] [mkPort "output" "any" false; mkPort "request" "object" false]) VNil false "";
   mkNodeType "webhook_call" "data" "Webhook Call"
     "Send outbound HTTP webhook requests with envelope-derived payloads"
     (mkPorts [mkPort "input" "any" false] [mkPort "output" "any" false; mkPort "response" "object" false]) VNil false "";
   mkNodeType "noop" "control" "No-Op"
     "Pass the envelope through unchanged (placeholder or testing)"
     (mkPorts [mkPort "input" "any" false] [mkPort "output" "any" false]) VNil false "";
   mkNodeType "func" "control" "Function"
     "Execute a custom Go function as a node"
     (mkPorts [mkPort "input" "any" false] [mkPort "output" "any" false]) VNil false "";
   mkNodeType "conditional" "control" "Conditional"
     "Route data to different branches based on expression evaluation"
     (mkPorts [mkPort "input" "any" true] [mkPort "output" "any" false; mkPort "decision" "object" false]) VNil false ""].

Definition registerBuiltins (r : Registry) : Registry := fold_left (λ r def, Register def r) builtins r.

(** The registry of the process, when it is first asked for. *)
Definition Global : Registry := registerBuiltins newRegistry.

(** Every built-in type is found under its name, in the order of registration. *)
Lemma builtins_found : NoDup (map nt_Type builtins) ∧ All Global = builtins ∧ reg_order Global = map nt_Type builtins.
Proof. split; [apply (bool_decide_unpack _); vm_compute; exact I|]. split; vm_compute; reflexivity. Qed.

(** Every node type has an [output] port, the one the compiled agent workflows connect. *)
Lemma builtins_output : Forall (λ def, "output" ∈ map port_Name (ports_Outputs (nt_Ports def))) builtins.
Proof. apply (bool_decide_unpack _). vm_compute. exact I. Qed.
