(* ===== verification/Template.v ===== *)
(** * Placeholders of agent workflows (agent/compile.go, agent/validate.go)

    The regular expressions that find and rewrite task and input references, and
    the functions built on them. In every pattern a repeated class is followed by
    a literal that starts outside the class, so the greedy scan used here is the
    leftmost-first match of Go's [regexp]; the patterns start with an ASCII
    literal, so scanning bytes and scanning runes agree. *)

From stdpp Require Import gmap strings list fin_maps.
From Stdlib Require Import Ascii ZArith Lia.
From S2P Require Import Prelude Values Unicode Schema.

(** ** Patterns *)

Inductive item :=
| ILit (s : string)                              (** a literal *)
| IPlus (cls : ascii → bool)                     (** a captured [[class]+] *)
| ISkip (cls : ascii → bool)                     (** an uncaptured [[class]+] *)
| IOpt (c : ascii) (cls : ascii → bool).         (** a captured optional [c] with a run of the class *)

Notation pattern := (list item).

Fixpoint strip_prefix (p s : string) : option string :=
  match p, s with
  | EmptyString, _ => Some s
  | String a p', String b s' => if decide (a = b) then strip_prefix p' s' else None
  | String _ _, EmptyString => None
  end.

Fixpoint span (cls : ascii → bool) (s : string) : string * string :=
  match s with
  | EmptyString => (EmptyString, EmptyString)
  | String c t =>
      if cls c then let '(m, r) := span cls t in (String c m, r) else (EmptyString, s)
  end.

(** A match at the start of [s]: the captures and the rest. *)
Fixpoint match_items (p : pattern) (s : string) : option (list string * string) :=
  match p with
  | [] => Some ([], s)
  | ILit l :: p' =>
      match strip_prefix l s with Some r => match_items p' r | None => None end
  | IPlus cls :: p' =>
      let '(m, r) := span cls s in
      if bool_decide (m = EmptyString) then None
      else match match_items p' r with Some (caps, r') => Some (m :: caps, r') | None => None end
  | ISkip cls :: p' =>
      let '(m, r) := span cls s in
      if bool_decide (m = EmptyString) then None else match_items p' r
  | IOpt c cls :: p' =>
      let '(m, r) := match s with
                     | String d t =>
                         if decide (d = c) then let '(m, r) := span cls t in (String c m, r)
                         else (EmptyString, s)
                     | EmptyString => (EmptyString, s)
                     end in
      match match_items p' r with Some (caps, r') => Some (m :: caps, r') | None => None end
  end.

(** [FindAllStringSubmatch]: the captures of the successive matches; [skip] bytes
    belong to the previous match. *)
Fixpoint find_all (p : pattern) (skip : nat) (s : string) : list (list string) :=
  match s with
  | EmptyString => []
  | String _ t =>
      match skip with
      | S k => find_all p k t
      | 0 => match match_items p s with
             | Some (caps, rest) =>
                 caps :: find_all p (String.length s - String.length rest - 1) t
             | None => find_all p 0 t
             end
      end
  end.

(** [ReplaceAllStringFunc]; the function gets the captures, and keeps the match by
    returning [None]. *)
Fixpoint replace_all (p : pattern) (f : list string → option string) (skip : nat) (keep : bool)
    (s : string) : string :=
  match s with
  | EmptyString => EmptyString
  | String c t =>
      match skip with
      | S k => if keep then String c (replace_all p f k keep t) else replace_all p f k keep t
      | 0 => match match_items p s with
             | Some (caps, rest) =>
                 let k := String.length s - String.length rest - 1 in
                 match f caps with
                 | Some new => new ^^ replace_all p f k false t
                 | None => String c (replace_all p f k true t)
                 end
             | None => String c (replace_all p f 0 false t)
             end
      end
  end.

(** ** The patterns of the compiler *)

Definition word_byte (c : ascii) : bool :=
  is_letter_byte c || is_digit_byte c || bool_decide (c = "_"%char).
Definition path_byte (c : ascii) : bool := word_byte c || bool_decide (c = "."%char).
Definition not_brace (c : ascii) : bool := negb (bool_decide (c = "}"%char)).

Definition inputRefPattern : pattern := [ILit "{{input."; IPlus path_byte; ILit "}}"].
Definition taskRefPattern : pattern := [ILit "{{tasks."; IPlus word_byte; ILit ".output}}"].
Definition compileRefPattern : pattern :=
  [ILit "{{tasks."; IPlus word_byte; ILit "."; ISkip not_brace; ILit "}}"].
Definition condExprPattern : pattern :=
  [ILit "tasks."; IPlus word_byte; ILit ".output"; IOpt "."%char path_byte].

(** The distinct first captures, in the order of their first occurrence. *)
Fixpoint dedup (seen : gset string) (l : list string) : list string :=
  match l with
  | [] => []
  | x :: r => if decide (x ∈ seen) then dedup seen r else x :: dedup ({[x]} ∪ seen) r
  end.

(** [compileExtractTaskRefs]; the validator's [extractTaskRefs] is the same code. *)
Definition extractTaskRefs (tmpl : string) : list string :=
  dedup ∅ (omap head (find_all compileRefPattern 0 tmpl)).

Definition rewriteTemplate (tmpl : string) (taskNodeIDs : gmap string string) : string :=
  let s := replace_all inputRefPattern
             (λ caps, Some ("{{." ^^ default EmptyString (head caps) ^^ "}}")) 0 false tmpl in
  replace_all taskRefPattern (λ caps,
    match caps with
    | taskID :: _ =>
        match taskNodeIDs !! taskID with
        | Some nodeID => Some ("{{." ^^ nodeID ^^ "_output}}")
        | None => None
        end
    | [] => None
    end) 0 false s.

Definition rewriteConditionExpr (expr : string) (taskNodeIDs : gmap string string) : string :=
  replace_all condExprPattern (λ caps,
    match caps with
    | [taskID; rest] =>
        match taskNodeIDs !! taskID with
        | Some nodeID => Some (nodeID ^^ "_output" ^^ rest)
        | None => None
        end
    | _ => None
    end) 0 false expr.

(** ** Identifiers *)

Definition is_lower_byte (c : ascii) : bool := in_range 97 122 (byte_val c).

(** [^[a-z][a-z0-9_]*$]. *)
Definition idPattern : regex :=
  RSeq (RClass is_lower_byte)
    (RStar (RClass (λ c, is_lower_byte c || is_digit_byte c || bool_decide (c = "_"%char)))).

Definition maxIDLength : nat := 64.

Definition isValidID (id : string) : bool :=
  if bool_decide (String.length id = 0) || bool_decide (maxIDLength < String.length id) then false
  else regex_match idPattern id.

Example refs_ex :
  extractTaskRefs "Use {{tasks.a.output}} and {{ tasks.b.output }} {{tasks.c.x y}}{{tasks.a.z}}"
  = ["a"; "c"].
Proof. vm_compute. reflexivity. Qed.

Example template_ex :
  rewriteTemplate "{{input.topic.x}}: {{tasks.a.output}} {{tasks.b.output}} {{input.}}"
    {[ "a" := "a__w" ]} = "{{.topic.x}}: {{.a__w_output}} {{tasks.b.output}} {{input.}}".
Proof. vm_compute. reflexivity. Qed.

Example cond_ex :
  rewriteConditionExpr "tasks.a.output.score > 1 && tasks.b.output" {[ "a" := "a__w" ]}
  = "a__w_output.score > 1 && tasks.b.output".
Proof. vm_compute. reflexivity. Qed.

(** ** Lemmas *)

Lemma elem_of_dedup l : ∀ seen x, x ∈ dedup seen l ↔ x ∈ l ∧ x ∉ seen.
Proof.
  induction l as [|y l IH]; intros seen x; simpl; [rewrite elem_of_nil; tauto|].
  rewrite (elem_of_cons l). case_decide.
  - rewrite IH. naive_solver.
  - rewrite elem_of_cons, IH, elem_of_union, elem_of_singleton.
    destruct (decide (x = y)); naive_solver.
Qed.

Lemma isValidID_nonempty id : isValidID id = true → id ≠ EmptyString.
Proof. intros Hv ->. discriminate. Qed.
