(* ===== verification/GraphDef.v ===== *)
(** * Graph definitions (graph/definition.go)

    The serializable intermediate representation: its validation rules
    (codes GR-001 to GR-010 and CN-001 to CN-006), cycle detection, and the conversion to an
    executable graph. *)

From stdpp Require Import gmap strings list fin_maps pretty relations.
From Stdlib Require Import ZArith Lia.
From S2P Require Import Prelude Values Kahn Graph Unicode Schema Registry.

(** ** Data *)

Record Diagnostic := mkDiag {
  d_Code : string;
  d_Severity : string;
  d_Message : list part;
  d_Path : string
}.

Definition SeverityError : string := "error".
Definition SeverityWarning : string := "warning".

Record NodeDef := mkNodeDef { nd_ID : string; nd_Type : string; nd_Config : gmap string value }.

Record EdgeDef := mkEdgeDef {
  ed_Source : string;
  ed_SourceHandle : string;
  ed_Target : string;
  ed_TargetHandle : string
}.

Record GraphDefinition := mkGraphDef {
  gd_ID : string;
  gd_Version : string;
  gd_SchemaVersion : string;
  gd_Kind : string;
  gd_Metadata : gmap string string;
  gd_Nodes : list NodeDef;
  gd_Edges : list EdgeDef;
  gd_Entry : string
}.

(** ** Diagnostics *)

Definition HasErrors (diags : list Diagnostic) : bool :=
  existsb (λ d, bool_decide (d_Severity d = SeverityError)) diags.
Definition Errors (diags : list Diagnostic) : list Diagnostic :=
  filter (λ d, d_Severity d = SeverityError) diags.
Definition Warnings (diags : list Diagnostic) : list Diagnostic :=
  filter (λ d, d_Severity d = SeverityWarning) diags.

(** ["nodes[i]"] and the like. *)
Definition index_path (coll : string) (i : nat) (rest : string) : string :=
  coll ^^ "[" ^^ GoStr.Itoa i ^^ "]" ^^ rest.

(** A [for i, x := range l] that appends the diagnostics of each element. *)
Definition range_diags {A} (f : nat → A → list Diagnostic) (l : list A) : list Diagnostic :=
  mjoin (imap f l).

(** ** Structural validation *)

(** GR-010. *)
Definition validateSchemaHeader (gd : GraphDefinition) : list Diagnostic :=
  (if bool_decide (gd_Kind gd = EmptyString) then []
   else match NormalizeKind (gd_Kind gd) with
        | inr err => [mkDiag "GR-010" SeverityError [PS "Invalid graph kind: "; PE err] "kind"]
        | inl (KindGraph, _) => []
        | inl (KindAgent, _) =>
            [mkDiag "GR-010" SeverityError
               [PS "Graph kind "; PQ (gd_Kind gd); PS " is invalid (expected "; PQ "graph"; PS ")"]
               "kind"]
        end) ++
  (if bool_decide (gd_SchemaVersion gd = EmptyString) then []
   else match ValidateSchemaVersion (gd_SchemaVersion gd) SupportedGraphSchemaMajor with
        | Some err =>
            [mkDiag "GR-010" SeverityError [PS "Invalid schema_version: "; PE err] "schema_version"]
        | None => []
        end).

(** GR-005: the scan for duplicate node IDs, with the set of IDs seen. *)
Fixpoint duplicate_ids (i : nat) (seen : gset string) (nodes : list NodeDef)
    : list Diagnostic * gset string :=
  match nodes with
  | [] => ([], seen)
  | node :: rest =>
      let here :=
        if bool_decide (nd_ID node ∈ seen) then
          [mkDiag "GR-005" SeverityError [PS "Duplicate node ID "; PQ (nd_ID node)]
             (index_path "nodes" i ".id")]
        else [] in
      let '(ds, seen') := duplicate_ids (S i) ({[nd_ID node]} ∪ seen) rest in
      (here ++ ds, seen')
  end.

(** GR-001. *)
Definition edge_refs (nodeIDs : gset string) (i : nat) (edge : EdgeDef) : list Diagnostic :=
  (if bool_decide (ed_Source edge ∈ nodeIDs) then []
   else [mkDiag "GR-001" SeverityError
           [PS "Edge source "; PQ (ed_Source edge); PS " references unknown node"]
           (index_path "edges" i ".source")]) ++
  (if bool_decide (ed_Target edge ∈ nodeIDs) then []
   else [mkDiag "GR-001" SeverityError
           [PS "Edge target "; PQ (ed_Target edge); PS " references unknown node"]
           (index_path "edges" i ".target")]).

(** GR-007. *)
Definition entry_ref (nodeIDs : gset string) (gd : GraphDefinition) : list Diagnostic :=
  if negb (bool_decide (gd_Entry gd = EmptyString)) && negb (bool_decide (gd_Entry gd ∈ nodeIDs))
  then [mkDiag "GR-007" SeverityError
          [PS "Entry node "; PQ (gd_Entry gd); PS " does not exist"] "entry"]
  else [].

(** GR-002. *)
Definition orphans (gd : GraphDefinition) : list Diagnostic :=
  if bool_decide (1 < length (gd_Nodes gd)) then
    let hasInbound : gset string := list_to_set (map ed_Target (gd_Edges gd)) in
    let hasOutbound : gset string := list_to_set (map ed_Source (gd_Edges gd)) in
    range_diags (λ i node,
      if negb (bool_decide (nd_ID node ∈ hasInbound)) && negb (bool_decide (nd_ID node ∈ hasOutbound))
      then [mkDiag "GR-002" SeverityWarning
              [PS "Node "; PQ (nd_ID node); PS " has no inbound or outbound edges"]
              (index_path "nodes" i "")]
      else []) (gd_Nodes gd)
  else [].

Definition hasEdgeRefErrors (diags : list Diagnostic) : bool :=
  existsb (λ d, bool_decide (d_Code d = "GR-001")) diags.

(** The tables of [detectCycle]: successors with multiplicity, and in-degrees. *)
Definition def_successors (edges : list EdgeDef) : gmap string (list string) :=
  foldl (λ m e, <[ed_Source e := adj m (ed_Source e) ++ [ed_Target e]]> m) ∅ edges.

Definition def_in_degrees (gd : GraphDefinition) : gmap string Z :=
  foldl (λ deg e, <[ed_Target e := (deg_get deg (ed_Target e) + 1)%Z]> deg)
    (foldl (λ deg n, <[nd_ID n := 0%Z]> deg) ∅ (gd_Nodes gd)) (gd_Edges gd).

(** The worklist of [detectCycle], which counts the visited nodes. *)
Fixpoint detect_loop (succ : string → list string) (fuel : nat) (deg : gmap string Z)
    (queue : list string) (visited : nat) : option (gmap string Z * nat) :=
  match queue with
  | [] => Some (deg, visited)
  | current :: queue' =>
      match fuel with
      | 0 => None
      | S fuel' =>
          let '(deg', queue'') := reduce_degrees (succ current) deg queue' in
          detect_loop succ fuel' deg' queue'' (S visited)
      end
  end.

(** [None]: the loop did not end within the fuel, which never happens
    ([detectCycle_total]); [Some None]: the empty description, no cycle. *)
Definition detectCycle (gd : GraphDefinition) : option (option (list part)) :=
  let inDegree := def_in_degrees gd in
  let successors := def_successors (gd_Edges gd) in
  let queue := filter (λ id, deg_get inDegree id = 0%Z) (map nd_ID (gd_Nodes gd)) in
  match detect_loop (adj successors) (length (gd_Nodes gd) + length (gd_Edges gd))
          inDegree queue 0 with
  | None => None
  | Some (deg, visited) =>
      if bool_decide (visited < length (gd_Nodes gd)) then
        let cycleNodes := filter (λ id, (0 < deg_get deg id)%Z) (map nd_ID (gd_Nodes gd)) in
        Some (Some [PS "nodes involved: "; PL cycleNodes])
      else Some None
  end.

(** *** Conditional nodes (CN-001 .. CN-006) *)

Section Conditional.
(** The registered expression validator: [None] when none is registered, and a
    validator returns the syntax error, if any. *)
Context (registeredExprValidator : option (string → option error)).

Definition out_edges (edges : list EdgeDef) : gmap string (gset string) :=
  foldl (λ m e, <[ed_Source e := {[ed_Target e]} ∪ default ∅ (m !! ed_Source e)]> m) ∅ edges.

Definition check_condition (outEdges : gmap string (gset string)) (node : NodeDef)
    (prefix : string) (j : nat) (condRaw : value) : list Diagnostic :=
  match value_map condRaw with
  | None => []
  | Some cond =>
      let condPath := prefix ^^ index_path ".config.conditions" j "" in
      let name := string_or_empty (cond !! "name") in
      let expression := string_or_empty (cond !! "expression") in
      (if bool_decide (name = "error") || bool_decide (name = "_metadata") then
         [mkDiag "CN-005" SeverityError
            [PS "Conditional node "; PQ (nd_ID node); PS ": condition name "; PQ name;
             PS " is reserved"] (condPath ^^ ".name")]
       else []) ++
      (match registeredExprValidator with
       | Some validate =>
           if bool_decide (expression = EmptyString) then []
           else match validate expression with
                | Some err =>
                    [mkDiag "CN-004" SeverityError
                       [PS "Conditional node "; PQ (nd_ID node); PS ": condition "; PQ name;
                        PS " has invalid expression: "; PE err] (condPath ^^ ".expression")]
                | None => []
                end
       | None => []
       end) ++
      (if bool_decide (name = EmptyString) then []
       else if bool_decide (size (default ∅ (outEdges !! nd_ID node)) = 0) then
         [mkDiag "CN-001" SeverityWarning
            [PS "Conditional node "; PQ (nd_ID node); PS ": condition "; PQ name;
             PS " has no downstream edges"] condPath]
       else [])
  end.

Definition check_conditional (outEdges : gmap string (gset string)) (i : nat) (node : NodeDef)
    : list Diagnostic :=
  if negb (bool_decide (nd_Type node = "conditional")) then []
  else
    let prefix := index_path "nodes" i "" in
    let missing :=
      [mkDiag "CN-006" SeverityError
         [PS "Conditional node "; PQ (nd_ID node); PS " must have at least one condition"]
         (prefix ^^ ".config.conditions")] in
    match nd_Config node !! "conditions" with
    | None => missing
    | Some (VSlice []) => missing
    | Some (VSlice conditions) =>
        range_diags (check_condition outEdges node prefix) conditions ++
        (if bool_decide (string_or_empty (nd_Config node !! "default") = EmptyString) then
           [mkDiag "CN-003" SeverityWarning
              [PS "Conditional node "; PQ (nd_ID node); PS " has no default branch — execution will error if no conditions match"]
              (prefix ^^ ".config")]
         else [])
    | Some _ =>
        [mkDiag "CN-006" SeverityError
           [PS "Conditional node "; PQ (nd_ID node); PS ": conditions must be an array"]
           (prefix ^^ ".config.conditions")]
    end.

Definition validateConditionalNodes (gd : GraphDefinition) : list Diagnostic :=
  range_diags (check_conditional (out_edges (gd_Edges gd))) (gd_Nodes gd).

(** [GraphDefinition.Validate]. *)
Definition Validate (gd : GraphDefinition) : list Diagnostic :=
  let header := validateSchemaHeader gd in
  let '(dups, nodeIDs) := duplicate_ids 0 ∅ (gd_Nodes gd) in
  let diags := header ++ dups ++ range_diags (edge_refs nodeIDs) (gd_Edges gd)
               ++ entry_ref nodeIDs gd ++ orphans gd in
  let cycle :=
    if hasEdgeRefErrors diags then []
    else match detectCycle gd with
         | Some (Some descr) =>
             [mkDiag "GR-004" SeverityError (PS "Graph contains a cycle: " :: descr) ""]
         | _ => []
         end in
  diags ++ cycle ++ validateConditionalNodes gd.

(** *** Registry-dependent validation (GR-003, GR-006, GR-008, GR-009) *)

Definition hasPortName (ports : list PortDef) (name : string) : bool :=
  existsb (λ p, bool_decide (port_Name p = name)) ports.

Definition node_types (reg : Registry) (i : nat) (node : NodeDef) : list Diagnostic :=
  match Get reg (nd_Type node) with
  | None =>
      [mkDiag "GR-003" SeverityError
         [PS "Node "; PQ (nd_ID node); PS " references unknown type "; PQ (nd_Type node)]
         (index_path "nodes" i ".type")]
  | Some def =>
      if nt_IsTool def && bool_decide (nt_ToolMode def = "function_call") then
        [mkDiag "GR-008" SeverityError
           [PS "Node "; PQ (nd_ID node); PS " uses function_call tool type ";
            PQ (nd_Type node); PS " as a standalone graph node"] (index_path "nodes" i ".type")]
      else []
  end.

Definition nodes_by_id (nodes : list NodeDef) : gmap string NodeDef :=
  foldl (λ m n, <[nd_ID n := n]> m) ∅ nodes.

(** An unknown type leaves the entry of an earlier node with the same ID. *)
Definition defs_by_node_id (reg : Registry) (nodes : list NodeDef) : gmap string NodeTypeDef :=
  foldl (λ m n, match Get reg (nd_Type n) with
                | Some def => <[nd_ID n := def]> m
                | None => m
                end) ∅ nodes.

Definition source_handles (byID : gmap string NodeDef) (defs : gmap string NodeTypeDef)
    (i : nat) (edge : EdgeDef) : list Diagnostic :=
  if bool_decide (ed_SourceHandle edge = EmptyString) then []
  else match byID !! ed_Source edge with
       | None => []
       | Some srcNode =>
           if bool_decide (nd_Type srcNode = "conditional") then []
           else match defs !! ed_Source edge with
                | None => []
                | Some srcDef =>
                    if hasPortName (ports_Outputs (nt_Ports srcDef)) (ed_SourceHandle edge) then []
                    else [mkDiag "GR-006" SeverityError
                            [PS "Edge sourceHandle "; PQ (ed_SourceHandle edge);
                             PS " is not an output port on node "; PQ (ed_Source edge);
                             PS " (type "; PQ (nd_Type srcNode); PS ")"]
                            (index_path "edges" i ".sourceHandle")]
                end
       end.

Definition inbound_count (edges : list EdgeDef) : gmap string Z :=
  foldl (λ m e, <[ed_Target e := (deg_get m (ed_Target e) + 1)%Z]> m) ∅ edges.

Definition webhook_inbound (counts : gmap string Z) (i : nat) (node : NodeDef)
    : list Diagnostic :=
  if negb (bool_decide (nd_Type node = "webhook_trigger")) then []
  else if (0 <? deg_get counts (nd_ID node))%Z then
    [mkDiag "GR-009" SeverityError
       [PS "Node "; PQ (nd_ID node); PS " (webhook_trigger) must not have inbound edges"]
       (index_path "nodes" i "")]
  else [].

Definition ValidateWithRegistry (reg : option Registry) (gd : GraphDefinition)
    : list Diagnostic :=
  let diags := Validate gd in
  match reg with
  | None => diags
  | Some reg =>
      diags ++ range_diags (node_types reg) (gd_Nodes gd) ++
      range_diags (source_handles (nodes_by_id (gd_Nodes gd)) (defs_by_node_id reg (gd_Nodes gd)))
        (gd_Edges gd) ++
      range_diags (webhook_inbound (inbound_count (gd_Edges gd))) (gd_Nodes gd)
  end.
End Conditional.

(** ** Conversion to an executable graph *)

Section ToGraph.
Context {N : Type} `{NodeIface N}.

(** A node factory returns a node (nil is [None]) or an error. *)
Definition NodeFactory : Type := NodeDef → option N + error.

Fixpoint add_nodes (factory : NodeFactory) (nds : list NodeDef) (g : BasicGraph N)
    : BasicGraph N + error :=
  match nds with
  | [] => inl g
  | nd :: rest =>
      match factory nd with
      | inr err => inr (EFmt [PS "creating node "; PQ (nd_ID nd); PS " (type "; PQ (nd_Type nd);
                              PS "): "; PW err])
      | inl node =>
          match AddNode node g with
          | (_, Some err) => inr (EFmt [PS "adding node "; PQ (nd_ID nd); PS ": "; PW err])
          | (g', None) => add_nodes factory rest g'
          end
      end
  end.

Fixpoint add_edges (eds : list EdgeDef) (g : BasicGraph N) : BasicGraph N + error :=
  match eds with
  | [] => inl g
  | ed :: rest =>
      match AddEdge (ed_Source ed) (ed_Target ed) g with
      | (_, Some err) => inr (EFmt [PS "adding edge "; PS (ed_Source ed); PS " -> ";
                                    PS (ed_Target ed); PS ": "; PW err])
      | (g', None) => add_edges rest g'
      end
  end.

(** The first node without inbound edges, else the first node. *)
Definition resolve_entry (gd : GraphDefinition) : string :=
  if bool_decide (gd_Entry gd = EmptyString) then
    match gd_Nodes gd with
    | [] => EmptyString
    | first :: _ =>
        let hasInbound : gset string := list_to_set (map ed_Target (gd_Edges gd)) in
        let entry := match filter (λ nd, nd_ID nd ∉ hasInbound) (gd_Nodes gd) with
                     | nd :: _ => nd_ID nd
                     | [] => EmptyString
                     end in
        if bool_decide (entry = EmptyString) then nd_ID first else entry
    end
  else gd_Entry gd.

Definition ToGraph (nodeFactory : option NodeFactory) (gd : GraphDefinition)
    : BasicGraph N + error :=
  match nodeFactory with
  | None => inr (EFmt [PS "node factory is required: use WithNodeFactory"])
  | Some factory =>
      match add_nodes factory (gd_Nodes gd) (NewGraph (gd_ID gd)) with
      | inr err => inr err
      | inl g1 =>
          match add_edges (gd_Edges gd) g1 with
          | inr err => inr err
          | inl g2 =>
              let entry := resolve_entry gd in
              if bool_decide (entry = EmptyString) then inl g2
              else match SetEntry entry g2 with
                   | (_, Some err) =>
                       inr (EFmt [PS "setting entry node "; PQ entry; PS ": "; PW err])
                   | (g3, None) => inl g3
                   end
          end
      end
  end.
End ToGraph.
Arguments NodeFactory N : clear implicits.

(** ** Cycle detection *)

Section DetectCycle.
Implicit Types gd : GraphDefinition.

Definition node_ids gd : list string := map nd_ID (gd_Nodes gd).
Definition def_pairs gd : list (string * string) :=
  map (λ e, (ed_Source e, ed_Target e)) (gd_Edges gd).
(** Some edge goes from [u] to [v]. *)
Definition def_edge gd (u v : string) : Prop :=
  ∃ e, e ∈ gd_Edges gd ∧ ed_Source e = u ∧ ed_Target e = v.

Lemma elem_of_def_pairs gd u v : edge (def_pairs gd) u v ↔ def_edge gd u v.
Proof.
  unfold edge, def_edge, def_pairs. rewrite list_elem_of_In, in_map_iff. split.
  - intros (e & [= <- <-] & ?). exists e. by rewrite list_elem_of_In.
  - intros (e & ? & <- & <-). exists e. by rewrite <- list_elem_of_In.
Qed.

Lemma tc_def_pairs gd x y : tc (edge (def_pairs gd)) x y ↔ tc (def_edge gd) x y.
Proof.
  split; (induction 1; [apply tc_once|eapply tc_l; [|done]]); by apply elem_of_def_pairs.
Qed.

Lemma detect_loop_kahn succ fuel : ∀ deg q R,
  detect_loop succ fuel deg q (length R) =
  (λ dr, (dr.1, length dr.2)) <$> kahn_loop succ fuel deg q R.
Proof.
  induction fuel as [|fuel IH]; intros deg q R; destruct q as [|c q]; try done.
  simpl. destruct (reduce_degrees (succ c) deg q) as [deg' q'].
  rewrite <- IH, length_app. simpl. by rewrite Nat.add_1_r.
Qed.

Lemma def_successors_spec edges u :
  adj (def_successors edges) u = map ed_Target (filter (λ e, ed_Source e = u) edges).
Proof.
  unfold def_successors.
  assert (∀ m, adj (foldl (λ m e, <[ed_Source e := adj m (ed_Source e) ++ [ed_Target e]]> m) m edges) u
    = adj m u ++ map ed_Target (filter (λ e, ed_Source e = u) edges)) as Hgen;
    [|by rewrite Hgen].
  induction edges as [|e l IH]; intros m; [by rewrite app_nil_r|].
  cbn [foldl]. rewrite IH, adj_insert, filter_cons.
  repeat case_decide; subst; simplify_eq; simpl; rewrite <- ?app_assoc; done.
Qed.

Lemma incr_targets_get edges v : ∀ deg,
  deg_get (foldl (λ deg e, <[ed_Target e := (deg_get deg (ed_Target e) + 1)%Z]> deg) deg edges) v
  = (deg_get deg v + Z.of_nat (count (λ e, ed_Target e = v) edges))%Z.
Proof.
  induction edges as [|e l IH]; intros deg; [rewrite count_nil; simpl; lia|].
  cbn [foldl]. rewrite IH, deg_get_insert, count_cons. repeat case_decide; subst; lia.
Qed.

Lemma zero_nodes_get nodes v : ∀ deg, deg_get deg v = 0%Z →
  deg_get (foldl (λ deg n, <[nd_ID n := 0%Z]> deg) deg nodes) v = 0%Z.
Proof.
  induction nodes as [|n l IH]; intros deg Hd; [done|].
  apply IH. rewrite deg_get_insert. by case_decide.
Qed.

Lemma def_in_degrees_get gd v :
  deg_get (def_in_degrees gd) v = Z.of_nat (count (λ e, ed_Target e = v) (gd_Edges gd)).
Proof.
  unfold def_in_degrees. rewrite incr_targets_get, zero_nodes_get; [lia|done].
Qed.

Lemma positives_incr deg v : positives (<[v := (deg_get deg v + 1)%Z]> deg) ≤ S (positives deg).
Proof.
  unfold positives. rewrite map_filter_insert. case_decide.
  - rewrite map_size_insert. case_match; simpl; lia.
  - rewrite map_filter_delete, map_size_delete. case_match; simpl; lia.
Qed.

Lemma positives_def_in_degrees gd : positives (def_in_degrees gd) ≤ length (gd_Edges gd).
Proof.
  unfold def_in_degrees. set (deg0 := foldl _ ∅ (gd_Nodes gd)).
  assert (positives deg0 = 0) as H0.
  { unfold positives. apply map_size_empty_iff, map_eq. intros k.
    rewrite lookup_empty, map_lookup_filter_None. right.
    intros d Hk. simpl. assert (deg_get deg0 k = 0%Z) as Hz by (by apply zero_nodes_get).
    unfold deg_get in Hz. rewrite Hk in Hz. simpl in Hz. lia. }
  assert (∀ edges deg, positives (foldl (λ deg e,
    <[ed_Target e := (deg_get deg (ed_Target e) + 1)%Z]> deg) deg edges)
    ≤ positives deg + length edges) as Hg; [|specialize (Hg (gd_Edges gd) deg0); lia].
  induction edges as [|e l IH]; intros deg; cbn [foldl length]; [lia|].
  etrans; [apply IH|]. pose proof (positives_incr deg (ed_Target e)). lia.
Qed.

(** The worklist ends on every definition, valid or not. *)
Lemma detectCycle_total gd : is_Some (detectCycle gd).
Proof.
  unfold detectCycle.
  rewrite (detect_loop_kahn _ _ _ _ []).
  destruct (kahn_loop_total (adj (def_successors (gd_Edges gd)))
    (length (gd_Nodes gd) + length (gd_Edges gd)) (def_in_degrees gd)
    (filter (λ id, deg_get (def_in_degrees gd) id = 0%Z) (map nd_ID (gd_Nodes gd))) [])
    as [[deg R] Hrun].
  - pose proof (positives_def_in_degrees gd).
    pose proof (length_filter (λ id, deg_get (def_in_degrees gd) id = 0%Z) (map nd_ID (gd_Nodes gd))).
    rewrite length_map in *. lia.
  - rewrite Hrun. simpl. case_bool_decide; eauto.
Qed.

(** With distinct IDs and resolved references, no description means no cycle. *)
Lemma detectCycle_acyclic gd :
  NoDup (node_ids gd) →
  (∀ u v, def_edge gd u v → u ∈ node_ids gd ∧ v ∈ node_ids gd) →
  detectCycle gd = Some None ↔ ∀ x, ¬ tc (def_edge gd) x x.
Proof.
  intros Hnd Href. set (V := node_ids gd).
  assert (∀ u v, edge (def_pairs gd) u v → u ∈ V ∧ v ∈ V) as HE.
  { intros u v He. by apply Href, elem_of_def_pairs. }
  destruct (kahn_loop_inv V (def_pairs gd) (adj (def_successors (gd_Edges gd))) HE)
    with (fuel := length (gd_Nodes gd) + length (gd_Edges gd)) (R := @nil string)
         (Q := filter (λ id, deg_get (def_in_degrees gd) id = 0%Z) V)
         (deg := def_in_degrees gd) as (deg & R & Hrun & Hinv).
  - intros u. rewrite def_successors_spec. unfold def_pairs.
    induction (gd_Edges gd) as [|e l IH]; [done|]. cbn [map].
    rewrite !filter_cons. simpl. by case_decide; simpl; rewrite IH.
  - apply kahn_inv_init; [done| |by apply NoDup_filter|].
    + intros v Hv. rewrite def_in_degrees_get. f_equal. unfold indeg, count, def_pairs.
      induction (gd_Edges gd) as [|e l IH]; [done|]. cbn [map].
      rewrite !filter_cons. simpl.
      repeat case_decide; simpl; rewrite ?IH; try done; set_solver.
    + intros v. rewrite list_elem_of_filter. naive_solver.
  - unfold V, node_ids. rewrite length_map. simpl. lia.
  - unfold detectCycle. rewrite (detect_loop_kahn _ _ _ _ []).
    fold (node_ids gd). fold V. rewrite Hrun. simpl.
    pose proof (kahn_inv_acyclic_iff _ _ Hnd HE _ _ Hinv) as Hiff.
    change (node_ids gd) with V in Hiff.
    assert (length R ≤ length V) as Hle.
    { apply NoDup_subseteq_length.
      - pose proof (ki_nodup _ _ _ _ _ Hinv) as HR. by rewrite app_nil_r in HR.
      - intros v Hv. eapply ki_in_V; [done|]. by rewrite app_nil_r. }
    assert (length V = length (gd_Nodes gd)) as HVl by (unfold V, node_ids; by rewrite length_map).
    assert ((∀ x, ¬ tc (def_edge gd) x x) ↔ length R = length V) as ->.
    { rewrite Hiff. unfold acyclic. split; intros Hx x Hc; by eapply Hx, tc_def_pairs. }
    case_bool_decide; split; intros Heq; try done; try lia.
Qed.
End DetectCycle.

(** ** What the absence of error diagnostics means *)

Lemma HasErrors_app l k : HasErrors (l ++ k) = HasErrors l || HasErrors k.
Proof. apply existsb_app. Qed.

Lemma hasEdgeRefErrors_app l k :
  hasEdgeRefErrors (l ++ k) = hasEdgeRefErrors l || hasEdgeRefErrors k.
Proof. apply existsb_app. Qed.

#[export] Hint Rewrite HasErrors_app hasEdgeRefErrors_app : petal_eqs.

Lemma range_diags_existsb {A} (p : Diagnostic → bool) (f : nat → A → list Diagnostic) l :
  existsb p (range_diags f l) = false ↔
  ∀ i x, l !! i = Some x → existsb p (f i x) = false.
Proof.
  unfold range_diags. revert f. induction l as [|x l IH]; intros f; simpl.
  - split; [done|]. intros _. done.
  - rewrite existsb_app, orb_false_iff, (IH (f ∘ S)). split.
    + intros [H0 HS] [|i] y Hy; simpl in *; [by simplify_eq|by apply HS].
    + intros Hall. split; [by apply (Hall 0)|]. intros i y Hy. by apply (Hall (S i)).
Qed.

Lemma range_diags_HasErrors {A} (f : nat → A → list Diagnostic) l :
  HasErrors (range_diags f l) = false ↔ ∀ i x, l !! i = Some x → HasErrors (f i x) = false.
Proof. apply range_diags_existsb. Qed.

Lemma duplicate_ids_seen nodes : ∀ i seen,
  (duplicate_ids i seen nodes).2 = seen ∪ list_to_set (map nd_ID nodes).
Proof.
  induction nodes as [|n l IH]; intros i seen; simpl; [set_solver|].
  specialize (IH (S i) ({[nd_ID n]} ∪ seen)).
  destruct (duplicate_ids (S i) _ l) as [ds s]. simpl in *. set_solver.
Qed.

Lemma duplicate_ids_errors nodes : ∀ i seen,
  HasErrors (duplicate_ids i seen nodes).1 = false ↔
  NoDup (map nd_ID nodes) ∧ ∀ id, id ∈ map nd_ID nodes → id ∉ seen.
Proof.
  induction nodes as [|n l IH]; intros i seen; simpl.
  - split; [|done]. split; [constructor|]. intros id Hid. inversion Hid.
  - specialize (IH (S i) ({[nd_ID n]} ∪ seen)).
    destruct (duplicate_ids (S i) _ l) as [ds s]. simpl in *.
    rewrite HasErrors_app, orb_false_iff, IH, NoDup_cons.
    case_bool_decide as Hin; simpl; set_solver.
Qed.

Lemma duplicate_ids_codes nodes : ∀ i seen,
  hasEdgeRefErrors (duplicate_ids i seen nodes).1 = false.
Proof.
  induction nodes as [|n l IH]; intros i seen; simpl; [done|].
  specialize (IH (S i) ({[nd_ID n]} ∪ seen)).
  destruct (duplicate_ids (S i) _ l) as [ds s]. simpl in *.
  rewrite hasEdgeRefErrors_app, IH. by case_bool_decide.
Qed.

Lemma edge_refs_errors ids i e :
  HasErrors (edge_refs ids i e) = false ↔ ed_Source e ∈ ids ∧ ed_Target e ∈ ids.
Proof.
  unfold edge_refs. rewrite HasErrors_app, orb_false_iff.
  do 2 case_bool_decide; simpl; naive_solver.
Qed.

Lemma edge_refs_codes ids i e :
  hasEdgeRefErrors (edge_refs ids i e) = HasErrors (edge_refs ids i e).
Proof. unfold edge_refs. by do 2 case_bool_decide. Qed.

Lemma orphans_errors gd : HasErrors (orphans gd) = false ∧ hasEdgeRefErrors (orphans gd) = false.
Proof.
  unfold orphans. case_bool_decide; [|done]. split.
  - apply range_diags_existsb. intros i x _. by case_match.
  - apply range_diags_existsb. intros i x _. by case_match.
Qed.

Lemma entry_ref_errors ids gd :
  HasErrors (entry_ref ids gd) = false ↔ gd_Entry gd = EmptyString ∨ gd_Entry gd ∈ ids.
Proof. unfold entry_ref. do 2 case_bool_decide; simpl; naive_solver. Qed.

Lemma header_codes gd : hasEdgeRefErrors (validateSchemaHeader gd) = false.
Proof.
  unfold validateSchemaHeader. rewrite hasEdgeRefErrors_app.
  apply orb_false_iff. split; repeat case_match; done.
Qed.

(** The structural conditions on a definition, stated without the validator. *)
Record def_ok (validator : option (string → option error)) (gd : GraphDefinition) : Prop := {
  ok_header : HasErrors (validateSchemaHeader gd) = false;
  ok_ids : NoDup (node_ids gd);
  ok_refs : ∀ u v, def_edge gd u v → u ∈ node_ids gd ∧ v ∈ node_ids gd;
  ok_entry : gd_Entry gd = EmptyString ∨ gd_Entry gd ∈ node_ids gd;
  ok_acyclic : ∀ x, ¬ tc (def_edge gd) x x;
  ok_conditionals : HasErrors (validateConditionalNodes validator gd) = false
}.

Lemma refs_errors gd :
  HasErrors (range_diags (edge_refs (list_to_set (node_ids gd))) (gd_Edges gd)) = false ↔
  ∀ u v, def_edge gd u v → u ∈ node_ids gd ∧ v ∈ node_ids gd.
Proof.
  rewrite range_diags_HasErrors. split.
  - intros Hall u v (e & He & <- & <-). apply list_elem_of_lookup in He as [i Hi].
    apply Hall, edge_refs_errors in Hi. by rewrite !elem_of_list_to_set in Hi.
  - intros Hall i e Hi. apply edge_refs_errors. rewrite !elem_of_list_to_set.
    apply Hall. exists e. split; [|done]. by eapply list_elem_of_lookup_2.
Qed.

Lemma refs_codes gd ids :
  hasEdgeRefErrors (range_diags (edge_refs ids) (gd_Edges gd)) =
  HasErrors (range_diags (edge_refs ids) (gd_Edges gd)).
Proof.
  apply eq_true_iff_eq. rewrite <- !not_false_iff_true. unfold hasEdgeRefErrors, HasErrors.
  rewrite !range_diags_existsb. split; intros Hn Hall; apply Hn; intros i x Hx;
    specialize (Hall i x Hx); [rewrite edge_refs_codes|rewrite <- edge_refs_codes]; done.
Qed.

Lemma no_errors_def_ok (validator : option (string → option error)) (gd : GraphDefinition) :
  HasErrors (Validate validator gd) = false ↔ def_ok validator gd.
Proof.
  unfold Validate. pose proof (duplicate_ids_seen (gd_Nodes gd) 0 ∅) as Hseen.
  pose proof (duplicate_ids_errors (gd_Nodes gd) 0 ∅) as Hdup.
  pose proof (duplicate_ids_codes (gd_Nodes gd) 0 ∅) as Hcodes.
  destruct (duplicate_ids 0 ∅ (gd_Nodes gd)) as [dups ids]. simpl in *.
  rewrite union_empty_l_L in Hseen. subst ids. fold (node_ids gd) in *.
  destruct (orphans_errors gd) as [Ho1 Ho2].
  rewrite !HasErrors_app, !hasEdgeRefErrors_app, header_codes, Hcodes, Ho1, Ho2, refs_codes.
  rewrite !orb_false_iff, Hdup, refs_errors, entry_ref_errors, elem_of_list_to_set. simpl.
  destruct (HasErrors (range_diags (edge_refs (list_to_set (node_ids gd))) (gd_Edges gd))) eqn:Er.
  - assert (¬ (∀ u v, def_edge gd u v → u ∈ node_ids gd ∧ v ∈ node_ids gd)) as Hnr
      by (rewrite <- refs_errors, Er; done).
    split; [intros ((_ & _ & Hr & _) & _)|intros [_ _ Hr _ _ _]]; by destruct Hnr.
  - pose proof (proj1 (refs_errors gd) Er) as Href.
    assert (hasEdgeRefErrors (entry_ref (list_to_set (node_ids gd)) gd) = false) as ->
      by (unfold entry_ref; by case_match).
    simpl. destruct (detectCycle_total gd) as [r Hr].
    split.
    + intros ((Hh & (Hnd & _) & _ & He & _) & Hc & Hcond). split; try done.
      apply detectCycle_acyclic; [done..|]. rewrite Hr in *. by destruct r.
    + intros [Hh Hnd _ He Hac Hcond]. apply detectCycle_acyclic in Hac as Hd; [|done..].
      rewrite Hd. by split_and!.
Qed.


(** ** From a definition to a graph *)

Section ToGraphSpec.
Context {N : Type} `{NodeIface N}.
Implicit Types g : BasicGraph N.

(** What the conversion relies on: the factory builds, for every definition of
    the graph, a node that carries the definition's ID. *)
Definition factory_ok (factory : NodeFactory N) (nds : list NodeDef) : Prop :=
  ∀ nd, nd ∈ nds → ∃ n, factory nd = inl (Some n) ∧ node_ID n = nd_ID nd.

Lemma add_nodes_ok factory nds : ∀ g,
  graph_wf g → NoDup (g_nodeOrder g ++ map nd_ID nds) → factory_ok factory nds →
  ∃ g', add_nodes factory nds g = inl g' ∧ graph_wf g' ∧
    g_nodeOrder g' = g_nodeOrder g ++ map nd_ID nds ∧
    g_edges g' = g_edges g ∧ g_entry g' = g_entry g ∧ g_nodes g ⊆ g_nodes g' ∧
    ∀ nd n, nd ∈ nds → factory nd = inl (Some n) → g_nodes g' !! nd_ID nd = Some n.
Proof.
  induction nds as [|nd l IH]; intros g Hwf Hnd Hfac; simpl.
  - exists g. rewrite app_nil_r. split_and!; try done. set_solver.
  - destruct (Hfac nd) as (n & Hn & Hid); [set_solver|]. rewrite Hn.
    pose proof (AddNode_wf (Some n) g Hwf) as Hwf'. simpl in *. rewrite Hid in *.
    destruct (g_nodes g !! nd_ID nd) eqn:E.
    { exfalso. apply NoDup_app in Hnd as (_ & Hdis & _). apply (Hdis (nd_ID nd)); [|set_solver].
      apply wf_order_nodes; eauto. }
    simpl in Hwf'. destruct (IH _ Hwf') as (g' & -> & ? & Ho & He & Hent & Hsub & Hmade).
    + simpl. by rewrite <- app_assoc.
    + intros nd' ?. apply Hfac. set_solver.
    + exists g'. simpl in *. rewrite <- app_assoc in Ho. split_and!; try done.
      * etrans; [by apply insert_subseteq|done].
      * intros nd' n' [->|Hin]%elem_of_cons Hn'; [|by apply Hmade]. rewrite Hn in Hn'. injection Hn' as <-.
        eapply lookup_weaken; [|exact Hsub]. by rewrite lookup_insert_eq.
Qed.

Lemma add_edges_ok eds : ∀ g,
  graph_wf g →
  (∀ e, e ∈ eds → is_Some (g_nodes g !! ed_Source e) ∧ is_Some (g_nodes g !! ed_Target e)) →
  ∃ g', add_edges eds g = inl g' ∧ graph_wf g' ∧ g_nodeOrder g' = g_nodeOrder g ∧
    g_entry g' = g_entry g ∧ g_nodes g' = g_nodes g ∧
    ∀ u v, graph_edge g' u v ↔
      graph_edge g u v ∨ ∃ e, e ∈ eds ∧ ed_Source e = u ∧ ed_Target e = v.
Proof.
  induction eds as [|e l IH]; intros g Hwf Href; simpl.
  - exists g. split_and!; try done. intros u v. set_solver.
  - destruct (Href e) as [Hs Ht]; [set_solver|].
    pose proof (AddEdge_wf (ed_Source e) (ed_Target e) g Hwf) as Hwf'.
    destruct (AddEdge_ok _ _ _ Hs Ht) as (g1 & Hg1 & Hn & Ho & Hent & Hed).
    rewrite Hg1 in *. simpl in *.
    destruct (IH g1 Hwf') as (g' & -> & ? & Ho' & Hent' & Hn' & Hed').
    + intros e' ?. rewrite Hn. apply Href. set_solver.
    + exists g'. split_and!; try congruence. intros u v. rewrite Hed', Hed. set_solver.
Qed.

Lemma resolve_entry_in gd :
  (gd_Entry gd = EmptyString ∨ gd_Entry gd ∈ node_ids gd) → gd_Nodes gd ≠ [] →
  resolve_entry gd ∈ node_ids gd.
Proof.
  intros He Hne. unfold resolve_entry, node_ids in *. case_bool_decide; [|naive_solver].
  destruct (gd_Nodes gd) as [|nd l] eqn:En; [done|]. rewrite <- En in *.
  case_bool_decide as Hemp; [rewrite En; set_solver|].
  destruct (filter _ (gd_Nodes gd)) as [|x k] eqn:Ef; [done|].
  assert (x ∈ gd_Nodes gd) as Hx by (eapply list_elem_of_filter; rewrite Ef; set_solver).
  apply list_elem_of_In, in_map_iff. exists x. by rewrite <- list_elem_of_In.
Qed.

Lemma ToGraph_valid factory validator gd :
  def_ok validator gd → EmptyString ∉ node_ids gd → factory_ok factory (gd_Nodes gd) →
  ∃ g, ToGraph (Some factory) gd = inl g ∧ graph_wf g ∧
    g_nodeOrder g = node_ids gd ∧ (∀ u v, graph_edge g u v ↔ def_edge gd u v) ∧
    g_entry g = resolve_entry gd ∧
    ∀ nd n, nd ∈ gd_Nodes gd → factory nd = inl (Some n) → g_nodes g !! nd_ID nd = Some n.
Proof.
  intros [_ Hnd Href Hent _ _] Hemp Hfac. unfold ToGraph.
  destruct (add_nodes_ok factory (gd_Nodes gd) (NewGraph (gd_ID gd)))
    as (g1 & -> & Hwf1 & Ho1 & He1 & Hent1 & _ & Hmade); [apply NewGraph_wf|done..|].
  simpl in *. fold (node_ids gd) in *.
  destruct (add_edges_ok (gd_Edges gd) g1 Hwf1) as (g2 & -> & Hwf2 & Ho2 & Hent2 & Hn2 & Hed2).
  { intros e He. destruct (Href (ed_Source e) (ed_Target e)) as [Hs Ht]; [by exists e|].
    rewrite <- !(wf_order_nodes _ Hwf1), Ho1. done. }
  assert (∀ u v, graph_edge g2 u v ↔ def_edge gd u v) as Hed.
  { intros u v. rewrite Hed2. unfold graph_edge. rewrite He1. set_solver. }
  case_bool_decide as Hre.
  { exists g2. rewrite Hn2. split_and!; try done; congruence. }
  assert (resolve_entry gd ∈ node_ids gd) as Hin.
  { apply resolve_entry_in; [done|]. intros Hnil. unfold resolve_entry in Hre.
    rewrite Hnil in Hre. unfold node_ids in Hent. rewrite Hnil in Hent.
    case_bool_decide; set_solver. }
  pose proof (SetEntry_wf (resolve_entry gd) g2 Hwf2) as Hwf3. unfold SetEntry in *.
  rewrite <- Ho1, <- Ho2 in Hin.
  apply (wf_order_nodes _ Hwf2) in Hin as [n Hin]. rewrite Hin in *. simpl in *.
  eexists. rewrite <- Hn2 in Hmade. split_and!; try done. simpl. congruence.
Qed.
End ToGraphSpec.

(** A valid definition whose factory honours the IDs converts, and how. *)
Lemma ToGraph_converts {N} `{NodeIface N} (factory : NodeFactory N)
    (validator : option (string → option error)) (gd : GraphDefinition) :
  HasErrors (Validate validator gd) = false →
  EmptyString ∉ node_ids gd →
  factory_ok factory (gd_Nodes gd) →
  ∃ g, ToGraph (Some factory) gd = inl g ∧ graph_wf g ∧
    g_nodeOrder g = node_ids gd ∧
    (∀ nd n, nd ∈ gd_Nodes gd → factory nd = inl (Some n) → g_nodes g !! nd_ID nd = Some n) ∧
    (∀ u v, graph_edge g u v ↔ def_edge gd u v) ∧
    (∀ x, ¬ tc (graph_edge g) x x) ∧
    g_entry g = resolve_entry gd ∧
    (gd_Nodes gd ≠ [] → Graph.Validate g = None).
Proof.
  intros Hok Hemp Hfac. apply no_errors_def_ok in Hok.
  destruct (ToGraph_valid factory validator gd Hok Hemp Hfac) as (g & Hg & Hwf & Ho & He & Hent & Hmade).
  destruct Hok as [_ _ _ Hentry Hac _].
  exists g. split_and!; try done.
  - intros x Hx. apply (Hac x). revert Hx. generalize x at 2 4. intros y.
    induction 1; [apply tc_once|eapply tc_l; [|done]]; by apply He.
  - intros Hne. pose proof (resolve_entry_in gd Hentry Hne) as Hin.
    unfold Graph.Validate. rewrite Hent.
    assert (is_Some (g_nodes g !! resolve_entry gd)) as [n Hn]
      by (apply (wf_order_nodes _ Hwf); by rewrite Ho).
    assert (size (g_nodes g) ≠ 0) as Hsz
      by (rewrite map_size_empty_iff; intros Heq; by rewrite Heq in Hn).
    assert (resolve_entry gd ≠ EmptyString) as Hne' by congruence.
    by rewrite Hn, !bool_decide_false by done.
Qed.


Section Sample.
#[local] Instance def_node : NodeIface NodeDef := {| node_ID := nd_ID; node_Kind := nd_Type |}.

Definition sample_def : GraphDefinition :=
  let node id := mkNodeDef id "noop" ∅ in
  let edge u v := mkEdgeDef u "output" v "input" in
  mkGraphDef "g" "1.0" "1.0.0" "graph" ∅ [node "a"; node "b"; node "c"]
    [edge "b" "c"; edge "a" "c"; edge "a" "b"] "".

End Sample.
