(* ===== verification/ToolManifest.v ===== *)
(** * Tool manifests and their type system (tool/manifest.go, tool/type_system.go)

    What a registered tool declares (its actions with typed inputs and outputs,
    its configuration, its transport), and the validator of the declared types and
    of their compatibility. A nil map is the empty map: no modelled code tells
    them apart. *)

From stdpp Require Import gmap strings list fin_maps sorting.
From Stdlib Require Import ZArith Lia.
From S2P Require Import Prelude Values.

(** ** Data *)

Inductive FieldSpec := mkField {
  fs_Type : string;
  fs_Required : bool;
  fs_Description : string;
  fs_Default : value;
  fs_Sensitive : bool;
  fs_Items : option FieldSpec;
  fs_Properties : gmap string FieldSpec
}.

Record ActionSpec := mkAction {
  as_MCPToolName : string;
  as_Description : string;
  as_Inputs : gmap string FieldSpec;
  as_Outputs : gmap string FieldSpec;
  as_LLMCallable : option bool;
  as_Idempotent : bool
}.

Record RetryPolicy := mkRetry {
  rp_MaxAttempts : Z;
  rp_BackoffMS : Z;
  rp_RetryableCodes : list Z
}.

Record TransportSpec := mkTransport {
  ts_Type : string;
  ts_Endpoint : string;
  ts_Command : string;
  ts_Args : list string;
  ts_Env : gmap string string;
  ts_Mode : string;
  ts_TimeoutMS : Z;
  ts_Retry : RetryPolicy
}.

Record ToolMetadata := mkTool {
  tm_Name : string;
  tm_Version : string;
  tm_Description : string;
  tm_Author : string;
  tm_License : string;
  tm_Homepage : string;
  tm_Tags : list string
}.

Record HealthConfig := mkHealth {
  hc_Endpoint : string;
  hc_Method : string;
  hc_IntervalSeconds : Z;
  hc_TimeoutMS : Z;
  hc_UnhealthyThreshold : Z
}.

Record ToolManifest := mkManifest {
  mf_Schema : string;
  mf_ManifestVersion : string;
  mf_Tool : ToolMetadata;
  mf_Transport : TransportSpec;
  mf_Actions : gmap string ActionSpec;
  mf_Config : gmap string FieldSpec;
  mf_Health : option HealthConfig
}.

Definition ManifestVersionV1 := "1.0".
Definition SchemaToolV1 := "https://petalflow.dev/schemas/tool-manifest/v1.json".
Definition TransportTypeNative := "native".
Definition TransportTypeHTTP := "http".
Definition TransportTypeStdio := "stdio".
Definition TransportTypeMCP := "mcp".
Definition MCPModeStdio := "stdio".
Definition MCPModeSSE := "sse".

Definition zero_retry : RetryPolicy := mkRetry 0 0 [].
Definition zero_transport : TransportSpec := mkTransport "" "" "" [] ∅ "" 0 zero_retry.

Definition NewManifest (name : string) : ToolManifest :=
  mkManifest SchemaToolV1 ManifestVersionV1 (mkTool name "" "" "" "" "" []) zero_transport ∅ ∅ None.

(** The typed views of a transport. *)
Record HTTPTransport := mkHTTP { ht_Endpoint : string; ht_TimeoutMS : Z; ht_Retry : RetryPolicy }.

Record StdioTransport := mkStdio {
  st_Command : string; st_Args : list string; st_Env : gmap string string;
  st_TimeoutMS : Z; st_Retry : RetryPolicy
}.

Record MCPTransport := mkMCP {
  mt_Mode : string; mt_Endpoint : string; mt_Command : string; mt_Args : list string;
  mt_Env : gmap string string; mt_TimeoutMS : Z; mt_Retry : RetryPolicy
}.

Definition NewHTTPTransport (cfg : HTTPTransport) : TransportSpec :=
  mkTransport TransportTypeHTTP (ht_Endpoint cfg) "" [] ∅ "" (ht_TimeoutMS cfg) (ht_Retry cfg).

Definition NewNativeTransport : TransportSpec :=
  mkTransport TransportTypeNative "" "" [] ∅ "" 0 zero_retry.

Definition NewStdioTransport (cfg : StdioTransport) : TransportSpec :=
  mkTransport TransportTypeStdio "" (st_Command cfg) (st_Args cfg) (st_Env cfg) ""
    (st_TimeoutMS cfg) (st_Retry cfg).

Definition NewMCPTransport (cfg : MCPTransport) : TransportSpec :=
  mkTransport TransportTypeMCP (mt_Endpoint cfg) (mt_Command cfg) (mt_Args cfg) (mt_Env cfg)
    (mt_Mode cfg) (mt_TimeoutMS cfg) (mt_Retry cfg).

Definition AsHTTP (t : TransportSpec) : option HTTPTransport :=
  if bool_decide (ts_Type t ≠ TransportTypeHTTP) then None
  else Some (mkHTTP (ts_Endpoint t) (ts_TimeoutMS t) (ts_Retry t)).

Definition AsStdio (t : TransportSpec) : option StdioTransport :=
  if bool_decide (ts_Type t ≠ TransportTypeStdio) then None
  else Some (mkStdio (ts_Command t) (ts_Args t) (ts_Env t) (ts_TimeoutMS t) (ts_Retry t)).

Definition AsMCP (t : TransportSpec) : option MCPTransport :=
  if bool_decide (ts_Type t ≠ TransportTypeMCP) then None
  else Some (mkMCP (ts_Mode t) (ts_Endpoint t) (ts_Command t) (ts_Args t) (ts_Env t)
               (ts_TimeoutMS t) (ts_Retry t)).

(** ** Diagnostics (tool/validate.go) *)

Record Diagnostic := mkTD {
  td_Field : string;
  td_SourceField : string;
  td_TargetField : string;
  td_SourceType : string;
  td_TargetType : string;
  td_Code : string;
  td_Severity : string;
  td_Message : list part
}.

Definition SeverityError := "error".
Definition SeverityWarning := "warning".

Definition field_error (field code : string) (message : list part) : Diagnostic :=
  mkTD field "" "" "" "" code SeverityError message.

Definition hasValidationErrors (diags : list Diagnostic) : bool :=
  existsb (λ d, bool_decide (td_Severity d = SeverityError)) diags.

(** ** The type system *)

Definition TypeString := "string".
Definition TypeInteger := "integer".
Definition TypeFloat := "float".
Definition TypeBoolean := "boolean".
Definition TypeBytes := "bytes".
Definition TypeArray := "array".
Definition TypeObject := "object".
Definition TypeAny := "any".

Definition validV1Types : list string :=
  [TypeString; TypeInteger; TypeFloat; TypeBoolean; TypeBytes; TypeArray; TypeObject; TypeAny].

Definition isValidV1Type (typeName : string) : bool := bool_decide (typeName ∈ validV1Types).

Fixpoint validateFieldSpec (path : string) (spec : FieldSpec) {struct spec} : list Diagnostic :=
  if negb (isValidV1Type (fs_Type spec)) then
    [field_error (path ^^ ".type") "INVALID_TYPE"
       [PS "Unsupported type "; PQ (fs_Type spec);
        PS "; allowed: string, integer, float, boolean, bytes, array, object, any"]]
  else
    let properties :=
      mjoin (range_sorted (fs_Properties spec) (λ name prop,
        validateFieldSpec (path ^^ ".properties." ^^ name) prop)) in
    if bool_decide (fs_Type spec = TypeArray) then
      match fs_Items spec with
      | None => [field_error (path ^^ ".items") "REQUIRED_ITEMS"
                   [PS "items is required when type is array"]]
      | Some items => validateFieldSpec (path ^^ ".items") items ++ properties
      end
    else properties.

Fixpoint validateCompatibility (sourceField : string) (sourceSpec : FieldSpec)
    (targetField : string) (targetSpec : FieldSpec) {struct targetSpec} : list Diagnostic :=
  let sourceType := fs_Type sourceSpec in
  let targetType := fs_Type targetSpec in
  let diag field code severity message :=
    [mkTD field sourceField targetField sourceType targetType code severity message] in
  if negb (isValidV1Type sourceType) then
    diag (sourceField ^^ ".type") "INVALID_SOURCE_TYPE" SeverityError
      [PS "Source field has unsupported type "; PQ sourceType]
  else if negb (isValidV1Type targetType) then
    diag (targetField ^^ ".type") "INVALID_TARGET_TYPE" SeverityError
      [PS "Target field has unsupported type "; PQ targetType]
  else if bool_decide (sourceType = TypeAny) || bool_decide (targetType = TypeAny) then
    diag targetField "TYPE_ANY_BYPASS" SeverityWarning
      [PS "Type compatibility check bypassed because one side is typed as any"]
  else if bool_decide (sourceType ≠ targetType) then
    diag targetField "TYPE_MISMATCH" SeverityError
      [PS "Type mismatch: source "; PQ sourceField; PS " ("; PS sourceType;
       PS ") is not compatible with target "; PQ targetField; PS " ("; PS targetType; PS ")"]
  else if bool_decide (sourceType = TypeArray) then
    match fs_Items sourceSpec, fs_Items targetSpec with
    | None, _ => diag (sourceField ^^ ".items") "ARRAY_ITEMS_REQUIRED" SeverityError
                   [PS "Source array type must define items"]
    | Some _, None => diag (targetField ^^ ".items") "ARRAY_ITEMS_REQUIRED" SeverityError
                        [PS "Target array type must define items"]
    | Some s, Some t => validateCompatibility (sourceField ^^ "[]") s (targetField ^^ "[]") t
    end
  else if bool_decide (sourceType = TypeObject) then
    if bool_decide (size (fs_Properties sourceSpec) = 0) ||
       bool_decide (size (fs_Properties targetSpec) = 0) then []
    else
      mjoin (range_sorted (fs_Properties targetSpec) (λ propName targetProp,
        match fs_Properties sourceSpec !! propName with
        | None =>
            if fs_Required targetProp then
              [mkTD (targetField ^^ "." ^^ propName) sourceField (targetField ^^ "." ^^ propName)
                 sourceType (fs_Type targetProp) "OBJECT_PROPERTY_MISSING" SeverityError
                 [PS "Target requires property "; PQ propName;
                  PS " which is missing from source object"]]
            else []
        | Some sourceProp =>
            validateCompatibility (sourceField ^^ "." ^^ propName) sourceProp
              (targetField ^^ "." ^^ propName) targetProp
        end))
  else [].

Definition ValidateManifestTypes (manifest : ToolManifest) : list Diagnostic :=
  mjoin (range_sorted (mf_Actions manifest) (λ actionName action,
    mjoin (range_sorted (as_Inputs action) (λ inputName spec,
      validateFieldSpec ("actions." ^^ actionName ^^ ".inputs." ^^ inputName) spec)) ++
    mjoin (range_sorted (as_Outputs action) (λ outputName spec,
      validateFieldSpec ("actions." ^^ actionName ^^ ".outputs." ^^ outputName) spec)))) ++
  mjoin (range_sorted (mf_Config manifest) (λ configName spec,
    validateFieldSpec ("config." ^^ configName) spec)).

(** ** What the validators accept *)

(** Declared types are known, arrays declare their items, and so on inside. *)
Inductive well_typed (spec : FieldSpec) : Prop :=
| well_typed_intro :
    isValidV1Type (fs_Type spec) = true →
    (fs_Type spec = TypeArray → is_Some (fs_Items spec)) →
    (∀ items, fs_Type spec = TypeArray → fs_Items spec = Some items → well_typed items) →
    (∀ name prop, fs_Properties spec !! name = Some prop → well_typed prop) →
    well_typed spec.

Definition fields_typed (m : gmap string FieldSpec) : Prop :=
  ∀ name spec, m !! name = Some spec → well_typed spec.

Lemma fields_typed_empty : fields_typed ∅.
Proof. intros name spec Hs. by rewrite lookup_empty in Hs. Qed.

Definition action_typed (a : ActionSpec) : Prop :=
  fields_typed (as_Inputs a) ∧ fields_typed (as_Outputs a).

Definition manifest_typed (m : ToolManifest) : Prop :=
  (∀ name a, mf_Actions m !! name = Some a → action_typed a) ∧ fields_typed (mf_Config m).

(** Structural compatibility: [any] is compatible with everything, arrays by their
    items, objects by the properties the target declares unless one side is
    generic. *)
Inductive compatible (s t : FieldSpec) : Prop :=
| compatible_intro :
    isValidV1Type (fs_Type s) = true →
    isValidV1Type (fs_Type t) = true →
    (fs_Type s ≠ TypeAny → fs_Type t ≠ TypeAny →
       fs_Type s = fs_Type t ∧
       (fs_Type s = TypeArray → is_Some (fs_Items s) ∧ is_Some (fs_Items t))) →
    (∀ i j, fs_Type s = TypeArray → fs_Type t = TypeArray →
       fs_Items s = Some i → fs_Items t = Some j → compatible i j) →
    (∀ name q, fs_Type s = TypeObject → fs_Type t = TypeObject → fs_Properties s ≠ ∅ →
       fs_Properties t !! name = Some q → fs_Required q = true →
       is_Some (fs_Properties s !! name)) →
    (∀ name p q, fs_Type s = TypeObject → fs_Type t = TypeObject →
       fs_Properties s !! name = Some p → fs_Properties t !! name = Some q → compatible p q) →
    compatible s t.

(** *** Induction on the height of a declaration *)

Fixpoint height (spec : FieldSpec) : nat :=
  S (max (match fs_Items spec with Some items => height items | None => 0 end)
         (map_fold (λ _ p acc, max (height p) acc) 0 (fs_Properties spec))).

Lemma height_items spec items : fs_Items spec = Some items → height items < height spec.
Proof. destruct spec. simpl. intros ->. lia. Qed.

Lemma height_property spec name p : fs_Properties spec !! name = Some p → height p < height spec.
Proof.
  destruct spec as [ty re de df se it props]. simpl. intros Hp%elem_of_map_to_list.
  rewrite map_fold_foldr. assert (height p ≤ foldr (uncurry (λ _ p acc, max (height p) acc)) 0
    (map_to_list props)) as Hle; [|simpl in *; lia].
  induction (map_to_list props) as [|[k q] l IH]; [by apply not_elem_of_nil in Hp|].
  apply elem_of_cons in Hp as [[= <- <-]|Hp]; simpl; [lia|]. specialize (IH Hp). lia.
Qed.

Lemma FieldSpec_induct (P : FieldSpec → Prop) :
  (∀ spec, (∀ items, fs_Items spec = Some items → P items) →
     (∀ name p, fs_Properties spec !! name = Some p → P p) → P spec) →
  ∀ spec, P spec.
Proof.
  intros HP spec. remember (height spec) as h eqn:Hh. revert spec Hh.
  induction (lt_wf h) as [h _ IH]. intros spec ->. apply HP.
  - intros items Hi. eapply IH; [by eapply height_items|done].
  - intros name p Hp. eapply IH; [by eapply height_property|done].
Qed.

(** *** Equations of the validators *)

Lemma validateFieldSpec_eq path spec :
  validateFieldSpec path spec =
  if negb (isValidV1Type (fs_Type spec)) then
    [field_error (path ^^ ".type") "INVALID_TYPE"
       [PS "Unsupported type "; PQ (fs_Type spec);
        PS "; allowed: string, integer, float, boolean, bytes, array, object, any"]]
  else
    let properties :=
      mjoin (range_sorted (fs_Properties spec) (λ name prop,
        validateFieldSpec (path ^^ ".properties." ^^ name) prop)) in
    if bool_decide (fs_Type spec = TypeArray) then
      match fs_Items spec with
      | None => [field_error (path ^^ ".items") "REQUIRED_ITEMS"
                   [PS "items is required when type is array"]]
      | Some items => validateFieldSpec (path ^^ ".items") items ++ properties
      end
    else properties.
Proof. by destruct spec. Qed.

Lemma validateFieldSpec_nil path spec : validateFieldSpec path spec = [] ↔ well_typed spec.
Proof.
  revert path. induction spec as [spec IHi IHp] using FieldSpec_induct. intros path.
  rewrite validateFieldSpec_eq. destruct (isValidV1Type (fs_Type spec)) eqn:Hv; simpl.
  2: { split; [done|]. intros [Hw _ _ _]. congruence. }
  assert (mjoin (range_sorted (fs_Properties spec) (λ name prop,
      validateFieldSpec (path ^^ ".properties." ^^ name) prop)) = [] ↔
    ∀ name p, fs_Properties spec !! name = Some p → well_typed p) as Hprops.
  { rewrite join_range_sorted_nil. split; intros Hall name p Hp; by eapply IHp, Hall. }
  case_bool_decide as Ha.
  - destruct (fs_Items spec) as [items|] eqn:Hi.
    + split.
      * intros [H1 H2]%app_nil. split; [done|by rewrite Hi| |by apply Hprops].
        intros items' _ Hi'. rewrite Hi in Hi'. simplify_eq. by eapply IHi.
      * intros [_ _ Hit Hpr]. apply app_nil. split; [by apply IHi; auto|by apply Hprops].
    + split; [done|]. intros [_ Hs _ _]. destruct (Hs Ha) as [x Hx]. congruence.
  - rewrite Hprops. split; [intros Hp; by split|by intros [_ _ _ Hp]].
Qed.

Lemma ValidateManifestTypes_nil m : ValidateManifestTypes m = [] ↔ manifest_typed m.
Proof.
  unfold ValidateManifestTypes, manifest_typed, action_typed, fields_typed.
  rewrite app_nil, !join_range_sorted_nil. f_equiv.
  - split; intros Hall name a Ha.
    + apply Hall, app_nil in Ha as [H1 H2]. rewrite !join_range_sorted_nil in *.
      split; intros k spec Hk; eapply validateFieldSpec_nil; eauto.
    + apply app_nil. rewrite !join_range_sorted_nil.
      destruct (Hall name a Ha). split; intros k spec Hk; apply validateFieldSpec_nil; eauto.
  - split; intros Hall k spec Hk; [eapply validateFieldSpec_nil|apply validateFieldSpec_nil]; eauto.
Qed.

(** Every diagnostic of the type system is an error. *)
Lemma validateFieldSpec_errors path spec d : d ∈ validateFieldSpec path spec →
  td_Severity d = SeverityError.
Proof.
  revert path. induction spec as [spec IHi IHp] using FieldSpec_induct. intros path.
  rewrite validateFieldSpec_eq. destruct (negb _); [by intros ->%list_elem_of_singleton|].
  cbv zeta. assert (d ∈ mjoin (range_sorted (fs_Properties spec) (λ name prop,
      validateFieldSpec (path ^^ ".properties." ^^ name) prop)) → td_Severity d = SeverityError) as Hp.
  { intros (l & Hd & (k & p & Hk & ->)%elem_of_range_sorted)%list_elem_of_join. by eapply IHp. }
  case_bool_decide; [|done]. destruct (fs_Items spec) as [items|] eqn:Hi.
  - intros [Hd|Hd]%elem_of_app; [by eapply IHi|auto].
  - by intros ->%list_elem_of_singleton.
Qed.

(** *** Compatibility *)

Lemma hasValidationErrors_app l k :
  hasValidationErrors (l ++ k) = hasValidationErrors l || hasValidationErrors k.
Proof. apply existsb_app. Qed.

Lemma hasValidationErrors_join {A} (m : gmap string A) (f : string → A → list Diagnostic) :
  hasValidationErrors (mjoin (range_sorted m f)) = false ↔
  ∀ k x, m !! k = Some x → hasValidationErrors (f k x) = false.
Proof.
  assert (∀ ls : list (list Diagnostic), hasValidationErrors (mjoin ls) = false ↔
    ∀ l, l ∈ ls → hasValidationErrors l = false) as Hj.
  { induction ls as [|l ls IH]; simpl; [split; [by intros _ l Hl%not_elem_of_nil|done]|].
    rewrite hasValidationErrors_app, orb_false_iff, IH. set_solver. }
  rewrite Hj. split.
  - intros Hall k x Hx. apply Hall, elem_of_range_sorted. eauto.
  - intros Hall l (k & x & Hx & ->)%elem_of_range_sorted. by apply Hall.
Qed.

#[export] Hint Rewrite hasValidationErrors_app : petal_eqs.

(** The object case. *)
Definition property_diags (sf : string) (s : FieldSpec) (tf : string) (name : string) (q : FieldSpec)
  : list Diagnostic :=
  match fs_Properties s !! name with
  | None =>
      if fs_Required q then
        [mkTD (tf ^^ "." ^^ name) sf (tf ^^ "." ^^ name) (fs_Type s) (fs_Type q)
           "OBJECT_PROPERTY_MISSING" SeverityError
           [PS "Target requires property "; PQ name; PS " which is missing from source object"]]
      else []
  | Some p => validateCompatibility (sf ^^ "." ^^ name) p (tf ^^ "." ^^ name) q
  end.

Lemma validateCompatibility_eq sourceField sourceSpec targetField targetSpec :
  validateCompatibility sourceField sourceSpec targetField targetSpec =
  let sourceType := fs_Type sourceSpec in
  let targetType := fs_Type targetSpec in
  let diag field code severity message :=
    [mkTD field sourceField targetField sourceType targetType code severity message] in
  if negb (isValidV1Type sourceType) then
    diag (sourceField ^^ ".type") "INVALID_SOURCE_TYPE" SeverityError
      [PS "Source field has unsupported type "; PQ sourceType]
  else if negb (isValidV1Type targetType) then
    diag (targetField ^^ ".type") "INVALID_TARGET_TYPE" SeverityError
      [PS "Target field has unsupported type "; PQ targetType]
  else if bool_decide (sourceType = TypeAny) || bool_decide (targetType = TypeAny) then
    diag targetField "TYPE_ANY_BYPASS" SeverityWarning
      [PS "Type compatibility check bypassed because one side is typed as any"]
  else if bool_decide (sourceType ≠ targetType) then
    diag targetField "TYPE_MISMATCH" SeverityError
      [PS "Type mismatch: source "; PQ sourceField; PS " ("; PS sourceType;
       PS ") is not compatible with target "; PQ targetField; PS " ("; PS targetType; PS ")"]
  else if bool_decide (sourceType = TypeArray) then
    match fs_Items sourceSpec, fs_Items targetSpec with
    | None, _ => diag (sourceField ^^ ".items") "ARRAY_ITEMS_REQUIRED" SeverityError
                   [PS "Source array type must define items"]
    | Some _, None => diag (targetField ^^ ".items") "ARRAY_ITEMS_REQUIRED" SeverityError
                        [PS "Target array type must define items"]
    | Some s, Some t => validateCompatibility (sourceField ^^ "[]") s (targetField ^^ "[]") t
    end
  else if bool_decide (sourceType = TypeObject) then
    if bool_decide (size (fs_Properties sourceSpec) = 0) ||
       bool_decide (size (fs_Properties targetSpec) = 0) then []
    else
      mjoin (range_sorted (fs_Properties targetSpec) (λ propName targetProp,
        match fs_Properties sourceSpec !! propName with
        | None =>
            if fs_Required targetProp then
              [mkTD (targetField ^^ "." ^^ propName) sourceField (targetField ^^ "." ^^ propName)
                 sourceType (fs_Type targetProp) "OBJECT_PROPERTY_MISSING" SeverityError
                 [PS "Target requires property "; PQ propName;
                  PS " which is missing from source object"]]
            else []
        | Some sourceProp =>
            validateCompatibility (sourceField ^^ "." ^^ propName) sourceProp
              (targetField ^^ "." ^^ propName) targetProp
        end))
  else [].
Proof. by destruct targetSpec. Qed.

(** No error: the checks before the recursive cases pass, and the recursive case of
    the common type does. *)
Lemma validateCompatibility_cases sf s tf t :
  hasValidationErrors (validateCompatibility sf s tf t) = false ↔
  isValidV1Type (fs_Type s) = true ∧ isValidV1Type (fs_Type t) = true ∧
  (fs_Type s ≠ TypeAny → fs_Type t ≠ TypeAny →
     fs_Type s = fs_Type t ∧
     (fs_Type s = TypeArray → ∃ i j, fs_Items s = Some i ∧ fs_Items t = Some j ∧
        hasValidationErrors (validateCompatibility (sf ^^ "[]") i (tf ^^ "[]") j) = false) ∧
     (fs_Type s = TypeObject → fs_Properties s ≠ ∅ → ∀ name q, fs_Properties t !! name = Some q →
        hasValidationErrors (property_diags sf s tf name q) = false)).
Proof.
  rewrite validateCompatibility_eq. cbv beta iota zeta.
  destruct (isValidV1Type (fs_Type s)) eqn:Hs; cbn [negb]; [|split; [done|by intros [? _]]].
  destruct (isValidV1Type (fs_Type t)) eqn:Ht; cbn [negb]; [|split; [done|by intros (_ & ? & _)]].
  case_bool_decide as H1; cbn [orb]; [split; [intros _; split; [done|]; split; [done|]; by intros ? ?|done]|].
  case_bool_decide as H2; [split; [intros _; split; [done|]; split; [done|]; by intros ? ?|done]|].
  case_bool_decide as H3; [split; [done|]; intros (_ & _ & Hx); destruct (Hx H1 H2); congruence|].
  case_bool_decide as H4.
  - assert (fs_Type s ≠ TypeObject) as Hno by (rewrite H4; done).
    destruct (fs_Items s) as [i|], (fs_Items t) as [j|]; simpl; naive_solver.
  - case_bool_decide as H5; simpl; [|naive_solver].
    destruct (decide (fs_Properties s = ∅)) as [Hps|Hps].
    { rewrite Hps, map_size_empty, bool_decide_true by done. naive_solver. }
    rewrite (bool_decide_false (size (fs_Properties s) = 0)) by (by rewrite map_size_empty_iff). simpl.
    destruct (decide (fs_Properties t = ∅)) as [Hpt|Hpt].
    { rewrite Hpt, map_size_empty, bool_decide_true by done. naive_solver. }
    rewrite (bool_decide_false (size (fs_Properties t) = 0)) by (by rewrite map_size_empty_iff).
    rewrite hasValidationErrors_join. fold (property_diags sf s tf). naive_solver.
Qed.

Lemma compatible_spec sf s tf t :
  hasValidationErrors (validateCompatibility sf s tf t) = false ↔ compatible s t.
Proof.
  revert sf s tf. induction t as [t IHi IHp] using FieldSpec_induct. intros sf s tf.
  rewrite validateCompatibility_cases. split.
  - intros (Hs & Ht & Hrest).
    assert (∀ ty, ty ≠ TypeAny → fs_Type s = ty → fs_Type t = ty →
      fs_Type s ≠ TypeAny ∧ fs_Type t ≠ TypeAny) as Hne by (intros ty ? -> ->; auto).
    split; [done|done| | | |].
    + intros H1 H2. destruct (Hrest H1 H2) as (He & Ha & _). split; [done|].
      intros (i & j & -> & -> & _)%Ha. eauto.
    + intros i j Has Hat Hi Hj. destruct (Hne TypeArray) as [H1 H2]; [done..|].
      destruct (Hrest H1 H2) as (_ & Ha & _). destruct (Ha Has) as (i' & j' & Hi' & Hj' & Hc).
      simplify_eq. by eapply IHi.
    + intros name q Hos Hot Hps Hq Hr. destruct (Hne TypeObject) as [H1 H2]; [done..|].
      destruct (Hrest H1 H2) as (_ & _ & Ho). specialize (Ho Hos Hps name q Hq).
      unfold property_diags in Ho. destruct (fs_Properties s !! name); [eauto|]. by rewrite Hr in Ho.
    + intros name p q Hos Hot Hp Hq. destruct (Hne TypeObject) as [H1 H2]; [done..|].
      destruct (Hrest H1 H2) as (_ & _ & Ho).
      assert (fs_Properties s ≠ ∅) as Hps by (intros Hx; by rewrite Hx, lookup_empty in Hp).
      specialize (Ho Hos Hps name q Hq). unfold property_diags in Ho. rewrite Hp in Ho. by eapply IHp.
  - intros [Hs Ht Hty Harr Hreq Hprop]. split; [done|]. split; [done|]. intros H1 H2.
    destruct (Hty H1 H2) as [He Hit]. split; [done|]. split.
    + intros Ha. destruct (Hit Ha) as [[i Hi] [j Hj]]. exists i, j. split; [done|]. split; [done|].
      apply (IHi j Hj). apply Harr; [done|congruence|done..].
    + intros Ho Hps name q Hq. unfold property_diags.
      destruct (fs_Properties s !! name) as [p|] eqn:Hp.
      * apply (IHp name q Hq). eapply Hprop; eauto. congruence.
      * destruct (fs_Required q) eqn:Hr; [|done].
        destruct (Hreq name q) as [x Hx]; try done; congruence.
Qed.

(** A well-typed declaration is compatible with itself. *)
Lemma compatible_refl s : well_typed s → compatible s s.
Proof.
  induction s as [s IHi IHp] using FieldSpec_induct. intros [Hv Ha Hi Hp].
  apply compatible_intro; [exact Hv|exact Hv| | | |].
  - intros _ _. split; [reflexivity|]. intros Harr. split; exact (Ha Harr).
  - intros i j Hs _ Hi1 Hi2. rewrite Hi1 in Hi2. injection Hi2 as <-.
    exact (IHi i Hi1 (Hi i Hs Hi1)).
  - intros name q _ _ _ Hq _. by exists q.
  - intros name p q _ _ Hp1 Hp2. rewrite Hp1 in Hp2. injection Hp2 as <-.
    exact (IHp name p Hp1 (Hp name p Hp1)).
Qed.
