(* ===== verification/ToolDiscovery.v ===== *)
(** * Manifests of discovered tools (tool/mcp_discovery.go)

    The tools an MCP server lists become the actions of a manifest: their names
    are made into identifiers and the JSON schemas of their inputs into field
    declarations. The exchange with the server is a parameter. *)

From stdpp Require Import gmap strings list fin_maps sorting.
From Stdlib Require Import Ascii ZArith Lia.
From S2P Require Import Prelude Values Unicode Schema Template ToolManifest.

(** ** Data *)

(** A tool as the server lists it ([mcp.Tool]). *)
Record MCPTool := mkMCPTool {
  mt_Name : string;
  mt_Description : string;
  mt_InputSchema : gmap string value
}.

(** What connecting, initialising and listing return. *)
Record mcp_session := mkSession {
  se_connect : option error;
  se_initialize : option error;
  se_list : list MCPTool + error
}.

(** ** Names *)

Definition word_rune (r : Z) : bool :=
  in_range 97 122 r || in_range 65 90 r || in_range 48 57 r || (r =? 95)%Z.

(** The loop over the runes: [i] is the byte offset, [b] the builder. *)
Fixpoint sanitize_loop (ps : list (Z * string)) (i : nat) (b : list ascii) : list ascii :=
  match ps with
  | [] => b
  | (r, p) :: ps' =>
      let b' :=
        if word_rune r then b ++ String.list_ascii_of_string p
        else if bool_decide (i = 0) || bool_decide (length b = 0) ||
                bool_decide (last b = Some "_"%char) then b
        else b ++ ["_"%char] in
      sanitize_loop ps' (i + String.length p) b'
  end.

Section Discovery.
Context `{LowerTables}.

Definition sanitizeMCPActionName (name : string) : string :=
  let trimmed := TrimSpace name in
  if bool_decide (trimmed = EmptyString) then "action"
  else
    let b := sanitize_loop (pieces (String.length trimmed) trimmed) 0 [] in
    match ToLower (TrimByte "_"%char (String.string_of_list_ascii b)) with
    | EmptyString => "action"
    | String c _ as out => if is_digit_byte c then "a_" ^^ out else out
    end.

(** ** JSON schemas *)

Definition mapJSONSchemaType (jsonType : string) : string :=
  let t := ToLower (TrimSpace jsonType) in
  if bool_decide (t = "string") then TypeString
  else if bool_decide (t = "integer") then TypeInteger
  else if bool_decide (t = "number") then TypeFloat
  else if bool_decide (t = "boolean") then TypeBoolean
  else if bool_decide (t = "array") then TypeArray
  else if bool_decide (t = "object") then TypeObject
  else TypeAny.

(** [v.(map[string]any)], nil when the assertion fails. *)
Definition as_map (v : option value) : option (gmap string value) :=
  match v with Some (VMap m) => Some m | _ => None end.

(** The first alternative that is not [null]. *)
Fixpoint first_type (alternatives : list value) : string :=
  match alternatives with
  | [] => TypeAny
  | v :: rest =>
      let typeName := string_or_empty (Some v) in
      if EqualFold typeName "null" then first_type rest else mapJSONSchemaType typeName
  end.

Definition schema_type (schema : gmap string value) : string :=
  match schema !! "type" with
  | Some (VString fieldType) => mapJSONSchemaType fieldType
  | Some (VSlice typeArray) => first_type typeArray
  | _ => TypeAny
  end.

Definition any_spec : FieldSpec := mkField TypeAny false "" VNil false None ∅.

(** [None] is the nil schema; the fuel bounds the nesting, see [schema_fuel]. *)
Fixpoint jsonSchemaToFieldSpec (fuel : nat) (schema : option (gmap string value)) : FieldSpec :=
  match fuel, schema with
  | S fuel', Some m =>
      let ty := schema_type m in
      mkField ty false (string_or_empty (m !! "description")) (default VNil (m !! "default")) false
        (if bool_decide (ty = TypeArray) then
           Some (match as_map (m !! "items") with
                 | Some itemSchema => jsonSchemaToFieldSpec fuel' (Some itemSchema)
                 | None => any_spec
                 end)
         else None)
        (if bool_decide (ty = TypeObject) then
           match as_map (m !! "properties") with
           | Some props => (λ v, jsonSchemaToFieldSpec fuel' (as_map (Some v))) <$> props
           | None => ∅
           end
         else ∅)
  | _, _ => any_spec
  end.

Definition set_Required (r : bool) (spec : FieldSpec) : FieldSpec :=
  mkField (fs_Type spec) r (fs_Description spec) (fs_Default spec) (fs_Sensitive spec)
    (fs_Items spec) (fs_Properties spec).

Definition required_set (schema : gmap string value) : gset string :=
  match schema !! "required" with
  | Some (VSlice l) => list_to_set (omap as_string l)
  | _ => ∅
  end.

Definition mapInputSchema (schema : gmap string value) : gmap string FieldSpec :=
  if bool_decide (size schema = 0) then ∅
  else
    match as_map (schema !! "properties") with
    | None => ∅
    | Some propertiesRaw =>
        map_imap (λ key v,
          Some (set_Required (bool_decide (key ∈ required_set schema))
                  (jsonSchemaToFieldSpec (depth v) (as_map (Some v))))) propertiesRaw
    end.

(** ** Discovery *)

Definition discovered_action (t : MCPTool) : ActionSpec :=
  mkAction (mt_Name t) (TrimSpace (mt_Description t)) (mapInputSchema (mt_InputSchema t)) ∅ None false.

(** Later tools replace earlier ones with the same action name. *)
Definition discovered_actions (tools : list MCPTool) : gmap string ActionSpec :=
  foldl (λ m t, <[sanitizeMCPActionName (mt_Name t) := discovered_action t]> m) ∅ tools.

Definition set_Transport (t : TransportSpec) (m : ToolManifest) : ToolManifest :=
  mkManifest (mf_Schema m) (mf_ManifestVersion m) (mf_Tool m) t (mf_Actions m) (mf_Config m) (mf_Health m).
Definition set_Actions (a : gmap string ActionSpec) (m : ToolManifest) : ToolManifest :=
  mkManifest (mf_Schema m) (mf_ManifestVersion m) (mf_Tool m) (mf_Transport m) a (mf_Config m) (mf_Health m).

(** Without the overlay. *)
Definition discovered_manifest (name : string) (transport : MCPTransport) (tools : list MCPTool)
  : ToolManifest :=
  set_Actions (discovered_actions tools) (set_Transport (NewMCPTransport transport) (NewManifest name)).

Definition discover (name : string) (transport : MCPTransport) (s : mcp_session)
  : ToolManifest + error :=
  if bool_decide (TrimSpace name = EmptyString) then
    inr (EFmt [PS "tool: mcp discovery requires registration name"])
  else match se_connect s with
       | Some err => inr err
       | None =>
           match se_initialize s with
           | Some err => inr (EFmt [PS "tool: mcp initialize failed: "; PW err])
           | None =>
               match se_list s with
               | inr err => inr (EFmt [PS "tool: mcp tools/list failed: "; PW err])
               | inl tools => inl (discovered_manifest name transport tools)
               end
           end
       end.

(** ** Enough fuel *)

(** More fuel than the nesting of the schema changes nothing. *)
Lemma schema_fuel m f1 f2 :
  depth (VMap m) ≤ f1 → depth (VMap m) ≤ f2 →
  jsonSchemaToFieldSpec f1 (Some m) = jsonSchemaToFieldSpec f2 (Some m).
Proof.
  revert m f2. induction f1 as [|f1 IH]; intros m f2 H1 H2; [simpl in H1; lia|].
  destruct f2 as [|f2]; [simpl in H2; lia|].
  assert (∀ k v, m !! k = Some v → depth v ≤ f1 ∧ depth v ≤ f2) as Hk.
  { intros k v Hv. pose proof (depth_lookup m k v Hv). lia. }
  cbn [jsonSchemaToFieldSpec]. f_equal.
  - case_bool_decide; [|done]. f_equal. destruct (m !! "items") as [v|] eqn:Hi; [|done].
    destruct (Hk _ _ Hi). destruct v; try done. simpl as_map. by apply IH.
  - case_bool_decide; [|done]. destruct (m !! "properties") as [v|] eqn:Hi; [|done].
    destruct (Hk _ _ Hi) as [Hd1 Hd2]. destruct v as [| | | | | | | | | | |props| | |]; try done. simpl as_map.
    apply map_fmap_ext. intros k v Hv. pose proof (depth_lookup props k v Hv) as Hlt.
    destruct v; try (by destruct f1, f2). simpl as_map. apply IH; lia.
Qed.

(** ** Discovered manifests are well typed *)

Lemma mapJSONSchemaType_valid t : isValidV1Type (mapJSONSchemaType t) = true.
Proof. unfold mapJSONSchemaType. by repeat case_bool_decide. Qed.

Lemma schema_type_valid m : isValidV1Type (schema_type m) = true.
Proof.
  unfold schema_type. destruct (m !! "type") as [[]|]; try done; [apply mapJSONSchemaType_valid|].
  induction l as [|v l IH]; [done|]. cbn [first_type]. case_match; [done|apply mapJSONSchemaType_valid].
Qed.

Lemma any_spec_typed : well_typed any_spec.
Proof. split; [done|done|done|]. intros name p Hp. simpl in Hp. by rewrite lookup_empty in Hp. Qed.

Lemma jsonSchemaToFieldSpec_typed fuel schema : well_typed (jsonSchemaToFieldSpec fuel schema).
Proof.
  revert schema. induction fuel as [|fuel IH]; intros [m|]; try exact any_spec_typed.
  cbn [jsonSchemaToFieldSpec].
  split; cbn [fs_Type fs_Items fs_Properties].
  - apply schema_type_valid.
  - intros ->. by eexists.
  - intros items -> [= <-]. destruct (as_map _); [apply IH|apply any_spec_typed].
  - intros name p. case_bool_decide; [|by rewrite lookup_empty].
    destruct (as_map (m !! "properties")); [|by rewrite lookup_empty].
    rewrite lookup_fmap. intros (v & _ & ->)%fmap_Some. apply IH.
Qed.

Lemma set_Required_typed r spec : well_typed spec → well_typed (set_Required r spec).
Proof. intros [Hv Ha Hi Hp]. by split. Qed.

Lemma mapInputSchema_typed schema : fields_typed (mapInputSchema schema).
Proof.
  intros name spec. unfold mapInputSchema. case_bool_decide; [by rewrite lookup_empty|].
  destruct (as_map _); [|by rewrite lookup_empty]. rewrite map_lookup_imap.
  intros (v & _ & [= <-])%bind_Some. apply set_Required_typed, jsonSchemaToFieldSpec_typed.
Qed.

(** The actions are those of the last tool with each name. *)
Lemma discovered_actions_lookup tools name a :
  discovered_actions tools !! name = Some a →
  ∃ t, t ∈ tools ∧ sanitizeMCPActionName (mt_Name t) = name ∧ a = discovered_action t.
Proof.
  unfold discovered_actions. induction tools as [|t tools IH] using rev_ind; [simpl; by rewrite lookup_empty|].
  rewrite foldl_snoc. intros [[<- <-]|[_ (t' & Ht' & Hx)%IH]]%lookup_insert_Some.
  - exists t. rewrite elem_of_app, list_elem_of_singleton. auto.
  - exists t'. rewrite elem_of_app. auto.
Qed.

Lemma discovered_manifest_typed name transport tools :
  manifest_typed (discovered_manifest name transport tools).
Proof.
  split; simpl.
  - intros n a (t & _ & _ & ->)%discovered_actions_lookup.
    split; [apply mapInputSchema_typed|apply fields_typed_empty].
  - apply fields_typed_empty.
Qed.

(** ** Action names are identifiers *)

Definition slug_byte (c : ascii) : bool :=
  is_lower_byte c || is_digit_byte c || bool_decide (c = "_"%char).

(** [[a-z][a-z0-9_]*]. *)
Definition slug (s : string) : Prop :=
  ∃ c t, s = String c t ∧ is_lower_byte c = true ∧ all_bytes slug_byte t = true.

(** Only a byte below 128 decodes to a rune below 128. *)
Lemma DecodeRune_below c s : ((DecodeRune (String c s)).1 < 128)%Z →
  DecodeRune (String c s) = (byte_val c, 1).
Proof.
  unfold DecodeRune, second_lo, in_range, RuneError.
  repeat (case_match; simpl); bool_simp; try lia; intros; try done; bool_simp; try lia.
Qed.

(** Facts about single bytes, by enumeration. *)
Ltac all_ascii c := destruct c as [[] [] [] [] [] [] [] []]; vm_compute; try done; auto.

Lemma word_rune_byte c : word_rune (byte_val c) = word_byte c.
Proof. all_ascii c. Qed.

Lemma word_rune_ascii r : word_rune r = true → (r < 128)%Z.
Proof.
  unfold word_rune, in_range. intros Hr. repeat (apply orb_prop in Hr as [Hr|Hr]); bool_simp; lia.
Qed.

Lemma word_byte_lower c : word_byte c = true →
  slug_byte (lower_byte c) = true ∧ (byte_val c <? 128)%Z = true ∧
  (c ≠ "_"%char → is_lower_byte (lower_byte c) = true ∨ is_digit_byte (lower_byte c) = true).
Proof. all_ascii c. Qed.

Lemma sanitize_loop_word fuel s i b :
  Forall (λ c, word_byte c = true) b →
  Forall (λ c, word_byte c = true) (sanitize_loop (pieces fuel s) i b).
Proof.
  revert s i b. induction fuel as [|fuel IH]; intros s i b Hb; [done|].
  destruct s as [|c s]; [done|]. cbn [pieces].
  pose proof (DecodeRune_below c s) as Hd. destruct (DecodeRune (String c s)) as [r w].
  cbn [sanitize_loop]. apply IH. destruct (word_rune r) eqn:Hr.
  - destruct (word_rune_ascii r Hr). rewrite Forall_app. split; [done|].
    specialize (Hd (word_rune_ascii r Hr)). simplify_eq. simpl.
    rewrite word_rune_byte in Hr. by constructor.
  - case_match; [done|]. apply Forall_app. split; [done|]. by constructor.
Qed.

Lemma trim_left_byte_spec c p s : all_bytes p s = true →
  all_bytes p (trim_left_byte c s) = true ∧ ∀ d t, trim_left_byte c s = String d t → d ≠ c.
Proof.
  rewrite !all_bytes_Forall. induction s as [|d s IH]; simpl; [done|].
  intros [Hd Hs]%Forall_cons. case_decide as Hdc; [by apply IH|]. split; [by constructor|].
  by intros d' t [= <- <-].
Qed.

Lemma trim_right_byte_spec c p s : all_bytes p s = true →
  all_bytes p (trim_right_byte c s) = true ∧
  ∀ d t, trim_right_byte c s = String d t → ∃ t', s = String d t'.
Proof.
  rewrite !all_bytes_Forall. induction s as [|d s IH]; simpl; [done|].
  intros [Hd Hs]%Forall_cons. destruct (IH Hs) as [Hall _]. split.
  - destruct (trim_right_byte c s) as [|e u]; [case_decide; repeat constructor; done|]. by constructor.
  - intros d' t. destruct (trim_right_byte c s) as [|e u]; [case_decide|]; intros [= <- <-]; eauto.
Qed.

Lemma map_bytes_all p q f s : (∀ c, p c = true → q (f c) = true) →
  all_bytes p s = true → all_bytes q (map_bytes f s) = true.
Proof.
  intros Hf. rewrite !all_bytes_Forall. induction s as [|c s IH]; simpl; [done|].
  intros [Hc Hs]%Forall_cons. constructor; auto.
Qed.

(** Every discovered action has an identifier as its name. *)
Lemma sanitizeMCPActionName_slug name : slug (sanitizeMCPActionName name).
Proof.
  unfold sanitizeMCPActionName. set (trimmed := TrimSpace name).
  case_bool_decide; [by exists "a"%char, "ction"|].
  set (s := String.string_of_list_ascii _).
  assert (all_bytes word_byte s = true) as Hs.
  { apply all_bytes_Forall. unfold s. rewrite String.list_ascii_of_string_of_list_ascii.
    by apply sanitize_loop_word. }
  destruct (trim_left_byte_spec "_"%char _ s Hs) as [Hl Hhead].
  destruct (trim_right_byte_spec "_"%char _ _ Hl) as [Hr Hkeep].
  unfold TrimByte. set (t := trim_right_byte "_"%char (trim_left_byte "_"%char s)) in *.
  unfold ToLower. rewrite (proj2 (all_bytes_Forall _ t)).
  2: { apply all_bytes_Forall in Hr. eapply Forall_impl; [exact Hr|]. intros c Hc.
       by apply word_byte_lower in Hc as (_ & ? & _). }
  destruct t as [|c t]; [by exists "a"%char, "ction"|]. cbn [map_bytes].
  apply all_bytes_Forall in Hr. apply Forall_cons in Hr as [Hc Ht].
  apply all_bytes_Forall in Ht.
  assert (c ≠ "_"%char) as Hne by (destruct (Hkeep c t eq_refl) as [t' Ht']; by eapply Hhead).
  destruct (word_byte_lower c Hc) as (Hslug & _ & Hfirst). specialize (Hfirst Hne).
  assert (all_bytes slug_byte (map_bytes lower_byte t) = true) as Hrest.
  { eapply map_bytes_all; [|exact Ht]. intros d Hd. by apply word_byte_lower in Hd as (? & _). }
  destruct (is_digit_byte (lower_byte c)) eqn:Hdig.
  - exists "a"%char, ("_" ^^ String (lower_byte c) (map_bytes lower_byte t)).
    split; [done|]. split; [done|]. apply all_bytes_Forall. simpl.
    constructor; [done|]. constructor; [done|]. by apply all_bytes_Forall.
  - destruct Hfirst as [Hlow|]; [|congruence]. eexists _, _. split; [done|]. by split.
Qed.
End Discovery.
