(* ===== verification/ToolSchema.v ===== *)
(** * The manifest schema (tool/manifest_schema.go)

    The hand-written validator of manifest documents, on decoded JSON, and the
    document a manifest is written as. Strings are taken to be valid UTF-8, on
    which encoding and decoding JSON is the identity; a number is represented by
    the results of its conversions ([json.Number]). *)

From stdpp Require Import gmap strings list fin_maps sorting pretty.
From Stdlib Require Import ZArith Lia.
From S2P Require Import Prelude Values Unicode ToolManifest.

(** ** Documents *)

(** [JNum i f]: [i] is the result of [Int64()], [f] that of [ParseFloat]. *)
Inductive json :=
| JNull
| JBool (b : bool)
| JNum (i : option Z) (f : option F64.t)
| JStr (s : string)
| JArr (l : list json)
| JObj (m : gmap string json).

Notation object := (gmap string json).

Definition as_object (j : option json) : option object :=
  match j with Some (JObj m) => Some m | _ => None end.
Definition as_str (j : json) : option string := match j with JStr s => Some s | _ => None end.
Definition as_bool (j : json) : option bool := match j with JBool b => Some b | _ => None end.
Definition as_arr (j : json) : option (list json) := match j with JArr l => Some l | _ => None end.

(** Only numbers occur in a document; the other numeric types of the switch do not. *)
Definition asInteger (j : json) : option Z :=
  match j with
  | JNum (Some i) _ => Some i
  | JNum None (Some f) =>
      if F64.eqb f (F64.of_Z (F64.to_int f)) then Some (F64.to_int f) else None
  | _ => None
  end.

Definition asNonNegativeInt (j : json) : option Z :=
  match asInteger j with
  | Some i => if (i <? 0)%Z then None else Some i
  | None => None
  end.

(** The nesting of a document. *)
Fixpoint jdepth (j : json) : nat :=
  match j with
  | JObj m => S (map_fold (λ _ x acc, max (jdepth x) acc) 0 m)
  | JArr l => S (foldr (λ x acc, max (jdepth x) acc) 0 l)
  | _ => 0
  end.

(** ** The validator *)

Definition add (field code message : string) : list Diagnostic :=
  [field_error field code [PS message]].

Definition requireObject (obj : object) (key path : string) : list Diagnostic * option object :=
  match obj !! key with
  | None => (add path "REQUIRED" "is required", None)
  | Some (JObj next) => ([], Some next)
  | Some _ => (add path "TYPE" "must be an object", None)
  end.

Definition requireString (obj : object) (key path : string) : list Diagnostic * option string :=
  match obj !! key with
  | None => (add path "REQUIRED" "is required", None)
  | Some (JStr s) => ([], Some s)
  | Some _ => (add path "TYPE" "must be a string", None)
  end.

(** A field that may be missing, with the test of its value. *)
Definition optional (obj : object) (key path message : string) (ok : json → bool) : list Diagnostic :=
  match obj !! key with
  | None => []
  | Some v => if ok v then [] else add path "TYPE" message
  end.

Definition is_str (j : json) : bool := match j with JStr _ => true | _ => false end.
Definition is_bool (j : json) : bool := match j with JBool _ => true | _ => false end.
Definition is_count (j : json) : bool := bool_decide (is_Some (asNonNegativeInt j)).

Definition optionalString (obj : object) (key path : string) : list Diagnostic :=
  optional obj key path "must be a string" is_str.
Definition optionalBool (obj : object) (key path : string) : list Diagnostic :=
  optional obj key path "must be a boolean" is_bool.
Definition optionalCount (obj : object) (key path : string) : list Diagnostic :=
  optional obj key path "must be a non-negative integer" is_count.

Definition blank_text (s : string) : bool := bool_decide (TrimSpace s = EmptyString).

(** A required string that must not be blank. *)
Definition requireText (obj : object) (key path message : string) : list Diagnostic :=
  let '(ds, s) := requireString obj key path in
  ds ++ match s with
        | Some s => if blank_text s then add path "MIN_LENGTH" message else []
        | None => []
        end.

(** The elements of an array, with their indices. *)
Definition each (path : string) (l : list json) (message : string) (ok : json → bool)
  : list Diagnostic :=
  mjoin (imap (λ i x, if ok x then [] else add (path ^^ "[" ^^ pretty i ^^ "]") "TYPE" message) l).

Section Validator.
Context `{RangeOrder}.

Definition validateTool (toolObj : object) : list Diagnostic :=
  requireText toolObj "name" "tool.name" "must not be empty" ++
  optionalString toolObj "version" "tool.version" ++
  optionalString toolObj "description" "tool.description" ++
  optionalString toolObj "author" "tool.author" ++
  optionalString toolObj "license" "tool.license" ++
  optionalString toolObj "homepage" "tool.homepage" ++
  match toolObj !! "tags" with
  | None => []
  | Some (JArr tags) => each "tool.tags" tags "must be a string" is_str
  | Some _ => add "tool.tags" "TYPE" "must be an array of strings"
  end.

Definition validateRetry (obj : object) (path : string) : list Diagnostic :=
  optionalCount obj "max_attempts" (path ^^ ".max_attempts") ++
  optionalCount obj "backoff_ms" (path ^^ ".backoff_ms") ++
  match obj !! "retryable_codes" with
  | None => []
  | Some (JArr codes) =>
      each (path ^^ ".retryable_codes") codes "must be an integer"
        (λ j, bool_decide (is_Some (asInteger j)))
  | Some _ => add (path ^^ ".retryable_codes") "TYPE" "must be an array of integers"
  end.

Definition validateTransportArgs (obj : object) : list Diagnostic :=
  match obj !! "args" with
  | None => []
  | Some (JArr args) => each "transport.args" args "must be a string" is_str
  | Some _ => add "transport.args" "TYPE" "must be an array of strings"
  end.

Definition validateTransportEnv (obj : object) : list Diagnostic :=
  match obj !! "env" with
  | None => []
  | Some (JObj env) =>
      range_over "transport.env" env (λ key v,
        if is_str v then [] else add ("transport.env." ^^ key) "TYPE" "must be a string")
  | Some _ => add "transport.env" "TYPE" "must be an object of string values"
  end.

Definition validateTransportRetry (obj : object) : list Diagnostic :=
  match obj !! "retry" with
  | None => []
  | Some (JObj retry) => validateRetry retry "transport.retry"
  | Some _ => add "transport.retry" "TYPE" "must be an object"
  end.

(** The second test of the timeout is never reached: a negative one is not a count. *)
Definition validateTransportCommonFields (obj : object) : list Diagnostic :=
  optionalCount obj "timeout_ms" "transport.timeout_ms" ++
  optionalString obj "endpoint" "transport.endpoint" ++
  optionalString obj "command" "transport.command" ++
  validateTransportArgs obj ++ validateTransportEnv obj ++ validateTransportRetry obj.

Definition validateTransportType (transportType : string) : list Diagnostic :=
  if bool_decide (transportType ∈
       [TransportTypeNative; TransportTypeHTTP; TransportTypeStdio; TransportTypeMCP]) then []
  else add "transport.type" "ENUM" "must be one of: native, http, stdio, mcp".

Definition validateHTTPTransport (obj : object) : list Diagnostic :=
  requireText obj "endpoint" "transport.endpoint" "must not be empty for http transport".
Definition validateStdioTransport (obj : object) : list Diagnostic :=
  requireText obj "command" "transport.command" "must not be empty for stdio transport".

Definition validateMCPTransport (obj : object) : list Diagnostic :=
  let '(ds, mode) := requireString obj "mode" "transport.mode" in
  ds ++ match mode with
        | None => []
        | Some mode =>
            if bool_decide (mode = MCPModeStdio) then
              requireText obj "command" "transport.command" "must not be empty for mcp stdio mode"
            else if bool_decide (mode = MCPModeSSE) then
              requireText obj "endpoint" "transport.endpoint" "must not be empty for mcp sse mode"
            else add "transport.mode" "ENUM" "must be one of: stdio, sse"
        end.

Definition validateTransportTypeSpecificFields (transportType : string) (obj : object)
  : list Diagnostic :=
  if bool_decide (transportType = TransportTypeNative) then []
  else if bool_decide (transportType = TransportTypeHTTP) then validateHTTPTransport obj
  else if bool_decide (transportType = TransportTypeStdio) then validateStdioTransport obj
  else if bool_decide (transportType = TransportTypeMCP) then validateMCPTransport obj
  else [].

Definition validateTransport (obj : object) : list Diagnostic :=
  let '(ds, transportType) := requireString obj "type" "transport.type" in
  ds ++ match transportType with
        | None => []
        | Some t =>
            validateTransportType t ++ validateTransportCommonFields obj ++
            validateTransportTypeSpecificFields t obj
        end.

(** [validateFieldSpec] and [validateFieldMap]; the fuel bounds the nesting. *)
Fixpoint schemaFieldSpec (fuel : nat) (spec : object) (path : string) : list Diagnostic :=
  match fuel with
  | 0 => []
  | S fuel' =>
      let '(ds, fieldType) := requireString spec "type" (path ^^ ".type") in
      ds ++
      match fieldType with
      | None => []
      | Some fieldType =>
          (if isValidV1Type fieldType then []
           else add (path ^^ ".type") "ENUM"
                  "must be one of: string, integer, float, boolean, bytes, array, object, any") ++
          optionalBool spec "required" (path ^^ ".required") ++
          optionalString spec "description" (path ^^ ".description") ++
          optionalBool spec "sensitive" (path ^^ ".sensitive") ++
          match spec !! "items" with
          | None => []
          | Some (JObj itemObj) => schemaFieldSpec fuel' itemObj (path ^^ ".items")
          | Some _ => add (path ^^ ".items") "TYPE" "must be an object"
          end ++
          (if bool_decide (fieldType = TypeArray) && bool_decide (spec !! "items" = None)
           then add (path ^^ ".items") "REQUIRED" "is required when type is array" else []) ++
          match spec !! "properties" with
          | None => []
          | Some (JObj propsObj) =>
              range_over (path ^^ ".properties") propsObj (λ key rawSpec,
                match rawSpec with
                | JObj specObj => schemaFieldSpec fuel' specObj (path ^^ ".properties." ^^ key)
                | _ => add (path ^^ ".properties." ^^ key) "TYPE" "must be an object"
                end)
          | Some _ => add (path ^^ ".properties") "TYPE" "must be an object"
          end
      end
  end.

Definition validateFieldMap (fields : object) (path : string) : list Diagnostic :=
  range_over path fields (λ key rawSpec,
    match rawSpec with
    | JObj specObj => schemaFieldSpec (jdepth rawSpec) specObj (path ^^ "." ^^ key)
    | _ => add (path ^^ "." ^^ key) "TYPE" "must be an object"
    end).

Definition fields_of (obj : object) (key path : string) : list Diagnostic :=
  match obj !! key with
  | None => []
  | Some (JObj fields) => validateFieldMap fields path
  | Some _ => add path "TYPE" "must be an object"
  end.

Definition validateAction (action : object) (path : string) : list Diagnostic :=
  optionalString action "description" (path ^^ ".description") ++
  optionalBool action "idempotent" (path ^^ ".idempotent") ++
  fields_of action "inputs" (path ^^ ".inputs") ++
  fields_of action "outputs" (path ^^ ".outputs").

Definition validateActions (actions : object) (path : string) : list Diagnostic :=
  (if bool_decide (size actions = 0) then add path "REQUIRED" "must define at least one action" else []) ++
  range_over path actions (λ actionName actionRaw,
    match actionRaw with
    | JObj actionObj => validateAction actionObj (path ^^ "." ^^ actionName)
    | _ => add (path ^^ "." ^^ actionName) "TYPE" "must be an object"
    end).

Definition validateHealth (health : object) (path : string) : list Diagnostic :=
  optionalString health "endpoint" (path ^^ ".endpoint") ++
  optionalString health "method" (path ^^ ".method") ++
  mjoin (map (λ field, optionalCount health field (path ^^ "." ^^ field))
           ["interval_seconds"; "timeout_ms"; "unhealthy_threshold"]).

Definition validateRoot (root : object) : list Diagnostic :=
  let '(d_version, version) := requireString root "manifest_version" "manifest_version" in
  let '(d_tool, toolObj) := requireObject root "tool" "tool" in
  let '(d_transport, transportObj) := requireObject root "transport" "transport" in
  let '(d_actions, actionsObj) := requireObject root "actions" "actions" in
  d_version ++
  match version with
  | Some v => if bool_decide (v ≠ ManifestVersionV1)
              then [field_error "manifest_version" "ENUM" [PS "must be "; PQ ManifestVersionV1]] else []
  | None => []
  end ++
  optionalString root "$schema" "$schema" ++
  d_tool ++ from_option validateTool [] toolObj ++
  d_transport ++ from_option validateTransport [] transportObj ++
  d_actions ++ from_option (λ a, validateActions a "actions") [] actionsObj ++
  fields_of root "config" "config" ++
  match root !! "health" with
  | None => []
  | Some (JObj healthObj) => validateHealth healthObj "health"
  | Some _ => add "health" "TYPE" "must be an object"
  end.

(** [None]: the bytes are not JSON. *)
Definition ValidateManifestJSON (doc : option json) : list Diagnostic :=
  match doc with
  | None => [field_error "$" "INVALID_JSON" [PS "Invalid JSON"]]
  | Some (JObj root) => validateRoot root
  | Some _ => add "$" "TYPE" "Manifest must be a JSON object"
  end.
End Validator.

(** ** The document of a manifest *)

(** The members of an object; [None] is a member that [omitempty] leaves out. *)
Definition members (l : list (string * option json)) : object :=
  foldr (λ kv m, match kv.2 with Some j => <[kv.1 := j]> m | None => m end) ∅ l.

Fixpoint assoc (k : string) (l : list (string * option json)) : option json :=
  match l with
  | [] => None
  | (k', o) :: r => if String.eqb k' k then o else assoc k r
  end.

Definition opt_str (s : string) : option json := if bool_decide (s = EmptyString) then None else Some (JStr s).
Definition opt_bool (b : bool) : option json := if b then Some (JBool true) else None.
Definition jint (z : Z) : json := JNum (Some z) (Some (F64.of_Z z)).
Definition opt_int (z : Z) : option json := if bool_decide (z = 0%Z) then None else Some (jint z).
Definition opt_arr (l : list json) : option json := if bool_decide (length l = 0) then None else Some (JArr l).
Definition opt_obj (m : object) : option json := if bool_decide (size m = 0) then None else Some (JObj m).

Section Marshal.
(** [json.Marshal] of a default value; [None] when it fails. *)
Context `{RangeOrder} (marshal_any : value → option json).

Definition opt_default (v : value) : option json :=
  match v with VNil => None | _ => Some (default JNull (marshal_any v)) end.

Fixpoint field_doc (spec : FieldSpec) : json :=
  JObj (members [
    ("type", Some (JStr (fs_Type spec)));
    ("required", opt_bool (fs_Required spec));
    ("description", opt_str (fs_Description spec));
    ("default", opt_default (fs_Default spec));
    ("sensitive", opt_bool (fs_Sensitive spec));
    ("items", match fs_Items spec with Some items => Some (field_doc items) | None => None end);
    ("properties", opt_obj (field_doc <$> fs_Properties spec))]).

Definition fields_doc (m : gmap string FieldSpec) : option json := opt_obj (field_doc <$> m).

Definition action_doc (a : ActionSpec) : json :=
  JObj (members [
    ("mcp_tool_name", opt_str (as_MCPToolName a));
    ("description", opt_str (as_Description a));
    ("inputs", fields_doc (as_Inputs a));
    ("outputs", fields_doc (as_Outputs a));
    ("llm_callable", JBool <$> as_LLMCallable a);
    ("idempotent", opt_bool (as_Idempotent a))]).

Definition tool_doc (t : ToolMetadata) : json :=
  JObj (members [
    ("name", Some (JStr (tm_Name t)));
    ("version", opt_str (tm_Version t));
    ("description", opt_str (tm_Description t));
    ("author", opt_str (tm_Author t));
    ("license", opt_str (tm_License t));
    ("homepage", opt_str (tm_Homepage t));
    ("tags", opt_arr (map JStr (tm_Tags t)))]).

Definition retry_doc (r : RetryPolicy) : json :=
  JObj (members [
    ("max_attempts", opt_int (rp_MaxAttempts r));
    ("backoff_ms", opt_int (rp_BackoffMS r));
    ("retryable_codes", opt_arr (map jint (rp_RetryableCodes r)))]).

(** A struct member is never empty: [retry] is always written. *)
Definition transport_doc (t : TransportSpec) : json :=
  JObj (members [
    ("type", Some (JStr (ts_Type t)));
    ("endpoint", opt_str (ts_Endpoint t));
    ("command", opt_str (ts_Command t));
    ("args", opt_arr (map JStr (ts_Args t)));
    ("env", opt_obj (JStr <$> ts_Env t));
    ("mode", opt_str (ts_Mode t));
    ("timeout_ms", opt_int (ts_TimeoutMS t));
    ("retry", Some (retry_doc (ts_Retry t)))]).

Definition health_doc (h : HealthConfig) : json :=
  JObj (members [
    ("endpoint", opt_str (hc_Endpoint h));
    ("method", opt_str (hc_Method h));
    ("interval_seconds", opt_int (hc_IntervalSeconds h));
    ("timeout_ms", opt_int (hc_TimeoutMS h));
    ("unhealthy_threshold", opt_int (hc_UnhealthyThreshold h))]).

Definition manifest_doc (m : ToolManifest) : json :=
  JObj (members [
    ("$schema", opt_str (mf_Schema m));
    ("manifest_version", Some (JStr (mf_ManifestVersion m)));
    ("tool", Some (tool_doc (mf_Tool m)));
    ("transport", Some (transport_doc (mf_Transport m)));
    ("actions", Some (JObj (action_doc <$> mf_Actions m)));
    ("config", fields_doc (mf_Config m));
    ("health", health_doc <$> mf_Health m)]).

(** All default values can be written. *)
Fixpoint encodable (spec : FieldSpec) : bool :=
  (match fs_Default spec with VNil => true | v => bool_decide (is_Some (marshal_any v)) end) &&
  (match fs_Items spec with Some items => encodable items | None => true end) &&
  map_fold (λ _ p acc, encodable p && acc) true (fs_Properties spec).

Definition fields_encodable (m : gmap string FieldSpec) : bool :=
  map_fold (λ _ p acc, encodable p && acc) true m.

Definition manifest_encodable (m : ToolManifest) : bool :=
  map_fold (λ _ a acc, fields_encodable (as_Inputs a) && fields_encodable (as_Outputs a) && acc) true
    (mf_Actions m) && fields_encodable (mf_Config m).

Definition SchemaManifestValidator (m : ToolManifest) : list Diagnostic :=
  if negb (manifest_encodable m) then
    [field_error "$" "INVALID_MANIFEST" [PS "Failed to serialize manifest"]]
  else ValidateManifestJSON (Some (manifest_doc m)).

(** ** Looking members up *)

Lemma members_assoc l k : NoDup (map fst l) → members l !! k = assoc k l.
Proof.
  induction l as [|[k' o] l IH]; simpl; [by rewrite lookup_empty|].
  intros [Hk Hnd]%NoDup_cons. destruct (String.eqb_spec k' k) as [Hkk|Hkk]; subst.
  - destruct o; [by rewrite lookup_insert_eq|]. rewrite IH by done.
    clear IH Hnd. induction l as [|[k'' o] l IH]; [done|]. simpl in *.
    destruct (String.eqb_spec k'' k) as [->|_]; [destruct Hk; left|].
    apply IH. intros Hx. apply Hk. by right.
  - destruct o; [rewrite lookup_insert_ne by done|]; by apply IH.
Qed.
End Marshal.

(** Rewrites the lookups of written members. *)
Ltac find_members :=
  repeat (rewrite members_assoc by (apply (bool_decide_unpack _); vm_compute; exact I)).

(** ** What the schema accepts *)

(** As [well_typed], with the items of every declaration, not only of arrays. *)
Inductive schema_typed (spec : FieldSpec) : Prop :=
| schema_typed_intro :
    isValidV1Type (fs_Type spec) = true →
    (fs_Type spec = TypeArray → is_Some (fs_Items spec)) →
    (∀ items, fs_Items spec = Some items → schema_typed items) →
    (∀ name prop, fs_Properties spec !! name = Some prop → schema_typed prop) →
    schema_typed spec.

Lemma schema_typed_well_typed spec : schema_typed spec → well_typed spec.
Proof.
  induction spec as [spec IHi IHp] using FieldSpec_induct. intros [Hv Ha Hi Hp].
  apply well_typed_intro; [exact Hv|exact Ha|eauto|eauto].
Qed.

Definition fields_schema_typed (m : gmap string FieldSpec) : Prop :=
  ∀ name spec, m !! name = Some spec → schema_typed spec.

Section Accept.
Context `{RangeOrder} (marshal_any : value → option json).
Notation field_doc := (field_doc marshal_any).

Lemma field_doc_eq spec :
  field_doc spec = JObj (members [
    ("type", Some (JStr (fs_Type spec)));
    ("required", opt_bool (fs_Required spec));
    ("description", opt_str (fs_Description spec));
    ("default", opt_default marshal_any (fs_Default spec));
    ("sensitive", opt_bool (fs_Sensitive spec));
    ("items", match fs_Items spec with Some items => Some (field_doc items) | None => None end);
    ("properties", opt_obj (field_doc <$> fs_Properties spec))]).
Proof. by destruct spec. Qed.

Lemma JObj_inj (m m' : object) : JObj m = JObj m' → m = m'.
Proof. congruence. Qed.

Lemma jdepth_lookup (m : object) k x : m !! k = Some x → jdepth x < jdepth (JObj m).
Proof.
  intros Hx%elem_of_map_to_list. simpl. rewrite map_fold_foldr.
  induction (map_to_list m) as [|[j y] l IH]; [by apply not_elem_of_nil in Hx|].
  apply elem_of_cons in Hx as [[= <- <-]|Hx]; simpl; [lia|]. specialize (IH Hx). lia.
Qed.

Lemma opt_obj_Some m j : opt_obj m = Some j → j = JObj m.
Proof. unfold opt_obj. case_bool_decide; by intros [= <-]. Qed.

Lemma opt_bool_Some b j : opt_bool b = Some j → is_bool j = true.
Proof. destruct b; by intros [= <-]. Qed.

Lemma opt_str_Some s j : opt_str s = Some j → j = JStr s.
Proof. unfold opt_str. case_bool_decide; by intros [= <-]. Qed.

Lemma optional_nil obj key path message ok :
  optional obj key path message ok = [] ↔ ∀ j, obj !! key = Some j → ok j = true.
Proof.
  unfold optional. destruct (obj !! key) as [j|]; [|done].
  destruct (ok j) eqn:Hj; split; try done; [by intros _ ? [= <-]|]. intros Hx.
  specialize (Hx j eq_refl). congruence.
Qed.

(** The members of the document of a declaration. *)
Lemma field_doc_members spec m : field_doc spec = JObj m →
  m !! "type" = Some (JStr (fs_Type spec)) ∧ m !! "required" = opt_bool (fs_Required spec) ∧
  m !! "description" = opt_str (fs_Description spec) ∧ m !! "sensitive" = opt_bool (fs_Sensitive spec) ∧
  m !! "items" = match fs_Items spec with Some items => Some (field_doc items) | None => None end ∧
  m !! "properties" = opt_obj (field_doc <$> fs_Properties spec).
Proof. rewrite field_doc_eq. intros <-%JObj_inj. find_members. split_and!; reflexivity. Qed.

Lemma field_doc_object spec : ∃ m, field_doc spec = JObj m.
Proof. rewrite field_doc_eq. eauto. Qed.

Lemma schemaFieldSpec_doc fuel spec m path :
  field_doc spec = JObj m → jdepth (JObj m) ≤ fuel →
  schemaFieldSpec fuel m path = [] ↔ schema_typed spec.
Proof.
  revert fuel m path. induction spec as [spec IHi IHp] using FieldSpec_induct. intros fuel m path Hdoc Hd.
  destruct fuel as [|fuel]; [simpl in Hd; lia|].
  assert (∀ k j, m !! k = Some j → jdepth j ≤ fuel) as Hdep
    by (intros k j Hj; pose proof (jdepth_lookup m k j Hj); lia).
  destruct (field_doc_members spec m Hdoc) as (Hty & Hrq & Hde & Hse & Hit & Hpr).
  cbn [schemaFieldSpec]. unfold requireString. rewrite Hty. simpl app.
  assert (optionalBool m "required" (path ^^ ".required") = []) as ->.
  { apply optional_nil. intros j. rewrite Hrq. apply opt_bool_Some. }
  assert (optionalString m "description" (path ^^ ".description") = []) as ->.
  { apply optional_nil. intros j. rewrite Hde. by intros ->%opt_str_Some. }
  assert (optionalBool m "sensitive" (path ^^ ".sensitive") = []) as ->.
  { apply optional_nil. intros j. rewrite Hse. apply opt_bool_Some. }
  simpl app. rewrite !app_nil_iff.
  assert ((match m !! "items" with
    | None => [] | Some (JObj itemObj) => schemaFieldSpec fuel itemObj (path ^^ ".items")
    | Some _ => add (path ^^ ".items") "TYPE" "must be an object" end) = [] ↔
    ∀ items, fs_Items spec = Some items → schema_typed items) as ->.
  { rewrite Hit. destruct (fs_Items spec) as [items|] eqn:Hi; [|done].
    destruct (field_doc_object items) as [im Him]. rewrite Him in *.
    rewrite (IHi items eq_refl fuel im) by eauto. naive_solver. }
  assert ((match m !! "properties" with
    | None => []
    | Some (JObj propsObj) =>
        range_over (path ^^ ".properties") propsObj (λ key rawSpec,
          match rawSpec with
          | JObj specObj => schemaFieldSpec fuel specObj (path ^^ ".properties." ^^ key)
          | _ => add (path ^^ ".properties." ^^ key) "TYPE" "must be an object"
          end)
    | Some _ => add (path ^^ ".properties") "TYPE" "must be an object" end) = [] ↔
    ∀ name p, fs_Properties spec !! name = Some p → schema_typed p) as ->.
  { destruct (m !! "properties") as [j|] eqn:Hm.
    - symmetry in Hpr. apply opt_obj_Some in Hpr as ->. apply Hdep in Hm. rewrite range_over_nil.
      assert (∀ k p pm, fs_Properties spec !! k = Some p → field_doc p = JObj pm →
        jdepth (JObj pm) ≤ fuel) as Hpd.
      { intros k p pm Hp Hpm. assert ((field_doc <$> fs_Properties spec) !! k = Some (JObj pm)) as Hl
          by (by rewrite lookup_fmap, Hp; simpl; rewrite Hpm).
        pose proof (jdepth_lookup _ _ _ Hl). lia. }
      split.
      + intros Hall k p Hp. destruct (field_doc_object p) as [pm Hpm].
        eapply (IHp k p Hp); [done|by eapply Hpd|]. specialize (Hall k (JObj pm)).
        apply Hall. by rewrite lookup_fmap, Hp; simpl; rewrite Hpm.
      + intros Hall k j. rewrite lookup_fmap. intros (p & Hp & ->)%fmap_Some.
        destruct (field_doc_object p) as [pm Hpm]. rewrite Hpm. eapply (IHp k p Hp); eauto.
    - symmetry in Hpr. unfold opt_obj in Hpr. case_bool_decide as Hsz; [|done].
      rewrite map_size_fmap in Hsz. apply map_size_empty_inv in Hsz. rewrite Hsz.
      split; [|done]. intros _ name p Hp. by rewrite lookup_empty in Hp. }
  destruct (isValidV1Type (fs_Type spec)) eqn:Hv.
  - split.
    + intros (_ & Hi & Ha & Hp). apply schema_typed_intro; [done| |done|done].
      intros Harr. destruct (fs_Items spec) as [items|] eqn:E; [eauto|].
      rewrite Hit, (bool_decide_true (fs_Type spec = TypeArray)) in Ha by done. done.
    + intros [_ Ha Hi Hp]. split_and!; [done|done| |done].
      case_bool_decide as Harr; [|done]. destruct (Ha Harr) as [items He].
      rewrite Hit, He. by rewrite bool_decide_false.
  - split; [by intros [? _]|]. intros [? _ _ _]. congruence.
Qed.
End Accept.
