(* ===== verification/ToolAccept.v ===== *)
(** * What the manifest schema accepts (tool/manifest_schema.go)

    The specification of [SchemaManifestValidator]: a manifest passes exactly when
    [manifest_ok] holds of it. The validator reads the document the manifest is
    written as; the specification reads the manifest. *)

From stdpp Require Import gmap strings list fin_maps pretty.
From Stdlib Require Import ZArith Lia.
From S2P Require Import Prelude Values Unicode ToolManifest ToolSchema.

(** ** The specification *)

Definition has_text (s : string) : Prop := TrimSpace s ≠ EmptyString.

Record retry_ok (r : RetryPolicy) : Prop := {
  ok_attempts : (0 ≤ rp_MaxAttempts r)%Z;
  ok_backoff : (0 ≤ rp_BackoffMS r)%Z
}.

(** What each type of transport needs. *)
Inductive target_ok (t : TransportSpec) : Prop :=
| ok_native : ts_Type t = TransportTypeNative → target_ok t
| ok_http : ts_Type t = TransportTypeHTTP → has_text (ts_Endpoint t) → target_ok t
| ok_stdio : ts_Type t = TransportTypeStdio → has_text (ts_Command t) → target_ok t
| ok_mcp_stdio : ts_Type t = TransportTypeMCP → ts_Mode t = MCPModeStdio → has_text (ts_Command t) → target_ok t
| ok_mcp_sse : ts_Type t = TransportTypeMCP → ts_Mode t = MCPModeSSE → has_text (ts_Endpoint t) → target_ok t.

Record transport_ok (t : TransportSpec) : Prop := {
  ok_timeout : (0 ≤ ts_TimeoutMS t)%Z;
  ok_retry : retry_ok (ts_Retry t);
  ok_target : target_ok t
}.

Record health_ok (h : HealthConfig) : Prop := {
  ok_interval : (0 ≤ hc_IntervalSeconds h)%Z;
  ok_health_timeout : (0 ≤ hc_TimeoutMS h)%Z;
  ok_threshold : (0 ≤ hc_UnhealthyThreshold h)%Z
}.

Definition action_ok (a : ActionSpec) : Prop :=
  fields_schema_typed (as_Inputs a) ∧ fields_schema_typed (as_Outputs a).

Record manifest_ok (m : ToolManifest) : Prop := {
  ok_version : mf_ManifestVersion m = ManifestVersionV1;
  ok_name : has_text (tm_Name (mf_Tool m));
  ok_transport : transport_ok (mf_Transport m);
  ok_actions : mf_Actions m ≠ ∅;
  ok_action : ∀ name a, mf_Actions m !! name = Some a → action_ok a;
  ok_config : fields_schema_typed (mf_Config m);
  ok_health : ∀ h, mf_Health m = Some h → health_ok h
}.

(** ** Single members *)

(** Solves [members l !! k = _] for literal keys. *)
Ltac member := rewrite members_assoc by (apply (bool_decide_unpack _); vm_compute; exact I); reflexivity.

Lemma optional_str obj k path s : obj !! k = opt_str s → optionalString obj k path = [].
Proof. intros Hk. apply optional_nil. intros j. rewrite Hk. by intros ->%opt_str_Some. Qed.

Lemma optional_bool obj k path b : obj !! k = opt_bool b → optionalBool obj k path = [].
Proof. intros Hk. apply optional_nil. intros j. rewrite Hk. apply opt_bool_Some. Qed.

Lemma optional_count obj k path z :
  obj !! k = opt_int z → optionalCount obj k path = [] ↔ (0 ≤ z)%Z.
Proof.
  intros Hk. unfold optionalCount, optional. rewrite Hk. unfold opt_int.
  case_bool_decide as Hz; [subst; split; [lia|done]|].
  unfold is_count, asNonNegativeInt. simpl. destruct (Z.ltb_spec z 0) as [Hn|Hn]; simpl.
  - split; [done|lia].
  - done.
Qed.

Lemma require_text obj k path message s :
  obj !! k = opt_str s ∨ obj !! k = Some (JStr s) →
  requireText obj k path message = [] ↔ has_text s.
Proof.
  unfold requireText, requireString, has_text, blank_text, opt_str.
  intros [-> | ->]; [case_bool_decide as He; [subst; by split|]|]; simpl; by case_bool_decide.
Qed.

Lemma each_nil path l message ok : each path l message ok = [] ↔ Forall (λ x, ok x = true) l.
Proof.
  unfold each. rewrite <- (map_id (imap _ l)), mjoin_nil_iff, Forall_lookup. split.
  - intros Hall i x Hi. assert ((if ok x then [] else add (path ^^ "[" ^^ pretty i ^^ "]") "TYPE" message) = []) as Hx.
    { apply (Hall (if ok x then _ else _)). apply list_elem_of_lookup. exists i. by rewrite list_lookup_imap, Hi. }
    by destruct (ok x).
  - intros Hall y Hy. apply list_elem_of_lookup in Hy as [i Hi]. rewrite list_lookup_imap in Hi.
    destruct (l !! i) as [x|] eqn:Hx; [|done]. injection Hi as <-. by rewrite (Hall i x Hx).
Qed.

(** [optional] members that hold a list of strings. *)
Lemma each_strings path l message : each path (map JStr l) message is_str = [].
Proof. apply each_nil, Forall_map, Forall_true. done. Qed.

Section Accept.
Context `{RangeOrder} (marshal_any : value → option json).

Lemma schema_tool t obj : tool_doc t = JObj obj → validateTool obj = [] ↔ has_text (tm_Name t).
Proof.
  intros <-%JObj_inj. unfold validateTool.
  rewrite (optional_str _ _ _ (tm_Version t)) by member.
  rewrite (optional_str _ _ _ (tm_Description t)) by member.
  rewrite (optional_str _ _ _ (tm_Author t)) by member.
  rewrite (optional_str _ _ _ (tm_License t)) by member.
  rewrite (optional_str _ _ _ (tm_Homepage t)) by member.
  replace (members _ !! "tags") with (opt_arr (map JStr (tm_Tags t))) by (symmetry; member).
  rewrite app_nil_iff, (require_text _ _ _ _ (tm_Name t)) by (right; member).
  unfold opt_arr. case_bool_decide; simpl app; rewrite ?each_strings; naive_solver.
Qed.

Lemma schema_retry r obj path : retry_doc r = JObj obj → validateRetry obj path = [] ↔ retry_ok r.
Proof.
  intros <-%JObj_inj. unfold validateRetry. rewrite !app_nil_iff.
  rewrite (optional_count _ _ _ (rp_MaxAttempts r)) by member.
  rewrite (optional_count _ _ _ (rp_BackoffMS r)) by member.
  replace (members _ !! "retryable_codes") with (opt_arr (map jint (rp_RetryableCodes r))) by (symmetry; member).
  assert (each (path ^^ ".retryable_codes") (map jint (rp_RetryableCodes r)) "must be an integer"
    (λ j, bool_decide (is_Some (asInteger j))) = []) as He.
  { apply each_nil, Forall_map, Forall_true. intros z. by apply bool_decide_true. }
  unfold opt_arr. case_bool_decide; rewrite ?He; split; [intros (?&?&?)| intros [? ?]|intros (?&?&?)|intros [? ?]];
    by repeat split.
Qed.

Lemma schema_health h obj path : health_doc h = JObj obj → validateHealth obj path = [] ↔ health_ok h.
Proof.
  intros Hobj%JObj_inj. unfold validateHealth.
  rewrite (optional_str _ _ _ (hc_Endpoint h)) by (rewrite <- Hobj; member).
  rewrite (optional_str _ _ _ (hc_Method h)) by (rewrite <- Hobj; member).
  simpl. rewrite !app_nil_iff.
  rewrite (optional_count _ _ _ (hc_IntervalSeconds h)) by (rewrite <- Hobj; member).
  rewrite (optional_count _ _ _ (hc_TimeoutMS h)) by (rewrite <- Hobj; member).
  rewrite (optional_count _ _ _ (hc_UnhealthyThreshold h)) by (rewrite <- Hobj; member).
  split; [intros (?&?&?&?)|intros [? ? ?]]; by repeat split.
Qed.

(** The cases of [target_ok], by the type. *)
Lemma target_ok_type t : target_ok t →
  ts_Type t ∈ [TransportTypeNative; TransportTypeHTTP; TransportTypeStdio; TransportTypeMCP].
Proof. intros [Ht|Ht ?|Ht ?|Ht Hm ?|Ht Hm ?]; rewrite Ht; set_solver. Qed.

Ltac target_case := let Ht := fresh in let E := fresh in
  intros Ht; split; [intros [E|E ?|E ?|E ? ?|E ? ?]; rewrite Ht in E; try discriminate E; naive_solver
                    |naive_solver eauto using target_ok].

Lemma target_ok_http t : ts_Type t = TransportTypeHTTP → target_ok t ↔ has_text (ts_Endpoint t).
Proof. target_case. Qed.

Lemma target_ok_stdio t : ts_Type t = TransportTypeStdio → target_ok t ↔ has_text (ts_Command t).
Proof. target_case. Qed.

Lemma target_ok_mcp t : ts_Type t = TransportTypeMCP →
  target_ok t ↔ ts_Mode t = MCPModeStdio ∧ has_text (ts_Command t) ∨
                ts_Mode t = MCPModeSSE ∧ has_text (ts_Endpoint t).
Proof. target_case. Qed.

Lemma schema_target t obj : transport_doc t = JObj obj →
  validateTransportType (ts_Type t) ++ validateTransportTypeSpecificFields (ts_Type t) obj = [] ↔
  target_ok t.
Proof.
  intros Hobj%JObj_inj.
  assert (obj !! "mode" = opt_str (ts_Mode t)) as Hmode by (rewrite <- Hobj; member).
  assert (obj !! "endpoint" = opt_str (ts_Endpoint t)) as Hend by (rewrite <- Hobj; member).
  assert (obj !! "command" = opt_str (ts_Command t)) as Hcmd by (rewrite <- Hobj; member).
  clear Hobj. rewrite app_nil_iff. unfold validateTransportType.
  case_bool_decide as Hin; [|split; [by intros []|by intros ?%target_ok_type]].
  unfold validateTransportTypeSpecificFields. case_bool_decide as H1; [split; [by eauto using target_ok|done]|].
  case_bool_decide as H2.
  { rewrite (target_ok_http t H2). unfold validateHTTPTransport.
    rewrite (require_text _ _ _ _ (ts_Endpoint t)) by auto. naive_solver. }
  case_bool_decide as H3.
  { rewrite (target_ok_stdio t H3). unfold validateStdioTransport.
    rewrite (require_text _ _ _ _ (ts_Command t)) by auto. naive_solver. }
  rewrite bool_decide_true, (target_ok_mcp t) by set_solver.
  unfold validateMCPTransport, requireString. rewrite Hmode. unfold opt_str.
  case_bool_decide as He; [rewrite He; split; [by intros []|by intros [[]|[]]]|]. simpl app.
  case_bool_decide as H4; [rewrite (require_text _ _ _ _ (ts_Command t)), H4 by auto|].
  { split; [naive_solver|]. intros [[]|[E ?]]; [done|discriminate E]. }
  case_bool_decide as H5; [rewrite (require_text _ _ _ _ (ts_Endpoint t)) by auto|];
    [naive_solver|split; [by intros []|naive_solver]].
Qed.

Lemma schema_transport t obj :
  transport_doc t = JObj obj → validateTransport obj = [] ↔ transport_ok t.
Proof.
  intros Hdoc. pose proof (schema_target t obj Hdoc) as Htarget. pose proof Hdoc as Hobj%JObj_inj.
  unfold validateTransport, requireString.
  replace (obj !! "type") with (Some (JStr (ts_Type t))) by (rewrite <- Hobj; symmetry; member).
  simpl app. unfold validateTransportCommonFields.
  rewrite (optional_str _ _ _ (ts_Endpoint t)) by (rewrite <- Hobj; member).
  rewrite (optional_str _ _ _ (ts_Command t)) by (rewrite <- Hobj; member).
  assert (validateTransportArgs obj = []) as ->.
  { unfold validateTransportArgs.
    replace (obj !! "args") with (opt_arr (map JStr (ts_Args t))) by (rewrite <- Hobj; symmetry; member).
    unfold opt_arr. case_bool_decide; [done|]. apply each_strings. }
  assert (validateTransportEnv obj = []) as ->.
  { unfold validateTransportEnv.
    replace (obj !! "env") with (opt_obj (JStr <$> ts_Env t)) by (rewrite <- Hobj; symmetry; member).
    unfold opt_obj. case_bool_decide; [done|]. apply range_over_nil. intros k j.
    rewrite lookup_fmap. by intros (s & _ & ->)%fmap_Some. }
  assert (validateTransportRetry obj = [] ↔ retry_ok (ts_Retry t)) as Hretry.
  { unfold validateTransportRetry.
    replace (obj !! "retry") with (Some (retry_doc (ts_Retry t))) by (rewrite <- Hobj; symmetry; member).
    by apply schema_retry. }
  simpl app. rewrite !app_nil_iff in *. rewrite Hretry, (optional_count _ _ _ (ts_TimeoutMS t))
    by (rewrite <- Hobj; member).
  split; [intros (?&(?&?)&?)|intros [? ? ?]]; [split; tauto|tauto].
Qed.

(** ** Fields, actions and the whole document *)

Lemma schema_field_map fields path :
  validateFieldMap (field_doc marshal_any <$> fields) path = [] ↔ fields_schema_typed fields.
Proof.
  unfold validateFieldMap, fields_schema_typed. rewrite range_over_nil. split.
  - intros Hall name spec Hs. destruct (field_doc_object marshal_any spec) as [obj Hobj].
    specialize (Hall name (field_doc marshal_any spec)). rewrite lookup_fmap, Hs in Hall.
    specialize (Hall eq_refl). rewrite Hobj in Hall. by eapply schemaFieldSpec_doc in Hall.
  - intros Hall name j. rewrite lookup_fmap. intros (spec & Hs & ->)%fmap_Some.
    destruct (field_doc_object marshal_any spec) as [obj Hobj]. rewrite Hobj.
    eapply schemaFieldSpec_doc; [exact Hobj|done|eauto].
Qed.

Lemma schema_fields obj key path fields :
  obj !! key = fields_doc marshal_any fields →
  fields_of obj key path = [] ↔ fields_schema_typed fields.
Proof.
  intros Hk. unfold fields_of. rewrite Hk. unfold fields_doc, opt_obj. case_bool_decide as Hsz.
  - rewrite map_size_fmap in Hsz. apply map_size_empty_inv in Hsz as ->. split; [|done].
    intros _ name spec Hs. by rewrite lookup_empty in Hs.
  - apply schema_field_map.
Qed.

Lemma schema_action a obj path :
  action_doc marshal_any a = JObj obj → validateAction obj path = [] ↔ action_ok a.
Proof.
  intros Hobj%JObj_inj. unfold validateAction, action_ok.
  rewrite (optional_str _ _ _ (as_Description a)) by (rewrite <- Hobj; member).
  rewrite (optional_bool _ _ _ (as_Idempotent a)) by (rewrite <- Hobj; member).
  simpl app. rewrite app_nil_iff, (schema_fields _ _ _ (as_Inputs a)), (schema_fields _ _ _ (as_Outputs a));
    [done| |]; rewrite <- Hobj; member.
Qed.

Lemma schema_actions actions path :
  validateActions (action_doc marshal_any <$> actions) path = [] ↔
  actions ≠ ∅ ∧ ∀ name a, actions !! name = Some a → action_ok a.
Proof.
  unfold validateActions. rewrite app_nil_iff, range_over_nil, map_size_fmap. f_equiv.
  - case_bool_decide as Hsz.
    + apply map_size_empty_inv in Hsz. naive_solver.
    + split; [|done]. intros _ ->. by rewrite map_size_empty in Hsz.
  - split.
    + intros Hall name a Ha. specialize (Hall name (action_doc marshal_any a)).
      rewrite lookup_fmap, Ha in Hall. eapply schema_action; [done|]. by apply Hall.
    + intros Hall name j. rewrite lookup_fmap. intros (a & Ha & ->)%fmap_Some.
      eapply (schema_action a); [done|eauto].
Qed.

(** The schema accepts exactly the manifests of the specification. *)
Lemma schema_manifest m :
  SchemaManifestValidator marshal_any m = [] ↔ manifest_encodable marshal_any m = true ∧ manifest_ok m.
Proof.
  unfold SchemaManifestValidator. destruct (manifest_encodable marshal_any m); cbn [negb];
    [|split; [done|by intros []]].
  assert (∃ obj, manifest_doc marshal_any m = JObj obj) as [obj Hobj] by (eexists; reflexivity).
  rewrite Hobj. apply JObj_inj in Hobj. unfold ValidateManifestJSON, validateRoot, requireString, requireObject.
  replace (obj !! "manifest_version") with (Some (JStr (mf_ManifestVersion m))) by (rewrite <- Hobj; symmetry; member).
  replace (obj !! "tool") with (Some (tool_doc (mf_Tool m))) by (rewrite <- Hobj; symmetry; member).
  replace (obj !! "transport") with (Some (transport_doc (mf_Transport m))) by (rewrite <- Hobj; symmetry; member).
  replace (obj !! "actions") with (Some (JObj (action_doc marshal_any <$> mf_Actions m)))
    by (rewrite <- Hobj; symmetry; member).
  replace (obj !! "health") with (health_doc <$> mf_Health m) by (rewrite <- Hobj; symmetry; member).
  unfold tool_doc, transport_doc. cbn beta iota. cbn [from_option app].
  rewrite (optional_str _ _ _ (mf_Schema m)) by (rewrite <- Hobj; member).
  rewrite !app_nil_iff, (schema_fields _ _ _ (mf_Config m)) by (rewrite <- Hobj; member).
  rewrite (schema_tool (mf_Tool m)), (schema_transport (mf_Transport m)), schema_actions by done.
  assert ((match health_doc <$> mf_Health m with
           | None => [] | Some (JObj healthObj) => validateHealth healthObj "health"
           | Some _ => add "health" "TYPE" "must be an object" end) = [] ↔
          ∀ h, mf_Health m = Some h → health_ok h) as ->.
  { destruct (mf_Health m) as [h|]; [|done]. change (validateHealth (default ∅ (as_object (Some (health_doc h)))) "health" = [] ↔
      ∀ h0, Some h = Some h0 → health_ok h0).
    rewrite (schema_health h) by done. naive_solver. }
  case_bool_decide as Hv.
  - split; [by intros [? _]|]. intros [_ [? ? ? ? ? ? ?]]. done.
  - split; [intros (_&_&?&?&(?&?)&?&?)|intros [_ [? ? ? ? ? ? ?]]]; [split; [done|by split]|tauto].
Qed.
End Accept.
