(* ===== verification/ToolOverlay.v ===== *)
(** * Overlays of discovered manifests (tool/mcp_overlay.go, tool/mcp_overlay_merge.go)

    An overlay renames, groups and annotates the actions of a discovered manifest.
    Grouping several names on one discovered action copies its record, so the
    copies share the map of inputs that the input overrides then write to: the
    merge keeps the maps in cells.

    The theorem: a discovered manifest, with an accepted overlay or without,
    declares only well-formed types. *)

From stdpp Require Import gmap strings list fin_maps sorting.
From Stdlib Require Import Ascii ZArith Lia.
From S2P Require Import Prelude Values Unicode Schema Template ToolManifest ToolDiscovery.

(** ** Data *)

Record MCPOverlayConfigField := mkOverlayField { oc_FieldSpec : FieldSpec; oc_EnvVar : string }.

Record MCPOverlayHealth := mkOverlayHealth {
  oh_Strategy : string;
  oh_Endpoint : string;
  oh_Method : string;
  oh_IntervalSeconds : Z;
  oh_TimeoutMS : Z;
  oh_UnhealthyThreshold : Z
}.

Record MCPOverlayMetadata := mkOverlayMeta {
  om_Author : string;
  om_Version : string;
  om_Homepage : string;
  om_Tags : list string
}.

Record MCPOverlay := mkOverlay {
  ov_OverlayVersion : string;
  ov_GroupActions : gmap string string;
  ov_ActionModes : gmap string string;
  ov_OutputSchemas : gmap string (gmap string FieldSpec);
  ov_Config : gmap string MCPOverlayConfigField;
  ov_Health : MCPOverlayHealth;
  ov_DescriptionOverrides : gmap string string;
  ov_InputOverrides : gmap string (gmap string FieldSpec);
  ov_Metadata : MCPOverlayMetadata
}.

Definition MCPOverlayVersionV1 := "1.0".

Definition diag_le (a b : Diagnostic) : Prop :=
  let c := GoStr.Compare (td_Field a) (td_Field b) in
  (c < 0 ∨ c = 0 ∧ GoStr.Compare (td_Code a) (td_Code b) ≤ 0)%Z.
#[export] Instance diag_le_dec a b : Decision (diag_le a b).
Proof. unfold diag_le. apply _. Defined.

Definition sort_diags (diags : list Diagnostic) : list Diagnostic := merge_sort diag_le diags.

Definition blank (s : string) : bool := bool_decide (TrimSpace s = EmptyString).
Definition when {A} (b : bool) (x : A) : list A := if b then [x] else [].

Section Overlay.
Context `{LowerTables} `{RangeOrder}.
Implicit Types (ov : MCPOverlay).

(** ** Validation of an overlay *)

Definition version_diags ov : list Diagnostic :=
  if blank (ov_OverlayVersion ov) then
    [field_error "overlay_version" "REQUIRED_FIELD" [PS "overlay_version is required"]]
  else when (bool_decide (ov_OverlayVersion ov ≠ MCPOverlayVersionV1))
    (field_error "overlay_version" "ENUM" [PS "overlay_version must be "; PQ MCPOverlayVersionV1]).

Definition group_diags ov : list Diagnostic :=
  range_over "group_actions" (ov_GroupActions ov) (λ action target,
    when (blank action)
      (field_error "group_actions" "INVALID_ACTION_NAME" [PS "group_actions keys must not be empty"]) ++
    when (blank target)
      (field_error ("group_actions." ^^ action) "REQUIRED_FIELD"
         [PS "group_actions value must map to an MCP tool name"])).

Definition mode_diags ov : list Diagnostic :=
  range_over "action_modes" (ov_ActionModes ov) (λ action mode,
    when (negb (bool_decide (TrimSpace (ToLower mode) ∈ ["llm_callable"; "standalone"])))
      (field_error ("action_modes." ^^ action) "ENUM"
         [PS "action mode must be "; PQ "llm_callable"; PS " or "; PQ "standalone"])).

Definition config_diags ov : list Diagnostic :=
  range_over "config" (ov_Config ov) (λ key spec,
    when (blank (fs_Type (oc_FieldSpec spec)))
      (field_error ("config." ^^ key ^^ ".type") "REQUIRED_FIELD" [PS "config field type is required"])).

Definition health_diags ov : list Diagnostic :=
  let strategy := TrimSpace (ToLower (oh_Strategy (ov_Health ov))) in
  when (negb (bool_decide (strategy ∈ [""; "process"; "connection"; "ping"; "endpoint"])))
    (field_error "health.strategy" "ENUM"
       [PS "health.strategy must be one of: process, connection, ping, endpoint"]) ++
  when (bool_decide (strategy = "endpoint") && blank (oh_Endpoint (ov_Health ov)))
    (field_error "health.endpoint" "REQUIRED_FIELD"
       [PS "health.endpoint is required when strategy is endpoint"]).

Definition zero_action : ActionSpec := mkAction "" "" ∅ ∅ None false.

Definition set_Inputs (m : gmap string FieldSpec) (a : ActionSpec) : ActionSpec :=
  mkAction (as_MCPToolName a) (as_Description a) m (as_Outputs a) (as_LLMCallable a) (as_Idempotent a).
Definition set_Outputs (m : gmap string FieldSpec) (a : ActionSpec) : ActionSpec :=
  mkAction (as_MCPToolName a) (as_Description a) (as_Inputs a) m (as_LLMCallable a) (as_Idempotent a).
Definition set_Description (d : string) (a : ActionSpec) : ActionSpec :=
  mkAction (as_MCPToolName a) d (as_Inputs a) (as_Outputs a) (as_LLMCallable a) (as_Idempotent a).
Definition set_MCPToolName (n : string) (a : ActionSpec) : ActionSpec :=
  mkAction n (as_Description a) (as_Inputs a) (as_Outputs a) (as_LLMCallable a) (as_Idempotent a).
Definition set_LLMCallable (b : bool) (a : ActionSpec) : ActionSpec :=
  mkAction (as_MCPToolName a) (as_Description a) (as_Inputs a) (as_Outputs a) (Some b) (as_Idempotent a).
Definition set_Config (c : gmap string FieldSpec) (m : ToolManifest) : ToolManifest :=
  mkManifest (mf_Schema m) (mf_ManifestVersion m) (mf_Tool m) (mf_Transport m) (mf_Actions m) c (mf_Health m).

(** The manifest whose declarations are those of the overlay. *)
Definition type_manifest ov : ToolManifest :=
  let outputs := (λ o, set_Outputs o zero_action) <$> ov_OutputSchemas ov in
  let actions := foldl (λ m kv, <[kv.1 := set_Inputs kv.2 (default zero_action (m !! kv.1))]> m)
    outputs (range_map "input_overrides" (ov_InputOverrides ov)) in
  set_Config (oc_FieldSpec <$> ov_Config ov)
    (set_Actions actions (NewManifest "overlay_type_validation")).

Definition ValidateMCPOverlay ov : list Diagnostic :=
  sort_diags (version_diags ov ++ group_diags ov ++ mode_diags ov ++ config_diags ov ++
    health_diags ov ++ ValidateManifestTypes (type_manifest ov)).

(** ** The merge *)

(** The actions with the cell that holds their inputs, and the cells. *)
Record merging := mkMerging {
  me_actions : gmap string (string * ActionSpec);
  me_inputs : gmap string (gmap string FieldSpec)
}.

(** [cloneManifest] and [ensureActionMCPToolNames]: one cell per action. A map
    without entries is allocated, as discovery always does. *)
Definition start_merge (actions : gmap string ActionSpec) : merging :=
  mkMerging
    (map_imap (λ name a,
       Some (name, if blank (as_MCPToolName a) then set_MCPToolName name a else a)) actions)
    (as_Inputs <$> actions).

Definition group_step (original : gmap string (string * ActionSpec)) ov
    (acc : list Diagnostic * gmap string (string * ActionSpec)) (alias : string)
  : list Diagnostic * gmap string (string * ActionSpec) :=
  let '(diags, grouped) := acc in
  let target := default EmptyString (ov_GroupActions ov !! alias) in
  match original !! target with
  | None =>
      (diags ++ [field_error ("group_actions." ^^ alias) "UNKNOWN_ACTION"
                   [PS "MCP tool "; PQ target; PS " was not discovered"]], grouped)
  | Some (cell, sourceAction) =>
      let grouped := <[alias := (cell, set_MCPToolName target sourceAction)]> grouped in
      (diags, if bool_decide (alias ≠ target) then delete target grouped else grouped)
  end.

Definition applyGroupActions ov (m : merging) : list Diagnostic * merging :=
  if bool_decide (size (ov_GroupActions ov) = 0) then ([], m)
  else
    let keys := sort_Strings (map fst (map_to_list (ov_GroupActions ov))) in
    let '(diags, grouped) := foldl (group_step (me_actions m) ov) ([], me_actions m) keys in
    (diags, mkMerging grouped (me_inputs m)).

(** Updates the actions that the overlay names. *)
Definition apply_overrides {A} (overrides : gmap string A) (f : A → ActionSpec → ActionSpec)
    (m : merging) : merging :=
  mkMerging
    (map_imap (λ name ca, Some (ca.1, match overrides !! name with Some x => f x ca.2 | None => ca.2 end))
       (me_actions m))
    (me_inputs m).

Definition applyDescriptionOverrides ov : merging → merging :=
  apply_overrides (ov_DescriptionOverrides ov) set_Description.

Definition input_step (m : merging) (kv : string * gmap string FieldSpec) : merging :=
  match me_actions m !! kv.1 with
  | None => m
  | Some (cell, _) =>
      mkMerging (me_actions m) (<[cell := kv.2 ∪ default ∅ (me_inputs m !! cell)]> (me_inputs m))
  end.

Definition applyInputOverrides ov (m : merging) : merging :=
  foldl input_step m (range_map "apply_inputs" (ov_InputOverrides ov)).

Definition applyOutputSchemas ov : merging → merging :=
  apply_overrides (ov_OutputSchemas ov) set_Outputs.

Definition apply_mode (mode : string) (a : ActionSpec) : ActionSpec :=
  let m := ToLower (TrimSpace mode) in
  if bool_decide (m = "llm_callable") then set_LLMCallable true a
  else if bool_decide (m = "standalone") then set_LLMCallable false a
  else a.

Definition applyActionModes ov : merging → merging := apply_overrides (ov_ActionModes ov) apply_mode.

(** The actions read back from the cells. *)
Definition finish_merge (m : merging) : gmap string ActionSpec :=
  (λ ca, set_Inputs (default ∅ (me_inputs m !! ca.1)) ca.2) <$> me_actions m.

Definition applyConfigOverrides ov (config : gmap string FieldSpec) : gmap string FieldSpec :=
  (oc_FieldSpec <$> ov_Config ov) ∪ config.

Definition keep_blank (new old : string) : string := if blank new then old else new.

Definition applyMetadataOverrides ov (t : ToolMetadata) : ToolMetadata :=
  let meta := ov_Metadata ov in
  mkTool (tm_Name t) (keep_blank (om_Version meta) (tm_Version t)) (tm_Description t)
    (keep_blank (om_Author meta) (tm_Author t)) (tm_License t)
    (keep_blank (om_Homepage meta) (tm_Homepage t))
    (if bool_decide (0 < length (om_Tags meta)) then om_Tags meta else tm_Tags t).

Definition keep_nonpos (new old : Z) : Z := if (0 <? new)%Z then new else old.

Definition applyHealthOverrides ov (h : option HealthConfig) : option HealthConfig :=
  let o := ov_Health ov in
  if blank (oh_Strategy o) && blank (oh_Endpoint o) then h
  else
    let h := default (mkHealth "" "" 0 0 0) h in
    Some (mkHealth (keep_blank (oh_Endpoint o) (hc_Endpoint h)) (keep_blank (oh_Method o) (hc_Method h))
      (keep_nonpos (oh_IntervalSeconds o) (hc_IntervalSeconds h))
      (keep_nonpos (oh_TimeoutMS o) (hc_TimeoutMS h))
      (keep_nonpos (oh_UnhealthyThreshold o) (hc_UnhealthyThreshold h))).

(** The merged manifest, the diagnostics, and whether they make an error. *)
Definition MergeMCPOverlay (base : ToolManifest) ov : ToolManifest * list Diagnostic * bool :=
  let diags := ValidateMCPOverlay ov in
  if hasValidationErrors diags then (base, diags, true)
  else
    let '(gdiags, m) := applyGroupActions ov (start_merge (mf_Actions base)) in
    let m := applyDescriptionOverrides ov m in
    let m := applyInputOverrides ov m in
    let m := applyOutputSchemas ov m in
    let m := applyActionModes ov m in
    let merged := mkManifest (mf_Schema base) (mf_ManifestVersion base)
      (applyMetadataOverrides ov (mf_Tool base)) (mf_Transport base) (finish_merge m)
      (applyConfigOverrides ov (mf_Config base)) (applyHealthOverrides ov (mf_Health base)) in
    let diags := sort_diags (diags ++ gdiags) in
    (merged, diags, hasValidationErrors diags).

Definition RegistrationValidationFailed (diags : list Diagnostic) : error :=
  EFmt [PS "REGISTRATION_VALIDATION_FAILED"; PS ": "; PS "Tool registration failed validation"].

Definition DiscoverMCPManifest (name : string) (transport : MCPTransport) (overlay : option MCPOverlay)
    (s : mcp_session) : ToolManifest + error :=
  match discover name transport s with
  | inr err => inr err
  | inl manifest =>
      match overlay with
      | None => inl manifest
      | Some ov =>
          let '(merged, diags, failed) := MergeMCPOverlay manifest ov in
          if failed then inr (RegistrationValidationFailed diags) else inl merged
      end
  end.

(** ** The merge keeps declarations well typed *)

Lemma hasValidationErrors_false l :
  hasValidationErrors l = false ↔ ∀ d, d ∈ l → td_Severity d ≠ SeverityError.
Proof.
  unfold hasValidationErrors. rewrite <- not_true_iff_false, existsb_exists.
  split.
  - intros Hn d Hd He. apply Hn. exists d. rewrite <- list_elem_of_In, bool_decide_eq_true. done.
  - intros Hall (d & Hd%list_elem_of_In & He%bool_decide_eq_true). by eapply Hall.
Qed.

Lemma hasValidationErrors_sort l : hasValidationErrors (sort_diags l) = hasValidationErrors l.
Proof.
  apply eq_bool_prop_intro. rewrite !Is_true_true, <- !not_false_iff_true, !hasValidationErrors_false.
  unfold sort_diags. by setoid_rewrite (merge_sort_Permutation diag_le l).
Qed.

Lemma ValidateManifestTypes_errors m d : d ∈ ValidateManifestTypes m → td_Severity d = SeverityError.
Proof.
  unfold ValidateManifestTypes. rewrite elem_of_app. intros [Hd|Hd].
  - apply list_elem_of_join in Hd as (l & Hd & (k & a & _ & ->)%elem_of_range_sorted).
    rewrite elem_of_app in Hd. destruct Hd as [Hd|Hd];
      apply list_elem_of_join in Hd as (l & Hd & (k' & sp & _ & ->)%elem_of_range_sorted);
      by eapply validateFieldSpec_errors.
  - apply list_elem_of_join in Hd as (l & Hd & (k & sp & _ & ->)%elem_of_range_sorted).
    by eapply validateFieldSpec_errors.
Qed.

(** No error means that the declarations are well typed. *)
Lemma types_without_errors m : hasValidationErrors (ValidateManifestTypes m) = false → manifest_typed m.
Proof.
  rewrite hasValidationErrors_false. intros Hn. apply ValidateManifestTypes_nil.
  destruct (ValidateManifestTypes m) as [|d l] eqn:E; [done|]. exfalso. apply (Hn d); [left|].
  apply (ValidateManifestTypes_errors m). rewrite E. left.
Qed.

Definition overlay_typed ov : Prop :=
  (∀ name o, ov_OutputSchemas ov !! name = Some o → fields_typed o) ∧
  (∀ name i, ov_InputOverrides ov !! name = Some i → fields_typed i) ∧
  fields_typed (oc_FieldSpec <$> ov_Config ov).

Lemma input_fold_lookup (l : list (string * gmap string FieldSpec)) (m : gmap string ActionSpec) name :
  NoDup l.*1 →
  foldl (λ m kv, <[kv.1 := set_Inputs kv.2 (default zero_action (m !! kv.1))]> m) m l !! name =
  match (list_to_map l : gmap string (gmap string FieldSpec)) !! name with
  | Some i => Some (set_Inputs i (default zero_action (m !! name)))
  | None => m !! name
  end.
Proof.
  revert m. induction l as [|[k i] l IH]; intros m Hnd; [simpl; by rewrite lookup_empty|].
  apply NoDup_cons in Hnd as [Hk Hnd]. simpl. rewrite IH by done.
  destruct (decide (k = name)) as [->|Hne].
  - rewrite !lookup_insert_eq, not_elem_of_list_to_map_1 by done. done.
  - by rewrite !lookup_insert_ne by done.
Qed.

Lemma type_manifest_typed ov : manifest_typed (type_manifest ov) → overlay_typed ov.
Proof.
  intros [Ha Hc]. unfold type_manifest in Ha. simpl in Ha.
  set (l := range_map "input_overrides" (ov_InputOverrides ov)) in Ha.
  assert (list_to_map l = ov_InputOverrides ov ∧ NoDup l.*1) as [Hl Hnd].
  { assert (NoDup l.*1) by (unfold l; rewrite range_map_perm; apply NoDup_fst_map_to_list).
    split; [|done]. rewrite <- (list_to_map_to_list (ov_InputOverrides ov)).
    apply list_to_map_proper; [done|]. apply range_map_perm. }
  assert (∀ name, let a := (match ov_InputOverrides ov !! name with
      | Some i => Some (set_Inputs i (default zero_action
                   (((λ o, set_Outputs o zero_action) <$> ov_OutputSchemas ov) !! name)))
      | None => ((λ o, set_Outputs o zero_action) <$> ov_OutputSchemas ov) !! name
      end) in ∀ x, a = Some x → action_typed x) as Hact.
  { intros name a x Hx. apply (Ha name x). rewrite input_fold_lookup by done. by rewrite Hl. }
  split; [|split; [|done]].
  - intros name o Ho. specialize (Hact name). rewrite lookup_fmap, Ho in Hact.
    destruct (ov_InputOverrides ov !! name); by destruct (Hact _ eq_refl).
  - intros name i Hi. specialize (Hact name). rewrite Hi in Hact. by destruct (Hact _ eq_refl).
Qed.

Lemma accepted_overlay_typed ov :
  hasValidationErrors (ValidateMCPOverlay ov) = false → overlay_typed ov.
Proof.
  unfold ValidateMCPOverlay. rewrite hasValidationErrors_sort, !hasValidationErrors_app.
  intros Hn. repeat (apply orb_false_iff in Hn as [_ Hn]).
  by apply type_manifest_typed, types_without_errors.
Qed.

Definition merging_typed (m : merging) : Prop :=
  (∀ name c a, me_actions m !! name = Some (c, a) → fields_typed (as_Outputs a)) ∧
  (∀ c i, me_inputs m !! c = Some i → fields_typed i).

Lemma start_merge_typed actions :
  (∀ name a, actions !! name = Some a → action_typed a) → merging_typed (start_merge actions).
Proof.
  intros Ha. split; simpl.
  - intros name c a. rewrite map_lookup_imap. intros (a0 & Ha0 & [= <- <-])%bind_Some.
    apply Ha in Ha0 as [_ Ho]. by case_match.
  - intros c i. rewrite lookup_fmap. intros (a & Ha0 & ->)%fmap_Some. by apply Ha in Ha0 as [? _].
Qed.

Lemma group_typed ov m : merging_typed m → merging_typed (applyGroupActions ov m).2.
Proof.
  intros [Ha Hi]. unfold applyGroupActions. case_bool_decide; [done|].
  set (keys := sort_Strings _).
  assert (∀ acc, (∀ name c a, acc.2 !! name = Some (c, a) → fields_typed (as_Outputs a)) →
    ∀ name c a, (foldl (group_step (me_actions m) ov) acc keys).2 !! name = Some (c, a) →
      fields_typed (as_Outputs a)) as Hfold.
  { induction keys as [|k keys IH]; [done|]. intros [diags grouped] Hg. simpl. apply IH.
    unfold group_step. destruct (me_actions m !! _) as [[cell src]|] eqn:Hsrc; [|done].
    assert (∀ name c a, <[k := (cell, set_MCPToolName (default EmptyString (ov_GroupActions ov !! k)) src)]>
      grouped !! name = Some (c, a) → fields_typed (as_Outputs a)) as Hins.
    { intros name c a [[_ [= <- <-]]|[_ Hx]]%lookup_insert_Some; [exact (Ha _ _ _ Hsrc)|by eapply Hg]. }
    simpl. case_bool_decide; [|done]. intros name c a [_ Hx]%lookup_delete_Some. by eapply Hins. }
  specialize (Hfold ([], me_actions m) Ha).
  destruct (foldl _ _ keys) as [diags grouped]. by split.
Qed.

Lemma overrides_typed {A} (o : gmap string A) f m :
  (∀ name x a, o !! name = Some x → fields_typed (as_Outputs a) → fields_typed (as_Outputs (f x a))) →
  merging_typed m → merging_typed (apply_overrides o f m).
Proof.
  intros Hf [Ha Hi]. split; [|done]. intros name c a. simpl. rewrite map_lookup_imap.
  intros ([c' a'] & Hl & [= <- <-])%bind_Some. apply Ha in Hl.
  destruct (o !! name) eqn:Ho; [by eapply Hf|done].
Qed.

Lemma fields_typed_union a b : fields_typed a → fields_typed b → fields_typed (a ∪ b).
Proof. intros Ha Hb name spec [Hl|[_ Hl]]%lookup_union_Some_raw; eauto. Qed.

Lemma inputs_typed ov m : overlay_typed ov → merging_typed m → merging_typed (applyInputOverrides ov m).
Proof.
  intros (_ & Hov & _). unfold applyInputOverrides.
  assert (∀ kv, kv ∈ range_map "apply_inputs" (ov_InputOverrides ov) → fields_typed kv.2) as Hl.
  { intros [k i] Hk. apply (elem_of_range "apply_inputs") in Hk. by eapply Hov. }
  revert m. induction (range_map _ _) as [|kv l IH]; intros m Hm; [done|]. simpl.
  apply IH; [intros kv' Hkv'; apply Hl; by right|].
  unfold input_step. destruct (me_actions m !! kv.1) as [[cell a]|]; [|done].
  destruct Hm as [Ha Hi]. split; [done|]. simpl. intros c i [[_ <-]|[_ Hx]]%lookup_insert_Some; [|by eapply Hi].
  apply fields_typed_union; [apply Hl; left|].
  destruct (me_inputs m !! cell) eqn:Hc; simpl; [by eapply Hi|apply fields_typed_empty].
Qed.

Lemma finish_merge_typed m : merging_typed m →
  ∀ name a, finish_merge m !! name = Some a → action_typed a.
Proof.
  intros [Ha Hi] name a. unfold finish_merge. rewrite lookup_fmap.
  intros ([c a'] & Hl & ->)%fmap_Some. split; simpl; [|by eapply Ha].
  destruct (me_inputs m !! c) eqn:Hc; simpl; [by eapply Hi|apply fields_typed_empty].
Qed.

Lemma MergeMCPOverlay_typed base ov merged diags :
  manifest_typed base → MergeMCPOverlay base ov = (merged, diags, false) → manifest_typed merged.
Proof.
  intros [Hact Hcfg]. unfold MergeMCPOverlay.
  destruct (hasValidationErrors (ValidateMCPOverlay ov)) eqn:He; [done|].
  apply accepted_overlay_typed in He as Hov. pose proof (start_merge_typed _ Hact) as Hm.
  apply (group_typed ov) in Hm. destruct (applyGroupActions ov _) as [gdiags m]. simpl in Hm.
  intros [= <- _ _]. split; simpl.
  - apply finish_merge_typed. repeat (apply overrides_typed; [|]).
    + intros name mode a _ Ha. unfold apply_mode. by repeat case_match.
    + intros name o a Ho _. by apply (proj1 Hov) in Ho.
    + apply inputs_typed; [done|]. by apply overrides_typed.
  - apply fields_typed_union; [apply Hov|done].
Qed.
End Overlay.

(** C20: whatever tools an MCP server lists with whatever input schemas, and
    whatever overlay is applied, a manifest that discovery returns passes the
    validation of its types: every declared type is known and every array, however
    nested, declares its items. *)
Theorem DiscoverMCPManifest_typed `{LowerTables} `{RangeOrder} (name : string)
    (transport : MCPTransport) (overlay : option MCPOverlay) (s : mcp_session) :
  match DiscoverMCPManifest name transport overlay s with
  | inl manifest => manifest_typed manifest ∧ ValidateManifestTypes manifest = []
  | inr _ => True
  end.
Proof.
  assert (∀ m, manifest_typed m → manifest_typed m ∧ ValidateManifestTypes m = []) as Hval
    by (intros m Hm; split; [done|by apply ValidateManifestTypes_nil]).
  unfold DiscoverMCPManifest, discover. case_bool_decide; [done|].
  destruct (se_connect s); [done|]. destruct (se_initialize s); [done|].
  destruct (se_list s) as [tools|]; [|done].
  pose proof (discovered_manifest_typed name transport tools) as Hm.
  destruct overlay as [ov|]; [|by apply Hval].
  destruct (MergeMCPOverlay _ ov) as [[merged diags] []] eqn:E; [done|].
  apply Hval. by eapply MergeMCPOverlay_typed.
Qed.

(** ** Samples *)

Section Sample.
#[local] Existing Instance key_order.
#[local] Instance no_lower : LowerTables := {| lower_other s := s |}.

Definition string_schema : value := VMap {[ "type" := VString "string" ]}.

Definition sample_tool (name : string) : MCPTool :=
  mkMCPTool name "" {[ "properties" := VMap {[ "path" := string_schema ]};
                       "required" := VSlice [VString "path"] ]}.

Definition sample_transport : MCPTransport := mkMCP MCPModeStdio "" "server" [] ∅ 0 zero_retry.

Definition sample_overlay (groups : gmap string string) (inputs : gmap string (gmap string FieldSpec))
  : MCPOverlay :=
  mkOverlay MCPOverlayVersionV1 groups ∅ ∅ ∅ (mkOverlayHealth "" "" "" 0 0 0) ∅ inputs
    (mkOverlayMeta "" "" "" []).

(** The names of the actions with the tool they call and the names of their inputs. *)
Definition outline (r : ToolManifest + error) : option (list (string * string * list string)) :=
  match r with
  | inl m => Some (map (λ na, (na.1, as_MCPToolName na.2, map fst (map_to_list (as_Inputs na.2))))
                     (map_to_list (mf_Actions m)))
  | inr _ => None
  end.

Definition discover_tools (names : list string) (overlay : option MCPOverlay) : ToolManifest + error :=
  DiscoverMCPManifest "files" sample_transport overlay
    (mkSession None None (inl (map sample_tool names))).

(** Two tools whose names differ only in punctuation become one action. *)
Example discovered_names :
  outline (discover_tools ["Read File"; "read-file"; "9p"] None) =
  Some [("a_9p", "9p", ["path"]); ("read_file", "read-file", ["path"])].
Proof. vm_compute. reflexivity. Qed.

(** Exchanging two names in [group_actions] loses one of the actions. *)
Example swap_loses_action :
  outline (discover_tools ["read"; "write"]
    (Some (sample_overlay (<["read" := "write"]> {[ "write" := "read" ]}) ∅))) =
  Some [("write", "read", ["path"])].
Proof. vm_compute. reflexivity. Qed.

(** An input override for one alias of a tool reaches its other aliases. *)
Example override_leaks :
  outline (discover_tools ["read"]
    (Some (sample_overlay (<["cat" := "read"]> {[ "show" := "read" ]})
       {[ "cat" := {[ "limit" := any_spec ]} ]}))) =
  Some [("show", "read", ["limit"; "path"]); ("cat", "read", ["limit"; "path"])].
Proof. vm_compute. reflexivity. Qed.
End Sample.
