(* ===== verification/Base64.v ===== *)
(** * Base64 (what tool/secrets.go uses of encoding/base64)

    [StdEncoding.EncodeToString] and [StdEncoding.DecodeString] on byte strings:
    padding is required, newlines are skipped and the unused bits of the last
    group are ignored. *)

From stdpp Require Import strings list.
From Stdlib Require Import Ascii ZArith Lia.
From S2P Require Import Prelude Unicode.

Module Base64.
Definition byte (z : Z) : ascii := ascii_of_nat (Z.to_nat z).

Definition alphabet : string := "ABCDEFGHIJKLMNOPQRSTUVWXYZabcdefghijklmnopqrstuvwxyz0123456789+/".

(** The character of a 6-bit value and back. *)
Definition digit (z : Z) : ascii := default "A"%char (String.get (Z.to_nat z) alphabet).

Definition value (c : ascii) : option Z :=
  let v := byte_val c in
  if in_range 65 90 v then Some (v - 65)%Z
  else if in_range 97 122 v then Some (v - 71)%Z
  else if in_range 48 57 v then Some (v + 4)%Z
  else if (v =? 43)%Z then Some 62%Z
  else if (v =? 47)%Z then Some 63%Z
  else None.

(** The 6-bit values of three bytes. *)
Definition s0 (a : Z) : Z := a / 4.
Definition s1 (a b : Z) : Z := (a mod 4) * 16 + b / 16.
Definition s2 (b c : Z) : Z := (b mod 16) * 4 + c / 64.
Definition s3 (c : Z) : Z := c mod 64.

Fixpoint EncodeToString (s : string) : string :=
  match s with
  | EmptyString => EmptyString
  | String a EmptyString =>
      String (digit (s0 (byte_val a))) (String (digit (s1 (byte_val a) 0)) "==")
  | String a (String b EmptyString) =>
      String (digit (s0 (byte_val a)))
        (String (digit (s1 (byte_val a) (byte_val b))) (String (digit (s2 (byte_val b) 0)) "="))
  | String a (String b (String c r)) =>
      String (digit (s0 (byte_val a)))
        (String (digit (s1 (byte_val a) (byte_val b)))
           (String (digit (s2 (byte_val b) (byte_val c)))
              (String (digit (s3 (byte_val c))) (EncodeToString r))))
  end.

(** The bytes of four 6-bit values. *)
Definition b0 (x y : Z) : ascii := byte (x * 4 + y / 16).
Definition b1 (y z : Z) : ascii := byte ((y mod 16) * 16 + z / 4).
Definition b2 (z w : Z) : ascii := byte ((z mod 4) * 64 + w).

Definition is_pad (c : ascii) : bool := bool_decide (c = "="%char).

Fixpoint quanta (s : string) : option string :=
  match s with
  | EmptyString => Some EmptyString
  | String a (String b (String c (String d r))) =>
      match value a, value b with
      | Some x, Some y =>
          match value c with
          | Some z =>
              match value d with
              | Some w => (λ t, String (b0 x y) (String (b1 y z) (String (b2 z w) t))) <$> quanta r
              | None =>
                  if is_pad d && bool_decide (r = EmptyString)
                  then Some (String (b0 x y) (String (b1 y z) EmptyString)) else None
              end
          | None =>
              if is_pad c && is_pad d && bool_decide (r = EmptyString)
              then Some (String (b0 x y) EmptyString) else None
          end
      | _, _ => None
      end
  | _ => None
  end.

Fixpoint strip_newlines (s : string) : string :=
  match s with
  | EmptyString => EmptyString
  | String c t =>
      if (byte_val c =? 10)%Z || (byte_val c =? 13)%Z then strip_newlines t
      else String c (strip_newlines t)
  end.

Definition DecodeString (s : string) : option string := quanta (strip_newlines s).

Example samples :
  map EncodeToString ["petal"; "flow"; "x"; ""] = ["cGV0YWw="; "Zmxvdw=="; "eA=="; ""] ∧
  map DecodeString ["cGV0YWw="; "Zmxv
dw=="; "eA="; "e$=="] = [Some "petal"; Some "flow"; None; None].
Proof. vm_compute. by split. Qed.

(** ** The round trip *)

Lemma byte_byte_val c : byte (byte_val c) = c.
Proof. unfold byte, byte_val. by rewrite Nat2Z.id, ascii_nat_embedding. Qed.

(** The 64 characters, by enumeration. *)
Lemma digit_spec z : (0 ≤ z < 64)%Z →
  value (digit z) = Some z ∧ printable (digit z) = true ∧ digit z ≠ "="%char.
Proof.
  intros Hz. assert (z = Z.of_nat (Z.to_nat z)) as -> by lia.
  assert (Z.to_nat z < 64) as Hn by lia. revert Hn. generalize (Z.to_nat z) as n. clear.
  intros n Hn. do 64 (destruct n as [|n]; [vm_compute; by split_and!|]). lia.
Qed.

Lemma s0_range a : (0 ≤ a < 256 → 0 ≤ s0 a < 64)%Z.
Proof. unfold s0. intros. split; [apply Z.div_pos|apply Z.div_lt_upper_bound]; lia. Qed.
Lemma s1_range a b : (0 ≤ a < 256 → 0 ≤ b < 256 → 0 ≤ s1 a b < 64)%Z.
Proof. unfold s1. intros. pose proof (Z.mod_pos_bound a 4). assert (0 ≤ b / 16 < 16)%Z; [|lia].
  split; [apply Z.div_pos|apply Z.div_lt_upper_bound]; lia. Qed.
Lemma s2_range b c : (0 ≤ b < 256 → 0 ≤ c < 256 → 0 ≤ s2 b c < 64)%Z.
Proof. unfold s2. intros. pose proof (Z.mod_pos_bound b 16). assert (0 ≤ c / 64 < 4)%Z; [|lia].
  split; [apply Z.div_pos|apply Z.div_lt_upper_bound]; lia. Qed.
Lemma s3_range c : (0 ≤ s3 c < 64)%Z.
Proof. apply Z.mod_pos_bound. lia. Qed.

Lemma first_byte a b : (0 ≤ b < 256)%Z → b0 (s0 (byte_val a)) (s1 (byte_val a) b) = a.
Proof.
  intros Hb. pose proof (byte_val_range a). unfold b0, s0, s1. rewrite <- (byte_byte_val a) at 3. f_equal.
  rewrite Z.div_add_l, (Z.div_small (b / 16) 16) by (try split; try apply Z.div_pos; try apply Z.div_lt_upper_bound; lia).
  pose proof (Z.div_mod (byte_val a) 4). lia.
Qed.

Lemma low_part h l n : (0 ≤ l < n)%Z → ((h * n + l) mod n = l)%Z.
Proof. intros Hl. rewrite Z.add_comm, Z.mod_add by lia. by apply Z.mod_small. Qed.

Lemma second_byte a b c : (0 ≤ c < 256)%Z → b1 (s1 a (byte_val b)) (s2 (byte_val b) c) = b.
Proof.
  intros Hc. pose proof (byte_val_range b). unfold b1, s1, s2. rewrite <- (byte_byte_val b) at 3. f_equal.
  rewrite (low_part (a mod 4) (byte_val b / 16) 16)
    by (split; [apply Z.div_pos|apply Z.div_lt_upper_bound]; lia).
  rewrite Z.div_add_l, (Z.div_small (c / 64) 4)
    by (try split; try apply Z.div_pos; try apply Z.div_lt_upper_bound; lia).
  pose proof (Z.div_mod (byte_val b) 16). lia.
Qed.

Lemma third_byte b c : b2 (s2 b (byte_val c)) (s3 (byte_val c)) = c.
Proof.
  pose proof (byte_val_range c). unfold b2, s2, s3. rewrite <- (byte_byte_val c) at 3. f_equal.
  rewrite (low_part (b mod 16) (byte_val c / 64) 4)
    by (split; [apply Z.div_pos|apply Z.div_lt_upper_bound]; lia).
  pose proof (Z.div_mod (byte_val c) 64). lia.
Qed.

(** Induction by groups of three bytes. *)
Lemma string_ind3 (P : string → Prop) :
  P EmptyString → (∀ a, P (String a EmptyString)) → (∀ a b, P (String a (String b EmptyString))) →
  (∀ a b c r, P r → P (String a (String b (String c r)))) → ∀ s, P s.
Proof.
  intros H0 H1 H2 H3. fix IH 1. intros [|a [|b [|c r]]]; [apply H0|apply H1|apply H2|apply H3, IH].
Qed.

Lemma quanta_Encode s : quanta (EncodeToString s) = Some s.
Proof.
  induction s as [|a|a b|a b c r IH] using string_ind3; [done| | |].
  - cbn [EncodeToString quanta].
    destruct (digit_spec (s0 (byte_val a))) as (-> & _); [apply s0_range, byte_val_range|].
    destruct (digit_spec (s1 (byte_val a) 0)) as (-> & _); [apply s1_range; [apply byte_val_range|lia]|].
    change (value "="%char) with (@None Z). cbn [is_pad bool_decide andb].
    by rewrite first_byte by lia.
  - cbn [EncodeToString quanta].
    destruct (digit_spec (s0 (byte_val a))) as (-> & _); [apply s0_range, byte_val_range|].
    destruct (digit_spec (s1 (byte_val a) (byte_val b))) as (-> & _); [apply s1_range; apply byte_val_range|].
    destruct (digit_spec (s2 (byte_val b) 0)) as (-> & _); [apply s2_range; [apply byte_val_range|lia]|].
    change (value "="%char) with (@None Z).
    by rewrite first_byte, second_byte by (try apply byte_val_range; lia).
  - cbn [EncodeToString quanta].
    destruct (digit_spec (s0 (byte_val a))) as (-> & _); [apply s0_range, byte_val_range|].
    destruct (digit_spec (s1 (byte_val a) (byte_val b))) as (-> & _); [apply s1_range; apply byte_val_range|].
    destruct (digit_spec (s2 (byte_val b) (byte_val c))) as (-> & _); [apply s2_range; apply byte_val_range|].
    destruct (digit_spec (s3 (byte_val c))) as (-> & _); [apply s3_range|].
    rewrite IH. simpl. by rewrite first_byte, second_byte, third_byte by (apply byte_val_range).
Qed.

(** Encoded text is printable ASCII. *)
Lemma Encode_printable s :
  all_bytes printable (EncodeToString s) = true.
Proof.
  pose proof byte_val_range as Hr.
  assert (∀ z, (0 ≤ z < 64)%Z → printable (digit z) = true) as Hd
    by (intros z Hz; apply digit_spec, Hz).
  unfold all_bytes. induction s as [|a|a b|a b c r IH] using string_ind3; [done|..];
    cbn [EncodeToString String.list_ascii_of_string forallb];
    rewrite ?IH, ?Hd; try done; auto using s0_range, s3_range; (apply s1_range || apply s2_range); auto; lia.
Qed.

Lemma strip_newlines_printable s :
  all_bytes printable s = true → strip_newlines s = s.
Proof.
  unfold all_bytes. induction s as [|c s IH]; simpl; [done|]. intros [Hc Hs]%andb_prop.
  unfold printable, in_range in Hc. bool_simp.
  destruct (Z.eqb_spec (byte_val c) 10), (Z.eqb_spec (byte_val c) 13); try lia. simpl. by rewrite IH.
Qed.

Lemma DecodeString_EncodeToString s : DecodeString (EncodeToString s) = Some s.
Proof.
  unfold DecodeString. rewrite strip_newlines_printable by apply Encode_printable. apply quanta_Encode.
Qed.
End Base64.
