(* ===== verification/ToolRegistry.v ===== *)
(** * Tool registrations (tool/registry.go, tool/redaction.go, tool/secrets.go,
    tool/store_sqlite.go)

    The record of a registered tool, the masking of its sensitive configuration for
    display, and the encryption of the sensitive values in the stored record. The
    authenticated cipher is an interface with the law the code relies on; the hash,
    the environment and the random source are parameters.

    The theorem: what is stored can be read back, whatever the nonces. *)

From stdpp Require Import gmap strings list fin_maps.
From Stdlib Require Import Ascii ZArith Lia.
From S2P Require Import Prelude Values Unicode ToolManifest Base64.

(** ** Data *)

Definition StatusReady := "ready".
Definition StatusUnhealthy := "unhealthy".
Definition StatusDisabled := "disabled".
Definition StatusUnverified := "unverified".
Definition OriginNative := "native".
Definition OriginMCP := "mcp".
Definition OriginHTTP := "http".
Definition OriginStdio := "stdio".

Record ToolRegistration := mkReg {
  tr_Name : string;
  tr_Manifest : ToolManifest;
  tr_Origin : string;
  tr_Config : gmap string string;
  tr_Status : string;
  tr_RegisteredAt : Z;
  tr_LastHealthCheck : Z;
  tr_HealthFailures : Z;
  tr_Overlay : option string;            (** the path *)
  tr_Enabled : bool
}.

Definition set_reg_Config (c : gmap string string) (r : ToolRegistration) : ToolRegistration :=
  mkReg (tr_Name r) (tr_Manifest r) (tr_Origin r) c (tr_Status r) (tr_RegisteredAt r)
    (tr_LastHealthCheck r) (tr_HealthFailures r) (tr_Overlay r) (tr_Enabled r).

Definition ActionNames (r : ToolRegistration) : list string :=
  sort_Strings (map fst (map_to_list (mf_Actions (tr_Manifest r)))).

Definition is_blank (s : string) : bool := bool_decide (TrimSpace s = EmptyString).

(** ** Masking *)

Definition MaskedSecretValue := "**********".

Definition MaskSensitiveConfig (specs : gmap string FieldSpec) (values : gmap string string)
  : gmap string string :=
  map_imap (λ key v, Some
    match specs !! key with
    | Some spec => if fs_Sensitive spec && negb (is_blank v) then MaskedSecretValue else v
    | None => v
    end) values.

Definition RedactRegistration (reg : ToolRegistration) : ToolRegistration :=
  set_reg_Config (MaskSensitiveConfig (mf_Config (tr_Manifest reg)) (tr_Config reg)) reg.

Definition RedactRegistrations (regs : list ToolRegistration) : list ToolRegistration :=
  map RedactRegistration regs.

(** A redacted registration shows no sensitive value. *)
Lemma redaction_hides reg key spec :
  mf_Config (tr_Manifest reg) !! key = Some spec → fs_Sensitive spec = true →
  match tr_Config (RedactRegistration reg) !! key with
  | Some v => v = MaskedSecretValue ∨ is_blank v = true
  | None => True
  end.
Proof.
  intros Hs Hsens. simpl. unfold MaskSensitiveConfig. rewrite map_lookup_imap.
  destruct (tr_Config reg !! key) as [v|]; simpl; [|done]. rewrite Hs, Hsens. simpl.
  destruct (is_blank v) eqn:Hb; simpl; auto.
Qed.

(** ** The secret codec *)

(** [cipher.AEAD] with a fixed key size: opening with the nonce and the key of the
    sealing gives the plaintext back. *)
Class AEAD := {
  nonce_size : nat;
  seal : string → string → string → string;            (** key, nonce, plaintext *)
  open : string → string → string → string + error;    (** key, nonce, ciphertext *)
  open_seal key nonce plaintext : String.length nonce = nonce_size →
    open key nonce (seal key nonce plaintext) = inl plaintext
}.

Definition encryptedValuePrefix := "enc:v1:".

Definition isEncryptedValue (v : string) : bool := GoStr.HasPrefix (TrimSpace v) encryptedValuePrefix.

Section Secrets.
Context `{AEAD} (sha256 : string → string).

(** [env] is the environment variable, [username] the current user or [unknown]. *)
Definition deriveSecretKey (env username hostname scope : string) : string :=
  let env := TrimSpace env in
  if bool_decide (env ≠ EmptyString) then
    match Base64.DecodeString env with
    | Some decoded => if bool_decide (0 < String.length decoded) then sha256 decoded else sha256 env
    | None => sha256 env
    end
  else sha256 ("petalflow:" ^^ username ^^ ":" ^^ hostname ^^ ":" ^^ TrimSpace scope).

Definition no_codec : error := EFmt [PS "tool: secret codec is not initialized"].

(** [c] is the key of the codec, [None] the nil codec; [nonce] is what the random
    source returns. *)
Definition Encrypt (c : option string) (v : string) (nonce : string + error) : string + error :=
  match c with
  | None => inr no_codec
  | Some key =>
      if is_blank v then inl v
      else if isEncryptedValue v then inl v
      else match nonce with
           | inr err => inr err
           | inl nonce =>
               inl (encryptedValuePrefix ^^ Base64.EncodeToString (nonce ^^ seal key nonce v))
           end
  end.

Definition TrimPrefix (s prefix : string) : string :=
  if GoStr.HasPrefix s prefix then drop_bytes (String.length prefix) s else s.

Definition Decrypt (c : option string) (v : string) : string + error :=
  match c with
  | None => inr no_codec
  | Some key =>
      if negb (isEncryptedValue v) then inl v
      else match Base64.DecodeString (TrimPrefix v encryptedValuePrefix) with
           | None => inr (ESentinel "illegal base64 data")
           | Some payload =>
               if bool_decide (String.length payload < nonce_size) then
                 inr (EFmt [PS "tool: encrypted payload is too short"])
               else open key (take_bytes nonce_size payload) (drop_bytes nonce_size payload)
           end
  end.

(** ** The sensitive values of a registration *)

(** The loops over the declared configuration; [f] encrypts or decrypts one value. *)
Fixpoint map_sensitive (f : string → string → string + error) (what : string) (name : string)
    (specs : list (string * FieldSpec)) (config : gmap string string) : gmap string string + error :=
  match specs with
  | [] => inl config
  | (key, spec) :: rest =>
      if negb (fs_Sensitive spec) then map_sensitive f what name rest config
      else
        let v := default EmptyString (config !! key) in
        if is_blank v then map_sensitive f what name rest config
        else match f key v with
             | inr err => inr (EFmt [PS "tool: "; PS what; PS " config "; PQ key; PS " for "; PS name;
                                     PS ": "; PW err])
             | inl v' => map_sensitive f what name rest (<[key := v']> config)
             end
  end.

Definition sensitive_config `{RangeOrder} (f : string → string → string + error) (what : string)
    (reg : ToolRegistration) : ToolRegistration + error :=
  if bool_decide (size (tr_Config reg) = 0) || bool_decide (size (mf_Config (tr_Manifest reg)) = 0)
  then inl reg
  else match map_sensitive f what (tr_Name reg) (range_map what (mf_Config (tr_Manifest reg)))
               (tr_Config reg) with
       | inl config => inl (set_reg_Config config reg)
       | inr err => inr err
       end.

(** [nonces] gives what the random source returns for each key. *)
Definition encryptSensitiveRegistration `{RangeOrder} (key : string) (nonces : string → string + error)
    (reg : ToolRegistration) : ToolRegistration + error :=
  sensitive_config (λ k v, Encrypt (Some key) v (nonces k)) "encrypt" reg.

Definition decryptSensitiveRegistration `{RangeOrder} (key : string) (reg : ToolRegistration)
  : ToolRegistration + error :=
  sensitive_config (λ _ v, Decrypt (Some key) v) "decrypt" reg.

(** ** One value *)

Lemma HasPrefix_append p t : GoStr.HasPrefix (p ^^ t) p = true.
Proof. induction p as [|c p IH]; [by destruct t|]. simpl. by rewrite decide_True. Qed.

Lemma all_bytes_append p s t : all_bytes p (s ^^ t) = all_bytes p s && all_bytes p t.
Proof.
  unfold all_bytes. induction s as [|c s IH]; [done|]. simpl. by rewrite IH, andb_assoc.
Qed.

Lemma encrypted_text t :
  let e := encryptedValuePrefix ^^ Base64.EncodeToString t in
  TrimSpace e = e ∧ isEncryptedValue e = true ∧ is_blank e = false.
Proof.
  intros e. assert (TrimSpace e = e) as He.
  { apply TrimSpace_printable. unfold e. by rewrite all_bytes_append, Base64.Encode_printable. }
  split; [done|]. unfold isEncryptedValue, is_blank. rewrite He. split; [apply HasPrefix_append|done].
Qed.

Lemma Encrypt_total key v nonce : ∃ e, Encrypt (Some key) v (inl nonce) = inl e.
Proof. simpl. repeat case_match; eauto. Qed.

Lemma Decrypt_Encrypt key v nonce e :
  isEncryptedValue v = false → String.length nonce = nonce_size →
  Encrypt (Some key) v (inl nonce) = inl e →
  Decrypt (Some key) e = inl v ∧ is_blank e = is_blank v ∧
  (is_blank v = false → isEncryptedValue e = true).
Proof.
  intros Hv Hn. simpl. destruct (is_blank v) eqn:Hb; [intros [= <-]; by rewrite Hv|].
  rewrite Hv. intros [= <-].
  destruct (encrypted_text (nonce ^^ seal key nonce v)) as (_ & -> & ->). split; [|done]. simpl negb.
  cbv iota. unfold TrimPrefix. rewrite HasPrefix_append, drop_append_bytes.
  rewrite Base64.DecodeString_EncodeToString, bool_decide_false by (rewrite length_append_bytes; lia).
  rewrite <- Hn, take_append_bytes, drop_append_bytes. by apply open_seal.
Qed.

(** ** All sensitive values *)

Definition apply_sensitive (g : string → string → string) (specs : gmap string FieldSpec)
    (config : gmap string string) : gmap string string :=
  map_imap (λ k v, Some
    match specs !! k with
    | Some spec => if fs_Sensitive spec && negb (is_blank v) then g k v else v
    | None => v
    end) config.

Lemma map_sensitive_ok f what name l config g :
  NoDup l.*1 →
  (∀ k spec v, (k, spec) ∈ l → fs_Sensitive spec = true → config !! k = Some v →
     is_blank v = false → f k v = inl (g k v)) →
  map_sensitive f what name l config = inl (apply_sensitive g (list_to_map l) config).
Proof.
  revert config. induction l as [|[k spec] l IH]; intros config Hnd Hf.
  - simpl. f_equal. apply map_eq. intros k. unfold apply_sensitive. rewrite map_lookup_imap.
    destruct (config !! k); simpl; by rewrite ?lookup_empty.
  - apply NoDup_cons in Hnd as [Hk Hnd]. cbn [map_sensitive].
    assert (∀ c, (∀ k', k' ≠ k → c !! k' = config !! k') → map_sensitive f what name l c =
      inl (apply_sensitive g (list_to_map l) c)) as Hrest.
    { intros c Hc. apply IH; [done|]. intros k' spec' v Hin Hs Hv Hb. eapply Hf; [by right|done| |done].
      rewrite <- Hc; [done|]. intros ->. apply Hk. apply list_elem_of_fmap. by exists (k, spec'). }
    assert (∀ c, (∀ k', k' ≠ k → c !! k' = config !! k') →
      c !! k = (λ v, if fs_Sensitive spec && negb (is_blank v) then g k v else v) <$> config !! k →
      map_sensitive f what name l c = inl (apply_sensitive g (list_to_map ((k, spec) :: l)) config)) as Hgo.
    { intros c Hne Heq. rewrite Hrest by done. f_equal. apply map_eq. intros k'.
      unfold apply_sensitive. rewrite !map_lookup_imap. simpl. destruct (decide (k' = k)) as [->|Hn].
      - rewrite lookup_insert_eq, not_elem_of_list_to_map_1, Heq by done. by destruct (config !! k).
      - rewrite lookup_insert_ne, Hne by done. done. }
    destruct (fs_Sensitive spec) eqn:Hs; simpl negb; cbv iota; [|by apply Hgo; [|destruct (config !! k)]].
    destruct (config !! k) as [v|] eqn:Hv; simpl default.
    + destruct (is_blank v) eqn:Hb; [by apply Hgo; [done|]; rewrite Hv; simpl; rewrite Hb|].
      rewrite (Hf k spec v) by (done || left). apply Hgo; [intros; by rewrite lookup_insert_ne|].
      rewrite lookup_insert_eq. simpl. by rewrite Hb.
    + apply Hgo; [done|]. by rewrite Hv.
Qed.

Lemma sensitive_config_ok `{RangeOrder} f what reg g :
  (∀ k spec v, mf_Config (tr_Manifest reg) !! k = Some spec → fs_Sensitive spec = true →
     tr_Config reg !! k = Some v → is_blank v = false → f k v = inl (g k v)) →
  sensitive_config f what reg =
  inl (set_reg_Config (apply_sensitive g (mf_Config (tr_Manifest reg)) (tr_Config reg)) reg).
Proof.
  intros Hf. unfold sensitive_config.
  assert (list_to_map (range_map what (mf_Config (tr_Manifest reg))) = mf_Config (tr_Manifest reg) ∧
    NoDup (range_map what (mf_Config (tr_Manifest reg))).*1) as [Hl Hnd].
  { assert (NoDup (range_map what (mf_Config (tr_Manifest reg))).*1)
      by (rewrite range_map_perm; apply NoDup_fst_map_to_list).
    split; [|done]. rewrite <- (list_to_map_to_list (mf_Config (tr_Manifest reg))) at 2.
    apply list_to_map_proper; [done|]. apply range_map_perm. }
  rewrite (map_sensitive_ok _ _ _ _ _ g), Hl; [|done|].
  2: { intros k spec v Hin. apply (elem_of_range what) in Hin. by apply Hf. }
  case_match eqn:E; [|done]. f_equal. apply orb_prop in E as [E|E]; bool_simp; apply map_size_empty_inv in E.
  - destruct reg; simpl in *. subst. unfold set_reg_Config, apply_sensitive. simpl. by rewrite map_imap_empty.
  - assert (apply_sensitive g (mf_Config (tr_Manifest reg)) (tr_Config reg) = tr_Config reg) as ->.
    { apply map_eq. intros k. unfold apply_sensitive. rewrite map_lookup_imap, E, lookup_empty.
      by destruct (tr_Config reg !! k). }
    by destruct reg.
Qed.
End Secrets.

(** C21: a registration whose sensitive values do not look encrypted already is
    stored with every one of them encrypted or blank, and reading the stored record
    back gives the registration as it was, whatever nonces the random source
    returned and in whatever order the two loops visit the configuration. *)
Theorem stored_registration_roundtrip `{AEAD} `{RangeOrder} (key : string)
    (nonces : string → string + error) (reg : ToolRegistration) :
  (∀ k, ∃ n, nonces k = inl n ∧ String.length n = nonce_size) →
  (∀ k spec v, mf_Config (tr_Manifest reg) !! k = Some spec → fs_Sensitive spec = true →
     tr_Config reg !! k = Some v → isEncryptedValue v = false) →
  ∃ stored, encryptSensitiveRegistration key nonces reg = inl stored ∧
    decryptSensitiveRegistration key stored = inl reg ∧
    ∀ k spec v, mf_Config (tr_Manifest reg) !! k = Some spec → fs_Sensitive spec = true →
      tr_Config stored !! k = Some v → is_blank v = true ∨ isEncryptedValue v = true.
Proof.
  intros Hn Hplain.
  set (enc k v := match Encrypt (Some key) v (nonces k) with inl e => e | inr _ => v end).
  assert (∀ k v, Encrypt (Some key) v (nonces k) = inl (enc k v)) as Henc.
  { intros k v. unfold enc. destruct (Hn k) as (n & -> & _).
    by destruct (Encrypt_total key v n) as [e ->]. }
  assert (∀ k spec v, mf_Config (tr_Manifest reg) !! k = Some spec → fs_Sensitive spec = true →
    tr_Config reg !! k = Some v → Decrypt (Some key) (enc k v) = inl v ∧
      is_blank (enc k v) = is_blank v ∧ (is_blank v = false → isEncryptedValue (enc k v) = true)) as Hdec.
  { intros k spec v Hs Hsens Hv. destruct (Hn k) as (n & Hk & Hlen). specialize (Henc k v).
    rewrite Hk in Henc. eapply Decrypt_Encrypt; eauto. }
  set (stored := set_reg_Config (apply_sensitive enc (mf_Config (tr_Manifest reg)) (tr_Config reg)) reg).
  assert (∀ k, tr_Config stored !! k = (λ v, match mf_Config (tr_Manifest reg) !! k with
      | Some spec => if fs_Sensitive spec && negb (is_blank v) then enc k v else v
      | None => v end) <$> tr_Config reg !! k) as Hst.
  { intros k. unfold stored, apply_sensitive. simpl. rewrite map_lookup_imap. by destruct (tr_Config reg !! k). }
  exists stored. split; [|split].
  - unfold encryptSensitiveRegistration. apply sensitive_config_ok. intros. apply Henc.
  - unfold decryptSensitiveRegistration.
    rewrite (sensitive_config_ok _ _ _ (λ k v, match tr_Config reg !! k with Some u => u | None => v end)).
    + f_equal. destruct reg as [a b c cfg d e f g h i]. unfold set_reg_Config. simpl in *. f_equal.
      apply map_eq. intros k. unfold apply_sensitive. rewrite map_lookup_imap, Hst.
      destruct (cfg !! k) as [v|] eqn:Hv; simpl; [|done]. f_equal.
      destruct (mf_Config b !! k) as [spec|] eqn:Hs; [|done].
      destruct (fs_Sensitive spec) eqn:Hsens; simpl; [|done].
      destruct (Hdec k spec v Hs Hsens Hv) as (_ & Hb & _).
      destruct (is_blank v) eqn:Hbv; simpl; [by rewrite Hbv|]. by rewrite Hb.
    + intros k spec v Hs Hsens. rewrite Hst. simpl in Hs. rewrite Hs, Hsens.
      destruct (tr_Config reg !! k) as [u|] eqn:Hu; simpl; [|done]. intros [= <-] Hb.
      destruct (Hdec k spec u Hs Hsens Hu) as (Hd & _ & _).
      destruct (is_blank u) eqn:Hbu; simpl in *; [congruence|done].
  - intros k spec v Hs Hsens. rewrite Hst, Hs, Hsens.
    destruct (tr_Config reg !! k) as [u|] eqn:Hu; simpl; [|done]. intros [= <-].
    destruct (Hdec k spec u Hs Hsens Hu) as (_ & Hb & He).
    destruct (is_blank u) eqn:Hbu; simpl; auto.
Qed.

(** ** Samples *)

Section Sample.
#[local] Existing Instance key_order.

(** A cipher that puts the key before the text: it has the law, not the secrecy. *)
#[local, program] Instance toy_aead : AEAD := {|
  nonce_size := 2;
  seal key nonce plaintext := key ^^ plaintext;
  open key nonce ciphertext := inl (drop_bytes (String.length key) ciphertext)
|}.
Next Obligation. intros. simpl. by rewrite drop_append_bytes. Qed.

Definition secret_field : FieldSpec := mkField TypeString true "" VNil true None ∅.

Definition sample_reg (token : string) : ToolRegistration :=
  mkReg "t" (mkManifest SchemaToolV1 ManifestVersionV1 (mkTool "t" "" "" "" "" "" []) NewNativeTransport
               ∅ {[ "token" := secret_field ]} None)
    OriginNative (<["token" := token]> {[ "region" := "eu" ]}) StatusReady 0 0 0 None true.

Lemma stored_registration_roundtrip_witness :
  ∃ stored, encryptSensitiveRegistration "k" (λ _, inl "nn") (sample_reg "s3cret") = inl stored ∧
    decryptSensitiveRegistration "k" stored = inl (sample_reg "s3cret") ∧
    ∀ k spec v, mf_Config (tr_Manifest (sample_reg "s3cret")) !! k = Some spec →
      fs_Sensitive spec = true → tr_Config stored !! k = Some v →
      is_blank v = true ∨ isEncryptedValue v = true.
Proof.
  apply stored_registration_roundtrip; [intros k; by exists "nn"|].
  intros k spec v Hs _ Hv. cbn [mf_Config tr_Manifest sample_reg] in Hs.
  apply lookup_singleton_Some in Hs as [<- _].
  vm_compute in Hv. injection Hv as <-. vm_compute. reflexivity.
Defined.

Example stored_text :
  (λ r, tr_Config r !! "token") <$>
    match encryptSensitiveRegistration "k" (λ _, inl "nn") (sample_reg "s3cret") with
    | inl r => Some r | inr _ => None end
  = Some (Some "enc:v1:bm5rczNjcmV0").
Proof. vm_compute. reflexivity. Qed.

(** A value that starts like an encrypted one is stored as it is, and the stored
    record cannot be read back. *)
Example prefixed_secret_lost :
  encryptSensitiveRegistration "k" (λ _, inl "nn") (sample_reg "enc:v1:my secret") =
    inl (sample_reg "enc:v1:my secret") ∧
  decryptSensitiveRegistration "k" (sample_reg "enc:v1:my secret") =
    inr (EFmt [PS "tool: "; PS "decrypt"; PS " config "; PQ "token"; PS " for "; PS "t"; PS ": ";
               PW (ESentinel "illegal base64 data")]).
Proof. split; vm_compute; reflexivity. Qed.
End Sample.
