(* ===== verification/ToolValidation.v ===== *)
(** * Registration checks (tool/registration_validation.go, tool/validate.go)

    The validators a new registration passes through and their pipeline. The store
    and the reachability probes are interfaces of the code and parameters here.

    The theorem: a registration is accepted exactly when [registration_ok] holds. *)

From stdpp Require Import gmap strings list fin_maps.
From Stdlib Require Import Ascii ZArith Lia.
From S2P Require Import Prelude Values Unicode ToolManifest ToolSchema ToolAccept ToolOverlay ToolRegistry.

(** ** Interfaces *)

Record ReachabilityChecker := {
  CheckHTTP : string → option error;
  CheckStdio : string → option error;
  CheckMCP : ToolRegistration → option error
}.

Definition RegistrationValidationFailedCode := "REGISTRATION_VALIDATION_FAILED".

Record RegistrationValidationError := mkRVE {
  rve_Code : string; rve_Message : string; rve_Details : list Diagnostic
}.

(** [Store.Get]: the registration if there is one, or the error. *)
Definition StoreGet := string → option ToolRegistration + error.

Record RegistrationValidationOptions := mkOpts {
  vo_Store : option StoreGet;
  vo_Checker : option ReachabilityChecker;
  vo_AllowExistingName : bool
}.

(** ** Validators *)

Definition lower_letter (c : ascii) : bool := in_range 97 122 (byte_val c).
Definition name_byte (c : ascii) : bool :=
  lower_letter c || in_range 48 57 (byte_val c) || bool_decide (byte_val c = 95%Z).

(** The pattern [^[a-z][a-z0-9_]{1,63}$]. *)
Definition toolNamePattern (s : string) : bool :=
  match s with
  | EmptyString => false
  | String c r => lower_letter c && all_bytes name_byte r &&
                  bool_decide (1 ≤ String.length r ≤ 63)
  end.

Section Validators.
Context `{RangeOrder} `{LowerTables} (marshal_any : value → option json)
  (default_checker : ReachabilityChecker).

Definition RegistrationNameValidator (store : option StoreGet) (requireUnique : bool)
    (reg : ToolRegistration) : list Diagnostic :=
  let name := TrimSpace (tr_Name reg) in
  if bool_decide (name = EmptyString) then
    [field_error "name" "REQUIRED_FIELD" [PS "Tool name is required"]]
  else
    (if toolNamePattern name then []
     else [field_error "name" "INVALID_NAME" [PS "Tool name must match ^[a-z][a-z0-9_]{1,63}$"]]) ++
    match store, requireUnique with
    | Some get, true =>
        match get name with
        | inr err => [field_error "name" "STORE_LOOKUP_FAILED"
                        [PS "Failed to verify name uniqueness: "; PE err]]
        | inl (Some _) => [field_error "name" "NAME_NOT_UNIQUE"
                             [PS "Tool name "; PQ name; PS " is already registered"]]
        | inl None => []
        end
    | _, _ => []
    end.

(** One action name; the state is [seen] and the diagnostics so far. *)
Definition action_name_step (st : gmap string string * list Diagnostic) (actionName : string)
  : gmap string string * list Diagnostic :=
  let '(seen, diags) := st in
  let clean := TrimSpace actionName in
  if bool_decide (clean = EmptyString) then
    (seen, diags ++ [field_error "actions" "INVALID_ACTION_NAME" [PS "Action names must not be empty"]])
  else
    let diags := diags ++
      (if toolNamePattern clean then []
       else [field_error ("actions." ^^ clean) "INVALID_ACTION_NAME"
               [PS "Action name must match ^[a-z][a-z0-9_]{1,63}$"]]) in
    let lower := ToLower clean in
    match seen !! lower with
    | Some prev =>
        if bool_decide (prev ≠ clean) then
          (seen, diags ++ [field_error ("actions." ^^ clean) "ACTION_NOT_UNIQUE"
                             [PS "Action name "; PQ clean; PS " conflicts with "; PQ prev]])
        else (<[lower := clean]> seen, diags)
    | None => (<[lower := clean]> seen, diags)
    end.

Definition ActionNameValidator (reg : ToolRegistration) : list Diagnostic :=
  let actions := mf_Actions (tr_Manifest reg) in
  if bool_decide (size actions = 0) then
    [field_error "actions" "REQUIRED_FIELD" [PS "At least one action is required"]]
  else (foldl action_name_step (∅, []) (map fst (range_map "ActionNameValidator" actions))).2.

Definition unreachable (field : string) (err : option error) (message : list part) : list Diagnostic :=
  match err with Some _ => [field_error field "UNREACHABLE" message] | None => [] end.

Definition TransportReachabilityValidator (checker : option ReachabilityChecker)
    (reg : ToolRegistration) : list Diagnostic :=
  let checker := default default_checker checker in
  let t := mf_Transport (tr_Manifest reg) in
  if bool_decide (ts_Type t = TransportTypeNative) then []
  else if bool_decide (ts_Type t = TransportTypeHTTP) then
    let endpoint := TrimSpace (ts_Endpoint t) in
    if bool_decide (endpoint = EmptyString) then
      [field_error "transport.endpoint" "REQUIRED_FIELD" [PS "HTTP transport requires endpoint"]]
    else unreachable "transport.endpoint" (CheckHTTP checker endpoint)
           [PS "Could not connect to "; PS endpoint]
  else if bool_decide (ts_Type t = TransportTypeStdio) then
    let command := TrimSpace (ts_Command t) in
    if bool_decide (command = EmptyString) then
      [field_error "transport.command" "REQUIRED_FIELD" [PS "Stdio transport requires command"]]
    else unreachable "transport.command" (CheckStdio checker command)
           [PS "Command "; PQ command; PS " is not executable"]
  else if bool_decide (ts_Type t = TransportTypeMCP) then
    unreachable "transport" (CheckMCP checker reg) [PS "MCP transport initialization failed"]
  else [field_error "transport.type" "INVALID_TRANSPORT"
          [PS "Unsupported transport type "; PQ (ts_Type t)]].

Definition ConfigCompletenessValidator (reg : ToolRegistration) : list Diagnostic :=
  range_over "ConfigCompletenessValidator" (mf_Config (tr_Manifest reg)) (λ key spec,
    if negb (fs_Required spec) then []
    else if bool_decide (TrimSpace (default EmptyString (tr_Config reg !! key)) ≠ EmptyString) then []
    else [field_error ("config." ^^ key) "REQUIRED_FIELD"
            [PS "Required config field "; PQ key; PS " has no value"]]).

Definition SensitiveFieldValidator (reg : ToolRegistration) : list Diagnostic :=
  range_over "SensitiveFieldValidator" (mf_Config (tr_Manifest reg)) (λ key spec,
    if negb (fs_Sensitive spec) then []
    else match fs_Default spec with
         | VNil => []
         | _ => [field_error ("config." ^^ key ^^ ".default") "SENSITIVE_DEFAULT_FORBIDDEN"
                   [PS "Sensitive config field "; PQ key; PS " must not define a default"]]
         end).

(** ** The pipeline *)

Record Pipeline := mkPipeline {
  manifestValidators : list (ToolManifest → list Diagnostic);
  registrationValidators : list (ToolRegistration → list Diagnostic)
}.

Definition AddManifestValidator (v : ToolManifest → list Diagnostic) (p : Pipeline) : Pipeline :=
  mkPipeline (manifestValidators p ++ [v]) (registrationValidators p).
Definition AddRegistrationValidator (v : ToolRegistration → list Diagnostic) (p : Pipeline) : Pipeline :=
  mkPipeline (manifestValidators p) (registrationValidators p ++ [v]).

Definition run_validators {A} (vs : list (A → list Diagnostic)) (x : A) : list Diagnostic :=
  foldl (λ diags v, diags ++ v x) [] vs.
Definition ValidateManifest (p : Pipeline) : ToolManifest → list Diagnostic :=
  run_validators (manifestValidators p).
Definition ValidateRegistration (p : Pipeline) : ToolRegistration → list Diagnostic :=
  run_validators (registrationValidators p).

Definition registration_pipeline (opts : RegistrationValidationOptions) : Pipeline :=
  AddRegistrationValidator SensitiveFieldValidator
  (AddRegistrationValidator ConfigCompletenessValidator
  (AddRegistrationValidator (TransportReachabilityValidator (Some (default default_checker (vo_Checker opts))))
  (AddRegistrationValidator ActionNameValidator
  (AddRegistrationValidator (RegistrationNameValidator (vo_Store opts) (negb (vo_AllowExistingName opts)))
  (AddManifestValidator ValidateManifestTypes
  (AddManifestValidator (SchemaManifestValidator marshal_any) (mkPipeline [] []))))))).

Definition ValidateNewRegistration (reg : ToolRegistration) (opts : RegistrationValidationOptions)
  : option RegistrationValidationError :=
  let p := registration_pipeline opts in
  let diags := ValidateManifest p (tr_Manifest reg) ++ ValidateRegistration p reg in
  if negb (hasValidationErrors diags) then None
  else Some (mkRVE RegistrationValidationFailedCode "Tool registration failed validation" diags).
End Validators.

(** ** Every diagnostic is an error *)

Definition errors (l : list Diagnostic) : Prop := Forall (λ d, td_Severity d = SeverityError) l.

Lemma errors_silent l : errors l → hasValidationErrors l = false ↔ l = [].
Proof.
  rewrite hasValidationErrors_false. intros He. split; [|by intros -> d ?%not_elem_of_nil].
  intros Hn. destruct l as [|d l]; [done|]. apply Forall_cons in He as [Hd _].
  exfalso. apply (Hn d); [left|done].
Qed.

Lemma errors_app l1 l2 : errors l1 → errors l2 → errors (l1 ++ l2).
Proof. apply Forall_app_2. Qed.

Lemma errors_one field code message : errors [field_error field code message].
Proof. by repeat constructor. Qed.

Lemma errors_mjoin {A} (f : A → list Diagnostic) l : (∀ x, errors (f x)) → errors (mjoin (map f l)).
Proof. intros Hf. induction l; simpl; [constructor|by apply errors_app]. Qed.

Lemma errors_imap {A} (f : nat → A → list Diagnostic) l : (∀ i x, errors (f i x)) → errors (mjoin (imap f l)).
Proof.
  revert f. induction l as [|x l IH]; simpl; intros f Hf; [constructor|]. apply errors_app; [done|].
  apply IH. intros i y. apply Hf.
Qed.

Lemma errors_range `{RangeOrder} {A} site (m : gmap string A) f :
  (∀ k x, errors (f k x)) → errors (range_over site m f).
Proof. intros Hf. apply errors_mjoin. intros []. apply Hf. Qed.

Create HintDb errors discriminated.
#[local] Hint Constructors Forall : errors.
#[local] Hint Resolve errors_app errors_one : errors.

(** Cases of the tests around the diagnostics. *)
Ltac errs := repeat first
  [ progress cbn beta iota zeta
  | apply errors_app | apply errors_one | exact (Forall_nil_2 _)
  | apply errors_range; intros ? ? | apply errors_imap; intros ? ?
  | apply errors_mjoin; intros ?
  | match goal with |- errors (match ?x with _ => _ end) => destruct x end
  | assumption | solve [eauto with errors] ].

Section Errors.
Context `{RangeOrder} `{LowerTables} (marshal_any : value → option json)
  (default_checker : ReachabilityChecker).

Lemma optional_errors obj key path message ok : errors (optional obj key path message ok).
Proof. unfold optional, add. errs. Qed.

Lemma requireString_errors obj key path : errors (requireString obj key path).1.
Proof. unfold requireString, add. destruct (obj !! key) as [[]|]; errs. Qed.

Lemma requireObject_errors obj key path : errors (requireObject obj key path).1.
Proof. unfold requireObject, add. destruct (obj !! key) as [[]|]; errs. Qed.

Lemma requireText_errors obj key path message : errors (requireText obj key path message).
Proof.
  unfold requireText, add. pose proof (requireString_errors obj key path).
  destruct (requireString obj key path) as [ds s]. errs.
Qed.
#[local] Hint Resolve optional_errors requireText_errors : errors.

Lemma schemaFieldSpec_errors fuel spec path : errors (schemaFieldSpec fuel spec path).
Proof.
  revert spec path. induction fuel as [|fuel IH]; intros spec path; [constructor|]. cbn [schemaFieldSpec].
  pose proof (requireString_errors spec "type" (path ^^ ".type")).
  destruct (requireString _ _ _) as [ds ty]. unfold optionalBool, optionalString, add. errs.
Qed.
#[local] Hint Resolve schemaFieldSpec_errors : errors.

Lemma fields_of_errors obj key path : errors (fields_of obj key path).
Proof. unfold fields_of, validateFieldMap, add. errs. Qed.
#[local] Hint Resolve fields_of_errors : errors.

Lemma validateTransport_errors obj : errors (validateTransport obj).
Proof.
  unfold validateTransport, validateTransportType, validateTransportCommonFields, validateTransportArgs,
    validateTransportEnv, validateTransportRetry, validateRetry, validateTransportTypeSpecificFields,
    validateHTTPTransport, validateStdioTransport, validateMCPTransport, optionalCount, optionalString, each, add.
  pose proof (requireString_errors obj "type" "transport.type").
  pose proof (requireString_errors obj "mode" "transport.mode").
  destruct (requireString obj "type" _) as [ds ty], (requireString obj "mode" _) as [ds' mode]. errs.
Qed.

Lemma validateTool_errors obj : errors (validateTool obj).
Proof. unfold validateTool, optionalString, each, add. errs. Qed.

Lemma validateActions_errors obj path : errors (validateActions obj path).
Proof. unfold validateActions, validateAction, optionalString, optionalBool, add. errs. Qed.

Lemma validateHealth_errors obj path : errors (validateHealth obj path).
Proof. unfold validateHealth, optionalString, optionalCount. errs. Qed.
#[local] Hint Resolve validateTransport_errors validateTool_errors validateActions_errors
  validateHealth_errors : errors.

Lemma SchemaManifestValidator_errors m : errors (SchemaManifestValidator marshal_any m).
Proof.
  unfold SchemaManifestValidator, ValidateManifestJSON, validateRoot, optionalString, from_option, add.
  destruct (manifest_encodable marshal_any m); [|errs]. cbn [negb].
  destruct (manifest_doc marshal_any m) as [| | | | |obj]; try solve [errs].
  pose proof (requireString_errors obj "manifest_version" "manifest_version").
  pose proof (requireObject_errors obj "tool" "tool").
  pose proof (requireObject_errors obj "transport" "transport").
  pose proof (requireObject_errors obj "actions" "actions").
  destruct (requireString _ _ _), (requireObject obj "tool" _), (requireObject obj "transport" _),
    (requireObject obj "actions" _). errs.
Qed.

Lemma RegistrationNameValidator_errors store unique reg :
  errors (RegistrationNameValidator store unique reg).
Proof. unfold RegistrationNameValidator. errs. Qed.

Lemma action_name_step_errors st n : errors st.2 → errors (action_name_step st n).2.
Proof.
  destruct st as [seen ds]. intros Hds. simpl in Hds. unfold action_name_step.
  repeat case_match; simpl; errs.
Qed.

Lemma ActionNameValidator_errors reg : errors (ActionNameValidator reg).
Proof.
  unfold ActionNameValidator. case_bool_decide; [errs|].
  generalize (map fst (range_map "ActionNameValidator" (mf_Actions (tr_Manifest reg)))).
  assert (errors (∅ : gmap string string, [] : list Diagnostic).2) as He by constructor.
  revert He. generalize (∅ : gmap string string, [] : list Diagnostic). intros st Hst l.
  revert st Hst. induction l as [|n l IH]; intros st Hst; simpl; [done|].
  by apply IH, action_name_step_errors.
Qed.

Lemma TransportReachabilityValidator_errors checker reg :
  errors (TransportReachabilityValidator default_checker checker reg).
Proof. unfold TransportReachabilityValidator, unreachable. errs. Qed.

Lemma ConfigCompletenessValidator_errors reg : errors (ConfigCompletenessValidator reg).
Proof. unfold ConfigCompletenessValidator. errs. Qed.

Lemma SensitiveFieldValidator_errors reg : errors (SensitiveFieldValidator reg).
Proof. unfold SensitiveFieldValidator. errs. Qed.
End Errors.

(** ** What each validator accepts *)

(** The probe the transport asks for. *)
Definition probe (checker : ReachabilityChecker) (reg : ToolRegistration) : option error :=
  let t := mf_Transport (tr_Manifest reg) in
  if bool_decide (ts_Type t = TransportTypeHTTP) then CheckHTTP checker (TrimSpace (ts_Endpoint t))
  else if bool_decide (ts_Type t = TransportTypeStdio) then CheckStdio checker (TrimSpace (ts_Command t))
  else if bool_decide (ts_Type t = TransportTypeMCP) then CheckMCP checker reg
  else None.

Definition good_name (s : string) : Prop := toolNamePattern (TrimSpace s) = true.

Record registration_ok (marshal_any : value → option json) (checker : ReachabilityChecker)
    (opts : RegistrationValidationOptions) (reg : ToolRegistration) : Prop := {
  reg_encodable : manifest_encodable marshal_any (tr_Manifest reg) = true;
  reg_manifest : manifest_ok (tr_Manifest reg);
  reg_name : good_name (tr_Name reg);
  reg_unique : ∀ get, vo_Store opts = Some get → vo_AllowExistingName opts = false →
    get (TrimSpace (tr_Name reg)) = inl None;
  reg_actions : ∀ name a, mf_Actions (tr_Manifest reg) !! name = Some a → good_name name;
  reg_reachable : probe (default checker (vo_Checker opts)) reg = None;
  reg_config : ∀ key spec, mf_Config (tr_Manifest reg) !! key = Some spec → fs_Required spec = true →
    ∃ v, tr_Config reg !! key = Some v ∧ has_text v;
  reg_sensitive : ∀ key spec, mf_Config (tr_Manifest reg) !! key = Some spec → fs_Sensitive spec = true →
    fs_Default spec = VNil
}.

Section Accepts.
Context `{RangeOrder} `{LowerTables} (marshal_any : value → option json)
  (default_checker : ReachabilityChecker).

Lemma name_nil store unique reg :
  RegistrationNameValidator store unique reg = [] ↔
  good_name (tr_Name reg) ∧
  ∀ get, store = Some get → unique = true → get (TrimSpace (tr_Name reg)) = inl None.
Proof.
  unfold RegistrationNameValidator, good_name. case_bool_decide as He.
  - rewrite He. split; [done|by intros []].
  - rewrite app_nil_iff. f_equiv; [by destruct toolNamePattern|].
    destruct store as [get|]; [|done]. destruct unique; [|done].
    destruct (get _) as [[r|]|err] eqn:E; split; try done; try (by intros _ ? [= <-]);
      intros Hall; specialize (Hall get eq_refl eq_refl); congruence.
Qed.

(** Names that match the pattern are lower case, so that no two of them conflict. *)
Lemma name_byte_lower c : name_byte c = true → (byte_val c < 128)%Z ∧ lower_byte c = c.
Proof.
  unfold name_byte, lower_letter, lower_byte, in_range. intros Hc.
  destruct (65 <=? byte_val c)%Z eqn:E1, (byte_val c <=? 90)%Z eqn:E2; simpl; split; try done;
    rewrite ?orb_true_iff, ?andb_true_iff, ?Z.leb_le, ?bool_decide_eq_true in *; lia.
Qed.

Lemma ToLower_name s : toolNamePattern s = true → ToLower s = s.
Proof.
  destruct s as [|c r]; [done|]. unfold toolNamePattern. rewrite !andb_true_iff. intros [[Hc Hr] _].
  assert (all_bytes name_byte (String c r) = true) as Hall.
  { unfold all_bytes in *. simpl. rewrite Hr, andb_true_r. unfold name_byte. by rewrite Hc. }
  clear Hc Hr. unfold ToLower.
  assert (all_bytes (λ c, (byte_val c <? 128)%Z) (String c r) = true) as ->.
  { apply all_bytes_Forall. apply all_bytes_Forall in Hall. eapply Forall_impl; [exact Hall|].
    intros d Hd. apply Z.ltb_lt. by apply name_byte_lower. }
  revert Hall. generalize (String c r). intros s. induction s as [|d s IH]; [done|].
  unfold all_bytes. simpl. rewrite andb_true_iff. intros [Hd Hs]. f_equal; [by apply name_byte_lower|by apply IH].
Qed.

Lemma action_step_nil st n :
  (action_name_step st n).2 = [] → st.2 = [] ∧ good_name n.
Proof.
  destruct st as [seen ds]. unfold action_name_step, good_name.
  destruct (toolNamePattern (TrimSpace n)) eqn:E; repeat case_match; simpl; rewrite ?app_nil_iff;
    naive_solver.
Qed.

Lemma action_step_good seen n : good_name n → (∀ k v, seen !! k = Some v → v = k) →
  ∃ seen', action_name_step (seen, []) n = (seen', []) ∧ ∀ k v, seen' !! k = Some v → v = k.
Proof.
  unfold good_name, action_name_step. intros Hn Hseen. rewrite Hn, (ToLower_name _ Hn). simpl.
  rewrite bool_decide_false by (intros He; by rewrite He in Hn).
  assert (∀ k v, <[TrimSpace n := TrimSpace n]> seen !! k = Some v → v = k) as Hins.
  { intros k v. rewrite lookup_insert_Some. intros [[<- <-]|[_ Hk]]; [done|by apply Hseen]. }
  destruct (seen !! TrimSpace n) as [prev|] eqn:Hp; [|eauto].
  apply Hseen in Hp as ->. rewrite bool_decide_false by (intros []; done). eauto.
Qed.

Lemma action_names_nil l : (foldl action_name_step (∅, []) l).2 = [] ↔ Forall good_name l.
Proof.
  split.
  - generalize (∅ : gmap string string, [] : list Diagnostic). intros st Hnil.
    assert (st.2 = [] ∧ Forall good_name l) as [_ ?]; [|done]. revert st Hnil.
    induction l as [|n l IH]; simpl; intros st Hnil; [by split|].
    apply IH in Hnil as [Hn Hl]. apply action_step_nil in Hn as [? ?]. by repeat constructor.
  - assert (∀ k v, (∅ : gmap string string) !! k = Some v → v = k) as Hs
      by (intros k v Hk; by rewrite lookup_empty in Hk).
    revert Hs. generalize (∅ : gmap string string). intros seen Hs Hl. revert seen Hs.
    induction Hl as [|n l Hn Hl IH]; intros seen Hs; cbn [foldl]; [done|].
    destruct (action_step_good seen n Hn Hs) as (seen' & -> & Hs'). by apply IH.
Qed.

Lemma actions_nil reg : ActionNameValidator reg = [] ↔
  mf_Actions (tr_Manifest reg) ≠ ∅ ∧
  ∀ name a, mf_Actions (tr_Manifest reg) !! name = Some a → good_name name.
Proof.
  unfold ActionNameValidator. case_bool_decide as Hsz.
  - apply map_size_empty_inv in Hsz. naive_solver.
  - rewrite action_names_nil, Forall_forall. split.
    + intros Hall. split; [by intros He; rewrite He, map_size_empty in Hsz|].
      intros name a Ha. apply Hall, list_elem_of_fmap. exists (name, a).
      split; [done|by apply elem_of_range].
    + intros [_ Hall] name ([n a] & -> & Ha%elem_of_range)%list_elem_of_fmap. by eapply Hall.
Qed.

Lemma unreachable_nil field err message : unreachable field err message = [] ↔ err = None.
Proof. by destruct err. Qed.

Lemma reach_nil checker reg : target_ok (mf_Transport (tr_Manifest reg)) →
  TransportReachabilityValidator default_checker (Some checker) reg = [] ↔ probe checker reg = None.
Proof.
  unfold TransportReachabilityValidator, probe, has_text. simpl.
  intros [Ht|Ht Hx|Ht Hx|Ht _ Hx|Ht _ Hx]; rewrite Ht; unfold has_text in *; cbn;
    rewrite ?(bool_decide_false _ Hx); [done|..]; apply unreachable_nil.
Qed.

Lemma config_nil reg : ConfigCompletenessValidator reg = [] ↔
  ∀ key spec, mf_Config (tr_Manifest reg) !! key = Some spec → fs_Required spec = true →
    ∃ v, tr_Config reg !! key = Some v ∧ has_text v.
Proof.
  unfold ConfigCompletenessValidator, has_text. rewrite range_over_nil. split; intros Hall key spec Hs.
  - specialize (Hall key spec Hs). intros Hr. rewrite Hr in Hall. simpl in Hall.
    case_bool_decide as Hv; [|done]. destruct (tr_Config reg !! key) as [v|]; [eauto|].
    by destruct Hv.
  - destruct (fs_Required spec) eqn:Hr; simpl; [|done].
    destruct (Hall key spec Hs Hr) as (v & -> & Hv). by rewrite bool_decide_true.
Qed.

Lemma sensitive_nil reg : SensitiveFieldValidator reg = [] ↔
  ∀ key spec, mf_Config (tr_Manifest reg) !! key = Some spec → fs_Sensitive spec = true →
    fs_Default spec = VNil.
Proof.
  unfold SensitiveFieldValidator. rewrite range_over_nil. split; intros Hall key spec Hs.
  - specialize (Hall key spec Hs). intros Hr. rewrite Hr in Hall. simpl in Hall. by destruct (fs_Default spec).
  - destruct (fs_Sensitive spec) eqn:Hr; simpl; [|done]. by rewrite (Hall key spec Hs Hr).
Qed.

Lemma manifest_ok_typed m : manifest_ok m → ValidateManifestTypes m = [].
Proof.
  intros Hm. apply ValidateManifestTypes_nil. split.
  - intros name a Ha. destruct (ok_action m Hm name a Ha) as [Hi Ho].
    split; intros n spec Hs; apply schema_typed_well_typed; eauto.
  - intros n spec Hs. apply schema_typed_well_typed, (ok_config m Hm n spec Hs).
Qed.

(** The diagnostics, in the order of the pipeline. *)
Definition registration_diags reg opts : list Diagnostic :=
  SchemaManifestValidator marshal_any (tr_Manifest reg) ++ ValidateManifestTypes (tr_Manifest reg) ++
  RegistrationNameValidator (vo_Store opts) (negb (vo_AllowExistingName opts)) reg ++
  ActionNameValidator reg ++
  TransportReachabilityValidator default_checker (Some (default default_checker (vo_Checker opts))) reg ++
  ConfigCompletenessValidator reg ++ SensitiveFieldValidator reg.

Lemma pipeline_diags reg opts :
  let p := registration_pipeline marshal_any default_checker opts in
  ValidateManifest p (tr_Manifest reg) ++ ValidateRegistration p reg = registration_diags reg opts.
Proof. unfold registration_diags. cbn. rewrite <- !(assoc_L (++)). done. Qed.

Lemma registration_diags_errors reg opts : errors (registration_diags reg opts).
Proof.
  unfold registration_diags. apply errors_app; [apply SchemaManifestValidator_errors|].
  apply errors_app; [apply Forall_forall, ValidateManifestTypes_errors|].
  apply errors_app; [apply RegistrationNameValidator_errors|].
  apply errors_app; [apply ActionNameValidator_errors|].
  apply errors_app; [apply TransportReachabilityValidator_errors|].
  apply errors_app; [apply ConfigCompletenessValidator_errors|apply SensitiveFieldValidator_errors].
Qed.

Lemma registration_diags_nil reg opts :
  registration_diags reg opts = [] ↔ registration_ok marshal_any default_checker opts reg.
Proof.
  unfold registration_diags. rewrite !app_nil_iff, schema_manifest, name_nil, actions_nil, config_nil,
    sensitive_nil. setoid_rewrite negb_true_iff. split.
  - intros ((He & Hm) & _ & (Hn & Hu) & (_ & Ha) & Hr & Hc & Hs).
    pose proof (ok_target _ (ok_transport _ Hm)). split; try done. by apply reach_nil in Hr.
  - intros [He Hm Hn Hu Ha Hr Hc Hs]. pose proof (ok_target _ (ok_transport _ Hm)).
    split_and!; try done; [by apply manifest_ok_typed|by apply ok_actions|by apply reach_nil].
Qed.

Lemma ValidateNewRegistration_None reg opts :
  ValidateNewRegistration marshal_any default_checker reg opts = None ↔ registration_diags reg opts = [].
Proof.
  rewrite <- (errors_silent _ (registration_diags_errors reg opts)).
  unfold ValidateNewRegistration. rewrite pipeline_diags. by destruct hasValidationErrors.
Qed.

(** C22: a registration is accepted exactly when its manifest can be written and
    satisfies the schema, its name and the names of its actions match the pattern
    after trimming, the name is free in the store (when that is required), the
    transport answers, every required configuration value is set, and no sensitive
    field has a default. *)
Theorem registration_accepted_iff reg opts :
  ValidateNewRegistration marshal_any default_checker reg opts = None ↔
  registration_ok marshal_any default_checker opts reg.
Proof. by rewrite ValidateNewRegistration_None, registration_diags_nil. Qed.
End Accepts.

(** ** Examples *)

Definition plain_lower : LowerTables := {| lower_other := λ s, s |}.

Definition echo_action : ActionSpec :=
  mkAction "" "" {[ "text" := mkField TypeString true "" VNil false None ∅ ]} ∅ None false.

Definition sample_manifest (actions : gmap string ActionSpec) : ToolManifest :=
  mkManifest SchemaToolV1 ManifestVersionV1 (mkTool "echo" "" "" "" "" "" []) NewNativeTransport actions ∅ None.

Definition sample_registration (actions : gmap string ActionSpec) : ToolRegistration :=
  mkReg "echo" (sample_manifest actions) OriginNative ∅ StatusReady 0 0 0 None true.

Definition closed_checker : ReachabilityChecker :=
  {| CheckHTTP _ := Some (EFmt [PS "refused"]); CheckStdio _ := Some (EFmt [PS "refused"]);
     CheckMCP _ := Some (EFmt [PS "refused"]) |}.

Definition validate_sample (actions : gmap string ActionSpec) (store : option StoreGet) :=
  ValidateNewRegistration (H := key_order) (H0 := plain_lower) (λ _, None) closed_checker
    (sample_registration actions) (mkOpts store None false).

Definition codes (r : option RegistrationValidationError) : list string :=
  match r with Some e => map td_Code (rve_Details e) | None => [] end.

Example sample_accepted : validate_sample {[ "run" := echo_action ]} None = None.
Proof. vm_compute. reflexivity. Qed.

Example sample_taken :
  codes (validate_sample {[ "run" := echo_action ]} (Some (λ _, inl (Some (sample_registration ∅))))) =
  ["NAME_NOT_UNIQUE"].
Proof. vm_compute. reflexivity. Qed.

(** Two actions whose names are equal once trimmed are not reported. *)
Example trimmed_duplicate_accepted :
  validate_sample {[ "run" := echo_action; " run" := echo_action ]} None = None.
Proof. vm_compute. reflexivity. Qed.

(** A one-letter tool or action is refused, although discovery produces such names. *)
Example one_letter_refused :
  codes (validate_sample {[ "a" := echo_action ]} None) = ["INVALID_ACTION_NAME"].
Proof. vm_compute. reflexivity. Qed.
