(* ===== verification/ToolInvoke.v ===== *)
(** * Tool invocation (tool/error.go, tool/retry.go, tool/adapter_response.go,
    tool/http_adapter.go, tool/stdio_adapter.go, tool/mcp_adapter.go,
    tool/native_adapter.go, tool/mcp_output.go, tool/adapter_factory_default.go)

    Structured errors, the retry loop, and the adapters that send an invocation
    over HTTP, to a subprocess, to an MCP server or to a function of the program.
    The host gives the context, the clock, the timer and the observer; what a
    request, a process or a server answers are functions of the host, as is the
    JSON decoder.

    The theorem: the retry loop calls the function with the attempts 1, 2, ... in
    order, at most as often as the policy says, and stops at the first success or
    the first error that is not retryable. *)

From stdpp Require Import gmap strings list fin_maps sorting pretty.
From Stdlib Require Import ZArith Lia.
From S2P Require Import Prelude Values GoFmt Unicode ToolManifest ToolRegistry.

(** ** Errors *)

Record ToolErrorOf (E : Type) := mkToolError {
  te_Code : string;
  te_Message : string;
  te_Retryable : bool;
  te_Details : gmap string value;
  te_Cause : option E
}.
Arguments mkToolError {E}.
Arguments te_Code {E}.
Arguments te_Message {E}.
Arguments te_Retryable {E}.
Arguments te_Details {E}.
Arguments te_Cause {E}.

(** The errors of an invocation: of the libraries, of the network with its
    [Timeout()], of the MCP protocol, wrapped with [%w], and structured ones. *)
Inductive gerror :=
| GErr (e : error)
| GNet (e : error) (timeout : bool)
| GRPC (code : Z) (message : string)
| GRequest (method : string) (inner : gerror)
| GWrap (text : string) (inner : gerror)
| GTool (t : ToolErrorOf gerror).

Notation ToolError := (ToolErrorOf gerror).

Definition ToolErrorCodeActionNotFound := "ACTION_NOT_FOUND".
Definition ToolErrorCodeInvalidRequest := "INVALID_REQUEST".
Definition ToolErrorCodeTransportFailure := "TRANSPORT_FAILURE".
Definition ToolErrorCodeTimeout := "TIMEOUT".
Definition ToolErrorCodeUpstreamFailure := "UPSTREAM_FAILURE".
Definition ToolErrorCodeDecodeFailure := "DECODE_FAILURE".
Definition ToolErrorCodeInvocationFailed := "INVOCATION_FAILED".
Definition ToolErrorCodeMCPFailure := "MCP_FAILURE".

Definition deadline_exceeded := "context deadline exceeded".
Definition context_canceled := "context canceled".

(** [errors.Is(err, target)] for a sentinel. *)
Fixpoint gerror_Is (g : gerror) (target : string) : bool :=
  match g with
  | GErr e | GNet e _ => errors_Is e target
  | GRPC _ _ => false
  | GRequest _ inner | GWrap _ inner => gerror_Is inner target
  | GTool (mkToolError _ _ _ _ (Some cause)) => gerror_Is cause target
  | GTool (mkToolError _ _ _ _ None) => false
  end.

(** [errors.As] for the first structured error of the chain. *)
Fixpoint toolErrorFrom (g : gerror) : option ToolError :=
  match g with
  | GTool t => Some t
  | GRequest _ inner | GWrap _ inner => toolErrorFrom inner
  | _ => None
  end.

(** [errors.As] for the first [net.Error]: its [Timeout()]. [context.DeadlineExceeded]
    is one too. *)
Fixpoint net_timeout (g : gerror) : option bool :=
  match g with
  | GErr (ESentinel m) => if bool_decide (m = deadline_exceeded) then Some true else None
  | GErr _ => None
  | GNet _ timeout => Some timeout
  | GRPC _ _ => None
  | GRequest _ inner | GWrap _ inner => net_timeout inner
  | GTool (mkToolError _ _ _ _ (Some cause)) => net_timeout cause
  | GTool (mkToolError _ _ _ _ None) => None
  end.

(** [errors.As] for an RPC error: its code and message. *)
Fixpoint rpc_error (g : gerror) : option (Z * string) :=
  match g with
  | GRPC code message => Some (code, message)
  | GRequest _ inner | GWrap _ inner => rpc_error inner
  | GTool (mkToolError _ _ _ _ (Some cause)) => rpc_error cause
  | _ => None
  end.

(** [errors.As] for a request error. *)
Fixpoint request_error (g : gerror) : option (string * gerror) :=
  match g with
  | GRequest method inner => Some (method, inner)
  | GWrap _ inner => request_error inner
  | GTool (mkToolError _ _ _ _ (Some cause)) => request_error cause
  | _ => None
  end.

Section Texts.
Context (error_text : error → string) `{Quoter}.

Definition join_text (code msg : string) : string :=
  if bool_decide (code = EmptyString) then
    if bool_decide (msg = EmptyString) then ToolErrorCodeInvocationFailed else msg
  else if bool_decide (msg = EmptyString) then code else code ^^ ": " ^^ msg.

(** [Error()]. *)
Fixpoint gerror_text (g : gerror) : string :=
  match g with
  | GErr e | GNet e _ => error_text e
  | GRPC code message => "mcp: rpc error " ^^ pretty code ^^ ": " ^^ message
  | GRequest method inner => "mcp: request " ^^ strconv_Quote method ^^ " failed: " ^^ gerror_text inner
  | GWrap text inner => text ^^ gerror_text inner
  | GTool t => join_text (TrimSpace (te_Code t)) (TrimSpace (te_Message t))
  end.

Definition newToolError (code message : string) (retryable : bool) (cause : option gerror) : ToolError :=
  let cleanCode := TrimSpace code in
  let cleanMsg := TrimSpace message in
  mkToolError (if bool_decide (cleanCode = EmptyString) then ToolErrorCodeInvocationFailed else cleanCode)
    (match cause with
     | Some c => if bool_decide (cleanMsg = EmptyString) then gerror_text c else cleanMsg
     | None => cleanMsg
     end) retryable ∅ cause.

Definition withToolErrorDetails (t : ToolError) (details : gmap string value) : ToolError :=
  mkToolError (te_Code t) (te_Message t) (te_Retryable t) (details ∪ te_Details t) (te_Cause t).

Definition toolErrorCode (g : gerror) : string :=
  match toolErrorFrom g with Some t => te_Code t | None => EmptyString end.

Definition toolErrorCodeOrDefault (g : gerror) (fallback : string) : string :=
  if bool_decide (TrimSpace (toolErrorCode g) ≠ EmptyString) then toolErrorCode g
  else if bool_decide (TrimSpace fallback = EmptyString) then ToolErrorCodeInvocationFailed else fallback.

Definition isRetryableError (g : gerror) : bool :=
  match toolErrorFrom g with
  | Some t => te_Retryable t
  | None => if gerror_Is g deadline_exceeded then true else default false (net_timeout g)
  end.

(** ** Requests, responses, observations *)

Record InvokeRequest := mkInvoke {
  iq_ToolName : string; iq_Action : string; iq_Inputs : gmap string value; iq_Config : gmap string value;
  iq_RequestID : string
}.

(** [ir_Shared]: the outputs are the whole answer of the tool, so that the metadata is the
    map under its key "metadata" and a write to one is a write to the other. *)
Record InvokeResponse := mkShared {
  ir_Outputs : gmap string value; ir_DurationMS : Z; ir_Metadata : gmap string value; ir_Shared : bool
}.

Definition mkResponse (outputs : gmap string value) (duration : Z) (metadata : gmap string value) : InvokeResponse :=
  mkShared outputs duration metadata false.

(** [resp.Metadata[key] = v]. *)
Definition put_metadata (key : string) (v : value) (resp : InvokeResponse) : InvokeResponse :=
  let metadata := <[key := v]> (ir_Metadata resp) in
  mkShared (if ir_Shared resp then <["metadata" := VMap metadata]> (ir_Outputs resp) else ir_Outputs resp)
    (ir_DurationMS resp) metadata (ir_Shared resp).

Definition zero_response : InvokeResponse := mkResponse ∅ 0 ∅.

Record retryObservationMeta := mkMeta { ro_toolName : string; ro_action : string; ro_transport : string }.

Record ToolRetryObservation := mkRetryObs {
  rob_ToolName : string; rob_Action : string; rob_Transport : string; rob_Attempt : Z; rob_ErrorCode : string
}.

Record ToolInvokeObservation := mkInvokeObs {
  iob_ToolName : string; iob_Action : string; iob_Transport : string; iob_Attempts : Z; iob_DurationMS : Z;
  iob_Success : bool; iob_ErrorCode : string
}.

(** The context, the timer (the error when the context is done first), the clock in
    milliseconds and the observer. *)
Class ToolHost (W : Type) := {
  host_Err : GoM W (option error);
  host_Wait : Z → GoM W (option error);
  host_NowMS : GoM W Z;
  emitRetryObservation : ToolRetryObservation → GoM W unit;
  emitInvokeObservation : ToolInvokeObservation → GoM W unit
}.

(** ** The retry loop *)

Definition normalizeRetryPolicy (policy : RetryPolicy) : RetryPolicy :=
  mkRetry (if (rp_MaxAttempts policy <=? 0)%Z then 1%Z else rp_MaxAttempts policy)
    (if (rp_BackoffMS policy <? 0)%Z then 0%Z else rp_BackoffMS policy) (rp_RetryableCodes policy).

(** In nanoseconds. *)
Definition retryBackoffDuration (policy : RetryPolicy) (attempt : Z) : Z :=
  if (rp_BackoffMS policy <=? 0)%Z || (attempt <=? 0)%Z then 0%Z
  else wrap64 (wrap64 (rp_BackoffMS policy * attempt) * 1000000).

Section Retry.
Context {W : Type} `{ToolHost W}.

(** The result, the number of attempts and the error. *)
Definition invoke_result : Type := InvokeResponse * Z * option gerror.

(** [more] attempts from [attempt] on. *)
Fixpoint retry_loop (policy : RetryPolicy) (meta : retryObservationMeta) (fn : Z → GoM W (InvokeResponse + gerror))
    (more : nat) (attempt : Z) (lastErr : option gerror) : GoM W invoke_result :=
  match more with
  | 0 => mret (zero_response, rp_MaxAttempts policy, lastErr)
  | S more' =>
      d ← host_Err;
      match (d : option error) with
      | Some err => mret (zero_response, attempt, Some (GErr err))
      | None =>
          r ← fn attempt;
          match (r : InvokeResponse + gerror) with
          | inl resp => mret (resp, attempt, None)
          | inr lastErr =>
              if (attempt =? rp_MaxAttempts policy)%Z || negb (isRetryableError lastErr) then
                mret (zero_response, attempt, Some lastErr)
              else
                emitRetryObservation (mkRetryObs (ro_toolName meta) (ro_action meta) (ro_transport meta) attempt
                  (toolErrorCode lastErr));;
                let wait := retryBackoffDuration policy attempt in
                if (wait <=? 0)%Z then retry_loop policy meta fn more' (attempt + 1) (Some lastErr)
                else
                  d ← host_Wait wait;
                  match (d : option error) with
                  | Some err => mret (zero_response, attempt, Some (GErr err))
                  | None => retry_loop policy meta fn more' (attempt + 1) (Some lastErr)
                  end
          end
      end
  end.

Definition invokeWithRetry (policy : RetryPolicy) (meta : retryObservationMeta)
    (fn : Z → GoM W (InvokeResponse + gerror)) : GoM W invoke_result :=
  let normalized := normalizeRetryPolicy policy in
  retry_loop normalized meta fn (Z.to_nat (rp_MaxAttempts normalized)) 1 None.
End Retry.
End Texts.

(** ** Decoding answers *)

(** [json.Unmarshal] into a map. *)
Class JsonDecoder := { json_object : string → gmap string value + error }.

Definition is_integral (f : F64.t) : bool := F64.eqb f (F64.of_Z (F64.to_int f)).

(** [asInteger] on the values a decoded document holds: its numbers are [float64]. *)
Definition value_integer (v : value) : option Z :=
  match v with
  | VFloat64 f | VFloat32 f => if is_integral f then Some (F64.to_int f) else None
  | VInt z | VInt32 z | VInt64 z => Some z
  | _ => None
  end.

Section Adapters.
Context (error_text : error → string) `{Quoter} `{JsonDecoder} `{JsonEncoder}.
Notation newToolError := (newToolError error_text).

Definition decode_failure (message : string) : gerror :=
  GTool (newToolError ToolErrorCodeDecodeFailure message false None).

Definition decodeToolError (obj : gmap string value) : ToolError :=
  let details := match obj !! "details" with
                 | Some (VMap m) => m
                 | Some VNilMap | None => ∅
                 | Some v => {[ "details" := v ]}
                 end in
  let err := newToolError (string_or_empty (obj !! "code")) (string_or_empty (obj !! "message"))
               (match obj !! "retryable" with Some (VBool b) => b | _ => false end) None in
  mkToolError (te_Code err) (te_Message err) (te_Retryable err) details (te_Cause err).

Definition response_outputs (obj : gmap string value) : gmap string value + gerror :=
  match obj !! "outputs" with
  | None => inl obj
  | Some v => match value_map v with
              | Some m => inl m
              | None => inr (decode_failure "tool: invoke response outputs must be an object")
              end
  end.

Definition response_metadata (obj : gmap string value) : gmap string value + gerror :=
  match obj !! "metadata" with
  | None => inl ∅
  | Some v => match value_map v with
              | Some m => inl m
              | None => inr (decode_failure "tool: invoke response metadata must be an object")
              end
  end.

Definition response_duration (obj : gmap string value) (fallbackDuration : Z) : Z + gerror :=
  match obj !! "duration_ms" with
  | None => inl fallbackDuration
  | Some v => match value_integer v with
              | Some d => if (d <? 0)%Z then
                  inr (decode_failure "tool: invoke response duration_ms must be a non-negative integer")
                else inl d
              | None => inr (decode_failure "tool: invoke response duration_ms must be a non-negative integer")
              end
  end.

Definition decodeInvokeResponse (raw : string) (fallbackDuration : Z) : InvokeResponse + gerror :=
  if bool_decide (TrimSpace raw = EmptyString) then inl (mkResponse ∅ fallbackDuration ∅)
  else match json_object raw with
       | inr err => inr (GWrap "tool: decode invoke response: " (GErr err))
       | inl obj =>
           match obj !! "error" with
           | Some v => match value_map v with
                       | Some m => inr (GTool (decodeToolError m))
                       | None => inr (decode_failure "tool: invoke response error must be an object")
                       end
           | None =>
               match response_outputs obj with
               | inr g => inr g
               | inl outputs =>
                   match response_metadata obj with
                   | inr g => inr g
                   | inl metadata =>
                       match response_duration obj fallbackDuration with
                       | inr g => inr g
                       | inl duration =>
                           inl (mkShared outputs duration metadata
                             (match obj !! "outputs", obj !! "metadata" with None, Some _ => true | _, _ => false end))
                       end
                   end
               end
           end
       end.

(** ** What the adapters share *)

Section Invoke.
Context {W : Type} `{ToolHost W}.

Definition defaultAdapterTimeout : Z := 30000000000.

Definition timeoutFromRegistration (reg : ToolRegistration) : Z :=
  if (ts_TimeoutMS (mf_Transport (tr_Manifest reg)) <=? 0)%Z then defaultAdapterTimeout
  else wrap64 (ts_TimeoutMS (mf_Transport (tr_Manifest reg)) * 1000000).

(** Elapsed time; [start] was read before. *)
Definition elapsedMS (start : Z) : GoM W Z := now ← host_NowMS; mret (now - start)%Z.

Definition action_required : gerror :=
  GTool (newToolError ToolErrorCodeActionNotFound "tool: action is required" false
    (Some (GErr (wrapf (ESentinel "tool: action not found") [PS "empty action"])))).

(** The metadata of a success. *)
Definition count_attempts (attempts : Z) (resp : InvokeResponse) : InvokeResponse :=
  put_metadata "retry_count" (VInt (attempts - 1)) (put_metadata "attempts" (VInt attempts) resp).

(** ** HTTP *)

(** The ways a request ends: it cannot be built, sent or read, or it has a status and
    a body. *)
Inductive http_outcome :=
| HBuild (e : gerror)
| HSend (e : gerror)
| HRead (e : gerror)
| HAnswer (status : Z) (body : string).

Definition classifyHTTPInvokeError (err : gerror) : gerror :=
  let timeout := gerror_Is err deadline_exceeded || bool_decide (net_timeout err = Some true) in
  GTool (newToolError (if timeout then ToolErrorCodeTimeout else ToolErrorCodeTransportFailure)
    (if timeout then "tool: HTTP invoke timed out" else "tool: HTTP invoke failed") timeout (Some err)).

Definition isRetryableStatus (statusCode : Z) (policy : RetryPolicy) : bool :=
  bool_decide (statusCode ∈ rp_RetryableCodes policy).

(** [None] when the body holds no structured error, which every failure of the
    decoding is taken for. *)
Definition decodeStructuredHTTPError (body : string) : option ToolError :=
  if bool_decide (TrimSpace body = EmptyString) then None
  else match json_object body with
       | inr _ => None
       | inl payload =>
           match payload !! "error" with
           | Some v => decodeToolError <$> value_map v
           | None => None
           end
       end.

Definition decodeHTTPStatusError (status_text : Z → string) (statusCode : Z) (body : string) (policy : RetryPolicy)
    : gerror :=
  let details : gmap string value := {[ "http_status" := VInt statusCode ]} in
  match decodeStructuredHTTPError body with
  | Some t =>
      GTool (withToolErrorDetails (mkToolError (te_Code t) (te_Message t)
        (te_Retryable t || isRetryableStatus statusCode policy) (te_Details t) (te_Cause t)) details)
  | None =>
      let message := if bool_decide (TrimSpace body = EmptyString) then status_text statusCode else TrimSpace body in
      GTool (withToolErrorDetails (newToolError ToolErrorCodeUpstreamFailure
        ("tool: HTTP invoke returned status " ^^ pretty statusCode ^^ ": " ^^ message)
        (isRetryableStatus statusCode policy) None) details)
  end.

(** One attempt. *)
Definition http_attempt (http_Do : string → string → GoM W http_outcome) (status_text : Z → string)
    (policy : RetryPolicy) (endpoint body : string) : GoM W (InvokeResponse + gerror) :=
  start ← host_NowMS;
  r ← http_Do endpoint body;
  match (r : http_outcome) with
  | HBuild e => mret (inr (GTool (newToolError ToolErrorCodeInvalidRequest "tool: build HTTP request" false (Some e))))
  | HSend e => mret (inr (classifyHTTPInvokeError e))
  | HRead e => mret (inr (GTool (newToolError ToolErrorCodeTransportFailure "tool: read HTTP response" true (Some e))))
  | HAnswer status respBody =>
      if (status <? 200)%Z || (300 <=? status)%Z then mret (inr (decodeHTTPStatusError status_text status respBody policy))
      else el ← elapsedMS start; mret (decodeInvokeResponse respBody el)
  end.

Definition http_payload (reg : ToolRegistration) (req : InvokeRequest) : value :=
  VMap (list_to_map [("tool_name", VString (iq_ToolName req)); ("action", VString (iq_Action req));
    ("inputs", VMap (iq_Inputs req)); ("config", VMap (iq_Config req)); ("request_id", VString (iq_RequestID req));
    ("transport", VString (ts_Type (mf_Transport (tr_Manifest reg)))); ("tool_origin", VString (tr_Origin reg))]).

Definition http_Invoke http_Do status_text (reg : ToolRegistration) (req : InvokeRequest)
    : GoM W (InvokeResponse + gerror) :=
  let t := mf_Transport (tr_Manifest reg) in
  let endpoint := TrimSpace (ts_Endpoint t) in
  if bool_decide (endpoint = EmptyString) then
    mret (inr (GTool (newToolError ToolErrorCodeInvalidRequest "tool: http adapter endpoint is empty" false None)))
  else if bool_decide (TrimSpace (iq_Action req) = EmptyString) then mret (inr action_required)
  else match json_Marshal (http_payload reg req) with
       | inr err =>
           mret (inr (GTool (newToolError ToolErrorCodeInvalidRequest "tool: encode HTTP invoke request" false
             (Some (GErr err)))))
       | inl body =>
           totalStart ← host_NowMS;
           r ← invokeWithRetry (ts_Retry t) (mkMeta (iq_ToolName req) (iq_Action req) (ts_Type t))
                 (λ _, http_attempt http_Do status_text (ts_Retry t) endpoint body);
           match (r : invoke_result) with
           | (_, attempts, Some err) =>
               el ← elapsedMS totalStart;
               emitInvokeObservation (mkInvokeObs (iq_ToolName req) (iq_Action req) (ts_Type t) attempts el false
                 (toolErrorCode err));;
               el ← elapsedMS totalStart;
               mret (inr (GTool (withToolErrorDetails
                 (newToolError (toolErrorCodeOrDefault err ToolErrorCodeInvocationFailed) "tool: HTTP invoke failed"
                    (isRetryableError err) (Some err))
                 (list_to_map [("action", VString (iq_Action req)); ("tool_name", VString (iq_ToolName req));
                    ("transport", VString (ts_Type t)); ("attempts", VInt attempts); ("duration_ms", VInt64 el)]))))
           | (resp, attempts, None) =>
               el ← elapsedMS totalStart;
               let resp := put_metadata "total_duration_ms" (VInt64 el) (count_attempts attempts resp) in
               el ← elapsedMS totalStart;
               emitInvokeObservation (mkInvokeObs (iq_ToolName req) (iq_Action req) (ts_Type t) attempts el true "");;
               mret (inl resp)
           end
       end.

(** ** Subprocesses *)

(** The ways a process run ends: a pipe cannot be opened, the command does not start,
    the request cannot be written, the input not closed, the output not read; or it
    ended, with the state of the context and the error of [Wait]. *)
Inductive stdio_outcome :=
| SPipe (which : string) (e : gerror)
| SStart (e : gerror)
| SEncode (e : gerror)
| SCloseStdin (e : gerror)
| SReadStdout (e : gerror)
| SExit (stdout stderr : string) (waitErr : option gerror) (ctxErr : option error).

(** What is run: the command, its arguments, its environment and the timeout, which is
    set unless the context has a deadline. *)
Record stdio_command := mkCommand {
  sc_command : string; sc_args : list string; sc_env : list string; sc_timeout : Z; sc_request : InvokeRequest
}.

Definition flattenEnv (values : gmap string string) : list string :=
  map (λ kv, kv.1 ^^ "=" ^^ kv.2) (merge_sort key_le (map_to_list values)).

Definition decodeStdioInvokeResult (stdout stderr : string) (waitErr : option gerror) (ctxErr : option error) (start : Z)
    : GoM W (InvokeResponse + gerror) :=
  match ctxErr with
  | Some err =>
      mret (inr (GTool (if errors_Is err deadline_exceeded
        then newToolError ToolErrorCodeTimeout "tool: stdio invoke timed out" true (Some (GErr err))
        else newToolError ToolErrorCodeTransportFailure "tool: stdio invoke canceled" false (Some (GErr err)))))
  | None =>
      match waitErr with
      | Some err =>
          let message := if bool_decide (TrimSpace stderr = EmptyString) then gerror_text error_text err
                         else TrimSpace stderr in
          mret (inr (GTool (withToolErrorDetails
            (newToolError ToolErrorCodeUpstreamFailure ("tool: stdio invoke failed: " ^^ message) false (Some err))
            {[ "stderr" := VString message ]})))
      | None => el ← elapsedMS start; mret (decodeInvokeResponse stdout el)
      end
  end.

(** One attempt. The request is written by the process runner. *)
Definition invokeAttempt (run : stdio_command → GoM W stdio_outcome) (c : stdio_command) : GoM W (InvokeResponse + gerror) :=
  let failed code message retryable e := mret (inr (GTool (newToolError code message retryable (Some e)))) in
  start ← host_NowMS;
  r ← run c;
  match (r : stdio_outcome) with
  | SPipe which e => failed ToolErrorCodeInvalidRequest ("tool: stdio open " ^^ which) false e
  | SStart e => failed ToolErrorCodeTransportFailure "tool: stdio start command" true e
  | SEncode e => failed ToolErrorCodeInvalidRequest "tool: stdio encode request" false e
  | SCloseStdin e => failed ToolErrorCodeTransportFailure "tool: stdio close stdin" true e
  | SReadStdout e => failed ToolErrorCodeTransportFailure "tool: stdio read stdout" true e
  | SExit stdout stderr waitErr ctxErr => decodeStdioInvokeResult stdout stderr waitErr ctxErr start
  end.

Definition validateInvokeRequest (reg : ToolRegistration) (req : InvokeRequest) : string + gerror :=
  let command := TrimSpace (ts_Command (mf_Transport (tr_Manifest reg))) in
  if bool_decide (command = EmptyString) then
    inr (GTool (newToolError ToolErrorCodeInvalidRequest "tool: stdio adapter command is empty" false None))
  else if bool_decide (TrimSpace (iq_Action req) = EmptyString) then inr action_required
  else inl command.

Definition prepareCommand (reg : ToolRegistration) (command : string) (req : InvokeRequest) : stdio_command :=
  let t := mf_Transport (tr_Manifest reg) in
  mkCommand command (ts_Args t) (flattenEnv (ts_Env t)) (timeoutFromRegistration reg) req.

Definition stdio_Invoke run (reg : ToolRegistration) (req : InvokeRequest) : GoM W (InvokeResponse + gerror) :=
  let t := mf_Transport (tr_Manifest reg) in
  match validateInvokeRequest reg req with
  | inr err => mret (inr err)
  | inl command =>
      r ← invokeWithRetry (ts_Retry t) (mkMeta (iq_ToolName req) (iq_Action req) (ts_Type t))
            (λ _, invokeAttempt run (prepareCommand reg command req));
      match (r : invoke_result) with
      | (_, attempts, Some err) =>
          emitInvokeObservation (mkInvokeObs (iq_ToolName req) (iq_Action req) (ts_Type t) attempts 0 false
            (toolErrorCode err));;
          mret (inr (GTool (withToolErrorDetails
            (newToolError (toolErrorCodeOrDefault err ToolErrorCodeInvocationFailed) "tool: stdio invoke failed"
               (isRetryableError err) (Some err))
            {[ "attempts" := VInt attempts; "action" := VString (iq_Action req) ]})))
      | (resp, attempts, None) =>
          emitInvokeObservation (mkInvokeObs (iq_ToolName req) (iq_Action req) (ts_Type t) attempts
            (ir_DurationMS resp) true "");;
          mret (inl (count_attempts attempts resp))
      end
  end.

(** ** MCP *)

Record ContentBlock := mkBlock { cb_Type : string; cb_Text : string; cb_Data : string; cb_MimeType : string }.

Record ToolsCallResult := mkCallResult {
  cr_Content : list ContentBlock; cr_StructuredContent : gmap string value; cr_IsError : bool
}.

Definition extractMCPAttachments (content : list ContentBlock) : list value :=
  omap (λ block, if bool_decide (cb_Type block = "text") then None
                 else Some (VMap (list_to_map [("type", VString (cb_Type block)); ("data", VString (cb_Data block));
                        ("mime_type", VString (cb_MimeType block))]))) content.

Definition collectMCPText (content : list ContentBlock) : string :=
  GoStr.Join (omap (λ block, if bool_decide (cb_Type block = "text") && bool_decide (TrimSpace (cb_Text block) ≠ EmptyString)
                             then Some (cb_Text block) else None) content)
    (String (Ascii.ascii_of_nat 10) EmptyString).

Definition with_attachments (attachments : list value) (m : gmap string value) : gmap string value :=
  if bool_decide (0 < length attachments)
  then <["attachments" := VSliceOf "map[string]interface {}" attachments]> m else m.

Definition ParseMCPCallResult (result : ToolsCallResult) (action : ActionSpec) : gmap string value + gerror :=
  let attachments := extractMCPAttachments (cr_Content result) in
  let textValue := collectMCPText (cr_Content result) in
  let structured := cr_StructuredContent result in
  if bool_decide (0 < size (as_Outputs action)) then
    if bool_decide (size structured = 0) && bool_decide (TrimSpace textValue ≠ EmptyString) then
      match json_object textValue with
      | inr err => inr (GWrap "tool: parse mcp typed output: " (GErr err))
      | inl decoded => inl (with_attachments attachments decoded)
      end
    else inl (with_attachments attachments structured)
  else
    let raw := if bool_decide (0 < size structured) then VMap structured
               else if bool_decide (textValue ≠ EmptyString) then VString textValue else VMap ∅ in
    let raw := if bool_decide (0 < length attachments) then
                 match raw with
                 | VMap m => VMap (with_attachments attachments m)
                 | _ => VMap (with_attachments attachments {[ "text" := raw ]})
                 end
               else raw in
    inl {[ "result" := raw ]}.

Definition classifyMCPInvokeError (err : gerror) : gerror :=
  match rpc_error err with
  | Some (code, message) =>
      GTool (withToolErrorDetails (newToolError ToolErrorCodeMCPFailure (gerror_text error_text (GRPC code message)) false
        (Some err)) {[ "mcp_code" := VInt code ]})
  | None =>
      let timed_out := GTool (newToolError ToolErrorCodeTimeout "tool: mcp request timed out" true (Some err)) in
      match request_error err with
      | Some (method, inner) =>
          if gerror_Is err deadline_exceeded then timed_out
          else GTool (newToolError ToolErrorCodeTransportFailure (gerror_text error_text (GRequest method inner))
                 (negb (gerror_Is err context_canceled)) (Some err))
      | None =>
          if gerror_Is err deadline_exceeded then timed_out
          else GTool (newToolError ToolErrorCodeMCPFailure "tool: mcp invoke failed" false (Some err))
      end
  end.

Definition mcp_attempt (call : string → gmap string value → GoM W (ToolsCallResult + gerror)) (actionName : string)
    (action : ActionSpec) (targetTool : string) (inputs : gmap string value) : GoM W (InvokeResponse + gerror) :=
  start ← host_NowMS;
  r ← call targetTool inputs;
  match (r : ToolsCallResult + gerror) with
  | inr err => mret (inr (classifyMCPInvokeError err))
  | inl result =>
      match ParseMCPCallResult result action with
      | inr err => mret (inr (GTool (newToolError ToolErrorCodeDecodeFailure "tool: mcp decode call result" false (Some err))))
      | inl outputs =>
          if cr_IsError result then
            mret (inr (GTool (withToolErrorDetails
              (newToolError ToolErrorCodeMCPFailure
                 ("tool: mcp call reported error for action " ^^ strconv_Quote actionName) false None)
              {[ "mcp_tool_name" := VString targetTool; "outputs" := VMap outputs ]})))
          else el ← elapsedMS start;
               mret (inl (mkResponse outputs el {[ "mcp_tool_name" := VString targetTool ]}))
      end
  end.

Definition mcp_Invoke call (reg : ToolRegistration) (req : InvokeRequest) : GoM W (InvokeResponse + gerror) :=
  let t := mf_Transport (tr_Manifest reg) in
  let actionName := TrimSpace (iq_Action req) in
  if bool_decide (actionName = EmptyString) then mret (inr action_required)
  else match mf_Actions (tr_Manifest reg) !! actionName with
       | None =>
           mret (inr (GTool (newToolError ToolErrorCodeActionNotFound
             ("tool: action " ^^ strconv_Quote actionName ^^ " not found") false
             (Some (GErr (wrapf (ESentinel "tool: action not found") [PS actionName]))))))
       | Some action =>
           let name := TrimSpace (as_MCPToolName action) in
           let targetTool := if bool_decide (name = EmptyString) then actionName else name in
           totalStart ← host_NowMS;
           r ← invokeWithRetry (ts_Retry t) (mkMeta (iq_ToolName req) actionName (ts_Type t))
                 (λ _, mcp_attempt call actionName action targetTool (iq_Inputs req));
           match (r : invoke_result) with
           | (_, attempts, Some err) =>
               el ← elapsedMS totalStart;
               emitInvokeObservation (mkInvokeObs (iq_ToolName req) actionName (ts_Type t) attempts el false
                 (toolErrorCode err));;
               el ← elapsedMS totalStart;
               mret (inr (GTool (withToolErrorDetails
                 (newToolError (toolErrorCodeOrDefault err ToolErrorCodeInvocationFailed) "tool: mcp invoke failed"
                    (isRetryableError err) (Some err))
                 (list_to_map [("action", VString actionName); ("mcp_tool_name", VString targetTool);
                    ("attempts", VInt attempts); ("duration_ms", VInt64 el)]))))
           | (resp, attempts, None) =>
               el ← elapsedMS totalStart;
               let resp := put_metadata "total_duration_ms" (VInt64 el) (count_attempts attempts resp) in
               el ← elapsedMS totalStart;
               emitInvokeObservation (mkInvokeObs (iq_ToolName req) actionName (ts_Type t) attempts el true "");;
               mret (inl resp)
           end
       end.

(** ** Functions of the program, and the choice of an adapter *)

(** [NativeTool.Invoke]: action, inputs, configuration. *)
Definition NativeTool : Type := string → gmap string value → gmap string value → GoM W (gmap string value + gerror).

Definition native_Invoke (tool : NativeTool) (req : InvokeRequest) : GoM W (InvokeResponse + gerror) :=
  if bool_decide (iq_Action req = EmptyString) then
    mret (inr (GErr (wrapf (ESentinel "tool: action not found") [PS "empty action"])))
  else
    start ← host_NowMS;
    r ← tool (iq_Action req) (iq_Inputs req) (iq_Config req);
    match (r : gmap string value + gerror) with
    | inr err => mret (inr err)
    | inl outputs => el ← elapsedMS start; mret (inl (mkResponse outputs el ∅))
    end.

(** *** Built-in tools *)

Definition no_action (action : string) : gerror := GErr (wrapf (ESentinel "tool: action not found") [PS action]).

(** The template engine: it refuses the text, fails to execute it, or renders it. *)
Inductive template_outcome := TParse (e : error) | TExecute (e : error) | TRendered (s : string).

(** The values of the template: the explicit ones, and the other inputs over them. *)
Definition template_values (inputs : gmap string value) : gmap string value :=
  delete "template" (delete "values" inputs) ∪
  match inputs !! "values" with Some (VMap m) => m | _ => ∅ end.

Definition template_render_Invoke (execute : string → gmap string value → template_outcome) : NativeTool :=
  λ action inputs _,
    if bool_decide (action ≠ "render") then mret (inr (no_action action))
    else
      let body := string_or_empty (inputs !! "template") in
      if bool_decide (TrimSpace body = EmptyString) then
        mret (inr (GErr (EFmt [PS "template_render: template input is required"])))
      else mret (match execute body (template_values inputs) with
                 | TParse e => inr (GWrap "template_render: parse template: " (GErr e))
                 | TExecute e => inr (GWrap "template_render: execute template: " (GErr e))
                 | TRendered s => inl {[ "rendered" := VString s ]}
                 end).

(** The ways a fetch ends. *)
Inductive fetch_outcome :=
| FBuild (e : error)
| FSend (e : error)
| FRead (e : error)
| FAnswer (status : Z) (body : string) (headers : gmap string (list string)).

(** The method, URL, body and [Authorization] header of a request. *)
Definition http_fetch_Invoke `{UpperTables} (fetch : string → string → option string → option string → GoM W fetch_outcome)
    : NativeTool :=
  λ action inputs config,
    if bool_decide (action ≠ "fetch") then mret (inr (no_action action))
    else
      let url := string_or_empty (inputs !! "url") in
      if bool_decide (TrimSpace url = EmptyString) then
        mret (inr (GErr (EFmt [PS "http_fetch: url input is required"])))
      else
        let rawMethod := TrimSpace (string_or_empty (inputs !! "method")) in
        let body := string_or_empty (inputs !! "body") in
        let auth := string_or_empty (config !! "authorization") in
        r ← fetch (if bool_decide (rawMethod = EmptyString) then "GET" else ToUpper rawMethod) url
              (if bool_decide (body = EmptyString) then None else Some body)
              (if bool_decide (TrimSpace auth = EmptyString) then None else Some auth);
        mret (match (r : fetch_outcome) with
              | FBuild e => inr (GWrap "http_fetch: build request: " (GErr e))
              | FSend e => inr (GWrap "http_fetch: request failed: " (GErr e))
              | FRead e => inr (GWrap "http_fetch: read response: " (GErr e))
              | FAnswer status body headers =>
                  inl {[ "status_code" := VInt status; "body" := VString body;
                         "headers" := VMap ((λ values, VString (GoStr.Join values ", ")) <$> headers) ]}
              end).

Definition LookupBuiltinNativeTool `{UpperTables} execute fetch (name : string) : option NativeTool :=
  if bool_decide (name = "template_render") then Some (template_render_Invoke execute)
  else if bool_decide (name = "http_fetch") then Some (http_fetch_Invoke fetch)
  else None.

Inductive Adapter := ANative (tool : NativeTool) | AHTTP | AStdio | AMCP.

Definition native_adapter (lookup : option (string → option NativeTool)) (reg : ToolRegistration) : Adapter + error :=
  match lookup with
  | None => inr (EFmt [PS "tool: native lookup is not configured for "; PQ (tr_Name reg)])
  | Some f => match f (tr_Name reg) with
              | Some tool => inl (ANative tool)
              | None => inr (EFmt [PS "tool: native tool "; PQ (tr_Name reg); PS " is not registered"])
              end
  end.

(** The pool of an MCP adapter may fail to be made. *)
Definition NewMCPAdapter (new_pool : ToolRegistration → option error) (reg : ToolRegistration) : Adapter + error :=
  match AsMCP (mf_Transport (tr_Manifest reg)) with
  | None => inr (EFmt [PS "tool: registration "; PQ (tr_Name reg); PS " is not an mcp transport"])
  | Some _ => match new_pool reg with Some err => inr err | None => inl AMCP end
  end.

Definition adapter_New lookup new_pool (reg : ToolRegistration) : Adapter + error :=
  let by_kind (native http stdio mcp kind : string) (rest : Adapter + error) :=
    if bool_decide (kind = native) then native_adapter lookup reg
    else if bool_decide (kind = http) then inl AHTTP
    else if bool_decide (kind = stdio) then inl AStdio
    else if bool_decide (kind = mcp) then NewMCPAdapter new_pool reg
    else rest in
  let transport := ts_Type (mf_Transport (tr_Manifest reg)) in
  by_kind OriginNative OriginHTTP OriginStdio OriginMCP (tr_Origin reg)
    (by_kind TransportTypeNative TransportTypeHTTP TransportTypeStdio TransportTypeMCP transport
       (inr (EFmt [PS "tool: unsupported transport "; PQ transport; PS " for "; PQ (tr_Name reg)]))).
End Invoke.
End Adapters.

(** ** What the retry loop does *)

Section RetrySpec.
Context (error_text : error → string) `{Quoter} {W : Type} `{ToolHost W}.
Context (fn : Z → GoM W (InvokeResponse + gerror)).

(** What the function was called with and returned, as the world records it. *)
Context (calls : W → list (Z * (InvokeResponse + gerror))).
Hypothesis fn_calls : ∀ a w, ∃ w' r, fn a w = (w', Some r) ∧ calls w' = calls w ++ [(a, r)].
Hypothesis err_calls : ∀ w, ∃ w' d, host_Err w = (w', Some d) ∧ calls w' = calls w.
Hypothesis wait_calls : ∀ t w, ∃ w' d, host_Wait t w = (w', Some d) ∧ calls w' = calls w.
Hypothesis obs_calls : ∀ o w, ∃ w', emitRetryObservation o w = (w', Some tt) ∧ calls w' = calls w.

(** Failed attempts, from [a] on. *)
Definition failures (a : Z) (gs : list gerror) : list (Z * (InvokeResponse + gerror)) :=
  imap (λ i g, ((a + Z.of_nat i)%Z, inr g)) gs.

Lemma failures_cons a g gs : failures a (g :: gs) = (a, inr g) :: failures (a + 1) gs.
Proof.
  unfold failures. simpl. f_equal; [by rewrite Z.add_0_r|]. apply imap_ext. intros i x _. simpl. f_equal. lia.
Qed.

(** How the calls from [a] on ended: with success, with an error that is the last
    allowed or not retryable, or with the context. *)
Definition ended (limit a : Z) (w w' : W) (out : invoke_result) : Prop :=
  ∃ gs, Forall (λ g, isRetryableError g = true) gs ∧
    let n := (a + Z.of_nat (length gs))%Z in
    let '(resp, attempts, err) := out in
    (a ≤ attempts ≤ limit)%Z ∧
    ((err = None ∧ attempts = n ∧ calls w' = calls w ++ failures a gs ++ [(n, inl resp)]) ∨
     (∃ g, err = Some g ∧ attempts = n ∧ calls w' = calls w ++ failures a gs ++ [(n, inr g)] ∧
        (n = limit ∨ isRetryableError g = false)) ∨
     (∃ e, err = Some (GErr e) ∧ (attempts = n ∨ attempts = n - 1)%Z ∧ calls w' = calls w ++ failures a gs)).

Lemma ended_cons limit a w w1 w' g out :
  isRetryableError g = true → calls w1 = calls w ++ [(a, inr g)] → (1 ≤ a)%Z →
  ended limit (a + 1) w1 w' out → ended limit a w w' out.
Proof.
  intros Hg Hw Ha (gs & Hgs & Hout). exists (g :: gs). split; [by constructor|].
  destruct out as [[resp attempts] err]. cbv zeta in *. destruct Hout as [Hb Hout]. split; [lia|].
  rewrite failures_cons.
  replace (a + Z.of_nat (length (g :: gs)))%Z with (a + 1 + Z.of_nat (length gs))%Z by (simpl; lia).
  rewrite Hw in Hout.
  destruct Hout as [(?&?&Hc)|[(g' & ? & ? & Hc & ?)|(e & ? & ? & Hc)]]; rewrite <- app_assoc in Hc;
    [by left|right; left; by exists g'|right; right; by exists e].
Qed.

Lemma retry_loop_ended policy meta more : ∀ attempt lastErr w,
  (1 ≤ attempt)%Z → (attempt + Z.of_nat more = rp_MaxAttempts policy + 1)%Z → (0 < more) →
  ∃ w' out, retry_loop policy meta fn more attempt lastErr w = (w', Some out) ∧
    ended (rp_MaxAttempts policy) attempt w w' out.
Proof.
  induction more as [|more IH]; intros attempt lastErr w Ha Hmore Hpos; [lia|]. cbn [retry_loop].
  unfold mbind, gom_bind. destruct (err_calls w) as (w1 & [err|] & -> & He).
  { eexists _, _. split; [reflexivity|]. exists []. split; [constructor|]. simpl. split; [lia|]. right; right.
    exists err. split; [done|]. split; [lia|]. by rewrite app_nil_r. }
  destruct (fn_calls attempt w1) as (w2 & r & -> & Hc). rewrite He in Hc. destruct r as [resp|g].
  { eexists _, _. split; [reflexivity|]. exists []. split; [constructor|]. simpl. rewrite Z.add_0_r.
    split; [lia|]. left. done. }
  destruct ((attempt =? rp_MaxAttempts policy)%Z || negb (isRetryableError g)) eqn:Hlast.
  { eexists _, _. split; [reflexivity|]. exists []. split; [constructor|]. simpl. rewrite Z.add_0_r. split; [lia|].
    right; left. exists g. split_and!; [done..|]. apply orb_true_iff in Hlast as [?|?%negb_true_iff]; [left; lia|auto]. }
  apply orb_false_iff in Hlast as [Hne Hr%negb_false_iff].
  destruct (obs_calls (mkRetryObs (ro_toolName meta) (ro_action meta) (ro_transport meta) attempt (toolErrorCode g)) w2)
    as (w3 & -> & Ho). rewrite Hc in Ho.
  destruct (retryBackoffDuration policy attempt <=? 0)%Z.
  - destruct (IH (attempt + 1)%Z (Some g) w3) as (w' & out & Hrun & Hout); [lia..|].
    exists w', out. split; [exact Hrun|]. by eapply ended_cons.
  - destruct (wait_calls (retryBackoffDuration policy attempt) w3) as (w4 & [err|] & -> & Hw); rewrite Ho in Hw.
    + eexists _, _. split; [reflexivity|]. exists [g]. split; [by repeat constructor|]. simpl. split; [lia|].
      right; right. exists err. split; [done|]. split; [lia|]. rewrite Hw. unfold failures. simpl. by rewrite Z.add_0_r.
    + destruct (IH (attempt + 1)%Z (Some g) w4) as (w' & out & Hrun & Hout); [lia..|].
      exists w', out. split; [exact Hrun|]. by eapply ended_cons.
Qed.

(** C29: the retry loop returns; it calls the function with the attempts 1, 2, ...
    in this order, never more often than the policy allows (once for a policy without
    a positive limit), repeats only after retryable errors, and ends with the first
    success, with the first error that is not retryable or the one of the last
    attempt, or with the error of the context. *)
Theorem retry_bounds policy meta w :
  ∃ w' out, invokeWithRetry policy meta fn w = (w', Some out) ∧
    ended (Z.max 1 (rp_MaxAttempts policy)) 1 w w' out.
Proof.
  unfold invokeWithRetry.
  assert (rp_MaxAttempts (normalizeRetryPolicy policy) = Z.max 1 (rp_MaxAttempts policy)) as Hmax
    by (simpl; destruct (Z.leb_spec (rp_MaxAttempts policy) 0); lia).
  rewrite <- Hmax. apply retry_loop_ended; rewrite ?Hmax; lia.
Qed.
End RetrySpec.

(** ** Samples *)

Module RetrySamples.
(** A world that is the record of the calls; the function answers from a script. *)
Notation world := (list (Z * (InvokeResponse + gerror))).

#[local] Instance script_host : ToolHost world := {|
  host_Err := mret None; host_Wait _ := mret None; host_NowMS := mret 0%Z;
  emitRetryObservation _ := mret tt; emitInvokeObservation _ := mret tt
|}.

Definition busy : gerror := GTool (mkToolError ToolErrorCodeTimeout "busy" true ∅ None).

(** Fails [n] times. *)
Definition scripted (n : Z) (a : Z) : GoM world (InvokeResponse + gerror) := λ w,
  let r := if (a <=? n)%Z then inr busy else inl zero_response in (w ++ [(a, r)], Some r).

Definition attempts_of (policy : RetryPolicy) (n : Z) : list Z * option (Z * bool) :=
  match invokeWithRetry policy (mkMeta "t" "a" "http") (scripted n) [] with
  | (w, Some (_, k, err)) => (w.*1, Some (k, bool_decide (is_Some err)))
  | (w, None) => (w.*1, None)
  end.

Example retry_samples :
  (attempts_of (mkRetry 3 10 []) 1, attempts_of (mkRetry 3 10 []) 5, attempts_of (mkRetry 0 10 []) 5) =
  (([1; 2]%Z, Some (2%Z, false)), ([1; 2; 3]%Z, Some (3%Z, true)), ([1]%Z, Some (1%Z, true))).
Proof. vm_compute. reflexivity. Qed.

(** A large backoff overflows: the wait is negative, so that there is none. *)
Example backoff_overflow :
  retryBackoffDuration (mkRetry 3 (2 ^ 43) []) 2 = (- 854558029293551616)%Z.
Proof. vm_compute. reflexivity. Qed.

Lemma retry_bounds_witness :
  ∃ w' out, invokeWithRetry (mkRetry 3 10 []) (mkMeta "t" "a" "http") (scripted 1) [] = (w', Some out) ∧
    ended id 3 1 [] w' out.
Proof.
  apply (retry_bounds (scripted 1) id).
  - intros a w. eexists _, _. split; reflexivity.
  - intros w. eexists _, _. split; reflexivity.
  - intros t w. eexists _, _. split; reflexivity.
  - intros o w. eexists. split; reflexivity.
Defined.

(** The metadata of an answer without "outputs" is part of its outputs, and gets the
    counts too. *)
Example shared_metadata :
  let resp := mkShared {[ "metadata" := VMap ∅ ]} 0 ∅ true in
  ir_Outputs (put_metadata "attempts" (VInt 1) resp) = {[ "metadata" := VMap {[ "attempts" := VInt 1 ]} ]}.
Proof. reflexivity. Qed.
End RetrySamples.
