(* ===== verification/ToolService.v ===== *)
(** * The tool service (tool/service_daemon.go, tool/mcp_registration.go,
    tool/builtins.go, tool/health.go, tool/health_scheduler.go, tool/store_sqlite.go)

    The operations of the daemon on stored registrations, the health checks and
    their scheduler. The store and the functions of the configuration are
    interfaces: the store promises that what is written can be read, and discovery
    that a registration it builds has the name it was asked for and is not
    disabled. [BuildMCPRegistration] and [RefreshMCPRegistration] discharge the
    second promise, a table of rows the first.

    The theorem: every operation keeps the stored registrations acceptable, under
    their own names, and disabled exactly when their status says so. *)

From stdpp Require Import gmap strings list fin_maps sorting pretty.
From Stdlib Require Import Ascii ZArith Lia.
From S2P Require Import Prelude Values GoFmt Unicode ToolManifest ToolDiscovery ToolSchema ToolAccept ToolOverlay ToolRegistry.
From S2P Require Import ToolValidation ToolInvoke.

(** ** Health *)

Definition HealthUnknown := "unknown".
Definition HealthHealthy := "healthy".
Definition HealthUnhealthy := "unhealthy".

Record HealthReport := mkReport {
  hp_ToolName : string; hp_State : string; hp_CheckedAt : Z; hp_LatencyMS : Z; hp_FailureCount : Z;
  hp_ErrorMessage : string
}.

Definition set_FailureCount (n : Z) (r : HealthReport) : HealthReport :=
  mkReport (hp_ToolName r) (hp_State r) (hp_CheckedAt r) (hp_LatencyMS r) n (hp_ErrorMessage r).

(** ** Updates of a registration *)

Definition set_reg_Status (s : string) (r : ToolRegistration) : ToolRegistration :=
  mkReg (tr_Name r) (tr_Manifest r) (tr_Origin r) (tr_Config r) s (tr_RegisteredAt r)
    (tr_LastHealthCheck r) (tr_HealthFailures r) (tr_Overlay r) (tr_Enabled r).
Definition set_reg_Enabled (b : bool) (r : ToolRegistration) : ToolRegistration :=
  mkReg (tr_Name r) (tr_Manifest r) (tr_Origin r) (tr_Config r) (tr_Status r) (tr_RegisteredAt r)
    (tr_LastHealthCheck r) (tr_HealthFailures r) (tr_Overlay r) b.
Definition set_reg_Failures (n : Z) (r : ToolRegistration) : ToolRegistration :=
  mkReg (tr_Name r) (tr_Manifest r) (tr_Origin r) (tr_Config r) (tr_Status r) (tr_RegisteredAt r)
    (tr_LastHealthCheck r) n (tr_Overlay r) (tr_Enabled r).
Definition set_reg_Checked (t : Z) (r : ToolRegistration) : ToolRegistration :=
  mkReg (tr_Name r) (tr_Manifest r) (tr_Origin r) (tr_Config r) (tr_Status r) (tr_RegisteredAt r)
    t (tr_HealthFailures r) (tr_Overlay r) (tr_Enabled r).
Definition set_reg_Registered (t : Z) (r : ToolRegistration) : ToolRegistration :=
  mkReg (tr_Name r) (tr_Manifest r) (tr_Origin r) (tr_Config r) (tr_Status r) t
    (tr_LastHealthCheck r) (tr_HealthFailures r) (tr_Overlay r) (tr_Enabled r).
Definition set_reg_Overlay (o : option string) (r : ToolRegistration) : ToolRegistration :=
  mkReg (tr_Name r) (tr_Manifest r) (tr_Origin r) (tr_Config r) (tr_Status r) (tr_RegisteredAt r)
    (tr_LastHealthCheck r) (tr_HealthFailures r) o (tr_Enabled r).
Definition set_reg_Origin (o : string) (r : ToolRegistration) : ToolRegistration :=
  mkReg (tr_Name r) (tr_Manifest r) o (tr_Config r) (tr_Status r) (tr_RegisteredAt r)
    (tr_LastHealthCheck r) (tr_HealthFailures r) (tr_Overlay r) (tr_Enabled r).
Definition set_reg_Manifest (m : ToolManifest) (r : ToolRegistration) : ToolRegistration :=
  mkReg (tr_Name r) m (tr_Origin r) (tr_Config r) (tr_Status r) (tr_RegisteredAt r)
    (tr_LastHealthCheck r) (tr_HealthFailures r) (tr_Overlay r) (tr_Enabled r).

Definition set_tool_Name (name : string) (m : ToolManifest) : ToolManifest :=
  let t := mf_Tool m in
  mkManifest (mf_Schema m) (mf_ManifestVersion m)
    (mkTool name (tm_Version t) (tm_Description t) (tm_Author t) (tm_License t) (tm_Homepage t) (tm_Tags t))
    (mf_Transport m) (mf_Actions m) (mf_Config m) (mf_Health m).

(** ** Built-in tools *)

Definition field (ty : string) (required sensitive : bool) (description : string) : FieldSpec :=
  mkField ty required description VNil sensitive None ∅.

Definition builtin_manifest (name description : string) (actions : gmap string ActionSpec) (config : gmap string FieldSpec)
    : ToolManifest :=
  let m := NewManifest name in
  mkManifest (mf_Schema m) (mf_ManifestVersion m) (mkTool name "built-in" description "" "" "" []) NewNativeTransport
    actions config None.

Definition template_render_manifest : ToolManifest :=
  builtin_manifest "template_render" "Render a Go template string with provided variables."
    {[ "render" := mkAction "" "Render template content into a final string."
         {[ "template" := field TypeString true false "";
            "values" := field TypeObject false false "Optional object of template values." ]}
         {[ "rendered" := field TypeString false false "" ]} None true ]} ∅.

Definition http_fetch_manifest : ToolManifest :=
  builtin_manifest "http_fetch" "Fetch a URL over HTTP(S) and return status/body."
    {[ "fetch" := mkAction "" "Execute an HTTP request and return response data."
         {[ "url" := field TypeString true false ""; "method" := field TypeString false false "";
            "body" := field TypeString false false "" ]}
         {[ "status_code" := field TypeInteger false false ""; "body" := field TypeString false false "";
            "headers" := field TypeObject false false "" ]} None false ]}
    {[ "authorization" := field TypeString false true "Optional Authorization header value." ]}.

Definition builtin_registration (name : string) (m : ToolManifest) : ToolRegistration :=
  mkReg name m OriginNative ∅ StatusReady 0 0 0 None true.

Definition BuiltinRegistration (name : string) : option ToolRegistration :=
  if bool_decide (name = "http_fetch") then Some (builtin_registration name http_fetch_manifest)
  else if bool_decide (name = "template_render") then Some (builtin_registration name template_render_manifest)
  else None.

(** In the order of the names. *)
Definition BuiltinRegistrations : list ToolRegistration := omap BuiltinRegistration ["http_fetch"; "template_render"].

(** ** The status of a registration *)

Definition unhealthyThresholdForRegistration (reg : ToolRegistration) : Z :=
  match mf_Health (tr_Manifest reg) with
  | None => 1
  | Some h => if (hc_UnhealthyThreshold h <=? 0)%Z then 1 else hc_UnhealthyThreshold h
  end.

(** The status of a registration with that many failures. *)
Definition failing_status (reg : ToolRegistration) : string :=
  if (unhealthyThresholdForRegistration reg <=? tr_HealthFailures reg)%Z then StatusUnhealthy else StatusUnverified.

(** The registration and the report are changed; failures are counted without bound. *)
Definition applyHealthOutcome (reg : ToolRegistration) (report : HealthReport) : ToolRegistration * HealthReport :=
  let reg :=
    if bool_decide (hp_State report = HealthHealthy) then set_reg_Status StatusReady (set_reg_Failures 0 reg)
    else if bool_decide (hp_State report = HealthUnhealthy) then
      let reg := set_reg_Failures (tr_HealthFailures reg + 1) reg in set_reg_Status (failing_status reg) reg
    else set_reg_Status StatusUnverified reg in
  (reg, set_FailureCount (tr_HealthFailures reg) report).

Definition inferToolOrigin (transport : string) : string :=
  if bool_decide (transport = TransportTypeNative) then OriginNative
  else if bool_decide (transport = TransportTypeHTTP) then OriginHTTP
  else if bool_decide (transport = TransportTypeStdio) then OriginStdio
  else if bool_decide (transport = TransportTypeMCP) then OriginMCP
  else EmptyString.

(** ** Interfaces *)

(** A store: its rows, and operations that may fail. A failed operation leaves the rows
    as they are; [Upsert] may fill in times and a missing status. *)
Definition filled (existing : option ToolRegistration) (now : Z) (reg : ToolRegistration) : ToolRegistration :=
  let reg := if bool_decide (tr_Status reg = EmptyString) then set_reg_Status StatusUnverified reg else reg in
  let reg := if bool_decide (tr_RegisteredAt reg = 0%Z) then
               set_reg_Registered (match existing with
                 | Some e => if bool_decide (tr_RegisteredAt e = 0%Z) then now else tr_RegisteredAt e
                 | None => now
                 end) reg
             else reg in
  match existing with
  | Some e => if bool_decide (tr_LastHealthCheck reg = 0%Z) then set_reg_Checked (tr_LastHealthCheck e) reg else reg
  | None => reg
  end.

Class ToolStore (S : Type) := {
  rows : S → gmap string ToolRegistration;
  store_List : GoM S (list ToolRegistration + error);
  store_Get : string → GoM S (option ToolRegistration + error);
  store_Upsert : ToolRegistration → GoM S (option error);
  store_Delete : string → GoM S (option error);
  List_ok s : ∃ s' r, store_List s = (s', Some r) ∧ rows s' = rows s ∧
    (∀ l, r = inl l → ∀ reg, reg ∈ l → ∃ k, rows s !! k = Some reg);
  Get_ok name s : ∃ s' r, store_Get name s = (s', Some r) ∧ rows s' = rows s ∧
    (∀ o, r = inl o → o = rows s !! name);
  Upsert_ok reg s : ∃ s' r, store_Upsert reg s = (s', Some r) ∧
    ((∃ now, rows s' = <[tr_Name reg := filled (rows s !! tr_Name reg) now reg]> (rows s)) ∨
     (∃ err, r = Some err ∧ rows s' = rows s));
  Delete_ok name s : ∃ s' r, store_Delete name s = (s', Some r) ∧
    (rows s' = delete name (rows s) ∨ (∃ err, r = Some err ∧ rows s' = rows s))
}.

(** A computation that returns and does not touch the store. *)
Definition silent {S A} `{ToolStore S} (m : GoM S A) : Prop :=
  ∀ s, ∃ s' r, m s = (s', Some r) ∧ rows s' = rows s.

(** What the service relies on of a registration from discovery. *)
Record discovered_ok (name : string) (reg : ToolRegistration) : Prop := {
  dk_name : tr_Name reg = name;
  dk_failures : (0 ≤ tr_HealthFailures reg)%Z;
  dk_status : tr_Status reg ≠ StatusDisabled
}.

(** The functions the service is configured with, and the clock. *)
Class Backend (S : Type) `{ToolStore S} := {
  mcp_Build : string → MCPTransport → gmap string string → string → GoM S (ToolRegistration + error);
  mcp_Refresh : ToolRegistration → GoM S (ToolRegistration + error);
  mcp_Health : ToolRegistration → GoM S HealthReport;
  adapter_for : ToolRegistration → (InvokeRequest → GoM S (InvokeResponse + gerror)) + error;
  time_Now : GoM S Z;
  Build_ok name t config path : silent (mcp_Build name t config path);
  Build_found name t config path s s' reg : mcp_Build name t config path s = (s', Some (inl reg)) →
    discovered_ok name reg ∧ tr_Enabled reg = true;
  Refresh_ok existing : silent (mcp_Refresh existing);
  Refresh_found existing s s' reg : mcp_Refresh existing s = (s', Some (inl reg)) →
    discovered_ok (tr_Name existing) reg;
  Health_ok reg : silent (mcp_Health reg);
  Invoke_ok reg invoke req : adapter_for reg = inl invoke → silent (invoke req);
  Now_ok : silent time_Now
}.

(** Steps that may fail: the first error ends the operation. *)
Definition try {S A B} (m : GoM S (A + error)) (k : A → GoM S (B + error)) : GoM S (B + error) :=
  r ← m; match (r : A + error) with inl a => k a | inr err => mret (inr err) end.
Definition check {S B} (m : GoM S (option error)) (k : GoM S (B + error)) : GoM S (B + error) :=
  r ← m; match (r : option error) with Some err => mret (inr err) | None => k end.
Notation "x ←? m ; k" := (try m (λ x, k)) (at level 20, m at level 100, k at level 200, right associativity).
Notation "m ?; k" := (check m k) (at level 100, k at level 200, right associativity).

Definition ErrToolNotFound : error := ESentinel "tool: registration not found".
Definition ErrToolNotMCP : error := ESentinel "tool: registration is not mcp".
Definition ErrToolDisabled : error := ESentinel "tool: registration is disabled".

Record RegisterToolInput := mkRegisterInput {
  ri_Name : string; ri_Origin : string; ri_Manifest : option ToolManifest; ri_Config : gmap string string;
  ri_MCPTransport : option MCPTransport; ri_OverlayPath : string; ri_Enabled : option bool
}.

Record UpdateToolInput := mkUpdateInput {
  ui_Origin : option string; ui_Manifest : option ToolManifest; ui_Config : option (gmap string string);
  ui_MCPTransport : option MCPTransport; ui_OverlayPath : option string; ui_Enabled : option bool
}.

Record ConfigUpdateInput := mkConfigInput { ci_Set : gmap string string; ci_SetSecret : gmap string string }.

Record ToolListFilter := mkFilter { tf_Status : string; tf_Enabled : option bool; tf_IncludeBuiltins : bool }.

Record ToolTestResult := mkTestResult {
  tt_Success : bool; tt_Outputs : gmap string value; tt_DurationMS : Z; tt_Metadata : gmap string value
}.

Record HealthEvent := mkHealthEvent {
  he_ToolName : string; he_PreviousStatus : string; he_Status : string; he_Report : HealthReport; he_Error : option error
}.

Record ToolHealthObservation := mkHealthObs {
  ho_ToolName : string; ho_State : string; ho_Status : string; ho_FailureCount : Z; ho_DurationMS : Z;
  ho_Interval : Z; ho_ErrorCode : string; ho_PreviousState : string
}.

(** ** Registrations from discovery *)

(** The overlay file, read and decoded; a session with the server; a GET (its status). *)
Class MCPHost (S : Type) := {
  overlay_file : string → GoM S (MCPOverlay + error);
  open_session : string → MCPTransport → gmap string string → option MCPOverlay → GoM S mcp_session;
  http_Get : string → GoM S (Z + error);
  host_Now : GoM S Z
}.

(** The computations of the host return and do not touch the store. *)
Class HostSilent (S : Type) `{ToolStore S} `{!MCPHost S} : Prop := {
  overlay_file_silent path : silent (overlay_file path);
  open_session_silent name t config ov : silent (open_session name t config ov);
  http_Get_silent endpoint : silent (http_Get endpoint);
  host_Now_silent : silent host_Now
}.

Section Discovery.
Context (error_text : error → string) `{Quoter} `{RangeOrder} `{LowerTables} {S : Type} `{MCPHost S}.
Implicit Types reg : ToolRegistration.

Definition ParseMCPOverlayFile (path : string) : GoM S (MCPOverlay * list Diagnostic + error) :=
  overlay ←? overlay_file path; mret (inl (overlay, ValidateMCPOverlay overlay)).

Definition loadOverlayForRegistration reg : GoM S (option MCPOverlay + error) :=
  match tr_Overlay reg with
  | Some path => if bool_decide (TrimSpace path = EmptyString) then mret (inl None)
                 else parsed ←? ParseMCPOverlayFile path; mret (inl (Some parsed.1))
  | None => mret (inl None)
  end.

(** What a probe of the server finds: nothing, or the message of the report. *)
Definition probe_endpoint (overlay : option MCPOverlay) : GoM S (option string) :=
  let endpoint := match overlay with Some ov => TrimSpace (oh_Endpoint (ov_Health ov)) | None => EmptyString end in
  if bool_decide (endpoint = EmptyString) then
    mret (Some "overlay health endpoint is required for endpoint strategy")
  else
    r ← http_Get endpoint;
    mret (match (r : Z + error) with
          | inr err => Some (error_text err)
          | inl status => if (400 <=? status)%Z then Some ("health endpoint returned status " ^^ pretty status) else None
          end).

Definition probe_session (ping : bool) (overlay : option MCPOverlay) reg : GoM S (option string) :=
  match AsMCP (mf_Transport (tr_Manifest reg)) with
  | None => mret (Some "registration transport is not mcp")
  | Some transport =>
      se ← open_session (tr_Name reg) transport (tr_Config reg) overlay;
      mret (match se_connect se, se_initialize se, se_list se with
            | Some err, _, _ | None, Some err, _ => Some (error_text err)
            | None, None, inr err => if ping then Some (error_text err) else None
            | None, None, inl _ => None
            end)
  end.

Definition health_strategy (overlay : option MCPOverlay) : string :=
  match overlay with
  | Some ov => if bool_decide (TrimSpace (oh_Strategy (ov_Health ov)) ≠ EmptyString)
               then ToLower (TrimSpace (oh_Strategy (ov_Health ov))) else "ping"
  | None => "ping"
  end.

Definition EvaluateMCPHealth reg : GoM S HealthReport :=
  checkedAt ← host_Now;
  let unhealthy message := mkReport (tr_Name reg) HealthUnhealthy checkedAt 0 0 message in
  r ← loadOverlayForRegistration reg;
  match (r : option MCPOverlay + error) with
  | inr err => mret (unhealthy (error_text err))
  | inl overlay =>
      let strategy := health_strategy overlay in
      start ← host_Now;
      failure ← (if bool_decide (strategy = "endpoint") then probe_endpoint overlay
                 else if bool_decide (strategy ∈ ["process"; "connection"; "ping"]) then
                   probe_session (bool_decide (strategy = "ping")) overlay reg
                 else mret (Some ("unsupported health strategy " ^^ strconv_Quote strategy)));
      match (failure : option string) with
      | Some message => mret (unhealthy message)
      | None =>
          now ← host_Now;
          mret (mkReport (tr_Name reg) HealthHealthy checkedAt ((now - start) ÷ 1000000)%Z 0 EmptyString)
      end
  end.

(** The overlay of a path that is not blank; one with errors is refused. *)
Definition checked_overlay (overlayPath : string) : GoM S (option MCPOverlay + error) :=
  if bool_decide (TrimSpace overlayPath ≠ EmptyString) then
    parsed ←? ParseMCPOverlayFile overlayPath;
    mret (if hasValidationErrors parsed.2 then inr (RegistrationValidationFailed parsed.2) else inl (Some parsed.1))
  else mret (inl None).

Definition first_status (health : HealthReport) reg : ToolRegistration :=
  set_reg_Checked (hp_CheckedAt health)
    (if bool_decide (hp_State health = HealthHealthy) then set_reg_Failures 0 (set_reg_Status StatusReady reg)
     else if bool_decide (hp_State health = HealthUnhealthy) then
       let reg := set_reg_Failures 1 reg in set_reg_Status (failing_status reg) reg
     else set_reg_Status StatusUnverified reg).

Definition BuildMCPRegistration (name : string) (transport : MCPTransport) (config : gmap string string)
    (overlayPath : string) : GoM S (ToolRegistration + error) :=
  overlay ←? checked_overlay overlayPath;
  se ← open_session name transport config overlay;
  manifest ←? mret (DiscoverMCPManifest name transport overlay se);
  let reg := mkReg name manifest OriginMCP config StatusReady 0 0 0
    (if bool_decide (TrimSpace overlayPath ≠ EmptyString) then Some overlayPath else None) true in
  health ← EvaluateMCPHealth reg;
  mret (inl (first_status health reg)).

Definition RefreshMCPRegistration (existing : ToolRegistration) : GoM S (ToolRegistration + error) :=
  match AsMCP (mf_Transport (tr_Manifest existing)) with
  | None => mret (inr (EFmt [PS "tool "; PQ (tr_Name existing); PS " is not an mcp registration"]))
  | Some transport =>
      updated ←? BuildMCPRegistration (tr_Name existing) transport (tr_Config existing)
                   (default EmptyString (tr_Overlay existing));
      mret (inl (set_reg_Enabled (tr_Enabled existing)
                   (set_reg_Registered (tr_RegisteredAt existing) updated)))
  end.
End Discovery.

(** ** Reading *)

Definition mergeTools (builtins stored : list ToolRegistration) : list ToolRegistration :=
  let byName := foldl (λ m reg, <[tr_Name reg := reg]> m) (∅ : gmap string ToolRegistration) (builtins ++ stored) in
  range_sorted byName (λ _ reg, reg).

Definition selects (f : ToolListFilter) (reg : ToolRegistration) : bool :=
  (bool_decide (tf_Status f = EmptyString) || bool_decide (tr_Status reg = tf_Status f)) &&
  match tf_Enabled f with Some b => Bool.eqb (tr_Enabled reg) b | None => true end.

Section Service.
Context `{RangeOrder} `{LowerTables} (marshal_any : value → option json) (default_checker : ReachabilityChecker).
Context {S : Type} `{Backend S} (checker : option ReachabilityChecker).
Implicit Types reg : ToolRegistration.

Definition List_ (f : ToolListFilter) : GoM S (list ToolRegistration + error) :=
  regs ←? store_List;
  mret (inl (List.filter (selects f) (if tf_IncludeBuiltins f then mergeTools BuiltinRegistrations regs else regs))).

(** [None]: not found. *)
Definition Get (name : string) (includeBuiltins : bool) : GoM S (option ToolRegistration + error) :=
  let name := TrimSpace name in
  if bool_decide (name = EmptyString) then mret (inl None)
  else
    r ←? store_Get name;
    mret (inl (match r with
               | Some reg => Some reg
               | None => if includeBuiltins then BuiltinRegistration name else None
               end)).

Definition getMutableRegistration (name : string) : GoM S (ToolRegistration + error) :=
  let regName := TrimSpace name in
  if bool_decide (regName = EmptyString) then mret (inr (wrapf ErrToolNotFound [PQ name]))
  else
    r ←? store_Get regName;
    mret (match r with Some reg => inl reg | None => inr (wrapf ErrToolNotFound [PS regName]) end).

Definition mustGetStored (name : string) : GoM S (ToolRegistration + error) :=
  r ←? store_Get name;
  mret (match r with Some reg => inl reg | None => inr (wrapf ErrToolNotFound [PS name]) end).

(** ** Writing *)

(** [ValidateNewRegistration] with the store of the service: the name is looked up once
    at most. *)
Definition validate reg (allowExisting : bool) : GoM S (option error) :=
  let name := TrimSpace (tr_Name reg) in
  found ← (if allowExisting || bool_decide (name = EmptyString) then mret (inl None) else store_Get name);
  mret ((λ e, RegistrationValidationFailed (rve_Details e)) <$>
    ValidateNewRegistration marshal_any default_checker reg (mkOpts (Some (λ _, found)) checker allowExisting)).

Definition save reg : GoM S (ToolRegistration + error) :=
  store_Upsert reg ?; mustGetStored (tr_Name reg).

Definition finalizeRegistrationEnabledState reg (enabledOverride : option bool) : ToolRegistration :=
  let reg := match enabledOverride with Some b => set_reg_Enabled b reg | None => reg end in
  let reg := if tr_Enabled reg then reg else set_reg_Status StatusDisabled reg in
  if bool_decide (tr_Status reg = EmptyString) then
    set_reg_Status (if tr_Enabled reg then StatusReady else StatusDisabled) reg
  else reg.

Definition resolveRegisterOrigin (input : RegisterToolInput) : string :=
  match ri_Manifest input with
  | Some m => if bool_decide (ri_Origin input = EmptyString) then inferToolOrigin (ts_Type (mf_Transport m))
              else ri_Origin input
  | None => ri_Origin input
  end.

Definition buildManifestlessRegistration (name origin : string) (input : RegisterToolInput)
    : GoM S (ToolRegistration + error) :=
  if bool_decide (origin = OriginNative) then
    mret (match BuiltinRegistration name with
          | Some reg => inl reg
          | None => inr (EFmt [PS "tool: native registration "; PQ name; PS " requires a manifest"])
          end)
  else if bool_decide (origin = OriginMCP) then
    match ri_MCPTransport input with
    | None => mret (inr (EFmt [PS "tool: mcp registration "; PQ name; PS " requires transport"]))
    | Some t => mcp_Build name t (ri_Config input) (TrimSpace (ri_OverlayPath input))
    end
  else mret (inr (EFmt [PS "tool: registration "; PQ name; PS " requires a manifest"])).

(** The overlay of a path; a blank one is none. *)
Definition overlay_of (path : string) : option string :=
  let path := TrimSpace path in if bool_decide (path = EmptyString) then None else Some path.

Definition named_manifest (name : string) (m : ToolManifest) : ToolManifest + error :=
  let m := if bool_decide (TrimSpace (tm_Name (mf_Tool m)) = EmptyString) then set_tool_Name name m else m in
  if bool_decide (tm_Name (mf_Tool m) ≠ name) then
    inr (EFmt [PS "tool: manifest tool.name "; PQ (tm_Name (mf_Tool m)); PS " does not match "; PQ name])
  else inl m.

Definition buildManifestRegistration (name origin : string) (manifest : ToolManifest) (input : RegisterToolInput)
    : ToolRegistration + error :=
  match named_manifest name manifest with
  | inr err => inr err
  | inl manifest =>
      let origin := if bool_decide (origin = EmptyString) then inferToolOrigin (ts_Type (mf_Transport manifest)) else origin in
      if bool_decide (origin = EmptyString) then
        inr (EFmt [PS "tool: unable to infer registration origin for "; PQ name])
      else inl (mkReg name manifest origin (ri_Config input) StatusReady 0 0 0
                  (if bool_decide (origin = OriginMCP) then overlay_of (ri_OverlayPath input) else None) true)
  end.

Definition registrationFromRegisterInput (input : RegisterToolInput) : GoM S (ToolRegistration + error) :=
  let name := TrimSpace (ri_Name input) in
  if bool_decide (name = EmptyString) then mret (inr (EFmt [PS "tool: registration name is required"]))
  else
    let origin := resolveRegisterOrigin input in
    reg ←? match ri_Manifest input with
           | None => buildManifestlessRegistration name origin input
           | Some m => mret (buildManifestRegistration name origin m input)
           end;
    mret (inl (finalizeRegistrationEnabledState reg (ri_Enabled input))).

Definition Register (input : RegisterToolInput) : GoM S (ToolRegistration + error) :=
  reg ←? registrationFromRegisterInput input;
  validate reg false ?;
  save reg.

Definition restoreStatusForEnabled reg : GoM S ToolRegistration :=
  if bool_decide (tr_Origin reg ≠ OriginMCP) then mret (set_reg_Status StatusReady reg)
  else report ← mcp_Health reg;
       mret (applyHealthOutcome (set_reg_Checked (hp_CheckedAt report) reg) report).1.

Definition resolveUpdateOrigin (current : ToolRegistration) (input : UpdateToolInput) : string :=
  let origin := default (tr_Origin current) (ui_Origin input) in
  if bool_decide (origin = EmptyString) then inferToolOrigin (ts_Type (mf_Transport (tr_Manifest current))) else origin.

Definition shouldRebuildMCPRegistration (origin : string) (input : UpdateToolInput) : bool :=
  bool_decide (origin = OriginMCP) && match ui_Manifest input with None => true | Some _ => false end.

Definition resolveMCPUpdateTransport (current : ToolRegistration) (input : UpdateToolInput) : MCPTransport + error :=
  match ui_MCPTransport input with
  | Some t => inl t
  | None => match AsMCP (mf_Transport (tr_Manifest current)) with
            | Some t => inl t
            | None => inr (wrapf ErrToolNotMCP [PS (tr_Name current)])
            end
  end.

Definition resolveUpdatedOverlayPath (current : option string) (path : option string) : string :=
  match path with Some p => TrimSpace p | None => default EmptyString current end.

(** A discovered registration keeps the availability given. *)
Definition with_availability (enabled : bool) reg : ToolRegistration :=
  let reg := set_reg_Enabled enabled reg in if enabled then reg else set_reg_Status StatusDisabled reg.

Definition rebuildMCPRegistrationFromUpdate (current : ToolRegistration) (input : UpdateToolInput)
    : GoM S (ToolRegistration + error) :=
  transport ←? mret (resolveMCPUpdateTransport current input);
  updated ←? mcp_Build (tr_Name current) transport (default (tr_Config current) (ui_Config input))
               (resolveUpdatedOverlayPath (tr_Overlay current) (ui_OverlayPath input));
  mret (inl (with_availability (default (tr_Enabled current) (ui_Enabled input))
               (set_reg_Registered (tr_RegisteredAt current) updated))).

Definition applyNonRebuildUpdate (current : ToolRegistration) (input : UpdateToolInput) (origin : string)
    : ToolRegistration + error :=
  match named_manifest (tr_Name current) (default (tr_Manifest current) (ui_Manifest input)) with
  | inr err => inr err
  | inl m =>
      let next := set_reg_Manifest m (set_reg_Origin origin current) in
      let next := match ui_Config input with Some c => set_reg_Config c next | None => next end in
      let next := match ui_OverlayPath input with Some p => set_reg_Overlay (overlay_of p) next | None => next end in
      inl (match ui_Enabled input with Some b => set_reg_Enabled b next | None => next end)
  end.

Definition finalizeUpdatedRegistration (current next : ToolRegistration) : GoM S ToolRegistration :=
  next ← (if negb (tr_Enabled next) then mret (set_reg_Status StatusDisabled next)
          else if bool_decide (tr_Status current = StatusDisabled) then restoreStatusForEnabled next
          else mret next);
  mret (if bool_decide (tr_Status next = EmptyString)
        then set_reg_Status (if tr_Enabled next then StatusReady else StatusDisabled) next else next).

Definition registrationFromUpdateInput (current : ToolRegistration) (input : UpdateToolInput)
    : GoM S (ToolRegistration + error) :=
  let origin := resolveUpdateOrigin current input in
  if shouldRebuildMCPRegistration origin input then rebuildMCPRegistrationFromUpdate current input
  else
    next ←? mret (applyNonRebuildUpdate current input origin);
    r ← finalizeUpdatedRegistration current next;
    mret (inl r).

Definition Update (name : string) (input : UpdateToolInput) : GoM S (ToolRegistration + error) :=
  current ←? getMutableRegistration name;
  next ←? registrationFromUpdateInput current input;
  validate next true ?;
  save next.

Definition Delete (name : string) : GoM S (option error) :=
  let regName := TrimSpace name in
  if bool_decide (regName = EmptyString) then mret (Some (wrapf ErrToolNotFound [PQ name]))
  else
    r ← store_Get regName;
    match (r : option ToolRegistration + error) with
    | inr err => mret (Some err)
    | inl None => mret (Some (wrapf ErrToolNotFound [PS regName]))
    | inl (Some _) => store_Delete regName
    end.
(** ** Configuration, health and availability *)

Definition sensitive_field (spec : FieldSpec) : FieldSpec :=
  mkField (if bool_decide (fs_Type spec = EmptyString) then TypeString else fs_Type spec) (fs_Required spec)
    (fs_Description spec) (fs_Default spec) true (fs_Items spec) (fs_Properties spec).

Definition zero_field : FieldSpec := field EmptyString false false EmptyString.

Definition config_spec (key : string) reg : FieldSpec := default zero_field (mf_Config (tr_Manifest reg) !! key).

Definition set_plain reg (key value : string) : ToolRegistration + error :=
  let clean := TrimSpace key in
  if bool_decide (clean = EmptyString) then inr (EFmt [PS "tool: config key is required"])
  else if fs_Sensitive (config_spec clean reg) then
    inr (EFmt [PS "tool: config "; PQ clean; PS " is sensitive; use secret update"])
  else inl (set_reg_Config (<[clean := value]> (tr_Config reg)) reg).

Definition set_secret reg (key value : string) : ToolRegistration + error :=
  let clean := TrimSpace key in
  if bool_decide (clean = EmptyString) then inr (EFmt [PS "tool: config key is required"])
  else if bool_decide (TrimSpace value = EmptyString) then
    inr (EFmt [PS "tool: secret value for "; PQ clean; PS " is empty"])
  else
    let m := tr_Manifest reg in
    inl (set_reg_Config (<[clean := value]> (tr_Config reg))
           (set_reg_Manifest (set_Config (<[clean := sensitive_field (config_spec clean reg)]> (mf_Config m)) m) reg)).

(** The loop over the values; the first error ends it. *)
Definition set_all (set : ToolRegistration → string → string → ToolRegistration + error)
    (values : list (string * string)) reg : ToolRegistration + error :=
  foldl (λ acc kv, match acc with inl reg => set reg kv.1 kv.2 | inr err => inr err end) (inl reg) values.

Definition config_pipeline : Pipeline :=
  AddRegistrationValidator SensitiveFieldValidator
  (AddRegistrationValidator ConfigCompletenessValidator
  (AddManifestValidator ValidateManifestTypes
  (AddManifestValidator (SchemaManifestValidator marshal_any) (mkPipeline [] [])))).

Definition validateConfigOnlyRegistration reg : option error :=
  let diags := ValidateManifest config_pipeline (tr_Manifest reg) ++ ValidateRegistration config_pipeline reg in
  if hasValidationErrors diags then Some (RegistrationValidationFailed diags) else None.

Definition UpdateConfig (name : string) (input : ConfigUpdateInput) : GoM S (ToolRegistration + error) :=
  reg ←? getMutableRegistration name;
  reg ←? mret (set_all set_plain (range_map "UpdateConfig.Set" (ci_Set input)) reg);
  reg ←? mret (set_all set_secret (range_map "UpdateConfig.SetSecret" (ci_SetSecret input)) reg);
  mret (validateConfigOnlyRegistration reg) ?;
  save reg.

Definition configAsAnyMap (values : gmap string string) : gmap string value := VString <$> values.

Definition TestAction (name action : string) (inputs : gmap string value) : GoM S (ToolTestResult + gerror) :=
  found ← Get name true;
  match (found : option ToolRegistration + error) with
  | inr err => mret (inr (GErr err))
  | inl None => mret (inr (GErr (wrapf ErrToolNotFound [PS (TrimSpace name)])))
  | inl (Some reg) =>
      if negb (tr_Enabled reg) || bool_decide (tr_Status reg = StatusDisabled) then
        mret (inr (GErr (wrapf ErrToolDisabled [PS (tr_Name reg)])))
      else match adapter_for reg with
           | inr err => mret (inr (GErr err))
           | inl invoke =>
               r ← invoke (mkInvoke (tr_Name reg) action inputs (configAsAnyMap (tr_Config reg)) EmptyString);
               mret (match (r : InvokeResponse + gerror) with
                     | inr err => inr err
                     | inl resp => inl (mkTestResult true (ir_Outputs resp) (ir_DurationMS resp) (ir_Metadata resp))
                     end)
           end
  end.

(** The new state of a registration, and its report. *)
Definition evaluate reg : GoM S (ToolRegistration * HealthReport) :=
  now ← time_Now;
  let report state count := mkReport (tr_Name reg) state now 0 count EmptyString in
  if negb (tr_Enabled reg) then mret (set_reg_Status StatusDisabled reg, report HealthUnknown (tr_HealthFailures reg))
  else if bool_decide (tr_Origin reg ≠ OriginMCP) then
    mret (set_reg_Failures 0 (set_reg_Status StatusReady reg), report HealthHealthy 0%Z)
  else
    report ← mcp_Health reg;
    mret (applyHealthOutcome (set_reg_Checked (hp_CheckedAt report) reg) report).

Definition Health (name : string) : GoM S (ToolRegistration * HealthReport + error) :=
  let regName := TrimSpace name in
  if bool_decide (regName = EmptyString) then mret (inr (wrapf ErrToolNotFound [PQ name]))
  else
    found ←? store_Get regName;
    match found with
    | None =>
        match BuiltinRegistration regName with
        | None => mret (inr (wrapf ErrToolNotFound [PS regName]))
        | Some builtin =>
            now ← time_Now;
            mret (inl (builtin, mkReport (tr_Name builtin) HealthHealthy now 0 0 EmptyString))
        end
    | Some reg =>
        r ← evaluate reg;
        store_Upsert r.1 ?;
        updated ←? mustGetStored regName;
        mret (inl (updated, r.2))
    end.

(** The rest of [Refresh] and [UpdateOverlay]. *)
Definition rediscover reg : GoM S (ToolRegistration + error) :=
  updated ←? mcp_Refresh reg;
  let updated := with_availability (tr_Enabled reg) updated in
  validate updated true ?;
  save updated.

Definition Refresh (name : string) : GoM S (ToolRegistration + error) :=
  reg ←? getMutableRegistration name;
  if bool_decide (tr_Origin reg ≠ OriginMCP) then mret (inr (wrapf ErrToolNotMCP [PS (tr_Name reg)]))
  else rediscover reg.

Definition UpdateOverlay (name overlayPath : string) : GoM S (ToolRegistration + error) :=
  reg ←? getMutableRegistration name;
  if bool_decide (tr_Origin reg ≠ OriginMCP) then mret (inr (wrapf ErrToolNotMCP [PS (tr_Name reg)]))
  else rediscover (set_reg_Overlay (overlay_of overlayPath) reg).

Definition SetEnabled (name : string) (enabled : bool) : GoM S (ToolRegistration + error) :=
  reg ←? getMutableRegistration name;
  let reg := set_reg_Enabled enabled reg in
  reg ← (if enabled then restoreStatusForEnabled reg else mret (set_reg_Status StatusDisabled reg));
  save reg.

(** ** The scheduler *)

(** Nanoseconds, in 64 bits. *)
Definition healthIntervalForRegistration reg : Z :=
  match mf_Health (tr_Manifest reg) with
  | None => 30000000000
  | Some h => if (hc_IntervalSeconds h <=? 0)%Z then 30000000000 else wrap64 (hc_IntervalSeconds h * 1000000000)
  end.

Definition isHealthCheckDue reg (now : Z) : bool :=
  bool_decide (tr_LastHealthCheck reg = 0%Z) ||
  negb (now <? tr_LastHealthCheck reg + healthIntervalForRegistration reg)%Z.

Context (emitHealthObservation : ToolHealthObservation → GoM S unit) (onEvent : HealthEvent → GoM S unit).

Definition zero_report : HealthReport := mkReport EmptyString EmptyString 0 0 0 EmptyString.

Definition check_one (now : Z) reg : GoM S unit :=
  if negb (tr_Enabled reg) || bool_decide (tr_Status reg = StatusDisabled) then mret tt
  else if negb (isHealthCheckDue reg now) then mret tt
  else
    r ← Health (tr_Name reg);
    let '(status, report, err) := match (r : ToolRegistration * HealthReport + error) with
      | inl (updated, report) => (tr_Status updated, report, None)
      | inr err => (EmptyString, zero_report, Some err)
      end in
    emitHealthObservation (mkHealthObs (tr_Name reg) (hp_State report) status (hp_FailureCount report) (hp_LatencyMS report)
      (healthIntervalForRegistration reg) (match err with Some e => toolErrorCode (GErr e) | None => EmptyString end)
      (tr_Status reg));;
    onEvent (mkHealthEvent (tr_Name reg) (tr_Status reg) status report err).

Fixpoint check_all (now : Z) (regs : list ToolRegistration) : GoM S unit :=
  match regs with [] => mret tt | reg :: regs' => check_one now reg;; check_all now regs' end.

Definition RunOnce (now : GoM S Z) : GoM S (option error) :=
  r ← List_ (mkFilter EmptyString None false);
  match (r : list ToolRegistration + error) with
  | inr err => mret (Some err)
  | inl regs => t ← now; check_all t regs;; mret None
  end.
End Service.
