(* ===== verification/ToolServiceSpec.v ===== *)
(** * The stored registrations (tool/service_daemon.go, tool/health_scheduler.go)

    What every operation of the tool service does to the table of registrations:
    it returns; each row it leaves is under its own name, accepted by the
    validators (reachability apart), counts its failures from zero and is disabled
    exactly when its status says so; no row is touched but the one the request
    names; and what it returns is what is stored. *)

From stdpp Require Import gmap strings list fin_maps.
From Stdlib Require Import ZArith Lia.
From S2P Require Import Prelude Values GoFmt Unicode ToolManifest ToolDiscovery ToolSchema ToolAccept ToolOverlay.
From S2P Require Import ToolRegistry ToolValidation ToolInvoke ToolService.

Notation table := (gmap string ToolRegistration).

(** ** Rows *)

(** The checker that reaches everything. *)
Definition lenient : ReachabilityChecker :=
  {| CheckHTTP _ := None; CheckStdio _ := None; CheckMCP _ := None |}.

Section Rows.
Context (marshal_any : value → option json).
Implicit Types reg : ToolRegistration.

(** What the validators ask of a registration that is already stored. *)
Definition acceptable reg : Prop := registration_ok marshal_any lenient (mkOpts None None true) reg.

Record fit (name : string) reg : Prop := {
  fit_name : tr_Name reg = name;
  fit_status : tr_Enabled reg = false ↔ tr_Status reg = StatusDisabled;
  fit_failures : (0 ≤ tr_HealthFailures reg)%Z
}.

Definition row_ok (name : string) reg : Prop := fit name reg ∧ acceptable reg.
Definition table_ok (σ : table) : Prop := ∀ k reg, σ !! k = Some reg → row_ok k reg.

(** Two registrations the validators do not tell apart. *)
Record same_content reg reg' : Prop := {
  sc_name : tr_Name reg' = tr_Name reg;
  sc_manifest : tr_Manifest reg' = tr_Manifest reg;
  sc_config : tr_Config reg' = tr_Config reg
}.

Lemma lenient_probe reg : probe lenient reg = None.
Proof. unfold probe. simpl. by repeat case_match. Qed.

Lemma acceptable_intro reg checker opts : registration_ok marshal_any checker opts reg → acceptable reg.
Proof. intros [He Hm Hn _ Ha _ Hc Hs]. split; try done. apply lenient_probe. Qed.

Lemma acceptable_same reg reg' : same_content reg reg' → acceptable reg → acceptable reg'.
Proof.
  intros [En Em Ec] [He Hm Hn _ Ha _ Hc Hs]. split; rewrite ?En, ?Em, ?Ec; try done. apply lenient_probe.
Qed.

Lemma acceptable_trim reg : acceptable reg → TrimSpace (tr_Name reg) ≠ EmptyString.
Proof. intros [_ _ Hn _ _ _ _ _] He. unfold good_name in Hn. by rewrite He in Hn. Qed.

(** An enabled registration gets a status that is not the disabled one. *)
Lemma fit_enabled name reg s :
  tr_Name reg = name → tr_Enabled reg = true → (0 ≤ tr_HealthFailures reg)%Z → s ≠ StatusDisabled →
  fit name (set_reg_Status s reg).
Proof. intros ? He ? ?. split; simpl; [done| |done]. rewrite He. naive_solver. Qed.

Lemma fit_disabled name reg : tr_Name reg = name → tr_Enabled reg = false → (0 ≤ tr_HealthFailures reg)%Z →
  fit name (set_reg_Status StatusDisabled reg).
Proof. intros ? He ?. split; simpl; [done| |done]. by rewrite He. Qed.

Lemma failing_status_live reg : failing_status reg ≠ StatusDisabled.
Proof. unfold failing_status. by case_match. Qed.

Lemma outcome_same reg report : same_content reg (applyHealthOutcome reg report).1.
Proof. unfold applyHealthOutcome. simpl. repeat case_bool_decide; by split. Qed.

Lemma fit_outcome name reg report :
  tr_Name reg = name → tr_Enabled reg = true → (0 ≤ tr_HealthFailures reg)%Z →
  fit name (applyHealthOutcome reg report).1.
Proof.
  intros ? He ?. unfold applyHealthOutcome. simpl.
  repeat case_bool_decide; apply fit_enabled; simpl; try done; try lia. apply failing_status_live.
Qed.

Lemma filled_same existing now reg : same_content reg (filled existing now reg).
Proof. unfold filled. destruct existing; repeat case_bool_decide; by split. Qed.

Lemma fit_filled name existing now reg : fit name reg → fit name (filled existing now reg).
Proof.
  intros [Hn Hs Hf]. unfold filled.
  destruct (decide (tr_Status reg = EmptyString)) as [He|He].
  - rewrite (bool_decide_true (tr_Status reg = EmptyString)) by done.
    assert (tr_Enabled reg = true) as Hen
      by (destruct (tr_Enabled reg); [done|]; by rewrite (proj1 Hs eq_refl) in He).
    destruct existing; repeat case_bool_decide; split; simpl; try done; rewrite Hen; naive_solver.
  - rewrite (bool_decide_false (tr_Status reg = EmptyString)) by done.
    destruct existing; repeat case_bool_decide; by split.
Qed.

Lemma row_filled name existing now reg : row_ok name reg → row_ok name (filled existing now reg).
Proof. intros [Hf Ha]. split; [by apply fit_filled|]. eapply acceptable_same; [apply filled_same|done]. Qed.

Lemma fit_availability name reg b : discovered_ok name reg → fit name (with_availability b reg).
Proof.
  intros [Hn Hf Hs]. unfold with_availability. destruct b; [|by apply fit_disabled].
  split; simpl; [done| |done]. naive_solver.
Qed.

(** ** Tables *)

(** The table after an operation on the row of a name. *)
Inductive written (σ : table) (name : string) : table → Prop :=
| written_same : written σ name σ
| written_row reg : row_ok name reg → written σ name (<[name := reg]> σ).

Lemma written_ok σ name σ' : table_ok σ → written σ name σ' → table_ok σ'.
Proof.
  intros Hσ [|reg Hr] k r; [apply Hσ|]. rewrite lookup_insert_Some. intros [[<- <-]|[_ Hk]]; [done|by apply Hσ].
Qed.

Lemma written_other σ name σ' k : written σ name σ' → k ≠ name → σ' !! k = σ !! k.
Proof. intros [|reg _] Hk; [done|]. by rewrite lookup_insert_ne. Qed.
End Rows.

(** ** Reasoning about operations *)

(** From the table [σ] the computation returns, with its result and the table in [R]. *)
Definition ends {S A} `{ToolStore S} (σ : table) (m : GoM S A) (R : A → table → Prop) : Prop :=
  ∀ s, rows s = σ → ∃ s' r, m s = (s', Some r) ∧ R r (rows s').

(** The table stays; the result satisfies [φ]. *)
Definition reads {A} (σ : table) (φ : A → Prop) : A → table → Prop := λ r σ', σ' = σ ∧ φ r.

(** A result satisfies [φ] if it is not an error. *)
Definition if_ok {A} (φ : A → Prop) : A + error → Prop := λ r, ∀ a, r = inl a → φ a.

Section Ends.
Context {S : Type} `{ToolStore S}.

Lemma ends_ret {A} σ (a : A) R : R a σ → ends σ (mret a : GoM S A) R.
Proof. intros HR s <-. by exists s, a. Qed.

Lemma ends_bind {A B} σ (m : GoM S A) (k : A → GoM S B) Q R :
  ends σ m Q → (∀ a σ', Q a σ' → ends σ' (k a) R) → ends σ (m ≫= k) R.
Proof.
  intros Hm Hk s Hs. destruct (Hm s Hs) as (s1 & a & E & HQ). unfold mbind, gom_bind. rewrite E.
  exact (Hk a _ HQ s1 eq_refl).
Qed.

Lemma ends_conseq {A} σ (m : GoM S A) Q R : ends σ m Q → (∀ a σ', Q a σ' → R a σ') → ends σ m R.
Proof. intros Hm HQ s Hs. destruct (Hm s Hs) as (s' & a & E & HR). eauto. Qed.

Lemma ends_try {A B} σ (m : GoM S (A + error)) (k : A → GoM S (B + error)) φ R :
  ends σ m (reads σ (if_ok φ)) → (∀ err, R (inr err) σ) → (∀ a, φ a → ends σ (k a) R) → ends σ (try m k) R.
Proof.
  intros Hm HR Hk. eapply ends_bind; [exact Hm|]. intros [a|err] σ' [-> Ha]; [by apply Hk, Ha|].
  apply ends_ret, HR.
Qed.

Lemma ends_check {B} σ (m : GoM S (option error)) (k : GoM S (B + error)) φ R :
  ends σ m (reads σ (λ r, r = None → φ)) → (∀ err, R (inr err) σ) → (φ → ends σ k R) → ends σ (check m k) R.
Proof.
  intros Hm HR Hk. eapply ends_bind; [exact Hm|]. intros [err|] σ' [-> Ha]; [|by apply Hk, Ha].
  apply ends_ret, HR.
Qed.

Lemma ends_silent {A} σ (m : GoM S A) : silent m → ends σ m (reads σ (λ _, True)).
Proof. intros Hm s <-. destruct (Hm s) as (s' & r & E & Er). exists s', r. done. Qed.

(** An error is never refused by [if_ok]. *)
Lemma reads_error {A} σ (φ : A → Prop) err : reads σ (if_ok φ) (inr err) σ.
Proof. by split; [|intros a [=]]. Qed.

Lemma reads_ok {A} σ (φ : A → Prop) a : φ a → reads σ (if_ok φ) (inl a) σ.
Proof. intros Ha. by split; [|intros ? [= <-]]. Qed.

Lemma reads_sum {A} σ (φ : A → Prop) r : if_ok φ r → reads σ (if_ok φ) r σ.
Proof. by split. Qed.

(** *** The store *)

Lemma ends_List σ :
  ends σ store_List (reads σ (if_ok (λ l, ∀ reg, reg ∈ l → ∃ k, σ !! k = Some reg))).
Proof. intros s <-. destruct (List_ok s) as (s' & r & E & Er & Hr). exists s', r. by rewrite <- Er at 1. Qed.

Lemma ends_Get σ name : ends σ (store_Get name) (reads σ (if_ok (λ o, o = σ !! name))).
Proof. intros s <-. destruct (Get_ok name s) as (s' & r & E & Er & Hr). by exists s', r. Qed.

Lemma ends_Upsert σ reg :
  ends σ (store_Upsert reg) (λ r σ',
    (∃ now, σ' = <[tr_Name reg := filled (σ !! tr_Name reg) now reg]> σ) ∨ (∃ err, r = Some err ∧ σ' = σ)).
Proof. intros s <-. destruct (Upsert_ok reg s) as (s' & r & E & Hr). by exists s', r. Qed.

Lemma ends_Delete σ name :
  ends σ (store_Delete name) (λ r σ', σ' = delete name σ ∨ (∃ err, r = Some err ∧ σ' = σ)).
Proof. intros s <-. destruct (Delete_ok name s) as (s' & r & E & Hr). by exists s', r. Qed.
End Ends.

(** ** The operations *)

Section Operations.
Context `{RangeOrder} `{LowerTables} (marshal_any : value → option json) (default_checker : ReachabilityChecker).
Context {S : Type} `{Backend S} (checker : option ReachabilityChecker).
Implicit Types (reg : ToolRegistration) (σ : table).

Notation acceptable := (acceptable marshal_any).
Notation row_ok := (row_ok marshal_any).
Notation table_ok := (table_ok marshal_any).
Notation written := (written marshal_any).

Lemma ends_Build σ name t config path :
  ends σ (mcp_Build name t config path) (reads σ (if_ok (λ reg, discovered_ok name reg ∧ tr_Enabled reg = true))).
Proof.
  intros s <-. destruct (Build_ok name t config path s) as (s' & r & E & Er). exists s', r.
  split; [done|]. split; [done|]. intros reg ->. eapply Build_found, E.
Qed.

Lemma ends_Refresh σ existing :
  ends σ (mcp_Refresh existing) (reads σ (if_ok (discovered_ok (tr_Name existing)))).
Proof.
  intros s <-. destruct (Refresh_ok existing s) as (s' & r & E & Er). exists s', r.
  split; [done|]. split; [done|]. intros reg ->. eapply Refresh_found, E.
Qed.

(** What an operation on the row of a name leaves and returns. *)
Definition stores σ (name : string) : ToolRegistration + error → table → Prop := λ r σ',
  written σ name σ' ∧ if_ok (λ reg, tr_Name reg = name ∧ σ' !! name = Some reg) r.

Lemma stores_error σ name err σ' : written σ name σ' → stores σ name (inr err) σ'.
Proof. intros Hw. by split; [|intros a [=]]. Qed.

Lemma ends_mustGet σ name : ends σ (mustGetStored name) (reads σ (if_ok (λ reg, σ !! name = Some reg))).
Proof.
  eapply ends_try; [apply ends_Get|apply reads_error|]. intros o ->. apply ends_ret.
  destruct (σ !! name) eqn:E; [by apply reads_ok|apply reads_error].
Qed.

(** A write followed by what the operation does with the stored row. *)
Lemma ends_write {B} σ name reg (k : GoM S (B + error)) R : row_ok name reg →
  (∀ err σ', written σ name σ' → R (inr err) σ') →
  (∀ row, row_ok name row → ends (<[name := row]> σ) k R) →
  ends σ (check (store_Upsert reg) k) R.
Proof.
  intros Hrow HR Hk. pose proof (fit_name _ _ (proj1 Hrow)) as Hn.
  eapply ends_bind; [apply ends_Upsert|]. rewrite Hn. intros r σ' [[now ->]|(err & -> & ->)].
  - pose proof (row_filled _ _ (σ !! name) now _ Hrow) as Hf.
    destruct r as [err|]; [apply ends_ret, HR; by constructor|by apply Hk].
  - apply ends_ret, HR. constructor.
Qed.

Lemma ends_save σ name reg : row_ok name reg → ends σ (save reg) (stores σ name).
Proof.
  intros Hrow. pose proof (fit_name _ _ (proj1 Hrow)) as Hn. apply (ends_write σ name); [done|apply stores_error|].
  intros row Hr. rewrite Hn. eapply ends_conseq; [apply ends_mustGet|]. intros r σ' [-> Hok]. split; [by constructor|].
  intros x ->. specialize (Hok x eq_refl). rewrite lookup_insert_eq in Hok. simplify_eq.
  split; [apply Hr|by rewrite lookup_insert_eq].
Qed.

(** The registration to change: it is there, and in order. *)
Lemma ends_mutable σ name : table_ok σ →
  ends σ (getMutableRegistration name)
    (reads σ (if_ok (λ reg, σ !! TrimSpace name = Some reg ∧ row_ok (TrimSpace name) reg))).
Proof.
  intros Hσ. unfold getMutableRegistration. case_bool_decide; [apply ends_ret, reads_error|].
  eapply ends_try; [apply ends_Get|apply reads_error|]. intros o ->. apply ends_ret.
  destruct (σ !! TrimSpace name) eqn:E; [apply reads_ok; by auto|apply reads_error].
Qed.
Lemma ends_validate σ reg allowExisting :
  ends σ (validate marshal_any default_checker checker reg allowExisting)
    (reads σ (λ r, r = None →
      acceptable reg ∧ (allowExisting = false → σ !! TrimSpace (tr_Name reg) = None))).
Proof.
  unfold validate. eapply (ends_bind _ _ _ (reads σ (if_ok (λ o, allowExisting = false →
    TrimSpace (tr_Name reg) ≠ EmptyString → o = σ !! TrimSpace (tr_Name reg))))).
  - destruct allowExisting; [by apply ends_ret, reads_ok|]. simpl. case_bool_decide; [by apply ends_ret, reads_ok|].
    eapply ends_conseq; [apply ends_Get|]. intros r σ' [-> Hr]. by split; [|intros o Ho _ _; apply Hr].
  - intros found σ' [-> Hf]. apply ends_ret. split; [done|].
    intros Hv%fmap_None%ValidateNewRegistration_None%registration_diags_nil.
    split; [by eapply acceptable_intro|]. intros ->.
    pose proof (reg_unique _ _ _ _ Hv _ eq_refl eq_refl) as Hfound. simpl in Hfound. symmetry.
    apply Hf; [done|done|]. eapply acceptable_trim, acceptable_intro, Hv.
Qed.

(** A registration that is checked and stored. *)
Lemma ends_checked σ name reg : fit name reg →
  ends σ (check (validate marshal_any default_checker checker reg true) (save reg)) (stores σ name).
Proof.
  intros Hf. eapply ends_check; [apply ends_validate|intros; apply stores_error; constructor|].
  intros [Ha _]. by apply ends_save.
Qed.

Lemma builtin_fit name reg : BuiltinRegistration name = Some reg → fit name reg.
Proof. unfold BuiltinRegistration. intros. repeat case_bool_decide; simplify_eq; by split. Qed.

(** New registrations are enabled, and not marked as disabled. *)
Definition fresh (name : string) reg : Prop := fit name reg ∧ tr_Enabled reg = true.

Lemma ends_manifestless σ name origin input :
  ends σ (buildManifestlessRegistration name origin input) (reads σ (if_ok (fresh name))).
Proof.
  unfold buildManifestlessRegistration. case_bool_decide as E1; [|case_bool_decide as E2].
  - apply ends_ret. destruct (BuiltinRegistration name) eqn:E; [|apply reads_error].
    apply reads_ok. split; [by apply builtin_fit|].
    unfold BuiltinRegistration in E. repeat case_bool_decide; by simplify_eq.
  - destruct (ri_MCPTransport input); [|apply ends_ret, reads_error].
    eapply ends_conseq; [apply ends_Build|]. intros r σ' [-> Hr]. split; [done|].
    intros reg Er. destruct (Hr reg Er) as [[Hn Hf Hs] He]. split; [|done]. split; [done| |done].
    rewrite He. naive_solver.
  - apply ends_ret, reads_error.
Qed.

Lemma manifest_fresh name origin m input : if_ok (fresh name) (buildManifestRegistration name origin m input).
Proof.
  unfold buildManifestRegistration. destruct (named_manifest name m); [|by intros ? [=]].
  intros reg Er. repeat case_bool_decide; simplify_eq; by split.
Qed.

Lemma finalize_fit name reg override : fresh name reg → fit name (finalizeRegistrationEnabledState reg override).
Proof.
  intros [[Hn Hs Hf] He]. unfold finalizeRegistrationEnabledState.
  destruct override as [[]|]; simpl; rewrite ?He; repeat case_bool_decide; split; simpl; rewrite ?He; naive_solver.
Qed.

Lemma ends_register_input σ input :
  ends σ (registrationFromRegisterInput input) (reads σ (if_ok (fit (TrimSpace (ri_Name input))))).
Proof.
  unfold registrationFromRegisterInput. case_bool_decide; [apply ends_ret, reads_error|].
  eapply (ends_try _ _ _ (fresh (TrimSpace (ri_Name input)))); [|apply reads_error|].
  - destruct (ri_Manifest input); [apply ends_ret, reads_sum, manifest_fresh|apply ends_manifestless].
  - intros reg Hr. apply ends_ret, reads_ok. by apply finalize_fit.
Qed.

Lemma ends_Register σ input :
  ends σ (Register marshal_any default_checker checker input) (λ r σ',
    stores σ (TrimSpace (ri_Name input)) r σ' ∧ (is_Some (σ !! TrimSpace (ri_Name input)) → σ' = σ)).
Proof.
  eapply ends_try; [apply ends_register_input|intros; split; [apply stores_error; constructor|done]|].
  intros reg Hf. eapply ends_check; [apply ends_validate|intros; split; [apply stores_error; constructor|done]|].
  intros [Ha Hu]. specialize (Hu eq_refl). rewrite (fit_name _ _ Hf), TrimSpace_idem in Hu.
  eapply ends_conseq; [by eapply ends_save|]. intros r σ' Hs. split; [done|]. intros [x Hx]. congruence.
Qed.
(** *** Changes of a stored registration *)

Lemma ends_restore σ name reg : tr_Name reg = name → tr_Enabled reg = true → (0 ≤ tr_HealthFailures reg)%Z →
  ends σ (restoreStatusForEnabled reg) (reads σ (λ r, fit name r ∧ same_content reg r)).
Proof.
  intros Hn He Hf. unfold restoreStatusForEnabled. case_bool_decide.
  - apply ends_ret. split; [done|]. split; [by apply fit_enabled|by split].
  - eapply ends_bind; [apply ends_silent, Health_ok|]. intros report σ' [-> _]. apply ends_ret.
    split; [done|]. split; [by apply fit_outcome|]. by destruct (outcome_same (set_reg_Checked (hp_CheckedAt report) reg) report); split.
Qed.

Lemma update_current name current input origin next : fit name current →
  applyNonRebuildUpdate current input origin = inl next →
  tr_Name next = name ∧ (0 ≤ tr_HealthFailures next)%Z ∧ tr_Status next = tr_Status current ∧
  tr_Enabled next = default (tr_Enabled current) (ui_Enabled input).
Proof.
  intros [Hn _ Hf]. unfold applyNonRebuildUpdate. destruct named_manifest; [|done]. intros [= <-].
  by destruct (ui_Enabled input), (ui_OverlayPath input), (ui_Config input).
Qed.

Lemma ends_update_input σ name current input : fit name current →
  ends σ (registrationFromUpdateInput current input) (reads σ (if_ok (fit name))).
Proof.
  intros Hfit. unfold registrationFromUpdateInput. case_match.
  - eapply (ends_try _ _ _ (λ _, True)); [apply ends_ret, reads_sum; by intros ? ?|apply reads_error|]. intros t _.
    eapply ends_try; [apply ends_Build|apply reads_error|]. intros reg [[Hn Hf Hs] _]. apply ends_ret, reads_ok.
    apply fit_availability. split; simpl; [|done..]. by rewrite <- (fit_name _ _ Hfit).
  - eapply (ends_try _ _ _ (λ next, applyNonRebuildUpdate current input (resolveUpdateOrigin current input) = inl next));
      [apply ends_ret, reads_sum; by intros ? ?|apply reads_error|].
    intros next Hnext. destruct (update_current _ _ _ _ _ Hfit Hnext) as (Hn & Hf & Hs & He).
    eapply (ends_bind _ _ _ (reads σ (fit name))); [|intros r σ' [-> Hr]; by apply ends_ret, reads_ok].
    unfold finalizeUpdatedRegistration. eapply (ends_bind _ _ _ (reads σ (fit name))).
    + destruct (tr_Enabled next) eqn:En; simpl; [|apply ends_ret; split; [done|by apply fit_disabled]].
      case_bool_decide as Hd.
      * eapply ends_conseq; [by apply ends_restore|]. by intros r σ' [-> []].
      * apply ends_ret. split; [done|]. split; [done| |done]. rewrite En, Hs. naive_solver.
    + intros r σ' [-> [Hrn Hrs Hrf]]. apply ends_ret. split; [done|]. case_bool_decide as Hb; [|done].
      split; simpl; [done| |done]. rewrite Hb in Hrs. destruct (tr_Enabled r); naive_solver.
Qed.

(** An operation that changes an existing row. *)
Lemma ends_mutate σ name (k : ToolRegistration → GoM S (ToolRegistration + error)) : table_ok σ →
  (∀ reg, row_ok (TrimSpace name) reg → ends σ (k reg) (stores σ (TrimSpace name))) →
  ends σ (try (getMutableRegistration name) k) (λ r σ',
    stores σ (TrimSpace name) r σ' ∧ (σ !! TrimSpace name = None → σ' = σ)).
Proof.
  intros Hσ Hk. eapply ends_try; [by apply ends_mutable|intros; split; [apply stores_error; constructor|done]|].
  intros reg [Hs Hr]. eapply ends_conseq; [by apply Hk|]. intros r σ' Hst. split; [done|]. congruence.
Qed.

Lemma ends_Update σ name input : table_ok σ →
  ends σ (Update marshal_any default_checker checker name input) (λ r σ',
    stores σ (TrimSpace name) r σ' ∧ (σ !! TrimSpace name = None → σ' = σ)).
Proof.
  intros Hσ. apply ends_mutate; [done|]. intros reg Hr.
  eapply ends_try; [by apply ends_update_input, Hr|intros; apply stores_error; constructor|].
  intros next Hn. by apply ends_checked.
Qed.

Lemma ends_rediscover σ name reg : tr_Name reg = name →
  ends σ (rediscover marshal_any default_checker checker reg) (stores σ name).
Proof.
  intros <-. eapply ends_try; [apply ends_Refresh|intros; apply stores_error; constructor|].
  intros updated Hd. by apply ends_checked, fit_availability.
Qed.

Lemma ends_Refresh_op σ name : table_ok σ →
  ends σ (Refresh marshal_any default_checker checker name) (λ r σ',
    stores σ (TrimSpace name) r σ' ∧ (σ !! TrimSpace name = None → σ' = σ)).
Proof.
  intros Hσ. apply ends_mutate; [done|]. intros reg [Hf _].
  case_bool_decide; [apply ends_ret, stores_error; constructor|]. apply ends_rediscover, Hf.
Qed.

Lemma ends_UpdateOverlay σ name path : table_ok σ →
  ends σ (UpdateOverlay marshal_any default_checker checker name path) (λ r σ',
    stores σ (TrimSpace name) r σ' ∧ (σ !! TrimSpace name = None → σ' = σ)).
Proof.
  intros Hσ. apply ends_mutate; [done|]. intros reg [Hf _].
  case_bool_decide; [apply ends_ret, stores_error; constructor|]. apply ends_rediscover, Hf.
Qed.

Lemma ends_SetEnabled σ name enabled : table_ok σ →
  ends σ (SetEnabled name enabled) (λ r σ',
    stores σ (TrimSpace name) r σ' ∧ (σ !! TrimSpace name = None → σ' = σ)).
Proof.
  intros Hσ. apply ends_mutate; [done|]. intros reg [[Hn Hs Hf] Ha].
  eapply (ends_bind _ _ _ (reads σ (λ r, fit (TrimSpace name) r ∧ same_content (set_reg_Enabled enabled reg) r))).
  - destruct enabled; [by apply (ends_restore σ (TrimSpace name) (set_reg_Enabled true reg))|].
    apply ends_ret. split; [done|]. split; [by apply fit_disabled|by split].
  - intros r σ' [-> [Hr Hc]]. apply ends_save. split; [done|].
    eapply acceptable_same; [|exact Ha]. by destruct Hc.
Qed.

Lemma ends_Delete_op σ name : table_ok σ →
  ends σ (Delete name) (λ r σ', σ' = σ ∨ σ' = delete (TrimSpace name) σ).
Proof.
  intros Hσ. unfold Delete. case_bool_decide; [apply ends_ret; by left|].
  eapply ends_bind; [apply ends_Get|]. intros [[reg|]|err] σ' [-> _]; [|apply ends_ret; by left..].
  eapply ends_conseq; [apply ends_Delete|]. intros r σ' [->|(err & _ & ->)]; auto.
Qed.
(** *** Configuration *)

(** What an update of the configuration leaves alone. *)
Record same_rest reg reg' : Prop := {
  sr_name : tr_Name reg' = tr_Name reg;
  sr_actions : mf_Actions (tr_Manifest reg') = mf_Actions (tr_Manifest reg);
  sr_enabled : tr_Enabled reg' = tr_Enabled reg;
  sr_status : tr_Status reg' = tr_Status reg;
  sr_failures : tr_HealthFailures reg' = tr_HealthFailures reg
}.

Lemma set_plain_rest reg key value reg' : set_plain reg key value = inl reg' → same_rest reg reg'.
Proof. unfold set_plain. case_bool_decide; [done|]. case_match; [done|]. intros [= <-]. by split. Qed.

Lemma set_secret_rest reg key value reg' : set_secret reg key value = inl reg' → same_rest reg reg'.
Proof. unfold set_secret. do 2 (case_bool_decide; [done|]). intros [= <-]. by split. Qed.

Lemma set_all_rest set values reg reg' :
  (∀ r k v r', set r k v = inl r' → same_rest r r') → set_all set values reg = inl reg' → same_rest reg reg'.
Proof.
  intros Hset. unfold set_all. revert reg. induction values as [|[k v] l IH]; simpl; intros reg Hl; [by simplify_eq|].
  destruct (set reg k v) as [r|err] eqn:E.
  - apply Hset in E. apply IH in Hl. destruct E, Hl. split; congruence.
  - exfalso. revert Hl. clear. induction l; [done|]. done.
Qed.

Lemma fit_rest name reg reg' : same_rest reg reg' → fit name reg → fit name reg'.
Proof. intros [En _ He Hs Hf] [Hn Hst Hp]. split; rewrite ?En, ?He, ?Hs, ?Hf; done. Qed.

Lemma config_diags_nil reg : validateConfigOnlyRegistration marshal_any reg = None →
  SchemaManifestValidator marshal_any (tr_Manifest reg) = [] ∧
  ConfigCompletenessValidator reg = [] ∧ SensitiveFieldValidator reg = [].
Proof.
  unfold validateConfigOnlyRegistration. set (diags := ValidateManifest _ _ ++ ValidateRegistration _ _).
  destruct (hasValidationErrors diags) eqn:E; [done|]. intros _.
  assert (diags = (SchemaManifestValidator marshal_any (tr_Manifest reg) ++ ValidateManifestTypes (tr_Manifest reg)) ++
    ConfigCompletenessValidator reg ++ SensitiveFieldValidator reg) as Ed by done.
  rewrite Ed in E. clear diags Ed. apply errors_silent in E.
  - rewrite !app_nil_iff in E. naive_solver.
  - apply errors_app; apply errors_app; [apply SchemaManifestValidator_errors| |apply ConfigCompletenessValidator_errors|
      apply SensitiveFieldValidator_errors]. apply Forall_forall, ValidateManifestTypes_errors.
Qed.

Lemma acceptable_config reg reg' : same_rest reg reg' → acceptable reg →
  validateConfigOnlyRegistration marshal_any reg' = None → acceptable reg'.
Proof.
  intros [En Ea _ _ _] [_ _ Hn _ Ha _ _ _] (Hm & Hc & Hs)%config_diags_nil.
  rewrite schema_manifest in Hm. rewrite config_nil in Hc. rewrite sensitive_nil in Hs. destruct Hm as [He Hm].
  split; [exact He|exact Hm|by rewrite En|intros ? [=]|by rewrite Ea|apply lenient_probe|exact Hc|exact Hs].
Qed.

Lemma ends_UpdateConfig σ name input : table_ok σ →
  ends σ (UpdateConfig marshal_any name input) (λ r σ',
    stores σ (TrimSpace name) r σ' ∧ (σ !! TrimSpace name = None → σ' = σ)).
Proof.
  intros Hσ. apply ends_mutate; [done|]. intros reg [Hf Ha].
  eapply (ends_try _ _ _ (same_rest reg)); [|intros; apply stores_error; constructor|].
  { apply ends_ret, reads_sum. intros r. apply set_all_rest, set_plain_rest. }
  intros r1 H1r. eapply (ends_try _ _ _ (same_rest r1)); [|intros; apply stores_error; constructor|].
  { apply ends_ret, reads_sum. intros r. apply set_all_rest, set_secret_rest. }
  intros r2 H2r. eapply (ends_check _ _ _ (validateConfigOnlyRegistration marshal_any r2 = None));
    [by apply ends_ret|intros; apply stores_error; constructor|].
  intros Hv. apply ends_save.
  assert (same_rest reg r2) as Hr by (destruct H1r, H2r; split; congruence).
  split; [by eapply fit_rest|by eapply acceptable_config].
Qed.

(** *** Reading and health *)

Lemma ends_Get_op σ name builtins : ends σ (Get name builtins) (reads σ (λ _, True)).
Proof.
  unfold Get. case_bool_decide; [by apply ends_ret|]. eapply ends_try; [apply ends_Get|done|]. intros o _. by apply ends_ret.
Qed.

Lemma ends_List_op σ f : ends σ (List_ f) (reads σ (λ _, True)).
Proof. eapply ends_try; [apply ends_List|done|]. intros l _. by apply ends_ret. Qed.

Lemma ends_TestAction σ name action inputs : ends σ (TestAction name action inputs) (reads σ (λ _, True)).
Proof.
  eapply ends_bind; [apply ends_Get_op|]. intros [[reg|]|err] σ' [-> _]; [|by apply ends_ret..].
  case_match; [by apply ends_ret|]. destruct (adapter_for reg) as [invoke|err] eqn:E; [|by apply ends_ret].
  eapply ends_bind; [eapply ends_silent, Invoke_ok, E|]. intros r σ' [-> _]. by apply ends_ret.
Qed.

Lemma ends_evaluate σ name reg : fit name reg →
  ends σ (evaluate reg) (reads σ (λ r, fit name r.1 ∧ same_content reg r.1)).
Proof.
  intros [Hn Hs Hf]. eapply ends_bind; [apply ends_silent, Now_ok|]. intros now σ' [-> _].
  destruct (tr_Enabled reg) eqn:He; simpl.
  - case_bool_decide.
    + apply ends_ret. split; [done|]. split; [|by split]. simpl. split; simpl; [done| |done]. rewrite He. naive_solver.
    + eapply ends_bind; [apply ends_silent, Health_ok|]. intros report σ' [-> _]. apply ends_ret. split; [done|].
      split; [by apply fit_outcome|]. by destruct (outcome_same (set_reg_Checked (hp_CheckedAt report) reg) report); split.
  - apply ends_ret. split; [done|]. split; [by apply fit_disabled|by split].
Qed.

(** The row changes and is returned; a built-in tool that is not stored is returned too. *)
Definition health_post σ (name : string) (r : ToolRegistration * HealthReport + error) (σ' : table) : Prop :=
  written σ (TrimSpace name) σ' ∧ (σ !! TrimSpace name = None → σ' = σ) ∧
  if_ok (λ p, tr_Name p.1 = TrimSpace name ∧
    (σ' !! TrimSpace name = Some p.1 ∨
     σ !! TrimSpace name = None ∧ BuiltinRegistration (TrimSpace name) = Some p.1)) r.

Lemma health_error σ name err σ' : written σ (TrimSpace name) σ' → (σ !! TrimSpace name = None → σ' = σ) →
  health_post σ name (inr err) σ'.
Proof. intros Hw Hn. split_and!; [done|done|by intros ? [=]]. Qed.

Lemma ends_Health_op σ name : table_ok σ → ends σ (Health name) (health_post σ name).
Proof.
  intros Hσ. unfold Health. case_bool_decide; [apply ends_ret, health_error; [constructor|done]|].
  eapply ends_try; [apply ends_Get|intros; apply health_error; [constructor|done]|]. intros o ->.
  destruct (σ !! TrimSpace name) as [reg|] eqn:E.
  - destruct (Hσ _ _ E) as [Hf Ha]. eapply ends_bind; [by apply ends_evaluate|].
    intros [reg' report] σ' [-> [Hf' Hc]].
    apply (ends_write σ (TrimSpace name));
      [split; [done|by eapply acceptable_same]|by intros; apply health_error; [|rewrite E]|].
    intros row Hr. eapply ends_try; [apply ends_mustGet|intros; apply health_error; [by constructor|by rewrite E]|].
    intros r Hget. rewrite lookup_insert_eq in Hget. simplify_eq. apply ends_ret.
    split_and!; [by constructor|by rewrite E|]. intros p [= <-]. rewrite lookup_insert_eq. split; [apply Hr|by left].
  - destruct (BuiltinRegistration (TrimSpace name)) as [reg|] eqn:Eb;
      [|apply ends_ret, health_error; [constructor|done]].
    eapply ends_bind; [apply ends_silent, Now_ok|]. intros now σ' [-> _]. apply ends_ret.
    split_and!; [constructor|done|]. intros p [= <-]. split; [by apply builtin_fit|by right].
Qed.

Context (emitHealthObservation : ToolHealthObservation → GoM S unit) (onEvent : HealthEvent → GoM S unit).
Hypothesis emit_silent : ∀ o, silent (emitHealthObservation o).
Hypothesis event_silent : ∀ e, silent (onEvent e).

Definition same_names σ σ' : Prop := table_ok σ' ∧ dom σ' = dom σ.

Lemma written_names σ name σ' : table_ok σ → is_Some (σ !! name) → written σ name σ' → same_names σ σ'.
Proof.
  intros Hσ Hk Hw. split; [by eapply written_ok|]. destruct Hw as [|reg Hr]; [done|].
  rewrite dom_insert_L. apply elem_of_dom in Hk. set_solver.
Qed.

Lemma ends_check_one σ now reg : table_ok σ →
  ends σ (check_one emitHealthObservation onEvent now reg) (λ _ σ', same_names σ σ').
Proof.
  intros Hσ. unfold check_one. assert (same_names σ σ) by done.
  case_match; [by apply ends_ret|]. case_match; [by apply ends_ret|].
  eapply ends_bind; [by apply ends_Health_op|]. intros r σ' (Hw & Hn & _).
  assert (same_names σ σ') as Hsame.
  { destruct (σ !! TrimSpace (tr_Name reg)) eqn:E; [by eapply written_names|by rewrite Hn]. }
  destruct (match r with inl _ => _ | inr _ => _ end) as [[status report] err].
  eapply ends_bind; [apply ends_silent, emit_silent|]. intros [] σ'' [-> _].
  eapply ends_conseq; [apply ends_silent, event_silent|]. by intros [] σ'' [-> _].
Qed.

Lemma ends_check_all σ now regs : table_ok σ →
  ends σ (check_all emitHealthObservation onEvent now regs) (λ _ σ', same_names σ σ').
Proof.
  revert σ. induction regs as [|reg regs IH]; intros σ Hσ; [by apply ends_ret|].
  eapply ends_bind; [by apply ends_check_one|]. intros [] σ' [Hok Hd].
  eapply ends_conseq; [by apply IH|]. intros [] σ'' [Hok' Hd']. split; [done|]. by rewrite Hd'.
Qed.

Lemma ends_RunOnce σ now : table_ok σ → silent now →
  ends σ (RunOnce emitHealthObservation onEvent now) (λ _ σ', same_names σ σ').
Proof.
  intros Hσ Hnow. eapply ends_bind; [apply ends_List_op|]. intros [regs|err] σ' [-> _]; [|by apply ends_ret].
  eapply ends_bind; [by apply ends_silent|]. intros t σ' [-> _].
  eapply ends_bind; [by apply ends_check_all|]. intros [] σ' Hs. by apply ends_ret.
Qed.
(** ** Requests *)

Inductive request :=
| RRegister (input : RegisterToolInput)
| RUpdate (name : string) (input : UpdateToolInput)
| RDelete (name : string)
| RUpdateConfig (name : string) (input : ConfigUpdateInput)
| RTestAction (name action : string) (inputs : gmap string value)
| RHealth (name : string)
| RRefresh (name : string)
| RUpdateOverlay (name path : string)
| RSetEnabled (name : string) (enabled : bool)
| RList (f : ToolListFilter)
| RGet (name : string) (builtins : bool)
| RRunOnce.

(** The registration an operation returns. *)
Definition returned (m : GoM S (ToolRegistration + error)) : GoM S (option ToolRegistration) :=
  r ← m; mret (match (r : ToolRegistration + error) with inl reg => Some reg | inr _ => None end).
Definition nothing {A} (m : GoM S A) : GoM S (option ToolRegistration) := m;; mret None.

Definition reg_of (r : ToolRegistration * HealthReport + error) : ToolRegistration + error :=
  match r with inl p => inl p.1 | inr err => inr err end.

Definition serve (req : request) : GoM S (option ToolRegistration) :=
  match req with
  | RRegister input => returned (Register marshal_any default_checker checker input)
  | RUpdate name input => returned (Update marshal_any default_checker checker name input)
  | RDelete name => nothing (Delete name)
  | RUpdateConfig name input => returned (UpdateConfig marshal_any name input)
  | RTestAction name action inputs => nothing (TestAction name action inputs)
  | RHealth name => returned (r ← Health name; mret (reg_of r))
  | RRefresh name => returned (Refresh marshal_any default_checker checker name)
  | RUpdateOverlay name path => returned (UpdateOverlay marshal_any default_checker checker name path)
  | RSetEnabled name enabled => returned (SetEnabled name enabled)
  | RList f => nothing (List_ f)
  | RGet name builtins => nothing (Get name builtins)
  | RRunOnce => nothing (RunOnce emitHealthObservation onEvent time_Now)
  end.

(** The rows a request may change. *)
Definition addresses (σ : table) (req : request) (k : string) : Prop :=
  match req with
  | RRegister input => k = TrimSpace (ri_Name input) ∧ σ !! k = None
  | RUpdate name _ | RDelete name | RUpdateConfig name _ | RHealth name | RRefresh name | RUpdateOverlay name _
  | RSetEnabled name _ => k = TrimSpace name ∧ is_Some (σ !! k)
  | RTestAction _ _ _ | RList _ | RGet _ _ => False
  | RRunOnce => is_Some (σ !! k)
  end.

(** The table after a request. *)
Record served (σ : table) (req : request) (r : option ToolRegistration) (σ' : table) : Prop := {
  sv_ok : table_ok σ';
  sv_rest : ∀ k, ¬ addresses σ req k → σ' !! k = σ !! k;
  sv_returned : ∀ reg, r = Some reg → σ' !! tr_Name reg = Some reg ∨
    (σ !! tr_Name reg = None ∧ BuiltinRegistration (tr_Name reg) = Some reg)
}.

Lemma served_same σ req : table_ok σ → served σ req None σ.
Proof. by split. Qed.

Lemma served_stores σ req name r σ' : table_ok σ → stores σ name r σ' →
  (σ' = σ ∨ addresses σ req name) →
  served σ req (match r with inl reg => Some reg | inr _ => None end) σ'.
Proof.
  intros Hσ [Hw Hr] Ha. split.
  - by eapply written_ok.
  - intros k Hk. destruct Ha as [->|Ha]; [done|]. eapply written_other; [done|]. by intros ->.
  - destruct r as [reg|]; [|done]. intros ? [= <-]. left. destruct (Hr reg eq_refl) as [-> ?]. done.
Qed.

Lemma served_deleted σ name σ' : table_ok σ → σ' = σ ∨ σ' = delete (TrimSpace name) σ →
  served σ (RDelete name) None σ'.
Proof.
  intros Hσ [-> | ->]; [by apply served_same|]. split; [| |done].
  - intros k reg [_ Hk]%lookup_delete_Some. by apply Hσ.
  - intros k Hk. destruct (decide (k = TrimSpace name)) as [->|]; [|by rewrite lookup_delete_ne].
    rewrite lookup_delete_eq. destruct (σ !! TrimSpace name) eqn:E; [|done].
    destruct Hk. by split; [|eexists].
Qed.

Lemma ends_returned σ req m Q : ends σ m Q →
  (∀ r σ', Q r σ' → served σ req (match r with inl reg => Some reg | inr _ => None end) σ') →
  ends σ (returned m) (served σ req).
Proof. intros Hm HQ. eapply ends_bind; [exact Hm|]. intros r σ' Hr. apply ends_ret. by apply HQ. Qed.

Lemma ends_nothing {A} σ req (m : GoM S A) Q : ends σ m Q → (∀ r σ', Q r σ' → served σ req None σ') →
  ends σ (nothing m) (served σ req).
Proof. intros Hm HQ. eapply ends_bind; [exact Hm|]. intros r σ' Hr. apply ends_ret. by eapply HQ. Qed.

(** An operation that only changes a row that is there. *)
Lemma ends_existing σ req name m : table_ok σ →
  ends σ m (λ r σ', stores σ (TrimSpace name) r σ' ∧ (σ !! TrimSpace name = None → σ' = σ)) →
  (is_Some (σ !! TrimSpace name) → addresses σ req (TrimSpace name)) → ends σ (returned m) (served σ req).
Proof.
  intros Hσ Hm Ha. eapply ends_returned; [exact Hm|]. intros r σ' [Hs Hn]. eapply served_stores; [done|done|].
  destruct (σ !! TrimSpace name) eqn:E; [right; apply Ha; by eexists|left; by apply Hn].
Qed.

Lemma served_health σ name r σ' : table_ok σ → health_post σ name r σ' →
  served σ (RHealth name) (match reg_of r with inl reg => Some reg | inr _ => None end) σ'.
Proof.
  intros Hσ (Hw & Hn & Hr). split.
  - by eapply written_ok.
  - intros k Hk. destruct (σ !! TrimSpace name) eqn:E; [|by rewrite Hn]. eapply written_other; [done|].
    intros ->. apply Hk. by split; [|eexists].
  - destruct r as [p|err]; [|done]. intros reg [= <-]. destruct (Hr p eq_refl) as [-> Hp]. done.
Qed.

End Operations.

(** ** The functions of the configuration by default *)

Section Defaults.
Context (error_text : error → string) `{Quoter} `{RangeOrder} `{LowerTables} {S : Type} `{HostSilent S}.
Implicit Types σ : table.

Lemma silent_intro {A} (m : GoM S A) : (∀ σ, ends σ m (reads σ (λ _, True))) → silent m.
Proof. intros Hm s. destruct (Hm (rows s) s eq_refl) as (s' & r & E & Er & _). eauto. Qed.

Lemma ends_overlay_file σ path : ends σ (ParseMCPOverlayFile path) (reads σ (if_ok (λ _, True))).
Proof.
  eapply (ends_try _ _ _ (λ _, True)); [|apply reads_error|intros; by apply ends_ret, reads_ok].
  eapply ends_conseq; [apply ends_silent, overlay_file_silent|]. intros r σ' [-> _]. by split.
Qed.

Lemma ends_load σ reg : ends σ (loadOverlayForRegistration reg) (reads σ (λ _, True)).
Proof.
  unfold loadOverlayForRegistration. destruct (tr_Overlay reg); [|by apply ends_ret].
  case_bool_decide; [by apply ends_ret|]. eapply ends_try; [apply ends_overlay_file|done|]. intros; by apply ends_ret.
Qed.

Lemma ends_probe σ strategy overlay reg :
  ends σ (if bool_decide (strategy = "endpoint") then probe_endpoint error_text overlay
          else if bool_decide (strategy ∈ ["process"; "connection"; "ping"]) then
            probe_session error_text (bool_decide (strategy = "ping")) overlay reg
          else mret (Some ("unsupported health strategy " ^^ strconv_Quote strategy))) (reads σ (λ _, True)).
Proof.
  case_bool_decide; [|case_bool_decide; [|by apply ends_ret]].
  - unfold probe_endpoint. cbv zeta. case_bool_decide; [by apply ends_ret|].
    eapply ends_bind; [apply ends_silent, http_Get_silent|]. intros r σ' [-> _]. by apply ends_ret.
  - unfold probe_session. destruct AsMCP; [|by apply ends_ret].
    eapply ends_bind; [apply ends_silent, open_session_silent|]. intros r σ' [-> _]. by apply ends_ret.
Qed.

Lemma ends_evaluate_mcp σ reg : ends σ (EvaluateMCPHealth error_text reg) (reads σ (λ _, True)).
Proof.
  eapply ends_bind; [apply ends_silent, host_Now_silent|]. intros now σ' [-> _].
  eapply ends_bind; [apply ends_load|]. intros [overlay|err] σ' [-> _]; [|by apply ends_ret].
  eapply ends_bind; [apply ends_silent, host_Now_silent|]. intros start σ' [-> _].
  eapply ends_bind; [apply ends_probe|]. intros [message|] σ' [-> _]; [by apply ends_ret|].
  eapply ends_bind; [apply ends_silent, host_Now_silent|]. intros t σ' [-> _]. by apply ends_ret.
Qed.

Lemma first_status_ok health name reg :
  tr_Name reg = name → tr_Enabled reg = true → tr_HealthFailures reg = 0%Z →
  discovered_ok name (first_status health reg) ∧ tr_Enabled (first_status health reg) = true.
Proof.
  intros Hn He Hf. unfold first_status. split.
  - repeat case_bool_decide; split; simpl; try done; try lia. apply failing_status_live.
  - by repeat case_bool_decide.
Qed.

(** The promise of discovery. *)
Lemma ends_build σ name t config path :
  ends σ (BuildMCPRegistration error_text name t config path)
    (reads σ (if_ok (λ reg, discovered_ok name reg ∧ tr_Enabled reg = true))).
Proof.
  eapply (ends_try _ _ _ (λ _, True)); [|apply reads_error|].
  { unfold checked_overlay. case_bool_decide; [|by apply ends_ret, reads_ok].
    eapply ends_try; [apply ends_overlay_file|apply reads_error|]. intros p _. apply ends_ret.
    case_match; [apply reads_error|by apply reads_ok]. }
  intros overlay _. eapply ends_bind; [apply ends_silent, open_session_silent|]. intros se σ' [-> _].
  eapply (ends_try _ _ _ (λ _, True)); [apply ends_ret, reads_sum; by intros ? ?|apply reads_error|].
  intros m _. eapply ends_bind; [apply ends_evaluate_mcp|]. intros health σ' [-> _].
  apply ends_ret, reads_ok. by apply first_status_ok.
Qed.

Lemma ends_refresh σ existing :
  ends σ (RefreshMCPRegistration error_text existing) (reads σ (if_ok (discovered_ok (tr_Name existing)))).
Proof.
  unfold RefreshMCPRegistration. destruct AsMCP; [|apply ends_ret, reads_error].
  eapply ends_try; [apply ends_build|apply reads_error|]. intros reg [[Hn Hf Hs] _].
  by apply ends_ret, reads_ok.
Qed.

Lemma ends_ok_found {A} (m : GoM S (A + error)) φ s s' a :
  (∀ σ, ends σ m (reads σ (if_ok φ))) → m s = (s', Some (inl a)) → φ a.
Proof. intros Hm E. destruct (Hm (rows s) s eq_refl) as (s1 & r & E1 & _ & Hr). apply Hr. congruence. Qed.

Context (adapter : ToolRegistration → (InvokeRequest → GoM S (InvokeResponse + gerror)) + error).
Hypothesis adapter_silent : ∀ reg invoke req, adapter reg = inl invoke → silent (invoke req).

(** [NewDaemonToolService] without overrides. *)
#[refine] Definition default_backend : Backend S := {|
  mcp_Build := BuildMCPRegistration error_text;
  mcp_Refresh := RefreshMCPRegistration error_text;
  mcp_Health := EvaluateMCPHealth error_text;
  adapter_for := adapter;
  time_Now := host_Now
|}.
Proof.
  - intros. apply silent_intro. intros σ. eapply ends_conseq; [apply ends_build|]. by intros ? ? [-> _].
  - intros name t config path s s' reg.
    apply (ends_ok_found _ (λ reg, discovered_ok name reg ∧ tr_Enabled reg = true)). intros σ. apply ends_build.
  - intros. apply silent_intro. intros σ. eapply ends_conseq; [apply ends_refresh|]. by intros ? ? [-> _].
  - intros existing s s' reg. apply (ends_ok_found _ (discovered_ok (tr_Name existing))). intros σ. apply ends_refresh.
  - intros reg. apply silent_intro. intros σ. apply ends_evaluate_mcp.
  - exact adapter_silent.
  - apply host_Now_silent.
Defined.
End Defaults.

(** ** A store *)

(** A table and a clock; a write stamps the registration and needs a name. *)
Definition tables : Type := table * Z.

Definition table_Upsert (reg : ToolRegistration) : GoM tables (option error) := λ s,
  if bool_decide (TrimSpace (tr_Name reg) = EmptyString)
  then (s, Some (Some (EFmt [PS "tool: registration name is required"])))
  else ((<[tr_Name reg := filled (s.1 !! tr_Name reg) s.2 reg]> s.1, s.2 + 1)%Z, Some None).

#[refine] Instance table_store : ToolStore tables := {|
  rows := fst;
  store_List := λ s, (s, Some (inl (range_sorted s.1 (λ _ reg, reg))));
  store_Get name := λ s, (s, Some (inl (s.1 !! name)));
  store_Upsert := table_Upsert;
  store_Delete name := λ s, ((delete name s.1, s.2), Some None)
|}.
Proof.
  - intros s. do 2 eexists. split; [done|]. split; [done|]. intros l [= <-] reg.
    intros (k & x & Hk & ->)%elem_of_range_sorted. eauto.
  - intros name s. do 2 eexists. split; [done|]. split; [done|]. by intros o [= <-].
  - intros reg s. unfold table_Upsert. case_bool_decide; do 2 eexists; (split; [done|]); eauto.
  - intros name s. do 2 eexists. split; [done|]. by left.
Defined.

(** ** Examples *)

Module ServiceSamples.
Existing Instance key_order.
Existing Instance plain_lower.
#[local] Instance no_quotes : Quoter := {| strconv_Quote s := s |}.

(** A server with one tool, that answers while [up]; no overlay files. *)
#[local] Instance sample_host : MCPHost tables := {|
  overlay_file _ := mret (inr (EFmt [PS "no such file"]));
  open_session name _ _ _ :=
    mret (mkSession None (if bool_decide (name = "down") then Some (EFmt [PS "refused"]) else None)
            (inl [mkMCPTool "read" "" ∅]));
  http_Get _ := mret (inl 200%Z);
  host_Now := λ s, ((s.1, (s.2 + 1)%Z), Some s.2)
|}.

#[local] Instance sample_silent : HostSilent tables.
Proof. split; intros; intros s; do 2 eexists; (split; [reflexivity|done]). Qed.

Definition echo_adapter (reg : ToolRegistration) : (InvokeRequest → GoM tables (InvokeResponse + gerror)) + error :=
  inl (λ req, mret (inl (mkResponse (iq_Inputs req) 0 ∅))).

Lemma echo_silent reg invoke req : echo_adapter reg = inl invoke → silent (invoke req).
Proof. intros [= <-] s. do 2 eexists. split; [reflexivity|done]. Qed.

#[local] Instance sample_backend : Backend tables :=
  default_backend (λ _, EmptyString) echo_adapter echo_silent.

Notation serve_sample :=
  (serve (λ _, None) lenient (Some lenient) (λ _, mret tt : GoM tables unit) (λ _, mret tt : GoM tables unit)).
(** The statuses in the table after requests, with what each returned. *)
Fixpoint serve_all (reqs : list request) (s : tables) : list (option string) * list (string * string * bool) :=
  match reqs with
  | [] => ([], range_sorted s.1 (λ k reg, (k, tr_Status reg, tr_Enabled reg)))
  | req :: reqs' =>
      match serve_sample req s with
      | (s', Some r) => let '(out, rows) := serve_all reqs' s' in ((tr_Status <$> r) :: out, rows)
      | (s', None) => ([], [])
      end
  end.

Definition mcp_input (name : string) (enabled : option bool) : RegisterToolInput :=
  mkRegisterInput name OriginMCP None ∅ (Some sample_transport) EmptyString enabled.

(** A name is registered once; a disabled tool stays disabled through a health check and
    a refresh, and gets its status back when it is enabled. *)
Example service_samples :
  serve_all [RRegister (mcp_input " files " None); RRegister (mcp_input "files" None);
             RSetEnabled "files" false; RHealth "files"; RRefresh "files"; RSetEnabled "files" true;
             RHealth "http_fetch"; RHealth "nothing"; RRunOnce] (∅, 1%Z) =
  ([Some StatusReady; None; Some StatusDisabled; Some StatusDisabled; Some StatusDisabled; Some StatusReady;
    Some StatusReady; None; None], [("files", StatusReady, true)]).
Proof. vm_compute. reflexivity. Qed.

Definition echo_table : table := {[ "echo" := sample_registration {[ "run" := echo_action ]} ]}.

Lemma echo_table_ok : table_ok (λ _, None) echo_table.
Proof.
  unfold echo_table. intros k reg [<- <-]%lookup_singleton_Some. split; [by split|].
  apply (acceptable_intro _ _ lenient (mkOpts None None true)), registration_diags_nil.
  vm_compute. reflexivity.
Qed.

End ServiceSamples.
