(* ===== verification/McpClient.v ===== *)
(** * The MCP client and its transport (tool/mcp/protocol.go, tool/mcp/client.go, tool/mcp/transport_reconnect.go, tool/mcp_pool.go)

    The JSON-RPC client: requests are numbered, and a call waits for the answer with
    its own number. The messages a connection will deliver are a list, so that a call
    that waits for more than there is has no result. The transport that reconnects, as
    a caller and [Close] in parallel, one step between two lock or I/O operations. The
    pool that hands out clients, and the table of pools.

    The theorems: a call returns the first answer with its number, and numbers are
    never reused ([call_answer], [session_numbers]); a transport used by one call at a
    time never leaks a connection ([reconnect_no_leak]); a client of a pool serves one
    call at a time and always comes back ([pool_exclusive]); there is one pool per key,
    and a pool that lost the race is closed ([one_pool_per_key]). *)

From stdpp Require Import gmap strings list sorting.
From Stdlib Require Import Ascii ZArith Lia.
From S2P Require Import Prelude Values Unicode ToolManifest.

(** ** Messages *)

Record RPCError := mkRPCError { rx_Code : Z; rx_Message : string; rx_Data : string }.

(** Parameters and results are raw JSON; an absent one is empty. *)
Record Message := mkMessage {
  mg_JSONRPC : string; mg_ID : Z; mg_Method : string; mg_Params : string; mg_Result : string; mg_Error : option RPCError
}.

Definition jsonRPCVersion := "2.0".

Definition RPCError_Error (e : RPCError) : error := EFmt [PS "mcp: rpc error "; PD (rx_Code e); PS ": "; PS (rx_Message e)].
(** [RequestError], which unwraps to its cause. *)
Definition RequestError (method : string) (err : error) : error := EFmt [PS "mcp: request "; PQ method; PS " failed: "; PW err].

Record ClientInfo := mkClientInfo { ci_Name : string; ci_Version : string }.
Record Options := mkOptions { op_ProtocolVersion : string; op_ClientInfo : ClientInfo; op_Capabilities : option (gmap string value) }.
Record InitializeParams := mkInitParams { ip_ProtocolVersion : string; ip_Capabilities : option (gmap string value); ip_ClientInfo : ClientInfo }.

(** ** The client *)

(** The answer to [initialize] is kept as raw JSON. *)
Record Client := mkClient { cl_options : Options; cl_nextID : Z; cl_initialized : bool; cl_initResult : string }.

Definition NewClient (options : Options) : Client :=
  let or d s := if bool_decide (s = EmptyString) then d else s in
  mkClient (mkOptions (or "2025-06-18" (op_ProtocolVersion options))
              (mkClientInfo (or "petalflow" (ci_Name (op_ClientInfo options))) (or "dev" (ci_Version (op_ClientInfo options))))
              (op_Capabilities options)) 1 false EmptyString.

(** What a connection delivers: messages and errors, in their order. *)
#[local] Abbreviation incoming := (list (Message + error)).

(** [int64] addition. *)
Definition next_id (n : Z) : Z := wrap64 (n + 1).
Definition nextRequestID (c : Client) : Client * Z :=
  (mkClient (cl_options c) (next_id (cl_nextID c)) (cl_initialized c) (cl_initResult c), cl_nextID c).

(** [json.Marshal] of the parameters of [initialize]; why [json.Unmarshal] refuses the
    result of a method, if it does. *)
Class Codec := {
  init_Marshal : InitializeParams → string + error;
  result_error : string → string → option error
}.

Section Calls.
Context `{Codec}.

(** The loop of [call]: the result, and what is still to be delivered. *)
Fixpoint await (method : string) (id : Z) (inbox : incoming) : option ((string + error) * incoming) :=
  match inbox with
  | [] => None
  | inr err :: rest => Some (inr (RequestError method err), rest)
  | inl response :: rest =>
      if bool_decide (mg_JSONRPC response ≠ EmptyString) && bool_decide (mg_JSONRPC response ≠ jsonRPCVersion) then
        Some (inr (RequestError method (EFmt [PS "unsupported jsonrpc version "; PQ (mg_JSONRPC response)])), rest)
      else if (mg_ID response =? 0)%Z || negb (mg_ID response =? id)%Z then await method id rest
      else match mg_Error response with
           | Some err => Some (inr (RequestError method (RPCError_Error err)), rest)
           | None =>
               match (if bool_decide (mg_Result response = EmptyString) then None else result_error method (mg_Result response)) with
               | Some err => Some (inr (RequestError method (EFmt [PS "decode result: "; PW err])), rest)
               | None => Some (inl (mg_Result response), rest)
               end
           end
  end.

(** [params]: the encoded parameters, or why they cannot be encoded; [fail]: the error
    of the transport when it sends. The client, what was sent, the result ([None]: the
    call waits), and what is still to be delivered. *)
Definition call (method : string) (params : string + error) (fail : option error) (c : Client) (inbox : incoming)
    : Client * list Message * option (string + error) * incoming :=
  match params with
  | inr err => (c, [], Some (inr (RequestError method (EFmt [PS "encode params: "; PW err]))), inbox)
  | inl data =>
      let '(c, id) := nextRequestID c in
      match fail with
      | Some err => (c, [], Some (inr (RequestError method err)), inbox)
      | None =>
          let request := mkMessage jsonRPCVersion id method data EmptyString None in
          match await method id inbox with
          | None => (c, [request], None, [])
          | Some (r, rest) => (c, [request], Some r, rest)
          end
      end
  end.

Definition notify (method : string) (params : string + error) (fail : option error) : list Message * option error :=
  match params with
  | inr err => ([], Some (RequestError method (EFmt [PS "encode params: "; PW err])))
  | inl data =>
      match fail with
      | Some err => ([], Some err)
      | None => ([mkMessage jsonRPCVersion 0 method data EmptyString None], None)
      end
  end.

Definition Initialize (fail notify_fail : option error) (c : Client) (inbox : incoming)
    : Client * list Message * option (string + error) * incoming :=
  if cl_initialized c then (c, [], Some (inl (cl_initResult c)), inbox)
  else
    let o := cl_options c in
    match call "initialize" (init_Marshal (mkInitParams (op_ProtocolVersion o) (op_Capabilities o) (op_ClientInfo o))) fail c inbox with
    | (c, sent, Some (inl result), rest) =>
        match notify "notifications/initialized" (inl "{}") notify_fail with
        | (more, Some err) => (c, sent ++ more, Some (inr err), rest)
        | (more, None) => (mkClient (cl_options c) (cl_nextID c) true result, sent ++ more, Some (inl result), rest)
        end
    | r => r
    end.

Definition ListTools (fail : option error) (c : Client) (inbox : incoming) := call "tools/list" (inl "{}") fail c inbox.
Definition CallTool (params : string + error) (fail : option error) (c : Client) (inbox : incoming) := call "tools/call" params fail c inbox.

(** [Close] sends a message and closes the transport, whose error it returns. *)
Definition Close (fail close_fail : option error) : list Message * option error := ((notify "close" (inl "{}") fail).1, close_fail).

(** A call that succeeds takes the first answer with its number and leaves what comes
    after it; before it there were only messages for others. *)
Lemma call_answer method params fail c inbox c' sent result rest :
  call method params fail c inbox = (c', sent, Some (inl result), rest) →
  ∃ data skipped answer, sent = [mkMessage jsonRPCVersion (cl_nextID c) method data EmptyString None] ∧
    inbox = skipped ++ inl answer :: rest ∧ mg_ID answer = cl_nextID c ∧ mg_Error answer = None ∧ mg_Result answer = result ∧
    Forall (λ x, ∃ m, x = inl m ∧ (mg_ID m = 0%Z ∨ mg_ID m ≠ cl_nextID c)) skipped.
Proof.
  unfold call. destruct params as [data|]; [|done]. cbn [nextRequestID]. destruct fail; [done|].
  assert (∀ inbox, await method (cl_nextID c) inbox = Some (inl result, rest) →
    ∃ skipped answer, inbox = skipped ++ inl answer :: rest ∧ mg_ID answer = cl_nextID c ∧ mg_Error answer = None ∧ mg_Result answer = result ∧
      Forall (λ x, ∃ m, x = inl m ∧ (mg_ID m = 0%Z ∨ mg_ID m ≠ cl_nextID c)) skipped) as Hawait.
  { clear. induction inbox as [|[m|err] inbox IH]; [done| |done]. cbn [await]. case_match; [done|].
    destruct (Z.eqb_spec (mg_ID m) 0) as [Hz|Hz]; simpl.
    - intros (skipped & answer & -> & Hrest)%IH. exists (inl m :: skipped), answer. split; [done|]. destruct Hrest as (? & ? & ? & ?).
      split_and!; [done..|]. constructor; [|done]. eauto.
    - destruct (Z.eqb_spec (mg_ID m) (cl_nextID c)) as [Hid|Hid]; simpl.
      + destruct (mg_Error m) eqn:He; [done|]. case_match; [done|]. intros [= <- <-]. exists [], m. by split_and!.
      + intros (skipped & answer & -> & Hrest)%IH. exists (inl m :: skipped), answer. split; [done|]. destruct Hrest as (? & ? & ? & ?).
        split_and!; [done..|]. constructor; [|done]. eauto. }
  destruct (await method (cl_nextID c) inbox) as [[r rest']|] eqn:Ha; [|done]. intros [= <- <- -> ->].
  destruct (Hawait inbox Ha) as (skipped & answer & Hrest). by exists data, skipped, answer.
Qed.

(** A session of calls, each with its method, its parameters and the failure of its
    sending: the requests it sends. *)
Fixpoint session (calls : list (string * (string + error) * option error)) (c : Client) (inbox : incoming) : list Message :=
  match calls with
  | [] => []
  | (method, params, fail) :: calls =>
      match call method params fail c inbox with
      | (c, sent, Some _, rest) => sent ++ session calls c rest
      | (_, sent, None, _) => sent
      end
  end.

(** The requests of a session have increasing, positive numbers, as long as the
    counter of 64 bits lasts. *)
Lemma session_numbers calls c inbox : (1 ≤ cl_nextID c)%Z → (cl_nextID c + Z.of_nat (length calls) < 2 ^ 63)%Z →
  StronglySorted Z.lt (map mg_ID (session calls c inbox)) ∧ Forall (λ m, cl_nextID c ≤ mg_ID m)%Z (session calls c inbox).
Proof.
  revert c inbox. induction calls as [|[[method params] fail] calls IH]; intros c inbox Hlo Hhi; [by repeat constructor|].
  cbn [session length] in *. unfold call. destruct params as [data|err]; [|apply IH; lia]. cbn [nextRequestID].
  set (c1 := mkClient _ _ _ _). assert (cl_nextID c1 = cl_nextID c + 1)%Z as Hn.
  { unfold c1, next_id, wrap64. simpl. rewrite Z.mod_small; lia. }
  clearbody c1.
  destruct fail as [err|]; [|destruct (await method (cl_nextID c) inbox) as [[r rest]|]].
  - destruct (IH c1 inbox) as [Hs Hf]; [lia..|]. simpl. split; [done|]. eapply Forall_impl; [exact Hf|]. intros m Hm. simpl in *. lia.
  - destruct (IH c1 rest) as [Hs Hf]; [lia..|]. simpl. split.
    + constructor; [done|]. apply Forall_map. eapply Forall_impl; [exact Hf|]. intros m Hm. simpl in *. lia.
    + constructor; [simpl; lia|]. eapply Forall_impl; [exact Hf|]. intros m Hm. simpl in *. lia.
  - simpl. split; repeat constructor. simpl. lia.
Qed.

End Calls.

(** ** The transport that reconnects *)

Module Reconnect.

Record ReconnectConfig := mkReconnect { rc_MaxAttempts : Z; rc_BaseBackoff : Z }.

(** The configuration [NewReconnectingTransport] uses. *)
Definition defaults (cfg : ReconnectConfig) : ReconnectConfig :=
  mkReconnect (if (rc_MaxAttempts cfg <=? 0)%Z then 3 else rc_MaxAttempts cfg)
    (if (rc_BaseBackoff cfg <=? 0)%Z then 200000000 else rc_BaseBackoff cfg).

(** The wait before an attempt, in [int64] nanoseconds. *)
Definition backoff (cfg : ReconnectConfig) (attempt : Z) : Z := wrap64 (rc_BaseBackoff cfg * wrap64 (Z.shiftl 1 attempt)).

(** Where a call of [Send] or [Receive] is; connections are numbered. *)
Inductive caller :=
| Returned (ok : bool)
| Try (attempt : Z)
| Using (attempt : Z) (conn : nat)          (** the connection transfers a message *)
| Dropping (attempt : Z)
| Closing (attempt : Z) (conn : option nat) (** the old connection is closed *)
| Waiting (attempt : Z)
| Dialing (attempt : Z)
| Installing (attempt : Z) (conn : nat)
| Discarding (conn : nat).                  (** the new connection is closed again *)

(** The transport, two callers, and the connection [Close] is closing. What follows is
    not in the code: the next connection, and the connections that are open. *)
Record state := mkState {
  rt_current : option nat; rt_closed : bool; rt_a : caller; rt_b : caller; rt_closing : option nat; rt_next : nat; rt_open : list nat
}.

Definition NewReconnectingTransport : state := mkState (Some 0) false (Returned true) (Returned true) None 1 [0].

Inductive move :=
| MCall (who : bool)
| MStep (who ok : bool)     (** the caller goes on; what it waited for succeeded or not *)
| MClose
| MClosed.

Section Moves.
Context (cfg : ReconnectConfig).

(** A step of a caller on the transport, the next connection and the open ones. *)
Definition step (ok : bool) (c : caller) (current : option nat) (closed : bool) (next : nat) (open : list nat)
    : option (caller * option nat * nat * list nat) :=
  match c with
  | Returned _ => None
  | Try k =>
      if (rc_MaxAttempts cfg <=? k)%Z then Some (Returned false, current, next, open)
      else if closed then Some (Returned false, current, next, open)
      else match current with
           | None => Some (Returned false, current, next, open)
           | Some conn => Some (Using k conn, current, next, open)
           end
  | Using k conn => Some (if ok then Returned true else Dropping k, current, next, open)
  | Dropping k => if closed then Some (Returned false, current, next, open) else Some (Closing k current, None, next, open)
  | Closing k conn => Some (Waiting k, current, next, match conn with Some c => filter (λ x, x ≠ c) open | None => open end)
  | Waiting k => Some (if ok then Dialing k else Returned false, current, next, open)
  | Dialing k => if ok then Some (Installing k next, current, S next, next :: open) else Some (Returned false, current, next, open)
  | Installing k conn =>
      if closed then Some (Discarding conn, current, next, open) else Some (Try (k + 1), Some conn, next, open)
  | Discarding conn => Some (Returned false, current, next, filter (λ x, x ≠ conn) open)
  end.

Definition exec_move (m : move) (s : state) : option state :=
  match m with
  | MCall who =>
      match (if who then rt_b s else rt_a s) with
      | Returned _ =>
          Some (mkState (rt_current s) (rt_closed s) (if who then rt_a s else Try 0) (if who then Try 0 else rt_b s)
                  (rt_closing s) (rt_next s) (rt_open s))
      | _ => None
      end
  | MStep who ok =>
      '(c, current, next, open) ← step ok (if who then rt_b s else rt_a s) (rt_current s) (rt_closed s) (rt_next s) (rt_open s);
      Some (mkState current (rt_closed s) (if who then rt_a s else c) (if who then c else rt_b s) (rt_closing s) next open)
  | MClose =>
      if rt_closed s then Some s else Some (mkState None true (rt_a s) (rt_b s) (rt_current s) (rt_next s) (rt_open s))
  | MClosed =>
      c ← rt_closing s;
      Some (mkState (rt_current s) (rt_closed s) (rt_a s) (rt_b s) None (rt_next s) (filter (λ x, x ≠ c) (rt_open s)))
  end.

Fixpoint exec_moves (ms : list move) (s : state) : option state :=
  match ms with [] => Some s | m :: ms => s ← exec_move m s; exec_moves ms s end.

(** *** One call at a time *)

(** The connection a caller has to close or to install. *)
Definition held (c : caller) : list nat :=
  match c with Closing _ (Some c) => [c] | Installing _ c => [c] | Discarding c => [c] | _ => [] end.

(** The caller is between dropping a connection and installing the next. *)
Definition between (c : caller) : Prop :=
  match c with Closing _ _ | Waiting _ | Dialing _ | Installing _ _ | Discarding _ => True | _ => False end.

Definition attempt_of (c : caller) : Z :=
  match c with
  | Try k | Using k _ | Dropping k | Closing k _ | Waiting k | Dialing k | Installing k _ => k
  | _ => 0
  end.

Record inv (s : state) : Prop := {
  iv_open : rt_open s ≡ₚ option_list (rt_current s) ++ held (rt_a s) ++ option_list (rt_closing s);
  iv_nodup : NoDup (rt_open s);
  iv_next : Forall (λ c, c < rt_next s) (rt_open s);
  iv_between : between (rt_a s) → rt_current s = None;
  iv_closed : rt_closed s = true → rt_current s = None;
  iv_closing : is_Some (rt_closing s) → rt_closed s = true;
  iv_attempt : (0 ≤ attempt_of (rt_a s) ≤ Z.max 0 (rc_MaxAttempts cfg))%Z ∧
    match rt_a s with Returned _ | Try _ | Discarding _ => True | c => (attempt_of c < rc_MaxAttempts cfg)%Z end
}.

Definition first_caller (m : move) : bool := match m with MCall who | MStep who _ => negb who | _ => true end.

Lemma filter_remove (c : nat) (l k : list nat) : NoDup (c :: k) → l ≡ₚ c :: k → filter (λ x, x ≠ c) l ≡ₚ k.
Proof.
  intros [Hc Hk]%NoDup_cons Hl. rewrite Hl, filter_cons, decide_False by (intros Hn; by apply Hn).
  clear Hl l. induction k as [|x k IH]; [done|]. apply not_elem_of_cons in Hc as [Hne Hc]. apply NoDup_cons in Hk as [_ Hk].
  rewrite filter_cons, decide_True by congruence. by rewrite IH.
Qed.

Lemma filter_small (P : nat → Prop) `{!∀ x, Decision (P x)} n l : Forall (λ c, c < n) l → Forall (λ c, c < n) (filter P l).
Proof. rewrite !Forall_forall. intros Hall c [_ Hc]%list_elem_of_filter. by apply Hall. Qed.

Lemma exec_move_inv m s s' : first_caller m = true → inv s → exec_move m s = Some s' → inv s'.
Proof.
  intros Hm [Ho Hnd Hnx Hbt Hcl Hcg [Ha Hb]]. destruct m as [who|who ok| |]; cbn [exec_move first_caller] in *.
  - destruct who; [done|]. destruct (rt_a s) eqn:Hca; try done. intros [= <-]. split; simpl; try done; try lia.
  - destruct who; [done|]. destruct (rt_a s) as [r|k|k conn|k|k conn|k|k|k conn|conn] eqn:Hca; cbn [step]; simpl in Ho, Hbt, Ha, Hb; [done|..].
    + destruct (Z.leb_spec (rc_MaxAttempts cfg) k); [|destruct (rt_closed s) eqn:Hc; [|destruct (rt_current s) as [conn|] eqn:Hcur]];
        simpl; intros [= <-]; split; simpl; rewrite ?Hc, ?Hcur; try done; lia.
    + simpl. intros [= <-]. destruct ok; split; simpl; try done; lia.
    + destruct (rt_closed s) eqn:Hc; simpl; intros [= <-]; split; simpl; rewrite ?Hc; try done; lia.
    + specialize (Hbt I). rewrite Hbt in Ho. simpl. intros [= <-]. destruct conn as [c|]; simpl in *.
      * split; simpl; try done; [|by apply NoDup_filter|by apply filter_small]. rewrite Hbt. simpl.
        apply filter_remove; [|done]. by rewrite <- Ho.
      * split; simpl; try done. by rewrite Hbt.
    + simpl. intros [= <-]. destruct ok; split; simpl; try done; lia.
    + specialize (Hbt I). destruct ok; simpl; intros [= <-]; [|split; simpl; try done; lia].
      split; simpl; try done.
      * by rewrite Ho, Hbt.
      * apply NoDup_cons. split; [|done]. intros Hin. rewrite Forall_forall in Hnx. apply Hnx in Hin. lia.
      * constructor; [lia|]. eapply Forall_impl; [exact Hnx|]. simpl. lia.
    + specialize (Hbt I). destruct (rt_closed s) eqn:Hc; simpl; intros [= <-].
      * split; simpl; rewrite ?Hc; try done; lia.
      * split; simpl; rewrite ?Hc; try done; [|lia]. by rewrite Ho, Hbt.
    + specialize (Hbt I). rewrite Hbt in Ho. simpl in Ho. simpl. intros [= <-].
      split; simpl; try done; [|by apply NoDup_filter|by apply filter_small]. rewrite Hbt. simpl.
      apply filter_remove; [|done]. by rewrite <- Ho.
  - destruct (rt_closed s) eqn:Hc; intros [= <-]; [by split; rewrite ?Hc|]. split; simpl; try done.
    assert (rt_closing s = None) as Hg.
    { destruct (rt_closing s) as [c|]; [|done]. assert (false = true) by (apply Hcg; by eexists). done. }
    rewrite Ho, Hg, app_nil_r. simpl. apply Permutation_app_comm.
  - destruct (rt_closing s) as [c|] eqn:Hg; [|done]. simpl. intros [= <-]. specialize (Hcg ltac:(by eexists)). rewrite (Hcl Hcg) in Ho. simpl in Ho.
    split; simpl; try done; [|by apply NoDup_filter|by apply filter_small].
    rewrite (Hcl Hcg), app_nil_r. simpl. apply filter_remove; [|by rewrite Ho, (Permutation_app_comm _ [c])].
    rewrite <- (Permutation_app_comm (held (rt_a s)) [c]). by rewrite <- Ho.
Qed.

(** A transport that is used by one call at a time, with [Close] at any moment,
    never loses a connection: what is open is the current connection, one that a call
    or [Close] is about to close or to install, and nothing else, so that at most two
    are open at any time, and none is left when the transport is closed and no call is
    in progress. A call makes at most [MaxAttempts] attempts. *)
Theorem reconnect_no_leak (ms : list move) (s : state) :
  forallb first_caller ms = true → exec_moves ms NewReconnectingTransport = Some s →
  rt_open s ≡ₚ option_list (rt_current s) ++ held (rt_a s) ++ option_list (rt_closing s) ∧ length (rt_open s) ≤ 2 ∧
  (0 ≤ attempt_of (rt_a s) ≤ Z.max 0 (rc_MaxAttempts cfg))%Z ∧
  (∀ r, rt_a s = Returned r → rt_closing s = None → rt_open s = option_list (rt_current s) ∧ (rt_closed s = true → rt_open s = [])).
Proof.
  intros Hms Hs. assert (inv s) as [Ho Hnd Hnx Hbt Hcl Hcg [Ha Hb]].
  { revert Hms Hs. assert (inv NewReconnectingTransport) as Hinv.
    { split; simpl; try done; try apply NoDup_singleton; try (by intros [? [=]]); try lia. by repeat constructor. }
    revert Hinv. generalize NewReconnectingTransport. induction ms as [|m ms IH]; intros s0 Hinv Hms; simpl; [by intros [= <-]|].
    simpl in Hms. apply andb_true_iff in Hms as [Hm Hms]. destruct (exec_move m s0) as [s1|] eqn:He; [|done]. simpl.
    apply IH; [|done]. by eapply exec_move_inv. }
  split; [done|]. split; [|split; [done|]].
  - rewrite Ho, !length_app. assert (length (held (rt_a s)) ≤ 1) by (by destruct (rt_a s) as [| | | |? []| | | |]; simpl; lia).
    assert (length (option_list (rt_closing s)) ≤ 1) by (destruct (rt_closing s); simpl; lia).
    destruct (rt_current s) as [c|] eqn:Hc; simpl; [|lia].
    assert (rt_closing s = None) as ->.
    { destruct (rt_closing s) as [x|]; [|done]. assert (Some c = None) by (apply Hcl, Hcg; by eexists). done. }
    simpl. lia.
  - intros r Hr Hg. rewrite Hr, Hg in Ho. simpl in Ho. rewrite app_nil_r in Ho. destruct (rt_current s) as [c|] eqn:Hc; simpl in *.
    + apply Permutation_singleton_r in Ho. split; [done|]. intros Hcls. specialize (Hcl Hcls). done.
    + apply Permutation_nil_r in Ho. by split.
Qed.
End Moves.

(** Two calls at the same time, as a sender and a receiver would make them, can both
    reconnect: the connection that is installed first is replaced and stays open. *)
Example two_callers_leak :
  let cfg := mkReconnect 3 1 in
  let together ms := mjoin (map (λ ok, [MStep false ok; MStep true ok]) ms) in
  match exec_moves cfg ([MCall false; MCall true] ++ together [true; false; true; true; true; true; true] ++ [MClose; MClosed] ++
          together [true]) NewReconnectingTransport with
  | Some s => Some (rt_a s, rt_b s, rt_closed s, rt_open s)
  | None => None
  end = Some (Returned false, Returned false, true, [1]).
Proof. vm_compute. reflexivity. Qed.

Lemma reconnect_no_leak_witness :
  ∃ s, exec_moves (defaults (mkReconnect 0 0)) ([MCall false; MStep false true; MStep false false; MStep false true; MStep false true; MClose] ++
          repeat (MStep false true) 4) NewReconnectingTransport = Some s ∧
    rt_a s = Returned false ∧ rt_open s = [].
Proof.
  destruct (exec_moves (defaults (mkReconnect 0 0)) ([MCall false; MStep false true; MStep false false; MStep false true; MStep false true; MClose] ++
    repeat (MStep false true) 4) NewReconnectingTransport) as [s|] eqn:Hs; [|vm_compute in Hs; discriminate].
  destruct (reconnect_no_leak (defaults (mkReconnect 0 0)) ([MCall false; MStep false true; MStep false false; MStep false true; MStep false true; MClose] ++
    repeat (MStep false true) 4) s eq_refl Hs) as (_ & _ & _ & Hend).
  assert (rt_a s = Returned false ∧ rt_closing s = None ∧ rt_closed s = true) as (Ha & Hg & Hc).
  { vm_compute in Hs. injection Hs as <-. done. }
  exists s. split; [done|]. split; [done|]. by apply (Hend false).
Defined.
End Reconnect.

(** ** The pool of clients *)

Module Pool.

Definition defaultMCPPoolSize : Z := 4.
Definition maxMCPPoolSize : Z := 32.

Definition pool_size (size : Z) : Z :=
  let size := if (size <=? 0)%Z then defaultMCPPoolSize else size in
  if (maxMCPPoolSize <? size)%Z then maxMCPPoolSize else size.

(** [strconv.Atoi]. *)
Definition strconv_Atoi (s : string) : option Z :=
  let number t sign := match t with EmptyString => None | _ => n ← parse_digits t 0; Some (sign * n)%Z end in
  v ← (match s with
       | String c t => if decide (c = "-"%char) then number t (-1)%Z else if decide (c = "+"%char) then number t 1%Z else number s 1%Z
       | EmptyString => None
       end);
  if (- 2 ^ 63 <=? v)%Z && (v <? 2 ^ 63)%Z then Some v else None.

(** [env]: the value of the environment variable. *)
Definition configuredMCPPoolSize (env : string) : Z :=
  let raw := TrimSpace env in
  if bool_decide (raw = EmptyString) then defaultMCPPoolSize
  else match strconv_Atoi raw with
       | None => defaultMCPPoolSize
       | Some value =>
           if (value <=? 0)%Z then defaultMCPPoolSize else if (maxMCPPoolSize <? value)%Z then maxMCPPoolSize else value
       end.

Example pool_sizes : map configuredMCPPoolSize [""; " 8 "; "-1"; "100"; "x"; "99999999999999999999"] = [4; 8; 4; 32; 4; 4]%Z.
Proof. vm_compute. reflexivity. Qed.

(** The encoding of what a pool is for, and the hexadecimal SHA-256. *)
Class PoolKeyLibs := {
  key_Marshal : string → MCPTransport → gmap string string → string → string + error;
  sha256_hex : string → string
}.
Definition mcpPoolKey `{PoolKeyLibs} (regName : string) (transport : MCPTransport) (config : gmap string string) (overlayPath : string)
    : string + error :=
  match key_Marshal regName transport config (TrimSpace overlayPath) with inl data => inl (sha256_hex data) | inr err => inr err end.

(** A call that waits for a client, uses one, or has ended. *)
Inductive use := Waiting | Using (client : nat) | Ended.

(** Clients are numbered; [pl_closed] lists the clients whose connection was closed. *)
Record mcpClientPool := mkPool { pl_available : list nat; pl_all : list nat; pl_closed : list nat; pl_calls : list use }.

(** What building a client gives. *)
Inductive built := Built | BuildFailed (err : error) | InitFailed (err : error).

(** [newMCPClientPool]: what the calls of [build] give, in their order; the pool, or the
    error and the clients that were closed. *)
Fixpoint build_clients (n : nat) (build : nat → built) (made : list nat) : list nat + error * list nat :=
  match n with
  | 0 => inl made
  | S n =>
      match build (length made) with
      | BuildFailed err => inr (err, made)
      | InitFailed err => inr (EFmt [PS "tool: mcp adapter initialize failed: "; PW err], length made :: made)
      | Built => build_clients n build (made ++ [length made])
      end
  end.
Definition newMCPClientPool (size : Z) (build : nat → built) : mcpClientPool + error * list nat :=
  match build_clients (Z.to_nat (pool_size size)) build [] with
  | inl all => inl (mkPool all all [] [])
  | inr r => inr r
  end.

Inductive move :=
| PCall                (** a call of [CallTool] begins *)
| PTake (i : nat)      (** it takes a client off the channel *)
| PCancel (i : nat)    (** or its context ends *)
| PReturn (i : nat)    (** it puts the client back *)
| PClose.

Definition set_call (i : nat) (u : use) (available : list nat) (p : mcpClientPool) : mcpClientPool :=
  mkPool available (pl_all p) (pl_closed p) (<[i := u]> (pl_calls p)).

(** [None]: the move is not possible; a send on a full channel waits. *)
Definition exec_pool (m : move) (p : mcpClientPool) : option mcpClientPool :=
  match m with
  | PCall => Some (mkPool (pl_available p) (pl_all p) (pl_closed p) (pl_calls p ++ [Waiting]))
  | PTake i =>
      match pl_calls p !! i, pl_available p with
      | Some Waiting, c :: rest => Some (set_call i (Using c) rest p)
      | _, _ => None
      end
  | PCancel i => match pl_calls p !! i with Some Waiting => Some (set_call i Ended (pl_available p) p) | _ => None end
  | PReturn i =>
      match pl_calls p !! i with
      | Some (Using c) =>
          if bool_decide (length (pl_available p) < length (pl_all p)) then Some (set_call i Ended (pl_available p ++ [c]) p) else None
      | _ => None
      end
  | PClose => Some (mkPool (pl_available p) (pl_all p) (pl_closed p ++ pl_all p) (pl_calls p))
  end.

Fixpoint exec_pools (ms : list move) (p : mcpClientPool) : option mcpClientPool :=
  match ms with [] => Some p | m :: ms => p ← exec_pool m p; exec_pools ms p end.

Definition used (calls : list use) : list nat := omap (λ u, match u with Using c => Some c | _ => None end) calls.

Lemma used_set (calls : list use) i u u' : calls !! i = Some u →
  used (<[i := u']> calls) ++ used [u] ≡ₚ used calls ++ used [u'].
Proof.
  revert i. induction calls as [|x calls IH]; intros [|i]; [done|done| |]; simpl.
  - intros [= ->]. unfold used. simpl. destruct u, u'; simpl; rewrite ?app_nil_r; try done.
    all: rewrite ?(Permutation_app_comm _ [_]); simpl; try done; try by constructor.
  - intros Hi. specialize (IH i Hi). unfold used in *. simpl. destruct x; simpl; [done|by constructor|done].
Qed.

(** The clients of the channel and those in use are all clients, each once. *)
Definition pool_ok (p : mcpClientPool) : Prop := pl_available p ++ used (pl_calls p) ≡ₚ pl_all p ∧ NoDup (pl_all p).

Lemma exec_pool_ok m p p' : pool_ok p → exec_pool m p = Some p' → pool_ok p' ∧ pl_all p' = pl_all p.
Proof.
  intros [Hp Hnd]. destruct m as [|i|i|i|]; cbn [exec_pool].
  - intros [= <-]. split; [|done]. split; [|done]. simpl. unfold used. by rewrite omap_app, app_nil_r.
  - destruct (pl_calls p !! i) as [[|c|]|] eqn:Hi; try done. destruct (pl_available p) as [|c rest] eqn:Ha; [done|]. intros [= <-].
    split; [|done]. split; [|done]. simpl. pose proof (used_set _ _ _ (Using c) Hi) as Hu. simpl in Hu. rewrite app_nil_r in Hu.
    rewrite Hu, <- Hp, app_assoc, (Permutation_app_comm _ [c]). done.
  - destruct (pl_calls p !! i) as [[|c|]|] eqn:Hi; try done. intros [= <-]. split; [|done]. split; [|done]. simpl.
    pose proof (used_set _ _ _ Ended Hi) as Hu. simpl in Hu. rewrite !app_nil_r in Hu. by rewrite Hu.
  - destruct (pl_calls p !! i) as [[|c|]|] eqn:Hi; try done. case_bool_decide; [|done]. intros [= <-]. split; [|done]. split; [|done]. simpl.
    pose proof (used_set _ _ _ Ended Hi) as Hu. simpl in Hu. rewrite app_nil_r in Hu. rewrite <- Hp, <- Hu, <- app_assoc.
    by rewrite (Permutation_app_comm [c]).
  - by intros [= <-].
Qed.

Lemma build_clients_all n build made all : build_clients n build made = inl all → made = seq 0 (length made) →
  all = seq 0 (n + length made).
Proof.
  revert made. induction n as [|n IH]; intros made; cbn [build_clients]; [by intros [= <-]|].
  destruct (build (length made)); [|done..]. intros Hb Hm. apply IH in Hb.
  - rewrite Hb, length_app. cbn [length]. f_equal. lia.
  - rewrite length_app. cbn [length]. rewrite Nat.add_1_r, seq_S. by rewrite <- Hm.
Qed.

Lemma new_pool_ok size build p : newMCPClientPool size build = inl p →
  pool_ok p ∧ length (pl_all p) = Z.to_nat (pool_size size).
Proof.
  unfold newMCPClientPool. destruct (build_clients _ _ _) as [all|] eqn:Hb; [|done]. intros [= <-]. unfold pool_ok. simpl. rewrite app_nil_r.
  apply build_clients_all in Hb as ->; [|done]. rewrite length_seq. simpl. split; [|lia]. split; [done|]. apply NoDup_seq.
Qed.

(** However the calls of a pool interleave, a client serves at most one call at a
    time, a client that is not in use is in the channel, so that no more calls run
    than there are clients, of which there are as many as was asked for within the
    limits, and a call never waits to put its client back. *)
Theorem pool_exclusive (size : Z) (build : nat → built) (ms : list move) (p0 p : mcpClientPool) :
  newMCPClientPool size build = inl p0 → exec_pools ms p0 = Some p →
  NoDup (used (pl_calls p)) ∧ length (used (pl_calls p)) ≤ length (pl_all p0) ∧
  (Z.of_nat (length (pl_all p0)) = pool_size size ∧ 1 ≤ pool_size size ≤ maxMCPPoolSize)%Z ∧
  (∀ c, c ∈ pl_all p0 → (c ∈ pl_available p ∨ c ∈ used (pl_calls p)) ∧ ¬ (c ∈ pl_available p ∧ c ∈ used (pl_calls p))) ∧
  (∀ i c, pl_calls p !! i = Some (Using c) → is_Some (exec_pool (PReturn i) p)).
Proof.
  intros Hnew Hms. destruct (new_pool_ok _ _ _ Hnew) as [Hok0 Hlen].
  assert (pool_ok p ∧ pl_all p = pl_all p0) as [[Hp Hnd] Hall].
  { revert Hok0 Hms. clear. revert p0. induction ms as [|m ms IH]; intros p0 Hok; simpl; [by intros [= <-]|].
    destruct (exec_pool m p0) as [p1|] eqn:He; [|done]. simpl. intros Hms. destruct (exec_pool_ok _ _ _ Hok He) as [Hok1 Hall1].
    destruct (IH p1 Hok1 Hms) as [? ->]. done. }
  rewrite Hall in *. rewrite <- Hp in Hnd. apply NoDup_app in Hnd as (Hnd1 & Hdisj & Hnd2).
  apply Permutation_length in Hp as Hl. rewrite length_app in Hl. split_and!; [done|lia| | | | |].
  1,2,3: rewrite ?Hlen; unfold pool_size, defaultMCPPoolSize, maxMCPPoolSize in *; repeat case_match; lia.
  - intros c Hc. rewrite <- Hp, elem_of_app in Hc. split; [done|]. intros [H1 H2]. by apply (Hdisj c).
  - intros i c Hi. cbn [exec_pool]. rewrite Hi, Hall. rewrite bool_decide_true; [by eexists|].
    assert (c ∈ used (pl_calls p)) as Hc by (apply list_elem_of_omap; exists (Using c); split; [by eapply list_elem_of_lookup_2|done]).
    destruct (used (pl_calls p)); [by apply elem_of_nil in Hc|]. simpl in Hl. lia.
Qed.

(** *** The table of pools *)

(** A call of [getOrCreate]: it builds a pool, has built one, or has returned one. *)
Inductive lookup :=
| Building (key : string)
| Storing (key : string) (pool : nat)
| Got (key : string) (pool : option nat).

(** Pools are numbered by [mm_next]; [mm_closed] lists those that were closed. *)
Record mcpClientPoolManager := mkManager {
  mm_pools : gmap string nat; mm_calls : list lookup; mm_next : nat; mm_closed : list nat
}.
Definition sharedMCPClientPools : mcpClientPoolManager := mkManager ∅ [] 0 [].

Inductive mmove :=
| GCall (key : string)           (** the first look at the table *)
| GBuilt (i : nat) (ok : bool)
| GStore (i : nat).              (** the second look *)

(** The first look; a blank key is refused. *)
Definition first_look (pools : gmap string nat) (key : string) : lookup :=
  if bool_decide (TrimSpace key = EmptyString) then Got key None
  else match pools !! key with Some p => Got key (Some p) | None => Building key end.

Definition exec_manager (m : mmove) (s : mcpClientPoolManager) : option mcpClientPoolManager :=
  match m with
  | GCall key => Some (mkManager (mm_pools s) (mm_calls s ++ [first_look (mm_pools s) key]) (mm_next s) (mm_closed s))
  | GBuilt i ok =>
      match mm_calls s !! i with
      | Some (Building key) =>
          Some (if ok then mkManager (mm_pools s) (<[i := Storing key (mm_next s)]> (mm_calls s)) (S (mm_next s)) (mm_closed s)
                else mkManager (mm_pools s) (<[i := Got key None]> (mm_calls s)) (mm_next s) (mm_closed s))
      | _ => None
      end
  | GStore i =>
      match mm_calls s !! i with
      | Some (Storing key created) =>
          Some (match mm_pools s !! key with
                | Some current => mkManager (mm_pools s) (<[i := Got key (Some current)]> (mm_calls s)) (mm_next s) (created :: mm_closed s)
                | None => mkManager (<[key := created]> (mm_pools s)) (<[i := Got key (Some created)]> (mm_calls s)) (mm_next s) (mm_closed s)
                end)
      | _ => None
      end
  end.

Fixpoint exec_managers (ms : list mmove) (s : mcpClientPoolManager) : option mcpClientPoolManager :=
  match ms with [] => Some s | m :: ms => s ← exec_manager m s; exec_managers ms s end.

(** A pool that was built is in the table, closed, or about to be stored by one call. *)
Record manager_ok (s : mcpClientPoolManager) : Prop := {
  mo_got : ∀ i key p, mm_calls s !! i = Some (Got key (Some p)) → mm_pools s !! key = Some p;
  mo_table : ∀ key p, mm_pools s !! key = Some p → p < mm_next s ∧ p ∉ mm_closed s ∧ ∀ i k, mm_calls s !! i ≠ Some (Storing k p);
  mo_storing : ∀ i key p, mm_calls s !! i = Some (Storing key p) → p < mm_next s ∧ p ∉ mm_closed s;
  mo_once : ∀ i j k k' p, mm_calls s !! i = Some (Storing k p) → mm_calls s !! j = Some (Storing k' p) → i = j;
  mo_keys : ∀ k k' p, mm_pools s !! k = Some p → mm_pools s !! k' = Some p → k = k';
  mo_all : ∀ p, p < mm_next s → p ∈ mm_closed s ∨ (∃ key, mm_pools s !! key = Some p) ∨ ∃ i key, mm_calls s !! i = Some (Storing key p);
  mo_closed : NoDup (mm_closed s) ∧ Forall (λ p, p < mm_next s) (mm_closed s)
}.

Lemma look_ok key s s' : manager_ok s → exec_manager (GCall key) s = Some s' → manager_ok s' ∧ mm_pools s ⊆ mm_pools s'.
Proof.
  intros [Hgot Htab Hsto Hone Hkey Hall [Hnd Hcl]]. cbn [exec_manager].
  intros [= <-]. split; [|done].
  assert (∀ j x, (mm_calls s ++ [first_look (mm_pools s) key]) !! j = Some x →
    mm_calls s !! j = Some x ∨ (∀ k p, x ≠ Storing k p) ∧ ∀ k p, x = Got k (Some p) → mm_pools s !! k = Some p) as Hnew.
  { intros j x [?|[_ Hx]]%lookup_app_Some; [by left|]. right. apply list_lookup_singleton_Some in Hx as [_ <-]. unfold first_look.
    case_bool_decide; [done|]. destruct (mm_pools s !! key) eqn:Hq; [|done]. split; [done|]. by intros k p [= <- <-]. }
  split; simpl; try done.
  + intros j k p Hj. destruct (Hnew _ _ Hj) as [?|[_ Hx]]; [by eapply Hgot|by apply Hx].
  + intros k p Hk. destruct (Htab k p Hk) as (H1 & H2 & H3). split_and!; [done..|]. intros j k' Hj.
    destruct (Hnew _ _ Hj) as [?|[Hx _]]; [by eapply H3|by eapply Hx].
  + intros j k p Hj. destruct (Hnew _ _ Hj) as [?|[Hx _]]; [by eapply Hsto|by destruct (Hx k p)].
  + intros j1 j2 k1 k2 p Hj1 Hj2. destruct (Hnew _ _ Hj1) as [Ho1|[Hx _]]; [|by destruct (Hx k1 p)].
    destruct (Hnew _ _ Hj2) as [Ho2|[Hx _]]; [|by destruct (Hx k2 p)]. by eapply Hone.
  + intros p Hp. destruct (Hall p Hp) as [?|[?|(j & k & Hj)]]; [by left|by right; left|]. right. right. exists j, k. by apply lookup_app_l_Some.
Qed.

Lemma built_ok i ok s s' : manager_ok s → exec_manager (GBuilt i ok) s = Some s' → manager_ok s' ∧ mm_pools s ⊆ mm_pools s'.
Proof.
  intros [Hgot Htab Hsto Hone Hkey Hall [Hnd Hcl]]. cbn [exec_manager].
  destruct (mm_calls s !! i) as [[k| |]|] eqn:Hi; try done. destruct ok; intros [= <-]; (split; [|done]); split; simpl; try done.
  + intros j k' p Hj. destruct (lookup_set _ _ _ _ _ _ Hi Hj) as [[_ ?]|[_ ?]]; [done|by eapply Hgot].
  + intros k' p Hk. destruct (Htab k' p Hk) as (H1 & H2 & H3). split_and!; [lia|done|]. intros j k1 Hj.
    destruct (lookup_set _ _ _ _ _ _ Hi Hj) as [[_ [= _ ->]]|[_ ?]]; [lia|by eapply H3].
  + intros j k' p Hj. destruct (lookup_set _ _ _ _ _ _ Hi Hj) as [[_ [= _ ->]]|[_ Hold]].
    * split; [lia|]. intros Hin. rewrite Forall_forall in Hcl. apply Hcl in Hin. lia.
    * destruct (Hsto _ _ _ Hold). split; [lia|done].
  + intros j1 j2 k1 k2 p Hj1 Hj2. destruct (lookup_set _ _ _ _ _ _ Hi Hj1) as [[<- [= _ ->]]|[_ Ho1]];
      destruct (lookup_set _ _ _ _ _ _ Hi Hj2) as [[<- Hx]|[_ Ho2]]; [done| | |by eapply Hone].
    * apply Hsto in Ho2. lia.
    * injection Hx as _ ->. apply Hsto in Ho1. lia.
  + intros p Hp. destruct (decide (p = mm_next s)) as [->|Hne].
    * right. right. exists i, k. apply list_lookup_insert_eq. by eapply lookup_lt_Some.
    * destruct (Hall p) as [?|[?|(j & k' & Hj)]]; [lia|by left|by right; left|]. right. right. exists j, k'.
      rewrite list_lookup_insert_ne; [done|]. intros ->. congruence.
  + split; [done|]. eapply Forall_impl; [exact Hcl|]. simpl. lia.
  + intros j k' p Hj. destruct (lookup_set _ _ _ _ _ _ Hi Hj) as [[_ ?]|[_ ?]]; [done|by eapply Hgot].
  + intros k' p Hk. destruct (Htab k' p Hk) as (H1 & H2 & H3). split_and!; [done..|]. intros j k1 Hj.
    destruct (lookup_set _ _ _ _ _ _ Hi Hj) as [[_ ?]|[_ ?]]; [done|by eapply H3].
  + intros j k' p Hj. destruct (lookup_set _ _ _ _ _ _ Hi Hj) as [[_ ?]|[_ Hold]]; [done|by eapply Hsto].
  + intros j1 j2 k1 k2 p Hj1 Hj2. destruct (lookup_set _ _ _ _ _ _ Hi Hj1) as [[_ ?]|[_ Ho1]]; [done|].
    destruct (lookup_set _ _ _ _ _ _ Hi Hj2) as [[_ ?]|[_ Ho2]]; [done|by eapply Hone].
  + intros p Hp. destruct (Hall p Hp) as [?|[?|(j & k' & Hj)]]; [by left|by right; left|]. right. right. exists j, k'.
    rewrite list_lookup_insert_ne; [done|]. intros ->. congruence.
Qed.

Lemma store_ok i s s' : manager_ok s → exec_manager (GStore i) s = Some s' → manager_ok s' ∧ mm_pools s ⊆ mm_pools s'.
Proof.
  intros [Hgot Htab Hsto Hone Hkey Hall [Hnd Hcl]]. cbn [exec_manager].
  destruct (mm_calls s !! i) as [[|k created|]|] eqn:Hi; try done. destruct (Hsto _ _ _ Hi) as [Hcr Hncl].
  destruct (mm_pools s !! k) as [current|] eqn:Hk; intros [= <-].
  + split; [|done]. split; simpl; try done.
    * intros j k' p Hj. destruct (lookup_set _ _ _ _ _ _ Hi Hj) as [[_ [= -> ->]]|[_ ?]]; [done|by eapply Hgot].
    * intros k' p Hk'. destruct (Htab k' p Hk') as (H1 & H2 & H3). split_and!; [done| |].
      -- intros [->|?]%elem_of_cons; [by eapply H3|done].
      -- intros j k1 Hj. destruct (lookup_set _ _ _ _ _ _ Hi Hj) as [[_ ?]|[_ ?]]; [done|by eapply H3].
    * intros j k' p Hj. destruct (lookup_set _ _ _ _ _ _ Hi Hj) as [[_ ?]|[Hne Hold]]; [done|]. destruct (Hsto _ _ _ Hold). split; [done|].
      intros [->|?]%elem_of_cons; [|done]. apply Hne. by eapply Hone.
    * intros j1 j2 k1 k2 p Hj1 Hj2. destruct (lookup_set _ _ _ _ _ _ Hi Hj1) as [[_ ?]|[_ Ho1]]; [done|].
      destruct (lookup_set _ _ _ _ _ _ Hi Hj2) as [[_ ?]|[_ Ho2]]; [done|by eapply Hone].
    * intros p Hp. destruct (Hall p Hp) as [?|[?|(j & k' & Hj)]]; [left; by right|by right; left|].
      destruct (decide (i = j)) as [<-|Hne]; [left; rewrite Hi in Hj; injection Hj as _ ->; by left|].
      right. right. exists j, k'. by rewrite list_lookup_insert_ne.
    * split; [by apply NoDup_cons|by constructor].
  + assert (∀ k' p, <[k := created]> (mm_pools s) !! k' = Some p → (k' = k ∧ p = created) ∨ (k' ≠ k ∧ mm_pools s !! k' = Some p)) as Hins.
    { intros k' p [[<- <-]|[? ?]]%lookup_insert_Some; [by left|right; by split]. }
    split; [|simpl; by apply insert_subseteq]. split; simpl; try done.
    * intros j k' p Hj. destruct (lookup_set _ _ _ _ _ _ Hi Hj) as [[_ [= -> ->]]|[_ Hold]]; [by rewrite lookup_insert_eq|].
      apply Hgot in Hold. rewrite lookup_insert_ne; [done|]. intros <-. congruence.
    * intros k' p Hk'. destruct (Hins k' p Hk') as [[-> ->]|[Hne Hold]].
      -- split_and!; [done..|]. intros j k1 Hj. destruct (lookup_set _ _ _ _ _ _ Hi Hj) as [[_ ?]|[Hne Hold]]; [done|].
         apply Hne. by eapply Hone.
      -- destruct (Htab k' p Hold) as (H1 & H2 & H3). split_and!; [done..|]. intros j k1 Hj.
         destruct (lookup_set _ _ _ _ _ _ Hi Hj) as [[_ ?]|[_ ?]]; [done|by eapply H3].
    * intros j k' p Hj. destruct (lookup_set _ _ _ _ _ _ Hi Hj) as [[_ ?]|[_ Hold]]; [done|by eapply Hsto].
    * intros j1 j2 k1 k2 p Hj1 Hj2. destruct (lookup_set _ _ _ _ _ _ Hi Hj1) as [[_ ?]|[_ Ho1]]; [done|].
      destruct (lookup_set _ _ _ _ _ _ Hi Hj2) as [[_ ?]|[_ Ho2]]; [done|by eapply Hone].
    * intros k1 k2 p H1 H2. destruct (Hins _ _ H1) as [[-> ->]|[? Ho1]]; destruct (Hins _ _ H2) as [[-> Hx]|[? Ho2]]; [done| | |by eapply Hkey].
      -- destruct (Htab _ _ Ho2) as (_ & _ & H3). by destruct (H3 i k).
      -- subst p. destruct (Htab _ _ Ho1) as (_ & _ & H3). by destruct (H3 i k).
    * intros p Hp. destruct (Hall p Hp) as [?|[(k' & Hk')|(j & k' & Hj)]]; [by left| |].
      -- right. left. exists k'. rewrite lookup_insert_ne; [done|]. intros <-. congruence.
      -- destruct (decide (i = j)) as [<-|Hne].
         ++ right. left. exists k. rewrite Hi in Hj. injection Hj as _ ->. by rewrite lookup_insert_eq.
         ++ right. right. exists j, k'. by rewrite list_lookup_insert_ne.
Qed.

Lemma exec_manager_ok m s s' : manager_ok s → exec_manager m s = Some s' → manager_ok s' ∧ mm_pools s ⊆ mm_pools s'.
Proof. destruct m; eauto using look_ok, built_ok, store_ok. Qed.

(** However the calls that ask for pools interleave, all calls for a key return
    the same pool, the one in the table; different keys have different pools; and a
    pool that was built is in the table, was closed exactly once, or is about to be
    stored by the call that built it. *)
Theorem one_pool_per_key (ms : list mmove) (s : mcpClientPoolManager) :
  exec_managers ms sharedMCPClientPools = Some s →
  (∀ i j key p p', mm_calls s !! i = Some (Got key (Some p)) → mm_calls s !! j = Some (Got key (Some p')) → p = p') ∧
  (∀ k k' p, mm_pools s !! k = Some p → mm_pools s !! k' = Some p → k = k') ∧
  (∀ p, p < mm_next s → p ∈ mm_closed s ∨ (∃ key, mm_pools s !! key = Some p) ∨ ∃ i key, mm_calls s !! i = Some (Storing key p)) ∧
  (∀ key p, mm_pools s !! key = Some p → p ∉ mm_closed s) ∧ NoDup (mm_closed s).
Proof.
  intros Hms. assert (manager_ok s) as [Hgot Htab Hsto Hone Hkey Hall [Hnd _]].
  { revert Hms. assert (manager_ok sharedMCPClientPools) as Hok.
    { split; simpl; try (intros *; rewrite ?lookup_empty; done); try done; [intros p; lia|]. split; constructor. }
    revert Hok. generalize sharedMCPClientPools. induction ms as [|m ms IH]; intros s0 Hok; simpl; [by intros [= <-]|].
    destruct (exec_manager m s0) as [s1|] eqn:He; [|done]. simpl. apply IH. by apply (exec_manager_ok m s0). }
  split_and!; try done.
  - intros i j key p p' Hi%Hgot Hj%Hgot. congruence.
  - intros key p Hp. by destruct (Htab key p Hp) as (_ & ? & _).
Qed.

(** Two calls that build at the same time: the second pool is closed. *)
Example raced :
  match exec_managers [GCall "k"; GCall "k"; GBuilt 0 true; GBuilt 1 true; GStore 1; GStore 0; GCall "k"] sharedMCPClientPools with
  | Some s => Some (mm_calls s, mm_closed s)
  | None => None
  end = Some ([Got "k" (Some 1); Got "k" (Some 1); Got "k" (Some 1)], [0]).
Proof. vm_compute. reflexivity. Qed.
End Pool.
