(* ===== verification/Daemon.v ===== *)
(** * The tool daemon (daemon/server.go, daemon/clone_helpers.go)

    The HTTP layer over the tool service. A handler decodes its request, calls the
    service, brings the catalogue of node types up to date and answers. Requests run
    in parallel: the service call, the listing of the registrations and every change
    of the registry are moves of their own, and the changes of one synchronisation are
    under a lock that readers of the registry do not take.

    The theorems: whatever the interleaving, the node types that are not tools stay as
    they were, every other one is an action of a registration the service accepted, and
    between synchronisations the catalogue is that of the listing installed last
    ([daemon_catalog]); a request that runs alone is answered and leaves the catalogue of
    the stored registrations ([request_current]). With requests in parallel an older
    listing can be installed last (example [stale_catalogue]), and a reader can miss
    the tools (example [tools_missing]). *)

From stdpp Require Import gmap strings list fin_maps sorting.
From Stdlib Require Import Ascii ZArith Lia.
From S2P Require Import Prelude Values GoFmt Unicode Registry Builtins ToolManifest ToolSchema ToolRegistry ToolValidation ToolInvoke ToolService ToolServiceSpec.

(** ** Node types of actions *)

Definition toolActionReference (toolName actionName : string) : string := TrimSpace toolName ^^ "." ^^ TrimSpace actionName.

(** A field of [hasBytesSchema]'s argument. *)
Fixpoint has_bytes (field : FieldSpec) : bool :=
  bool_decide (fs_Type field = TypeBytes) ||
  match fs_Items field with Some items => has_bytes items | None => false end ||
  map_fold (λ _ p acc, has_bytes p || acc) false (fs_Properties field).
Definition hasBytesSchema (fields : gmap string FieldSpec) : bool := map_fold (λ _ field acc, has_bytes field || acc) false fields.

Definition classifyToolActionMode (action : ActionSpec) : string :=
  match as_LLMCallable action with
  | Some true => "function_call"
  | Some false => "standalone"
  | None => if hasBytesSchema (as_Inputs action) || hasBytesSchema (as_Outputs action) then "standalone" else "function_call"
  end.

Definition fieldSpecsToPorts (fields : gmap string FieldSpec) (includeRequired : bool) : list PortDef :=
  range_sorted fields (λ name spec, mkPort name (fs_Type spec) (if includeRequired then fs_Required spec else false)).

(** Declarations as dynamic values. *)
Fixpoint field_value (field : FieldSpec) : value :=
  VStruct "tool.FieldSpec"
    {[ "Type" := VString (fs_Type field); "Required" := VBool (fs_Required field); "Description" := VString (fs_Description field);
       "Default" := fs_Default field; "Sensitive" := VBool (fs_Sensitive field);
       "Items" := match fs_Items field with Some items => field_value items | None => VNil end;
       "Properties" := VStruct "map[string]tool.FieldSpec" (field_value <$> fs_Properties field) ]}.
Definition cloneFieldMap (fields : gmap string FieldSpec) : value := VStruct "map[string]tool.FieldSpec" (field_value <$> fields).

(** The node type of an action. *)
Definition action_type (reg : ToolRegistration) (actionName : string) : NodeTypeDef :=
  let action := default (mkAction "" "" ∅ ∅ None false) (mf_Actions (tr_Manifest reg) !! actionName) in
  let ref := toolActionReference (tr_Name reg) actionName in
  mkNodeType ref "tool" ref (as_Description action)
    (mkPorts (fieldSpecsToPorts (as_Inputs action) true) (fieldSpecsToPorts (as_Outputs action) false))
    (VMap {[ "tool_name" := VString (tr_Name reg); "action_name" := VString actionName; "origin" := VString (tr_Origin reg);
             "status" := VString (tr_Status reg); "enabled" := VBool (tr_Enabled reg);
             "tool_config" := cloneFieldMap (mf_Config (tr_Manifest reg));
             "inputs" := cloneFieldMap (as_Inputs action); "outputs" := cloneFieldMap (as_Outputs action) ]})
    true (classifyToolActionMode action).

(** [sort.Slice] by name; registrations from a store have different names. *)
Definition name_le (a b : ToolRegistration) : Prop := string_le (tr_Name a) (tr_Name b).
#[export] Instance name_le_dec a b : Decision (name_le a b).
Proof. unfold name_le. apply _. Defined.

Definition BuildToolNodeTypes (regs : list ToolRegistration) : list NodeTypeDef :=
  mjoin (map (λ reg, map (action_type reg) (ActionNames reg)) (merge_sort name_le regs)).

(** ** Requests *)

(** [strings.EqualFold] when a string has bytes above 127. *)
Class FoldTables := { fold_other : string → string → bool }.
Definition equal_fold `{FoldTables} (s t : string) : bool :=
  let ascii x := all_bytes (λ c, (byte_val c <? 128)%Z) x in
  if ascii s && ascii t then bool_decide (map_bytes lower_byte s = map_bytes lower_byte t) else fold_other s t.

Definition parseOrigin `{LowerTables} `{FoldTables} (originValue typeValue : string) : string + error :=
  let origin := TrimSpace originValue in
  let declType := TrimSpace typeValue in
  let known origin :=
    let o := ToLower origin in
    if bool_decide (o = "native") then inl OriginNative
    else if bool_decide (o = "mcp") then inl OriginMCP
    else if bool_decide (o = "http") then inl OriginHTTP
    else if bool_decide (o = "stdio") then inl OriginStdio
    else inr (EFmt [PS "unsupported origin/type "; PQ origin]) in
  if bool_decide (origin = EmptyString) then
    if bool_decide (declType = EmptyString) then inl EmptyString else known declType
  else if equal_fold origin declType then known origin
  else inr (EFmt [PS "origin "; PQ origin; PS " does not match type "; PQ declType]).

Definition parseOptionalOrigin `{LowerTables} `{FoldTables} (originValue typeValue : option string) : option string + error :=
  match parseOrigin (default EmptyString originValue) (default EmptyString typeValue) with
  | inr err => inr err
  | inl origin => inl (if bool_decide (origin = EmptyString) then None else Some origin)
  end.

(** [strconv.ParseBool]. *)
Definition ParseBool (s : string) : option bool :=
  if bool_decide (s ∈ ["1"; "t"; "T"; "TRUE"; "true"; "True"]) then Some true
  else if bool_decide (s ∈ ["0"; "f"; "F"; "FALSE"; "false"; "False"]) then Some false
  else None.

Record registerToolRequest := mkRegisterReq {
  rq_Name : string; rq_Origin : string; rq_Type : string; rq_Manifest : option ToolManifest; rq_Config : gmap string string;
  rq_Transport : option MCPTransport; rq_OverlayPath : string; rq_Enabled : option bool
}.
Record updateToolRequest := mkUpdateReq {
  uq_Origin : option string; uq_Type : option string; uq_Manifest : option ToolManifest; uq_Config : option (gmap string string);
  uq_Transport : option MCPTransport; uq_OverlayPath : option string; uq_Enabled : option bool
}.
Record updateToolConfigRequest := mkConfigReq { cq_Set : gmap string string; cq_SetSecret : gmap string string }.
Record testToolRequest := mkTestReq { tq_Action : string; tq_Inputs : gmap string value }.
Record overlayToolRequest := mkOverlayReq { oq_OverlayPath : string; oq_Path : string }.

(** The requests of the routes, with the values of the query and of the path; a body
    is decoded, or there is the error of decoding. *)
Inductive http_request :=
| ListTools (status : string) (enabled include_builtins : option string)
| GetTool (name : string) (include_builtins : option string)
| RegisterTool (body : registerToolRequest + error)
| UpdateTool (name : string) (body : updateToolRequest + error)
| DeleteTool (name : string)
| UpdateToolConfig (name : string) (body : updateToolConfigRequest + error)
| TestTool (name : string) (body : testToolRequest + error)
| ToolHealth (name : string)
| RefreshTool (name : string)
| OverlayTool (name : string) (body : overlayToolRequest + error)
| DisableTool (name : string)
| EnableTool (name : string)
| NodeTypes (category : string).

(** The body of an answer; the details of validation errors are left out. *)
Inductive reply :=
| Tools (regs : list ToolRegistration)
| Tool (reg : ToolRegistration)
| ToolReport (reg : ToolRegistration) (report : HealthReport)
| TestResult (result : ToolTestResult)
| NoContent
| Types (defs : list NodeTypeDef)
| Refused (code : string) (message : string + gerror) (details : option (bool * gmap string value)).

(** ** Errors of the service *)

(** [errors.As] for a validation error. *)
Fixpoint validation_error (e : error) : bool :=
  match e with
  | ESentinel _ => false
  | EFmt ps =>
      match ps with
      | [PS code; PS sep; PS message] =>
          bool_decide (code = RegistrationValidationFailedCode) && bool_decide (sep = ": ") &&
          bool_decide (message = "Tool registration failed validation")
      | _ => false
      end || existsb (λ p, match p with PW e' => validation_error e' | _ => false end) ps
  end.
Fixpoint gvalidation_error (g : gerror) : bool :=
  match g with
  | GErr e | GNet e _ => validation_error e
  | GRPC _ _ => false
  | GRequest _ inner | GWrap _ inner => gvalidation_error inner
  | GTool (mkToolError _ _ _ _ (Some cause)) => gvalidation_error cause
  | GTool (mkToolError _ _ _ _ None) => false
  end.

Definition statusFromToolError (code : string) : Z :=
  if bool_decide (code = EmptyString) then 502
  else if bool_decide (code = ToolErrorCodeActionNotFound) then 404
  else if bool_decide (code = ToolErrorCodeInvalidRequest) then 400
  else if bool_decide (code = ToolErrorCodeTimeout) then 504
  else if bool_decide (code = ToolErrorCodeInvocationFailed) then 502
  else if bool_decide (code ∈ [ToolErrorCodeUpstreamFailure; ToolErrorCodeTransportFailure; ToolErrorCodeMCPFailure]) then 502
  else 500.

Definition writeServiceError (err : gerror) : Z * reply :=
  if gvalidation_error err then
    (400%Z, Refused RegistrationValidationFailedCode (inl "Tool registration failed validation") None)
  else match toolErrorFrom err with
       | Some t => (statusFromToolError (te_Code t), Refused (te_Code t) (inl (te_Message t)) (Some (te_Retryable t, te_Details t)))
       | None =>
           if gerror_Is err (sentinel_name ErrToolNotFound) then (404%Z, Refused "NOT_FOUND" (inr err) None)
           else if gerror_Is err (sentinel_name ErrToolNotMCP) then (400%Z, Refused "NOT_MCP" (inr err) None)
           else if gerror_Is err (sentinel_name ErrToolDisabled) then (409%Z, Refused "TOOL_DISABLED" (inr err) None)
           else (500%Z, Refused "INTERNAL" (inr err) None)
       end.

(** ** Handlers *)

(** What a handler does after the service: it answers, or it brings the catalogue up to
    date first and then answers or reads the node types of a category. *)
Inductive next :=
| Respond (status : Z) (r : reply)
| ThenRespond (status : Z) (r : reply)
| ThenTypes (category : string).

Definition bad_request (code : string) (message : string + gerror) : next := Respond 400 (Refused code message None).
Definition service_error (err : gerror) : next := let '(status, r) := writeServiceError err in Respond status r.

(** A parameter of the query that is a boolean. *)
Definition bool_param (name : string) (raw : option string) (absent : bool) : bool + next :=
  match raw with
  | None => inl absent
  | Some s => match ParseBool s with
              | Some b => inl b
              | None => inr (bad_request "INVALID_QUERY" (inl (name ^^ " must be a boolean")))
              end
  end.

(** One change of the registry. *)
Inductive change := Drop (typeName : string) | Add (def : NodeTypeDef).
Definition apply_change (c : change) (r : Registry) : Registry :=
  match c with Drop t => (Registry.Delete t r).1 | Add def => Registry.Register def r end.

Section Handlers.
Context `{RangeOrder} `{LowerTables} `{FoldTables} (marshal_any : value → option json) (default_checker : ReachabilityChecker).
Context {S : Type} `{Backend S} (checker : option ReachabilityChecker) `{Quoter}.

(** An operation that returns a registration, and the answer with it. *)
Definition changed (status : Z) (m : GoM S (ToolRegistration + error)) : GoM S next :=
  r ← m;
  mret (match (r : ToolRegistration + error) with
        | inr err => service_error (GErr err)
        | inl reg => ThenRespond status (Tool (RedactRegistration reg))
        end).

Definition decoded {A} (body : A + error) (k : A → GoM S next) : GoM S next :=
  match body with
  | inr err => mret (bad_request "INVALID_JSON" (inr (GErr err)))
  | inl req => k req
  end.

Definition handleListTools (status : string) (enabled include_builtins : option string) : GoM S next :=
  match bool_param "enabled" enabled false, bool_param "include_builtins" include_builtins false with
  | inr refused, _ | inl _, inr refused => mret refused
  | inl e, inl include =>
      regs ← ToolService.List_ (mkFilter (TrimSpace status) (match enabled with Some _ => Some e | None => None end) include);
      mret (match (regs : list ToolRegistration + error) with
            | inr err => service_error (GErr err)
            | inl regs => Respond 200 (Tools (RedactRegistrations regs))
            end)
  end.

Definition handleGetTool (name : string) (include_builtins : option string) : GoM S next :=
  let name := TrimSpace name in
  match bool_param "include_builtins" include_builtins true with
  | inr refused => mret refused
  | inl include =>
      found ← ToolService.Get name include;
      mret (match (found : option ToolRegistration + error) with
            | inr err => service_error (GErr err)
            | inl None => Respond 404 (Refused "NOT_FOUND" (inl ("tool " ^^ strconv_Quote name ^^ " not found")) None)
            | inl (Some reg) => Respond 200 (Tool (RedactRegistration reg))
            end)
  end.

Definition handleRegisterTool (body : registerToolRequest + error) : GoM S next :=
  decoded body (λ req,
    match parseOrigin (rq_Origin req) (rq_Type req) with
    | inr err => mret (bad_request "INVALID_ORIGIN" (inr (GErr err)))
    | inl origin =>
        changed 201 (ToolService.Register marshal_any default_checker checker
          (mkRegisterInput (rq_Name req) origin (rq_Manifest req) (rq_Config req) (rq_Transport req) (rq_OverlayPath req) (rq_Enabled req)))
    end).

Definition handleUpdateTool (name : string) (body : updateToolRequest + error) : GoM S next :=
  decoded body (λ req,
    match parseOptionalOrigin (uq_Origin req) (uq_Type req) with
    | inr err => mret (bad_request "INVALID_ORIGIN" (inr (GErr err)))
    | inl origin =>
        changed 200 (ToolService.Update marshal_any default_checker checker name
          (mkUpdateInput origin (uq_Manifest req) (uq_Config req) (uq_Transport req) (uq_OverlayPath req) (uq_Enabled req)))
    end).

Definition handleDeleteTool (name : string) : GoM S next :=
  r ← ToolService.Delete name;
  mret (match (r : option error) with Some err => service_error (GErr err) | None => ThenRespond 204 NoContent end).

Definition handleUpdateToolConfig (name : string) (body : updateToolConfigRequest + error) : GoM S next :=
  decoded body (λ req, changed 200 (ToolService.UpdateConfig marshal_any name (mkConfigInput (cq_Set req) (cq_SetSecret req)))).

Definition handleTestTool (name : string) (body : testToolRequest + error) : GoM S next :=
  decoded body (λ req,
    r ← ToolService.TestAction name (tq_Action req) (tq_Inputs req);
    mret (match (r : ToolTestResult + gerror) with inr err => service_error err | inl result => Respond 200 (TestResult result) end)).

Definition handleToolHealth (name : string) : GoM S next :=
  r ← ToolService.Health name;
  mret (match (r : ToolRegistration * HealthReport + error) with
        | inr err => service_error (GErr err)
        | inl (reg, report) => Respond 200 (ToolReport (RedactRegistration reg) report)
        end).

Definition handleOverlayTool (name : string) (body : overlayToolRequest + error) : GoM S next :=
  decoded body (λ req,
    let path := TrimSpace (oq_OverlayPath req) in
    let path := if bool_decide (path = EmptyString) then TrimSpace (oq_Path req) else path in
    changed 200 (ToolService.UpdateOverlay marshal_any default_checker checker name path)).

Definition handle (req : http_request) : GoM S next :=
  match req with
  | ListTools status enabled include => handleListTools status enabled include
  | GetTool name include => handleGetTool name include
  | RegisterTool body => handleRegisterTool body
  | UpdateTool name body => handleUpdateTool name body
  | DeleteTool name => handleDeleteTool name
  | UpdateToolConfig name body => handleUpdateToolConfig name body
  | TestTool name body => handleTestTool name body
  | ToolHealth name => handleToolHealth name
  | RefreshTool name => changed 200 (ToolService.Refresh marshal_any default_checker checker name)
  | OverlayTool name body => handleOverlayTool name body
  | DisableTool name => changed 200 (ToolService.SetEnabled name false)
  | EnableTool name => changed 200 (ToolService.SetEnabled name true)
  | NodeTypes category => mret (ThenTypes category)
  end.

(** ** Requests in parallel *)

(** Where a request is: [Installing] has the lock, the changes still to make, and the
    listing it installs. *)
Inductive stage :=
| Arrived (req : http_request)
| Syncing (n : next)
| Listed (regs : list ToolRegistration) (n : next)
| Installing (changes : list change) (regs : list ToolRegistration) (n : next)
| Reading (category : string)
| Answered (status : Z) (r : reply)
| Crashed.

(** The daemon. [d_shown] is not in the code: the listing installed last. *)
Record daemon := mkDaemon {
  d_store : S; d_reg : Registry; d_dynamic : gmap string unit; d_lock : option nat; d_calls : list stage; d_shown : list ToolRegistration
}.

Definition dynamic_types (defs : list NodeTypeDef) : gmap string unit := list_to_map (map (λ def, (nt_Type def, tt)) defs).

(** The body of [syncRegistry] under the lock. *)
Definition sync_changes (dynamic : gmap string unit) (regs : list ToolRegistration) : list change :=
  map (λ kv, Drop kv.1) (range_map "syncRegistry" dynamic) ++ map Add (BuildToolNodeTypes regs).

Definition after_sync (n : next) : stage :=
  match n with
  | Respond status r | ThenRespond status r => Answered status r
  | ThenTypes category => Reading category
  end.

(** What a category asks for. *)
Definition in_category (category : string) (defs : list NodeTypeDef) : list NodeTypeDef :=
  let category := TrimSpace category in
  if bool_decide (category = EmptyString) then defs else List.filter (λ def, bool_decide (nt_Category def = category)) defs.

Definition set_stage (i : nat) (st : stage) (d : daemon) : daemon :=
  mkDaemon (d_store d) (d_reg d) (d_dynamic d) (d_lock d) (<[i := st]> (d_calls d)) (d_shown d).

Inductive dmove := Arrive (req : http_request) | Go (i : nat).

(** [None]: there is no such call, it has ended, or it waits for the lock. *)
Definition exec_daemon (m : dmove) (d : daemon) : option daemon :=
  match m with
  | Arrive req => Some (mkDaemon (d_store d) (d_reg d) (d_dynamic d) (d_lock d) (d_calls d ++ [Arrived req]) (d_shown d))
  | Go i =>
      st ← d_calls d !! i;
      match st with
      | Arrived req =>
          let '(s, r) := handle req (d_store d) in
          let st := match r with
                    | None => Crashed
                    | Some (Respond status r) => Answered status r
                    | Some n => Syncing n
                    end in
          Some (mkDaemon s (d_reg d) (d_dynamic d) (d_lock d) (<[i := st]> (d_calls d)) (d_shown d))
      | Syncing n =>
          let '(s, r) := ToolService.List_ (mkFilter EmptyString None false) (d_store d) in
          let st := match (r : option (list ToolRegistration + error)) with
                    | None => Crashed
                    | Some (inr err) => Answered 500 (Refused "REGISTRY_SYNC_FAILED" (inr (GErr err)) None)
                    | Some (inl regs) => Listed regs n
                    end in
          Some (mkDaemon s (d_reg d) (d_dynamic d) (d_lock d) (<[i := st]> (d_calls d)) (d_shown d))
      | Listed regs n =>
          match d_lock d with
          | Some _ => None
          | None => Some (mkDaemon (d_store d) (d_reg d) (d_dynamic d) (Some i)
                            (<[i := Installing (sync_changes (d_dynamic d) regs) regs n]> (d_calls d)) (d_shown d))
          end
      | Installing (c :: changes) regs n =>
          Some (mkDaemon (d_store d) (apply_change c (d_reg d)) (d_dynamic d) (d_lock d)
                  (<[i := Installing changes regs n]> (d_calls d)) (d_shown d))
      | Installing [] regs n =>
          Some (mkDaemon (d_store d) (d_reg d) (dynamic_types (BuildToolNodeTypes regs)) None
                  (<[i := after_sync n]> (d_calls d)) regs)
      | Reading category => Some (set_stage i (Answered 200 (Types (in_category category (All (d_reg d))))) d)
      | Answered _ _ | Crashed => None
      end
  end.

Fixpoint exec_daemons (ms : list dmove) (d : daemon) : option daemon :=
  match ms with [] => Some d | m :: ms => d ← exec_daemon m d; exec_daemons ms d end.

(** [NewServer] with a store and a registry: the first synchronisation, before any
    request; it fails with the listing. *)
Definition NewServer (base : Registry) : GoM S (daemon + error) := λ s,
  match ToolService.List_ (mkFilter EmptyString None false) s with
  | (s, Some (inl regs)) =>
      (s, Some (inl (mkDaemon s (foldl (λ r c, apply_change c r) base (sync_changes ∅ regs))
                       (dynamic_types (BuildToolNodeTypes regs)) None [] regs)))
  | (s, Some (inr err)) => (s, Some (inr err))
  | (s, None) => (s, None)
  end.
End Handlers.

(** ** The catalogue *)

(** A name with a dot in it, which the names of actions have. *)
Definition dotted (t : string) : Prop := "."%char ∈ String.list_ascii_of_string t.
#[export] Instance dotted_dec t : Decision (dotted t).
Proof. unfold dotted. apply _. Defined.

Lemma reference_dotted toolName actionName : dotted (toolActionReference toolName actionName).
Proof.
  unfold toolActionReference, dotted. induction (TrimSpace toolName) as [|c s IH]; simpl; [by left|by right].
Qed.

(** The last definition of a type in a list: the one that is registered in the end. *)
Definition last_def (t : string) (defs : list NodeTypeDef) : option NodeTypeDef :=
  foldl (λ acc def, if bool_decide (nt_Type def = t) then Some def else acc) None defs.

(** The catalogue of a listing, over the types of a base. *)
Definition shown_type (base : Registry) (regs : list ToolRegistration) (t : string) : option NodeTypeDef :=
  match last_def t (BuildToolNodeTypes regs) with Some def => Some def | None => Registry.Get base t end.

(** What changes make of the entry of a type. *)
Definition entry_after (t : string) (entry : option NodeTypeDef) (c : change) : option NodeTypeDef :=
  match c with
  | Drop t' => if bool_decide (t' = t) then None else entry
  | Add def => if bool_decide (nt_Type def = t) then Some def else entry
  end.

Lemma apply_change_entry c r t : Registry.Get (apply_change c r) t = entry_after t (Registry.Get r t) c.
Proof.
  unfold Registry.Get. destruct c as [t'|def]; simpl.
  - unfold Registry.Delete. destruct (reg_types r !! t') eqn:E; simpl; case_bool_decide as Ht; try subst t'; [by rewrite lookup_delete_eq| |done|done].
    by rewrite lookup_delete_ne.
  - case_bool_decide as Ht; [subst t; by rewrite lookup_insert_eq|by rewrite lookup_insert_ne].
Qed.

Lemma apply_change_wf c r : registry_wf r → registry_wf (apply_change c r).
Proof. destruct c; simpl; auto with petal. Qed.

Lemma apply_changes_entry cs r t :
  Registry.Get (foldl (λ r c, apply_change c r) r cs) t = foldl (entry_after t) (Registry.Get r t) cs.
Proof. revert r. induction cs as [|c cs IH]; intros r; simpl; [done|]. by rewrite IH, apply_change_entry. Qed.

Lemma last_def_from t defs acc :
  foldl (entry_after t) acc (map Add defs) = match last_def t defs with Some def => Some def | None => acc end.
Proof.
  unfold last_def.
  assert (∀ acc, foldl (λ acc def, if bool_decide (nt_Type def = t) then Some def else acc) acc defs =
    match foldl (λ acc def, if bool_decide (nt_Type def = t) then Some def else acc) None defs with Some def => Some def | None => acc end) as Hgen.
  { induction defs as [|def defs IH]; intros a; simpl; [done|]. case_bool_decide; [|apply IH].
    rewrite (IH (Some def)). by case_match. }
  rewrite <- Hgen. clear Hgen. revert acc. induction defs as [|def defs IH]; intros acc; simpl; [done|]. by rewrite IH.
Qed.

Lemma drops_entry t (ts : list string) acc :
  foldl (entry_after t) acc (map Drop ts) = if bool_decide (t ∈ ts) then None else acc.
Proof.
  revert acc. induction ts as [|t' ts IH]; intros acc; simpl; [done|]. rewrite IH. repeat case_bool_decide; set_solver.
Qed.

Lemma last_def_Some t defs def : last_def t defs = Some def → def ∈ defs ∧ nt_Type def = t.
Proof.
  unfold last_def. assert (∀ acc, foldl (λ acc def, if bool_decide (nt_Type def = t) then Some def else acc) acc defs = Some def →
    acc = Some def ∨ (def ∈ defs ∧ nt_Type def = t)) as Hgen; [|by intros Hl; destruct (Hgen None Hl)].
  induction defs as [|d defs IH]; intros acc; simpl; [by left|]. intros [Hd|[? ?]]%IH; [|right; set_solver].
  case_bool_decide; [|by left]. injection Hd as <-. right. set_solver.
Qed.

Lemma last_def_None t defs : last_def t defs = None ↔ t ∉ map nt_Type defs.
Proof.
  unfold last_def. assert (∀ acc, foldl (λ acc def, if bool_decide (nt_Type def = t) then Some def else acc) acc defs = None ↔
    acc = None ∧ t ∉ map nt_Type defs) as Hgen; [|rewrite Hgen; naive_solver].
  induction defs as [|d defs IH]; intros acc; simpl; [split; [by split; [|apply not_elem_of_nil]|naive_solver]|].
  rewrite IH, not_elem_of_cons. case_bool_decide; naive_solver.
Qed.

Lemma elem_of_built def regs : def ∈ BuildToolNodeTypes regs ↔ ∃ reg a, reg ∈ regs ∧ a ∈ ActionNames reg ∧ def = action_type reg a.
Proof.
  unfold BuildToolNodeTypes. rewrite list_elem_of_join. split.
  - intros (l & Hd & (reg & -> & Hreg)%list_elem_of_fmap). rewrite merge_sort_Permutation in Hreg.
    apply list_elem_of_fmap in Hd as (a & -> & Ha). eauto.
  - intros (reg & a & Hreg & Ha & ->). exists (map (action_type reg) (ActionNames reg)). split.
    + apply list_elem_of_fmap. eauto.
    + apply list_elem_of_fmap. exists reg. by rewrite merge_sort_Permutation.
Qed.

Lemma built_dotted regs t : t ∈ map nt_Type (BuildToolNodeTypes regs) → dotted t.
Proof. intros (def & -> & (reg & a & _ & _ & ->)%elem_of_built)%list_elem_of_fmap. apply reference_dotted. Qed.

Lemma dynamic_lookup defs t : is_Some (dynamic_types defs !! t) ↔ t ∈ map nt_Type defs.
Proof.
  unfold dynamic_types. rewrite <- elem_of_dom, dom_list_to_map, elem_of_list_to_set. by rewrite map_map.
Qed.

(** A synchronisation turns the catalogue of one listing into that of another. *)
Lemma sync_entry `{RangeOrder} base shown regs t : (∀ t, dotted t → Registry.Get base t = None) →
  foldl (entry_after t) (shown_type base shown t) (sync_changes (dynamic_types (BuildToolNodeTypes shown)) regs) = shown_type base regs t.
Proof.
  intros Hbase. unfold sync_changes. rewrite foldl_app, last_def_from. unfold shown_type at 2. case_match; [done|].
  rewrite <- (map_map fst Drop), drops_entry. unfold shown_type.
  assert (t ∈ map fst (range_map "syncRegistry" (dynamic_types (BuildToolNodeTypes shown))) ↔ t ∈ map nt_Type (BuildToolNodeTypes shown)) as Ht.
  { rewrite <- dynamic_lookup, list_elem_of_fmap. split.
    - intros ([k x] & -> & Hk%elem_of_range). by eexists.
    - intros [x Hx]. exists (t, x). split; [done|]. by apply elem_of_range. }
  case_bool_decide as Hd; rewrite Ht in Hd; [symmetry; apply Hbase; by eapply built_dotted|].
  apply last_def_None in Hd. by rewrite Hd.
Qed.

Section Catalogue.
Context `{RangeOrder} `{LowerTables} `{FoldTables} (marshal_any : value → option json) (default_checker : ReachabilityChecker).
Context {S : Type} `{Backend S} (checker : option ReachabilityChecker) `{Quoter}.
(** The registry before the daemon, whose types have no dots in their names. *)
Context (base : Registry) (base_wf : registry_wf base) (base_plain : ∀ t, dotted t → Registry.Get base t = None).
Implicit Types (σ : table) (regs : list ToolRegistration) (d : daemon (S := S)).
#[local] Abbreviation ok := (table_ok marshal_any).
#[local] Abbreviation exec := (exec_daemon marshal_any default_checker checker).
#[local] Abbreviation handling := (handle marshal_any default_checker checker).

(** *** The service *)

(** The requests that bring the catalogue up to date when they succeed. *)
Definition syncs (req : http_request) : bool :=
  match req with ListTools _ _ _ | GetTool _ _ | TestTool _ _ | ToolHealth _ => false | _ => true end.

(** The end of a service call: the table is in order, and a request that synchronises
    answers at once only to refuse. *)
Definition called (req : http_request) (n : next) σ : Prop :=
  ok σ ∧ (syncs req = true → ∀ status r, n = Respond status r → (400 ≤ status)%Z).

Lemma status_refuses err : (400 ≤ (writeServiceError err).1)%Z.
Proof.
  unfold writeServiceError, statusFromToolError. repeat (case_match || case_bool_decide); simpl; lia.
Qed.

Lemma service_error_called req err σ : ok σ → called req (service_error err) σ.
Proof.
  intros Hσ. split; [done|]. intros _ status r. unfold service_error. pose proof (status_refuses err) as Hs.
  destruct (writeServiceError err). by intros [= <- <-].
Qed.

Lemma bad_request_called req code message σ : ok σ → called req (bad_request code message) σ.
Proof. intros Hσ. split; [done|]. unfold bad_request. by intros _ status r [= <- <-]. Qed.

Lemma ends_changed σ req status m Q : ends σ m Q → (∀ r σ', Q r σ' → ok σ') → ends σ (changed (S := S) status m) (called req).
Proof.
  intros Hm HQ. eapply ends_bind; [exact Hm|]. intros r σ' Hr. apply ends_ret. apply HQ in Hr as Hok.
  destruct r; [by split|by apply service_error_called].
Qed.

Lemma ends_decoded {A} σ req (body : A + error) k : ok σ → (∀ x, ends σ (k x) (called req)) → ends σ (decoded (S := S) body k) (called req).
Proof. intros Hσ Hk. destruct body; [apply Hk|by apply ends_ret, bad_request_called]. Qed.

Lemma ends_stored σ name req status m : ok σ →
  ends σ m (λ r σ', stores marshal_any σ name r σ' ∧ (σ !! name = None → σ' = σ)) → ends σ (changed (S := S) status m) (called req).
Proof. intros Hσ Hm. eapply ends_changed; [exact Hm|]. intros r σ' [[Hw _] _]. by eapply written_ok. Qed.

Lemma ends_handle σ req : ok σ → ends σ (handling req) (called req).
Proof.
  intros Hσ. destruct req as [status e i|name i|body|name body|name|name body|name body|name|name|name body|name|name|category]; cbn [handle].
  - unfold handleListTools, bool_param. repeat case_match; simplify_eq; try by apply ends_ret, bad_request_called.
    all: eapply ends_bind; [apply ends_List_op|]; intros r σ' [-> _]; apply ends_ret; destruct r; [by split|by apply service_error_called].
  - unfold handleGetTool. cbv zeta. case_match eqn:E; [|unfold bool_param in E; repeat case_match; simplify_eq; by apply ends_ret, bad_request_called].
    eapply ends_bind; [apply ends_Get_op|]. intros r σ' [-> _]. apply ends_ret.
    destruct r as [[]|]; [by split|by split|by apply service_error_called].
  - apply ends_decoded; [done|]. intros req. case_match; [|by apply ends_ret, bad_request_called].
    eapply ends_changed; [apply ends_Register|]. intros r σ' [[Hw _] _]. by eapply written_ok.
  - apply ends_decoded; [done|]. intros req. case_match; [|by apply ends_ret, bad_request_called].
    eapply ends_stored; [done|]. by apply ends_Update.
  - unfold handleDeleteTool. eapply ends_bind; [by eapply ends_Delete_op|]. intros r σ' Hr. apply ends_ret.
    assert (ok σ') as Hok by (destruct Hr as [-> | ->]; [done|]; intros k reg [_ Hk]%lookup_delete_Some; by apply Hσ).
    destruct r; [by apply service_error_called|by split].
  - apply ends_decoded; [done|]. intros req. eapply ends_stored; [done|]. by apply ends_UpdateConfig.
  - apply ends_decoded; [done|]. intros req. eapply ends_bind; [apply ends_TestAction|]. intros r σ' [-> _]. apply ends_ret.
    destruct r; [by split|by apply service_error_called].
  - unfold handleToolHealth. eapply ends_bind; [by eapply ends_Health_op|]. intros r σ' [Hw _]. apply ends_ret.
    apply written_ok in Hw; [|done]. destruct r as [[]|]; [by split|by apply service_error_called].
  - eapply ends_stored; [done|]. by apply ends_Refresh_op.
  - apply ends_decoded; [done|]. intros req. cbv zeta. eapply ends_stored; [done|]. by apply ends_UpdateOverlay.
  - eapply ends_stored; [done|]. by apply ends_SetEnabled.
  - eapply ends_stored; [done|]. by apply ends_SetEnabled.
  - by apply ends_ret.
Qed.

(** Listings have rows the service accepted. *)
Definition listing_ok regs : Prop := ∀ reg, reg ∈ regs → ∃ k, row_ok marshal_any k reg.

Lemma ends_listing σ : ends σ (ToolService.List_ (S := S) (mkFilter EmptyString None false))
  (reads σ (if_ok (λ regs, ∀ reg, reg ∈ regs → ∃ k, σ !! k = Some reg))).
Proof.
  eapply ends_try; [apply ends_List|apply reads_error|]. intros l Hl. apply ends_ret, reads_ok. simpl.
  intros reg [Hreg _]%list_elem_of_In%filter_In. by apply Hl, list_elem_of_In.
Qed.

(** *** Interleavings *)

Definition installing (st : stage) : bool := match st with Installing _ _ _ => true | _ => false end.
Definition stage_ok (st : stage) : Prop :=
  match st with Listed regs _ | Installing _ regs _ => listing_ok regs | Crashed => False | _ => True end.

(** The registry: that of the listing shown, or on the way to that of another. *)
Definition registry_at d : Prop :=
  match d_lock d with
  | None => (∀ j st, d_calls d !! j = Some st → installing st = false) ∧ ∀ t, Registry.Get (d_reg d) t = shown_type base (d_shown d) t
  | Some i => (∀ j st, d_calls d !! j = Some st → installing st = true → j = i) ∧
      ∃ made changes regs n, d_calls d !! i = Some (Installing changes regs n) ∧ made ++ changes = sync_changes (d_dynamic d) regs ∧
        ∀ t, Registry.Get (d_reg d) t = foldl (entry_after t) (shown_type base (d_shown d) t) made
  end.

Record daemon_ok d : Prop := {
  do_table : ok (rows (d_store d));
  do_shown : listing_ok (d_shown d);
  do_stages : ∀ i st, d_calls d !! i = Some st → stage_ok st;
  do_dynamic : d_dynamic d = dynamic_types (BuildToolNodeTypes (d_shown d));
  do_wf : registry_wf (d_reg d);
  do_registry : registry_at d
}.

(** A call goes from one stage without the lock to another. *)
Lemma plain_stage d i old st s : daemon_ok d → d_calls d !! i = Some old → installing old = false → installing st = false →
  ok (rows s) → stage_ok st → daemon_ok (mkDaemon s (d_reg d) (d_dynamic d) (d_lock d) (<[i := st]> (d_calls d)) (d_shown d)).
Proof.
  intros [Ht Hsh Hst Hdy Hwf Hreg] Hi Hold Hnew Hs Hok. split; try done.
  - intros j x [[_ ->]|[_ Hj]]%(lookup_set _ _ _ _ _ _ Hi); [done|by eapply Hst].
  - unfold registry_at in *. cbn [d_lock d_calls d_reg d_shown d_dynamic]. destruct (d_lock d) as [k|]; destruct Hreg as [Hno Hreg].
    + split; [intros j x [[_ ->]|[_ Hj]]%(lookup_set _ _ _ _ _ _ Hi); [by rewrite Hnew|by eapply Hno]|].
      destruct Hreg as (made & changes & regs & n & Hk & Hrest). exists made, changes, regs, n. split; [|done].
      rewrite list_lookup_insert_ne; [done|]. intros ->. rewrite Hk in Hi. injection Hi as <-. done.
    + split; [|done]. intros j x [[_ ->]|[_ Hj]]%(lookup_set _ _ _ _ _ _ Hi); [done|by eapply Hno].
Qed.

Lemma arrive_ok d req : daemon_ok d →
  daemon_ok (mkDaemon (d_store d) (d_reg d) (d_dynamic d) (d_lock d) (d_calls d ++ [Arrived req]) (d_shown d)).
Proof.
  intros [Ht Hsh Hst Hdy Hwf Hreg].
  assert (∀ j x, (d_calls d ++ [Arrived req]) !! j = Some x → d_calls d !! j = Some x ∨ x = Arrived req) as Hnew.
  { intros j x [?|[_ [_ <-]%list_lookup_singleton_Some]]%lookup_app_Some; [by left|by right]. }
  split; try done.
  - intros j x [Hj| ->]%Hnew; [by eapply Hst|done].
  - unfold registry_at in *. cbn [d_lock d_calls d_reg d_shown d_dynamic]. destruct (d_lock d) as [k|]; destruct Hreg as [Hno Hreg].
    + split; [intros j x [Hj| ->]%Hnew; [by eapply Hno|done]|]. destruct Hreg as (made & changes & regs & n & Hk & Hrest).
      exists made, changes, regs, n. split; [|done]. by apply lookup_app_l_Some.
    + split; [|done]. intros j x [Hj| ->]%Hnew; [by eapply Hno|done].
Qed.

(** A call takes the lock. *)
Lemma lock_ok d i regs n : daemon_ok d → d_calls d !! i = Some (Listed regs n) → d_lock d = None →
  daemon_ok (mkDaemon (d_store d) (d_reg d) (d_dynamic d) (Some i) (<[i := Installing (sync_changes (d_dynamic d) regs) regs n]> (d_calls d)) (d_shown d)).
Proof.
  intros [Ht Hsh Hst Hdy Hwf Hreg] Hi Hl. unfold registry_at in Hreg. rewrite Hl in Hreg. destruct Hreg as [Hno Hreg]. split; try done.
  - intros j x [[_ ->]|[_ Hj]]%(lookup_set _ _ _ _ _ _ Hi); [by apply (Hst i (Listed regs n))|by eapply Hst].
  - split.
    + intros j x [[-> _]|[_ Hj]]%(lookup_set _ _ _ _ _ _ Hi); [done|]. apply Hno in Hj. by rewrite Hj.
    + exists [], (sync_changes (d_dynamic d) regs), regs, n. split; [|done]. apply list_lookup_insert_eq. by eapply lookup_lt_Some.
Qed.

(** The call with the lock. *)
Lemma lock_holder d i changes regs n : daemon_ok d → d_calls d !! i = Some (Installing changes regs n) → d_lock d = Some i.
Proof.
  intros [_ _ _ _ _ Hreg] Hi. unfold registry_at in Hreg. destruct (d_lock d) as [k|]; destruct Hreg as [Hno _].
  - by rewrite (Hno i _ Hi eq_refl).
  - by apply Hno in Hi.
Qed.

Lemma change_ok d i c changes regs n : daemon_ok d → d_calls d !! i = Some (Installing (c :: changes) regs n) →
  daemon_ok (mkDaemon (d_store d) (apply_change c (d_reg d)) (d_dynamic d) (d_lock d) (<[i := Installing changes regs n]> (d_calls d)) (d_shown d)).
Proof.
  intros Hok Hi. pose proof (lock_holder _ _ _ _ _ Hok Hi) as Hl. destruct Hok as [Ht Hsh Hst Hdy Hwf Hreg].
  unfold registry_at in Hreg. rewrite Hl in Hreg. destruct Hreg as (Hno & made & cs & rs & n' & Hk & Hcs & Hg).
  rewrite Hi in Hk. injection Hk as <- <- <-. split; try done.
  - intros j x [[_ ->]|[_ Hj]]%(lookup_set _ _ _ _ _ _ Hi); [by apply (Hst i _ Hi)|by eapply Hst].
  - by apply apply_change_wf.
  - unfold registry_at. cbn [d_lock d_calls d_reg d_shown d_dynamic]. rewrite Hl. split.
    + intros j x [[-> _]|[_ Hj]]%(lookup_set _ _ _ _ _ _ Hi); [done|by eapply Hno].
    + exists (made ++ [c]), changes, regs, n. split; [apply list_lookup_insert_eq; by eapply lookup_lt_Some|].
      split; [by rewrite <- app_assoc|]. intros t. by rewrite apply_change_entry, Hg, foldl_app.
Qed.

Lemma unlock_ok d i regs n : daemon_ok d → d_calls d !! i = Some (Installing [] regs n) →
  daemon_ok (mkDaemon (d_store d) (d_reg d) (dynamic_types (BuildToolNodeTypes regs)) None (<[i := after_sync n]> (d_calls d)) regs).
Proof.
  intros Hok Hi. pose proof (lock_holder _ _ _ _ _ Hok Hi) as Hl. destruct Hok as [Ht Hsh Hst Hdy Hwf Hreg].
  unfold registry_at in Hreg. rewrite Hl in Hreg. destruct Hreg as (Hno & made & cs & rs & n' & Hk & Hcs & Hg).
  rewrite Hi in Hk. injection Hk as <- <- <-. rewrite app_nil_r in Hcs. subst made. split; try done.
  - by apply (Hst i _ Hi).
  - intros j x [[_ ->]|[_ Hj]]%(lookup_set _ _ _ _ _ _ Hi); [by destruct n|by eapply Hst].
  - split; cbn [d_calls d_reg d_shown].
    + intros j x [[_ ->]|[Hne Hj]]%(lookup_set _ _ _ _ _ _ Hi); [by destruct n|]. destruct (installing x) eqn:Hx; [|done].
      by destruct Hne; rewrite (Hno j x Hj Hx).
    + intros t. by rewrite Hg, Hdy, sync_entry.
Qed.

Lemma exec_daemon_ok m d d' : daemon_ok d → exec m d = Some d' → daemon_ok d'.
Proof.
  intros Hok. destruct m as [req|i]; cbn [exec_daemon]; [intros [= <-]; by apply arrive_ok|].
  destruct (d_calls d !! i) as [st|] eqn:Hi; [|done]. cbn [mbind option_bind].
  destruct st as [req|n|regs n|[|c changes] regs n|category|status r|]; [..|done|done].
  - destruct (ends_handle (rows (d_store d)) req (do_table _ Hok) (d_store d) eq_refl) as (s' & n & E & Ht & _).
    rewrite E. intros [= <-]. apply (plain_stage d i (Arrived req)); [done..|by destruct n|done|by destruct n].
  - destruct (ends_listing (rows (d_store d)) (d_store d) eq_refl) as (s' & r & E & Er & Hr).
    rewrite E. intros [= <-]. apply (plain_stage d i (Syncing n)); [done..|by destruct r| |]; [rewrite Er; apply Hok|]. destruct r as [regs|]; [|done].
    intros reg Hin. destruct (Hr regs eq_refl reg Hin) as [k Hk]. exists k. by apply (do_table _ Hok).
  - destruct (d_lock d) eqn:Hl; [done|]. intros [= <-]. by apply lock_ok.
  - intros [= <-]. by apply unlock_ok.
  - intros [= <-]. by apply change_ok.
  - intros [= <-]. apply (plain_stage d i (Reading category)); [done..|apply Hok|done].
Qed.

Lemma exec_daemons_ok ms d d' : daemon_ok d → exec_daemons marshal_any default_checker checker ms d = Some d' → daemon_ok d'.
Proof.
  revert d. induction ms as [|m ms IH]; intros d Hok; simpl; [by intros [= <-]|].
  destruct (exec m d) as [d1|] eqn:He; [|done]. simpl. apply IH. by eapply exec_daemon_ok.
Qed.

Lemma NewServer_ok s s' d : ok (rows s) → NewServer base s = (s', Some (inl d)) → daemon_ok d ∧ d_lock d = None.
Proof.
  intros Hs. unfold NewServer. destruct (ends_listing (rows s) s eq_refl) as (s1 & r & E & Er & Hr). rewrite E.
  destruct r as [regs|]; [|done]. intros [= <- <-]. split; [|done]. split; cbn [d_store d_shown d_calls d_reg].
  - by rewrite Er.
  - intros reg Hin. destruct (Hr regs eq_refl reg Hin) as [k Hk]. exists k. by apply Hs.
  - intros i st. by rewrite lookup_nil.
  - done.
  - generalize (sync_changes ∅ regs) base base_wf. induction l as [|c l IH]; intros r Hwf; simpl; [done|]. by apply IH, apply_change_wf.
  - split; cbn [d_calls d_reg d_shown]; [intros j st; by rewrite lookup_nil|]. intros t. rewrite apply_changes_entry.
    rewrite <- (sync_entry base [] regs t base_plain). done.
Qed.

(** *** Entries on the way *)

Definition change_about (c : change) : string := match c with Drop t => t | Add def => nt_Type def end.

Lemma entry_same t cs e : (∀ c, c ∈ cs → change_about c ≠ t) → foldl (entry_after t) e cs = e.
Proof.
  revert e. induction cs as [|c cs IH]; intros e Hcs; simpl; [done|]. rewrite IH by set_solver.
  assert (change_about c ≠ t) as Hc by set_solver. destruct c; simpl in *; by rewrite bool_decide_false.
Qed.

Lemma entry_from t cs e def : foldl (entry_after t) e cs = Some def → e = Some def ∨ (Add def ∈ cs ∧ nt_Type def = t).
Proof.
  revert e. induction cs as [|c cs IH]; intros e; simpl; [by left|]. intros [Hc|[? ?]]%IH; [|right; set_solver].
  destruct c; simpl in Hc; case_bool_decide; simplify_eq; [by left| |by left]. right. set_solver.
Qed.

Lemma sync_changes_dotted shown regs c : c ∈ sync_changes (dynamic_types (BuildToolNodeTypes shown)) regs → dotted (change_about c).
Proof.
  intros [([k x] & -> & Hk%elem_of_range)%list_elem_of_fmap|(def & -> & Hd)%list_elem_of_fmap]%elem_of_app; simpl.
  - apply (built_dotted shown), dynamic_lookup. by eexists.
  - apply (built_dotted regs), list_elem_of_fmap. eauto.
Qed.

Lemma sync_changes_add dynamic regs def : Add def ∈ sync_changes dynamic regs → def ∈ BuildToolNodeTypes regs.
Proof. intros [(kv & [=] & _)%list_elem_of_fmap|(x & [= ->] & Hd)%list_elem_of_fmap]%elem_of_app. done. Qed.

Lemma shown_plain regs t : ¬ dotted t → shown_type base regs t = Registry.Get base t.
Proof. intros Ht. unfold shown_type. case_match eqn:E; [|done]. apply last_def_Some in E as [Hd <-]. destruct Ht. apply (built_dotted regs), list_elem_of_fmap. eauto. Qed.

Lemma shown_action regs t def : dotted t → shown_type base regs t = Some def → def ∈ BuildToolNodeTypes regs ∧ nt_Type def = t.
Proof. intros Ht. unfold shown_type. case_match eqn:E; [intros [= <-]; by apply last_def_Some|]. by rewrite base_plain. Qed.

(** The type of an entry with a dot: an action of an accepted registration. *)
Definition accepted_action (t : string) (def : NodeTypeDef) : Prop :=
  ∃ k reg a, row_ok marshal_any k reg ∧ a ∈ ActionNames reg ∧ def = action_type reg a ∧ toolActionReference (tr_Name reg) a = t.

Lemma built_accepted regs t def : listing_ok regs → def ∈ BuildToolNodeTypes regs → nt_Type def = t → accepted_action t def.
Proof. intros Hl (reg & a & Hreg & Ha & ->)%elem_of_built <-. destruct (Hl reg Hreg) as [k Hk]. by exists k, reg, a. Qed.

Lemma daemon_entries d : daemon_ok d → (∀ t, ¬ dotted t → Registry.Get (d_reg d) t = Registry.Get base t) ∧
  (∀ t def, dotted t → Registry.Get (d_reg d) t = Some def → accepted_action t def).
Proof.
  intros [Ht Hsh Hst Hdy Hwf Hreg]. unfold registry_at in Hreg. destruct (d_lock d) as [i|]; destruct Hreg as [_ Hreg].
  - destruct Hreg as (made & changes & regs & n & Hi & Hcs & Hg). rewrite Hdy in Hcs. split.
    + intros t Hn. rewrite Hg, entry_same; [by apply shown_plain|]. intros c Hc <-. apply Hn, (sync_changes_dotted (d_shown d) regs).
      rewrite <- Hcs. apply elem_of_app. by left.
    + intros t def Hd. rewrite Hg. intros [[? ?]%shown_action|[Hadd Hty]]%entry_from; [by eapply (built_accepted (d_shown d))|done|].
      apply (built_accepted regs); [by apply (Hst i _ Hi)| |done]. eapply sync_changes_add. rewrite <- Hcs. apply elem_of_app. by left.
  - split.
    + intros t Hn. rewrite Hreg. by apply shown_plain.
    + intros t def Hd. rewrite Hreg. intros [? ?]%shown_action; [by eapply (built_accepted (d_shown d))|done].
Qed.



(** *** A request that runs alone *)

(** The list of the store is complete. *)
Context (list_complete : ∀ s s' l, store_List (S := S) s = (s', Some (inl l)) → ∀ k reg, rows s !! k = Some reg → reg ∈ l).

(** The moves of one call. *)
Definition goes (i : nat) d d' : Prop := ∃ n, exec_daemons marshal_any default_checker checker (replicate n (Go i)) d = Some d'.

Lemma goes_refl i d : goes i d d.
Proof. by exists 0. Qed.

Lemma goes_step i d d1 d' : exec (Go i) d = Some d1 → goes i d1 d' → goes i d d'.
Proof. intros He [n Hn]. exists (Datatypes.S n). cbn [replicate exec_daemons]. by rewrite He. Qed.

Lemma insert_last {A} (l : list A) x y : <[length l := y]> (l ++ [x]) = l ++ [y].
Proof. induction l as [|z l IH]; simpl; [done|]. by rewrite IH. Qed.

(** The daemon with a last call in a stage. *)
#[local] Abbreviation with_last s r dy lock calls st shown := (mkDaemon s r dy lock (calls ++ [st]) shown).

Lemma last_stage (calls : list stage) st : (calls ++ [st]) !! length calls = Some st.
Proof. by apply list_lookup_middle. Qed.

Lemma goes_changes cs s r dy lock calls regs n shown d' :
  goes (length calls) (with_last s (foldl (λ r c, apply_change c r) r cs) dy lock calls (Installing [] regs n) shown) d' →
  goes (length calls) (with_last s r dy lock calls (Installing cs regs n) shown) d'.
Proof.
  revert r. induction cs as [|c cs IH]; intros r; simpl; [done|]. intros Hd.
  eapply goes_step; [|apply IH, Hd]. cbn [exec_daemon d_calls]. rewrite last_stage. cbn [mbind option_bind d_store d_reg d_dynamic d_lock d_shown].
  by rewrite insert_last.
Qed.

(** From the service to the answer. *)
Lemma goes_sync s r dy calls n shown : (∀ status rep, n ≠ Respond status rep) →
  ∃ s' r' dy' status rep shown', goes (length calls) (with_last s r dy None calls (Syncing n) shown) (with_last s' r' dy' None calls (Answered status rep) shown') ∧
    ((status = 500%Z) ∨ (rows s' = rows s ∧ ∀ reg, reg ∈ shown' ↔ ∃ k, rows s !! k = Some reg)).
Proof.
  intros Hn. destruct (ends_listing (rows s) s eq_refl) as (s1 & l & E & Er & Hl).
  assert (∀ regs, l = inl regs → ∀ reg, reg ∈ regs ↔ ∃ k, rows s !! k = Some reg) as Hlist.
  { intros regs -> reg. split; [by apply Hl|]. intros [k Hk]. unfold ToolService.List_, try, mbind, gom_bind in E.
    destruct (store_List s) as [s2 [[all|err]|]] eqn:Es; try done. injection E as <- <-. simpl.
    apply list_elem_of_In, filter_In. split; [|done]. by eapply list_elem_of_In, list_complete. }
  destruct l as [regs|err].
  - set (r1 := foldl (λ r c, apply_change c r) r (sync_changes dy regs)).
    assert (∃ status rep, goes (length calls) (with_last s1 r1 (dynamic_types (BuildToolNodeTypes regs)) None calls (after_sync n) regs)
      (with_last s1 r1 (dynamic_types (BuildToolNodeTypes regs)) None calls (Answered status rep) regs)) as (status & rep & Hend).
    { destruct n as [status rep|status rep|category]; [do 2 eexists; apply goes_refl..|]. do 2 eexists.
      eapply goes_step; [|apply goes_refl]. cbn [exec_daemon d_calls after_sync]. rewrite last_stage. cbn [mbind option_bind].
      unfold set_stage. cbn [d_calls d_store d_reg d_dynamic d_lock d_shown]. by rewrite insert_last. }
    exists s1, r1, (dynamic_types (BuildToolNodeTypes regs)), status, rep, regs. split; [|right; split; [done|by apply Hlist]].
    eapply goes_step; [cbn [exec_daemon d_calls]; rewrite last_stage; cbn [mbind option_bind d_store]; rewrite E, insert_last; reflexivity|].
    eapply goes_step; [cbn [exec_daemon d_calls]; rewrite last_stage; cbn [mbind option_bind d_lock]; rewrite insert_last; reflexivity|].
    apply goes_changes. eapply goes_step; [cbn [exec_daemon d_calls]; rewrite last_stage; cbn [mbind option_bind]; rewrite insert_last; reflexivity|].
    exact Hend.
  - do 6 eexists. split; [|by left]. eapply goes_step; [|apply goes_refl]. cbn [exec_daemon d_calls]. rewrite last_stage.
    cbn [mbind option_bind d_store]. by rewrite E, insert_last.
Qed.

(** A request that runs alone is answered; one that changes the registrations or asks
    for the node types, and succeeds, leaves a catalogue whose tools are the actions of
    the stored registrations, and nothing else. *)
Theorem request_current (d : daemon) (req : http_request) : daemon_ok d → d_lock d = None →
  ∃ n d' status r, exec_daemons marshal_any default_checker checker (Arrive req :: replicate n (Go (length (d_calls d)))) d = Some d' ∧
    d_calls d' = d_calls d ++ [Answered status r] ∧ d_lock d' = None ∧ daemon_ok d' ∧
    (syncs req = true → (status < 400)%Z → ∀ t, dotted t →
      is_Some (Registry.Get (d_reg d') t) ↔
      ∃ k reg a, rows (d_store d') !! k = Some reg ∧ a ∈ ActionNames reg ∧ toolActionReference (tr_Name reg) a = t).
Proof.
  intros Hok Hl. destruct d as [s r dy lock calls shown]. simpl in Hl. subst lock. cbn [d_calls].
  assert (∃ s' r' dy' status rep shown', goes (length calls) (with_last s r dy None calls (Arrived req) shown)
      (with_last s' r' dy' None calls (Answered status rep) shown') ∧
    (syncs req = true → (400 ≤ status)%Z ∨ ∀ reg, reg ∈ shown' ↔ ∃ k, rows s' !! k = Some reg))
    as (s' & r' & dy' & status & rep & shown' & [n Hgo] & Hend).
  { destruct (ends_handle (rows s) req (do_table _ Hok) s eq_refl) as (s1 & n & E & _ & Hn).
    assert (∀ st, match n with Respond status r => Answered status r | n => Syncing n end = st →
      exec (Go (length calls)) (with_last s r dy None calls (Arrived req) shown) = Some (with_last s1 r dy None calls st shown)) as Hfirst.
    { intros st <-. cbn [exec_daemon d_calls]. rewrite last_stage. cbn [mbind option_bind d_store]. rewrite E, insert_last. by destruct n. }
    assert ((∃ status rep, n = Respond status rep) ∨ (∀ status rep, n ≠ Respond status rep)) as [(status & rep & ->)|Hsync]
      by (destruct n; [left; eauto|by right..]).
    - exists s1, r, dy, status, rep, shown. split; [eapply goes_step; [by apply Hfirst|apply goes_refl]|]. intros Hq. left. by eapply Hn.
    - destruct (goes_sync s1 r dy calls n shown Hsync) as (s' & r' & dy' & status & rep & shown' & Hgo & Hcase).
      exists s', r', dy', status, rep, shown'. split.
      + eapply goes_step; [apply Hfirst; reflexivity|]. destruct n; [by destruct (Hsync status0 r0)|exact Hgo..].
      + intros _. destruct Hcase as [-> |[Er Hs]]; [by left|]. right. intros reg. rewrite Hs. by rewrite Er. }
  exists n. do 3 eexists. cbn [exec_daemons exec_daemon mbind option_bind]. split; [exact Hgo|]. cbn [d_calls d_lock].
  split; [done|]. split; [done|]. assert (daemon_ok (with_last s' r' dy' None calls (Answered status rep) shown')) as Hok'.
  { eapply exec_daemons_ok; [|exact Hgo]. exact (arrive_ok _ req Hok). }
  split; [done|]. intros Hq Hst t Ht. destruct (Hend Hq) as [?|Hs]; [lia|]. destruct (do_registry _ Hok') as [_ Hreg].
  cbn [d_store d_reg]. cbn [d_reg d_shown] in Hreg. rewrite Hreg. split.
  - intros [def [(reg & a & Hin & Ha & ->)%elem_of_built <-]%shown_action]; [|done]. apply Hs in Hin as [k Hk]. by exists k, reg, a.
  - intros (k & reg & a & Hk & Ha & <-). unfold shown_type. case_match eqn:E; [by eexists|]. exfalso. apply last_def_None in E. apply E.
    apply list_elem_of_fmap. exists (action_type reg a). split; [done|]. apply elem_of_built. exists reg, a. split; [|done]. apply Hs. eauto.
Qed.
End Catalogue.

(** The registry of the built-in types: it is well formed, and their names have no dots. *)
Lemma Global_wf : registry_wf Global.
Proof.
  unfold Global, registerBuiltins. generalize builtins, newRegistry, newRegistry_wf.
  induction l as [|def l IH]; intros r Hr; simpl; [done|]. apply IH. by apply Register_wf.
Qed.

Lemma builtins_plain t : dotted t → Registry.Get Global t = None.
Proof.
  intros Ht. destruct (Registry.Get Global t) as [def|] eqn:E; [|done]. exfalso.
  assert (Forall (λ t, ¬ dotted t) (reg_order Global)) as Hall by (apply (bool_decide_unpack _); vm_compute; exact I).
  rewrite Forall_forall in Hall. apply (Hall t); [|done]. apply (rw_order _ Global_wf). by exists def.
Qed.

(** ** Examples *)

Module DaemonSamples.
Import ServiceSamples.
Existing Instance key_order.
Existing Instance plain_lower.
Existing Instance no_quotes.
Existing Instance sample_host.
Existing Instance sample_backend.
#[local] Instance no_folds : FoldTables := {| fold_other _ _ := false |}.

(** A request that gives the origin without the type is refused, although the two say
    the same and the type alone is enough. *)
Example origins :
  map (λ p, match parseOrigin p.1 p.2 with inl o => Some o | inr _ => None end)
    [("", ""); ("", "MCP"); ("mcp", "mcp"); ("mcp", ""); ("http", "mcp")] =
  [Some ""; Some OriginMCP; Some OriginMCP; None; None].
Proof. vm_compute. reflexivity. Qed.

Definition echo_state : tables := (echo_table, 7%Z).
Definition served_from (s : tables) (ms : list dmove) : option (daemon (S := tables)) :=
  match NewServer Global s with
  | (_, Some (inl d)) => exec_daemons (λ _, None) lenient (Some lenient) ms d
  | _ => None
  end.
(** The tools of the catalogue, the stored tools, and the tools of an answer. *)
Definition tool_types (defs : list NodeTypeDef) : list string := filter dotted (map nt_Type defs).
Definition observed (i : nat) (d : option (daemon (S := tables))) : option (list string * list string * option (list string)) :=
  d ← d; Some (tool_types (All (d_reg d)), range_sorted (rows (d_store d)) (λ k _, k),
    match d_calls d !! i with Some (Answered _ (Types defs)) => Some (tool_types defs) | _ => None end).

Example tools_listed : observed 0 (served_from echo_state (Arrive (NodeTypes "") :: replicate 7 (Go 0)))
  = Some (["echo.run"], ["echo"], Some ["echo.run"]).
Proof. vm_compute. reflexivity. Qed.

Definition no_config : registerToolRequest + error :=
  inl (mkRegisterReq "files" "" "mcp" None ∅ (Some (mkMCP MCPModeStdio "" "server" [] ∅ 0 zero_retry)) "" None).

(** The registration of a tool lists the registrations; before it installs them, another
    request deletes the tool and synchronises. *)
Example stale_catalogue :
  observed 0 (served_from echo_state ([Arrive (RegisterTool no_config); Go 0; Go 0; Arrive (DeleteTool "files")] ++ replicate 6 (Go 1) ++ replicate 5 (Go 0)))
  = Some (["echo.run"; "files.read"], ["echo"], None).
Proof. vm_compute. reflexivity. Qed.

(** A request for the node types reads the registry while another one synchronises. *)
Example tools_missing :
  observed 0 (served_from echo_state ([Arrive (NodeTypes "")] ++ replicate 6 (Go 0) ++ [Arrive (NodeTypes "")] ++ replicate 4 (Go 1) ++ [Go 0]))
  = Some ([], ["echo"], Some []).
Proof. vm_compute. reflexivity. Qed.

Lemma echo_state_ok : table_ok (λ _, None) (rows echo_state).
Proof. apply echo_table_ok. Qed.

Definition disabling : list dmove := Arrive (DisableTool "echo") :: replicate 3 (Go 0).

End DaemonSamples.
