(* ===== verification/ToolConfig.v ===== *)
(** * Tool declarations (daemon/config.go)

    The declarations of tools in a configuration file, which the daemon registers when
    it starts, and the settings of tracing in the same file with the environment over
    them. Expansion of variables and paths are those of [os] and [path/filepath] on
    Unix; files, their decoding and the environment are parameters. A write to a nil map
    is a panic.

    The theorems: loading a file registers every declared tool and touches nothing else,
    or stops at the first tool that is refused, and it returns unless a declaration has
    variables for its transport only ([config_registered], example [nil_map]); the two
    ways to load the settings of tracing agree ([tracing_settings]). *)

From stdpp Require Import gmap strings list fin_maps sorting.
From Stdlib Require Import Ascii ZArith Lia Floats.SpecFloat.
From S2P Require Import Prelude Values GoFmt Unicode ToolManifest ToolSchema ToolRegistry ToolValidation ToolInvoke ToolService ToolServiceSpec.

(** ** Paths *)

Definition clean_step (rooted : bool) (acc : list string) (seg : string) : list string :=
  if bool_decide (seg = EmptyString) || bool_decide (seg = ".") then acc
  else if bool_decide (seg = "..") then
    match acc with
    | [] => if rooted then [] else [".."]
    | top :: rest => if bool_decide (top = "..") then ".." :: acc else rest
    end
  else seg :: acc.

Definition filepath_IsAbs (path : string) : bool := GoStr.HasPrefix path "/".

Definition filepath_Clean (path : string) : string :=
  let rooted := filepath_IsAbs path in
  let body := GoStr.Join (rev (foldl (clean_step rooted) [] (GoStr.SplitOn "/"%char path))) "/" in
  if rooted then "/" ^^ body else if bool_decide (body = EmptyString) then "." else body.

Fixpoint filepath_Join (elems : list string) : string :=
  match elems with
  | [] => EmptyString
  | e :: rest => if bool_decide (e = EmptyString) then filepath_Join rest else filepath_Clean (GoStr.Join elems "/")
  end.

(** Up to the last separator. *)
Fixpoint dir_part (s : string) : string :=
  match s with
  | EmptyString => EmptyString
  | String c t =>
      let rest := dir_part t in
      if bool_decide (rest ≠ EmptyString) || bool_decide (c = "/"%char) then String c rest else EmptyString
  end.
Definition filepath_Dir (path : string) : string := filepath_Clean (dir_part path).

Example paths :
  (map filepath_Clean [""; "a//b/./c/.."; "../../x"; "/../x/"; "a/../.."], filepath_Join [""; "a"; "../b"], map filepath_Dir ["x.yaml"; "/a/b.yaml"; "a/b/c"])
  = (["."; "a/b"; "../../x"; "/x"; ".."], "b", ["."; "/a"; "a/b"]).
Proof. vm_compute. reflexivity. Qed.

Definition resolveConfigRelative (baseDir p : string) : string :=
  let clean := filepath_Clean p in
  if filepath_IsAbs clean then clean else filepath_Join [baseDir; clean].

(** ** Variables *)

Class Environment := { os_Getenv : string → string }.

Definition shell_special (c : ascii) : bool :=
  bool_decide (c ∈ ["*"%char; "#"%char; "$"%char; "@"%char; "!"%char; "?"%char; "-"%char]) || in_range 48 57 (byte_val c).
Definition alpha_num (c : ascii) : bool :=
  bool_decide (c = "_"%char) || in_range 48 57 (byte_val c) || in_range 97 122 (byte_val c) || in_range 65 90 (byte_val c).

(** Up to a closing brace: the text before it, and the rest. *)
Fixpoint to_brace (s : string) : option (string * string) :=
  match s with
  | EmptyString => None
  | String c t =>
      if bool_decide (c = "}"%char) then Some (EmptyString, t)
      else match to_brace t with Some (name, rest) => Some (String c name, rest) | None => None end
  end.
Fixpoint name_prefix (s : string) : string * string :=
  match s with
  | String c t => if alpha_num c then let '(name, rest) := name_prefix t in (String c name, rest) else (EmptyString, s)
  | EmptyString => (EmptyString, EmptyString)
  end.

(** [getShellName]: the name after a dollar sign, whether anything was read, and the rest. *)
Definition getShellName (s : string) : string * bool * string :=
  match s with
  | EmptyString => (EmptyString, false, s)
  | String c t =>
      if bool_decide (c = "{"%char) then
        match t with
        | String c1 (String c2 rest) =>
            if shell_special c1 && bool_decide (c2 = "}"%char) then (String c1 EmptyString, true, rest)
            else match to_brace t with Some (name, rest) => (name, true, rest) | None => (EmptyString, true, t) end
        | _ => match to_brace t with Some (name, rest) => (name, true, rest) | None => (EmptyString, true, t) end
        end
      else if shell_special c then (String c EmptyString, true, t)
      else let '(name, rest) := name_prefix s in (name, bool_decide (name ≠ EmptyString), rest)
  end.

(** [os.Expand]; every turn reads a byte at least, so that the length is enough fuel. *)
Fixpoint expand (mapping : string → string) (fuel : nat) (s : string) : string :=
  match fuel, s with
  | 0, _ | _, EmptyString => EmptyString
  | S fuel, String c t =>
      if bool_decide (c = "$"%char) && bool_decide (t ≠ EmptyString) then
        let '(name, read, rest) := getShellName t in
        (if bool_decide (name = EmptyString) then if read : bool then EmptyString else "$" else mapping name) ^^ expand mapping fuel rest
      else String c (expand mapping fuel t)
  end.

Definition expandEnvValue `{Environment} (value : string) : string := expand os_Getenv (String.length value) value.

Example expansions :
  map (expand (λ v, "<" ^^ v ^^ ">") 99) ["a$HOME/x"; "${A}b"; "$"; "$ x"; "${"; "${}x"; "$1x"; "${*}"; "${A"]
  = ["a<HOME>/x"; "<A>b"; "$"; "$ x"; ""; "x"; "<1>x"; "<*>"; "A"].
Proof. vm_compute. reflexivity. Qed.

(** ** Declarations *)

Record ToolDeclarationBinding := mkBinding { tb_Mode : string; tb_Endpoint : string; tb_Command : string; tb_Args : list string; tb_Env : gmap string string }.

Record ToolDeclaration := mkDeclaration {
  tl_Type : string; tl_Manifest : string; tl_Overlay : string; tl_Endpoint : string; tl_Command : string; tl_Args : list string;
  tl_Env : gmap string string; tl_Config : gmap string value; tl_Enabled : option bool; tl_Health : option HealthConfig;
  tl_Transport : ToolDeclarationBinding
}.

Definition parseToolOrigin `{LowerTables} (value : string) : string + error :=
  let v := ToLower (TrimSpace value) in
  if bool_decide (v = "native") then inl OriginNative
  else if bool_decide (v = "mcp") then inl OriginMCP
  else if bool_decide (v = "http") then inl OriginHTTP
  else if bool_decide (v = "stdio") then inl OriginStdio
  else inr (EFmt [PS "unsupported tool type "; PQ value]).

Section Declarations.
Context `{RangeOrder} `{LowerTables} `{Environment} `{Printer}.

Definition toConfigStrings (config : gmap string value) : gmap string string :=
  foldl (λ out kv, <[TrimSpace kv.1 := expandEnvValue (Sprint kv.2)]> out) ∅ (range_map "toConfigStrings" config).

(** [None]: a nil map. *)
Definition expandStringMap (values : gmap string string) : option (gmap string string) :=
  if bool_decide (size values = 0) then None else Some (expandEnvValue <$> values).

(** The variables of a declaration with those of its transport written into them; the
    outer [None] is the write to a nil map. *)
Definition merged_env (decl : ToolDeclaration) : option (gmap string string) :=
  match expandStringMap (tb_Env (tl_Transport decl)), expandStringMap (tl_Env decl) with
  | None, None => Some ∅
  | None, Some env => Some env
  | Some _, None => None
  | Some over, Some env => Some (over ∪ env)
  end.

Definition or_else (a b : string) : string := if bool_decide (a = EmptyString) then b else a.

(** [None]: a panic. *)
Definition declarationToMCPTransport (decl : ToolDeclaration) : option (MCPTransport + error) :=
  let expanded s := TrimSpace (expandEnvValue s) in
  let mode := ToLower (expanded (tb_Mode (tl_Transport decl))) in
  let mode := if bool_decide (mode = EmptyString) then
                let mode := ToLower (expanded (tl_Type decl)) in if bool_decide (mode = OriginMCP) then EmptyString else mode
              else mode in
  let endpoint := or_else (expanded (tb_Endpoint (tl_Transport decl))) (expanded (tl_Endpoint decl)) in
  let command := or_else (expanded (tb_Command (tl_Transport decl))) (expanded (tl_Command decl)) in
  let args := map expandEnvValue (match tb_Args (tl_Transport decl) with [] => tl_Args decl | args => args end) in
  env ← merged_env decl;
  let mode := if bool_decide (mode = EmptyString) then
                if bool_decide (endpoint ≠ EmptyString) then MCPModeSSE
                else if bool_decide (command ≠ EmptyString) then MCPModeStdio else mode
              else mode in
  Some (if bool_decide (mode = MCPModeSSE) then
          if bool_decide (endpoint = EmptyString) then inr (EFmt [PS "mcp sse transport requires endpoint"])
          else inl (mkMCP MCPModeSSE endpoint EmptyString args env 0 zero_retry)
        else if bool_decide (mode = MCPModeStdio) then
          if bool_decide (command = EmptyString) then inr (EFmt [PS "mcp stdio transport requires command"])
          else inl (mkMCP MCPModeStdio EmptyString command args env 0 zero_retry)
        else inr (EFmt [PS "unsupported mcp mode "; PQ mode])).

Definition set_transport (t : TransportSpec) (m : ToolManifest) : ToolManifest :=
  mkManifest (mf_Schema m) (mf_ManifestVersion m) (mf_Tool m) t (mf_Actions m) (mf_Config m) (mf_Health m).

Definition applyManifestDeclarationOverrides (m : ToolManifest) (decl : ToolDeclaration) (origin : string) : option ToolManifest :=
  let endpoint := TrimSpace (expandEnvValue (tl_Endpoint decl)) in
  let command := TrimSpace (expandEnvValue (tl_Command decl)) in
  let args := match tl_Args decl with [] => tb_Args (tl_Transport decl) | args => args end in
  env ← merged_env decl;
  let t := mf_Transport m in
  Some (if bool_decide (origin = OriginHTTP) then
          set_transport (mkTransport TransportTypeHTTP (or_else endpoint (ts_Endpoint t)) (ts_Command t) (ts_Args t) (ts_Env t) (ts_Mode t)
            (ts_TimeoutMS t) (ts_Retry t)) m
        else if bool_decide (origin = OriginStdio) then
          set_transport (mkTransport TransportTypeStdio (ts_Endpoint t) (or_else command (ts_Command t))
            (match args with [] => ts_Args t | args => map expandEnvValue args end)
            (if bool_decide (size env = 0) then ts_Env t else env) (ts_Mode t) (ts_TimeoutMS t) (ts_Retry t)) m
        else m).

(** ** Files *)

Record PetalTraceConfig := mkTrace {
  pt_Enabled : bool; pt_Endpoint : string; pt_CaptureMode : string; pt_SampleRate : F64.t; pt_AlwaysCaptureErrors : bool;
  pt_Tags : gmap string string; pt_SampleOverrides : gmap string F64.t
}.
(** [ObservabilityConfig] has the settings of tracing, or none. *)
Definition ObservabilityConfig : Type := option PetalTraceConfig.
Record ToolConfigFile := mkConfigFile { cf_Tools : gmap string ToolDeclaration; cf_Observability : option ObservabilityConfig }.

(** Files and their decoding; whether a path is a directory; a number at the start of a
    string, for [fmt.Sscanf]. *)
Class Files := {
  os_ReadFile : string → string + error;
  os_Stat : string → bool + error;
  yaml_Unmarshal : string → ToolConfigFile + error;
  manifest_Unmarshal : string → ToolManifest + error;
  Sscanf_float : string → F64.t + error
}.
Context {files : Files}.

Definition loadManifestFile (path : string) : ToolManifest + error :=
  match os_ReadFile path with
  | inr err => inr (EFmt [PS "reading manifest "; PQ path; PS ": "; PW err])
  | inl data =>
      match manifest_Unmarshal data with
      | inr err => inr (EFmt [PS "parsing manifest "; PQ path; PS ": "; PW err])
      | inl m => inl m
      end
  end.

Definition loadToolConfig (path : string) : ToolConfigFile + error :=
  match os_ReadFile path with
  | inr err => inr (EFmt [PS "reading tool config "; PQ path; PS ": "; PW err])
  | inl data =>
      match yaml_Unmarshal data with
      | inr err => inr (EFmt [PS "parsing tool config "; PQ path; PS ": "; PW err])
      | inl cfg => inl cfg
      end
  end.

Definition set_health (h : option HealthConfig) (m : ToolManifest) : ToolManifest :=
  match h with
  | None => m
  | Some _ => mkManifest (mf_Schema m) (mf_ManifestVersion m) (mf_Tool m) (mf_Transport m) (mf_Actions m) (mf_Config m) h
  end.

(** [None]: a panic. *)
Definition declarationToRegisterInput (name : string) (decl : ToolDeclaration) (configBaseDir : string) : option (RegisterToolInput + error) :=
  match parseToolOrigin (tl_Type decl) with
  | inr err => Some (inr err)
  | inl origin =>
      let overlay := TrimSpace (expandEnvValue (tl_Overlay decl)) in
      let overlay := if bool_decide (overlay = EmptyString) then overlay else resolveConfigRelative configBaseDir overlay in
      let input manifest transport :=
        mkRegisterInput (TrimSpace name) origin manifest (toConfigStrings (tl_Config decl)) transport overlay (tl_Enabled decl) in
      if bool_decide (origin = OriginNative) then Some (inl (input None None))
      else if bool_decide (origin = OriginMCP) then
        r ← declarationToMCPTransport decl;
        Some (match r with inr err => inr err | inl t => inl (input None (Some t)) end)
      else
        let path := TrimSpace (expandEnvValue (tl_Manifest decl)) in
        if bool_decide (path = EmptyString) then
          Some (inr (EFmt [PS "tool "; PQ name; PS ": manifest is required for "; PS origin; PS " declarations"]))
        else match loadManifestFile (resolveConfigRelative configBaseDir path) with
             | inr err => Some (inr (EFmt [PS "tool "; PQ name; PS ": "; PW err]))
             | inl manifest =>
                 manifest ← applyManifestDeclarationOverrides manifest decl origin;
                 Some (inl (input (Some (set_health (tl_Health decl) manifest)) None))
             end
  end.

Definition projectConfigName := "petalflow.yaml".
Definition homeConfigName := "config.yaml".
Definition ErrNotExist : error := ESentinel "file does not exist".

(** The loop over the candidates: the first file; [None]: there is none. *)
Fixpoint first_file (explicit : bool) (candidates : list string) : option string + error :=
  match candidates with
  | [] => inl None
  | candidate :: rest =>
      match os_Stat candidate with
      | inl false => inl (Some candidate)
      | inl true => first_file false rest
      | inr err =>
          if errors_Is err (sentinel_name ErrNotExist) then
            if explicit then inr (EFmt [PS "config file "; PQ candidate; PS " not found"]) else first_file false rest
          else inr (EFmt [PS "checking config path "; PQ candidate; PS ": "; PW err])
      end
  end.

Definition DiscoverToolConfigPathFrom (explicitPath cwd homeDir : string) : option string + error :=
  let clean := TrimSpace explicitPath in
  if bool_decide (clean ≠ EmptyString) then first_file true [filepath_Clean clean]
  else first_file false [filepath_Join [cwd; projectConfigName]; filepath_Join [homeDir; ".petalflow"; homeConfigName]].

(** ** Registration *)

Section Register.
Context (marshal_any : value → option json) (default_checker : ReachabilityChecker).
Context {S : Type} `{Backend S} (checker : option ReachabilityChecker).

(** The loop; [registered] is what was registered before. *)
Fixpoint register_tools (baseDir : string) (tools : gmap string ToolDeclaration) (names : list string) (registered : list ToolRegistration)
    : GoM S (list ToolRegistration + error) :=
  match names with
  | [] => mret (inl registered)
  | name :: names =>
      match tools !! name with
      | None => mret (inl registered)
      | Some decl =>
          match declarationToRegisterInput name decl baseDir with
          | None => λ s, (s, None)
          | Some (inr err) => mret (inr err)
          | Some (inl input) =>
              reg ←? ToolService.Register marshal_any default_checker checker input;
              register_tools baseDir tools names (registered ++ [reg])
          end
      end
  end.

Definition declared (tools : gmap string ToolDeclaration) : list string := sort_Strings (map fst (map_to_list tools)).

Definition RegisterToolsFromConfig (configPath : string) : GoM S (list ToolRegistration + error) :=
  let clean := TrimSpace configPath in
  if bool_decide (clean = EmptyString) then mret (inl [])
  else match loadToolConfig clean with
       | inr err => mret (inr err)
       | inl cfg => register_tools (filepath_Dir clean) (cf_Tools cfg) (declared (cf_Tools cfg)) []
       end.
End Register.
End Declarations.

(** ** Tracing *)

Section Tracing.
Context `{LowerTables} `{Environment} {files : Files}.

Definition CaptureModeMinimal := "minimal".
Definition CaptureModeStandard := "standard".
Definition CaptureModeFull := "full".

Definition one : F64.t := F64.of_Z 1.

(** The variables that both functions read after the endpoint. *)
Definition env_overrides (c : PetalTraceConfig) : PetalTraceConfig :=
  let mode := os_Getenv "PETALTRACE_CAPTURE_MODE" in
  let rate := os_Getenv "PETALTRACE_SAMPLE_RATE" in
  let capture := os_Getenv "PETALTRACE_ALWAYS_CAPTURE_ERRORS" in
  mkTrace (pt_Enabled c) (pt_Endpoint c)
    (if bool_decide (mode = EmptyString) then pt_CaptureMode c else mode)
    (if bool_decide (rate = EmptyString) then pt_SampleRate c
     else match Sscanf_float rate with inl f => f | inr _ => pt_SampleRate c end)
    (if bool_decide (capture = EmptyString) then pt_AlwaysCaptureErrors c
     else bool_decide (ToLower capture = "true") || bool_decide (capture = "1"))
    (pt_Tags c) (pt_SampleOverrides c).

Definition PetalTraceConfigFromEnv : option PetalTraceConfig :=
  let endpoint := os_Getenv "PETALTRACE_ENDPOINT" in
  if bool_decide (endpoint = EmptyString) then None
  else Some (env_overrides (mkTrace true endpoint CaptureModeStandard one true ∅ ∅)).

Definition MergeWithEnv (c : option PetalTraceConfig) : option PetalTraceConfig :=
  match c with
  | None => PetalTraceConfigFromEnv
  | Some c =>
      let endpoint := os_Getenv "PETALTRACE_ENDPOINT" in
      Some (env_overrides
        (if bool_decide (endpoint = EmptyString) then c
         else mkTrace true endpoint (pt_CaptureMode c) (pt_SampleRate c) (pt_AlwaysCaptureErrors c) (pt_Tags c) (pt_SampleOverrides c)))
  end.

Definition IsValid (c : option PetalTraceConfig) : bool :=
  match c with
  | None => false
  | Some c =>
      pt_Enabled c && negb (bool_decide (pt_Endpoint c = EmptyString)) &&
      bool_decide (pt_CaptureMode c ∈ [CaptureModeMinimal; CaptureModeStandard; CaptureModeFull]) &&
      negb (F64.ltb (pt_SampleRate c) F64.zero || F64.ltb one (pt_SampleRate c))
  end.

Definition LoadPetalTraceConfig (configPath : string) : option PetalTraceConfig + error :=
  if bool_decide (configPath = EmptyString) then inl PetalTraceConfigFromEnv
  else match loadToolConfig configPath with
       | inr err => inr err
       | inl cfg => inl (MergeWithEnv (match cf_Observability cfg with Some pt => pt | None => None end))
       end.

(** The outer [None]: no settings at all. *)
Definition env_settings : option ObservabilityConfig :=
  match PetalTraceConfigFromEnv with None => None | Some pt => Some (Some pt) end.
Definition LoadObservabilityConfig (configPath : string) : option ObservabilityConfig + error :=
  if bool_decide (configPath = EmptyString) then inl env_settings
  else match loadToolConfig configPath with
       | inr err => inr err
       | inl cfg =>
           inl (match cf_Observability cfg with
                | None => env_settings
                | Some (Some pt) => Some (MergeWithEnv (Some pt))
                | Some None => Some PetalTraceConfigFromEnv
                end)
       end.

Lemma merge_idempotent c : MergeWithEnv (MergeWithEnv c) = MergeWithEnv c.
Proof.
  destruct c as [c|]; unfold MergeWithEnv, PetalTraceConfigFromEnv, env_overrides;
    repeat (case_bool_decide || case_match); simplify_eq/=; repeat case_bool_decide; done.
Qed.

(** The two ways to load the settings of tracing agree, and merging the environment
    twice changes nothing. *)
Theorem tracing_settings (configPath : string) :
  LoadPetalTraceConfig configPath =
    match LoadObservabilityConfig configPath with inl (Some pt) => inl pt | inl None => inl None | inr err => inr err end ∧
  (∀ c, LoadPetalTraceConfig configPath = inl c → configPath ≠ EmptyString → MergeWithEnv c = c).
Proof.
  unfold LoadPetalTraceConfig, LoadObservabilityConfig, env_settings. split.
  - case_bool_decide; [by destruct PetalTraceConfigFromEnv|]. destruct (loadToolConfig configPath) as [[tools [[pt|]|]]|]; simpl; try done.
    by destruct PetalTraceConfigFromEnv.
  - intros c Hc Hp. rewrite bool_decide_false in Hc by done. destruct (loadToolConfig configPath); [|done]. injection Hc as <-. apply merge_idempotent.
Qed.
End Tracing.

(** ** What loading does *)

Section Loading.
Context `{RangeOrder} `{LowerTables} `{Environment} `{Printer} {files : Files}.
Context (marshal_any : value → option json) (default_checker : ReachabilityChecker).
Context {S : Type} `{Backend S} (checker : option ReachabilityChecker).
#[local] Abbreviation ok := (table_ok marshal_any).
Implicit Types (σ : table) (tools : gmap string ToolDeclaration).

(** Variables for the transport only come with variables of the declaration. *)
Definition has_variables (decl : ToolDeclaration) : Prop := tl_Env decl = ∅ → tb_Env (tl_Transport decl) = ∅.

Lemma merged_env_Some decl : has_variables decl → is_Some (merged_env decl).
Proof.
  intros Hv. unfold merged_env, expandStringMap. case_bool_decide as Ht; case_bool_decide as Hd; try by eexists.
  apply map_size_empty_iff in Hd. apply Hv in Hd. rewrite Hd in Ht. by rewrite map_size_empty in Ht.
Qed.

Lemma input_returns name decl dir : has_variables decl → ∃ r, declarationToRegisterInput name decl dir = Some r.
Proof.
  intros [env Henv]%merged_env_Some.
  assert (∃ r, declarationToMCPTransport decl = Some r) as [r Hr] by (unfold declarationToMCPTransport; rewrite Henv; by eexists).
  assert (∀ m origin, ∃ m', applyManifestDeclarationOverrides m decl origin = Some m') as Hover
    by (intros; unfold applyManifestDeclarationOverrides; rewrite Henv; by eexists).
  unfold declarationToRegisterInput. destruct (parseToolOrigin (tl_Type decl)) as [origin|]; [|by eexists]. cbv zeta.
  case_bool_decide; [by eexists|]. case_bool_decide; [rewrite Hr; by eexists|]. case_bool_decide; [by eexists|].
  destruct (loadManifestFile _) as [m|]; [|by eexists]. destruct (Hover m origin) as [m' Hm']. rewrite Hm'. by eexists.
Qed.

Lemma input_name name decl dir input : declarationToRegisterInput name decl dir = Some (inl input) → ri_Name input = TrimSpace name.
Proof.
  unfold declarationToRegisterInput. destruct (parseToolOrigin (tl_Type decl)); [|done]. cbv zeta.
  case_bool_decide; [by intros [= <-]|]. case_bool_decide.
  - destruct (declarationToMCPTransport decl) as [[t|]|]; [by intros [= <-]|done..].
  - case_bool_decide; [done|]. destruct (loadManifestFile _); [|done]. destruct (applyManifestDeclarationOverrides _ _ _); [by intros [= <-]|done].
Qed.

(** The table after loading: rows are added under declared names, and none is changed. *)
Record loaded σ (names : list string) (before : list ToolRegistration) (r : list ToolRegistration + error) σ' : Prop := {
  ld_ok : ok σ';
  ld_kept : σ ⊆ σ';
  ld_new : ∀ k, k ∉ map TrimSpace names → σ' !! k = σ !! k;
  ld_all : ∀ regs, r = inl regs → ∃ new, regs = before ++ new ∧ map tr_Name new = map TrimSpace names ∧
    Forall (λ reg, σ' !! tr_Name reg = Some reg) new
}.

Lemma written_kept σ name σ' : written marshal_any σ name σ' → (is_Some (σ !! name) → σ' = σ) → σ ⊆ σ'.
Proof.
  intros Hw Hs. apply map_subseteq_spec. intros k reg Hk. destruct (decide (k = name)) as [->|Hne]; [by rewrite Hs|].
  rewrite <- Hk. by apply (written_other marshal_any _ name).
Qed.

Lemma ends_tools dir tools names before σ : ok σ → Forall (λ name, is_Some (tools !! name)) names →
  (∀ name decl, tools !! name = Some decl → has_variables decl) →
  ends σ (register_tools marshal_any default_checker checker dir tools names before) (loaded σ names before).
Proof.
  intros Hσ Hnames Hv. revert σ before Hσ. induction Hnames as [|name names [decl Hdecl] Hnames IH]; intros σ before Hσ; cbn [register_tools].
  { apply ends_ret. split; try done. intros regs [= <-]. exists []. by rewrite app_nil_r. }
  rewrite Hdecl. destruct (input_returns name decl dir (Hv _ _ Hdecl)) as [[input|err] Hin]; rewrite Hin; [|by apply ends_ret; split].
  apply input_name in Hin. eapply ends_bind; [apply ends_Register|]. rewrite Hin, TrimSpace_idem. intros r σ1 [[Hw Hr] Hs].
  pose proof (written_ok _ _ _ _ Hσ Hw) as Hok1. pose proof (written_kept _ _ _ Hw Hs) as Hsub.
  assert (∀ k, k ∉ map TrimSpace (name :: names) → σ1 !! k = σ !! k) as Hrest.
  { intros k Hk. apply (written_other marshal_any _ (TrimSpace name)); [done|]. intros ->. apply Hk. by left. }
  destruct r as [reg|err]; [|by apply ends_ret; split]. destruct (Hr reg eq_refl) as [Hname Hrow].
  eapply ends_conseq; [apply IH, Hok1|]. intros r σ2 [Hok2 Hsub2 Hnew2 Hall2]. split; [done|by etrans| |].
  - intros k Hk. rewrite Hnew2; [by apply Hrest|]. intros Hin'. apply Hk. by right.
  - intros regs Hregs. destruct (Hall2 regs Hregs) as (new & -> & Hn & Hf). exists (reg :: new). split; [by rewrite <- app_assoc|].
    split; [simpl; by rewrite Hname, Hn|]. constructor; [|done]. rewrite Hname. by eapply lookup_weaken.
Qed.

Lemma declared_in tools : Forall (λ name, is_Some (tools !! name)) (declared tools).
Proof.
  apply Forall_forall. intros name Hn. unfold declared in Hn. rewrite sort_Strings_Permutation in Hn.
  apply list_elem_of_fmap in Hn as ([k decl] & -> & Hk%elem_of_map_to_list). by eexists.
Qed.

(** Loading a configuration file returns, if each declaration with variables for its
    transport has variables of its own. It keeps the table of registrations in order,
    adds rows under the declared names only and changes none; and when it succeeds it
    has registered every declared tool, in the order of the names, each as it returns
    it. *)
Theorem config_registered (configPath : string) (s : S) (cfg : ToolConfigFile) :
  ok (rows s) → TrimSpace configPath ≠ EmptyString → loadToolConfig (TrimSpace configPath) = inl cfg →
  (∀ name decl, cf_Tools cfg !! name = Some decl → has_variables decl) →
  ∃ s' r, RegisterToolsFromConfig marshal_any default_checker checker configPath s = (s', Some r) ∧
    ok (rows s') ∧ rows s ⊆ rows s' ∧ (∀ k, k ∉ map TrimSpace (declared (cf_Tools cfg)) → rows s' !! k = rows s !! k) ∧
    (∀ regs, r = inl regs → map tr_Name regs = map TrimSpace (declared (cf_Tools cfg)) ∧ Forall (λ reg, rows s' !! tr_Name reg = Some reg) regs).
Proof.
  intros Hs Hp Hcfg Hv. unfold RegisterToolsFromConfig. rewrite bool_decide_false by done. rewrite Hcfg.
  destruct (ends_tools (filepath_Dir (TrimSpace configPath)) (cf_Tools cfg) (declared (cf_Tools cfg)) [] (rows s) Hs (declared_in _) Hv s eq_refl)
    as (s' & r & E & [Hok Hsub Hnew Hall]).
  exists s', r. split_and!; try done. intros regs Hr. destruct (Hall regs Hr) as (new & -> & ?). done.
Qed.
End Loading.

(** ** Examples *)

Module ConfigSamples.
Import ServiceSamples.
Existing Instance key_order.
Existing Instance plain_lower.
Existing Instance no_quotes.
Existing Instance sample_host.
Existing Instance sample_backend.
#[local] Instance texts : Printer := {| print_pointer _ := EmptyString; print_struct ty _ := ty |}.
#[local] Instance environment : Environment :=
  {| os_Getenv name := if bool_decide (name = "BIN") then "server" else EmptyString |}.

Definition mcp_declaration (env transport_env : gmap string string) : ToolDeclaration :=
  mkDeclaration "mcp" "" "" "" "$BIN" ["-v"] env ∅ None None (mkBinding "" "" "" [] transport_env).
Definition config_file (env transport_env : gmap string string) : ToolConfigFile :=
  mkConfigFile {[ "files" := mcp_declaration env transport_env; "web" := mcp_declaration env ∅ ]} None.

Definition files_with (cfg : ToolConfigFile) : Files := {|
  os_ReadFile _ := inl EmptyString;
  os_Stat path := if bool_decide (path = "dir") then inl true else inr ErrNotExist;
  yaml_Unmarshal _ := inl cfg;
  manifest_Unmarshal _ := inr (EFmt []);
  Sscanf_float s := if bool_decide (s = "NaN") then inl S754_nan else inr (EFmt [])
|}.

Definition loading (cfg : ToolConfigFile) : GoM tables (list ToolRegistration + error) :=
  RegisterToolsFromConfig (files := files_with cfg) (λ _, None) lenient (Some lenient) "petalflow.yaml".

(** What a load returns, and the names stored after it; [None]: a panic. *)
Definition loads (cfg : ToolConfigFile) (s : tables) : option (option (list string)) * list string :=
  let '(s', r) := loading cfg s in
  ((λ r, match r with inl regs => Some (map tr_Name regs) | inr _ => None end) <$> r, range_sorted s'.1 (λ k _, k)).

(** The second start of a daemon with the same store: the declared tools are there
    already, and loading fails at the first of them. *)
Example second_start :
  loads (config_file ∅ ∅) (∅, 1%Z) = (Some (Some ["files"; "web"]), ["files"; "web"]) ∧
  loads (config_file ∅ ∅) (loading (config_file ∅ ∅) (∅, 1%Z)).1 = (Some None, ["files"; "web"]).
Proof. split; vm_compute; reflexivity. Qed.

(** Variables for the transport only are written to a nil map. *)
Example nil_map :
  (loads (config_file ∅ {[ "A" := "1" ]}) (∅, 1%Z)).1 = None ∧
  (loads (config_file {[ "B" := "2" ]} {[ "A" := "1" ]}) (∅, 1%Z)).1 = Some (Some ["files"; "web"]).
Proof. split; vm_compute; reflexivity. Qed.

(** A configuration path that is a directory is passed over; one that does not exist is
    refused. *)
Example explicit_directory :
  map (λ p, match DiscoverToolConfigPathFrom (files := files_with (config_file ∅ ∅)) p "/w" "/h" with inl f => Some f | inr _ => None end)
    ["dir"; "none"; ""] = [Some None; None; Some None].
Proof. vm_compute. reflexivity. Qed.

(** A sample rate that is not a number is valid. *)
Example nan_rate : IsValid (Some (mkTrace true "e" CaptureModeFull S754_nan true ∅ ∅)) = true.
Proof. vm_compute. reflexivity. Qed.

Lemma config_registered_witness : ∃ s' r,
  loading (config_file ∅ ∅) (∅, 1%Z) = (s', Some r) ∧ rows (∅ : table, 1%Z) ⊆ rows s' ∧
  ∀ regs, r = inl regs → map tr_Name regs = ["files"; "web"].
Proof.
  destruct (config_registered (files := files_with (config_file ∅ ∅)) (λ _, None) lenient (Some lenient) "petalflow.yaml" (∅, 1%Z) (config_file ∅ ∅))
    as (s' & r & E & _ & Hsub & _ & Hall).
  - intros k reg Hk. simpl in Hk. discriminate.
  - vm_compute. discriminate.
  - reflexivity.
  - intros name decl Hd _. simpl in Hd. apply lookup_insert_Some in Hd as [[_ <-]|[_ Hd]]; [reflexivity|].
    apply lookup_singleton_Some in Hd as [_ <-]. reflexivity.
  - exists s', r. split; [exact E|]. split; [exact Hsub|]. intros regs Hr. destruct (Hall regs Hr) as [Hn _]. rewrite Hn. vm_compute. reflexivity.
Defined.
End ConfigSamples.
