(* ===== verification/AgentWorkflow.v ===== *)
(** * Agent workflows and their validation (agent/schema.go, agent/validate.go)

    The agent/task schema, and the diagnostics AT-001 to AT-014. Go ranges over
    maps in an arbitrary order: the order is a parameter, one for every execution
    of a range statement. *)

From stdpp Require Import gmap strings list fin_maps relations.
From Stdlib Require Import Ascii ZArith Lia.
From S2P Require Import Prelude Values Kahn Graph Unicode Schema Registry Template GraphDef.

(** ** Data *)

Record Agent := mkAgent {
  ag_Role : string;
  ag_Goal : string;
  ag_Backstory : string;
  ag_Provider : string;
  ag_Model : string;
  ag_Tools : list string;
  ag_ToolConfig : gmap string (gmap string value);
  ag_Config : gmap string value
}.

Record Task := mkTask {
  tk_Description : string;
  tk_Agent : string;
  tk_ExpectedOutput : string;
  tk_OutputKey : string;
  tk_Inputs : gmap string string;
  tk_Review : string;
  tk_Context : list string
}.

Record TaskDependencies := mkDeps { td_DependsOn : list string; td_Condition : string }.

(** [ec_Tasks = None] is the nil map. *)
Record ExecutionConfig := mkExec {
  ec_Strategy : string;
  ec_TaskOrder : list string;
  ec_MergeStrategy : string;
  ec_ManagerAgent : string;
  ec_Tasks : option (gmap string TaskDependencies)
}.

Record AgentWorkflow := mkWorkflow {
  wf_Version : string;
  wf_SchemaVersion : string;
  wf_Kind : string;
  wf_ID : string;
  wf_Name : string;
  wf_Agents : gmap string Agent;
  wf_Tasks : gmap string Task;
  wf_Execution : ExecutionConfig
}.

Section Validate.
Context `{RangeOrder} (reg : Registry) (exprValidator : option (string → option error)).
Implicit Types (wf : AgentWorkflow).

Definition validStrategies : list string := ["sequential"; "parallel"; "hierarchical"; "custom"].
Definition validProviders : list string :=
  ["anthropic"; "openai"; "google"; "cohere"; "mistral"; "groq"; "ollama"].

Definition errDiag (code : string) (message : list part) (path : string) : Diagnostic :=
  mkDiag code SeverityError message path.

(** A diagnostic when the test fails. *)
Definition diag_unless (ok : bool) (d : Diagnostic) : list Diagnostic := if ok then [] else [d].

Definition validateSchemaHeader wf : list Diagnostic :=
  (if bool_decide (wf_Kind wf = EmptyString) then []
   else match NormalizeKind (wf_Kind wf) with
        | inr err => [errDiag "AT-014" [PS "Invalid workflow kind: "; PE err] "kind"]
        | inl (KindAgent, _) => []
        | inl (KindGraph, _) =>
            [errDiag "AT-014" [PS "Workflow kind "; PQ (wf_Kind wf);
               PS " is not valid for agent schema (expected "; PQ "agent_workflow"; PS ")"] "kind"]
        end) ++
  (if bool_decide (wf_SchemaVersion wf = EmptyString) then []
   else match ValidateSchemaVersion (wf_SchemaVersion wf) SupportedAgentSchemaMajor with
        | Some err => [errDiag "AT-014" [PS "Invalid schema_version: "; PE err] "schema_version"]
        | None => []
        end).

Definition id_format (what coll id : string) : list Diagnostic :=
  diag_unless (isValidID id)
    (errDiag "AT-012" [PS (what ^^ " ID "); PQ id;
       PS " must match [a-z][a-z0-9_]* and be at most "; PD 64; PS " characters"]
       (coll ^^ "." ^^ id)).

Definition validateIDFormats wf : list Diagnostic :=
  range_over "ids.agents" (wf_Agents wf) (λ id _, id_format "Agent" "agents" id) ++
  range_over "ids.tasks" (wf_Tasks wf) (λ id _, id_format "Task" "tasks" id).

(** AT-010 for one field. *)
Definition required (what id path field v : string) : list Diagnostic :=
  diag_unless (bool_decide (v ≠ EmptyString))
    (errDiag "AT-010" [PS what; PQ id; PS " is missing required field "; PQ field]
       (path ^^ "." ^^ field)).

Definition validateAgentRequiredFields (id path : string) (ag : Agent) : list Diagnostic :=
  required "Agent " id path "role" (ag_Role ag) ++
  required "Agent " id path "goal" (ag_Goal ag) ++
  required "Agent " id path "provider" (ag_Provider ag) ++
  required "Agent " id path "model" (ag_Model ag) ++
  diag_unless (bool_decide (ag_Provider ag = EmptyString) || bool_decide (ag_Provider ag ∈ validProviders))
    (errDiag "AT-002" [PS "Agent "; PQ id; PS " has invalid provider "; PQ (ag_Provider ag)]
       (path ^^ ".provider")).

(** [strings.SplitN(ref, ".", 2)[1]] of a string with a dot. *)
Fixpoint after_dot (s : string) : string :=
  match s with
  | EmptyString => EmptyString
  | String c t => if decide (c = "."%char) then t else after_dot t
  end.

Record tool_ref := mkToolRef {
  tr_tool : string; tr_action : string; tr_hasAction : bool; tr_valid : bool
}.

Definition parseToolReference (ref : string) : tool_ref :=
  if negb (GoStr.Contains ref ".") then mkToolRef (TrimSpace ref) EmptyString false true
  else
    let toolName := TrimSpace (before_dot ref) in
    let actionName := TrimSpace (after_dot ref) in
    mkToolRef toolName actionName true
      (negb (bool_decide (toolName = EmptyString) || bool_decide (actionName = EmptyString))).

Definition hasAnyActionForTool (toolName : string) : bool :=
  let prefix := TrimSpace toolName ^^ "." in
  existsb (λ def, nt_IsTool def && GoStr.HasPrefix (nt_Type def) prefix) (All reg).

(** What one tool reference leads to: the tool it counts for, or a diagnostic. *)
Definition agent_tool (agentID path : string) (i : nat) (toolID : string)
    : (string * string) + Diagnostic :=
  let toolRef := TrimSpace toolID in
  let p := parseToolReference toolRef in
  let at_ := index_path (path ^^ ".tools") i "" in
  if tr_hasAction p && negb (tr_valid p) then
    inr (errDiag "AT-004" [PS "Agent "; PQ agentID; PS " tool reference "; PQ toolID;
           PS " must use tool_name.action_name"] at_)
  else if tr_hasAction p then
    if HasTool reg toolRef then inl (tr_tool p, toolRef)
    else if hasAnyActionForTool (tr_tool p) then
      inr (errDiag "AT-004" [PS "Agent "; PQ agentID; PS " references unknown action ";
             PQ (tr_action p); PS " on tool "; PQ (tr_tool p)] at_)
    else inr (errDiag "AT-004" [PS "Agent "; PQ agentID; PS " references unknown tool ";
                PQ (tr_tool p)] at_)
  else if HasTool reg toolRef then inl (toolRef, toolRef)
  else inr (errDiag "AT-004" [PS "Agent "; PQ agentID; PS " references unknown tool "; PQ toolID] at_).

Definition validateAgentTools (agentID path : string) (tools : list string)
    : gmap string (list string) * list Diagnostic :=
  foldl (λ acc r,
    match r with
    | inl (name, ref) => (<[name := default [] (acc.1 !! name) ++ [ref]]> acc.1, acc.2)
    | inr d => (acc.1, acc.2 ++ [d])
    end) (∅, []) (imap (agent_tool agentID path) tools).

Definition field_specs : string := "map[string]tool.FieldSpec".

Definition extractToolConfigFieldNames (schema : value) : gset string :=
  match schema with
  | VStruct ty m => if bool_decide (ty = field_specs) then dom m else ∅
  | VMap m =>
      match m !! "tool_config" with
      | None => ∅
      | Some (VStruct ty c) => if bool_decide (ty = field_specs) then dom c else ∅
      | Some (VMap c) => dom c
      | Some _ => ∅
      end
  | _ => ∅
  end.

Definition validateAgentToolConfig (agentID path : string)
    (toolConfig : gmap string (gmap string value)) (toolRefsByName : gmap string (list string))
    : list Diagnostic :=
  range_over (path ^^ ".tool_config") toolConfig (λ toolName overrides,
    if bool_decide (size overrides = 0) then []
    else
      let referenced := default [] (toolRefsByName !! toolName) in
      let referenced :=
        if bool_decide (length referenced = 0) && HasTool reg toolName then [toolName]
        else referenced in
      if bool_decide (length referenced = 0) then
        [errDiag "AT-004" [PS "Agent "; PQ agentID; PS " tool_config references unknown tool ";
           PQ toolName] (path ^^ ".tool_config." ^^ toolName)]
      else
        let allowedKeys : gset string :=
          ⋃ (map (λ ref, match Get reg ref with
                         | Some def => extractToolConfigFieldNames (nt_ConfigSchema def)
                         | None => ∅
                         end) referenced) in
        range_over (path ^^ ".tool_config." ^^ toolName) overrides (λ key _,
          diag_unless (bool_decide (key ∈ allowedKeys))
            (errDiag "AT-004" [PS "Agent "; PQ agentID; PS " tool_config field "; PQ key;
               PS " is not declared for tool "; PQ toolName]
               (path ^^ ".tool_config." ^^ toolName ^^ "." ^^ key)))).

Definition validateAgents wf : list Diagnostic :=
  range_over "agents" (wf_Agents wf) (λ id ag,
    let path := "agents." ^^ id in
    let '(toolRefsByName, toolDiags) := validateAgentTools id path (ag_Tools ag) in
    validateAgentRequiredFields id path ag ++ toolDiags ++
    validateAgentToolConfig id path (ag_ToolConfig ag) toolRefsByName).

(** *** Tasks *)

Definition validateTaskRequiredFields (id path : string) (task : Task) : list Diagnostic :=
  required "Task " id path "description" (tk_Description task) ++
  required "Task " id path "agent" (tk_Agent task) ++
  required "Task " id path "expected_output" (tk_ExpectedOutput task).

Definition validateTaskAgentReference wf (id path : string) (task : Task) : list Diagnostic :=
  if bool_decide (tk_Agent task = EmptyString) then []
  else diag_unless (bool_decide (is_Some (wf_Agents wf !! tk_Agent task)))
         (errDiag "AT-001" [PS "Task "; PQ id; PS " references undefined agent ";
            PQ (tk_Agent task)] (path ^^ ".agent")).

Definition validateTaskInputReferences wf (id path : string) (task : Task) : list Diagnostic :=
  range_over (path ^^ ".inputs") (tk_Inputs task) (λ param tmpl,
    mjoin (map (λ ref,
      diag_unless (bool_decide (is_Some (wf_Tasks wf !! ref)))
        (errDiag "AT-008" [PS "Unresolved reference "; PQ tmpl; PS " in task "; PQ id]
           (path ^^ ".inputs." ^^ param))) (extractTaskRefs tmpl))).

Definition validateTaskContextReferences wf (id path : string) (task : Task) : list Diagnostic :=
  range_diags (λ i ctxRef,
    diag_unless (bool_decide (is_Some (wf_Tasks wf !! ctxRef)))
      (errDiag "AT-008" [PS "Task "; PQ id; PS " context references undefined task "; PQ ctxRef]
         (index_path (path ^^ ".context") i ""))) (tk_Context task).

Definition validateTasks wf : list Diagnostic :=
  range_over "tasks" (wf_Tasks wf) (λ id task,
    let path := "tasks." ^^ id in
    validateTaskRequiredFields id path task ++
    validateTaskAgentReference wf id path task ++
    validateTaskInputReferences wf id path task ++
    validateTaskContextReferences wf id path task).

(** *** Execution *)

Definition validateExecutionStrategy wf : string * list Diagnostic :=
  let strategy := ec_Strategy (wf_Execution wf) in
  if bool_decide (strategy = EmptyString) then
    (strategy, [errDiag "AT-010" [PS "Execution strategy is required"] "execution.strategy"])
  else
    (strategy,
     diag_unless (bool_decide (strategy ∈ validStrategies))
       (errDiag "AT-005" [PS "Invalid execution strategy "; PQ strategy;
          PS " (must be sequential, parallel, hierarchical, or custom)"] "execution.strategy")).

Definition validateSequential wf : list Diagnostic :=
  let order := ec_TaskOrder (wf_Execution wf) in
  if bool_decide (length order = 0) then
    [errDiag "AT-006" [PS "Sequential strategy requires "; PQ "task_order";
       PS " listing all task IDs"] "execution.task_order"]
  else
    mjoin (map (λ id,
      diag_unless (bool_decide (is_Some (wf_Tasks wf !! id)))
        (errDiag "AT-006" [PS "task_order references undefined task "; PQ id]
           "execution.task_order")) order) ++
    range_over "task_order" (wf_Tasks wf) (λ id _,
      diag_unless (bool_decide (id ∈ order))
        (errDiag "AT-006" [PS "Task "; PQ id; PS " is not listed in task_order"]
           "execution.task_order")).

(** The state of the table building loop of [validateCustom]. *)
Definition deps_acc : Type := list Diagnostic * gmap string (list string) * gmap string Z.

Definition add_dep wf (id : string) (acc : deps_acc) (dep : string) : deps_acc :=
  let '(diags, successors, inDegree) := acc in
  if negb (bool_decide (is_Some (wf_Tasks wf !! dep))) then
    (diags ++ [errDiag "AT-008" [PS "Task "; PQ id; PS " depends_on references undefined task ";
                 PQ dep] ("execution.tasks." ^^ id ^^ ".depends_on")], successors, inDegree)
  else
    (diags, <[dep := adj successors dep ++ [id]]> successors,
     <[id := (deg_get inDegree id + 1)%Z]> inDegree).

Definition custom_tables wf (tasks : gmap string TaskDependencies) : deps_acc :=
  foldl (λ acc kv, foldl (add_dep wf kv.1) acc (td_DependsOn kv.2))
    ([], ∅, (λ _, 0%Z) <$> wf_Tasks wf) (range_map "execution.tasks" tasks).

(** One pop per task and per dependency. *)
Definition custom_fuel wf (tasks : gmap string TaskDependencies) : nat :=
  size (wf_Tasks wf) + sum_list (map (λ kv, length (td_DependsOn kv.2)) (map_to_list tasks)).

(** [None]: the fuel ran out, which never happens ([validateCustom_total]). *)
Definition custom_cycle wf (tasks : gmap string TaskDependencies) : option (list Diagnostic) :=
  let '(_, successors, inDegree) := custom_tables wf tasks in
  let ids site := map fst (range_map site (wf_Tasks wf)) in
  let queue := filter (λ id, deg_get inDegree id = 0%Z) (ids "roots") in
  match detect_loop (adj successors) (custom_fuel wf tasks) inDegree queue 0 with
  | None => None
  | Some (deg, visited) =>
      Some (diag_unless (negb (bool_decide (visited < size (wf_Tasks wf))))
        (errDiag "AT-007" [PS "Dependency cycle detected involving tasks: ";
           PL (filter (λ id, (0 < deg_get deg id)%Z) (ids "cycle"))] "execution.tasks"))
  end.

Definition validateCustom wf : option (list Diagnostic) :=
  match ec_Tasks (wf_Execution wf) with
  | None => Some []
  | Some tasks =>
      match custom_cycle wf tasks with
      | None => None
      | Some cycle =>
          Some ((custom_tables wf tasks).1.1 ++ cycle ++
            range_over "conditions" tasks (λ id deps,
              if bool_decide (td_Condition deps = EmptyString) then []
              else match exprValidator with
                   | Some validate =>
                       match validate (td_Condition deps) with
                       | Some err =>
                           [errDiag "AT-013" [PS "Task "; PQ id;
                              PS " has invalid condition expression: "; PE err]
                              ("execution.tasks." ^^ id ^^ ".condition")]
                       | None => []
                       end
                   | None => []
                   end))
      end
  end.

Definition validateOrphanTasks wf : list Diagnostic :=
  let orphan id := errDiag "AT-009" [PS "Task "; PQ id; PS " is not referenced in execution block"]
                     ("tasks." ^^ id) in
  if bool_decide (ec_Strategy (wf_Execution wf) = "custom") then
    match ec_Tasks (wf_Execution wf) with
    | None => range_over "orphans" (wf_Tasks wf) (λ id _, [orphan id])
    | Some tasks =>
        let referenced : gset string :=
          dom tasks ∪ list_to_set (mjoin (map (λ kv, td_DependsOn kv.2) (map_to_list tasks))) in
        range_over "orphans" (wf_Tasks wf) (λ id _,
          diag_unless (bool_decide (id ∈ referenced)) (orphan id))
    end
  else [].

Definition Validate (wf : option AgentWorkflow) : option (list Diagnostic) :=
  match wf with
  | None => Some [errDiag "AT-010" [PS "workflow is nil"] EmptyString]
  | Some wf =>
      let '(strategy, strategyDiags) := validateExecutionStrategy wf in
      let head := validateSchemaHeader wf ++ validateIDFormats wf ++ validateAgents wf ++
                  validateTasks wf ++ strategyDiags in
      let specific :=
        if bool_decide (strategy = "sequential") then Some (validateSequential wf)
        else if bool_decide (strategy = "custom") then validateCustom wf
        else Some [] in
      match specific with
      | None => None
      | Some ds => Some (head ++ ds ++ validateOrphanTasks wf)
      end
  end.
End Validate.
