(* ===== verification/AgentValid.v ===== *)
(** * What agent validation accepts

    The declarative reading of AgentWorkflow.v: the conditions under which
    [Validate] reports nothing, and that its cycle detection is right when every
    key of the execution block is a task. *)

From stdpp Require Import gmap strings list fin_maps relations.
From Stdlib Require Import Ascii ZArith Lia.
From S2P Require Import Prelude Values Kahn Graph Unicode Schema Registry Template GraphDef.
From S2P Require Import AgentWorkflow.

Section Empty.
Context `{RangeOrder}.

Lemma diag_unless_nil ok d : diag_unless ok d = [] ↔ ok = true.
Proof. by destruct ok. Qed.

Lemma range_diags_nil {A} (f : nat → A → list Diagnostic) l :
  range_diags f l = [] ↔ ∀ i x, l !! i = Some x → f i x = [].
Proof.
  unfold range_diags. revert f. induction l as [|x l IH]; intros f; simpl; [done|].
  rewrite app_nil_iff, (IH (f ∘ S)). split.
  - intros [H0 HS] [|i] y Hy; simpl in *; [by simplify_eq|by apply HS].
  - intros Hall. split; [by apply (Hall 0)|]. intros i y Hy. by apply (Hall (S i)).
Qed.

Lemma required_nil what id path field v : required what id path field v = [] ↔ v ≠ EmptyString.
Proof. unfold required. by rewrite diag_unless_nil, bool_decide_eq_true. Qed.
End Empty.

#[export] Hint Rewrite @app_nil_iff diag_unless_nil @range_over_nil @range_diags_nil
  @mjoin_nil_iff required_nil bool_decide_eq_true : petal_nil.

Section Accepted.
Context `{RangeOrder} (reg : Registry) (exprValidator : option (string → option error)).
Implicit Types (wf : AgentWorkflow).

(** ** The conditions *)

Record agent_ok (ag : Agent) : Prop := {
  ao_fields : ag_Role ag ≠ EmptyString ∧ ag_Goal ag ≠ EmptyString ∧
              ag_Provider ag ∈ validProviders ∧ ag_Model ag ≠ EmptyString;
  ao_tools : ∀ t, t ∈ ag_Tools ag → HasTool reg (TrimSpace t) = true ∧
             let p := parseToolReference (TrimSpace t) in tr_hasAction p = true → tr_valid p = true
}.

Record task_ok wf (task : Task) : Prop := {
  to_fields : tk_Description task ≠ EmptyString ∧ tk_ExpectedOutput task ≠ EmptyString;
  to_agent : tk_Agent task ≠ EmptyString ∧ is_Some (wf_Agents wf !! tk_Agent task);
  to_inputs : ∀ param tmpl ref, tk_Inputs task !! param = Some tmpl →
              ref ∈ extractTaskRefs tmpl → is_Some (wf_Tasks wf !! ref);
  to_context : ∀ ref, ref ∈ tk_Context task → is_Some (wf_Tasks wf !! ref)
}.

(** [a] must be complete before [b] by the execution block. *)
Definition depends (tasks : gmap string TaskDependencies) (a b : string) : Prop :=
  ∃ deps, tasks !! b = Some deps ∧ a ∈ td_DependsOn deps.

Definition sequential_ok wf : Prop :=
  ec_TaskOrder (wf_Execution wf) ≠ [] ∧
  ∀ t, t ∈ ec_TaskOrder (wf_Execution wf) ↔ is_Some (wf_Tasks wf !! t).

Record custom_ok wf (tasks : gmap string TaskDependencies) : Prop := {
  co_deps : ∀ a b, depends tasks a b → is_Some (wf_Tasks wf !! a);
  co_acyclic : ∀ t, ¬ tc (depends tasks) t t;
  co_conditions : ∀ t deps validate, tasks !! t = Some deps → td_Condition deps ≠ EmptyString →
                  exprValidator = Some validate → validate (td_Condition deps) = None;
  co_covered : ∀ t, is_Some (wf_Tasks wf !! t) → is_Some (tasks !! t) ∨ ∃ b, depends tasks t b
}.

Record workflow_ok wf : Prop := {
  wo_header : validateSchemaHeader wf = [];
  wo_ids : ∀ id, is_Some (wf_Agents wf !! id) ∨ is_Some (wf_Tasks wf !! id) → isValidID id = true;
  wo_agents : ∀ id ag, wf_Agents wf !! id = Some ag → agent_ok ag;
  wo_toolconfig : ∀ id ag, wf_Agents wf !! id = Some ag →
    validateAgentToolConfig reg id ("agents." ^^ id) (ag_ToolConfig ag)
      (validateAgentTools reg id ("agents." ^^ id) (ag_Tools ag)).1 = [];
  wo_tasks : ∀ id task, wf_Tasks wf !! id = Some task → task_ok wf task;
  wo_strategy : ec_Strategy (wf_Execution wf) ∈ validStrategies;
  wo_sequential : ec_Strategy (wf_Execution wf) = "sequential" → sequential_ok wf;
  wo_custom : ec_Strategy (wf_Execution wf) = "custom" →
    match ec_Tasks (wf_Execution wf) with
    | None => wf_Tasks wf = ∅
    | Some tasks => custom_ok wf tasks
    end
}.

(** ** The parts of the validator *)

Lemma no_empty_provider : EmptyString ∉ validProviders.
Proof. apply (bool_decide_unpack _). vm_compute. exact I. Qed.

Lemma validateIDFormats_nil wf :
  validateIDFormats wf = [] ↔
  ∀ id, is_Some (wf_Agents wf !! id) ∨ is_Some (wf_Tasks wf !! id) → isValidID id = true.
Proof.
  unfold validateIDFormats, id_format. autorewrite with petal_nil.
  setoid_rewrite diag_unless_nil. split.
  - intros [Ha Ht] id [[x Hx]|[x Hx]]; eauto.
  - intros Hall. split; intros k x Hk; apply Hall; eauto.
Qed.

Lemma agent_tool_inl id path i t :
  (∃ r, agent_tool reg id path i t = inl r) ↔
  HasTool reg (TrimSpace t) = true ∧
  (tr_hasAction (parseToolReference (TrimSpace t)) = true →
   tr_valid (parseToolReference (TrimSpace t)) = true).
Proof.
  unfold agent_tool. destruct (parseToolReference (TrimSpace t)) as [tn an ha va]; simpl.
  destruct ha, va, (HasTool reg (TrimSpace t)), (hasAnyActionForTool reg tn); simpl; naive_solver.
Qed.

Lemma validateAgentTools_nil id path tools :
  (validateAgentTools reg id path tools).2 = [] ↔
  ∀ i t, tools !! i = Some t → ∃ r, agent_tool reg id path i t = inl r.
Proof.
  unfold validateAgentTools.
  set (f := λ acc r, _). 
  assert (∀ rs acc, (foldl f acc rs).2 = [] ↔ acc.2 = [] ∧ ∀ r, r ∈ rs → ∃ x, r = inl x) as Hf.
  { induction rs as [|r rs IH]; intros acc; simpl.
    - split; [|tauto]. intros ->. split; [done|]. intros r Hr. inversion Hr.
    - rewrite IH. unfold f. setoid_rewrite elem_of_cons.
      destruct r as [[n r]|d]; simpl; [naive_solver|].
      rewrite app_nil_iff. naive_solver. }
  rewrite Hf. simpl. split.
  - intros [_ Hall] i t Hi. apply Hall. apply list_elem_of_lookup. exists i.
    by rewrite list_lookup_imap, Hi.
  - intros Hall. split; [done|]. intros r Hr. apply list_elem_of_lookup in Hr as [i Hi].
    rewrite list_lookup_imap in Hi. destruct (tools !! i) as [t|] eqn:E; [|done].
    simpl in Hi. destruct (Hall i t E) as [x Hx]. exists x. congruence.
Qed.

Lemma validateAgents_nil wf :
  validateAgents reg wf = [] ↔
  (∀ id ag, wf_Agents wf !! id = Some ag → agent_ok ag) ∧
  (∀ id ag, wf_Agents wf !! id = Some ag →
    validateAgentToolConfig reg id ("agents." ^^ id) (ag_ToolConfig ag)
      (validateAgentTools reg id ("agents." ^^ id) (ag_Tools ag)).1 = []).
Proof.
  unfold validateAgents. rewrite range_over_nil.
  assert (∀ id ag, (let '(refs, ds) := validateAgentTools reg id ("agents." ^^ id) (ag_Tools ag) in
      validateAgentRequiredFields id ("agents." ^^ id) ag ++ ds ++
      validateAgentToolConfig reg id ("agents." ^^ id) (ag_ToolConfig ag) refs) = [] ↔
    agent_ok ag ∧ validateAgentToolConfig reg id ("agents." ^^ id) (ag_ToolConfig ag)
      (validateAgentTools reg id ("agents." ^^ id) (ag_Tools ag)).1 = []) as Hone.
  { intros id ag. pose proof (validateAgentTools_nil id ("agents." ^^ id) (ag_Tools ag)) as Ht.
    destruct (validateAgentTools reg id _ (ag_Tools ag)) as [refs ds]. simpl in *.
    rewrite !app_nil_iff, Ht. unfold validateAgentRequiredFields.
    rewrite !app_nil_iff, !required_nil, diag_unless_nil, orb_true_iff, !bool_decide_eq_true.
    setoid_rewrite agent_tool_inl. split.
    - intros ((?&?&?&?&[?|?]) & Htools & ?); [done|]. split; [|done]. split; [done|].
      intros t Hin. apply list_elem_of_lookup in Hin as [i Hi]. by apply (Htools i).
    - intros [[(?&?&Hp&?) Htools] ?]. split_and!; try done.
      + intros Hemp. rewrite Hemp in Hp. by apply no_empty_provider.
      + by right.
      + intros i t Hi. apply Htools. by eapply list_elem_of_lookup_2. }
  setoid_rewrite Hone. naive_solver.
Qed.

Lemma validateTasks_nil wf :
  validateTasks wf = [] ↔ ∀ id task, wf_Tasks wf !! id = Some task → task_ok wf task.
Proof.
  unfold validateTasks. rewrite range_over_nil.
  assert (∀ id task, validateTaskRequiredFields id ("tasks." ^^ id) task ++
    validateTaskAgentReference wf id ("tasks." ^^ id) task ++
    validateTaskInputReferences wf id ("tasks." ^^ id) task ++
    validateTaskContextReferences wf id ("tasks." ^^ id) task = [] ↔ task_ok wf task) as Hone;
    [|by setoid_rewrite Hone].
  intros id task.
  unfold validateTaskRequiredFields, validateTaskAgentReference, validateTaskInputReferences,
    validateTaskContextReferences.
  rewrite !app_nil_iff, !required_nil, range_over_nil, range_diags_nil.
  setoid_rewrite mjoin_nil_iff. setoid_rewrite diag_unless_nil. setoid_rewrite bool_decide_eq_true.
  split.
  - intros ((Hd & Ha & He) & Hag & Hin & Hctx). rewrite bool_decide_false in Hag by done.
    apply diag_unless_nil, bool_decide_eq_true in Hag. split; try done; [eauto|].
    intros ref Hr. apply list_elem_of_lookup in Hr as [i Hi]. eauto.
  - intros [[Hd He] [Ha Hag] Hin Hctx]. split_and!; try done; [|eauto|].
    + rewrite bool_decide_false by done. by apply diag_unless_nil, bool_decide_eq_true.
    + intros i x Hi. apply Hctx. by eapply list_elem_of_lookup_2.
Qed.

Lemma validateSequential_nil wf : validateSequential wf = [] ↔ sequential_ok wf.
Proof.
  unfold validateSequential, sequential_ok. case_bool_decide as Hl.
  { apply nil_length_inv in Hl. rewrite Hl. naive_solver. }
  rewrite app_nil_iff, mjoin_nil_iff, range_over_nil.
  setoid_rewrite diag_unless_nil. setoid_rewrite bool_decide_eq_true. split.
  - intros [H1 H2]. split; [by intros Hn; rewrite Hn in Hl|]. intros t. split; [apply H1|].
    intros [x Hx]. eauto.
  - intros [_ Hall]. split; [intros t; apply Hall|]. intros k x Hk. apply Hall. eauto.
Qed.
(** ** Dependencies *)

(** The pairs (dependency, task) in the order the tables are built. *)
Definition dep_pairs (tasks : gmap string TaskDependencies) : list (string * string) :=
  mjoin (map (λ kv, map (λ dep, (dep, kv.1)) (td_DependsOn kv.2)) (range_map "execution.tasks" tasks)).

Lemma elem_of_dep_pairs tasks a b : (a, b) ∈ dep_pairs tasks ↔ depends tasks a b.
Proof.
  unfold dep_pairs, depends. rewrite list_elem_of_join. split.
  - intros (l & Hab & Hl). apply list_elem_of_In, in_map_iff in Hl as ([k deps] & <- & Hk).
    apply list_elem_of_In, elem_of_range in Hk. simpl in Hab.
    apply list_elem_of_In, in_map_iff in Hab as (d & [= <- <-] & Hd).
    exists deps. by rewrite list_elem_of_In.
  - intros (deps & Hb & Ha). exists (map (λ dep, (dep, b)) (td_DependsOn deps)). split.
    + apply list_elem_of_In, in_map_iff. exists a. by rewrite <- list_elem_of_In.
    + apply list_elem_of_In, in_map_iff. exists (b, deps). split; [done|].
      by apply list_elem_of_In, elem_of_range.
Qed.

Definition known_pairs wf (ps : list (string * string)) : list (string * string) :=
  filter (λ p, is_Some (wf_Tasks wf !! p.1)) ps.

Lemma custom_tables_pairs wf tasks :
  custom_tables wf tasks =
  foldl (λ acc p, add_dep wf p.2 acc p.1) ([], ∅, (λ _, 0%Z) <$> wf_Tasks wf) (dep_pairs tasks).
Proof.
  unfold custom_tables, dep_pairs. generalize (([], ∅, (λ _, 0%Z) <$> wf_Tasks wf) : deps_acc).
  induction (range_map "execution.tasks" tasks) as [|[k deps] l IH]; intros acc; [done|].
  simpl. rewrite foldl_app, IH. f_equal. clear. revert acc.
  induction (td_DependsOn deps) as [|d ds IH]; intros acc; [done|]. apply IH.
Qed.

Lemma add_deps_spec wf ps : ∀ acc,
  let r := foldl (λ acc p, add_dep wf p.2 acc p.1) acc ps in
  (r.1.1 = [] ↔ acc.1.1 = [] ∧ ∀ p, p ∈ ps → is_Some (wf_Tasks wf !! p.1)) ∧
  (∀ u, adj r.1.2 u = adj acc.1.2 u ++ map snd (filter (λ p, p.1 = u) (known_pairs wf ps))) ∧
  (∀ v, deg_get r.2 v = (deg_get acc.2 v + Z.of_nat (count (λ p, p.2 = v) (known_pairs wf ps)))%Z) ∧
  positives r.2 ≤ positives acc.2 + length ps.
Proof.
  unfold known_pairs. induction ps as [|[dep id] ps IH]; intros acc; simpl.
  { split_and!; [|intros u; by rewrite app_nil_r|intros v; change (filter _ []) with (@nil (string * string)); rewrite count_nil; lia|lia].
    split; [|tauto]. intros ->. split; [done|]. intros p Hp. inversion Hp. }
  destruct (IH (add_dep wf id acc dep)) as (H1 & H2 & H3 & H4). clear IH.
  destruct acc as [[ds succ] deg]. unfold add_dep in *.
  rewrite filter_cons. setoid_rewrite elem_of_cons. simpl in *.
  case_bool_decide as Hk; simpl in *; [rewrite decide_True by done|rewrite decide_False by done].
  - split_and!; [rewrite H1; naive_solver| | |].
    + intros u. rewrite H2, adj_insert, filter_cons. simpl.
      repeat case_decide; subst; simplify_eq; simpl; rewrite <- ?app_assoc; done.
    + intros v. rewrite H3, deg_get_insert, count_cons. simpl.
      repeat case_decide; subst; simplify_eq; lia.
    + etrans; [apply H4|]. pose proof (positives_incr deg id). lia.
  - split_and!; [rewrite H1, app_nil_iff; naive_solver| | |lia].
    + intros u. by rewrite H2.
    + intros v. by rewrite H3.
Qed.

Lemma zero_degrees wf v : deg_get ((λ _, 0%Z) <$> wf_Tasks wf) v = 0%Z.
Proof. unfold deg_get. rewrite lookup_fmap. by destruct (wf_Tasks wf !! v). Qed.

Lemma zero_positives wf : positives ((λ _, 0%Z) <$> wf_Tasks wf) = 0.
Proof.
  unfold positives. apply map_size_empty_iff, map_eq. intros k.
  rewrite lookup_empty, map_lookup_filter_None. right. intros d Hk. simpl.
  rewrite lookup_fmap in Hk. destruct (wf_Tasks wf !! k); simplify_eq/=; lia.
Qed.

Lemma length_dep_pairs tasks :
  length (dep_pairs tasks) = sum_list (map (λ kv, length (td_DependsOn kv.2)) (map_to_list tasks)).
Proof.
  rewrite <- (sum_list_perm _ _ (Permutation_map _ (range_map_perm "execution.tasks" tasks))).
  unfold dep_pairs. induction (range_map "execution.tasks" tasks) as [|kv l IH]; [done|].
  simpl. by rewrite length_app, IH, length_map.
Qed.

Lemma custom_tables_deps wf tasks :
  (custom_tables wf tasks).1.1 = [] ↔ ∀ a b, depends tasks a b → is_Some (wf_Tasks wf !! a).
Proof.
  rewrite custom_tables_pairs. rewrite (proj1 (add_deps_spec wf (dep_pairs tasks) _)). simpl.
  split.
  - intros [_ Hall] a b Hab. by apply (Hall (a, b)), elem_of_dep_pairs.
  - intros Hall. split; [done|]. intros [a b] Hab. by apply (Hall a b), elem_of_dep_pairs.
Qed.

(** The tasks in the order of a [range]. *)
Definition range_ids wf (site : string) : list string := map fst (range_map site (wf_Tasks wf)).

Lemma elem_of_range_ids wf site t : t ∈ range_ids wf site ↔ is_Some (wf_Tasks wf !! t).
Proof.
  unfold range_ids. rewrite list_elem_of_In, in_map_iff. split.
  - intros ([k x] & <- & Hin). apply list_elem_of_In, elem_of_range in Hin. eauto.
  - intros [x Hx]. exists (t, x). split; [done|]. by apply list_elem_of_In, elem_of_range.
Qed.

Lemma range_ids_NoDup wf site : NoDup (range_ids wf site).
Proof. unfold range_ids. rewrite range_map_perm. apply NoDup_fst_map_to_list. Qed.

Lemma length_range_ids wf site : length (range_ids wf site) = size (wf_Tasks wf).
Proof. unfold range_ids. by rewrite length_map, range_map_perm, length_map_to_list. Qed.

(** The worklist of [validateCustom] ends, whatever the tables hold. *)
Lemma custom_cycle_total wf tasks : is_Some (custom_cycle wf tasks).
Proof.
  unfold custom_cycle. rewrite custom_tables_pairs.
  destruct (add_deps_spec wf (dep_pairs tasks) ([], ∅, (λ _, 0%Z) <$> wf_Tasks wf))
    as (_ & _ & _ & Hp).
  destruct (foldl _ _ (dep_pairs tasks)) as [[ds succ] deg]. simpl in Hp.
  rewrite zero_positives in Hp. rewrite (detect_loop_kahn _ _ _ _ []).
  destruct (kahn_loop_total (adj succ) (custom_fuel wf tasks) deg
    (filter (λ id, deg_get deg id = 0%Z) (map fst (range_map "roots" (wf_Tasks wf)))) [])
    as [[deg' R] Hrun].
  - pose proof (length_filter (λ id, deg_get deg id = 0%Z) (range_ids wf "roots")) as Hlen.
    rewrite length_range_ids in Hlen. unfold custom_fuel. rewrite <- length_dep_pairs.
    unfold range_ids in Hlen. lia.
  - rewrite Hrun. simpl. eauto.
Qed.

(** When dependencies and keys are tasks, it reports exactly the cyclic blocks. *)
Lemma custom_cycle_spec wf tasks :
  (∀ a b, depends tasks a b → is_Some (wf_Tasks wf !! a)) →
  (∀ b, is_Some (tasks !! b) → is_Some (wf_Tasks wf !! b)) →
  custom_cycle wf tasks = Some [] ↔ ∀ t, ¬ tc (depends tasks) t t.
Proof.
  intros Hdeps Hkeys. unfold custom_cycle. rewrite custom_tables_pairs.
  destruct (add_deps_spec wf (dep_pairs tasks) ([], ∅, (λ _, 0%Z) <$> wf_Tasks wf))
    as (_ & Hsucc & Hdeg & _).
  assert (known_pairs wf (dep_pairs tasks) = dep_pairs tasks) as Hk.
  { apply filter_all. intros [a b] Hab. simpl. by eapply Hdeps, elem_of_dep_pairs. }
  rewrite Hk in *. destruct (foldl _ _ (dep_pairs tasks)) as [[ds succ] deg]. simpl in *.
  fold (range_ids wf "roots"). set (V := range_ids wf "roots").
  assert (∀ u v, edge (dep_pairs tasks) u v → u ∈ V ∧ v ∈ V) as HE.
  { intros u v He. apply elem_of_dep_pairs in He. unfold V. rewrite !elem_of_range_ids.
    split; [by eapply Hdeps|]. destruct He as (deps & Hb & _). eauto. }
  destruct (kahn_loop_inv V (dep_pairs tasks) (adj succ) HE Hsucc (custom_fuel wf tasks) []
    (filter (λ id, deg_get deg id = 0%Z) V) deg) as (deg' & R & Hrun & Hinv).
  - apply kahn_inv_init; [done| |apply NoDup_filter, range_ids_NoDup|].
    + intros v _. rewrite Hdeg, zero_degrees, Z.add_0_l. unfold indeg. f_equal.
      apply count_ext. intros p _. set_solver.
    + intros v. rewrite list_elem_of_filter. naive_solver.
  - unfold V, custom_fuel. rewrite length_range_ids. simpl. lia.
  - rewrite (detect_loop_kahn _ _ _ _ []), Hrun. simpl.
    pose proof (kahn_inv_acyclic_iff V (dep_pairs tasks) (range_ids_NoDup _ _) HE _ _ Hinv) as Hiff.
    assert (acyclic (dep_pairs tasks) ↔ ∀ t, ¬ tc (depends tasks) t t) as <-.
    { unfold acyclic. split; intros Hx x Hc; apply (Hx x); revert Hc;
        apply tc_mono; intros u v; unfold edge; by rewrite elem_of_dep_pairs. }
    rewrite <- Hiff, <- (length_range_ids wf "roots"). fold V.
    assert (length R ≤ length V) as Hle.
    { apply NoDup_subseteq_length.
      - pose proof (ki_nodup _ _ _ _ _ Hinv) as HR. by rewrite app_nil_r in HR.
      - intros v Hv. eapply ki_in_V; [done|]. by rewrite app_nil_r. }
    case_bool_decide; simpl; split; intros; simplify_eq; try done; lia.
Qed.

Lemma validateOrphanTasks_nil wf :
  validateOrphanTasks wf = [] ↔
  (ec_Strategy (wf_Execution wf) = "custom" →
   match ec_Tasks (wf_Execution wf) with
   | None => wf_Tasks wf = ∅
   | Some tasks => ∀ t, is_Some (wf_Tasks wf !! t) → is_Some (tasks !! t) ∨ ∃ b, depends tasks t b
   end).
Proof.
  unfold validateOrphanTasks. case_bool_decide as Hs; [|naive_solver].
  destruct (ec_Tasks (wf_Execution wf)) as [tasks|].
  - rewrite range_over_nil. setoid_rewrite diag_unless_nil. setoid_rewrite bool_decide_eq_true.
    assert (∀ t, t ∈ (dom tasks ∪ list_to_set (mjoin (map (λ kv, td_DependsOn kv.2)
      (map_to_list tasks))) : gset string) ↔ is_Some (tasks !! t) ∨ ∃ b, depends tasks t b) as Hin.
    { intros t. rewrite elem_of_union, elem_of_dom, elem_of_list_to_set, list_elem_of_join.
      apply or_iff_compat_l. unfold depends. split.
      - intros (l & Ht & Hl). apply list_elem_of_In, in_map_iff in Hl as ([b deps] & <- & Hb).
        apply list_elem_of_In, elem_of_map_to_list in Hb. eauto.
      - intros (b & deps & Hb & Ht). exists (td_DependsOn deps). split; [done|].
        apply list_elem_of_In, in_map_iff. exists (b, deps). split; [done|].
        by apply list_elem_of_In, elem_of_map_to_list. }
    setoid_rewrite Hin. split; [intros Hall _ t [x Hx]; eauto|].
    intros Hall k x Hk. apply Hall; eauto.
  - rewrite range_over_nil. split.
    + intros Hall _. apply map_eq. intros k. rewrite lookup_empty.
      destruct (wf_Tasks wf !! k) eqn:E; [|done]. by apply Hall in E.
    + intros Hall k x Hk. by rewrite Hall, lookup_empty in Hk.
Qed.

Lemma conditions_nil (tasks : gmap string TaskDependencies) :
  range_over "conditions" tasks (λ id deps,
    if bool_decide (td_Condition deps = EmptyString) then []
    else match exprValidator with
         | Some validate =>
             match validate (td_Condition deps) with
             | Some err => [errDiag "AT-013" [PS "Task "; PQ id;
                  PS " has invalid condition expression: "; PE err]
                  ("execution.tasks." ^^ id ^^ ".condition")]
             | None => []
             end
         | None => []
         end) = [] ↔
  ∀ t deps validate, tasks !! t = Some deps → td_Condition deps ≠ EmptyString →
    exprValidator = Some validate → validate (td_Condition deps) = None.
Proof.
  rewrite range_over_nil. split.
  - intros Hall t deps validate Ht Hne Hv. specialize (Hall t deps Ht).
    rewrite bool_decide_false, Hv in Hall by done. by destruct (validate _).
  - intros Hall t deps Ht. case_bool_decide; [done|]. destruct exprValidator as [validate|] eqn:E; [|done].
    by rewrite (Hall t deps validate).
Qed.

Lemma validateCustom_nil wf :
  (∀ tasks b, ec_Tasks (wf_Execution wf) = Some tasks → is_Some (tasks !! b) →
    is_Some (wf_Tasks wf !! b)) →
  (validateCustom exprValidator wf = Some [] ∧ ec_Strategy (wf_Execution wf) = "custom" ∧
   validateOrphanTasks wf = []) ↔
  (ec_Strategy (wf_Execution wf) = "custom" ∧
   match ec_Tasks (wf_Execution wf) with
   | None => wf_Tasks wf = ∅
   | Some tasks => custom_ok wf tasks
   end).
Proof.
  intros Hkeys. rewrite validateOrphanTasks_nil. unfold validateCustom.
  destruct (ec_Tasks (wf_Execution wf)) as [tasks|]; [|naive_solver].
  specialize (Hkeys tasks). destruct (custom_cycle_total wf tasks) as [cy Hcy].
  pose proof (custom_cycle_spec wf tasks) as Hspec. rewrite Hcy in *.
  assert (∀ l : list Diagnostic, Some l = Some [] ↔ l = []) as Hsome by (intros; naive_solver).
  rewrite Hsome in *. rewrite !app_nil_iff, custom_tables_deps, conditions_nil. split.
  - intros ((Hd & -> & Hc) & Hs & Ho). split; [done|]. split; try done; [|by apply Ho].
    apply Hspec; try done. intros b. by apply Hkeys.
  - intros [Hs [Hd Ha Hc Ho]]. split_and!; try done.
    apply Hspec; try done. intros b. by apply Hkeys.
Qed.

Lemma validateCustom_total wf : is_Some (validateCustom exprValidator wf).
Proof.
  unfold validateCustom. destruct (ec_Tasks _) as [tasks|]; [|eauto].
  destruct (custom_cycle_total wf tasks) as [cy ->]. eauto.
Qed.
End Accepted.

(** ** Every diagnostic is an error *)

Section Severity.
Context `{RangeOrder}.

Definition all_errors (ds : list Diagnostic) : Prop := Forall (λ d, d_Severity d = SeverityError) ds.

Lemma all_errors_nil : all_errors [].
Proof. constructor. Qed.
Lemma all_errors_one code msg path : all_errors [errDiag code msg path].
Proof. by repeat constructor. Qed.
Lemma all_errors_app l k : all_errors l → all_errors k → all_errors (l ++ k).
Proof. intros. by apply Forall_app. Qed.
Lemma all_errors_unless ok code msg path : all_errors (diag_unless ok (errDiag code msg path)).
Proof. destruct ok; [apply all_errors_nil|apply all_errors_one]. Qed.
Lemma all_errors_join {A} (f : A → list Diagnostic) l :
  (∀ x, all_errors (f x)) → all_errors (mjoin (map f l)).
Proof. intros Hf. induction l; [constructor|]. by apply all_errors_app. Qed.
Lemma all_errors_over {A} site (m : gmap string A) f :
  (∀ k x, all_errors (f k x)) → all_errors (range_over site m f).
Proof. intros Hf. apply all_errors_join. intros []. apply Hf. Qed.
Lemma all_errors_range {A} (f : nat → A → list Diagnostic) l :
  (∀ i x, all_errors (f i x)) → all_errors (range_diags f l).
Proof.
  unfold range_diags. revert f. induction l as [|x l IH]; intros f Hf; [constructor|].
  apply all_errors_app; [done|]. apply (IH (f ∘ S)). intros i y. apply Hf.
Qed.
#[local] Hint Resolve all_errors_nil all_errors_one all_errors_app all_errors_unless
  all_errors_join all_errors_over all_errors_range : petal.

Ltac errors_only :=
  repeat first [ progress intros | progress simplify_eq/= | solve [auto with petal]
               | apply all_errors_app | apply all_errors_over | apply all_errors_range
               | apply all_errors_join | case_match ].

Lemma tools_all_errors reg id path tools : all_errors (validateAgentTools reg id path tools).2.
Proof.
  unfold validateAgentTools. set (f := λ acc r, _).
  assert (∀ rs acc, all_errors acc.2 → (∀ d, inr d ∈ rs → d_Severity d = SeverityError) →
    all_errors (foldl f acc rs).2) as Hf.
  { induction rs as [|r rs IH]; intros acc Hacc Hrs; simpl; [done|].
    apply IH; [|intros d Hd; apply Hrs; by right].
    destruct r as [[n r]|d]; [done|]. simpl. apply all_errors_app; [done|].
    repeat constructor. apply Hrs. left. }
  apply Hf; [constructor|]. intros d Hd. apply list_elem_of_lookup in Hd as [i Hi].
  rewrite list_lookup_imap in Hi. destruct (tools !! i); [|done]. simpl in Hi. injection Hi as Hi.
  unfold agent_tool in Hi. destruct (parseToolReference _) as [tn an ha va]. simpl in Hi.
  destruct ha, va, (HasTool reg (TrimSpace s)), (hasAnyActionForTool reg tn); simpl in Hi;
    try discriminate; injection Hi as <-; reflexivity.
Qed.

Lemma add_deps_all_errors wf ps : ∀ acc, all_errors acc.1.1 →
  all_errors (foldl (λ acc p, add_dep wf p.2 acc p.1) acc ps).1.1.
Proof.
  induction ps as [|p ps IH]; intros [[ds succ] deg] Hacc; [done|]. simpl. apply IH.
  unfold add_dep. case_match; errors_only.
Qed.

Lemma validateAgents_all_errors reg wf : all_errors (validateAgents reg wf).
Proof.
  apply all_errors_over. intros id ag. cbv zeta.
  pose proof (tools_all_errors reg id ("agents." ^^ id) (ag_Tools ag)) as Ht.
  destruct (validateAgentTools _ _ _ _) as [refs ds'].
  unfold validateAgentRequiredFields, required, validateAgentToolConfig. errors_only.
Qed.

Lemma validateTasks_all_errors wf : all_errors (validateTasks wf).
Proof.
  unfold validateTasks, validateTaskRequiredFields, required, validateTaskAgentReference,
    validateTaskInputReferences, validateTaskContextReferences. errors_only.
Qed.

Lemma validateCustom_all_errors validator wf ds :
  validateCustom validator wf = Some ds → all_errors ds.
Proof.
  unfold validateCustom, custom_cycle. destruct (ec_Tasks _) as [tasks|]; [|intros [= <-]; constructor].
  assert (all_errors (custom_tables wf tasks).1.1) as Hc
    by (rewrite custom_tables_pairs; apply add_deps_all_errors; constructor).
  destruct (custom_tables wf tasks) as [[cs succ] deg].
  destruct (detect_loop _ _ _ _ _) as [[deg' n]|]; [|done]. intros [= <-]. errors_only.
Qed.
#[local] Hint Resolve validateAgents_all_errors validateTasks_all_errors : petal.

Lemma Validate_all_errors reg validator wf ds :
  Validate reg validator wf = Some ds → all_errors ds.
Proof.
  destruct wf as [wf|]; [|intros [= <-]; apply all_errors_one]. simpl.
  assert (all_errors (validateExecutionStrategy wf).2) as Hs
    by (unfold validateExecutionStrategy; case_bool_decide; errors_only).
  assert (all_errors (validateSequential wf)) as Hq
    by (unfold validateSequential; case_bool_decide; errors_only).
  assert (all_errors (validateOrphanTasks wf)) as Ho
    by (unfold validateOrphanTasks; case_bool_decide; errors_only).
  assert (all_errors (validateSchemaHeader wf ++ validateIDFormats wf)) as Hh
    by (unfold validateSchemaHeader, validateIDFormats, id_format; errors_only).
  destruct (validateExecutionStrategy wf) as [st sd]. simpl in Hs.
  intros Hv. assert (∀ k, all_errors k → all_errors ((validateSchemaHeader wf ++
    validateIDFormats wf ++ validateAgents reg wf ++ validateTasks wf ++ sd) ++ k ++
    validateOrphanTasks wf)) as Hall.
  { intros k Hk. rewrite app_assoc with (l := validateSchemaHeader wf). auto 10 with petal. }
  assert (∀ k, (if bool_decide (st = "sequential") then Some (validateSequential wf)
    else if bool_decide (st = "custom") then validateCustom validator wf else Some []) = Some k →
    all_errors k) as Hk.
  { intros k. case_bool_decide; [by intros [= <-]|]. case_bool_decide; [|intros [= <-]; constructor].
    apply validateCustom_all_errors. }
  destruct (if bool_decide (st = "sequential") then _ else _) as [k|]; [|done].
  injection Hv as <-. apply Hall. by apply Hk.
Qed.

Lemma all_errors_HasErrors ds : all_errors ds → HasErrors ds = false ↔ ds = [].
Proof.
  intros Hds. split; [|by intros ->]. destruct Hds as [|d ds Hd _]; [done|].
  simpl. by rewrite bool_decide_true.
Qed.
End Severity.

(** ** The whole validator *)

Section Whole.
Context `{RangeOrder} (reg : Registry) (exprValidator : option (string → option error)).

Lemma Validate_total wf : Validate reg exprValidator (Some wf) ≠ None.
Proof.
  simpl. destruct (validateExecutionStrategy wf) as [st sd]. case_bool_decide; [done|].
  case_bool_decide; [|done]. by destruct (validateCustom_total exprValidator wf) as [ds ->].
Qed.

Lemma strategy_nil wf :
  validateExecutionStrategy wf =
    (ec_Strategy (wf_Execution wf), (validateExecutionStrategy wf).2) ∧
  ((validateExecutionStrategy wf).2 = [] ↔ ec_Strategy (wf_Execution wf) ∈ validStrategies).
Proof.
  unfold validateExecutionStrategy. case_bool_decide as Hs; simpl; (split; [done|]).
  - rewrite Hs. split; [done|]. intros Hin. by apply (bool_decide_pack _) in Hin.
  - by rewrite diag_unless_nil, bool_decide_eq_true.
Qed.

Lemma Validate_nil_iff wf ds :
  (∀ tasks b, ec_Tasks (wf_Execution wf) = Some tasks → is_Some (tasks !! b) →
    is_Some (wf_Tasks wf !! b)) →
  Validate reg exprValidator (Some wf) = Some ds →
  ds = [] ↔ workflow_ok reg exprValidator wf.
Proof.
  intros Hkeys. simpl. destruct (strategy_nil wf) as [-> Hst].
  set (sd := (validateExecutionStrategy wf).2) in *.
  set (st := ec_Strategy (wf_Execution wf)) in *.
  assert (workflow_ok reg exprValidator wf ↔
    (validateSchemaHeader wf ++ validateIDFormats wf ++ validateAgents reg wf ++
     validateTasks wf ++ sd = []) ∧
    (st = "sequential" → sequential_ok wf) ∧
    (st = "custom" → match ec_Tasks (wf_Execution wf) with
                     | None => wf_Tasks wf = ∅
                     | Some tasks => custom_ok exprValidator wf tasks
                     end)) as ->.
  { rewrite !app_nil_iff, validateIDFormats_nil, validateAgents_nil, validateTasks_nil, Hst.
    split; [intros []; naive_solver|]. intros ((? & ? & [? ?] & ? & ?) & ? & ?). by split. }
  pose proof (validateCustom_nil exprValidator wf Hkeys) as Hcu. fold st in Hcu.
  pose proof (validateSequential_nil wf) as Hsq.
  pose proof (validateOrphanTasks_nil wf) as Ho. fold st in Ho.
  case_bool_decide as E1; [|case_bool_decide as E2].
  - intros [= <-]. rewrite (app_nil_iff _ (_ ++ _)), (app_nil_iff _ (validateOrphanTasks wf)), Hsq, Ho.
    rewrite E1. naive_solver.
  - destruct (validateCustom_total exprValidator wf) as [cu Hc]. rewrite Hc in *.
    intros [= <-]. rewrite (app_nil_iff _ (_ ++ _)), (app_nil_iff cu). rewrite E2 in *.
    assert (Some cu = Some [] ↔ cu = []) as Hs by naive_solver. rewrite Hs in Hcu. naive_solver.
  - intros [= <-]. simpl. rewrite (app_nil_iff _ (validateOrphanTasks wf)), Ho. naive_solver.
Qed.
End Whole.


(** ** Samples *)

Section Sample.
#[local] Existing Instance key_order.

Definition sample_agent : Agent := mkAgent "writer" "write" "" "openai" "m" [] ∅ ∅.
Definition sample_task (inputs : gmap string string) (review : string) : Task :=
  mkTask "Do {{input.topic}}" "w" "text" "" inputs review [].

(** Tasks [a], [b], [c] of one agent, with the given execution block. *)
Definition sample_wf (exec : ExecutionConfig) : AgentWorkflow :=
  mkWorkflow "1" "1.0.0" "agent_workflow" "wf" "sample" {[ "w" := sample_agent ]}
    (<["a" := sample_task ∅ ""]> (<["b" := sample_task {[ "x" := "{{tasks.a.output}}" ]} "human"]>
      {[ "c" := sample_task ∅ "" ]})) exec.

Definition custom_exec (tasks : gmap string TaskDependencies) : ExecutionConfig :=
  mkExec "custom" [] "" "" (Some tasks).

Definition chain_deps : gmap string TaskDependencies :=
  <["b" := mkDeps ["a"] ""]> {[ "c" := mkDeps ["a"; "b"] "tasks.b.output.ok" ]}.


(** Keys that are not tasks are not reported, and they inflate the count of
    visited nodes: here they hide the cycle between [a] and [b]. *)
Example masked_cycle :
  Validate newRegistry None (Some (sample_wf (custom_exec
    (<["a" := mkDeps ["b"] ""]> (<["b" := mkDeps ["a"] ""]>
      (<["x" := mkDeps ["c"] ""]> {[ "y" := mkDeps ["c"] "" ]})))))) = Some [] ∧
  map d_Code (default [] (Validate newRegistry None (Some (sample_wf (custom_exec
    (<["a" := mkDeps ["b"] ""]> {[ "b" := mkDeps ["a"] "" ]})))))) = ["AT-007"; "AT-009"].
Proof. vm_compute. by split. Qed.
End Sample.
