(* ===== verification/AgentCompile.v ===== *)
(** * The agent workflow compiler (agent/compile.go)

    From a workflow of agents and tasks to a graph definition: a chain of nodes per
    task (standalone tools, the prompt, the human review), edges for references
    between tasks, and the wiring of the execution strategy. The compiler mutates
    the definition and two maps, from a task to its first and to its last node;
    here they are the state [cstate].

    The values of node configurations have the JSON shape of the Go values: a
    [map[string]string] or a [map[string]map[string]any] is a [VMap]. *)

From stdpp Require Import gmap strings list fin_maps relations sorting.
From Stdlib Require Import Ascii ZArith Lia.
From S2P Require Import Prelude Values Kahn Graph Unicode Schema Registry Template GraphDef.
From S2P Require Import AgentWorkflow.

Definition compilerVersion : string := "0.1.0".
Definition CurrentGraphSchemaVersion : string := "1.0.0".
Definition LegacySchemaVersion : string := "legacy".

Notation "a ⋅⋅ b" := (a ^^ "__" ^^ b) (at level 59, right associativity) : petal_scope.

Record cstate := mkCState {
  cs_nodes : list NodeDef;
  cs_edges : list EdgeDef;
  cs_entry : string;
  cs_start : gmap string string;       (** taskStartNodeIDs *)
  cs_out : gmap string string          (** taskNodeIDs *)
}.

Definition push_node (n : NodeDef) (s : cstate) : cstate :=
  mkCState (cs_nodes s ++ [n]) (cs_edges s) (cs_entry s) (cs_start s) (cs_out s).
Definition push_edge (e : EdgeDef) (s : cstate) : cstate :=
  mkCState (cs_nodes s) (cs_edges s ++ [e]) (cs_entry s) (cs_start s) (cs_out s).
Definition set_entry (id : string) (s : cstate) : cstate :=
  mkCState (cs_nodes s) (cs_edges s) id (cs_start s) (cs_out s).
Definition set_start (taskID id : string) (s : cstate) : cstate :=
  mkCState (cs_nodes s) (cs_edges s) (cs_entry s) (<[taskID := id]> (cs_start s)) (cs_out s).
Definition set_out (taskID id : string) (s : cstate) : cstate :=
  mkCState (cs_nodes s) (cs_edges s) (cs_entry s) (cs_start s) (<[taskID := id]> (cs_out s)).

(** Reading a [map[string]string]: a missing key gives the empty string. *)
Definition read_map (m : gmap string string) (k : string) : string := default EmptyString (m !! k).

Definition sortedKeys {V} (m : gmap string V) : list string :=
  sort_Strings (map fst (map_to_list m)).

(** ** Configuration of the nodes *)

Definition buildSystemPrompt (ag : Agent) (task : Task) : string :=
  let nl := String "010"%char (String "010"%char EmptyString) in
  "You are a " ^^ ag_Role ag ^^ "." ^^ nl ^^ "Goal: " ^^ ag_Goal ag ^^
  (if bool_decide (ag_Backstory ag ≠ EmptyString) then nl ^^ "Backstory: " ^^ ag_Backstory ag
   else EmptyString) ^^
  nl ^^ "Expected output: " ^^ tk_ExpectedOutput task.

Definition cloneAnyMap (m : gmap string value) : value :=
  if bool_decide (size m = 0) then VNilMap else VMap m.

Definition cloneToolConfig (m : gmap string (gmap string value)) : value :=
  if bool_decide (size m = 0) then VNilMap else VMap (cloneAnyMap <$> m).

(** A configuration entry that is set under a condition. *)
Definition set_if (b : bool) (k : string) (v : value) (m : gmap string value) : gmap string value :=
  if b then <[k := v]> m else m.

Definition copy_entry (src : gmap string value) (k : string) (m : gmap string value)
    : gmap string value :=
  match src !! k with Some v => <[k := v]> m | None => m end.

Definition buildTaskLLMConfig (task : Task) (ag : Agent) (taskNodeIDs : gmap string string)
    (fcTools : list string) : gmap string value :=
  set_if (bool_decide (tk_OutputKey task ≠ EmptyString)) "output_key" (VString (tk_OutputKey task))
    (copy_entry (ag_Config ag) "max_tokens"
      (copy_entry (ag_Config ag) "temperature"
        (set_if (bool_decide (0 < size (ag_ToolConfig ag))) "tool_config"
           (cloneToolConfig (ag_ToolConfig ag))
          (set_if (bool_decide (0 < length fcTools)) "tools" (VStrings fcTools)
            (<["model" := VString (ag_Model ag)]>
              (<["provider" := VString (ag_Provider ag)]>
                (<["prompt_template" := VString (rewriteTemplate (tk_Description task) taskNodeIDs)]>
                  {[ "system_prompt" := VString (buildSystemPrompt ag task) ]}))))))).

Definition hasBytesPort (ports : list PortDef) : bool :=
  existsb (λ p, bool_decide (port_Type p = "bytes")) ports.

Definition inferredToolMode (def : NodeTypeDef) : string :=
  if bool_decide (TrimSpace (nt_ToolMode def) ≠ EmptyString) then nt_ToolMode def
  else if hasBytesPort (ports_Inputs (nt_Ports def)) || hasBytesPort (ports_Outputs (nt_Ports def))
  then "standalone" else "function_call".

(** [None]: the nil map. *)
Definition defaultArgsTemplate (inputs : list PortDef) : option (gmap string value) :=
  let out := foldl (λ m p, let name := TrimSpace (port_Name p) in
                           if bool_decide (name = EmptyString) then m
                           else <[name := VString name]> m) (∅ : gmap string value) inputs in
  if bool_decide (size out = 0) then None else Some out.

Section Compile.
Context `{RangeOrder} (reg : Registry).
Implicit Types (wf : AgentWorkflow) (s : cstate).

Definition buildStandaloneToolNodeConfig (toolRef : string) (ag : Agent) : gmap string value :=
  let c := match Get reg toolRef with
           | Some def => match defaultArgsTemplate (ports_Inputs (nt_Ports def)) with
                         | Some t => {[ "args_template" := VMap t ]}
                         | None => ∅
                         end
           | None => ∅
           end in
  let p := parseToolReference toolRef in
  if tr_hasAction p && tr_valid p then
    let c := <["action_name" := VString (tr_action p)]>
               (<["tool_name" := VString (tr_tool p)]> c) in
    match ag_ToolConfig ag !! tr_tool p with
    | Some overrides => set_if (bool_decide (0 < size overrides)) "tool_config" (cloneAnyMap overrides) c
    | None => c
    end
  else c.

(** ** Tasks *)

Definition tool_mode (toolRef : string) : string :=
  let mode := ToolMode reg toolRef in
  if bool_decide (mode = EmptyString) then
    match Get reg toolRef with
    | Some def => if nt_IsTool def then inferredToolMode def else mode
    | None => mode
    end
  else mode.

(** The loop of [compileTaskTools]: the function-call tools, the first and the
    last standalone node so far. *)
Fixpoint compile_tools (taskID : string) (ag : Agent) (tools : list string)
    (fc : list string) (first prev : string) (s : cstate) : cstate * (list string * string) :=
  match tools with
  | [] => (s, (fc, prev))
  | toolID :: rest =>
      let toolRef := TrimSpace toolID in
      let mode := tool_mode toolRef in
      if bool_decide (mode = "function_call") then
        compile_tools taskID ag rest (fc ++ [toolRef]) first prev s
      else if bool_decide (mode = "standalone") then
        let toolNodeID := taskID ⋅⋅ toolRef in
        let s := push_node (mkNodeDef toolNodeID toolRef (buildStandaloneToolNodeConfig toolRef ag)) s in
        let first := if bool_decide (first = EmptyString) then toolNodeID else first in
        let s := if bool_decide (prev ≠ EmptyString)
                 then push_edge (mkEdgeDef prev "output" toolNodeID "input") s else s in
        compile_tools taskID ag rest fc first toolNodeID (set_start taskID first s)
      else compile_tools taskID ag rest fc first prev s
  end.

Definition compileTaskTools (taskID : string) (ag : Agent) (s : cstate)
    : cstate * (list string * string) :=
  compile_tools taskID ag (ag_Tools ag) [] EmptyString EmptyString s.

Definition appendTaskHumanReviewNode (taskID : string) (task : Task) (nodeID : string) (s : cstate)
    : cstate :=
  if bool_decide (tk_Review task ≠ "human") then s
  else
    let hitlID := nodeID ^^ "__hitl" in
    set_out taskID hitlID
      (push_edge (mkEdgeDef nodeID "output" hitlID "input")
        (push_node (mkNodeDef hitlID "human"
           {[ "mode" := VString "approval"; "task_id" := VString taskID ]}) s)).

Definition compileTaskNode (taskID : string) (task : Task) (ag : Agent) (s : cstate) : cstate :=
  let nodeID := taskID ⋅⋅ tk_Agent task in
  let s := set_out taskID nodeID (set_start taskID nodeID s) in
  let '(s, (fcTools, prev)) := compileTaskTools taskID ag s in
  let s := if bool_decide (prev ≠ EmptyString)
           then push_edge (mkEdgeDef prev "output" nodeID "context") s else s in
  let s := push_node (mkNodeDef nodeID "llm_prompt"
             (buildTaskLLMConfig task ag (cs_out s) fcTools)) s in
  appendTaskHumanReviewNode taskID task nodeID s.

Fixpoint compileTaskNodes wf (taskIDs : list string) (s : cstate) : cstate + error :=
  match taskIDs with
  | [] => inl s
  | taskID :: rest =>
      let task := default (mkTask "" "" "" "" ∅ "" []) (wf_Tasks wf !! taskID) in
      match wf_Agents wf !! tk_Agent task with
      | None => inr (EFmt [PS "task "; PQ taskID; PS " references undefined agent ";
                           PQ (tk_Agent task)])
      | Some ag => compileTaskNodes wf rest (compileTaskNode taskID task ag s)
      end
  end.

(** ** References *)

(** An edge from the output of the task [ref], if it is known. *)
Definition ref_edge (dst handle ref : string) (s : cstate) : cstate :=
  match cs_out s !! ref with
  | None => s
  | Some srcNode => push_edge (mkEdgeDef srcNode "output" dst handle) s
  end.

Definition wire_task wf (s : cstate) (taskID : string) : cstate :=
  let task := default (mkTask "" "" "" "" ∅ "" []) (wf_Tasks wf !! taskID) in
  let start := read_map (cs_start s) taskID in
  let dst := if bool_decide (start = EmptyString) then taskID ⋅⋅ tk_Agent task else start in
  let s := foldl (λ s kv, foldl (λ s ref, ref_edge dst kv.1 ref s) s (extractTaskRefs kv.2))
             s (range_map ("wire." ^^ taskID) (tk_Inputs task)) in
  foldl (λ s ref, ref_edge dst "context" ref s) s (tk_Context task).

Definition wireTaskReferenceEdges wf (taskIDs : list string) (s : cstate) : cstate :=
  foldl (wire_task wf) s taskIDs.

(** ** Strategies *)

Fixpoint chain_tasks (order : list string) (s : cstate) : cstate + error :=
  match order with
  | a :: (b :: _) as rest =>
      match cs_out s !! a with
      | None => inr (EFmt [PS "task_order references unknown task "; PQ a])
      | Some srcNode =>
          match cs_start s !! b with
          | None => inr (EFmt [PS "task_order references unknown task "; PQ b])
          | Some dstStartNode =>
              chain_tasks rest (push_edge (mkEdgeDef srcNode "output" dstStartNode "input") s)
          end
      end
  | _ => inl s
  end.

Definition compileSequential wf s : cstate + error :=
  match ec_TaskOrder (wf_Execution wf) with
  | [] => inr (EFmt [PS "sequential strategy requires task_order"])
  | (first :: _) as order => chain_tasks order (set_entry (read_map (cs_start s) first) s)
  end.

Definition compileParallel wf s : cstate + error :=
  let mergeID := wf_ID wf ^^ "__merge" in
  let mergeConfig := set_if (bool_decide (ec_MergeStrategy (wf_Execution wf) ≠ EmptyString))
                       "strategy" (VString (ec_MergeStrategy (wf_Execution wf))) ∅ in
  let s := push_node (mkNodeDef mergeID "merge" mergeConfig) s in
  inl (foldl (λ s taskID,
         push_edge (mkEdgeDef (read_map (cs_out s) taskID) "output" mergeID "input") s)
       s (sortedKeys (wf_Tasks wf))).

Definition compileHierarchical wf s : cstate + error :=
  let managerAgentID := ec_ManagerAgent (wf_Execution wf) in
  if bool_decide (managerAgentID = EmptyString) then
    inr (EFmt [PS "hierarchical strategy requires manager_agent"])
  else match wf_Agents wf !! managerAgentID with
  | None => inr (EFmt [PS "manager_agent "; PQ managerAgentID; PS " is not defined in agents"])
  | Some ag =>
      let managerNodeID := wf_ID wf ^^ "__manager__" ^^ managerAgentID in
      let nl := String "010"%char (String "010"%char EmptyString) in
      let s := push_node (mkNodeDef managerNodeID "llm_router"
                 (<["model" := VString (ag_Model ag)]>
                   (<["provider" := VString (ag_Provider ag)]>
                     {[ "system_prompt" :=
                          VString ("You are a " ^^ ag_Role ag ^^ "." ^^ nl ^^ "Goal: " ^^ ag_Goal ag) ]}))) s in
      let s := set_entry managerNodeID s in
      inl (foldl (λ s taskID,
             push_edge (mkEdgeDef (read_map (cs_out s) taskID) "output" managerNodeID "input")
               (push_edge (mkEdgeDef managerNodeID "output" (read_map (cs_start s) taskID) "input") s))
           s (sortedKeys (wf_Tasks wf)))
  end.

(** The conditional node between the task [depID] and the task [taskID]. *)
Definition condition_id (depID taskID : string) : string := depID ^^ "__cond__" ^^ taskID.

Definition condition_node (outs : gmap string string) (depID taskID dstStart condition : string)
    : NodeDef :=
  mkNodeDef (condition_id depID taskID) "conditional"
    (<["pass_through" := VBool true]>
      (<["evaluation_order" := VString "first_match"]>
        (<["default" := VString "_skip"]>
          {[ "conditions" := VSlice [VMap
               (<["name" := VString dstStart]>
                 {[ "expression" := VString (rewriteConditionExpr condition outs) ]})] ]}))).

(** The wiring of one dependency through its conditional node. *)
Definition conditional_dep (taskID dstStart condition : string) (s : cstate) (depID : string)
    : cstate :=
  match cs_out s !! depID with
  | None => s
  | Some srcNode =>
      let condNodeID := condition_id depID taskID in
      let s :=
        if existsb (λ n, bool_decide (nd_ID n = condNodeID)) (cs_nodes s) then s
        else push_node (condition_node (cs_out s) depID taskID dstStart condition) s in
      push_edge (mkEdgeDef condNodeID dstStart dstStart "input")
        (push_edge (mkEdgeDef srcNode "output" condNodeID "input") s)
  end.

Definition direct_dep (dstStart : string) (s : cstate) (depID : string) : cstate :=
  match cs_out s !! depID with
  | None => s
  | Some srcNode => push_edge (mkEdgeDef srcNode "output" dstStart "input") s
  end.

Definition custom_task (tasks : gmap string TaskDependencies) (s : cstate) (taskID : string)
    : cstate :=
  let deps := default (mkDeps [] "") (tasks !! taskID) in
  match cs_out s !! taskID with
  | None => s
  | Some _ =>
      let dstStart := read_map (cs_start s) taskID in
      if bool_decide (td_Condition deps ≠ EmptyString)
      then foldl (conditional_dep taskID dstStart (td_Condition deps)) s (td_DependsOn deps)
      else foldl (direct_dep dstStart) s (td_DependsOn deps)
  end.

(** The first task, in key order, without dependencies. *)
Fixpoint first_root (tasks : gmap string TaskDependencies) (taskIDs : list string)
    : option string :=
  match taskIDs with
  | [] => None
  | taskID :: rest =>
      match tasks !! taskID with
      | Some deps => if bool_decide (length (td_DependsOn deps) = 0) then Some taskID
                     else first_root tasks rest
      | None => Some taskID
      end
  end.

Definition compileCustom wf s : cstate + error :=
  match ec_Tasks (wf_Execution wf) with
  | None => inl s
  | Some tasks =>
      let s := foldl (custom_task tasks) s (sortedKeys tasks) in
      inl match first_root tasks (sortedKeys (wf_Tasks wf)) with
          | Some taskID => set_entry (read_map (cs_start s) taskID) s
          | None => s
          end
  end.

Definition compileExecutionStrategy wf s : cstate + error :=
  let strategy := ec_Strategy (wf_Execution wf) in
  if bool_decide (strategy = "sequential") then compileSequential wf s
  else if bool_decide (strategy = "parallel") then compileParallel wf s
  else if bool_decide (strategy = "hierarchical") then compileHierarchical wf s
  else if bool_decide (strategy = "custom") then compileCustom wf s
  else inr (EFmt [PS "unsupported execution strategy "; PQ strategy]).

(** ** The compiler *)

(** The order of [sortEdges]: by source, target, source handle, target handle. *)
Definition edge_key (e : EdgeDef) : list string :=
  [ed_Source e; ed_Target e; ed_SourceHandle e; ed_TargetHandle e].

Fixpoint lex_le (a b : list string) : Prop :=
  match a, b with
  | x :: a', y :: b' => if decide (x = y) then lex_le a' b' else string_le x y
  | _, _ => True
  end.

#[export] Instance lex_le_dec a b : Decision (lex_le a b).
Proof. revert b. induction a as [|x a IH]; intros [|y b]; simpl; try apply _. case_decide; apply _. Defined.

Definition edge_le (e f : EdgeDef) : Prop := lex_le (edge_key e) (edge_key f).

#[export] Instance edge_le_dec e f : Decision (edge_le e f).
Proof. unfold edge_le. apply _. Defined.

Definition sortEdges (es : list EdgeDef) : list EdgeDef := merge_sort edge_le es.

(** [compiled_at] is the formatted clock. *)
Definition compiled_metadata wf (compiled_at : string) : gmap string string :=
  let v := TrimSpace (wf_SchemaVersion wf) in
  <["compiler_version" := compilerVersion]>
    (<["compiled_at" := compiled_at]>
      (<["source_schema_version" := if bool_decide (v = EmptyString) then LegacySchemaVersion else v]>
        (<["source_version" := wf_Version wf]> {[ "source_kind" := "agent_workflow" ]}))).

Definition Compile (compiled_at : string) (wf : option AgentWorkflow) : GraphDefinition + error :=
  match wf with
  | None => inr (EFmt [PS "workflow is nil"])
  | Some wf =>
      let taskIDs := sortedKeys (wf_Tasks wf) in
      match compileTaskNodes wf taskIDs (mkCState [] [] EmptyString ∅ ∅) with
      | inr err => inr err
      | inl s =>
          match compileExecutionStrategy wf (wireTaskReferenceEdges wf taskIDs s) with
          | inr err => inr err
          | inl s =>
              inl (mkGraphDef (wf_ID wf) (wf_Version wf) CurrentGraphSchemaVersion "graph"
                     (compiled_metadata wf compiled_at) (cs_nodes s) (sortEdges (cs_edges s))
                     (cs_entry s))
          end
      end
  end.
End Compile.
