(* ===== verification/AgentSpec.v ===== *)
(** * Correctness of the agent compiler

    What the compiled definition looks like (its nodes and edges, stated on the
    workflow), that it does not depend on the order in which Go ranges over maps,
    and when it passes the validation of graph definitions. *)

From stdpp Require Import gmap strings list fin_maps relations sorting.
From Stdlib Require Import Ascii ZArith Lia.
From S2P Require Import Prelude Values Kahn Graph Unicode Schema Registry Template GraphDef.
From S2P Require Import AgentWorkflow AgentValid AgentCompile.

(** ** Chains *)

(** Consecutive elements. *)
Fixpoint links {A} (l : list A) : list (A * A) :=
  match l with
  | a :: (b :: _) as r => (a, b) :: links r
  | _ => []
  end.

Lemma links_snoc {A} (l : list A) x :
  links (l ++ [x]) = links l ++ match last l with Some y => [(y, x)] | None => [] end.
Proof.
  induction l as [|a l IH]; [done|]. destruct l as [|b l]; [done|].
  change ((a :: b :: l) ++ [x]) with (a :: (b :: l) ++ [x]).
  change (links (a :: (b :: l) ++ [x])) with ((a, b) :: links ((b :: l) ++ [x])).
  rewrite IH. done.
Qed.

Lemma elem_of_links {A} (l : list A) u v :
  (u, v) ∈ links l ↔ ∃ i, l !! i = Some u ∧ l !! S i = Some v.
Proof.
  induction l as [|a l IH]; [split; [intros Hx; inversion Hx|by intros (i & Hi & _)]|].
  destruct l as [|b l].
  - split; [intros Hx; inversion Hx|]. intros ([|i] & Hi & Hi'); [done|]. by destruct i.
  - change (links (a :: b :: l)) with ((a, b) :: links (b :: l)).
    rewrite elem_of_cons, IH. split.
    + intros [[= -> ->]|(i & Hi & Hi')]; [by exists 0|]. by exists (S i).
    + intros ([|i] & Hi & Hi'); [left|right].
      * simpl in *. congruence.
      * by exists i.
Qed.

(** A chain connects its elements. *)
Lemma links_rtc {A} (R : relation A) (l : list A) x y :
  (∀ u v, (u, v) ∈ links l → R u v) → head l = Some x → last l = Some y → rtc R x y.
Proof.
  revert x. induction l as [|a l IH]; intros x HR Hh Hl; [done|]. simpl in Hh. simplify_eq.
  destruct l as [|b l]; [simpl in Hl; simplify_eq; apply rtc_refl|].
  eapply rtc_l; [apply HR; left|]. apply IH; [|done|done].
  intros u v Huv. apply HR. by right.
Qed.

Definition pairs (es : list EdgeDef) : list (string * string) :=
  map (λ e, (ed_Source e, ed_Target e)) es.

Lemma pairs_app l k : pairs (l ++ k) = pairs l ++ pairs k.
Proof. apply map_app. Qed.

Lemma elem_of_pairs es u v :
  (u, v) ∈ pairs es ↔ ∃ e, e ∈ es ∧ ed_Source e = u ∧ ed_Target e = v.
Proof.
  unfold pairs. rewrite list_elem_of_In, in_map_iff. setoid_rewrite <- list_elem_of_In.
  split; [intros (e & [= <- <-] & ?)|intros (e & ? & <- & <-)]; eauto.
Qed.

(** The non-empty string as a list. *)
Definition opt (x : string) : list string := if decide (x = EmptyString) then [] else [x].

Lemma opt_nonempty x : x ≠ EmptyString → opt x = [x].
Proof. intros Hx. unfold opt. by rewrite decide_False. Qed.

Lemma joined_nonempty a b : a ⋅⋅ b ≠ EmptyString.
Proof. intros Hx. apply append_nil_inv in Hx as [_ Hx]. by apply append_nil_inv in Hx as [? _]. Qed.

Section Chains.
Context `{RangeOrder} (reg : Registry).
Implicit Types (wf : AgentWorkflow) (s : cstate) (ag : Agent) (task : Task).

(** The standalone tools of an agent, and the nodes of a task in their order. *)
Definition standalone (tools : list string) : list string :=
  filter (λ r, tool_mode reg r = "standalone") (map TrimSpace tools).

Definition chain (t : string) task ag : list string :=
  map (λ r, t ⋅⋅ r) (standalone (ag_Tools ag)) ++ [t ⋅⋅ tk_Agent task] ++
  (if decide (tk_Review task = "human") then [(t ⋅⋅ tk_Agent task) ^^ "__hitl"] else []).

Definition task_chain wf (t : string) : list string :=
  match wf_Tasks wf !! t with
  | Some task => match wf_Agents wf !! tk_Agent task with Some ag => chain t task ag | None => [] end
  | None => []
  end.

Definition start_of wf (t : string) : string := default EmptyString (head (task_chain wf t)).
Definition out_of wf (t : string) : string := default EmptyString (last (task_chain wf t)).

Lemma chain_nonempty t task ag : chain t task ag ≠ [].
Proof. unfold chain. by destruct (map _ _). Qed.

Lemma chain_prefix t task ag x : x ∈ chain t task ag → ∃ r, x = t ⋅⋅ r.
Proof.
  unfold chain. rewrite !elem_of_app, list_elem_of_singleton. intros [Hx|[->|Hx]]; [|eauto|].
  - apply list_elem_of_In, in_map_iff in Hx as (r & <- & _). eauto.
  - case_decide; [|by inversion Hx]. apply list_elem_of_singleton in Hx as ->.
    exists (tk_Agent task ^^ "__hitl"). by rewrite !append_assoc.
Qed.

(** ** Compiling one task *)

Definition not_conditional (n : NodeDef) : Prop := nd_Type n ≠ "conditional".

(** [s'] extends [s] by the chain [l] of nodes. *)
Record extends s (l : list string) (ps : list (string * string)) s' : Prop := {
  ex_ids : map nd_ID (cs_nodes s') = map nd_ID (cs_nodes s) ++ l;
  ex_pairs : pairs (cs_edges s') = pairs (cs_edges s) ++ ps;
  ex_entry : cs_entry s' = cs_entry s;
  ex_types : Forall not_conditional (cs_nodes s) → Forall not_conditional (cs_nodes s')
}.

Context (no_conditional_tool : tool_mode reg "conditional" ≠ "standalone").

Lemma compile_tools_spec t ag tools : ∀ fc first prev s,
  (first = EmptyString ↔ prev = EmptyString) →
  let l := map (λ r, t ⋅⋅ r) (standalone tools) in
  let '(s', (_, prev')) := compile_tools reg t ag tools fc first prev s in
  extends s l (links (opt prev ++ l)) s' ∧
  prev' = default EmptyString (last (opt prev ++ l)) ∧
  cs_out s' = cs_out s ∧
  cs_start s' = match l with
                | [] => cs_start s
                | x :: _ => <[t := default EmptyString (head (opt first ++ l))]> (cs_start s)
                end.
Proof.
  induction tools as [|tool tools IH]; intros fc first prev s Hfp; cbn [compile_tools].
  { cbv zeta. unfold standalone. simpl. rewrite app_nil_r. split_and!; try done.
    - split; rewrite ?app_nil_r; try done. unfold opt. case_decide; simpl; by rewrite app_nil_r.
    - unfold opt. by case_decide. }
  unfold standalone. cbn [map]. rewrite filter_cons.
  destruct (decide (tool_mode reg (TrimSpace tool) = "standalone")) as [Hm|Hm].
  2: { case_bool_decide; [by apply IH|]. rewrite bool_decide_false by done. by apply IH. }
  rewrite Hm, bool_decide_false by done. rewrite bool_decide_true by done.
  set (x := t ⋅⋅ TrimSpace tool). set (l := map (λ r, t ⋅⋅ r) (standalone tools)).
  assert (x ≠ EmptyString) as Hx by apply joined_nonempty.
  set (first' := if bool_decide (first = EmptyString) then x else first).
  set (s1 := if bool_decide (prev ≠ EmptyString) then _ else _).
  assert (first' ≠ EmptyString) as Hf' by (unfold first'; by case_bool_decide).
  specialize (IH fc first' x (set_start t first' s1) ltac:(naive_solver)).
  fold l in IH. cbv zeta in IH.
  destruct (compile_tools reg t ag tools fc first' x (set_start t first' s1)) as [s' [fc' prev']].
  destruct IH as ([Hids Hps Hent Hty] & Hprev & Hout & Hstart).
  assert (extends s [x] (match last (opt prev) with Some y => [(y, x)] | None => [] end) s1) as [Hi1 Hp1 He1 Ht1].
  { unfold s1, opt. case_bool_decide as Hp.
    - rewrite decide_False by done. split; simpl; try done.
      + by rewrite map_app.
      + by rewrite pairs_app.
      + intros Hf. apply Forall_app. split; [done|]. repeat constructor. intros Hc.
        apply no_conditional_tool. by rewrite <- Hc.
    - rewrite decide_True by (apply dec_stable; naive_solver). split; simpl; try done.
      + by rewrite map_app.
      + by rewrite app_nil_r.
      + intros Hf. apply Forall_app. split; [done|]. repeat constructor. intros Hc.
        apply no_conditional_tool. by rewrite <- Hc. }
  assert (cs_out s1 = cs_out s ∧ cs_start s1 = cs_start s) as [Ho1 Hs1]
    by (unfold s1; by case_bool_decide).
  simpl in *. rewrite opt_nonempty in Hps, Hprev by done. split_and!.
  - split; simpl.
    + rewrite Hids, Hi1, <- app_assoc. done.
    + rewrite Hps, Hp1, <- app_assoc. f_equal.
      clear. unfold opt. by case_decide.
    + congruence.
    + auto.
  - rewrite Hprev. unfold opt. by case_decide.
  - congruence.
  - rewrite Hstart. rewrite (opt_nonempty first') by done. simpl. rewrite Hs1.
    assert (∀ k, default EmptyString (head (opt first ++ x :: k)) = first') as Hd.
    { intros k. unfold opt, first'. case_decide; [by rewrite bool_decide_true|by rewrite bool_decide_false]. }
    rewrite Hd. destruct l; [done|]. apply insert_insert_eq.
Qed.

Lemma compileTaskNode_spec t task ag s :
  let s' := compileTaskNode reg t task ag s in
  extends s (chain t task ag) (links (chain t task ag)) s' ∧
  cs_start s' = <[t := default EmptyString (head (chain t task ag))]> (cs_start s) ∧
  cs_out s' = <[t := default EmptyString (last (chain t task ag))]> (cs_out s).
Proof.
  cbv zeta. unfold compileTaskNode, compileTaskTools.
  set (x := t ⋅⋅ tk_Agent task). set (s0 := set_out t x (set_start t x s)).
  pose proof (compile_tools_spec t ag (ag_Tools ag) [] EmptyString EmptyString s0 ltac:(done)) as Hc.
  cbv zeta in Hc. change (opt EmptyString) with (@nil string) in Hc. simpl in Hc.
  set (l := map (λ r, t ⋅⋅ r) (standalone (ag_Tools ag))) in *.
  destruct (compile_tools reg t ag (ag_Tools ag) [] EmptyString EmptyString s0) as [s1 [fc prev]].
  destruct Hc as ([Hids Hps Hent Hty] & Hprev & Hout & Hstart). simpl in Hids, Hps, Hent, Hty.
  assert (Forall (λ y, y ≠ EmptyString) l) as Hne.
  { unfold l. apply Forall_forall. intros y Hy. apply list_elem_of_In, in_map_iff in Hy as (r & <- & _).
    apply joined_nonempty. }
  (** the prompt node and its edge *)
  set (s2 := if bool_decide (prev ≠ EmptyString) then _ else s1).
  set (s3 := push_node _ s2).
  assert (extends s (l ++ [x]) (links (l ++ [x])) s3 ∧ cs_out s3 = <[t := x]> (cs_out s) ∧
    cs_start s3 = <[t := default EmptyString (head (l ++ [x]))]> (cs_start s)) as (Hex & Ho3 & Hs3).
  { assert (pairs (cs_edges s2) = pairs (cs_edges s) ++ links (l ++ [x]) ∧ cs_nodes s2 = cs_nodes s1 ∧
      cs_entry s2 = cs_entry s1 ∧ cs_out s2 = cs_out s1 ∧ cs_start s2 = cs_start s1)
      as (Hp2 & Hn2 & He2 & Ho2 & Hs2).
    { unfold s2. rewrite links_snoc, app_assoc, <- Hps. destruct (last l) as [y|] eqn:El; simpl in Hprev.
      - assert (y ≠ EmptyString) as Hy.
        { rewrite Forall_forall in Hne. apply Hne. by apply last_Some_elem_of. }
        rewrite bool_decide_true by congruence. simpl. rewrite pairs_app. subst prev. done.
      - rewrite bool_decide_false by naive_solver. by rewrite app_nil_r. }
    split_and!; [split; simpl| |].
    - rewrite map_app, Hn2, Hids, app_assoc. done.
    - done.
    - congruence.
    - intros Hf. rewrite Hn2. apply Forall_app. split; [by apply Hty|]. by repeat constructor.
    - simpl. rewrite Ho2, Hout. done.
    - simpl. rewrite Hs2, Hstart. destruct l; [done|]. simpl. by rewrite insert_insert_eq. }
  clearbody s3. unfold appendTaskHumanReviewNode, chain. fold x. fold l.
  case_bool_decide as Hr.
  - rewrite decide_False by done. rewrite app_nil_r, last_snoc. done.
  - rewrite decide_True by (apply dec_stable; naive_solver).
    destruct Hex as [Hi He Hen Ht]. set (h := x ^^ "__hitl").
    change ([x] ++ [h]) with ([x; h]). assert (l ++ [x; h] = (l ++ [x]) ++ [h]) as ->
      by (by rewrite <- app_assoc).
    rewrite (links_snoc (l ++ [x])), !last_snoc.
    split_and!; [split; simpl| |].
    + by rewrite map_app, Hi, <- !app_assoc.
    + by rewrite pairs_app, He, <- !app_assoc.
    + done.
    + intros Hf. apply Forall_app. split; [by apply Ht|]. by repeat constructor.
    + simpl. rewrite Hs3. by destruct l.
    + simpl. rewrite Ho3. apply insert_insert_eq.
Qed.

(** All tasks of the list; they have a chain. *)
Lemma compileTaskNodes_spec wf ts : ∀ s,
  (∀ t, t ∈ ts → task_chain wf t ≠ []) → NoDup ts →
  ∃ s', compileTaskNodes reg wf ts s = inl s' ∧
    extends s (mjoin (map (task_chain wf) ts)) (mjoin (map (λ t, links (task_chain wf t)) ts)) s' ∧
    (∀ t, cs_start s' !! t = if decide (t ∈ ts) then Some (start_of wf t) else cs_start s !! t) ∧
    (∀ t, cs_out s' !! t = if decide (t ∈ ts) then Some (out_of wf t) else cs_out s !! t).
Proof.
  induction ts as [|t ts IH]; intros s Hch Hnd; cbn [compileTaskNodes].
  { exists s. split_and!; try done. split; by rewrite ?app_nil_r. }
  apply NoDup_cons in Hnd as [Hnt Hnd].
  assert (task_chain wf t ≠ []) as Ht by (apply Hch; left). unfold task_chain in Ht.
  destruct (wf_Tasks wf !! t) as [task|] eqn:Et; [|done]. simpl.
  destruct (wf_Agents wf !! tk_Agent task) as [ag|] eqn:Ea; [|done].
  assert (task_chain wf t = chain t task ag) as Hc by (unfold task_chain; by rewrite Et, Ea).
  pose proof (compileTaskNode_spec t task ag s) as ([Hi Hp He Hty] & Hs & Ho).
  rewrite <- Hc in *. set (s1 := compileTaskNode reg t task ag s) in *.
  destruct (IH s1) as (s' & -> & [Hi' Hp' He' Hty'] & Hs' & Ho'); [|done|].
  { intros u Hu. apply Hch. by right. }
  exists s'. split; [done|]. split.
  { split; simpl; [by rewrite Hi', Hi, app_assoc|by rewrite Hp', Hp, app_assoc|congruence|auto]. }
  split; intros u; [rewrite Hs', Hs|rewrite Ho', Ho]; rewrite lookup_insert;
    (destruct (decide (u = t)) as [->|Hne];
      [rewrite (decide_False (P := t ∈ ts)) by done; rewrite !decide_True by (done || left); done|]);
    (destruct (decide (u ∈ ts)); [by rewrite decide_True by (by right)|];
     rewrite decide_False by done; rewrite decide_False by set_solver; done).
Qed.
End Chains.

(** ** References between tasks *)

(** [s'] is [s] with the edges [P] added. *)
Record adds (s : cstate) (P : string → string → Prop) (s' : cstate) : Prop := {
  ad_nodes : cs_nodes s' = cs_nodes s;
  ad_entry : cs_entry s' = cs_entry s;
  ad_start : cs_start s' = cs_start s;
  ad_out : cs_out s' = cs_out s;
  ad_edges : ∀ u v, (u, v) ∈ pairs (cs_edges s') ↔ (u, v) ∈ pairs (cs_edges s) ∨ P u v
}.

Lemma adds_none s : adds s (λ _ _, False) s.
Proof. split; naive_solver. Qed.

Lemma adds_trans s P s1 Q s2 : adds s P s1 → adds s1 Q s2 → adds s (λ u v, P u v ∨ Q u v) s2.
Proof.
  intros [] []. split; try congruence. intros u v. rewrite ad_edges1, ad_edges0. tauto.
Qed.

Lemma adds_iff s (P Q : string → string → Prop) s' :
  (∀ u v, P u v ↔ Q u v) → adds s P s' → adds s Q s'.
Proof. intros HPQ []. split; try done. intros u v. by rewrite ad_edges0, HPQ. Qed.

Lemma adds_edge s e : adds s (λ u v, ed_Source e = u ∧ ed_Target e = v) (push_edge e s).
Proof.
  split; try done. intros u v. simpl. rewrite pairs_app, elem_of_app. simpl.
  rewrite list_elem_of_singleton. naive_solver.
Qed.

(** Steps that only read the maps, over a list. *)
Lemma adds_foldl {A} (f : cstate → A → cstate) (P : A → string → string → Prop) l : ∀ s,
  (∀ x s', cs_start s' = cs_start s → cs_out s' = cs_out s → adds s' (P x) (f s' x)) →
  adds s (λ u v, ∃ x, x ∈ l ∧ P x u v) (foldl f s l).
Proof.
  induction l as [|x l IH]; intros s Hf; simpl.
  { eapply adds_iff; [|apply adds_none]. intros u v. split; [done|]. intros (x & Hx & _). inversion Hx. }
  pose proof (Hf x s eq_refl eq_refl) as H1.
  pose proof H1 as [_ _ Hs Ho _].
  eapply adds_iff; [|eapply adds_trans; [exact H1|apply IH]].
  - intros u v. setoid_rewrite elem_of_cons. naive_solver.
  - intros y s' Hs' Ho'. apply Hf; congruence.
Qed.

Lemma adds_ref dst handle ref s :
  adds s (λ u v, cs_out s !! ref = Some u ∧ v = dst) (ref_edge dst handle ref s).
Proof.
  unfold ref_edge. destruct (cs_out s !! ref) as [src|].
  - eapply adds_iff; [|apply adds_edge]. simpl. naive_solver.
  - eapply adds_iff; [|apply adds_none]. naive_solver.
Qed.

Section Wiring.
Context `{RangeOrder} (reg : Registry).
Implicit Types (wf : AgentWorkflow) (s : cstate).

(** The task [t] refers to the output of [r]. *)
Definition refers wf (t r : string) : Prop :=
  ∃ task, wf_Tasks wf !! t = Some task ∧
    ((∃ param tmpl, tk_Inputs task !! param = Some tmpl ∧ r ∈ extractTaskRefs tmpl) ∨
     r ∈ tk_Context task).

Lemma adds_wire_task wf s t :
  is_Some (wf_Tasks wf !! t) → read_map (cs_start s) t ≠ EmptyString →
  adds s (λ u v, ∃ r, refers wf t r ∧ cs_out s !! r = Some u ∧ v = read_map (cs_start s) t)
    (wire_task wf s t).
Proof.
  intros [task Ht] Hs. unfold wire_task. rewrite Ht. simpl.
  rewrite bool_decide_false by done. set (dst := read_map (cs_start s) t).
  set (s1 := foldl _ s (range_map ("wire." ^^ t) (tk_Inputs task))).
  assert (adds s (λ u v, ∃ kv, kv ∈ range_map ("wire." ^^ t) (tk_Inputs task) ∧
    ∃ r, r ∈ extractTaskRefs kv.2 ∧ cs_out s !! r = Some u ∧ v = dst) s1) as H1.
  { unfold s1. apply (adds_foldl _ (λ kv u v,
      ∃ r, r ∈ extractTaskRefs kv.2 ∧ cs_out s !! r = Some u ∧ v = dst)).
    intros kv s' Hs' Ho'. rewrite <- Ho'.
    apply (adds_foldl _ (λ r u v, cs_out s' !! r = Some u ∧ v = dst)).
    intros r s2 _ Ho2. rewrite <- Ho2. apply adds_ref. }
  assert (adds s1 (λ u v, ∃ r, r ∈ tk_Context task ∧ cs_out s !! r = Some u ∧ v = dst)
    (foldl (λ s ref, ref_edge dst "context" ref s) s1 (tk_Context task))) as H2.
  { rewrite <- (ad_out _ _ _ H1). apply (adds_foldl _ (λ r u v, cs_out s1 !! r = Some u ∧ v = dst)).
    intros r s2 _ Ho2. rewrite <- Ho2. apply adds_ref. }
  eapply adds_iff; [|exact (adds_trans _ _ _ _ _ H1 H2)]. intros u v. unfold refers. simpl. split.
  - intros [([k tmpl] & Hk & r & Hr & Hu & ->)|(r & Hr & Hu & ->)]; exists r; (split; [|done]);
      exists task; (split; [done|]); [left|by right].
    exists k, tmpl. split; [by eapply elem_of_range|done].
  - intros (r & (task' & Ht' & Hr) & Hu & ->). rewrite Ht in Ht'. injection Ht' as <-.
    destruct Hr as [(k & tmpl & Hk & Hr)|Hr]; [left|right; eauto].
    exists (k, tmpl). split; [by apply elem_of_range|]. eauto.
Qed.

Lemma adds_wire wf ts s :
  (∀ t, t ∈ ts → is_Some (wf_Tasks wf !! t) ∧ read_map (cs_start s) t ≠ EmptyString) →
  adds s (λ u v, ∃ t, t ∈ ts ∧ ∃ r, refers wf t r ∧ cs_out s !! r = Some u ∧
                      v = read_map (cs_start s) t)
    (wireTaskReferenceEdges wf ts s).
Proof.
  unfold wireTaskReferenceEdges. revert s. induction ts as [|t ts IH]; intros s Hts; simpl.
  { eapply adds_iff; [|apply adds_none]. intros u v. split; [done|]. intros (x & Hx & _). inversion Hx. }
  destruct (Hts t ltac:(left)) as [Ht Hs].
  pose proof (adds_wire_task wf s t Ht Hs) as H1. pose proof H1 as [_ _ Hs1 Ho1 _].
  eapply adds_iff; [|eapply adds_trans; [exact H1|apply IH]].
  - intros u v. simpl. rewrite Hs1, Ho1. setoid_rewrite elem_of_cons. naive_solver.
  - intros t' Ht'. rewrite Hs1. apply Hts. by right.
Qed.
End Wiring.

(** ** Growth by conditional nodes *)

(** [s'] is [s] with the edges [P] and the conditional nodes [N] added, each of
    them once; [N] relates a pair of tasks to its node. *)
Record grows (s : cstate) (N : string → string → NodeDef → Prop) (P : string → string → Prop)
    (s' : cstate) : Prop := {
  gr_start : cs_start s' = cs_start s;
  gr_out : cs_out s' = cs_out s;
  gr_entry : cs_entry s' = cs_entry s;
  gr_nodes : ∀ n, n ∈ cs_nodes s' → n ∈ cs_nodes s ∨ ∃ a b, N a b n;
  gr_kept : ∀ n, n ∈ cs_nodes s → n ∈ cs_nodes s';
  gr_ids : ∀ a b n, N a b n → nd_ID n ∈ map nd_ID (cs_nodes s');
  gr_nodup : NoDup (map nd_ID (cs_nodes s)) → NoDup (map nd_ID (cs_nodes s'));
  gr_edges : ∀ u v, (u, v) ∈ pairs (cs_edges s') ↔ (u, v) ∈ pairs (cs_edges s) ∨ P u v
}.

Lemma grows_adds s P s' : adds s P s' → grows s (λ _ _ _, False) P s'.
Proof. intros [Hn He Hs Ho Hp]. split; try done; rewrite ?Hn; naive_solver. Qed.

Lemma map_kept {A B} (f : A → B) (l k : list A) x :
  (∀ y, y ∈ l → y ∈ k) → x ∈ map f l → x ∈ map f k.
Proof.
  intros Hlk. rewrite !list_elem_of_In, !in_map_iff. intros (y & <- & Hy). exists y.
  split; [done|]. by apply list_elem_of_In, Hlk, list_elem_of_In.
Qed.

Lemma grows_trans s N P s1 N' P' s2 :
  grows s N P s1 → grows s1 N' P' s2 →
  grows s (λ a b n, N a b n ∨ N' a b n) (λ u v, P u v ∨ P' u v) s2.
Proof.
  intros G1 G2. split.
  - by rewrite (gr_start _ _ _ _ G2), (gr_start _ _ _ _ G1).
  - by rewrite (gr_out _ _ _ _ G2), (gr_out _ _ _ _ G1).
  - by rewrite (gr_entry _ _ _ _ G2), (gr_entry _ _ _ _ G1).
  - intros n Hn. apply (gr_nodes _ _ _ _ G2) in Hn as [Hn|?]; [|naive_solver].
    apply (gr_nodes _ _ _ _ G1) in Hn. naive_solver.
  - intros n Hn. by apply (gr_kept _ _ _ _ G2), (gr_kept _ _ _ _ G1).
  - intros a b n [Hn|Hn]; [|by eapply gr_ids].
    eapply map_kept; [apply (gr_kept _ _ _ _ G2)|by eapply (gr_ids _ _ _ _ G1)].
  - intros Hnd. by apply (gr_nodup _ _ _ _ G2), (gr_nodup _ _ _ _ G1).
  - intros u v. rewrite (gr_edges _ _ _ _ G2), (gr_edges _ _ _ _ G1). tauto.
Qed.

Lemma grows_iff s (N N' : string → string → NodeDef → Prop) (P P' : string → string → Prop) s' :
  (∀ a b n, N a b n ↔ N' a b n) → (∀ u v, P u v ↔ P' u v) → grows s N P s' → grows s N' P' s'.
Proof.
  intros HN HP []. split; try done.
  - intros n Hn. apply gr_nodes0 in Hn. setoid_rewrite <- HN. done.
  - intros a b n Hn. by eapply gr_ids0, HN.
  - intros u v. by rewrite gr_edges0, HP.
Qed.

Lemma grows_foldl {A} (f : cstate → A → cstate) (N : A → string → string → NodeDef → Prop)
    (P : A → string → string → Prop) l : ∀ s,
  (∀ x s', cs_start s' = cs_start s → cs_out s' = cs_out s → grows s' (N x) (P x) (f s' x)) →
  grows s (λ a b n, ∃ x, x ∈ l ∧ N x a b n) (λ u v, ∃ x, x ∈ l ∧ P x u v) (foldl f s l).
Proof.
  induction l as [|x l IH]; intros s Hf; simpl.
  { eapply grows_iff; [| |apply grows_adds, adds_none]; intros;
      (split; [done|]); intros (x & Hx & _); inversion Hx. }
  pose proof (Hf x s eq_refl eq_refl) as H1.
  eapply grows_iff; [| |eapply grows_trans; [exact H1|apply IH]].
  - intros a b n. setoid_rewrite elem_of_cons. naive_solver.
  - intros u v. setoid_rewrite elem_of_cons. naive_solver.
  - intros y s' Hs' Ho'. apply Hf; [rewrite Hs'; apply H1|rewrite Ho'; apply H1].
Qed.

Lemma existsb_id id (ns : list NodeDef) :
  existsb (λ n, bool_decide (nd_ID n = id)) ns = bool_decide (id ∈ map nd_ID ns).
Proof.
  induction ns as [|n ns IH]; simpl.
  - done.
  - rewrite IH. apply eq_true_iff_eq. rewrite orb_true_iff, !bool_decide_eq_true, elem_of_cons.
    naive_solver.
Qed.

Lemma grows_conditional t dst condition s dep :
  grows s (λ a b n, a = dep ∧ b = t ∧ is_Some (cs_out s !! dep) ∧
             n = condition_node (cs_out s) dep t dst condition)
    (λ u v, is_Some (cs_out s !! dep) ∧
       ((cs_out s !! dep = Some u ∧ v = condition_id dep t) ∨ (u = condition_id dep t ∧ v = dst)))
    (conditional_dep t dst condition s dep).
Proof.
  unfold conditional_dep. destruct (cs_out s !! dep) as [src|] eqn:Ed.
  2: { eapply grows_iff; [| |apply grows_adds, adds_none]; naive_solver. }
  set (c := condition_node (cs_out s) dep t dst condition).
  set (s1 := if existsb _ _ then s else _).
  assert (cs_start s1 = cs_start s ∧ cs_out s1 = cs_out s ∧ cs_entry s1 = cs_entry s ∧
    cs_edges s1 = cs_edges s ∧
    ((cs_nodes s1 = cs_nodes s ∧ nd_ID c ∈ map nd_ID (cs_nodes s)) ∨
     (cs_nodes s1 = cs_nodes s ++ [c] ∧ nd_ID c ∉ map nd_ID (cs_nodes s)))) as (Hs & Ho & He & Hd & Hn).
  { unfold s1. rewrite existsb_id. case_bool_decide as Hin; simpl; split_and!; auto. }
  clearbody s1. split; simpl; try done.
  - intros n Hin. destruct Hn as [[Hc _]|[Hc _]]; rewrite Hc in Hin; [by left|].
    apply elem_of_snoc in Hin as [?| ->]; [by left|]. right. exists dep, t. eauto.
  - intros n Hin. destruct Hn as [[-> _]|[-> _]]; [done|]. apply elem_of_snoc. by left.
  - intros a b n (_ & _ & _ & ->). destruct Hn as [[-> Hin]|[-> _]]; [done|].
    rewrite map_app. apply elem_of_snoc. by right.
  - intros Hnd. destruct Hn as [[-> _]|[-> Hnin]]; [done|]. rewrite map_app.
    apply NoDup_app. split_and!; [done| |apply NoDup_singleton].
    intros x Hx Hx'. apply list_elem_of_singleton in Hx' as ->. done.
  - intros u v. rewrite Hd, !pairs_app, !elem_of_app. simpl. rewrite !list_elem_of_singleton.
    naive_solver.
Qed.

(** ** The compiled definition *)

Lemma or_iff_both (A B C D : Prop) : (A ↔ C) → (B ↔ D) → A ∨ B ↔ C ∨ D.
Proof. tauto. Qed.

Lemma elem_of_sortedKeys {V} (m : gmap string V) t : t ∈ sortedKeys m ↔ is_Some (m !! t).
Proof.
  unfold sortedKeys. rewrite sort_Strings_Permutation, list_elem_of_In, in_map_iff. split.
  - intros ([k x] & <- & Hx). apply list_elem_of_In, elem_of_map_to_list in Hx. eauto.
  - intros [x Hx]. exists (t, x). split; [done|]. by apply list_elem_of_In, elem_of_map_to_list.
Qed.

Lemma sortedKeys_NoDup {V} (m : gmap string V) : NoDup (sortedKeys m).
Proof. unfold sortedKeys. rewrite sort_Strings_Permutation. apply NoDup_fst_map_to_list. Qed.

Section Compiled.
Context `{RangeOrder} (reg : Registry).
Implicit Types (wf : AgentWorkflow) (s : cstate).

Definition is_task wf (t : string) : Prop := is_Some (wf_Tasks wf !! t).

(** The first and the last node of every task. *)
Definition start_map wf : gmap string string :=
  map_imap (λ t _, Some (start_of reg wf t)) (wf_Tasks wf).
Definition out_map wf : gmap string string :=
  map_imap (λ t _, Some (out_of reg wf t)) (wf_Tasks wf).

Lemma lookup_start wf t x : start_map wf !! t = Some x ↔ is_task wf t ∧ x = start_of reg wf t.
Proof.
  unfold start_map, is_task. rewrite map_lookup_imap. destruct (wf_Tasks wf !! t); simpl; [|naive_solver].
  split; [intros [= <-]|intros [_ ->]]; eauto.
Qed.
Lemma lookup_out wf t x : out_map wf !! t = Some x ↔ is_task wf t ∧ x = out_of reg wf t.
Proof.
  unfold out_map, is_task. rewrite map_lookup_imap. destruct (wf_Tasks wf !! t); simpl; [|naive_solver].
  split; [intros [= <-]|intros [_ ->]]; eauto.
Qed.

Lemma read_start wf t : is_task wf t → read_map (start_map wf) t = start_of reg wf t.
Proof. intros Ht. unfold read_map. by rewrite (proj2 (lookup_start wf t _) (conj Ht eq_refl)). Qed.
Lemma read_out wf t : is_task wf t → read_map (out_map wf) t = out_of reg wf t.
Proof. intros Ht. unfold read_map. by rewrite (proj2 (lookup_out wf t _) (conj Ht eq_refl)). Qed.

Definition merge_id wf : string := wf_ID wf ^^ "__merge".
Definition manager_id wf : string := wf_ID wf ^^ "__manager__" ^^ ec_ManagerAgent (wf_Execution wf).
Notation strategy wf := (ec_Strategy (wf_Execution wf)).

(** [b] depends on [a] in the execution block of a custom workflow. *)
Definition exec_dep wf (a b : string) (deps : TaskDependencies) : Prop :=
  ∃ tasks, ec_Tasks (wf_Execution wf) = Some tasks ∧ tasks !! b = Some deps ∧
    a ∈ td_DependsOn deps ∧ is_task wf a ∧ is_task wf b.

(** The edges of the compiled graph. *)
Inductive wired wf : string → string → Prop :=
| w_chain t u v : is_task wf t → (u, v) ∈ links (task_chain reg wf t) → wired wf u v
| w_ref a b : refers wf b a → is_task wf a → wired wf (out_of reg wf a) (start_of reg wf b)
| w_seq a b : strategy wf = "sequential" → (a, b) ∈ links (ec_TaskOrder (wf_Execution wf)) →
    wired wf (out_of reg wf a) (start_of reg wf b)
| w_merge t : strategy wf = "parallel" → is_task wf t → wired wf (out_of reg wf t) (merge_id wf)
| w_dispatch t : strategy wf = "hierarchical" → is_task wf t →
    wired wf (manager_id wf) (start_of reg wf t)
| w_report t : strategy wf = "hierarchical" → is_task wf t →
    wired wf (out_of reg wf t) (manager_id wf)
| w_dep a b deps : strategy wf = "custom" → exec_dep wf a b deps →
    td_Condition deps = EmptyString → wired wf (out_of reg wf a) (start_of reg wf b)
| w_cond_in a b deps : strategy wf = "custom" → exec_dep wf a b deps →
    td_Condition deps ≠ EmptyString → wired wf (out_of reg wf a) (condition_id a b)
| w_cond_out a b deps : strategy wf = "custom" → exec_dep wf a b deps →
    td_Condition deps ≠ EmptyString → wired wf (condition_id a b) (start_of reg wf b).

(** The conditional node of a pair of tasks. *)
Definition cond_def wf (a b : string) (n : NodeDef) : Prop :=
  strategy wf = "custom" ∧ ∃ deps, exec_dep wf a b deps ∧ td_Condition deps ≠ EmptyString ∧
    n = condition_node (out_map wf) a b (start_of reg wf b) (td_Condition deps).

(** The nodes beside the chains of the tasks. *)
Definition extra_node wf (n : NodeDef) : Prop :=
  (strategy wf = "parallel" ∧ nd_ID n = merge_id wf ∧ nd_Type n = "merge") ∨
  (strategy wf = "hierarchical" ∧ nd_ID n = manager_id wf ∧ nd_Type n = "llm_router") ∨
  ∃ a b, cond_def wf a b n.

(** The nodes of the chains, in the order of the tasks. *)
Definition chain_ids wf : list string :=
  mjoin (map (task_chain reg wf) (sortedKeys (wf_Tasks wf))).

Lemma elem_of_chain_ids wf x : x ∈ chain_ids wf ↔ ∃ t, x ∈ task_chain reg wf t.
Proof.
  unfold chain_ids. rewrite list_elem_of_join. split.
  - intros (l & Hx & Hl). apply list_elem_of_In, in_map_iff in Hl as (t & <- & _). eauto.
  - intros (t & Hx). exists (task_chain reg wf t). split; [done|].
    apply list_elem_of_In, in_map_iff. exists t. split; [done|].
    apply list_elem_of_In, elem_of_sortedKeys. unfold task_chain in Hx.
    destruct (wf_Tasks wf !! t); [eauto|inversion Hx].
Qed.

Context (no_conditional_tool : tool_mode reg "conditional" ≠ "standalone").

(** Every task has an agent, hence a chain. *)
Definition staffed wf : Prop := ∀ t, is_task wf t → task_chain reg wf t ≠ [].

Lemma chain_ends wf t : task_chain reg wf t ≠ [] →
  head (task_chain reg wf t) = Some (start_of reg wf t) ∧
  last (task_chain reg wf t) = Some (out_of reg wf t) ∧
  start_of reg wf t ≠ EmptyString ∧ out_of reg wf t ≠ EmptyString.
Proof.
  intros Hne. unfold start_of, out_of.
  assert (∀ x, x ∈ task_chain reg wf t → x ≠ EmptyString) as Hx.
  { intros x Hx. unfold task_chain in Hx. destruct (wf_Tasks wf !! t); [|inversion Hx].
    destruct (wf_Agents wf !! _); [|inversion Hx].
    apply chain_prefix in Hx as [r ->]. apply joined_nonempty. }
  destruct (last (task_chain reg wf t)) as [y|] eqn:El; [|by apply last_None in El].
  destruct (task_chain reg wf t) as [|x l] eqn:Ec; [done|]. simpl.
  split_and!; try done; apply Hx; [left|]. by apply last_Some_elem_of.
Qed.

(** What the strategies start from. *)
Record prepared wf s : Prop := {
  pr_ids : map nd_ID (cs_nodes s) = chain_ids wf;
  pr_types : Forall not_conditional (cs_nodes s);
  pr_entry : cs_entry s = EmptyString;
  pr_start : cs_start s = start_map wf;
  pr_out : cs_out s = out_map wf;
  pr_edges : ∀ u v, (u, v) ∈ pairs (cs_edges s) ↔
    (∃ t, is_task wf t ∧ (u, v) ∈ links (task_chain reg wf t)) ∨
    (∃ a b, refers wf b a ∧ is_task wf a ∧ u = out_of reg wf a ∧ v = start_of reg wf b)
}.

Lemma prepare wf : staffed wf → ∃ s1,
  compileTaskNodes reg wf (sortedKeys (wf_Tasks wf)) (mkCState [] [] EmptyString ∅ ∅) = inl s1 ∧
  prepared wf (wireTaskReferenceEdges wf (sortedKeys (wf_Tasks wf)) s1).
Proof.
  intros Hst.
  destruct (compileTaskNodes_spec reg no_conditional_tool wf (sortedKeys (wf_Tasks wf))
    (mkCState [] [] EmptyString ∅ ∅)) as (s1 & Hs1 & [Hi Hp He Hty] & Hs & Ho).
  { intros t Ht. by apply Hst, elem_of_sortedKeys. }
  { apply sortedKeys_NoDup. }
  exists s1. split; [done|]. simpl in *.
  assert (cs_start s1 = start_map wf) as Hstart.
  { apply map_eq. intros t. rewrite Hs. apply option_eq. intros x. rewrite lookup_start.
    unfold is_task. rewrite <- (elem_of_sortedKeys (wf_Tasks wf)). case_decide; [naive_solver|].
    rewrite lookup_empty. naive_solver. }
  assert (cs_out s1 = out_map wf) as Hout.
  { apply map_eq. intros t. rewrite Ho. apply option_eq. intros x. rewrite lookup_out.
    unfold is_task. rewrite <- (elem_of_sortedKeys (wf_Tasks wf)). case_decide; [naive_solver|].
    rewrite lookup_empty. naive_solver. }
  assert (∀ t, t ∈ sortedKeys (wf_Tasks wf) → is_task wf t ∧ read_map (cs_start s1) t ≠ EmptyString) as Hts.
  { intros t Ht. apply elem_of_sortedKeys in Ht. split; [done|].
    rewrite Hstart, read_start by done. by apply chain_ends, Hst. }
  destruct (adds_wire wf (sortedKeys (wf_Tasks wf)) s1 Hts) as [Hn' He' Hs' Ho' Hp'].
  split; rewrite ?Hn', ?He', ?Hs', ?Ho'; try done; [by apply Hty|].
  intros u v. rewrite Hp', Hp, list_elem_of_join, Hstart, Hout. apply or_iff_both.
  - split.
    + intros (l & Huv & Hl). apply list_elem_of_In, in_map_iff in Hl as (t & <- & Ht).
      exists t. split; [|done]. by apply list_elem_of_In, elem_of_sortedKeys in Ht.
    + intros (t & Ht & Huv). exists (links (task_chain reg wf t)). split; [done|].
      apply list_elem_of_In, in_map_iff. exists t. split; [done|].
      by apply list_elem_of_In, elem_of_sortedKeys.
  - setoid_rewrite elem_of_sortedKeys. setoid_rewrite lookup_out. split.
    + intros (t & Ht & r & Hr & [Hrt ->] & ->). exists r, t. by rewrite read_start.
    + intros (a & b & Hr & Ha & -> & ->). exists b. assert (is_task wf b) as Hb.
      { destruct Hr as (task & Hb & _). by exists task. }
      split; [done|]. exists a. by rewrite read_start.
Qed.

(** *** The strategies *)

Record compiled wf s s' : Prop := {
  cp_edges : ∀ u v, (u, v) ∈ pairs (cs_edges s') ↔ wired wf u v;
  cp_nodes : ∀ n, n ∈ cs_nodes s' → n ∈ cs_nodes s ∨ extra_node wf n;
  cp_kept : ∀ n, n ∈ cs_nodes s → n ∈ cs_nodes s';
  cp_extra : ∀ n, extra_node wf n → nd_ID n ∈ map nd_ID (cs_nodes s');
  cp_nodup : NoDup (chain_ids wf) → (∀ n, extra_node wf n → nd_ID n ∉ chain_ids wf) →
    NoDup (map nd_ID (cs_nodes s'));
  cp_entry : cs_entry s' = EmptyString ∨ cs_entry s' ∈ map nd_ID (cs_nodes s')
}.

(** The edges of a strategy beside the chains and the references. *)
Lemma wired_split wf s (P : string → string → Prop) :
  prepared wf s →
  (∀ u v, P u v → wired wf u v) →
  (∀ u v, wired wf u v → P u v ∨ (u, v) ∈ pairs (cs_edges s)) →
  ∀ u v, (u, v) ∈ pairs (cs_edges s) ∨ P u v ↔ wired wf u v.
Proof.
  intros Hp HP Hw u v. split; [|by intros [?|?]%Hw; auto].
  intros [Huv|?]; [|auto]. apply (pr_edges _ _ Hp) in Huv
    as [(t & Ht & Hl)|(a & b & Hr & Ha & -> & ->)]; [by eapply w_chain|by apply w_ref].
Qed.

Ltac wired_base Hp :=
  right; apply (pr_edges _ _ Hp); solve [left; eauto|right; eauto 8].

Lemma start_in_ids wf s t : staffed wf → prepared wf s → is_task wf t →
  start_of reg wf t ∈ map nd_ID (cs_nodes s) ∧ out_of reg wf t ∈ map nd_ID (cs_nodes s).
Proof.
  intros Hst Hp Ht. rewrite (pr_ids _ _ Hp), !elem_of_chain_ids.
  destruct (chain_ends wf t (Hst t Ht)) as (Hh & Hl & _).
  split; exists t; [|by apply last_Some_elem_of].
  destruct (task_chain reg wf t); [done|]. simpl in Hh. injection Hh as ->. left.
Qed.

Lemma chain_tasks_spec wf order : ∀ s,
  cs_start s = start_map wf → cs_out s = out_map wf → (∀ t, t ∈ order → is_task wf t) →
  ∃ s', chain_tasks order s = inl s' ∧
    adds s (λ u v, ∃ a b, (a, b) ∈ links order ∧ u = out_of reg wf a ∧ v = start_of reg wf b) s'.
Proof.
  induction order as [|a order IH]; intros s Hs Ho Hall.
  { exists s. split; [done|]. eapply adds_iff; [|apply adds_none].
    intros u v. split; [done|]. intros (x & y & Hx & _). inversion Hx. }
  destruct order as [|b order].
  { exists s. split; [done|]. eapply adds_iff; [|apply adds_none].
    intros u v. split; [done|]. intros (x & y & Hx & _). inversion Hx. }
  cbn [chain_tasks]. rewrite Ho, Hs.
  rewrite (proj2 (lookup_out wf a _) (conj (Hall a ltac:(left)) eq_refl)).
  rewrite (proj2 (lookup_start wf b _) (conj (Hall b ltac:(right; left)) eq_refl)).
  set (e := mkEdgeDef _ _ _ _). destruct (IH (push_edge e s)) as (s' & Hs' & Ha); [done|done| |].
  { intros t Ht. apply Hall. by right. }
  exists s'. split; [done|].
  eapply adds_iff; [|eapply adds_trans; [apply (adds_edge s e)|exact Ha]].
  intros u v. change (links (a :: b :: order)) with ((a, b) :: links (b :: order)).
  setoid_rewrite elem_of_cons. simpl. naive_solver.
Qed.

Lemma sequential_spec wf s :
  staffed wf → prepared wf s → strategy wf = "sequential" → sequential_ok wf →
  ∃ s', compileSequential wf s = inl s' ∧ compiled wf s s'.
Proof.
  intros Hst Hp Hstr [Hne Hord]. unfold compileSequential.
  destruct (ec_TaskOrder (wf_Execution wf)) as [|first order] eqn:Eo; [done|].
  rewrite (pr_start _ _ Hp), read_start by (apply Hord; left).
  set (s0 := set_entry (start_of reg wf first) s).
  destruct (chain_tasks_spec wf (first :: order) s0) as (s' & -> & [Hn He _ _ Hed]);
    [apply Hp|apply Hp|intros t; apply Hord|].
  exists s'. split; [done|]. split; rewrite ?Hn; simpl.
  - intros u v. rewrite Hed. simpl. revert u v. apply wired_split; [done| |].
    + intros u v (a & b & Hab & -> & ->). apply w_seq; [done|by rewrite Eo].
    + intros u v Hw. destruct Hw; try congruence; [wired_base Hp|wired_base Hp|left].
      exists a, b. by rewrite Eo in *.
  - auto.
  - auto.
  - intros n [[? _]|[[? _]|(a & b & ? & _)]]; congruence.
  - intros Hnd _. by rewrite (pr_ids _ _ Hp).
  - right. rewrite He. simpl. apply start_in_ids; [done|done|]. apply Hord. left.
Qed.

Lemma parallel_spec wf s :
  staffed wf → prepared wf s → strategy wf = "parallel" →
  ∃ s', compileParallel wf s = inl s' ∧ compiled wf s s'.
Proof.
  intros Hst Hp Hstr. unfold compileParallel. eexists. split; [reflexivity|].
  fold (merge_id wf). set (m := mkNodeDef (merge_id wf) _ _).
  set (s' := foldl _ (push_node m s) _).
  assert (adds (push_node m s) (λ u v, ∃ t, t ∈ sortedKeys (wf_Tasks wf) ∧
    read_map (cs_out s) t = u ∧ merge_id wf = v) s') as [Hn He _ _ Hed].
  { apply (adds_foldl _ (λ t u v, read_map (cs_out s) t = u ∧ merge_id wf = v)).
    intros t s1 _ Ho. simpl in Ho. rewrite <- Ho.
    exact (adds_edge s1 (mkEdgeDef (read_map (cs_out s1) t) "output" (merge_id wf) "input")). }
  clearbody s'. split; rewrite ?Hn; simpl.
  - intros u v. rewrite Hed. simpl. revert u v. apply wired_split; [done| |].
    + intros u v (t & Ht & <- & <-). apply elem_of_sortedKeys in Ht.
      rewrite (pr_out _ _ Hp), read_out by done. by apply w_merge.
    + intros u v Hw. destruct Hw; try congruence; [wired_base Hp|wired_base Hp|left].
      exists t. rewrite elem_of_sortedKeys, (pr_out _ _ Hp), read_out; done.
  - intros n Hin. apply elem_of_snoc in Hin as [?| ->]; [by left|]. right. by left.
  - intros n Hin. apply elem_of_snoc. by left.
  - intros n Hx. rewrite map_app. apply elem_of_snoc. right.
    destruct Hx as [(_ & -> & _)|[[? _]|(a & b & ? & _)]]; [done|congruence..].
  - intros Hnd Hx. rewrite map_app, (pr_ids _ _ Hp). apply NoDup_app.
    split_and!; [done| |apply NoDup_singleton]. intros x Hx1 Hx2.
    apply list_elem_of_singleton in Hx2 as ->. by apply (Hx m); [left|].
  - left. rewrite He. apply (pr_entry _ _ Hp).
Qed.

Lemma hierarchical_spec wf s :
  staffed wf → prepared wf s → strategy wf = "hierarchical" →
  ec_ManagerAgent (wf_Execution wf) ≠ EmptyString →
  is_Some (wf_Agents wf !! ec_ManagerAgent (wf_Execution wf)) →
  ∃ s', compileHierarchical wf s = inl s' ∧ compiled wf s s'.
Proof.
  intros Hst Hp Hstr Hne [ag Hag]. unfold compileHierarchical.
  rewrite bool_decide_false, Hag by done. eexists. split; [reflexivity|].
  fold (manager_id wf). set (m := mkNodeDef (manager_id wf) _ _).
  set (s0 := set_entry (manager_id wf) (push_node m s)). set (s' := foldl _ s0 _).
  assert (adds s0 (λ u v, ∃ t, t ∈ sortedKeys (wf_Tasks wf) ∧
    ((manager_id wf = u ∧ read_map (cs_start s) t = v) ∨
     (read_map (cs_out s) t = u ∧ manager_id wf = v))) s') as [Hn He _ _ Hed].
  { apply (adds_foldl _ (λ t u v, (manager_id wf = u ∧ read_map (cs_start s) t = v) ∨
      (read_map (cs_out s) t = u ∧ manager_id wf = v))).
    intros t s1 Hs Ho. simpl in Hs, Ho. rewrite <- Hs, <- Ho.
    exact (adds_trans _ _ _ _ _
      (adds_edge s1 (mkEdgeDef (manager_id wf) "output" (read_map (cs_start s1) t) "input"))
      (adds_edge _ (mkEdgeDef (read_map (cs_out s1) t) "output" (manager_id wf) "input"))). }
  clearbody s'. split; rewrite ?Hn; simpl.
  - intros u v. rewrite Hed. simpl. revert u v. apply wired_split; [done| |].
    + intros u v (t & Ht & [[<- <-]|[<- <-]]); apply elem_of_sortedKeys in Ht.
      * rewrite (pr_start _ _ Hp), read_start by done. by apply w_dispatch.
      * rewrite (pr_out _ _ Hp), read_out by done. by apply w_report.
    + intros u v Hw. destruct Hw; try congruence; [wired_base Hp|wired_base Hp|left|left];
        exists t; rewrite elem_of_sortedKeys; (split; [done|]); [left|right].
      * by rewrite (pr_start _ _ Hp), read_start.
      * by rewrite (pr_out _ _ Hp), read_out.
  - intros n Hin. apply elem_of_snoc in Hin as [?| ->]; [by left|]. right. right. by left.
  - intros n Hin. apply elem_of_snoc. by left.
  - intros n Hx. rewrite map_app. apply elem_of_snoc. right.
    destruct Hx as [[? _]|[(_ & -> & _)|(a & b & ? & _)]]; [congruence|done|congruence].
  - intros Hnd Hx. rewrite map_app, (pr_ids _ _ Hp). apply NoDup_app.
    split_and!; [done| |apply NoDup_singleton]. intros x Hx1 Hx2.
    apply list_elem_of_singleton in Hx2 as ->. by apply (Hx m); [right; left|].
  - right. rewrite He. simpl. rewrite map_app. apply elem_of_snoc. by right.
Qed.

(** The nodes and edges one task of a custom execution block adds. *)
Definition custom_nodes wf (tasks : gmap string TaskDependencies) (t a b : string) (n : NodeDef)
    : Prop :=
  b = t ∧ ∃ deps, tasks !! t = Some deps ∧ a ∈ td_DependsOn deps ∧ is_task wf a ∧ is_task wf t ∧
    td_Condition deps ≠ EmptyString ∧
    n = condition_node (out_map wf) a t (start_of reg wf t) (td_Condition deps).
Definition custom_edges wf (tasks : gmap string TaskDependencies) (t u v : string) : Prop :=
  ∃ deps a, tasks !! t = Some deps ∧ a ∈ td_DependsOn deps ∧ is_task wf a ∧ is_task wf t ∧
    ((td_Condition deps = EmptyString ∧ u = out_of reg wf a ∧ v = start_of reg wf t) ∨
     (td_Condition deps ≠ EmptyString ∧
      ((u = out_of reg wf a ∧ v = condition_id a t) ∨
       (u = condition_id a t ∧ v = start_of reg wf t)))).

Lemma grows_custom_task wf tasks t s :
  cs_start s = start_map wf → cs_out s = out_map wf →
  grows s (custom_nodes wf tasks t) (custom_edges wf tasks t) (custom_task tasks s t).
Proof.
  intros Hs Ho. unfold custom_task. rewrite Ho.
  destruct (out_map wf !! t) as [out|] eqn:Et.
  2: { assert (¬ is_task wf t) as Hnt.
       { intros Ht. by rewrite (proj2 (lookup_out wf t _) (conj Ht eq_refl)) in Et. }
       eapply grows_iff; [| |apply grows_adds, adds_none]; unfold custom_nodes, custom_edges;
         naive_solver. }
  apply lookup_out in Et as [Ht _]. rewrite Hs, read_start by done.
  destruct (tasks !! t) as [deps|] eqn:Ed; simpl.
  2: { eapply grows_iff; [| |apply grows_adds, adds_none]; unfold custom_nodes, custom_edges;
         naive_solver. }
  case_bool_decide as Hc.
  - eapply grows_iff; [| |apply (grows_foldl _
      (λ dep a b n, a = dep ∧ b = t ∧ is_Some (out_map wf !! dep) ∧
         n = condition_node (out_map wf) dep t (start_of reg wf t) (td_Condition deps))
      (λ dep u v, is_Some (out_map wf !! dep) ∧
         ((out_map wf !! dep = Some u ∧ v = condition_id dep t) ∨
          (u = condition_id dep t ∧ v = start_of reg wf t))))].
    + intros a b n. unfold custom_nodes. rewrite Ed.
      assert (∀ x, is_Some (out_map wf !! x) ↔ is_task wf x) as Hx.
      { intros x. split; [intros [y Hy]; by apply lookup_out in Hy as [? _]|].
        intros Hx. eexists. by apply lookup_out. }
      setoid_rewrite Hx. naive_solver.
    + intros u v. unfold custom_edges. rewrite Ed.
      assert (∀ x, is_Some (out_map wf !! x) ↔ is_task wf x) as Hx.
      { intros x. split; [intros [y Hy]; by apply lookup_out in Hy as [? _]|].
        intros Hx. eexists. by apply lookup_out. }
      setoid_rewrite Hx. setoid_rewrite lookup_out. naive_solver.
    + intros dep s' Hs' Ho'. rewrite Ho in Ho'. rewrite <- Ho'. apply grows_conditional.
  - assert (td_Condition deps = EmptyString) as Hce by (apply dec_stable; naive_solver).
    eapply grows_iff; [| |apply grows_adds, (adds_foldl _
      (λ dep u v, out_map wf !! dep = Some u ∧ v = start_of reg wf t))].
    + unfold custom_nodes. naive_solver.
    + intros u v. unfold custom_edges. rewrite Ed. setoid_rewrite lookup_out. naive_solver.
    + intros dep s' Hs' Ho'. rewrite Ho in Ho'. unfold direct_dep. rewrite Ho'.
      destruct (out_map wf !! dep) as [src|].
      * eapply adds_iff; [|apply adds_edge]. simpl. naive_solver.
      * eapply adds_iff; [|apply adds_none]. naive_solver.
Qed.

Lemma first_root_in tasks ts t : first_root tasks ts = Some t → t ∈ ts.
Proof.
  induction ts as [|x ts IH]; simpl; [done|]. destruct (tasks !! x); [case_bool_decide|].
  - intros [= ->]. left.
  - intros Ht. right. auto.
  - intros [= ->]. left.
Qed.

Lemma custom_spec wf s :
  staffed wf → prepared wf s → strategy wf = "custom" →
  ∃ s', compileCustom wf s = inl s' ∧ compiled wf s s'.
Proof.
  intros Hst Hp Hstr. unfold compileCustom.
  destruct (ec_Tasks (wf_Execution wf)) as [tasks|] eqn:Et.
  2: { exists s. split; [done|]. assert (∀ a b deps, ¬ exec_dep wf a b deps) as Hno
         by (intros a b deps (tasks & ? & _); congruence).
       split; try done; auto.
       - intros u v. rewrite <- (wired_split wf s (λ _ _, False)); [tauto|done|done|].
         intros x y Hw. destruct Hw; try congruence; try (by destruct (Hno a b deps)); wired_base Hp.
       - intros n [[? _]|[[? _]|(a & b & _ & deps & Hd & _)]]; [congruence..|by destruct (Hno a b deps)].
       - intros Hnd _. by rewrite (pr_ids _ _ Hp).
       - left. apply Hp. }
  eexists. split; [reflexivity|].
  assert (grows s (λ a b n, ∃ t, t ∈ sortedKeys tasks ∧ custom_nodes wf tasks t a b n)
    (λ u v, ∃ t, t ∈ sortedKeys tasks ∧ custom_edges wf tasks t u v)
    (foldl (custom_task tasks) s (sortedKeys tasks))) as Hg.
  { apply grows_foldl. intros t s' Hs Ho. apply grows_custom_task; [rewrite Hs|rewrite Ho]; apply Hp. }
  set (s1 := foldl (custom_task tasks) s (sortedKeys tasks)) in *.
  set (s' := match first_root _ _ with Some _ => _ | None => _ end).
  assert (cs_nodes s' = cs_nodes s1 ∧ cs_edges s' = cs_edges s1) as [Hn' He']
    by (unfold s'; by destruct (first_root _ _)).
  assert (∀ a b n, (∃ t, t ∈ sortedKeys tasks ∧ custom_nodes wf tasks t a b n) ↔ cond_def wf a b n) as HN.
  { intros a b n. unfold cond_def, exec_dep, custom_nodes. rewrite Et. split.
    - intros (t & _ & -> & deps & ?). naive_solver.
    - intros (_ & deps & (tasks' & [= <-] & Hb & ? & ? & ?) & ? & ->). exists b.
      split; [apply elem_of_sortedKeys; eauto|]. naive_solver. }
  split; rewrite ?Hn', ?He'.
  - intros u v. rewrite (gr_edges _ _ _ _ Hg). revert u v. apply wired_split; [done| |].
    + intros u v (t & _ & deps & a & Hd & Ha & Hta & Ht & Hc).
      assert (exec_dep wf a t deps) as Hdep by (exists tasks; naive_solver).
      destruct Hc as [(Hc & -> & ->)|(Hc & [[-> ->]|[-> ->]])];
        [by eapply w_dep|by eapply w_cond_in|by eapply w_cond_out].
    + intros u v Hw. destruct Hw as [| | | | | |a b deps _ Hd Hc|a b deps _ Hd Hc|a b deps _ Hd Hc];
        try congruence; try wired_base Hp; left; destruct Hd as (tasks' & Et' & Hb & Ha & Hta & Htb);
        rewrite Et in Et'; injection Et' as <-; exists b;
        (split; [apply elem_of_sortedKeys; eauto|]); exists deps, a; naive_solver.
  - intros n Hn. apply (gr_nodes _ _ _ _ Hg) in Hn as [?|(a & b & Hn)]; [by left|]. right. right. right.
    exists a, b. by apply HN.
  - apply (gr_kept _ _ _ _ Hg).
  - intros n [[? _]|[[? _]|(a & b & Hn)]]; [congruence..|].
    eapply (gr_ids _ _ _ _ Hg a b), HN, Hn.
  - intros Hnd _. apply (gr_nodup _ _ _ _ Hg). by rewrite (pr_ids _ _ Hp).
  - unfold s'. destruct (first_root _ _) as [t|] eqn:Ef; simpl.
    + right. apply first_root_in, elem_of_sortedKeys in Ef.
      rewrite (gr_start _ _ _ _ Hg), (pr_start _ _ Hp), read_start by done.
      eapply map_kept; [apply (gr_kept _ _ _ _ Hg)|]. by apply start_in_ids.
    + left. rewrite (gr_entry _ _ _ _ Hg). apply Hp.
Qed.

(** *** Task dependencies and cycles *)

(** [a] has to run before [b]: by a reference, by the order, or by the block. *)
Definition task_dep wf (a b : string) : Prop :=
  (refers wf b a ∧ is_task wf a) ∨
  (strategy wf = "sequential" ∧ (a, b) ∈ links (ec_TaskOrder (wf_Execution wf))) ∨
  (strategy wf = "custom" ∧ ∃ deps, exec_dep wf a b deps).

(** The pairs of tasks that get a conditional node. *)
Definition cond_pairs wf : list (string * string) :=
  match ec_Tasks (wf_Execution wf) with
  | None => []
  | Some tasks =>
      filter (λ p, is_Some (wf_Tasks wf !! p.1) ∧ is_Some (wf_Tasks wf !! p.2))
        (mjoin (map (λ kv, if decide (td_Condition kv.2 = EmptyString) then []
                           else map (λ d, (d, kv.1)) (td_DependsOn kv.2)) (map_to_list tasks)))
  end.

Lemma elem_of_cond_pairs wf a b :
  (a, b) ∈ cond_pairs wf ↔ ∃ deps, exec_dep wf a b deps ∧ td_Condition deps ≠ EmptyString.
Proof.
  unfold cond_pairs, exec_dep, is_task. destruct (ec_Tasks _) as [tasks|]; [|set_solver].
  rewrite list_elem_of_filter, list_elem_of_join. simpl. split.
  - intros ([Ha Hb] & l & Hab & Hl). apply list_elem_of_In, in_map_iff in Hl as ([k deps] & <- & Hk).
    apply list_elem_of_In, elem_of_map_to_list in Hk. simpl in Hab. case_decide; [inversion Hab|].
    apply list_elem_of_In, in_map_iff in Hab as (d & [= -> ->] & Hd). apply list_elem_of_In in Hd.
    exists deps. split; [|done]. exists tasks. done.
  - intros (deps & (tasks' & [= <-] & Hb & Hd & Hta & Htb) & Hc). split; [done|].
    exists (map (λ d, (d, b)) (td_DependsOn deps)). split.
    + apply list_elem_of_In, in_map_iff. exists a. by rewrite <- list_elem_of_In.
    + apply list_elem_of_In, in_map_iff. exists (b, deps). simpl. rewrite decide_False by done.
      split; [done|]. by apply list_elem_of_In, elem_of_map_to_list.
Qed.

(** The intended nodes; in an unambiguous workflow no two of them share an ID. *)
Definition extra_ids wf : list string :=
  if decide (strategy wf = "parallel") then [merge_id wf]
  else if decide (strategy wf = "custom")
  then map (λ p, condition_id p.1 p.2) (remove_dups (cond_pairs wf))
  else [].

Definition unambiguous wf : Prop := NoDup (chain_ids wf ++ extra_ids wf).

Lemma chains_disjoint wf t t' i j x :
  unambiguous wf → task_chain reg wf t !! i = Some x → task_chain reg wf t' !! j = Some x →
  t = t' ∧ i = j.
Proof.
  intros Hu Hi Hj. apply NoDup_app in Hu as (Hnd & _ & _). unfold chain_ids in Hnd.
  assert (∀ u k, task_chain reg wf u !! k = Some x → u ∈ sortedKeys (wf_Tasks wf)) as Hin.
  { intros u k Hk. apply elem_of_sortedKeys. unfold task_chain in Hk.
    destruct (wf_Tasks wf !! u); [eauto|]. done. }
  assert (t ∈ sortedKeys (wf_Tasks wf)) as Ht by eauto.
  assert (t' ∈ sortedKeys (wf_Tasks wf)) as Ht' by eauto.
  pose proof (sortedKeys_NoDup (wf_Tasks wf)) as Hk. revert Ht Ht' Hnd Hk. clear Hin.
  generalize (sortedKeys (wf_Tasks wf)). induction l as [|y l IH]; [by inversion 1|].
  intros Ht Ht' Hnd Hk. simpl in Hnd. apply NoDup_app in Hnd as (H1 & H2 & H3).
  apply NoDup_cons in Hk as [Hy Hk].
  assert (∀ u k, u ∈ l → task_chain reg wf u !! k = Some x → x ∈ mjoin (map (task_chain reg wf) l)) as Hm.
  { intros u k Hu' Hx. apply list_elem_of_join. exists (task_chain reg wf u).
    split; [by eapply list_elem_of_lookup_2|]. apply list_elem_of_In, in_map, list_elem_of_In, Hu'. }
  apply elem_of_cons in Ht as [->|Ht]; apply elem_of_cons in Ht' as [->|Ht'].
  - split; [done|]. exact (NoDup_lookup _ _ _ _ H1 Hi Hj).
  - destruct (H2 x); [by eapply list_elem_of_lookup_2|by eapply Hm].
  - destruct (H2 x); [by eapply list_elem_of_lookup_2|by eapply Hm].
  - by apply IH.
Qed.

(** Where a node stands. *)
Inductive place := PTask (t : string) (i : nat) | PCond (a b : string) | PMerge.

Definition at_place wf (x : string) (p : place) : Prop :=
  match p with
  | PTask t i => task_chain reg wf t !! i = Some x
  | PCond a b => strategy wf = "custom" ∧ (a, b) ∈ cond_pairs wf ∧ x = condition_id a b
  | PMerge => strategy wf = "parallel" ∧ x = merge_id wf
  end.

Definition place_extra (p : place) : Prop := match p with PTask _ _ => False | _ => True end.

Lemma extra_place wf x p : at_place wf x p → place_extra p → x ∈ extra_ids wf.
Proof.
  unfold extra_ids. destruct p as [t i|a b|]; [done| |].
  - intros (Hs & Hab & ->) _. rewrite Hs. simpl.
    apply list_elem_of_In, in_map_iff. exists (a, b). split; [done|].
    by apply list_elem_of_In, elem_of_remove_dups.
  - intros [Hs ->] _. rewrite decide_True by done. left.
Qed.

Lemma place_unique wf x p q : unambiguous wf → at_place wf x p → at_place wf x q → p = q.
Proof.
  intros Hu Hp Hq. pose proof Hu as (_ & Hdis & Hnd)%NoDup_app.
  assert (∀ t i r, at_place wf x (PTask t i) → at_place wf x r → place_extra r → False) as Hmix.
  { intros t i r Ht Hr Hx. apply (Hdis x); [|by eapply extra_place].
    apply elem_of_chain_ids. exists t. by eapply list_elem_of_lookup_2. }
  destruct p as [t i|a b|], q as [t' i'|a' b'|]; try (by destruct (Hmix _ _ _ Hp Hq I)); try (by destruct (Hmix _ _ _ Hq Hp I)).
  - destruct (chains_disjoint wf t t' i i' x Hu Hp Hq) as [-> ->]. done.
  - destruct Hp as (Hs & Hab & ->), Hq as (_ & Hab' & Heq).
    unfold extra_ids in Hnd. rewrite Hs in Hnd. simpl in Hnd.
    rewrite <- elem_of_remove_dups in Hab, Hab'.
    apply list_elem_of_lookup in Hab as [i Hi]. apply list_elem_of_lookup in Hab' as [j Hj].
    assert (i = j) as ->; [|congruence].
    eapply NoDup_lookup; [exact Hnd| |]; rewrite list_lookup_fmap.
    + by rewrite Hi.
    + rewrite Hj. simpl. by rewrite Heq.
  - destruct Hp as [Hs _], Hq as [Hs' _]. congruence.
  - destruct Hp as [Hs _], Hq as [Hs' _]. congruence.
  - done.
Qed.

(** The order the dependencies impose on places. *)
Definition place_before wf (p q : place) : Prop :=
  match p, q with
  | PMerge, _ => False
  | _, PMerge => True
  | PTask t i, PTask t' j => (t = t' ∧ i < j) ∨ tc (task_dep wf) t t'
  | PTask t _, PCond a _ => rtc (task_dep wf) t a
  | PCond _ b, PTask t _ => rtc (task_dep wf) b t
  | PCond _ b, PCond a _ => rtc (task_dep wf) b a
  end.

Lemma cond_task_dep wf a b : strategy wf = "custom" → (a, b) ∈ cond_pairs wf → task_dep wf a b.
Proof. intros Hs Hab. apply elem_of_cond_pairs in Hab as (deps & Hd & _). right. right. eauto. Qed.

Lemma place_before_trans wf x p q r : at_place wf x q →
  place_before wf p q → place_before wf q r → place_before wf p r.
Proof.
  intros Hq Hpq Hqr.
  destruct q as [t i|a b|]; [| |by destruct r].
  - destruct p as [u k|u u'|], r as [v l|v v'|]; simpl in *; try done.
    + destruct Hpq as [[-> ?]|?], Hqr as [[-> ?]|?]; [left; split; [done|lia]|auto..].
      right. by etrans.
    + destruct Hpq as [[-> ?]|?]; [done|]. etrans; [by apply tc_rtc|done].
    + destruct Hqr as [[-> ?]|?]; [done|]. etrans; [done|by apply tc_rtc].
    + by etrans.
  - destruct Hq as (Hs & Hab & _). pose proof (cond_task_dep wf a b Hs Hab) as Hd.
    destruct p as [u k|u u'|], r as [v l|v v'|]; simpl in *; try done.
    + right. eapply tc_rtc_l; [done|]. eapply tc_rtc_r; [by apply tc_once|done].
    + etrans; [done|]. by eapply rtc_l.
    + etrans; [done|]. by eapply rtc_l.
    + etrans; [done|]. by eapply rtc_l.
Qed.

Lemma place_before_irrefl wf x p : (∀ t, ¬ tc (task_dep wf) t t) →
  at_place wf x p → ¬ place_before wf p p.
Proof.
  intros Hac Hp Hb. destruct p as [t i|a b|]; simpl in *; [|..|done].
  - destruct Hb as [[_ ?]|Hb]; [lia|by apply (Hac t)].
  - destruct Hp as (Hs & Hab & _). apply (Hac a).
    eapply tc_rtc_r; [apply tc_once; by apply cond_task_dep|done].
Qed.

(** The task order of a sequential workflow lists tasks. *)
Definition ordered wf : Prop :=
  strategy wf = "sequential" → ∀ t, t ∈ ec_TaskOrder (wf_Execution wf) → is_task wf t.

Lemma refers_task wf a b : refers wf b a → is_task wf b.
Proof. intros (task & Hb & _). by exists task. Qed.

Lemma order_tasks wf a b : ordered wf → strategy wf = "sequential" →
  (a, b) ∈ links (ec_TaskOrder (wf_Execution wf)) → is_task wf a ∧ is_task wf b.
Proof.
  intros Ho Hs Hab. apply elem_of_links in Hab as (i & Ha & Hb).
  split; apply Ho; try done; by eapply list_elem_of_lookup_2.
Qed.

Lemma place_start wf t : staffed wf → is_task wf t → at_place wf (start_of reg wf t) (PTask t 0).
Proof.
  intros Hst Ht. simpl. destruct (chain_ends wf t (Hst t Ht)) as (Hh & _).
  by destruct (task_chain reg wf t).
Qed.

Lemma place_out wf t : staffed wf → is_task wf t →
  at_place wf (out_of reg wf t) (PTask t (pred (length (task_chain reg wf t)))).
Proof.
  intros Hst Ht. simpl. destruct (chain_ends wf t (Hst t Ht)) as (_ & Hl & _).
  by rewrite <- last_lookup.
Qed.

Lemma wired_places wf u v :
  staffed wf → ordered wf → strategy wf ≠ "hierarchical" → wired wf u v →
  ∃ p q, at_place wf u p ∧ at_place wf v q ∧ place_before wf p q.
Proof.
  intros Hst Ho Hh Hw.
  assert (∀ a b, is_task wf a → is_task wf b → task_dep wf a b →
    ∃ p q, at_place wf (out_of reg wf a) p ∧ at_place wf (start_of reg wf b) q ∧
      place_before wf p q) as Hdep.
  { intros a b Ha Hb Hd. eexists _, _. split; [by apply place_out|]. split; [by apply place_start|].
    simpl. right. by apply tc_once. }
  destruct Hw as [t u v Ht Hl|a b Hr Ha|a b Hs Hab|t Hs Ht|t Hs Ht|t Hs Ht|a b deps Hs Hd Hc
                 |a b deps Hs Hd Hc|a b deps Hs Hd Hc]; [..|done|done| | |].
  - apply elem_of_links in Hl as (i & Hi & Hj). exists (PTask t i), (PTask t (S i)).
    split_and!; [done..|]. left. split; [done|lia].
  - apply Hdep; [done|by eapply refers_task|]. by left.
  - destruct (order_tasks wf a b Ho Hs Hab) as [Ha Hb]. apply Hdep; [done..|]. right. by left.
  - eexists _, PMerge. split; [by apply place_out|]. done.
  - pose proof Hd as (tasks & _ & _ & _ & Ha & Hb). apply Hdep; [done..|]. right. right. eauto.
  - pose proof Hd as (tasks & _ & _ & _ & Ha & Hb). eexists _, (PCond a b).
    split; [by apply place_out|]. split; [|apply rtc_refl].
    split_and!; [done| |done]. apply elem_of_cond_pairs. eauto.
  - pose proof Hd as (tasks & _ & _ & _ & Ha & Hb). eexists (PCond a b), _.
    split; [|split; [by apply place_start|apply rtc_refl]].
    split_and!; [done| |done]. apply elem_of_cond_pairs. eauto.
Qed.

Lemma task_dep_wired wf a b :
  staffed wf → ordered wf → task_dep wf a b → tc (wired wf) (out_of reg wf a) (out_of reg wf b).
Proof.
  intros Hst Ho Hd.
  assert (is_task wf b) as Hb.
  { destruct Hd as [[Hr _]|[[Hs Hab]|[Hs (deps & tasks & _ & _ & _ & _ & Hb)]]]; [|..|done].
    - by eapply refers_task.
    - by apply (order_tasks wf a b). }
  assert (rtc (wired wf) (start_of reg wf b) (out_of reg wf b)) as Hc.
  { destruct (chain_ends wf b (Hst b Hb)) as (Hh & Hl & _).
    eapply links_rtc; [|exact Hh|exact Hl]. intros u v. by apply w_chain. }
  eapply tc_rtc_r; [|exact Hc].
  destruct Hd as [[Hr Ha]|[[Hs Hab]|[Hs [deps Hd]]]].
  - by apply tc_once, w_ref.
  - by apply tc_once, w_seq.
  - destruct (decide (td_Condition deps = EmptyString)).
    + eapply tc_once, w_dep; done.
    + eapply tc_l; [by eapply w_cond_in|]. eapply tc_once, w_cond_out; done.
Qed.

(** A path of the graph leads from place to place. *)
Lemma wired_path_places wf u v :
  staffed wf → ordered wf → strategy wf ≠ "hierarchical" → unambiguous wf →
  tc (wired wf) u v → ∃ p q, at_place wf u p ∧ at_place wf v q ∧ place_before wf p q.
Proof.
  intros Hst Ho Hh Hu. induction 1 as [x y Hxy|x y z Hxy _ (p' & r & Hp' & Hr & Hb')].
  - by apply wired_places.
  - destruct (wired_places wf x y Hst Ho Hh Hxy) as (p & q & Hp & Hq & Hb).
    assert (q = p') as <- by (by eapply place_unique).
    exists p, r. split_and!; [done..|]. by eapply place_before_trans.
Qed.

(** The compiled graph is acyclic exactly when the tasks are. *)
Lemma wired_acyclic wf :
  staffed wf → ordered wf → strategy wf ≠ "hierarchical" → unambiguous wf →
  (∀ x, ¬ tc (wired wf) x x) ↔ (∀ t, ¬ tc (task_dep wf) t t).
Proof.
  intros Hst Ho Hh Hu. split.
  - intros Hac t Ht. apply (Hac (out_of reg wf t)), tc_tc. revert Ht.
    apply (tc_congruence (out_of reg wf)). intros a b. by apply task_dep_wired.
  - intros Hac x Hx. destruct (wired_path_places wf x x Hst Ho Hh Hu Hx) as (p & q & Hp & Hq & Hb).
    assert (p = q) as <- by (by eapply place_unique).
    by eapply place_before_irrefl.
Qed.
End Compiled.
