(* ===== verification/AgentCorrect.v ===== *)
(** * Which workflows compile to valid graphs

    The theorems about the agent compiler: compilation of a valid workflow
    succeeds, its result does not depend on map iteration order, and it passes the
    validation of graph definitions exactly when the dependencies between the
    tasks are acyclic and the rewritten conditions are accepted; a hierarchical
    workflow with a task never passes. *)

From stdpp Require Import gmap strings list fin_maps relations sorting.
From Stdlib Require Import Ascii ZArith Lia.
From S2P Require Import Prelude Values Kahn Graph Unicode Schema Registry Template GraphDef.
From S2P Require Import AgentWorkflow AgentValid AgentCompile AgentSpec.

Notation strategy wf := (ec_Strategy (wf_Execution wf)).

(** ** Sorted edges *)

Lemma lex_le_refl a : lex_le a a.
Proof. induction a as [|x a IH]; simpl; [done|]. by rewrite decide_True. Qed.

Lemma lex_le_total a b : lex_le a b ∨ lex_le b a.
Proof.
  revert b. induction a as [|x a IH]; intros [|y b]; simpl; auto.
  destruct (decide (x = y)) as [->|Hne]; [rewrite decide_True by done; apply IH|].
  rewrite decide_False by done. apply string_le_total.
Qed.

Lemma lex_le_antisym a b : length a = length b → lex_le a b → lex_le b a → a = b.
Proof.
  revert b. induction a as [|x a IH]; intros [|y b]; simpl; try done. intros [= Hl].
  destruct (decide (x = y)) as [->|Hne].
  - rewrite decide_True by done. intros. f_equal. auto.
  - rewrite decide_False by done. intros H1 H2. destruct Hne. by apply (anti_symm string_le).
Qed.

Lemma lex_le_trans a b c : length a = length b → length b = length c →
  lex_le a b → lex_le b c → lex_le a c.
Proof.
  revert b c. induction a as [|x a IH]; intros [|y b] [|z c]; simpl; try done.
  intros [= Hl] [= Hl'].
  destruct (decide (x = y)) as [->|Hxy], (decide (y = z)) as [->|Hyz].
  - eauto.
  - done.
  - intros H1 _. by case_decide.
  - intros H1 H2. case_decide; [subst|by etrans]. destruct Hxy. by apply (anti_symm string_le).
Qed.

Lemma edge_key_length e : length (edge_key e) = 4.
Proof. done. Qed.

#[export] Instance edge_le_total : Total edge_le.
Proof. intros e f. apply lex_le_total. Qed.
#[export] Instance edge_le_trans : Transitive edge_le.
Proof. intros e f g. by apply lex_le_trans. Qed.
#[export] Instance edge_le_antisymm : AntiSymm (=) edge_le.
Proof.
  intros [s h t h'] [s2 h2 t2 h2'] H1 H2.
  assert (edge_key (mkEdgeDef s h t h') = edge_key (mkEdgeDef s2 h2 t2 h2')) as Hk
    by (by apply lex_le_antisym). unfold edge_key in Hk. simpl in Hk. congruence.
Qed.

Lemma sortEdges_Permutation es : sortEdges es ≡ₚ es.
Proof. apply merge_sort_Permutation. Qed.

(** Sorting makes the edges independent of the order in which they were added. *)
Lemma sortEdges_perm es fs : es ≡ₚ fs → sortEdges es = sortEdges fs.
Proof.
  intros Hp. apply (Sorted_unique edge_le); [apply Sorted_merge_sort; apply _..|].
  by rewrite !sortEdges_Permutation.
Qed.

(** ** Determinism *)

(** States that differ at most in the order of their edges. *)
Record cs_equiv (s s' : cstate) : Prop := {
  ce_nodes : cs_nodes s = cs_nodes s';
  ce_edges : cs_edges s ≡ₚ cs_edges s';
  ce_entry : cs_entry s = cs_entry s';
  ce_start : cs_start s = cs_start s';
  ce_out : cs_out s = cs_out s'
}.

#[export] Instance cs_equiv_equivalence : Equivalence cs_equiv.
Proof.
  split.
  - intros s. by split.
  - intros s s' []. by split.
  - intros s s' s'' [] []. split; congruence || by etrans.
Qed.

#[export] Instance push_edge_proper e : Proper (cs_equiv ==> cs_equiv) (push_edge e).
Proof. intros s s' []. split; simpl; try done. by rewrite ce_edges0. Qed.
#[export] Instance push_node_proper n : Proper (cs_equiv ==> cs_equiv) (push_node n).
Proof. intros s s' []. split; simpl; try done. by rewrite ce_nodes0. Qed.
#[export] Instance set_entry_proper id : Proper (cs_equiv ==> cs_equiv) (set_entry id).
Proof. intros s s' []. by split. Qed.

Lemma push_edge_comm e f s : cs_equiv (push_edge e (push_edge f s)) (push_edge f (push_edge e s)).
Proof. split; simpl; try done. rewrite <- !app_assoc. simpl. by rewrite (Permutation_swap e f). Qed.

#[export] Instance ref_edge_proper dst handle ref :
  Proper (cs_equiv ==> cs_equiv) (ref_edge dst handle ref).
Proof.
  intros s s' He. unfold ref_edge. rewrite (ce_out _ _ He).
  destruct (cs_out s' !! ref); [by apply push_edge_proper|done].
Qed.

Lemma ref_edge_out dst handle ref s : cs_out (ref_edge dst handle ref s) = cs_out s.
Proof. unfold ref_edge. by destruct (cs_out s !! ref). Qed.
Lemma ref_edge_start dst handle ref s : cs_start (ref_edge dst handle ref s) = cs_start s.
Proof. unfold ref_edge. by destruct (cs_out s !! ref). Qed.

Lemma ref_edge_comm d h r d' h' r' s :
  cs_equiv (ref_edge d h r (ref_edge d' h' r' s)) (ref_edge d' h' r' (ref_edge d h r s)).
Proof.
  unfold ref_edge at 1 3. rewrite !ref_edge_out. unfold ref_edge.
  destruct (cs_out s !! r) as [x|] eqn:E, (cs_out s !! r') as [y|] eqn:E'; rewrite ?E, ?E'; try done.
  apply push_edge_comm.
Qed.

Lemma foldl_proper {A} (f : cstate → A → cstate) l s s' :
  (∀ x, Proper (cs_equiv ==> cs_equiv) (λ s, f s x)) → cs_equiv s s' →
  cs_equiv (foldl f s l) (foldl f s' l).
Proof. intros Hf. revert s s'. induction l as [|x l IH]; intros s s' He; [done|]. apply IH. by apply Hf. Qed.

Lemma foldl_swap {A} (f : cstate → A → cstate) (g : cstate → cstate) l s :
  (∀ x, Proper (cs_equiv ==> cs_equiv) (λ s, f s x)) →
  (∀ x s, cs_equiv (f (g s) x) (g (f s x))) → cs_equiv (foldl f (g s) l) (g (foldl f s l)).
Proof.
  intros Hf Hc. revert s. induction l as [|x l IH]; intros s; [done|]. simpl.
  etrans; [|apply IH]. apply foldl_proper; [done|]. apply Hc.
Qed.

Lemma foldl_perm {A} (f : cstate → A → cstate) l k s :
  (∀ x, Proper (cs_equiv ==> cs_equiv) (λ s, f s x)) →
  (∀ x y s, cs_equiv (f (f s x) y) (f (f s y) x)) → l ≡ₚ k → cs_equiv (foldl f s l) (foldl f s k).
Proof.
  intros Hf Hc Hp. revert s. induction Hp as [|x l k _ IH|x y l|l k m _ IH1 _ IH2]; intros s; simpl.
  - done.
  - apply IH.
  - apply foldl_proper; [done|]. apply Hc.
  - etrans; [apply IH1|apply IH2].
Qed.

(** The inner loop over the references of one input. *)
Definition wire_input (dst : string) (s : cstate) (kv : string * string) : cstate :=
  foldl (λ s ref, ref_edge dst kv.1 ref s) s (extractTaskRefs kv.2).

Lemma wire_input_proper dst kv : Proper (cs_equiv ==> cs_equiv) (λ s, wire_input dst s kv).
Proof. intros s s' He. apply foldl_proper; [|done]. intros x. apply ref_edge_proper. Qed.

Lemma wire_input_comm dst x y s :
  cs_equiv (wire_input dst (wire_input dst s x) y) (wire_input dst (wire_input dst s y) x).
Proof.
  unfold wire_input at 1 3. apply (foldl_swap _ (λ s, wire_input dst s x)).
  - intros z. apply ref_edge_proper.
  - intros ref s1. symmetry. apply (foldl_swap _ (ref_edge dst y.1 ref)).
    + intros z. apply ref_edge_proper.
    + intros z s2. apply ref_edge_comm.
Qed.

Section Orders.
Context (O1 O2 : RangeOrder).
Implicit Types (wf : AgentWorkflow) (s : cstate).

Lemma wire_task_order wf t s s' : cs_equiv s s' →
  cs_equiv (@wire_task O1 wf s t) (@wire_task O2 wf s' t).
Proof.
  intros He. unfold wire_task. rewrite (ce_start _ _ He).
  set (task := default _ _). set (dst := if bool_decide _ then _ else _).
  apply foldl_proper; [intros z; apply ref_edge_proper|].
  fold (wire_input dst). etrans; [apply foldl_proper; [apply wire_input_proper|exact He]|].
  apply foldl_perm; [apply wire_input_proper|apply wire_input_comm|].
  by rewrite !range_map_perm.
Qed.

Lemma wire_order wf ts : ∀ s s', cs_equiv s s' →
  cs_equiv (@wireTaskReferenceEdges O1 wf ts s) (@wireTaskReferenceEdges O2 wf ts s').
Proof.
  unfold wireTaskReferenceEdges. induction ts as [|t ts IH]; intros s s' He; [done|].
  apply IH. by apply wire_task_order.
Qed.
End Orders.

Lemma conditional_dep_proper t dst c dep :
  Proper (cs_equiv ==> cs_equiv) (λ s, conditional_dep t dst c s dep).
Proof.
  intros s s' He. unfold conditional_dep. rewrite (ce_out _ _ He), (ce_nodes _ _ He).
  destruct (cs_out s' !! dep); [|done]. do 2 apply push_edge_proper.
  case_match; [done|]. by apply push_node_proper.
Qed.

Lemma direct_dep_proper dst dep : Proper (cs_equiv ==> cs_equiv) (λ s, direct_dep dst s dep).
Proof.
  intros s s' He. unfold direct_dep. rewrite (ce_out _ _ He).
  destruct (cs_out s' !! dep); [by apply push_edge_proper|done].
Qed.

Lemma custom_task_proper tasks t : Proper (cs_equiv ==> cs_equiv) (λ s, custom_task tasks s t).
Proof.
  intros s s' He. unfold custom_task. rewrite (ce_out _ _ He), (ce_start _ _ He).
  destruct (cs_out s' !! t); [|done].
  case_match; (apply foldl_proper; [|done]); intros x; [apply conditional_dep_proper|apply direct_dep_proper].
Qed.

(** Results of a strategy, up to the order of the edges. *)
Definition result_equiv (r r' : cstate + error) : Prop :=
  match r, r' with
  | inl s, inl s' => cs_equiv s s'
  | inr e, inr e' => e = e'
  | _, _ => False
  end.

Lemma chain_tasks_proper order : ∀ s s', cs_equiv s s' →
  result_equiv (chain_tasks order s) (chain_tasks order s').
Proof.
  induction order as [|a order IH]; intros s s' He; [done|]. destruct order as [|b order]; [done|].
  cbn [chain_tasks]. rewrite (ce_out _ _ He), (ce_start _ _ He).
  destruct (cs_out s' !! a); [|done]. destruct (cs_start s' !! b); [|done].
  apply IH. by apply push_edge_proper.
Qed.

Lemma strategy_proper wf s s' : cs_equiv s s' →
  result_equiv (compileExecutionStrategy wf s) (compileExecutionStrategy wf s').
Proof.
  intros He. unfold compileExecutionStrategy. case_bool_decide; [|case_bool_decide; [|case_bool_decide; [|case_bool_decide; [|done]]]].
  - unfold compileSequential. destruct (ec_TaskOrder _) as [|a order] eqn:Eo; [done|]. rewrite <- Eo.
    apply chain_tasks_proper. rewrite (ce_start _ _ He). by apply set_entry_proper.
  - unfold compileParallel. simpl. apply foldl_proper; [|by apply push_node_proper].
    intros t s1 s2 He'. rewrite (ce_out _ _ He'). by apply push_edge_proper.
  - unfold compileHierarchical. case_bool_decide; [done|]. destruct (wf_Agents wf !! _); [|done].
    simpl. apply foldl_proper; [|by apply set_entry_proper, push_node_proper].
    intros t s1 s2 He'. rewrite (ce_out _ _ He'), (ce_start _ _ He').
    by do 2 apply push_edge_proper.
  - unfold compileCustom. destruct (ec_Tasks _) as [tasks|]; [|done]. simpl.
    assert (cs_equiv (foldl (custom_task tasks) s (sortedKeys tasks))
      (foldl (custom_task tasks) s' (sortedKeys tasks))) as Hc
      by (apply foldl_proper; [apply custom_task_proper|done]).
    destruct (first_root _ _); [|done]. rewrite (ce_start _ _ Hc). by apply set_entry_proper.
Qed.

(** Compilation is deterministic: whatever the orders in which Go ranges over
    the maps of the workflow, the same workflow at the same time gives the same
    definition, or the same error. *)
Theorem Compile_deterministic (O1 O2 : RangeOrder) (reg : Registry) (compiled_at : string)
    (wf : option AgentWorkflow) :
  @Compile O1 reg compiled_at wf = @Compile O2 reg compiled_at wf.
Proof.
  destruct wf as [wf|]; [|done]. simpl.
  destruct (compileTaskNodes reg wf (sortedKeys (wf_Tasks wf)) _) as [s|err]; [|done].
  pose proof (strategy_proper wf _ _ (wire_order O1 O2 wf (sortedKeys (wf_Tasks wf)) s s
    (reflexivity s))) as Hr.
  destruct (compileExecutionStrategy wf (@wireTaskReferenceEdges O1 wf _ s)) as [s1|e1],
    (compileExecutionStrategy wf (@wireTaskReferenceEdges O2 wf _ s)) as [s2|e2]; simpl in Hr; try done.
  - destruct Hr as [-> He -> _ _]. by rewrite (sortEdges_perm _ _ He).
  - by rewrite Hr.
Qed.

(** ** The compiled definition *)

Section Correct.
Context `{RangeOrder} (reg : Registry) (exprValidator : option (string → option error)).
Context (no_conditional_tool : tool_mode reg "conditional" ≠ "standalone").
Implicit Types (wf : AgentWorkflow).

Lemma workflow_staffed wf : workflow_ok reg exprValidator wf → staffed reg wf.
Proof.
  intros Hok t [task Ht]. unfold task_chain. rewrite Ht.
  destruct (to_agent _ _ (wo_tasks _ _ _ Hok t task Ht)) as [_ [ag Hag]]. rewrite Hag.
  apply chain_nonempty.
Qed.

Lemma workflow_ordered wf : workflow_ok reg exprValidator wf → ordered wf.
Proof. intros Hok Hs t. by apply (wo_sequential _ _ _ Hok Hs). Qed.

(** The manager of a hierarchical workflow is an agent; validation does not check
    it. *)
Definition managed wf : Prop :=
  strategy wf = "hierarchical" →
  ec_ManagerAgent (wf_Execution wf) ≠ EmptyString ∧
  is_Some (wf_Agents wf !! ec_ManagerAgent (wf_Execution wf)).

(** A definition with the header the compiler writes. *)
Definition definition_of wf (compiled_at : string) (s : cstate) : GraphDefinition :=
  mkGraphDef (wf_ID wf) (wf_Version wf) CurrentGraphSchemaVersion "graph"
    (compiled_metadata wf compiled_at) (cs_nodes s) (sortEdges (cs_edges s)) (cs_entry s).

Lemma Compile_shape wf compiled_at :
  workflow_ok reg exprValidator wf → managed wf →
  ∃ s s', Compile reg compiled_at (Some wf) = inl (definition_of wf compiled_at s') ∧
    prepared reg wf s ∧ compiled reg wf s s'.
Proof.
  intros Hok Hm. pose proof (workflow_staffed wf Hok) as Hst.
  destruct (prepare reg no_conditional_tool wf Hst) as (s1 & Hs1 & Hp).
  set (s := wireTaskReferenceEdges wf (sortedKeys (wf_Tasks wf)) s1) in *.
  assert (∃ s', compileExecutionStrategy wf s = inl s' ∧ compiled reg wf s s') as (s' & Hs' & Hc).
  { unfold compileExecutionStrategy. pose proof (wo_strategy _ _ _ Hok) as Hv.
    unfold validStrategies in Hv. rewrite !elem_of_cons, elem_of_nil in Hv.
    case_bool_decide; [by apply sequential_spec, (wo_sequential _ _ _ Hok)|].
    case_bool_decide; [by apply parallel_spec|].
    case_bool_decide as Hh; [destruct (Hm Hh); by apply hierarchical_spec|].
    case_bool_decide; [by apply custom_spec|]. naive_solver. }
  exists s, s'. split_and!; [|done..]. simpl. rewrite Hs1. fold s. by rewrite Hs'.
Qed.

Lemma def_edge_wired wf compiled_at s s' u v : compiled reg wf s s' →
  def_edge (definition_of wf compiled_at s') u v ↔ wired reg wf u v.
Proof.
  intros Hc. rewrite <- (cp_edges _ _ _ _ Hc), elem_of_pairs. unfold def_edge. simpl.
  by setoid_rewrite sortEdges_Permutation.
Qed.

Lemma tc_iff {A} (R R' : relation A) x y : (∀ u v, R u v ↔ R' u v) → tc R x y ↔ tc R' x y.
Proof. intros HR. split; apply tc_mono; intros u v; apply HR. Qed.

(** Every edge joins two nodes of the definition. *)
Lemma wired_ids wf s s' u v :
  workflow_ok reg exprValidator wf → managed wf → prepared reg wf s → compiled reg wf s s' →
  wired reg wf u v → u ∈ map nd_ID (cs_nodes s') ∧ v ∈ map nd_ID (cs_nodes s').
Proof.
  intros Hok Hm Hp Hc Hw. pose proof (workflow_staffed wf Hok) as Hst.
  assert (∀ t, is_task wf t → start_of reg wf t ∈ map nd_ID (cs_nodes s') ∧
    out_of reg wf t ∈ map nd_ID (cs_nodes s')) as Hends.
  { intros t Ht. destruct (start_in_ids reg wf s t Hst Hp Ht).
    split; (eapply map_kept; [apply (cp_kept _ _ _ _ Hc)|done]). }
  assert (∀ n, extra_node reg wf n → nd_ID n ∈ map nd_ID (cs_nodes s')) as Hx by apply Hc.
  assert (∀ a b deps, strategy wf = "custom" → exec_dep wf a b deps → td_Condition deps ≠ EmptyString →
    condition_id a b ∈ map nd_ID (cs_nodes s')) as Hcond.
  { intros a b deps Hs Hd Hne.
    apply (Hx (condition_node (out_map reg wf) a b (start_of reg wf b) (td_Condition deps))).
    right. right. exists a, b. split; [done|]. eauto. }
  destruct Hw as [t u v Ht Hl|a b Hr Ha|a b Hs Hab|t Hs Ht|t Hs Ht|t Hs Ht|a b deps Hs Hd Hne
                 |a b deps Hs Hd Hne|a b deps Hs Hd Hne].
  - apply elem_of_links in Hl as (i & Hi & Hj).
    assert (∀ k x, task_chain reg wf t !! k = Some x → x ∈ map nd_ID (cs_nodes s')) as Hin.
    { intros k x Hk. eapply map_kept; [apply (cp_kept _ _ _ _ Hc)|]. rewrite (pr_ids _ _ _ Hp).
      apply elem_of_chain_ids. exists t. by eapply list_elem_of_lookup_2. }
    eauto.
  - split; apply Hends; [done|by eapply refers_task].
  - destruct (order_tasks wf a b (workflow_ordered wf Hok) Hs Hab). split; by apply Hends.
  - split; [by apply Hends|]. apply (Hx (mkNodeDef (merge_id wf) "merge" ∅)). by left.
  - split; [|by apply Hends]. apply (Hx (mkNodeDef (manager_id wf) "llm_router" ∅)). right. by left.
  - split; [by apply Hends|]. apply (Hx (mkNodeDef (manager_id wf) "llm_router" ∅)). right. by left.
  - pose proof Hd as (tasks & _ & _ & _ & Ha & Hb). split; by apply Hends.
  - pose proof Hd as (tasks & _ & _ & _ & Ha & Hb). split; [by apply Hends|by eapply Hcond].
  - pose proof Hd as (tasks & _ & _ & _ & Ha & Hb). split; [by eapply Hcond|by apply Hends].
Qed.

(** ** Conditional nodes *)

Lemma reserved_names t r : t ⋅⋅ r ≠ "error" ∧ t ⋅⋅ r ≠ "_metadata".
Proof.
  split; intros Hx;
    repeat (destruct t as [|? t]; [discriminate Hx|]; rewrite append_cons in Hx;
            injection Hx as ? Hx); exact (joined_nonempty _ _ Hx).
Qed.

Lemma start_of_prefix wf t : staffed reg wf → is_task wf t → ∃ r, start_of reg wf t = t ⋅⋅ r.
Proof.
  intros Hst Ht. destruct (chain_ends reg wf t (Hst t Ht)) as (Hh & _).
  assert (start_of reg wf t ∈ task_chain reg wf t) as Hin.
  { destruct (task_chain reg wf t); [done|]. simpl in Hh. injection Hh as ->. left. }
  unfold task_chain in Hin. destruct (wf_Tasks wf !! t); [|inversion Hin].
  destruct (wf_Agents wf !! _); [|inversion Hin]. by eapply chain_prefix.
Qed.

(** Rewriting never empties a condition. *)
Lemma rewrite_nonempty expr outs : expr ≠ EmptyString → rewriteConditionExpr expr outs ≠ EmptyString.
Proof.
  destruct expr as [|c t]; [done|]. intros _. unfold rewriteConditionExpr. cbn [replace_all].
  destruct (match_items condExprPattern (String c t)) as [[caps rest]|]; [|done].
  destruct caps as [|x [|y [|z caps]]]; try done.
  destruct (outs !! x); [|done]. intros Hx. apply append_nil_inv in Hx as [Hx _].
  apply append_nil_inv in Hx as [_ Hx]. by apply append_nil_inv in Hx as [? _].
Qed.

(** The registered validator accepts the expression, if there is one. *)
Definition accepted (expr : string) : Prop :=
  match exprValidator with Some validate => validate expr = None | None => True end.

Lemma condition_node_check wf outs outEdges i a b condition :
  staffed reg wf → is_task wf b → condition ≠ EmptyString →
  HasErrors (check_conditional exprValidator outEdges i
    (condition_node outs a b (start_of reg wf b) condition)) = false ↔
  accepted (rewriteConditionExpr condition outs).
Proof.
  intros Hst Hb Hne. unfold check_conditional. simpl.
  rewrite lookup_insert_ne, lookup_insert_ne, lookup_insert_ne, lookup_singleton_eq by done.
  unfold range_diags. simpl. rewrite app_nil_r.
  rewrite app_nil_r.
  unfold check_condition. simpl. rewrite lookup_insert_eq.
  rewrite lookup_insert_ne, lookup_singleton_eq by done. simpl.
  destruct (start_of_prefix wf b Hst Hb) as [r Hr].
  destruct (reserved_names b r) as [H1 H2]. rewrite <- Hr in H1, H2.
  rewrite (bool_decide_false (start_of reg wf b = "error")) by done.
  rewrite (bool_decide_false (start_of reg wf b = "_metadata")) by done. simpl.
  rewrite HasErrors_app. unfold accepted. destruct exprValidator as [validate|].
  - rewrite bool_decide_false by (by apply rewrite_nonempty).
    destruct (validate _); simpl; [done|]. split; [done|]. intros _.
    case_bool_decide; [done|]. by case_bool_decide.
  - simpl. split; [done|]. intros _. case_bool_decide; [done|]. by case_bool_decide.
Qed.

(** Every rewritten condition is accepted. *)
Definition conditions_accepted wf : Prop :=
  ∀ a b deps, strategy wf = "custom" → exec_dep wf a b deps → td_Condition deps ≠ EmptyString →
    accepted (rewriteConditionExpr (td_Condition deps) (out_map reg wf)).

Lemma exec_dep_functional wf a a' b deps deps' :
  exec_dep wf a b deps → exec_dep wf a' b deps' → deps = deps'.
Proof. intros (ts & E & Hb & _) (ts' & E' & Hb' & _). congruence. Qed.

Lemma cond_def_place wf a b n : cond_def reg wf a b n → at_place reg wf (nd_ID n) (PCond a b).
Proof.
  intros (Hs & deps & Hd & Hne & ->). refine (conj Hs (conj _ eq_refl)).
  change ((a, b) ∈ cond_pairs wf). apply (elem_of_cond_pairs reg no_conditional_tool wf a b). eauto.
Qed.

Lemma unambiguous_extra wf n : strategy wf ≠ "hierarchical" → unambiguous reg wf →
  extra_node reg wf n → nd_ID n ∉ chain_ids reg wf.
Proof.
  intros Hh (_ & Hdis & _)%NoDup_app Hx Hin. apply (Hdis _ Hin).
  destruct Hx as [(Hs & Hid & _)|[[? _]|(a & b & Hn)]]; [|done|].
  - apply (extra_place reg wf _ PMerge); [|done]. by split.
  - apply (extra_place reg wf _ (PCond a b)); [|done]. by apply cond_def_place.
Qed.

(** The conditional nodes of the definition pass exactly when their rewritten
    conditions are accepted. *)
Lemma conditionals_ok wf compiled_at s s' :
  staffed reg wf → unambiguous reg wf → strategy wf ≠ "hierarchical" →
  prepared reg wf s → compiled reg wf s s' →
  HasErrors (validateConditionalNodes exprValidator (definition_of wf compiled_at s')) = false ↔
  conditions_accepted wf.
Proof.
  intros Hst Hu Hh Hp Hc. unfold validateConditionalNodes. rewrite range_diags_HasErrors. simpl. split.
  - intros Hall a b deps Hs Hd Hne.
    set (n := condition_node (out_map reg wf) a b (start_of reg wf b) (td_Condition deps)).
    assert (cond_def reg wf a b n) as Hn by (split; [done|]; eauto).
    assert (nd_ID n ∈ map nd_ID (cs_nodes s')) as Hin
      by (apply (cp_extra _ _ _ _ Hc); right; right; eauto).
    apply list_elem_of_In, in_map_iff in Hin as (n' & Hid & Hin'). apply list_elem_of_In in Hin'.
    assert (n' = n) as ->.
    { destruct (cp_nodes _ _ _ _ Hc n' Hin') as [Hs'|Hx].
      - exfalso. apply (unambiguous_extra wf n Hh Hu); [right; right; eauto|].
        rewrite <- Hid, <- (pr_ids _ _ _ Hp). apply list_elem_of_In, in_map, list_elem_of_In, Hs'.
      - destruct Hx as [[? _]|[[? _]|(a' & b' & Hn')]]; [congruence..|].
        pose proof (cond_def_place wf a b n Hn) as Hp1. pose proof (cond_def_place wf a' b' n' Hn') as Hp2.
        rewrite Hid in Hp2. pose proof (place_unique reg wf _ _ _ Hu Hp1 Hp2) as [= <- <-].
        destruct Hn' as (_ & deps' & Hd' & _ & ->). by rewrite (exec_dep_functional wf a a b deps' deps). }
    apply list_elem_of_lookup in Hin' as [i Hi]. apply Hall in Hi.
    pose proof Hd as (tasks & _ & _ & _ & _ & Hb). by apply condition_node_check in Hi.
  - intros Hall i n Hi. apply list_elem_of_lookup_2, (cp_nodes _ _ _ _ Hc) in Hi as [Hn|Hn].
    + pose proof (pr_types _ _ _ Hp) as Hty. rewrite Forall_forall in Hty. apply Hty in Hn.
      unfold check_conditional. by rewrite bool_decide_false.
    + destruct Hn as [(_ & _ & Ht)|[[? _]|(a & b & Hs & deps & Hd & Hne & ->)]]; [|done|].
      * unfold check_conditional. by rewrite Ht.
      * pose proof Hd as (tasks & _ & _ & _ & _ & Hb). apply condition_node_check; eauto.
Qed.

Lemma compiled_header wf compiled_at s :
  HasErrors (GraphDef.validateSchemaHeader (definition_of wf compiled_at s)) = false.
Proof. reflexivity. Qed.
End Correct.

(** C17: a workflow that validation accepts, with unambiguous node IDs and any
    strategy but the hierarchical one, compiles. The edges of the compiled graph
    are exactly those the workflow implies, and the graph passes the validation of
    graph definitions exactly when the dependencies between its tasks (references,
    task order, execution block) are acyclic and the rewritten conditions are
    accepted by the expression validator. *)
Theorem Compile_correct `{RangeOrder} (reg : Registry)
    (exprValidator : option (string → option error)) (compiled_at : string) (wf : AgentWorkflow) :
  tool_mode reg "conditional" ≠ "standalone" →
  workflow_ok reg exprValidator wf →
  unambiguous reg wf →
  strategy wf ≠ "hierarchical" →
  ∃ gd, Compile reg compiled_at (Some wf) = inl gd ∧
    (∀ u v, def_edge gd u v ↔ wired reg wf u v) ∧
    (HasErrors (GraphDef.Validate exprValidator gd) = false ↔
      (∀ t, ¬ tc (task_dep wf) t t) ∧ conditions_accepted reg exprValidator wf).
Proof.
  intros Hnc Hok Hu Hh. assert (managed wf) as Hm by (by intros ?).
  destruct (Compile_shape reg exprValidator Hnc wf compiled_at Hok Hm) as (s & s' & Hgd & Hp & Hc).
  pose proof (workflow_staffed reg _ wf Hok) as Hst. pose proof (workflow_ordered reg _ wf Hok) as Ho.
  exists (definition_of wf compiled_at s'). split; [done|].
  assert (∀ u v, def_edge (definition_of wf compiled_at s') u v ↔ wired reg wf u v) as Hed
    by (intros u v; by eapply def_edge_wired).
  split; [done|]. rewrite no_errors_def_ok, <- (wired_acyclic reg Hnc wf Hst Ho Hh Hu).
  rewrite <- (conditionals_ok reg exprValidator Hnc wf compiled_at s s' Hst Hu Hh Hp Hc). split.
  - intros [_ _ _ _ Hac Hcn]. split; [|done]. intros x Hx. apply (Hac x). revert Hx.
    apply tc_mono. intros u v. apply Hed.
  - intros [Hac Hcn]. split; [apply compiled_header| | | | |done].
    + unfold node_ids. simpl. apply (cp_nodup _ _ _ _ Hc).
      * by apply NoDup_app in Hu as (? & _ & _).
      * intros n. by apply unambiguous_extra.
    + intros u v Huv. apply Hed in Huv.
      exact (wired_ids reg exprValidator wf s s' u v Hok Hm Hp Hc Huv).
    + apply (cp_entry _ _ _ _ Hc).
    + intros x Hx. apply (Hac x). revert Hx. apply tc_mono. intros u v. apply Hed.
Qed.

(** A hierarchical workflow that validation accepts never becomes a valid
    graph if it has a task: when its manager agent is missing or undefined, which
    validation does not check, compilation fails, and otherwise the edges from the
    manager to a task and back form a cycle, which the validation of the compiled
    graph rejects. *)
Theorem hierarchical_rejected `{RangeOrder} (reg : Registry)
    (exprValidator : option (string → option error)) (compiled_at : string) (wf : AgentWorkflow) :
  tool_mode reg "conditional" ≠ "standalone" →
  workflow_ok reg exprValidator wf →
  strategy wf = "hierarchical" →
  wf_Tasks wf ≠ ∅ →
  match Compile reg compiled_at (Some wf) with
  | inr _ => ¬ managed wf
  | inl gd => managed wf ∧ HasErrors (GraphDef.Validate exprValidator gd) = true
  end.
Proof.
  intros Hnc Hok Hs Hne. apply map_choose in Hne as (t & task & Ht).
  assert (is_task wf t) as Htask by (by exists task).
  destruct (decide (ec_ManagerAgent (wf_Execution wf) ≠ EmptyString ∧
    is_Some (wf_Agents wf !! ec_ManagerAgent (wf_Execution wf)))) as [Hm|Hm].
  - destruct (Compile_shape reg exprValidator Hnc wf compiled_at Hok (λ _, Hm))
      as (s & s' & -> & Hp & Hc). split; [exact (λ _, Hm)|].
    apply not_false_iff_true. intros Hv. apply no_errors_def_ok in Hv.
    apply (ok_acyclic _ _ Hv (manager_id wf)).
    eapply (tc_mono (wired reg wf)); [intros u v; by eapply def_edge_wired|].
    eapply tc_l; [by apply w_dispatch|]. eapply tc_rtc_l; [|by apply tc_once, w_report].
    pose proof (workflow_staffed reg _ wf Hok t Htask) as Hch.
    destruct (chain_ends reg wf t Hch) as (Hh & Hl & _).
    eapply links_rtc; [|exact Hh|exact Hl]. intros u v. by apply w_chain.
  - assert (¬ managed wf) as Hnm by (intros Hx; by apply Hm, Hx).
    pose proof (workflow_staffed reg _ wf Hok) as Hst.
    destruct (prepare reg Hnc wf Hst) as (s1 & Hs1 & Hp). simpl. rewrite Hs1.
    unfold compileExecutionStrategy. rewrite Hs. simpl. unfold compileHierarchical.
    case_bool_decide as He; [done|].
    destruct (wf_Agents wf !! _) as [ag|] eqn:Ea; [|done]. destruct Hm. split; [done|]. eauto.
Qed.

(** ** Samples *)

Section Sample.
#[local] Existing Instance key_order.

(** Task [c] waits for [a] and [b] and runs on a condition; [b] is reviewed. *)
Definition custom_wf : AgentWorkflow := sample_wf (custom_exec chain_deps).

Definition managed_wf : AgentWorkflow := sample_wf (mkExec "hierarchical" [] "w" "" None).

Lemma custom_wf_ok : workflow_ok newRegistry None custom_wf.
Proof.
  refine (proj1 (Validate_nil_iff newRegistry None custom_wf [] _ _) eq_refl); [|vm_compute; reflexivity].
  intros tasks b [= <-] Hb. apply elem_of_dom in Hb. apply elem_of_dom.
  assert (dom chain_deps ⊆ dom (wf_Tasks custom_wf)) as Hsub
    by (apply (bool_decide_unpack _); vm_compute; exact I).
  apply Hsub, Hb.
Qed.

Lemma managed_wf_ok : workflow_ok newRegistry None managed_wf.
Proof.
  refine (proj1 (Validate_nil_iff newRegistry None managed_wf [] _ _) eq_refl); [|vm_compute; reflexivity].
  by intros tasks b [= <-].
Qed.

Lemma Compile_correct_witness :
  ∃ gd, Compile newRegistry "now" (Some custom_wf) = inl gd ∧
    (∀ u v, def_edge gd u v ↔ wired newRegistry custom_wf u v) ∧
    (HasErrors (GraphDef.Validate None gd) = false ↔
      (∀ t, ¬ tc (task_dep custom_wf) t t) ∧ conditions_accepted newRegistry None custom_wf).
Proof.
  apply Compile_correct; [vm_compute; discriminate|apply custom_wf_ok| |vm_compute; discriminate].
  apply (bool_decide_unpack _). vm_compute. exact I.
Defined.

Lemma hierarchical_rejected_witness :
  match Compile newRegistry "now" (Some managed_wf) with
  | inr _ => ¬ managed managed_wf
  | inl gd => managed managed_wf ∧ HasErrors (GraphDef.Validate None gd) = true
  end.
Proof.
  apply hierarchical_rejected; [vm_compute; discriminate|apply managed_wf_ok|reflexivity|].
  intros Hx. apply (f_equal (lookup "a")) in Hx. vm_compute in Hx. discriminate.
Defined.

(** The nodes and edges of a compiled graph, and the codes of its diagnostics. *)
Definition outline (r : GraphDefinition + error)
  : option (list string * list (string * string) * list string) :=
  match r with
  | inl gd => Some (map nd_ID (gd_Nodes gd), map (λ e, (ed_Source e, ed_Target e)) (gd_Edges gd),
                    map d_Code (GraphDef.Validate None gd))
  | inr _ => None
  end.

(** The reviewed task [b] feeds [c] through the human node, and each condition
    stands between the dependency and [c]. *)
Example custom_wf_outline :
  outline (Compile newRegistry "now" (Some custom_wf)) =
  Some (["a__w"; "b__w"; "b__w__hitl"; "c__w"; "a__cond__c"; "b__cond__c"],
    [("a__cond__c", "c__w"); ("a__w", "a__cond__c"); ("a__w", "b__w"); ("a__w", "b__w");
     ("b__cond__c", "c__w"); ("b__w", "b__w__hitl"); ("b__w__hitl", "b__cond__c")], []).
Proof. vm_compute. reflexivity. Qed.

Definition described (text agent : string) : Task := mkTask text agent "text" "" ∅ "" [].

(** Two agents, tasks [a] and [b] in the sequence [b], [a]; the description of [a]
    refers to [b], which comes later in the order of names. *)
Definition backward_wf : AgentWorkflow :=
  mkWorkflow "1" "1.0.0" "agent_workflow" "wf" "sample" {[ "w" := sample_agent ]}
    (<["a" := described "Use {{tasks.b.output}}" "w"]> {[ "b" := described "Do" "w" ]})
    (mkExec "sequential" ["b"; "a"] "" "" None).

Definition prompt_of (r : GraphDefinition + error) (id : string) : option value :=
  match r with
  | inl gd => n ← list_find (λ n, nd_ID n = id) (gd_Nodes gd); nd_Config n.2 !! "prompt_template"
  | inr _ => None
  end.

(** The reference stays as it was written: when the prompt of [a] is built, the
    node of [b] is not known yet. *)
Example later_reference_kept :
  Validate newRegistry None (Some backward_wf) = Some [] ∧
  outline (Compile newRegistry "now" (Some backward_wf)) =
    Some (["a__w"; "b__w"], [("b__w", "a__w")], []) ∧
  prompt_of (Compile newRegistry "now" (Some backward_wf)) "a__w" =
    Some (VString "Use {{tasks.b.output}}").
Proof. vm_compute. by split_and!. Qed.

(** Names that contain the separator collide: both tasks get the node ID
    [a__b__c], and the compiled graph is rejected. *)
Definition colliding_wf : AgentWorkflow :=
  mkWorkflow "1" "1.0.0" "agent_workflow" "wf" "sample"
    (<["b__c" := sample_agent]> {[ "c" := sample_agent ]})
    (<["a" := described "Do" "b__c"]> {[ "a__b" := described "Do" "c" ]})
    (mkExec "parallel" [] "" "" None).

Example separator_collision :
  Validate newRegistry None (Some colliding_wf) = Some [] ∧
  outline (Compile newRegistry "now" (Some colliding_wf)) =
    Some (["a__b__c"; "a__b__c"; "wf__merge"],
      [("a__b__c", "wf__merge"); ("a__b__c", "wf__merge")], ["GR-005"]).
Proof. vm_compute. by split. Qed.
End Sample.
