(* ===== verification/Builder.v ===== *)
(** * The fluent graph builder (graph/builder.go)

    [GraphBuilder] accumulates a graph, the IDs of the current nodes and the
    errors met so far. One definition per method, over the operations of
    [BasicGraph]. A node is a reference: the only mutable part the builder
    touches, the expected input count of a merge node, lives in a store that
    [Merge] threads (class [MergeCapable]). *)

From stdpp Require Import gmap strings list relations.
From Stdlib Require Import ZArith Lia.
From S2P Require Import Prelude Values Kahn Graph.

(** [core.MergeCapable]: the mutable input count of a merge node. *)
Class MergeCapable (N Store : Type) := {
  ExpectedInputs : N → Store → Z;
  SetExpectedInputs : N → Z → Store → Store;
  expected_set : ∀ n k s, ExpectedInputs n (SetExpectedInputs n k s) = k
}.

Definition NodeKindMerge : string := "merge".

Record GraphBuilder (N : Type) := mkBuilder {
  b_graph : BasicGraph N;
  b_current : list string;
  b_errors : list error;
  b_entryDefined : bool
}.
Arguments mkBuilder {N}.
Arguments b_graph {N}.
Arguments b_current {N}.
Arguments b_errors {N}.
Arguments b_entryDefined {N}.

(** A branch of [FanOutBranches]; a nil node is [None]. *)
Record FanOutBranch (N : Type) := mkBranch { br_Entry : option N; br_Nodes : list (option N) }.
Arguments mkBranch {N}.
Arguments br_Entry {N}.
Arguments br_Nodes {N}.

Section Builder.
Context {N Store : Type} `{NodeIface N} `{MergeCapable N Store}.
Notation GB := (GraphBuilder N).

Definition NewGraphBuilder (name : string) : GB := mkBuilder (NewGraph name) [] [] false.

(** [b.errors = append(b.errors, err)]. *)
Definition add_error (err : error) (b : GB) : GB :=
  mkBuilder (b_graph b) (b_current b) (b_errors b ++ [err]) (b_entryDefined b).

Definition set_graph (g : BasicGraph N) (b : GB) : GB :=
  mkBuilder g (b_current b) (b_errors b) (b_entryDefined b).

Definition set_current (ids : list string) (b : GB) : GB :=
  mkBuilder (b_graph b) ids (b_errors b) (b_entryDefined b).

Definition define_entry (b : GB) : GB :=
  mkBuilder (b_graph b) (b_current b) (b_errors b) true.

(** [if err := b.graph.AddNode(node); err != nil { append; ... }]: whether the
    node was added. *)
Definition try_add (n : N) (b : GB) : GB * bool :=
  match AddNode (Some n) (b_graph b) with
  | (_, Some err) => (add_error err b, false)
  | (g, None) => (set_graph g b, true)
  end.

(** [if err := b.graph.AddEdge(from, to); err != nil { append }]. *)
Definition Connect (from to : string) (b : GB) : GB :=
  match AddEdge from to (b_graph b) with
  | (_, Some err) => add_error err b
  | (g, None) => set_graph g b
  end.

(** [for _, from := range froms { ... AddEdge(from, to) ... }]. *)
Definition connect_all (froms : list string) (to : string) (b : GB) : GB :=
  foldl (λ b' from, Connect from to b') b froms.

Definition nil_node : error := EFmt [PS "cannot add nil node"].
Definition node_not_found (id : string) : error := EFmt [PS "node "; PQ id; PS " not found"].

Definition b_AddNode (node : option N) (b : GB) : GB :=
  match node with
  | None => add_error nil_node b
  | Some n =>
      match try_add n b with
      | (b1, false) => b1
      | (b1, true) =>
          let b2 := if b_entryDefined b1 then b1
                    else define_entry (set_graph (SetEntry (node_ID n) (b_graph b1)).1 b1) in
          set_current [node_ID n] b2
      end
  end.

Definition b_Entry (nodeID : string) (b : GB) : GB :=
  match SetEntry nodeID (b_graph b) with
  | (_, Some err) => add_error err b
  | (g, None) => define_entry (set_graph g b)
  end.

Definition b_Edge (node : option N) (b : GB) : GB :=
  match node with
  | None => add_error nil_node b
  | Some n =>
      match try_add n b with
      | (b1, false) => b1
      | (b1, true) => set_current [node_ID n] (connect_all (b_current b1) (node_ID n) b1)
      end
  end.

Definition EdgeTo (nodeID : string) (b : GB) : GB :=
  match g_nodes (b_graph b) !! nodeID with
  | None => add_error (node_not_found nodeID) b
  | Some _ => set_current [nodeID] (connect_all (b_current b) nodeID b)
  end.

(** The loop of [FanOut]; [cur] is [b.current], unchanged while it runs. *)
Fixpoint fan_out (cur : list string) (nodes : list (option N)) (newCurrent : list string) (b : GB)
    : GB :=
  match nodes with
  | [] => set_current newCurrent b
  | None :: rest =>
      fan_out cur rest newCurrent (add_error (EFmt [PS "cannot add nil node in FanOut"]) b)
  | Some n :: rest =>
      match try_add n b with
      | (b1, false) => fan_out cur rest newCurrent b1
      | (b1, true) =>
          fan_out cur rest (newCurrent ++ [node_ID n]) (connect_all cur (node_ID n) b1)
      end
  end.

Definition FanOut (nodes : list (option N)) (b : GB) : GB :=
  if bool_decide (nodes = []) then add_error (EFmt [PS "FanOut requires at least one node"]) b
  else if bool_decide (b_current b = []) then
    add_error (EFmt [PS "FanOut requires a current node"]) b
  else fan_out (b_current b) nodes [] b.

Fixpoint fan_out_to (cur ids newCurrent : list string) (b : GB) : GB :=
  match ids with
  | [] => set_current newCurrent b
  | id :: rest =>
      match g_nodes (b_graph b) !! id with
      | None => fan_out_to cur rest newCurrent (add_error (node_not_found id) b)
      | Some _ => fan_out_to cur rest (newCurrent ++ [id]) (connect_all cur id b)
      end
  end.

Definition FanOutTo (nodeIDs : list string) (b : GB) : GB :=
  if bool_decide (nodeIDs = []) then
    add_error (EFmt [PS "FanOutTo requires at least one node ID"]) b
  else if bool_decide (b_current b = []) then
    add_error (EFmt [PS "FanOutTo requires a current node"]) b
  else fan_out_to (b_current b) nodeIDs [] b.

Definition Merge (mergeNode : option N) (b : GB) (s : Store) : GB * Store :=
  match mergeNode with
  | None => (add_error (EFmt [PS "cannot merge with nil node"]) b, s)
  | Some n =>
      let s1 := if bool_decide (ExpectedInputs n s = 0%Z)
                then SetExpectedInputs n (Z.of_nat (length (b_current b))) s else s in
      match try_add n b with
      | (b1, false) => (b1, s1)
      | (b1, true) => (set_current [node_ID n] (connect_all (b_current b1) (node_ID n) b1), s1)
      end
  end.

Definition MergeTo (nodeID : string) (b : GB) : GB :=
  match g_nodes (b_graph b) !! nodeID with
  | None => add_error (EFmt [PS "merge node "; PQ nodeID; PS " not found"]) b
  | Some n =>
      if bool_decide (node_Kind n ≠ NodeKindMerge) then
        add_error (EFmt [PS "node "; PQ nodeID; PS " is not a merge node (kind: ";
                         PS (node_Kind n); PS ")"]) b
      else set_current [nodeID] (connect_all (b_current b) nodeID b)
  end.

Definition Branch (nodeID : string) (b : GB) : GB :=
  match g_nodes (b_graph b) !! nodeID with
  | None => add_error (node_not_found nodeID) b
  | Some _ => set_current [nodeID] b
  end.

Fixpoint branches (ids newCurrent : list string) (b : GB) : GB :=
  match ids with
  | [] => set_current newCurrent b
  | id :: rest =>
      match g_nodes (b_graph b) !! id with
      | None => branches rest newCurrent (add_error (node_not_found id) b)
      | Some _ => branches rest (newCurrent ++ [id]) b
      end
  end.

Definition Branches (nodeIDs : list string) (b : GB) : GB := branches nodeIDs [] b.

Fixpoint WithNodes (nodes : list (option N)) (b : GB) : GB :=
  match nodes with
  | [] => b
  | None :: rest => WithNodes rest (add_error nil_node b)
  | Some n :: rest => WithNodes rest (try_add n b).1
  end.

(** [%v] on a slice of errors. *)
Definition error_list (errs : list error) : list part :=
  match errs with [] => [] | e :: rest => PE e :: flat_map (λ e', [PS " "; PE e']) rest end.

Definition Build (b : GB) : BasicGraph N + error :=
  if bool_decide (b_errors b ≠ []) then
    inr (EFmt (PS "graph builder errors: [" :: error_list (b_errors b) ++ [PS "]"]))
  else match Validate (b_graph b) with
       | Some err => inr (EFmt [PS "graph validation failed: "; PW err])
       | None => inl (b_graph b)
       end.

Definition NewPipelineBranch (nodes : list (option N)) : FanOutBranch N :=
  match nodes with [] => mkBranch None [] | n :: rest => mkBranch n rest end.

(** The inner loop of [FanOutBranches]: the builder and [lastID]. *)
Fixpoint pipeline (i : nat) (nodes : list (option N)) (lastID : string) (b : GB) : GB * string :=
  match nodes with
  | [] => (b, lastID)
  | None :: rest =>
      pipeline i rest lastID
        (add_error (EFmt [PS "nil node in branch "; PD (Z.of_nat i); PS " pipeline"]) b)
  | Some n :: rest =>
      match try_add n b with
      | (b1, false) => pipeline i rest lastID b1
      | (b1, true) => pipeline i rest (node_ID n) (Connect lastID (node_ID n) b1)
      end
  end.

Fixpoint fan_out_branches (cur : list string) (i : nat) (brs : list (FanOutBranch N))
    (newCurrent : list string) (b : GB) : GB :=
  match brs with
  | [] => set_current newCurrent b
  | br :: rest =>
      match br_Entry br with
      | None =>
          fan_out_branches cur (S i) rest newCurrent
            (add_error (EFmt [PS "branch "; PD (Z.of_nat i); PS " has nil entry node"]) b)
      | Some n =>
          match try_add n b with
          | (b1, false) => fan_out_branches cur (S i) rest newCurrent b1
          | (b1, true) =>
              let '(b2, lastID) :=
                pipeline i (br_Nodes br) (node_ID n) (connect_all cur (node_ID n) b1) in
              fan_out_branches cur (S i) rest (newCurrent ++ [lastID]) b2
          end
      end
  end.

Definition FanOutBranches (brs : list (FanOutBranch N)) (b : GB) : GB :=
  if bool_decide (length brs = 0) then
    add_error (EFmt [PS "FanOutBranches requires at least one branch"]) b
  else if bool_decide (b_current b = []) then
    add_error (EFmt [PS "FanOutBranches requires a current node"]) b
  else fan_out_branches (b_current b) 0 brs [] b.

(** The loop of [Conditional] over the targets. *)
Fixpoint cond_targets (routerID : string) (targets : list (option N)) (targetIDs : list string)
    (b : GB) : GB :=
  match targets with
  | [] => set_current targetIDs b
  | None :: rest =>
      cond_targets routerID rest targetIDs (add_error (EFmt [PS "cannot add nil target"]) b)
  | Some t :: rest =>
      match try_add t b with
      | (b1, false) => cond_targets routerID rest targetIDs b1
      | (b1, true) =>
          cond_targets routerID rest (targetIDs ++ [node_ID t]) (Connect routerID (node_ID t) b1)
      end
  end.

Definition Conditional (router : option N) (targets : list (option N)) (b : GB) : GB :=
  match router with
  | None => add_error (EFmt [PS "cannot add nil router"]) b
  | Some r =>
      match try_add r b with
      | (b1, false) => b1
      | (b1, true) =>
          cond_targets (node_ID r) targets [] (connect_all (b_current b1) (node_ID r) b1)
      end
  end.

Definition Terminal (b : GB) : GB := set_current [] b.

(** A call of a builder method. *)
Inductive builder_op :=
| OpAddNode (node : option N)
| OpEntry (id : string)
| OpEdge (node : option N)
| OpEdgeTo (id : string)
| OpConnect (from to : string)
| OpFanOut (nodes : list (option N))
| OpFanOutTo (ids : list string)
| OpMerge (node : option N)
| OpMergeTo (id : string)
| OpBranch (id : string)
| OpBranches (ids : list string)
| OpWithNodes (nodes : list (option N))
| OpFanOutBranches (brs : list (FanOutBranch N))
| OpConditional (router : option N) (targets : list (option N))
| OpTerminal.

Definition apply_op (bs : GB * Store) (op : builder_op) : GB * Store :=
  let '(b, s) := bs in
  match op with
  | OpAddNode n => (b_AddNode n b, s)
  | OpEntry id => (b_Entry id b, s)
  | OpEdge n => (b_Edge n b, s)
  | OpEdgeTo id => (EdgeTo id b, s)
  | OpConnect u v => (Connect u v b, s)
  | OpFanOut ns => (FanOut ns b, s)
  | OpFanOutTo ids => (FanOutTo ids b, s)
  | OpMerge n => Merge n b s
  | OpMergeTo id => (MergeTo id b, s)
  | OpBranch id => (Branch id b, s)
  | OpBranches ids => (Branches ids b, s)
  | OpWithNodes ns => (WithNodes ns b, s)
  | OpFanOutBranches brs => (FanOutBranches brs b, s)
  | OpConditional r ts => (Conditional r ts b, s)
  | OpTerminal => (Terminal b, s)
  end.

(** A chain of calls on a fresh builder. *)
Definition build_chain (name : string) (ops : list builder_op) (s : Store) : GB * Store :=
  foldl apply_op (NewGraphBuilder name, s) ops.

(** The methods that only add edges into nodes they have just added. *)
Definition growing (op : builder_op) : bool :=
  match op with
  | OpEdgeTo _ | OpConnect _ _ | OpFanOutTo _ | OpMergeTo _ => false
  | _ => true
  end.
End Builder.
Arguments builder_op N : clear implicits.

(** ** The invariant of a builder *)

Section Invariant.
Context {N Store : Type} `{NodeIface N} `{MergeCapable N Store}.
Implicit Types b : GraphBuilder N.

Definition ids b : list string := g_nodeOrder (b_graph b).

(** [fw]: whether every edge goes from an older node to a newer one. *)
Record b_inv (fw : bool) b : Prop := {
  bi_wf : graph_wf (b_graph b);
  bi_cur : b_current b ⊆ ids b;
  bi_fwd : fw = true → ∀ u v, graph_edge (b_graph b) u v → before (ids b) u v
}.

(** [b'] extends [b] and keeps the invariant. *)
Definition grows (fw : bool) b b' : Prop :=
  b_inv fw b' ∧ ids b ⊆ ids b' ∧ b_current b' = b_current b.

Lemma add_error_inv fw err b : b_inv fw b → grows fw b (add_error err b).
Proof. by intros []. Qed.

Lemma set_current_inv fw l b : b_inv fw b → l ⊆ ids b → b_inv fw (set_current l b).
Proof. by intros [] ?. Qed.

Lemma try_add_inv fw n b : b_inv fw b →
  grows fw b (try_add n b).1 ∧
  ((try_add n b).2 = true → ids (try_add n b).1 = ids b ++ [node_ID n] ∧ node_ID n ∉ ids b).
Proof.
  intros [Hwf Hcur Hfwd]. pose proof (AddNode_wf (Some n) _ Hwf) as Hwf'.
  unfold try_add. simpl in *.
  destruct (g_nodes (b_graph b) !! node_ID n) eqn:E; simpl in *; [done|].
  assert (node_ID n ∉ ids b) as Hfresh
    by (unfold ids; rewrite (wf_order_nodes _ Hwf), E; by intros []).
  split; [split_and!|]; try done; unfold ids; simpl; [|set_solver].
  split; simpl; [done|set_solver|].
  intros Hfw u v He. apply before_snoc; [by apply Hfwd|].
  intros <-. destruct Hfresh. apply (wf_order_nodes _ Hwf). by eapply wf_edges_nodes.
Qed.

Lemma Connect_inv fw u v b : b_inv fw b → (fw = true → before (ids b) u v) →
  grows fw b (Connect u v b) ∧ ids (Connect u v b) = ids b.
Proof.
  intros [Hwf Hcur Hfwd] Huv. pose proof (AddEdge_wf u v _ Hwf) as Hwf'.
  unfold Connect, AddEdge in *.
  destruct (g_nodes (b_graph b) !! u); [|done]. destruct (g_nodes (b_graph b) !! v); [|done].
  case_bool_decide; [done|]. simpl in *. split; [|done]. split_and!; try done.
  split; simpl; try done. intros Hfw x y. unfold graph_edge. simpl.
  rewrite elem_of_snoc. intros [?|[= -> ->]]; [by apply Hfwd|by apply Huv].
Qed.

Lemma connect_all_inv fw froms v : ∀ b, b_inv fw b →
  (fw = true → ∀ u, u ∈ froms → before (ids b) u v) →
  grows fw b (connect_all froms v b) ∧ ids (connect_all froms v b) = ids b.
Proof.
  unfold connect_all. induction froms as [|u l IH]; intros b Hb Hbef; simpl; [done|].
  destruct (Connect_inv fw u v b Hb) as [(H1 & H2 & H3) Hi]; [set_solver|].
  destruct (IH _ H1) as [(? & ? & ?) Hi']; [rewrite Hi; set_solver|].
  split; [split_and!; try done; [set_solver|congruence]|congruence].
Qed.

(** A node added after [l] comes after every member of [l]. *)
Lemma before_fresh (l : list string) u v : u ∈ l → v ∉ l → before (l ++ [v]) u v.
Proof. intros Hu Hv. apply before_snoc; [|done]. intros l1 l2 ->. set_solver. Qed.

Lemma try_add_connect fw n froms b b1 : b_inv fw b → froms ⊆ ids b →
  try_add n b = (b1, true) →
  grows fw b (connect_all froms (node_ID n) b1) ∧
  ids (connect_all froms (node_ID n) b1) = ids b ++ [node_ID n].
Proof.
  intros Hb Hf Ha. destruct (try_add_inv fw n b Hb) as [(H1 & H2 & H3) Hok].
  rewrite Ha in *. simpl in *. destruct Hok as [Hids Hfresh]; [done|].
  destruct (connect_all_inv fw froms (node_ID n) b1 H1) as [(? & ? & ?) Hi].
  { intros _ u Hu. rewrite Hids. apply before_fresh; set_solver. }
  split; [split_and!; try done; [set_solver|congruence]|congruence].
Qed.

Lemma try_add_fail fw n b b1 ok : b_inv fw b → try_add n b = (b1, ok) → grows fw b b1.
Proof. intros Hb Ha. destruct (try_add_inv fw n b Hb) as [Hg _]. by rewrite Ha in Hg. Qed.

Lemma fan_out_inv fw cur nodes : ∀ nc b,
  b_inv fw b → cur ⊆ ids b → nc ⊆ ids b → b_inv fw (fan_out cur nodes nc b).
Proof.
  induction nodes as [|[n|] l IH]; intros nc b Hb Hcur Hnc; simpl.
  - by apply set_current_inv.
  - destruct (try_add n b) as [b1 []] eqn:Ha.
    + edestruct (try_add_connect fw n cur b b1) as [(H1 & H2 & _) Hi]; [done..|].
      apply IH; [done|set_solver|]. rewrite Hi. set_solver.
    + apply try_add_fail with (fw := fw) in Ha as (H1 & H2 & _); [|done].
      apply IH; [done|set_solver..].
  - by apply IH; [apply add_error_inv|..].
Qed.

Lemma fan_out_to_inv cur targets : ∀ nc b,
  b_inv false b → cur ⊆ ids b → nc ⊆ ids b → b_inv false (fan_out_to cur targets nc b).
Proof.
  induction targets as [|id l IH]; intros nc b Hb Hcur Hnc; simpl.
  - by apply set_current_inv.
  - destruct (g_nodes (b_graph b) !! id) eqn:E.
    + destruct (connect_all_inv false cur id b Hb) as [(H1 & _ & _) Hi]; [done|].
      assert (id ∈ ids b) by (apply (wf_order_nodes _ (bi_wf _ _ Hb)); eauto).
      apply IH; [done|rewrite Hi; set_solver..].
    + by apply IH; [apply add_error_inv|..].
Qed.

Lemma branches_inv fw targets : ∀ nc b,
  b_inv fw b → nc ⊆ ids b → b_inv fw (branches targets nc b).
Proof.
  induction targets as [|id l IH]; intros nc b Hb Hnc; simpl; [by apply set_current_inv|].
  destruct (g_nodes (b_graph b) !! id) eqn:E.
  - assert (id ∈ ids b) by (apply (wf_order_nodes _ (bi_wf _ _ Hb)); eauto).
    apply IH; [done|set_solver].
  - by apply IH; [apply add_error_inv|].
Qed.

Lemma WithNodes_inv fw nodes : ∀ b, b_inv fw b → b_inv fw (WithNodes nodes b).
Proof.
  induction nodes as [|[n|] l IH]; intros b Hb; simpl; [done| |].
  - apply IH. by apply (try_add_inv fw n b Hb).
  - by apply IH, add_error_inv.
Qed.

Lemma try_add_link fw n from b b1 : b_inv fw b → from ∈ ids b →
  try_add n b = (b1, true) →
  grows fw b (Connect from (node_ID n) b1) ∧
  ids (Connect from (node_ID n) b1) = ids b ++ [node_ID n].
Proof.
  intros Hb Hf Ha.
  apply (try_add_connect fw n [from] b b1); [done| |done].
  intros x Hx. apply list_elem_of_singleton in Hx as ->. done.
Qed.

Lemma pipeline_inv fw i nodes : ∀ lastID b,
  b_inv fw b → lastID ∈ ids b →
  grows fw b (pipeline i nodes lastID b).1 ∧
  (pipeline i nodes lastID b).2 ∈ ids (pipeline i nodes lastID b).1.
Proof.
  induction nodes as [|[n|] l IH]; intros lastID b Hb Hl; simpl; [done| |].
  - destruct (try_add n b) as [b1 []] eqn:Ha.
    + edestruct (try_add_link fw n lastID b b1) as [(H1 & H2 & H3) Hi]; [done..|].
      destruct (IH (node_ID n) (Connect lastID (node_ID n) b1)) as [(? & ? & ?) ?];
        [done|rewrite Hi; set_solver|].
      split; [split_and!; [done|set_solver|congruence]|done].
    + apply try_add_fail with (fw := fw) in Ha as (H1 & H2 & H3); [|done].
      destruct (IH lastID b1) as [(? & ? & ?) ?]; [done|set_solver|].
      split; [split_and!; [done|set_solver|congruence]|done].
  - by apply (IH lastID (add_error _ b)); [apply add_error_inv|].
Qed.

Lemma fan_out_branches_inv fw cur brs : ∀ i nc b,
  b_inv fw b → cur ⊆ ids b → nc ⊆ ids b → b_inv fw (fan_out_branches cur i brs nc b).
Proof.
  induction brs as [|br l IH]; intros i nc b Hb Hcur Hnc; simpl; [by apply set_current_inv|].
  destruct (br_Entry br) as [n|]; [|by apply IH; [apply add_error_inv|..]].
  destruct (try_add n b) as [b1 []] eqn:Ha.
  - edestruct (try_add_connect fw n cur b b1) as [(H1 & H2 & _) Hi]; [done..|].
    edestruct (pipeline_inv fw i (br_Nodes br) (node_ID n)) as [(H3 & H4 & _) H5];
      [exact H1|rewrite Hi; set_solver|].
    destruct (pipeline _ _ _ _) as [b2 lastID]. simpl in *.
    apply IH; [done|set_solver..].
  - apply try_add_fail with (fw := fw) in Ha as (H1 & H2 & _); [|done].
    apply IH; [done|set_solver..].
Qed.

Lemma cond_targets_inv fw r ts : ∀ nc b,
  b_inv fw b → r ∈ ids b → nc ⊆ ids b → b_inv fw (cond_targets r ts nc b).
Proof.
  induction ts as [|[n|] l IH]; intros nc b Hb Hr Hnc; simpl; [by apply set_current_inv| |].
  - destruct (try_add n b) as [b1 []] eqn:Ha.
    + edestruct (try_add_link fw n r b b1) as [(H1 & H2 & _) Hi]; [done..|].
      apply IH; [done|set_solver|]. rewrite Hi. set_solver.
    + apply try_add_fail with (fw := fw) in Ha as (H1 & H2 & _); [|done].
      apply IH; [done|set_solver..].
  - by apply IH; [apply add_error_inv|..].
Qed.

(** Adding one node and linking it from the current ones ([Edge], [Merge]). *)
Lemma add_linked_inv fw n b b1 : b_inv fw b → try_add n b = (b1, true) →
  b_inv fw (set_current [node_ID n] (connect_all (b_current b1) (node_ID n) b1)).
Proof.
  intros Hb Ha.
  assert (b_current b1 = b_current b) as ->
    by (pose proof (try_add_fail fw n b b1 true Hb Ha) as (_ & _ & ?); done).
  edestruct (try_add_connect fw n (b_current b) b b1) as [(H1 & H2 & _) Hi]; [done|apply Hb|done|].
  apply set_current_inv; [done|]. rewrite Hi. set_solver.
Qed.

Lemma link_existing_inv id b : b_inv false b → is_Some (g_nodes (b_graph b) !! id) →
  b_inv false (set_current [id] (connect_all (b_current b) id b)).
Proof.
  intros Hb Hid. destruct (connect_all_inv false (b_current b) id b Hb) as [(H1 & _ & _) Hi]; [done|].
  apply set_current_inv; [done|]. rewrite Hi.
  apply (wf_order_nodes _ (bi_wf _ _ Hb)) in Hid. set_solver.
Qed.

Lemma set_entry_inv fw id b : b_inv fw b → b_inv fw (set_graph (SetEntry id (b_graph b)).1 b).
Proof.
  intros [Hwf Hc Hf]. pose proof (SetEntry_wf id _ Hwf) as Hwf'.
  unfold SetEntry in *. by destruct (g_nodes (b_graph b) !! id).
Qed.

Lemma apply_op_inv fw op b s :
  (fw = true → growing op = true) → b_inv fw b → b_inv fw (apply_op (b, s) op).1.
Proof.
  intros Hg Hb.
  destruct op as [[n|]|id|[n|]|id|u v|ns|tids|[n|]|id|id|tids|ns|brs|[r|] ts|]; simpl in *;
    try (by apply add_error_inv).
  - destruct (try_add n b) as [b1 []] eqn:Ha; [|by apply try_add_fail with (fw := fw) in Ha as [? _]].
    destruct (try_add_inv fw n b Hb) as [(H1 & _ & _) Hok]. rewrite Ha in *. simpl in *.
    destruct Hok as [Hids _]; [done|].
    apply set_current_inv.
    + destruct (b_entryDefined b1); [done|]. by destruct (set_entry_inv fw (node_ID n) b1 H1).
    + assert (ids (if b_entryDefined b1 then b1 else define_entry
        (set_graph (SetEntry (node_ID n) (b_graph b1)).1 b1)) = ids b1) as ->
        by (unfold ids, SetEntry; by destruct (b_entryDefined b1); [|case_match]).
      rewrite Hids. set_solver.
  - pose proof (set_entry_inv fw id b Hb) as Hs. unfold b_Entry.
    destruct (SetEntry id (b_graph b)) as [g [err|]]; [by apply add_error_inv|]. by destruct Hs.
  - destruct (try_add n b) as [b1 []] eqn:Ha; [by eapply add_linked_inv|].
    by apply try_add_fail with (fw := fw) in Ha as [? _].
  - destruct fw; [naive_solver|]. unfold EdgeTo.
    destruct (g_nodes (b_graph b) !! id) eqn:E; [|by apply add_error_inv].
    apply link_existing_inv; eauto.
  - destruct fw; [naive_solver|]. by apply (Connect_inv false u v b).
  - unfold FanOut. do 2 (case_bool_decide; [by apply add_error_inv|]).
    apply fan_out_inv; [done|apply Hb|set_solver].
  - destruct fw; [naive_solver|]. unfold FanOutTo.
    do 2 (case_bool_decide; [by apply add_error_inv|]).
    apply fan_out_to_inv; [done|apply Hb|set_solver].
  - destruct (try_add n b) as [b1 []] eqn:Ha; simpl; [by eapply add_linked_inv|].
    by apply try_add_fail with (fw := fw) in Ha as [? _].
  - destruct fw; [naive_solver|]. unfold MergeTo.
    destruct (g_nodes (b_graph b) !! id) eqn:E; [|by apply add_error_inv].
    case_bool_decide; [by apply add_error_inv|]. apply link_existing_inv; eauto.
  - unfold Branch. destruct (g_nodes (b_graph b) !! id) eqn:E; [|by apply add_error_inv].
    apply set_current_inv; [done|].
    assert (id ∈ ids b) by (apply (wf_order_nodes _ (bi_wf _ _ Hb)); eauto). set_solver.
  - apply branches_inv; [done|set_solver].
  - by apply WithNodes_inv.
  - unfold FanOutBranches. do 2 (case_bool_decide; [by apply add_error_inv|]).
    apply fan_out_branches_inv; [done|apply Hb|set_solver].
  - destruct (try_add r b) as [b1 []] eqn:Ha; [|by apply try_add_fail with (fw := fw) in Ha as [? _]].
    pose proof (try_add_fail fw r b b1 true Hb Ha) as (_ & _ & ->).
    edestruct (try_add_connect fw r (b_current b) b b1) as [(H1 & H2 & _) Hi]; [done|apply Hb|done|].
    apply cond_targets_inv; [done|rewrite Hi; set_solver|set_solver].
  - apply set_current_inv; [done|set_solver].
Qed.

Lemma build_chain_inv fw name ops s :
  (fw = true → Forall (λ op, growing op = true) ops) → b_inv fw (build_chain name ops s).1.
Proof.
  intros Hops. unfold build_chain.
  assert (b_inv fw (NewGraphBuilder name : GraphBuilder N)) as Hb.
  { split; [apply NewGraph_wf|set_solver|]. intros _ u v He. inversion He. }
  revert Hb. generalize (NewGraphBuilder name : GraphBuilder N) as b. revert s.
  induction ops as [|op l IH]; intros s b Hb; [done|]. cbn [foldl].
  pose proof (apply_op_inv fw op b s) as Hop.
  destruct (apply_op (b, s) op) as [b' s'] eqn:E. apply IH.
  - intros Hfw. specialize (Hops Hfw). by inversion Hops.
  - apply Hop; [|done]. intros Hfw. specialize (Hops Hfw). by inversion Hops.
Qed.
End Invariant.

(** ** Properties *)

Section Properties.
Context {N Store : Type} `{NodeIface N} `{MergeCapable N Store}.
Implicit Types b : GraphBuilder N.

Lemma Connect_edges u v b :
  is_Some (g_nodes (b_graph b) !! u) → is_Some (g_nodes (b_graph b) !! v) →
  b_errors (Connect u v b) = b_errors b ∧
  g_nodes (b_graph (Connect u v b)) = g_nodes (b_graph b) ∧
  ∀ x y, graph_edge (b_graph (Connect u v b)) x y ↔
    graph_edge (b_graph b) x y ∨ (x = u ∧ y = v).
Proof.
  intros Hu Hv. unfold Connect.
  by destruct (AddEdge_ok u v (b_graph b) Hu Hv) as (g' & -> & Hn & _ & _ & He).
Qed.

Lemma connect_all_edges froms v : ∀ b,
  (∀ u, u ∈ froms → is_Some (g_nodes (b_graph b) !! u)) → is_Some (g_nodes (b_graph b) !! v) →
  b_errors (connect_all froms v b) = b_errors b ∧
  ∀ x y, graph_edge (b_graph (connect_all froms v b)) x y ↔
    graph_edge (b_graph b) x y ∨ (x ∈ froms ∧ y = v).
Proof.
  unfold connect_all. induction froms as [|u l IH]; intros b Hf Hv; simpl; [set_solver|].
  destruct (Connect_edges u v b) as (H1 & H2 & H3); [apply Hf; set_solver|done|].
  destruct (IH (Connect u v b)) as (H4 & H5); [rewrite H2; set_solver|by rewrite H2|].
  split; [congruence|]. intros x y. rewrite H5, H3. set_solver.
Qed.

Lemma NoDup_same_length (l k : list string) :
  NoDup l → (∀ x, x ∈ l ↔ x ∈ k) → length k = length l ↔ NoDup k.
Proof.
  intros Hl Hlk. split.
  - intros Hlen. apply NoDup_ListNoDup.
    apply (List.NoDup_incl_NoDup (l := l)); [by apply NoDup_ListNoDup|lia|].
    intros x. rewrite <- !list_elem_of_In. apply Hlk.
  - intros Hk. symmetry. by apply Permutation_length, NoDup_Permutation.
Qed.

(** The merge node of [Merge] ends up with the current nodes as predecessors. *)
Lemma Merge_spec b s n :
  b_inv false b → node_ID n ∉ ids b → ExpectedInputs n s = 0%Z →
  ∃ b' s', Merge (Some n) b s = (b', s') ∧ b_inv false b' ∧
    b_errors b' = b_errors b ∧ b_current b' = [node_ID n] ∧
    ExpectedInputs n s' = Z.of_nat (length (b_current b)) ∧
    ∀ u, u ∈ adj (g_predecessors (b_graph b')) (node_ID n) ↔ u ∈ b_current b.
Proof.
  intros Hb Hfresh Hz. unfold Merge. rewrite bool_decide_true by done.
  pose proof (add_linked_inv false n b) as Hlink.
  destruct (try_add_inv false n b Hb) as [(Hb1 & Hsub & Hcur) Hok].
  assert (g_nodes (b_graph b) !! node_ID n = None) as Hnone.
  { apply eq_None_not_Some. by rewrite <- (wf_order_nodes _ (bi_wf _ _ Hb)). }
  assert (b_errors (try_add n b).1 = b_errors b ∧ (try_add n b).2 = true ∧
    g_edges (b_graph (try_add n b).1) = g_edges (b_graph b)) as (Herr & Hadd & Hed)
    by (unfold try_add; simpl; by rewrite Hnone).
  destruct (try_add n b) as [b1 ok]. simpl in *. subst ok.
  destruct Hok as [Hids _]; [done|].
  destruct (connect_all_edges (b_current b1) (node_ID n) b1) as [He1 He2].
  { intros u Hu. apply (wf_order_nodes _ (bi_wf _ _ Hb1)). by apply (bi_cur _ _ Hb1). }
  { apply (wf_order_nodes _ (bi_wf _ _ Hb1)). unfold ids in *. rewrite Hids. set_solver. }
  eexists _, _. split; [done|]. specialize (Hlink b1 Hb eq_refl).
  split_and!; try done; simpl; [congruence|apply expected_set|].
  intros u. rewrite elem_of_adj_pred by apply Hlink.
  change (mkEdge u (node_ID n) ∈ g_edges (b_graph (connect_all (b_current b1) (node_ID n) b1)))
    with (graph_edge (b_graph (connect_all (b_current b1) (node_ID n) b1)) u (node_ID n)).
  rewrite He2, Hcur. unfold graph_edge. rewrite Hed. split; [|naive_solver].
  intros [Hin|[? _]]; [|done]. apply (wf_edges_nodes _ (bi_wf _ _ Hb)) in Hin as [_ Hin].
  rewrite Hnone in Hin. by destruct Hin.
Qed.

Lemma adj_pred_nodup (g : BasicGraph N) v : graph_wf g → NoDup (adj (g_predecessors g) v).
Proof.
  intros Hwf. rewrite (wf_pred _ Hwf).
  change (NoDup (e_From <$> filter (λ e : Edge, e_To e = v) (g_edges g))).
  apply (NoDup_fmap_2_strong e_From); [|by apply NoDup_filter, Hwf].
  intros [a b] [c d] H1' H2' Heq. apply list_elem_of_filter in H1' as [? _], H2' as [? _].
  simpl in *. congruence.
Qed.
End Properties.

(** After every chain of builder calls on a fresh builder, whatever errors
    it met, the graph is well formed and the current nodes are nodes of it;
    [Build] returns that graph exactly when no error was recorded, the graph has
    a node and an entry is set, and then the graph passes its validation. *)
Theorem Build_correct {N Store} `{NodeIface N} `{MergeCapable N Store}
    (name : string) (ops : list (builder_op N)) (s : Store) :
  let b := (build_chain name ops s).1 in
  graph_wf (b_graph b) ∧
  (∀ id, id ∈ b_current b → is_Some (g_nodes (b_graph b) !! id)) ∧
  (∀ g, Build b = inl g ↔
    g = b_graph b ∧ b_errors b = [] ∧ g_nodeOrder g ≠ [] ∧ g_entry g ≠ EmptyString) ∧
  (∀ g, Build b = inl g → Validate g = None).
Proof.
  intros b. destruct (build_chain_inv false name ops s ltac:(done)) as [Hwf Hcur _].
  fold b in Hwf, Hcur.
  assert (∀ g, Build b = inl g ↔ b_errors b = [] ∧ Validate (b_graph b) = None ∧ g = b_graph b)
    as HB.
  { intros g. unfold Build. case_bool_decide as He; [naive_solver|].
    destruct (Validate (b_graph b)); naive_solver. }
  split_and!; [done| | |].
  - intros id Hid. by apply (wf_order_nodes _ Hwf), Hcur.
  - intros g. rewrite HB. unfold Validate. rewrite size_nodes by done.
    destruct (wf_entry _ Hwf) as [Hent|[n Hn]]; split.
    + intros (_ & Hv & _). rewrite Hent in Hv. by repeat case_bool_decide.
    + intros (-> & _ & _ & Hne). done.
    + intros (? & Hv & ->). split_and!; [done..| |].
      * intros Hnil. rewrite Hnil in Hv. by rewrite bool_decide_true in Hv.
      * intros Hemp. rewrite Hemp in Hv. by case_bool_decide; rewrite ?bool_decide_true in Hv.
    + intros (-> & ? & Hne & He). split_and!; try done.
      rewrite Hn, !bool_decide_false; try done. by destruct (g_nodeOrder _).
  - intros g Hg. apply HB in Hg as (_ & ? & ->). done.
Qed.

(** A chain that only uses the growing methods (all but [EdgeTo],
    [Connect], [FanOutTo] and [MergeTo]) builds an acyclic graph: the order in
    which the nodes were added is a topological order of it. *)
Theorem growing_chain_acyclic {N Store} `{NodeIface N} `{MergeCapable N Store}
    (name : string) (ops : list (builder_op N)) (s : Store) :
  Forall (λ op, growing op = true) ops →
  let g := b_graph (build_chain name ops s).1 in
  (∀ u v, graph_edge g u v → before (g_nodeOrder g) u v) ∧ (∀ x, ¬ tc (graph_edge g) x x).
Proof.
  intros Hops g. destruct (build_chain_inv true name ops s ltac:(done)) as [Hwf _ Hfwd].
  specialize (Hfwd eq_refl). split; [done|]. intros x Hx.
  assert (∀ u v, tc (graph_edge g) u v → before (g_nodeOrder g) u v) as Htc.
  { induction 1; [by apply Hfwd|]. eapply before_trans; [by apply Hfwd|done]. }
  apply (before_irrefl (g_nodeOrder g) x); [apply Hwf| |by apply Htc].
  assert (∃ y, graph_edge g x y) as [y Hy] by (inversion Hx; eauto).
  apply (wf_order_nodes _ Hwf). by apply (wf_edges_nodes _ Hwf) in Hy as [? _].
Qed.

(** After every chain of calls, [Merge] of a new merge node whose input
    count is not configured links it from exactly the current nodes, records no
    error, and sets the count to the number of current entries; the count equals
    the number of predecessors, so that the merge can become ready, exactly when
    no current node is listed twice. *)
Theorem Merge_expected_inputs {N Store} `{NodeIface N} `{MergeCapable N Store}
    (name : string) (ops : list (builder_op N)) (s : Store) (n : N) :
  let b := (build_chain name ops s).1 in
  let s1 := (build_chain name ops s).2 in
  node_ID n ∉ g_nodeOrder (b_graph b) → ExpectedInputs n s1 = 0%Z →
  ∃ b' s', apply_op (b, s1) (OpMerge (Some n)) = (b', s') ∧
    b_errors b' = b_errors b ∧ b_current b' = [node_ID n] ∧
    (∀ u, u ∈ Predecessors (b_graph b') (node_ID n) ↔ u ∈ b_current b) ∧
    ExpectedInputs n s' = Z.of_nat (length (b_current b)) ∧
    (ExpectedInputs n s' = Z.of_nat (length (Predecessors (b_graph b') (node_ID n))) ↔
     NoDup (b_current b)).
Proof.
  intros b s1 Hfresh Hz. pose proof (build_chain_inv false name ops s ltac:(done)) as Hb.
  destruct (Merge_spec b s1 n Hb Hfresh Hz) as (b' & s' & Hm & Hb' & He & Hc & Hx & Hp).
  exists b', s'. split_and!; try done.
  rewrite Hx, Nat2Z.inj_iff. apply NoDup_same_length; [|done].
  apply adj_pred_nodup, Hb'.
Qed.

(** ** Concrete chains *)

Section Sample.
#[local] Instance name_node : NodeIface string := {| node_ID := id; node_Kind := λ _, "merge" |}.

#[local] Instance one_counter : MergeCapable string Z :=
  {| ExpectedInputs _ s := s; SetExpectedInputs _ k _ := k; expected_set _ _ _ := eq_refl |}.

(** [AddNode(a).FanOut(b, c)]. *)
Definition sample_chain : list (builder_op string) :=
  [OpAddNode (Some "a"); OpFanOut [Some "b"; Some "c"]].

Lemma growing_chain_acyclic_witness :
  let g := b_graph (build_chain "g" (sample_chain ++ [OpMerge (Some "m")]) 0%Z).1 in
  g_nodeOrder g = ["a"; "b"; "c"; "m"] ∧ length (g_edges g) = 4 ∧
  (∀ u v, graph_edge g u v → before (g_nodeOrder g) u v) ∧ (∀ x, ¬ tc (graph_edge g) x x).
Proof.
  split; [vm_compute; reflexivity|]. split; [vm_compute; reflexivity|].
  apply growing_chain_acyclic. repeat constructor.
Defined.

(** With a current node listed twice the merge expects an input that never comes. *)
Lemma Merge_expected_inputs_witness :
  let ops := sample_chain ++ [OpBranches ["b"; "b"]] in
  let b := (build_chain "g" ops 0%Z).1 in
  ∃ b' s', apply_op (b, (build_chain "g" ops 0%Z).2) (OpMerge (Some "m")) = (b', s') ∧
    b_errors b' = b_errors b ∧ b_current b' = [node_ID "m"] ∧
    (∀ u, u ∈ Predecessors (b_graph b') (node_ID "m") ↔ u ∈ b_current b) ∧
    ExpectedInputs "m" s' = Z.of_nat (length (b_current b)) ∧
    (ExpectedInputs "m" s' = Z.of_nat (length (Predecessors (b_graph b') (node_ID "m"))) ↔
     NoDup (b_current b)).
Proof.
  apply (Merge_expected_inputs "g" (sample_chain ++ [OpBranches ["b"; "b"]]) 0%Z "m").
  - apply (bool_decide_unpack _). vm_compute. exact I.
  - vm_compute. reflexivity.
Defined.
End Sample.
