(* ===== verification/Events.v ===== *)
(** * Events and their emission (runtime/events.go, runtime/sequence.go, runtime/runtime.go)

    The event record and its builders, the per-run sequence numbers, and the
    emitter a run installs: numbering, delivery to the bus and the handler, and
    the non-blocking send on the buffered channel.

    Everything outside the run (clocks, random identifiers, cancellation, the
    reader of the event channel, the private state of nodes, handlers and
    controllers) is a world of type [W]; the class [World] lists what the run asks
    of it. *)

From stdpp Require Import gmap strings list.
From Stdlib Require Import ZArith Lia.
From S2P Require Import Prelude Values.

(** ** Events *)

Definition EventRunStarted := "run.started".
Definition EventNodeStarted := "node.started".
Definition EventNodeFailed := "node.failed".
Definition EventNodeFinished := "node.finished".
Definition EventRouteDecision := "route.decision".
Definition EventRunFinished := "run.finished".
Definition EventStepPaused := "step.paused".
Definition EventStepResumed := "step.resumed".
Definition EventStepSkipped := "step.skipped".
Definition EventStepAborted := "step.aborted".
Definition EventToolCall := "tool.call".
Definition EventToolResult := "tool.result".
Definition EventNodeOutputDelta := "node.output.delta".
Definition EventNodeOutputFinal := "node.output.final".

(** A payload entry: a value, or the text [err.Error()] kept unformatted. *)
Inductive payload := PVal (v : value) | PErr (e : error).

Record Event := mkEvent {
  ev_Kind : string;
  ev_RunID : string;
  ev_NodeID : string;
  ev_NodeKind : string;
  ev_Time : Z;
  ev_Attempt : Z;
  ev_Elapsed : Z;
  ev_Payload : gmap string payload;
  ev_Seq : Z;
  ev_TraceID : string;
  ev_SpanID : string
}.

Definition WithNode (nodeID nodeKind : string) (e : Event) : Event :=
  mkEvent (ev_Kind e) (ev_RunID e) nodeID nodeKind (ev_Time e) (ev_Attempt e) (ev_Elapsed e)
    (ev_Payload e) (ev_Seq e) (ev_TraceID e) (ev_SpanID e).

Definition WithElapsed (elapsed : Z) (e : Event) : Event :=
  mkEvent (ev_Kind e) (ev_RunID e) (ev_NodeID e) (ev_NodeKind e) (ev_Time e) (ev_Attempt e) elapsed
    (ev_Payload e) (ev_Seq e) (ev_TraceID e) (ev_SpanID e).

Definition WithAttempt (attempt : Z) (e : Event) : Event :=
  mkEvent (ev_Kind e) (ev_RunID e) (ev_NodeID e) (ev_NodeKind e) (ev_Time e) attempt (ev_Elapsed e)
    (ev_Payload e) (ev_Seq e) (ev_TraceID e) (ev_SpanID e).

Definition WithPayload (key : string) (v : payload) (e : Event) : Event :=
  mkEvent (ev_Kind e) (ev_RunID e) (ev_NodeID e) (ev_NodeKind e) (ev_Time e) (ev_Attempt e)
    (ev_Elapsed e) (<[key := v]> (ev_Payload e)) (ev_Seq e) (ev_TraceID e) (ev_SpanID e).

Definition set_Seq (n : Z) (e : Event) : Event :=
  mkEvent (ev_Kind e) (ev_RunID e) (ev_NodeID e) (ev_NodeKind e) (ev_Time e) (ev_Attempt e)
    (ev_Elapsed e) (ev_Payload e) n (ev_TraceID e) (ev_SpanID e).

Lemma set_Seq_kind n e : ev_Kind (set_Seq n e) = ev_Kind e.
Proof. done. Qed.

(** ** Machine integers *)

Definition uint64_add (a b : Z) : Z := (a + b) mod 2 ^ 64.

(** [time.Time.Sub]: the difference, saturated to an int64. *)
Definition time_Sub (t u : Z) : Z := Z.max (- 2 ^ 63) (Z.min (2 ^ 63 - 1) (t - u)).

(** ** The world of a run *)

Class World (W : Type) := {
  time_Now : W → W * Z;                    (** [time.Now()] *)
  rand_ID : W → W * string;                (** [generateRunID()], [generateStepID()] *)
  ctx_Done : W → W * option error;         (** [ctx.Done()] closed: [ctx.Err()] *)
  chan_read : W → W * nat                  (** events the reader took off the channel since *)
}.

(** The state of a run. [rt_pub] lists the events handed to the bus and to the
    handler; [rt_log] is an observation the code does not keep: the nodes the run
    handled, each with the successors selected for it. *)
Record RT (W : Type) := mkRT {
  rt_w : W;
  rt_seq : Z;
  rt_ch : list Event;
  rt_pub : list Event;
  rt_log : list (string * list string)
}.
Arguments mkRT {W}.
Arguments rt_w {W}.
Arguments rt_seq {W}.
Arguments rt_ch {W}.
Arguments rt_pub {W}.
Arguments rt_log {W}.

(** The callbacks that receive events ([RunOptions]). *)
Record Sinks (W : Type) := mkSinks {
  EventBus : option (Event → W → W);
  EventHandler : option (Event → W → W);
  (** the events a decorated emitter passes on for one event *)
  EventEmitterDecorator : option (Event → W → W * list Event)
}.
Arguments mkSinks {W}.
Arguments EventBus {W}.
Arguments EventHandler {W}.
Arguments EventEmitterDecorator {W}.

Section Emission.
Context {W : Type} `{World W}.
Notation M := (GoM (RT W)).

(** Running an effect of the world. *)
Definition lift {A} (f : W → W * A) : M A := λ s,
  let '(w, a) := f (rt_w s) in
  (mkRT w (rt_seq s) (rt_ch s) (rt_pub s) (rt_log s), Some a).

Definition lift_ (f : W → W) : M unit := lift (λ w, (f w, tt)).

Definition NewEvent (kind runID : string) : M Event :=
  t ← lift time_Now;
  mret (mkEvent kind runID EmptyString EmptyString t 1 0 ∅ 0 EmptyString EmptyString).

(** [seqGen.Next]. *)
Definition Next : M Z := λ s,
  let n := uint64_add (rt_seq s) 1 in
  (mkRT (rt_w s) n (rt_ch s) (rt_pub s) (rt_log s), Some n).

Definition deliver (sinks : Sinks W) (e : Event) : M unit := λ s,
  let w1 := match EventBus sinks with Some f => f e (rt_w s) | None => rt_w s end in
  let w2 := match EventHandler sinks with Some f => f e w1 | None => w1 end in
  (mkRT w2 (rt_seq s) (rt_ch s) (rt_pub s ++ [e]) (rt_log s), Some tt).

Definition eventCh_cap : nat := 100.

(** [select { case r.eventCh <- e: default: }]. *)
Definition offer (e : Event) : M unit := λ s,
  let '(w, k) := chan_read (rt_w s) in
  let ch := drop k (rt_ch s) in
  let ch' := if bool_decide (length ch < eventCh_cap) then ch ++ [e] else ch in
  (mkRT w (rt_seq s) ch' (rt_pub s) (rt_log s), Some tt).

(** The emitter of [Run], before decoration. *)
Definition emit_base (sinks : Sinks W) (e : Event) : M unit :=
  n ← Next;
  let e' := set_Seq n e in
  deliver sinks e' ;; offer e'.

Fixpoint emit_all (sinks : Sinks W) (es : list Event) : M unit :=
  match es with
  | [] => mret tt
  | e :: rest => emit_base sinks e ;; emit_all sinks rest
  end.

Definition emit (sinks : Sinks W) (e : Event) : M unit :=
  match EventEmitterDecorator sinks with
  | None => emit_base sinks e
  | Some d => es ← lift (d e); emit_all sinks es
  end.
End Emission.

(** ** The numbering invariant *)

Section Numbering.
Context {W : Type} `{World W}.
Notation M := (GoM (RT W)).

(** The [i]-th published event carries number [i + 1] modulo 2^64, and the
    generator stands at the last number; the channel never exceeds its buffer. *)
Record numbered (s : RT W) : Prop := {
  num_seq : rt_seq s = (Z.of_nat (length (rt_pub s)) mod 2 ^ 64)%Z;
  num_events : ∀ i e, rt_pub s !! i = Some e → ev_Seq e = (Z.of_nat (S i) mod 2 ^ 64)%Z;
  num_chan : length (rt_ch s) ≤ eventCh_cap
}.

(** [sat Q m]: from a numbered state the computation, whether it returns or
    panics, keeps the numbering, only appends to the published events, and
    relates the log before, the log after and its result ([None]: a panic) by
    [Q]. *)
Definition sat {A} (Q : list (string * list string) → list (string * list string) →
    option A → Prop) (m : M A) : Prop :=
  ∀ s, numbered s → ∃ s' r new, m s = (s', r) ∧ numbered s' ∧
    rt_pub s' = rt_pub s ++ new ∧ Q (rt_log s) (rt_log s') r.

(** A computation that leaves the log alone. *)
Definition emits {A} (m : M A) : Prop := sat (λ l l' _, l' = l) m.

(** Every result it returns satisfies [P]. *)
Definition yields {A} (P : A → Prop) (m : M A) : Prop :=
  ∀ s s' a, m s = (s', Some a) → P a.

Lemma emits_ret {A} (a : A) : emits (mret a).
Proof. intros s Hs. exists s, (Some a), []. by rewrite app_nil_r. Qed.

Lemma emits_panic {A} : emits (panic : M A).
Proof. intros s Hs. exists s, None, []. by rewrite app_nil_r. Qed.

Lemma sat_bind {A B} (P : A → Prop) Q (m : M A) (f : A → M B) :
  emits m → yields P m → (∀ l, Q l l None) → (∀ a, P a → sat Q (f a)) → sat Q (m ≫= f).
Proof.
  intros Hm HP HQ Hf s Hs. destruct (Hm s Hs) as (s1 & [a|] & n1 & E1 & H1 & P1 & L1).
  - destruct (Hf a (HP _ _ _ E1) s1 H1) as (s2 & b & n2 & E2 & H2 & P2 & L2).
    exists s2, b, (n1 ++ n2). unfold mbind, gom_bind.
    rewrite E1, E2, P2, P1, app_assoc. by rewrite L1 in L2.
  - exists s1, None, n1. unfold mbind, gom_bind. rewrite E1, L1. auto.
Qed.

Lemma yields_True {A} (m : M A) : yields (λ _, True) m.
Proof. done. Qed.

Lemma emits_bind {A B} (m : M A) (f : A → M B) :
  emits m → (∀ a, emits (f a)) → emits (m ≫= f).
Proof. intros Hm Hf. apply (sat_bind (λ _, True)); [done|apply yields_True|done|]. intros a _. apply Hf. Qed.

Lemma yields_ret {A} (P : A → Prop) a : P a → yields P (mret a).
Proof. by intros HP s s' a' [= _ <-]. Qed.

Lemma yields_panic {A} (P : A → Prop) : yields P panic.
Proof. by intros s s' a. Qed.

Lemma yields_bind {A B} (P : A → Prop) (Q : B → Prop) (m : M A) (f : A → M B) :
  yields P m → (∀ a, P a → yields Q (f a)) → yields Q (m ≫= f).
Proof.
  intros Hm Hf s s' b. unfold mbind, gom_bind. destruct (m s) as [s1 [a|]] eqn:E; [|done].
  apply Hf. by eapply Hm.
Qed.

Lemma yields_bind_any {A B} (Q : B → Prop) (m : M A) (f : A → M B) :
  (∀ a, yields Q (f a)) → yields Q (m ≫= f).
Proof. intros Hf. apply (yields_bind (λ _, True)); [apply yields_True|]. auto. Qed.

Lemma yields_mono {A} (P Q : A → Prop) (m : M A) :
  yields P m → (∀ a, P a → Q a) → yields Q m.
Proof. intros Hm HPQ s s' a E. eapply HPQ, Hm, E. Qed.

Lemma emits_lift {A} (f : W → W * A) : emits (lift f).
Proof.
  intros s [H1 H2 H3]. unfold lift. destruct (f (rt_w s)) as [w a].
  eexists _, (Some a), []. split; [done|]. by rewrite app_nil_r.
Qed.

Lemma emits_NewEvent kind runID : emits (NewEvent kind runID).
Proof. apply emits_bind; [apply emits_lift|]. intros. apply emits_ret. Qed.

Lemma emit_base_run sinks e s : numbered s → ∃ s',
  emit_base sinks e s = (s', Some tt) ∧ numbered s' ∧
  rt_pub s' = rt_pub s ++ [set_Seq (uint64_add (rt_seq s) 1) e] ∧ rt_log s' = rt_log s.
Proof.
  intros [H1 H2 H3]. unfold emit_base, mbind, gom_bind, Next, deliver, offer; simpl.
  case_match. eexists. split; [done|]. split; [|done]. unfold uint64_add in *.
  assert ((rt_seq s + 1) mod 2 ^ 64 =
    Z.of_nat (length (rt_pub s ++ [set_Seq ((rt_seq s + 1) mod 2 ^ 64) e])) mod 2 ^ 64)%Z as Hn.
  { rewrite length_app, H1, Zplus_mod_idemp_l. simpl. f_equal. lia. }
  split; simpl; [done| |].
  - intros i e' Hi. apply lookup_app_Some in Hi as [Hi|[Hge Hi]]; [by apply H2|].
    apply list_lookup_singleton_Some in Hi as [Hz <-]. simpl. rewrite Hn, length_app. simpl.
    f_equal. lia.
  - rewrite length_drop in *. case_bool_decide; rewrite ?length_app, ?length_drop in *; simpl; lia.
Qed.

Lemma emits_emit_base sinks e : emits (emit_base sinks e).
Proof. intros s Hs. destruct (emit_base_run sinks e s Hs) as (s' & -> & ?). eauto 10. Qed.

Lemma emits_emit_all sinks es : emits (emit_all sinks es).
Proof.
  induction es as [|e l IH]; [apply emits_ret|].
  apply emits_bind; [apply emits_emit_base|done].
Qed.

Lemma emits_emit sinks e : emits (emit sinks e).
Proof.
  unfold emit. destruct (EventEmitterDecorator sinks); [|apply emits_emit_base].
  apply emits_bind; [apply emits_lift|]. intros. apply emits_emit_all.
Qed.

(** A computation that publishes nothing. *)
Definition quiet {A} (m : M A) : Prop := ∀ s, rt_pub (m s).1 = rt_pub s.

Lemma quiet_ret {A} (a : A) : quiet (mret a).
Proof. done. Qed.

Lemma quiet_bind {A B} (m : M A) (f : A → M B) : quiet m → (∀ a, quiet (f a)) → quiet (m ≫= f).
Proof.
  intros Hm Hf s. unfold mbind, gom_bind. specialize (Hm s).
  destruct (m s) as [s1 [a|]]; [|done]. simpl in *. by rewrite Hf.
Qed.

Lemma quiet_lift {A} (f : W → W * A) : quiet (lift f).
Proof. intros s. unfold lift. by destruct (f (rt_w s)). Qed.

Lemma quiet_NewEvent kind runID : quiet (NewEvent kind runID).
Proof. apply quiet_bind; [apply quiet_lift|]. intros. apply quiet_ret. Qed.

(** Composition when the first part writes the log and the second does not. *)
Lemma sat_then {A B} Q Q' (rel : A → option B → Prop) (m : M A) (f : A → M B) :
  sat Q m → (∀ a, sat (λ l l' r, l' = l ∧ rel a r) (f a)) →
  (∀ l l', Q l l' None → Q' l l' None) →
  (∀ l l' a r, Q l l' (Some a) → rel a r → Q' l l' r) → sat Q' (m ≫= f).
Proof.
  intros Hm Hf HN HS s Hs. destruct (Hm s Hs) as (s1 & [a|] & n1 & E1 & H1 & P1 & L1).
  - destruct (Hf a s1 H1) as (s2 & b & n2 & E2 & H2 & P2 & L2 & R2).
    exists s2, b, (n1 ++ n2). unfold mbind, gom_bind.
    rewrite E1, E2, P2, P1, app_assoc, L2. eauto.
  - exists s1, None, n1. unfold mbind, gom_bind. rewrite E1. eauto.
Qed.

(** The same from one state. *)
Definition runs {A} (s : RT W) (m : M A)
    (Q : list (string * list string) → option A → Prop) : Prop :=
  ∃ s' r new, m s = (s', r) ∧ numbered s' ∧ rt_pub s' = rt_pub s ++ new ∧ Q (rt_log s') r.

Lemma runs_bind_y {A B} s (P : A → Prop) (Q : list (string * list string) → option B → Prop)
    (m : M A) (f : A → M B) :
  emits m → yields P m → numbered s → Q (rt_log s) None →
  (∀ a s1, P a → numbered s1 → rt_log s1 = rt_log s → runs s1 (f a) Q) → runs s (m ≫= f) Q.
Proof.
  intros Hm HP Hs HN Hf. destruct (Hm s Hs) as (s1 & [a|] & n1 & E1 & H1 & P1 & L1).
  - destruct (Hf a s1 (HP _ _ _ E1) H1 L1) as (s2 & b & n2 & E2 & H2 & P2 & L2).
    exists s2, b, (n1 ++ n2). unfold mbind, gom_bind. by rewrite E1, E2, P2, P1, app_assoc.
  - exists s1, None, n1. unfold mbind, gom_bind. by rewrite E1, L1.
Qed.

Lemma runs_bind {A B} s (Q : list (string * list string) → option B → Prop)
    (m : M A) (f : A → M B) :
  emits m → numbered s → Q (rt_log s) None →
  (∀ a s1, numbered s1 → rt_log s1 = rt_log s → runs s1 (f a) Q) → runs s (m ≫= f) Q.
Proof. intros Hm Hs HN Hf. apply (runs_bind_y s (λ _, True)); [done|apply yields_True|auto..]. Qed.

Lemma runs_then {A B} s (Q : list (string * list string) → option A → Prop)
    (Q' : list (string * list string) → option B → Prop) (P : A → B → Prop)
    (m : M A) (f : A → M B) :
  runs s m Q → (∀ a, emits (f a)) → (∀ a, yields (P a) (f a)) →
  (∀ l, Q l None → Q' l None) → (∀ l a, Q l (Some a) → Q' l None) →
  (∀ l a b, Q l (Some a) → P a b → Q' l (Some b)) → runs s (m ≫= f) Q'.
Proof.
  intros (s1 & [a|] & n1 & E1 & H1 & P1 & L1) Hf HP HN HN' HS.
  - destruct (Hf a s1 H1) as (s2 & [b|] & n2 & E2 & H2 & P2 & L2); exists s2.
    + exists (Some b), (n1 ++ n2). unfold mbind, gom_bind.
      rewrite E1, E2, P2, P1, app_assoc, L2. split_and!; try done. eapply HS; [done|].
      by eapply HP.
    + exists None, (n1 ++ n2). unfold mbind, gom_bind.
      rewrite E1, E2, P2, P1, app_assoc, L2. eauto.
  - exists s1, None, n1. unfold mbind, gom_bind. rewrite E1. eauto.
Qed.

Lemma emits_yields {A} (P : A → Prop) (m : M A) :
  emits m → yields P m → sat (λ l l' r, l' = l ∧ match r with Some a => P a | None => True end) m.
Proof.
  intros Hm HP s Hs. destruct (Hm s Hs) as (s1 & r & n1 & E1 & H1 & P1 & L1).
  exists s1, r, n1. split_and!; try done. destruct r; [by eapply HP|done].
Qed.

(** A computation that cannot panic. *)
Definition safe {A} (m : M A) : Prop := ∀ s, is_Some (m s).2.

Lemma safe_ret {A} (a : A) : safe (mret a).
Proof. intros s. eauto. Qed.

Lemma safe_bind {A B} (m : M A) (f : A → M B) : safe m → (∀ a, safe (f a)) → safe (m ≫= f).
Proof.
  intros Hm Hf s. unfold mbind, gom_bind. specialize (Hm s).
  destruct (m s) as [s1 [a|]]; [apply Hf|by destruct Hm].
Qed.

(** It returns, with a result that satisfies [P]. *)
Definition total {A} (P : A → Prop) (m : M A) : Prop := safe m ∧ yields P m.

Lemma total_ret {A} (P : A → Prop) (a : A) : P a → total P (mret a).
Proof. intros HP. split; [apply safe_ret|by apply yields_ret]. Qed.

Lemma total_bind {A B} (P : A → Prop) (Q : B → Prop) (m : M A) (f : A → M B) :
  total P m → (∀ a, P a → total Q (f a)) → total Q (m ≫= f).
Proof.
  intros [Hm HP] Hf. split; [|apply (yields_bind P); [done|]; intros a Ha; apply (Hf a Ha)].
  intros s. unfold mbind, gom_bind. specialize (Hm s). destruct (m s) as [s1 [a|]] eqn:E.
  - apply (Hf a). by eapply HP.
  - by destruct Hm.
Qed.

Lemma total_safe_bind {A B} (Q : B → Prop) (m : M A) (f : A → M B) :
  safe m → (∀ a, total Q (f a)) → total Q (m ≫= f).
Proof. intros Hm Hf. apply (total_bind (λ _, True)); [split; [done|apply yields_True]|auto]. Qed.

Lemma safe_lift {A} (f : W → W * A) : safe (lift f).
Proof. intros s. unfold lift. destruct (f (rt_w s)). eauto. Qed.

Lemma safe_NewEvent kind runID : safe (NewEvent kind runID).
Proof. apply safe_bind; [apply safe_lift|]. intros. apply safe_ret. Qed.

Lemma safe_emit_base sinks e : safe (emit_base sinks e).
Proof.
  intros s. unfold emit_base, mbind, gom_bind, Next, deliver, offer; simpl. case_match. eauto.
Qed.

Lemma safe_emit sinks e : safe (emit sinks e).
Proof.
  unfold emit. destruct (EventEmitterDecorator sinks); [|apply safe_emit_base].
  apply safe_bind; [apply safe_lift|]. intros es.
  induction es; [apply safe_ret|]. by apply safe_bind; [apply safe_emit_base|].
Qed.
End Numbering.

#[export] Hint Resolve emits_ret emits_panic emits_lift emits_NewEvent emits_emit : petal.
#[export] Hint Resolve yields_ret yields_panic : petal.
#[export] Hint Resolve quiet_ret quiet_lift quiet_NewEvent : petal.
#[export] Hint Resolve total_ret : petal.
#[export] Hint Resolve safe_ret safe_lift safe_NewEvent safe_emit : petal.

(** Walks through a monadic computation with the lemmas of the database. *)
Ltac go_monad :=
  repeat first
    [ progress intros
    | solve [auto with petal]
    | apply emits_bind
    | apply safe_bind
    | match goal with |- total _ _ => apply total_safe_bind; [solve [auto with petal]|] end
    | apply quiet_bind
    | apply yields_bind_any
    | case_match ].
