(* ===== verification/Bus.v ===== *)
(** * The event bus (bus/bus.go, bus/membus.go, bus/throttle.go)

    [MemBus]: the in-memory bus with its subscriptions, as interleaved calls of
    publishers, subscribers and readers. A read lock is held during [Publish], so
    that subscriptions do not change while an event is handed out; each delivery is
    atomic under the lock of the subscription. [Throttle]: the emitter that
    coalesces deltas, with its background loop.

    The theorems: a subscription receives, in the order of the publishes, the
    events of its run and no other, loses them only when its buffer is full or it
    is closed, and no call waits or panics; the throttled emitter passes other
    events on in their order, and after [Close] the last delta of every node is the
    last one passed on. *)

From stdpp Require Import gmap strings list.
From Stdlib Require Import ZArith Lia.
From S2P Require Import Prelude Values Events.

Module MemBus.

(** ** Data *)

(** A subscription: the buffered events, the flag of the code, and the state of the
    channel. *)
Record memSub := mkSub { ms_ch : list Event; ms_closed : bool; ms_chanClosed : bool }.

(** Subscriptions by number. *)
Record MemBus := mkBus {
  mb_subs : gmap string (list nat); mb_globalSubs : list nat; mb_bufSize : Z; mb_closed : bool
}.

Definition NewMemBus (subscriberBufferSize : Z) : MemBus :=
  mkBus ∅ [] (if (subscriberBufferSize <=? 0)%Z then 256 else subscriberBufferSize) false.

Definition newMemSub : memSub := mkSub [] false false.

(** [None]: the channel was closed before. *)
Definition close_chan (s : memSub) : option memSub :=
  if ms_chanClosed s then None else Some (mkSub (ms_ch s) (ms_closed s) true).

Definition close (s : memSub) : option memSub :=
  if ms_closed s then Some s else close_chan (mkSub (ms_ch s) true (ms_chanClosed s)).

(** The subscription, and whether the event was taken; [None]: a send on a closed channel. *)
Definition send (bufSize : Z) (e : Event) (s : memSub) : option (memSub * bool) :=
  if ms_closed s then Some (s, false)
  else if ms_chanClosed s then None
  else if (Z.of_nat (length (ms_ch s)) <? bufSize)%Z
  then Some (mkSub (ms_ch s ++ [e]) (ms_closed s) (ms_chanClosed s), true)
  else Some (s, false).

Definition subscribers (b : MemBus) (runID : string) : list nat := default [] (mb_subs b !! runID).

(** The subscriptions an event is sent to, in this order. *)
Definition targets (b : MemBus) (e : Event) : list nat :=
  if mb_closed b then [] else subscribers b (ev_RunID e) ++ mb_globalSubs b.

Definition Subscribe (runID : string) (sub : nat) (b : MemBus) : MemBus :=
  mkBus (<[runID := subscribers b runID ++ [sub]]> (mb_subs b)) (mb_globalSubs b) (mb_bufSize b) (mb_closed b).
Definition SubscribeAll (sub : nat) (b : MemBus) : MemBus :=
  mkBus (mb_subs b) (mb_globalSubs b ++ [sub]) (mb_bufSize b) (mb_closed b).
Definition set_closed (b : MemBus) : MemBus :=
  mkBus (mb_subs b) (mb_globalSubs b) (mb_bufSize b) true.

(** ** Calls *)

(** A [Publish] in progress, with the subscriptions still to be sent to. What follows is
    not in the code: whether the bus was open, and the publishes that had returned when
    it began. *)
Record publisher := mkPub { pb_event : Event; pb_rest : list nat; pb_open : bool; pb_before : list nat }.

(** A subscription with its history: the run it is for, the number of publishes that had
    begun when it was made, the publishes handed to it with their outcome, and what was
    read from it. *)
Record slot := mkSlot {
  sl_sub : memSub; sl_run : option string; sl_since : nat; sl_offered : list (nat * bool); sl_received : list Event
}.

Record system := mkSys { sy_bus : MemBus; sy_slots : list slot; sy_pubs : list publisher; sy_panic : bool }.

Inductive move :=
| MSubscribe (runID : string)
| MSubscribeAll
| MPublish (e : Event)
| MSend (p : nat)              (** the publisher sends to its next subscription *)
| MRecv (i : nat)              (** a reader takes an event *)
| MCloseSub (i : nat)
| MClose.

(** The lock can be taken for writing. *)
Definition idle (y : system) : bool := forallb (λ p, bool_decide (pb_rest p = [])) (sy_pubs y).

Definition returned_pubs (pubs : list publisher) : list nat :=
  List.filter (λ p, bool_decide (pb_rest <$> pubs !! p = Some [])) (seq 0 (length pubs)).

Definition matches (run : option string) (e : Event) : bool :=
  match run with Some r => bool_decide (r = ev_RunID e) | None => true end.

Definition add_slot (run : option string) (b : MemBus) (y : system) : system :=
  mkSys b (sy_slots y ++ [mkSlot newMemSub run (length (sy_pubs y)) [] []]) (sy_pubs y) (sy_panic y).

Definition with_sub (sub : memSub) (sl : slot) : slot :=
  mkSlot sub (sl_run sl) (sl_since sl) (sl_offered sl) (sl_received sl).

(** [close] on one subscription; a panic is recorded. *)
Definition close_slot (i : nat) (y : system) : system :=
  match sy_slots y !! i with
  | Some sl => match close (sl_sub sl) with
               | Some sub => mkSys (sy_bus y) (<[i := with_sub sub sl]> (sy_slots y)) (sy_pubs y) (sy_panic y)
               | None => mkSys (sy_bus y) (sy_slots y) (sy_pubs y) true
               end
  | None => y
  end.

(** The subscriptions [Close] goes through; the order of the map does not matter. *)
Definition all_subs (b : MemBus) : list nat :=
  mjoin (map snd (map_to_list (mb_subs b))) ++ mb_globalSubs b.

Definition exec_move (m : move) (y : system) : option system :=
  match m with
  | MSubscribe runID =>
      if idle y then Some (add_slot (Some runID) (Subscribe runID (length (sy_slots y)) (sy_bus y)) y) else None
  | MSubscribeAll =>
      if idle y then Some (add_slot None (SubscribeAll (length (sy_slots y)) (sy_bus y)) y) else None
  | MPublish e =>
      Some (mkSys (sy_bus y) (sy_slots y)
              (sy_pubs y ++ [mkPub e (targets (sy_bus y) e) (negb (mb_closed (sy_bus y))) (returned_pubs (sy_pubs y))])
              (sy_panic y))
  | MSend p =>
      match sy_pubs y !! p with
      | Some (mkPub e (i :: rest) open before) =>
          let pubs := <[p := mkPub e rest open before]> (sy_pubs y) in
          match sy_slots y !! i with
          | Some sl =>
              Some (match send (mb_bufSize (sy_bus y)) e (sl_sub sl) with
                    | Some (sub, taken) =>
                        mkSys (sy_bus y)
                          (<[i := mkSlot sub (sl_run sl) (sl_since sl) (sl_offered sl ++ [(p, taken)]) (sl_received sl)]>
                             (sy_slots y)) pubs (sy_panic y)
                    | None => mkSys (sy_bus y) (sy_slots y) pubs true
                    end)
          | None => None
          end
      | _ => None
      end
  | MRecv i =>
      match sy_slots y !! i with
      | Some (mkSlot (mkSub (e :: ch) c cc) run since offered received) =>
          Some (mkSys (sy_bus y) (<[i := mkSlot (mkSub ch c cc) run since offered (received ++ [e])]> (sy_slots y))
                  (sy_pubs y) (sy_panic y))
      | _ => None
      end
  | MCloseSub i => match sy_slots y !! i with Some _ => Some (close_slot i y) | None => None end
  | MClose =>
      if idle y then
        Some (foldl (λ y i, close_slot i y)
                (mkSys (set_closed (sy_bus y)) (sy_slots y) (sy_pubs y) (sy_panic y)) (all_subs (sy_bus y)))
      else None
  end.

Definition start (subscriberBufferSize : Z) : system := mkSys (NewMemBus subscriberBufferSize) [] [] false.

Inductive reachable (size : Z) : system → Prop :=
| reach_start : reachable size (start size)
| reach_step y m y' : reachable size y → exec_move m y = Some y' → reachable size y'.
(** ** What is delivered *)

Implicit Types (pubs : list publisher) (slots : list slot).

(** [p] is in the list before [q]. *)
Definition precedes (l : list nat) (p q : nat) : Prop := ∃ l1 l2, l = l1 ++ l2 ∧ p ∈ l1 ∧ q ∈ l2.

(** The events taken among those offered. *)
Definition taken (pubs : list publisher) (offered : list (nat * bool)) : list Event :=
  omap (λ o : nat * bool, if o.2 then pb_event <$> pubs !! o.1 else None) offered.

Record delivered (cap : Z) (pubs : list publisher) (i : nat) (sl : slot) : Prop := {
  dl_closed : ms_closed (sl_sub sl) = ms_chanClosed (sl_sub sl);
  dl_events : sl_received sl ++ ms_ch (sl_sub sl) = taken pubs (sl_offered sl);
  dl_cap : (Z.of_nat (length (ms_ch (sl_sub sl))) ≤ cap)%Z;
  dl_once : NoDup (sl_offered sl).*1;
  dl_from : ∀ p, p ∈ (sl_offered sl).*1 → ∃ pub, pubs !! p = Some pub ∧ sl_since sl ≤ p ∧
    matches (sl_run sl) (pb_event pub) = true ∧ i ∉ pb_rest pub;
  dl_all : ∀ p pub, pubs !! p = Some pub → pb_open pub = true → sl_since sl ≤ p →
    matches (sl_run sl) (pb_event pub) = true → i ∈ pb_rest pub ∨ p ∈ (sl_offered sl).*1;
  dl_room : ms_closed (sl_sub sl) = false → (Z.of_nat (length (sl_offered sl)) ≤ cap)%Z →
    Forall (λ o, o.2 = true) (sl_offered sl);
  dl_order : ∀ p q pub, pubs !! q = Some pub → p ∈ pb_before pub →
    p ∈ (sl_offered sl).*1 → q ∈ (sl_offered sl).*1 → precedes (sl_offered sl).*1 p q;
  dl_since : sl_since sl ≤ length pubs
}.

(** A publish in progress. *)
Record publishing (slots : list slot) (pubs : list publisher) (p : nat) (pub : publisher) : Prop := {
  pg_once : NoDup (pb_rest pub);
  pg_rest : ∀ i, i ∈ pb_rest pub → ∃ sl, slots !! i = Some sl ∧ sl_since sl ≤ p ∧
    matches (sl_run sl) (pb_event pub) = true;
  pg_before : ∀ q, q ∈ pb_before pub → pb_rest <$> pubs !! q = Some []
}.

(** The lists of the bus are those of the subscriptions. *)
Record listed (b : MemBus) (slots : list slot) : Prop := {
  ls_run : ∀ r i, i ∈ subscribers b r ↔ sl_run <$> slots !! i = Some (Some r);
  ls_global : ∀ i, i ∈ mb_globalSubs b ↔ sl_run <$> slots !! i = Some None;
  ls_run_once : ∀ r, NoDup (subscribers b r);
  ls_global_once : NoDup (mb_globalSubs b)
}.

Record inv (cap : Z) (y : system) : Prop := {
  in_panic : sy_panic y = false;
  in_size : mb_bufSize (sy_bus y) = cap;
  in_listed : listed (sy_bus y) (sy_slots y);
  in_pubs : ∀ p pub, sy_pubs y !! p = Some pub → publishing (sy_slots y) (sy_pubs y) p pub;
  in_slots : ∀ i sl, sy_slots y !! i = Some sl → delivered cap (sy_pubs y) i sl
}.

Lemma precedes_app l1 l2 p q : precedes l1 p q → precedes (l1 ++ l2) p q.
Proof.
  intros (a & b & -> & Hp & Hq). exists a, (b ++ l2). rewrite (assoc_L (++)).
  split_and!; [done|done|]. apply elem_of_app. by left.
Qed.

Lemma targets_listed b slots e i : listed b slots → mb_closed b = false →
  i ∈ targets b e ↔ ∃ sl, slots !! i = Some sl ∧ matches (sl_run sl) e = true.
Proof.
  intros [Hr Hg _ _] Hc. unfold targets. rewrite Hc, elem_of_app, Hr, Hg. split.
  - intros [(sl & Hrun & Hs)%fmap_Some|(sl & Hrun & Hs)%fmap_Some]; exists sl; (split; [done|]).
    + rewrite <- Hs. simpl. by apply bool_decide_eq_true.
    + by rewrite <- Hs.
  - intros (sl & -> & Hm). simpl. destruct (sl_run sl) as [r|]; simpl in Hm; [left|by right].
    apply bool_decide_eq_true in Hm. by subst.
Qed.

Lemma targets_once b slots e : listed b slots → NoDup (targets b e).
Proof.
  intros [Hr Hg Hro Hgo]. unfold targets. destruct (mb_closed b); [constructor|].
  apply NoDup_app. split_and!; [done| |done]. intros i Hi%Hr Hi'%Hg. congruence.
Qed.

Lemma taken_cons pubs p b l :
  taken pubs ((p, b) :: l) = match (if b then pb_event <$> pubs !! p else None) with Some e => [e] | None => [] end ++ taken pubs l.
Proof. unfold taken. simpl. destruct b; [|done]. by destruct (pubs !! p). Qed.

Lemma taken_ext pubs pubs' offered :
  (∀ p, p ∈ offered.*1 → pb_event <$> pubs' !! p = pb_event <$> pubs !! p) → taken pubs' offered = taken pubs offered.
Proof.
  induction offered as [|[p b] l IH]; intros Hl; [done|].
  rewrite !taken_cons, IH by (intros q Hq; apply Hl; simpl; by right).
  destruct b; [|done]. by rewrite (Hl p) by (simpl; left).
Qed.

Lemma taken_snoc pubs p b l :
  taken pubs (l ++ [(p, b)]) = taken pubs l ++ match (if b then pb_event <$> pubs !! p else None) with Some e => [e] | None => [] end.
Proof. unfold taken. rewrite omap_app. by f_equal. Qed.

Lemma taken_length pubs l : length (taken pubs l) ≤ length l.
Proof. induction l as [|[p b] l IH]; [done|]. rewrite taken_cons, length_app. simpl. destruct b, (pubs !! p); simpl; lia. Qed.

Lemma returned_pubs_spec pubs p : p ∈ returned_pubs pubs → pb_rest <$> pubs !! p = Some [].
Proof. unfold returned_pubs. by intros [_ Hb%bool_decide_eq_true]%list_elem_of_In%filter_In. Qed.

Lemma idle_spec y p pub : idle y = true → sy_pubs y !! p = Some pub → pb_rest pub = [].
Proof.
  unfold idle. rewrite forallb_forall. intros Hall Hp.
  apply (bool_decide_eq_true_1 _ (Hall pub ltac:(by eapply list_elem_of_In, list_elem_of_lookup_2))).
Qed.
(** *** A subscription that changes in itself only *)

Definition same_slot (sl sl' : slot) : Prop :=
  sl_run sl' = sl_run sl ∧ sl_since sl' = sl_since sl ∧ sl_offered sl' = sl_offered sl.

Lemma listed_insert b slots i sl sl' : slots !! i = Some sl → sl_run sl' = sl_run sl →
  listed b slots → listed b (<[i := sl']> slots).
Proof.
  intros Hi Hr [H1 H2 H3 H4].
  assert (∀ j, sl_run <$> <[i := sl']> slots !! j = sl_run <$> slots !! j) as He.
  { intros j. destruct (decide (j = i)) as [->|Hne]; [|by rewrite list_lookup_insert_ne].
    rewrite list_lookup_insert_eq by (by eapply lookup_lt_Some). rewrite Hi. simpl. by rewrite Hr. }
  split; try done; intros; rewrite He; auto.
Qed.

Lemma publishing_insert slots pubs i sl sl' p pub : slots !! i = Some sl → sl_run sl' = sl_run sl →
  sl_since sl' = sl_since sl → publishing slots pubs p pub → publishing (<[i := sl']> slots) pubs p pub.
Proof.
  intros Hi Hr Hs [Hn Hrest Hb]. split; [done| |done]. intros j Hj.
  destruct (Hrest j Hj) as (slj & Hlj & Hsj & Hmj). destruct (decide (j = i)) as [->|Hne].
  - rewrite list_lookup_insert_eq by (by eapply lookup_lt_Some). simplify_eq. exists sl'. by rewrite Hr, Hs.
  - rewrite list_lookup_insert_ne by done. eauto.
Qed.

Lemma inv_slot cap y i sl sl' : inv cap y → sy_slots y !! i = Some sl → same_slot sl sl' →
  delivered cap (sy_pubs y) i sl' →
  inv cap (mkSys (sy_bus y) (<[i := sl']> (sy_slots y)) (sy_pubs y) (sy_panic y)).
Proof.
  intros [Hp Hsz Hl Hpubs Hslots] Hi (Hr & Hs & _) Hd. split; simpl; [done|done| | |].
  - by eapply listed_insert.
  - intros p pub Hpub. eapply publishing_insert; eauto.
  - intros j slj [(-> & <- & _)|[Hne Hj]]%list_lookup_insert_Some; [done|by apply Hslots].
Qed.

Lemma inv_bus cap y b : inv cap y → mb_bufSize b = mb_bufSize (sy_bus y) → listed b (sy_slots y) →
  inv cap (mkSys b (sy_slots y) (sy_pubs y) (sy_panic y)).
Proof. intros [Hp Hsz Hl Hpubs Hslots] Hb Hlb. split; simpl; try done. by rewrite Hb. Qed.

Lemma inv_close_slot cap y i : inv cap y → inv cap (close_slot i y) ∧ sy_bus (close_slot i y) = sy_bus y.
Proof.
  intros Hinv. unfold close_slot. destruct (sy_slots y !! i) as [sl|] eqn:Hi; [|done].
  pose proof (in_slots _ _ Hinv _ _ Hi) as Hd. unfold close, close_chan. simpl.
  pose proof (dl_closed _ _ _ _ Hd) as Hc. destruct (ms_closed (sl_sub sl)) eqn:Ec; simpl.
  - split; [|done]. eapply inv_slot; [done|done|done|]. by destruct sl.
  - rewrite <- Hc. split; [|done]. eapply inv_slot; [done|done|done|].
    destruct Hd as [H1 H2 H3 H4 H5 H6 H7 H8 H9]. by split.
Qed.

Lemma inv_close_all cap l y : inv cap y → inv cap (foldl (λ y i, close_slot i y) y l).
Proof. revert y. induction l as [|i l IH]; intros y Hinv; simpl; [done|]. by apply IH, inv_close_slot. Qed.

Lemma inv_recv cap y i e ch c cc run since offered received :
  inv cap y → sy_slots y !! i = Some (mkSlot (mkSub (e :: ch) c cc) run since offered received) →
  inv cap (mkSys (sy_bus y) (<[i := mkSlot (mkSub ch c cc) run since offered (received ++ [e])]> (sy_slots y))
             (sy_pubs y) (sy_panic y)).
Proof.
  intros Hinv Hi. eapply inv_slot; [done|done|done|].
  destruct (in_slots _ _ Hinv _ _ Hi) as [H1 H2 H3 H4 H5 H6 H7 H8 H9]. simpl in *.
  split; simpl; try done; [by rewrite <- (assoc_L (++))|lia].
Qed.

(** *** Subscribing *)

Lemma listed_snoc b b' slots run : listed b slots →
  (∀ r, subscribers b' r = subscribers b r ++ (if decide (run = Some r) then [length slots] else [])) →
  mb_globalSubs b' = mb_globalSubs b ++ (if decide (run = None) then [length slots] else []) →
  ∀ since, listed b' (slots ++ [mkSlot newMemSub run since [] []]).
Proof.
  intros [H1 H2 H3 H4] Hs Hg since.
  assert (∀ i x, sl_run <$> (slots ++ [mkSlot newMemSub run since [] []]) !! i = Some x ↔
    sl_run <$> slots !! i = Some x ∨ (i = length slots ∧ x = run)) as Hl.
  { intros i x. destruct (decide (i < length slots)) as [Hlt|Hge].
    - rewrite lookup_app_l by done. split; [by left|]. intros [?|[-> _]]; [done|lia].
    - rewrite lookup_app_r by lia. rewrite (lookup_ge_None_2 slots) by lia.
      destruct (i - length slots) as [|k] eqn:E; simpl.
      + split; [intros [= <-]; right; split; [lia|done]|]. by intros [?|[_ ->]].
      + split; [done|]. intros [?|[-> _]]; [done|lia]. }
  assert (∀ i x, sl_run <$> slots !! i = Some x → i < length slots) as Hlt.
  { intros i x (sl & Hi & _)%fmap_Some. by eapply lookup_lt_Some. }
  split; [| | |].
  - intros r i. rewrite Hs, elem_of_app, H1, Hl. destruct (decide (run = Some r)) as [->|]; set_solver.
  - intros i. rewrite Hg, elem_of_app, H2, Hl. destruct (decide (run = None)) as [->|]; set_solver.
  - intros r. rewrite Hs. destruct (decide (run = Some r)); [|by rewrite app_nil_r].
    apply NoDup_app. split_and!; [done| |apply NoDup_singleton].
    intros i Hi%H1%Hlt ->%list_elem_of_singleton. lia.
  - rewrite Hg. destruct (decide (run = None)); [|by rewrite app_nil_r].
    apply NoDup_app. split_and!; [done| |apply NoDup_singleton].
    intros i Hi%H2%Hlt ->%list_elem_of_singleton. lia.
Qed.

Lemma delivered_new cap pubs i run : (0 ≤ cap)%Z → delivered cap pubs i (mkSlot newMemSub run (length pubs) [] []).
Proof.
  intros Hcap. split; simpl; try done; try (by constructor).
  - by intros p ?%not_elem_of_nil.
  - intros p pub ?%lookup_lt_Some _ Hge. lia.
  - by intros p q pub _ _ ?%not_elem_of_nil.
Qed.

Lemma inv_subscribe cap y run b : inv cap y → (0 ≤ cap)%Z → mb_bufSize b = cap →
  listed b (sy_slots y ++ [mkSlot newMemSub run (length (sy_pubs y)) [] []]) → inv cap (add_slot run b y).
Proof.
  intros [Hp Hsz Hl Hpubs Hslots] Hcap Hb Hlb. split; simpl; try done.
  - intros p pub Hpub. destruct (Hpubs p pub Hpub) as [Hn Hrest Hbef]. split; [done| |done].
    intros i Hi. destruct (Hrest i Hi) as (sl & Hsl & ?). exists sl. split; [|done]. by apply lookup_app_l_Some.
  - intros i sl [Hi|[Hge Hi]]%lookup_app_Some; [by apply Hslots|].
    apply list_lookup_singleton_Some in Hi as [_ <-]. by apply delivered_new.
Qed.
(** *** Publishing *)

Lemma inv_publish cap y e : inv cap y →
  inv cap (mkSys (sy_bus y) (sy_slots y)
    (sy_pubs y ++ [mkPub e (targets (sy_bus y) e) (negb (mb_closed (sy_bus y))) (returned_pubs (sy_pubs y))])
    (sy_panic y)).
Proof.
  intros [Hp Hsz Hl Hpubs Hslots]. set (pub := mkPub _ _ _ _). split; simpl; try done.
  - intros p pb [[_ Hpb]|[-> <-]]%lookup_snoc_Some.
    + destruct (Hpubs p pb Hpb) as [Hn Hrest Hbef]. split; [done|done|].
      intros q (x & Hx & E)%Hbef%fmap_Some. apply fmap_Some. exists x. split; [|done]. by apply lookup_app_l_Some.
    + split; simpl; [by eapply targets_once| |].
      * intros i Hi. destruct (mb_closed (sy_bus y)) eqn:Ec;
          [unfold targets in Hi; rewrite Ec in Hi; by apply not_elem_of_nil in Hi|].
        apply (targets_listed _ _ _ _ Hl Ec) in Hi as (sl & Hsl & Hm). exists sl. split_and!; [done| |done].
        pose proof (dl_since _ _ _ _ (Hslots i sl Hsl)). lia.
      * intros q (x & Hx & E)%returned_pubs_spec%fmap_Some. apply fmap_Some. exists x. split; [|done]. by apply lookup_app_l_Some.
  - intros i sl Hsl. destruct (Hslots i sl Hsl) as [H1 H2 H3 H4 H5 H6 H7 H8 H9].
    assert (∀ p, p ∈ (sl_offered sl).*1 → p < length (sy_pubs y)) as Hlt.
    { intros p (pb & Hpb & _)%H5. by eapply lookup_lt_Some. }
    split; try done.
    + rewrite H2. symmetry. apply taken_ext. intros p Hin. by rewrite lookup_app_l by auto.
    + intros p (pb & Hpb & ?)%H5. exists pb. split; [|done]. by apply lookup_app_l_Some.
    + intros p pb [[_ Hpb]|[-> <-]]%lookup_snoc_Some; [by apply H6|].
      simpl. intros Ho _ Hm. left. apply negb_true_iff in Ho. apply (targets_listed _ _ _ _ Hl Ho). eauto.
    + intros p q pb [[_ Hpb]|[-> <-]]%lookup_snoc_Some; [by apply H8|].
      intros _ _ Hq%Hlt. lia.
    + rewrite length_app. lia.
Qed.

(** The events of the publishes do not change. *)
Lemma rest_insert pubs p e i rest open before q :
  pubs !! p = Some (mkPub e (i :: rest) open before) →
  let pubs' := <[p := mkPub e rest open before]> pubs in
  (∀ pb, pubs' !! q = Some pb → ∃ pb0, pubs !! q = Some pb0 ∧ pb_event pb = pb_event pb0 ∧ pb_open pb = pb_open pb0 ∧
    pb_before pb = pb_before pb0 ∧ (q ≠ p → pb = pb0)) ∧
  (∀ pb, pubs !! q = Some pb → ∃ pb', pubs' !! q = Some pb' ∧ pb_event pb' = pb_event pb ∧
    (∀ j, j ∈ pb_rest pb' → j ∈ pb_rest pb)).
Proof.
  intros Hp pubs'. unfold pubs'. destruct (decide (q = p)) as [->|Hne].
  - rewrite list_lookup_insert_eq by (by eapply lookup_lt_Some). rewrite Hp. split; intros pb [= <-].
    + eexists. split_and!; [done|done|done|done|done].
    + eexists. split_and!; [done|done|]. simpl. intros j Hj. by right.
  - rewrite list_lookup_insert_ne by done. split; intros pb Hpb; exists pb; naive_solver.
Qed.

Lemma publishing_send slots pubs p e i rest open before q pb :
  pubs !! p = Some (mkPub e (i :: rest) open before) → (∀ q pb, pubs !! q = Some pb → publishing slots pubs q pb) →
  <[p := mkPub e rest open before]> pubs !! q = Some pb →
  publishing slots (<[p := mkPub e rest open before]> pubs) q pb.
Proof.
  intros Hp Hall Hpb. destruct (proj1 (rest_insert _ _ _ _ _ _ _ q Hp) pb Hpb) as (pb0 & Hpb0 & Ee & _ & Eb & Hne).
  destruct (Hall q pb0 Hpb0) as [Hn Hrest Hbef].
  assert (pb_rest pb = pb_rest pb0 ∨ pb_rest pb0 = i :: pb_rest pb) as Er.
  { destruct (decide (q = p)) as [->|]; [|left; by rewrite Hne].
    rewrite list_lookup_insert_eq in Hpb by (by eapply lookup_lt_Some). simplify_eq. by right. }
  split.
  - destruct Er as [-> | E]; [done|]. rewrite E in Hn. by apply NoDup_cons in Hn as [_ ?].
  - intros j Hj. rewrite Ee. apply Hrest. destruct Er as [<- | ->]; [done|by right].
  - rewrite Eb. intros r Hr. pose proof (Hbef r Hr) as E. destruct (decide (r = p)) as [->|];
      [by rewrite Hp in E|by rewrite list_lookup_insert_ne].
Qed.

(** A subscription that is not the one sent to. *)
Lemma delivered_other cap pubs p e i rest open before j sl : j ≠ i →
  pubs !! p = Some (mkPub e (i :: rest) open before) → delivered cap pubs j sl →
  delivered cap (<[p := mkPub e rest open before]> pubs) j sl.
Proof.
  intros Hji Hp [H1 H2 H3 H4 H5 H6 H7 H8 H9]. set (pubs' := <[p := _]> pubs).
  pose proof (λ q, rest_insert _ _ _ _ _ _ _ q Hp) as Hq. split; try done.
  - rewrite H2. symmetry. apply taken_ext. intros q (pb & Hpb & _)%H5.
    destruct (proj2 (Hq q) pb Hpb) as (pb' & Hpb' & E & _). rewrite Hpb. unfold pubs'. rewrite Hpb'. simpl. by rewrite E.
  - intros q (pb & Hpb & Hs & Hm & Hr)%H5. destruct (proj2 (Hq q) pb Hpb) as (pb' & Hpb' & E & Hsub).
    exists pb'. rewrite E. split_and!; try done. by intros ?%Hsub.
  - intros q pb Hpb. destruct (proj1 (Hq q) pb Hpb) as (pb0 & Hpb0 & -> & -> & _ & Hne). intros Ho Hs Hm.
    destruct (H6 q pb0 Hpb0 Ho Hs Hm) as [Hr|]; [left|by right].
    destruct (decide (q = p)) as [->|]; [|by rewrite Hne].
    unfold pubs' in Hpb. rewrite list_lookup_insert_eq in Hpb by (by eapply lookup_lt_Some). simplify_eq. simpl in *.
    by apply elem_of_cons in Hr as [?|?].
  - intros q r pb Hpb. destruct (proj1 (Hq r) pb Hpb) as (pb0 & Hpb0 & _ & _ & -> & _). by apply H8.
  - unfold pubs'. by rewrite length_insert.
Qed.

Lemma send_cases cap e s sub b : send cap e s = Some (sub, b) →
  (b = true ∧ ms_ch sub = ms_ch s ++ [e] ∧ (Z.of_nat (length (ms_ch s)) < cap)%Z ∨
   b = false ∧ sub = s ∧ (ms_closed s = true ∨ (cap ≤ Z.of_nat (length (ms_ch s)))%Z)) ∧
  ms_closed sub = ms_closed s ∧ ms_chanClosed sub = ms_chanClosed s.
Proof.
  destruct s as [ch [] []]; unfold send; simpl; [naive_solver..|].
  destruct (Z.ltb_spec (Z.of_nat (length ch)) cap); naive_solver.
Qed.

(** The subscription sent to. *)
Lemma delivered_sent cap pubs p e i rest open before slots sl sub b :
  pubs !! p = Some (mkPub e (i :: rest) open before) → slots !! i = Some sl →
  (∀ q pb, pubs !! q = Some pb → publishing slots pubs q pb) → delivered cap pubs i sl →
  send cap e (sl_sub sl) = Some (sub, b) →
  delivered cap (<[p := mkPub e rest open before]> pubs) i
    (mkSlot sub (sl_run sl) (sl_since sl) (sl_offered sl ++ [(p, b)]) (sl_received sl)).
Proof.
  intros Hp Hi Hpubs [H1 H2 H3 H4 H5 H6 H7 H8 H9] Hsend. set (pubs' := <[p := _]> pubs).
  pose proof (λ q, rest_insert _ _ _ _ _ _ _ q Hp) as Hq. destruct (Hpubs p _ Hp) as [Hn Hrest _]. simpl in *.
  destruct (Hrest i ltac:(left)) as (sl0 & ? & Hsince & Hmatch). simplify_eq.
  assert (p ∉ (sl_offered sl).*1) as Hfresh.
  { intros (pb & Hpb & _ & _ & Hr)%H5. simplify_eq. apply Hr. left. }
  assert (pubs' !! p = Some (mkPub e rest open before)) as Hp'
    by (apply list_lookup_insert_eq; by eapply lookup_lt_Some).
  assert (taken pubs' (sl_offered sl) = taken pubs (sl_offered sl)) as Htk.
  { apply taken_ext. intros q (pb & Hpb & _)%H5. destruct (proj2 (Hq q) pb Hpb) as (pb' & Hpb' & E & _).
    rewrite Hpb. unfold pubs'. rewrite Hpb'. simpl. by rewrite E. }
  destruct (send_cases _ _ _ _ _ Hsend) as (Hout & Hc & Hcc).
  split; simpl; rewrite ?fmap_app; simpl.
  - by rewrite Hc, Hcc.
  - rewrite taken_snoc, Htk, <- H2, Hp'. destruct Hout as [(-> & -> & _)|(-> & -> & _)]; simpl;
      [by rewrite (assoc_L (++))|by rewrite app_nil_r].
  - destruct Hout as [(-> & -> & ?)|(-> & -> & _)]; [|done]. rewrite length_app. simpl. lia.
  - apply NoDup_app. split_and!; [done| |apply NoDup_singleton]. by intros q Hqo ->%list_elem_of_singleton.
  - intros q [(pb & Hpb & Hs & Hm & Hr)%H5| ->%list_elem_of_singleton]%elem_of_app.
    + destruct (proj2 (Hq q) pb Hpb) as (pb' & Hpb' & E & Hsub). exists pb'. rewrite E. split_and!; try done. by intros ?%Hsub.
    + exists (mkPub e rest open before). split_and!; try done. by apply NoDup_cons in Hn as [? _].
  - intros q pb Hpb Ho Hs Hm. rewrite elem_of_app. destruct (decide (q = p)) as [->|Hne]; [right; right; left|].
    destruct (proj1 (Hq q) pb Hpb) as (pb0 & Hpb0 & _ & _ & _ & Heq). rewrite (Heq Hne) in *.
    destruct (H6 q pb0 Hpb0 Ho Hs Hm); auto.
  - rewrite Hc, length_app. simpl. intros Hcl Hlen. apply Forall_app. split; [apply H7; [done|lia]|].
    constructor; [|constructor]. destruct Hout as [(-> & _)|(-> & _ & Hd)]; [done|]. exfalso.
    destruct Hd as [?|Hfull]; [congruence|]. assert (length (ms_ch (sl_sub sl)) ≤ length (sl_offered sl)); [|lia].
    apply (f_equal length) in H2. rewrite length_app in H2.
    pose proof (taken_length pubs (sl_offered sl)). lia.
  - intros q r pb Hpb. destruct (proj1 (Hq r) pb Hpb) as (pb0 & Hpb0 & _ & _ & -> & _). intros Hbef.
    assert (q ≠ p) as Hqp.
    { intros ->. pose proof (pg_before _ _ _ _ (Hpubs r pb0 Hpb0) p Hbef) as E. by rewrite Hp in E. }
    rewrite !elem_of_app, !list_elem_of_singleton. intros [Hqo|?] [Hro| ->]; try done.
    + by apply precedes_app, (H8 q r pb0).
    + exists (sl_offered sl).*1, [p]. split_and!; [done|done|left].
  - unfold pubs'. by rewrite length_insert.
Qed.
(** An open channel can be sent to. *)
Lemma send_safe cap e s : ms_closed s = ms_chanClosed s → ∃ sub b, send cap e s = Some (sub, b).
Proof.
  destruct s as [ch [] []]; unfold send; simpl; try done; [eauto|].
  destruct (Z.of_nat (length ch) <? cap)%Z; eauto.
Qed.

Lemma inv_send cap y p e i rest open before sl sub b : inv cap y →
  sy_pubs y !! p = Some (mkPub e (i :: rest) open before) → sy_slots y !! i = Some sl →
  send cap e (sl_sub sl) = Some (sub, b) →
  inv cap (mkSys (sy_bus y)
    (<[i := mkSlot sub (sl_run sl) (sl_since sl) (sl_offered sl ++ [(p, b)]) (sl_received sl)]> (sy_slots y))
    (<[p := mkPub e rest open before]> (sy_pubs y)) (sy_panic y)).
Proof.
  intros [Hpa Hsz Hl Hpubs Hslots] Hp Hi Hs. split; simpl; [done|done| | |].
  - by eapply listed_insert.
  - intros q pb Hpb. eapply publishing_insert; [done|done|done|]. by eapply publishing_send.
  - intros j slj [(-> & <- & _)|[Hne Hj]]%list_lookup_insert_Some.
    + eapply delivered_sent; [done|done|done|by apply Hslots|done].
    + eapply delivered_other; [by apply not_eq_sym|done|by apply Hslots].
Qed.

Lemma subscribers_Subscribe b r s sub :
  subscribers (Subscribe r sub b) s = subscribers b s ++ (if decide (Some r = Some s) then [sub] else []).
Proof.
  unfold subscribers, Subscribe. simpl. case_decide; simplify_eq; [by rewrite lookup_insert_eq|].
  rewrite lookup_insert_ne by congruence. by rewrite app_nil_r.
Qed.

Lemma bus_step cap m y y' : (0 ≤ cap)%Z → inv cap y → exec_move m y = Some y' → inv cap y'.
Proof.
  intros Hcap Hinv. destruct m as [r| |e|p|i|i|]; simpl.
  - destruct (idle y); [|done]. intros [= <-]. apply inv_subscribe; [done|done|apply Hinv|].
    eapply listed_snoc; [apply Hinv|intros; apply subscribers_Subscribe|]. simpl. by rewrite app_nil_r.
  - destruct (idle y); [|done]. intros [= <-]. apply inv_subscribe; [done|done|apply Hinv|].
    eapply listed_snoc; [apply Hinv| |done]. intros r. by rewrite app_nil_r.
  - intros [= <-]. by apply inv_publish.
  - destruct (sy_pubs y !! p) as [[e [|i rest] open before]|] eqn:Hp; [done| |done].
    destruct (sy_slots y !! i) as [sl|] eqn:Hi; [|done]. intros [= <-]. rewrite (in_size _ _ Hinv).
    destruct (send_safe cap e (sl_sub sl)) as (sub & b & Hs); [apply (in_slots _ _ Hinv _ _ Hi)|]. rewrite Hs.
    by eapply inv_send.
  - destruct (sy_slots y !! i) as [[[[|e ch] c cc] run since offered received]|] eqn:Hi; try done. intros [= <-].
    by eapply inv_recv.
  - destruct (sy_slots y !! i) eqn:Hi; [|done]. intros [= <-]. by apply inv_close_slot.
  - destruct (idle y); [|done]. intros [= <-]. apply inv_close_all.
    apply (inv_bus _ _ (set_closed (sy_bus y))) in Hinv; [done|done|]. by destruct (in_listed _ _ Hinv).
Qed.

(** The capacity of the buffers. *)
Definition capacity (size : Z) : Z := mb_bufSize (NewMemBus size).

Lemma capacity_pos size : (0 < capacity size)%Z.
Proof. unfold capacity. simpl. destruct (Z.leb_spec size 0); lia. Qed.

Lemma bus_inv size y : reachable size y → inv (capacity size) y.
Proof.
  induction 1 as [|y m y' _ IH Hm].
  - split; simpl; [done|done| |done|done].
    assert (∀ r, subscribers (NewMemBus size) r = []) as Hs by (intros r; unfold subscribers; simpl; by rewrite lookup_empty).
    split; simpl; [intros r i; rewrite Hs|intros i|intros r; rewrite Hs; constructor|constructor];
      (split; [by intros ?%not_elem_of_nil|done]).
  - eapply bus_step; [|done|done]. pose proof (capacity_pos size). lia.
Qed.


(** ** Examples *)

Definition run_moves (ms : list move) (y : system) : option system :=
  foldl (λ acc m, acc ≫= exec_move m) (Some y) ms.

Lemma bus_moves_reachable size ms y y' : reachable size y → run_moves ms y = Some y' → reachable size y'.
Proof.
  unfold run_moves. revert y. induction ms as [|m ms IH]; intros y Hy; simpl; [by intros [= <-]|].
  destruct (exec_move m y) as [y1|] eqn:E; [intros; eapply IH; [by eapply reach_step|done]|].
  intros Hn. exfalso. revert Hn. clear. induction ms; [done|]. done.
Qed.

Definition event_of (run kind : string) : Event := mkEvent kind run "" "" 0 0 0 ∅ 0 "" "".

(** Two runs, a buffer of two: the third event of run "a" is dropped. *)
Definition sample_moves : list move :=
  [MSubscribe "a"; MSubscribeAll; MPublish (event_of "a" "1"); MSend 0; MSend 0; MPublish (event_of "b" "2"); MSend 1;
   MPublish (event_of "a" "3"); MSend 2; MSend 2; MRecv 0; MPublish (event_of "a" "4"); MSend 3; MSend 3].

Definition kinds (sl : slot) : list string * list string := (map ev_Kind (sl_received sl), map ev_Kind (ms_ch (sl_sub sl))).

Example bus_samples :
  (λ y, map kinds (sy_slots y)) <$> run_moves sample_moves (start 2) =
  Some [(["1"], ["3"; "4"]); ([], ["1"; "2"])].
Proof. vm_compute. reflexivity. Qed.

(** A subscription made after the bus was closed is never closed. *)
Example late_subscription_open :
  (λ y, map (λ sl, ms_closed (sl_sub sl)) (sy_slots y)) <$> run_moves [MSubscribe "a"; MClose; MSubscribe "a"] (start 2) =
  Some [true; false].
Proof. vm_compute. reflexivity. Qed.

(** A closed subscription stays in the lists of the bus. *)
Example closed_subscription_kept :
  (λ y, subscribers (sy_bus y) "a") <$> run_moves [MSubscribe "a"; MCloseSub 0] (start 2) = Some [0].
Proof. vm_compute. reflexivity. Qed.

End MemBus.

Module Throttle.


(** ** The emitter *)

Record ThrottledEmitter := mkThrottle {
  te_interval : Z; te_pending : gmap string Event; te_closed : bool; te_stop : bool; te_done : bool
}.

Definition NewThrottledEmitter (coalesceInterval : Z) : ThrottledEmitter :=
  mkThrottle (if (coalesceInterval <=? 0)%Z then 100000000 else coalesceInterval) ∅ false false false.

Definition set_pending (m : gmap string Event) (t : ThrottledEmitter) : ThrottledEmitter :=
  mkThrottle (te_interval t) m (te_closed t) (te_stop t) (te_done t).

(** [Emit] of a delta. *)
Definition emit_delta (e : Event) (t : ThrottledEmitter) : ThrottledEmitter :=
  if te_closed t then t else set_pending (<[ev_NodeID e := e]> (te_pending t)) t.

(** The background loop: it waits, hands events on (the last flush ends it), or has ended. *)
Inductive loop := LWait | LEmit (rest : list Event) (last : bool) | LEnd.

(** A call of [Close]: before it closes the channel, waiting for the loop, or returned. *)
Inductive closing := CStop | CWait | CReturned.

(** [th_out]: the events the wrapped emitter was given. What follows is not in the code:
    the other events emitted, and the deltas that were accepted. *)
Record system := mkSys {
  th_te : ThrottledEmitter; th_loop : loop; th_closers : list closing; th_panic : bool;
  th_out : list Event; th_passed : list Event; th_accepted : list Event
}.

Inductive move :=
| TEmit (e : Event)
| TTick                        (** the ticker fires in the loop *)
| TFlush                       (** the next event of a flush *)
| TStopped                     (** the loop sees the channel closed *)
| TClose                       (** [Close] is called *)
| TCloseStop (j : nat)
| TCloseDone (j : nat).

Section Throttle.
Context `{RangeOrder}.
Implicit Types (y : system) (e : Event).

(** The flush begins: the pending events are swapped out. *)
Definition flush (last : bool) y : system :=
  let t := th_te y in
  mkSys (set_pending ∅ t) (LEmit (map snd (range_map "flush" (te_pending t))) last) (th_closers y) (th_panic y)
    (th_out y) (th_passed y) (th_accepted y).

(** [close(te.doneCh)] when the loop returns. *)
Definition end_loop y : system :=
  let t := th_te y in
  mkSys (mkThrottle (te_interval t) (te_pending t) (te_closed t) (te_stop t) true) LEnd (th_closers y)
    (th_panic y || te_done t) (th_out y) (th_passed y) (th_accepted y).

Definition with_closer (j : nat) (c : closing) (t : ThrottledEmitter) (panic : bool) y : system :=
  mkSys t (th_loop y) (<[j := c]> (th_closers y)) panic (th_out y) (th_passed y) (th_accepted y).

Definition exec_move (m : move) y : option system :=
  let t := th_te y in
  match m with
  | TEmit e =>
      Some (if bool_decide (ev_Kind e ≠ EventNodeOutputDelta) then
              mkSys t (th_loop y) (th_closers y) (th_panic y) (th_out y ++ [e]) (th_passed y ++ [e]) (th_accepted y)
            else
              mkSys (emit_delta e t) (th_loop y) (th_closers y) (th_panic y) (th_out y) (th_passed y)
                (if te_closed t then th_accepted y else th_accepted y ++ [e]))
  | TTick => match th_loop y with LWait => Some (flush false y) | _ => None end
  | TStopped => match th_loop y with LWait => if te_stop t then Some (flush true y) else None | _ => None end
  | TFlush =>
      match th_loop y with
      | LEmit (e :: rest) last =>
          Some (mkSys t (LEmit rest last) (th_closers y) (th_panic y) (th_out y ++ [e]) (th_passed y) (th_accepted y))
      | LEmit [] true => Some (end_loop y)
      | LEmit [] false =>
          Some (mkSys t LWait (th_closers y) (th_panic y) (th_out y) (th_passed y) (th_accepted y))
      | _ => None
      end
  | TClose =>
      Some (mkSys (mkThrottle (te_interval t) (te_pending t) true (te_stop t) (te_done t)) (th_loop y)
              (th_closers y ++ [if te_closed t then CReturned else CStop]) (th_panic y) (th_out y) (th_passed y)
              (th_accepted y))
  | TCloseStop j =>
      match th_closers y !! j with
      | Some CStop =>
          Some (with_closer j CWait (mkThrottle (te_interval t) (te_pending t) (te_closed t) true (te_done t))
                  (th_panic y || te_stop t) y)
      | _ => None
      end
  | TCloseDone j =>
      match th_closers y !! j with
      | Some CWait => if te_done t then Some (with_closer j CReturned t (th_panic y) y) else None
      | _ => None
      end
  end.

Definition start (coalesceInterval : Z) : system :=
  mkSys (NewThrottledEmitter coalesceInterval) LWait [] false [] [] [].

Inductive reachable (interval : Z) : system → Prop :=
| reach_start : reachable interval (start interval)
| reach_step y m y' : reachable interval y → exec_move m y = Some y' → reachable interval y'.
(** ** What is passed on *)

Definition is_delta e : Prop := ev_Kind e = EventNodeOutputDelta.
#[local] Instance is_delta_dec e : Decision (is_delta e).
Proof. unfold is_delta. apply _. Defined.

(** The deltas of a node. *)
Definition deltas (n : string) (l : list Event) : list Event := filter (λ e, is_delta e ∧ ev_NodeID e = n) l.

Definition others (l : list Event) : list Event := filter (λ e, ¬ is_delta e) l.

Definition in_flight y : list Event := match th_loop y with LEmit rest _ => rest | _ => [] end.

Definition pending_of y (n : string) : list Event := option_list (te_pending (th_te y) !! n).

(** The deltas of a node that were or will be passed on. *)
Definition on_way y (n : string) : list Event :=
  deltas n (th_out y) ++ deltas n (in_flight y) ++ pending_of y n.

Definition flushing (l : loop) : Prop := match l with LEmit _ true | LEnd => True | _ => False end.

Record inv y : Prop := {
  ti_panic : th_panic y = false;
  ti_stop : te_stop (th_te y) = true → te_closed (th_te y) = true;
  ti_closer : ∀ j, th_closers y !! j = Some CStop → te_closed (th_te y) = true ∧ te_stop (th_te y) = false ∧
    ∀ k, th_closers y !! k = Some CStop → k = j;
  ti_done : te_done (th_te y) = true ↔ th_loop y = LEnd;
  ti_last : flushing (th_loop y) → te_closed (th_te y) = true ∧ te_pending (th_te y) = ∅;
  ti_pending : ∀ n e, te_pending (th_te y) !! n = Some e → is_delta e ∧ ev_NodeID e = n;
  ti_flight : Forall is_delta (in_flight y);
  ti_others : others (th_out y) = th_passed y;
  ti_sub : ∀ n, on_way y n `sublist_of` deltas n (th_accepted y);
  ti_latest : ∀ n, last (on_way y n) = last (deltas n (th_accepted y))
}.

Lemma deltas_app n l k : deltas n (l ++ k) = deltas n l ++ deltas n k.
Proof. apply filter_app. Qed.

Lemma deltas_cons n e l : deltas n (e :: l) = deltas n [e] ++ deltas n l.
Proof. apply (deltas_app n [e] l). Qed.

Lemma deltas_one n e : is_delta e → deltas n [e] = if decide (ev_NodeID e = n) then [e] else [].
Proof.
  intros He. unfold deltas. rewrite filter_cons, filter_nil. repeat case_decide; try done; naive_solver.
Qed.

Lemma others_delta l e : is_delta e → others (l ++ [e]) = others l.
Proof.
  intros He. unfold others. rewrite filter_app, filter_cons, filter_nil, decide_False by (by intros []).
  by rewrite app_nil_r.
Qed.

(** The values of a map have one entry for a key. *)
Lemma deltas_values n site (m : gmap string Event) : (∀ n e, m !! n = Some e → is_delta e ∧ ev_NodeID e = n) →
  deltas n (map snd (range_map site m)) = option_list (m !! n).
Proof.
  intros Hm. assert (∀ k e, (k, e) ∈ range_map site m ↔ m !! k = Some e) as Hin by (intros; apply elem_of_range).
  assert (NoDup (range_map site m).*1) as Hnd
    by (rewrite (range_map_perm site m); apply NoDup_fst_map_to_list).
  assert (∀ l, (∀ k e, (k, e) ∈ l → m !! k = Some e) → NoDup l.*1 → ∀ e, m !! n = Some e →
    deltas n (map snd l) = if decide (n ∈ l.*1) then [e] else []) as Hl.
  { intros l Hsub Hnd' e He. induction l as [|[k x] l IH]; [done|]. apply NoDup_cons in Hnd' as [Hk Hnd'].
    destruct (Hm k x) as [Hd Hx]; [apply Hsub; left|]. cbn [map fmap list_fmap fst snd].
    rewrite deltas_cons, (deltas_one _ _ Hd), Hx, IH by (try done; intros; apply Hsub; by right).
    destruct (decide (k = n)) as [->|Hne].
    - assert (x = e) as -> by (enough (Some x = Some e) by congruence; rewrite <- He; symmetry; apply Hsub; left).
      rewrite (decide_False (P := n ∈ l.*1)), decide_True by (done || left). done.
    - simpl. apply decide_ext. rewrite elem_of_cons. naive_solver. }
  destruct (m !! n) as [e|] eqn:He; simpl.
  - rewrite (Hl _ (λ k x, proj1 (Hin k x)) Hnd e eq_refl), decide_True; [done|].
    apply list_elem_of_fmap. exists (n, e). split; [done|by apply Hin].
  - unfold deltas. apply elem_of_nil_inv. intros x [[_ Hz] ([k z] & -> & Hk%Hin)%list_elem_of_fmap]%list_elem_of_filter.
    destruct (Hm _ _ Hk) as [_ Hn]. simpl in *. congruence.
Qed.

Lemma last_app_nonempty {A} (l k : list A) : k ≠ [] → last (l ++ k) = last k.
Proof. intros Hk. rewrite last_app. destruct (last k) eqn:E; [done|]. by apply last_None in E. Qed.
(** *** Steps *)

(** A step that leaves the loop and the events alone. *)
Lemma inv_control y y' : inv y → th_loop y' = th_loop y → th_out y' = th_out y → th_passed y' = th_passed y →
  th_accepted y' = th_accepted y → te_pending (th_te y') = te_pending (th_te y) → te_done (th_te y') = te_done (th_te y) →
  te_closed (th_te y') = te_closed (th_te y) ∨ te_closed (th_te y') = true →
  th_panic y' = false → (te_stop (th_te y') = true → te_closed (th_te y') = true) →
  (∀ j, th_closers y' !! j = Some CStop → te_closed (th_te y') = true ∧ te_stop (th_te y') = false ∧
    ∀ k, th_closers y' !! k = Some CStop → k = j) → inv y'.
Proof.
  intros [H1 H2 H3 H4 H5 H6 H7 H8 H9 H10] El Eo Ep Ea Epe Ed Ec Hpa Hs Hc.
  assert (in_flight y' = in_flight y) as Ef by (unfold in_flight; by rewrite El).
  assert (∀ n, on_way y' n = on_way y n) as Ew by (intros n; unfold on_way, pending_of; by rewrite Eo, Ef, Epe).
  split; rewrite ?El, ?Eo, ?Ep, ?Epe, ?Ef, ?Ed; try done.
  - intros Hf. destruct (H5 Hf) as [Hcl ->]. split; [|done]. destruct Ec; congruence.
  - intros n. by rewrite Ew, Ea.
  - intros n. by rewrite Ew, Ea.
Qed.

Lemma inv_pass y e : inv y → ¬ is_delta e →
  inv (mkSys (th_te y) (th_loop y) (th_closers y) (th_panic y) (th_out y ++ [e]) (th_passed y ++ [e]) (th_accepted y)).
Proof.
  intros [H1 H2 H3 H4 H5 H6 H7 H8 H9 H10] He.
  assert (∀ n, deltas n (th_out y ++ [e]) = deltas n (th_out y)) as Ed.
  { intros n. rewrite deltas_app. unfold deltas at 2. rewrite filter_cons, filter_nil, decide_False by naive_solver.
    by rewrite app_nil_r. }
  split; try done; simpl.
  - unfold others in *. rewrite filter_app, H8, filter_cons, filter_nil, decide_True by done. done.
  - intros n. specialize (H9 n). unfold on_way in *. simpl. by rewrite Ed.
  - intros n. specialize (H10 n). unfold on_way in *. simpl. by rewrite Ed.
Qed.

Lemma inv_accept y e : inv y → is_delta e → te_closed (th_te y) = false →
  inv (mkSys (emit_delta e (th_te y)) (th_loop y) (th_closers y) (th_panic y) (th_out y) (th_passed y)
         (th_accepted y ++ [e])).
Proof.
  intros [H1 H2 H3 H4 H5 H6 H7 H8 H9 H10] He Hc. unfold emit_delta. rewrite Hc. split; try done; simpl.
  - intros Hf. destruct (H5 Hf). congruence.
  - intros n x [[<- <-]|[_ Hx]]%lookup_insert_Some; [done|by apply H6].
  - intros n. specialize (H9 n). unfold on_way, pending_of in *. simpl. rewrite deltas_app, (deltas_one _ _ He).
    destruct (decide (ev_NodeID e = n)) as [<-|Hne].
    + rewrite lookup_insert_eq. simpl. rewrite (assoc_L (++)). apply sublist_app; [|done].
      rewrite (assoc_L (++)) in H9. etrans; [|exact H9]. by apply sublist_inserts_r.
    + by rewrite lookup_insert_ne, app_nil_r.
  - intros n. specialize (H10 n). unfold on_way, pending_of in *. simpl. rewrite deltas_app, (deltas_one _ _ He).
    destruct (decide (ev_NodeID e = n)) as [<-|Hne].
    + rewrite lookup_insert_eq. simpl. by rewrite (assoc_L (++)), !last_snoc.
    + by rewrite lookup_insert_ne, app_nil_r.
Qed.

Lemma inv_flush y b : inv y → th_loop y = LWait → (b = true → te_closed (th_te y) = true) → inv (flush b y).
Proof.
  intros [H1 H2 H3 H4 H5 H6 H7 H8 H9 H10] Hl Hb. unfold flush.
  assert (te_done (th_te y) = false) as Hd by (destruct (te_done (th_te y)); [by rewrite (proj1 H4 eq_refl) in Hl|done]).
  assert (∀ n, on_way (flush b y) n = on_way y n) as Ew.
  { intros n. unfold on_way, pending_of, in_flight, flush. simpl. rewrite Hl, (deltas_values _ _ _ H6), lookup_empty.
    simpl. by rewrite app_nil_r. }
  split; try done; simpl.
  - rewrite Hd. by split.
  - intros Hf. destruct b; [|done]. by split; [apply Hb|].
  - unfold in_flight. simpl. apply Forall_forall. intros x ([k z] & -> & Hk%elem_of_range)%list_elem_of_fmap.
    by apply H6 in Hk as [? _].
  - intros n. change (mkSys _ _ _ _ _ _ _) with (flush b y). by rewrite Ew.
  - intros n. change (mkSys _ _ _ _ _ _ _) with (flush b y). by rewrite Ew.
Qed.

Lemma inv_flush_one y e rest b : inv y → th_loop y = LEmit (e :: rest) b →
  inv (mkSys (th_te y) (LEmit rest b) (th_closers y) (th_panic y) (th_out y ++ [e]) (th_passed y) (th_accepted y)).
Proof.
  intros [H1 H2 H3 H4 H5 H6 H7 H8 H9 H10] Hl. unfold in_flight in H7. rewrite Hl in *.
  apply Forall_cons in H7 as [He Hrest].
  set (y' := mkSys _ _ _ _ _ _ _). assert (∀ n, on_way y' n = on_way y n) as Ew.
  { intros n. unfold on_way, pending_of, in_flight. simpl. rewrite Hl, (deltas_cons n e rest), deltas_app.
    by rewrite <- !(assoc_L (++)). }
  split; try done; simpl.
  - rewrite H4. by split.
  - by rewrite others_delta.
  - intros n. by rewrite Ew.
  - intros n. by rewrite Ew.
Qed.

(** A flush that is over. *)
Lemma inv_flushed y b y' : inv y → th_loop y = LEmit [] b → th_loop y' = (if b then LEnd else LWait) →
  th_te y' = mkThrottle (te_interval (th_te y)) (te_pending (th_te y)) (te_closed (th_te y)) (te_stop (th_te y))
               (b || te_done (th_te y)) →
  th_closers y' = th_closers y → th_panic y' = false → th_out y' = th_out y → th_passed y' = th_passed y →
  th_accepted y' = th_accepted y → inv y'.
Proof.
  intros [H1 H2 H3 H4 H5 H6 H7 H8 H9 H10] Hl El Et Ec Hp Eo Epa Ea.
  assert (te_done (th_te y) = false) as Hd by (destruct (te_done (th_te y)); [by rewrite (proj1 H4 eq_refl) in Hl|done]).
  assert (in_flight y' = []) as Ef by (unfold in_flight; rewrite El; by destruct b).
  assert (∀ n, on_way y' n = on_way y n) as Ew.
  { intros n. unfold on_way, pending_of. rewrite Eo, Ef, Et. unfold in_flight. by rewrite Hl. }
  split; rewrite ?Et, ?Ec, ?El, ?Ef, ?Eo, ?Epa; simpl; try done.
  - rewrite Hd. by destruct b.
  - rewrite Hl in H5. destruct b; [by intros _; apply H5|done].
  - intros n. by rewrite Ew, Ea.
  - intros n. by rewrite Ew, Ea.
Qed.

Lemma throttle_step m y y' : inv y → exec_move m y = Some y' → inv y'.
Proof.
  intros Hinv. destruct m as [e| | | | |j|j]; cbn [exec_move].
  - intros [= <-]. case_bool_decide as He; [by apply inv_pass|].
    destruct (te_closed (th_te y)) eqn:Hc; [|by apply inv_accept].
    unfold emit_delta. rewrite Hc. by destruct y.
  - destruct (th_loop y) eqn:Hl; try done. intros [= <-]. by apply inv_flush.
  - destruct (th_loop y) as [|[|e rest] b|] eqn:Hl; try done.
    + destruct b; intros [= <-]; eapply (inv_flushed y); try done; try apply Hinv; simpl.
      * rewrite (ti_panic _ Hinv). destruct (te_done (th_te y)) eqn:Hd; [|done].
        apply (ti_done _ Hinv) in Hd. congruence.
      * by destruct (th_te y).
    + intros [= <-]. by eapply inv_flush_one.
  - destruct (th_loop y) eqn:Hl; try done. destruct (te_stop (th_te y)) eqn:Hs; [|done]. intros [= <-].
    apply inv_flush; [done|done|]. intros _. by apply Hinv.
  - intros [= <-]. eapply (inv_control y); try done; simpl; [by right|apply Hinv|].
    intros j Hj. split; [done|]. destruct (te_closed (th_te y)) eqn:Hc.
    + apply lookup_snoc_Some in Hj as [[_ Hj]|[_ [=]]]. destruct (ti_closer _ Hinv j Hj) as (_ & Hs & Hu).
      split; [done|]. intros k [[_ Hk]|[_ [=]]]%lookup_snoc_Some. by apply Hu.
    + assert (∀ k, th_closers y !! k ≠ Some CStop) as Hno by (intros k [Hk _]%(ti_closer _ Hinv); congruence).
      split; [destruct (te_stop (th_te y)) eqn:Hs; [|done]; apply (ti_stop _ Hinv) in Hs; congruence|].
      intros k [[_ Hk]|[-> _]]%lookup_snoc_Some; [by destruct (Hno k)|].
      apply lookup_snoc_Some in Hj as [[_ Hj]|[-> _]]; [by destruct (Hno j)|done].
  - destruct (th_closers y !! j) as [[]|] eqn:Hj; try done. intros [= <-].
    destruct (ti_closer _ Hinv j Hj) as (Hc & Hs & Hu).
    eapply (inv_control y); try done; simpl; [by left|by rewrite (ti_panic _ Hinv), Hs|].
    intros k [(-> & [=] & _)|[Hne Hk]]%list_lookup_insert_Some. by destruct (Hu k Hk).
  - destruct (th_closers y !! j) as [[]|] eqn:Hj; try done. destruct (te_done (th_te y)) eqn:Hd; [|done]. intros [= <-].
    eapply (inv_control y); try done; simpl; [by left|apply Hinv|apply Hinv|].
    intros k [(-> & [=] & _)|[Hne Hk]]%list_lookup_insert_Some. destruct (ti_closer _ Hinv k Hk) as (Hc & Hs & Hu).
    split_and!; [done|done|]. intros i [(-> & [=] & _)|[_ Hi]]%list_lookup_insert_Some. by apply Hu.
Qed.

Lemma throttle_inv interval y : reachable interval y → inv y.
Proof.
  induction 1 as [|y m y' _ IH Hm]; [|by eapply throttle_step].
  split; try done; simpl.
Qed.
(** C26: in every interleaving of emitters, the background loop and calls of [Close],
    nothing panics; events that are not deltas are passed on in the order they were
    emitted; the deltas passed on of a node are among those accepted, in their order;
    and when the loop has ended, the last delta passed on of a node is the last one
    that was accepted. Once [Close] has closed its channel, the loop can always go on
    until it ends. *)
Theorem throttle_delivery interval y : reachable interval y →
  th_panic y = false ∧ others (th_out y) = th_passed y ∧
  (∀ n, deltas n (th_out y) `sublist_of` deltas n (th_accepted y)) ∧
  (te_done (th_te y) = true → ∀ n, last (deltas n (th_out y)) = last (deltas n (th_accepted y))) ∧
  (te_stop (th_te y) = true → te_done (th_te y) = false →
    is_Some (exec_move TStopped y) ∨ is_Some (exec_move TFlush y)).
Proof.
  intros Hinv%throttle_inv. split_and!; [apply Hinv|apply Hinv| | |].
  - intros n. etrans; [|apply (ti_sub _ Hinv)]. unfold on_way. by apply sublist_inserts_r.
  - intros Hl%(ti_done _ Hinv) n. rewrite <- (ti_latest _ Hinv). unfold on_way, in_flight, pending_of.
    destruct (ti_last _ Hinv) as [_ ->]; [by rewrite Hl|]. by rewrite Hl, lookup_empty, app_nil_r.
  - intros Hs Hd. simpl. rewrite Hs. destruct (th_loop y) as [|[|e rest] []|] eqn:Hl; eauto.
    apply (ti_done _ Hinv) in Hl. congruence.
Qed.

Definition run_moves (ms : list move) y : option system := foldl (λ acc m, acc ≫= exec_move m) (Some y) ms.

Lemma throttle_moves_reachable interval ms y y' : reachable interval y → run_moves ms y = Some y' → reachable interval y'.
Proof.
  unfold run_moves. revert y. induction ms as [|m ms IH]; intros y Hy; simpl; [by intros [= <-]|].
  destruct (exec_move m y) as [y1|] eqn:E; [intros; eapply IH; [by eapply reach_step|done]|].
  intros Hn. exfalso. revert Hn. clear. induction ms; [done|]. done.
Qed.
End Throttle.

(** ** Examples *)

Existing Instance key_order.

Definition event_of (kind node run : string) : Event := mkEvent kind run node "" 0 0 0 ∅ 0 "" "".
Definition delta (node text : string) : Event := event_of EventNodeOutputDelta node text.

(** Three deltas, the last passed on by [Close]; the one after it is dropped. *)
Definition sample_moves : list move :=
  [TEmit (delta "n" "1"); TEmit (delta "n" "2"); TTick; TFlush; TFlush; TEmit (delta "n" "3");
   TEmit (event_of "node.finished" "n" "end"); TClose; TEmit (delta "n" "4"); TCloseStop 0; TStopped; TFlush; TFlush;
   TCloseDone 0].

(** The last delta comes after the event that ends the node. *)
Example throttle_samples :
  (λ y, (map ev_RunID (th_out y), th_closers y)) <$> run_moves sample_moves (start 0) =
  Some (["2"; "end"; "3"], [CReturned]).
Proof. vm_compute. reflexivity. Qed.

(** A second call of [Close] returns while deltas are still pending. *)
Example close_returns_early :
  (λ y, (map ev_RunID (th_out y), th_closers y)) <$> run_moves [TEmit (delta "n" "1"); TClose; TClose] (start 0) =
  Some ([], [CStop; CReturned]).
Proof. vm_compute. reflexivity. Qed.

Lemma throttle_delivery_witness : ∃ y, run_moves sample_moves (start 0) = Some y ∧
  last (deltas "n" (th_out y)) = last (deltas "n" (th_accepted y)) ∧ length (th_accepted y) = 3.
Proof.
  destruct (run_moves sample_moves (start 0)) as [y|] eqn:E; [|vm_compute in E; discriminate E].
  exists y. destruct (throttle_delivery 0 y) as (_ & _ & _ & Hl & _).
  { eapply throttle_moves_reachable; [apply reach_start|exact E]. }
  split; [reflexivity|]. vm_compute in E. injection E as <-. split; [by apply Hl|reflexivity].
Defined.
End Throttle.
