(* ===== verification/EventStore.v ===== *)
(** * The event store (bus/store.go, bus/sqlitestore.go, bus/store_subscriber.go)

    The table of events: appending, listing by run and sequence number, the latest
    number, the known runs, and pruning by age and by count. A failure of the database
    is an argument of each operation; the table refuses a second event with the same
    run and number, and never reuses an ID.

    The theorems: whatever was appended and pruned, a run is listed in the order of
    its numbers, with exactly the rows that are there ([List_spec]); what is listed
    after appends is what was accepted ([store_replay]); pruning by count keeps
    exactly the last events of every run ([Prune_count]). *)

From stdpp Require Import gmap strings list sorting.
From Stdlib Require Import Ascii ZArith Lia.
From S2P Require Import Prelude Values Events.

(** ** Rows *)

Record event_row := mkEventRow {
  er_id : nat; er_run_id : string; er_seq : Z; er_kind : string; er_node_id : string; er_node_kind : string; er_time : string;
  er_attempt : Z; er_elapsed : Z; er_payload : string; er_trace_id : string; er_span_id : string
}.

(** The table, with the next ID. *)
Record event_table := mkEvents { et_next : nat; et_rows : list event_row }.

(** The JSON of payloads, and times as text (RFC3339 with nanoseconds). *)
Class EventLibs := {
  payload_Marshal : gmap string payload → string + error;
  payload_Unmarshal : string → gmap string payload + error;
  time_text : Z → string;
  parse_text : string → Z + error
}.

Record SQLiteStoreConfig := mkStoreConfig { sc_RetentionAge : Z; sc_RetentionCount : Z; sc_PruneInterval : Z }.

(** [NewSQLiteEventStore]: the configuration in effect, the empty table of a new
    database, and whether the pruner runs. *)
Definition NewSQLiteEventStore (cfg : SQLiteStoreConfig) : SQLiteStoreConfig * event_table * bool :=
  (mkStoreConfig (sc_RetentionAge cfg) (sc_RetentionCount cfg)
     (if (sc_PruneInterval cfg =? 0)%Z then 3600000000000%Z else sc_PruneInterval cfg),
   mkEvents 1 [], (0 <? sc_RetentionAge cfg)%Z || (0 <? sc_RetentionCount cfg)%Z).

Definition seq_le (a b : event_row) : Prop := (er_seq a ≤ er_seq b)%Z.
#[export] Instance seq_le_dec a b : Decision (seq_le a b).
Proof. unfold seq_le. apply _. Defined.

(** [ORDER BY seq ASC]. *)
Definition by_seq (rows : list event_row) : list event_row := merge_sort seq_le rows.

(** The rows of a run. *)
Definition of_run_ID (runID : string) (r : event_row) : Prop := er_run_id r = runID.
#[export] Instance of_run_ID_dec runID r : Decision (of_run_ID runID r).
Proof. unfold of_run_ID. apply _. Defined.

Definition same_key (e : Event) (r : event_row) : bool := bool_decide (er_run_id r = ev_RunID e) && bool_decide (er_seq r = ev_Seq e).

Section Store.
Context `{EventLibs}.
Implicit Types (t : event_table) (rows : list event_row) (e : Event).

Definition event_row_of (id : nat) (data : string) e : event_row :=
  mkEventRow id (ev_RunID e) (ev_Seq e) (ev_Kind e) (ev_NodeID e) (ev_NodeKind e) (time_text (ev_Time e))
    (ev_Attempt e) (ev_Elapsed e) data (ev_TraceID e) (ev_SpanID e).

Definition Append (fail : option error) e t : event_table * option error :=
  match payload_Marshal (ev_Payload e) with
  | inr err => (t, Some (EFmt [PS "sqlitestore: marshal payload: "; PW err]))
  | inl data =>
      match fail with
      | Some err => (t, Some (EFmt [PS "sqlitestore: append: "; PW err]))
      | None =>
          if existsb (same_key e) (et_rows t)
          then (t, Some (EFmt [PS "sqlitestore: append: "; PW (ESentinel "UNIQUE constraint failed: events.run_id, events.seq")]))
          else (mkEvents (S (et_next t)) (et_rows t ++ [event_row_of (et_next t) data e]), None)
      end
  end.

(** [Handle] of the subscriber: a failure is only logged. *)
Definition Handle (fail : option error) e t : event_table := (Append fail e t).1.

Definition read_payload (data : string) : gmap string payload + error :=
  if bool_decide (data ≠ EmptyString) && bool_decide (data ≠ "{}") then
    match payload_Unmarshal data with
    | inl p => inl p
    | inr err => inr (EFmt [PS "sqlitestore: unmarshal payload: "; PW err])
    end
  else inl ∅.

Definition scan_event (r : event_row) : Event + error :=
  match parse_text (er_time r) with
  | inr err => inr (EFmt [PS "sqlitestore: parse time "; PQ (er_time r); PS ": "; PW err])
  | inl time =>
      match read_payload (er_payload r) with
      | inr err => inr err
      | inl p =>
          inl (mkEvent (er_kind r) (er_run_id r) (er_node_id r) (er_node_kind r) time (er_attempt r) (er_elapsed r) p
                 (er_seq r) (er_trace_id r) (er_span_id r))
      end
  end.

Fixpoint scanEvents rows : list Event + error :=
  match rows with
  | [] => inl []
  | r :: rest =>
      match scan_event r with
      | inr err => inr err
      | inl e => match scanEvents rest with inl es => inl (e :: es) | inr err => inr err end
      end
  end.

(** The rows [List] selects. *)
Definition select_rows (runID : string) (afterSeq limit : Z) rows : list event_row :=
  let found := by_seq (filter (λ r, of_run_ID runID r ∧ (afterSeq < er_seq r)%Z) rows) in
  if (0 <? limit)%Z then take (Z.to_nat limit) found else found.

Definition List_ (fail : option error) (runID : string) (afterSeq limit : Z) t : list Event + error :=
  match fail with
  | Some err => inr (EFmt [PS "sqlitestore: list: "; PW err])
  | None => scanEvents (select_rows runID afterSeq limit (et_rows t))
  end.

(** [MAX(seq)], NULL without rows. *)
Definition max_seq rows : option Z :=
  foldr (λ r m, Some (match m with Some m => Z.max (er_seq r) m | None => er_seq r end)) None rows.

Definition LatestSeq (fail : option error) (runID : string) t : Z + error :=
  match fail with
  | Some err => inr (EFmt [PS "sqlitestore: latest seq: "; PW err])
  | None =>
      inl (match max_seq (filter (of_run_ID runID) (et_rows t)) with
           | Some m => if (m <? 0)%Z then 0%Z else m
           | None => 0%Z
           end)
  end.

Definition run_ids rows : list string := remove_dups (map er_run_id rows).

Definition RunIDs (fail : option error) t : list string + error :=
  match fail with
  | Some err => inr (EFmt [PS "sqlitestore: run ids: "; PW err])
  | None => inl (merge_sort string_le (run_ids (et_rows t)))
  end.

(** *** Pruning *)

(** [DELETE ... WHERE time < cutoff], on texts. *)
Definition prune_age (cutoff : string) rows : list event_row := filter (λ r, string_le cutoff (er_time r)) rows.

(** The rows of a run that are kept: those with the highest numbers. *)
Definition kept_ids (runID : string) (count : Z) rows : list nat :=
  map er_id (take (Z.to_nat count) (reverse (by_seq (filter (of_run_ID runID) rows)))).

Definition prune_run (count : Z) (runID : string) rows : list event_row :=
  filter (λ r, ¬ of_run_ID runID r ∨ er_id r ∈ kept_ids runID count rows) rows.

(** One statement per run; a failure ends the pass. *)
Fixpoint prune_runs (fail : string → option error) (count : Z) (runIDs : list string) rows : list event_row * option error :=
  match runIDs with
  | [] => (rows, None)
  | runID :: rest =>
      match fail runID with
      | Some err => (rows, Some (EFmt [PS "sqlitestore: prune by count for "; PS runID; PS ": "; PW err]))
      | None => prune_runs fail count rest (prune_run count runID rows)
      end
  end.

(** The failures: of the deletion by age, of listing the runs, of a run's deletion. *)
Definition Prune (cfg : SQLiteStoreConfig) (now : Z) (age_fail list_fail : option error) (fail : string → option error) t
    : event_table * option error :=
  let by_age := (0 <? sc_RetentionAge cfg)%Z in
  match (if by_age then age_fail else None) with
  | Some err => (t, Some (EFmt [PS "sqlitestore: prune by age: "; PW err]))
  | None =>
      let rows := if by_age then prune_age (time_text (now - sc_RetentionAge cfg)) (et_rows t) else et_rows t in
      if (0 <? sc_RetentionCount cfg)%Z then
        match list_fail with
        | Some err => (mkEvents (et_next t) rows, Some (EFmt [PS "sqlitestore: prune list runs: "; PW err]))
        | None => let '(rows, err) := prune_runs fail (sc_RetentionCount cfg) (run_ids rows) rows in (mkEvents (et_next t) rows, err)
        end
      else (mkEvents (et_next t) rows, None)
  end.
End Store.

(** ** The invariant of the table *)

#[export] Instance seq_le_total : Total seq_le.
Proof. intros a b. unfold seq_le. lia. Qed.
#[export] Instance seq_le_trans : Transitive seq_le.
Proof. intros a b c. unfold seq_le. lia. Qed.

(** What encodings guarantee: times are read as they were written, and what encodes a
    payload can be decoded. *)
Class EventLaws `{EventLibs} : Prop := {
  parse_time_text t : parse_text (time_text t) = inl t;
  payload_readable p data : payload_Marshal p = inl data → ∃ p', read_payload data = inl p'
}.

Definition row_key (r : event_row) : string * Z := (er_run_id r, er_seq r).

Section Invariant.
Context `{EventLibs} `{!EventLaws}.
Implicit Types (t : event_table) (rows : list event_row) (e : Event).

Record rows_ok rows : Prop := {
  ro_keys : NoDup (map row_key rows);
  ro_ids : NoDup (map er_id rows);
  ro_scan : Forall (λ r, ∃ e, scan_event r = inl e) rows
}.

Record table_ok t : Prop := {
  to_rows : rows_ok (et_rows t);
  to_next : Forall (λ r, er_id r < et_next t) (et_rows t)
}.

(** What a row of an event is read as: only its payload has been encoded and decoded. *)
Definition stored_as e e' : Prop :=
  ∃ data p, payload_Marshal (ev_Payload e) = inl data ∧ read_payload data = inl p ∧
    e' = mkEvent (ev_Kind e) (ev_RunID e) (ev_NodeID e) (ev_NodeKind e) (ev_Time e) (ev_Attempt e) (ev_Elapsed e) p
           (ev_Seq e) (ev_TraceID e) (ev_SpanID e).

Lemma scan_row_of id data e : payload_Marshal (ev_Payload e) = inl data →
  ∃ e', scan_event (event_row_of id data e) = inl e' ∧ stored_as e e'.
Proof.
  intros Hm. destruct (payload_readable _ _ Hm) as [p Hp]. unfold scan_event. simpl. rewrite parse_time_text, Hp.
  eexists. split; [done|]. by exists data, p.
Qed.

Lemma same_key_iff e rows : existsb (same_key e) rows = false ↔ (ev_RunID e, ev_Seq e) ∉ map row_key rows.
Proof.
  rewrite <- not_true_iff_false, existsb_exists. split.
  - intros Hex (r & Hr & Hin)%list_elem_of_fmap. apply Hex. exists r. split; [by apply list_elem_of_In|].
    injection Hr as Hr1 Hr2. unfold same_key. by rewrite !bool_decide_true.
  - intros Hn (r & Hr%list_elem_of_In & [H1%bool_decide_eq_true H2%bool_decide_eq_true]%andb_true_iff). apply Hn.
    apply list_elem_of_fmap. exists r. unfold row_key. by rewrite H1, H2.
Qed.

Lemma Append_ok fail e t : table_ok t → table_ok (Append fail e t).1.
Proof.
  intros [[Hk Hi Hs] Hn]. unfold Append. destruct (payload_Marshal _) as [data|] eqn:Hm; [|done]. destruct fail; [done|].
  destruct (existsb _ _) eqn:Hex; [done|]. apply same_key_iff in Hex. split; [split|]; simpl.
  - rewrite map_app. apply NoDup_app. split; [done|]. split; [|apply NoDup_singleton].
    intros x Hx Hs'. apply list_elem_of_singleton in Hs' as ->. done.
  - rewrite map_app. apply NoDup_app. split; [done|]. split; [|apply NoDup_singleton].
    intros x (r & -> & Hr)%list_elem_of_fmap Hs'. apply list_elem_of_singleton in Hs'. simpl in Hs'.
    rewrite Forall_forall in Hn. apply Hn in Hr. lia.
  - apply Forall_app. split; [done|]. constructor; [|constructor]. destruct (scan_row_of (et_next t) data e Hm) as (e' & He' & _). by eexists.
  - apply Forall_app. split; [eapply Forall_impl; [exact Hn|]; simpl; lia|]. constructor; [simpl; lia|constructor].
Qed.

(** Rows that remain are rows that were there. *)
Lemma filter_ok (P : event_row → Prop) `{!∀ r, Decision (P r)} rows : rows_ok rows → rows_ok (filter P rows).
Proof.
  intros [Hk Hi Hs]. split.
  - by apply NoDup_map_filter.
  - by apply NoDup_map_filter.
  - apply Forall_forall. intros r [_ Hr]%list_elem_of_filter. rewrite Forall_forall in Hs. by apply Hs.
Qed.

Lemma prune_runs_ok fail count runIDs rows : rows_ok rows →
  rows_ok (prune_runs fail count runIDs rows).1 ∧ (prune_runs fail count runIDs rows).1 ⊆ rows.
Proof.
  revert rows. induction runIDs as [|runID rest IH]; intros rows Hok; simpl; [done|]. destruct (fail runID); [done|].
  destruct (IH (prune_run count runID rows)) as [H1 H2]; [by apply filter_ok|]. split; [done|].
  intros r Hr. apply H2 in Hr. unfold prune_run in Hr. by apply list_elem_of_filter in Hr as [_ ?].
Qed.

Lemma Prune_ok cfg now age_fail list_fail fail t : table_ok t → table_ok (Prune cfg now age_fail list_fail fail t).1.
Proof.
  intros [Hok Hn]. unfold Prune.
  assert (∀ rows, rows_ok rows → rows ⊆ et_rows t → table_ok (mkEvents (et_next t) rows)) as Hmk.
  { intros rows Hr Hsub. split; [done|]. simpl. rewrite Forall_forall in Hn |- *. auto. }
  set (by_age := (0 <? sc_RetentionAge cfg)%Z). destruct (if by_age then age_fail else None); [done|].
  set (rows := if by_age then _ else et_rows t).
  assert (rows_ok rows) as Hr by (unfold rows; destruct by_age; [by apply filter_ok|done]).
  assert (rows ⊆ et_rows t) as Hsub.
  { unfold rows, prune_age. destruct by_age; [|done]. by intros r [_ Hin]%list_elem_of_filter. }
  destruct (0 <? sc_RetentionCount cfg)%Z; [destruct list_fail; [by apply Hmk|]|by apply Hmk].
  destruct (prune_runs_ok fail (sc_RetentionCount cfg) (run_ids rows) rows Hr) as [H1 H2].
  destruct (prune_runs fail (sc_RetentionCount cfg) (run_ids rows) rows) as [rs err]; simpl in *. apply Hmk; [done|set_solver].
Qed.

(** ** What is listed *)

Lemma keys_unique rows r r' : NoDup (map row_key rows) → r ∈ rows → r' ∈ rows → row_key r = row_key r' → r = r'.
Proof.
  intros Hnd [i Hi]%list_elem_of_lookup [j Hj]%list_elem_of_lookup Heq.
  assert (i = j) as ->; [|congruence].
  apply (NoDup_lookup (map row_key rows) i j (row_key r)); [done| |]; rewrite list_lookup_fmap; [by rewrite Hi|rewrite Hj; simpl; by rewrite Heq].
Qed.

Lemma by_seq_sorted rows : StronglySorted seq_le (by_seq rows).
Proof. apply StronglySorted_merge_sort; apply _. Qed.

Lemma elem_of_by_seq r rows : r ∈ by_seq rows ↔ r ∈ rows.
Proof. unfold by_seq. by rewrite merge_sort_Permutation. Qed.

(** Two ways to sort rows of one run give the same list. *)
Lemma by_seq_unique rows l runID : NoDup (map row_key rows) → (∀ r, r ∈ rows → of_run_ID runID r) →
  StronglySorted seq_le l → l ≡ₚ rows → by_seq rows = l.
Proof.
  intros Hnd Hrun Hs Hp. apply (StronglySorted_unique_strong seq_le); [|apply by_seq_sorted|done|].
  - intros r r' Hr Hr' H1 H2. rewrite Hp in Hr'. apply (proj1 (elem_of_by_seq _ _)) in Hr. apply (keys_unique rows); [exact Hnd|exact Hr|exact Hr'|].
    pose proof (Hrun r Hr) as E1. pose proof (Hrun r' Hr') as E2. unfold row_key, seq_le, of_run_ID in *. rewrite E1, E2. f_equal. lia.
  - unfold by_seq. by rewrite merge_sort_Permutation, Hp.
Qed.

(** In a run the numbers of sorted rows are different, so they increase. *)
Lemma by_seq_increasing rows runID : NoDup (map row_key rows) → (∀ r, r ∈ rows → of_run_ID runID r) →
  StronglySorted Z.lt (map er_seq (by_seq rows)).
Proof.
  intros Hnd Hrun. assert (NoDup (map er_seq (by_seq rows))) as Hseq.
  { assert (NoDup (map row_key (by_seq rows))) as Hk by (unfold by_seq; by rewrite merge_sort_Permutation).
    assert (map row_key (by_seq rows) = map (runID,.) (map er_seq (by_seq rows))) as Heq.
    { rewrite map_map. apply map_ext_in. intros r Hr%list_elem_of_In. rewrite elem_of_by_seq in Hr. unfold row_key. f_equal. by apply Hrun. }
    rewrite Heq in Hk. by eapply NoDup_fmap_1. }
  pose proof (by_seq_sorted rows) as Hs. induction Hs as [|r l Hs IH Hr]; [constructor|]. simpl in *.
  apply NoDup_cons in Hseq as [Hn Hseq]. constructor; [by apply IH|]. apply Forall_forall.
  intros z (r' & -> & Hr')%list_elem_of_fmap. rewrite Forall_forall in Hr. specialize (Hr r' Hr'). unfold seq_le in Hr.
  assert (er_seq r ≠ er_seq r'); [|lia]. intros He. apply Hn, list_elem_of_fmap. by exists r'.
Qed.

Lemma scanEvents_ok rows : Forall (λ r, ∃ e, scan_event r = inl e) rows →
  ∃ es, scanEvents rows = inl es ∧ Forall2 (λ r e, scan_event r = inl e) rows es.
Proof.
  induction 1 as [|r rows [e He] _ IH]; [by exists []|]. destruct IH as (es & Hes & Hall). exists (e :: es).
  cbn [scanEvents]. rewrite He, Hes. split; [done|]. by constructor.
Qed.

Lemma scanEvents_all rows es : Forall2 (λ r e, scan_event r = inl e) rows es → scanEvents rows = inl es.
Proof. induction 1 as [|r e rows es Hr _ IH]; [done|]. cbn [scanEvents]. by rewrite Hr, IH. Qed.

Lemma scan_event_seq r e : scan_event r = inl e → ev_Seq e = er_seq r ∧ ev_RunID e = er_run_id r.
Proof. unfold scan_event. destruct (parse_text _); [|done]. destruct (read_payload _); [|done]. by intros [= <-]. Qed.

Lemma scanned_seqs rows es : Forall2 (λ r e, scan_event r = inl e) rows es → map ev_Seq es = map er_seq rows.
Proof. induction 1 as [|r e rows es Hr _ IH]; [done|]. simpl. rewrite IH. by destruct (scan_event_seq r e Hr) as [-> _]. Qed.

(** Listing a run without a limit: the rows of the run after the cursor, in the order
    of their numbers, which increase; with a limit it is the beginning of that. *)
Lemma List_spec t runID afterSeq : table_ok t →
  ∃ es, List_ None runID afterSeq 0 t = inl es ∧ StronglySorted Z.lt (map ev_Seq es) ∧
    (∀ e, e ∈ es ↔ ∃ r, r ∈ et_rows t ∧ scan_event r = inl e ∧ er_run_id r = runID ∧ (afterSeq < er_seq r)%Z) ∧
    ∀ limit, (0 < limit)%Z → List_ None runID afterSeq limit t = inl (take (Z.to_nat limit) es).
Proof.
  intros [[Hk Hi Hs] _]. unfold List_, select_rows. set (P := λ r, of_run_ID runID r ∧ (afterSeq < er_seq r)%Z).
  set (rows := by_seq (filter P (et_rows t))).
  destruct (scanEvents_ok rows) as (es & Hes & Hall).
  { apply Forall_forall. intros r Hr. unfold rows in Hr. rewrite elem_of_by_seq in Hr. apply list_elem_of_filter in Hr as [_ Hr]. rewrite Forall_forall in Hs. by apply Hs. }
  exists es. split; [done|]. split; [|split].
  - rewrite (scanned_seqs _ _ Hall). apply (by_seq_increasing _ runID); [by apply NoDup_map_filter|].
    by intros r [[Hr _] _]%list_elem_of_filter.
  - intros e. split.
    + intros [i Hi']%list_elem_of_lookup. destruct (Forall2_lookup_r _ _ _ _ _ Hall Hi') as (r & Hr & Hsc).
      apply list_elem_of_lookup_2 in Hr. unfold rows in Hr. rewrite elem_of_by_seq in Hr. apply list_elem_of_filter in Hr as [[Hrun Hseq] Hr]. by exists r.
    + intros (r & Hr & Hsc & Hrun & Hseq). assert (r ∈ rows) as [i Hi']%list_elem_of_lookup.
      { apply elem_of_by_seq, list_elem_of_filter. done. }
      destruct (Forall2_lookup_l _ _ _ _ _ Hall Hi') as (e' & He' & Hsc'). assert (e = e') as -> by congruence.
      by eapply list_elem_of_lookup_2.
  - intros limit Hl. destruct (Z.ltb_spec 0 limit); [|lia]. by apply scanEvents_all, Forall2_take.
Qed.

(** ** What was appended *)

Fixpoint append_all (l : list (option error * Event)) t : event_table :=
  match l with
  | [] => t
  | (fail, e) :: l => append_all l (Handle fail e t)
  end.

(** The events the table takes: those whose payload can be encoded, that no failure
    keeps out, and whose number the run does not have yet. *)
Fixpoint accepted (l : list (option error * Event)) (before : list Event) : list Event :=
  match l with
  | [] => before
  | (fail, e) :: l =>
      accepted l (match payload_Marshal (ev_Payload e), fail with
                  | inl _, None => if bool_decide ((ev_RunID e, ev_Seq e) ∈ map (λ e, (ev_RunID e, ev_Seq e)) before) then before
                                   else before ++ [e]
                  | _, _ => before
                  end)
  end.

Definition row_for (r : event_row) e : Prop := ∃ data, payload_Marshal (ev_Payload e) = inl data ∧ r = event_row_of (er_id r) data e.

Lemma row_for_key rows es : Forall2 row_for rows es → map row_key rows = map (λ e, (ev_RunID e, ev_Seq e)) es.
Proof. induction 1 as [|r e rows es (data & _ & Hr) _ IH]; [done|]. simpl. by rewrite IH, Hr. Qed.

Lemma append_all_ok l t before : table_ok t → Forall2 row_for (et_rows t) before →
  table_ok (append_all l t) ∧ Forall2 row_for (et_rows (append_all l t)) (accepted l before).
Proof.
  revert t before. induction l as [|[fail e] l IH]; intros t before Hok Hrows; [done|]. cbn [append_all accepted].
  apply IH; [by apply Append_ok|]. unfold Handle, Append. destruct (payload_Marshal (ev_Payload e)) as [data|] eqn:Hm; [|done].
  destruct fail; [done|]. rewrite <- (row_for_key _ _ Hrows).
  destruct (existsb (same_key e) (et_rows t)) eqn:Hex; case_bool_decide as Hin; simpl; [done| | |].
  - exfalso. rewrite <- same_key_iff in Hin. congruence.
  - exfalso. by apply same_key_iff in Hex.
  - apply Forall2_app; [done|]. constructor; [|constructor]. by exists data.
Qed.

Lemma row_for_scan r e e' : row_for r e → scan_event r = inl e' ↔ stored_as e e'.
Proof.
  intros (data & Hm & Hr). rewrite Hr. destruct (scan_row_of (er_id r) data e Hm) as (e1 & H1 & (d1 & p1 & Hd1 & Hp1 & He1)). rewrite H1.
  split.
  - intros [= <-]. by exists d1, p1.
  - intros (d2 & p2 & Hd2 & Hp2 & ->). rewrite Hd1 in Hd2. injection Hd2 as <-. rewrite Hp1 in Hp2. injection Hp2 as <-. by rewrite He1.
Qed.

(** A run that is listed after appends consists of the events that were accepted, in
    the order of their numbers, each with the payload it was encoded with. *)
Theorem store_replay (l : list (option error * Event)) (runID : string) (afterSeq : Z) :
  ∃ es, List_ None runID afterSeq 0 (append_all l (mkEvents 1 [])) = inl es ∧ StronglySorted Z.lt (map ev_Seq es) ∧
    (∀ e', e' ∈ es ↔ ∃ e, e ∈ accepted l [] ∧ stored_as e e' ∧ ev_RunID e = runID ∧ (afterSeq < ev_Seq e)%Z) ∧
    ∀ limit, (0 < limit)%Z → List_ None runID afterSeq limit (append_all l (mkEvents 1 [])) = inl (take (Z.to_nat limit) es).
Proof.
  destruct (append_all_ok l (mkEvents 1 []) []) as [Hok Hrows]; [by repeat constructor|constructor|].
  destruct (List_spec _ runID afterSeq Hok) as (es & Hes & Hs & Hin & Hl). exists es. split_and!; [done|done| |done].
  intros e'. rewrite Hin. split.
  - intros (r & [i Hi]%list_elem_of_lookup & Hsc & Hrun & Hseq). destruct (Forall2_lookup_l _ _ _ _ _ Hrows Hi) as (e & He & Hre).
    exists e. apply list_elem_of_lookup_2 in He. rewrite (row_for_scan r e e' Hre) in Hsc.
    destruct Hre as (data & _ & Hr). rewrite Hr in Hrun, Hseq. done.
  - intros (e & [i Hi]%list_elem_of_lookup & Hst & Hrun & Hseq). destruct (Forall2_lookup_r _ _ _ _ _ Hrows Hi) as (r & Hr & Hre).
    exists r. split; [by eapply list_elem_of_lookup_2|]. split; [by apply (row_for_scan r e e' Hre)|].
    destruct Hre as (data & _ & ->). done.
Qed.

(** ** What pruning keeps *)

Lemma sorted_drop n (l : list event_row) : StronglySorted seq_le l → StronglySorted seq_le (drop n l).
Proof. intros Hs. revert n. induction Hs as [|r l Hs IH Hr]; intros [|n]; simpl; [constructor..|by constructor|apply IH]. Qed.

Lemma prune_run_other count runID runID' rows : runID ≠ runID' →
  filter (of_run_ID runID) (prune_run count runID' rows) = filter (of_run_ID runID) rows.
Proof.
  intros Hne. unfold prune_run. generalize (kept_ids runID' count rows). intros ids.
  induction rows as [|r rows IH]; [done|]. rewrite !filter_cons. unfold of_run_ID in *.
  destruct (decide (er_run_id r = runID)) as [Hr|Hr].
  - rewrite decide_True by (left; congruence). rewrite filter_cons, decide_True by done. by rewrite IH.
  - case_decide; [rewrite filter_cons, decide_False by done|]; done.
Qed.

Lemma ids_unique rows r r' : NoDup (map er_id rows) → r ∈ rows → r' ∈ rows → er_id r = er_id r' → r = r'.
Proof.
  intros Hnd [i Hi]%list_elem_of_lookup [j Hj]%list_elem_of_lookup Heq. assert (i = j) as ->; [|congruence].
  apply (NoDup_lookup (map er_id rows) i j (er_id r)); [done| |]; rewrite list_lookup_fmap; [by rewrite Hi|rewrite Hj; simpl; by rewrite Heq].
Qed.

Lemma prune_run_same count runID rows : rows_ok rows →
  by_seq (filter (of_run_ID runID) (prune_run count runID rows)) =
  let l := by_seq (filter (of_run_ID runID) rows) in drop (length l - Z.to_nat count) l.
Proof.
  intros [Hk Hi _]. cbn zeta. set (l := by_seq (filter (of_run_ID runID) rows)). set (kept := drop (length l - Z.to_nat count) l).
  assert (∀ r, r ∈ l ↔ er_run_id r = runID ∧ r ∈ rows) as Hl
    by (intros r; unfold l; by rewrite elem_of_by_seq, list_elem_of_filter).
  assert (NoDup l) as Hnd.
  { unfold l, by_seq. rewrite merge_sort_Permutation. apply NoDup_filter. by eapply NoDup_fmap_1. }
  apply (by_seq_unique _ _ runID).
  - by apply NoDup_map_filter, NoDup_map_filter.
  - by intros r [Hr _]%list_elem_of_filter.
  - apply sorted_drop, by_seq_sorted.
  - apply NoDup_Permutation.
    + unfold kept. rewrite <- (take_drop (length l - Z.to_nat count) l) in Hnd. by apply NoDup_app in Hnd as (_ & _ & ?).
    + apply NoDup_filter, NoDup_filter. by eapply NoDup_fmap_1.
    + intros r. unfold prune_run. rewrite !list_elem_of_filter. unfold kept_ids. fold l. rewrite take_reverse. fold kept.
      assert (∀ x, x ∈ kept → x ∈ l) as Hsub.
      { intros x Hx. unfold kept in Hx. rewrite <- (take_drop (length l - Z.to_nat count) l). apply elem_of_app. by right. }
      split.
      * intros Hr. destruct (proj1 (Hl r) (Hsub r Hr)) as [Hrun Hin]. split; [done|]. split; [|done]. right.
        apply list_elem_of_fmap. exists r. split; [done|]. by apply elem_of_reverse.
      * intros (Hrun & [?|Hid] & Hin); [done|]. apply list_elem_of_fmap in Hid as (r' & Hid & Hr'). rewrite elem_of_reverse in Hr'.
        assert (r = r') as ->; [|done]. apply (ids_unique rows); [done|done|by apply Hl, Hsub|done].
Qed.

Lemma prune_runs_count count runIDs rows runID : rows_ok rows → NoDup runIDs →
  by_seq (filter (of_run_ID runID) (prune_runs (λ _, None) count runIDs rows).1) =
  let l := by_seq (filter (of_run_ID runID) rows) in
  if bool_decide (runID ∈ runIDs) then drop (length l - Z.to_nat count) l else l.
Proof.
  intros Hok Hnd. revert rows Hok. induction Hnd as [|x runIDs Hx Hnd IH]; intros rows Hok; [done|]. cbn [prune_runs].
  rewrite IH by (by apply filter_ok). cbn zeta. destruct (decide (runID = x)) as [->|Hne].
  - rewrite (bool_decide_false _ Hx), bool_decide_true by (by left). by apply prune_run_same.
  - rewrite prune_run_other by done. by rewrite (bool_decide_ext (runID ∈ x :: runIDs) (runID ∈ runIDs)) by set_solver.
Qed.

(** The listing of a run, when all numbers are as a counter gives them. *)
Lemma select_all runID rows : Forall (λ r, 0 ≤ er_seq r)%Z rows → select_rows runID (-1) 0 rows = by_seq (filter (of_run_ID runID) rows).
Proof.
  intros Hpos. unfold select_rows. simpl. f_equal. induction Hpos as [|r rows Hr Hpos IH]; [done|]. rewrite !filter_cons, IH.
  destruct (decide (of_run_ID runID r)); [rewrite decide_True by (split; [done|lia]); done|by rewrite decide_False by tauto].
Qed.

(** Pruning by count alone leaves of every run exactly its last events, in their
    order: as many as are to be kept, or all when there are fewer. *)
Theorem Prune_count (cfg : SQLiteStoreConfig) (now : Z) t (runID : string) :
  table_ok t → Forall (λ r, 0 ≤ er_seq r)%Z (et_rows t) → (sc_RetentionAge cfg ≤ 0)%Z → (0 < sc_RetentionCount cfg)%Z →
  ∃ t' es, Prune cfg now None None (λ _, None) t = (t', None) ∧ List_ None runID (-1) 0 t = inl es ∧
    List_ None runID (-1) 0 t' = inl (drop (length es - Z.to_nat (sc_RetentionCount cfg)) es).
Proof.
  intros Hok Hpos Hage Hcount. pose proof (to_rows _ Hok) as Hrows. unfold Prune. destruct (Z.ltb_spec 0 (sc_RetentionAge cfg)); [lia|].
  destruct (Z.ltb_spec 0 (sc_RetentionCount cfg)); [|lia]. set (count := sc_RetentionCount cfg) in *.
  destruct (prune_runs_ok (λ _, None) count (run_ids (et_rows t)) (et_rows t) Hrows) as [_ Hsub].
  pose proof (prune_runs_count count (run_ids (et_rows t)) (et_rows t) runID Hrows (NoDup_remove_dups _)) as Hc.
  destruct (prune_runs (λ _, None) count (run_ids (et_rows t)) (et_rows t)) as [rows' err] eqn:Hp.
  assert (err = None) as ->.
  { clear -Hp. revert Hp. generalize (et_rows t) at 2 as rows. induction (run_ids (et_rows t)) as [|x l IH]; intros rows; simpl; [by intros [= _ <-]|apply IH]. }
  simpl in Hc, Hsub. unfold List_. rewrite (select_all _ (et_rows t)) by done.
  destruct (scanEvents_ok (by_seq (filter (of_run_ID runID) (et_rows t)))) as (es & Hes & Hall).
  { apply Forall_forall. intros r Hr. rewrite elem_of_by_seq in Hr. apply list_elem_of_filter in Hr as [_ Hr].
    pose proof (ro_scan _ Hrows) as Hs. rewrite Forall_forall in Hs. by apply Hs. }
  exists (mkEvents (et_next t) rows'), es. split; [done|]. split; [done|]. simpl. rewrite select_all by (rewrite Forall_forall in Hpos |- *; auto).
  rewrite Hc. set (l := by_seq (filter (of_run_ID runID) (et_rows t))) in *. rewrite <- (Forall2_length _ _ _ Hall).
  case_bool_decide as Hin; [by apply scanEvents_all, Forall2_drop|].
  assert (l = []) as Hl; [|rewrite Hl in Hall |- *; by inversion Hall].
  unfold l. assert (filter (of_run_ID runID) (et_rows t) = []) as ->; [|done].
  destruct (filter (of_run_ID runID) (et_rows t)) as [|r rs] eqn:Hf; [done|]. exfalso.
  assert (r ∈ filter (of_run_ID runID) (et_rows t)) as [Hr Hrow]%list_elem_of_filter by (rewrite Hf; by left).
  apply Hin, elem_of_remove_dups, list_elem_of_fmap. by exists r.
Qed.
End Invariant.

(** ** Samples *)

(** Times as text, for samples. *)
Module TextTimes.
Fixpoint bits (p : positive) : string :=
  match p with xH => EmptyString | xO p => String "0" (bits p) | xI p => String "1" (bits p) end.
Fixpoint unbits (s : string) : positive :=
  match s with EmptyString => xH | String c t => if decide (c = "1"%char) then xI (unbits t) else xO (unbits t) end.
Definition to_text (z : Z) : string :=
  match z with Z0 => "z" | Zpos p => String "p" (bits p) | Zneg p => String "n" (bits p) end.
Definition of_text (s : string) : Z + error :=
  match s with
  | String c t =>
      if decide (c = "p"%char) then inl (Zpos (unbits t)) else if decide (c = "n"%char) then inl (Zneg (unbits t)) else inl 0%Z
  | EmptyString => inr (ESentinel "empty")
  end.

Lemma unbits_bits p : unbits (bits p) = p.
Proof. induction p as [p IH|p IH|]; simpl; by rewrite ?IH. Qed.

Lemma of_to_text z : of_text (to_text z) = inl z.
Proof. destruct z; simpl; by rewrite ?unbits_bits. Qed.
End TextTimes.
