(* ===== verification/Stream.v ===== *)
(** * Streaming of events (sse/handler.go, server/handlers.go)

    The handler that streams the events of a run: it subscribes to the bus, replays
    what the store has, and then passes on what the subscription delivers, skipping
    what it has sent. It runs beside the run that emits: an event is numbered, handed
    to the bus and then to the store. Failures of the store, a full buffer, a closed
    bus and a client that leaves are moves of the system.

    The theorems: the stream never repeats or reorders an event and ends with the end
    of the run ([stream_exact]); it accounts for every event of the run, apart from
    failures and full buffers, but for the one that was on its way from the bus to the
    store ([stream_exact], example [last_event_missed]); the stream of a run
    request announces the end once, at its end ([streamed_run]). *)

From stdpp Require Import gmap strings list pretty sorting.
From Stdlib Require Import Ascii ZArith Lia.
From S2P Require Import Prelude Values Events Bus EventStore.

(** ** Frames *)

Record sseEvent := mkSSE {
  se_Kind : string; se_RunID : string; se_NodeID : string; se_NodeKind : string; se_Time : Z; se_Attempt : Z; se_ElapsedMs : Z;
  se_Payload : gmap string payload; se_Seq : Z; se_TraceID : string; se_SpanID : string
}.

Definition toSSEEvent (e : Event) : sseEvent :=
  mkSSE (ev_Kind e) (ev_RunID e) (ev_NodeID e) (ev_NodeKind e) (ev_Time e) (ev_Attempt e) (Z.quot (ev_Elapsed e) 1000000) (ev_Payload e)
    (ev_Seq e) (ev_TraceID e) (ev_SpanID e).

(** [json.Marshal] of a frame. *)
Class FrameLib := { sse_Marshal : sseEvent → string + error }.

Definition newline : string := String "010"%char EmptyString.

(** [None]: the event cannot be encoded, or the connection is broken. *)
Definition writeSSEEvent `{FrameLib} (broken : bool) (e : Event) : option string :=
  match sse_Marshal (toSSEEvent e) with
  | inl data =>
      if broken then None
      else Some ("id: " ^^ pretty (ev_Seq e) ^^ newline ^^ "event: " ^^ ev_Kind e ^^ newline ^^ "data: " ^^ data ^^ newline ^^ newline)
  | inr _ => None
  end.

(** [strconv.ParseUint(s, 10, 64)]. *)
Definition ParseUint (s : string) : option Z :=
  match s with
  | EmptyString => None
  | _ => n ← parse_digits s 0; if (n <? 2 ^ 64)%Z then Some n else None
  end.

(** The start of [ServeHTTP]: the cursor, or the status of the refusal. *)
Definition stream_cursor (runID after : string) (flushable : bool) : Z + Z :=
  if bool_decide (runID = EmptyString) then inr 400%Z
  else if negb flushable then inr 500%Z
  else if bool_decide (after = EmptyString) then inl 0%Z
  else match ParseUint after with Some n => inl n | None => inr 400%Z end.

(** ** The handler beside the run *)

Inductive phase :=
| PStart
| PSubscribed
| PReplay (events : list Event)
| PLive
| PDone.

(** The run: events handed to the bus and to the store. The handler: its
    subscription, where it is, the last number it sent, and what it wrote. What
    follows is not in the code: how many events were published when it subscribed,
    how many had reached the store when it listed them, and the numbers of the events
    that the subscription and the store did not take. *)
Record stream := mkStream {
  st_published : nat; st_stored : nat; st_table : event_table;
  st_sub : option MemBus.memSub; st_phase : phase; st_last : Z; st_out : list (Event * string);
  st_since : nat; st_listed : nat; st_lost : list Z; st_failed : list Z
}.

Inductive smove :=
| SPublish                              (** the run hands its next event to the bus *)
| SStore (fail : option error)          (** and then to the store *)
| SSubscribe
| SList (fail : option error)
| SReplay (canceled broken : bool)
| SRecv (broken : bool)
| SHeartbeat (broken : bool)
| SDisconnect
| SCloseBus.

Section Stream.
Context `{EventLibs} `{FrameLib}.
Context (run : list Event) (runID : string) (afterSeq bufSize : Z).

(** The handler returns, and its subscription is closed. *)
Definition finish (s : stream) : option stream :=
  match st_sub s with
  | None => Some (mkStream (st_published s) (st_stored s) (st_table s) None PDone (st_last s) (st_out s)
                    (st_since s) (st_listed s) (st_lost s) (st_failed s))
  | Some sub =>
      sub ← MemBus.close sub;
      Some (mkStream (st_published s) (st_stored s) (st_table s) (Some sub) PDone (st_last s) (st_out s)
              (st_since s) (st_listed s) (st_lost s) (st_failed s))
  end.

Definition set_phase (p : phase) (s : stream) : stream :=
  mkStream (st_published s) (st_stored s) (st_table s) (st_sub s) p (st_last s) (st_out s)
    (st_since s) (st_listed s) (st_lost s) (st_failed s).

(** Writing an event; [last] is the last number afterwards. *)
Definition write_event (broken : bool) (e : Event) (last : Z) (next : phase) (s : stream) : option stream :=
  match writeSSEEvent broken e with
  | None => finish s
  | Some text =>
      let s := mkStream (st_published s) (st_stored s) (st_table s) (st_sub s) next last (st_out s ++ [(e, text)])
                 (st_since s) (st_listed s) (st_lost s) (st_failed s) in
      if bool_decide (ev_Kind e = EventRunFinished) then finish s else Some s
  end.

(** [None]: the move is not possible, or a send on a closed channel. *)
Definition exec_stream (m : smove) (s : stream) : option stream :=
  match m with
  | SPublish =>
      if bool_decide (st_published s = st_stored s) then
        e ← run !! st_published s;
        match st_sub s with
        | None => Some (mkStream (S (st_published s)) (st_stored s) (st_table s) None (st_phase s) (st_last s) (st_out s)
                          (st_since s) (st_listed s) (st_lost s) (st_failed s))
        | Some sub =>
            r ← MemBus.send bufSize e sub;
            Some (mkStream (S (st_published s)) (st_stored s) (st_table s) (Some r.1) (st_phase s) (st_last s) (st_out s)
                    (st_since s) (st_listed s) (if r.2 : bool then st_lost s else ev_Seq e :: st_lost s) (st_failed s))
        end
      else None
  | SStore fail =>
      if bool_decide (st_stored s < st_published s) then
        e ← run !! st_stored s;
        let '(table, err) := Append fail e (st_table s) in
        Some (mkStream (st_published s) (S (st_stored s)) table (st_sub s) (st_phase s) (st_last s) (st_out s)
                (st_since s) (st_listed s) (st_lost s) (match err with Some _ => ev_Seq e :: st_failed s | None => st_failed s end))
      else None
  | SSubscribe =>
      match st_phase s with
      | PStart => Some (mkStream (st_published s) (st_stored s) (st_table s) (Some MemBus.newMemSub) PSubscribed afterSeq (st_out s)
                          (st_published s) (st_listed s) (st_lost s) (st_failed s))
      | _ => None
      end
  | SList fail =>
      match st_phase s with
      | PSubscribed =>
          match List_ fail runID afterSeq 0 (st_table s) with
          | inr _ => finish s
          | inl events => Some (mkStream (st_published s) (st_stored s) (st_table s) (st_sub s) (PReplay events) (st_last s) (st_out s)
                                  (st_since s) (st_stored s) (st_lost s) (st_failed s))
          end
      | _ => None
      end
  | SReplay canceled broken =>
      match st_phase s with
      | PReplay [] => Some (set_phase PLive s)
      | PReplay (e :: rest) =>
          if canceled then finish s
          else write_event broken e (if (st_last s <? ev_Seq e)%Z then ev_Seq e else st_last s) (PReplay rest) s
      | _ => None
      end
  | SRecv broken =>
      match st_phase s, st_sub s with
      | PLive, Some sub =>
          match MemBus.ms_ch sub with
          | [] => if MemBus.ms_chanClosed sub then finish s else None
          | e :: ch =>
              let s := mkStream (st_published s) (st_stored s) (st_table s)
                         (Some (MemBus.mkSub ch (MemBus.ms_closed sub) (MemBus.ms_chanClosed sub))) PLive (st_last s) (st_out s)
                         (st_since s) (st_listed s) (st_lost s) (st_failed s) in
              if (ev_Seq e <=? st_last s)%Z then Some s else write_event broken e (ev_Seq e) PLive s
          end
      | _, _ => None
      end
  | SHeartbeat broken => match st_phase s with PLive => if broken then finish s else Some s | _ => None end
  | SDisconnect => match st_phase s with PLive => finish s | _ => None end
  | SCloseBus =>
      sub ← st_sub s; sub ← MemBus.close sub;
      Some (mkStream (st_published s) (st_stored s) (st_table s) (Some sub) (st_phase s) (st_last s) (st_out s)
              (st_since s) (st_listed s) (st_lost s) (st_failed s))
  end.

Fixpoint exec_streams (ms : list smove) (s : stream) : option stream :=
  match ms with [] => Some s | m :: ms => s ← exec_stream m s; exec_streams ms s end.

(** Before the run and the handler. *)
Definition new_stream (table : event_table) : stream := mkStream 0 0 table None PStart afterSeq [] 0 0 [] [].
End Stream.

(** ** The accounts of a stream *)

(** The numbers of events. *)
#[local] Abbreviation seqs := (map ev_Seq).

Section StreamProofs.
Context `{EventLibs} `{!EventLaws} `{FrameLib}.
Context (run : list Event) (runID : string) (afterSeq bufSize : Z).
(** The run numbers its events from one on, and its number is theirs. *)
Context (numbered : ∀ i e, run !! i = Some e → ev_Seq e = Z.of_nat (S i)) (same_run : ∀ e, e ∈ run → ev_RunID e = runID).
Implicit Types (s : stream) (e : Event) (q : Z).
#[local] Abbreviation exec := (exec_stream run runID afterSeq bufSize).

Definition pending s : list Event := match st_phase s with PReplay events => events | _ => [] end.
Definition written s : list Event := map fst (st_out s).
Definition buffered s : list Event := match st_sub s with Some sub => MemBus.ms_ch sub | None => [] end.

(** An event as the stream shows it: from the bus, or from the store. *)
Definition shown s e : Prop := ∃ e0, e0 ∈ take (st_published s) run ∧ ev_Seq e = ev_Seq e0 ∧ ev_Kind e = ev_Kind e0 ∧ (e = e0 ∨ stored_as e0 e).

(** The events of the run in the table. *)
Record table_of s : Prop := {
  tb_ok : table_ok (st_table s);
  tb_rows : ∀ r, r ∈ et_rows (st_table s) → er_run_id r = runID → ∃ e, e ∈ take (st_stored s) run ∧ row_for r e;
  tb_has : ∀ e, e ∈ take (st_stored s) run → ev_Seq e ∉ st_failed s → ∃ r, r ∈ et_rows (st_table s) ∧ row_for r e
}.

Record counts_ok s : Prop := {
  co_order : st_stored s ≤ st_published s ≤ S (st_stored s);
  co_length : st_published s ≤ length run;
  co_since : st_since s ≤ st_published s;
  co_listed : st_listed s ≤ st_stored s
}.

(** What was written and is still to be replayed. *)
Record order_ok s : Prop := {
  oo_sorted : StronglySorted Z.lt (seqs (written s ++ pending s));
  oo_shown : ∀ e, e ∈ written s ++ pending s → (afterSeq < ev_Seq e)%Z ∧ shown s e;
  oo_after : (afterSeq ≤ st_last s)%Z;
  oo_bound : ∀ e, e ∈ written s → (ev_Seq e ≤ st_last s)%Z;
  oo_last : st_last s = afterSeq ∨ st_last s ∈ seqs (written s)
}.

(** Nothing is written after the end of the run. *)
Definition ended s : Prop := ∀ e, e ∈ written s → ev_Kind e = EventRunFinished → last (written s) = Some e.

(** What the subscription holds. *)
Record buffer_ok s : Prop := {
  bo_sorted : StronglySorted Z.lt (seqs (buffered s));
  bo_from : ∀ e, e ∈ buffered s → e ∈ take (st_published s) run ∧ (Z.of_nat (st_since s) < ev_Seq e)%Z
}.

(** Events that were read from the store. *)
Record listed_ok s : Prop := {
  lo_since : st_since s ≤ S (st_listed s);
  lo_listed : ∀ q, (1 ≤ q ≤ Z.of_nat (st_listed s))%Z → (afterSeq < q)%Z → q ∉ st_failed s → q ∈ seqs (written s ++ pending s);
  lo_bound : ∀ events e, st_phase s = PReplay events → e ∈ written s ++ events → (ev_Seq e ≤ Z.of_nat (st_listed s))%Z;
  lo_skip : ∀ e, e ∈ buffered s → (ev_Seq e ≤ st_last s)%Z → (ev_Seq e ≤ Z.of_nat (st_listed s))%Z ∨ (ev_Seq e ≤ afterSeq)%Z
}.

(** Events that were published since the subscription. *)
Definition settled s q : Prop := q ∈ seqs (written s) ∨ (q ≤ afterSeq)%Z ∨ q ∈ st_failed s.
Definition accounted s : Prop := ∀ q, (Z.of_nat (st_since s) < q ≤ Z.of_nat (st_published s))%Z →
  q ∈ seqs (buffered s) ∨ q ∈ st_lost s ∨ (st_phase s = PLive ∧ settled s q).

(** The sends of the bus never meet a closed channel. *)
Definition sub_ok s : Prop := ∀ sub, st_sub s = Some sub → MemBus.ms_chanClosed sub = true → MemBus.ms_closed sub = true.

Record stream_inv s : Prop := {
  si_counts : counts_ok s;
  si_table : table_of s;
  si_order : order_ok s;
  si_ended : ended s;
  si_open : st_phase s ≠ PDone → ∀ e, e ∈ written s → ev_Kind e ≠ EventRunFinished;
  si_sub : sub_ok s;
  si_start : st_phase s = PStart → st_sub s = None ∧ written s = [] ∧ st_last s = afterSeq ∧ st_lost s = [];
  si_first : st_phase s = PSubscribed → written s = [] ∧ st_last s = afterSeq;
  si_has_sub : match st_phase s with PSubscribed | PReplay _ | PLive => is_Some (st_sub s) | _ => True end;
  si_buffer : st_phase s ≠ PDone → buffer_ok s;
  si_listed : match st_phase s with PReplay _ | PLive => listed_ok s | _ => True end;
  si_accounted : match st_phase s with PSubscribed | PReplay _ | PLive => accounted s | _ => True end
}.

Lemma take_next n e : run !! n = Some e → take (S n) run = take n run ++ [e].
Proof. apply take_S_r. Qed.

Lemma taken_seq n e : e ∈ take n run → (1 ≤ ev_Seq e ≤ Z.of_nat n)%Z.
Proof.
  intros [i Hi]%list_elem_of_lookup. apply lookup_take_Some in Hi as [Hi Hlt]. rewrite (numbered _ _ Hi). lia.
Qed.

Lemma seq_taken n q : (1 ≤ q ≤ Z.of_nat n)%Z → n ≤ length run → ∃ e, e ∈ take n run ∧ ev_Seq e = q.
Proof.
  intros Hq Hn. destruct (lookup_lt_is_Some_2 run (Z.to_nat q - 1)) as [e He]; [lia|]. exists e. split.
  - apply (list_elem_of_lookup_2 _ (Z.to_nat q - 1)). apply lookup_take_Some. split; [done|lia].
  - rewrite (numbered _ _ He). lia.
Qed.

Lemma shown_mono s s' e : st_published s ≤ st_published s' → shown s e → shown s' e.
Proof.
  intros Hle (e0 & Hin & Hrest). exists e0. split; [|done]. apply list_elem_of_lookup in Hin as [i Hi].
  apply (list_elem_of_lookup_2 _ i). apply lookup_take_Some in Hi as [Hi Hlt]. apply lookup_take_Some. split; [done|lia].
Qed.

(** *** Moves *)

Lemma close_sub sub : (MemBus.ms_chanClosed sub = true → MemBus.ms_closed sub = true) →
  ∃ sub', MemBus.close sub = Some sub' ∧ MemBus.ms_ch sub' = MemBus.ms_ch sub ∧ (MemBus.ms_chanClosed sub' = true → MemBus.ms_closed sub' = true).
Proof.
  intros Hok. unfold MemBus.close, MemBus.close_chan. simpl. destruct (MemBus.ms_closed sub) eqn:Hc; [by exists sub|].
  destruct (MemBus.ms_chanClosed sub); [naive_solver|]. by eexists.
Qed.

Lemma stream_finish_inv s : counts_ok s → table_of s → order_ok s → sub_ok s → ended s →
  ∃ s', finish s = Some s' ∧ stream_inv s'.
Proof.
  intros [Ho Hl Hs Hli] [Hok Hr Hh] [Hsort Hshown Haf Hb Hla] Hsub Hend.
  assert (∃ sub, finish s = Some (mkStream (st_published s) (st_stored s) (st_table s) sub PDone (st_last s) (st_out s)
            (st_since s) (st_listed s) (st_lost s) (st_failed s)) ∧
          ∀ x, sub = Some x → MemBus.ms_chanClosed x = true → MemBus.ms_closed x = true) as (sub & Hf & Hx).
  { unfold finish. destruct (st_sub s) as [sub|] eqn:Hs'; [|by exists None].
    destruct (close_sub sub) as (sub' & -> & _ & Hx); [by apply Hsub|]. exists (Some sub'). split; [done|]. by intros x [= <-]. }
  rewrite Hf. eexists. split; [done|]. split; try done.
  split; try done; unfold pending; cbn [st_phase].
  - rewrite app_nil_r. rewrite map_app in Hsort. by apply StronglySorted_app in Hsort as (_ & ? & _).
  - rewrite app_nil_r. intros e He. apply Hshown, elem_of_app. by left.
Qed.

(** The run published an event; the subscription took it or not. *)
Definition publishes e s (sub : option MemBus.memSub) (lost : list Z) : stream :=
  mkStream (S (st_published s)) (st_stored s) (st_table s) sub (st_phase s) (st_last s) (st_out s) (st_since s) (st_listed s) lost (st_failed s).

Lemma published_inv s e sub lost : stream_inv s → st_published s = st_stored s → run !! st_published s = Some e →
  let s' := publishes e s sub lost in
  sub_ok s' →
  (st_sub s = None ∧ sub = None ∧ lost = st_lost s) ∨
  (is_Some (st_sub s) ∧ is_Some sub ∧ ((buffered s' = buffered s ∧ lost = ev_Seq e :: st_lost s) ∨ (buffered s' = buffered s ++ [e] ∧ lost = st_lost s))) →
  stream_inv s'.
Proof.
  intros [[Ho Hlen Hs Hli] [Hok Hr Hh] [Hsort Hshown Haf Hb Hla] Hend Hopen Hsub Hst Hfi Hhas Hbuf Hlist Hacc] Heq He s' Hsub' Hcase.
  pose proof (numbered _ _ He) as Hq. pose proof (take_next _ _ He) as Htake. apply lookup_lt_Some in He as Hlt.
  assert (∀ x, x ∈ written s ++ pending s → (ev_Seq x ≤ Z.of_nat (st_published s))%Z) as Hbound.
  { intros x Hx. destruct (Hshown x Hx) as [_ (e0 & Hin & -> & _)]. apply taken_seq in Hin. lia. }
  assert (∀ x, x ∈ take (st_published s) run → x ∈ take (S (st_published s)) run) as Hmono by (intros x; rewrite Htake; set_solver).
  assert (buffered s' = buffered s ∨ buffered s' = buffered s ++ [e]) as Hbuf'.
  { destruct Hcase as [(Hn & -> & _)|(_ & _ & [[Hb1 _]|[Hb1 _]])]; [left; unfold buffered; simpl; by rewrite Hn|by left|by right]. }
  split; try done.
  - split; simpl; lia.
  - split; try done. intros x Hx. destruct (Hshown x Hx) as [Hax Hsx]. split; [done|]. eapply shown_mono; [|done]. simpl. lia.
  - intros Hp. destruct (Hst Hp) as (Hn & Hw & Hl & Hlo). destruct Hcase as [(_ & Hc1 & Hc2)|([x Hx] & _)]; [by simpl; subst|by rewrite Hn in Hx].
  - simpl. destruct (st_phase s); try done; destruct Hhas as [x Hx]; by destruct Hcase as [(Hn & _)|(_ & ? & _)]; [rewrite Hn in Hx|].
  - intros Hp. destruct (Hbuf Hp) as [Hbs Hbf]. split.
    + destruct Hbuf' as [->| ->]; [done|]. rewrite map_app. apply StronglySorted_app. split_and!; [|done|by repeat constructor].
      intros x1 x2 (y & -> & Hy)%list_elem_of_fmap Hx2%list_elem_of_singleton. simpl in Hx2. subst x2.
      destruct (Hbf y Hy) as [Hin _]. apply taken_seq in Hin. lia.
    + intros x Hx. assert (x ∈ buffered s ∨ x = e) as [Hin| ->] by (destruct Hbuf' as [Heq'|Heq']; rewrite Heq' in Hx; set_solver).
      * destruct (Hbf x Hin) as [? ?]. split; [by apply Hmono|done].
      * split; [simpl; rewrite Htake; set_solver|]. simpl. lia.
  - assert (listed_ok s → listed_ok s') as Hlo.
    { intros [Hls Hll Hlb Hlk]. split; try done. intros x Hx Hle.
      assert (x ∈ buffered s ∨ x = e) as [Hin| ->] by (destruct Hbuf' as [Heq'|Heq']; rewrite Heq' in Hx; set_solver); [by apply Hlk|].
      simpl in Hle. destruct Hla as [Hla|(y & Hy & Hin)%list_elem_of_fmap]; [right; lia|]. exfalso.
      assert (y ∈ written s ++ pending s) as Hy'%Hbound by (apply elem_of_app; by left). lia. }
    simpl. by destruct (st_phase s); auto.
  - assert (is_Some (st_sub s) → accounted s → accounted s') as Hac.
    { intros [x Hx] Ha q Hrange. simpl in Hrange. destruct Hcase as [(Hn & _)|(_ & _ & Hcase)]; [by rewrite Hn in Hx|].
      destruct (decide (q = ev_Seq e)) as [->|Hne].
      - destruct Hcase as [[_ Hlost]|[Hb' _]]; [right; left; simpl; rewrite Hlost; by left|].
        left. rewrite Hb'. rewrite map_app. apply elem_of_app. right. by left.
      - destruct (Ha q) as [Hin|[Hin|Hin]]; [lia| | |].
        + left. destruct Hbuf' as [->| ->]; [done|]. rewrite map_app. apply elem_of_app. by left.
        + right. left. simpl. destruct Hcase as [[_ ->]|[_ ->]]; [by right|done].
        + right. right. exact Hin. }
    simpl. destruct (st_phase s); auto.
Qed.

Lemma publish_inv s s' : stream_inv s → exec SPublish s = Some s' → stream_inv s'.
Proof.
  intros Hinv. cbn [exec_stream]. case_bool_decide as Heq; [|done]. destruct (run !! st_published s) as [e|] eqn:He; [|done].
  cbn [mbind option_bind]. pose proof (si_sub _ Hinv) as Hsub. destruct (st_sub s) as [sub|] eqn:Hs.
  - unfold MemBus.send. pose proof (Hsub sub Hs) as Hok. destruct (MemBus.ms_closed sub) eqn:Hcl; cbn [mbind option_bind fst snd].
    + intros [= <-]. apply (published_inv s e (Some sub) (ev_Seq e :: st_lost s)); [done..| |].
      * intros x [= <-]. by rewrite Hcl.
      * right. rewrite Hs. split_and!; [done|done|]. left. unfold buffered. simpl. by rewrite Hs.
    + destruct (MemBus.ms_chanClosed sub) eqn:Hcc; [done|]. case_match; cbn [mbind option_bind fst snd]; intros [= <-].
      * apply (published_inv s e (Some (MemBus.mkSub (MemBus.ms_ch sub ++ [e]) false false)) (st_lost s)); [done..| |].
        -- by intros x [= <-].
        -- right. rewrite Hs. split_and!; [done|done|]. right. unfold buffered. simpl. by rewrite Hs.
      * apply (published_inv s e (Some sub) (ev_Seq e :: st_lost s)); [done..| |].
        -- intros x [= <-]. by rewrite Hcc.
        -- right. rewrite Hs. split_and!; [done|done|]. left. unfold buffered. simpl. by rewrite Hs.
  - intros [= <-]. apply (published_inv s e None (st_lost s)); [done..|done|]. by left.
Qed.

Lemma store_inv s fail s' : stream_inv s → exec (SStore fail) s = Some s' → stream_inv s'.
Proof.
  intros [[Ho Hlen Hs Hli] [Hok Hr Hh] Hord Hend Hopen Hsub Hst Hfi Hhas Hbuf Hlist Hacc]. cbn [exec_stream].
  case_bool_decide as Hlt; [|done]. destruct (run !! st_stored s) as [e|] eqn:He; [|done]. cbn [mbind option_bind].
  pose proof (Append_ok fail e (st_table s) Hok) as Hok'. pose proof (take_next _ _ He) as Htake.
  destruct (Append fail e (st_table s)) as [table err] eqn:Ha. intros [= <-]. simpl in Hok'.
  set (failed := match err with Some _ => ev_Seq e :: st_failed s | None => st_failed s end).
  assert (∀ q, q ∉ failed → q ∉ st_failed s) as Hf by (intros q; unfold failed; destruct err; set_solver).
  split; try done.
  - split; simpl; lia.
  - split; simpl; [done| |].
    + intros r Hrow Hrun. rewrite Htake. unfold Append in Ha.
      assert (r ∈ et_rows (st_table s) ∨ row_for r e) as [Hold|Hnew].
      { destruct (payload_Marshal (ev_Payload e)) as [data|] eqn:Hm; [|injection Ha as <- _; by left].
        destruct fail; [injection Ha as <- _; by left|]. destruct (existsb _ _); injection Ha as <- _; [by left|].
        simpl in Hrow. apply elem_of_app in Hrow as [?|Hrow%list_elem_of_singleton]; [by left|]. right. exists data. split; [done|]. by rewrite Hrow. }
      * destruct (Hr r Hold Hrun) as (x & Hx & Hrx). exists x. split; [set_solver|done].
      * exists e. split; [set_solver|done].
    + intros x Hx Hnf. rewrite Htake in Hx. apply elem_of_app in Hx as [Hx|Hx%list_elem_of_singleton].
      * destruct (Hh x Hx (Hf _ Hnf)) as (r & Hrow & Hrx). exists r. split; [|done]. unfold Append in Ha.
        destruct (payload_Marshal _); [|by injection Ha as <- _]. destruct fail; [by injection Ha as <- _|].
        destruct (existsb _ _); injection Ha as <- _; [done|]. simpl. apply elem_of_app. by left.
      * subst x. unfold Append in Ha. unfold failed in Hnf. destruct err; [set_solver|].
        destruct (payload_Marshal (ev_Payload e)) as [data|] eqn:Hm; [|done]. destruct fail; [done|]. destruct (existsb _ _); [done|].
        injection Ha as <-. exists (event_row_of (et_next (st_table s)) data e). split; [simpl; apply elem_of_app; right; by left|by exists data].
  - by destruct Hord.
  - intros Hp. by destruct (Hbuf Hp).
  - assert (listed_ok s → ∀ t, listed_ok (mkStream (st_published s) (S (st_stored s)) t (st_sub s) (st_phase s) (st_last s) (st_out s)
      (st_since s) (st_listed s) (st_lost s) failed)) as Hlo.
    { intros [Hls Hll Hlb Hlk] t. split; try done. intros q Hq Haft Hnf. apply (Hll q Hq Haft). by apply Hf. }
    simpl. destruct (st_phase s); try done; by apply Hlo.
  - assert (accounted s → ∀ t, accounted (mkStream (st_published s) (S (st_stored s)) t (st_sub s) (st_phase s) (st_last s) (st_out s)
      (st_since s) (st_listed s) (st_lost s) failed)) as Hac.
    { intros Hacc' t q Hq. destruct (Hacc' q Hq) as [?|[?|[Hp Hset]]]; [by left|by right; left|]. right. right. split; [done|].
      unfold settled in *. simpl. unfold failed. destruct Hset as [?|[?|?]]; [by left|by right; left|]. right. right. destruct err; [by right|done]. }
    simpl. destruct (st_phase s); try done; by apply Hac.
Qed.

Lemma subscribe_inv s s' : stream_inv s → exec SSubscribe s = Some s' → stream_inv s'.
Proof.
  intros [[Ho Hlen Hs Hli] [Hok Hr Hh] [Hsort Hshown Haf Hb Hla] Hend Hopen Hsub Hst Hfi Hhas Hbuf Hlist Hacc]. cbn [exec_stream].
  destruct (st_phase s) eqn:Hp; try done. destruct (Hst eq_refl) as (Hn & Hw & Hl & Hlo). intros [= <-].
  assert (written (mkStream (st_published s) (st_stored s) (st_table s) (Some MemBus.newMemSub) PSubscribed afterSeq (st_out s)
    (st_published s) (st_listed s) (st_lost s) (st_failed s)) = []) as Hw' by exact Hw.
  split; try done.
  - split; unfold pending; cbn [st_phase st_last]; rewrite ?Hw'; simpl; [constructor|set_solver|lia|set_solver|by left].
  - intros _ x. rewrite Hw'. set_solver.
  - by intros x [= <-].
  - by eexists.
  - intros _. split; [constructor|set_solver].
  - intros q Hq. simpl in Hq. lia.
Qed.

Lemma list_inv s fail s' : stream_inv s → exec (SList fail) s = Some s' → stream_inv s'.
Proof.
  intros [[Ho Hlen Hs Hli] [Hok Hr Hh] Hord Hend Hopen Hsub Hst Hfi Hhas Hbuf Hlist Hacc]. cbn [exec_stream].
  destruct (st_phase s) eqn:Hp; try done. destruct (Hfi eq_refl) as [Hw Hl].
  destruct (List_ fail runID afterSeq 0 (st_table s)) as [events|] eqn:Hev.
  2: { intros Hf. destruct (stream_finish_inv s) as (s1 & Hf1 & Hinv); [done..|]. rewrite Hf in Hf1. by injection Hf1 as <-. }
  destruct fail; [done|]. destruct (List_spec (st_table s) runID afterSeq Hok) as (es & Hes & Hsort & Hin & _).
  rewrite Hev in Hes. injection Hes as <-. intros [= <-].
  assert (∀ e, e ∈ events → (afterSeq < ev_Seq e)%Z ∧ (ev_Seq e ≤ Z.of_nat (st_stored s))%Z ∧
    ∃ e0, e0 ∈ take (st_stored s) run ∧ ev_Seq e = ev_Seq e0 ∧ ev_Kind e = ev_Kind e0 ∧ stored_as e0 e) as Hevents.
  { intros e He. apply Hin in He as (r & Hrow & Hsc & Hrun & Hseq). destruct (Hr r Hrow Hrun) as (e0 & He0 & Hrf).
    apply (row_for_scan r e0 e Hrf) in Hsc as Hst'. pose proof (taken_seq _ _ He0) as Hb. destruct Hst' as (data & p & Hm & Hp' & ->).
    destruct Hrf as (d' & _ & Hre). rewrite Hre in Hseq. simpl in *. split; [done|]. split; [lia|]. exists e0. split_and!; [done..|]. by exists data, p. }
  assert (∀ x, x ∈ take (st_stored s) run → x ∈ take (st_published s) run) as Hmono.
  { intros x [i Hi]%list_elem_of_lookup. apply lookup_take_Some in Hi as [Hi Hlt]. apply (list_elem_of_lookup_2 _ i). apply lookup_take_Some. split; [done|lia]. }
  set (s1 := mkStream _ _ _ _ (PReplay events) _ _ _ _ _ _).
  assert (written s1 = []) as Hw1 by exact Hw. assert (pending s1 = events) as Hp1 by done.
  split; try done.
  - split; rewrite ?Hw1, ?Hp1; simpl; [done| |lia|set_solver|by left].
    intros e He. destruct (Hevents e He) as (Ha & _ & e0 & He0 & Hx1 & Hx2 & Hx3). split; [done|]. exists e0. split; [by apply Hmono|]. auto.
  - intros _ x. rewrite Hw1. set_solver.
  - intros _. destruct Hbuf as [Hbs Hbf]; [done|]. by split.
  - simpl. split; rewrite ?Hw1, ?Hp1; simpl; [lia| | |].
    + intros q Hq Ha Hnf. destruct (seq_taken (st_stored s) q Hq) as (e0 & He0 & Hq0); [lia|].
      destruct (Hh e0 He0) as (r & Hrow & Hrf); [by rewrite Hq0|]. destruct Hrf as (data & Hm & Hre) eqn:Hrf'. clear Hrf'.
      destruct (scan_row_of (er_id r) data e0 Hm) as (e1 & Hsc & (d1 & p1 & _ & _ & He1)).
      apply list_elem_of_fmap. exists e1. split; [by rewrite He1; simpl|]. apply Hin. exists r. split; [done|]. split; [by rewrite Hre|].
      rewrite Hre. simpl. split; [|lia]. apply same_run. apply list_elem_of_lookup in He0 as [i Hi]. apply lookup_take_Some in Hi as [Hi _].
      by eapply list_elem_of_lookup_2.
    + intros events' e [= <-] He. by destruct (Hevents e He) as (_ & ? & _).
    + intros e He Hle. right. lia.
  - simpl. intros q Hq. destruct (Hacc q Hq) as [?|[?|[Hx _]]]; [by left|by right; left|congruence].
Qed.

(** What [write_event] does to the parts of the invariant that it shares with the end
    of the handler. *)
Lemma write_inv s broken e lst next s' :
  counts_ok s → table_of s → order_ok s → sub_ok s → (∀ x, x ∈ written s → ev_Kind x ≠ EventRunFinished) →
  (∀ text, let s1 := mkStream (st_published s) (st_stored s) (st_table s) (st_sub s) next lst (st_out s ++ [(e, text)])
             (st_since s) (st_listed s) (st_lost s) (st_failed s) in
     order_ok s1 ∧ (ev_Kind e ≠ EventRunFinished → stream_inv s1)) →
  write_event broken e lst next s = Some s' → stream_inv s'.
Proof.
  intros Hc Ht Ho Hsub Hopen Hnext. unfold write_event. destruct (writeSSEEvent broken e) as [text|].
  2: { intros Hf. destruct (stream_finish_inv s) as (s1 & Hf1 & Hinv); [done..| |]. { intros x Hx Hk. by destruct (Hopen x Hx). }
       rewrite Hf in Hf1. by injection Hf1 as <-. }
  destruct (Hnext text) as [Ho1 Hinv1]. set (s1 := mkStream _ _ _ _ _ _ _ _ _ _ _) in *.
  case_bool_decide as Hk; [|intros [= <-]; by apply Hinv1]. intros Hf.
  assert (written s1 = written s ++ [e]) as Hw by (unfold written; simpl; by rewrite map_app).
  destruct (stream_finish_inv s1) as (s2 & Hf2 & Hinv); [by destruct Hc|by destruct Ht|done|done| |].
  { intros x Hx Hkx. rewrite Hw in Hx |- *. apply elem_of_app in Hx as [Hx|Hx%list_elem_of_singleton]; [by destruct (Hopen x Hx)|].
    rewrite last_snoc. by subst. }
  rewrite Hf in Hf2. by injection Hf2 as <-.
Qed.

Lemma replay_inv s canceled broken s' : stream_inv s → exec (SReplay canceled broken) s = Some s' → stream_inv s'.
Proof.
  intros Hinv. pose proof Hinv as [Hc Ht Ho Hend Hopen Hsub Hst Hfi Hhas Hbuf Hlist Hacc]. cbn [exec_stream].
  destruct (st_phase s) as [| |events| |] eqn:Hp; try done. destruct events as [|e rest].
  - intros [= <-]. destruct Ho as [Hsort Hshown Haf Hb Hla]. destruct Hlist as [Hls Hll Hlb Hlk]. unfold pending in *. rewrite Hp in *.
    split; try done.
    + by destruct Hc.
    + by destruct Ht.
    + intros _. by apply Hopen.
    + intros _. by destruct (Hbuf ltac:(done)).
    + simpl. intros q Hq. destruct (Hacc q Hq) as [?|[?|[Hx _]]]; [by left|by right; left|congruence].
  - destruct canceled.
    { intros Hf. destruct (stream_finish_inv s) as (s1 & Hf1 & Hi); [done..|]. rewrite Hf in Hf1. by injection Hf1 as <-. }
    apply write_inv; [done..|by apply Hopen|]. intros text s1.
    assert (written s1 = written s ++ [e]) as Hw by (unfold written; simpl; by rewrite map_app).
    assert (written s1 ++ pending s1 = written s ++ pending s) as Hwp by (rewrite Hw; unfold pending; rewrite Hp; simpl; by rewrite <- app_assoc).
    assert (order_ok s1) as Ho1.
    { destruct Ho as [Hsort Hshown Haf Hb Hla]. split; rewrite ?Hwp; try done; simpl.
      - case_match; lia.
      - intros x Hx. rewrite Hw in Hx. destruct (Z.ltb_spec (st_last s) (ev_Seq e)); apply elem_of_app in Hx as [Hx|Hx%list_elem_of_singleton].
        + specialize (Hb x Hx). lia.
        + subst. lia.
        + by apply Hb.
        + subst. lia.
      - rewrite Hw, map_app. case_match; [right; set_solver|]. destruct Hla; [by left|right; set_solver]. }
    split; [done|]. intros Hk. destruct Hlist as [Hls Hll Hlb Hlk].
    assert ((ev_Seq e ≤ Z.of_nat (st_listed s))%Z) as Hle by (eapply Hlb; [done|]; apply elem_of_app; right; by left).
    split; try done.
    + by destruct Hc.
    + by destruct Ht.
    + intros x Hx Hkx. rewrite Hw in Hx. apply elem_of_app in Hx as [Hx|Hx%list_elem_of_singleton]; [by destruct (Hopen ltac:(done) x Hx)|by subst].
    + intros _ x Hx. rewrite Hw in Hx. apply elem_of_app in Hx as [Hx|Hx%list_elem_of_singleton]; [by apply Hopen|by subst].
    + intros _. by destruct (Hbuf ltac:(done)).
    + simpl. split; rewrite ?Hwp; try done.
      * intros events x [= <-] Hx. apply (Hlb (e :: rest) x); [done|]. rewrite Hw, <- app_assoc in Hx. exact Hx.
      * intros x Hx Hlx. simpl in Hlx. destruct (Z.ltb_spec (st_last s) (ev_Seq e)); [left; simpl; lia|by apply Hlk].
    + simpl. intros q Hq. destruct (Hacc q Hq) as [?|[?|[Hx _]]]; [by left|by right; left|congruence].
Qed.

(** The handler took an event off its subscription: what is left of the invariant. *)
Lemma recv_inv s broken s' : stream_inv s → exec (SRecv broken) s = Some s' → stream_inv s'.
Proof.
  intros [Hc Ht Ho Hend Hopen Hsub Hst Hfi Hhas Hbuf Hlist Hacc]. cbn [exec_stream].
  destruct (st_phase s) as [| |events| |] eqn:Hp; try done. destruct (st_sub s) as [sub|] eqn:Hs; [|done].
  destruct (MemBus.ms_ch sub) as [|e ch] eqn:Hch.
  { destruct (MemBus.ms_chanClosed sub); [|done]. intros Hf. destruct (stream_finish_inv s) as (s1 & Hf1 & Hi); [done..|].
    rewrite Hf in Hf1. by injection Hf1 as <-. }
  set (s0 := mkStream _ _ _ _ PLive _ _ _ _ _ _).
  assert (buffered s = e :: buffered s0) as Hb0 by (unfold buffered; rewrite Hs; simpl; done).
  destruct (Hbuf ltac:(done)) as [Hbs Hbf]. destruct Hlist as [Hls Hll _ Hlk]. rewrite Hb0 in Hbs, Hbf, Hlk. unfold accounted in Hacc. rewrite Hb0 in Hacc.
  simpl in Hbs. apply StronglySorted_cons in Hbs as [Hfirst Hbs].
  assert (pending s = []) as Hpend by (unfold pending; by rewrite Hp).
  assert (counts_ok s0) as Hc0 by (by destruct Hc). assert (table_of s0) as Ht0 by (by destruct Ht).
  assert (order_ok s0) as Ho0 by (destruct Ho as [Hy1 Hy2 Hy3 Hy4 Hy5]; rewrite Hpend in *; by split).
  assert (sub_ok s0) as Hsub0 by (intros x [= <-]; exact (Hsub sub Hs)).
  assert (buffer_ok s0) as Hbuf0 by (split; [done|]; intros x Hx; apply Hbf; by right).
  assert (e ∈ take (st_published s) run) as He by (by apply Hbf; left). apply taken_seq in He as Hpos.
  change (st_last s0) with (st_last s). destruct (Z.leb_spec (ev_Seq e) (st_last s)) as [Hle|Hgt].
  - intros Heq. assert (s' = s0) as -> by (by injection Heq). split; try done.
    + by eexists.
    + split; [done| |done|intros x Hx; apply Hlk; by right].
      intros q Hq Ha Hnf. specialize (Hll q Hq Ha Hnf). by rewrite Hpend in Hll.
    + intros q Hq. destruct (Hacc q Hq) as [Hin|[Hin|[_ Hset]]]; [|by right; left|by right; right].
      simpl in Hin. apply elem_of_cons in Hin as [->|Hin]; [|by left]. right. right. split; [done|]. unfold settled. simpl.
      destruct (decide (ev_Seq e ∈ st_failed s)) as [|Hnf]; [by right; right|]. destruct (Z.le_gt_cases (ev_Seq e) afterSeq); [by right; left|].
      left. destruct (Hlk e) as [Hl|Hl]; [by left|done| |lia]. rewrite Hpend, app_nil_r in Hll. apply Hll; [lia|lia|done].
  - apply write_inv; [done..|by apply Hopen|]. intros text s1.
    assert (written s1 = written s ++ [e]) as Hw by (unfold written; simpl; by rewrite map_app).
    assert (pending s1 = []) as Hp1 by done. destruct Ho as [Hsort Hshown Haf Hb Hla]. rewrite Hpend, app_nil_r in *.
    assert (order_ok s1) as Ho1.
    { split; rewrite ?Hw, ?Hp1, ?app_nil_r; simpl.
      - rewrite map_app. apply StronglySorted_app. split_and!; [|done|by repeat constructor].
        intros x1 x2 (y & -> & Hy)%list_elem_of_fmap Hx2%list_elem_of_singleton. simpl in Hx2. subst x2. specialize (Hb y Hy). lia.
      - intros x [Hx|Hx%list_elem_of_singleton]%elem_of_app; [by apply Hshown|]. subst x. split; [lia|]. exists e. split_and!; [done..|by left].
      - lia.
      - intros x [Hx|Hx%list_elem_of_singleton]%elem_of_app; [specialize (Hb x Hx); lia|by subst].
      - right. rewrite map_app. set_solver. }
    split; [done|]. intros Hk. split; try done.
    + by destruct Hc.
    + by destruct Ht.
    + intros x Hx Hkx. rewrite Hw in Hx. apply elem_of_app in Hx as [Hx|Hx%list_elem_of_singleton]; [by destruct (Hopen ltac:(done) x Hx)|by subst].
    + intros _ x Hx. rewrite Hw in Hx. apply elem_of_app in Hx as [Hx|Hx%list_elem_of_singleton]; [by apply Hopen|by subst].
    + by eexists.
    + intros _. by destruct Hbuf0.
    + simpl. split; rewrite ?Hw, ?Hp1, ?app_nil_r; try done.
      * intros q Hq Ha Hnf. rewrite map_app. apply elem_of_app. left. by apply Hll.
      * intros x Hx Hlx. simpl in Hlx. rewrite Forall_forall in Hfirst. exfalso.
        assert (ev_Seq e < ev_Seq x)%Z; [|lia]. apply Hfirst, list_elem_of_fmap. by exists x.
    + intros q Hq. destruct (Hacc q Hq) as [Hin|[Hin|[_ Hset]]]; [|by right; left|].
      * simpl in Hin. apply elem_of_cons in Hin as [->|Hin]; [|by left]. right. right. split; [done|]. left. rewrite Hw, map_app. set_solver.
      * right. right. split; [done|]. destruct Hset as [?|[?|?]]; [left; rewrite Hw, map_app; set_solver|by right; left|by right; right].
Qed.

Lemma exec_inv m s s' : stream_inv s → exec m s = Some s' → stream_inv s'.
Proof.
  intros Hinv. destruct m as [|fail| |fail|canceled broken|broken|broken| |];
    [by apply publish_inv|by apply store_inv|by apply subscribe_inv|by apply list_inv|by apply replay_inv|by apply recv_inv|..];
    pose proof Hinv as [Hc Ht Ho Hend Hopen Hsub Hst Hfi Hhas Hbuf Hlist Hacc]; cbn [exec_stream].
  - destruct (st_phase s); try done. destruct broken; [|by intros [= <-]]. intros Hf.
    destruct (stream_finish_inv s) as (s1 & Hf1 & Hi); [done..|]. rewrite Hf in Hf1. by injection Hf1 as <-.
  - destruct (st_phase s); try done. intros Hf.
    destruct (stream_finish_inv s) as (s1 & Hf1 & Hi); [done..|]. rewrite Hf in Hf1. by injection Hf1 as <-.
  - destruct (st_sub s) as [sub|] eqn:Hs; [|done]. cbn [mbind option_bind]. destruct (close_sub sub) as (sub' & -> & Hch & Hx); [by apply Hsub|].
    cbn [mbind option_bind]. set (s1 := mkStream _ _ _ _ _ _ _ _ _ _ _). intros Heq. assert (s' = s1) as -> by (by injection Heq).
    assert (buffered s1 = buffered s) as Hb by (unfold buffered; simpl; by rewrite Hs, Hch).
    split; try done.
    + by destruct Hc.
    + by destruct Ht.
    + by destruct Ho.
    + by intros x [= <-].
    + intros Hp. by destruct (Hst Hp) as [? _].
    + simpl. destruct (st_phase s); try done; by eexists.
    + intros Hp. destruct (Hbuf Hp) as [Hy1 Hy2]. split; by rewrite Hb.
    + assert (listed_ok s → listed_ok s1) as Hlo by (intros [Hy1 Hy2 Hy3 Hy4]; split; rewrite ?Hb; done).
      simpl. destruct (st_phase s); auto.
    + assert (accounted s → accounted s1) as Hac by (intros Ha q Hq; rewrite Hb; by apply Ha).
      simpl. destruct (st_phase s); auto.
Qed.

Lemma exec_all_inv ms s s' : stream_inv s → exec_streams run runID afterSeq bufSize ms s = Some s' → stream_inv s'.
Proof.
  revert s. induction ms as [|m ms IH]; intros s Hinv; simpl; [by intros [= <-]|].
  destruct (exec m s) as [s1|] eqn:Hm; [|done]. simpl. apply IH. by eapply exec_inv.
Qed.

Lemma new_stream_inv table : table_ok table → (∀ r, r ∈ et_rows table → er_run_id r ≠ runID) → stream_inv (new_stream afterSeq table).
Proof.
  intros Hok Hfresh. split; try done.
  - split; simpl; lia.
  - split; [done| |]; simpl; [intros r Hr Hrun; by destruct (Hfresh r Hr)|set_solver].
  - split; simpl; [constructor|set_solver|lia|set_solver|by left].
  - intros e. set_solver.
  - intros _ e. set_solver.
  - intros _. split; [constructor|set_solver].
Qed.

End StreamProofs.

(** ** The stream of a run request *)

(** What a stream writes: an event of the bus, the end it announces itself, an error,
    a heartbeat. *)
Inductive frame :=
| FEvent (e : Event)
| FStarted (runID workflowID : string)
| FFinished (runID : string)
| FError (err : error)
| FHeartbeat.

(** What a [select] receives. *)
Inductive signal :=
| SigEvent (e : Event)
| SigClosed                             (** the subscription was closed *)
| SigDone (err : option error)          (** the run returned *)
| SigHeartbeat
| SigTimeout                            (** the context or the timer of the drain *)
.

(** The frames, and whether the end of the run was among them; [None]: still waiting. *)
Fixpoint drainSubscriptionEvents (signals : list signal) : list frame * option bool :=
  match signals with
  | [] => ([], None)
  | SigEvent e :: rest =>
      if bool_decide (ev_Kind e = EventRunFinished) then ([FEvent e], Some true)
      else let '(fs, r) := drainSubscriptionEvents rest in (FEvent e :: fs, r)
  | SigClosed :: _ | SigTimeout :: _ => ([], Some false)
  | _ :: rest => drainSubscriptionEvents rest
  end.

(** The flag: the handler has returned. *)
Definition handleStreamingCompletionWithDrain (signals : list signal) (runErr : option error) (runID : string) : list frame * bool :=
  let '(fs, saw) := drainSubscriptionEvents signals in
  let before := match runErr with Some err => [FError err] | None => [] end in
  match saw with
  | None => (before ++ fs, false)
  | Some saw =>
      (before ++ fs ++ (match runErr with None => if (saw : bool) then [] else [FFinished runID] | Some _ => [] end), true)
  end.

Fixpoint streamWithSubscription (signals : list signal) (runID : string) : list frame * bool :=
  match signals with
  | [] => ([], false)
  | SigEvent e :: rest =>
      if bool_decide (ev_Kind e = EventRunFinished) then ([FEvent e], true)
      else let '(fs, r) := streamWithSubscription rest runID in (FEvent e :: fs, r)
  | SigClosed :: _ => ([], true)
  | SigDone err :: rest => handleStreamingCompletionWithDrain rest err runID
  | SigHeartbeat :: rest => let '(fs, r) := streamWithSubscription rest runID in (FHeartbeat :: fs, r)
  | SigTimeout :: _ => ([FError (ESentinel "timeout")], true)
  end.

Definition streamWithoutSubscription (runErr : option error) (runID : string) : list frame :=
  match runErr with Some err => [FError err] | None => [FFinished runID] end.

(** [handleRunStreaming], once the client can be streamed to. *)
Definition handleRunStreaming (subscribed : bool) (signals : list signal) (runErr : option error) (runID workflowID : string)
    : list frame * bool :=
  let '(fs, r) := if subscribed then streamWithSubscription signals runID else (streamWithoutSubscription runErr runID, true) in
  (FStarted runID workflowID :: fs, r).

Definition final (f : frame) : bool :=
  match f with FEvent e => bool_decide (ev_Kind e = EventRunFinished) | FFinished _ => true | _ => false end.

Lemma drain_final signals fs saw : drainSubscriptionEvents signals = (fs, Some saw) →
  ∃ body, Forall (λ f, final f = false) body ∧ if saw then ∃ f, fs = body ++ [f] ∧ final f = true else fs = body.
Proof.
  revert fs. induction signals as [|x rest IH]; intros fs; cbn [drainSubscriptionEvents]; [done|]. destruct x as [e| |err| |].
  - case_bool_decide as Hk.
    + intros [= <- <-]. exists []. split; [constructor|]. exists (FEvent e). split; [done|]. by apply bool_decide_eq_true.
    + destruct (drainSubscriptionEvents rest) as [fs' r]. intros [= <- ->]. destruct (IH fs' eq_refl) as (body & Hb & Hs).
      exists (FEvent e :: body). split; [constructor; [by apply bool_decide_eq_false|done]|].
      destruct saw; [|by rewrite Hs]. destruct Hs as (f & -> & Hf). by exists f.
  - intros [= <- <-]. by exists [].
  - apply IH.
  - apply IH.
  - intros [= <- <-]. by exists [].
Qed.

(** The end of a run is announced at most once, by the last frame; a stream that ends
    because the run returned without an error announces it. *)
Theorem streamed_run (signals : list signal) (runID : string) (fs : list frame) :
  streamWithSubscription signals runID = (fs, true) →
  ∃ body, Forall (λ f, final f = false) body ∧ (fs = body ∨ ∃ f, fs = body ++ [f] ∧ final f = true) ∧
    (fs = body → SigClosed ∈ signals ∨ SigTimeout ∈ signals ∨ ∃ err, SigDone (Some err) ∈ signals).
Proof.
  revert fs. induction signals as [|x rest IH]; intros fs; cbn [streamWithSubscription]; [done|]. destruct x as [e| |err| |].
  - case_bool_decide as Hk.
    + intros [= <-]. exists []. split; [constructor|]. split; [|done]. right. exists (FEvent e). split; [done|]. by apply bool_decide_eq_true.
    + destruct (streamWithSubscription rest runID) as [fs' r]. intros [= <- ->]. destruct (IH fs' eq_refl) as (body & Hb & Hs & Hwhy).
      exists (FEvent e :: body). split; [constructor; [by apply bool_decide_eq_false|done]|]. split.
      * destruct Hs as [->|(f & -> & Hf)]; [by left|right; by exists f].
      * intros [= ->]. destruct (Hwhy eq_refl) as [?|[?|[err ?]]]; [left|right; left|right; right; exists err]; by right.
  - intros [= <-]. exists []. split; [constructor|]. split; [by left|]. intros _. left. by left.
  - unfold handleStreamingCompletionWithDrain. destruct (drainSubscriptionEvents rest) as [fs' [saw|]] eqn:Hd; [|done].
    destruct (drain_final _ _ _ Hd) as (body & Hb & Hs). intros [= <-]. destruct err as [err|].
    + exists (FError err :: body). split; [by constructor|]. rewrite app_nil_r. split.
      * destruct saw; [destruct Hs as (f & -> & Hf); right; by exists f|left; by rewrite Hs].
      * intros _. right. right. exists err. by left.
    + exists body. split; [done|]. simpl. destruct saw.
      * destruct Hs as (f & -> & Hf). rewrite app_nil_r. split; [right; by exists f|]. intros Heq.
        apply (f_equal length) in Heq. rewrite length_app in Heq. simpl in Heq. lia.
      * rewrite Hs. split; [right; by exists (FFinished runID)|]. intros Heq. apply (f_equal length) in Heq. rewrite length_app in Heq. simpl in Heq. lia.
  - destruct (streamWithSubscription rest runID) as [fs' r]. intros [= <- ->]. destruct (IH fs' eq_refl) as (body & Hb & Hs & Hwhy).
    exists (FHeartbeat :: body). split; [by constructor|]. split.
    + destruct Hs as [->|(f & -> & Hf)]; [by left|right; by exists f].
    + intros [= ->]. destruct (Hwhy eq_refl) as [?|[?|[err ?]]]; [left|right; left|right; right; exists err]; by right.
  - intros [= <-]. exists [FError (ESentinel "timeout")]. split; [by repeat constructor|]. split; [by left|]. intros _. right. left. by left.
Qed.

(** ** Samples *)

Module StreamSamples.
#[local] Instance libs : EventLibs := {|
  payload_Marshal _ := inl "{}"; payload_Unmarshal _ := inl ∅; time_text := TextTimes.to_text; parse_text := TextTimes.of_text |}.
#[local] Instance frames : FrameLib := {| sse_Marshal e := inl (se_Kind e) |}.

Definition event (kind : string) (q : Z) : Event := mkEvent kind "r" "" "" 0 1 0 ∅ q "" "".
Definition sample_run : list Event := [event EventRunStarted 1; event EventNodeStarted 2; event EventRunFinished 3].

Definition emitted (n : nat) : list smove := mjoin (replicate n [SPublish; SStore None]).
Definition streamed (ms : list smove) : option (list Z * nat) :=
  match exec_streams sample_run "r" 0 256 ms (new_stream 0 (mkEvents 1 [])) with
  | Some s => Some (map (λ o, ev_Seq o.1) (st_out s), st_stored s)
  | None => None
  end.

Example cursors : map (λ a, stream_cursor "r" a true) [""; "17"; "-1"; "1_0"; "18446744073709551616"]
  = [inl 0%Z; inl 17%Z; inr 400%Z; inr 400%Z; inr 400%Z].
Proof. vm_compute. reflexivity. Qed.

(** A stream that starts between two events gets all of them. *)
Example caught_up :
  streamed (emitted 1 ++ [SSubscribe; SList None; SPublish; SStore None; SReplay false false; SReplay false false; SRecv false] ++
            emitted 1 ++ [SRecv false]) = Some ([1; 2; 3]%Z, 3).
Proof. vm_compute. reflexivity. Qed.

(** A stream that starts while the last event is on its way from the bus to the store
    misses it: the run is over, and the stream still waits. *)
Example last_event_missed :
  let ms := emitted 2 ++ [SPublish; SSubscribe; SList None; SStore None] ++ replicate 3 (SReplay false false) in
  streamed ms = Some ([1; 2]%Z, 3) ∧ streamed (ms ++ [SRecv false]) = None ∧ streamed (ms ++ [SHeartbeat false]) = Some ([1; 2]%Z, 3).
Proof. vm_compute. done. Qed.

Lemma sample_ok : table_ok (mkEvents 1 []).
Proof. by repeat constructor. Qed.

#[local] Instance laws : EventLaws.
Proof.
  split.
  - apply TextTimes.of_to_text.
  - intros p data [= <-]. by exists ∅.
Defined.

End StreamSamples.
