(* ===== verification/StepController.v ===== *)
(** * Step-through debugging (runtime/step_controller.go)

    The request and response a controller exchanges with the runtime, the
    snapshots, the interface [StepController], and the controllers the package
    ships. *)

From stdpp Require Import gmap strings list.
From Stdlib Require Import ZArith Lia.
From S2P Require Import Prelude Values Envelope Graph.

Definition ErrStepAborted := ESentinel "execution aborted by step controller".
Definition ErrStepRequestNotFound := ESentinel "step request not found".

(** [StepAction] and [StepPoint] are string types. *)
Definition StepActionContinue := "continue".
Definition StepActionSkipNode := "skip".
Definition StepActionAbort := "abort".
Definition StepActionRunToBreakpoint := "run_to_breakpoint".

Definition StepPointBeforeNode := "before_node".
Definition StepPointAfterNode := "after_node".

Record EnvelopeSnapshot := mkEnvSnap {
  es_Input : value;
  es_Vars : gmap string value;
  es_Artifacts : list Artifact;
  es_Messages : list Message;
  es_Errors : list NodeError;
  es_Trace : TraceInfo
}.

Record EnvelopeModification := mkEnvMod {
  em_SetVars : gmap string value;
  em_DeleteVars : list string
}.

Record GraphSnapshot := mkGraphSnap {
  gs_Name : string;
  gs_CurrentNode : string;
  gs_Successors : list string;
  gs_Predecessors : list string;
  gs_AllNodes : list string
}.

Record StepRequest := mkStepRequest {
  sr_ID : string;
  sr_RunID : string;
  sr_Point : string;
  sr_NodeID : string;
  sr_NodeKind : string;
  sr_Envelope : option EnvelopeSnapshot;
  sr_HopCount : Z;
  sr_Error : option error;
  sr_Graph : GraphSnapshot;
  sr_CreatedAt : Z
}.

Record StepResponse := mkStepResponse {
  sp_RequestID : string;
  sp_Action : string;
  sp_ModifiedEnvelope : option EnvelopeModification;
  sp_Meta : gmap string value
}.

Record StepConfig := mkStepConfig {
  cfg_PauseBeforeNode : bool;
  cfg_PauseAfterNode : bool;
  cfg_StepTimeout : Z
}.

Definition DefaultStepConfig : StepConfig := mkStepConfig true false 0.

Definition createEnvelopeSnapshot (env : option Envelope) : option EnvelopeSnapshot :=
  (λ e, mkEnvSnap (env_Input e) (vars_of e) (env_Artifacts e) (env_Messages e) (env_Errors e)
          (env_Trace e)) <$> env.

Definition createGraphSnapshot {G N} `{NodeIface N, GraphIface G N} (g : G) (currentNode : string)
    : GraphSnapshot :=
  mkGraphSnap (Name g) currentNode (Successors g currentNode) (Predecessors g currentNode)
    (map node_ID (Nodes g)).

(** The interface [StepController], over a world that holds the controller's
    state. [Step] is given the time-out of its context; a nil response is [None]. *)
Record StepController (W : Type) := mkStepController {
  sc_ShouldPause : string → string → W → W * bool;
  sc_Step : Z → StepRequest → W → W * (option StepResponse + error)
}.
Arguments mkStepController {W}.
Arguments sc_ShouldPause {W}.
Arguments sc_Step {W}.
