(* ===== verification/Runtime.v ===== *)
(** * The sequential runtime (runtime/runtime.go)

    [BasicRuntime.Run] and the sequential executor: the work queue, the hop
    counters, step control, node execution with its events, error handling and
    the choice of successors. The executor is a client of the graph through
    [GraphIface] and its [GraphLaws].

    Code that Go would crash on (a nil envelope dereferenced) panics in the monad
    [GoM]; the loop carries fuel, and [seq_fuel] always suffices. *)

From stdpp Require Import gmap strings list.
From Stdlib Require Import ZArith Lia.
From S2P Require Import Prelude Values Envelope Graph Events StepController.

Definition ErrMaxHopsExceeded := ESentinel "maximum hops exceeded".
Definition ErrRunCanceled := ESentinel "run was canceled".
Definition ErrNodeExecution := ESentinel "node execution failed".

(** ** Nodes *)

(** What [Run] of a node returns: its argument (the same pointer), another
    envelope, a nil envelope without error, or an error. *)
Inductive run_result := RSame | RNew (e : Envelope) | RNil | RErr (err : error).

(** A run of a node: it may emit events through the emitter of its context and
    act on the world; it ends with the final contents of its argument and a
    result. A run that never returns has no program. *)
Inductive NodeProg (W : Type) :=
| NRet (arg : Envelope) (r : run_result)
| NEmit (e : Event) (k : NodeProg W)
| NWorld (k : W → W * NodeProg W).
Arguments NRet {W}.
Arguments NEmit {W}.
Arguments NWorld {W}.

Lemma NodeProg_induct {W} (P : NodeProg W → Prop) :
  (∀ arg r, P (NRet arg r)) → (∀ e k, P k → P (NEmit e k)) →
  (∀ k, (∀ w, P (k w).2) → P (NWorld k)) → ∀ p, P p.
Proof.
  intros HR HE HW. fix IH 1. intros [arg r|e k|k]; [apply HR|apply HE, IH|].
  apply HW. intros w. destruct (k w) as [w' p']. apply IH.
Qed.

Record Node (W : Type) := mkNode {
  n_ID : string;
  n_Kind : string;
  n_isRouter : bool;                    (** whether it implements [core.RouterNode] *)
  n_Run : Envelope → NodeProg W
}.
Arguments mkNode {W}.
Arguments n_ID {W}.
Arguments n_Kind {W}.
Arguments n_isRouter {W}.
Arguments n_Run {W}.

#[export] Instance Node_iface {W} : NodeIface (Node W) := {| node_ID := n_ID; node_Kind := n_Kind |}.

(** ** Options *)

Record RunOptions (W : Type) := mkRunOptions {
  MaxHops : Z;
  ContinueOnError : bool;
  Concurrency : Z;
  Now : option (W → W * Z);
  o_sinks : Sinks W;                    (** EventHandler, EventEmitterDecorator, EventBus *)
  o_StepController : option (StepController W);
  o_StepConfig : option StepConfig;
  CaptureSnapshots : bool;
  o_GraphDefinition : option value;
  o_Inputs : option value;
  TriggerSource : string;
  WorkflowID : string;
  WorkflowVersion : string
}.
Arguments mkRunOptions {W}.
Arguments MaxHops {W}.
Arguments ContinueOnError {W}.
Arguments Concurrency {W}.
Arguments Now {W}.
Arguments o_sinks {W}.
Arguments o_StepController {W}.
Arguments o_StepConfig {W}.
Arguments CaptureSnapshots {W}.
Arguments o_GraphDefinition {W}.
Arguments o_Inputs {W}.
Arguments TriggerSource {W}.
Arguments WorkflowID {W}.
Arguments WorkflowVersion {W}.

Definition DefaultRunOptions {W} : RunOptions W :=
  mkRunOptions 100 false 1 None (mkSinks None None None) None None false None None
    EmptyString EmptyString EmptyString.

Definition set_MaxHops {W} (n : Z) (o : RunOptions W) : RunOptions W :=
  mkRunOptions n (ContinueOnError o) (Concurrency o) (Now o) (o_sinks o) (o_StepController o)
    (o_StepConfig o) (CaptureSnapshots o) (o_GraphDefinition o) (o_Inputs o) (TriggerSource o)
    (WorkflowID o) (WorkflowVersion o).

(** The state of the sequential loop; [current] is a pointer, nil is [None]. *)
Record loop_state := mkLoop {
  ls_queue : list string;
  ls_visited : gmap string bool;
  ls_hops : gmap string Z;
  ls_current : option Envelope
}.

(** What [Run] and the executors return. *)
Definition outcome : Type := option Envelope * option error.

Section Sequential.
Context {W G : Type} `{World W} `{GraphIface G (Node W)}.
Notation M := (GoM (RT W)).
Implicit Types (opts : RunOptions W) (g : G) (node : Node W).

(** [opts.Now()], after [Run] has replaced a nil clock by [time.Now]. *)
Definition clock opts : M Z :=
  match Now opts with Some f => lift f | None => lift time_Now end.

Definition since opts (start : Z) : M Z :=
  t ← clock opts; mret (time_Sub t start).

Definition emitter opts (e : Event) : M unit := emit (o_sinks opts) e.

(** Dereferencing an envelope pointer. *)
Definition deref (env : option Envelope) : M Envelope :=
  match env with Some e => mret e | None => panic end.

(** *** Hops and cancellation *)

Definition hop_get (m : gmap string Z) (id : string) : Z := default 0%Z (m !! id).

Definition shouldSkipVisitedNode (nodeID : string) (visited : gmap string bool)
    (hopCount : gmap string Z) (maxHops : Z) : bool :=
  if negb (default false (visited !! nodeID)) || (hop_get hopCount nodeID =? 0)%Z then false
  else (maxHops <=? hop_get hopCount nodeID)%Z.

Definition checkRunContext : M (option error) :=
  d ← lift ctx_Done;
  mret ((λ err, wrapf ErrRunCanceled [PE err]) <$> d).

Definition incrementAndValidateHop (nodeID : string) (hopCount : gmap string Z) (maxHops : Z)
    : gmap string Z * (Z * option error) :=
  let attempt := (hop_get hopCount nodeID + 1)%Z in
  let hopCount' := <[nodeID := attempt]> hopCount in
  if (maxHops <? attempt)%Z then
    (hopCount', (attempt, Some (wrapf ErrMaxHopsExceeded
       [PS "node "; PS nodeID; PS " executed "; PD attempt; PS " times"])))
  else (hopCount', (attempt, None)).

(** *** Step control *)

Definition apply_modification (md : EnvelopeModification) (env : Envelope) : Envelope :=
  foldl (λ e k, DeleteVar k e)
    (map_fold (λ k v e, SetVar k v e) env (em_SetVars md)) (em_DeleteVars md).

Definition handleStepPoint g node (env : option Envelope) opts (runStart : Z)
    (point : string) (hopCount : Z) (nodeErr : option error)
    : M (string * option Envelope * option error) :=
  match o_StepController opts with
  | None => mret (StepActionContinue, None, None)
  | Some ctrl =>
      let config := default DefaultStepConfig (o_StepConfig opts) in
      if bool_decide (point = StepPointBeforeNode) && negb (cfg_PauseBeforeNode config) then
        mret (StepActionContinue, None, None)
      else if bool_decide (point = StepPointAfterNode) && negb (cfg_PauseAfterNode config) then
        mret (StepActionContinue, None, None)
      else
        pause ← lift (sc_ShouldPause ctrl (n_ID node) point);
        if negb pause then mret (StepActionContinue, None, None)
        else
          id ← lift rand_ID;
          env' ← deref env;
          let runID := tr_RunID (env_Trace env') in
          created ← clock opts;
          let req := mkStepRequest id runID point (n_ID node) (n_Kind node)
                       (createEnvelopeSnapshot env) hopCount nodeErr
                       (createGraphSnapshot g (n_ID node)) created in
          ev ← NewEvent EventStepPaused runID;
          el ← since opts runStart;
          emitter opts
            (WithPayload "hop_count" (PVal (VInt hopCount))
              (WithPayload "step_point" (PVal (VString point))
                (WithPayload "step_id" (PVal (VString id))
                  (WithElapsed el (WithNode (n_ID node) (n_Kind node) ev))))) ;;
          resp ← lift (sc_Step ctrl (cfg_StepTimeout config) req);
          match resp with
          | inr err => mret (StepActionAbort, None,
                             Some (EFmt [PS "step controller error: "; PW err]))
          | inl None => panic
          | inl (Some rsp) =>
              ev ← NewEvent EventStepResumed runID;
              el ← since opts runStart;
              emitter opts
                (WithPayload "action" (PVal (VString (sp_Action rsp)))
                  (WithPayload "step_id" (PVal (VString id))
                    (WithElapsed el (WithNode (n_ID node) (n_Kind node) ev)))) ;;
              let modifiedEnv :=
                match sp_ModifiedEnvelope rsp with
                | Some md =>
                    if bool_decide (point = StepPointBeforeNode) &&
                       bool_decide (sp_Action rsp = StepActionContinue)
                    then apply_modification md <$> Clone env else None
                | None => None
                end in
              mret (sp_Action rsp, modifiedEnv, None)
          end
  end.

Definition emitStepControlEvent opts (runStart : Z) (runID : string) node (kind reason : string)
    : M unit :=
  ev ← NewEvent kind runID;
  el ← since opts runStart;
  emitter opts (WithPayload "reason" (PVal (VString reason))
                  (WithElapsed el (WithNode (n_ID node) (n_Kind node) ev))).

Definition handleSequentialBeforeStep g node (current : option Envelope) opts (runStart attempt : Z)
    : M (option Envelope * bool * option error) :=
  match o_StepController opts with
  | None => mret (current, false, None)
  | Some _ =>
      r ← handleStepPoint g node current opts runStart StepPointBeforeNode attempt None;
      let '(action, modifiedEnv, stepErr) := r in
      match stepErr with
      | Some err => mret (current, false, Some err)
      | None =>
          let current := match modifiedEnv with Some m => Some m | None => current end in
          if bool_decide (action = StepActionAbort) then
            env ← deref current;
            emitStepControlEvent opts runStart (tr_RunID (env_Trace env)) node
              EventStepAborted "controller_abort" ;;
            mret (current, false, Some ErrStepAborted)
          else if bool_decide (action = StepActionSkipNode) then
            env ← deref current;
            emitStepControlEvent opts runStart (tr_RunID (env_Trace env)) node
              EventStepSkipped "controller_skip" ;;
            mret (current, true, None)
          else mret (current, false, None)
      end
  end.

Definition handleSequentialAfterStep g node (current result : option Envelope)
    (nodeErr : option error) opts (runStart attempt : Z) : M (option error) :=
  match o_StepController opts with
  | None => mret None
  | Some _ =>
      let envForStep := match result with Some r => Some r | None => current end in
      r ← handleStepPoint g node envForStep opts runStart StepPointAfterNode attempt nodeErr;
      let '(action, _, stepErr) := r in
      match stepErr with
      | Some err => mret (Some err)
      | None =>
          if bool_decide (action = StepActionAbort) then
            env ← deref current;
            emitStepControlEvent opts runStart (tr_RunID (env_Trace env)) node
              EventStepAborted "controller_abort" ;;
            mret (Some ErrStepAborted)
          else mret None
      end
  end.

(** *** Node execution *)

Fixpoint run_prog opts (p : NodeProg W) : M (Envelope * run_result) :=
  match p with
  | NRet arg r => mret (arg, r)
  | NEmit e k => emitter opts e ;; run_prog opts k
  | NWorld k => λ s,
      let '(w, p') := k (rt_w s) in
      run_prog opts p' (mkRT w (rt_seq s) (rt_ch s) (rt_pub s) (rt_log s))
  end.

(** The run of a node between its events: the contents of the argument afterwards
    and what the node returned. *)
Definition run_node node (env : option Envelope) opts (runStart : Z)
    : M (Envelope * run_result) :=
  env' ← deref env;
  let runID := tr_RunID (env_Trace env') in
  nodeStart ← clock opts;
  ev ← NewEvent EventNodeStarted runID;
  emitter opts (WithElapsed (time_Sub nodeStart runStart)
                  (WithNode (n_ID node) (n_Kind node) ev)) ;;
  res ← run_prog opts (n_Run node env');
  nodeElapsed ← since opts nodeStart;
  match res with
  | (arg, RErr err) =>
      ev ← NewEvent EventNodeFailed runID;
      emitter opts (WithPayload "error" (PErr err)
                      (WithElapsed nodeElapsed (WithNode (n_ID node) (n_Kind node) ev))) ;;
      mret (arg, RErr err)
  | (arg, ok) =>
      ev ← NewEvent EventNodeFinished runID;
      emitter opts (WithElapsed nodeElapsed (WithNode (n_ID node) (n_Kind node) ev)) ;;
      mret (arg, ok)
  end.

(** The contents of the argument afterwards, the result pointer, the error. *)
Definition executeNode node (env : option Envelope) opts (runStart : Z)
    : M (Envelope * option Envelope * option error) :=
  x ← run_node node env opts runStart;
  let '(arg, r) := x in
  mret match r with
       | RSame => (arg, Some arg, None)
       | RNew e => (arg, Some e, None)
       | RNil => (arg, None, None)
       | RErr err => (arg, None, Some err)
       end.

Definition resolveSequentialNodeOutcome (current result : option Envelope) node
    (nodeErr : option error) (attempt : Z) opts (nodeID : string) : M outcome :=
  match nodeErr with
  | None => mret (result, None)
  | Some err =>
      if negb (ContinueOnError opts) then
        mret (current, Some (wrapf ErrNodeExecution [PS "node "; PS nodeID; PS ": "; PE err]))
      else
        t ← clock opts;
        env ← deref current;
        mret (Some (AppendError (mkNodeError nodeID (n_Kind node) err attempt t ∅ (Some err)) env),
              None)
  end.

(** *** Choice of the successors *)

Definition gate_redirect_key : string := "__gate_redirect__".

(** The payload of a [*float64]. *)
Definition confidence_payload (c : option F64.t) : payload :=
  PVal (VStruct "*float64" (match c with Some f => {[ "value" := VFloat64 f ]} | None => ∅ end)).

(** The valid redirect target an envelope asks for. *)
Definition redirect_target (env : Envelope) (succs : list string) : option string :=
  match GetVar env gate_redirect_key with
  | Some (VString target) =>
      if bool_decide (target ≠ EmptyString) && bool_decide (target ∈ succs)
      then Some target else None
  | _ => None
  end.

(** The successors to run and the envelope, whose redirect hint is cleared. *)
Definition determineSuccessors g node (env : option Envelope) (runStart : Z) opts
    : M (list string * option Envelope) :=
  let nodeID := n_ID node in
  let graphSuccessors := Successors g nodeID in
  if bool_decide (graphSuccessors = []) then mret ([], env)
  else
    e ← deref env;
    match redirect_target e graphSuccessors with
    | Some target =>
        ev ← NewEvent EventRouteDecision (tr_RunID (env_Trace e));
        el ← since opts runStart;
        emitter opts
          (WithPayload "confidence" (PVal (VFloat64 (F64.of_Z 1)))
            (WithPayload "reason" (PVal (VString "gate redirect"))
              (WithPayload "targets" (PVal (VStrings [target]))
                (WithElapsed el (WithNode nodeID (n_Kind node) ev))))) ;;
        mret ([target], Some (set_Vars (<[gate_redirect_key := VNil]> (vars_of e)) e))
    | None =>
        if negb (n_isRouter node) then mret (graphSuccessors, env)
        else
          match GetVar e (nodeID ^^ "_decision") with
          | Some (VDecision targets reason confidence meta) =>
              ev ← NewEvent EventRouteDecision (tr_RunID (env_Trace e));
              el ← since opts runStart;
              emitter opts
                (WithPayload "confidence" (confidence_payload confidence)
                  (WithPayload "reason" (PVal (VString reason))
                    (WithPayload "targets" (PVal (VStrings targets))
                      (WithElapsed el (WithNode nodeID (n_Kind node) ev))))) ;;
              let targetSet : gset string := list_to_set targets in
              mret (filter (λ s, s ∈ targetSet) graphSuccessors, env)
          | _ => mret (graphSuccessors, env)
          end
    end.

(** *** The loop *)

(** Recording a handled node in the observation log. *)
Definition log_node (nodeID : string) (succs : list string) : M unit := λ s,
  (mkRT (rt_w s) (rt_seq s) (rt_ch s) (rt_pub s) (rt_log s ++ [(nodeID, succs)]), Some tt).

(** Marking a node visited and appending its successors to the queue. *)
Definition schedule g node (nodeID : string) (env : option Envelope) (runStart : Z) opts
    (rest : list string) (visited : gmap string bool) (hops : gmap string Z)
    : M (loop_state + outcome) :=
  r ← determineSuccessors g node env runStart opts;
  let '(next, env') := r in
  log_node nodeID next ;;
  mret (inl (mkLoop (rest ++ next) (<[nodeID := true]> visited) hops env')).

(** The body of the loop for the popped [nodeID]: the next state, or a return. *)
Definition seq_iter g opts (runStart : Z) (nodeID : string) (rest : list string) (st : loop_state)
    : M (loop_state + outcome) :=
  let current := ls_current st in
  if shouldSkipVisitedNode nodeID (ls_visited st) (ls_hops st) (MaxHops opts) then
    mret (inl (mkLoop rest (ls_visited st) (ls_hops st) current))
  else
    canceled ← checkRunContext;
    match canceled with
    | Some err => mret (inr (current, Some err))
    | None =>
        let '(hops, (attempt, hopErr)) :=
          incrementAndValidateHop nodeID (ls_hops st) (MaxHops opts) in
        match hopErr with
        | Some err => mret (inr (current, Some err))
        | None =>
            match NodeByID g nodeID with
            | None => mret (inr (current, Some (wrapf ErrNodeNotFound [PS nodeID])))
            | Some node =>
                b ← handleSequentialBeforeStep g node current opts runStart attempt;
                let '(current, skipNode, err) := b in
                match err with
                | Some err => mret (inr (current, Some err))
                | None =>
                    if skipNode : bool then
                      schedule g node nodeID current runStart opts rest (ls_visited st) hops
                    else
                      x ← executeNode node current opts runStart;
                      let '(arg, result, nodeErr) := x in
                      let current := Some arg in
                      stepErr ← handleSequentialAfterStep g node current result nodeErr opts
                                  runStart attempt;
                      match stepErr with
                      | Some err => mret (inr (current, Some err))
                      | None =>
                          o ← resolveSequentialNodeOutcome current result node nodeErr attempt
                                opts nodeID;
                          let '(current, err) := o in
                          match err with
                          | Some err => mret (inr (current, Some err))
                          | None =>
                              schedule g node nodeID current runStart opts rest
                                (ls_visited st) hops
                          end
                      end
                end
            end
        end
    end.

(** [None]: the fuel ran out. *)
Fixpoint seq_loop (fuel : nat) g opts (runStart : Z) (st : loop_state) : M (option outcome) :=
  match ls_queue st with
  | [] => mret (Some (ls_current st, None))
  | nodeID :: rest =>
      match fuel with
      | 0 => mret None
      | S fuel' =>
          r ← seq_iter g opts runStart nodeID rest st;
          match r with
          | inl st' => seq_loop fuel' g opts runStart st'
          | inr out => mret (Some out)
          end
      end
  end.

(** One pop for the entry, and one for every successor of every execution. *)
Definition seq_fuel g opts : nat :=
  1 + Z.to_nat (MaxHops opts) * sum_list (map (λ n, length (Successors g (n_ID n))) (Nodes g)).

Definition executeGraphSequential g (env : Envelope) opts (runStart : Z) : M (option outcome) :=
  seq_loop (seq_fuel g opts) g opts runStart (mkLoop [Entry g] ∅ ∅ (Some env)).

(** *** Run *)

Definition validateGraph (g : option G) : option error :=
  match g with
  | None => Some (EFmt [PS "graph is nil"])
  | Some g =>
      if bool_decide (length (Nodes g) = 0) then Some ErrEmptyGraph
      else if bool_decide (Entry g = EmptyString) then Some ErrNoEntryNode
      else match NodeByID g (Entry g) with
           | None => Some (wrapf ErrNodeNotFound [PS "entry node "; PQ (Entry g)])
           | Some _ => None
           end
  end.

Definition run_start_event g opts (runID : string) : M Event :=
  ev ← NewEvent EventRunStarted runID;
  let ev := WithPayload "entry" (PVal (VString (Entry g)))
              (WithPayload "graph" (PVal (VString (Name g))) ev) in
  let with_string key v ev :=
    if bool_decide (v ≠ EmptyString) then WithPayload key (PVal (VString v)) ev else ev in
  let with_snapshot key (v : option value) ev :=
    match v with
    | Some v => if CaptureSnapshots opts then WithPayload key (PVal v) ev else ev
    | None => ev
    end in
  mret (with_snapshot "inputs" (o_Inputs opts)
         (with_snapshot "graph_definition" (o_GraphDefinition opts)
           (with_string "workflow_version" (WorkflowVersion opts)
             (with_string "workflow_id" (WorkflowID opts)
               (with_string "trigger" (TriggerSource opts) ev))))).

Definition run_finish_event (runID : string) (elapsed : Z) (ev : Event) (err : option error)
    : Event :=
  let ev := WithElapsed elapsed ev in
  match err with
  | Some err => WithPayload "error" (PErr err) (WithPayload "status" (PVal (VString "failed")) ev)
  | None => WithPayload "status" (PVal (VString "completed")) ev
  end.

(** The executor for [Concurrency > 1], see Parallel.v. *)
Variable executeGraphParallel : G → Envelope → RunOptions W → Z → M (option outcome).

Definition executeGraph g (env : Envelope) opts (runStart : Z) : M (option outcome) :=
  if (1 <? Concurrency opts)%Z then executeGraphParallel g env opts runStart
  else executeGraphSequential g env opts runStart.

(** The defaults of [Run]; a nil clock is read in [clock]. *)
Definition apply_defaults opts : RunOptions W :=
  if (MaxHops opts <=? 0)%Z then set_MaxHops 100 opts else opts.

Definition Run (g : option G) (env : option Envelope) opts : M (option outcome) :=
  let opts := apply_defaults opts in
  match validateGraph g, g with
  | Some err, _ => mret (Some (None, Some err))
  | None, None => panic
  | None, Some g =>
      env ← match env with
            | Some e => mret e
            | None => t ← lift time_Now; mret (NewEnvelope t)
            end;
      runID ← lift rand_ID;
      started ← clock opts;
      let tr := env_Trace env in
      let env := set_Trace (mkTrace runID (tr_ParentID tr) (tr_SpanID tr) (tr_TraceID tr) started)
                   env in
      runStart ← clock opts;
      ev ← run_start_event g opts runID;
      emitter opts ev ;;
      r ← executeGraph g env opts runStart;
      match r with
      | None => mret None
      | Some (result, err) =>
          t ← clock opts;
          ev ← NewEvent EventRunFinished runID;
          emitter opts (run_finish_event runID (time_Sub t runStart) ev err) ;;
          mret (Some (result, err))
      end
  end.
End Sequential.
