(* ===== verification/RuntimeSafety.v ===== *)
(** * Correctness of the sequential runtime

    The theorems on Runtime.v: termination within the fuel, the bound on the
    executions of a node, the run's trace (which nodes run, in which order, and
    that none is forgotten), the event stream, the errors a run can return, and
    the absence of panics. All of them hold for every graph that satisfies the
    interface laws, every node, handler, decorator and world. *)

From stdpp Require Import gmap strings list relations.
From Stdlib Require Import ZArith Lia.
From S2P Require Import Prelude Values Envelope Kahn Graph Events StepController Runtime.

(** ** The choice of successors *)

(** The reference: a valid redirect wins, then a router's decision filters the
    successors, and otherwise all of them run. *)
Definition choose {W G} `{GraphIface G (Node W)} (g : G) (node : Node W) (e : Envelope)
    : list string :=
  let succs := Successors g (n_ID node) in
  match redirect_target e succs with
  | Some t => [t]
  | None =>
      match n_isRouter node, GetVar e (n_ID node ^^ "_decision") with
      | true, Some (VDecision targets _ _ _) => filter (λ s, s ∈ targets) succs
      | _, _ => succs
      end
  end.

(** No string redirect hint is set. *)
Definition no_hint (env : Envelope) : Prop := ∀ t, GetVar env gate_redirect_key ≠ Some (VString t).

Lemma no_hint_target env succs : no_hint env → redirect_target env succs = None.
Proof.
  unfold no_hint, redirect_target. intros Hn.
  destruct (GetVar env gate_redirect_key) as [[]|]; try done. by destruct (Hn s).
Qed.

Lemma no_hint_SetVar key v env :
  (∀ t, v ≠ VString t) → no_hint env → no_hint (SetVar key v env).
Proof.
  intros Hv He t. destruct (decide (key = gate_redirect_key)) as [->|Hne].
  - rewrite GetVar_SetVar_eq. naive_solver.
  - by rewrite GetVar_SetVar_ne.
Qed.

Section Steps.
Context {W G : Type} `{World W} `{GraphIface G (Node W)}.
Implicit Types (opts : RunOptions W) (g : G) (node : Node W).

Lemma clock_emits opts : emits (clock opts).
Proof. unfold clock. go_monad. Qed.

Lemma since_emits opts t : emits (since opts t).
Proof. apply emits_bind; [apply clock_emits|go_monad]. Qed.

Lemma emitter_emits opts e : emits (emitter opts e).
Proof. apply emits_emit. Qed.

Lemma deref_emits env : emits (deref (W := W) env).
Proof. destruct env; simpl; auto with petal. Qed.

Lemma clock_safe opts : safe (clock opts).
Proof. unfold clock. go_monad. Qed.

Lemma since_safe opts t : safe (since opts t).
Proof. apply safe_bind; [apply clock_safe|go_monad]. Qed.

Lemma emitter_safe opts e : safe (emitter opts e).
Proof. apply safe_emit. Qed.

#[local] Hint Resolve clock_emits since_emits emitter_emits deref_emits : petal.
#[local] Hint Resolve clock_safe since_safe emitter_safe : petal.

Lemma handleStepPoint_emits g node env opts rs point hop err :
  emits (handleStepPoint g node env opts rs point hop err).
Proof. unfold handleStepPoint. go_monad. Qed.

Lemma emitStepControlEvent_emits opts rs id node kind reason :
  emits (emitStepControlEvent opts rs id node kind reason).
Proof. unfold emitStepControlEvent. go_monad. Qed.

#[local] Hint Resolve handleStepPoint_emits emitStepControlEvent_emits : petal.

Lemma before_emits g node cur opts rs att :
  emits (handleSequentialBeforeStep g node cur opts rs att).
Proof. unfold handleSequentialBeforeStep. go_monad. Qed.

Lemma after_emits g node cur res err opts rs att :
  emits (handleSequentialAfterStep g node cur res err opts rs att).
Proof. unfold handleSequentialAfterStep. go_monad. Qed.

Lemma run_prog_emits opts p : emits (run_prog opts p).
Proof.
  induction p as [arg r|e k IH|k IH] using NodeProg_induct; simpl; [go_monad..|].
  intros s [H1 H2 H3]. specialize (IH (rt_w s)). destruct (k (rt_w s)) as [w p'].
  apply (IH (mkRT w (rt_seq s) (rt_ch s) (rt_pub s) (rt_log s))). by split.
Qed.

#[local] Hint Resolve run_prog_emits : petal.

Lemma run_node_emits node env opts rs : emits (run_node node env opts rs).
Proof. unfold run_node. go_monad. Qed.

#[local] Hint Resolve run_node_emits : petal.

Lemma executeNode_emits node env opts rs : emits (executeNode node env opts rs).
Proof. unfold executeNode. go_monad. Qed.

Lemma resolve_emits cur res node err att opts id :
  emits (resolveSequentialNodeOutcome cur res node err att opts id).
Proof. unfold resolveSequentialNodeOutcome. go_monad. Qed.

Lemma determineSuccessors_emits g node env rs opts :
  emits (determineSuccessors g node env rs opts).
Proof. unfold determineSuccessors. go_monad. Qed.

Lemma redirect_target_in e succs t : redirect_target e succs = Some t → t ∈ succs.
Proof.
  unfold redirect_target. intros Hr. destruct (GetVar e _) as [[]|]; try done.
  destruct (_ && _) eqn:Hb; bool_simp; congruence.
Qed.

Lemma determineSuccessors_yields g node env rs opts :
  yields (λ r, match env with
               | Some e => r.1 = choose g node e
               | None => r.1 = [] ∧ Successors g (n_ID node) = []
               end) (determineSuccessors g node env rs opts).
Proof.
  unfold determineSuccessors, choose.
  case_bool_decide as Hnil.
  { apply yields_ret. simpl. destruct env as [e|]; [|done]. rewrite Hnil.
    destruct (redirect_target e []) as [t|] eqn:Hr; [|by repeat case_match].
    apply redirect_target_in in Hr. set_solver. }
  destruct env as [e|]; [|by intros s s' a].
  apply yields_bind with (P := λ e', e' = e); [by apply yields_ret|]. intros e' ->.
  destruct (redirect_target e (Successors g (n_ID node))); [go_monad|].
  destruct (n_isRouter node); simpl; [|by apply yields_ret].
  destruct (GetVar e _) as [[]|]; try by apply yields_ret.
  go_monad. apply yields_ret, list_filter_iff. intros x. by rewrite elem_of_list_to_set.
Qed.

(** With an envelope the choice never panics; a redirect that is followed is
    cleared from the envelope, which is otherwise untouched. *)
Lemma determineSuccessors_exact g node e rs opts :
  total (λ r, r = (choose g node e,
                   Some match redirect_target e (Successors g (n_ID node)) with
                        | Some _ => SetVar gate_redirect_key VNil e
                        | None => e
                        end))
    (determineSuccessors g node (Some e) rs opts).
Proof.
  unfold determineSuccessors, choose. case_bool_decide as Hnil.
  { apply total_ret. rewrite Hnil.
    destruct (redirect_target e []) as [t|] eqn:Hr; [apply redirect_target_in in Hr; set_solver|].
    f_equal. by repeat case_match. }
  apply (total_bind (λ e', e' = e)); [by apply total_ret|]. intros e' ->.
  destruct (redirect_target e (Successors g (n_ID node))); [go_monad|].
  destruct (n_isRouter node); simpl; [|by apply total_ret].
  destruct (GetVar e _) as [[]|]; try by apply total_ret.
  go_monad. apply total_ret. f_equal. apply list_filter_iff. intros x.
  by rewrite elem_of_list_to_set.
Qed.

Lemma choose_sub g node e : choose g node e ⊆ Successors g (n_ID node).
Proof.
  unfold choose. intros v. destruct (redirect_target _ _) as [t|] eqn:Hr.
  - apply redirect_target_in in Hr. rewrite list_elem_of_singleton. by intros ->.
  - destruct (n_isRouter node); [|done]. destruct (GetVar e _) as [[]|]; try done.
    by intros [_ ?]%list_elem_of_filter.
Qed.

Lemma choose_length g node e : length (choose g node e) ≤ length (Successors g (n_ID node)).
Proof.
  unfold choose. destruct (redirect_target _ _) as [t|] eqn:Hr.
  - apply redirect_target_in in Hr. destruct (Successors g (n_ID node)); [set_solver|simpl; lia].
  - destruct (n_isRouter node); [|done]. destruct (GetVar e _) as [[]|]; try done.
    apply length_filter.
Qed.

(** Why the body of the loop returned [err], when no controller is set. *)
Definition return_reason g opts (u : string) (st : loop_state) (err : error) : Prop :=
  o_StepController opts = None →
  (∃ c w, (ctx_Done w).2 = Some c ∧ err = wrapf ErrRunCanceled [PE c]) ∨
  (ContinueOnError opts = false ∧
    ∃ e, err = wrapf ErrNodeExecution [PS "node "; PS u; PS ": "; PE e]) ∨
  (shouldSkipVisitedNode u (ls_visited st) (ls_hops st) (MaxHops opts) = false ∧
    (MaxHops opts < hop_get (ls_hops st) u + 1)%Z) ∨
  NodeByID g u = None.

(** What one iteration of the loop does with the popped node [u]. *)
Definition iter_post g opts (u : string) (rest : list string) (st : loop_state)
    (l l' : list (string * list string)) (r : option (loop_state + outcome)) : Prop :=
  (l' = l ∧ r = None) ∨
  (l' = l ∧ shouldSkipVisitedNode u (ls_visited st) (ls_hops st) (MaxHops opts) = true ∧
   r = Some (inl (mkLoop rest (ls_visited st) (ls_hops st) (ls_current st)))) ∨
  (l' = l ∧ ∃ cur err, r = Some (inr (cur, Some err)) ∧ return_reason g opts u st err) ∨
  (∃ node next env',
    shouldSkipVisitedNode u (ls_visited st) (ls_hops st) (MaxHops opts) = false ∧
    NodeByID g u = Some node ∧
    (Successors g (n_ID node) = [] ∧ next = [] ∨ ∃ e, next = choose g node e) ∧
    l' = l ++ [(u, next)] ∧
    r = Some (inl (mkLoop (rest ++ next) (<[u := true]> (ls_visited st))
          (<[u := (hop_get (ls_hops st) u + 1)%Z]> (ls_hops st)) env'))).

Lemma schedule_sat g opts rs u rest st node env :
  shouldSkipVisitedNode u (ls_visited st) (ls_hops st) (MaxHops opts) = false →
  NodeByID g u = Some node →
  sat (iter_post g opts u rest st)
    (schedule g node u env rs opts rest (ls_visited st)
       (<[u := (hop_get (ls_hops st) u + 1)%Z]> (ls_hops st))).
Proof.
  intros Hskip Hnode. unfold schedule.
  eapply sat_bind; [apply determineSuccessors_emits|apply determineSuccessors_yields|by left|].
  intros [next env'] Hnext s [H1 H2 H3]. eexists _, _, []. split; [done|].
  split; [by split|]. rewrite app_nil_r. split; [done|]. right; right; right.
  exists node, next, env'. split_and!; try done.
  destruct env as [e|]; [right; eauto|left; naive_solver].
Qed.

Lemma sat_ret {A} Q (a : A) : (∀ l, Q l l (Some a)) → sat (W := W) Q (mret a).
Proof. intros HQ s Hs. exists s, (Some a), []. rewrite app_nil_r. auto. Qed.

Lemma return_sat g opts u rest st cur err : return_reason g opts u st err →
  sat (W := W) (iter_post g opts u rest st) (mret (inr (cur, Some err))).
Proof. intros Hr. apply sat_ret. intros l. right; right; left. eauto. Qed.

Lemma before_yields g node cur opts rs att :
  yields (λ r, o_StepController opts = None → r = (cur, false, None))
    (handleSequentialBeforeStep g node cur opts rs att).
Proof.
  unfold handleSequentialBeforeStep.
  destruct (o_StepController opts) as [c|] eqn:Hc; [|by apply yields_ret].
  by intros s s' a _.
Qed.

Lemma after_yields g node cur res err opts rs att :
  yields (λ r, o_StepController opts = None → r = None)
    (handleSequentialAfterStep g node cur res err opts rs att).
Proof.
  unfold handleSequentialAfterStep.
  destruct (o_StepController opts) as [c|] eqn:Hc; [|by apply yields_ret].
  by intros s s' a _.
Qed.

Lemma resolve_yields cur res node nerr att opts id :
  yields (λ r, ∀ err, r.2 = Some err → ContinueOnError opts = false ∧
      ∃ e, err = wrapf ErrNodeExecution [PS "node "; PS id; PS ": "; PE e])
    (resolveSequentialNodeOutcome cur res node nerr att opts id).
Proof.
  unfold resolveSequentialNodeOutcome. destruct nerr as [e|]; [|by apply yields_ret].
  destruct (ContinueOnError opts); simpl.
  - go_monad. by apply yields_ret.
  - apply yields_ret. intros err [= <-]. eauto.
Qed.

Lemma checkRunContext_yields :
  yields (λ r, ∀ err, r = Some err →
      ∃ c w, (ctx_Done w).2 = Some c ∧ err = wrapf ErrRunCanceled [PE c])
    (checkRunContext (W := W)).
Proof.
  unfold checkRunContext. apply yields_bind with (P := λ d, ∃ w, (ctx_Done w).2 = d).
  { intros s s' d. unfold lift. destruct (ctx_Done (rt_w s)) as [w d'] eqn:E.
    intros [= _ <-]. exists (rt_w s). by rewrite E. }
  intros d [w Hw]. apply yields_ret. intros err Herr.
  apply fmap_Some in Herr as (c & -> & ->). eauto.
Qed.

Lemma seq_iter_sat g opts rs u rest st :
  sat (iter_post g opts u rest st) (seq_iter g opts rs u rest st).
Proof.
  unfold seq_iter.
  destruct (shouldSkipVisitedNode _ _ _ _) eqn:Hskip.
  { apply sat_ret. intros l. right; left. done. }
  assert (∀ l, iter_post g opts u rest st l l None) as Hp by (by left).
  eapply sat_bind; [unfold checkRunContext; go_monad|apply checkRunContext_yields|done|].
  intros [err|] Hctx; [apply return_sat; left; auto|].
  unfold incrementAndValidateHop. destruct (MaxHops opts <? _)%Z eqn:Hhop.
  { apply return_sat. intros _. right; right; left. split; [done|]. lia. }
  destruct (NodeByID g u) as [node|] eqn:Hnode;
    [|apply return_sat; intros _; by right; right; right].
  eapply sat_bind; [apply before_emits|apply before_yields|done|].
  intros [[cur skip] [err|]] Hbef; [apply return_sat; by intros ?%Hbef|].
  destruct skip; [by apply schedule_sat|].
  eapply sat_bind; [apply executeNode_emits|apply yields_True|done|]. intros [[arg res] nerr] _.
  eapply sat_bind; [apply after_emits|apply after_yields|done|].
  intros [err|] Haft; [apply return_sat; by intros ?%Haft|].
  eapply sat_bind; [apply resolve_emits|apply resolve_yields|done|].
  intros [cur' [err|]] Hres; [apply return_sat; intros _; right; left; auto|].
  by apply schedule_sat.
Qed.

Lemma clock_quiet opts : quiet (clock opts).
Proof. unfold clock. go_monad. Qed.

Lemma run_start_event_quiet g opts id : quiet (run_start_event g opts id).
Proof. unfold run_start_event. go_monad. Qed.

Lemma run_start_event_emits g opts id : emits (run_start_event g opts id).
Proof. unfold run_start_event. go_monad. Qed.
End Steps.

#[export] Hint Resolve clock_emits since_emits emitter_emits deref_emits run_start_event_emits
  clock_safe since_safe emitter_safe clock_quiet run_start_event_quiet : petal.

(** ** The trace of a run *)

Section Loop.
Context {W G : Type} `{World W} `{GraphIface G (Node W)} {wf : G → Prop}
  `{!GraphLaws G (Node W) wf}.
Variables (g : G) (opts : RunOptions W).
Hypothesis Hwf : wf g.
Hypothesis Hmax : (0 < MaxHops opts)%Z.
Hypothesis Hentry : is_Some (NodeByID g (Entry g)).
Notation log_t := (list (string * list string)).

Definition handled (l : log_t) : list string := map fst l.

Definition runs_of (u : string) (l : log_t) : nat := count (λ e, e.1 = u) l.

(** Every handled node is a node of the graph, its selected successors are
    successors of it, and it is the entry or was selected before. *)
Definition trace_ok (l : log_t) : Prop :=
  ∀ pre u next post, l = pre ++ (u, next) :: post →
    is_Some (NodeByID g u) ∧ next ⊆ Successors g u ∧
    (u = Entry g ∨ ∃ w next', (w, next') ∈ pre ∧ u ∈ next').

Record loop_inv (st : loop_state) (l : log_t) : Prop := {
  li_hops : ∀ u, hop_get (ls_hops st) u = Z.of_nat (runs_of u l);
  li_max : ∀ u, (Z.of_nat (runs_of u l) <= MaxHops opts)%Z;
  li_visited : ∀ u, default false (ls_visited st !! u) = true ↔ u ∈ handled l;
  li_queue : ∀ v, v ∈ ls_queue st → v = Entry g ∨ ∃ w next, (w, next) ∈ l ∧ v ∈ next;
  li_closed : ∀ u next v, (u, next) ∈ l → v ∈ next → v ∈ handled l ∨ v ∈ ls_queue st;
  li_entry : Entry g ∈ ls_queue st ∨ Entry g ∈ handled l;
  li_trace : trace_ok l
}.

Definition potential (st : loop_state) : nat :=
  length (ls_queue st) +
  sum_list (map (λ n, Z.to_nat (MaxHops opts - hop_get (ls_hops st) (n_ID n)) *
                      length (Successors g (n_ID n))) (Nodes g)).

Lemma elem_of_handled u l : u ∈ handled l ↔ ∃ next, (u, next) ∈ l.
Proof.
  unfold handled. rewrite list_elem_of_In, in_map_iff. split.
  - intros ([a b] & <- & Hin). exists b. by apply list_elem_of_In.
  - intros (next & Hin). exists (u, next). split; [done|]. by apply list_elem_of_In.
Qed.

Lemma runs_of_pos u l : 0 < runs_of u l ↔ u ∈ handled l.
Proof.
  unfold runs_of. rewrite count_pos, elem_of_handled. split.
  - intros ([a b] & Hin & <-). eauto.
  - intros (next & Hin). by exists (u, next).
Qed.

Lemma runs_of_snoc u w next l :
  runs_of u (l ++ [(w, next)]) = runs_of u l + if decide (w = u) then 1 else 0.
Proof.
  unfold runs_of. rewrite count_app, count_cons. simpl. rewrite count_nil. by case_decide.
Qed.

(** The hop check of the loop only skips exhausted nodes. *)
Lemma skip_spec st l u : loop_inv st l →
  shouldSkipVisitedNode u (ls_visited st) (ls_hops st) (MaxHops opts) = true ↔
  Z.of_nat (runs_of u l) = MaxHops opts.
Proof.
  intros Hinv. pose proof (li_max _ _ Hinv u) as Hm. pose proof (li_visited _ _ Hinv u) as Hv.
  unfold shouldSkipVisitedNode. rewrite (li_hops _ _ Hinv), <- runs_of_pos in *.
  destruct (default false _); simpl.
  - destruct (_ =? 0)%Z eqn:Ez; bool_simp; [lia|]. rewrite Z.leb_le. lia.
  - split; [done|]. intros Heq. assert (false = true) as []; [|done]. apply Hv. lia.
Qed.

Lemma trace_ok_snoc l u next :
  trace_ok l → is_Some (NodeByID g u) → next ⊆ Successors g u →
  (u = Entry g ∨ ∃ w next', (w, next') ∈ l ∧ u ∈ next') → trace_ok (l ++ [(u, next)]).
Proof.
  intros Hl Hn Hs Hu pre u' next' post Heq.
  destruct post as [|x post _] using rev_ind.
  - apply app_inj_tail in Heq as [-> [= -> ->]]. done.
  - rewrite app_comm_cons, app_assoc in Heq. apply app_inj_tail in Heq as [-> _].
    by eapply Hl.
Qed.

Lemma potential_exec st u (next : list string) rest visited env node :
  NodeByID g u = Some node → length next ≤ length (Successors g u) →
  (hop_get (ls_hops st) u < MaxHops opts)%Z → ls_queue st = u :: rest →
  potential (mkLoop (rest ++ next) visited
    (<[u := (hop_get (ls_hops st) u + 1)%Z]> (ls_hops st)) env) < potential st.
Proof.
  intros Hn Hlen Hlt Hq. unfold potential. simpl. rewrite Hq, length_app. simpl.
  assert (node ∈ Nodes g) as Hin by (by eapply gl_nodes).
  assert (n_ID node = u) as Hid by exact (gl_node_id g u node Hwf ltac:(done)).
  set (hops' := <[u := (hop_get (ls_hops st) u + 1)%Z]> (ls_hops st)).
  assert (∀ w, hop_get (ls_hops st) w <= hop_get hops' w)%Z as Hmono.
  { intros w. unfold hop_get at 2, hops'. rewrite lookup_insert.
    case_decide; subst; simpl; [|done]. lia. }
  assert (hop_get hops' u = hop_get (ls_hops st) u + 1)%Z as Hu
    by (unfold hop_get at 1, hops'; by rewrite lookup_insert_eq).
  assert (sum_list (map (λ n, Z.to_nat (MaxHops opts - hop_get hops' (n_ID n)) *
      length (Successors g (n_ID n))) (Nodes g)) + length (Successors g u) ≤
    sum_list (map (λ n, Z.to_nat (MaxHops opts - hop_get (ls_hops st) (n_ID n)) *
      length (Successors g (n_ID n))) (Nodes g))); [|lia].
  revert Hin. generalize (Nodes g) as ns. induction ns as [|n ns IH]; intros Hin; [set_solver|].
  simpl. assert (sum_list (map (λ n, Z.to_nat (MaxHops opts - hop_get hops' (n_ID n)) *
      length (Successors g (n_ID n))) ns) ≤
    sum_list (map (λ n, Z.to_nat (MaxHops opts - hop_get (ls_hops st) (n_ID n)) *
      length (Successors g (n_ID n))) ns)) as Hle.
  { clear IH Hin. induction ns as [|m ns IH]; simpl; [lia|].
    specialize (Hmono (n_ID m)). nia. }
  apply elem_of_cons in Hin as [<-|Hin].
  - rewrite Hid, Hu. nia.
  - specialize (IH Hin). specialize (Hmono (n_ID n)). nia.
Qed.

(** One iteration keeps the invariant and uses up potential. *)
Lemma iter_inv st l l' st' u rest :
  loop_inv st l → ls_queue st = u :: rest →
  iter_post g opts u rest st l l' (Some (inl st')) →
  loop_inv st' l' ∧ potential st' < potential st.
Proof.
  intros Hinv Hq [[_ ?]|[(-> & Hskip & [= ->])|[(_ & ? & ? & ? & _)|Hex]]]; try done.
  - apply (skip_spec _ _ _ Hinv) in Hskip.
    assert (u ∈ handled l) as Hu by (apply runs_of_pos; lia).
    destruct Hinv as [H1 H2 H3 H4 H5 H6 H7]. rewrite Hq in *.
    split; [|unfold potential; simpl; rewrite Hq; simpl; lia].
    split; simpl; try done; [set_solver| |set_solver].
    intros w next v Hw Hv. destruct (H5 _ _ _ Hw Hv) as [?|Hin]; [by left|].
    apply elem_of_cons in Hin as [->|?]; auto.
  - destruct Hex as (node & next & env' & Hskip & Hnode & Hnext & -> & [= ->]).
    assert (n_ID node = u) as Hid by exact (gl_node_id g u node Hwf ltac:(done)).
    assert (next ⊆ Successors g u ∧ length next ≤ length (Successors g u)) as [Hsub Hlen].
    { rewrite <- Hid. destruct Hnext as [[_ ->]|(e & ->)]; [simpl; split; [set_solver|lia]|].
      split; [apply choose_sub|apply choose_length]. }
    assert (Z.of_nat (runs_of u l) < MaxHops opts)%Z as Hlt.
    { pose proof (li_max _ _ Hinv u). pose proof (skip_spec _ _ u Hinv) as Hs.
      rewrite Hskip in Hs. destruct (decide (Z.of_nat (runs_of u l) = MaxHops opts)); [|lia].
      by apply Hs in e. }
    split; [|eapply potential_exec; try done; by rewrite (li_hops _ _ Hinv)].
    destruct Hinv as [H1 H2 H3 H4 H5 H6 H7]. rewrite Hq in *.
    assert (∀ v, v ∈ handled (l ++ [(u, next)]) ↔ v ∈ handled l ∨ v = u) as Hh.
    { intros v. unfold handled. rewrite map_app. simpl. by rewrite elem_of_snoc. }
    split; simpl.
    + intros w. rewrite runs_of_snoc. unfold hop_get at 1. rewrite lookup_insert.
      case_decide; subst; simpl; [rewrite H1; lia|].
      change (default 0%Z (ls_hops st !! w)) with (hop_get (ls_hops st) w). rewrite H1. lia.
    + intros w. rewrite runs_of_snoc. specialize (H2 w). case_decide; subst; lia.
    + intros w. rewrite lookup_insert, Hh. case_decide; subst; simpl; [naive_solver|].
      rewrite H3. naive_solver.
    + intros v Hv. apply elem_of_app in Hv as [Hv|Hv].
      * destruct (H4 v) as [?|(w & n' & ? & ?)]; [set_solver|by left|right; set_solver].
      * right. exists u, next. set_solver.
    + intros w n' v Hw Hv. rewrite Hh. apply elem_of_snoc in Hw as [Hw|[= -> ->]].
      * destruct (H5 _ _ _ Hw Hv) as [?|Hin]; [auto|]. set_solver.
      * set_solver.
    + rewrite Hh. set_solver.
    + apply trace_ok_snoc; [done|by rewrite Hnode|done|]. apply H4. set_solver.
Qed.

(** The selected successors of every handled node have been handled. *)
Definition trace_closed (l : log_t) : Prop :=
  Entry g ∈ handled l ∧ ∀ u next v, (u, next) ∈ l → v ∈ next → v ∈ handled l.

(** The errors of an executor without step controller. *)
Definition error_reason (err : error) : Prop :=
  o_StepController opts = None →
  (∃ c w, (ctx_Done w).2 = Some c ∧ err = wrapf ErrRunCanceled [PE c]) ∨
  (ContinueOnError opts = false ∧ ∃ u e, is_Some (NodeByID g u) ∧
    err = wrapf ErrNodeExecution [PS "node "; PS u; PS ": "; PE e]).

(** What holds of the trace when the executor stops, by a return or a panic. *)
Definition loop_post (l' : log_t) (r : option (option outcome)) : Prop :=
  trace_ok l' ∧ (∀ u, (Z.of_nat (runs_of u l') <= MaxHops opts)%Z) ∧ r ≠ Some None ∧
  (∀ cur, r = Some (Some (cur, None)) → trace_closed l') ∧
  (∀ cur err, r = Some (Some (cur, Some err)) → error_reason err).

Lemma queue_node st l v : loop_inv st l → v ∈ ls_queue st → is_Some (NodeByID g v).
Proof.
  intros Hinv Hv. destruct (li_queue _ _ Hinv v Hv) as [->|(w & next & Hin & Hn)]; [done|].
  apply list_elem_of_split in Hin as (pre & post & ->).
  destruct (li_trace _ _ Hinv pre w next post eq_refl) as (_ & Hsub & _).
  by apply (gl_succ_node g w v Hwf), Hsub.
Qed.

(** The hop error and the missing node cannot happen. *)
Lemma return_error_reason st l u rest err :
  loop_inv st l → ls_queue st = u :: rest → return_reason g opts u st err → error_reason err.
Proof.
  intros Hinv Hq Hr Hctl.
  assert (is_Some (NodeByID g u)) as Hu.
  { eapply queue_node; [done|]. rewrite Hq. by left. }
  destruct (Hr Hctl) as [?|[(Hc & e & ->)|[[Hskip Hhop]|Hnone]]].
  - by left.
  - right. eauto.
  - pose proof (skip_spec _ _ u Hinv) as Hs. pose proof (li_max _ _ Hinv u).
    rewrite (li_hops _ _ Hinv) in Hhop. rewrite Hskip in Hs.
    assert (false = true) by (apply Hs; lia). done.
  - rewrite Hnone in Hu. by destruct Hu.
Qed.

Lemma loop_inv_post st l r :
  loop_inv st l → r ≠ Some None → (∀ cur, r ≠ Some (Some (cur, None))) →
  (∀ cur err, r = Some (Some (cur, Some err)) → error_reason err) → loop_post l r.
Proof. intros [] Hr Hc He. split_and!; try done. intros cur Hcur. by destruct (Hc cur). Qed.

Lemma loop_inv_done st l cur :
  loop_inv st l → ls_queue st = [] → loop_post l (Some (Some (cur, None))).
Proof.
  intros [H1 H2 H3 H4 H5 H6 H7] Hq. rewrite Hq in *.
  assert (∀ x : string, x ∉ []) as Hnil by (intros x Hx; inversion Hx).
  unfold loop_post. split; [done|]. split; [done|]. split; [done|]. split; [|done].
  intros _ _. split.
  - destruct H6 as [H6|]; [|done]. by apply Hnil in H6.
  - intros u next v Hin Hv. destruct (H5 _ _ _ Hin Hv) as [|Hx]; [done|]. by apply Hnil in Hx.
Qed.

(** [J] is kept by the iterations that go on. *)
Definition kept (rs : Z) (J : loop_state → log_t → Prop) : Prop :=
  ∀ u rest st s s' st', J st (rt_log s) → ls_queue st = u :: rest → numbered s →
    seq_iter g opts rs u rest st s = (s', Some (inl st')) → J st' (rt_log s').

Lemma seq_loop_run rs (J : loop_state → log_t → Prop) fuel : kept rs J → ∀ st s,
  potential st ≤ fuel → numbered s → loop_inv st (rt_log s) → J st (rt_log s) →
  runs s (seq_loop fuel g opts rs st) (λ l' r, loop_post l' r ∧ ∃ st', J st' l').
Proof.
  intros HJ. induction fuel as [|fuel IH]; intros st s Hf Hs Hinv Hj; simpl;
    destruct (ls_queue st) as [|u rest] eqn:Hq.
  1, 3: exists s, (Some (Some (ls_current st, None))), []; rewrite app_nil_r;
    split; [done|]; split; [done|]; split; [done|]; split; [by apply loop_inv_done with st|eauto].
  { unfold potential in Hf. rewrite Hq in Hf. simpl in Hf. lia. }
  destruct (seq_iter_sat g opts rs u rest st s Hs) as (s1 & r & n1 & E1 & Hs1 & P1 & L1).
  unfold runs, mbind, gom_bind. rewrite E1. destruct r as [[st'|out]|].
  - destruct (iter_inv _ _ _ _ _ _ Hinv Hq L1) as [Hinv' Hlt].
    destruct (IH st' s1) as (s2 & r2 & n2 & E2 & Hs2 & P2 & L2); [lia|done..|by eapply HJ|].
    exists s2, r2, (n1 ++ n2). by rewrite E2, P2, P1, app_assoc.
  - exists s1, (Some (Some out)), n1. split; [done|]. split; [done|]. split; [done|].
    destruct L1 as [[_ ?]|[(_ & _ & ?)|[(-> & cur & err & [= ->] & Hr)|Hex]]]; try done.
    + split; [|eauto]. eapply loop_inv_post; try done.
      intros ? ? [= <- <-]. by eapply return_error_reason.
    + destruct Hex as (? & ? & ? & _ & _ & _ & _ & ?). done.
  - exists s1, None, n1. split; [done|]. split; [done|]. split; [done|].
    destruct L1 as [[-> _]|[(_ & _ & ?)|[(_ & ? & ? & ? & _)|Hex]]]; try done.
    + split; [|eauto]. eapply loop_inv_post; done.
    + destruct Hex as (? & ? & ? & _ & _ & _ & _ & ?). done.
Qed.

Lemma initial_inv env : loop_inv (mkLoop [Entry g] ∅ ∅ (Some env)) [].
Proof.
  assert (∀ {A} (x : A), x ∉ []) as Hnil by (intros A x Hx; inversion Hx).
  split; simpl.
  - done.
  - intros u. unfold runs_of. rewrite count_nil. simpl. lia.
  - intros u. rewrite lookup_empty. simpl. split; [done|]. by intros ?%Hnil.
  - intros v ->%list_elem_of_singleton. by left.
  - by intros u next v ?%Hnil.
  - left. by apply list_elem_of_singleton.
  - intros pre u next post Heq. by destruct pre.
Qed.

Lemma initial_potential env : potential (mkLoop [Entry g] ∅ ∅ (Some env)) = seq_fuel g opts.
Proof.
  unfold potential, seq_fuel. simpl. f_equal.
  induction (Nodes g) as [|n ns IH]; simpl; [lia|]. rewrite IH.
  unfold hop_get. rewrite lookup_empty. simpl. rewrite Z.sub_0_r. lia.
Qed.

Lemma executeGraphSequential_run env rs J s :
  kept rs J → J (mkLoop [Entry g] ∅ ∅ (Some env)) [] → numbered s → rt_log s = [] →
  runs s (executeGraphSequential g env opts rs) (λ l' r, loop_post l' r ∧ ∃ st', J st' l').
Proof.
  intros HJ Hj Hs El. apply seq_loop_run; [done|by rewrite initial_potential|done|..];
    rewrite El; [apply initial_inv|done].
Qed.
End Loop.

(** ** Whole runs *)

(** The state of the runtime when [Run] is called: nothing emitted yet. *)
Record fresh {W} (s : RT W) : Prop := {
  fr_seq : rt_seq s = 0%Z;
  fr_pub : rt_pub s = [];
  fr_log : rt_log s = [];
  fr_chan : length (rt_ch s) ≤ eventCh_cap
}.

Lemma fresh_numbered {W} (s : RT W) : fresh s → numbered s.
Proof.
  intros [H1 H2 H3 H4]. split; [by rewrite H1, H2| |done].
  intros i e Hi. by rewrite H2 in Hi.
Qed.

Section Whole.
Context {W G : Type} `{World W} `{GraphIface G (Node W)} {wf : G → Prop}
  `{!GraphLaws G (Node W) wf}.
Implicit Types (opts : RunOptions W) (g : G) (s : RT W).
Variable par : G → Envelope → RunOptions W → Z → GoM (RT W) (option outcome).

Lemma apply_defaults_max opts : (0 < MaxHops (apply_defaults opts))%Z.
Proof. unfold apply_defaults. destruct (MaxHops opts <=? 0)%Z eqn:E; simpl; lia. Qed.

Lemma apply_defaults_concurrency opts : Concurrency (apply_defaults opts) = Concurrency opts.
Proof. unfold apply_defaults. by destruct (MaxHops opts <=? 0)%Z. Qed.

(** The defaults leave the other options alone. *)
Lemma apply_defaults_keeps opts :
  o_StepController (apply_defaults opts) = o_StepController opts ∧
  ContinueOnError (apply_defaults opts) = ContinueOnError opts ∧
  o_sinks (apply_defaults opts) = o_sinks opts.
Proof. unfold apply_defaults. by destruct (MaxHops opts <=? 0)%Z. Qed.

Lemma loop_post_nil g opts r :
  (0 < MaxHops opts)%Z → r ≠ Some None → (∀ cur, r ≠ Some (Some (cur, None))) →
  (∀ cur err, r = Some (Some (cur, Some err)) → error_reason g opts err) →
  loop_post g opts [] r.
Proof.
  intros Hm Hr Hc He. split_and!; try done.
  - intros pre u next post Heq. by destruct pre.
  - intros u. unfold runs_of. rewrite count_nil. simpl. lia.
  - intros cur Hcur. by destruct (Hc cur).
Qed.

Lemma validateGraph_entry g : validateGraph (Some g) = None → is_Some (NodeByID g (Entry g)).
Proof.
  unfold validateGraph. do 2 (case_bool_decide; [done|]).
  destruct (NodeByID g (Entry g)); [eauto|done].
Qed.

(** The envelope the executor starts from. *)
Definition start_env (env : option Envelope) (t : Z) (tr : TraceInfo) : Envelope :=
  set_Trace tr (default (NewEnvelope t) env).

Lemma Run_runs g env opts (J : loop_state → list (string * list string) → Prop) s :
  wf g → validateGraph (Some g) = None → (Concurrency opts <= 1)%Z → fresh s →
  (∀ rs, kept g (apply_defaults opts) rs J) →
  (∀ t tr, J (mkLoop [Entry g] ∅ ∅ (Some (start_env env t tr))) []) →
  runs s (Run par (Some g) env opts)
    (λ l' r, loop_post g (apply_defaults opts) l' r ∧ ∃ st', J st' l').
Proof.
  intros Hwf Hval Hconc Hs HJ Hj.
  pose proof (fresh_numbered s Hs) as Hn. destruct Hs as [_ _ Hlog _].
  pose proof (apply_defaults_max opts) as Hm. unfold Run. cbv zeta. rewrite Hval.
  pose proof (validateGraph_entry g Hval) as Hent.
  assert (∀ s1 : RT W, rt_log s1 = [] →
    loop_post g (apply_defaults opts) (rt_log s1) None ∧ ∃ st', J st' (rt_log s1)) as Hnone.
  { intros s1 ->. split; [by apply loop_post_nil|].
    eexists. apply (Hj 0%Z (mkTrace "" "" "" "" 0)). }
  assert (yields (λ e, ∃ t', e = default (NewEnvelope t') env)
    (match env with Some e => mret e | None => t ← lift time_Now; mret (NewEnvelope t) end
     : GoM (RT W) Envelope)) as Hy.
  { destruct env; [apply yields_ret; by exists 0%Z|]. go_monad. apply yields_ret. eauto. }
  eapply runs_bind_y; [go_monad|exact Hy|done|auto|]. intros e s1 [t0 ->] N1 L1.
  apply runs_bind; [go_monad|done|apply Hnone; congruence|]. intros id s2 N2 L2.
  apply runs_bind; [go_monad|done|apply Hnone; congruence|]. intros t s3 N3 L3.
  apply runs_bind; [go_monad|done|apply Hnone; congruence|]. intros t' s4 N4 L4.
  apply runs_bind; [go_monad|done|apply Hnone; congruence|]. intros ev s5 N5 L5.
  apply runs_bind; [go_monad|done|apply Hnone; congruence|]. intros [] s6 N6 L6.
  assert (rt_log s6 = []) as L by congruence.
  eapply runs_then with (P := λ a b, b = a).
  - unfold executeGraph. rewrite apply_defaults_concurrency.
    rewrite (proj2 (Z.ltb_ge 1 (Concurrency opts))) by done.
    apply (executeGraphSequential_run g (apply_defaults opts) Hwf Hm Hent); [apply HJ|apply Hj|done..].
  - intros [[res err]|]; go_monad.
  - intros [[res err]|]; go_monad; by apply yields_ret.
  - done.
  - intros l a [(H1 & H2 & _ & _ & _) ?]. split; [|done]. unfold loop_post. by split_and!.
  - by intros l a b HQ ->.
Qed.
End Whole.

(** ** Absence of panics *)

(** Every way a program ends satisfies [P]. *)
Fixpoint prog_all {W} (P : Envelope → run_result → Prop) (p : NodeProg W) : Prop :=
  match p with
  | NRet arg r => P arg r
  | NEmit _ k => prog_all P k
  | NWorld k => ∀ w, let '(_, p') := k w in prog_all P p'
  end.

Section NoPanic.
Context {W G : Type} `{World W} `{GraphIface G (Node W)}.
Implicit Types (opts : RunOptions W) (g : G) (node : Node W).

(** A controller never answers nil without an error. *)
Definition controller_ok opts : Prop :=
  ∀ ctrl, o_StepController opts = Some ctrl → ∀ t req w, (sc_Step ctrl t req w).2 ≠ inl None.

(** A node never returns a nil envelope without an error. *)
Definition node_ok node : Prop := ∀ e, prog_all (λ _ r, r ≠ RNil) (n_Run node e).

Lemma run_prog_total opts P p : prog_all P p → total (λ r, P r.1 r.2) (run_prog opts p).
Proof.
  induction p as [arg r|e k IH|k IH] using NodeProg_induct; simpl; intros Hp.
  - by apply total_ret.
  - apply total_safe_bind; [auto with petal|auto].
  - split.
    + intros s. specialize (IH (rt_w s)). specialize (Hp (rt_w s)).
      destruct (k (rt_w s)) as [w p']. by apply (IH Hp).
    + intros s s' a. specialize (IH (rt_w s)). specialize (Hp (rt_w s)).
      destruct (k (rt_w s)) as [w p']. apply (IH Hp).
Qed.

Lemma sc_Step_yields opts ctrl t req :
  controller_ok opts → o_StepController opts = Some ctrl →
  total (λ r, r ≠ inl None) (lift (sc_Step ctrl t req)).
Proof.
  intros Hok Hc. split; [apply safe_lift|]. intros s s' a. unfold lift.
  specialize (Hok ctrl Hc t req (rt_w s)). destruct (sc_Step ctrl t req (rt_w s)). by intros [= _ <-].
Qed.

Lemma handleStepPoint_total g node e opts rs point hop err :
  controller_ok opts →
  total (λ _, True) (handleStepPoint g node (Some e) opts rs point hop err).
Proof.
  intros Hok. unfold handleStepPoint. destruct (o_StepController opts) as [ctrl|] eqn:Hc;
    [|by apply total_ret].
  do 2 (case_match; [by apply total_ret|]).
  apply total_safe_bind; [auto with petal|]. intros [|]; [|by apply total_ret]. simpl.
  do 6 (apply total_safe_bind; [simpl; auto with petal|intros ?]).
  eapply total_bind; [by eapply sc_Step_yields|]. intros [[rsp|]|err'] Hr; [|done|by apply total_ret].
  go_monad.
Qed.

Lemma emitStepControlEvent_safe opts rs id node kind reason :
  safe (emitStepControlEvent opts rs id node kind reason).
Proof. unfold emitStepControlEvent. go_monad. Qed.

#[local] Hint Resolve emitStepControlEvent_safe : petal.

Lemma deref_safe e : safe (deref (W := W) (Some e)).
Proof. apply safe_ret. Qed.

#[local] Hint Resolve deref_safe : petal.

Lemma before_total g node cur opts rs att :
  controller_ok opts → is_Some cur →
  total (λ r, is_Some r.1.1) (handleSequentialBeforeStep g node cur opts rs att).
Proof.
  intros Hok [e ->]. unfold handleSequentialBeforeStep.
  destruct (o_StepController opts); [|apply total_ret; simpl; eauto].
  eapply total_bind; [by apply handleStepPoint_total|].
  intros [[action md] [err|]] _; [apply total_ret; simpl; eauto|].
  assert (is_Some (match md with Some m => Some m | None => Some e end)) as [e' He]
    by (destruct md; eauto).
  rewrite He. do 2 (case_bool_decide; [go_monad; apply total_ret; simpl; eauto|]). apply total_ret. simpl. eauto.
Qed.

Lemma after_total g node cur res err opts rs att :
  controller_ok opts → is_Some cur →
  total (λ _, True) (handleSequentialAfterStep g node cur res err opts rs att).
Proof.
  intros Hok [e ->]. unfold handleSequentialAfterStep.
  destruct (o_StepController opts); [|by apply total_ret].
  eapply total_bind; [destruct res; by apply handleStepPoint_total|].
  intros [[action md] [err'|]] _; [by apply total_ret|].
  case_bool_decide; go_monad.
Qed.

Lemma run_node_total P node e opts rs : prog_all P (n_Run node e) →
  total (λ r, P r.1 r.2) (run_node node (Some e) opts rs).
Proof.
  intros Hok. unfold run_node.
  apply (total_bind (λ e', e' = e)); [by apply total_ret|]. intros ? ->.
  do 3 (apply total_safe_bind; [simpl; auto with petal|intros ?]).
  eapply total_bind; [by apply (run_prog_total opts P)|]. intros [arg r] Hr. simpl in Hr.
  apply total_safe_bind; [auto with petal|intros el].
  destruct r; go_monad.
Qed.

Lemma executeNode_total node e opts rs : node_ok node →
  total (λ r, r.2 = None → is_Some r.1.2) (executeNode node (Some e) opts rs).
Proof.
  intros Hok. unfold executeNode. eapply total_bind; [by apply run_node_total, Hok|].
  intros [arg r] Hr. simpl in Hr. apply total_ret. destruct r; simpl; eauto; done.
Qed.

Lemma resolve_total cur res node nerr att opts id :
  is_Some cur → (nerr = None → is_Some res) →
  total (λ r, is_Some r.1) (resolveSequentialNodeOutcome cur res node nerr att opts id).
Proof.
  intros [e ->] Hres. unfold resolveSequentialNodeOutcome.
  destruct nerr; [|by apply total_ret, Hres].
  case_match; [apply total_ret; simpl; eauto|]. go_monad; apply total_ret; simpl; eauto.
Qed.

Lemma determineSuccessors_total g node env rs opts : is_Some env →
  total (λ r, is_Some r.2) (determineSuccessors g node env rs opts).
Proof.
  intros [e ->]. unfold determineSuccessors.
  case_bool_decide; [apply total_ret; simpl; eauto|].
  apply total_safe_bind; [simpl; auto with petal|]. intros e'.
  go_monad; apply total_ret; simpl; eauto.
Qed.

Definition current_ok (r : loop_state + outcome) : Prop :=
  match r with inl st => is_Some (ls_current st) | inr o => is_Some o.1 end.

Lemma schedule_total g node u env rs opts rest v h : is_Some env →
  total current_ok (schedule g node u env rs opts rest v h).
Proof.
  intros Henv. unfold schedule. eapply total_bind; [by apply determineSuccessors_total|].
  intros [next env'] Hn. apply total_safe_bind; [intros s; eauto|]. intros _. by apply total_ret.
Qed.

Lemma seq_iter_total g opts rs u rest st :
  controller_ok opts → (∀ v node, NodeByID g v = Some node → node_ok node) →
  is_Some (ls_current st) → total current_ok (seq_iter g opts rs u rest st).
Proof.
  intros Hctl Hnodes Hcur. unfold seq_iter. case_match; [by apply total_ret|].
  apply total_safe_bind; [unfold checkRunContext; go_monad|]. intros [err|]; [by apply total_ret|].
  unfold incrementAndValidateHop. destruct (MaxHops opts <? _)%Z; [by apply total_ret|].
  destruct (NodeByID g u) as [node|] eqn:Hnode; [|by apply total_ret].
  eapply total_bind; [by apply before_total|]. intros [[cur skip] [err|]] Hb; [by apply total_ret|].
  simpl in Hb. destruct skip; [by apply schedule_total|]. destruct Hb as [e ->].
  eapply total_bind; [by eapply executeNode_total, Hnodes|]. intros [[arg res] nerr] Hx. simpl in Hx.
  eapply total_bind; [apply after_total; [done|eauto]|]. intros [err|] _; [apply total_ret; simpl; eauto|].
  eapply total_bind; [apply resolve_total; [eauto|done]|]. intros [cur' [err|]] Hr; [by apply total_ret|].
  by apply schedule_total.
Qed.

Lemma seq_loop_total g opts rs fuel : ∀ st,
  controller_ok opts → (∀ v node, NodeByID g v = Some node → node_ok node) →
  is_Some (ls_current st) →
  total (λ r, match r with Some o => is_Some o.1 | None => True end)
    (seq_loop fuel g opts rs st).
Proof.
  induction fuel as [|fuel IH]; intros st Hctl Hnodes Hcur; simpl;
    destruct (ls_queue st) as [|u rest]; try by apply total_ret.
  eapply total_bind; [by apply seq_iter_total|]. intros [st'|out] Hr; [|by apply total_ret].
  by apply IH.
Qed.

Lemma apply_defaults_controller opts : controller_ok opts → controller_ok (apply_defaults opts).
Proof. unfold apply_defaults, controller_ok. by destruct (MaxHops opts <=? 0)%Z. Qed.

Lemma Run_total par g env opts :
  validateGraph (Some g) = None → (Concurrency opts <= 1)%Z →
  controller_ok opts → (∀ v node, NodeByID g v = Some node → node_ok node) →
  total (λ r, match r with Some o => is_Some o.1 | None => True end)
    (Run par (Some g) env opts).
Proof.
  intros Hval Hconc Hctl Hnodes. unfold Run. rewrite Hval.
  assert (∀ id, safe (run_start_event g (apply_defaults opts) id)) as Hstart
    by (intros; unfold run_start_event; go_monad).
  apply total_safe_bind; [go_monad|intros e]. do 5 (apply total_safe_bind; [auto with petal|intros ?]).
  unfold executeGraph. rewrite apply_defaults_concurrency.
  rewrite (proj2 (Z.ltb_ge 1 (Concurrency opts))) by done.
  eapply total_bind.
  { apply seq_loop_total; [by apply apply_defaults_controller|done|simpl; eauto]. }
  intros [[res err]|] Hr; [|by apply total_ret]. go_monad.
Qed.
End NoPanic.
