(* ===== verification/NodeProg.v ===== *)
(** * Effectful computations of nodes

    The bodies of nodes that call other code (mappers, wrapped nodes) while they
    compute a result: a computation may emit events through the emitter of its
    context, act on the world, panic, or return. *)

From stdpp Require Import gmap strings list.
From Stdlib Require Import ZArith.
From S2P Require Import Prelude Values Envelope Graph Events StepController Runtime.

Inductive Prog (W A : Type) :=
| PRet (a : A)
| PPanic
| PEmit (e : Event) (k : Prog W A)
| PWorld (k : W → W * Prog W A).
Arguments PRet {W A}.
Arguments PPanic {W A}.
Arguments PEmit {W A}.
Arguments PWorld {W A}.

Lemma Prog_induct {W A} (P : Prog W A → Prop) :
  (∀ a, P (PRet a)) → P PPanic → (∀ e k, P k → P (PEmit e k)) →
  (∀ k, (∀ w, P (k w).2) → P (PWorld k)) → ∀ p, P p.
Proof.
  intros HR HP HE HW. fix IH 1. intros [a| |e k|k]; [apply HR|apply HP|apply HE, IH|].
  apply HW. intros w. destruct (k w) as [w' p']. apply IH.
Qed.

#[export] Instance Prog_ret W : MRet (Prog W) := λ A a, PRet a.

#[export] Instance Prog_bind W : MBind (Prog W) := λ A B f,
  fix go (p : Prog W A) : Prog W B :=
    match p with
    | PRet a => f a
    | PPanic => PPanic
    | PEmit e k => PEmit e (go k)
    | PWorld k => PWorld (λ w, let '(w', p') := k w in (w', go p'))
    end.

(** An operation of the world. *)
Definition act {W A} (f : W → W * A) : Prog W A := PWorld (λ w, let '(w', a) := f w in (w', PRet a)).

(** The run of another node. *)
Fixpoint of_node {W} (p : NodeProg W) : Prog W (Envelope * run_result) :=
  match p with
  | NRet arg r => PRet (arg, r)
  | NEmit e k => PEmit e (of_node k)
  | NWorld k => PWorld (λ w, let '(w', p') := k w in (w', of_node p'))
  end.

(** The computation returns [a], whatever the world answers. *)
Fixpoint yields {W A} (p : Prog W A) (a : A) : Prop :=
  match p with
  | PRet b => b = a
  | PPanic => False
  | PEmit _ k => yields k a
  | PWorld k => ∀ w, match k w with (_, p') => yields p' a end
  end.

Lemma yields_world {W A} (k : W → W * Prog W A) a :
  yields (PWorld k) a ↔ ∀ w, yields (k w).2 a.
Proof.
  simpl. split; intros Hk w; specialize (Hk w); by destruct (k w).
Qed.

Lemma yields_pbind {W A B} (p : Prog W A) (f : A → Prog W B) a b :
  yields p a → yields (f a) b → yields (p ≫= f) b.
Proof.
  intros Hp Hf. revert Hp. induction p as [x| |e k IH|k IH] using Prog_induct.
  - simpl. by intros ->.
  - done.
  - apply IH.
  - rewrite yields_world. intros Hk. change (yields (PWorld k ≫= f) b)
      with (∀ w, match (let '(w', p') := k w in (w', p' ≫= f)) with (_, q) => yields q b end).
    intros w. specialize (IH w). specialize (Hk w). destruct (k w) as [w' p']. by apply IH.
Qed.

Lemma yields_act {W A} (f : W → W * A) a : (∀ w, (f w).2 = a) → yields (act f) a.
Proof.
  intros Hf. apply yields_world. intros w. specialize (Hf w). by destruct (f w).
Qed.

Lemma yields_functional {W A} (w : W) (p : Prog W A) a b : yields p a → yields p b → a = b.
Proof.
  induction p as [x| |e k IH|k IH] using Prog_induct; [simpl; congruence|done|apply IH|].
  rewrite !yields_world. intros Ha Hb. exact (IH w (Ha w) (Hb w)).
Qed.

#[export] Hint Resolve yields_act : petal.

(** The computations one action away. *)
Inductive prog_sub {W A} : Prog W A → Prog W A → Prop :=
| sub_emit e k : prog_sub k (PEmit e k)
| sub_world k w : prog_sub (k w).2 (PWorld k).

Lemma prog_sub_acc {W A} (p : Prog W A) : Acc prog_sub p.
Proof.
  induction p as [x| |e k IH|k IH] using Prog_induct; constructor; intros q Hq; inversion Hq; subst; auto.
Qed.

(** The computation from a world: the world afterwards, and the result unless it panics. *)
Fixpoint exec {W A} (p : Prog W A) (w : W) : W * option A :=
  match p with
  | PRet a => (w, Some a)
  | PPanic => (w, None)
  | PEmit _ k => exec k w
  | PWorld k => match k w with (w', p') => exec p' w' end
  end.

Lemma exec_bind {W A B} (p : Prog W A) (f : A → Prog W B) w :
  exec (p ≫= f) w = match exec p w with (w', Some a) => exec (f a) w' | (w', None) => (w', None) end.
Proof.
  revert w. induction p as [a| |e k IH|k IH] using Prog_induct; intros w; [done|done|apply IH|].
  change (exec (PWorld k ≫= f) w) with (match (let '(w', p') := k w in (w', p' ≫= f)) with (w', p') => exec p' w' end).
  simpl. specialize (IH w). destruct (k w) as [w' p']. apply IH.
Qed.

Lemma exec_act {W A} (f : W → W * A) w : exec (act f) w = ((f w).1, Some (f w).2).
Proof. unfold act. simpl. by destruct (f w). Qed.

(** The events, the world and the result of a run. *)
Fixpoint traced {W A} (p : Prog W A) (w : W) : list Event * W * option A :=
  match p with
  | PRet a => ([], w, Some a)
  | PPanic => ([], w, None)
  | PEmit e k => let '(es, w', r) := traced k w in (e :: es, w', r)
  | PWorld k => match k w with (w', p') => traced p' w' end
  end.

Lemma traced_exec {W A} (p : Prog W A) w : exec p w = ((traced p w).1.2, (traced p w).2).
Proof.
  revert w. induction p as [a| |e k IH|k IH] using Prog_induct; intros w; [done|done| |].
  - simpl. rewrite IH. by destruct (traced k w) as [[es w'] r].
  - simpl. specialize (IH w). destruct (k w) as [w' p']. apply IH.
Qed.

Lemma traced_bind {W A B} (p : Prog W A) (f : A → Prog W B) w :
  traced (p ≫= f) w =
  match traced p w with
  | (es, w', Some a) => let '(es', w'', r) := traced (f a) w' in (es ++ es', w'', r)
  | (es, w', None) => (es, w', None)
  end.
Proof.
  revert w. induction p as [a| |e k IH|k IH] using Prog_induct; intros w; [|done| |].
  - simpl. by destruct (traced (f a) w) as [[es w'] r].
  - change (traced (PEmit e k ≫= f) w) with (let '(es, w', r) := traced (k ≫= f) w in (e :: es, w', r)).
    rewrite IH. simpl. destruct (traced k w) as [[es w'] [a|]]; [|done].
    by destruct (traced (f a) w') as [[es' w''] r].
  - change (traced (PWorld k ≫= f) w) with (match (let '(w', p') := k w in (w', p' ≫= f)) with (w', p') => traced p' w' end).
    simpl. specialize (IH w). destruct (k w) as [w' p']. apply IH.
Qed.

Lemma traced_act {W A} (f : W → W * A) w : traced (act f) w = ([], (f w).1, Some (f w).2).
Proof. unfold act. simpl. by destruct (f w). Qed.

(** [posts p Q]: from every world the computation returns a result [a] after
    emitting the events [es], with [Q es a]; it does not panic. *)
Definition posts {W A} (p : Prog W A) (Q : list Event → A → Prop) : Prop :=
  ∀ w, match traced p w with (es, _, Some a) => Q es a | (_, _, None) => False end.

Section Posts.
Context {W : Type}.

Lemma posts_ret {A} (a : A) (Q : list Event → A → Prop) : Q [] a → posts (W := W) (mret a) Q.
Proof. by intros HQ w. Qed.

Lemma posts_act {A} (f : W → W * A) (Q : list Event → A → Prop) : (∀ w, Q [] (f w).2) → posts (act f) Q.
Proof. intros HQ w. rewrite traced_act. apply HQ. Qed.

Lemma posts_emit (e : Event) (Q : list Event → () → Prop) : Q [e] tt → posts (W := W) (PEmit e (PRet tt)) Q.
Proof. by intros HQ w. Qed.

Lemma posts_weaken {A} (p : Prog W A) (Q R : list Event → A → Prop) :
  posts p Q → (∀ es a, Q es a → R es a) → posts p R.
Proof. intros Hp HQR w. specialize (Hp w). destruct (traced p w) as [[es w'] [a|]]; eauto. Qed.

Lemma posts_bind {A B} (p : Prog W A) (f : A → Prog W B) Q R :
  posts p Q → (∀ es a, Q es a → posts (f a) (λ es', R (es ++ es'))) → posts (p ≫= f) R.
Proof.
  intros Hp Hf w. rewrite traced_bind. specialize (Hp w). destruct (traced p w) as [[es w'] [a|]]; [|done].
  specialize (Hf es a Hp w'). by destruct (traced (f a) w') as [[es' w''] [b|]].
Qed.

(** A step without events. *)
Lemma posts_step {A B} (f : W → W * A) (k : A → Prog W B) R : (∀ a, posts (k a) R) → posts (act f ≫= k) R.
Proof.
  intros Hk. eapply posts_bind; [apply (posts_act f (λ es _, es = [])); done|]. intros es a ->. apply Hk.
Qed.
End Posts.

(** Contexts with a timeout: entering one and leaving it. *)
Class Timeouts (W : Type) `{World W} := {
  ctx_WithTimeout : Z → W → W;
  ctx_cancel : W → W
}.

(** [time.After] and [ctx.Done] in one [select]: the error when the context is done. *)
Class Timers (W : Type) := { time_After : Z → W → W * option error }.

Section Contexts.
Context {W : Type} `{Timeouts W}.

(** A body in a context with a timeout, when one is configured. *)
Definition with_timeout {A} (d : Z) (body : Prog W A) : Prog W A :=
  if (0 <? d)%Z then
    act (λ w, (ctx_WithTimeout d w, tt));;
    r ← body;
    act (λ w, (ctx_cancel w, tt));;
    mret r
  else body.

Lemma posts_timeout {A} d (body : Prog W A) Q : posts body Q → posts (with_timeout d body) Q.
Proof.
  intros Hb. unfold with_timeout. case_match; [|done]. apply posts_step. intros _.
  eapply posts_bind; [exact Hb|]. intros es a Ha. apply posts_step. intros _. apply posts_ret.
  by rewrite app_nil_r.
Qed.

(** [emit(runtime.NewEvent(...))] of a node. *)
Definition node_event (kind runID nodeID nodeKind : string) (payloads : list (string * value)) : Prog W () :=
  t ← act time_Now;
  PEmit (foldl (λ e kv, WithPayload kv.1 (PVal kv.2) e)
    (WithNode nodeID nodeKind (mkEvent kind runID EmptyString EmptyString t 1 0 ∅ 0 EmptyString EmptyString)) payloads)
    (PRet tt).

(** The event a node emits: its kind, node and the payloads given. *)
Record event_is (kind runID nodeID nodeKind : string) (payloads : list (string * value)) (e : Event) : Prop := {
  ei_kind : ev_Kind e = kind;
  ei_run : ev_RunID e = runID;
  ei_node : ev_NodeID e = nodeID;
  ei_nodeKind : ev_NodeKind e = nodeKind;
  ei_payload : ev_Payload e = foldl (λ m kv, <[kv.1 := PVal kv.2]> m) ∅ payloads
}.

Lemma with_payloads (l : list (string * value)) (e : Event) :
  let e' := foldl (λ e kv, WithPayload kv.1 (PVal kv.2) e) e l in
  ev_Kind e' = ev_Kind e ∧ ev_RunID e' = ev_RunID e ∧ ev_NodeID e' = ev_NodeID e ∧ ev_NodeKind e' = ev_NodeKind e ∧
  ev_Payload e' = foldl (λ m kv, <[kv.1 := PVal kv.2]> m) (ev_Payload e) l.
Proof. revert e. induction l as [|kv l IH]; intros e; [done|]. apply (IH (WithPayload kv.1 (PVal kv.2) e)). Qed.

Lemma posts_event kind runID nodeID nodeKind payloads :
  posts (node_event kind runID nodeID nodeKind payloads)
    (λ es _, ∃ e, es = [e] ∧ event_is kind runID nodeID nodeKind payloads e).
Proof.
  apply posts_step. intros t. apply posts_emit. eexists. split; [done|].
  by destruct (with_payloads payloads (WithNode nodeID nodeKind
    (mkEvent kind runID EmptyString EmptyString t 1 0 ∅ 0 EmptyString EmptyString))) as (? & ? & ? & ? & ?).
Qed.
End Contexts.

(** A world in which nothing happens, for samples. *)
Definition quiet_world : World () := {|
  time_Now w := (w, 0%Z); rand_ID w := (w, ""); ctx_Done w := (w, None); chan_read w := (w, 0)
|}.
