(* ===== verification/MapNode.v ===== *)
(** * The map node (nodes/map.go)

    It applies a mapper (a function or a node) to every item of a collection, one
    item after the other or with a pool of workers fed through a channel. The
    pool is a transition system: the submitting loop, the workers and the context
    interleave in every way Go allows, and each computation of the mapper is
    stepped action by action.

    The theorems: every schedule of the pool is finite, and unless the caller's
    context is canceled it ends with the outcome of the sequential loop, up to
    which failing item is reported. *)

From stdpp Require Import gmap strings list relations pretty.
From Stdlib Require Import ZArith Lia.
From S2P Require Import Prelude Values Envelope GoFmt NodeHelpers Graph Events StepController Runtime.
From S2P Require Import NodeProg.

(** ** Data *)

Record MapNodeConfig (W : Type) := mkMapConfig {
  mc_InputVar : string;
  mc_OutputVar : string;
  mc_ItemVar : string;
  mc_IndexVar : string;
  mc_Concurrency : Z;
  mc_Mapper : option (value → Z → Prog W (value + error));
  mc_MapperNode : option (Node W);
  mc_ContinueOnError : bool;
  mc_PreserveOrder : bool               (** never read *)
}.
Arguments mkMapConfig {W}.
Arguments mc_InputVar {W}.
Arguments mc_OutputVar {W}.
Arguments mc_ItemVar {W}.
Arguments mc_IndexVar {W}.
Arguments mc_Concurrency {W}.
Arguments mc_Mapper {W}.
Arguments mc_MapperNode {W}.
Arguments mc_ContinueOnError {W}.
Arguments mc_PreserveOrder {W}.

Record MapNode (W : Type) := mkMapNode { mn_ID : string; mn_config : MapNodeConfig W }.
Arguments mkMapNode {W}.
Arguments mn_ID {W}.
Arguments mn_config {W}.

Definition non_empty (s d : string) : string := if bool_decide (s = EmptyString) then d else s.

Definition NewMapNode {W} (id : string) (config : MapNodeConfig W) : MapNode W :=
  mkMapNode id
    (mkMapConfig (mc_InputVar config) (non_empty (mc_OutputVar config) (id ^^ "_output"))
       (non_empty (mc_ItemVar config) "item") (mc_IndexVar config)
       (if (mc_Concurrency config <=? 0)%Z then 1%Z else mc_Concurrency config)
       (mc_Mapper config) (mc_MapperNode config) (mc_ContinueOnError config)
       (mc_PreserveOrder config)).

(** ** Operations *)

Section Map.
Context {W : Type} `{World W}.
Implicit Types (n : MapNode W) (env : Envelope).

Definition map_error n (ps : list part) : error :=
  EFmt (PS "map node " :: PS (mn_ID n) :: PS ": " :: ps).

Definition item_error (i : nat) (err : error) : error :=
  EFmt [PS "map item "; PD (Z.of_nat i); PS ": "; PW err].

(** The envelope the mapper node gets for an item. *)
Definition item_env n env (item : value) (i : nat) : Envelope :=
  let e := SetVar (mc_ItemVar (mn_config n)) item env in
  let e := if bool_decide (mc_IndexVar (mn_config n) ≠ EmptyString)
           then SetVar (mc_IndexVar (mn_config n)) (VInt (Z.of_nat i)) e else e in
  let t := env_Trace e in
  set_Trace (mkTrace (tr_RunID t) (tr_RunID t) (mn_ID n ^^ "-item-" ^^ pretty i) (tr_TraceID t)
               (tr_Started t)) e.

(** [resultEnv.Vars] as a value. *)
Definition vars_value env : value :=
  match env_Vars env with Some m => VMap m | None => VNilMap end.

(** Without a mapper function the mapper node must be set; a nil envelope it
    returns without error is dereferenced. *)
Definition processItem n env (item : value) (i : nat) : Prog W (value + error) :=
  match mc_Mapper (mn_config n) with
  | Some mapper => mapper item (Z.of_nat i)
  | None =>
      match mc_MapperNode (mn_config n) with
      | None => PPanic
      | Some node =>
          r ← of_node (n_Run node (item_env n env item i));
          match r with
          | (_, RErr err) => mret (inr err)
          | (_, RNew e) => mret (inl (vars_value e))
          | (arg, RSame) => mret (inl (vars_value arg))
          | (_, RNil) => PPanic
          end
      end
  end.

(** The results so far and the error. *)
Definition map_outcome : Type := list value * option error.

Fixpoint seq_items n env (items : list value) (i : nat) (results : list value)
  : Prog W map_outcome :=
  match items with
  | [] => mret (results, None)
  | item :: rest =>
      d ← act ctx_Done;
      match d with
      | Some err => mret (results, Some err)
      | None =>
          r ← processItem n env item i;
          match r with
          | inr err =>
              if mc_ContinueOnError (mn_config n)
              then seq_items n env rest (S i) (<[i := VNil]> results)
              else mret ([], Some (item_error i err))
          | inl v => seq_items n env rest (S i) (<[i := v]> results)
          end
      end
  end.

Definition mapSequential n env (items : list value) : Prog W map_outcome :=
  seq_items n env items 0 (replicate (length items) VNil).

(** [Run] before and after the map operation. *)
Definition map_prepare n env : list value + error :=
  match GetVar env (mc_InputVar (mn_config n)) with
  | None => inr (map_error n [PS "input variable "; PQ (mc_InputVar (mn_config n)); PS " not found"])
  | Some inputVal =>
      match toSlice inputVal with
      | inr err => inr (map_error n [PW err])
      | inl items =>
          match mc_Mapper (mn_config n), mc_MapperNode (mn_config n) with
          | None, None => inr (map_error n [PS "no mapper configured"])
          | _, _ => inl items
          end
      end
  end.

Definition map_finish n env (out : map_outcome) : Envelope + error :=
  match out with
  | (results, mapErr) =>
      match mapErr with
      | Some err =>
          if negb (mc_ContinueOnError (mn_config n)) then inr err
          else inl (SetVar (mc_OutputVar (mn_config n)) (VSlice results) env)
      | None => inl (SetVar (mc_OutputVar (mn_config n)) (VSlice results) env)
      end
  end.

(** [Run] with a concurrency of one. *)
Definition Run_sequential n env : Prog W (Envelope + error) :=
  match map_prepare n env with
  | inr err => mret (inr err)
  | inl items => out ← mapSequential n env items; mret (map_finish n env out)
  end.

(** ** The worker pool *)

Inductive wstate :=
| WIdle
| WRun (i : nat) (p : Prog W (value + error))
| WStop.

(** [m_items]: not yet submitted; [m_open]: the submitting loop still runs and the
    channel is open; [m_canceled]: [cancel()] was called; [m_parent]: the context
    of the caller is done. *)
Record mstate := mkM {
  m_w : W;
  m_events : list Event;
  m_items : list (nat * value);
  m_open : bool;
  m_ch : list (nat * value);
  m_workers : list wstate;
  m_results : list value;
  m_err : option error;
  m_canceled : bool;
  m_parent : bool;
  m_crashed : bool
}.

Inductive mmove :=
| MSubmit
| MBreak
| MClose
| MTake (j : nat)
| MExit (j : nat)
| MDrained (j : nat)
| MAdvance (j : nat)
| MParent.

Definition m_done (s : mstate) : bool := m_canceled s || m_parent s.

Definition set_worker (j : nat) (x : wstate) (s : mstate) : mstate :=
  mkM (m_w s) (m_events s) (m_items s) (m_open s) (m_ch s) (<[j := x]> (m_workers s))
    (m_results s) (m_err s) (m_canceled s) (m_parent s) (m_crashed s).

Definition set_effects (w : W) (es : list Event) (s : mstate) : mstate :=
  mkM w es (m_items s) (m_open s) (m_ch s) (m_workers s)
    (m_results s) (m_err s) (m_canceled s) (m_parent s) (m_crashed s).

Definition set_queue (items : list (nat * value)) (open : bool) (ch : list (nat * value))
    (s : mstate) : mstate :=
  mkM (m_w s) (m_events s) items open ch (m_workers s)
    (m_results s) (m_err s) (m_canceled s) (m_parent s) (m_crashed s).

(** A worker that has the result of its item. *)
Definition record_result n (i : nat) (r : value + error) (s : mstate) : mstate :=
  let put v e c :=
    mkM (m_w s) (m_events s) (m_items s) (m_open s) (m_ch s) (m_workers s)
      v e c (m_parent s) (m_crashed s) in
  match r with
  | inl v => put (<[i := v]> (m_results s)) (m_err s) (m_canceled s)
  | inr err =>
      if mc_ContinueOnError (mn_config n) then put (<[i := VNil]> (m_results s)) (m_err s) (m_canceled s)
      else match m_err s with
           | None => put (m_results s) (Some (item_error i err)) true
           | Some _ => s
           end
  end.

Definition crash (s : mstate) : mstate :=
  mkM (m_w s) (m_events s) (m_items s) (m_open s) (m_ch s) (m_workers s)
    (m_results s) (m_err s) (m_canceled s) (m_parent s) true.

Definition cancel_parent (s : mstate) : mstate :=
  mkM (m_w s) (m_events s) (m_items s) (m_open s) (m_ch s) (m_workers s)
    (m_results s) (m_err s) (m_canceled s) true (m_crashed s).

(** One move of the pool; [None] when it is not enabled. *)
Definition mexec n env (m : mmove) (s : mstate) : option mstate :=
  if m_crashed s then None else
  match m with
  | MSubmit =>
      match m_items s with
      | x :: rest =>
          if m_open s && bool_decide (Z.of_nat (length (m_ch s)) < mc_Concurrency (mn_config n))%Z
          then Some (set_queue rest true (m_ch s ++ [x]) s) else None
      | [] => None
      end
  | MBreak =>
      match m_items s with
      | _ :: _ => if m_open s && m_done s then Some (set_queue (m_items s) false (m_ch s) s) else None
      | [] => None
      end
  | MClose =>
      match m_items s with
      | [] => if m_open s then Some (set_queue [] false (m_ch s) s) else None
      | _ :: _ => None
      end
  | MTake j =>
      match m_workers s !! j, m_ch s with
      | Some WIdle, (i, item) :: ch =>
          Some (set_worker j (WRun i (processItem n env item i))
                  (set_queue (m_items s) (m_open s) ch s))
      | _, _ => None
      end
  | MExit j =>
      match m_workers s !! j with
      | Some WIdle => if m_done s then Some (set_worker j WStop s) else None
      | _ => None
      end
  | MDrained j =>
      match m_workers s !! j, m_ch s with
      | Some WIdle, [] => if m_open s then None else Some (set_worker j WStop s)
      | _, _ => None
      end
  | MAdvance j =>
      match m_workers s !! j with
      | Some (WRun i (PRet r)) => Some (set_worker j WIdle (record_result n i r s))
      | Some (WRun i PPanic) => Some (crash s)
      | Some (WRun i (PEmit e k)) =>
          Some (set_worker j (WRun i k) (set_effects (m_w s) (m_events s ++ [e]) s))
      | Some (WRun i (PWorld k)) =>
          let '(w', k') := k (m_w s) in
          Some (set_worker j (WRun i k') (set_effects w' (m_events s) s))
      | _ => None
      end
  | MParent => if m_parent s then None else Some (cancel_parent s)
  end.

Definition mstep n env (s s' : mstate) : Prop := ∃ m, mexec n env m s = Some s'.

Definition minit n (items : list value) (w : W) : mstate :=
  mkM w [] (imap pair items) true [] (replicate (Z.to_nat (mc_Concurrency (mn_config n))) WIdle)
    (replicate (length items) VNil) None false false false.

(** [mapConcurrent] returns: the loop is over and all workers have stopped. *)
Definition stopped (x : wstate) : bool := match x with WStop => true | _ => false end.
Definition returned (s : mstate) : bool := negb (m_open s) && forallb stopped (m_workers s).

(** The outcome it returns. *)
Definition m_outcome (s : mstate) : map_outcome := (m_results s, m_err s).
End Map.

(** ** Termination of the pool *)

Section Termination.
Context {W : Type} `{World W}.
Implicit Types (n : MapNode W) (env : Envelope) (s : mstate (W := W)).

(** A list steps when one element steps; it terminates when all its elements do. *)
Definition lstep {A} (R : relation A) (l' l : list A) : Prop :=
  ∃ j x y, l !! j = Some x ∧ R y x ∧ l' = <[j := y]> l.

Lemma lstep_acc {A} (R : relation A) (l : list A) : Forall (Acc R) l → Acc (lstep R) l.
Proof.
  induction 1 as [|x l Hx Hl IH]; [constructor; intros l' (j & ? & ? & [=] & _)|].
  clear Hl. revert l IH. induction Hx as [x _ IHx]. intros l Hl.
  induction Hl as [l Hl IHl]. constructor. intros l' ([|j] & a & b & Hj & Hab & ->); simpl in *.
  - simplify_eq. apply IHx; [done|]. by constructor.
  - apply IHl. by exists j, a, b.
Qed.

(** What a worker that runs an item has ahead of it. *)
Definition wsub (y x : wstate (W := W)) : Prop :=
  match y, x with
  | WRun i q, WRun j p => i = j ∧ prog_sub q p
  | _, _ => False
  end.

Lemma wsub_acc (x : wstate (W := W)) : Acc wsub x.
Proof.
  destruct x as [|i p|].
  - constructor. intros [| |] Hy; destruct Hy.
  - induction (prog_sub_acc p) as [p _ IH]. constructor. intros [|j q|] Hy; [destruct Hy| |destruct Hy].
    destruct Hy as [-> Hq]. by apply IH.
  - constructor. intros [| |] Hy; destruct Hy.
Qed.

Definition weight (x : wstate (W := W)) : nat :=
  match x with WIdle => 1 | WRun _ _ => 2 | WStop => 0 end.

(** Every move but those inside a mapper decreases it. *)
Definition measure s : nat :=
  3 * length (m_items s) + 2 * length (m_ch s) + sum_list (map weight (m_workers s)) +
  (if m_open s then 1 else 0) + (if m_parent s then 0 else 1) + (if m_crashed s then 0 else 1).

Lemma sum_weight_insert (l : list (wstate (W := W))) j x y : l !! j = Some x →
  sum_list (map weight (<[j := y]> l)) + weight x = sum_list (map weight l) + weight y.
Proof.
  revert j. induction l as [|a l IH]; intros [|j] Hj; simpl in *; simplify_eq; [lia|].
  specialize (IH j Hj). lia.
Qed.

Lemma record_result_frame n i r s :
  m_w (record_result n i r s) = m_w s ∧ m_items (record_result n i r s) = m_items s ∧
  m_open (record_result n i r s) = m_open s ∧ m_ch (record_result n i r s) = m_ch s ∧
  m_workers (record_result n i r s) = m_workers s ∧ m_parent (record_result n i r s) = m_parent s ∧
  m_crashed (record_result n i r s) = m_crashed s.
Proof.
  unfold record_result. destruct r; [done|]. case_match; [done|]. by case_match.
Qed.

Lemma mstep_decreases n env s s' : mstep n env s s' →
  measure s' < measure s ∨ measure s' = measure s ∧ lstep wsub (m_workers s') (m_workers s).
Proof.
  intros [m Hm]. unfold mexec in Hm. destruct (m_crashed s) eqn:Hcr; [done|].
  destruct m as [| | |j|j|j|j|]; simpl in Hm.
  - left. unfold measure. destruct (m_items s) as [|x rest]; [done|].
    destruct (m_open s); [|done]. simpl in Hm. case_bool_decide; simplify_eq; simpl.
    rewrite length_app. simpl. lia.
  - left. unfold measure. destruct (m_items s) as [|x rest] eqn:Hi; [done|].
    destruct (m_open s); [|done]. simpl in Hm. destruct (m_done s); simplify_eq; simpl. lia.
  - left. unfold measure. destruct (m_items s) as [|x rest]; [|done].
    destruct (m_open s); simplify_eq; simpl. lia.
  - left. unfold measure. destruct (m_workers s !! j) as [[| |]|] eqn:Hj; try done.
    destruct (m_ch s) as [|[i item] ch] eqn:Hc; simplify_eq; simpl.
    pose proof (sum_weight_insert _ j WIdle (WRun i (processItem n env item i)) Hj). simpl in *. lia.
  - left. unfold measure. destruct (m_workers s !! j) as [[| |]|] eqn:Hj; try done.
    case_match; simplify_eq; simpl. pose proof (sum_weight_insert _ j WIdle WStop Hj). simpl in *. lia.
  - left. unfold measure. destruct (m_workers s !! j) as [[| |]|] eqn:Hj; try done.
    destruct (m_ch s) eqn:Hc; [|done]. destruct (m_open s) eqn:Ho; simplify_eq; simpl. rewrite Hc, Ho.
    pose proof (sum_weight_insert _ j WIdle WStop Hj). simpl in *. lia.
  - destruct (m_workers s !! j) as [[|i p|]|] eqn:Hj; try done.
    destruct p as [r| |e k|k]; simplify_eq.
    + left. unfold measure. simpl.
      destruct (record_result_frame n i r s) as (_ & -> & -> & -> & -> & -> & ->).
      pose proof (sum_weight_insert _ j _ WIdle Hj). simpl in *. lia.
    + left. unfold measure. simpl. rewrite Hcr. lia.
    + right. split; [unfold measure; simpl; pose proof (sum_weight_insert _ j _ (WRun i k) Hj); simpl in *; lia|].
      simpl. exists j, (WRun i (PEmit e k)), (WRun i k). split; [done|]. split; [|done].
      split; [done|]. constructor.
    + pose proof (sub_world k (m_w s)) as Hsub. destruct (k (m_w s)) as [w' k']. simplify_eq.
      right. split; [unfold measure; simpl; pose proof (sum_weight_insert _ j _ (WRun i k') Hj); simpl in *; lia|].
      simpl. exists j, (WRun i (PWorld k)), (WRun i k'). by split_and!.
  - left. unfold measure. destruct (m_parent s) eqn:Hp; simplify_eq; simpl. rewrite Hcr. lia.
Qed.

(** No schedule of the pool is infinite. *)
Lemma pool_terminates n env s : sn (mstep n env) s.
Proof.
  remember (measure s) as k eqn:Hk. revert s Hk. induction (lt_wf k) as [k _ IHk].
  intros s ->. assert (Acc (lstep wsub) (m_workers s)) as Hacc.
  { apply lstep_acc, Forall_true. intros. apply wsub_acc. }
  remember (m_workers s) as l eqn:Hl. revert s IHk Hl.
  induction Hacc as [l _ IHl]. intros s IHk ->. constructor. intros s' Hs'.
  destruct (mstep_decreases n env s s' Hs') as [Hlt|[Heq Hl]]; [by eapply IHk|].
  eapply IHl; [done| |done]. by rewrite Heq.
Qed.
End Termination.

(** ** Correctness of the pool *)

Section Correct.
Context {W : Type} `{World W} (n : MapNode W) (env : Envelope) (items : list value).
Context (f : value → nat → value + error).
Notation coe := (mc_ContinueOnError (mn_config n)).
Implicit Types (s : mstate (W := W)).

(** The result recorded for an item. *)
Definition recorded (r : value + error) : value := match r with inl v => v | inr _ => VNil end.

(** Every item has a result, or its failure is tolerated. *)
Definition settles (rest : list value) (i : nat) : Prop :=
  ∀ k item, rest !! k = Some item → coe = true ∨ ∃ v, f item (i + k) = inl v.

Hypothesis mapper_yields :
  ∀ i item, items !! i = Some item → yields (processItem n env item i) (f item i).
Hypothesis not_canceled : ∀ w : W, (ctx_Done w).2 = None.

Lemma seq_items_cons item rest i results :
  seq_items n env (item :: rest) i results =
  (act ctx_Done ≫= λ d,
    match d with
    | Some err => mret (results, Some err)
    | None => processItem n env item i ≫= λ r,
        match r with
        | inr err => if coe then seq_items n env rest (S i) (<[i := VNil]> results)
                     else mret ([], Some (item_error i err))
        | inl v => seq_items n env rest (S i) (<[i := v]> results)
        end
    end).
Proof. done. Qed.

Lemma seq_items_yields rest i results :
  (∀ k item, rest !! k = Some item → yields (processItem n env item (i + k)) (f item (i + k))) →
  length results = i + length rest →
  (settles rest i ∧ yields (seq_items n env rest i results)
     (take i results ++ imap (λ k item, recorded (f item (i + k))) rest, None)) ∨
  (coe = false ∧ ∃ k item err, rest !! k = Some item ∧ f item (i + k) = inr err ∧
     yields (seq_items n env rest i results) ([], Some (item_error (i + k) err))).
Proof.
  revert i results. induction rest as [|item rest IH]; intros i results Hf Hlen.
  - left. split; [by intros k item|]. simpl in *. by rewrite app_nil_r, firstn_all2 by lia.
  - pose proof (Hf 0 item eq_refl) as H0. rewrite Nat.add_0_r in H0.
    assert (∀ out, yields (match f item i with
        | inr err => if coe then seq_items n env rest (S i) (<[i := VNil]> results)
                     else mret ([], Some (item_error i err))
        | inl v => seq_items n env rest (S i) (<[i := v]> results) end) out →
      yields (seq_items n env (item :: rest) i results) out) as Hstep.
    { intros out Hout. rewrite seq_items_cons. eapply yields_pbind; [apply yields_act, not_canceled|].
      eapply yields_pbind; [exact H0|done]. }
    assert (∀ v, recorded (f item i) = v → (coe = true ∨ ∃ v, f item i = inl v) →
      (∀ out, yields (seq_items n env rest (S i) (<[i := v]> results)) out →
         yields (seq_items n env (item :: rest) i results) out) →
      (settles (item :: rest) i ∧ yields (seq_items n env (item :: rest) i results)
         (take i results ++ imap (λ k item, recorded (f item (i + k))) (item :: rest), None)) ∨
      (coe = false ∧ ∃ k item0 err, (item :: rest) !! k = Some item0 ∧ f item0 (i + k) = inr err ∧
         yields (seq_items n env (item :: rest) i results) ([], Some (item_error (i + k) err)))) as Hgo.
    { intros v Hv Hset Hcont. destruct (IH (S i) (<[i := v]> results)) as [[Hs Hy]|(Hc & k & x & err & Hk & He & Hy)].
      - intros k x Hk. specialize (Hf (S k) x Hk). by rewrite Nat.add_succ_r in Hf.
      - rewrite length_insert. simpl in Hlen. lia.
      - left. split.
        + intros [|k] x Hk; simpl in Hk; simplify_eq; [by rewrite Nat.add_0_r|].
          destruct (Hs k x Hk) as [?|[u Hu]]; [by left|right]. exists u. by rewrite Nat.add_succ_r.
        + apply Hcont in Hy. simpl imap. rewrite Nat.add_0_r, Hv.
          rewrite (take_S_r _ i v) in Hy by (apply list_lookup_insert_eq; simpl in Hlen; lia).
          rewrite take_insert_ge, <- app_assoc in Hy by lia. simpl in Hy.
          erewrite imap_ext in Hy; [exact Hy|]. intros k x _. simpl. by rewrite Nat.add_succ_r.
      - right. split; [done|]. exists (S k), x, err. rewrite Nat.add_succ_r. auto. }
    destruct (f item i) as [v|err] eqn:Hfi.
    + apply (Hgo v); eauto.
    + destruct coe eqn:Hc.
      * apply (Hgo VNil); eauto.
      * right. split; [done|]. exists 0, item, err. rewrite Nat.add_0_r.
        split; [done|]. split; [done|]. apply Hstep. done.
Qed.

(** Where every item is while the pool runs. *)
Definition accounted s (i : nat) (item : value) : Prop :=
  (i, item) ∈ m_items s ∨ (i, item) ∈ m_ch s ∨ (∃ j p, m_workers s !! j = Some (WRun i p)) ∨
  (m_results s !! i = Some (recorded (f item i)) ∧ (coe = true ∨ ∃ v, f item i = inl v)).

Record pool_inv s : Prop := {
  pi_crash : m_crashed s = false;
  pi_parent : m_parent s = false;
  pi_items : ∀ i item, (i, item) ∈ m_items s → items !! i = Some item;
  pi_ch : ∀ i item, (i, item) ∈ m_ch s → items !! i = Some item;
  pi_run : ∀ j i p, m_workers s !! j = Some (WRun i p) →
    ∃ item, items !! i = Some item ∧ yields p (f item i);
  pi_len : length (m_results s) = length items;
  pi_count : m_workers s ≠ [];
  pi_fail : ∀ e, m_err s = Some e → m_canceled s = true ∧ coe = false ∧
    ∃ i item err, items !! i = Some item ∧ f item i = inr err ∧ e = item_error i err;
  pi_ok : m_err s = None → m_canceled s = false ∧
    ∀ i item, items !! i = Some item → accounted s i item;
  pi_stop : ∀ j, m_workers s !! j = Some WStop →
    m_canceled s = true ∨ m_open s = false ∧ m_ch s = [];
  pi_open : m_open s = false → m_items s = [] ∨ m_canceled s = true
}.

Lemma minit_inv w : (1 ≤ mc_Concurrency (mn_config n))%Z → pool_inv (minit n items w).
Proof.
  intros Hc. assert (∀ j x, m_workers (minit n items w) !! j = Some x → x = WIdle) as Hw
    by (intros j x Hx; by apply lookup_replicate in Hx as [? _]).
  assert (∀ i item, (i, item) ∈ imap pair items ↔ items !! i = Some item) as Hel.
  { intros i item. rewrite list_elem_of_lookup. split.
    - intros [k Hk]. rewrite list_lookup_imap in Hk. destruct (items !! k) eqn:E; simpl in Hk; by simplify_eq.
    - intros Hi. exists i. by rewrite list_lookup_imap, Hi. }
  split; try done; simpl.
  - intros i item Hin. by apply Hel.
  - intros i item Hin. by apply not_elem_of_nil in Hin.
  - intros j i p Hj. by apply Hw in Hj.
  - apply length_replicate.
  - destruct (Z.to_nat _) eqn:E; [lia|done].
  - split; [done|]. intros i item Hi. left. by apply Hel.
  - intros j Hj. by apply Hw in Hj.
Qed.

(** A worker that goes idle, runs or stops leaves the others as they are. *)
Lemma run_elsewhere (l : list (wstate (W := W))) j x i p j' :
  <[j := x]> l !! j' = Some (WRun i p) → j < length l →
  j' = j ∧ x = WRun i p ∨ l !! j' = Some (WRun i p).
Proof.
  intros Hl Hj. destruct (decide (j = j')) as [->|Hne]; [left|right].
  - rewrite list_lookup_insert_eq in Hl by done. by simplify_eq.
  - by rewrite list_lookup_insert_ne in Hl.
Qed.

Lemma stop_elsewhere (l : list (wstate (W := W))) j x j' :
  <[j := x]> l !! j' = Some WStop → x = WStop ∨ l !! j' = Some WStop.
Proof.
  intros Hl. apply list_lookup_insert_Some in Hl as [(_ & ? & _)|[_ ?]]; auto.
Qed.

Lemma submit_inv s x rest :
  pool_inv s → m_items s = x :: rest → m_open s = true →
  pool_inv (set_queue rest true (m_ch s ++ [x]) s).
Proof.
  intros [Hcr Hpa Hit Hch Hrun Hlen Hcnt Hfail Hok Hstop Hop] Hx Ho. destruct x as [i0 item0].
  split; simpl; try done.
  - intros i item Hin. apply Hit. rewrite Hx. by right.
  - intros i item [Hin|Hin]%elem_of_app; [by apply Hch|].
    apply list_elem_of_singleton in Hin as [= -> ->]. apply Hit. rewrite Hx. left.
  - intros He. destruct (Hok He) as [? Hacc]. split; [done|]. intros i item Hi.
    destruct (Hacc i item Hi) as [Hin|[Hin|Hr]]; [|right; left; apply elem_of_app; by left|by right; right].
    rewrite Hx in Hin. apply elem_of_cons in Hin as [[= -> ->]|Hin]; [|by left].
    right. left. apply elem_of_app. right. by apply list_elem_of_singleton.
  - intros j Hj. destruct (Hstop j Hj) as [?|[? _]]; [by left|congruence].
Qed.

Lemma close_inv s :
  pool_inv s → m_items s = [] ∨ m_canceled s = true →
  pool_inv (set_queue (m_items s) false (m_ch s) s).
Proof.
  intros [Hcr Hpa Hit Hch Hrun Hlen Hcnt Hfail Hok Hstop Hop] Hx. split; simpl; try done.
  intros j Hj. destruct (Hstop j Hj) as [?|[_ ?]]; auto.
Qed.

Lemma take_inv s j i item ch :
  pool_inv s → m_workers s !! j = Some WIdle → m_ch s = (i, item) :: ch →
  pool_inv (set_worker j (WRun i (processItem n env item i)) (set_queue (m_items s) (m_open s) ch s)).
Proof.
  intros [Hcr Hpa Hit Hch Hrun Hlen Hcnt Hfail Hok Hstop Hop] Hj Hc.
  pose proof (lookup_lt_Some _ _ _ Hj) as Hlt.
  assert (items !! i = Some item) as Hi by (apply Hch; rewrite Hc; left).
  split; simpl; try done.
  - intros i' item' Hin. apply Hch. rewrite Hc. by right.
  - intros j' i' p Hj'. apply run_elsewhere in Hj' as [(-> & [= <- <-])|Hj']; [|by eapply Hrun|done].
    exists item. split; [done|]. by apply mapper_yields.
  - intros He. apply (f_equal length) in He. rewrite length_insert in He.
    destruct (m_workers s); simpl in *; lia.
  - intros He. destruct (Hok He) as [? Hacc]. split; [done|]. intros i' item' Hi'.
    unfold accounted; simpl.
    destruct (Hacc i' item' Hi') as [Hin|[Hin|[(j' & p & Hj')|Hd]]]; [by left| | |by right; right; right].
    + rewrite Hc in Hin. apply elem_of_cons in Hin as [[= -> ->]|Hin]; [|by right; left].
      right. right. left. exists j. eexists. by apply list_lookup_insert_eq.
    + right. right. left. exists j', p. rewrite list_lookup_insert_ne; [done|]. congruence.
  - intros j' [?|Hj']%stop_elsewhere; [done|].
    destruct (Hstop j' Hj') as [?|[_ ?]]; [by left|congruence].
Qed.

Lemma stop_inv s j :
  pool_inv s → m_workers s !! j = Some WIdle →
  m_canceled s = true ∨ m_open s = false ∧ m_ch s = [] → pool_inv (set_worker j WStop s).
Proof.
  intros [Hcr Hpa Hit Hch Hrun Hlen Hcnt Hfail Hok Hstop Hop] Hj Hd.
  pose proof (lookup_lt_Some _ _ _ Hj) as Hlt. split; simpl; try done.
  - intros j' i' p Hj'. apply run_elsewhere in Hj' as [(_ & [=])|Hj']; [by eapply Hrun|done].
  - intros He. apply (f_equal length) in He. rewrite length_insert in He.
    destruct (m_workers s); simpl in *; lia.
  - intros He. destruct (Hok He) as [? Hacc]. split; [done|]. intros i' item' Hi'.
    unfold accounted; simpl.
    destruct (Hacc i' item' Hi') as [Hin|[Hin|[(j' & p & Hj')|Hx]]]; [by left|by right; left| |by right; right; right].
    right. right. left. exists j', p. rewrite list_lookup_insert_ne; [done|]. congruence.
Qed.

Lemma advance_inv s w es j i p q :
  pool_inv s → m_workers s !! j = Some (WRun i p) → (∀ r, yields p r → yields q r) →
  pool_inv (set_worker j (WRun i q) (set_effects w es s)).
Proof.
  intros [Hcr Hpa Hit Hch Hrun Hlen Hcnt Hfail Hok Hstop Hop] Hj Hpq.
  pose proof (lookup_lt_Some _ _ _ Hj) as Hlt. split; simpl; try done.
  - intros j' i' p' Hj'. apply run_elsewhere in Hj' as [(-> & [= <- <-])|Hj']; [|by eapply Hrun|done].
    destruct (Hrun _ _ _ Hj) as (item & Hi & Hy). exists item. auto.
  - intros He. apply (f_equal length) in He. rewrite length_insert in He.
    destruct (m_workers s); simpl in *; lia.
  - intros He. destruct (Hok He) as [? Hacc]. split; [done|]. intros i' item' Hi'.
    unfold accounted; simpl.
    destruct (Hacc i' item' Hi') as [Hin|[Hin|[(j' & p' & Hj')|Hx]]]; [by left|by right; left| |by right; right; right].
    right. right. left. destruct (decide (j = j')) as [->|Hne].
    + rewrite Hj in Hj'. simplify_eq. exists j', q. by apply list_lookup_insert_eq.
    + exists j', p'. by rewrite list_lookup_insert_ne.
  - intros j' [?|Hj']%stop_elsewhere; [done|by eapply Hstop].
Qed.

Lemma finish_inv s j i r :
  pool_inv s → m_workers s !! j = Some (WRun i (PRet r)) →
  pool_inv (set_worker j WIdle (record_result n i r s)).
Proof.
  intros [Hcr Hpa Hit Hch Hrun Hlen Hcnt Hfail Hok Hstop Hop] Hj.
  pose proof (lookup_lt_Some _ _ _ Hj) as Hlt.
  destruct (Hrun _ _ _ Hj) as (item & Hi & Hr). simpl in Hr. subst r.
  assert (i < length (m_results s)) as Hil by (rewrite Hlen; by eapply lookup_lt_Some).
  destruct (record_result_frame n i (f item i) s) as (_ & Ei & Eo & Ec & Ew & Ep & Ecr).
  assert (length (m_results (record_result n i (f item i) s)) = length items) as Hlen'.
  { rewrite <- Hlen. unfold record_result. destruct (f item i); simpl; [apply length_insert|].
    case_match; [apply length_insert|]. by case_match. }
  assert (m_canceled s = true → m_canceled (record_result n i (f item i) s) = true) as Hcan.
  { intros Hc. unfold record_result. destruct (f item i); simpl; [done|]. case_match; [done|]. by case_match. }
  split; simpl; rewrite ?Ei, ?Eo, ?Ec, ?Ew, ?Ep, ?Ecr; try done.
  - intros j' i' p Hj'. apply run_elsewhere in Hj' as [(_ & [=])|Hj']; [by eapply Hrun|done].
  - intros He. apply (f_equal length) in He. rewrite length_insert in He.
    destruct (m_workers s); simpl in *; lia.
  - intros e He. revert He. unfold record_result. destruct (f item i) as [v|err] eqn:Hfi; simpl; [apply Hfail|].
    destruct coe eqn:Hcoe; simpl; [intros He; destruct (Hfail e He) as (_ & [=] & _)|].
    destruct (m_err s) eqn:Hes; simpl.
    + rewrite Hes. intros [= <-]. by apply Hfail.
    + intros [= <-]. split; [done|]. split; [done|]. by exists i, item, err.
  - intros He.
    assert (m_err s = None ∧ (coe = true ∨ ∃ v, f item i = inl v) ∧
      m_canceled (record_result n i (f item i) s) = m_canceled s ∧
      m_results (record_result n i (f item i) s) = <[i := recorded (f item i)]> (m_results s))
      as (He' & Hset & Hc' & Hres).
    { revert He. unfold record_result. destruct (f item i) as [v|err]; simpl; [eauto 6|].
      destruct coe; simpl; [eauto 6|]. destruct (m_err s) eqn:Hes; simpl; [congruence|done]. }
    destruct (Hok He') as [Hnc Hacc]. split; [congruence|]. intros i' item' Hi'.
    unfold accounted; simpl. rewrite Ei, Ec, Ew, Hres.
    destruct (decide (i' = i)) as [->|Hne].
    { rewrite Hi in Hi'. simplify_eq. right. right. right.
      split; [by apply list_lookup_insert_eq|done]. }
    destruct (Hacc i' item' Hi') as [Hin|[Hin|[(j' & p & Hj')|[Hx Hset']]]]; [by left|by right; left| |].
    + right. right. left. exists j', p. rewrite list_lookup_insert_ne; [done|]. congruence.
    + right. right. right. split; [by rewrite list_lookup_insert_ne by done|done].
  - intros j' [?|Hj']%stop_elsewhere; [done|]. destruct (Hstop j' Hj') as [?|?]; [left; auto|by right].
  - intros Ho. destruct (Hop Ho); auto.
Qed.

Lemma mexec_inv s s' m :
  pool_inv s → mexec n env m s = Some s' → m_parent s' = false → pool_inv s'.
Proof.
  intros Hinv Hm Hp'. unfold mexec in Hm. rewrite (pi_crash _ Hinv) in Hm.
  assert (m_done s = m_canceled s) as Hdone
    by (unfold m_done; rewrite (pi_parent _ Hinv); apply orb_false_r).
  destruct m as [| | |j|j|j|j|]; simpl in Hm.
  - destruct (m_items s) as [|x rest] eqn:Hi; [done|].
    destruct (m_open s) eqn:Ho; [|done]. simpl in Hm. case_bool_decide; simplify_eq.
    by apply submit_inv.
  - destruct (m_items s) as [|x rest] eqn:Hi; [done|]. rewrite <- Hi in Hm.
    destruct (m_open s); [|done]. rewrite Hdone in Hm. simpl in Hm.
    destruct (m_canceled s) eqn:Hc; simplify_eq. apply close_inv; auto.
  - destruct (m_items s) as [|x rest] eqn:Hi; [|done]. rewrite <- Hi in Hm.
    destruct (m_open s); simplify_eq. apply close_inv; auto.
  - destruct (m_workers s !! j) as [[| |]|] eqn:Hj; try done.
    destruct (m_ch s) as [|[i item] ch] eqn:Hc; simplify_eq. by apply take_inv.
  - destruct (m_workers s !! j) as [[| |]|] eqn:Hj; try done. rewrite Hdone in Hm.
    destruct (m_canceled s) eqn:Hc; simplify_eq. apply stop_inv; auto.
  - destruct (m_workers s !! j) as [[| |]|] eqn:Hj; try done.
    destruct (m_ch s) eqn:Hc; [|done]. destruct (m_open s) eqn:Ho; simplify_eq. apply stop_inv; auto.
  - destruct (m_workers s !! j) as [[|i p|]|] eqn:Hj; try done. destruct p as [r| |e k|k]; simplify_eq.
    + by apply finish_inv.
    + exfalso. by destruct (pi_run _ Hinv _ _ _ Hj) as (item & _ & []).
    + by eapply advance_inv.
    + destruct (k (m_w s)) as [w' k'] eqn:Hk. simplify_eq. eapply advance_inv; [done|done|].
      intros r Hr. specialize (Hr (m_w s)). by rewrite Hk in Hr.
  - destruct (m_parent s); simplify_eq.
Qed.

(** Only the caller's context changes [m_parent]. *)
Lemma mexec_parent m s s' :
  mexec n env m s = Some s' → m_parent s' = match m with MParent => true | _ => m_parent s end.
Proof.
  intros Hm. unfold mexec in Hm. destruct (m_crashed s); [done|].
  destruct m; repeat case_match; simplify_eq; simpl; try done.
  match goal with |- m_parent (record_result n ?i ?a s) = _ =>
    by destruct (record_result_frame n i a s) as (_ & _ & _ & _ & _ & -> & _) end.
Qed.

Lemma reachable_inv w s :
  (1 ≤ mc_Concurrency (mn_config n))%Z →
  rtc (mstep n env) (minit n items w) s → m_parent s = false → pool_inv s.
Proof.
  intros Hc Hs. remember (minit n items w) as s0 eqn:E0.
  revert E0. pattern s. eapply rtc_ind_r; [|intros y z Hyz Hstep IH|exact Hs].
  - intros -> _. by apply minit_inv.
  - intros -> Hp. destruct Hstep as [m Hm]. eapply mexec_inv; [|exact Hm|exact Hp].
    apply IH; [done|]. apply mexec_parent in Hm. destruct m; congruence.
Qed.

Lemma workers_cases s :
  (∃ j i p, m_workers s !! j = Some (WRun i p)) ∨
  (∀ j x, m_workers s !! j = Some x → x = WIdle ∨ x = WStop).
Proof.
  induction (m_workers s) as [|x l [(j & i & p & Hj)|IH]]; [by right|left; by exists (S j), i, p|].
  destruct x as [|i p|].
  - right. intros [|j] x Hx; [simpl in Hx; simplify_eq; by left|by eapply IH].
  - left. by exists 0, i, p.
  - right. intros [|j] x Hx; [simpl in Hx; simplify_eq; by right|by eapply IH].
Qed.

Lemma not_all_stopped (l : list (wstate (W := W))) :
  forallb stopped l = false → ∃ j x, l !! j = Some x ∧ stopped x = false.
Proof.
  induction l as [|x l IH]; [done|]. simpl. destruct (stopped x) eqn:Hx.
  - intros (j & y & Hj & Hy)%IH. by exists (S j), y.
  - intros _. by exists 0, x.
Qed.

Lemma all_stopped (l : list (wstate (W := W))) j x :
  forallb stopped l = true → l !! j = Some x → x = WStop.
Proof.
  intros Hl Hj. rewrite List.forallb_forall in Hl.
  apply list_elem_of_lookup_2, list_elem_of_In, Hl in Hj. by destruct x.
Qed.

(** The pool is stuck only when it has returned. *)
Lemma pool_progress s :
  (1 ≤ mc_Concurrency (mn_config n))%Z → pool_inv s → returned s = false →
  ∃ m s', mexec n env m s = Some s' ∧ m_parent s' = false.
Proof.
  intros Hcap Hinv Hret.
  assert (∀ m, m ≠ MParent → is_Some (mexec n env m s) →
    ∃ m s', mexec n env m s = Some s' ∧ m_parent s' = false) as Hgo.
  { intros m Hne [s' Hm]. exists m, s'. split; [done|]. rewrite (mexec_parent m s s' Hm).
    destruct m; [..|done]; apply (pi_parent _ Hinv). }
  pose proof (pi_crash _ Hinv) as Hcr. destruct (workers_cases s) as [(j & i & p & Hj)|Hidle].
  { apply (Hgo (MAdvance j)); [done|]. unfold mexec. rewrite Hcr, Hj.
    destruct p as [| | |k]; [by eexists..|]. destruct (k (m_w s)). by eexists. }
  destruct (m_open s) eqn:Ho.
  - destruct (m_items s) as [|x rest] eqn:Hi.
    + apply (Hgo MClose); [done|]. unfold mexec. rewrite Hcr, Hi, Ho. by eexists.
    + destruct (m_canceled s) eqn:Hc.
      * apply (Hgo MBreak); [done|]. unfold mexec, m_done. rewrite Hcr, Hi, Ho, Hc. by eexists.
      * destruct (decide (Z.of_nat (length (m_ch s)) < mc_Concurrency (mn_config n))%Z) as [Hl|Hl].
        { apply (Hgo MSubmit); [done|]. unfold mexec. rewrite Hcr, Hi, Ho, bool_decide_true by done.
          by eexists. }
        destruct (m_workers s) as [|x0 ws] eqn:Hw; [by destruct (pi_count _ Hinv)|].
        assert (m_workers s !! 0 = Some x0) as H0 by (by rewrite Hw).
        destruct (Hidle 0 x0) as [->| ->]; [done| |].
        -- apply (Hgo (MTake 0)); [done|]. unfold mexec. rewrite Hcr, H0.
           destruct (m_ch s) as [|[i item] ch]; [simpl in Hl; lia|]. by eexists.
        -- destruct (pi_stop _ Hinv 0 H0) as [?|[? _]]; congruence.
  - unfold returned in Hret. rewrite Ho in Hret. simpl in Hret.
    apply not_all_stopped in Hret as (j & x & Hj & Hx).
    destruct (Hidle j x Hj) as [->| ->]; [|done].
    destruct (m_ch s) as [|[i item] ch] eqn:Hc.
    + apply (Hgo (MDrained j)); [done|]. unfold mexec. rewrite Hcr, Hj, Hc, Ho. by eexists.
    + apply (Hgo (MTake j)); [done|]. unfold mexec. rewrite Hcr, Hj, Hc. by eexists.
Qed.

(** What the pool returns. *)
Lemma pool_outcome s : pool_inv s → returned s = true →
  (settles items 0 ∧ m_outcome s = (imap (λ i item, recorded (f item i)) items, None)) ∨
  (coe = false ∧ ∃ i item err, items !! i = Some item ∧ f item i = inr err ∧
     m_err s = Some (item_error i err)).
Proof.
  intros Hinv Hret. unfold returned in Hret. apply andb_prop in Hret as [Ho Hall].
  apply negb_true_iff in Ho. unfold m_outcome.
  assert (∀ j x, m_workers s !! j = Some x → x = WStop) as Hst.
  { intros j x Hj. by eapply all_stopped. }
  destruct (m_err s) as [e|] eqn:He.
  { right. destruct (pi_fail _ Hinv e He) as (_ & Hc & i & item & err & Hi & Hf & ->). eauto 8. }
  left. destruct (pi_ok _ Hinv He) as [Hnc Hacc].
  assert (m_items s = []) as Hitems by (destruct (pi_open _ Hinv Ho); congruence).
  assert (m_ch s = []) as Hch.
  { destruct (m_workers s) as [|x ws] eqn:Hw; [by destruct (pi_count _ Hinv)|].
    assert (m_workers s !! 0 = Some x) as H0 by (by rewrite Hw).
    rewrite (Hst 0 x) in H0 by done. destruct (pi_stop _ Hinv 0 H0) as [?|[_ ?]]; congruence. }
  assert (∀ i item, items !! i = Some item →
    m_results s !! i = Some (recorded (f item i)) ∧ (coe = true ∨ ∃ v, f item i = inl v)) as Hdone.
  { intros i item Hi. destruct (Hacc i item Hi) as [Hin|[Hin|[(j & p & Hj)|?]]]; [..|done].
    - rewrite Hitems in Hin. by apply not_elem_of_nil in Hin.
    - rewrite Hch in Hin. by apply not_elem_of_nil in Hin.
    - apply Hst in Hj. done. }
  split; [intros i item Hi; by apply Hdone|]. f_equal. apply list_eq. intros i.
  rewrite list_lookup_imap. destruct (items !! i) as [item|] eqn:Hi; simpl; [by apply Hdone|].
  apply lookup_ge_None in Hi. apply lookup_ge_None. by rewrite (pi_len _ Hinv).
Qed.
End Correct.

(** C19: however the submitting loop, the workers and the mapper computations
    interleave, the worker pool of a map node ends: no schedule is infinite, and as
    long as the caller does not cancel it never blocks before it returns. What
    [Run] then returns is what it would return with the sequential loop: the same
    envelope with the results in the order of the items, or, when items fail and
    failures are not tolerated, the error of one of the failing items (the
    sequential loop reports the first). *)
Theorem map_concurrent_sequential `{World W} (n : MapNode W) (env : Envelope)
    (items : list value) (f : value → nat → value + error) (w : W) :
  (1 < mc_Concurrency (mn_config n))%Z →
  (∀ i item, items !! i = Some item → yields (processItem n env item i) (f item i)) →
  (∀ w : W, (ctx_Done w).2 = None) →
  sn (mstep n env) (minit n items w) ∧
  ∀ s, rtc (mstep n env) (minit n items w) s → m_parent s = false →
    (∃ s', mstep n env s s' ∧ m_parent s' = false) ∨
    (returned s = true ∧ ∃ out, yields (mapSequential n env items) out ∧
      match map_finish n env out with
      | inl e => map_finish n env (m_outcome s) = inl e
      | inr _ => ∃ i item err, items !! i = Some item ∧ f item i = inr err ∧
          map_finish n env (m_outcome s) = inr (item_error i err)
      end).
Proof.
  intros Hc Hf Hd. split; [apply pool_terminates|]. intros s Hs Hp.
  assert (1 ≤ mc_Concurrency (mn_config n))%Z as Hc' by lia.
  pose proof (reachable_inv n env items f Hf w s Hc' Hs Hp) as Hinv.
  destruct (returned s) eqn:Hret.
  2: { left. destruct (pool_progress n env items f s Hc' Hinv Hret) as (m & s' & Hm & Hp').
       exists s'. split; [by exists m|done]. }
  right. split; [done|].
  destruct (pool_outcome n items f s Hinv Hret) as [[Hset Hout]|(Hcoe & i & item & err & Hi & He & Hout)].
  - destruct (seq_items_yields n env f Hd items 0 (replicate (length items) VNil)) as [[_ Hy]|Hx];
      [by intros; apply Hf|by rewrite length_replicate| |].
    + exists (m_outcome s). rewrite Hout. split; [exact Hy|done].
    + destruct Hx as (Hcoe & k & item & err & Hk & He & _).
      destruct (Hset k item Hk) as [?|[v Hv]]; congruence.
  - destruct (seq_items_yields n env f Hd items 0 (replicate (length items) VNil)) as [[Hset _]|Hx];
      [by intros; apply Hf|by rewrite length_replicate| |].
    + destruct (Hset i item Hi) as [?|[v Hv]]; simpl in *; congruence.
    + destruct Hx as (_ & k & item' & err' & Hk & He' & Hy). eexists. split; [exact Hy|].
      unfold map_finish, m_outcome. rewrite Hcoe, Hout. simpl. by exists i, item, err.
Qed.

(** ** Samples *)

Section Sample.
#[local] Instance map_world : World () := {|
  time_Now w := (w, 0%Z); rand_ID w := (w, EmptyString); ctx_Done w := (w, None);
  chan_read w := (w, 0) |}.

(** Doubles integers, fails on the others. *)
Definition double (item : value) (i : nat) : value + error :=
  match item with
  | VInt z => inl (VInt (2 * z))
  | _ => inr (ESentinel "not a number")
  end.

Definition sample_map (tolerant : bool) : MapNode () :=
  NewMapNode "m" (mkMapConfig "xs" EmptyString EmptyString EmptyString 2
    (Some (λ item i, PRet (double item (Z.to_nat i)))) None tolerant false).

Definition sample_items : list value := [VInt 1; VString "a"; VInt 3].

Lemma map_concurrent_sequential_witness :
  sn (mstep (sample_map true) (NewEnvelope 0)) (minit (sample_map true) sample_items ()) ∧
  ∀ s, rtc (mstep (sample_map true) (NewEnvelope 0)) (minit (sample_map true) sample_items ()) s →
    m_parent s = false →
    (∃ s', mstep (sample_map true) (NewEnvelope 0) s s' ∧ m_parent s' = false) ∨
    (returned s = true ∧
      ∃ out, yields (mapSequential (sample_map true) (NewEnvelope 0) sample_items) out ∧
      match map_finish (sample_map true) (NewEnvelope 0) out with
      | inl e => map_finish (sample_map true) (NewEnvelope 0) (m_outcome s) = inl e
      | inr _ => ∃ i item err, sample_items !! i = Some item ∧ double item i = inr err ∧
          map_finish (sample_map true) (NewEnvelope 0) (m_outcome s) = inr (item_error i err)
      end).
Proof.
  apply map_concurrent_sequential; [done| |done].
  intros i item _. simpl. by rewrite Nat2Z.id.
Defined.

(** Runs a list of moves. *)
Fixpoint run_moves (n : MapNode ()) (env : Envelope) (ms : list mmove) (s : mstate) : option mstate :=
  match ms with
  | [] => Some s
  | m :: ms => match mexec n env m s with Some s' => run_moves n env ms s' | None => None end
  end.

(** The last item is done first; the outcome is that of the sequential loop. *)
Example pool_sample :
  (λ s, (returned s, m_outcome s)) <$>
    run_moves (sample_map true) (NewEnvelope 0)
      [MSubmit; MSubmit; MTake 0; MSubmit; MTake 1; MAdvance 1; MTake 1; MAdvance 1; MClose;
       MDrained 1; MAdvance 0; MDrained 0] (minit (sample_map true) sample_items ())
  = Some (true, ([VInt 2; VNil; VInt 6], None)).
Proof. vm_compute. reflexivity. Qed.

(** When the caller cancels, the pool returns what it has without an error, where
    the sequential loop returns the error of the context: [Run] stores the partial
    results as if the map had succeeded. *)
Example cancellation_swallowed :
  (λ s, (returned s, m_outcome s)) <$>
    run_moves (sample_map false) (NewEnvelope 0)
      [MSubmit; MTake 0; MAdvance 0; MParent; MBreak; MExit 0; MExit 1]
      (minit (sample_map false) sample_items ())
  = Some (true, ([VInt 2; VNil; VNil], None)) ∧
  map_finish (sample_map false) (NewEnvelope 0) ([VInt 2; VNil; VNil], None) =
    inl (SetVar "m_output" (VSlice [VInt 2; VNil; VNil]) (NewEnvelope 0)).
Proof. vm_compute. by split. Qed.
End Sample.
