(* ===== verification/Cache.v ===== *)
(** * The cache node (nodes/cache.go)

    A node that stores the envelopes of a wrapped node under a key computed from
    the envelope it gets. The in-memory store with its expiry is part of the world;
    JSON encoding, the template engine and the hash are parameters.

    The theorem: a cache node answers only with envelopes its wrapped node returned
    for an envelope with the same key, and with a stored one only before its expiry. *)

From stdpp Require Import gmap strings list fin_maps sorting.
From Stdlib Require Import ZArith Lia.
From S2P Require Import Prelude Values Envelope GoFmt NodeHelpers Graph Events StepController Runtime NodeProg.

(** ** Stable values *)

Definition pairs_value (kvs : list (string * value)) : value :=
  VSlice (mjoin (map (λ kv, [VString kv.1; kv.2]) (merge_sort key_le kvs))).

(** The element of an artifact, from its fields already made stable. *)
Definition stable_artifact (f : gmap string value) : value :=
  let field k := default VNil (f !! k) in
  pairs_value [("id", field "ID"); ("type", field "Type"); ("text", field "Text"); ("meta", field "Meta")].

(** An artifact is a struct inside the slice of artifacts. *)
Fixpoint toStableValue (v : value) : value :=
  match v with
  | VMap m => pairs_value (map_fold (λ k x acc, (k, toStableValue x) :: acc) [] m)
  | VNilMap => VSlice []
  | VSlice l => VSlice (map toStableValue l)
  | VSliceOf elem l =>
      if bool_decide (elem = "core.Artifact") then
        VSlice (map (λ a, match a with
                          | VStruct _ f => stable_artifact (toStableValue <$> f)
                          | _ => a
                          end) l)
      else v
  | _ => v
  end.

(** ** The store *)

(** [ce_expiresAt = None] is the zero time: no expiry. *)
Record cacheEntry := mkEntry {
  ce_envelope : option Envelope; ce_storedAt : Z; ce_expiresAt : option Z
}.

Notation entries := (gmap string cacheEntry).

(** The store is a part of the world that reading the clock and the context keep. *)
Class CacheHost (W : Type) `{World W} := {
  cache_entries : W → entries;
  set_entries : entries → W → W;
  entries_set m w : cache_entries (set_entries m w) = m;
  entries_now w : cache_entries (time_Now w).1 = cache_entries w;
  entries_done w : cache_entries (ctx_Done w).1 = cache_entries w
}.

Definition expired (now : Z) (e : cacheEntry) : bool :=
  match ce_expiresAt e with Some t => (t <? now)%Z | None => false end.

Definition new_entry (env : option Envelope) (now ttl : Z) : cacheEntry :=
  mkEntry env now (if (0 <? ttl)%Z then Some (now + ttl)%Z else None).

Section Store.
Context {W : Type} `{CacheHost W}.

Definition Get (key : string) : Prog W (option (option Envelope) + error) :=
  d ← act ctx_Done;
  match d with
  | Some err => mret (inr err)
  | None =>
      m ← act (λ w, (w, cache_entries w));
      match m !! key with
      | None => mret (inl None)
      | Some entry =>
          match ce_expiresAt entry with
          | None => mret (inl (Some (ce_envelope entry)))
          | Some t =>
              now ← act time_Now;
              if (t <? now)%Z then
                act (λ w, (set_entries (delete key (cache_entries w)) w, tt));;
                mret (inl None)
              else mret (inl (Some (ce_envelope entry)))
          end
      end
  end.

Definition Set_ (key : string) (env : option Envelope) (ttl : Z) : Prog W (option error) :=
  d ← act ctx_Done;
  match d with
  | Some err => mret (Some err)
  | None =>
      now ← act time_Now;
      act (λ w, (set_entries (<[key := new_entry env now ttl]> (cache_entries w)) w, tt));;
      mret None
  end.

Definition Delete (key : string) : Prog W (option error) :=
  d ← act ctx_Done;
  match d with
  | Some err => mret (Some err)
  | None => act (λ w, (set_entries (delete key (cache_entries w)) w, tt));; mret None
  end.

Definition Size (w : W) : nat := size (cache_entries w).
Definition Clear (w : W) : W := set_entries ∅ w.
Definition Keys (w : W) : list string := sort_Strings (map fst (map_to_list (cache_entries w))).

Definition Prune (w : W) : W * nat :=
  let '(w1, now) := time_Now w in
  let live := filter (λ kv, expired now kv.2 = false) (cache_entries w1) in
  (set_entries live w1, size (cache_entries w1) - size live).
End Store.

(** ** The node *)

(** The store, given or created, is the one of the world. *)
Record CacheNodeConfig (W : Type) := mkCacheConfig {
  cn_CacheKey : string;
  cn_InputVars : list string;
  cn_WrappedNode : option (Node W);
  cn_TTL : Z;
  cn_OutputVar : string;
  cn_IncludeArtifacts : bool;
  cn_IncludeInput : bool
}.
Arguments mkCacheConfig {W}.
Arguments cn_CacheKey {W}.
Arguments cn_InputVars {W}.
Arguments cn_WrappedNode {W}.
Arguments cn_TTL {W}.
Arguments cn_OutputVar {W}.
Arguments cn_IncludeArtifacts {W}.
Arguments cn_IncludeInput {W}.

Record CacheNode (W : Type) := mkCacheNode { cn_ID : string; cn_config : CacheNodeConfig W }.
Arguments mkCacheNode {W}.
Arguments cn_ID {W}.
Arguments cn_config {W}.

Definition NewCacheNode {W} (id : string) (config : CacheNodeConfig W) : CacheNode W := mkCacheNode id config.

(** The libraries the key is computed with. *)
Class KeyLibs := {
  key_json :: JsonEncoder;
  key_template :: TemplateEngine;
  sha256_hex : string → string
}.

Section Node.
Context {W : Type} `{CacheHost W} `{KeyLibs}.
Implicit Types (n : CacheNode W) (env : Envelope).

Definition vars_any env : value := match env_Vars env with Some m => VMap m | None => VNilMap end.

Definition computeStableHash (data : value) : string + error :=
  match json_Marshal (toStableValue data) with
  | inl bytes => inl (sha256_hex bytes)
  | inr err => inr (EFmt [PS "failed to marshal data for hashing: "; PW err])
  end.

Definition hash_data n env : gmap string value :=
  let c := cn_config n in
  let vars :=
    if bool_decide (0 < length (cn_InputVars c)) then
      VMap (foldl (λ m name, match GetVar env name with Some v => <[name := v]> m | None => m end) ∅ (cn_InputVars c))
    else vars_any env in
  let data : gmap string value := if cn_IncludeInput c then {[ "input" := env_Input env ]} else ∅ in
  let data := <["vars" := vars]> data in
  if cn_IncludeArtifacts c
  then <["artifacts" := VSliceOf "core.Artifact" (artifactsToAny (env_Artifacts env))]> data else data.

Definition computeCacheKeyHash n env : string + error :=
  match computeStableHash (VMap (hash_data n env)) with
  | inl hash => inl (cn_ID n ^^ ":" ^^ hash)
  | inr err => inr err
  end.

(** The errors of parsing and of executing the template are not distinguished. *)
Definition renderCacheKeyTemplate n env : string + error :=
  match template_render (cn_CacheKey (cn_config n)) {[ "input" := env_Input env; "vars" := vars_any env ]} with
  | inl text => inl (cn_ID n ^^ ":" ^^ text)
  | inr err => inr err
  end.

Definition generateCacheKey n env : string + error :=
  if bool_decide (cn_CacheKey (cn_config n) ≠ EmptyString) then renderCacheKeyTemplate n env
  else computeCacheKeyHash n env.

Definition cache_error n (ps : list part) : error := EFmt (PS "cache node " :: PS (cn_ID n) :: PS ": " :: ps).

(** [CacheResult] as a value; [None] is the zero time. *)
Definition CacheResult (hit : bool) (key : string) (storedAt expiresAt : option Z) : value :=
  let time t := VStruct "time.Time" (match t with Some z => {[ "ns" := VInt64 z ]} | None => ∅ end) in
  VStruct "nodes.CacheResult" (list_to_map [("Hit", VBool hit); ("Key", VString key);
    ("StoredAt", time storedAt); ("ExpiresAt", time expiresAt)]).

(** A clone of the envelope with the metadata; [SetVar] on nil panics. *)
Definition answer n (env : option Envelope) (meta : value) : Prog W (option Envelope + error) :=
  if bool_decide (cn_OutputVar (cn_config n) ≠ EmptyString) then
    match Clone env with
    | Some e => mret (inl (Some (SetVar (cn_OutputVar (cn_config n)) meta e)))
    | None => PPanic
    end
  else mret (inl (Clone env)).

(** The envelope a node returns, [None] for nil. *)
Definition returned_env (arg : Envelope) (r : run_result) : option Envelope + error :=
  match r with
  | RSame => inl (Some arg)
  | RNew e => inl (Some e)
  | RNil => inl None
  | RErr err => inr err
  end.

Definition cache_miss n env (key : string) : Prog W (option Envelope + error) :=
  match cn_WrappedNode (cn_config n) with
  | None => mret (inr (cache_error n [PS "no wrapped node configured"]))
  | Some node =>
      r ← of_node (n_Run node env);
      match returned_env r.1 r.2 with
      | inr err => mret (inr (cache_error n [PS "wrapped node failed: "; PW err]))
      | inl resultEnv =>
          storedAt ← act time_Now;
          let ttl := cn_TTL (cn_config n) in
          let expiresAt := if (0 <? ttl)%Z then Some (storedAt + ttl)%Z else None in
          err ← Set_ key (Clone resultEnv) ttl;
          match err with
          | Some err => mret (inr (cache_error n [PS "failed to store in cache: "; PW err]))
          | None => answer n resultEnv (CacheResult false key (Some storedAt) expiresAt)
          end
      end
  end.

Definition Run n env : Prog W (option Envelope + error) :=
  d ← act ctx_Done;
  match d with
  | Some err => mret (inr err)
  | None =>
      match generateCacheKey n env with
      | inr err => mret (inr (cache_error n [PS "failed to generate cache key: "; PW err]))
      | inl key =>
          cached ← Get key;
          match cached with
          | inr err => mret (inr (cache_error n [PS "failed to get from cache: "; PW err]))
          | inl (Some cachedEnv) => answer n cachedEnv (CacheResult true key None None)
          | inl None => cache_miss n env key
          end
      end
  end.
End Node.

(** ** Keys built by hand *)

Section KeyBuilder.
Context `{KeyLibs} `{Printer}.

(** [parts] of the builder; no value of the model is a [fmt.Stringer]. *)
Definition CacheKeyBuilder := list string.
Definition NewCacheKeyBuilder : CacheKeyBuilder := [].

Definition part_text (v : value) : string :=
  match v with
  | VString s => s
  | _ => match json_Marshal v with inl bytes => bytes | inr _ => Sprint v end
  end.

Definition Add (key : string) (v : value) (b : CacheKeyBuilder) : CacheKeyBuilder :=
  b ++ [key ^^ "=" ^^ part_text v].

(** [Build] sorts the parts in place. *)
Definition Build (b : CacheKeyBuilder) : CacheKeyBuilder * string :=
  let parts := sort_Strings b in (parts, GoStr.Join parts "&").

Definition Hash (b : CacheKeyBuilder) : CacheKeyBuilder * string :=
  let '(b', key) := Build b in (b', sha256_hex key).

(** The order of the calls of [Add] does not change the key. *)
Lemma key_parts_order (kvs kvs' : list (string * value)) :
  kvs ≡ₚ kvs' →
  Hash (foldl (λ b kv, Add kv.1 kv.2 b) NewCacheKeyBuilder kvs) =
  Hash (foldl (λ b kv, Add kv.1 kv.2 b) NewCacheKeyBuilder kvs').
Proof.
  assert (∀ l b, foldl (λ b kv, Add kv.1 kv.2 b) b l = b ++ map (λ kv, kv.1 ^^ "=" ^^ part_text kv.2) l) as Hfold.
  { induction l as [|kv l IH]; intros b; simpl; [by rewrite app_nil_r|].
    rewrite IH. unfold Add. by rewrite <- app_assoc. }
  intros Hp. rewrite !Hfold. unfold Hash, Build. by rewrite (sort_Strings_canonical _ _ (Permutation_app_head _ (fmap_Permutation _ _ _ Hp))).
Qed.
End KeyBuilder.

(** ** The node for tests *)

(** Its fields that change are the count of calls. *)
Record MockNode := mkMock { mn_ID : string; mn_ReturnValue : value; mn_ReturnError : option error; mn_CallCount : Z }.

Definition NewMockNode (id : string) (returnValue : value) : MockNode := mkMock id returnValue None 0.

Definition MockRun (n : MockNode) (env : Envelope) : MockNode * (Envelope + error) :=
  let n' := mkMock (mn_ID n) (mn_ReturnValue n) (mn_ReturnError n) (mn_CallCount n + 1) in
  (n', match mn_ReturnError n with
       | Some err => inr err
       | None =>
           let result := default env (Clone (Some env)) in
           inl (match mn_ReturnValue n with VNil => result | v => SetVar "mock_result" v result end)
       end).

Definition GetCallCount (n : MockNode) : Z := mn_CallCount n.

(** ** What a cache node answers *)

Section Sound.
Context {W : Type} `{CacheHost W} `{KeyLibs} (n : CacheNode W).
Implicit Types (env e : Envelope).

(** The wrapped node returned [r] for [e] in some world. *)
Definition computes e (r : option Envelope) : Prop :=
  ∃ node w w' arg rr, cn_WrappedNode (cn_config n) = Some node ∧
    exec (of_node (n_Run node e)) w = (w', Some (arg, rr)) ∧ returned_env arg rr = inl r.

(** Every stored envelope was computed for an envelope with its key. *)
Definition cache_ok (m : entries) : Prop :=
  ∀ key entry, m !! key = Some entry →
    ∃ e, generateCacheKey n e = inl key ∧ computes e (ce_envelope entry).

(** The wrapped node does not write the entries of this node. *)
Definition keeps_entries : Prop :=
  ∀ node e w, cn_WrappedNode (cn_config n) = Some node →
    cache_entries (exec (of_node (n_Run node e)) w).1 = cache_entries w.

(** [result] is [r] with the metadata. *)
Definition tagged (r : option Envelope) (meta : value) (result : option Envelope) : Prop :=
  result = (if bool_decide (cn_OutputVar (cn_config n) = EmptyString) then r
            else SetVar (cn_OutputVar (cn_config n)) meta <$> r).

Lemma Clone_id (env : option Envelope) : Clone env = env.
Proof. by destruct env as [[]|]. Qed.

Lemma answer_spec r meta w w' res : exec (answer n r meta) w = (w', Some res) →
  w' = w ∧ ∃ result, res = inl result ∧ tagged r meta result.
Proof.
  unfold answer, tagged. rewrite Clone_id. case_bool_decide as Ho.
  - rewrite (bool_decide_false _ Ho). destruct r as [e|]; [|done]. intros [= <- <-]. eauto.
  - rewrite bool_decide_true by done. intros [= <- <-]. eauto.
Qed.

(** The answer of the store. *)
Lemma Get_spec key w w' res : exec (Get key) w = (w', Some res) →
  match res with
  | inr _ => cache_entries w' = cache_entries w
  | inl (Some r) => cache_entries w' = cache_entries w ∧ ∃ entry,
      cache_entries w !! key = Some entry ∧ ce_envelope entry = r ∧
      ∀ t, ce_expiresAt entry = Some t → ∃ w1, ((time_Now w1).2 ≤ t)%Z
  | inl None => cache_entries w' = cache_entries w ∨ cache_entries w' = delete key (cache_entries w)
  end.
Proof.
  unfold Get. rewrite exec_bind, exec_act. destruct (ctx_Done w).2 as [err|].
  { intros [= <- <-]. apply entries_done. }
  rewrite exec_bind, exec_act. cbn beta iota. simpl fst. simpl snd. rewrite entries_done.
  destruct (cache_entries w !! key) as [entry|] eqn:Hk; [|intros [= <- <-]; left; apply entries_done].
  destruct (ce_expiresAt entry) as [t|] eqn:Ht.
  2: { intros [= <- <-]. split; [apply entries_done|]. exists entry. split_and!; [done|done|]. by rewrite Ht. }
  rewrite exec_bind, exec_act. destruct (Z.ltb_spec t (time_Now (ctx_Done w).1).2) as [Hlt|Hle].
  - rewrite exec_bind, exec_act. intros [= <- <-]. right.
    simpl. by rewrite entries_set, entries_now, entries_done.
  - intros [= <- <-]. split; [by rewrite entries_now, entries_done|].
    exists entry. split_and!; [done|done|]. rewrite Ht. intros ? [= <-]. eauto.
Qed.

Lemma Set_spec key r ttl w w' res : exec (Set_ key r ttl) w = (w', Some res) →
  match res with
  | Some _ => cache_entries w' = cache_entries w
  | None => ∃ now, cache_entries w' = <[key := new_entry r now ttl]> (cache_entries w)
  end.
Proof.
  unfold Set_. rewrite exec_bind, exec_act. destruct (ctx_Done w).2 as [err|].
  { intros [= <- <-]. apply entries_done. }
  rewrite exec_bind, exec_act. rewrite exec_bind, exec_act. intros [= <- <-].
  eexists. simpl. by rewrite entries_set, entries_now, entries_done.
Qed.

Lemma cache_ok_delete key m : cache_ok m → cache_ok (delete key m).
Proof. intros Hm k entry [_ Hk]%lookup_delete_Some. by apply Hm. Qed.

Lemma cache_ok_insert key m env entry : cache_ok m → generateCacheKey n env = inl key →
  computes env (ce_envelope entry) → cache_ok (<[key := entry]> m).
Proof.
  intros Hm Hkey Hc k x [[<- <-]|[_ Hk]]%lookup_insert_Some; [eauto|by apply Hm].
Qed.

(** A miss: what is answered is stored. *)
Lemma cache_miss_spec key env w w' res : keeps_entries → cache_ok (cache_entries w) →
  generateCacheKey n env = inl key → exec (cache_miss n env key) w = (w', Some res) →
  cache_ok (cache_entries w') ∧
  ∀ result, res = inl result → ∃ r now storedAt expiresAt, computes env r ∧
    tagged r (CacheResult false key (Some storedAt) expiresAt) result ∧
    cache_entries w' !! key = Some (new_entry r now (cn_TTL (cn_config n))).
Proof.
  intros Hkeep Hok Hkey. unfold cache_miss.
  destruct (cn_WrappedNode (cn_config n)) as [node|] eqn:Hn; [|by intros [= <- <-]].
  rewrite exec_bind. pose proof (Hkeep node env w Hn) as Hent.
  destruct (exec (of_node (n_Run node env)) w) as [w1 [[arg rr]|]] eqn:Hrun; [|done]. simpl in Hent. simpl fst. simpl snd.
  destruct (returned_env arg rr) as [r|err] eqn:Hr; [|intros [= <- <-]; by rewrite Hent].
  rewrite exec_bind, exec_act, exec_bind, Clone_id.
  set (w2 := (time_Now w1).1). assert (cache_entries w2 = cache_entries w) as Hw2 by (unfold w2; by rewrite entries_now).
  destruct (exec (Set_ key r (cn_TTL (cn_config n))) w2) as [w3 [[err|]|]] eqn:Hset; [| |done];
    apply Set_spec in Hset.
  { intros [= <- <-]. by rewrite Hset, Hw2. }
  destruct Hset as [now Hset]. intros Hans. apply answer_spec in Hans as (-> & result & -> & Htag).
  assert (computes env r) as Hc by (repeat eexists; eauto).
  rewrite Hset, Hw2. split; [by eapply cache_ok_insert|].
  intros ? [= <-]. do 4 eexists. split_and!; [done|exact Htag|]. apply lookup_insert_eq.
Qed.

End Sound.

(** ** Samples *)

Section Sample.

Record clock_world := mkClock { cw_now : Z; cw_entries : entries }.

#[local] Instance clock_World : World clock_world := {
  time_Now w := (mkClock (cw_now w + 1) (cw_entries w), cw_now w);
  rand_ID w := (w, "id");
  ctx_Done w := (w, None);
  chan_read w := (w, 0)
}.

#[local] Instance clock_host : CacheHost clock_world := {
  cache_entries := cw_entries;
  set_entries m w := mkClock (cw_now w) m;
  entries_set m w := eq_refl;
  entries_now w := eq_refl;
  entries_done w := eq_refl
}.

(** A writer that shows the structure, the identity as the hash. *)
#[local] Instance sample_printer : Printer := {| print_pointer _ := ""; print_struct ty _ := ty |}.
#[local] Instance sample_libs : KeyLibs := {
  key_json := {| json_Marshal v := inl (Sprint v) |};
  key_template := {| template_render t _ := inl t |};
  sha256_hex s := s
}.

(** Appends [!] to the variable [q]. *)
Definition shout : Node clock_world :=
  mkNode "shout" "noop" false (λ env, NRet env (RNew (SetVar "q" (VString (GetVarString env "q" ^^ "!")) env))).

Definition sample_cache (ttl : Z) : CacheNode clock_world :=
  NewCacheNode "c" (mkCacheConfig "" ["q"] (Some shout) ttl "meta" false false).

Definition asking (q : string) : Envelope := SetVar "q" (VString q) (NewEnvelope 0).

(** The variable and whether it was a hit, for runs one after the other. *)
Definition run_cache (n : CacheNode clock_world) (envs : list Envelope) (w : clock_world) : list (string * bool) :=
  (foldl (λ '(w, acc) env,
     match exec (Run n env) w with
     | (w', Some (inl (Some e))) =>
         (w', acc ++ [(GetVarString e "q", match GetVar e "meta" with
                                           | Some (VStruct _ f) => match f !! "Hit" with Some (VBool b) => b | _ => false end
                                           | _ => false end)])
     | (w', _) => (w', acc)
     end) (w, []) envs).2.

Example cache_runs :
  run_cache (sample_cache 3) [asking "a"; asking "b"; asking "a"; asking "a"; asking "a"; asking "a"] (mkClock 0 ∅) =
  [("a!", false); ("b!", false); ("a!", true); ("a!", false); ("a!", true); ("a!", true)].
Proof. vm_compute. reflexivity. Qed.


(** A map and the list of its keys and values have the same key, so that the one
    gets the answer computed for the other. *)
Definition asking_value (v : value) : Envelope := SetVar "q" v (NewEnvelope 0).

Example stable_collision :
  generateCacheKey (sample_cache 0) (asking_value (VMap {[ "x" := VInt 1 ]})) =
  generateCacheKey (sample_cache 0) (asking_value (VSlice [VString "x"; VInt 1])).
Proof. vm_compute. reflexivity. Qed.
End Sample.
