(* ===== verification/Human.v ===== *)
(** * The human node and its handlers (nodes/human.go)

    A node that asks a person and waits: the request it builds, the handler it
    calls under a timeout, what it does with the answer or the lack of one. The
    handlers that answer at once are functions; those that exchange requests and
    responses with other goroutines are transition systems over interleaved calls,
    one move for every channel operation or critical section. Responses are
    distinct objects, as callers allocate them.

    The theorems: a human node continues a run only with an answer or with a
    timeout it is configured to pass over, and the queued handler returns to every
    request a response that was accepted for it. *)

From stdpp Require Import gmap strings list fin_maps.
From Stdlib Require Import ZArith Lia.
From S2P Require Import Prelude Values Envelope GoFmt NodeHelpers Graph Events StepController Runtime NodeProg.

(** ** Requests and responses *)

Definition HumanRequestApproval := "approval".
Definition HumanRequestChoice := "choice".
Definition HumanRequestEdit := "edit".
Definition HumanRequestInput := "input".
Definition HumanRequestReview := "review".

Definition HumanTimeoutFail := "fail".
Definition HumanTimeoutDefault := "default".
Definition HumanTimeoutSkip := "skip".

Record HumanOption := mkHumanOption { ho_ID : string; ho_Label : string; ho_Description : string }.

Record HumanRequest := mkHumanRequest {
  hq_ID : string;
  hq_Type : string;
  hq_Prompt : string;
  hq_Data : gmap string value;
  hq_Options : list HumanOption;
  hq_Schema : option (gmap string value);
  hq_Timeout : Z;
  hq_CreatedAt : Z;
  hq_EnvelopeRef : string
}.

(** [None] for the zero time. *)
Record HumanResponse := mkHumanResponse {
  hr_RequestID : string;
  hr_Choice : string;
  hr_Data : value;
  hr_Notes : string;
  hr_Approved : bool;
  hr_RespondedBy : string;
  hr_RespondedAt : option Z;
  hr_Meta : gmap string value
}.

(** The pointer as a dynamic value. *)
Definition response_value (r : HumanResponse) : value :=
  VStruct "*nodes.HumanResponse" (list_to_map [("RequestID", VString (hr_RequestID r));
    ("Choice", VString (hr_Choice r)); ("Data", hr_Data r); ("Notes", VString (hr_Notes r));
    ("Approved", VBool (hr_Approved r)); ("RespondedBy", VString (hr_RespondedBy r));
    ("RespondedAt", match hr_RespondedAt r with Some t => VInt64 t | None => VNil end); ("Meta", VMap (hr_Meta r))]).

Definition DeadlineExceeded : error := ESentinel "context deadline exceeded".

(** [err == context.DeadlineExceeded]. *)
Definition is_deadline (err : option error) : bool :=
  match err with Some (ESentinel m) => bool_decide (m = "context deadline exceeded") | _ => false end.

(** [HumanHandler]: the response, [None] for a nil one. *)
Definition HumanHandler (W : Type) : Type := HumanRequest → Prog W (option HumanResponse + error).

(** ** The node *)

Record HumanNodeConfig (W : Type) := mkHumanConfig {
  hc_RequestType : string;
  hc_Prompt : string;
  hc_PromptTemplate : string;
  hc_InputVars : list string;
  hc_OutputVar : string;
  hc_Options : list HumanOption;
  hc_Schema : option (gmap string value);
  hc_Timeout : Z;
  hc_OnTimeout : string;
  hc_DefaultOption : string;
  hc_Handler : option (HumanHandler W)
}.
Arguments mkHumanConfig {W}.
Arguments hc_RequestType {W}.
Arguments hc_Prompt {W}.
Arguments hc_PromptTemplate {W}.
Arguments hc_InputVars {W}.
Arguments hc_OutputVar {W}.
Arguments hc_Options {W}.
Arguments hc_Schema {W}.
Arguments hc_Timeout {W}.
Arguments hc_OnTimeout {W}.
Arguments hc_DefaultOption {W}.
Arguments hc_Handler {W}.

Record HumanNode (W : Type) := mkHuman { hn_ID : string; hn_config : HumanNodeConfig W }.
Arguments mkHuman {W}.
Arguments hn_ID {W}.
Arguments hn_config {W}.

Definition NewHumanNode {W} (id : string) (c : HumanNodeConfig W) : HumanNode W :=
  mkHuman id (mkHumanConfig
    (if bool_decide (hc_RequestType c = EmptyString) then HumanRequestApproval else hc_RequestType c)
    (hc_Prompt c) (hc_PromptTemplate c) (hc_InputVars c) (hc_OutputVar c) (hc_Options c) (hc_Schema c) (hc_Timeout c)
    (if bool_decide (hc_OnTimeout c = EmptyString) then HumanTimeoutFail else hc_OnTimeout c)
    (hc_DefaultOption c) (hc_Handler c)).

Section Node.
Context {W : Type} `{Timeouts W} `{TemplateEngine} `{RangeOrder}.
Implicit Types (n : HumanNode W) (env : Envelope).

Definition human_error n (ps : list part) : error := EFmt (PS "human node " :: PS (hn_ID n) :: PS ": " :: ps).

Definition trace_value (t : TraceInfo) : value :=
  VStruct "core.TraceInfo" (list_to_map [("RunID", VString (tr_RunID t)); ("ParentID", VString (tr_ParentID t));
    ("SpanID", VString (tr_SpanID t)); ("TraceID", VString (tr_TraceID t)); ("Started", VInt64 (tr_Started t))]).

(** Parsing and executing the template are one operation of the engine. *)
Definition buildPrompt n env : string + error :=
  if bool_decide (hc_PromptTemplate (hn_config n) ≠ EmptyString) then
    template_render (hc_PromptTemplate (hn_config n))
      {[ "input" := env_Input env;
         "vars" := match env_Vars env with Some m => VMap m | None => VNilMap end;
         "trace" := trace_value (env_Trace env) ]}
  else inl (hc_Prompt (hn_config n)).

Definition buildRequestData n env : gmap string value :=
  if bool_decide (0 < length (hc_InputVars (hn_config n))) then
    foldl (λ data name, match GetVar env name with Some v => <[name := v]> data | None => data end) ∅
      (hc_InputVars (hn_config n))
  else match env_Vars env with Some m => m | None => ∅ end.

(** A response the node makes up when the time is over. *)
Definition timeout_response (id choice : string) (approved : bool) (now : Z) (how : string) : HumanResponse :=
  mkHumanResponse id choice VNil EmptyString approved EmptyString (Some now) {[ "timeout" := VBool true; how := VBool true ]}.

Definition set_output n (v : value) env : Envelope :=
  if bool_decide (hc_OutputVar (hn_config n) ≠ EmptyString) then SetVar (hc_OutputVar (hn_config n)) v env else env.

Definition approves (option : string) : bool :=
  bool_decide (option = "approve") || bool_decide (option = "yes").

Definition handleTimeout n env (req : HumanRequest) : Prog W (Envelope + error) :=
  let c := hn_config n in
  if bool_decide (hc_OnTimeout c = HumanTimeoutFail) then
    mret (inr (human_error n [PS "request timed out after "; PD (hc_Timeout c)]))
  else if bool_decide (hc_OnTimeout c = HumanTimeoutDefault) then
    if bool_decide (hc_DefaultOption c = EmptyString) then
      mret (inr (human_error n [PS "timeout with default action but no DefaultOption configured"]))
    else
      now ← act time_Now;
      mret (inl (set_output n (response_value
        (timeout_response (hq_ID req) (hc_DefaultOption c) (approves (hc_DefaultOption c)) now "default")) env))
  else if bool_decide (hc_OnTimeout c = HumanTimeoutSkip) then
    if bool_decide (hc_OutputVar c ≠ EmptyString) then
      now ← act time_Now;
      mret (inl (set_output n (response_value (timeout_response (hq_ID req) EmptyString false now "skipped")) env))
    else mret (inl env)
  else mret (inr (human_error n [PS "unknown timeout action: "; PS (hc_OnTimeout c)])).

(** What the answer is stored as; a nil answer to an approval or edit request is
    dereferenced. *)
Definition store_answer n env (resp : option HumanResponse) : Prog W (Envelope + error) :=
  let c := hn_config n in
  let result := set_output n (match resp with Some r => response_value r | None => VNil end) env in
  let approval := bool_decide (hc_RequestType c = HumanRequestApproval) in
  let edit := bool_decide (hc_RequestType c = HumanRequestEdit) in
  match resp with
  | None => if approval || edit then PPanic else mret (inl result)
  | Some r =>
      let result := if approval then SetVar (hc_OutputVar c ^^ "_approved") (VBool (hr_Approved r)) result else result in
      mret (inl (match edit, hr_Data r with
                 | true, VMap edited =>
                     foldl (λ e kv, SetVar kv.1 kv.2 e) result (range_map ("human edit " ^^ hn_ID n) edited)
                 | _, _ => result
                 end))
  end.

Definition new_request n env (id prompt : string) (now : Z) : HumanRequest :=
  let c := hn_config n in
  mkHumanRequest id (hc_RequestType c) prompt (buildRequestData n env) (hc_Options c) (hc_Schema c) (hc_Timeout c) now
    (tr_RunID (env_Trace env)).

(** From the call of the handler on, in the context the handler gets. *)
Definition ask n env (handler : HumanHandler W) (req : HumanRequest) : Prog W (Envelope + error) :=
  r ← handler req;
  match (r : option HumanResponse + error) with
  | inl resp => store_answer n env resp
  | inr err =>
      d ← act ctx_Done;
      if is_deadline d then handleTimeout n env req
      else mret (inr (human_error n [PS "handler error: "; PW err]))
  end.

Definition Run n env : Prog W (Envelope + error) :=
  let c := hn_config n in
  d ← act ctx_Done;
  match d with
  | Some err => mret (inr err)
  | None =>
      match hc_Handler c with
      | None => mret (inr (human_error n [PS "no handler configured"]))
      | Some handler =>
          match buildPrompt n env with
          | inr err => mret (inr (human_error n [PS "failed to build prompt: "; PW err]))
          | inl prompt =>
              id ← act rand_ID;
              now ← act time_Now;
              let req := new_request n env id prompt now in
              if (0 <? hc_Timeout c)%Z then
                act (λ w, (ctx_WithTimeout (hc_Timeout c) w, tt));;
                r ← ask n env handler req;
                act (λ w, (ctx_cancel w, tt));;
                mret r
              else ask n env handler req
          end
      end
  end.
End Node.

(** ** Handlers that answer at once *)

Section Handlers.
Context {W : Type} `{World W}.

(** [CallbackHumanHandler]. *)
Definition NewCallbackHumanHandler (callback : option (HumanHandler W)) : HumanHandler W := λ req,
  match callback with
  | None => mret (inr (EFmt [PS "no callback configured"]))
  | Some f => f req
  end.

Record AutoApproveHandler := mkAutoApprove {
  aa_Approved : bool; aa_Choice : string; aa_Data : value; aa_Notes : string; aa_RespondedBy : string; aa_Delay : Z
}.

Definition NewAutoApproveHandler : AutoApproveHandler := mkAutoApprove true "" VNil "" "auto" 0.
Definition NewAutoRejectHandler : AutoApproveHandler := mkAutoApprove false "" VNil "" "auto" 0.

(** The choice reported when none is configured. *)
Definition auto_choice (h : AutoApproveHandler) : string :=
  if bool_decide (aa_Choice h = EmptyString) then if aa_Approved h then "approve" else "reject" else aa_Choice h.

(** [select] on the timer and the context: the error when the context was first. *)
Definition auto_request (after : Z → W → W * option error) (h : AutoApproveHandler) : HumanHandler W := λ req,
  d ← (if (0 <? aa_Delay h)%Z then act (after (aa_Delay h)) else mret None);
  match (d : option error) with
  | Some err => mret (inr err)
  | None =>
      now ← act time_Now;
      mret (inl (Some (mkHumanResponse (hq_ID req) (auto_choice h) (aa_Data h) (aa_Notes h) (aa_Approved h)
        (aa_RespondedBy h) (Some now) ∅)))
  end.
End Handlers.

(** ** What a human node continues with *)

Section Gate.
Context {W : Type} `{Timeouts W} `{TemplateEngine} `{RangeOrder}.
Implicit Types (n : HumanNode W) (env e : Envelope).

(** The envelope carries the answer. *)
Definition answered n (resp : option HumanResponse) e : Prop :=
  (hc_RequestType (hn_config n) = HumanRequestApproval →
     ∃ r, resp = Some r ∧ GetVar e (hc_OutputVar (hn_config n) ^^ "_approved") = Some (VBool (hr_Approved r))) ∧
  (hc_RequestType (hn_config n) ≠ HumanRequestEdit → hc_OutputVar (hn_config n) ≠ EmptyString →
     GetVar e (hc_OutputVar (hn_config n)) = Some (match resp with Some r => response_value r | None => VNil end)).

(** The handler ended in some world with this result. *)
Definition handled (handler : HumanHandler W) (req : HumanRequest) (r : option HumanResponse + error) : Prop :=
  ∃ w w', exec (handler req) w = (w', Some r).

Lemma approved_ne (v : string) : v ≠ v ^^ "_approved".
Proof. induction v as [|c v IH]; [done|]. intros [= Hx]. by apply IH. Qed.

Lemma store_answer_answered n env resp w w' e :
  exec (store_answer n env resp) w = (w', Some (inl e)) → answered n resp e.
Proof.
  unfold store_answer, answered. set (c := hn_config n).
  assert (∀ v, hc_OutputVar c ≠ EmptyString → GetVar (set_output n v env) (hc_OutputVar c) = Some v) as Hout.
  { intros v Hne. unfold set_output. rewrite bool_decide_true by done. apply GetVar_SetVar_eq. }
  destruct resp as [r|].
  - intros [= _ <-]. split.
    + intros Hap. rewrite (bool_decide_true (_ = HumanRequestApproval)), (bool_decide_false (_ = HumanRequestEdit))
        by (by rewrite ?Hap). exists r. split; [done|]. apply GetVar_SetVar_eq.
    + intros Hed Hne. rewrite (bool_decide_false (_ = HumanRequestEdit)) by done.
      case_bool_decide; [rewrite GetVar_SetVar_ne by apply not_eq_sym, approved_ne|]; by apply Hout.
  - repeat case_bool_decide; simpl; try discriminate. intros [= _ <-]. split; [done|]. intros _. apply Hout.
Qed.

Lemma handleTimeout_continues n env req w w' e :
  exec (handleTimeout n env req) w = (w', Some (inl e)) →
  (hc_OnTimeout (hn_config n) = HumanTimeoutDefault ∧ hc_DefaultOption (hn_config n) ≠ EmptyString ∨
   hc_OnTimeout (hn_config n) = HumanTimeoutSkip) ∧
  ∀ x, x ≠ hc_OutputVar (hn_config n) → GetVar e x = GetVar env x.
Proof.
  assert (∀ v x, x ≠ hc_OutputVar (hn_config n) → GetVar (set_output n v env) x = GetVar env x) as Hout.
  { intros v x Hx. unfold set_output. case_bool_decide; [by apply GetVar_SetVar_ne|done]. }
  unfold handleTimeout. case_bool_decide; [discriminate|]. case_bool_decide as Hdef.
  { case_bool_decide; [discriminate|]. rewrite exec_bind, exec_act. intros [= _ <-]. auto. }
  case_bool_decide as Hskip; [|discriminate]. case_bool_decide.
  - rewrite exec_bind, exec_act. intros [= _ <-]. auto.
  - intros [= _ <-]. auto.
Qed.

(** The node went on with an answer, or over a timeout it may pass. *)
Definition continues n env (handler : HumanHandler W) (req : HumanRequest) e : Prop :=
  (∃ resp, handled handler req (inl resp) ∧ answered n resp e) ∨
  (∃ err, handled handler req (inr err) ∧
     (hc_OnTimeout (hn_config n) = HumanTimeoutDefault ∧ hc_DefaultOption (hn_config n) ≠ EmptyString ∨
      hc_OnTimeout (hn_config n) = HumanTimeoutSkip) ∧
     ∀ x, x ≠ hc_OutputVar (hn_config n) → GetVar e x = GetVar env x).

Lemma ask_continues n env handler req w w' e :
  exec (ask n env handler req) w = (w', Some (inl e)) → continues n env handler req e.
Proof.
  unfold ask. rewrite exec_bind. destruct (exec (handler req) w) as [w1 [[resp|err]|]] eqn:Hh; [| |done].
  - intros Hs. left. exists resp. split; [by exists w, w1|]. by eapply store_answer_answered.
  - rewrite exec_bind, exec_act. destruct (is_deadline _); [|discriminate].
    intros Hs. right. exists err. split; [by exists w, w1|]. by eapply handleTimeout_continues.
Qed.

(** A human node is a gate. It returns an envelope only after its handler was
    asked with a request of the configured type, and either the handler answered and
    the envelope carries the answer (the approval of an approval request in its own
    variable), or the handler failed at a deadline that the node is configured to
    pass over, in which case nothing but the output variable is changed. *)
Theorem human_continues n env w w' e :
  exec (Run n env) w = (w', Some (inl e)) →
  ∃ handler req, hc_Handler (hn_config n) = Some handler ∧ hq_Type req = hc_RequestType (hn_config n) ∧
    hq_Data req = buildRequestData n env ∧ continues n env handler req e.
Proof.
  unfold Run. rewrite exec_bind, exec_act. destruct (ctx_Done w).2; [discriminate|].
  destruct (hc_Handler (hn_config n)) as [handler|]; [|discriminate].
  destruct (buildPrompt n env) as [prompt|]; [|discriminate].
  do 2 rewrite exec_bind, exec_act. intros Hrun. exists handler. eexists. split_and!; [done|..].
  3: { destruct (0 <? hc_Timeout (hn_config n))%Z.
       - rewrite exec_bind, exec_act, exec_bind in Hrun.
         destruct (exec (ask _ _ _ _) _) as [w1 [r|]] eqn:Ha in Hrun; [|discriminate].
         rewrite exec_bind, exec_act in Hrun. injection Hrun as _ ->. by eapply ask_continues.
       - by eapply ask_continues. }
  all: done.
Qed.
End Gate.

(** ** The channel handler *)

Module ChannelHandler.
Record ChannelHumanHandler := mkChannelHandler {
  requests : list HumanRequest;
  responses : list HumanResponse;
  bufferSize : nat;
  pending : gmap string HumanRequest
}.
Implicit Types h : ChannelHumanHandler.

Definition NewChannelHumanHandler (size : Z) : ChannelHumanHandler :=
  mkChannelHandler [] [] (if (size <=? 0)%Z then 10 else Z.to_nat size) ∅.

Definition set_requests l h := mkChannelHandler l (responses h) (bufferSize h) (pending h).
Definition set_responses l h := mkChannelHandler (requests h) l (bufferSize h) (pending h).
Definition set_pending m h := mkChannelHandler (requests h) (responses h) (bufferSize h) m.

Definition GetPending (id : string) h : option HumanRequest := pending h !! id.
Definition PendingCount h : nat := size (pending h).

(** Where a call of [Request] is. *)
Inductive request_call :=
| CSend (req : HumanRequest)                       (** at [h.requests <- req] *)
| CWait (req : HumanRequest)                       (** at the first [<-h.responses] *)
| CPutBack (req : HumanRequest) (resp : HumanResponse) (** at [h.responses <- resp] *)
| CAgain (req : HumanRequest)                      (** at the second [<-h.responses] *)
| CLeave (req : HumanRequest) (r : HumanResponse + error) (** before the deferred [delete] *)
| CReturn (req : HumanRequest) (r : HumanResponse + error).

Inductive respond_call :=
| DSend (resp : HumanResponse)                     (** at [h.responses <- resp] *)
| DReturn (resp : HumanResponse) (err : option error).

Record exchange := mkExchange {
  x_handler : ChannelHumanHandler; x_requests : list request_call; x_responds : list respond_call
}.

Inductive move :=
| MRequest (req : HumanRequest)                    (** [Request] is called *)
| MSend (i : nat)
| MTake                                            (** a client receives a request *)
| MRespond (resp : HumanResponse)                  (** [Respond] is called *)
| MDeliver (j : nat)
| MRecv (i : nat)
| MPutBack (i : nat)
| MCancel (i : nat) (err : error)                  (** a [select] sees the context done *)
| MCleanup (i : nat).

Definition set_call (i : nat) (p : request_call) (x : exchange) : exchange :=
  mkExchange (x_handler x) (<[i := p]> (x_requests x)) (x_responds x).
Definition set_handler h (x : exchange) : exchange := mkExchange h (x_requests x) (x_responds x).

Definition exec_move (m : move) (x : exchange) : option exchange :=
  let h := x_handler x in
  match m with
  | MRequest req =>
      Some (mkExchange (set_pending (<[hq_ID req := req]> (pending h)) h) (x_requests x ++ [CSend req]) (x_responds x))
  | MSend i =>
      match x_requests x !! i with
      | Some (CSend req) =>
          if bool_decide (length (requests h) < bufferSize h)
          then Some (set_call i (CWait req) (set_handler (set_requests (requests h ++ [req]) h) x)) else None
      | _ => None
      end
  | MTake => match requests h with _ :: rest => Some (set_handler (set_requests rest h) x) | [] => None end
  | MRespond resp =>
      Some (mkExchange h (x_requests x) (x_responds x ++
        [match pending h !! hr_RequestID resp with
         | Some _ => DSend resp
         | None => DReturn resp (Some (EFmt [PS "no pending request with ID: "; PS (hr_RequestID resp)]))
         end]))
  | MDeliver j =>
      match x_responds x !! j with
      | Some (DSend resp) =>
          if bool_decide (length (responses h) < bufferSize h)
          then Some (mkExchange (set_responses (responses h ++ [resp]) h) (x_requests x)
                       (<[j := DReturn resp None]> (x_responds x))) else None
      | _ => None
      end
  | MRecv i =>
      match x_requests x !! i, responses h with
      | Some (CWait req), resp :: rest =>
          let x' := set_handler (set_responses rest h) x in
          Some (if bool_decide (hr_RequestID resp = hq_ID req) then set_call i (CLeave req (inl resp)) x'
                else set_call i (CPutBack req resp) x')
      | Some (CAgain req), resp :: rest =>
          Some (set_call i (CLeave req (inl resp)) (set_handler (set_responses rest h) x))
      | _, _ => None
      end
  | MPutBack i =>
      match x_requests x !! i with
      | Some (CPutBack req resp) =>
          if bool_decide (length (responses h) < bufferSize h)
          then Some (set_call i (CAgain req) (set_handler (set_responses (responses h ++ [resp]) h) x)) else None
      | _ => None
      end
  | MCancel i err =>
      match x_requests x !! i with
      | Some (CSend req) | Some (CWait req) | Some (CAgain req) => Some (set_call i (CLeave req (inr err)) x)
      | _ => None
      end
  | MCleanup i =>
      match x_requests x !! i with
      | Some (CLeave req r) =>
          Some (set_call i (CReturn req r) (set_handler (set_pending (delete (hq_ID req) (pending h)) h) x))
      | _ => None
      end
  end.

Definition run_moves (ms : list move) (x : exchange) : option exchange :=
  foldl (λ x m, x ≫= exec_move m) (Some x) ms.

(** A handler used by one node after another: the first request times out after its
    answer was sent, and the second one returns that answer, which it has put back,
    as its own. *)
Section Sample.
Definition ask_for (id : string) : HumanRequest := mkHumanRequest id HumanRequestApproval "" ∅ [] None 0 0 "".
Definition approve (id : string) : HumanResponse := mkHumanResponse id "approve" VNil "" true "" None ∅.

Example stale_answer_returned :
  (x ← run_moves [MRequest (ask_for "a"); MSend 0; MTake; MRespond (approve "a"); MCancel 0 DeadlineExceeded; MDeliver 0;
                  MCleanup 0; MRequest (ask_for "b"); MSend 1; MRecv 1; MPutBack 1; MRecv 1; MCleanup 1]
         (mkExchange (NewChannelHumanHandler 0) [] []);
   x_requests x !! 1) = Some (CReturn (ask_for "b") (inl (approve "a"))).
Proof. reflexivity. Qed.
End Sample.
End ChannelHandler.

(** ** The queued handler *)

Module Queued.
(** A call of [Request] with its [queuedRequest]: the buffer of the response channel,
    and how far the call is; [Done] is closed when it has returned. *)
Inductive call_state :=
| Waiting
| Leaving (r : HumanResponse + error)              (** before the deferred function *)
| Returned (r : HumanResponse + error).

Record queuedRequest := mkQueued {
  qr_Request : HumanRequest; qr_Response : option HumanResponse; qr_state : call_state
}.

Inductive respond_call :=
| QSend (id : string) (resp : HumanResponse) (i : nat)        (** at the [select] *)
| QDone (id : string) (resp : HumanResponse) (err : option error).

(** [q_requests] maps an ID to the call whose [queuedRequest] it points to. *)
Record QueuedHumanHandler := mkQueue {
  q_requests : gmap string nat; q_calls : list queuedRequest; q_responds : list respond_call
}.
Implicit Types q : QueuedHumanHandler.

Definition NewQueuedHumanHandler : QueuedHumanHandler := mkQueue ∅ [] [].

Inductive move :=
| QRequest (req : HumanRequest)                    (** [Request] is called *)
| QRecv (i : nat)                                  (** its [select] takes a response *)
| QCancel (i : nat) (err : error)                  (** its [select] sees the context done *)
| QCleanup (i : nat)                               (** its deferred function *)
| QRespond (id : string) (resp : HumanResponse) (now : Z)
| QDeliver (j : nat).

Definition set_call (i : nat) (c : queuedRequest) q : QueuedHumanHandler :=
  mkQueue (q_requests q) (<[i := c]> (q_calls q)) (q_responds q).

(** The response as it is sent. *)
Definition stamped (id : string) (resp : HumanResponse) (now : Z) : HumanResponse :=
  mkHumanResponse id (hr_Choice resp) (hr_Data resp) (hr_Notes resp) (hr_Approved resp) (hr_RespondedBy resp)
    (match hr_RespondedAt resp with Some t => Some t | None => Some now end) (hr_Meta resp).

Definition exec_move (m : move) q : option QueuedHumanHandler :=
  match m with
  | QRequest req =>
      Some (mkQueue (<[hq_ID req := length (q_calls q)]> (q_requests q))
              (q_calls q ++ [mkQueued req None Waiting]) (q_responds q))
  | QRecv i =>
      match q_calls q !! i with
      | Some (mkQueued req (Some resp) Waiting) => Some (set_call i (mkQueued req None (Leaving (inl resp))) q)
      | _ => None
      end
  | QCancel i err =>
      match q_calls q !! i with
      | Some (mkQueued req buf Waiting) => Some (set_call i (mkQueued req buf (Leaving (inr err))) q)
      | _ => None
      end
  | QCleanup i =>
      match q_calls q !! i with
      | Some (mkQueued req buf (Leaving r)) =>
          Some (mkQueue (delete (hq_ID req) (q_requests q)) (<[i := mkQueued req buf (Returned r)]> (q_calls q))
                  (q_responds q))
      | _ => None
      end
  | QRespond id resp now =>
      Some (mkQueue (q_requests q) (q_calls q) (q_responds q ++
        [match q_requests q !! id with
         | Some i => QSend id (stamped id resp now) i
         | None => QDone id resp (Some (EFmt [PS "no pending request with ID: "; PS id]))
         end]))
  | QDeliver j =>
      match q_responds q !! j with
      | Some (QSend id resp i) =>
          match q_calls q !! i with
          | Some (mkQueued req None st) =>
              Some (mkQueue (q_requests q) (<[i := mkQueued req (Some resp) st]> (q_calls q))
                      (<[j := QDone id resp None]> (q_responds q)))
          | Some (mkQueued req (Some _) st) =>
              Some (mkQueue (q_requests q) (q_calls q)
                      (<[j := QDone id resp (Some (EFmt [PS "response already sent for request: "; PS id]))]>
                         (q_responds q)))
          | None => None
          end
      | _ => None
      end
  end.

(** In the order in which Go ranges over the map, which is not fixed. *)
Definition ListPending q : list string := (map_to_list (q_requests q)).*1.

Definition GetRequest (id : string) q : option HumanRequest :=
  i ← q_requests q !! id; c ← q_calls q !! i; Some (qr_Request c).

(** The states of a handler. Request IDs are fresh random UUIDs, so no two calls
    share one. *)
Inductive reachable : QueuedHumanHandler → Prop :=
| reach_new : reachable NewQueuedHumanHandler
| reach_move m q q' : reachable q → exec_move m q = Some q' →
    (∀ req, m = QRequest req → ∀ c, c ∈ q_calls q → hq_ID (qr_Request c) ≠ hq_ID req) → reachable q'.

(** The response is on its way to the caller, or was returned to it. *)
Definition held (c : queuedRequest) (resp : HumanResponse) : Prop :=
  qr_Response c = Some resp ∨ qr_state c = Leaving (inl resp) ∨ qr_state c = Returned (inl resp).

(** [Respond] reported success for the response. *)
Definition accepted q (id : string) (resp : HumanResponse) : Prop :=
  hr_RequestID resp = id ∧ QDone id resp None ∈ q_responds q.

Definition returned (c : queuedRequest) : bool := match qr_state c with Returned _ => true | _ => false end.

Record inv q : Prop := {
  inv_ids i j c d : q_calls q !! i = Some c → q_calls q !! j = Some d →
    hq_ID (qr_Request c) = hq_ID (qr_Request d) → i = j;
  inv_send id resp i : QSend id resp i ∈ q_responds q →
    hr_RequestID resp = id ∧ ∃ c, q_calls q !! i = Some c ∧ hq_ID (qr_Request c) = id;
  inv_held c resp : c ∈ q_calls q → held c resp → accepted q (hq_ID (qr_Request c)) resp;
  inv_done id resp : QDone id resp None ∈ q_responds q →
    ∃ c, c ∈ q_calls q ∧ hq_ID (qr_Request c) = id ∧ held c resp
}.

(** The map holds the calls whose deferred function has not run. *)
Definition registered q : Prop := ∀ id i,
  q_requests q !! id = Some i ↔
  ∃ c, q_calls q !! i = Some c ∧ hq_ID (qr_Request c) = id ∧ returned c = false.

Section Replace.
Context q i c c' (Hc : q_calls q !! i = Some c) (Hreq : qr_Request c' = qr_Request c).

(** What happens to a call of the same request at its place. *)
Lemma replaced j d' :
  <[i:=c']> (q_calls q) !! j = Some d' ↔
  (j = i ∧ d' = c') ∨ (j ≠ i ∧ q_calls q !! j = Some d').
Proof using Hc.
  clear Hreq. destruct (decide (j = i)) as [->|Hne].
  - rewrite list_lookup_insert_eq by (by eapply lookup_lt_Some). naive_solver.
  - rewrite list_lookup_insert_ne by done. naive_solver.
Qed.

(** The new call holds the same responses. *)
Lemma inv_replace m : inv q → (∀ resp, held c' resp ↔ held c resp) →
  inv (mkQueue m (<[i:=c']> (q_calls q)) (q_responds q)).
Proof using Hc Hreq.
  intros [Hids Hsend Hheld Hdone] Hh. constructor; simpl.
  - intros j k d e Hd He Heq. rewrite replaced in Hd, He.
    destruct Hd as [[-> ->]|[? ?]], He as [[-> ->]|[? ?]]; rewrite ?Hreq in Heq; [done|eapply Hids; done..].
  - intros id resp j Hs%Hsend. destruct Hs as (? & d & Hd & Hid). split; [done|]. destruct (decide (j = i)) as [->|].
    + exists c'. rewrite replaced, Hreq. simplify_eq. auto.
    + exists d. rewrite replaced. auto.
  - intros d' resp (j & Hj)%list_elem_of_lookup Hr. rewrite replaced in Hj. destruct Hj as [[-> ->]|[? Hj]].
    + rewrite Hreq. apply Hheld; [by eapply list_elem_of_lookup_2|by apply Hh].
    + apply Hheld; [by eapply list_elem_of_lookup_2|done].
  - intros id resp (d & (j & Hj)%list_elem_of_lookup & Hid & Hr)%Hdone. destruct (decide (j = i)) as [->|].
    + exists c'. simplify_eq. split_and!; [|by rewrite Hreq|by apply Hh].
      eapply list_elem_of_lookup_2, replaced. auto.
    + exists d. split_and!; [|done..]. eapply (list_elem_of_lookup_2 _ j), replaced. auto.
Qed.

Lemma registered_replace m l : registered q → m = q_requests q → returned c' = returned c →
  registered (mkQueue m (<[i:=c']> (q_calls q)) l).
Proof using Hc Hreq.
  intros Hreg -> Hret id j. simpl. rewrite (Hreg id j). split; intros (d & Hd & Hid & Hr).
  - destruct (decide (j = i)) as [->|].
    + exists c'. rewrite replaced, Hreq, Hret. simplify_eq. auto.
    + exists d. rewrite replaced. auto.
  - rewrite replaced in Hd. destruct Hd as [[-> ->]|[? ?]]; [|eauto]. exists c. by rewrite <- Hreq, <- Hret.
Qed.
End Replace.

Lemma inv_request q req :
  inv q → registered q → (∀ c, c ∈ q_calls q → hq_ID (qr_Request c) ≠ hq_ID req) →
  let q' := mkQueue (<[hq_ID req := length (q_calls q)]> (q_requests q))
              (q_calls q ++ [mkQueued req None Waiting]) (q_responds q) in
  inv q' ∧ registered q'.
Proof.
  intros [Hids Hsend Hheld Hdone] Hreg Hfresh. cbv zeta.
  assert (∀ j d, (q_calls q ++ [mkQueued req None Waiting]) !! j = Some d ↔
    q_calls q !! j = Some d ∨ (j = length (q_calls q) ∧ d = mkQueued req None Waiting)) as Hl.
  { intros j d. rewrite lookup_app_Some, list_lookup_singleton_Some. split.
    - intros [?|(? & ? & ?)]; [auto|]. right. split; [lia|done].
    - intros [?|[-> ->]]; [auto|]. right. split; [done|]. split; [lia|done]. }
  assert (∀ j d, q_calls q !! j = Some d → hq_ID (qr_Request d) ≠ hq_ID req) as Hf.
  { intros j d Hd. by eapply Hfresh, list_elem_of_lookup_2. }
  split; [constructor; simpl|].
  - intros j k d e [Hd|[-> ->]]%Hl [He|[-> ->]]%Hl Heq; [by eapply Hids| | |done].
    + by destruct (Hf j d Hd).
    + by destruct (Hf k e He).
  - intros id resp j (? & d & Hd & ?)%Hsend. split; [done|]. exists d. rewrite Hl. auto.
  - intros d resp [Hd| ->%list_elem_of_singleton]%elem_of_app; [by apply Hheld|]. by intros [?|[?|?]].
  - intros id resp (d & Hd & ?)%Hdone. exists d. split; [|done]. apply elem_of_app. auto.
  - intros id j. simpl. rewrite lookup_insert_Some, (Hreg id j). split.
    + intros [[<- <-]|[Hne (d & Hd & ? & ?)]].
      * eexists. rewrite Hl. split_and!; [by right|done..].
      * exists d. rewrite Hl. auto.
    + intros (d & [Hd|[-> ->]]%Hl & Hid & Hr); [|left; done].
      right. split; [|eauto]. intros Hx. apply (Hf j d Hd). congruence.
Qed.

(** The calls of [Respond] change, keeping the accepted responses and adding none
    that is not held. *)
Lemma inv_responds q l :
  inv q →
  (∀ id resp i, QSend id resp i ∈ l → QSend id resp i ∈ q_responds q ∨
     hr_RequestID resp = id ∧ ∃ c, q_calls q !! i = Some c ∧ hq_ID (qr_Request c) = id) →
  (∀ id resp, QDone id resp None ∈ l ↔ QDone id resp None ∈ q_responds q) →
  inv (mkQueue (q_requests q) (q_calls q) l).
Proof.
  intros [Hids Hsend Hheld Hdone] Hs Hd. constructor; simpl; [done| | |].
  - intros id resp i [?|?]%Hs; auto.
  - intros c resp Hc Hr. destruct (Hheld c resp Hc Hr) as [? ?]. split; [done|]. by apply Hd.
  - intros id resp ?%Hd. auto.
Qed.

Lemma inv_respond q id resp now :
  inv q → registered q →
  inv (mkQueue (q_requests q) (q_calls q) (q_responds q ++
    [match q_requests q !! id with
     | Some i => QSend id (stamped id resp now) i
     | None => QDone id resp (Some (EFmt [PS "no pending request with ID: "; PS id]))
     end])).
Proof.
  intros Hinv Hreg. apply inv_responds; [done| |].
  - intros id' r i [?|Hx%list_elem_of_singleton]%elem_of_app; [auto|]. right.
    destruct (q_requests q !! id) as [k|] eqn:Hk; [|done]. injection Hx as -> -> ->. split; [done|].
    apply Hreg in Hk as (c & ? & ? & _). eauto.
  - intros id' r. rewrite elem_of_app, list_elem_of_singleton. split; [|auto].
    intros [?|Hx]; [done|]. by destruct (q_requests q !! id).
Qed.

Lemma elem_of_insert {A} (l : list A) j x y z :
  l !! j = Some x → z ∈ <[j := y]> l → z = y ∨ z ∈ l.
Proof.
  intros Hj (k & Hk)%list_elem_of_lookup. destruct (decide (k = j)) as [->|Hne].
  - rewrite list_lookup_insert_eq in Hk by (by eapply lookup_lt_Some). injection Hk as ->. auto.
  - rewrite list_lookup_insert_ne in Hk by done. right. by eapply list_elem_of_lookup_2.
Qed.

Lemma elem_of_insert_keep {A} (l : list A) j x y z :
  l !! j = Some x → z ≠ x → z ∈ l → z ∈ <[j := y]> l.
Proof.
  intros Hj Hne (k & Hk)%list_elem_of_lookup. apply (list_elem_of_lookup_2 _ k).
  rewrite list_lookup_insert_ne; [done|]. intros ->. congruence.
Qed.

(** The [select] of [Respond]. *)
Lemma inv_deliver q j id resp i req buf st :
  inv q → q_responds q !! j = Some (QSend id resp i) → q_calls q !! i = Some (mkQueued req buf st) →
  inv (match buf with
       | None => mkQueue (q_requests q) (<[i := mkQueued req (Some resp) st]> (q_calls q))
                   (<[j := QDone id resp None]> (q_responds q))
       | Some _ => mkQueue (q_requests q) (q_calls q)
                     (<[j := QDone id resp (Some (EFmt [PS "response already sent for request: "; PS id]))]>
                        (q_responds q))
       end).
Proof.
  intros Hinv Hj Hi. pose proof Hinv as [Hids Hsend Hheld Hdone].
  destruct (Hsend id resp i) as (Hid & c & Hc & Hcid); [by eapply list_elem_of_lookup_2|]. simplify_eq.
  destruct buf as [r|].
  - apply inv_responds; [done| |].
    + intros id' r' k [?|?]%(elem_of_insert _ _ _ _ _ Hj); [done|auto].
    + intros id' r'. split; [intros [?|?]%(elem_of_insert _ _ _ _ _ Hj); done|by apply elem_of_insert_keep with (1 := Hj)].
  - set (c' := mkQueued req (Some resp) st).
    assert (∀ k d, <[i:=c']> (q_calls q) !! k = Some d ↔ (k = i ∧ d = c') ∨ (k ≠ i ∧ q_calls q !! k = Some d)) as Hr
      by (intros k d; by apply (replaced q i (mkQueued req None st) c' Hi)).
    assert (∀ r, held c' r ↔ r = resp ∨ held (mkQueued req None st) r) as Hh by (unfold held; simpl; naive_solver).
    simpl in Hcid. constructor; simpl.
    + intros k l d e [[-> ->]|[? Hd]]%Hr [[-> ->]|[? He]]%Hr Heq; [done| | |by eapply Hids].
      * by apply (Hids i l (mkQueued req None st) e).
      * by apply (Hids k i d (mkQueued req None st)).
    + intros id' r k [?|(? & d & Hd & ?)%Hsend]%(elem_of_insert _ _ _ _ _ Hj); [done|]. split; [done|].
      destruct (decide (k = i)) as [->|].
      * exists c'. rewrite Hr. simplify_eq. auto.
      * exists d. rewrite Hr. auto.
    + assert (∀ d r, accepted q (hq_ID (qr_Request d)) r → accepted (mkQueue (q_requests q) (<[i:=c']> (q_calls q))
        (<[j := QDone (hr_RequestID resp) resp None]> (q_responds q))) (hq_ID (qr_Request d)) r) as Hacc.
      { intros d r [? ?]. split; [done|]. by apply elem_of_insert_keep with (1 := Hj). }
      intros d r (k & [[-> ->]|[? Hd]]%Hr)%list_elem_of_lookup.
      * intros [->|Hx]%Hh.
        -- simpl. rewrite Hcid. split; [done|]. simpl. apply (list_elem_of_lookup_2 _ j).
           by apply list_lookup_insert_eq; eapply lookup_lt_Some.
        -- apply (Hacc (mkQueued req None st)), Hheld; [by eapply list_elem_of_lookup_2|done].
      * intros Hx. apply Hacc, Hheld; [by eapply list_elem_of_lookup_2|done].
    + intros id' r [[= -> ->]|(d & (k & Hk)%list_elem_of_lookup & Hdi & Hx)%Hdone]%(elem_of_insert _ _ _ _ _ Hj).
      * exists c'. split_and!; [eapply (list_elem_of_lookup_2 _ i), Hr; auto|done|by left].
      * destruct (decide (k = i)) as [->|].
        -- exists c'. simplify_eq. split_and!; [eapply (list_elem_of_lookup_2 _ i), Hr; auto|done|]. apply Hh. auto.
        -- exists d. split_and!; [|done..]. eapply (list_elem_of_lookup_2 _ k), Hr. auto.
Qed.

(** The deferred function of a call. *)
Lemma registered_cleanup q i req buf r :
  inv q → registered q → q_calls q !! i = Some (mkQueued req buf (Leaving r)) →
  registered (mkQueue (delete (hq_ID req) (q_requests q)) (<[i := mkQueued req buf (Returned r)]> (q_calls q))
    (q_responds q)).
Proof.
  intros Hinv Hreg Hi id j. simpl. rewrite lookup_delete_Some, (Hreg id j).
  setoid_rewrite (replaced q i _ (mkQueued req buf (Returned r)) Hi). split.
  - intros (Hne & d & Hd & Hid & Hr). exists d. split_and!; [|done..]. right. split; [|done].
    intros ->. simplify_eq.
  - intros (d & [[-> ->]|[Hne Hd]] & Hid & Hr); [done|]. split; [|eauto]. intros <-.
    by apply Hne, (inv_ids q Hinv j i d (mkQueued req buf (Leaving r))).
Qed.

Lemma move_inv m q q' :
  inv q → registered q → exec_move m q = Some q' →
  (∀ req, m = QRequest req → ∀ c, c ∈ q_calls q → hq_ID (qr_Request c) ≠ hq_ID req) →
  inv q' ∧ registered q'.
Proof.
  intros Hinv Hreg Hm Hfresh. destruct m as [req|i|i err|i|id resp now|j]; simpl in Hm.
  - injection Hm as <-. by apply inv_request; [..|apply Hfresh].
  - destruct (q_calls q !! i) as [[req [resp|] []]|] eqn:Hi; try discriminate. injection Hm as <-. split.
    + apply (inv_replace q i _ _ Hi); [done..|]. intros r. unfold held. simpl. naive_solver.
    + by apply (registered_replace q i _ _ Hi).
  - destruct (q_calls q !! i) as [[req buf []]|] eqn:Hi; try discriminate. injection Hm as <-. split.
    + apply (inv_replace q i _ _ Hi); [done..|]. intros r. unfold held. simpl. naive_solver.
    + by apply (registered_replace q i _ _ Hi).
  - destruct (q_calls q !! i) as [[req buf [|r|]]|] eqn:Hi; try discriminate. injection Hm as <-. split.
    + apply (inv_replace q i _ _ Hi); [done..|]. intros r'. unfold held. simpl. naive_solver.
    + by apply registered_cleanup.
  - injection Hm as <-. split; [by apply inv_respond|]. exact Hreg.
  - destruct (q_responds q !! j) as [[id resp i|]|] eqn:Hj; try discriminate.
    destruct (q_calls q !! i) as [[req buf st]|] eqn:Hi; [|discriminate].
    pose proof (inv_deliver q j id resp i req buf st Hinv Hj Hi) as Hinv'.
    destruct buf as [r|]; injection Hm as <-; (split; [done|]); [exact Hreg|].
    by apply (registered_replace q i _ _ Hi).
Qed.

Lemma queue_reachable_inv q : reachable q → inv q ∧ registered q.
Proof.
  induction 1 as [|m q q' _ [Hinv Hreg] Hm Hfresh]; [|by eapply move_inv].
  split; [constructor; simpl|].
  - intros i j c d Hc. by rewrite lookup_nil in Hc.
  - by intros id resp i ?%not_elem_of_nil.
  - by intros c resp ?%not_elem_of_nil.
  - by intros id resp ?%not_elem_of_nil.
  - intros id i. simpl. rewrite lookup_empty. split; [done|]. intros (c & Hc & _). by rewrite lookup_nil in Hc.
Qed.

(** C31: however requests, responses and cancellations interleave, a call of
    [Request] returns only a response that [Respond] accepted for its own ID; an
    accepted response is returned by the call of that ID or waits in its buffer, so
    that a call still waiting can take it; and the pending IDs are those of the calls
    that have not left. *)
Theorem queued_exchange q :
  reachable q →
  (∀ c resp, c ∈ q_calls q → qr_state c = Returned (inl resp) → accepted q (hq_ID (qr_Request c)) resp) ∧
  (∀ id resp, QDone id resp None ∈ q_responds q →
     ∃ i c, q_calls q !! i = Some c ∧ hq_ID (qr_Request c) = id ∧ held c resp ∧
       (qr_state c = Waiting → exec_move (QRecv i) q =
          Some (set_call i (mkQueued (qr_Request c) None (Leaving (inl resp))) q))) ∧
  (∀ id, id ∈ ListPending q ↔ ∃ c, c ∈ q_calls q ∧ hq_ID (qr_Request c) = id ∧ returned c = false).
Proof.
  intros [Hinv Hreg]%queue_reachable_inv. split_and!.
  - intros c resp Hc Hr. apply (inv_held q Hinv); [done|]. unfold held. auto.
  - intros id resp (c & (i & Hi)%list_elem_of_lookup & Hid & Hh)%(inv_done q Hinv). exists i, c. split_and!; [done..|].
    intros Hw. destruct c as [req buf st]. simpl in *. subst st.
    destruct Hh as [Hb|[Hb|Hb]]; simpl in Hb; [|discriminate..]. subst buf. by rewrite Hi.
  - intros id. unfold ListPending. rewrite list_elem_of_fmap. split.
    + intros ([id' i] & -> & (c & Hc & Hid & Hr)%elem_of_map_to_list%Hreg).
      exists c. split; [by eapply list_elem_of_lookup_2|done].
    + intros (c & (i & Hi)%list_elem_of_lookup & Hid & Hr). exists (id, i). split; [done|].
      apply elem_of_map_to_list, Hreg. eauto.
Qed.

Definition run_moves (ms : list move) (q : QueuedHumanHandler) : option QueuedHumanHandler :=
  foldl (λ o m, o ≫= exec_move m) (Some q) ms.

(** A request that is answered twice before it leaves: both answers are accepted, the
    second is never read. *)
Example second_answer_lost :
  let a := ChannelHandler.approve "a" in
  let no := mkHumanResponse "" "reject" VNil "" false "" (Some 2%Z) ∅ in
  (λ q, (map qr_state (q_calls q), map (λ c, match c with QDone _ r None => Some (hr_Choice r) | _ => None end) (q_responds q)))
    <$> run_moves [QRequest (ChannelHandler.ask_for "a"); QRespond "a" a 1; QDeliver 0; QRecv 0; QRespond "a" no 2; QDeliver 1;
                   QCleanup 0] NewQueuedHumanHandler =
  Some ([Returned (inl (stamped "a" a 1))], [Some "approve"; Some "reject"]).
Proof. vm_compute. reflexivity. Qed.

Lemma queued_exchange_witness :
  let req := ChannelHandler.ask_for "a" in
  let a := ChannelHandler.approve "a" in
  let q := mkQueue ∅ [mkQueued req None (Returned (inl (stamped "a" a 1)))] [QDone "a" (stamped "a" a 1) None] in
  run_moves [QRequest req; QRespond "a" a 1; QDeliver 0; QRecv 0; QCleanup 0] NewQueuedHumanHandler = Some q ∧
  accepted q "a" (stamped "a" a 1).
Proof.
  cbv zeta. split; [reflexivity|].
  apply (proj1 (queued_exchange _
    (reach_move (QCleanup 0) _ _ (reach_move (QRecv 0) _ _ (reach_move (QDeliver 0) _ _
      (reach_move (QRespond "a" (ChannelHandler.approve "a") 1) _ _ (reach_move (QRequest (ChannelHandler.ask_for "a")) _ _
        reach_new eq_refl ltac:(by intros ? _ ? ?%not_elem_of_nil)) eq_refl ltac:(done)) eq_refl ltac:(done))
      eq_refl ltac:(done)) eq_refl ltac:(done))) _ _ (list_elem_of_here _ _) eq_refl).
Defined.
End Queued.

(** ** Samples *)

Section Samples.
(** A world that is a flag: whether the current context is over its deadline. *)
#[local] Instance deadline_World : World bool := {|
  time_Now w := (w, 0%Z); rand_ID w := (w, "req"); chan_read w := (w, 0);
  ctx_Done (w : bool) := (w, if w then Some DeadlineExceeded else None)
|}.
#[local] Instance deadline_Timeouts : Timeouts bool := {| ctx_WithTimeout _ w := w; ctx_cancel _ := false |}.
#[local] Instance no_templates : TemplateEngine := {| template_render t _ := inl t |}.
#[local] Existing Instance key_order.

(** Nobody answers before the deadline. *)
Definition nobody : HumanHandler bool := λ _, act (λ _ : bool, (true, inr DeadlineExceeded)).

Definition sample_human (handler : HumanHandler bool) (onTimeout : string) : HumanNode bool :=
  NewHumanNode "h" (mkHumanConfig "" "ok?" "" [] "review" [] None 5 onTimeout "approve" (Some handler)).

Definition outcome (n : HumanNode bool) : option (option (list (option value))) :=
  match (exec (Run n (NewEnvelope 0)) false).2 with
  | Some (inl e) => Some (Some [GetVar e "review_approved"; (λ v, VBool true) <$> GetVar e "review"])
  | Some (inr _) => Some None
  | None => None
  end.

(** The default of a timeout does not set the approval of an approval request. *)
Example human_samples :
  map outcome [sample_human (auto_request (λ _ w, (w, None)) NewAutoApproveHandler) "";
               sample_human (auto_request (λ _ w, (w, None)) NewAutoRejectHandler) "";
               sample_human nobody ""; sample_human nobody "default"; sample_human nobody "skip"] =
  [Some (Some [Some (VBool true); Some (VBool true)]); Some (Some [Some (VBool false); Some (VBool true)]);
   Some None; Some (Some [None; Some (VBool true)]); Some (Some [None; Some (VBool true)])].
Proof. vm_compute. reflexivity. Qed.

Definition sample_env : Envelope :=
  match (exec (Run (sample_human nobody "skip") (NewEnvelope 0)) false).2 with Some (inl e) => e | _ => NewEnvelope 0 end.

Lemma human_continues_witness :
  ∃ handler req, hc_Handler (hn_config (sample_human nobody "skip")) = Some handler ∧
    continues (sample_human nobody "skip") (NewEnvelope 0) handler req sample_env.
Proof.
  destruct (human_continues (sample_human nobody "skip") (NewEnvelope 0) false false sample_env)
    as (handler & req & Hh & _ & _ & Hc); [vm_compute; reflexivity|]. eauto.
Defined.
End Samples.
