(* ===== verification/Scheduler.v ===== *)
(** * Workflow schedules (server/workflow_scheduler.go, server/cron.go,
    server/schedule_store.go, server/schedule_handlers.go)

    Schedules with their validation, the scheduler's pass over the due ones, the
    runs it starts, and the handlers that change schedules, interleaved on the
    table of schedules. The cron parser and the parser of durations are
    libraries, and parameters.

    The theorem: no two runs of a schedule overlap, and every stored schedule can
    be run: its expression parses, its options are accepted, and its next run is a
    time its expression gives. *)

From stdpp Require Import gmap strings list fin_maps sorting.
From Stdlib Require Import ZArith Lia.
From S2P Require Import Prelude Values GoFmt Unicode Human.

(** ** Cron expressions *)

(** A parsed expression: [Next], which is the zero time when there is no next one. *)
Class CronParser := { cron_Parse : string → (Z → Z) + error }.

Section Cron.
Context `{UpperTables} `{CronParser}.

Definition parseCronExpressionUTC (expr : string) : (Z → Z) + error :=
  let clean := TrimSpace expr in
  if bool_decide (clean = EmptyString) then inr (EFmt [PS "cron expression is required"])
  else
    let upper := ToUpper clean in
    if GoStr.Contains upper "CRON_TZ=" || GoStr.Contains upper "TZ=" then
      inr (EFmt [PS "cron expression must be UTC-only (timezone prefixes are not allowed)"])
    else match cron_Parse clean with
         | inl next => inl next
         | inr err => inr (EFmt [PS "invalid cron expression: "; PW err])
         end.

Definition nextCronRunUTC (expr : string) (now : Z) : Z + error :=
  match parseCronExpressionUTC expr with inl next => inl (next now) | inr err => inr err end.
End Cron.

(** ** Schedules *)

Record RunReqHumanOptions := mkHumanOptions {
  ho_Mode : string; ho_Choice : string; ho_Notes : string; ho_RespondedBy : string; ho_Delay : string
}.

Record RunReqOptions := mkRunOptions { ro_Timeout : string; ro_Stream : bool; ro_Human : option RunReqHumanOptions }.

Definition ScheduleRunStatusRunning := "running".
Definition ScheduleRunStatusCompleted := "completed".
Definition ScheduleRunStatusFailed := "failed".
Definition ScheduleRunStatusSkippedOverlap := "skipped_overlap".

Record WorkflowSchedule := mkSchedule {
  ws_ID : string; ws_WorkflowID : string; ws_Cron : string; ws_Enabled : bool; ws_Input : option (gmap string value);
  ws_Options : RunReqOptions; ws_NextRunAt : Z; ws_LastRunAt : option Z; ws_LastRunID : string; ws_LastStatus : string;
  ws_LastError : string; ws_CreatedAt : Z; ws_UpdatedAt : Z
}.

Record workflowScheduleRequest := mkScheduleRequest {
  sq_Cron : string; sq_Enabled : option bool; sq_Input : option (gmap string value); sq_Options : option RunReqOptions
}.

(** The handler of human requests; [None]: the one that refuses them. *)
Definition override (given current : string) : string :=
  if bool_decide (TrimSpace given ≠ EmptyString) then given else current.

Definition human_mode `{LowerTables} (cfg : option RunReqHumanOptions) : string :=
  match cfg with
  | Some c => if bool_decide (TrimSpace (ho_Mode c) ≠ EmptyString) then ToLower (TrimSpace (ho_Mode c)) else "strict"
  | None => "strict"
  end.

Definition buildRunHumanHandler `{LowerTables} `{DurationParser} (cfg : option RunReqHumanOptions)
    : option AutoApproveHandler + error :=
  let mode := human_mode cfg in
  if bool_decide (mode = "strict") then inl None
  else if bool_decide (mode = "auto_approve") || bool_decide (mode = "auto_reject") then
    let h := if bool_decide (mode = "auto_approve") then NewAutoApproveHandler else NewAutoRejectHandler in
    match cfg with
    | None => inl (Some h)
    | Some c =>
        let with_delay d := mkAutoApprove (aa_Approved h) (override (ho_Choice c) (aa_Choice h)) (aa_Data h)
          (override (ho_Notes c) (aa_Notes h)) (override (ho_RespondedBy c) (aa_RespondedBy h)) d in
        if bool_decide (TrimSpace (ho_Delay c) ≠ EmptyString) then
          match time_ParseDuration (ho_Delay c) with
          | inl d => inl (Some (with_delay d))
          | inr err => inr (EFmt [PS "options.human.delay: "; PW err])
          end
        else inl (Some (with_delay (aa_Delay h)))
    end
  else inr (EFmt [PS "options.human.mode must be one of: strict, auto_approve, auto_reject"]).

(** The timeout of a run ([planWorkflowRunWithDefinition]). *)
Definition run_timeout `{DurationParser} (options : RunReqOptions) : Z + error :=
  if bool_decide (ro_Timeout options ≠ EmptyString) then time_ParseDuration (ro_Timeout options) else inl 300000000000%Z.

Section Requests.
Context `{UpperTables} `{LowerTables} `{CronParser} `{DurationParser}.
Implicit Types s : WorkflowSchedule.

Definition merge_request (base : WorkflowSchedule) (req : workflowScheduleRequest) : WorkflowSchedule :=
  let cleanCron := TrimSpace (sq_Cron req) in
  mkSchedule (ws_ID base) (ws_WorkflowID base)
    (if bool_decide (cleanCron ≠ EmptyString) then cleanCron else ws_Cron base) (default (ws_Enabled base) (sq_Enabled req))
    (match sq_Input req with Some i => Some i | None => ws_Input base end) (default (ws_Options base) (sq_Options req))
    (ws_NextRunAt base) (ws_LastRunAt base) (ws_LastRunID base) (ws_LastStatus base) (ws_LastError base)
    (ws_CreatedAt base) (ws_UpdatedAt base).

Definition set_NextRunAt (t : Z) s : WorkflowSchedule :=
  mkSchedule (ws_ID s) (ws_WorkflowID s) (ws_Cron s) (ws_Enabled s) (ws_Input s) (ws_Options s) t (ws_LastRunAt s)
    (ws_LastRunID s) (ws_LastStatus s) (ws_LastError s) (ws_CreatedAt s) (ws_UpdatedAt s).
Definition set_UpdatedAt (t : Z) s : WorkflowSchedule :=
  mkSchedule (ws_ID s) (ws_WorkflowID s) (ws_Cron s) (ws_Enabled s) (ws_Input s) (ws_Options s) (ws_NextRunAt s)
    (ws_LastRunAt s) (ws_LastRunID s) (ws_LastStatus s) (ws_LastError s) (ws_CreatedAt s) t.
Definition set_Status (status err : string) s : WorkflowSchedule :=
  mkSchedule (ws_ID s) (ws_WorkflowID s) (ws_Cron s) (ws_Enabled s) (ws_Input s) (ws_Options s) (ws_NextRunAt s)
    (ws_LastRunAt s) (ws_LastRunID s) status err (ws_CreatedAt s) (ws_UpdatedAt s).
Definition set_LastRun (at_ : Z) (id : string) s : WorkflowSchedule :=
  mkSchedule (ws_ID s) (ws_WorkflowID s) (ws_Cron s) (ws_Enabled s) (ws_Input s) (ws_Options s) (ws_NextRunAt s)
    (Some at_) id (ws_LastStatus s) (ws_LastError s) (ws_CreatedAt s) (ws_UpdatedAt s).

(** The first reason to refuse a schedule. *)
Definition refuse_options (options : RunReqOptions) : option error :=
  if ro_Stream options then Some (EFmt [PS "options.stream is not supported for scheduled runs"])
  else
    match (if bool_decide (TrimSpace (ro_Timeout options) ≠ EmptyString) then time_ParseDuration (ro_Timeout options)
           else inl 0%Z) with
    | inr err => Some (EFmt [PS "options.timeout: "; PW err])
    | inl _ => match buildRunHumanHandler (ro_Human options) with inr err => Some err | inl _ => None end
    end.

Definition applyScheduleRequest (base : WorkflowSchedule) (req : workflowScheduleRequest) (creating : bool) (now : Z)
    : WorkflowSchedule + error :=
  let s := merge_request base req in
  if bool_decide (TrimSpace (ws_Cron s) = EmptyString) then inr (EFmt [PS "cron is required"])
  else match refuse_options (ws_Options s) with
       | Some err => inr err
       | None =>
           match parseCronExpressionUTC (ws_Cron s) with
           | inr err => inr err
           | inl _ =>
               let cronChanged := bool_decide (TrimSpace (ws_Cron base) ≠ EmptyString) &&
                                  bool_decide (ws_Cron base ≠ ws_Cron s) in
               if ws_Enabled s && (creating || cronChanged || (negb (ws_Enabled base) && ws_Enabled s) ||
                                   bool_decide (ws_NextRunAt s = 0%Z)) then
                 match nextCronRunUTC (ws_Cron s) now with
                 | inr err => inr err
                 | inl nextRunAt => inl (set_NextRunAt nextRunAt s)
                 end
               else inl s
           end
       end.

(** The schedule [handleCreateWorkflowSchedule] starts from. *)
Definition new_schedule (id workflowID : string) (now : Z) : WorkflowSchedule :=
  mkSchedule id workflowID EmptyString true None (mkRunOptions EmptyString false None) 0 None EmptyString EmptyString
    EmptyString now now.
End Requests.

(** ** Times as they are stored *)

(** Times are nanoseconds from the zero time, the first of January of the year 1, in the
    Gregorian calendar. The date of a day, counted from there: years begin in March, in
    eras of 400 years. *)
Definition civil (day : Z) : Z * Z * Z :=
  let z := (day + 306)%Z in
  let era := (z / 146097)%Z in
  let doe := (z mod 146097)%Z in
  let yoe := ((doe - doe / 1460 + doe / 36524 - doe / 146096) / 365)%Z in
  let doy := (doe - (365 * yoe + yoe / 4 - yoe / 100))%Z in
  let mp := ((5 * doy + 2) / 153)%Z in
  let m := (if mp <? 10 then mp + 3 else mp - 9)%Z in
  ((yoe + era * 400 + (if m <=? 2 then 1 else 0))%Z, m, (doy - (153 * mp + 2) / 5 + 1)%Z).

Definition digit (n : Z) : string := String (Ascii.ascii_of_nat (Z.to_nat (48 + n))) EmptyString.

Definition two (n : Z) : string := digit (n / 10) ^^ digit (n mod 10).
Definition four (n : Z) : string := two (n / 100) ^^ two (n mod 100).

(** [2006-01-02T15:04:05] of a second. *)
Definition second_text (sec : Z) : string :=
  let '(y, m, d) := civil (sec / 86400) in
  let r := (sec mod 86400)%Z in
  four y ^^ "-" ^^ two m ^^ "-" ^^ two d ^^ "T" ^^ two (r / 3600) ^^ ":" ^^ two (r / 60 mod 60) ^^ ":" ^^ two (r mod 60).

(** The digits of a fraction of [k] places, without the zeros at the end. *)
Fixpoint fraction (k : nat) (n : Z) : string :=
  match k with
  | 0 => EmptyString
  | S k' =>
      let rest := fraction k' (n mod 10 ^ Z.of_nat k') in
      let d := (n / 10 ^ Z.of_nat k')%Z in
      if bool_decide (rest = EmptyString) && (d =? 0)%Z then EmptyString else digit d ^^ rest
  end.

Definition nano_text (ns : Z) : string :=
  if (ns =? 0)%Z then "Z" else "." ^^ fraction 9 ns ^^ "Z".

(** [time.RFC3339Nano]: the zeros at the end of the fraction are left out. *)
Definition RFC3339Nano (t : Z) : string :=
  second_text (t / 1000000000) ^^ nano_text (t mod 1000000000).

(** ** The table *)

(** By ID; the queries also compare the workflow. *)
Notation schedules := (gmap string WorkflowSchedule).

Section Store.
Implicit Types (st : schedules) (s : WorkflowSchedule).

Definition GetSchedule (workflowID scheduleID : string) st : option WorkflowSchedule :=
  match st !! scheduleID with
  | Some s => if bool_decide (ws_WorkflowID s = workflowID) then Some s else None
  | None => None
  end.

(** [None]: the ID is taken. *)
Definition CreateSchedule s st : option schedules :=
  match st !! ws_ID s with Some _ => None | None => Some (<[ws_ID s := s]> st) end.

(** [None]: there is no such row. The creation time is not written; the callers set the
    time of the update. *)
Definition UpdateSchedule s st : option schedules :=
  match GetSchedule (ws_WorkflowID s) (ws_ID s) st with
  | None => None
  | Some old =>
      Some (<[ws_ID s := mkSchedule (ws_ID s) (ws_WorkflowID s) (ws_Cron s) (ws_Enabled s) (ws_Input s) (ws_Options s)
        (ws_NextRunAt s) (ws_LastRunAt s) (ws_LastRunID s) (ws_LastStatus s) (ws_LastError s) (ws_CreatedAt old)
        (ws_UpdatedAt s)]> st)
  end.

Definition DeleteSchedule (workflowID scheduleID : string) st : option schedules :=
  match GetSchedule workflowID scheduleID st with None => None | Some _ => Some (delete scheduleID st) end.

Definition DeleteSchedulesByWorkflow (workflowID : string) st : schedules :=
  filter (λ kv, ws_WorkflowID kv.2 ≠ workflowID) st.

(** The texts of the times are compared. *)
Definition is_due (now : Z) s : bool :=
  ws_Enabled s && bool_decide (string_le (RFC3339Nano (ws_NextRunAt s)) (RFC3339Nano now)).

Definition next_le s s' : Prop := string_le (RFC3339Nano (ws_NextRunAt s)) (RFC3339Nano (ws_NextRunAt s')).
#[local] Instance next_le_dec s s' : Decision (next_le s s').
Proof. unfold next_le. apply _. Defined.

Definition ListDueSchedules (now limit : Z) st : list WorkflowSchedule :=
  let due := merge_sort next_le (List.filter (is_due now) (map snd (map_to_list st))) in
  if (0 <? limit)%Z then take (Z.to_nat limit) due else due.
End Store.

(** ** The scheduler *)

Record WorkflowScheduler := mkScheduler { wc_batchLimit : Z; wc_active : gset string }.

Definition NewWorkflowScheduler (batchLimit : Z) : WorkflowScheduler :=
  mkScheduler (if (batchLimit <=? 0)%Z then 100 else batchLimit) ∅.

(** What a run of the workflow returns: the run's ID, or the text of the error. *)
Notation run_result := (string + string)%type.

(** A run: of the workflow, then reading the schedule, then writing the outcome. *)
Inductive run_stage := SRun | SGet (finish : Z) (result : run_result) | SWrite (latest : WorkflowSchedule) | SEnd.
Record run := mkRun { rn_schedule : WorkflowSchedule; rn_at : Z; rn_stage : run_stage }.

(** The loop: between passes, before the next schedule of a pass, or before its write
    (and, if it is set, the start of a run). *)
Inductive pass := PIdle | PNext (now : Z) (due : list WorkflowSchedule)
                | PWrite (now : Z) (due : list WorkflowSchedule) (s : WorkflowSchedule) (start : bool).

(** [sy_updates]: the handlers that have read a schedule and will write it. *)
Record system := mkSys {
  sy_store : schedules; sy_sched : WorkflowScheduler; sy_pass : pass; sy_runs : list run; sy_updates : list WorkflowSchedule
}.

Section Scheduler.
Context (error_text : error → string) `{UpperTables} `{LowerTables} `{CronParser} `{DurationParser}.
Implicit Types (y : system) (s : WorkflowSchedule).

(** [schedule.NextRunAt], [LastStatus], [LastError] and [UpdatedAt] set. *)
Definition stamped (next : Z) (status err : string) (now : Z) s : WorkflowSchedule :=
  set_UpdatedAt now (set_Status status err (set_NextRunAt next s)).

Definition markScheduleFailure (now : Z) (runErr : error) s : WorkflowSchedule :=
  stamped (match nextCronRunUTC (ws_Cron s) now with inl next => next | inr _ => ws_NextRunAt s end)
    ScheduleRunStatusFailed (error_text runErr) now s.

Definition cron_failure (err : error) : error := EFmt [PS "invalid cron expression: "; PW err].

Definition markSkippedOverlap (now : Z) s : WorkflowSchedule :=
  match nextCronRunUTC (ws_Cron s) now with
  | inr err => markScheduleFailure now (cron_failure err) s
  | inl next => stamped next ScheduleRunStatusSkippedOverlap "skipped because prior scheduled run is still active" now s
  end.

(** The record [processDueSchedule] writes, and whether a run follows. *)
Definition processDueSchedule (active : gset string) (now : Z) s : option (WorkflowSchedule * bool) :=
  if negb (ws_Enabled s) then None
  else if bool_decide (ws_ID s ∈ active) then Some (markSkippedOverlap now s, false)
  else match nextCronRunUTC (ws_Cron s) now with
       | inr err => Some (markScheduleFailure now (cron_failure err) s, false)
       | inl next => Some (stamped next ScheduleRunStatusRunning EmptyString now s, true)
       end.

(** The record [runSchedule] writes. *)
Definition run_outcome (finish : Z) (result : run_result) (latest : WorkflowSchedule) : WorkflowSchedule :=
  match result with
  | inr msg => set_UpdatedAt finish (set_Status ScheduleRunStatusFailed msg (set_LastRun finish (ws_LastRunID latest) latest))
  | inl runID => set_UpdatedAt finish (set_Status ScheduleRunStatusCompleted EmptyString (set_LastRun finish runID latest))
  end.

(** [ok]: whether the database answers. *)
Inductive move :=
| MList (now : Z) (ok : bool)
| MProcess
| MStore (ok : bool)
| MRunEnd (i : nat) (finish : Z) (result : run_result)
| MRunGet (i : nat) (ok : bool)
| MRunWrite (i : nat) (ok : bool)
| MCreate (id workflowID : string) (req : workflowScheduleRequest) (now : Z)
| MUpdateGet (id workflowID : string) (req : workflowScheduleRequest) (now : Z)
| MUpdateWrite (j : nat)
| MDelete (id workflowID : string)
| MDeleteWorkflow (workflowID : string).

Definition set_store (st : schedules) y : system := mkSys st (sy_sched y) (sy_pass y) (sy_runs y) (sy_updates y).
Definition set_pass (p : pass) y : system := mkSys (sy_store y) (sy_sched y) p (sy_runs y) (sy_updates y).
Definition set_stage (i : nat) (r : run) (stage : run_stage) y : system :=
  mkSys (sy_store y) (sy_sched y) (sy_pass y) (<[i := mkRun (rn_schedule r) (rn_at r) stage]> (sy_runs y)) (sy_updates y).

Definition set_active (f : gset string → gset string) y : system :=
  mkSys (sy_store y) (mkScheduler (wc_batchLimit (sy_sched y)) (f (wc_active (sy_sched y)))) (sy_pass y) (sy_runs y)
    (sy_updates y).

(** The deferred [unmarkScheduleActive]. *)
Definition end_run (i : nat) (r : run) y : system :=
  set_active (λ a, a ∖ {[ ws_ID (rn_schedule r) ]}) (set_stage i r SEnd y).

(** [markScheduleActive] and the new goroutine. *)
Definition start_run (now : Z) s y : system :=
  let y := set_active (λ a, {[ ws_ID s ]} ∪ a) y in
  mkSys (sy_store y) (sy_sched y) (sy_pass y) (sy_runs y ++ [mkRun s now SRun]) (sy_updates y).

Definition exec_move (m : move) y : option system :=
  match m with
  | MList now ok =>
      match sy_pass y with
      | PIdle => Some (if ok then set_pass (PNext now (ListDueSchedules now (wc_batchLimit (sy_sched y)) (sy_store y))) y else y)
      | _ => None
      end
  | MProcess =>
      match sy_pass y with
      | PNext now [] => Some (set_pass PIdle y)
      | PNext now (s :: due) =>
          Some (match processDueSchedule (wc_active (sy_sched y)) now s with
                | None => set_pass (PNext now due) y
                | Some (s', start) => set_pass (PWrite now due s' start) y
                end)
      | _ => None
      end
  | MStore ok =>
      match sy_pass y with
      | PWrite now due s start =>
          let y' := set_pass (PNext now due) y in
          Some (match (if ok then UpdateSchedule s (sy_store y) else None) with
                | None => y'
                | Some st => let y' := set_store st y' in if start then start_run now s y' else y'
                end)
      | _ => None
      end
  | MRunEnd i finish result =>
      match sy_runs y !! i with
      | Some (mkRun s at_ SRun) => Some (set_stage i (mkRun s at_ SRun) (SGet finish result) y)
      | _ => None
      end
  | MRunGet i ok =>
      match sy_runs y !! i with
      | Some (mkRun s at_ (SGet finish result) as r) =>
          Some (match (if ok then GetSchedule (ws_WorkflowID s) (ws_ID s) (sy_store y) else None) with
                | Some latest => set_stage i r (SWrite (run_outcome finish result latest)) y
                | None => end_run i r y
                end)
      | _ => None
      end
  | MRunWrite i ok =>
      match sy_runs y !! i with
      | Some (mkRun s at_ (SWrite latest) as r) =>
          Some (end_run i r (match (if ok then UpdateSchedule latest (sy_store y) else None) with
                             | Some st => set_store st y
                             | None => y
                             end))
      | _ => None
      end
  | MCreate id workflowID req now =>
      match applyScheduleRequest (new_schedule id workflowID now) req true now with
      | inr _ => Some y
      | inl s => Some (match CreateSchedule s (sy_store y) with Some st => set_store st y | None => y end)
      end
  | MUpdateGet id workflowID req now =>
      match GetSchedule workflowID id (sy_store y) with
      | None => Some y
      | Some existing =>
          match applyScheduleRequest existing req false now with
          | inr _ => Some y
          | inl next =>
              Some (mkSys (sy_store y) (sy_sched y) (sy_pass y) (sy_runs y) (sy_updates y ++ [set_UpdatedAt now next]))
          end
      end
  | MUpdateWrite j =>
      match sy_updates y !! j with
      | None => None
      | Some s =>
          let y' := mkSys (sy_store y) (sy_sched y) (sy_pass y) (sy_runs y) (delete j (sy_updates y)) in
          Some (match UpdateSchedule s (sy_store y) with Some st => set_store st y' | None => y' end)
      end
  | MDelete id workflowID =>
      Some (match DeleteSchedule workflowID id (sy_store y) with Some st => set_store st y | None => y end)
  | MDeleteWorkflow workflowID => Some (set_store (DeleteSchedulesByWorkflow workflowID (sy_store y)) y)
  end.

Definition start (batchLimit : Z) : system := mkSys ∅ (NewWorkflowScheduler batchLimit) PIdle [] [].

Inductive reachable (batchLimit : Z) : system → Prop :=
| reach_start : reachable batchLimit (start batchLimit)
| reach_step y m y' : reachable batchLimit y → exec_move m y = Some y' → reachable batchLimit y'.
(** ** Schedules that can be run *)

Definition sched_ok s : Prop :=
  refuse_options (ws_Options s) = None ∧
  ∃ next, parseCronExpressionUTC (ws_Cron s) = inl next ∧ (ws_Enabled s = true → ∃ t, ws_NextRunAt s = next t).

(** The fields [sched_ok] reads. *)
Definition same_plan s s' : Prop :=
  ws_Cron s' = ws_Cron s ∧ ws_Enabled s' = ws_Enabled s ∧ ws_Options s' = ws_Options s ∧ ws_NextRunAt s' = ws_NextRunAt s.

Lemma sched_ok_same s s' : same_plan s s' → sched_ok s → sched_ok s'.
Proof. unfold sched_ok. by intros (-> & -> & -> & ->). Qed.

Lemma parse_not_blank expr next : parseCronExpressionUTC expr = inl next → TrimSpace expr ≠ EmptyString.
Proof. unfold parseCronExpressionUTC. by case_bool_decide. Qed.

Lemma apply_ok base req creating now s :
  applyScheduleRequest base req creating now = inl s → creating = true ∨ sched_ok base →
  sched_ok s ∧ ws_ID s = ws_ID base ∧ ws_WorkflowID s = ws_WorkflowID base.
Proof.
  unfold applyScheduleRequest, nextCronRunUTC. cbv zeta. set (m := merge_request base req).
  case_bool_decide; [done|]. destruct (refuse_options (ws_Options m)) eqn:Ho; [done|].
  destruct (parseCronExpressionUTC (ws_Cron m)) as [next|] eqn:Hc; [|done]. intros Hs Hb.
  match type of Hs with (if ?b then _ else _) = _ => destruct b eqn:E end; simplify_eq.
  - split; [|done]. split; [done|]. exists next. split; [done|]. intros _. by exists now.
  - split; [|done]. split; [done|]. exists next. split; [done|]. intros Hen. rewrite Hen in E. simpl in E.
    rewrite !orb_false_iff, andb_true_r, negb_false_iff in E. destruct E as (((-> & Hch) & Hwas) & _).
    destruct Hb as [|(_ & next' & Hc' & Hn)]; [done|]. destruct (Hn Hwas) as [t Ht]. exists t.
    rewrite bool_decide_true in Hch by (by eapply parse_not_blank). simpl in Hch.
    apply bool_decide_eq_false, dec_stable in Hch. rewrite Hch in Hc'.
    change (parseCronExpressionUTC (ws_Cron (merge_request base req)) = inl next') in Hc'.
    assert (next' = next) as -> by congruence. exact Ht.
Qed.

Lemma stamped_ok next f status err now s t : parseCronExpressionUTC (ws_Cron s) = inl f → next = f t → sched_ok s →
  sched_ok (stamped next status err now s).
Proof. intros Hf -> [Ho _]. split; [done|]. exists f. split; [done|]. intros _. by exists t. Qed.

(** A row that is due is marked with its next time. *)
Lemma process_ok active now s s' b : sched_ok s → processDueSchedule active now s = Some (s', b) →
  sched_ok s' ∧ ws_ID s' = ws_ID s ∧ ws_WorkflowID s' = ws_WorkflowID s ∧
  (b = true → ws_ID s ∉ active ∧ ws_Enabled s' = true ∧ nextCronRunUTC (ws_Cron s') now = inl (ws_NextRunAt s')).
Proof.
  intros Hok. destruct (Hok) as (Ho & f & Hf & _). unfold processDueSchedule, markSkippedOverlap, nextCronRunUTC.
  rewrite Hf. destruct (ws_Enabled s) eqn:He; simpl; [|done]. case_bool_decide; intros [= <- <-].
  - split; [by eapply stamped_ok|done].
  - split; [by eapply stamped_ok|]. split_and!; try done. intros _. split_and!; try done. simpl. by rewrite Hf.
Qed.

Lemma outcome_ok finish result s : sched_ok s → sched_ok (run_outcome finish result s).
Proof. apply sched_ok_same. by destruct result. Qed.

(** ** The table *)

Definition store_ok (st : schedules) : Prop := ∀ k s, st !! k = Some s → ws_ID s = k ∧ sched_ok s.

Lemma GetSchedule_Some w k st s : GetSchedule w k st = Some s → st !! k = Some s ∧ ws_WorkflowID s = w.
Proof. unfold GetSchedule. destruct (st !! k); [|done]. case_bool_decide; [|done]. by intros [= <-]. Qed.

Lemma store_insert st s s' : store_ok st → sched_ok s → same_plan s s' → ws_ID s' = ws_ID s →
  store_ok (<[ws_ID s := s']> st).
Proof.
  intros Hst Hs Hp Hid k x [[<- <-]|[_ Hk]]%lookup_insert_Some; [|by apply Hst].
  split; [done|by eapply sched_ok_same].
Qed.

Lemma update_ok st s st' : store_ok st → sched_ok s → UpdateSchedule s st = Some st' → store_ok st'.
Proof.
  intros Hst Hs. unfold UpdateSchedule. destruct (GetSchedule _ _ _) as [old|]; [|done]. intros [= <-].
  by apply store_insert.
Qed.

Lemma ListDue_in now limit st s : s ∈ ListDueSchedules now limit st → ∃ k, st !! k = Some s.
Proof.
  unfold ListDueSchedules. set (due := merge_sort _ _). intros Hs. assert (s ∈ due) as Hd.
  { destruct (0 <? limit)%Z; [|done]. by eapply subseteq_take. }
  unfold due in Hd. rewrite merge_sort_Permutation in Hd. apply list_elem_of_In, filter_In in Hd as [Hd _].
  apply list_elem_of_In, list_elem_of_fmap in Hd as ([k x] & -> & Hk%elem_of_map_to_list). by exists k.
Qed.
(** ** The invariant *)

Definition live (r : run) : Prop := rn_stage r ≠ SEnd.

Definition pass_ok (active : gset string) (p : pass) : Prop :=
  match p with
  | PIdle => True
  | PNext _ due => Forall sched_ok due
  | PWrite now due s start =>
      Forall sched_ok due ∧ sched_ok s ∧
      (start = true → ws_ID s ∉ active ∧ ws_Enabled s = true ∧ nextCronRunUTC (ws_Cron s) now = inl (ws_NextRunAt s))
  end.

(** A run was started for an enabled schedule, which was given its next time. *)
Record run_ok (r : run) : Prop := {
  ro_enabled : ws_Enabled (rn_schedule r) = true;
  ro_next : nextCronRunUTC (ws_Cron (rn_schedule r)) (rn_at r) = inl (ws_NextRunAt (rn_schedule r));
  ro_latest : ∀ latest, rn_stage r = SWrite latest → sched_ok latest
}.

Record inv y : Prop := {
  iv_store : store_ok (sy_store y);
  iv_pass : pass_ok (wc_active (sy_sched y)) (sy_pass y);
  iv_runs : ∀ i r, sy_runs y !! i = Some r → run_ok r;
  iv_updates : Forall sched_ok (sy_updates y);
  iv_exclusive : ∀ i j r r', sy_runs y !! i = Some r → sy_runs y !! j = Some r' → live r → live r' →
    ws_ID (rn_schedule r) = ws_ID (rn_schedule r') → i = j;
  iv_active : ∀ id, id ∈ wc_active (sy_sched y) ↔
    ∃ i r, sy_runs y !! i = Some r ∧ live r ∧ ws_ID (rn_schedule r) = id
}.

Lemma inv_store y st : inv y → store_ok st → inv (set_store st y).
Proof. intros [H1' H2' H3' H4' H5' H6'] Hst. by split. Qed.

Lemma inv_set_pass y p : inv y → pass_ok (wc_active (sy_sched y)) p → inv (set_pass p y).
Proof. intros [H1' H2' H3' H4' H5' H6'] Hp. by split. Qed.

Lemma inv_updates y l : inv y → Forall sched_ok l →
  inv (mkSys (sy_store y) (sy_sched y) (sy_pass y) (sy_runs y) l).
Proof. intros [H1' H2' H3' H4' H5' H6'] Hl. by split. Qed.

(** An update that may fail. *)
Lemma inv_update y s (ok : bool) : inv y → sched_ok s →
  inv (match (if ok then UpdateSchedule s (sy_store y) else None) with Some st => set_store st y | None => y end).
Proof.
  intros Hinv Hs. destruct ok; [|done]. destruct (UpdateSchedule s (sy_store y)) as [st|] eqn:E; [|done].
  apply inv_store; [done|]. eapply update_ok; [apply Hinv|done|done].
Qed.

(** The run at [i] goes to a stage at which it is still live. *)
Lemma inv_stage y i r stage : inv y → sy_runs y !! i = Some r → live r → stage ≠ SEnd →
  (∀ latest, stage = SWrite latest → sched_ok latest) → inv (set_stage i r stage y).
Proof.
  intros [H1' H2' H3' H4' H5' H6'] Hi Hl Hs Hok. pose proof (lookup_lt_Some _ _ _ Hi) as Hlt.
  assert (∀ j x, <[i := mkRun (rn_schedule r) (rn_at r) stage]> (sy_runs y) !! j = Some x →
    ∃ x', sy_runs y !! j = Some x' ∧ rn_schedule x' = rn_schedule x ∧ (live x → live x')) as Hback.
  { intros j x [(-> & <- & _)|[_ Hj]]%list_lookup_insert_Some; [by exists r|by exists x]. }
  split; simpl; try done.
  - intros j x [(-> & <- & _)|[_ Hj]]%list_lookup_insert_Some; [|by eapply H3'].
    destruct (H3' j r Hi) as [He Hn _]. by split.
  - intros j k x x' Hj Hk Hlx Hlx' Hid. destruct (Hback _ _ Hj) as (z & Hz & Ez & Lz), (Hback _ _ Hk) as (z' & Hz' & Ez' & Lz').
    apply (H5' j k z z'); auto. by rewrite Ez, Ez'.
  - intros id. rewrite H6'. split; intros (j & x & Hj & Hlx & Hid).
    + destruct (decide (j = i)) as [->|Hne].
      * exists i, (mkRun (rn_schedule r) (rn_at r) stage). rewrite list_lookup_insert_eq by done. simplify_eq. done.
      * exists j, x. by rewrite list_lookup_insert_ne.
    + destruct (Hback _ _ Hj) as (z & Hz & Ez & Lz). exists j, z. rewrite Ez. auto.
Qed.

Lemma inv_end y i r : inv y → sy_runs y !! i = Some r → live r → inv (end_run i r y).
Proof.
  intros [H1' H2' H3' H4' H5' H6'] Hi Hl. pose proof (lookup_lt_Some _ _ _ Hi) as Hlt.
  assert (∀ j x, <[i := mkRun (rn_schedule r) (rn_at r) SEnd]> (sy_runs y) !! j = Some x → live x →
    j ≠ i ∧ sy_runs y !! j = Some x) as Hback.
  { intros j x [(-> & <- & _)|[Hne Hj]]%list_lookup_insert_Some; [by intros []|by auto]. }
  split; simpl; try done.
  - destruct (sy_pass y) as [| |now due s st]; simpl in *; try done. destruct H2' as (? & ? & Hst). split_and!; try done.
    intros Hs. destruct (Hst Hs) as (Hn & ? & ?). split_and!; try done. set_solver.
  - intros j x [(-> & <- & _)|[_ Hj]]%list_lookup_insert_Some; [|by eapply H3'].
    destruct (H3' j r Hi) as [He Hn _]. by split.
  - intros j k x x' Hj Hk Hlx Hlx'. destruct (Hback _ _ Hj Hlx) as [_ Hj'], (Hback _ _ Hk Hlx') as [_ Hk']. by eapply H5'.
  - intros id. rewrite elem_of_difference, H6', elem_of_singleton. split.
    + intros ((j & x & Hj & Hlx & Hid) & Hne). exists j, x. rewrite list_lookup_insert_ne; [done|]. intros <-. simplify_eq.
    + intros (j & x & Hj & Hlx & Hid). destruct (Hback _ _ Hj Hlx) as [Hne Hj']. split; [eauto|].
      intros ->. apply Hne. eapply H5'; [exact Hj'|exact Hi|done|done|done].
Qed.

Lemma inv_start y now s : inv y → ws_ID s ∉ wc_active (sy_sched y) → ws_Enabled s = true →
  nextCronRunUTC (ws_Cron s) now = inl (ws_NextRunAt s) →
  (match sy_pass y with PWrite _ _ _ true => False | _ => True end) → inv (start_run now s y).
Proof.
  intros [H1' H2' H3' H4' H5' H6'] Hn He Hnext Hp. split; simpl; try done.
  - destruct (sy_pass y) as [| |? ? ? []]; try done. simpl in *. naive_solver.
  - intros i r [[_ Hi]|[-> <-]]%lookup_snoc_Some; [by eapply H3'|by split].
  - intros i j r r' [[_ Hi]|[-> <-]]%lookup_snoc_Some [[_ Hj]|[-> <-]]%lookup_snoc_Some Hl Hl' Hid; try done.
    + by eapply H5'.
    + destruct Hn. apply H6'. simpl in Hid. eauto.
    + destruct Hn. apply H6'. simpl in Hid. rewrite Hid. eauto.
  - intros id. rewrite elem_of_union, elem_of_singleton, H6'. split.
    + intros [->|(i & r & Hi & ?)].
      * exists (length (sy_runs y)), (mkRun s now SRun). split; [by apply lookup_snoc_Some; right|done].
      * exists i, r. split; [by apply lookup_app_l_Some|done].
    + intros (i & r & [[_ Hi]|[-> <-]]%lookup_snoc_Some & Hl & Hid); [right; eauto|by left].
Qed.

Lemma schedule_step m y y' : inv y → exec_move m y = Some y' → inv y'.
Proof.
  intros Hinv. destruct m as [now ok| |ok|i finish result|i ok|i ok|id w req now|id w req now|j|id w|w]; simpl.
  - destruct (sy_pass y); try done. intros [= <-]. destruct ok; [|done]. apply inv_set_pass; [done|].
    apply Forall_forall. intros s [k Hk]%ListDue_in. by apply (iv_store _ Hinv k).
  - destruct (sy_pass y) as [|now [|s due]|] eqn:Hp; try done; intros [= <-]; [by apply inv_set_pass|].
    pose proof (iv_pass _ Hinv) as Hpass. rewrite Hp in Hpass. simpl in Hpass. apply Forall_cons in Hpass as [Hs Hdue].
    destruct (processDueSchedule _ now s) as [[s' b]|] eqn:E; [|by apply inv_set_pass].
    destruct (process_ok _ _ _ _ _ Hs E) as (Hs' & Hid & _ & Hb). apply inv_set_pass; [done|]. simpl. rewrite Hid. done.
  - destruct (sy_pass y) as [| |now due s b] eqn:Hp; try done. intros [= <-].
    pose proof (iv_pass _ Hinv) as Hpass. rewrite Hp in Hpass. destruct Hpass as (Hdue & Hs & Hb).
    assert (inv (set_pass (PNext now due) y)) as Hn by (by apply inv_set_pass).
    destruct (if ok then UpdateSchedule s (sy_store y) else None) as [st|] eqn:E; [|done].
    destruct ok; [|done].
    assert (inv (set_store st (set_pass (PNext now due) y))) as Hst.
    { apply inv_store; [done|]. eapply update_ok; [apply Hinv|done|done]. }
    destruct b; [|done]. destruct (Hb eq_refl) as (? & ? & ?). by apply inv_start.
  - destruct (sy_runs y !! i) as [[s t []]|] eqn:Hi; try done. intros [= <-]. by apply inv_stage.
  - destruct (sy_runs y !! i) as [[s t []]|] eqn:Hi; try done. intros [= <-].
    destruct (if ok then GetSchedule _ _ _ else None) as [latest|] eqn:E; [|by apply inv_end].
    destruct ok; [|done]. apply GetSchedule_Some in E as [Hk _]. apply inv_stage; try done.
    intros ? [= <-]. by apply outcome_ok, (iv_store _ Hinv _ _ Hk).
  - destruct (sy_runs y !! i) as [[s t []]|] eqn:Hi; try done. intros [= <-].
    apply inv_end; [|by repeat case_match|done].
    apply inv_update; [done|]. by apply (ro_latest _ (iv_runs _ Hinv _ _ Hi)).
  - destruct (applyScheduleRequest _ _ _ _) as [s|] eqn:E; intros [= <-]; [|done].
    apply apply_ok in E as (Hs & Hid & _); [|by left]. unfold CreateSchedule. destruct (sy_store y !! ws_ID s); [done|].
    apply inv_store; [done|]. apply store_insert; [apply Hinv|done|done|done].
  - destruct (GetSchedule w id (sy_store y)) as [old|] eqn:Eg; [|by intros [= <-]].
    apply GetSchedule_Some in Eg as [Hk _].
    destruct (applyScheduleRequest old req false now) as [s|] eqn:E; intros [= <-]; [|done].
    apply apply_ok in E as (Hs & _); [|right; by apply (iv_store _ Hinv _ _ Hk)].
    apply inv_updates; [done|]. apply Forall_app. split; [apply Hinv|]. constructor; [|constructor]. by eapply sched_ok_same.
  - destruct (sy_updates y !! j) as [s|] eqn:Hj; [|done]. intros [= <-].
    assert (sched_ok s) as Hs by (by eapply Forall_lookup_1; [apply Hinv|]).
    apply (inv_updates _ (delete j (sy_updates y))) in Hinv; [|by apply Forall_delete, Hinv].
    apply (inv_update _ s true Hinv Hs).
  - intros [= <-]. unfold DeleteSchedule. destruct (GetSchedule w id (sy_store y)); [|done]. apply inv_store; [done|].
    intros k s [_ Hk]%lookup_delete_Some. by apply Hinv.
  - intros [= <-]. apply inv_store; [done|]. unfold DeleteSchedulesByWorkflow.
    intros k s [Hk _]%map_lookup_filter_Some. by apply Hinv.
Qed.

End Scheduler.

(** ** Examples *)

Module SchedulerSamples.
#[local] Instance same_lower : LowerTables := {| lower_other s := s |}.
#[local] Instance same_upper : UpperTables := {| upper_other s := s |}.

(** Every minute, and the thirtieth of February. *)
#[local] Instance sample_cron : CronParser := {|
  cron_Parse expr :=
    if bool_decide (expr = "* * * * *") then inl (λ t, (t / 60000000000 + 1) * 60000000000)%Z
    else if bool_decide (expr = "0 0 30 2 *") then inl (λ _, 0%Z)
    else inr (EFmt [PS "bad expression"])
|}.
#[local] Instance sample_durations : DurationParser := {|
  time_ParseDuration s := if bool_decide (s = "5s") then inl 5000000000%Z else inr (EFmt [PS "invalid duration"])
|}.

Example times : (RFC3339Nano 0, RFC3339Nano 63839663999050000000) = ("0001-01-01T00:00:00Z", "2023-12-31T23:59:59.05Z").
Proof. vm_compute. reflexivity. Qed.

(** In the second in which it is due, a schedule is not listed: the texts are compared, and
    that of a whole second comes after those with a fraction. *)
Example due_in_a_second :
  map (λ now, bool_decide (string_le (RFC3339Nano 63839664000000000000) (RFC3339Nano now)))
    [63839663999900000000; 63839664000000000000; 63839664000500000000; 63839664001000000000]%Z = [false; true; false; true].
Proof. vm_compute. reflexivity. Qed.

Definition every_minute : workflowScheduleRequest := mkScheduleRequest "* * * * *" None None None.

(** A timeout of blanks is accepted for a schedule, and refused for each of its runs. *)
Example blank_timeout :
  let options := mkRunOptions " " false None in
  (refuse_options options, match run_timeout options with inl _ => true | inr _ => false end) = (None, false).
Proof. vm_compute. reflexivity. Qed.

Definition run_moves (ms : list move) (y : system) : option system :=
  foldl (λ acc m, acc ≫= exec_move (λ _, EmptyString) m) (Some y) ms.

Lemma schedule_moves_reachable limit ms y y' : reachable (λ _, EmptyString) limit y → run_moves ms y = Some y' →
  reachable (λ _, EmptyString) limit y'.
Proof.
  unfold run_moves. revert y. induction ms as [|m ms IH]; intros y Hy; simpl; [by intros [= <-]|].
  destruct (exec_move _ m y) as [y1|] eqn:E; [intros; eapply IH; [by eapply reach_step|done]|].
  intros Hn. exfalso. revert Hn. clear. induction ms; [done|]. done.
Qed.

(** The status and the next run of each schedule, and the runs in progress. *)
Definition summary (y : system) : list (string * string * Z * bool) * nat :=
  (map (λ kv, (kv.1, ws_LastStatus kv.2, ws_NextRunAt kv.2, ws_Enabled kv.2)) (map_to_list (sy_store y)),
   length (List.filter (λ r, match rn_stage r with SEnd => false | _ => true end) (sy_runs y))).

Definition minute (n : Z) : Z := (n * 60000000000)%Z.

(** A pass while a run is in progress skips the schedule. *)
Definition overlap_moves : list move :=
  [MCreate "s" "w" every_minute (minute 0 + 1); MList (minute 1) true; MProcess; MStore true; MProcess;
   MList (minute 2) true; MProcess; MStore true; MProcess; MRunEnd 0 (minute 3) (inl "run-1"); MRunGet 0 true; MRunWrite 0 true].

Example overlap_skipped :
  (summary <$> run_moves (take 8 overlap_moves) (start 0), summary <$> run_moves overlap_moves (start 0)) =
  (Some ([("s", ScheduleRunStatusSkippedOverlap, minute 3, true)], 1), Some ([("s", ScheduleRunStatusCompleted, minute 3, true)], 0)).
Proof. vm_compute. reflexivity. Qed.

(** A schedule that is disabled after a pass has listed it is run, and enabled again. *)
Example disable_lost :
  summary <$> run_moves [MCreate "s" "w" every_minute (minute 0 + 1); MList (minute 1) true;
    MUpdateGet "s" "w" (mkScheduleRequest "" (Some false) None None) (minute 1); MUpdateWrite 0; MProcess; MStore true] (start 0) =
  Some ([("s", ScheduleRunStatusRunning, minute 2, true)], 1).
Proof. vm_compute. reflexivity. Qed.

(** An expression without a next time is accepted, and due at every pass. *)
Example impossible_date_always_due :
  summary <$> run_moves [MCreate "s" "w" (mkScheduleRequest "0 0 30 2 *" None None None) (minute 0 + 1);
    MList (minute 1) true; MProcess; MStore true; MProcess; MRunEnd 0 (minute 1) (inl "run-1"); MRunGet 0 true; MRunWrite 0 true;
    MList (minute 1 + 1) true; MProcess; MStore true] (start 0) =
  Some ([("s", ScheduleRunStatusRunning, 0%Z, true)], 1).
Proof. vm_compute. reflexivity. Qed.

End SchedulerSamples.
