(* ===== verification/Transform.v ===== *)
(** * The transform node (nodes/transform.go, nodes/helpers.go)

    Picking, omitting, renaming, flattening, merging, printing and parsing the
    contents of variables. The transforms read maps they share with the envelope
    and build new ones, so that they are modelled over the store of shared maps
    (ObjStore.v); a write to a nil map panics.

    The theorems are in TransformSpec.v. *)

From stdpp Require Import gmap strings list fin_maps.
From Stdlib Require Import Ascii ZArith Lia.
From S2P Require Import Prelude Values GoFmt Envelope ObjStore NodeHelpers Merge Unicode.

(** ** Nested access (nodes/helpers.go) *)

Definition ref_type (r : ref) : string :=
  match r with RVal v => type_name v | RMap _ => "map[string]interface {}" | RList elem _ => "[]" ^^ elem end.

Definition ref_entry (r : ref) (k : string) (st : store) : option ref :=
  m ← as_map_ref r; map_object m st !! k.

(** The loops of [getNestedValue] and [GetVarNested]. *)
Fixpoint nested_ref (st : store) (current : ref) (parts : list string) : option ref :=
  match parts with
  | [] => Some current
  | part :: rest => match ref_entry current part st with None => None | Some r => nested_ref st r rest end
  end.

Definition path_parts (path : string) : list string := GoStr.SplitOn "."%char path.

Lemma path_parts_nonempty path : path_parts path ≠ [].
Proof.
  unfold path_parts. destruct path as [|c s]; [done|]. simpl. case_match; [done|]. by destruct (GoStr.SplitOn _ s).
Qed.

Definition getNestedRef (st : store) (m : ref) (path : string) : option ref := nested_ref st m (path_parts path).

(** [SplitOn] never returns an empty list. *)
Fixpoint set_nested (current : option nat) (parts : list string) (v : ref) : GoM store () :=
  match parts with
  | [] => mret tt
  | [part] => map_write current part v;; mret tt
  | part :: rest =>
      next ← gets (λ st, map_object current st !! part);
      match next ≫= as_map_ref with
      | Some m => set_nested m rest v
      | None => l ← new_map ∅; map_write current part (RMap l);; set_nested (Some l) rest v
      end
  end.

Definition setNestedValue (m : option nat) (path : string) (v : ref) : GoM store () :=
  set_nested m (path_parts path) v.

(** [delete(m, k)], a no-op on a nil map. *)
Definition erase (m : option nat) (k : string) (st : store) : store :=
  match m with Some l => <[l := delete k (object st l)]> st | None => st end.

Fixpoint delete_nested (current : option nat) (parts : list string) : GoM store () :=
  match parts with
  | [] => mret tt
  | [part] => modify (erase current part)
  | part :: rest =>
      next ← gets (λ st, map_object current st !! part);
      match next ≫= as_map_ref with
      | Some m => delete_nested m rest
      | None => mret tt
      end
  end.

Definition deleteNestedValue (m : option nat) (path : string) : GoM store () := delete_nested m (path_parts path).

(** The copy of an element or an entry; [copy] copies maps, and only slices of
    [any] are copied ([deepCopySlice]). *)
Fixpoint copy_ref (copy : option nat → GoM store nat) (r : ref) : GoM store ref :=
  match as_map_ref r, r with
  | Some m, _ => l ← copy m; mret (RMap l)
  | None, RList elem rs =>
      if bool_decide (elem = "interface {}") then
        rs' ← foldr (λ x rest, x' ← copy_ref copy x; rest' ← rest; mret (x' :: rest')) (mret []) rs;
        mret (RList elem rs')
      else mret r
  | None, _ => mret r
  end.

(** Without fuel the recursion does not end, which overflows the stack: the
    nesting of maps that do not contain themselves is at most their number. *)
Section Copy.
Context `{RangeOrder}.

Fixpoint copy_entries (copy : option nat → GoM store nat) (l' : nat) (kvs : list (string * ref)) : GoM store () :=
  match kvs with
  | [] => mret tt
  | (k, v) :: kvs => r ← copy_ref copy v; modify (put l' k r);; copy_entries copy l' kvs
  end.

Fixpoint copy_map (fuel : nat) (m : option nat) : GoM store nat :=
  match fuel with
  | 0 => panic
  | S fuel' =>
      l' ← new_map ∅;
      kvs ← gets (λ st, range_map "deepCopyMap" (map_object m st));
      copy_entries (copy_map fuel') l' kvs;;
      mret l'
  end.

Definition deepCopyMap (m : option nat) : GoM store nat := λ st, copy_map (S (length st)) m st.

(** [MaxDepth = 0] is no limit. *)
Fixpoint flatten_entries (flatten : option nat → string → Z → GoM store ()) (prefix sep : string)
    (maxDepth currentDepth : Z) (result : nat) (kvs : list (string * ref)) : GoM store () :=
  match kvs with
  | [] => mret tt
  | (k, v) :: kvs =>
      let key := if bool_decide (prefix = EmptyString) then k else prefix ^^ sep ^^ k in
      match as_map_ref v, (maxDepth =? 0)%Z || (currentDepth <? maxDepth)%Z with
      | Some nested, true => flatten nested key (currentDepth + 1)%Z
      | _, _ => modify (put result key v)
      end;;
      flatten_entries flatten prefix sep maxDepth currentDepth result kvs
  end.

Fixpoint flatten_map (fuel : nat) (m : option nat) (prefix sep : string) (maxDepth currentDepth : Z)
    (result : nat) : GoM store () :=
  match fuel with
  | 0 => panic
  | S fuel' =>
      kvs ← gets (λ st, range_map "flattenMap" (map_object m st));
      flatten_entries (λ m' prefix' depth', flatten_map fuel' m' prefix' sep maxDepth depth' result)
        prefix sep maxDepth currentDepth result kvs
  end.

Definition flattenMap (m : option nat) (prefix sep : string) (maxDepth currentDepth : Z) (result : nat)
    : GoM store () :=
  λ st, flatten_map (S (length st)) m prefix sep maxDepth currentDepth result st.

(** The keys are those at the start of the loop, the values those of the moment. *)
Fixpoint deep_merge_entries (rec : option nat → option nat → GoM store ()) (dst src : option nat)
    (keys : list string) : GoM store () :=
  match keys with
  | [] => mret tt
  | k :: keys =>
      srcVal ← gets (λ st, map_object src st !! k);
      match srcVal with
      | None => mret tt
      | Some srcVal =>
          dstVal ← gets (λ st, map_object dst st !! k);
          match dstVal ≫= as_map_ref, as_map_ref srcVal with
          | Some dstMap, Some srcMap => rec dstMap srcMap
          | _, _ => map_write dst k srcVal;; mret tt
          end
      end;;
      deep_merge_entries rec dst src keys
  end.

Fixpoint deep_merge (fuel : nat) (dst src : option nat) : GoM store () :=
  match fuel with
  | 0 => panic
  | S fuel' =>
      keys ← gets (λ st, map fst (range_map "deepMerge" (map_object src st)));
      deep_merge_entries (deep_merge fuel') dst src keys
  end.

Definition deepMerge (dst src : option nat) : GoM store () := λ st, deep_merge (S (length st)) dst src st.
End Copy.

(** ** The node *)

Definition TransformPick : string := "pick".
Definition TransformOmit : string := "omit".
Definition TransformRename : string := "rename".
Definition TransformFlatten : string := "flatten".
Definition TransformMerge : string := "merge".
Definition TransformTemplate : string := "template".
Definition TransformStringify : string := "stringify".
Definition TransformParse : string := "parse".
Definition TransformMap : string := "map".
Definition TransformCustom : string := "custom".

Inductive TransformNodeConfig := mkTransform {
  tc_Transform : string;
  tc_InputVar : string;
  tc_InputVars : list string;
  tc_OutputVar : string;
  tc_Fields : list string;
  tc_Mapping : gmap string string;
  tc_Template : string;
  tc_Format : string;
  tc_Separator : string;
  tc_MaxDepth : Z;
  tc_MergeStrategy : string;
  tc_ItemTransform : option TransformNodeConfig;
  tc_CustomFunc : option (senv → GoM store (ref + error))
}.

Definition or_default (s d : string) : string := if bool_decide (s = EmptyString) then d else s.

(** The fields with the defaults of [NewTransformNode]: the configuration below is
    the one given to the constructor. *)
Definition tc_format (c : TransformNodeConfig) : string := or_default (tc_Format c) "json".
Definition tc_separator (c : TransformNodeConfig) : string := or_default (tc_Separator c) ".".
Definition tc_strategy (c : TransformNodeConfig) : string := or_default (tc_MergeStrategy c) "shallow".

(** *** Template functions *)

(** [encoding/json], the text of errors and [strings.Split]. *)
Class TransformLibs := {
  json_Unmarshal : string → value + error;
  error_string : error → string;
  strings_Split : string → string → list string
}.

Definition no_value (v : value) : bool := match v with VNil => true | VString s => bool_decide (s = EmptyString) | _ => false end.

Section Funcs.
Context `{TransformLibs} `{JsonEncoder} `{JsonPrinter} `{LowerTables} `{UpperTables}.

Definition json_func (marshal : value → string + error) : template_func := λ args,
  match args with
  | [v] => Some (VString (match marshal v with inl s => s | inr err => "error: " ^^ error_string err end))
  | _ => None
  end.

Definition on_string (f : string → value) : template_func := λ args,
  match args with [VString s] => Some (f s) | _ => None end.

Definition on_strings (f : string → string → value) : template_func := λ args,
  match args with [VString s; VString t] => Some (f s t) | _ => None end.

Definition transformTemplateFuncs : list (string * template_func) := [
  ("json", json_func json_Marshal);
  ("jsonPretty", json_func json_MarshalIndent);
  ("join", λ args, match args with [VStrings l; VString sep] => Some (VString (GoStr.Join l sep)) | _ => None end);
  ("split", on_strings (λ s sep, VStrings (strings_Split s sep)));
  ("upper", on_string (λ s, VString (ToUpper s)));
  ("lower", on_string (λ s, VString (ToLower s)));
  ("trim", on_string (λ s, VString (TrimSpace s)));
  ("contains", on_strings (λ s sub, VBool (GoStr.Contains s sub)));
  ("hasPrefix", on_strings (λ s p, VBool (GoStr.HasPrefix s p)));
  ("hasSuffix", on_strings (λ s p, VBool (GoStr.HasSuffix s p)));
  ("default", λ args, match args with [defaultVal; val] => Some (if no_value val then defaultVal else val) | _ => None end);
  ("coalesce", λ args, Some (default VNil (find (λ v, negb (no_value v)) args)))].
End Funcs.

(** *** Transforms *)

Definition lift_error (ps : list part) : ref + error := inr (EFmt ps).

(** The maps and slices of a decoded document are new. *)
Fixpoint alloc_value (v : value) : GoM store ref :=
  match v with
  | VMap m =>
      l ← new_map ∅;
      map_fold (λ k x rest, rest;; r ← alloc_value x; modify (put l k r)) (mret tt) m;;
      mret (RMap l)
  | VSlice xs =>
      rs ← foldr (λ x rest, r ← alloc_value x; rs ← rest; mret (r :: rs)) (mret []) xs;
      mret (RList "interface {}" rs)
  | _ => mret (RVal v)
  end.

(** [toSlice] on shared values. *)
Definition ref_slice (r : ref) : list ref + error :=
  let none := inr (EFmt [PS "input is not a slice: "; PS (ref_type r)]) in
  match r with
  | RVal v => match toSlice v with inl l => inl (map RVal l) | inr err => inr err end
  | RMap _ => none
  | RList elem rs =>
      if bool_decide (elem ∈ ["interface {}"; "string"; "int"; "float64"; "map[string]interface {}"])
      then inl rs else none
  end.

Definition env_nested (env : senv) (path : string) (st : store) : option ref :=
  match se_Vars env with None => None | Some l => getNestedRef st (RMap l) path end.

(** The contents of an envelope, as a template reads it. *)
Definition senv_value (st : store) (env : senv) : value :=
  VStruct "*core.Envelope" (list_to_map [("Input", se_Input env);
    ("Vars", match se_Vars env with Some l => contents st (RMap l) | None => VNilMap end);
    ("Artifacts", VSliceOf "core.Artifact" (artifactsToAny (se_Artifacts env)));
    ("Messages", VSliceOf "core.Message" (messagesToAny (se_Messages env)))]).

Section Transforms.
Context `{RangeOrder} `{Printer} `{TransformLibs} `{Templates} `{JsonEncoder} `{JsonPrinter} `{LowerTables} `{UpperTables}.
Implicit Types (c : TransformNodeConfig) (env : senv).

Definition getInput c env (st : store) : ref + error :=
  if bool_decide (tc_InputVar c = EmptyString) then lift_error [PS "InputVar is required"]
  else match env_nested env (tc_InputVar c) st with
       | None => lift_error [PS "variable "; PQ (tc_InputVar c); PS " not found"]
       | Some r => inl r
       end.

(** The input of [pick], [omit], [rename] and [flatten]. *)
Definition with_map c env (verb : string) (body : option nat → GoM store ref) : GoM store (ref + error) :=
  input ← gets (getInput c env);
  match input with
  | inr err => mret (inr err)
  | inl r =>
      match as_map_ref r with
      | None => mret (lift_error [PS verb; PS " requires map input, got "; PS (ref_type r)])
      | Some m => out ← body m; mret (inl out)
      end
  end.

Definition map_ref (m : option nat) : ref := match m with Some l => RMap l | None => RVal VNilMap end.

Fixpoint pick_fields (input : option nat) (result : nat) (fields : list string) : GoM store () :=
  match fields with
  | [] => mret tt
  | field :: fields =>
      val ← gets (λ st, getNestedRef st (map_ref input) field);
      match val with
      | Some val => setNestedValue (Some result) field val
      | None => mret tt
      end;;
      pick_fields input result fields
  end.

Definition transformPick c env : GoM store (ref + error) :=
  if bool_decide (tc_Fields c = []) then mret (lift_error [PS "pick requires Fields"])
  else with_map c env "pick" (λ m,
    result ← new_map ∅; pick_fields m result (tc_Fields c);; mret (RMap result)).

Fixpoint omit_fields (result : nat) (fields : list string) : GoM store () :=
  match fields with
  | [] => mret tt
  | field :: fields => deleteNestedValue (Some result) field;; omit_fields result fields
  end.

Definition transformOmit c env : GoM store (ref + error) :=
  if bool_decide (tc_Fields c = []) then mret (lift_error [PS "omit requires Fields"])
  else with_map c env "omit" (λ m,
    result ← deepCopyMap m; omit_fields result (tc_Fields c);; mret (RMap result)).

Fixpoint rename_fields (result : nat) (renames : list (string * string)) : GoM store () :=
  match renames with
  | [] => mret tt
  | (oldName, newName) :: renames =>
      val ← gets (λ st, getNestedRef st (RMap result) oldName);
      match val with
      | Some val => deleteNestedValue (Some result) oldName;; setNestedValue (Some result) newName val
      | None => mret tt
      end;;
      rename_fields result renames
  end.

Definition transformRename c env : GoM store (ref + error) :=
  if bool_decide (size (tc_Mapping c) = 0) then mret (lift_error [PS "rename requires Mapping"])
  else with_map c env "rename" (λ m,
    result ← deepCopyMap m;
    rename_fields result (range_map "transformRename" (tc_Mapping c));; mret (RMap result)).

Definition transformFlatten c env : GoM store (ref + error) :=
  with_map c env "flatten" (λ m,
    result ← new_map ∅;
    flattenMap m EmptyString (tc_separator c) (tc_MaxDepth c) 0 result;; mret (RMap result)).

Fixpoint put_entries (result : nat) (kvs : list (string * ref)) : GoM store () :=
  match kvs with
  | [] => mret tt
  | (k, v) :: kvs => modify (put result k v);; put_entries result kvs
  end.

Fixpoint merge_variables c env (result : nat) (names : list string) : GoM store () :=
  match names with
  | [] => mret tt
  | varName :: names =>
      val ← gets (env_nested env varName);
      match val with
      | None => mret tt
      | Some val =>
          match as_map_ref val with
          | None => modify (put result varName val)
          | Some m =>
              if bool_decide (tc_strategy c = "deep") then deepMerge (Some result) m
              else kvs ← gets (λ st, range_map "transformMerge" (map_object m st)); put_entries result kvs
          end
      end;;
      merge_variables c env result names
  end.

Definition transformMerge c env : GoM store (ref + error) :=
  if bool_decide (tc_InputVars c = []) then mret (lift_error [PS "merge requires InputVars"])
  else
    result ← new_map ∅;
    merge_variables c env result (tc_InputVars c);;
    mret (inl (RMap result)).

(** A template may not call the mutating methods of the envelope it is given. *)
Definition transformTemplate c env : GoM store (ref + error) :=
  if bool_decide (tc_Template c = EmptyString) then mret (lift_error [PS "template requires Template string"])
  else match template_parses transformTemplateFuncs (tc_Template c) with
  | Some err => mret (inr (EFmt [PS "invalid template: "; PW err]))
  | None =>
      data ← gets (λ st,
        <["_input" := se_Input env]> (<["_env" := senv_value st env]>
          (contents st <$> map_object (se_Vars env) st)));
      match template_execute transformTemplateFuncs (tc_Template c) data with
      | inr err => mret (inr (EFmt [PS "template execution failed: "; PW err]))
      | inl text => mret (inl (RVal (VString text)))
      end
  end.

Definition transformStringify c env : GoM store (ref + error) :=
  input ← gets (getInput c env);
  match input with
  | inr err => mret (inr err)
  | inl r =>
      v ← gets (λ st, contents st r);
      if bool_decide (tc_format c = "json") then
        match json_MarshalIndent v with
        | inr err => mret (inr (EFmt [PS "json marshal failed: "; PW err]))
        | inl text => mret (inl (RVal (VString text)))
        end
      else if bool_decide (tc_format c = "text") then mret (inl (RVal (VString (Sprint v))))
      else mret (lift_error [PS "unsupported stringify format: "; PS (tc_format c)])
  end.

Definition transformParse c env : GoM store (ref + error) :=
  input ← gets (getInput c env);
  match input with
  | inr err => mret (inr err)
  | inl (RVal (VString text)) =>
      if bool_decide (tc_format c = "json") then
        match json_Unmarshal text with
        | inr err => mret (inr (EFmt [PS "json parse failed: "; PW err]))
        | inl v => r ← alloc_value v; mret (inl r)
        end
      else mret (lift_error [PS "unsupported parse format: "; PS (tc_format c)])
  | inl r => mret (lift_error [PS "parse requires string input, got "; PS (ref_type r)])
  end.

Definition transformCustom c env : GoM store (ref + error) :=
  match tc_CustomFunc c with
  | None => mret (lift_error [PS "custom transform requires CustomFunc"])
  | Some f => f env
  end.

(** [ctx_err at_] is [ctx.Err()] when the loop polls the context before the item
    at the positions [at_] (innermost first) of the nested maps. *)
Context (ctx_err : list nat → option error).

Fixpoint map_items (child : list nat → senv → GoM store (senv + error)) (outputVar : string) (at_ : list nat)
    env (i : nat) (items : list ref) : GoM store (list ref + error) :=
  match items with
  | [] => mret (inl [])
  | item :: items =>
      match ctx_err (i :: at_) with
      | Some err => mret (inr err)
      | None =>
          itemEnv ← clone_senv (Some env);
          itemEnv ← deref itemEnv;
          itemEnv ← set_svar "_item" item itemEnv;
          out ← child (i :: at_) itemEnv;
          match out with
          | inr err => mret (inr (EFmt [PS "map item "; PS (GoStr.Itoa i); PS ": "; PW err]))
          | inl resultEnv =>
              r ← gets (get_svar resultEnv outputVar);
              rest ← map_items child outputVar at_ env (S i) items;
              mret (match rest with inl rs => inl (default (RVal VNil) r :: rs) | inr err => inr err end)
          end
      end
  end.

Definition run_error (id : string) (ps : list part) : senv + error :=
  inr (EFmt (PS "transform node " :: PS id :: PS ": " :: ps)).

(** [child]: the node of the items and its output variable. *)
Definition transformMap c (child : option ((list nat → senv → GoM store (senv + error)) * string)) (at_ : list nat)
    env : GoM store (ref + error) :=
  match child with
  | None => mret (lift_error [PS "map requires ItemTransform"])
  | Some (child, outputVar) =>
      input ← gets (getInput c env);
      match input with
      | inr err => mret (inr err)
      | inl r =>
          match ref_slice r with
          | inr err => mret (inr (EFmt [PS "map requires slice input: "; PW err]))
          | inl items =>
              results ← map_items child outputVar at_ env 0 items;
              mret (match results with inl rs => inl (RList "interface {}" rs) | inr err => inr err end)
          end
      end
  end.

(** The switch on the type of the transform; [mapped] is the result of [transformMap]. *)
Definition dispatch_type c env (mapped : GoM store (ref + error)) : option (GoM store (ref + error)) :=
  let is_type (t : string) : bool := bool_decide (tc_Transform c = t) in
  if is_type TransformPick then Some (transformPick c env)
  else if is_type TransformOmit then Some (transformOmit c env)
  else if is_type TransformRename then Some (transformRename c env)
  else if is_type TransformFlatten then Some (transformFlatten c env)
  else if is_type TransformMerge then Some (transformMerge c env)
  else if is_type TransformTemplate then Some (transformTemplate c env)
  else if is_type TransformStringify then Some (transformStringify c env)
  else if is_type TransformParse then Some (transformParse c env)
  else if is_type TransformMap then Some mapped
  else if is_type TransformCustom then Some (transformCustom c env)
  else None.

Definition store_output (outputVar id : string) (result : senv) (output : ref + error) : GoM store (senv + error) :=
  match output with
  | inr err => mret (inr (EFmt [PS "transform node "; PS id; PS ": "; PW err]))
  | inl output =>
      if bool_decide (outputVar = EmptyString) then mret (run_error id [PS "OutputVar is required"])
      else result ← set_svar outputVar output result; mret (inl result)
  end.

Fixpoint Run c (id : string) (at_ : list nat) env {struct c} : GoM store (senv + error) :=
  let child :=
    match tc_ItemTransform c with
    | Some item => Some (Run item (id ^^ "_item"), tc_OutputVar item)
    | None => None
    end in
  result ← clone_senv (Some env);
  result ← deref result;
  match dispatch_type c env (transformMap c child at_ env) with
  | None => mret (run_error id [PS "unknown transform type "; PQ (tc_Transform c)])
  | Some transform => output ← transform; store_output (tc_OutputVar c) id result output
  end.
End Transforms.

