(* ===== verification/TransformSpec.v ===== *)
(** * What the transforms change and return

    No transform but the deep merge and custom functions writes to a map that
    existed before ([transform_isolated]); [pick] hands out exactly the listed parts
    of its input ([pick_correct]); the deep merge is the one of the merge node
    ([deep_merge_agrees]).

    Three kinds of statement on computations over the store are composed: [keeps]
    (the first objects stay), the triples of the section on copies (what a copy
    holds is new), and [sound] (no reference dangles); [kept] joins the first and
    the last. *)

From stdpp Require Import gmap strings list fin_maps.
From Stdlib Require Import Ascii ZArith Lia.
From S2P Require Import Prelude Values GoFmt Envelope ObjStore NodeHelpers Merge Unicode Transform.

(** ** Isolation *)

(** The transforms that may write to a map of the envelope. *)
Fixpoint in_place (c : TransformNodeConfig) : bool :=
  bool_decide (tc_Transform c = TransformCustom) ||
  bool_decide (tc_Transform c = TransformMerge) && bool_decide (tc_strategy c = "deep") ||
  bool_decide (tc_Transform c = TransformMap) &&
    match tc_ItemTransform c with Some item => in_place item | None => false end.

(** A computation that keeps the first [n] objects. *)
Definition keeps (n : nat) {A} (m : GoM store A) : Prop :=
  ∀ st, n ≤ length st → take n (m st).1 = take n st ∧ n ≤ length (m st).1.

Create HintDb keeps.

Lemma keeps_ret n {A} (x : A) : keeps n (mret x).
Proof. by intros st Hn. Qed.

Lemma keeps_gets n {A} (f : store → A) : keeps n (gets f).
Proof. by intros st Hn. Qed.

Lemma keeps_panic n {A} : keeps n (panic (A := A)).
Proof. by intros st Hn. Qed.

Lemma keeps_bind n {A B} (m : GoM store A) (f : A → GoM store B) :
  keeps n m → (∀ a, keeps n (f a)) → keeps n (m ≫= f).
Proof.
  intros Hm Hf st Hn. unfold mbind, gom_bind. specialize (Hm st Hn). destruct (m st) as [st1 [a|]]; [|done].
  simpl in Hm. destruct Hm as [<- Hn1]. by apply Hf.
Qed.

Lemma keeps_new n o : keeps n (new_map o).
Proof. intros st Hn. simpl. rewrite take_app_le, length_app by done. split; [done|simpl; lia]. Qed.

Lemma keeps_insert n l (o : store → obj) : n ≤ l → keeps n (modify (λ st, <[l := o st]> st)).
Proof. intros Hl st Hn. simpl. by rewrite length_insert, take_insert_ge. Qed.

Lemma keeps_put n l k r : n ≤ l → keeps n (modify (put l k r)).
Proof. apply (keeps_insert n l (λ st, <[k := r]> (object st l))). Qed.

Lemma keeps_prefix {A} (m : GoM store A) : (∀ n, keeps n m) → ∀ st, st `prefix_of` (m st).1.
Proof.
  intros Hm st. destruct (Hm (length st) st (le_n _)) as [Ht _]. rewrite (take_ge st) in Ht by done.
  exists (drop (length st) (m st).1). rewrite <- (take_drop (length st) (m st).1) at 1. by rewrite Ht.
Qed.

Lemma keeps_all {A} (m : GoM store A) : (∀ st, st `prefix_of` (m st).1) → ∀ n, keeps n m.
Proof.
  intros Hm n st Hn. destruct (Hm st) as [k ->]. rewrite take_app_le, length_app by done. split; [done|lia].
Qed.

Lemma keeps_bind_post n {A B} (Q : A → Prop) (m : GoM store A) (f : A → GoM store B) :
  (∀ st a, n ≤ length st → (m st).2 = Some a → Q a) → keeps n m → (∀ a, Q a → keeps n (f a)) → keeps n (m ≫= f).
Proof.
  intros HQ Hm Hf st Hn. unfold mbind, gom_bind. specialize (Hm st Hn). specialize (HQ st).
  destruct (m st) as [st1 [a|]]; [|done]. simpl in *. destruct Hm as [<- Hn1]. by apply Hf; [apply HQ|].
Qed.

Lemma keeps_bind_new n {B} o (f : nat → GoM store B) : (∀ l, n ≤ l → keeps n (f l)) → keeps n (new_map o ≫= f).
Proof. apply keeps_bind_post; [|apply keeps_new]. by intros st a Hn [= <-]. Qed.

#[local] Hint Resolve keeps_ret keeps_gets keeps_panic keeps_new keeps_put : keeps.

(** Steps through the binds and the branches of a computation. *)
Ltac keeps :=
  repeat first
    [ apply keeps_bind_new; intros ? ?
    | apply keeps_bind; [|intros ?]
    | progress eauto 4 with keeps
    | case_match ].

Lemma keeps_clone n env {B} (f : option senv → GoM store B) :
  (∀ e, (∀ l, se_Vars e = Some l → n ≤ l) → keeps n (f (Some e))) → keeps n (clone_senv (Some env) ≫= f).
Proof.
  intros Hf. apply (keeps_bind_post n (λ e, ∃ e', e = Some e' ∧ ∀ l, se_Vars e' = Some l → n ≤ l)).
  - intros st e Hn. unfold clone_senv. destruct (se_Vars env) eqn:Hv; intros [= <-]; eexists; split; try done.
    + simpl. congruence.
    + intros l. congruence.
  - unfold clone_senv. keeps.
  - intros ? (e & -> & He). by apply Hf.
Qed.

Lemma keeps_set_svar n name r e : (∀ l, se_Vars e = Some l → n ≤ l) → keeps n (set_svar name r e).
Proof. intros He. unfold set_svar. keeps. Qed.

Lemma keeps_put_entries n l kvs : n ≤ l → keeps n (put_entries l kvs).
Proof. intros Hl. induction kvs as [|[k v] kvs IH]; simpl; keeps. Qed.

(** Induction over the maps and slices inside a value. *)
Fixpoint nesting (v : value) : nat :=
  match v with
  | VMap m => S (map_fold (λ _ x acc, max (nesting x) acc) 0 m)
  | VSlice l => S (foldr (λ x acc, max (nesting x) acc) 0 l)
  | _ => 0
  end.

Definition parts_of (v : value) : list value :=
  match v with VMap m => (map_to_list m).*2 | VSlice l => l | _ => [] end.

Lemma nesting_parts v x : x ∈ parts_of v → nesting x < nesting v.
Proof.
  assert (∀ l : list value, x ∈ l → nesting x ≤ foldr (λ x acc, max (nesting x) acc) 0 l) as Hl.
  { intros l. induction l as [|y l IH]; [by intros Hx%not_elem_of_nil|]. simpl.
    intros [->|Hx%IH]%elem_of_cons; lia. }
  destruct v; simpl; try by intros Hx%not_elem_of_nil.
  - intros Hx%Hl. lia.
  - rewrite map_fold_foldr. intros Hx. apply Nat.lt_succ_r.
    induction (map_to_list m) as [|[k y] l IH]; [by apply not_elem_of_nil in Hx|]. simpl.
    apply elem_of_cons in Hx as [->|Hx]; simpl; [lia|]. specialize (IH Hx). lia.
Qed.

Lemma value_parts_induct (P : value → Prop) : (∀ v, (∀ x, x ∈ parts_of v → P x) → P v) → ∀ v, P v.
Proof.
  intros Hstep v. remember (nesting v) as d eqn:Hd. revert v Hd.
  induction (lt_wf d) as [d _ IH]. intros v ->. apply Hstep. intros x Hx%nesting_parts. by eapply IH.
Qed.

Lemma keeps_alloc n v : keeps n (alloc_value v).
Proof.
  induction v as [v IH] using value_parts_induct. destruct v; simpl; eauto with keeps.
  - apply keeps_bind; [|by keeps]. simpl in IH. induction l as [|x l IHl]; simpl; [eauto with keeps|].
    apply keeps_bind; [apply IH; by left|]. intros r. apply keeps_bind; [|by keeps].
    apply IHl. intros y Hy. apply IH. by right.
  - apply keeps_bind_new. intros l Hl. apply keeps_bind; [|by keeps]. simpl in IH. rewrite map_fold_foldr.
    induction (map_to_list m) as [|[k x] kvs IHl]; simpl; [eauto with keeps|].
    apply keeps_bind; [apply IHl; intros y Hy; apply IH; by right|]. intros _.
    apply keeps_bind; [apply IH; by left|]. eauto with keeps.
Qed.

(** *** Copies *)

(** The objects made since [base] hold only each other: a path through them stays
    among them. *)
Definition fresh_ref (base : store) (r : ref) : Prop := ∀ l, r = RMap l → length base ≤ l.

Definition own_entries (base st : store) : Prop :=
  base `prefix_of` st ∧
  ∀ l o k r, length base ≤ l → st !! l = Some o → o !! k = Some r → fresh_ref base r.

Definition grown (base st : store) : Prop := base `prefix_of` st.

Lemma own_grown base st : own_entries base st → grown base st.
Proof. by intros [? _]. Qed.

Lemma own_insert base st l o : own_entries base st → length base ≤ l →
  (∀ k r, o !! k = Some r → fresh_ref base r) → own_entries base (<[l := o]> st).
Proof.
  intros [[k ->] Hown] Hl Ho. split.
  - rewrite insert_app_r_alt by done. by eexists.
  - intros l' o' k' r Hl' [(<- & <- & _)|[_ Hlk]]%list_lookup_insert_Some Hr; eauto.
Qed.

Lemma own_object base st l k r : own_entries base st → length base ≤ l → object st l !! k = Some r → fresh_ref base r.
Proof.
  intros [_ Hown] Hl. unfold object. destruct (st !! l) as [o|] eqn:Ho; simpl; [eauto|by rewrite lookup_empty].
Qed.

Lemma own_put base st l k r : own_entries base st → length base ≤ l → fresh_ref base r →
  own_entries base (put l k r st).
Proof.
  intros Hown Hl Hr. apply own_insert; [done..|]. intros k' r' [[_ <-]|[_ Hk]]%lookup_insert_Some; [done|].
  by eapply own_object.
Qed.

Lemma own_new base st : own_entries base st → own_entries base (st ++ [∅]).
Proof.
  intros [[k ->] Hown]. split; [rewrite <- (assoc_L (++)); by eexists|].
  intros l o k' r Hl [Hlk|[Hge Hlk]]%lookup_app_Some Hr; [by eauto|].
  apply list_lookup_singleton_Some in Hlk as [_ <-]. by rewrite lookup_empty in Hr.
Qed.

Section Owned.
Context `{RangeOrder} (base : store).

Notation owned m Q := (triple (own_entries base) m (λ a st, own_entries base st ∧ Q a) (grown base)).

Lemma owned_ret {A} (x : A) (Q : A → Prop) : Q x → owned (mret x) Q.
Proof. by intros HQ st Hst. Qed.

Lemma owned_panic {A} (Q : A → Prop) : owned panic Q.
Proof. intros st Hst. by apply own_grown. Qed.

Lemma owned_bind {A B} (m : GoM store A) (f : A → GoM store B) Q R :
  owned m Q → (∀ a, Q a → owned (f a) R) → owned (m ≫= f) R.
Proof.
  intros Hm Hf. eapply triple_bind; [exact Hm|]. intros a st [Hst Ha]. by apply (Hf a Ha).
Qed.

Lemma owned_gets {A B} (g : store → A) (f : A → GoM store B) (Q : A → Prop) R :
  (∀ st, own_entries base st → Q (g st)) → (∀ a, Q a → owned (f a) R) → owned (gets g ≫= f) R.
Proof. intros Hg. apply owned_bind. intros st Hst. split; [done|by apply Hg]. Qed.

Lemma owned_new : owned (new_map ∅) (λ l, length base ≤ l).
Proof.
  intros st Hst. split; [by apply own_new|]. destruct Hst as [Hp _]. by apply prefix_length.
Qed.

Lemma owned_put l k r : length base ≤ l → fresh_ref base r → owned (modify (put l k r)) (λ _, True).
Proof. intros Hl Hr st Hst. split; [by apply own_put|done]. Qed.

Definition fresh_map (m : option nat) : Prop := ∀ l, m = Some l → length base ≤ l.

Lemma fresh_as_map r m : fresh_ref base r → as_map_ref r = Some m → fresh_map m.
Proof. intros Hr Hm l ->. destruct r as [[]| |]; simplify_eq/=. by apply Hr. Qed.

Lemma owned_write m k r : fresh_map m → fresh_ref base r → owned (map_write m k r) (λ _, True).
Proof.
  intros Hm Hr. destruct m as [l|]; simpl; [|apply owned_panic].
  eapply owned_bind; [apply owned_put; [by apply Hm|done]|]. intros _ _. by apply owned_ret.
Qed.

Lemma owned_copy_ref copy r : (∀ m, owned (copy m) (λ l, length base ≤ l)) →
  owned (copy_ref copy r) (fresh_ref base).
Proof.
  intros Hcopy.
  assert (∀ m, owned (l ← copy m; mret (RMap l)) (fresh_ref base)) as Hmap.
  { intros m. eapply owned_bind; [apply Hcopy|]. intros l Hl. apply owned_ret. by intros ? [= <-]. }
  induction r as [v|l|elem rs IH] using ref_induct; [destruct v; simpl; try apply Hmap; by apply owned_ret|apply Hmap|].
  simpl. case_bool_decide; [|by apply owned_ret].
  eapply (owned_bind _ _ (λ _, True)); [|intros rs' _; by apply owned_ret].
  clear -IH. induction IH as [|r rs Hr _ IH]; simpl; [by apply owned_ret|].
  eapply owned_bind; [exact Hr|]. intros r' _. eapply owned_bind; [exact IH|]. intros rs' _. by apply owned_ret.
Qed.

Lemma owned_copy_map fuel m : owned (copy_map fuel m) (λ l, length base ≤ l).
Proof.
  revert m. induction fuel as [|fuel IH]; intros m; [apply owned_panic|]. cbn [copy_map].
  eapply owned_bind; [apply owned_new|]. intros l Hl.
  apply (owned_gets _ _ (λ _, True)); [done|]. intros kvs _.
  eapply (owned_bind _ _ (λ _, True)); [|intros _ _; by apply owned_ret].
  induction kvs as [|[k v] kvs IHk]; simpl; [by apply owned_ret|].
  eapply owned_bind; [by apply owned_copy_ref|]. intros r Hr.
  eapply owned_bind; [by apply owned_put|]. by intros _ _.
Qed.

Lemma owned_deepCopyMap m : owned (deepCopyMap m) (λ l, length base ≤ l).
Proof. intros st. apply owned_copy_map. Qed.

(** A step along a path of owned maps. *)
Lemma own_entry st m k r : own_entries base st → fresh_map m → map_object m st !! k = Some r → fresh_ref base r.
Proof. intros Hst Hm. destruct m as [l|]; simpl; [|by rewrite lookup_empty]. by eapply own_object; [|apply Hm]. Qed.

Definition fresh_next (next : option ref) : Prop := ∀ r, next = Some r → fresh_ref base r.

Lemma own_next st m k : own_entries base st → fresh_map m → fresh_next (map_object m st !! k).
Proof. intros Hst Hm r. by apply own_entry. Qed.

Lemma fresh_step next m : fresh_next next → next ≫= as_map_ref = Some m → fresh_map m.
Proof. intros Hn (r & Hr & Hm)%bind_Some. eapply fresh_as_map; [by apply Hn|done]. Qed.

Lemma owned_delete parts m : fresh_map m → owned (delete_nested m parts) (λ _, True).
Proof.
  revert m. induction parts as [|p [|p' parts] IH]; intros m Hm; [by apply owned_ret| |].
  - intros st Hst. split; [|done]. destruct m as [l|]; [|done]. apply own_insert; [done|by apply Hm|].
    intros k r [_ Hk]%lookup_delete_Some. eapply own_object; [done| |done]. by apply Hm.
  - cbn [delete_nested]. apply (owned_gets _ _ fresh_next); [intros st Hst; by apply own_next|]. intros next Hn.
    destruct (next ≫= as_map_ref) as [m'|] eqn:Hm'; [|by apply owned_ret]. by apply IH, (fresh_step next).
Qed.

Lemma owned_set parts m v : fresh_map m → fresh_ref base v → owned (set_nested m parts v) (λ _, True).
Proof.
  revert m. induction parts as [|p [|p' parts] IH]; intros m Hm Hv; [by apply owned_ret| |].
  - simpl. eapply owned_bind; [by apply owned_write|]. intros _ _. by apply owned_ret.
  - cbn [set_nested]. apply (owned_gets _ _ fresh_next); [intros st Hst; by apply own_next|]. intros next Hn.
    destruct (next ≫= as_map_ref) as [m'|] eqn:Hm'; [by apply IH; [apply (fresh_step next)|]|].
    eapply owned_bind; [apply owned_new|]. intros l Hl.
    eapply owned_bind; [apply owned_write; [done|]; by intros ? [= <-]|]. intros _ _.
    apply IH; [|done]. by intros ? [= <-].
Qed.

Lemma own_nested st r parts x : own_entries base st → fresh_ref base r → nested_ref st r parts = Some x →
  fresh_ref base x.
Proof.
  intros Hst. revert r. induction parts as [|p parts IH]; intros r Hr; simpl; [by intros [= <-]|].
  unfold ref_entry. destruct (as_map_ref r) as [m|] eqn:Hm; [|done]. simpl.
  destruct (map_object m st !! p) as [r'|] eqn:Hr'; [|done]. apply IH.
  eapply own_entry; [done| |done]. by eapply fresh_as_map.
Qed.

Lemma owned_omit l fields : length base ≤ l → owned (omit_fields l fields) (λ _, True).
Proof.
  intros Hl. induction fields as [|f fields IH]; simpl; [by apply owned_ret|].
  eapply owned_bind; [apply owned_delete; by intros ? [= <-]|]. by intros _ _.
Qed.

Lemma owned_rename l renames : length base ≤ l → owned (rename_fields l renames) (λ _, True).
Proof.
  intros Hl. assert (fresh_map (Some l)) as Hf by (by intros ? [= <-]).
  induction renames as [|[old new] renames IH]; simpl; [by apply owned_ret|].
  apply (owned_gets _ _ fresh_next).
  { intros st Hst x. apply own_nested; [done|]. by intros ? [= <-]. }
  intros [v|] Hv; [|by apply (owned_bind _ _ (λ _, True)); [apply owned_ret|]].
  eapply owned_bind; [|by intros _ _].
  eapply owned_bind; [by apply owned_delete|]. intros _ _. apply owned_set; [done|by apply Hv].
Qed.
End Owned.

Lemma own_self st : own_entries st st.
Proof. split; [done|]. intros l o k r Hl Ho%lookup_lt_Some. lia. Qed.

Lemma owned_keeps {A} (m : GoM store A) (Q : store → A → Prop) :
  (∀ base, triple (own_entries base) m (λ a st, own_entries base st ∧ Q base a) (grown base)) → ∀ n, keeps n m.
Proof.
  intros Hm. apply keeps_all. intros st. specialize (Hm st st (own_self st)).
  destruct (m st) as [st' [a|]]; [by apply own_grown, (proj1 Hm)|exact Hm].
Qed.

(** *** Stores without dangling references *)

Fixpoint in_store (n : nat) (r : ref) : Prop :=
  match r with
  | RVal _ => True
  | RMap l => l < n
  | RList _ rs => foldr (λ x rest, in_store n x ∧ rest) True rs
  end.

Definition valid (st : store) : Prop := ∀ l o k r, st !! l = Some o → o !! k = Some r → in_store (length st) r.

Lemma in_store_list n elem rs : in_store n (RList elem rs) ↔ Forall (in_store n) rs.
Proof. simpl. induction rs as [|r rs IH]; simpl; [done|]. by rewrite Forall_cons, IH. Qed.

Lemma in_store_mono n n' r : n ≤ n' → in_store n r → in_store n' r.
Proof.
  intros Hn. induction r as [v|l|elem rs IH] using ref_induct; [done|simpl; lia|].
  rewrite !in_store_list, !Forall_forall. rewrite Forall_forall in IH. eauto.
Qed.

Lemma valid_object st l k r : valid st → object st l !! k = Some r → in_store (length st) r.
Proof. intros Hst. unfold object. destruct (st !! l) eqn:Hl; simpl; [by eauto|by rewrite lookup_empty]. Qed.

Lemma valid_map st m k r : valid st → map_object m st !! k = Some r → in_store (length st) r.
Proof. intros Hst. destruct m as [l|]; simpl; [by apply valid_object|by rewrite lookup_empty]. Qed.

Lemma valid_nested st r parts x : valid st → in_store (length st) r → nested_ref st r parts = Some x →
  in_store (length st) x.
Proof.
  intros Hst. revert r. induction parts as [|p parts IH]; intros r Hr; simpl; [by intros [= <-]|].
  unfold ref_entry. destruct (as_map_ref r) as [m|]; [|done]. simpl.
  destruct (map_object m st !! p) as [r'|] eqn:Hr'; [|done]. apply IH. by eapply valid_map.
Qed.

Lemma valid_insert st l o : valid st → (∀ k r, o !! k = Some r → in_store (length st) r) → valid (<[l := o]> st).
Proof.
  intros Hst Ho l' o' k r [(<- & <- & _)|[_ Hl]]%list_lookup_insert_Some Hr; rewrite length_insert; eauto.
Qed.

Lemma valid_put st l k r : valid st → in_store (length st) r → valid (put l k r st).
Proof.
  intros Hst Hr. apply valid_insert; [done|].
  intros k' r' [[_ <-]|[_ Hk]]%lookup_insert_Some; [done|]. by eapply valid_object.
Qed.

Lemma valid_new st o : valid st → (∀ k r, o !! k = Some r → in_store (S (length st)) r) → valid (st ++ [o]).
Proof.
  intros Hst Ho l o' k r Hl Hr. rewrite length_app, Nat.add_comm. simpl.
  apply lookup_app_Some in Hl as [Hl|[_ [_ <-]%list_lookup_singleton_Some]]; [|by eauto].
  eapply in_store_mono; [|by eauto]. lia.
Qed.

(** A computation on references below [N] that leaves no reference dangling. *)
Definition sound {A} (N : nat) (m : GoM store A) (Q : nat → A → Prop) : Prop :=
  ∀ st, valid st → N ≤ length st →
  match m st with (st', Some a) => valid st' ∧ N ≤ length st' ∧ Q (length st') a | (_, None) => True end.

Lemma sound_ret {A} N (x : A) (Q : nat → A → Prop) : (∀ n, N ≤ n → Q n x) → sound N (mret x) Q.
Proof. intros HQ st Hst HN. split; [done|]. split; [done|]. by apply HQ. Qed.

Lemma sound_panic {A} N (Q : nat → A → Prop) : sound N panic Q.
Proof. by intros st Hst HN. Qed.

Lemma sound_bind {A B} N (m : GoM store A) (f : A → GoM store B) Q R :
  sound N m Q → (∀ n a, N ≤ n → Q n a → sound n (f a) R) → sound N (m ≫= f) R.
Proof.
  intros Hm Hf st Hst HN. unfold mbind, gom_bind. specialize (Hm st Hst HN).
  destruct (m st) as [st1 [a|]]; [|done]. destruct Hm as (Hst1 & HN1 & Ha).
  specialize (Hf _ a HN1 Ha st1 Hst1 (le_n _)). destruct (f a st1) as [st2 [b|]]; [|done].
  destruct Hf as (Hst2 & HN2 & Hb). split; [done|]. split; [lia|done].
Qed.

Lemma sound_weaken {A} N (m : GoM store A) (Q R : nat → A → Prop) :
  sound N m Q → (∀ n a, N ≤ n → Q n a → R n a) → sound N m R.
Proof.
  intros Hm HQR st Hst HN. specialize (Hm st Hst HN). destruct (m st) as [st' [a|]]; [|done]. naive_solver.
Qed.

Lemma sound_gets {A B} N (g : store → A) (f : A → GoM store B) (Q : nat → A → Prop) R :
  (∀ st, valid st → N ≤ length st → Q (length st) (g st)) → (∀ n a, N ≤ n → Q n a → sound n (f a) R) →
  sound N (gets g ≫= f) R.
Proof. intros Hg. apply sound_bind. intros st Hst HN. split; [done|]. split; [done|]. by apply Hg. Qed.

Definition any_result {A} (n : nat) (a : A) : Prop := True.

Lemma sound_new N : sound N (new_map ∅) (λ n l, l < n).
Proof.
  intros st Hst HN. simpl. rewrite length_app. simpl. split; [|lia].
  apply valid_new; [done|]. intros k r. by rewrite lookup_empty.
Qed.

Lemma sound_put N l k r : in_store N r → sound N (modify (put l k r)) any_result.
Proof.
  intros Hr st Hst HN. simpl. unfold put at 2 3. rewrite length_insert. split; [|done].
  apply valid_put; [done|]. by eapply in_store_mono.
Qed.

Lemma sound_write N m k r : in_store N r → sound N (map_write m k r) any_result.
Proof.
  intros Hr. destruct m as [l|]; simpl; [|apply sound_panic].
  eapply sound_bind; [by apply sound_put|]. intros. by apply sound_ret.
Qed.

(** The entry read from a map. *)
Definition entry_in (n : nat) (r : option ref) : Prop := ∀ x, r = Some x → in_store n x.

Definition entries_in (n : nat) (kvs : list (string * ref)) : Prop := Forall (λ kv, in_store n kv.2) kvs.

Lemma valid_entries `{RangeOrder} site st m : valid st → entries_in (length st) (range_map site (map_object m st)).
Proof.
  intros Hst. apply Forall_forall. intros [k r] Hk%elem_of_range. by eapply valid_map.
Qed.

Lemma entries_mono n n' kvs : n ≤ n' → entries_in n kvs → entries_in n' kvs.
Proof. intros Hn Hk. eapply Forall_impl; [exact Hk|]. intros kv. by apply in_store_mono. Qed.

Section Sound.
Context `{RangeOrder}.

Lemma sound_copy_ref N copy r : in_store N r → (∀ n m, N ≤ n → sound n (copy m) (λ n l, l < n)) →
  sound N (copy_ref copy r) in_store.
Proof.
  intros Hr Hcopy. revert N Hr Hcopy. induction r as [v|l|elem rs IH] using ref_induct; intros N Hr Hcopy.
  - destruct v; simpl; try (by apply sound_ret). eapply sound_bind; [by apply Hcopy|]. intros n l _ Hl.
    apply sound_ret. intros ? ?. simpl in *. lia.
  - simpl. eapply sound_bind; [by apply Hcopy|]. intros n l' _ Hl. apply sound_ret. intros ? ?. simpl in *. lia.
  - simpl. case_bool_decide; [|apply sound_ret; intros n Hn; by eapply in_store_mono].
    eapply (sound_bind _ _ _ (λ n rs', Forall (in_store n) rs')).
    2: { intros n rs' _ Hrs. apply sound_ret. intros n' Hn. apply in_store_list.
         eapply Forall_impl; [exact Hrs|]. intros x. by apply in_store_mono. }
    apply in_store_list in Hr. revert N Hr Hcopy. induction IH as [|r rs Hx _ IHrs]; intros N Hr Hcopy; simpl.
    { by apply sound_ret. }
    apply Forall_cons in Hr as [Hr Hrs]. eapply sound_bind; [by apply Hx|]. intros n x' Hn Hx'.
    eapply sound_bind.
    { apply IHrs; [|intros n' m Hn'; apply Hcopy; lia].
      eapply Forall_impl; [exact Hrs|]. intros y. by apply in_store_mono. }
    intros n' rs' Hn' Hrs'. apply sound_ret. intros n'' Hn''. constructor; [eapply in_store_mono; [|exact Hx']; lia|].
    eapply Forall_impl; [exact Hrs'|]. intros y. by apply in_store_mono.
Qed.

Lemma sound_copy_entries N copy l kvs : entries_in N kvs → (∀ n m, N ≤ n → sound n (copy m) (λ n l, l < n)) →
  sound N (copy_entries copy l kvs) any_result.
Proof.
  revert N. induction kvs as [|[k v] kvs IH]; intros N Hk Hcopy; simpl; [by apply sound_ret|].
  apply Forall_cons in Hk as [Hv Hk]. eapply sound_bind; [by apply sound_copy_ref|]. intros n r Hn Hr.
  eapply sound_bind; [by apply sound_put|]. intros n' _ Hn' _.
  apply IH; [eapply entries_mono; [|exact Hk]; lia|]. intros n'' m Hn''. apply Hcopy. lia.
Qed.

Lemma sound_copy_map fuel N m : sound N (copy_map fuel m) (λ n l, l < n).
Proof.
  revert N m. induction fuel as [|fuel IH]; intros N m; [apply sound_panic|]. cbn [copy_map].
  eapply sound_bind; [apply sound_new|]. intros n l Hn Hl.
  apply (sound_gets _ _ _ entries_in); [intros st Hst _; by apply valid_entries|]. intros n' kvs Hn' Hk.
  eapply sound_bind; [by apply sound_copy_entries|]. intros n'' _ Hn'' _. apply sound_ret. intros ? ?. simpl in *. lia.
Qed.

Lemma sound_delete N parts m : sound N (delete_nested m parts) any_result.
Proof.
  revert N m. induction parts as [|p [|p' parts] IH]; intros N m; [by apply sound_ret| |].
  - intros st Hst HN. simpl. destruct m as [l|]; [|done]. simpl. rewrite length_insert. split; [|done].
    apply valid_insert; [done|]. intros k r [_ Hk]%lookup_delete_Some. by eapply valid_object.
  - cbn [delete_nested]. apply (sound_gets _ _ _ any_result); [done|]. intros n next Hn _.
    destruct (next ≫= as_map_ref); [apply IH|by apply sound_ret].
Qed.

Lemma sound_set N parts m v : in_store N v → sound N (set_nested m parts v) any_result.
Proof.
  revert N m. induction parts as [|p [|p' parts] IH]; intros N m Hv; [by apply sound_ret| |].
  - simpl. eapply sound_bind; [by apply sound_write|]. intros. by apply sound_ret.
  - cbn [set_nested]. apply (sound_gets _ _ _ any_result); [done|]. intros n next Hn _.
    assert (in_store n v) by (by eapply in_store_mono).
    destruct (next ≫= as_map_ref); [by apply IH|].
    eapply sound_bind; [apply sound_new|]. intros n' l Hn' Hl. eapply sound_bind; [by apply sound_write|].
    intros n'' _ Hn'' _. apply IH. eapply in_store_mono; [|done]. lia.
Qed.

Lemma sound_flatten fuel N m prefix sep maxDepth depth result :
  sound N (flatten_map fuel m prefix sep maxDepth depth result) any_result.
Proof.
  revert N m prefix depth. induction fuel as [|fuel IH]; intros N m prefix depth; [apply sound_panic|].
  cbn [flatten_map]. apply (sound_gets _ _ _ entries_in); [intros st Hst _; by apply valid_entries|].
  intros n kvs Hn. clear N Hn. revert n. induction kvs as [|[k v] kvs IHk]; intros n Hk; simpl; [by apply sound_ret|].
  apply Forall_cons in Hk as [Hv Hk]. eapply (sound_bind _ _ _ any_result).
  - destruct (as_map_ref v); [case_match; [apply IH|]|]; by apply sound_put.
  - intros n' _ Hn' _. apply IHk. by eapply entries_mono.
Qed.

Lemma sound_put_entries N l kvs : entries_in N kvs → sound N (put_entries l kvs) any_result.
Proof.
  revert N. induction kvs as [|[k v] kvs IH]; intros N Hk; simpl; [by apply sound_ret|].
  apply Forall_cons in Hk as [Hv Hk]. eapply sound_bind; [by apply sound_put|]. intros n _ Hn _.
  apply IH. by eapply entries_mono.
Qed.

Lemma sound_alloc N v : sound N (alloc_value v) in_store.
Proof.
  revert N. induction v as [v IH] using value_parts_induct. destruct v; intros N; simpl; try by apply sound_ret.
  - eapply (sound_bind _ _ _ (λ n rs', Forall (in_store n) rs')).
    2: { intros n rs' _ Hrs. apply sound_ret. intros n' Hn. apply in_store_list.
         eapply Forall_impl; [exact Hrs|]. intros x. by apply in_store_mono. }
    simpl in IH. revert N. induction l as [|x l IHl]; intros N; simpl; [by apply sound_ret|].
    eapply sound_bind; [apply IH; by left|]. intros n r Hn Hr.
    eapply sound_bind; [apply IHl; intros y Hy; apply IH; by right|].
    intros n' rs Hn' Hrs. apply sound_ret. intros n'' Hn''. constructor; [eapply in_store_mono; [|exact Hr]; lia|].
    eapply Forall_impl; [exact Hrs|]. intros y. by apply in_store_mono.
  - eapply sound_bind; [apply sound_new|]. intros n l Hn Hl. eapply (sound_bind _ _ _ any_result).
    2: { intros n' _ Hn' _. apply sound_ret. intros ? ?. simpl in *. lia. }
    simpl in IH. rewrite map_fold_foldr. clear Hl. revert n Hn. induction (map_to_list m) as [|[k x] kvs IHl];
      intros n Hn; simpl; [by apply sound_ret|].
    eapply sound_bind; [apply IHl; [intros y Hy; apply IH; by right|done]|]. intros n' _ Hn' _.
    eapply sound_bind; [apply IH; by left|]. intros n'' r Hn'' Hr. by apply sound_put.
Qed.
End Sound.

(** ** Picking *)

Section Pick.
Context (base : store) (input : ref) (fields : list (list string)).
Hypothesis Hvalid : valid base.
Hypothesis Hinput : in_store (length base) input.

(** The part of the input at a path. *)
Notation part q := (nested_ref base input q).
Definition found (q : list string) : Prop := q ∈ fields ∧ is_Some (part q).

Lemma map_object_grown st m : grown base st → (∀ l, m = Some l → l < length base) →
  map_object m st = map_object m base.
Proof.
  intros [k ->] Hm. destruct m as [l|]; [|done]. simpl. unfold object. by rewrite lookup_app_l by (by apply Hm).
Qed.

(** Old references are read the same in every later store. *)
Lemma nested_grown st r q : grown base st → in_store (length base) r → nested_ref st r q = nested_ref base r q.
Proof.
  intros Hst. revert r. induction q as [|k q IH]; intros r Hr; [done|]. simpl. unfold ref_entry.
  destruct (as_map_ref r) as [m|] eqn:Hm; [|done]. simpl. rewrite (map_object_grown st m Hst).
  - destruct (map_object m base !! k) as [r'|] eqn:Hr'; [|done]. apply IH. by eapply valid_map.
  - intros l ->. by destruct r as [[]| |]; simplify_eq/=.
Qed.

Lemma nested_app st r q q' : nested_ref st r (q ++ q') = x ← nested_ref st r q; nested_ref st x q'.
Proof. revert r. induction q as [|k q IH]; intros r; [done|]. simpl. destruct (ref_entry r k st); [apply IH|done]. Qed.

Lemma part_in_store q r : part q = Some r → in_store (length base) r.
Proof. by apply valid_nested. Qed.

(** What stands in the result at a path: a new map above a listed field, or the
    listed part of the input itself. *)
Inductive picked (P : nat → list string) (n : nat) (q : list string) : ref → Prop :=
| PickedMap l f : length base ≤ l < n → P l = q → found f → q `prefix_of` f → picked P n q (RMap l)
| PickedPart r : found q → part q = Some r → picked P n q r.

Record pick_inv (P : nat → list string) (st : store) : Prop := {
  pk_grown : grown base st;
  pk_entry l k r : length base ≤ l → object st l !! k = Some r → picked P (length st) (P l ++ [k]) r
}.

(** The effect of setting the part at the path [g] below the map [l]. *)
Record pick_step (l : nat) (g : list string) (P P' : nat → list string) (st st' : store) : Prop := {
  ps_inv : pick_inv P' st';
  ps_length : length st ≤ length st';
  ps_place x : x < length st → P' x = P x;
  ps_frame x : x < length st → ¬ P l `prefix_of` P x → st' !! x = st !! x;
  ps_kept q r : nested_ref st (RMap l) q = Some r → part (P l ++ q) = Some r → nested_ref st' (RMap l) q = Some r;
  ps_value : nested_ref st' (RMap l) g = part (P l ++ g)
}.

Lemma nested_cons st l k q : nested_ref st (RMap l) (k :: q) = x ← object st l !! k; nested_ref st x q.
Proof. done. Qed.

Lemma object_eq st st' l : st' !! l = st !! l → object st' l = object st l.
Proof. unfold object. by intros ->. Qed.

(** A part that is read below a map stays when nothing below that map changes. *)
Lemma nested_frame P st st' z q r : pick_inv P st → grown base st' → length base ≤ z < length st →
  (∀ x, length base ≤ x < length st → P z `prefix_of` P x → st' !! x = st !! x) →
  nested_ref st (RMap z) q = Some r → part (P z ++ q) = Some r → nested_ref st' (RMap z) q = Some r.
Proof.
  intros Hst Hst'. revert z. induction q as [|k q IH]; intros z Hz Hfr; [done|]. rewrite !nested_cons.
  intros (x & Hx & Hq)%bind_Some Hpart.
  rewrite (object_eq st st' z) by (apply Hfr; done). rewrite Hx. simpl.
  rewrite cons_middle, (assoc_L (++)) in Hpart.
  destruct (pk_entry P st Hst z k x) as [l f Hl HP _ _|x _ Hpx]; [lia|done| |].
  - apply IH; [done| |done|by rewrite HP]. intros y Hy Hpre. apply Hfr; [done|]. etrans; [|exact Hpre].
    rewrite HP. by apply prefix_app_r.
  - rewrite nested_app, Hpx in Hpart. rewrite nested_grown; [done..|by eapply part_in_store].
Qed.

Lemma set_last l k v st : set_nested (Some l) [k] v st = (put l k v st, Some tt).
Proof. done. Qed.

Lemma set_next m k k' q v st r m' : map_object m st !! k = Some r → as_map_ref r = Some m' →
  set_nested m (k :: k' :: q) v st = set_nested m' (k' :: q) v st.
Proof. intros Hr Hm. cbn [set_nested]. unfold mbind at 1, gom_bind at 1, gets. rewrite Hr. simpl. by rewrite Hm. Qed.

Lemma set_create l k k' q v st : object st l !! k = None →
  set_nested (Some l) (k :: k' :: q) v st =
    set_nested (Some (length st)) (k' :: q) v (put l k (RMap (length st)) (st ++ [∅])).
Proof. intros Hr. cbn [set_nested]. unfold mbind at 1, gom_bind at 1, gets. simpl. by rewrite Hr. Qed.

(** The maps of the input are not changed: the entry that is set is there. *)
Lemma set_old q r v st : q ≠ [] → grown base st → in_store (length base) r → nested_ref base r q = Some v →
  ∃ m, as_map_ref r = Some m ∧ set_nested m q v st = (st, Some tt).
Proof.
  intros Hq Hst. revert r. induction q as [|k q IH]; [done|]. intros r Hr Hv. cbn [nested_ref] in Hv.
  unfold ref_entry in Hv. destruct (as_map_ref r) as [m|] eqn:Hm; [|done]. cbn in Hv.
  destruct (map_object m base !! k) as [r'|] eqn:Hr'; [|done]. exists m. split; [done|].
  assert (map_object m st = map_object m base) as Heq.
  { apply map_object_grown; [done|]. intros l ->. by destruct r as [[]| |]; simplify_eq/=. }
  destruct q as [|k' q].
  - injection Hv as ->. destruct m as [l|]; [|simpl in Hr'; by rewrite lookup_empty in Hr'].
    rewrite set_last. f_equal.
    unfold put. simpl in Heq, Hr'. rewrite Heq, (insert_id (object base l)) by done. rewrite <- Heq.
    apply list_insert_id. rewrite <- Heq in Hr'. unfold object in *.
    destruct (st !! l) as [o|]; [done|]. simpl in Hr'. by rewrite lookup_empty in Hr'.
  - destruct (IH ltac:(done) r' ltac:(by eapply valid_map) Hv) as (m' & Hm' & Hset).
    by rewrite (set_next _ _ _ _ _ _ r' m') by (by rewrite ?Heq).
Qed.

Lemma object_put_eq st l k r : l < length st → object (put l k r st) l = <[k := r]> (object st l).
Proof. intros Hl. unfold put at 1, object at 1. by rewrite list_lookup_insert_eq. Qed.

Lemma object_put_ne st l k r x : x ≠ l → put l k r st !! x = st !! x.
Proof. intros Hx. unfold put. by rewrite list_lookup_insert_ne. Qed.

Lemma length_put l k r st : length (put l k r st) = length st.
Proof. apply length_insert. Qed.

Lemma grown_put st l k r : grown base st → length base ≤ l → grown base (put l k r st).
Proof. intros [x ->] Hl. unfold put. rewrite insert_app_r_alt by done. by eexists. Qed.

Lemma picked_mono P P' n n' q r : n ≤ n' → (∀ x, x < n → P' x = P x) → picked P n q r → picked P' n' q r.
Proof.
  intros Hn HP [l f Hl Hpl Hf Hpre|r' Hf Hr]; [|by apply PickedPart].
  eapply PickedMap; [lia|rewrite HP by lia; done|done|done].
Qed.

Lemma inv_put P st l k r : pick_inv P st → length base ≤ l < length st → picked P (length st) (P l ++ [k]) r →
  pick_inv P (put l k r st).
Proof.
  intros Hst Hl Hr. split; [apply grown_put; [apply Hst|lia]|]. intros x k' r' Hx. rewrite length_put.
  destruct (decide (x = l)) as [->|Hne].
  - rewrite object_put_eq by lia. intros [[<- <-]|[_ Hk]]%lookup_insert_Some; [done|]. by apply (pk_entry P st Hst).
  - rewrite (object_eq st) by (by apply object_put_ne). by apply (pk_entry P st Hst).
Qed.

(** The entries below the other keys of [l] stay. *)
Lemma kept_other P st st' l k k' q r : pick_inv P st → grown base st' → length base ≤ l < length st → k' ≠ k →
  object st' l !! k' = object st l !! k' →
  (∀ x, x < length st → x ≠ l → ¬ P l ++ [k] `prefix_of` P x → st' !! x = st !! x) →
  nested_ref st (RMap l) (k' :: q) = Some r → part (P l ++ k' :: q) = Some r →
  nested_ref st' (RMap l) (k' :: q) = Some r.
Proof.
  intros Hst Hst' Hl Hk Hobj Hfr. rewrite !nested_cons, Hobj. intros (x & Hx & Hq)%bind_Some Hpart.
  rewrite Hx. simpl. rewrite cons_middle, (assoc_L (++)) in Hpart.
  destruct (pk_entry P st Hst l k' x) as [z f Hz HP _ _|x _ Hpx]; [lia|done| |].
  - eapply (nested_frame P st); [done..| |done|by rewrite HP]. rewrite HP. intros y Hy Hpre. apply Hfr; [lia| |].
    + intros ->. apply prefix_length in Hpre. rewrite length_app in Hpre. simpl in Hpre. lia.
    + intros Hpre'. destruct (prefix_weak_total _ _ _ Hpre Hpre') as [H1|H1]; apply prefix_app_inv in H1;
        apply prefix_cons_inv_1 in H1; congruence.
  - rewrite nested_app, Hpx in Hpart. rewrite nested_grown; [done..|by eapply part_in_store].
Qed.

Lemma above_not_below (p : list string) k : ¬ p ++ [k] `prefix_of` p.
Proof. intros Hp%prefix_length. rewrite length_app in Hp. simpl in Hp. lia. Qed.

Lemma kept_at P st st' l k : pick_inv P st → grown base st' → length base ≤ l < length st →
  (∀ k', k' ≠ k → object st' l !! k' = object st l !! k') →
  (∀ x, x < length st → x ≠ l → ¬ P l ++ [k] `prefix_of` P x → st' !! x = st !! x) →
  (∀ q r, nested_ref st (RMap l) (k :: q) = Some r → part (P l ++ k :: q) = Some r →
     nested_ref st' (RMap l) (k :: q) = Some r) →
  ∀ q r, nested_ref st (RMap l) q = Some r → part (P l ++ q) = Some r → nested_ref st' (RMap l) q = Some r.
Proof.
  intros Hst Hst' Hl Hobj Hfr Hk q r Hq Hpart. destruct q as [|k' q]; [done|].
  destruct (decide (k' = k)) as [->|Hne]; [by apply Hk|]. eapply (kept_other P st); eauto.
Qed.

Lemma step_last P st l k v : pick_inv P st → length base ≤ l < length st → found (P l ++ [k]) →
  part (P l ++ [k]) = Some v → pick_step l [k] P P st (put l k v st).
Proof.
  intros Hst Hl Hf Hv. assert (pick_inv P (put l k v st)) as Hst' by (apply inv_put; [done..|by apply PickedPart]).
  assert (nested_ref (put l k v st) (RMap l) [k] = Some v) as Hk.
  { rewrite nested_cons, object_put_eq, lookup_insert_eq by lia. done. }
  split; [done|by rewrite length_put|done| | |congruence].
  - intros x Hx Hpre. apply object_put_ne. by intros ->.
  - apply (kept_at P st _ l k); [done|apply Hst'|done| | |].
    + intros k' Hne. rewrite object_put_eq, lookup_insert_ne by (done || lia). done.
    + intros x _ Hx _. by apply object_put_ne.
    + intros q r _ Hpart. rewrite nested_cons, object_put_eq, lookup_insert_eq by lia. simpl.
      rewrite cons_middle, (assoc_L (++)), nested_app, Hv in Hpart. rewrite nested_grown; [done|apply Hst'|].
      by eapply part_in_store.
Qed.

Lemma step_below P P' st st' l k z g : pick_inv P st → length base ≤ l < length st → z < length st →
  object st l !! k = Some (RMap z) → P z = P l ++ [k] → pick_step z g P P' st st' → pick_step l (k :: g) P P' st st'.
Proof.
  intros Hst Hl Hz Hk HPz Hstep.
  assert (st' !! l = st !! l) as Hll.
  { apply Hstep; [lia|]. rewrite HPz. apply above_not_below. }
  split; [apply Hstep..| | |].
  - intros x Hx Hpre. apply Hstep; [done|]. rewrite HPz. intros Hp. apply Hpre. etrans; [|exact Hp]. by apply prefix_app_r.
  - apply (kept_at P st _ l k); [done|apply Hstep|done| | |].
    + intros k' _. by rewrite (object_eq st st' l Hll).
    + intros x Hx _ Hp. apply Hstep; [done|]. by rewrite HPz.
    + intros q r. rewrite !nested_cons, (object_eq st st' l Hll), Hk. simpl. intros Hq Hpart.
      apply (ps_kept _ _ _ _ _ _ Hstep); [done|]. by rewrite HPz, <- (assoc_L (++)).
  - rewrite nested_cons, (object_eq st st' l Hll), Hk. simpl.
    rewrite (ps_value _ _ _ _ _ _ Hstep), HPz, <- (assoc_L (++)). done.
Qed.

Section Create.
Context (P : nat → list string) (st : store) (l : nat) (k : string) (g : list string).
Hypothesis Hst : pick_inv P st.
Hypothesis Hl : length base ≤ l < length st.
Hypothesis Hnone : object st l !! k = None.
Hypothesis Hfound : found (P l ++ k :: g).

Definition create_place (x : nat) : list string := if decide (x = length st) then P l ++ [k] else P x.
Definition create_store : store := put l k (RMap (length st)) (st ++ [∅]).

Lemma create_old x : x < length st → create_place x = P x.
Proof. unfold create_place. intros Hx. rewrite decide_False by lia. done. Qed.

Lemma object_snoc x : object (st ++ [∅]) x = object st x.
Proof.
  unfold object. destruct (decide (x < length st)) as [Hx|Hx]; [by rewrite lookup_app_l|].
  rewrite lookup_app_r, (lookup_ge_None_2 st) by lia. by destruct (x - length st) as [|[]].
Qed.

Lemma create_length : length create_store = S (length st).
Proof. unfold create_store. rewrite length_put, length_app. simpl. lia. Qed.

Lemma create_object : object create_store l = <[k := RMap (length st)]> (object st l).
Proof. unfold create_store. rewrite object_put_eq, object_snoc by (rewrite length_app; lia). done. Qed.

Lemma create_frame x : x < length st → x ≠ l → create_store !! x = st !! x.
Proof. intros Hx Hne. unfold create_store. by rewrite object_put_ne, lookup_app_l. Qed.

Lemma create_inv : pick_inv create_place create_store.
Proof.
  assert (pick_inv create_place (st ++ [∅])) as Hst1.
  { split.
    - destruct (pk_grown _ _ Hst) as [x ->]. rewrite <- (assoc_L (++)). by eexists.
    - intros x k' r Hx. rewrite object_snoc. intros Hr.
      assert (x < length st).
      { apply not_ge. intros Hge. unfold object in Hr. rewrite lookup_ge_None_2 in Hr by done. simpl in Hr.
        by rewrite lookup_empty in Hr. }
      rewrite create_old by done. eapply (picked_mono P _ (length st)); [rewrite length_app; lia|apply create_old|].
      by apply (pk_entry P st Hst). }
  apply inv_put; [done|rewrite length_app; simpl; lia|]. rewrite create_old by lia.
  eapply (PickedMap _ _ _ _ (P l ++ k :: g)); [rewrite length_app; simpl; lia| |done|].
  - unfold create_place. by rewrite decide_True.
  - exists g. by rewrite <- (assoc_L (++)).
Qed.

Lemma step_create P' st' : pick_step l (k :: g) create_place P' create_store st' → pick_step l (k :: g) P P' st st'.
Proof.
  intros Hstep. pose proof create_length as Hlen. assert (create_place l = P l) as HPl by (apply create_old; lia).
  split.
  - apply Hstep.
  - pose proof (ps_length _ _ _ _ _ _ Hstep). lia.
  - intros x Hx. rewrite (ps_place _ _ _ _ _ _ Hstep) by lia. by apply create_old.
  - intros x Hx Hpre. rewrite (ps_frame _ _ _ _ _ _ Hstep); [|lia|rewrite HPl, create_old; done].
    apply create_frame; [done|]. by intros ->.
  - intros q r Hq Hpart. apply (ps_kept _ _ _ _ _ _ Hstep); [|by rewrite HPl].
    revert q r Hq Hpart. apply (kept_at P st _ l k); [done|apply create_inv|done| | |].
    + intros k' Hne. by rewrite create_object, lookup_insert_ne.
    + intros x Hx Hne _. by apply create_frame.
    + intros q r. rewrite nested_cons, Hnone. done.
  - by rewrite (ps_value _ _ _ _ _ _ Hstep), HPl.
Qed.
End Create.

Lemma set_pick g : ∀ l P st v, g ≠ [] → pick_inv P st → length base ≤ l < length st → found (P l ++ g) →
  part (P l ++ g) = Some v → ∃ st' P', set_nested (Some l) g v st = (st', Some tt) ∧ pick_step l g P P' st st'.
Proof.
  induction g as [|k [|k' g] IH]; intros l P st v Hg Hst Hl Hf Hv; [done| |].
  { eexists _, P. rewrite set_last. split; [done|]. by apply step_last. }
  assert (P l ++ k :: k' :: g = (P l ++ [k]) ++ k' :: g) as Hassoc by (by rewrite <- (assoc_L (++))).
  destruct (object st l !! k) as [r|] eqn:Hr.
  - destruct (pk_entry P st Hst l k r) as [z f Hz HP _ _|r _ Hpr]; [lia|done| |].
    + rewrite (set_next _ _ _ _ _ _ (RMap z) (Some z)) by done.
      destruct (IH z P st v) as (st' & P' & Hset & Hstep); [done|done|done|by rewrite HP, <- Hassoc..|].
      exists st', P'. split; [done|]. eapply (step_below P P' st st' l k z); [done|done|lia|done..].
    + pose proof Hv as Hv'. rewrite Hassoc, nested_app, Hpr in Hv'.
      destruct (set_old (k' :: g) r v st) as (m & Hm & Hset);
        [done|apply Hst|by eapply part_in_store|done|].
      rewrite (set_next _ _ _ _ _ _ r m) by done. exists st, P. split; [done|].
      split; [done..|]. rewrite Hv, nested_cons, Hr. change (nested_ref st r (k' :: g) = Some v).
      rewrite nested_grown; [done|apply Hst|by eapply part_in_store].
  - rewrite set_create by done. pose proof (create_length st l k) as Hlen.
    destruct (IH (length st) (create_place P st l k) (create_store st l k) v) as (st' & P' & Hset & Hstep).
    + done.
    + by eapply create_inv.
    + lia.
    + unfold create_place. by rewrite decide_True, <- Hassoc.
    + unfold create_place. by rewrite decide_True, <- Hassoc.
    + exists st', P'. split; [done|]. eapply step_create; [done..|].
      eapply (step_below _ _ _ _ l k (length st)); [by eapply create_inv|lia|lia| | |done].
      * rewrite create_object by done. by rewrite lookup_insert_eq.
      * unfold create_place at 1. rewrite decide_True by done. by rewrite create_old by lia.
Qed.

Lemma pick_fields_ok m : input = map_ref m → ∀ fs l P st, Forall (λ f, path_parts f ∈ fields) fs →
  pick_inv P st → length base ≤ l < length st → P l = [] →
  ∃ st' P', pick_fields m l fs st = (st', Some tt) ∧ (pick_inv P' st' ∧ P' l = []) ∧
    (∀ q r, nested_ref st (RMap l) q = Some r → part q = Some r → nested_ref st' (RMap l) q = Some r) ∧
    (∀ f r, f ∈ fs → part (path_parts f) = Some r → nested_ref st' (RMap l) (path_parts f) = Some r).
Proof.
  intros Hm fs. induction fs as [|f fs IH]; intros l P st Hfs Hst Hl HPl.
  { exists st, P. split_and!; try done. by intros f r Hf%not_elem_of_nil. }
  apply Forall_cons in Hfs as [Hf Hfs]. cbn [pick_fields]. unfold mbind at 1, gom_bind at 1, gets.
  rewrite <- Hm. unfold getNestedRef. rewrite nested_grown by (done || apply Hst).
  destruct (part (path_parts f)) as [v|] eqn:Hv.
  - destruct (set_pick (path_parts f) l P st v) as (st1 & P1 & Hset & Hstep);
      [apply path_parts_nonempty|done|done|rewrite HPl; by split|by rewrite HPl|].
    unfold mbind, gom_bind, setNestedValue. rewrite Hset.
    destruct (IH l P1 st1) as (st' & P' & Hrun & Hst' & Hkept & Hgot);
      [done|apply Hstep|pose proof (ps_length _ _ _ _ _ _ Hstep); lia| |].
    { by rewrite (ps_place _ _ _ _ _ _ Hstep) by lia. }
    exists st', P'. split; [done|]. split; [done|]. split.
    + intros q r Hq Hp. apply Hkept; [|done]. apply (ps_kept _ _ _ _ _ _ Hstep); [done|by rewrite HPl].
    + intros f' r [->|Hf']%elem_of_cons Hr; [|by apply Hgot]. apply Hkept; [|done].
      rewrite (ps_value _ _ _ _ _ _ Hstep), HPl. done.
  - destruct (IH l P st) as (st' & P' & Hrun & Hst' & Hkept & Hgot); [done..|].
    exists st', P'. split; [done|]. split; [done|]. split; [done|].
    intros f' r [->|Hf']%elem_of_cons Hr; [congruence|by apply Hgot].
Qed.

Lemma picked_nested P st q : pick_inv P st → ∀ l r, q ≠ [] → length base ≤ l →
  nested_ref st (RMap l) q = Some r →
  (∃ f, found f ∧ f `prefix_of` P l ++ q ∧ part (P l ++ q) = Some r) ∨
  (∃ f z, found f ∧ P l ++ q `prefix_of` f ∧ r = RMap z ∧ length base ≤ z).
Proof.
  intros Hst. induction q as [|k q IH]; [done|]. intros l r _ Hl. rewrite nested_cons.
  intros (x & Hx & Hq)%bind_Some.
  assert (P l ++ k :: q = (P l ++ [k]) ++ q) as Hassoc by (by rewrite <- (assoc_L (++))).
  destruct (pk_entry P st Hst l k x) as [z f Hz HP Hf Hpre|x Hf Hpx]; [done|done| |].
  - destruct q as [|k' q]; [injection Hq as <-; right; eauto 10 with lia|].
    rewrite Hassoc, <- HP. apply IH; [done|lia|done].
  - left. exists (P l ++ [k]). split; [done|]. rewrite Hassoc. split; [by apply prefix_app_r|].
    rewrite nested_app, Hpx. rewrite <- Hq. symmetry. apply nested_grown; [apply Hst|by eapply part_in_store].
Qed.
End Pick.

(** ** The transforms keep what exists and leave nothing dangling *)

Definition kept {A} (n N : nat) (m : GoM store A) (Q : nat → A → Prop) : Prop :=
  ∀ st, valid st → N ≤ length st →
  take n (m st).1 = take n st ∧
  match m st with (st', Some a) => valid st' ∧ N ≤ length st' ∧ Q (length st') a | (_, None) => True end.

Lemma kept_split {A} n N (m : GoM store A) Q : n ≤ N → keeps n m → sound N m Q → kept n N m Q.
Proof. intros Hn Hk Hs st Hst HN. split; [apply Hk; lia|by apply Hs]. Qed.

Lemma kept_bind {A B} n N (m : GoM store A) (f : A → GoM store B) Q R :
  kept n N m Q → (∀ N' a, N ≤ N' → Q N' a → kept n N' (f a) R) → kept n N (m ≫= f) R.
Proof.
  intros Hm Hf st Hst HN. unfold mbind, gom_bind. specialize (Hm st Hst HN).
  destruct (m st) as [st1 [a|]]; [|done]. destruct Hm as (Ht & Hst1 & HN1 & Ha).
  destruct (Hf _ a HN1 Ha st1 Hst1 (le_n _)) as [Ht2 Hm2]. simpl in Ht. rewrite <- Ht. split; [done|].
  destruct (f a st1) as [st2 [b|]]; [|done]. destruct Hm2 as (? & ? & ?). split; [done|]. split; [lia|done].
Qed.

Lemma kept_ret {A} n N (x : A) (Q : nat → A → Prop) : (∀ N', N ≤ N' → Q N' x) → kept n N (mret x) Q.
Proof. intros HQ st Hst HN. split; [done|]. split; [done|]. split; [done|]. by apply HQ. Qed.

Lemma kept_gets {A B} n N (g : store → A) (f : A → GoM store B) (Q : nat → A → Prop) R :
  (∀ st, valid st → N ≤ length st → Q (length st) (g st)) → (∀ N' a, N ≤ N' → Q N' a → kept n N' (f a) R) →
  kept n N (gets g ≫= f) R.
Proof.
  intros Hg. apply kept_bind. intros st Hst HN. split; [done|]. split; [done|]. split; [done|]. by apply Hg.
Qed.

Lemma kept_new n N : n ≤ N → kept n N (new_map ∅) (λ N' l, n ≤ l < N').
Proof.
  intros Hn st Hst HN. split; [apply keeps_new; lia|]. destruct (sound_new N st Hst HN) as (Hv & HN' & Hl).
  split; [exact Hv|]. split; [exact HN'|]. split; [lia|exact Hl].
Qed.

(** The variables of an envelope are in the store, and no older than [n]. *)
Definition env_in (n N : nat) (env : senv) : Prop := ∀ l, se_Vars env = Some l → n ≤ l < N.

Definition ref_out (N : nat) (out : ref + error) : Prop := ∀ r, out = inl r → in_store N r.

Lemma ref_out_error N err : ref_out N (inr err).
Proof. done. Qed.
#[local] Hint Resolve ref_out_error : keeps.

Lemma kept_clone n N env : n ≤ N → env_in 0 N env →
  kept n N (clone_senv (Some env)) (λ N' e, ∃ e', e = Some e' ∧ env_in n N' e').
Proof.
  intros Hn Henv st Hst HN. unfold clone_senv. destruct (se_Vars env) as [l|] eqn:Hv; simpl.
  - rewrite take_app_le by lia. rewrite length_app. simpl. split; [done|]. split; [|split; [lia|]].
    + apply valid_new; [done|]. intros k r Hr%valid_object; [|done]. eapply in_store_mono; [|exact Hr]. lia.
    + eexists. split; [done|]. intros l' [= <-]. lia.
  - split; [done|]. split; [done|]. split; [done|]. eexists. split; [done|]. intros l'. congruence.
Qed.

Lemma kept_set_svar n N name r e : n ≤ N → env_in n N e → in_store N r →
  kept n N (set_svar name r e) (λ N' e', env_in n N' e').
Proof.
  intros Hn He Hr. apply kept_split; [done|apply keeps_set_svar; intros l Hl; by apply He|].
  unfold set_svar. destruct (se_Vars e) as [l|] eqn:Hl.
  - eapply sound_bind; [by apply sound_put|]. intros N' _ HN' _. apply sound_ret. intros N'' HN'' l' Hl'.
    assert (l' = l) as -> by congruence. destruct (He l Hl). lia.
  - intros st Hst HN. simpl. rewrite length_app. simpl. split; [|split; [lia|]].
    + apply valid_new; [done|]. intros k x [_ <-]%lookup_singleton_Some. eapply in_store_mono; [|exact Hr]. lia.
    + intros l' [= <-]. lia.
Qed.

Lemma valid_env_nested st env path r : valid st → env_in 0 (length st) env → env_nested env path st = Some r →
  in_store (length st) r.
Proof.
  intros Hst Henv. unfold env_nested. destruct (se_Vars env) as [l|] eqn:Hl; [|done].
  apply valid_nested; [done|]. simpl. by destruct (Henv l Hl).
Qed.

Lemma env_in_mono n N N' env : N ≤ N' → env_in n N env → env_in n N' env.
Proof. intros HN Henv l Hl. destruct (Henv l Hl). lia. Qed.

Section Kept.
Context `{RangeOrder} `{Printer} `{TransformLibs} `{Templates} `{JsonEncoder} `{JsonPrinter} `{LowerTables} `{UpperTables}.
Context (n : nat).

Lemma valid_input c env st : valid st → env_in 0 (length st) env → ref_out (length st) (getInput c env st).
Proof.
  intros Hst Henv r. unfold getInput. case_bool_decide; [done|].
  destruct (env_nested env (tc_InputVar c) st) as [x|] eqn:Hx; [|done]. intros [= <-]. by eapply valid_env_nested.
Qed.

Lemma kept_input c env N (f : ref + error → GoM store (ref + error)) : env_in 0 N env →
  (∀ N' out, N ≤ N' → ref_out N' out → kept n N' (f out) ref_out) → kept n N (gets (getInput c env) ≫= f) ref_out.
Proof.
  intros Henv. apply kept_gets. intros st Hst HN. apply valid_input; [done|]. by eapply env_in_mono.
Qed.

Lemma kept_with_map c env verb body N : env_in 0 N env →
  (∀ N' m, N ≤ N' → in_store N' (map_ref m) → kept n N' (body m) in_store) → kept n N (with_map c env verb body) ref_out.
Proof.
  intros Henv Hbody. apply kept_input; [done|]. intros N' [r|err] HN Hr; [|by apply kept_ret].
  destruct (as_map_ref r) as [m|] eqn:Hm; [|by apply kept_ret].
  eapply kept_bind.
  - apply Hbody; [done|]. specialize (Hr r eq_refl). by destruct r as [[]| |]; simplify_eq/=.
  - intros N'' x HN' Hx. apply kept_ret. intros N3 HN3 r' [= <-]. by eapply in_store_mono.
Qed.

Lemma sound_pick_fields N m l fields : in_store N (map_ref m) → sound N (pick_fields m l fields) any_result.
Proof.
  revert N. induction fields as [|f fields IH]; intros N Hm; simpl; [by apply sound_ret|].
  apply (sound_gets _ _ _ entry_in).
  { intros st Hst HN x. apply valid_nested; [done|]. by eapply in_store_mono. }
  intros N' [v|] HN Hv.
  - eapply sound_bind; [apply sound_set; by apply Hv|]. intros N'' _ HN' _. apply IH.
    eapply in_store_mono; [|exact Hm]. lia.
  - eapply sound_bind; [by apply (sound_ret _ _ any_result)|]. intros N'' _ HN' _. apply IH.
    eapply in_store_mono; [|exact Hm]. lia.
Qed.

Lemma pick_start (base : store) input fields : pick_inv base input fields (λ _, []) (base ++ [∅]).
Proof.
  split; [by eexists|]. intros l k r Hl. unfold object. rewrite lookup_app_r by done.
  destruct (l - length base) as [|[]]; simpl; by rewrite lookup_empty.
Qed.

(** The loop of [pick] on a new map. *)
Lemma pick_run m st fs : valid st → in_store (length st) (map_ref m) →
  ∃ st' P, pick_fields m (length st) fs (st ++ [∅]) = (st', Some tt) ∧
    (pick_inv st (map_ref m) (path_parts <$> fs) P st' ∧ P (length st) = []) ∧
    ∀ f r, f ∈ fs → getNestedRef st (map_ref m) f = Some r → getNestedRef st' (RMap (length st)) f = Some r.
Proof.
  intros Hst Hm.
  destruct (pick_fields_ok st (map_ref m) (path_parts <$> fs) Hst Hm m eq_refl fs (length st) (λ _, []) (st ++ [∅]))
    as (st' & P & Hrun & Hinv & _ & Hgot).
  - apply Forall_forall. intros f Hf. by apply list_elem_of_fmap_2.
  - apply pick_start.
  - rewrite length_app. simpl. lia.
  - done.
  - by exists st', P.
Qed.

Lemma kept_pick c env N : n ≤ N → env_in 0 N env → kept n N (transformPick c env) ref_out.
Proof.
  intros Hn Henv. unfold transformPick. case_bool_decide; [by apply kept_ret|].
  apply kept_with_map; [done|]. intros N' m HN Hm st Hst HN'.
  assert (in_store (length st) (map_ref m)) as Hm' by (by eapply in_store_mono).
  pose proof (sound_pick_fields (S (length st)) m (length st) (tc_Fields c)
    ltac:(eapply in_store_mono; [|exact Hm']; lia) (st ++ [∅])
    ltac:(apply valid_new; [done|]; intros k r; by rewrite lookup_empty) ltac:(rewrite length_app; simpl; lia)) as Hsound.
  destruct (pick_run m st (tc_Fields c) Hst Hm') as (st' & P & Hrun & [Hinv _] & _).
  destruct (pk_grown _ _ _ _ _ Hinv) as [new Hnew].
  unfold mbind, gom_bind, new_map. rewrite Hrun in *. simpl. destruct Hsound as (Hv & Hlen & _).
  split; [rewrite Hnew, take_app_le; [done|lia]|]. split; [done|]. split; [lia|]. simpl. lia.
Qed.

Lemma sound_deepCopyMap N m : sound N (deepCopyMap m) (λ n l, l < n).
Proof. intros st. exact (sound_copy_map (S (length st)) N m st). Qed.

(** A copy that is then changed in place. *)
Lemma kept_copy (change : nat → GoM store ()) m N : n ≤ N →
  (∀ base l, length base ≤ l → triple (own_entries base) (change l) (λ _ st, own_entries base st ∧ True) (grown base)) →
  (∀ N l, sound N (change l) any_result) →
  kept n N (result ← deepCopyMap m; change result;; mret (RMap result)) in_store.
Proof.
  intros Hn Howned Hsound. apply kept_split; [done| |].
  - apply (owned_keeps _ (λ _ _, True)). intros base. eapply owned_bind; [apply owned_deepCopyMap|]. intros l Hl.
    eapply owned_bind; [by apply Howned|]. intros _ _. by apply owned_ret.
  - eapply sound_bind; [apply sound_deepCopyMap|]. intros N' l HN Hl.
    eapply sound_bind; [apply Hsound|]. intros N'' _ HN' _. apply sound_ret. intros ? ?. simpl in *. lia.
Qed.

Lemma sound_omit N l fields : sound N (omit_fields l fields) any_result.
Proof.
  revert N. induction fields as [|f fields IH]; intros N; simpl; [by apply sound_ret|].
  eapply sound_bind; [apply sound_delete|]. intros. apply IH.
Qed.

Lemma valid_dangling st l q r : valid st → q ≠ [] → nested_ref st (RMap l) q = Some r → in_store (length st) r.
Proof.
  intros Hst Hq. destruct q as [|k q]; [done|]. rewrite nested_cons. intros (x & Hx & Hr)%bind_Some.
  eapply valid_nested; [done| |done]. by eapply valid_object.
Qed.

Lemma sound_rename N l renames : sound N (rename_fields l renames) any_result.
Proof.
  revert N. induction renames as [|[old new] renames IH]; intros N; simpl; [by apply sound_ret|].
  apply (sound_gets _ _ _ entry_in).
  { intros st Hst _ x. apply valid_dangling; [done|apply path_parts_nonempty]. }
  intros N' v HN Hv. eapply (sound_bind _ _ _ any_result); [|intros; apply IH].
  destruct v as [v|]; [|by apply sound_ret]. eapply sound_bind; [apply sound_delete|]. intros N'' _ HN' _.
  apply sound_set. eapply in_store_mono; [exact HN'|]. by apply Hv.
Qed.

Lemma kept_omit c env N : n ≤ N → env_in 0 N env → kept n N (transformOmit c env) ref_out.
Proof.
  intros Hn Henv. unfold transformOmit. case_bool_decide; [by apply kept_ret|].
  apply kept_with_map; [done|]. intros N' m HN Hm. apply (kept_copy (λ l, omit_fields l (tc_Fields c))); [lia| |].
  - intros base l. apply owned_omit.
  - intros. apply sound_omit.
Qed.

Lemma kept_rename c env N : n ≤ N → env_in 0 N env → kept n N (transformRename c env) ref_out.
Proof.
  intros Hn Henv. unfold transformRename. case_bool_decide; [by apply kept_ret|].
  apply kept_with_map; [done|]. intros N' m HN Hm.
  apply (kept_copy (λ l, rename_fields l (range_map "transformRename" (tc_Mapping c)))); [lia| |].
  - intros base l. apply owned_rename.
  - intros. apply sound_rename.
Qed.

Lemma keeps_flatten fuel m prefix sep maxDepth depth result : n ≤ result →
  keeps n (flatten_map fuel m prefix sep maxDepth depth result).
Proof.
  intros Hr. revert m prefix depth. induction fuel as [|fuel IH]; intros m prefix depth; [apply keeps_panic|].
  cbn [flatten_map]. apply keeps_bind; [apply keeps_gets|]. intros kvs.
  induction kvs as [|[k v] kvs IHk]; simpl; [apply keeps_ret|].
  apply keeps_bind; [|by intros _]. destruct (as_map_ref v); [case_match|]; eauto using keeps_put.
Qed.

Lemma kept_flatten c env N : n ≤ N → env_in 0 N env → kept n N (transformFlatten c env) ref_out.
Proof.
  intros Hn Henv. apply kept_with_map; [done|]. intros N' m HN Hm.
  eapply kept_bind; [apply kept_new; lia|]. intros N'' l HN' Hl. eapply kept_bind.
  - apply (kept_split _ _ _ any_result); [lia| |]; intros st.
    + refine (keeps_flatten (S (length st)) m "" (tc_separator c) (tc_MaxDepth c) 0 l _ st). simpl in Hl. lia.
    + exact (sound_flatten (S (length st)) _ m "" (tc_separator c) (tc_MaxDepth c) 0 l st).
  - intros N3 _ HN3 _. apply kept_ret. intros ? ?. simpl in *. lia.
Qed.

Lemma kept_merge c env N : n ≤ N → env_in 0 N env → tc_strategy c ≠ "deep" →
  kept n N (transformMerge c env) ref_out.
Proof.
  intros Hn Henv Hdeep. unfold transformMerge. case_bool_decide as Hvars; [by apply kept_ret|]. clear Hvars.
  eapply kept_bind; [by apply kept_new|]. intros N1 l HN1 Hl.
  eapply (kept_bind _ _ _ _ any_result).
  2: { intros N2 _ HN2 _. apply kept_ret. intros ? ? r [= <-]. simpl in *. lia. }
  assert (n ≤ l) as Hnl by (simpl in Hl; lia). clear Hl. assert (env_in 0 N1 env) as Henv1 by (by eapply env_in_mono).
  assert (n ≤ N1) as Hn1 by lia. clear N HN1 Hn Henv. revert N1 Henv1 Hn1.
  induction (tc_InputVars c) as [|name names IH]; intros N Henv Hn; simpl; [by apply kept_ret|].
  apply (kept_gets _ _ _ _ entry_in).
  { intros st Hst HN x. apply valid_env_nested; [done|]. by eapply env_in_mono. }
  intros N1 val HN1 Hval. eapply (kept_bind _ _ _ _ any_result).
  2: { intros N2 _ HN2 _. apply IH; [eapply env_in_mono; [|exact Henv]; lia|lia]. }
  destruct val as [v|]; [|by apply kept_ret]. destruct (as_map_ref v) as [m|].
  - rewrite bool_decide_eq_false_2 by done.
    apply (kept_gets _ _ _ _ entries_in); [intros st Hst _; by apply valid_entries|]. intros N2 kvs HN2 Hk.
    apply kept_split; [lia|by apply keeps_put_entries|by apply sound_put_entries].
  - apply kept_split; [lia|by apply keeps_put|]. by apply sound_put, Hval.
Qed.

Lemma kept_template c env N : kept n N (transformTemplate c env) ref_out.
Proof.
  unfold transformTemplate. case_bool_decide; [by apply kept_ret|]. case_match; [by apply kept_ret|].
  apply (kept_gets _ _ _ _ any_result); [done|]. intros. case_match; apply kept_ret; [|done].
  by intros ? ? r [= <-].
Qed.

Lemma kept_stringify c env N : env_in 0 N env → kept n N (transformStringify c env) ref_out.
Proof.
  intros Henv. apply kept_input; [done|]. intros N1 [r|err] HN1 Hr; [|by apply kept_ret].
  apply (kept_gets _ _ _ _ any_result); [done|]. intros N2 v HN2 _.
  repeat case_match; apply kept_ret; try done; by intros ? ? x [= <-].
Qed.

Lemma kept_parse c env N : n ≤ N → env_in 0 N env → kept n N (transformParse c env) ref_out.
Proof.
  intros Hn Henv. apply kept_input; [done|]. intros N1 [r|err] HN1 Hr; [|by apply kept_ret].
  destruct r as [[]| |]; try by apply kept_ret. case_bool_decide; [|by apply kept_ret].
  case_match; [|by apply kept_ret]. eapply kept_bind.
  - apply kept_split; [lia|apply keeps_alloc|apply sound_alloc].
  - intros N2 x HN2 Hx. apply kept_ret. intros N3 HN3 y [= <-]. by eapply in_store_mono.
Qed.

Context (ctx_err : list nat → option error).

Definition env_out (N : nat) (out : senv + error) : Prop := ∀ e, out = inl e → env_in 0 N e.

Lemma kept_map_items child outputVar at_ env N i items : n ≤ N → env_in 0 N env → Forall (in_store N) items →
  (∀ N' at_ e, N ≤ N' → env_in 0 N' e → kept n N' (child at_ e) env_out) →
  kept n N (map_items ctx_err child outputVar at_ env i items)
    (λ N' out, ∀ rs, out = inl rs → Forall (in_store N') rs).
Proof.
  intros Hn Henv Hitems Hchild. revert N i Hn Henv Hitems Hchild.
  induction items as [|item items IH]; intros N i Hn Henv Hitems Hchild; cbn [map_items].
  { apply kept_ret. by intros N' HN rs [= <-]. }
  apply Forall_cons in Hitems as [Hitem Hitems]. destruct (ctx_err _); [by apply kept_ret|].
  eapply kept_bind; [by apply kept_clone|]. intros N1 ? HN1 (e & -> & He).
  eapply kept_bind; [by apply (kept_ret _ _ _ (λ N' x, x = e))|]. intros N2 ? HN2 ->.
  eapply kept_bind.
  { apply kept_set_svar; [lia|eapply env_in_mono; [|exact He]; lia|eapply in_store_mono; [|exact Hitem]; lia]. }
  intros N3 e' HN3 He'. eapply kept_bind.
  { apply Hchild; [lia|]. intros l Hl. destruct (He' l Hl). lia. }
  intros N4 [re|err] HN4 Hout; [|by apply kept_ret].
  apply (kept_gets _ _ _ _ entry_in).
  { intros st Hst HN x. unfold get_svar. destruct (se_Vars re); [by apply valid_object|done]. }
  intros N5 r HN5 Hr. eapply kept_bind.
  { apply IH; [lia|eapply env_in_mono; [|exact Henv]; lia| |intros N' a e2 HN'; apply Hchild; lia].
    eapply Forall_impl; [exact Hitems|]. intros x. apply in_store_mono. lia. }
  intros N6 [rs|err] HN6 Hrs; apply kept_ret; [|done]. intros N7 HN7 ? [= <-]. constructor.
  - destruct r as [r|]; [|done]. simpl. eapply in_store_mono; [|by apply Hr]. lia.
  - eapply Forall_impl; [by apply Hrs|]. intros x. by apply in_store_mono.
Qed.

Lemma ref_slice_in N r items : in_store N r → ref_slice r = inl items → Forall (in_store N) items.
Proof.
  intros Hr. destruct r as [v|l|elem rs]; simpl; [|done|].
  - destruct (toSlice v) as [vs|]; [|done]. intros [= <-]. by apply Forall_fmap, Forall_true.
  - case_bool_decide; [|done]. intros [= <-]. by apply (in_store_list N elem).
Qed.

Lemma kept_map c child at_ env N : n ≤ N → env_in 0 N env →
  (∀ run var, child = Some (run, var) → ∀ N' at_ e, N ≤ N' → env_in 0 N' e → kept n N' (run at_ e) env_out) →
  kept n N (transformMap ctx_err c child at_ env) ref_out.
Proof.
  intros Hn Henv Hchild. unfold transformMap. destruct child as [[run var]|]; [|by apply kept_ret].
  apply kept_input; [done|]. intros N1 [r|err] HN1 Hr; [|by apply kept_ret].
  destruct (ref_slice r) as [items|err] eqn:Hs; [|by apply kept_ret]. eapply kept_bind.
  - apply kept_map_items; [lia|by eapply env_in_mono|eapply ref_slice_in; [by apply Hr|done]|].
    intros N' a e HN'. eapply Hchild; [done|lia].
  - intros N2 [rs|err] HN2 Hrs; apply kept_ret; [|done]. intros N3 HN3 x [= <-]. apply in_store_list.
    eapply Forall_impl; [by apply Hrs|]. intros y. by apply in_store_mono.
Qed.
End Kept.

(** The configurations of a transform, from the item transforms upwards. *)
Lemma config_induct (Q : TransformNodeConfig → Prop) :
  (∀ c, (∀ item, tc_ItemTransform c = Some item → Q item) → Q c) → ∀ c, Q c.
Proof.
  intros Hstep. fix IH 1. intros c. apply Hstep. destruct c as [? ? ? ? ? ? ? ? ? ? ? [item|] ?]; simpl.
  - intros ? [= <-]. apply IH.
  - intros ? [=].
Qed.

Section Theorems.
Context `{RangeOrder} `{Printer} `{TransformLibs} `{Templates} `{JsonEncoder} `{JsonPrinter} `{LowerTables} `{UpperTables}.
Context (ctx_err : list nat → option error).

Lemma in_place_item c item : in_place c = false → tc_Transform c = TransformMap → tc_ItemTransform c = Some item →
  in_place item = false.
Proof.
  destruct c as [? ? ? ? ? ? ? ? ? ? ? it ?]; simpl. intros Hp -> ->.
  apply orb_false_iff in Hp as [_ Hp]. by rewrite bool_decide_true in Hp.
Qed.

Lemma in_place_merge c : in_place c = false → tc_Transform c = TransformMerge → tc_strategy c ≠ "deep".
Proof.
  destruct c as [t ? ? ? ? ? ? ? ? ? ms it ?]; unfold tc_strategy; simpl. intros Hp -> Hdeep.
  apply orb_false_iff in Hp as [[_ Hp]%orb_false_iff _]. by rewrite !bool_decide_true in Hp.
Qed.

Lemma in_place_custom c : in_place c = false → tc_Transform c ≠ TransformCustom.
Proof. destruct c; simpl. by intros Hp ->. Qed.

Lemma kept_dispatch n c env mapped t N : in_place c = false → n ≤ N → env_in 0 N env →
  (tc_Transform c = TransformMap → kept n N mapped ref_out) →
  dispatch_type c env mapped = Some t → kept n N t ref_out.
Proof.
  intros Hp Hn Henv Hmap. unfold dispatch_type.
  destruct (bool_decide (tc_Transform c = TransformPick)); [intros [= <-]; by apply kept_pick|].
  destruct (bool_decide (tc_Transform c = TransformOmit)); [intros [= <-]; by apply kept_omit|].
  destruct (bool_decide (tc_Transform c = TransformRename)); [intros [= <-]; by apply kept_rename|].
  destruct (bool_decide (tc_Transform c = TransformFlatten)); [intros [= <-]; by apply kept_flatten|].
  destruct (bool_decide_reflect (tc_Transform c = TransformMerge)) as [Hmerge|_].
  { intros [= <-]. apply kept_merge; [done..|]. by apply in_place_merge. }
  destruct (bool_decide (tc_Transform c = TransformTemplate)); [intros [= <-]; by apply kept_template|].
  destruct (bool_decide (tc_Transform c = TransformStringify)); [intros [= <-]; by apply kept_stringify|].
  destruct (bool_decide (tc_Transform c = TransformParse)); [intros [= <-]; by apply kept_parse|].
  destruct (bool_decide_reflect (tc_Transform c = TransformMap)) as [Hm|_]; [intros [= <-]; by apply Hmap|].
  destruct (bool_decide_reflect (tc_Transform c = TransformCustom)) as [Hcustom|_]; [|done].
  by destruct (in_place_custom c Hp).
Qed.

Lemma kept_output n N outputVar id e out : n ≤ N → env_in n N e → ref_out N out →
  kept n N (store_output outputVar id e out) env_out.
Proof.
  intros Hn He Hout. unfold store_output. destruct out as [r|err]; [|by apply kept_ret].
  case_bool_decide; [by apply kept_ret|]. eapply kept_bind; [apply kept_set_svar; [done..|by apply Hout]|].
  intros N2 e' HN2 He'. apply kept_ret. intros N3 HN3 ? [= <-] l Hl. destruct (He' l Hl). lia.
Qed.

(** The item transforms of a node. *)
Definition item_node c (id : string) : option ((list nat → senv → GoM store (senv + error)) * string) :=
  match tc_ItemTransform c with
  | Some item => Some (Run ctx_err item (id ^^ "_item"), tc_OutputVar item)
  | None => None
  end.

Lemma Run_eq c id at_ env : Run ctx_err c id at_ env =
  (result ← clone_senv (Some env);
   result ← deref result;
   match dispatch_type c env (transformMap ctx_err c (item_node c id) at_ env) with
   | None => mret (run_error id [PS "unknown transform type "; PQ (tc_Transform c)])
   | Some transform => output ← transform; store_output (tc_OutputVar c) id result output
   end).
Proof. by destruct c. Qed.

Lemma kept_Run n c id at_ env N : in_place c = false → n ≤ N → env_in 0 N env →
  kept n N (Run ctx_err c id at_ env) env_out.
Proof.
  revert id at_ env N. induction c as [c IH] using config_induct. intros id at_ env N Hp Hn Henv.
  rewrite Run_eq. eapply kept_bind; [by apply kept_clone|]. intros N1 ? HN1 (e & -> & He).
  eapply kept_bind; [by apply (kept_ret _ _ _ (λ N' x, x = e))|]. intros N2 ? HN2 ->.
  destruct (dispatch_type _ _ _) as [t|] eqn:Ht; [|by apply kept_ret]. eapply kept_bind.
  - eapply kept_dispatch; [done|lia|eapply env_in_mono; [|exact Henv]; lia| |exact Ht]. intros Hm.
    apply kept_map; [lia|eapply env_in_mono; [|exact Henv]; lia|]. unfold item_node.
    intros run var Hchild N' a e' HN'. destruct (tc_ItemTransform c) as [item|] eqn:Hitem; [|done].
    injection Hchild as <- <-. apply IH; [done|by eapply in_place_item|lia].
  - intros N3 out HN3 Hout. apply kept_output; [lia|eapply env_in_mono; [|exact He]; lia|done].
Qed.

(** What a transform stores: a variable of the copy of the envelope. *)
Lemma output_vars outputVar id e out st st' e' name : (∀ l, se_Vars e = Some l → l < length st) →
  store_output outputVar id e out st = (st', Some (inl e')) → name ≠ outputVar →
  get_svar e' name st' = get_svar e name st.
Proof.
  intros Hlt. unfold store_output. destruct out as [r|err]; [|done]. case_bool_decide; [done|].
  unfold mbind, gom_bind, set_svar, get_svar. destruct (se_Vars e) as [l|] eqn:Hl; simpl.
  - intros [= <- <-] Hne. rewrite Hl, object_put_eq by (by apply Hlt). by rewrite lookup_insert_ne.
  - intros [= <- <-] Hne. simpl. unfold object. rewrite lookup_app_r, Nat.sub_diag by done. simpl.
    by rewrite lookup_singleton_ne.
Qed.

Lemma prefix_object (st st' : store) l : st `prefix_of` st' → l < length st → object st' l = object st l.
Proof. intros [k ->] Hl. unfold object. by rewrite lookup_app_l. Qed.

Lemma kept_prefix {A} N (m : GoM store A) Q st : kept (length st) N m Q → valid st → N ≤ length st →
  st `prefix_of` (m st).1.
Proof.
  intros Hm Hst HN. destruct (Hm st Hst HN) as [Ht _]. rewrite (take_ge st) in Ht by done.
  exists (drop (length st) (m st).1). rewrite <- (take_drop (length st) (m st).1) at 1. by rewrite Ht.
Qed.

Lemma clone_vars env st : ∃ st1 e, clone_senv (Some env) st = (st1, Some (Some e)) ∧
  (∀ name, get_svar e name st1 = get_svar env name st).
Proof.
  unfold clone_senv, get_svar. destruct (se_Vars env) as [l|] eqn:Hl; simpl; eexists _, _; split; try done.
  - intros name. simpl. unfold object at 1. rewrite lookup_app_r, Nat.sub_diag by done. done.
  - intros name. simpl. by rewrite Hl.
Qed.

Lemma Run_vars c id at_ env st st' e' name : in_place c = false → valid st → env_in 0 (length st) env →
  Run ctx_err c id at_ env st = (st', Some (inl e')) → name ≠ tc_OutputVar c →
  get_svar e' name st' = get_svar env name st.
Proof.
  intros Hp Hst Henv Hrun Hne. rewrite Run_eq in Hrun.
  destruct (clone_vars env st) as (st1 & e & Hclone & Hvars).
  destruct (kept_clone 0 (length st) env (Nat.le_0_l _) Henv st Hst (le_n _)) as [_ Hc].
  unfold mbind at 1, gom_bind at 1 in Hrun. rewrite Hclone in Hrun, Hc. destruct Hc as (Hst1 & Hlen & e0 & [= <-] & He).
  unfold mbind at 1, gom_bind at 1, deref in Hrun. simpl in Hrun.
  destruct (dispatch_type _ _ _) as [t|] eqn:Ht; [|done].
  assert (kept (length st1) (length st1) t ref_out) as Hkept.
  { eapply kept_dispatch; [done|done|by eapply env_in_mono| |exact Ht]. intros Hm.
    apply kept_map; [done|by eapply env_in_mono|]. unfold item_node. intros run var Hchild N' a e1 HN'.
    destruct (tc_ItemTransform c) as [item|] eqn:Hitem; [|done]. injection Hchild as <- <-.
    apply kept_Run; [by eapply in_place_item|done]. }
  pose proof (kept_prefix _ _ _ _ Hkept Hst1 (le_n _)) as Hpre.
  unfold mbind, gom_bind in Hrun. destruct (t st1) as [st2 [out|]]; [|done]. simpl in Hpre.
  apply (output_vars _ _ _ _ _ _ _ name) in Hrun; [|intros l Hl; destruct (He l Hl); apply prefix_length in Hpre; lia|done].
  rewrite Hrun, <- Hvars. unfold get_svar. destruct (se_Vars e) as [l|] eqn:Hl; [|done].
  rewrite (prefix_object st1 st2); [done|done|]. by destruct (He l Hl).
Qed.


(** [pick] returns a new map that holds, for every listed field the input
    has, the very value of the input at that path, and nothing else: whatever stands
    in it at a path is a part of the input at or below a listed field, or a new map
    above one. The input and every other map stay as they were. *)
Theorem pick_correct c env st r m : tc_Fields c ≠ [] → valid st → env_in 0 (length st) env →
  getInput c env st = inl r → as_map_ref r = Some m →
  ∃ st' l, transformPick c env st = (st', Some (inl (RMap l))) ∧ st `prefix_of` st' ∧
    (∀ f x, f ∈ tc_Fields c → getNestedRef st r f = Some x → getNestedRef st' (RMap l) f = Some x) ∧
    (∀ q x, q ≠ [] → nested_ref st' (RMap l) q = Some x →
      (∃ f, f ∈ tc_Fields c ∧ is_Some (getNestedRef st r f) ∧ path_parts f `prefix_of` q ∧ nested_ref st r q = Some x) ∨
      (∃ f z, f ∈ tc_Fields c ∧ is_Some (getNestedRef st r f) ∧ q `prefix_of` path_parts f ∧ x = RMap z ∧ length st ≤ z)).
Proof.
  intros Hf Hst Henv Hin Hm. assert (r = map_ref m) as -> by (destruct r as [[]| |]; by simplify_eq/=).
  assert (in_store (length st) (map_ref m)) as Hr by (by eapply valid_input).
  destruct (pick_run m st (tc_Fields c) Hst Hr) as (st' & P & Hrun & [Hinv HP] & Hgot).
  exists st', (length st). split_and!; [|apply Hinv|done|].
  - unfold transformPick. rewrite bool_decide_eq_false_2 by done. unfold with_map, mbind at 1, gom_bind at 1, gets.
    rewrite Hin, Hm. unfold mbind, gom_bind, new_map. by rewrite Hrun.
  - intros q x Hq Hx. assert (∀ f, found st (map_ref m) (path_parts <$> tc_Fields c) f →
      ∃ f', f = path_parts f' ∧ f' ∈ tc_Fields c ∧ is_Some (getNestedRef st (map_ref m) f')) as Hfound.
    { intros f [(f' & -> & Hf')%list_elem_of_fmap Hs]. by exists f'. }
    destruct (picked_nested st (map_ref m) (path_parts <$> tc_Fields c) Hst Hr P st' q Hinv (length st) x)
      as [(f & (f' & -> & ? & ?)%Hfound & Hpre & Hpart)|(f & z & (f' & -> & ? & ?)%Hfound & Hpre & -> & Hz)];
      rewrite ?HP in *; [done..| |]; [left; by exists f'|right; by exists f', z].
Qed.
End Theorems.

(** ** The two deep merges agree *)

Section DeepMerge.
Context {order : RangeOrder}.

(** The loop of [deepMerge] under the label of the loop of [mergeVars]. *)
Definition relabelled : RangeOrder :=
  {| range_map A _ m := range_map "deepMerge" m; range_map_perm A _ m := range_map_perm "deepMerge" m |}.

Definition deep_last : JSONMergeConfig := mkJSON true "last" false.

Definition no_errors {A} (m : GoM store A) (m' : GoM store (option error)) : Prop :=
  ∀ st, match m' st with
        | (st', Some None) => ∃ a, m st = (st', Some a)
        | (st', None) => m st = (st', None)
        | (_, Some (Some _)) => False
        end.

Lemma deep_merge_entries_agree rec rec' dst src keys : (∀ d s, no_errors (rec d s) (rec' d s)) →
  no_errors (deep_merge_entries rec dst src keys) (merge_entries deep_last rec' dst src keys).
Proof.
  intros Hrec. induction keys as [|k keys IH]; intros st; simpl; [by exists tt|].
  unfold mbind, gom_bind, gets. destruct (map_object src st !! k) as [v|]; simpl; [|by apply IH].
  unfold merge_entry, mbind, gom_bind, gets. destruct (map_object dst st !! k) as [e|]; simpl.
  - destruct (as_map_ref e) as [d|]; simpl; [destruct (as_map_ref v) as [s|]; simpl|].
    + specialize (Hrec d s st). destruct (rec' d s st) as [st1 [[err|]|]]; [done| |by rewrite Hrec].
      destruct Hrec as [a ->]. apply IH.
    + destruct dst as [l|]; [|done]. simpl. apply IH.
    + destruct dst as [l|]; [|done]. simpl. apply IH.
  - destruct dst as [l|]; [|done]. simpl. apply IH.
Qed.

(** [deepMerge] is the deep merge of the merge node without its error. *)
Lemma deep_merge_agrees fuel dst src :
  no_errors (deep_merge fuel dst src) (@mergeVars relabelled deep_last fuel dst src).
Proof.
  revert dst src. induction fuel as [|fuel IH]; intros dst src; [done|]. intros st. cbn [deep_merge mergeVars].
  unfold mbind, gom_bind, gets. by apply (deep_merge_entries_agree (deep_merge fuel) (@mergeVars relabelled deep_last fuel)).
Qed.
End DeepMerge.

(** ** Samples *)

Module TransformSamples.
#[local] Existing Instance key_order.
#[local] Instance printer : Printer := {| print_pointer _ := "0xc0"; print_struct ty _ := ty |}.
#[local] Instance encoder : JsonEncoder := {| json_Marshal v := inl (Sprint v) |}.
#[local] Instance lower : LowerTables := {| lower_other s := s |}.
#[local] Instance upper : UpperTables := {| upper_other s := s |}.
#[local] Instance indenter : JsonPrinter := {| json_MarshalIndent v := inl (Sprint v) |}.
#[local] Instance engine : Templates := {| template_parses _ _ := None; template_execute _ s _ := inl s |}.
#[local] Instance libs : TransformLibs := {|
  json_Unmarshal s := inl (VSlice [VString s]);
  error_string _ := "failure";
  strings_Split s sep := [s] |}.

Definition background (_ : list nat) : option error := None.

Definition config (t input output : string) : TransformNodeConfig :=
  mkTransform t input [] output [] ∅ "" "" "" 0 "" None None.
Definition with_fields (fs : list string) (c : TransformNodeConfig) : TransformNodeConfig :=
  mkTransform (tc_Transform c) (tc_InputVar c) (tc_InputVars c) (tc_OutputVar c) fs (tc_Mapping c) (tc_Template c)
    (tc_Format c) (tc_Separator c) (tc_MaxDepth c) (tc_MergeStrategy c) (tc_ItemTransform c) (tc_CustomFunc c).
Definition with_item (item : TransformNodeConfig) (c : TransformNodeConfig) : TransformNodeConfig :=
  mkTransform (tc_Transform c) (tc_InputVar c) (tc_InputVars c) (tc_OutputVar c) (tc_Fields c) (tc_Mapping c)
    (tc_Template c) (tc_Format c) (tc_Separator c) (tc_MaxDepth c) (tc_MergeStrategy c) (Some item) (tc_CustomFunc c).
Definition merging (strategy : string) (inputs : list string) : TransformNodeConfig :=
  mkTransform TransformMerge "" inputs "all" [] ∅ "" "" "" 0 strategy None None.
Definition renaming (mapping : gmap string string) : TransformNodeConfig :=
  mkTransform TransformRename "doc" [] "out" [] mapping "" "" "" 0 "" None None.

(** Variables [doc], a document with nested parts, and [docs], a list of it. *)
Definition sample_store : store := [
  <["doc" := RMap 1]> {[ "docs" := RList "interface {}" [RMap 1; RMap 2] ]};
  <["title" := RVal (VString "t")]> {[ "meta" := RMap 2 ]};
  <["score" := RVal (VInt 1)]> {[ "tags" := RVal (VStrings ["a"]) ]}].

Definition sample_env : senv := mkSenv VNil (Some 0) [] [] [] (mkTrace "" "" "" "" 0).

(** The contents of the output variable and of the variables given. *)
Definition run_output (c : TransformNodeConfig) : option value :=
  match Run background c "n" [] sample_env sample_store with
  | (st', Some (inl e)) => contents st' <$> get_svar e (tc_OutputVar c) st'
  | _ => None
  end.

Definition sample_pick : TransformNodeConfig := with_fields ["meta"; "meta.score"; "missing"] (config TransformPick "doc" "out").

Example transforms_run :
  map run_output [sample_pick;
    with_fields ["meta.tags"; "title"] (config TransformOmit "doc" "out");
    renaming {[ "meta.score" := "rank.value" ]};
    config TransformFlatten "doc" "out";
    with_item (with_fields ["score"] (config TransformPick "_item" "r")) (config TransformMap "docs" "out")]
  = [Some (VMap {[ "meta" := VMap (<["score" := VInt 1]> {[ "tags" := VStrings ["a"] ]}) ]});
     Some (VMap {[ "meta" := VMap {[ "score" := VInt 1 ]} ]});
     Some (VMap (<["title" := VString "t"]> (<["meta" := VMap {[ "tags" := VStrings ["a"] ]}]>
       {[ "rank" := VMap {[ "value" := VInt 1 ]} ]})));
     Some (VMap (<["title" := VString "t"]> (<["meta.score" := VInt 1]> {[ "meta.tags" := VStrings ["a"] ]})));
     Some (VSlice [VMap ∅; VMap {[ "score" := VInt 1 ]}])].
Proof. vm_compute. reflexivity. Qed.

Lemma sample_valid : valid sample_store.
Proof.
  intros l o k r Hl Hr. destruct l as [|[|[|l]]]; simpl in Hl; [injection Hl as <-..|done];
    repeat (apply lookup_insert_Some in Hr as [[_ <-]|[_ Hr]]; [simpl; lia|]);
    apply lookup_singleton_Some in Hr as [_ <-]; simpl; lia.
Qed.

Lemma sample_env_in : env_in 0 (length sample_store) sample_env.
Proof. intros l [= <-]. simpl. lia. Qed.

Definition sample_map : TransformNodeConfig :=
  with_item (with_fields ["score"] (config TransformPick "_item" "r")) (config TransformMap "docs" "out").


Lemma pick_correct_witness :
  ∃ st' l, transformPick sample_pick sample_env sample_store = (st', Some (inl (RMap l))) ∧
    getNestedRef sample_store (RMap 1) "meta.score" = Some (RVal (VInt 1)) ∧
    getNestedRef st' (RMap l) "meta.score" = Some (RVal (VInt 1)).
Proof.
  destruct (pick_correct sample_pick sample_env sample_store (RMap 1) (Some 1)) as (st' & l & Hrun & _ & Hgot & _);
    [discriminate|apply sample_valid|apply sample_env_in|reflexivity|reflexivity|].
  exists st', l. split; [exact Hrun|]. split; [reflexivity|]. apply Hgot; [|reflexivity].
  apply list_elem_of_In. simpl. auto.
Defined.

(** A deep merge writes into the map of its first input. *)
Definition nested_store : store := [
  <["a" := RMap 1]> {[ "b" := RMap 2 ]};
  {[ "x" := RMap 3 ]}; {[ "x" := RMap 4 ]}; {[ "p" := RVal (VInt 1) ]}; {[ "q" := RVal (VInt 2) ]}].

Example deep_merge_changes_input :
  match Run background (merging "deep" ["a"; "b"]) "n" [] sample_env nested_store with
  | (st', Some (inl e)) => contents st' <$> get_svar e "a" st'
  | _ => None
  end = Some (VMap {[ "x" := VMap (<["p" := VInt 1]> {[ "q" := VInt 2 ]}) ]}).
Proof. vm_compute. reflexivity. Qed.

(** The error of an unknown type. *)
Example unknown_type :
  (Run background (config "sort" "doc" "out") "n" [] sample_env sample_store).2 =
  Some (run_error "n" [PS "unknown transform type "; PQ "sort"]).
Proof. reflexivity. Qed.
End TransformSamples.
