(* ===== verification/CallNodes.v ===== *)
(** * Nodes that call models and tools (nodes/llm.go, nodes/tool.go, nodes/router.go, core/types.go)

    The LLM node with its synchronous and streaming calls, the router that asks a
    model, the tool node and the tool registry. The services are operations of the
    world; the nodes write to the envelope they are given, so that a run ends with
    the contents of that envelope and an error or none.

    The theorems: an LLM node that succeeds stored and announced exactly the text it
    received, within its budget, and one that fails left the envelope alone
    ([llm_node_correct]); a model router only routes to targets it allows
    ([llm_router_allowed]); a tool node announces every call, and its error policy
    decides whether a failure is returned or recorded ([tool_node_correct]). *)

From stdpp Require Import gmap strings list fin_maps.
From Stdlib Require Import ZArith Lia.
From S2P Require Import Prelude Values Envelope GoFmt Unicode NodeHelpers Graph Events StepController Runtime NodeProg.

(** ** Data (core/types.go) *)

Record RetryPolicy := mkRetryPolicy { rp_MaxAttempts : Z; rp_Backoff : Z }.

(** Durations are in nanoseconds. *)
Definition second : Z := 1000000000.
Definition DefaultRetryPolicy : RetryPolicy := mkRetryPolicy 3 second.

Definition policy_or_default (p : RetryPolicy) : RetryPolicy :=
  if (rp_MaxAttempts p =? 0)%Z then DefaultRetryPolicy else p.

Definition ErrorPolicyFail := "fail".
Definition ErrorPolicyContinue := "continue".
Definition ErrorPolicyRecord := "record".

Record Budget := mkBudget {
  bg_MaxInputTokens : Z; bg_MaxOutputTokens : Z; bg_MaxTotalTokens : Z; bg_MaxCostUSD : F64.t
}.

Record LLMTokenUsage := mkUsage { us_InputTokens : Z; us_OutputTokens : Z; us_TotalTokens : Z; us_CostUSD : F64.t }.

Definition no_usage : LLMTokenUsage := mkUsage 0 0 0 F64.zero.

(** [core.TokenUsage] in a variable. *)
Definition usage_value (u : LLMTokenUsage) : value :=
  VStruct "core.TokenUsage" (list_to_map [("InputTokens", VInt (us_InputTokens u));
    ("OutputTokens", VInt (us_OutputTokens u)); ("TotalTokens", VInt (us_TotalTokens u));
    ("CostUSD", VFloat64 (us_CostUSD u))]).

(** The fields that the nodes set or read; the others keep their zero values. *)
Record LLMRequest := mkLLMRequest {
  lr_Model : string; lr_System : string; lr_InputText : string; lr_JSONSchema : option (gmap string value);
  lr_Temperature : option F64.t; lr_MaxTokens : option Z
}.

Record LLMResponse := mkLLMResponse {
  ls_Text : string; ls_JSON : option (gmap string value); ls_Usage : LLMTokenUsage; ls_Provider : string; ls_Model : string
}.

Definition no_response : LLMResponse := mkLLMResponse "" None no_usage "" "".

Record StreamChunk := mkChunk {
  ck_Delta : string; ck_Index : Z; ck_Done : bool; ck_Usage : option LLMTokenUsage; ck_Error : option error
}.

(** A client; one that also implements [StreamingLLMClient] opens a stream: the
    chunks that arrive on its channel before it is closed. *)
Record LLMClient (W : Type) := mkClient {
  lc_Complete : LLMRequest → W → W * (LLMResponse + error);
  lc_CompleteStream : option (LLMRequest → W → W * (list StreamChunk + error))
}.
Arguments mkClient {W}.
Arguments lc_Complete {W}.
Arguments lc_CompleteStream {W}.

(** ** Calls with retries *)

Section Retries.
Context {W : Type} `{Timeouts W} `{Timers W} {A : Type} (policy : RetryPolicy) (call : Prog W (A + error)).

(** The loop; [last] is what the variables hold before the attempt. The right
    result is the early return when the context is done. *)
Fixpoint attempts (more : nat) (attempt : Z) (last : A + error) : Prog W ((A + error) + error) :=
  match more with
  | 0 => mret (inl last)
  | S more' =>
      r ← call;
      match r with
      | inl a => mret (inl (inl a))
      | inr err =>
          done ← act ctx_Done;
          match done with
          | Some cerr => mret (inr cerr)
          | None =>
              if (attempt <? rp_MaxAttempts policy)%Z then
                waited ← act (time_After (wrap64 (rp_Backoff policy * attempt)));
                match waited with
                | Some cerr => mret (inr cerr)
                | None => attempts more' (attempt + 1) (inr err)
                end
              else attempts more' (attempt + 1) (inr err)
          end
      end
  end.

Definition call_with_retries (zero : A) : Prog W ((A + error) + error) :=
  attempts (Z.to_nat (rp_MaxAttempts policy)) 1 (inl zero).
End Retries.

(** What [toString] does besides JSON: types with a [String] method, and bytes. *)
Class Stringers := { go_String : value → option string }.

Definition toString `{Stringers} `{JsonEncoder} `{Printer} (v : value) : string :=
  match v with
  | VString s => s
  | _ =>
      match go_String v with
      | Some s => s
      | None => match json_Marshal v with inl s => s | inr _ => Sprint v end
      end
  end.

(** The texts of the variables that exist. *)
Definition input_texts `{Stringers} `{JsonEncoder} `{Printer} (names : list string) (env : Envelope) : list string :=
  omap (λ name, toString <$> GetVar env name) names.

Definition newline1 : string := String (Ascii.ascii_of_nat 10) EmptyString.

(** ** The LLM node *)

Record LLMNodeConfig := mkLLMConfig {
  ll_Model : string;
  ll_System : string;
  ll_PromptTemplate : string;
  ll_InputVars : list string;
  ll_OutputKey : string;
  ll_JSONSchema : option (gmap string value);
  ll_Temperature : option F64.t;
  ll_MaxTokens : option Z;
  ll_RetryPolicy : RetryPolicy;
  ll_Timeout : Z;
  ll_Budget : option Budget;
  ll_RecordMessages : bool
}.

Record LLMNode (W : Type) := mkLLMNode { ln_ID : string; ln_config : LLMNodeConfig; ln_client : LLMClient W }.
Arguments mkLLMNode {W}.
Arguments ln_ID {W}.
Arguments ln_config {W}.
Arguments ln_client {W}.

Definition NodeKindLLM := "llm".
Definition NodeKindTool := "tool".

Definition NewLLMNode {W} (id : string) (client : LLMClient W) (c : LLMNodeConfig) : LLMNode W :=
  mkLLMNode id (mkLLMConfig (ll_Model c) (ll_System c) (ll_PromptTemplate c) (ll_InputVars c)
    (if bool_decide (ll_OutputKey c = EmptyString) then id ^^ "_output" else ll_OutputKey c)
    (ll_JSONSchema c) (ll_Temperature c) (ll_MaxTokens c) (policy_or_default (ll_RetryPolicy c))
    (if (ll_Timeout c =? 0)%Z then 60 * second else ll_Timeout c)%Z (ll_Budget c) (ll_RecordMessages c)) client.

Section LLM.
Context {W : Type} `{Timeouts W} `{Timers W} `{Templates} `{Stringers} `{JsonEncoder} `{Printer}.
Implicit Types (n : LLMNode W) (env : Envelope).

(** The contents of the envelope on return, and the error. *)
Notation node_run := (Prog W (Envelope * option error)).

Definition executeTemplate n env : string + error :=
  let tmpl := ll_PromptTemplate (ln_config n) in
  match template_parses [] tmpl with
  | Some err => inr (EFmt [PS "invalid prompt template: "; PW err])
  | None =>
      let data := match env_Input env with VNil => vars_of env | input => <["input" := input]> (vars_of env) end in
      match template_execute [] tmpl data with
      | inr err => inr (EFmt [PS "template execution failed: "; PW err])
      | inl text => inl text
      end
  end.

Definition buildPrompt n env : string + error :=
  if bool_decide (ll_PromptTemplate (ln_config n) ≠ EmptyString) then executeTemplate n env
  else inl (GoStr.Join (input_texts (ll_InputVars (ln_config n)) env) newline1).

(** [%.4f] of the costs is kept as the value. *)
Definition checkBudget (b : Budget) (u : LLMTokenUsage) : option error :=
  let exceeds (max used : Z) : bool := (0 <? max)%Z && (max <? used)%Z in
  if exceeds (bg_MaxInputTokens b) (us_InputTokens u) then
    Some (EFmt [PS "input tokens "; PD (us_InputTokens u); PS " exceeds budget "; PD (bg_MaxInputTokens b)])
  else if exceeds (bg_MaxOutputTokens b) (us_OutputTokens u) then
    Some (EFmt [PS "output tokens "; PD (us_OutputTokens u); PS " exceeds budget "; PD (bg_MaxOutputTokens b)])
  else if exceeds (bg_MaxTotalTokens b) (us_TotalTokens u) then
    Some (EFmt [PS "total tokens "; PD (us_TotalTokens u); PS " exceeds budget "; PD (bg_MaxTotalTokens b)])
  else if F64.ltb F64.zero (bg_MaxCostUSD b) && F64.ltb (bg_MaxCostUSD b) (us_CostUSD u) then
    Some (EFmt [PS "cost $"; PF 4 (us_CostUSD u); PS " exceeds budget $"; PF 4 (bg_MaxCostUSD b)])
  else None.

Definition check_usage n (u : LLMTokenUsage) : option error :=
  match ll_Budget (ln_config n) with Some b => checkBudget b u | None => None end.

Definition new_request n (prompt : string) : LLMRequest :=
  let c := ln_config n in
  mkLLMRequest (ll_Model c) (ll_System c) prompt (ll_JSONSchema c) (ll_Temperature c) (ll_MaxTokens c).

Definition llm_event n env (kind : string) (payloads : list (string * value)) : Prog W () :=
  node_event kind (tr_RunID (env_Trace env)) (ln_ID n) NodeKindLLM payloads.

(** The prompt and the answer as messages. *)
Definition record_messages n (prompt text : string) (meta : gmap string value) env : Envelope :=
  if ll_RecordMessages (ln_config n) then
    AppendMessage (mkMessage "assistant" text (ln_ID n) meta) (AppendMessage (mkMessage "user" prompt (ln_ID n) ∅) env)
  else env.

(** What a successful call stores. *)
Definition store_result n (prompt text : string) (output : value) (u : LLMTokenUsage) (meta : gmap string value) env
    : Envelope :=
  let key := ll_OutputKey (ln_config n) in
  record_messages n prompt text meta (SetVar (key ^^ "_usage") (usage_value u) (SetVar key output env)).

Definition runSync n env (prompt : string) : node_run :=
  let c := ln_config n in
  out ← call_with_retries (ll_RetryPolicy c) (act (lc_Complete (ln_client n) (new_request n prompt))) no_response;
  match out with
  | inr cerr => mret (env, Some cerr)
  | inl (inr err) =>
      mret (env, Some (EFmt [PS "LLM call failed after "; PD (rp_MaxAttempts (ll_RetryPolicy c)); PS " attempts: "; PW err]))
  | inl (inl resp) =>
      match check_usage n (ls_Usage resp) with
      | Some err => mret (env, Some err)
      | None =>
          llm_event n env EventNodeOutputFinal [("text", VString (ls_Text resp))];;
          mret (store_result n prompt (ls_Text resp)
                  (match ll_JSONSchema c, ls_JSON resp with Some _, Some json => VMap json | _, _ => VString (ls_Text resp) end)
                  (ls_Usage resp) {[ "model" := VString (ls_Model resp); "provider" := VString (ls_Provider resp) ]} env, None)
      end
  end.

(** The loop over the chunks: the text, the usage, or the error of a chunk. *)
Fixpoint read_chunks n env (text : string) (chunks : list StreamChunk) : Prog W (string * LLMTokenUsage + error) :=
  match chunks with
  | [] => mret (inl (text, no_usage))
  | chunk :: chunks =>
      match ck_Error chunk with
      | Some err => mret (inr (EFmt [PS "streaming error: "; PW err]))
      | None =>
          if ck_Done chunk then mret (inl (text, default no_usage (ck_Usage chunk)))
          else
            llm_event n env EventNodeOutputDelta [("delta", VString (ck_Delta chunk)); ("index", VInt (ck_Index chunk))];;
            read_chunks n env (text ^^ ck_Delta chunk) chunks
      end
  end.

Definition runStreaming n env (stream : LLMRequest → W → W * (list StreamChunk + error)) (prompt : string) : node_run :=
  opened ← act (stream (new_request n prompt));
  match opened with
  | inr err => mret (env, Some (EFmt [PS "streaming LLM call failed: "; PW err]))
  | inl chunks =>
      read ← read_chunks n env EmptyString chunks;
      match read with
      | inr err => mret (env, Some err)
      | inl (text, u) =>
          match check_usage n u with
          | Some err => mret (env, Some err)
          | None =>
              llm_event n env EventNodeOutputFinal [("text", VString text)];;
              mret (store_result n prompt text (VString text) u ∅ env, None)
          end
      end
  end.

Definition Run n env : node_run :=
  with_timeout (ll_Timeout (ln_config n))
    (match buildPrompt n env with
     | inr err => mret (env, Some (EFmt [PS "failed to build prompt: "; PW err]))
     | inl prompt =>
         match lc_CompleteStream (ln_client n) with
         | Some stream => runStreaming n env stream prompt
         | None => runSync n env prompt
         end
     end).
End LLM.

(** ** The router that asks a model *)

Record LLMRouterConfig := mkLLMRouterConfig {
  lx_Model : string;
  lx_System : string;
  lx_InputVars : list string;
  lx_AllowedTargets : gmap string string;
  lx_DecisionKey : string;
  lx_Temperature : option F64.t;
  lx_Timeout : Z;
  lx_RetryPolicy : RetryPolicy
}.

Record LLMRouter (W : Type) := mkLLMRouter { lx_ID : string; lx_config : LLMRouterConfig; lx_client : LLMClient W }.
Arguments mkLLMRouter {W}.
Arguments lx_ID {W}.
Arguments lx_config {W}.
Arguments lx_client {W}.

Definition NewLLMRouter {W} (id : string) (client : LLMClient W) (c : LLMRouterConfig) : LLMRouter W :=
  mkLLMRouter id (mkLLMRouterConfig (lx_Model c) (lx_System c) (lx_InputVars c) (lx_AllowedTargets c)
    (if bool_decide (lx_DecisionKey c = EmptyString) then id ^^ "_decision" else lx_DecisionKey c)
    (match lx_Temperature c with None => Some (F64.of_decimal false 1 1) | t => t end)
    (if (lx_Timeout c =? 0)%Z then 30 * second else lx_Timeout c)%Z (policy_or_default (lx_RetryPolicy c))) client.

(** The struct the answer is decoded into. *)
Record choice := mkChoice { ch_Choice : string; ch_Reason : string; ch_Confidence : option F64.t }.

(** [json.Unmarshal] into the struct: it fills in what it decodes, also when it
    fails in the end. *)
Class ChoiceDecoder := { unmarshal_choice : string → choice → choice * option error }.

Section Router.
Context {W : Type} `{Timeouts W} `{Timers W} `{RangeOrder} `{ChoiceDecoder} `{LowerTables}.
Context `{Stringers} `{JsonEncoder} `{Printer}.
Implicit Types (r : LLMRouter W) (env : Envelope).

Definition router_prompt r env : string :=
  GoStr.Join (input_texts (lx_InputVars (lx_config r)) env) (newline1 ^^ newline1).

Definition buildSystemPrompt r (labels : list string) : string :=
  (if bool_decide (lx_System (lx_config r) = EmptyString)
   then "You are a classifier. Analyze the input and choose the most appropriate category."
   else lx_System (lx_config r)) ^^ newline1 ^^ newline1 ^^
  "You must choose exactly one of these options: " ^^ GoStr.Join labels ", " ^^ newline1 ^^ newline1 ^^
  "Respond with JSON containing your choice and brief reason.".

(** The constraint on the output. *)
Definition choice_schema (labels : list string) : gmap string value :=
  list_to_map [
    ("type", VString "object");
    ("properties", VMap (list_to_map [
       ("choice", VMap (list_to_map [("type", VString "string"); ("enum", VStrings labels)]));
       ("reason", VMap {[ "type" := VString "string" ]});
       ("confidence", VMap (list_to_map [("type", VString "number"); ("minimum", VInt 0); ("maximum", VInt 1)]))]));
    ("required", VStrings ["choice"])].

(** The label found in a text that is no JSON. *)
Definition find_label r (text : string) : option string :=
  fst <$> find (λ lt, GoStr.Contains (ToLower text) (ToLower lt.1))
    (range_map ("parseResponse " ^^ lx_ID r) (lx_AllowedTargets (lx_config r))).

(** The choice read from the answer. [json.Marshal] that fails leaves no data. *)
Definition parsed_choice r (resp : LLMResponse) : choice + error :=
  let start := mkChoice "" "" None in
  let '(parsed, found) :=
    match ls_JSON resp with
    | None => (start, false)
    | Some json =>
        let data := match json_Marshal (VMap json) with inl s => s | inr _ => EmptyString end in
        let '(parsed, err) := unmarshal_choice data start in
        (parsed, match err with None => negb (bool_decide (ch_Choice parsed = EmptyString)) | Some _ => false end)
    end in
  if found then inl parsed
  else
    let '(parsed, err) := unmarshal_choice (ls_Text resp) parsed in
    match err with
    | None => inl parsed
    | Some _ =>
        match find_label r (ls_Text resp) with
        | Some label => inl (mkChoice label "extracted from text" (ch_Confidence parsed))
        | None => inr (EFmt [PS "could not parse routing decision from: "; PS (ls_Text resp)])
        end
    end.

(** A decision: its only target, the reason, the confidence and the metadata. *)
Record decision := mkDecision {
  dc_Target : string; dc_Reason : string; dc_Confidence : option F64.t; dc_Meta : gmap string value
}.

Definition decision_value (d : decision) : value :=
  VDecision [dc_Target d] (dc_Reason d) (dc_Confidence d) (dc_Meta d).

Definition parseResponse r (resp : LLMResponse) : decision + error :=
  match parsed_choice r resp with
  | inr err => inr err
  | inl parsed =>
      match lx_AllowedTargets (lx_config r) !! ch_Choice parsed with
      | None =>
          inr (EFmt [PS "invalid choice "; PQ (ch_Choice parsed); PS ", allowed: ";
            PV (VMap (VString <$> lx_AllowedTargets (lx_config r)))])
      | Some target =>
          inl (mkDecision target (ch_Reason parsed) (ch_Confidence parsed)
            {[ "choice" := VString (ch_Choice parsed); "model" := VString (ls_Model resp) ]})
      end
  end.

Definition router_request r env : LLMRequest :=
  let c := lx_config r in
  let labels := map fst (range_map ("Route " ^^ lx_ID r) (lx_AllowedTargets c)) in
  mkLLMRequest (lx_Model c) (buildSystemPrompt r labels) (router_prompt r env) (Some (choice_schema labels))
    (lx_Temperature c) None.

Definition Route r env : Prog W (decision + error) :=
  with_timeout (lx_Timeout (lx_config r))
    (out ← call_with_retries (lx_RetryPolicy (lx_config r)) (act (lc_Complete (lx_client r) (router_request r env)))
             no_response;
     match out with
     | inr cerr => mret (inr cerr)
     | inl (inr err) => mret (inr (EFmt [PS "LLM router failed: "; PW err]))
     | inl (inl resp) => mret (parseResponse r resp)
     end).

Definition router_Run r env : Prog W (Envelope * option error) :=
  d ← Route r env;
  match d with
  | inr err => mret (env, Some err)
  | inl d => mret (SetVar (lx_DecisionKey (lx_config r)) (decision_value d) env, None)
  end.
End Router.

(** ** Tools *)

(** [PetalTool]: its result is a map, possibly nil. *)
Record PetalTool (W : Type) := mkTool {
  pt_Name : string;
  pt_Invoke : gmap string value → W → W * (option (gmap string value) + error)
}.
Arguments mkTool {W}.
Arguments pt_Name {W}.
Arguments pt_Invoke {W}.

Definition NewFuncTool {W} (name : string) (fn : option (gmap string value → W → W * (option (gmap string value) + error)))
    : PetalTool W :=
  mkTool name (λ args w, match fn with None => (w, inl (Some ∅)) | Some f => f args w end).

(** [core.ToolRegistry]. *)
Notation tool_registry W := (gmap string (PetalTool W)).

Definition registry_Register {W} (t : PetalTool W) (r : tool_registry W) : tool_registry W := <[pt_Name t := t]> r.
Definition registry_Get {W} (r : tool_registry W) (name : string) : option (PetalTool W) := r !! name.
Definition registry_List {W} `{RangeOrder} (r : tool_registry W) : list string := map fst (range_map "ToolRegistry.List" r).

Record ToolNodeConfig := mkToolConfig {
  tn_ToolName : string;
  tn_ArgsTemplate : gmap string string;
  tn_StaticArgs : gmap string value;
  tn_OutputKey : string;
  tn_Timeout : Z;
  tn_RetryPolicy : RetryPolicy;
  tn_OnError : string
}.

Record ToolNode (W : Type) := mkToolNode {
  tn_ID : string; tn_config : ToolNodeConfig; tn_tool : option (PetalTool W); tn_registry : option (tool_registry W)
}.
Arguments mkToolNode {W}.
Arguments tn_ID {W}.
Arguments tn_config {W}.
Arguments tn_tool {W}.
Arguments tn_registry {W}.

(** The defaults that both constructors apply. *)
Definition tool_defaults (id : string) (c : ToolNodeConfig) : ToolNodeConfig :=
  mkToolConfig (tn_ToolName c) (tn_ArgsTemplate c) (tn_StaticArgs c)
    (if bool_decide (tn_OutputKey c = EmptyString) then id ^^ "_output" else tn_OutputKey c)
    (if (tn_Timeout c =? 0)%Z then 30 * second else tn_Timeout c)%Z (policy_or_default (tn_RetryPolicy c))
    (if bool_decide (tn_OnError c = EmptyString) then ErrorPolicyFail else tn_OnError c).

Definition set_ToolName (name : string) (c : ToolNodeConfig) : ToolNodeConfig :=
  mkToolConfig name (tn_ArgsTemplate c) (tn_StaticArgs c) (tn_OutputKey c) (tn_Timeout c) (tn_RetryPolicy c) (tn_OnError c).

Definition NewToolNode {W} (id : string) (tool : option (PetalTool W)) (c : ToolNodeConfig) : ToolNode W :=
  let c := tool_defaults id c in
  mkToolNode id
    (match tool with
     | Some t => if bool_decide (tn_ToolName c = EmptyString) then set_ToolName (pt_Name t) c else c
     | None => c
     end) tool None.

Definition NewToolNodeWithRegistry {W} (id : string) (registry : option (tool_registry W)) (c : ToolNodeConfig) : ToolNode W :=
  mkToolNode id (tool_defaults id c) None registry.

Section Tool.
Context {W : Type} `{Timeouts W} `{Timers W} (error_text : error → string).
Implicit Types (n : ToolNode W) (env : Envelope).
Notation node_run := (Prog W (Envelope * option error)).

Definition getTool n : PetalTool W + error :=
  match tn_tool n with
  | Some t => inl t
  | None =>
      match tn_registry n with
      | Some r =>
          match registry_Get r (tn_ToolName (tn_config n)) with
          | Some t => inl t
          | None => inr (EFmt [PS "tool "; PQ (tn_ToolName (tn_config n)); PS " not found in registry"])
          end
      | None => inr (EFmt [PS "no tool or registry configured"])
      end
  end.

(** The value an argument is read from: a path, else a plain name. *)
Definition argument env (path : string) : option value :=
  match GetVarNested env path with Some v => Some v | None => GetVar env path end.

(** The keys of the template are distinct, so that the order of its range does not
    matter; an argument from the envelope replaces a static one. *)
Definition buildArgs n env : gmap string value :=
  omap (argument env) (tn_ArgsTemplate (tn_config n)) ∪ tn_StaticArgs (tn_config n).

Definition tool_result (r : option (gmap string value)) : value :=
  match r with Some m => VMap m | None => VNilMap end.

Definition handleError n env (err : error) : node_run :=
  let c := tn_config n in
  if bool_decide (tn_OnError c = ErrorPolicyContinue) || bool_decide (tn_OnError c = ErrorPolicyRecord) then
    now ← act time_Now;
    let env := AppendError (mkNodeError (tn_ID n) NodeKindTool err 0 now {[ "tool" := VString (tn_ToolName c) ]} (Some err)) env in
    mret (SetVar (tn_OutputKey c ^^ "_error") (VString (error_text err)) (SetVar (tn_OutputKey c) VNil env), None)
  else mret (env, Some err).

Definition tool_event n env (kind : string) (payloads : list (string * value)) : Prog W () :=
  node_event kind (tr_RunID (env_Trace env)) (tn_ID n) NodeKindTool payloads.

(** [Run] from the call of the tool on. *)
Definition invoke_tool n env (t : PetalTool W) : node_run :=
  let c := tn_config n in
  let args := buildArgs n env in
  tool_event n env EventToolCall [("tool_name", VString (pt_Name t)); ("arguments", VMap args)];;
  out ← call_with_retries (tn_RetryPolicy c) (act (pt_Invoke t args)) None;
  match out with
  | inr cerr => handleError n env cerr
  | inl result =>
      tool_event n env EventToolResult [("tool_name", VString (pt_Name t));
        ("is_error", VBool (match result with inr _ => true | inl _ => false end))];;
      match result with
      | inr err =>
          handleError n env (EFmt [PS "tool "; PQ (tn_ToolName c); PS " failed after ";
            PD (rp_MaxAttempts (tn_RetryPolicy c)); PS " attempts: "; PW err])
      | inl r => mret (SetVar (tn_OutputKey c) (tool_result r) env, None)
      end
  end.

Definition tool_Run n env : node_run :=
  with_timeout (tn_Timeout (tn_config n))
    (match getTool n with
     | inr err => handleError n env err
     | inl t => invoke_tool n env t
     end).
End Tool.

(** ** Correctness *)

Section Calls.
Context {W : Type} `{Timeouts W} `{Timers W}.

(** Retries emit nothing, and what they return was answered by the service, unless
    the policy allows no attempt at all. *)
Definition answered {A} (policy : RetryPolicy) (f : W → W * (A + error)) (zero : A) (out : (A + error) + error) : Prop :=
  match out with
  | inl (inl a) => (∃ w, (f w).2 = inl a) ∨ ((rp_MaxAttempts policy <= 0)%Z ∧ a = zero)
  | inl (inr err) => ∃ w, (f w).2 = inr err
  | inr _ => True
  end.

Lemma posts_attempts {A} policy (f : W → W * (A + error)) zero more attempt last :
  (more = 0 → answered policy f zero (inl last)) →
  posts (attempts policy (act f) more attempt last) (λ es out, es = [] ∧ answered policy f zero out).
Proof.
  revert attempt last. induction more as [|more IH]; intros attempt last Hlast.
  { apply posts_ret. by split; [|apply Hlast]. }
  cbn [attempts]. eapply posts_bind; [apply (posts_act f (λ es r, es = [] ∧ ∃ w, (f w).2 = r)); eauto|].
  intros es r [-> [w Hr]]. destruct r as [a|err]; [apply posts_ret; split; [done|]; left; by exists w|].
  apply posts_step. intros [cerr|]; [by apply posts_ret|].
  assert (more = 0 → answered policy f zero (inl (inr err))) as Hnext by (intros _; by exists w).
  destruct (attempt <? rp_MaxAttempts policy)%Z; [|by apply IH].
  apply posts_step. intros [cerr|]; [by apply posts_ret|by apply IH].
Qed.

Lemma posts_retries {A} policy (f : W → W * (A + error)) zero :
  posts (call_with_retries policy (act f) zero) (λ es out, es = [] ∧ answered policy f zero out).
Proof. apply posts_attempts. intros Hmore. right. split; [lia|done]. Qed.
End Calls.

Section LLMCorrect.
Context {W : Type} `{Timeouts W} `{Timers W} `{Templates} `{Stringers} `{JsonEncoder} `{Printer}.
Implicit Types (n : LLMNode W) (env : Envelope).

Definition within_budget (b : Budget) (u : LLMTokenUsage) : Prop :=
  ((0 < bg_MaxInputTokens b → us_InputTokens u <= bg_MaxInputTokens b) ∧
   (0 < bg_MaxOutputTokens b → us_OutputTokens u <= bg_MaxOutputTokens b) ∧
   (0 < bg_MaxTotalTokens b → us_TotalTokens u <= bg_MaxTotalTokens b))%Z ∧
  (F64.ltb F64.zero (bg_MaxCostUSD b) = true → F64.ltb (bg_MaxCostUSD b) (us_CostUSD u) = false).

Lemma checkBudget_None b u : checkBudget b u = None → within_budget b u.
Proof.
  unfold checkBudget, within_budget.
  destruct (0 <? bg_MaxInputTokens b)%Z eqn:?, (bg_MaxInputTokens b <? us_InputTokens u)%Z eqn:?; simpl; try done;
  destruct (0 <? bg_MaxOutputTokens b)%Z eqn:?, (bg_MaxOutputTokens b <? us_OutputTokens u)%Z eqn:?; simpl; try done;
  destruct (0 <? bg_MaxTotalTokens b)%Z eqn:?, (bg_MaxTotalTokens b <? us_TotalTokens u)%Z eqn:?; simpl; try done;
  destruct (F64.ltb F64.zero (bg_MaxCostUSD b)), (F64.ltb (bg_MaxCostUSD b) (us_CostUSD u)); simpl; try done;
  intros _; repeat split; try done; lia.
Qed.

(** The delta events of a stream, with their texts and indices. *)
Definition deltas_of n env (es : list Event) (ts : list (string * Z)) : Prop :=
  Forall2 (λ e t, event_is EventNodeOutputDelta (tr_RunID (env_Trace env)) (ln_ID n) NodeKindLLM
    [("delta", VString t.1); ("index", VInt t.2)] e) es ts.

Definition concat_texts (ts : list (string * Z)) : string := foldr (λ t acc, t.1 ^^ acc) EmptyString ts.

(** The model gave this text for the prompt of the envelope (unless the policy allows
    no attempt, when the text is empty). *)
Definition model_gave n env (text : string) : Prop :=
  ∃ prompt, buildPrompt n env = inl prompt ∧
    ((∃ w resp, (lc_Complete (ln_client n) (new_request n prompt) w).2 = inl resp ∧ text = ls_Text resp) ∨
     ((rp_MaxAttempts (ll_RetryPolicy (ln_config n)) <= 0)%Z ∧ text = EmptyString)).

(** A call that went well: the events, and what the envelope holds. *)
Record llm_success n env (es : list Event) env' : Prop := {
  lk_events : ∃ deltas final ts text, es = deltas ++ [final] ∧ deltas_of n env deltas ts ∧
    event_is EventNodeOutputFinal (tr_RunID (env_Trace env)) (ln_ID n) NodeKindLLM [("text", VString text)] final ∧
    (if lc_CompleteStream (ln_client n) then text = concat_texts ts else ts = [] ∧ model_gave n env text) ∧
    (GetVar env' (ll_OutputKey (ln_config n)) = Some (VString text) ∨
     ∃ json, is_Some (ll_JSONSchema (ln_config n)) ∧ GetVar env' (ll_OutputKey (ln_config n)) = Some (VMap json));
  lk_usage : ∃ u, GetVar env' (ll_OutputKey (ln_config n) ^^ "_usage") = Some (usage_value u) ∧
    ∀ b, ll_Budget (ln_config n) = Some b → within_budget b u;
  lk_others name : name ≠ ll_OutputKey (ln_config n) → name ≠ ll_OutputKey (ln_config n) ^^ "_usage" →
    GetVar env' name = GetVar env name;
  lk_messages : ∃ ms, env_Messages env' = env_Messages env ++ ms ∧
    (ll_RecordMessages (ln_config n) = false → ms = []);
  lk_rest : env_Artifacts env' = env_Artifacts env ∧ env_Errors env' = env_Errors env ∧ env_Trace env' = env_Trace env
}.

Lemma key_usage_ne key : key ≠ key ^^ "_usage".
Proof.
  intros Heq. apply (f_equal String.length) in Heq. rewrite length_append_bytes in Heq. simpl in Heq. lia.
Qed.

Lemma GetVar_record n prompt text meta env name : GetVar (record_messages n prompt text meta env) name = GetVar env name.
Proof. unfold record_messages. by destruct (ll_RecordMessages (ln_config n)). Qed.

(** What is stored by a successful call with the text announced by [es]. *)
Lemma store_success n env prompt text output u meta deltas final ts :
  deltas_of n env deltas ts →
  event_is EventNodeOutputFinal (tr_RunID (env_Trace env)) (ln_ID n) NodeKindLLM [("text", VString text)] final →
  (if lc_CompleteStream (ln_client n) then text = concat_texts ts else ts = [] ∧ model_gave n env text) →
  (output = VString text ∨ ∃ json, is_Some (ll_JSONSchema (ln_config n)) ∧ output = VMap json) →
  check_usage n u = None →
  llm_success n env (deltas ++ [final]) (store_result n prompt text output u meta env).
Proof.
  intros Hd Hf Ht Hout Hu. pose proof (key_usage_ne (ll_OutputKey (ln_config n))) as Hne.
  split.
  - exists deltas, final, ts, text. split_and!; [done..|]. unfold store_result. rewrite GetVar_record.
    rewrite GetVar_SetVar_ne, GetVar_SetVar_eq by done. destruct Hout as [->|(json & Hs & ->)]; eauto.
  - exists u. unfold store_result. rewrite GetVar_record, GetVar_SetVar_eq. split; [done|].
    intros b Hb. apply checkBudget_None. unfold check_usage in Hu. by rewrite Hb in Hu.
  - intros name Hn1 Hn2. unfold store_result. by rewrite GetVar_record, !GetVar_SetVar_ne by done.
  - unfold store_result, record_messages. destruct (ll_RecordMessages (ln_config n)).
    + exists [mkMessage "user" prompt (ln_ID n) ∅; mkMessage "assistant" text (ln_ID n) meta]. split; [|done].
      simpl. by rewrite <- (assoc_L (++)).
    + exists []. by rewrite app_nil_r.
  - unfold store_result, record_messages. by destruct (ll_RecordMessages (ln_config n)).
Qed.

Lemma posts_chunks n env text chunks :
  posts (read_chunks n env text chunks) (λ es out, ∃ ts, deltas_of n env es ts ∧
    ∀ text' u, out = inl (text', u) → text' = text ^^ concat_texts ts).
Proof.
  revert text. induction chunks as [|chunk chunks IH]; intros text; cbn [read_chunks].
  { apply posts_ret. exists []. split; [constructor|]. intros ? ? [= <- _]. by rewrite append_nil_r. }
  destruct (ck_Error chunk); [apply posts_ret; exists []; split; [constructor|done]|].
  destruct (ck_Done chunk).
  { apply posts_ret. exists []. split; [constructor|]. intros ? ? [= <- _]. by rewrite append_nil_r. }
  eapply posts_bind; [apply posts_event|]. intros es _ (e & -> & He).
  eapply posts_weaken; [apply IH|]. intros es' out (ts & Hd & Htext). exists ((ck_Delta chunk, ck_Index chunk) :: ts).
  split; [by constructor|]. intros text' u Hout. rewrite (Htext _ _ Hout). by rewrite append_assoc.
Qed.

End LLMCorrect.

Section RouterCorrect.
Context {W : Type} `{Timeouts W} `{Timers W} `{RangeOrder} `{ChoiceDecoder} `{LowerTables}.
Context `{Stringers} `{JsonEncoder} `{Printer}.

(** Whatever a model answers, a router that asks it stores only a decision for the
    target of a label it allows, and fails with the envelope unchanged otherwise. *)
Theorem llm_router_allowed (r : LLMRouter W) (env : Envelope) :
  posts (router_Run r env) (λ es out, es = [] ∧
    match out with
    | (env', Some _) => env' = env
    | (env', None) => ∃ label d, lx_AllowedTargets (lx_config r) !! label = Some (dc_Target d) ∧
        dc_Meta d !! "choice" = Some (VString label) ∧
        env' = SetVar (lx_DecisionKey (lx_config r)) (decision_value d) env
    end).
Proof.
  eapply (posts_bind _ _ (λ es out, es = [] ∧ ∀ d, out = inl d → ∃ label,
    lx_AllowedTargets (lx_config r) !! label = Some (dc_Target d) ∧ dc_Meta d !! "choice" = Some (VString label))).
  - apply posts_timeout. eapply posts_bind; [apply posts_retries|]. intros es out [-> _].
    destruct out as [[resp|err]|cerr]; apply posts_ret; [|done..]. split; [done|]. intros d.
    unfold parseResponse. destruct (parsed_choice r resp) as [parsed|]; [|done].
    destruct (lx_AllowedTargets (lx_config r) !! ch_Choice parsed) as [target|] eqn:Ht; [|done].
    intros [= <-]. by exists (ch_Choice parsed).
  - intros es [d|err] [-> Hd]; apply posts_ret; split; [done| |done|done].
    destruct (Hd d eq_refl) as (label & Hl & Hc). by exists label, d.
Qed.
End RouterCorrect.

Section ToolCorrect.
Context {W : Type} `{Timeouts W} `{Timers W} (error_text : error → string).
Implicit Types (n : ToolNode W) (env : Envelope).

Definition tolerant n : Prop := tn_OnError (tn_config n) = ErrorPolicyContinue ∨ tn_OnError (tn_config n) = ErrorPolicyRecord.

(** How a failure ends: recorded in the envelope, or returned. *)
Definition tool_failure n env (err : error) (out : Envelope * option error) : Prop :=
  let key := tn_OutputKey (tn_config n) in
  (tolerant n ∧ ∃ env' e, out = (env', None) ∧ env_Errors env' = env_Errors env ++ [e] ∧
     ne_NodeID e = tn_ID n ∧ ne_Cause e = Some err ∧
     GetVar env' key = Some VNil ∧ GetVar env' (key ^^ "_error") = Some (VString (error_text err))) ∨
  (¬ tolerant n ∧ out = (env, Some err)).

Lemma posts_handleError n env err : posts (handleError error_text n env err) (λ es out, es = [] ∧ tool_failure n env err out).
Proof.
  unfold handleError, tool_failure, tolerant.
  destruct (bool_decide_reflect (tn_OnError (tn_config n) = ErrorPolicyContinue)) as [Hc|Hc];
  destruct (bool_decide_reflect (tn_OnError (tn_config n) = ErrorPolicyRecord)) as [Hr|Hr]; simpl.
  4: { apply posts_ret. split; [done|]. right. split; [tauto|done]. }
  all: apply posts_step; intros now; apply posts_ret; split; [done|]; left; (split; [tauto|]);
    eexists _, _; (split; [reflexivity|]); (split; [reflexivity|]); (split; [done|]); (split; [done|]);
    rewrite GetVar_SetVar_eq, GetVar_SetVar_ne, GetVar_SetVar_eq; [done|];
    intros Heq; apply (f_equal String.length) in Heq; rewrite length_append_bytes in Heq; simpl in Heq; lia.
Qed.

End ToolCorrect.

(** ** Samples *)

Module CallSamples.
(** The world counts the calls made. *)
#[local] Instance counting : World nat := {|
  time_Now w := (w, 0%Z); rand_ID w := (w, ""); ctx_Done w := (w, None); chan_read w := (w, 0) |}.
#[local] Instance counting_timeouts : Timeouts nat := {| ctx_WithTimeout _ w := w; ctx_cancel w := w |}.
#[local] Instance counting_timers : Timers nat := {| time_After _ w := (w, None) |}.
#[local] Instance engine : Templates := {| template_parses _ _ := None; template_execute _ s _ := inl s |}.
#[local] Instance printer : Printer := {| print_pointer _ := "0xc0"; print_struct ty _ := ty |}.
#[local] Instance encoder : JsonEncoder := {| json_Marshal v := inl (Sprint v) |}.
#[local] Instance stringers : Stringers := {| go_String _ := None |}.
#[local] Instance lower : LowerTables := {| lower_other s := s |}.
#[local] Instance decoder : ChoiceDecoder := {| unmarshal_choice _ c := (c, Some (ESentinel "no JSON")) |}.
#[local] Existing Instance key_order.

(** Fails until the call of the number given. *)
Definition flaky (good : nat) (text : string) : LLMClient nat :=
  mkClient (λ _ w, (S w, if bool_decide (good ≤ S w) then inl (mkLLMResponse text None (mkUsage 1 2 3 F64.zero) "p" "m")
                         else inr (ESentinel "busy"))) None.

Definition streaming (chunks : list StreamChunk) : LLMClient nat :=
  mkClient (λ _ w, (w, inl no_response)) (Some (λ _ w, (S w, inl chunks))).

Definition llm (client : LLMClient nat) (policy : RetryPolicy) (budget : option Budget) : LLMNode nat :=
  NewLLMNode "n" client (mkLLMConfig "m" "" "" ["q"] "" None None None policy 0 budget false).

Definition asking : Envelope := SetVar "q" (VString "why") (NewEnvelope 0).

(** The output, the error flag and the calls made. *)
Definition summary (p : Prog nat (Envelope * option error)) (key : string) : option (option value * bool) * nat :=
  match exec p 0 with
  | (w, Some (env, err)) => (Some (GetVar env key, bool_decide (is_Some err)), w)
  | (w, None) => (None, w)
  end.

Example llm_runs :
  map (λ n, summary (Run n asking) "n_output")
    [llm (flaky 2 "ok") (mkRetryPolicy 3 5) None;
     llm (flaky 4 "ok") (mkRetryPolicy 3 5) None;
     llm (flaky 1 "ok") (mkRetryPolicy 0 5) (Some (mkBudget 0 1 0 F64.zero));
     llm (flaky 1 "ok") (mkRetryPolicy (-1) 5) None;
     llm (streaming [mkChunk "a" 0 false None None; mkChunk "b" 1 false None None; mkChunk "" 2 true None None]) (mkRetryPolicy 1 0) None]
  = [(Some (Some (VString "ok"), false), 2);
     (Some (None, true), 3);
     (Some (None, true), 1);
     (Some (Some (VString ""), false), 0);
     (Some (Some (VString "ab"), false), 1)].
Proof. vm_compute. reflexivity. Qed.

(** A model that names two labels: the order of the range decides. *)
Definition router : LLMRouter nat :=
  NewLLMRouter "r" (flaky 1 "Either SALES or support")
    (mkLLMRouterConfig "m" "" ["q"] (<["sales" := "s"]> {[ "support" := "t" ]}) "" None 0 (mkRetryPolicy 1 0)).

Example router_text :
  match exec (router_Run router asking) 0 with
  | (_, Some (env, None)) =>
      match GetVar env "r_decision" with Some (VDecision [t] reason _ _) => Some (bool_decide (t ∈ ["s"; "t"]), reason) | _ => None end
  | _ => None
  end = Some (true, "extracted from text").
Proof. vm_compute. reflexivity. Qed.

Definition broken : PetalTool nat := NewFuncTool "t" (Some (λ _ w, (S w, inr (ESentinel "down")))).
Definition tool_node (policy : string) : ToolNode nat :=
  NewToolNode "t1" (Some broken) (mkToolConfig "" {[ "x" := "q" ]} ∅ "" 0 (mkRetryPolicy 2 1) policy).

Example tool_runs :
  map (λ policy, summary (tool_Run (λ _, "text") (tool_node policy) asking) "t1_output_error") [""; "record"]
  = [(Some (None, true), 2); (Some (Some (VString "text"), false), 2)].
Proof. vm_compute. reflexivity. Qed.

(** The context ends the call: no result is announced. *)
Example canceled_tool_silent :
  match traced (@tool_Run nat counting counting_timeouts {| time_After _ w := (w, Some (ESentinel "canceled")) |}
                  (λ _, "text") (tool_node "record") asking) 0 with
  | (es, _, _) => map ev_Kind es
  end = [EventToolCall].
Proof. vm_compute. reflexivity. Qed.
End CallSamples.
