(* ===== verification/Webhook.v ===== *)
(** * Webhooks (nodes/webhook_trigger.go, nodes/webhook_call.go, nodes/webhook_config_helpers.go, server/webhook_handlers.go)

    The node that turns an incoming request into variables, the node that makes an
    outgoing request, and the checks of the server on incoming requests.

    The theorems: a configuration that was parsed is a fixed point of the
    normalisation, so that the node built from it enforces what the server checked;
    a request is admitted exactly when the trigger exists, its configuration is
    valid, the method is listed and the token is right, and the trigger then makes
    exactly its contents available ([webhook_ingress]); a call node stores and
    returns or tolerates failures as its policy says ([webhook_call_correct]). *)

From stdpp Require Import gmap strings list fin_maps.
From Stdlib Require Import Ascii ZArith Lia.
From S2P Require Import Prelude Values Envelope GoFmt Unicode Schema GraphDef Graph Events StepController Runtime NodeProg.

(** ** Configuration helpers *)

Definition webhookConfigString (m : gmap string value) (key : string) : string := string_or_empty (m !! key).

Definition webhookConfigStringSlice (m : gmap string value) (key : string) : option (list string) :=
  match m !! key with
  | Some (VSlice raw) => Some (omap as_string raw)
  | _ => None
  end.

(** A string or a number of seconds. *)
Definition webhookConfigDuration `{DurationParser} (m : gmap string value) (key : string) : Z :=
  match m !! key with
  | Some (VString v) => match time_ParseDuration v with inl d => d | inr _ => 0%Z end
  | Some (VFloat64 v) => F64.to_int (F64.mul v (F64.of_Z 1000000000))
  | _ => 0%Z
  end.

Definition config_bool (m : gmap string value) (key : string) (or : bool) : bool :=
  match m !! key with Some (VBool b) => b | _ => or end.

Definition or_default (s def : string) : string := if bool_decide (s = EmptyString) then def else s.

(** ** The trigger node *)

Definition WebhookRequestEnvKey := "__webhook_request".
Definition NodeKindWebhookTrigger := "webhook_trigger".
Definition NodeKindWebhookCall := "webhook_call".

(** [^[!#$%&'*+.^_`|~0-9A-Za-z-]+$]. *)
Definition token_byte (c : ascii) : bool :=
  is_digit_byte c || is_letter_byte c || bool_decide (c ∈ String.list_ascii_of_string "!#$%&'*+.^_`|~-").
Definition httpMethodTokenPattern : regex := RPlus (RClass token_byte).

Definition WebhookAuthTypeNone := "none".
Definition WebhookAuthTypeHeaderToken := "header_token".

Record WebhookTriggerAuthConfig := mkAuth { wa_Type : string; wa_Header : string; wa_Token : string }.

Record WebhookTriggerNodeConfig := mkTriggerConfig {
  wt_Methods : list string; wt_Auth : WebhookTriggerAuthConfig; wt_RequestVar : string; wt_BodyVar : string;
  wt_HeadersVar : string; wt_QueryVar : string; wt_MetadataVar : string; wt_Timeout : Z
}.

Section Trigger.
Context `{UpperTables} `{LowerTables} `{DurationParser}.

(** The loop over the methods, which writes to the slice: what it holds afterwards
    from position [i] on, and the error. *)
Fixpoint normalize_methods (i : Z) (methods : list string) : list string * option error :=
  match methods with
  | [] => ([], None)
  | rawMethod :: rest =>
      let method := ToUpper (TrimSpace rawMethod) in
      if bool_decide (method = EmptyString) then
        (methods, Some (EFmt [PS "methods["; PD i; PS "] must not be empty"]))
      else if negb (regex_match httpMethodTokenPattern method) then
        (methods, Some (EFmt [PS "methods["; PD i; PS "] contains invalid HTTP method "; PQ rawMethod]))
      else
        let '(rest', err) := normalize_methods (i + 1) rest in (method :: rest', err)
  end.

Definition auth_defaults (a : WebhookTriggerAuthConfig) : WebhookTriggerAuthConfig :=
  mkAuth (or_default (wa_Type a) WebhookAuthTypeNone) (or_default (wa_Header a) "X-PetalFlow-Webhook-Token") (wa_Token a).

Definition auth_error (a : WebhookTriggerAuthConfig) : option error :=
  if bool_decide (wa_Type a = WebhookAuthTypeNone) then None
  else if bool_decide (wa_Type a = WebhookAuthTypeHeaderToken) then
    if bool_decide (TrimSpace (wa_Token a) = EmptyString) then
      Some (EFmt [PS "auth.token is required when auth.type=header_token"])
    else None
  else Some (EFmt [PS "auth.type must be one of: none, header_token"]).

(** The contents of the caller's slice of methods afterwards, and the result. *)
Definition normalizeWebhookTriggerConfig (cfg : WebhookTriggerNodeConfig)
    : list string * (WebhookTriggerNodeConfig + error) :=
  let fresh := bool_decide (wt_Methods cfg = []) in
  let '(methods, err) := normalize_methods 0 (if fresh then ["POST"] else wt_Methods cfg) in
  (if fresh then [] else methods,
   match err with
   | Some err => inr err
   | None =>
       let auth := auth_defaults (wt_Auth cfg) in
       match auth_error auth with
       | Some err => inr err
       | None =>
           inl (mkTriggerConfig methods auth (or_default (wt_RequestVar cfg) "webhook_request")
             (or_default (wt_BodyVar cfg) "webhook_body") (or_default (wt_HeadersVar cfg) "webhook_headers")
             (or_default (wt_QueryVar cfg) "webhook_query") (or_default (wt_MetadataVar cfg) "webhook_meta") (wt_Timeout cfg))
       end
   end).

Definition ParseWebhookTriggerConfig (m : gmap string value) : WebhookTriggerNodeConfig + error :=
  let field key := TrimSpace (webhookConfigString m key) in
  let methods := webhookConfigStringSlice m "methods" in
  if bool_decide (methods = Some []) then inr (EFmt [PS "methods must not be empty"])
  else
    let auth :=
      match m !! "auth" ≫= value_map with
      | Some a => mkAuth (ToLower (TrimSpace (webhookConfigString a "type"))) (TrimSpace (webhookConfigString a "header"))
                    (TrimSpace (webhookConfigString a "token"))
      | None => mkAuth "" "" ""
      end in
    (normalizeWebhookTriggerConfig
       (mkTriggerConfig (default [] methods) auth (field "request_var") (field "body_var") (field "headers_var")
          (field "query_var") (field "metadata_var") (webhookConfigDuration m "timeout"))).2.

Record WebhookTriggerNode := mkTrigger { wn_ID : string; wn_config : WebhookTriggerNodeConfig }.

Definition set_Methods (methods : list string) (c : WebhookTriggerNodeConfig) : WebhookTriggerNodeConfig :=
  mkTriggerConfig methods (wt_Auth c) (wt_RequestVar c) (wt_BodyVar c) (wt_HeadersVar c) (wt_QueryVar c)
    (wt_MetadataVar c) (wt_Timeout c).

(** A configuration that is refused is kept as it is, with the methods written so far. *)
Definition NewWebhookTriggerNode (id : string) (config : WebhookTriggerNodeConfig) : WebhookTriggerNode :=
  match normalizeWebhookTriggerConfig config with
  | (_, inl normalized) => mkTrigger id normalized
  | (methods, inr _) => mkTrigger id (set_Methods methods config)
  end.

Definition metadata_keys : list string := ["workflow_id"; "trigger_id"; "method"; "path"; "remote_addr"; "received_at"].

Definition request_metadata (request : gmap string value) : gmap string value :=
  list_to_map (omap (λ key, (key,.) <$> request !! key) metadata_keys).

Definition set_from (request : gmap string value) (key name : string) (env : Envelope) : Envelope :=
  match request !! key with Some v => SetVar name v env | None => env end.

(** What [Run] returns when the context is not done. *)
Definition trigger_result (n : WebhookTriggerNode) (env : Envelope) : Envelope + error :=
  let c := wn_config n in
  match GetVar env WebhookRequestEnvKey with
  | None => inr (EFmt [PS "webhook_trigger node "; PS (wn_ID n); PS ": missing "; PS WebhookRequestEnvKey; PS " payload"])
  | Some raw =>
      match value_map raw with
      | None => inr (EFmt [PS "webhook_trigger node "; PS (wn_ID n); PS ": "; PS WebhookRequestEnvKey;
                           PS " must be object, got "; PS (type_name raw)])
      | Some request =>
          let result := SetVar (wt_RequestVar c) raw env in
          let result := set_from request "body" (wt_BodyVar c) result in
          let result := set_from request "headers" (wt_HeadersVar c) result in
          let result := set_from request "query" (wt_QueryVar c) result in
          inl (SetVar (wt_MetadataVar c) (VMap (request_metadata request)) result)
      end
  end.

Definition trigger_Run {W} `{World W} (n : WebhookTriggerNode) (env : Envelope) : Prog W (Envelope + error) :=
  done ← act ctx_Done;
  match done with
  | Some err => mret (inr err)
  | None => mret (trigger_result n env)
  end.
End Trigger.

(** ** The call node *)

Definition WebhookCallErrorPolicyFail := "fail".
Definition WebhookCallErrorPolicyContinue := "continue".
Definition WebhookCallErrorPolicyRecord := "record".

(** [http.Header]: values by canonical key. *)
Definition http_Header : Type := gmap string (list string).

Record http_Request := mkHTTPRequest { hr_Method : string; hr_URL : string; hr_Header : http_Header; hr_Body : string }.

(** A response; its body may fail to be read. *)
Record http_Response := mkHTTPResponse { hp_StatusCode : Z; hp_Header : http_Header; hp_Body : string + error }.

(** [net/http]: canonical header keys, the checks of [NewRequestWithContext], and
    the default client. *)
Class HTTPLib (W : Type) := {
  CanonicalHeaderKey : string → string;
  http_NewRequest : string → string → option error;
  http_DefaultClient : http_Request → W → W * (http_Response + error)
}.

Record WebhookCallNodeConfig (W : Type) := mkCallConfig {
  wc_URL : string; wc_Method : string; wc_Headers : option (gmap string string); wc_Timeout : Z;
  wc_InputVars : list string; wc_IncludeArtifacts : bool; wc_IncludeMessages : bool; wc_IncludeTrace : bool;
  wc_Template : string; wc_ResultVar : string; wc_ErrorPolicy : string;
  wc_HTTPClient : option (http_Request → W → W * (http_Response + error))
}.
Arguments mkCallConfig {W}.
Arguments wc_URL {W}. Arguments wc_Method {W}. Arguments wc_Headers {W}. Arguments wc_Timeout {W}.
Arguments wc_InputVars {W}. Arguments wc_IncludeArtifacts {W}. Arguments wc_IncludeMessages {W}.
Arguments wc_IncludeTrace {W}. Arguments wc_Template {W}. Arguments wc_ResultVar {W}. Arguments wc_ErrorPolicy {W}.
Arguments wc_HTTPClient {W}.

Record WebhookCallNode (W : Type) := mkCallNode { wk_ID : string; wk_config : WebhookCallNodeConfig W }.
Arguments mkCallNode {W}.
Arguments wk_ID {W}.
Arguments wk_config {W}.

Section Call.
Context {W : Type} `{World W} `{!Timeouts W} `{HTTPLib W} `{UpperTables} `{DurationParser}.
Context `{JsonEncoder} `{JsonPrinter} `{Templates} `{RangeOrder} (error_text : error → string).
Implicit Types (c : WebhookCallNodeConfig W) (n : WebhookCallNode W) (env : Envelope).

Definition normalizeWebhookCallConfig c : WebhookCallNodeConfig W + error :=
  if bool_decide (TrimSpace (wc_URL c) = EmptyString) then inr (EFmt [PS "url is required"])
  else
    let method := ToUpper (TrimSpace (if bool_decide (TrimSpace (wc_Method c) = EmptyString) then "POST" else wc_Method c)) in
    if negb (regex_match httpMethodTokenPattern method) then inr (EFmt [PS "method "; PQ method; PS " is invalid"])
    else
      let policy := or_default (wc_ErrorPolicy c) WebhookCallErrorPolicyFail in
      if bool_decide (policy ∈ [WebhookCallErrorPolicyFail; WebhookCallErrorPolicyContinue; WebhookCallErrorPolicyRecord]) then
        inl (mkCallConfig (wc_URL c) method
          (match wc_Headers c with Some h => if bool_decide (h = ∅) then None else Some h | None => None end)
          (wc_Timeout c) (wc_InputVars c) (wc_IncludeArtifacts c) (wc_IncludeMessages c) (wc_IncludeTrace c)
          (wc_Template c) (wc_ResultVar c) policy (Some (default http_DefaultClient (wc_HTTPClient c))))
      else inr (EFmt [PS "error_policy must be one of: fail, continue, record"]).

Definition ParseWebhookCallConfig (m : gmap string value) : WebhookCallNodeConfig W + error :=
  let field key := TrimSpace (webhookConfigString m key) in
  normalizeWebhookCallConfig
    (mkCallConfig (field "url") (field "method")
       (match m !! "headers" ≫= value_map with Some h => Some (omap as_string h) | None => None end)
       (webhookConfigDuration m "timeout") (default [] (webhookConfigStringSlice m "input_vars"))
       (config_bool m "include_artifacts" false) (config_bool m "include_messages" false)
       (config_bool m "include_trace" false) (webhookConfigString m "template") (field "result_var") (field "error_policy") None).

Definition NewWebhookCallNode (id : string) (config : WebhookCallNodeConfig W) : WebhookCallNode W :=
  match normalizeWebhookCallConfig config with
  | inl normalized => mkCallNode id normalized
  | inr _ =>
      mkCallNode id (mkCallConfig (wc_URL config) (or_default (wc_Method config) "POST") (wc_Headers config)
        (wc_Timeout config) (wc_InputVars config) (wc_IncludeArtifacts config) (wc_IncludeMessages config)
        (wc_IncludeTrace config) (wc_Template config) (wc_ResultVar config)
        (or_default (wc_ErrorPolicy config) WebhookCallErrorPolicyFail)
        (Some (default http_DefaultClient (wc_HTTPClient config))))
  end.

Definition time_value (t : Z) : value := VStruct "time.Time" {[ "ns" := VInt64 t ]}.

Definition output_artifact (a : Artifact) : value :=
  VMap (list_to_map [("id", VString (art_ID a)); ("type", VString (art_Type a)); ("mime_type", VString (art_MimeType a));
    ("text", VString (art_Text a)); ("uri", VString (art_URI a)); ("meta", VMap (art_Meta a))]).

Definition output_message (m : Message) : value :=
  VMap (list_to_map [("role", VString (msg_Role m)); ("content", VString (msg_Content m)); ("name", VString (msg_Name m));
    ("meta", VMap (msg_Meta m))]).

Definition output_trace (t : TraceInfo) : value :=
  VMap (list_to_map [("run_id", VString (tr_RunID t)); ("parent_id", VString (tr_ParentID t));
    ("span_id", VString (tr_SpanID t)); ("started", time_value (tr_Started t))]).

Definition maps_of (l : list value) : value := VSliceOf "map[string]interface {}" l.

Definition buildOutputData n env : gmap string value :=
  let c := wk_config n in
  let vars :=
    if bool_decide (wc_InputVars c ≠ []) then
      [("vars", VMap (list_to_map (omap (λ name, (name,.) <$> GetVar env name) (wc_InputVars c))))]
    else if bool_decide (vars_of env ≠ ∅) then [("vars", VMap (vars_of env))] else [] in
  let artifacts := if wc_IncludeArtifacts c && bool_decide (env_Artifacts env ≠ []) then
      [("artifacts", maps_of (map output_artifact (env_Artifacts env)))] else [] in
  let messages := if wc_IncludeMessages c && bool_decide (env_Messages env ≠ []) then
      [("messages", maps_of (map output_message (env_Messages env)))] else [] in
  let trace := if wc_IncludeTrace c then [("trace", output_trace (env_Trace env))] else [] in
  let input := match env_Input env with VNil => [] | v => [("input", v)] end in
  list_to_map (vars ++ artifacts ++ messages ++ trace ++ input).

Definition json_func (encode : value → string + error) : template_func := λ args,
  match args with
  | [v] => Some (VString (match encode v with inl s => s | inr err => error_text (EFmt [PS "error: "; PE err]) end))
  | _ => None
  end.

Definition webhookCallTemplateFuncs : list (string * template_func) :=
  [("json", json_func json_Marshal); ("jsonPretty", json_func json_MarshalIndent)].

Definition buildBody n (payload : gmap string value) : string + error :=
  let c := wk_config n in
  if bool_decide (wc_Template c = EmptyString) then
    match json_Marshal (VMap payload) with
    | inl body => inl body
    | inr err => inr (EFmt [PS "marshal request body: "; PW err])
    end
  else
    match template_parses webhookCallTemplateFuncs (wc_Template c) with
    | Some err => inr (EFmt [PS "parse template: "; PW err])
    | None =>
        match template_execute webhookCallTemplateFuncs (wc_Template c) payload with
        | inl body => inl body
        | inr err => inr (EFmt [PS "execute template: "; PW err])
        end
    end.

Definition responseHeaders (headers : http_Header) : gmap string value := (λ values, VString (GoStr.Join values ", ")) <$> headers.

(** What is stored in the result variable. *)
Definition call_result n (ok : bool) (status : Z) (headers : http_Header) (body : string) (err : option error) : value :=
  let c := wk_config n in
  VMap (list_to_map ([("ok", VBool ok); ("status_code", VInt status); ("headers", VMap (responseHeaders headers));
    ("body", VString body); ("url", VString (wc_URL c)); ("method", VString (wc_Method c))] ++
    match err with Some e => [("error", VString (error_text e))] | None => [] end)).

Definition set_result n (v : value) env : Envelope :=
  if bool_decide (wc_ResultVar (wk_config n) ≠ EmptyString) then SetVar (wc_ResultVar (wk_config n)) v env else env.

Definition call_error n (parts : list part) : error := EFmt ([PS "webhook_call node "; PS (wk_ID n); PS ": "] ++ parts).

Definition handleFailure n env (status : Z) (headers : http_Header) (body : string) (runErr : error)
    : Prog W (Envelope + error) :=
  let policy := wc_ErrorPolicy (wk_config n) in
  let result := set_result n (call_result n false status headers body (Some runErr)) env in
  if bool_decide (policy = WebhookCallErrorPolicyContinue) then mret (inl result)
  else if bool_decide (policy = WebhookCallErrorPolicyRecord) then
    now ← act time_Now;
    mret (inl (AppendError (mkNodeError (wk_ID n) NodeKindWebhookCall runErr 0 now ∅ (Some runErr)) result))
  else mret (inr (call_error n [PW runErr])).

(** [req.Header.Set] for the configured headers, in the order of the range. *)
Definition request_headers c : http_Header :=
  fold_left (λ h kv, <[CanonicalHeaderKey kv.1 := [kv.2]]> h)
    (range_map "WebhookCallNode.Run" (default ∅ (wc_Headers c))) {[ CanonicalHeaderKey "Content-Type" := ["application/json"] ]}.

(** [Run] once the body is built. *)
Definition send_request n env (body : string) : Prog W (Envelope + error) :=
  let c := wk_config n in
  match http_NewRequest (wc_Method c) (wc_URL c) with
  | Some err => mret (inr (call_error n [PS "build request: "; PW err]))
  | None =>
      let req := mkHTTPRequest (wc_Method c) (wc_URL c) (request_headers c) body in
      answer ← act (default http_DefaultClient (wc_HTTPClient c) req);
      match answer with
      | inr err => handleFailure n env 0 ∅ EmptyString err
      | inl resp =>
          match hp_Body resp with
          | inr readErr =>
              handleFailure n env (hp_StatusCode resp) (hp_Header resp) EmptyString (EFmt [PS "read response body: "; PW readErr])
          | inl respBody =>
              if (hp_StatusCode resp <? 200)%Z || (300 <=? hp_StatusCode resp)%Z then
                handleFailure n env (hp_StatusCode resp) (hp_Header resp) respBody
                  (EFmt [PS "unexpected status code: "; PD (hp_StatusCode resp)])
              else mret (inl (set_result n (call_result n true (hp_StatusCode resp) (hp_Header resp) respBody None) env))
          end
      end
  end.

Definition call_Run n env : Prog W (Envelope + error) :=
  done ← act ctx_Done;
  match done with
  | Some err => mret (inr err)
  | None =>
      match buildBody n (buildOutputData n env) with
      | inr err => mret (inr (call_error n [PW err]))
      | inl body => with_timeout (wc_Timeout (wk_config n)) (send_request n env body)
      end
  end.
End Call.

(** ** Incoming requests (server/webhook_handlers.go) *)

(** An incoming request; the body fails to be read when it exceeds the limit of the
    server ([true]) or otherwise. *)
Record incoming := mkIncoming {
  in_Method : string; in_Path : string; in_Query : gmap string (list string); in_Header : http_Header;
  in_RemoteAddr : string; in_Body : string + (bool * error)
}.

(** [json.Unmarshal] into [any], the environment, and the printing of times. *)
Class IngressLibs := {
  json_Unmarshal : string → value + error;
  os_Getenv : string → string;
  format_RFC3339Nano : Z → string
}.

(** [http.Header.Get]. *)
Definition header_Get `{HTTPLib W} (h : http_Header) (key : string) : string :=
  match h !! CanonicalHeaderKey key with Some (v :: _) => v | _ => EmptyString end.

Record response := mkResponse { re_Status : Z; re_Code : string; re_Message : error }.

Section Ingress.
Context {W : Type} `{HTTPLib W} `{UpperTables} `{LowerTables} `{DurationParser} `{RangeOrder} `{IngressLibs}.

Definition findNodeDef (gd : option GraphDefinition) (nodeID : string) : option NodeDef :=
  gd ← gd; snd <$> list_find (λ nd, nd_ID nd = nodeID) (gd_Nodes gd).

Definition methodAllowed (method : string) (allowed : list string) : bool :=
  existsb (λ candidate, bool_decide (ToUpper (TrimSpace method) = ToUpper (TrimSpace candidate))) allowed.

Definition resolveWebhookAuthToken (raw : string) : string + error :=
  let token := TrimSpace raw in
  if bool_decide (token = EmptyString) then inr (EFmt [PS "configured webhook token is empty"])
  else if GoStr.HasPrefix token "env:" then
    let name := TrimSpace (drop_bytes 4 token) in
    if bool_decide (name = EmptyString) then inr (EFmt [PS "invalid env token reference"])
    else
      let v := TrimSpace (TrimSpace (os_Getenv name)) in
      if bool_decide (v = EmptyString) then inr (EFmt [PS "webhook auth env var "; PQ name; PS " is empty"])
      else inl v
  else inl token.

Definition authorizeWebhookRequest (r : incoming) (cfg : WebhookTriggerNodeConfig) : option error :=
  let auth := wt_Auth cfg in
  if bool_decide (wa_Type auth = WebhookAuthTypeNone) then None
  else if bool_decide (wa_Type auth = WebhookAuthTypeHeaderToken) then
    match resolveWebhookAuthToken (wa_Token auth) with
    | inr err => Some err
    | inl expected =>
        if bool_decide (header_Get (in_Header r) (wa_Header auth) = expected) then None
        else Some (EFmt [PS "invalid webhook token"])
    end
  else Some (EFmt [PS "unsupported auth type "; PQ (wa_Type auth)]).

(** The flag of an error: the body exceeds the limit. *)
Definition decodeWebhookBody (r : incoming) : value + (bool * error) :=
  match in_Body r with
  | inr err => inr err
  | inl bytes =>
      if bool_decide (bytes = EmptyString) then inl VNil
      else if GoStr.HasPrefix (ToLower (TrimSpace (header_Get (in_Header r) "Content-Type"))) "application/json" then
        match json_Unmarshal bytes with
        | inl payload => inl payload
        | inr err => inr (false, EFmt [PS "invalid JSON body: "; PW err])
        end
      else inl (VString bytes)
  end.

(** The headers by lower-case name; of two that only differ in case the one that is
    visited last remains. *)
Definition payload_headers (h : http_Header) : gmap string value :=
  fold_left (λ acc kv, <[ToLower kv.1 := VString (GoStr.Join kv.2 ", ")]> acc) (range_map "normalizeWebhookRequestPayload" h) ∅.

Definition normalizeWebhookRequestPayload (workflowID triggerID : string) (r : incoming) (body : value) (now : Z)
    : gmap string value :=
  list_to_map [("workflow_id", VString workflowID); ("trigger_id", VString triggerID);
    ("method", VString (ToUpper (in_Method r))); ("path", VString (in_Path r));
    ("query", VMap (VStrings <$> in_Query r)); ("headers", VMap (payload_headers (in_Header r)));
    ("remote_addr", VString (in_RemoteAddr r)); ("received_at", VString (format_RFC3339Nano now)); ("body", body)].

(** [handleWorkflowWebhook] up to the payload, on the compiled graph of the record. *)
Definition admit_webhook (compiled : option GraphDefinition) (workflowID triggerID : string) (r : incoming) (now : Z)
    : WebhookTriggerNodeConfig * gmap string value + response :=
  match compiled with
  | None => inr (mkResponse 400 "NOT_COMPILED" (EFmt [PS "workflow has no compiled graph"]))
  | Some _ =>
      let refuse := inr (mkResponse 404 "NOT_FOUND" (EFmt [PS "webhook trigger "; PQ triggerID; PS " not found"])) in
      match findNodeDef compiled triggerID with
      | None => refuse
      | Some nd =>
          if bool_decide (nd_Type nd ≠ "webhook_trigger") then refuse
          else
            match ParseWebhookTriggerConfig (nd_Config nd) with
            | inr err => inr (mkResponse 422 "INVALID_WEBHOOK_TRIGGER" err)
            | inl cfg =>
                if negb (methodAllowed (in_Method r) (wt_Methods cfg)) then
                  inr (mkResponse 405 "METHOD_NOT_ALLOWED" (EFmt [PS "method "; PQ (in_Method r); PS " is not allowed"]))
                else
                  match authorizeWebhookRequest r cfg with
                  | Some err => inr (mkResponse 401 "UNAUTHORIZED" err)
                  | None =>
                      match decodeWebhookBody r with
                      | inr (true, _) =>
                          inr (mkResponse 413 "BODY_TOO_LARGE" (EFmt [PS "request body exceeds size limit"]))
                      | inr (false, err) => inr (mkResponse 400 "PARSE_ERROR" err)
                      | inl body => inl (cfg, normalizeWebhookRequestPayload workflowID triggerID r body now)
                      end
                  end
            end
      end
  end.

(** The variables of the run a webhook starts ([EnvelopeFromJSON] of its input). *)
Definition EnvelopeFromJSON (now : Z) (data : gmap string value) : Envelope :=
  fold_left (λ env kv, SetVar kv.1 kv.2 env) (range_map "EnvelopeFromJSON" data) (NewEnvelope now).
End Ingress.

(** ** Configurations *)

(** Upper case has no lower-case ASCII letters. *)
Definition not_lower (c : ascii) : bool := negb (in_range 97 122 (byte_val c)).
Class UpperLaws `{UpperTables} : Prop := { upper_other_upper s : all_bytes not_lower (upper_other s) = true }.

Lemma all_bytes_mono (p q : ascii → bool) s :
  (∀ c, p c = true → q c = true) → all_bytes p s = true → all_bytes q s = true.
Proof. intros Hpq. rewrite !all_bytes_Forall. intros Hs. by eapply Forall_impl. Qed.

Lemma upper_byte_upper c : not_lower (upper_byte c) = true.
Proof.
  unfold not_lower, upper_byte. pose proof (byte_val_range c) as Hr.
  destruct (in_range 97 122 (byte_val c)) eqn:Hc; [|by rewrite Hc].
  unfold in_range in Hc. bool_simp. unfold byte_val at 1. rewrite nat_ascii_embedding by lia.
  unfold in_range. rewrite negb_true_iff, andb_false_iff, !Z.leb_gt. lia.
Qed.

Lemma map_bytes_id f s : all_bytes (λ c, bool_decide (f c = c)) s = true → map_bytes f s = s.
Proof.
  rewrite all_bytes_Forall. induction s as [|c s IH]; simpl; [done|].
  intros [Hc%bool_decide_eq_true Hs]%Forall_cons. by rewrite Hc, IH.
Qed.

Lemma token_byte_printable c : token_byte c = true → printable c = true.
Proof.
  unfold token_byte, is_digit_byte, is_letter_byte, printable.
  rewrite !orb_true_iff, bool_decide_eq_true. intros [[Hc|[Hc|Hc]]|Hc]; unfold in_range in *.
  1-3: rewrite andb_true_iff, !Z.leb_le in *; lia.
  assert (Forall (λ c, (33 <=? byte_val c)%Z && (byte_val c <=? 126)%Z = true)
    (String.list_ascii_of_string "!#$%&'*+.^_`|~-")) as Hall by (repeat constructor).
  by rewrite Forall_forall in Hall; apply Hall.
Qed.

Lemma token_byte_ascii c : token_byte c = true → (byte_val c <? 128)%Z = true.
Proof. intros Hc%token_byte_printable. unfold printable, in_range in Hc. bool_simp. apply Z.ltb_lt. lia. Qed.

(** The texts the pattern accepts. *)
Lemma token_pattern s : regex_match httpMethodTokenPattern s = true → all_bytes token_byte s = true ∧ s ≠ EmptyString.
Proof.
  rewrite regex_match_spec. unfold httpMethodTokenPattern, RPlus.
  assert (∀ t, denotes (RStar (RClass token_byte)) t → all_bytes token_byte t = true) as Hstar.
  { intros t Ht. remember (RStar (RClass token_byte)) as r eqn:Er. revert Er.
    induction Ht as [| | | | | |a u v Hu _ Hv IH]; intros [= ->]; [done|].
    inversion Hu; subst. unfold all_bytes. simpl. rewrite andb_true_iff. split; [done|]. by apply IH. }
  inversion 1 as [| |a b t u Ht Hu| | | |]; subst. inversion Ht; subst. split; [|done].
  unfold all_bytes. simpl. rewrite andb_true_iff. split; [done|]. by apply Hstar.
Qed.

Section ConfigProofs.
Context `{UpperTables} `{!UpperLaws} `{LowerTables} `{DurationParser}.

Lemma ToUpper_upper s : all_bytes not_lower (ToUpper s) = true.
Proof.
  unfold ToUpper. case_match; [|apply upper_other_upper].
  rewrite all_bytes_Forall. clear. induction s as [|c s IH]; constructor; [apply upper_byte_upper|done].
Qed.

(** A method that was normalised stays as it is. *)
Definition normal_method (m : string) : Prop :=
  ToUpper (TrimSpace m) = m ∧ regex_match httpMethodTokenPattern m = true.

Lemma normalized_method raw :
  regex_match httpMethodTokenPattern (ToUpper (TrimSpace raw)) = true → normal_method (ToUpper (TrimSpace raw)).
Proof.
  set (m := ToUpper (TrimSpace raw)). intros Hm. split; [|done]. destruct (token_pattern _ Hm) as [Hall _].
  rewrite TrimSpace_printable by (eapply all_bytes_mono; [apply token_byte_printable|done]).
  unfold ToUpper. rewrite (all_bytes_mono token_byte (λ c, (byte_val c <? 128)%Z) m token_byte_ascii Hall).
  apply map_bytes_id. pose proof (ToUpper_upper (TrimSpace raw)) as Hup. fold m in Hup.
  eapply all_bytes_mono; [|exact Hup]. intros c. unfold not_lower, upper_byte.
  rewrite negb_true_iff. intros ->. by apply bool_decide_eq_true.
Qed.

Lemma normalize_methods_Forall i ms ms' : normalize_methods i ms = (ms', None) → Forall normal_method ms'.
Proof.
  revert i ms'. induction ms as [|m ms IH]; intros i ms'; cbn [normalize_methods]; [by intros [= <-]|].
  case_bool_decide; [done|]. destruct (regex_match httpMethodTokenPattern _) eqn:Hm; [|done]. simpl.
  destruct (normalize_methods (i + 1) ms) as [rest err] eqn:Hr. intros [= <- ->].
  constructor; [by apply normalized_method|]. by apply (IH (i + 1)%Z).
Qed.

Lemma normalize_methods_id i ms : Forall normal_method ms → normalize_methods i ms = (ms, None).
Proof.
  intros Hms. revert i. induction Hms as [|m ms [Hm Hre] _ IH]; intros i; cbn [normalize_methods]; [done|].
  rewrite Hm, Hre. rewrite bool_decide_false by (by apply token_pattern in Hre as []). simpl. by rewrite IH.
Qed.

Lemma or_default_nonempty s d : d ≠ EmptyString → or_default s d ≠ EmptyString.
Proof. unfold or_default. by case_bool_decide. Qed.

Lemma or_default_id s d : s ≠ EmptyString → or_default s d = s.
Proof. unfold or_default. by case_bool_decide. Qed.

(** A configuration that normalisation accepts is not changed by another one, so a
    node built from a parsed configuration has that configuration. *)
Lemma normalize_fixpoint cfg ms cfg' :
  normalizeWebhookTriggerConfig cfg = (ms, inl cfg') →
  normalizeWebhookTriggerConfig cfg' = (wt_Methods cfg', inl cfg').
Proof.
  unfold normalizeWebhookTriggerConfig.
  destruct (normalize_methods 0 _) as [methods err] eqn:Hn. destruct err as [|]; [done|].
  destruct (auth_error _) eqn:Ha; [done|]. intros [= _ <-]. simpl.
  assert (methods ≠ []) as Hne.
  { intros ->. destruct (bool_decide_reflect (wt_Methods cfg = [])) as [He|He]; [by apply (f_equal (length ∘ fst)) in Hn|].
    destruct (wt_Methods cfg); [done|]. cbn [normalize_methods] in Hn. case_bool_decide; [done|].
    destruct (negb _); [done|]. by destruct (normalize_methods (0 + 1) l). }
  rewrite bool_decide_false by done. apply normalize_methods_Forall in Hn. rewrite normalize_methods_id by done.
  assert (auth_defaults (auth_defaults (wt_Auth cfg)) = auth_defaults (wt_Auth cfg)) as ->.
  { unfold auth_defaults. simpl. by rewrite !(or_default_id (or_default _ _)) by (by apply or_default_nonempty). }
  rewrite Ha. by rewrite !(or_default_id (or_default _ _)) by (by apply or_default_nonempty).
Qed.

Lemma parsed_config_normal m cfg : ParseWebhookTriggerConfig m = inl cfg →
  Forall normal_method (wt_Methods cfg) ∧ auth_error (wt_Auth cfg) = None ∧
  ∀ id, NewWebhookTriggerNode id cfg = mkTrigger id cfg.
Proof.
  unfold ParseWebhookTriggerConfig. case_bool_decide; [done|]. set (c0 := mkTriggerConfig _ _ _ _ _ _ _ _).
  destruct (normalizeWebhookTriggerConfig c0) as [ms r] eqn:Hc. simpl. intros ->. split_and!.
  - unfold normalizeWebhookTriggerConfig in Hc. destruct (normalize_methods 0 _) as [methods err] eqn:Hn.
    destruct err; [done|]. destruct (auth_error _); [done|]. injection Hc as _ <-. by apply normalize_methods_Forall in Hn.
  - unfold normalizeWebhookTriggerConfig in Hc. destruct (normalize_methods 0 _) as [methods err] eqn:Hn.
    destruct err; [done|]. destruct (auth_error _) eqn:Ha; [done|]. by injection Hc as _ <-.
  - intros id. unfold NewWebhookTriggerNode. by rewrite (normalize_fixpoint _ _ _ Hc).
Qed.
End ConfigProofs.

(** ** The trigger makes the request available *)

Section TriggerProofs.
Context `{UpperTables} `{LowerTables} `{DurationParser}.

Definition trigger_vars (c : WebhookTriggerNodeConfig) : list string :=
  [wt_RequestVar c; wt_BodyVar c; wt_HeadersVar c; wt_QueryVar c; wt_MetadataVar c].

(** What the variables of a trigger hold after a request. *)
Record makes_available (c : WebhookTriggerNodeConfig) (request : gmap string value) (env env' : Envelope) : Prop := {
  ma_request : GetVar env' (wt_RequestVar c) = Some (VMap request);
  ma_body : GetVar env' (wt_BodyVar c) = request !! "body";
  ma_headers : GetVar env' (wt_HeadersVar c) = request !! "headers";
  ma_query : GetVar env' (wt_QueryVar c) = request !! "query";
  ma_meta : ∃ meta, GetVar env' (wt_MetadataVar c) = Some (VMap meta) ∧
    ∀ k, meta !! k = if bool_decide (k ∈ metadata_keys) then request !! k else None;
  ma_others name : name ∉ trigger_vars c → GetVar env' name = GetVar env name
}.

Lemma lookup_omap_keys (m : gmap string value) (keys : list string) k :
  (list_to_map (omap (λ key, (key,.) <$> m !! key) keys) : gmap string value) !! k
  = if bool_decide (k ∈ keys) then m !! k else None.
Proof.
  induction keys as [|key keys IH]; [by rewrite bool_decide_false by apply not_elem_of_nil|].
  simpl. destruct (decide (k = key)) as [->|Hne].
  - rewrite (bool_decide_true (key ∈ key :: keys)) by left. destruct (m !! key) as [v|] eqn:Hv; simpl.
    + by rewrite lookup_insert_eq.
    + etrans; [apply IH|]. by case_bool_decide.
  - rewrite (bool_decide_ext (k ∈ key :: keys) (k ∈ keys)) by (rewrite elem_of_cons; naive_solver).
    destruct (m !! key); simpl; [rewrite lookup_insert_ne by done|]; apply IH.
Qed.

Lemma GetVar_set_from request key name env x : is_Some (request !! key) →
  GetVar (set_from request key name env) x = if bool_decide (x = name) then request !! key else GetVar env x.
Proof.
  intros [v Hv]. unfold set_from. rewrite Hv. case_bool_decide as Hx; [subst; by rewrite GetVar_SetVar_eq|].
  by rewrite GetVar_SetVar_ne.
Qed.

Lemma trigger_available n env request :
  GetVar env WebhookRequestEnvKey = Some (VMap request) →
  Forall (λ k, is_Some (request !! k)) ["body"; "headers"; "query"] →
  NoDup (trigger_vars (wn_config n)) →
  ∃ env', trigger_result n env = inl env' ∧ makes_available (wn_config n) request env env'.
Proof.
  intros Henv Hkeys Hnd. unfold trigger_result. rewrite Henv. simpl. eexists. split; [done|].
  rewrite !Forall_cons in Hkeys. destruct Hkeys as (Hb & Hh & Hq & _).
  assert (∀ x v e, GetVar (SetVar (wt_MetadataVar (wn_config n)) v e) x =
    if bool_decide (x = wt_MetadataVar (wn_config n)) then Some v else GetVar e x) as Hmeta.
  { intros x v e. case_bool_decide as Hx; [subst; by rewrite GetVar_SetVar_eq|by rewrite GetVar_SetVar_ne]. }
  unfold trigger_vars in *. rewrite !NoDup_cons, !not_elem_of_cons in Hnd.
  destruct Hnd as ((N1 & N2 & N3 & N4 & _) & (N5 & N6 & N7 & _) & (N8 & N9 & _) & (N10 & _) & _ & _).
  split; rewrite ?Hmeta, ?GetVar_set_from by done.
  - rewrite !bool_decide_false by congruence. by rewrite GetVar_SetVar_eq.
  - rewrite !(bool_decide_false (wt_BodyVar _ = _)) by congruence. by rewrite bool_decide_true.
  - rewrite !(bool_decide_false (wt_HeadersVar _ = _)) by congruence. by rewrite bool_decide_true.
  - rewrite !(bool_decide_false (wt_QueryVar _ = _)) by congruence. by rewrite bool_decide_true.
  - rewrite bool_decide_true by done. eexists. split; [done|]. intros k. apply lookup_omap_keys.
  - intros x. unfold trigger_vars. rewrite !not_elem_of_cons. intros (H1' & H2' & H3' & H4' & H5' & _).
    rewrite Hmeta, !GetVar_set_from by done. rewrite !bool_decide_false by done. by rewrite GetVar_SetVar_ne.
Qed.
End TriggerProofs.

Lemma range_map_singleton `{RangeOrder} {A} site k (x : A) : range_map site {[ k := x ]} = [(k, x)].
Proof. apply Permutation_singleton_r. by rewrite range_map_perm, map_to_list_singleton. Qed.

(** ** Admission *)

Section IngressProofs.
Context {W : Type} `{HTTPLib W} `{UpperTables} `{!UpperLaws} `{LowerTables} `{DurationParser} `{RangeOrder} `{IngressLibs}.

(** When a request is admitted to a trigger. *)
Record admitted (gd : GraphDefinition) (workflowID triggerID : string) (r : incoming) (now : Z)
    (cfg : WebhookTriggerNodeConfig) (payload : gmap string value) : Prop := {
  ad_node : ∃ nd, findNodeDef (Some gd) triggerID = Some nd ∧ nd_Type nd = "webhook_trigger" ∧
    ParseWebhookTriggerConfig (nd_Config nd) = inl cfg;
  ad_method : ToUpper (TrimSpace (in_Method r)) ∈ wt_Methods cfg;
  ad_auth : wa_Type (wt_Auth cfg) = WebhookAuthTypeNone ∨
    (wa_Type (wt_Auth cfg) = WebhookAuthTypeHeaderToken ∧ ∃ expected,
       resolveWebhookAuthToken (wa_Token (wt_Auth cfg)) = inl expected ∧ expected ≠ EmptyString ∧
       header_Get (in_Header r) (wa_Header (wt_Auth cfg)) = expected);
  ad_body : ∃ body, decodeWebhookBody r = inl body ∧ payload = normalizeWebhookRequestPayload workflowID triggerID r body now
}.

Lemma methodAllowed_iff method allowed : Forall normal_method allowed →
  methodAllowed method allowed = true ↔ ToUpper (TrimSpace method) ∈ allowed.
Proof.
  intros Hall. rewrite Forall_forall in Hall. unfold methodAllowed. rewrite existsb_exists. split.
  - intros (m & Hm%list_elem_of_In & Heq%bool_decide_eq_true). by rewrite Heq, (proj1 (Hall m Hm)).
  - intros Hm. exists (ToUpper (TrimSpace method)). split; [by apply list_elem_of_In|].
    apply bool_decide_eq_true. by rewrite (proj1 (Hall _ Hm)).
Qed.

Lemma resolved_nonempty raw expected : resolveWebhookAuthToken raw = inl expected → expected ≠ EmptyString.
Proof.
  unfold resolveWebhookAuthToken. repeat case_bool_decide; try done; case_match; try done.
  all: try case_bool_decide; try done; try case_bool_decide; try done; by intros [= <-].
Qed.

Lemma authorize_iff r cfg : auth_error (wt_Auth cfg) = None →
  authorizeWebhookRequest r cfg = None ↔
  wa_Type (wt_Auth cfg) = WebhookAuthTypeNone ∨
  (wa_Type (wt_Auth cfg) = WebhookAuthTypeHeaderToken ∧ ∃ expected,
     resolveWebhookAuthToken (wa_Token (wt_Auth cfg)) = inl expected ∧ expected ≠ EmptyString ∧
     header_Get (in_Header r) (wa_Header (wt_Auth cfg)) = expected).
Proof.
  intros Hok. unfold authorizeWebhookRequest. case_bool_decide as Hnone; [tauto|].
  case_bool_decide as Htok.
  - destruct (resolveWebhookAuthToken _) as [expected|err] eqn:Hr.
    + case_bool_decide as Heq.
      * split; [intros _; right; split; [done|]; exists expected; split_and!; [done|by eapply resolved_nonempty|done]|done].
      * split; [done|]. intros [?|(_ & e & [= <-] & _ & ?)]; done.
    + split; [done|]. intros [?|(_ & e & ? & _)]; done.
  - split; [done|]. intros [?|[? _]]; done.
Qed.

Lemma admitted_at gd workflowID triggerID r now cfg payload nd :
  admitted gd workflowID triggerID r now cfg payload → findNodeDef (Some gd) triggerID = Some nd →
  nd_Type nd = "webhook_trigger" ∧ ParseWebhookTriggerConfig (nd_Config nd) = inl cfg.
Proof. intros [(nd' & Hf & Hty & Hp) _ _ _] Hnd. rewrite Hnd in Hf. by injection Hf as <-. Qed.

Lemma admit_iff gd workflowID triggerID r now cfg payload :
  admit_webhook (Some gd) workflowID triggerID r now = inl (cfg, payload) ↔
  admitted gd workflowID triggerID r now cfg payload.
Proof.
  unfold admit_webhook. destruct (findNodeDef (Some gd) triggerID) as [nd|] eqn:Hnd.
  2: { split; [done|]. intros [(nd & Hf & _) _ _ _]. congruence. }
  case_bool_decide as Hty; [split; [done|]; intros Had; by destruct (admitted_at _ _ _ _ _ _ _ _ Had Hnd)|].
  destruct (ParseWebhookTriggerConfig (nd_Config nd)) as [c|err] eqn:Hp.
  2: { split; [done|]. intros Had. destruct (admitted_at _ _ _ _ _ _ _ _ Had Hnd). congruence. }
  destruct (parsed_config_normal _ _ Hp) as (Hms & Ha & _).
  assert (admitted gd workflowID triggerID r now cfg payload → cfg = c) as Hcfg.
  { intros Had. destruct (admitted_at _ _ _ _ _ _ _ _ Had Hnd) as [_ Hc]. congruence. }
  destruct (methodAllowed (in_Method r) (wt_Methods c)) eqn:Hm; simpl.
  2: { split; [done|]. intros Had. rewrite (Hcfg Had) in Had. pose proof (ad_method _ _ _ _ _ _ _ Had) as Hm'.
       apply methodAllowed_iff in Hm'; [congruence|done]. }
  apply methodAllowed_iff in Hm; [|done]. destruct (authorizeWebhookRequest r c) as [err|] eqn:Hau.
  { split; [done|]. intros Had. rewrite (Hcfg Had) in Had. pose proof (ad_auth _ _ _ _ _ _ _ Had) as Ha'.
    apply authorize_iff in Ha'; [congruence|done]. }
  apply authorize_iff in Hau; [|done]. destruct (decodeWebhookBody r) as [body|[[] err]] eqn:Hb.
  - split; [intros [= <- <-]; split; eauto|]. intros Had. rewrite (Hcfg Had).
    destruct (ad_body _ _ _ _ _ _ _ Had) as (body' & Hb' & ->). congruence.
  - split; [done|]. intros [_ _ _ (body' & ? & _)]. congruence.
  - split; [done|]. intros [_ _ _ (body' & ? & _)]. congruence.
Qed.

End IngressProofs.

(** ** Calls *)

Section CallProofs.
Context {W : Type} `{World W} `{!Timeouts W} `{HTTPLib W} `{UpperTables} `{DurationParser}.
Context `{JsonEncoder} `{JsonPrinter} `{Templates} `{RangeOrder} (error_text : error → string).
Implicit Types (n : WebhookCallNode W) (env : Envelope).

(** A failure that the policy tolerates: the result variable and, when the policy
    records errors, the errors of the envelope tell of it. *)
Definition tolerated_failure n env env' : Prop :=
  ∃ status headers body err,
    let result := set_result n (call_result error_text n false status headers body (Some err)) env in
    (wc_ErrorPolicy (wk_config n) = WebhookCallErrorPolicyContinue ∧ env' = result) ∨
    (wc_ErrorPolicy (wk_config n) = WebhookCallErrorPolicyRecord ∧ ∃ e, env' = AppendError e result ∧
       ne_NodeID e = wk_ID n ∧ ne_Cause e = Some err).

Lemma posts_handleFailure n env status headers body err :
  posts (handleFailure error_text n env status headers body err) (λ es out, es = [] ∧
    ∀ env', out = inl env' → tolerated_failure n env env').
Proof.
  unfold handleFailure, tolerated_failure. case_bool_decide as Hc; [|case_bool_decide as Hr].
  - apply posts_ret. split; [done|]. intros env' [= <-]. exists status, headers, body, err. by left.
  - apply posts_step. intros now. apply posts_ret. split; [done|]. intros env' [= <-].
    exists status, headers, body, err. right. split; [done|]. eexists. split; [reflexivity|done].
  - by apply posts_ret.
Qed.

(** How a call with the given body may end with an envelope. *)
Definition call_outcome n env (body : string) env' : Prop :=
  let c := wk_config n in
  (∃ w resp text, (default http_DefaultClient (wc_HTTPClient c)
       (mkHTTPRequest (wc_Method c) (wc_URL c) (request_headers c) body) w).2 = inl resp ∧
     (200 <= hp_StatusCode resp < 300)%Z ∧ hp_Body resp = inl text ∧
     env' = set_result n (call_result error_text n true (hp_StatusCode resp) (hp_Header resp) text None) env) ∨
  tolerated_failure n env env'.

(** A call returns, emits nothing, and returns an envelope only when the service
    answered the request made from the configuration and the envelope with a status
    of 200 to 299, which is stored, or when the policy tolerates the failure. *)
Theorem webhook_call_correct n env :
  posts (call_Run error_text n env) (λ es out, es = [] ∧ ∀ env', out = inl env' →
    ∃ body, buildBody error_text n (buildOutputData n env) = inl body ∧ call_outcome n env body env').
Proof.
  apply posts_step. intros [err|]; [by apply posts_ret|].
  destruct (buildBody error_text n (buildOutputData n env)) as [body|err]; [|by apply posts_ret].
  apply posts_timeout, (posts_weaken _ (λ es out, es = [] ∧ ∀ env', out = inl env' → call_outcome n env body env')).
  2: { intros es out [-> Ho]. split; [done|]. intros env' He. exists body. auto. }
  unfold send_request, call_outcome. set (c := wk_config n).
  destruct (http_NewRequest _ _); [by apply posts_ret|].
  set (client := default http_DefaultClient (wc_HTTPClient c)). set (req := mkHTTPRequest _ _ _ _).
  eapply posts_bind; [apply (posts_act (client req) (λ es a, es = [] ∧ ∃ w, (client req w).2 = a)); eauto|].
  intros es answer [-> [w Hw]]. simpl.
  destruct answer as [resp|err]; [destruct (hp_Body resp) as [text|err] eqn:Htext; [|]|].
  2-3: eapply posts_weaken; [apply posts_handleFailure|]; intros es out [-> Hf]; split; [done|]; intros env' Ho; right; by apply Hf.
  destruct (_ || _)%bool eqn:Hst.
  { eapply posts_weaken; [apply posts_handleFailure|]. intros es out [-> Hf]. split; [done|]. intros env' Ho. right. by apply Hf. }
  apply orb_false_iff in Hst as [Hlo Hhi]. apply posts_ret. split; [done|].
  intros env' [= <-]. left. exists w, resp, text. split_and!; [done|lia|lia|done|done].
Qed.
End CallProofs.

(** ** Samples *)

Module WebhookSamples.
#[local] Instance keep_upper : UpperTables := {| upper_other _ := "?" |}.
#[local] Instance keep_laws : UpperLaws. Proof. by split. Defined.
#[local] Instance keep_lower : LowerTables := {| lower_other s := s |}.
#[local] Instance durations : DurationParser := {| time_ParseDuration s := inr (ESentinel s) |}.
#[local] Instance http : HTTPLib nat := {|
  CanonicalHeaderKey s := s; http_NewRequest _ _ := None;
  http_DefaultClient req w := (S w, inl (mkHTTPResponse (if bool_decide (hr_URL req = "http://up") then 204 else 500) ∅ (inl "x"))) |}.
#[local] Instance libs : IngressLibs := {|
  json_Unmarshal s := inl (VString s); os_Getenv name := if bool_decide (name = "HOOK") then " t0k " else "";
  format_RFC3339Nano _ := "now" |}.
#[local] Existing Instance key_order.

Definition trigger (config : gmap string value) : GraphDefinition :=
  mkGraphDef "g" "1" "1.0.0" "graph" ∅ [mkNodeDef "in" "webhook_trigger" config] [] "in".

Definition guarded : gmap string value :=
  <["methods" := VSlice [VString " put "; VString "POST"]]>
    {[ "auth" := VMap (<["type" := VString "Header_Token"]> {[ "token" := VString "env:HOOK" ]}) ]}.

Definition request (method token : string) : incoming :=
  mkIncoming method "/hook" {[ "a" := ["1"] ]} {[ "X-PetalFlow-Webhook-Token" := [token] ]} "peer" (inl "data").

Definition refusal (config : gmap string value) (r : incoming) : option Z :=
  match admit_webhook (Some (trigger config)) "w" "in" r 0 with inl _ => None | inr e => Some (re_Status e) end.

Example admissions :
  [refusal guarded (request "put" "t0k"); refusal guarded (request "GET" "t0k"); refusal guarded (request "POST" "");
   refusal ∅ (request "POST" ""); refusal {[ "methods" := VSlice [] ]} (request "POST" "");
   refusal {[ "methods" := VSlice [VString "A B"] ]} (request "POST" "")]
  = [None; Some 405%Z; Some 401%Z; None; Some 422%Z; Some 422%Z].
Proof. vm_compute. reflexivity. Qed.

(** A refused configuration keeps the methods that were written before the error. *)
Example partly_normalized :
  wt_Methods (wn_config (NewWebhookTriggerNode "n" (mkTriggerConfig ["get"; ""] (mkAuth "" "" "") "" "" "" "" "" 0)))
  = ["GET"; ""].
Proof. vm_compute. reflexivity. Qed.

Definition names_of (r : WebhookTriggerNodeConfig * gmap string value + response) : list string :=
  match r with inl (cfg, _) => trigger_vars cfg | inr _ => [] end.


#[local] Instance clock : World nat := {|
  time_Now w := (w, 0%Z); rand_ID w := (w, ""); ctx_Done w := (w, None); chan_read w := (w, 0) |}.
#[local] Instance clock_timeouts : Timeouts nat := {| ctx_WithTimeout _ w := w; ctx_cancel w := w |}.
#[local] Instance printer : Printer := {| print_pointer _ := "0xc0"; print_struct ty _ := ty |}.
#[local] Instance encoder : JsonEncoder := {| json_Marshal v := inl (Sprint v) |}.
#[local] Instance pretty_encoder : JsonPrinter := {| json_MarshalIndent v := inl (Sprint v) |}.
#[local] Instance engine : Templates := {| template_parses _ _ := None; template_execute _ s _ := inl s |}.

(** A call with a configuration: the calls made, the flag of the result and the
    number of recorded errors. *)
Definition call (config : gmap string value) : option (nat * (option value * nat + error)) :=
  match ParseWebhookCallConfig config with
  | inr _ => None
  | inl c =>
      match exec (call_Run (λ _, "text") (NewWebhookCallNode "c" c) (NewEnvelope 0)) 0 with
      | (w, Some (inl env)) =>
          Some (w, inl (match GetVar env "res" with Some (VMap m) => m !! "ok" | _ => None end, length (env_Errors env)))
      | (w, Some (inr err)) => Some (w, inr (ESentinel "failed"))
      | (w, None) => None
      end
  end.

Definition calling (url policy : string) : gmap string value :=
  <["url" := VString url]> (<["error_policy" := VString policy]> {[ "result_var" := VString "res" ]}).

Example calls :
  map (λ p, call (calling p.1 p.2)) [("http://up", ""); ("http://down", "record"); ("http://down", ""); (" ", ""); ("http://up", "retry")]
  = [Some (1, inl (Some (VBool true), 0)); Some (1, inl (Some (VBool false), 1)); Some (1, inr (ESentinel "failed")); None; None].
Proof. vm_compute. reflexivity. Qed.
End WebhookSamples.
