(* ===== verification/Gate.v ===== *)
(** * The gate node (nodes/gate.go)

    A guard: it evaluates its condition and lets the run pass, stops it, passes
    anyway, or asks the runtime to redirect through a variable of the envelope. *)

From stdpp Require Import gmap strings list fin_maps.
From Stdlib Require Import ZArith Lia.
From S2P Require Import Prelude Values Envelope GoFmt NodeHelpers Graph Events StepController Runtime.
From S2P Require Import RuntimeSafety.

(** ** Data *)

Definition GateActionBlock := "block".
Definition GateActionSkip := "skip".
Definition GateActionRedirect := "redirect".

(** [Condition] gets the envelope by pointer and may change it; [W] is the rest of
    what it may act on. *)
Record GateNodeConfig (W : Type) := mkGateConfig {
  gc_Condition : option (Envelope → W → W * Envelope * (bool + error));
  gc_ConditionVar : string;
  gc_OnFail : string;
  gc_FailMessage : string;
  gc_RedirectNodeID : string;
  gc_ResultVar : string
}.
Arguments mkGateConfig {W}.
Arguments gc_Condition {W}.
Arguments gc_ConditionVar {W}.
Arguments gc_OnFail {W}.
Arguments gc_FailMessage {W}.
Arguments gc_RedirectNodeID {W}.
Arguments gc_ResultVar {W}.

Record GateNode (W : Type) := mkGate { gt_ID : string; gt_config : GateNodeConfig W }.
Arguments mkGate {W}.
Arguments gt_ID {W}.
Arguments gt_config {W}.

Definition NodeKindGate := "gate".

Definition GateResult (passed : bool) (action : string) : value :=
  VStruct "GateResult" {[ "Passed" := VBool passed; "Action" := VString action ]}.

Section Gate.
Context {W : Type}.
Implicit Types (n : GateNode W) (env : Envelope).

(** ** Operations *)

Definition NewGateNode (id : string) (config : GateNodeConfig W) : GateNode W :=
  mkGate id
    (mkGateConfig (gc_Condition config) (gc_ConditionVar config)
       (if bool_decide (gc_OnFail config = EmptyString) then GateActionBlock else gc_OnFail config)
       (if bool_decide (gc_FailMessage config = EmptyString) then "gate condition failed"
        else gc_FailMessage config)
       (gc_RedirectNodeID config) (gc_ResultVar config)).

Definition evaluateCondition n env (w : W) : W * Envelope * (bool + error) :=
  match gc_Condition (gt_config n) with
  | Some f => f env w
  | None =>
      (w, env,
       if bool_decide (gc_ConditionVar (gt_config n) ≠ EmptyString) then
         match GetVar env (gc_ConditionVar (gt_config n)) with
         | None => inl false
         | Some val => inl (isTruthy val)
         end
       else inl true)
  end.

Definition gate_error n (ps : list part) : error :=
  EFmt (PS "gate node " :: PS (gt_ID n) :: PS ": " :: ps).

(** [Run] after the condition: the envelope it returns is a clone. *)
Definition gate_finish n (passed : bool) env : run_result :=
  let result :=
    if bool_decide (gc_ResultVar (gt_config n) ≠ EmptyString)
    then SetVar (gc_ResultVar (gt_config n)) (GateResult passed (gc_OnFail (gt_config n))) env
    else env in
  if passed then RNew result
  else if bool_decide (gc_OnFail (gt_config n) = GateActionBlock) then
    RErr (gate_error n [PS (gc_FailMessage (gt_config n))])
  else if bool_decide (gc_OnFail (gt_config n) = GateActionSkip) then RNew result
  else if bool_decide (gc_OnFail (gt_config n) = GateActionRedirect) then
    if bool_decide (gc_RedirectNodeID (gt_config n) = EmptyString) then
      RErr (gate_error n [PS "redirect action requires RedirectNodeID"])
    else RNew (SetVar gate_redirect_key (VString (gc_RedirectNodeID (gt_config n))) result)
  else RErr (gate_error n [PS "unknown action "; PQ (gc_OnFail (gt_config n))]).

(** The world, the contents of the argument and the result afterwards. *)
Definition Run n env (w : W) : W * Envelope * run_result :=
  match evaluateCondition n env w with
  | (w', env', inr err) => (w', env', RErr (gate_error n [PS "condition error: "; PW err]))
  | (w', env', inl passed) => (w', env', gate_finish n passed env')
  end.

Definition gate_node n : Node W :=
  mkNode (gt_ID n) NodeKindGate false (λ env,
    NWorld (λ w, let '(w', env', r) := Run n env w in (w', NRet env' r))).

(** ** What the gate promises *)

(** The successors a gate with the given verdict activates; [None] is a failure. *)
Definition gate_targets n (passed : bool) (succs : list string) : option (list string) :=
  let c := gt_config n in
  if passed || bool_decide (gc_OnFail c = GateActionSkip) then Some succs
  else if bool_decide (gc_OnFail c = GateActionRedirect) && bool_decide (gc_RedirectNodeID c ≠ EmptyString)
  then Some (if decide (gc_RedirectNodeID c ∈ succs) then [gc_RedirectNodeID c] else succs)
  else None.

(** The envelope [e] a gate returns carries its verdict to the successors [ts] and
    leaves the variables alone. *)
Definition carries n succs (ts : list string) env e : Prop :=
  (∀ x, x ≠ gc_ResultVar (gt_config n) → x ≠ gate_redirect_key → GetVar e x = GetVar env x) ∧
  match redirect_target e succs with Some t => ts = [t] | None => ts = succs end ∧
  (gc_RedirectNodeID (gt_config n) ∈ succs → no_hint e ∨ is_Some (redirect_target e succs)).

Lemma carries_pass n succs env e :
  no_hint e → (∀ x, x ≠ gc_ResultVar (gt_config n) → GetVar e x = GetVar env x) →
  carries n succs succs env e.
Proof. intros Hn Hx. split_and!; [auto| |auto]. by rewrite no_hint_target. Qed.

Lemma carries_redirect n succs env e :
  gc_RedirectNodeID (gt_config n) ≠ EmptyString →
  (∀ x, x ≠ gc_ResultVar (gt_config n) → GetVar e x = GetVar env x) →
  let t := gc_RedirectNodeID (gt_config n) in
  carries n succs (if decide (t ∈ succs) then [t] else succs) env
    (SetVar gate_redirect_key (VString t) e).
Proof.
  intros Hne Hx t. unfold carries, redirect_target. rewrite GetVar_SetVar_eq.
  rewrite (bool_decide_true (t ≠ EmptyString)) by done. simpl.
  split_and!.
  - intros x Hr Hk. rewrite GetVar_SetVar_ne by done. auto.
  - case_decide; [by rewrite bool_decide_true|by rewrite bool_decide_false].
  - intros Hin. rewrite bool_decide_true by done. eauto.
Qed.

Lemma gate_finish_carries n passed env succs :
  no_hint env →
  match gate_finish n passed env with
  | RNew e => ∃ ts, gate_targets n passed succs = Some ts ∧ carries n succs ts env e
  | RErr _ => gate_targets n passed succs = None
  | _ => False
  end.
Proof.
  intros Hn. unfold gate_finish, gate_targets.
  set (c := gt_config n). set (result := if bool_decide _ then _ else env).
  assert (no_hint result ∧ ∀ x, x ≠ gc_ResultVar c → GetVar result x = GetVar env x) as [Hr Hx].
  { unfold result. case_bool_decide; [|done]. split; [by apply no_hint_SetVar|].
    intros x Hne. by apply GetVar_SetVar_ne. }
  destruct passed; [eauto using carries_pass|]. simpl.
  case_bool_decide as Hb; [by rewrite Hb|].
  case_bool_decide as Hs; [eauto using carries_pass|].
  case_bool_decide as Hd; [|done]. simpl.
  case_bool_decide as Hi; [by rewrite bool_decide_false by auto|].
  rewrite bool_decide_true by done. eexists. split; [done|]. by apply carries_redirect.
Qed.
End Gate.

(** What a gate does to a run. When its condition fails to evaluate, the gate
    fails. Otherwise it fails exactly when the condition is false and its action is
    to block, is unknown, or is a redirect without a target; a gate that returns
    leaves its argument as the condition left it, its result differs from the
    argument at most in the result variable and the redirect hint, and the runtime
    then activates exactly the successors the configured action promises: all of
    them, or the redirect target alone when it is one of them. A redirect that is
    followed leaves no hint behind. *)
Theorem gate_activates {W G} `{World W} `{GraphIface G (Node W)}
    (g : G) (n : GateNode W) (env : Envelope) (w : W) (opts : RunOptions W) (runStart : Z) :
  let succs := Successors g (gt_ID n) in
  let '(_, env', verdict) := evaluateCondition n env w in
  let '(_, arg, r) := Run n env w in
  no_hint env' →
  arg = env' ∧
  match verdict, r with
  | inr _, RErr _ => True
  | inl passed, RErr _ => gate_targets n passed succs = None
  | inl passed, RNew e =>
      (∀ x, x ≠ gc_ResultVar (gt_config n) → x ≠ gate_redirect_key → GetVar e x = GetVar env' x) ∧
      ∃ ts, gate_targets n passed succs = Some ts ∧
        total (λ s, s.1 = ts ∧ ∃ e', s.2 = Some e' ∧
                      (gc_RedirectNodeID (gt_config n) ∈ succs → no_hint e'))
          (determineSuccessors g (gate_node n) (Some e) runStart opts)
  | _, _ => False
  end.
Proof.
  cbv zeta. unfold Run. destruct (evaluateCondition n env w) as [[w' env'] [passed|err]]; [|done].
  intros Hn. split; [done|].
  pose proof (gate_finish_carries n passed env' (Successors g (gt_ID n)) Hn) as Hf.
  destruct (gate_finish n passed env') as [|e| |err]; [done| |done|done].
  destruct Hf as (ts & Hts & Hx & Hr & Hh). split; [done|]. exists ts. split; [done|].
  destruct (determineSuccessors_exact g (gate_node n) e runStart opts) as [Hs Hy].
  split; [done|]. intros s s' r Er. rewrite (Hy s s' r Er). unfold choose. simpl.
  destruct (redirect_target e _) as [t|]; simpl; (split; [done|]); eexists; (split; [done|]).
  - intros _ x. by rewrite GetVar_SetVar_eq.
  - intros Hin. destruct (Hh Hin) as [?|[? ?]]; done.
Qed.

(** ** Samples *)

Section Sample.
#[local] Instance gate_world : World () := {|
  time_Now w := (w, 0%Z); rand_ID w := (w, "r"); ctx_Done w := (w, None); chan_read w := (w, 0)
|}.

(** A gate on the variable [ok] that redirects to [c]. *)
Definition sample_gate : GateNode () :=
  NewGateNode "g" (mkGateConfig None "ok" GateActionRedirect "" "c" "g_result").

Definition plain (id : string) : Node () := mkNode id "noop" false (λ e, NRet e RSame).

(** [g -> a], [a -> b], [a -> c], and [g -> c] when [direct]. *)
Definition gate_graph (direct : bool) : BasicGraph (Node ()) :=
  let add n g := (AddNode (Some n) g).1 in
  let edge u v g := (AddEdge u v g).1 in
  let g := edge "a" "c" (edge "a" "b" (edge "g" "a"
    (add (plain "c") (add (plain "b") (add (plain "a") (add (gate_node sample_gate)
      (NewGraph "gate"))))))) in
  (SetEntry "g" (if direct then edge "g" "c" g else g)).1.

Definition run_nodes (g : BasicGraph (Node ())) (env : Envelope) : list string :=
  map fst (rt_log (Runtime.Run (λ _ _ _ _, panic) (Some g) (Some env) DefaultRunOptions
    (mkRT () 0 [] [] [])).1).

Lemma gate_activates_witness :
  let e := NewEnvelope 0 in
  match gate_finish sample_gate false e with
  | RNew r =>
      (∀ x, x ≠ "g_result" → x ≠ gate_redirect_key → GetVar r x = GetVar e x) ∧
      ∃ ts, gate_targets sample_gate false (Successors (gate_graph true) "g") = Some ts ∧
        total (λ s, s.1 = ts ∧ ∃ e', s.2 = Some e' ∧
                      ("c" ∈ Successors (gate_graph true) "g" → no_hint e'))
          (determineSuccessors (gate_graph true) (gate_node sample_gate) (Some r) 0 DefaultRunOptions)
  | _ => False
  end.
Proof.
  assert (no_hint (NewEnvelope 0)) as Hn by (intros t; vm_compute; discriminate).
  exact (proj2 (gate_activates (gate_graph true) sample_gate (NewEnvelope 0) () DefaultRunOptions 0 Hn)).
Defined.

(** The redirect is taken when the condition fails, and not otherwise. *)
Example gate_redirects :
  run_nodes (gate_graph true) (NewEnvelope 0) = ["g"; "c"] ∧
  run_nodes (gate_graph true) (SetVar "ok" (VBool true) (NewEnvelope 0)) = ["g"; "a"; "c"; "b"; "c"].
Proof. vm_compute. by split. Qed.

(** A redirect to a node that is not a successor of the gate is not dropped: the
    hint stays in the envelope and steers a later node, here [a], which would have
    activated both [b] and [c]. *)
Example gate_hint_leaks :
  run_nodes (gate_graph false) (NewEnvelope 0) = ["g"; "a"; "c"] ∧
  run_nodes (gate_graph false) (SetVar "ok" (VBool true) (NewEnvelope 0)) = ["g"; "a"; "b"; "c"].
Proof. vm_compute. by split. Qed.
End Sample.
