(* ===== verification/RuleRouter.v ===== *)
(** * The rule router (nodes/router.go)

    Rules over the variables of the envelope, evaluated in order; the decision is
    stored in a variable, where the runtime looks for it. *)

From stdpp Require Import gmap strings list fin_maps.
From Stdlib Require Import Ascii ZArith Lia.
From S2P Require Import Prelude Values Envelope GoFmt NodeHelpers Graph Events StepController Runtime.
From S2P Require Import RuntimeSafety.

(** ** Data *)

Definition OpEquals := "eq".
Definition OpNotEquals := "neq".
Definition OpContains := "contains".
Definition OpGreaterThan := "gt".
Definition OpLessThan := "lt".
Definition OpExists := "exists".
Definition OpNotExists := "not_exists".
Definition OpIn := "in".

Record RouteCondition := mkCond {
  rc_VarPath : string;
  rc_Op : string;
  rc_Value : value;
  rc_Values : list value
}.

Record RouteRule := mkRule {
  rr_Conditions : list RouteCondition;
  rr_Target : string;
  rr_Reason : string
}.

Record RuleRouterConfig := mkRouterConfig {
  rt_Rules : list RouteRule;
  rt_DefaultTarget : string;
  rt_DecisionKey : string;
  rt_AllowMultiple : bool
}.

Record RuleRouter := mkRouter { ru_ID : string; ru_config : RuleRouterConfig }.

Definition NodeKindRouter := "router".

Definition NewRuleRouter (id : string) (config : RuleRouterConfig) : RuleRouter :=
  mkRouter id
    (mkRouterConfig (rt_Rules config) (rt_DefaultTarget config)
       (if bool_decide (rt_DecisionKey config = EmptyString) then id ^^ "_decision"
        else rt_DecisionKey config)
       (rt_AllowMultiple config)).

Section Router.
Context `{Printer}.
Implicit Types (r : RuleRouter) (env : Envelope).

(** ** Operations *)

(** The variable a condition looks at: a nested path, else a plain name. *)
Definition condition_value env (path : string) : option value :=
  match GetVarNested env path with
  | Some v => Some v
  | None => GetVar env path
  end.

Definition evaluateCondition env (cond : RouteCondition) : bool :=
  let found := condition_value env (rc_VarPath cond) in
  let exists_ := bool_decide (is_Some found) in
  let val := default VNil found in
  let op := rc_Op cond in
  if bool_decide (op = OpExists) then exists_
  else if bool_decide (op = OpNotExists) then negb exists_
  else if bool_decide (op = OpEquals) then exists_ && (compare val (rc_Value cond) =? 0)%Z
  else if bool_decide (op = OpNotEquals) then
    negb exists_ || negb (compare val (rc_Value cond) =? 0)%Z
  else if bool_decide (op = OpGreaterThan) then exists_ && (0 <? compare val (rc_Value cond))%Z
  else if bool_decide (op = OpLessThan) then exists_ && (compare val (rc_Value cond) <? 0)%Z
  else if bool_decide (op = OpContains) then exists_ && containsValue val (rc_Value cond)
  else if bool_decide (op = OpIn) then exists_ && inValues val (rc_Values cond)
  else false.

Fixpoint evaluateRule env (conds : list RouteCondition) : bool :=
  match conds with
  | [] => true
  | cond :: rest => if negb (evaluateCondition env cond) then false else evaluateRule env rest
  end.

(** The loop of [Route]. *)
Fixpoint route_rules env (multiple : bool) (rules : list RouteRule)
    (targets reasons : list string) : list string * list string :=
  match rules with
  | [] => (targets, reasons)
  | rule :: rest =>
      if evaluateRule env (rr_Conditions rule) then
        let targets := targets ++ [rr_Target rule] in
        let reasons := reasons ++ [rr_Reason rule] in
        if negb multiple then (targets, reasons) else route_rules env multiple rest targets reasons
      else route_rules env multiple rest targets reasons
  end.

(** The targets and the reason of the decision; it never fails. *)
Definition Route r env : list string * string :=
  let c := ru_config r in
  let '(targets, reasons) := route_rules env (rt_AllowMultiple c) (rt_Rules c) [] [] in
  let '(targets, reasons) :=
    if bool_decide (length targets = 0) && bool_decide (rt_DefaultTarget c ≠ EmptyString)
    then ([rt_DefaultTarget c], ["default route"]) else (targets, reasons) in
  (targets, GoStr.Join reasons "; ").

(** [Run] stores the decision in its argument and returns it. *)
Definition Run r env : Envelope :=
  let '(targets, reason) := Route r env in
  SetVar (rt_DecisionKey (ru_config r)) (VDecision targets reason None ∅) env.

Definition rule_router_node {W} r : Node W :=
  mkNode (ru_ID r) NodeKindRouter true (λ env, NRet (Run r env) RSame).

(** ** Conditions *)

(** How the operators relate on every envelope: [neq] and [not_exists] are the
    complements of [eq] and [exists]; of [lt], [eq] and [gt] exactly one holds of a
    variable that exists and none of one that does not; [in] is [eq] to some
    listed value. *)
Theorem condition_operators env (path : string) (v : value) (vs : list value) :
  let ev op := evaluateCondition env (mkCond path op v vs) in
  ev OpNotEquals = negb (ev OpEquals) ∧
  ev OpNotExists = negb (ev OpExists) ∧
  (if ev OpExists then 1 else 0) =
    (if ev OpLessThan then 1 else 0) + (if ev OpEquals then 1 else 0) +
    (if ev OpGreaterThan then 1 else 0) ∧
  ev OpIn = existsb (λ x, evaluateCondition env (mkCond path OpEquals x [])) vs.
Proof.
  cbv zeta. unfold evaluateCondition. simpl.
  destruct (condition_value env path) as [x|]; simpl.
  - split_and!; [done|done| |done].
    destruct (compare_range x v) as [E|[E|E]]; rewrite E; done.
  - split_and!; [done..|]. induction vs; [done|]. by simpl.
Qed.

(** ** Routing *)

Definition rule_matches env (rule : RouteRule) : Prop :=
  Forall (λ c, evaluateCondition env c = true) (rr_Conditions rule).

#[export] Instance rule_matches_dec env rule : Decision (rule_matches env rule).
Proof. unfold rule_matches. apply _. Defined.

Lemma evaluateRule_spec env rule :
  evaluateRule env (rr_Conditions rule) = true ↔ rule_matches env rule.
Proof.
  unfold rule_matches. induction (rr_Conditions rule) as [|c cs IH]; simpl; [done|].
  rewrite Forall_cons, <- IH. by destruct (evaluateCondition env c); naive_solver.
Qed.

(** The reference: the rules that match, all of them or the first. *)
Definition selected r env : list string :=
  let c := ru_config r in
  let ms := filter (rule_matches env) (rt_Rules c) in
  match if rt_AllowMultiple c then ms else take 1 ms with
  | [] => if decide (rt_DefaultTarget c = EmptyString) then [] else [rt_DefaultTarget c]
  | ms => map rr_Target ms
  end.

Lemma route_rules_spec env multiple rules : ∀ ts rs,
  (route_rules env multiple rules ts rs).1 =
  ts ++ map rr_Target (let ms := filter (rule_matches env) rules in
                       if multiple then ms else take 1 ms).
Proof.
  induction rules as [|rule rules IH]; intros ts rs; simpl.
  { destruct multiple; by rewrite app_nil_r. }
  rewrite filter_cons. pose proof (evaluateRule_spec env rule) as Hr.
  destruct (evaluateRule env _) eqn:E; case_decide as Hm; [|naive_solver..|done].
  destruct multiple; simpl; [by rewrite IH, <- app_assoc|done].
Qed.

Lemma Route_selected r env : (Route r env).1 = selected r env.
Proof.
  unfold Route, selected.
  pose proof (route_rules_spec env (rt_AllowMultiple (ru_config r)) (rt_Rules (ru_config r)) [] [])
    as Hts.
  destruct (route_rules _ _ _ [] []) as [ts rs]. simpl in Hts. rewrite Hts.
  set (ms := if rt_AllowMultiple _ then _ else _).
  destruct ms as [|m ms]; [|done]. simpl.
  case_decide as Hd; [by rewrite bool_decide_false by tauto|by rewrite bool_decide_true].
Qed.
End Router.

(** A rule router selects the target of the first matching rule, or of every
    matching rule in order when several are allowed, and the default target, if
    any, when none matches. With the standard decision key the runtime then
    activates exactly the graph successors that are selected, in graph order. With
    any other decision key the selection has no influence: the runtime reads the
    standard variable, and activates every successor unless that variable already
    held a decision before. *)
Theorem rule_router_activates `{Printer} {W G} `{GraphIface G (Node W)}
    (g : G) (r : RuleRouter) (env : Envelope) :
  no_hint env →
  (Route r env).1 = selected r env ∧
  choose g (rule_router_node r) (Run r env) =
    if decide (rt_DecisionKey (ru_config r) = ru_ID r ^^ "_decision")
    then filter (λ s, s ∈ selected r env) (Successors g (ru_ID r))
    else match GetVar env (ru_ID r ^^ "_decision") with
         | Some (VDecision ts _ _ _) => filter (λ s, s ∈ ts) (Successors g (ru_ID r))
         | _ => Successors g (ru_ID r)
         end.
Proof.
  intros Hn. split; [apply Route_selected|].
  pose proof (Route_selected r env) as Hsel. unfold Run, choose.
  destruct (Route r env) as [targets reason]. simpl in Hsel. subst targets. simpl.
  rewrite no_hint_target by (by apply no_hint_SetVar).
  case_decide as Hk; [by rewrite Hk, GetVar_SetVar_eq|by rewrite GetVar_SetVar_ne].
Qed.

(** ** Samples *)

Section Sample.
#[local] Instance router_printer : Printer :=
  {| print_pointer _ := "0xc0"; print_struct ty _ := ty |}.

#[local] Instance router_graph : GraphIface (list string) (Node ()) := {|
  Name _ := ""; Nodes _ := []; NodeByID _ _ := None; Entry _ := "";
  Successors l _ := l; Predecessors _ _ := []
|}.

Definition sample_rules : list RouteRule :=
  [mkRule [mkCond "user.age" OpLessThan (VInt 18) []] "minor" "young";
   mkRule [mkCond "user.age" OpGreaterThan (VInt 64) []; mkCond "vip" OpNotExists VNil []] "senior" "";
   mkRule [mkCond "tags" OpContains (VString "gold") []] "gold" ""].

Definition sample_router (key : string) (multiple : bool) : RuleRouter :=
  NewRuleRouter "r" (mkRouterConfig sample_rules "other" key multiple).

Definition age_env (age : value) : Envelope :=
  SetVar "tags" (VStrings ["gold"; "new"]) (SetVar "user" (VMap {[ "age" := age ]}) (NewEnvelope 0)).

Example router_samples :
  (Route (sample_router "" false) (age_env (VInt 12))).1 = ["minor"] ∧
  (Route (sample_router "" true) (age_env (VFloat64 (F64.of_Z 70)))).1 = ["senior"; "gold"] ∧
  (Route (sample_router "" true) (NewEnvelope 0)) = (["other"], "default route").
Proof. vm_compute. auto. Qed.

(** NaN equals every number, and neither less nor greater. *)
Example nan_equal : compare (VFloat64 SpecFloat.S754_nan) (VInt 5) = 0%Z.
Proof. reflexivity. Qed.

Lemma rule_router_activates_witness :
  (Route (sample_router "" true) (age_env (VInt 70))).1 =
    selected (sample_router "" true) (age_env (VInt 70)) ∧
  choose ["minor"; "gold"; "senior"] (rule_router_node (sample_router "" true))
    (Run (sample_router "" true) (age_env (VInt 70))) =
  filter (λ s, s ∈ selected (sample_router "" true) (age_env (VInt 70)))
    ["minor"; "gold"; "senior"].
Proof.
  exact (rule_router_activates ["minor"; "gold"; "senior"] (sample_router "" true)
    (age_env (VInt 70)) ltac:(intros t; vm_compute; discriminate)).
Defined.

(** The decision under a custom key is not followed. *)
Example custom_key_ignored :
  choose ["minor"; "gold"; "senior"] (rule_router_node (sample_router "decision" false))
    (Run (sample_router "decision" false) (age_env (VInt 12))) = ["minor"; "gold"; "senior"].
Proof. vm_compute. reflexivity. Qed.
End Sample.
