(* ===== verification/RuntimeSpec.v ===== *)
(** * What a sequential run guarantees

    The properties of [BasicRuntime.Run] with [Concurrency <= 1], proved from the
    invariants of RuntimeSafety.v, and a concrete run that witnesses them. *)

From stdpp Require Import gmap strings list relations.
From Stdlib Require Import ZArith Lia.
From S2P Require Import Prelude Values Envelope Kahn Graph Events StepController Runtime RuntimeSafety.

(** ** Invariants of the envelope along a run *)

Section EnvInv.
Context {W G : Type} `{World W} `{GraphIface G (Node W)}.
Implicit Types (opts : RunOptions W) (g : G) (node : Node W).
Variable P : Envelope → Prop.
Hypothesis P_error : ∀ ne e, P e → P (AppendError ne e).
Hypothesis P_clear : ∀ e, P e → P (set_Vars (<[gate_redirect_key := VNil]> (vars_of e)) e).

Definition cur_ok (cur : option Envelope) : Prop := ∀ e, cur = Some e → P e.

(** The node keeps [P] of its argument and gives it to a new envelope. *)
Definition preserves node : Prop := ∀ e, P e →
  prog_all (λ arg r, P arg ∧ match r with RNew e' => P e' | _ => True end) (n_Run node e).

Lemma cur_ok_Some e : P e → cur_ok (Some e).
Proof. by intros HP e' [= <-]. Qed.

Lemma cur_ok_None : cur_ok None.
Proof. done. Qed.

#[local] Hint Resolve cur_ok_Some cur_ok_None : petal.

Lemma executeNode_env node cur opts rs : preserves node → cur_ok cur →
  yields (λ r, P r.1.1 ∧ cur_ok r.1.2) (executeNode node cur opts rs).
Proof.
  intros Hpres Hcur. unfold executeNode. destruct cur as [e|]; [|by intros s s' a].
  eapply yields_bind; [eapply run_node_total, Hpres; by apply Hcur|].
  intros [arg r] [Harg Hr]. apply yields_ret. destruct r; simpl; auto with petal.
Qed.

Lemma resolve_env cur res node nerr att opts id : cur_ok cur → cur_ok res →
  yields (λ r, cur_ok r.1) (resolveSequentialNodeOutcome cur res node nerr att opts id).
Proof.
  intros Hcur Hres. unfold resolveSequentialNodeOutcome.
  destruct nerr as [err|]; [|by apply yields_ret]. destruct (ContinueOnError opts); [|by apply yields_ret].
  simpl. apply yields_bind_any. intros t. destruct cur as [e|]; [|by intros s s' a].
  apply yields_bind with (P := λ e', e' = e); [by apply yields_ret|]. intros e' ->.
  apply yields_ret. simpl. apply cur_ok_Some, P_error. by apply Hcur.
Qed.

Lemma determineSuccessors_env g node cur rs opts : cur_ok cur →
  yields (λ r, cur_ok r.2) (determineSuccessors g node cur rs opts).
Proof.
  intros Hcur. unfold determineSuccessors. case_bool_decide; [by apply yields_ret|].
  destruct cur as [e|]; [|by intros s s' a].
  apply yields_bind with (P := λ e', e' = e); [by apply yields_ret|]. intros e' ->.
  go_monad; apply yields_ret; simpl; try done. apply cur_ok_Some, P_clear. by apply Hcur.
Qed.

Definition iter_env g opts u rest st (r : loop_state + outcome) : Prop :=
  match r with
  | inl st' =>
      cur_ok (ls_current st') ∧
      (shouldSkipVisitedNode u (ls_visited st) (ls_hops st) (MaxHops opts) = true ∨
       ∃ node next, NodeByID g u = Some node ∧ ls_queue st' = rest ++ next ∧
         (next = Successors g (n_ID node) ∨ ∃ e, P e ∧ next = choose g node e))
  | inr _ => True
  end.

Lemma schedule_env g node u cur rs opts rest st h : cur_ok cur → NodeByID g u = Some node →
  yields (iter_env g opts u rest st) (schedule g node u cur rs opts rest (ls_visited st) h).
Proof.
  intros Hcur Hnode. unfold schedule.
  apply yields_bind with (P := λ r, cur_ok r.2 ∧
    (r.1 = Successors g (n_ID node) ∨ ∃ e, P e ∧ r.1 = choose g node e)).
  { intros s s' a E. split; [by eapply determineSuccessors_env|].
    pose proof (determineSuccessors_yields g node cur rs opts s s' a E) as Hy.
    destruct cur as [e|]; [right; exists e; split; [by apply Hcur|done]|left; by destruct Hy as [-> ->]]. }
  intros [next env'] [Hc Hn]. apply yields_bind_any. intros _. apply yields_ret. simpl in *.
  split; [done|]. right. exists node, next. done.
Qed.

Lemma seq_iter_env g opts rs u rest st :
  o_StepController opts = None → (∀ v node, NodeByID g v = Some node → preserves node) →
  cur_ok (ls_current st) →
  yields (iter_env g opts u rest st) (seq_iter g opts rs u rest st).
Proof.
  intros Hctl Hnodes Hcur. unfold seq_iter.
  destruct (shouldSkipVisitedNode _ _ _ _) eqn:Hskip.
  { apply yields_ret. simpl. auto. }
  apply yields_bind_any. intros [err|]; [by apply yields_ret|].
  unfold incrementAndValidateHop. destruct (MaxHops opts <? _)%Z; [by apply yields_ret|].
  destruct (NodeByID g u) as [node|] eqn:Hnode; [|by apply yields_ret].
  eapply yields_bind; [apply before_yields|]. intros [[cur skip] err] Hb.
  specialize (Hb Hctl) as [= -> -> ->].
  eapply yields_bind; [by apply executeNode_env; [eapply Hnodes|]|].
  intros [[arg res] nerr] [Harg Hres]. simpl in *.
  apply yields_bind_any. intros [err|]; [by apply yields_ret|].
  eapply yields_bind; [apply resolve_env; [by apply cur_ok_Some|done]|].
  intros [cur [err|]] Hc; [by apply yields_ret|]. by apply schedule_env.
Qed.
End EnvInv.

(** ** Properties *)

Section Properties.
Context {W G : Type} `{World W} `{GraphIface G (Node W)} {wf : G → Prop}
  `{!GraphLaws G (Node W) wf}.
Implicit Types (opts : RunOptions W) (g : G) (s : RT W).
Variable par : G → Envelope → RunOptions W → Z → GoM (RT W) (option outcome).

Lemma Run_post g env opts s s' r :
  wf g → validateGraph (Some g) = None → (Concurrency opts <= 1)%Z → fresh s →
  Run par (Some g) env opts s = (s', r) →
  numbered s' ∧ loop_post g (apply_defaults opts) (rt_log s') r.
Proof.
  intros Hwf Hval Hc Hs E.
  destruct (Run_runs par g env opts (λ _ _, True) s Hwf Hval Hc Hs) as
    (s1 & r1 & new & E1 & H1 & _ & H2 & _); [done..|].
  rewrite E in E1. by simplify_eq.
Qed.

Definition succ_edge g (u v : string) : Prop := v ∈ Successors g u.

(** The effective bound on the executions of a node. *)
Definition hop_limit opts : Z := MaxHops (apply_defaults opts).

Lemma trace_reachable g l : trace_ok g l → ∀ u, u ∈ handled l → rtc (succ_edge g) (Entry g) u.
Proof.
  intros Htr. induction l as [|[u next] l IH] using rev_ind; [set_solver|].
  assert (trace_ok g l) as Hl.
  { intros pre w n post ->. apply (Htr pre w n (post ++ [(u, next)])). by rewrite <- app_assoc. }
  intros v. unfold handled. rewrite map_app. simpl. rewrite elem_of_snoc.
  intros [Hv| ->]; [by apply IH|].
  destruct (Htr l u next []) as (_ & _ & [->|(w & n & Hin & Hu)]); [done|done|].
  eapply rtc_r; [apply (IH Hl w); by apply elem_of_handled; eauto|].
  apply list_elem_of_split in Hin as (p1 & p2 & ->).
  destruct (Hl p1 w n p2 eq_refl) as (_ & Hsub & _). by apply Hsub.
Qed.

(** A step of [Run] that publishes nothing. *)
Lemma quiet_step {A} (m : GoM (RT W) A) s s1 a :
  emits m → quiet m → numbered s → m s = (s1, Some a) →
  numbered s1 ∧ rt_pub s1 = rt_pub s ∧ rt_log s1 = rt_log s.
Proof.
  intros He Hq Hs E. destruct (He s Hs) as (s2 & r & new & E2 & H2 & _ & L2).
  rewrite E in E2. simplify_eq. specialize (Hq s). by rewrite E in Hq.
Qed.

Lemma bind_inv {A B} (m : GoM (RT W) A) (f : A → GoM (RT W) B) s s' b :
  (m ≫= f) s = (s', Some b) → ∃ s1 a, m s = (s1, Some a) ∧ f a s1 = (s', Some b).
Proof. unfold mbind, gom_bind. destruct (m s) as [s1 [a|]]; naive_solver. Qed.

Lemma emitter_base opts e s s1 u :
  EventEmitterDecorator (o_sinks opts) = None → numbered s → emitter opts e s = (s1, Some u) →
  numbered s1 ∧ rt_log s1 = rt_log s ∧ ∃ n, rt_pub s1 = rt_pub s ++ [set_Seq n e].
Proof.
  intros Hd Hs E. unfold emitter, emit in E. rewrite Hd in E.
  destruct (emit_base_run (o_sinks opts) e s Hs) as (s2 & E2 & H2 & P2 & L2).
  rewrite E in E2. simplify_eq. eauto.
Qed.

Lemma start_kind g opts id : yields (λ e, ev_Kind e = EventRunStarted) (run_start_event g opts id).
Proof.
  unfold run_start_event.
  apply yields_bind with (P := λ e, ev_Kind e = EventRunStarted).
  { unfold NewEvent. apply yields_bind_any. intros t. by apply yields_ret. }
  intros e He. apply yields_ret. by repeat case_match; repeat case_bool_decide.
Qed.

Lemma new_event_kind kind id : yields (λ e, ev_Kind e = kind) (NewEvent (W := W) kind id).
Proof. unfold NewEvent. apply yields_bind_any. intros t. by apply yields_ret. Qed.

Lemma executeGraph_appends g env opts rs s s' r :
  wf g → validateGraph (Some g) = None → (Concurrency opts <= 1)%Z →
  numbered s → rt_log s = [] →
  executeGraph par g env (apply_defaults opts) rs s = (s', r) →
  ∃ new, numbered s' ∧ rt_pub s' = rt_pub s ++ new.
Proof.
  intros Hwf Hval Hconc Hs Hl E.
  unfold executeGraph in E. rewrite apply_defaults_concurrency in E.
  rewrite (proj2 (Z.ltb_ge 1 (Concurrency opts))) in E by done.
  destruct (executeGraphSequential_run g (apply_defaults opts) Hwf (apply_defaults_max opts)
    (validateGraph_entry g Hval) env rs (λ _ _, True) s) as (? & ? & new & E' & ? & ? & _);
    [done..|].
  rewrite E in E'. simplify_eq. eauto.
Qed.

Lemma Run_stream g env opts s s' res err :
  wf g → validateGraph (Some g) = None → (Concurrency opts <= 1)%Z →
  EventEmitterDecorator (o_sinks opts) = None → fresh s →
  Run par (Some g) env opts s = (s', Some (Some (res, err))) →
  ∃ first mid last, rt_pub s' = first :: mid ++ [last] ∧
    ev_Kind first = EventRunStarted ∧ ev_Kind last = EventRunFinished ∧
    ev_Payload last !! "status" =
      Some (PVal (VString (if err then "failed" else "completed"))).
Proof.
  intros Hwf Hval Hconc Hd Hs E. pose proof (fresh_numbered s Hs) as N0.
  destruct Hs as [_ P0 L0 _]. unfold Run in E. cbv zeta in E. rewrite Hval in E.
  assert (EventEmitterDecorator (o_sinks (apply_defaults opts)) = None) as Hd'
    by (by rewrite (proj2 (proj2 (apply_defaults_keeps opts)))).
  apply bind_inv in E as (s1 & e & E1 & E). apply quiet_step in E1 as (N1 & P1 & L1); [|go_monad..|done].
  apply bind_inv in E as (s2 & id & E2 & E). apply quiet_step in E2 as (N2 & P2 & L2); [|go_monad..|done].
  apply bind_inv in E as (s3 & t & E3 & E). apply quiet_step in E3 as (N3 & P3 & L3); [|go_monad..|done].
  apply bind_inv in E as (s4 & t' & E4 & E). apply quiet_step in E4 as (N4 & P4 & L4); [|go_monad..|done].
  apply bind_inv in E as (s5 & ev & E5 & E). pose proof (start_kind _ _ _ _ _ _ E5) as K5.
  apply quiet_step in E5 as (N5 & P5 & L5); [|go_monad..|done].
  apply bind_inv in E as (s6 & u & E6 & E).
  apply emitter_base in E6 as (N6 & L6 & n6 & P6); [|done..].
  apply bind_inv in E as (s7 & r & E7 & E).
  assert (∃ new, numbered s7 ∧ rt_pub s7 = rt_pub s6 ++ new) as (mid & N7 & P7).
  { eapply executeGraph_appends; try done. congruence. }
  destruct r as [[res' err']|]; [|by apply (f_equal snd) in E].
  apply bind_inv in E as (s8 & t8 & E8 & E). apply quiet_step in E8 as (N8 & P8 & _); [|go_monad..|done].
  apply bind_inv in E as (s9 & ev9 & E9 & E). pose proof (new_event_kind _ _ _ _ _ E9) as K9.
  apply quiet_step in E9 as (N9 & P9 & _); [|go_monad..|done].
  apply bind_inv in E as (s10 & u' & E10 & E).
  apply emitter_base in E10 as (_ & _ & n10 & P10); [|done..].
  apply (f_equal (λ x, (x.1, x.2))) in E. simpl in E. injection E as <- <- <-.
  exists (set_Seq n6 ev), mid, (set_Seq n10 (run_finish_event id (time_Sub t8 t') ev9 err')).
  split_and!; [|done|by destruct err'; exact K9|].
  2: { destruct err'; simpl; [rewrite lookup_insert_ne by done|]; by rewrite lookup_insert_eq. }
  rewrite P10, P9, P8, P7, P6, P5, P4, P3, P2, P1, P0. done.
Qed.

(** Without routers and redirects every handled node passes on to all its
    successors. *)
Definition no_redirect (e : Envelope) : Prop :=
  ∀ t, GetVar e gate_redirect_key ≠ Some (VString t).

Lemma choose_plain g node e :
  n_isRouter node = false → no_redirect e → choose g node e = Successors g (n_ID node).
Proof.
  intros Hr He. unfold choose, redirect_target. specialize (He). rewrite Hr.
  destruct (GetVar e gate_redirect_key) as [[]|] eqn:E; try done. by destruct (He s).
Qed.

Lemma no_redirect_clear e :
  no_redirect e → no_redirect (set_Vars (<[gate_redirect_key := VNil]> (vars_of e)) e).
Proof. intros He t. unfold GetVar; simpl. by rewrite lookup_insert_eq. Qed.

Definition plain_node node : Prop := n_isRouter node = false ∧ preserves (W := W) no_redirect node.

Lemma plain_kept g opts rs :
  wf g → o_StepController opts = None → (∀ v node, NodeByID g v = Some node → plain_node node) →
  kept g opts rs (λ st l, cur_ok no_redirect (ls_current st) ∧
    Forall (λ e, e.2 = Successors g e.1) l).
Proof.
  intros Hwf Hctl Hnodes u rest st s s' st' [Hcur Hl] Hq Hs E.
  destruct (seq_iter_sat g opts rs u rest st s Hs) as (s1 & r & _ & E1 & _ & _ & Hpost).
  assert (iter_env no_redirect g opts u rest st (inl st')) as [Hc He].
  { eapply seq_iter_env; try done; [apply no_redirect_clear|]. by intros v node []%Hnodes. }
  rewrite E in E1. simplify_eq.
  destruct Hpost as [[_ ?]|[(-> & _ & [= ->])|[(_ & ? & ? & ? & _)|Hex]]]; try done.
  destruct Hex as (node & next & env' & Hskip & Hnode & _ & -> & [= ->]). simpl in *.
  destruct He as [He|(node' & next' & Hnode' & Hqq & Hn)]; [congruence|].
  apply app_inv_head in Hqq as <-. rewrite Hnode in Hnode'. injection Hnode' as <-.
  split; [done|]. apply Forall_app_2; [done|]. apply Forall_singleton. simpl.
  assert (n_ID node = u) as <- by exact (gl_node_id g u node Hwf Hnode).
  destruct Hn as [?|(e & Hpe & ->)]; [done|]. apply choose_plain; [|done]. by eapply Hnodes.
Qed.
End Properties.


(** C2: whatever the graph's cycles, the nodes and the step controller do, and
    however the run ends, no node is handled more often than [MaxHops] (100 when
    not positive). *)
Theorem Run_hop_bound {W G} `{World W} `{GraphIface G (Node W)} {wf : G → Prop}
    `{!GraphLaws G (Node W) wf} par (g : G) env (opts : RunOptions W) (s s' : RT W) r :
  wf g → validateGraph (Some g) = None → (Concurrency opts <= 1)%Z → fresh s →
  Run par (Some g) env opts s = (s', r) →
  ∀ u, (Z.of_nat (runs_of u (rt_log s')) <= hop_limit opts)%Z.
Proof.
  intros Hwf Hval Hc Hs E.
  by destruct (Run_post par g env opts s s' r Hwf Hval Hc Hs E) as [_ (_ & Hb & _)].
Qed.

(** C3: every node a run handles is reachable from the entry node, was selected
    by a node handled before it (or is the entry), and selects only successors of
    its own in the graph. *)
Theorem Run_trace {W G} `{World W} `{GraphIface G (Node W)} {wf : G → Prop}
    `{!GraphLaws G (Node W) wf} par (g : G) env (opts : RunOptions W) (s s' : RT W) r :
  wf g → validateGraph (Some g) = None → (Concurrency opts <= 1)%Z → fresh s →
  Run par (Some g) env opts s = (s', r) →
  (∀ u, u ∈ handled (rt_log s') → rtc (succ_edge g) (Entry g) u) ∧
  ∀ pre u next post, rt_log s' = pre ++ (u, next) :: post →
    is_Some (NodeByID g u) ∧ next ⊆ Successors g u ∧
    (u = Entry g ∨ ∃ w next', (w, next') ∈ pre ∧ u ∈ next').
Proof.
  intros Hwf Hval Hc Hs E.
  destruct (Run_post par g env opts s s' r Hwf Hval Hc Hs E) as [_ (Htr & _)].
  split; [by apply trace_reachable|done].
Qed.

(** C4: a run that completes without error has handled the entry node and every
    successor that any handled node selected. *)
Theorem Run_complete {W G} `{World W} `{GraphIface G (Node W)} {wf : G → Prop}
    `{!GraphLaws G (Node W) wf} par (g : G) env (opts : RunOptions W) (s s' : RT W) cur :
  wf g → validateGraph (Some g) = None → (Concurrency opts <= 1)%Z → fresh s →
  Run par (Some g) env opts s = (s', Some (Some (cur, None))) →
  Entry g ∈ handled (rt_log s') ∧
  ∀ u next v, (u, next) ∈ rt_log s' → v ∈ next → v ∈ handled (rt_log s').
Proof.
  intros Hwf Hval Hc Hs E.
  destruct (Run_post par g env opts s s' _ Hwf Hval Hc Hs E) as [_ (_ & _ & _ & Hcl & _)].
  by apply (Hcl cur).
Qed.

(** Without router nodes, gate redirects and step controller, a run that
    completes without error has handled exactly the nodes reachable from the
    entry. *)
Theorem Run_plain_reachable {W G} `{World W} `{GraphIface G (Node W)} {wf : G → Prop}
    `{!GraphLaws G (Node W) wf} par (g : G) env (opts : RunOptions W) (s s' : RT W) cur :
  wf g → validateGraph (Some g) = None → (Concurrency opts <= 1)%Z → fresh s →
  o_StepController opts = None → (∀ v node, NodeByID g v = Some node → plain_node node) →
  (∀ e, env = Some e → no_redirect e) →
  Run par (Some g) env opts s = (s', Some (Some (cur, None))) →
  ∀ u, u ∈ handled (rt_log s') ↔ rtc (succ_edge g) (Entry g) u.
Proof.
  intros Hwf Hval Hc Hs Hctl Hnodes Henv E.
  destruct (Run_runs par g env opts (λ st l, cur_ok no_redirect (ls_current st) ∧
      Forall (λ e, e.2 = Successors g e.1) l) s Hwf Hval Hc Hs)
    as (s1 & r1 & new & E1 & _ & _ & (Htr & _ & _ & Hcl & _) & st & _ & Hall).
  - intros rs. apply plain_kept; try done. by rewrite (proj1 (apply_defaults_keeps opts)).
  - intros t tr. split; [|done]. apply cur_ok_Some. destruct env as [e|]; [exact (Henv e eq_refl)|by intros t'].
  - rewrite E in E1. simplify_eq. destruct (Hcl cur eq_refl) as [Hent Hclosed].
    intros u. split; [by apply trace_reachable|]. revert u. apply rtc_ind_r; [done|].
    intros v w _ Hvw Hv. apply elem_of_handled in Hv as [next Hv].
    eapply Hclosed; [done|]. rewrite Forall_forall in Hall.
    apply Hall in Hv as Heq. simpl in Heq. by rewrite Heq.
Qed.


(** C6: without a step controller, the error of a run on a valid graph is either
    the cancellation of its context or, unless [ContinueOnError] is set, the
    failure of a node; in particular [ErrMaxHopsExceeded] is never returned, and a
    run with [ContinueOnError] and no cancellation returns no error. *)
Theorem Run_errors {W G} `{World W} `{GraphIface G (Node W)} {wf : G → Prop}
    `{!GraphLaws G (Node W) wf} par (g : G) env (opts : RunOptions W) (s s' : RT W) res err :
  wf g → validateGraph (Some g) = None → (Concurrency opts <= 1)%Z → fresh s →
  o_StepController opts = None →
  Run par (Some g) env opts s = (s', Some (Some (res, Some err))) →
  errors_Is err (sentinel_name ErrMaxHopsExceeded) = false ∧
  ((∃ c w, (ctx_Done w).2 = Some c ∧ err = wrapf ErrRunCanceled [PE c]) ∨
   (ContinueOnError opts = false ∧ ∃ u e, is_Some (NodeByID g u) ∧
     err = wrapf ErrNodeExecution [PS "node "; PS u; PS ": "; PE e])).
Proof.
  intros Hwf Hval Hc Hs Hctl E. destruct (apply_defaults_keeps opts) as (Hk1 & Hk2 & _).
  destruct (Run_post par g env opts s s' _ Hwf Hval Hc Hs E) as [_ (_ & _ & _ & _ & He)].
  destruct (He res err eq_refl) as [(c & w & Hw & ->)|(Hco & u & e & Hu & ->)].
  - by rewrite Hk1.
  - split; [done|]. left. eauto.
  - split; [done|]. right. rewrite Hk2 in Hco. eauto 6.
Qed.

(** ** A concrete run *)

Section Sample.
(** A world that is a clock. *)
#[local] Instance clock_world : World Z := {|
  time_Now t := ((t + 1)%Z, t);
  rand_ID t := (t, "run-1");
  ctx_Done t := (t, None);
  chan_read t := (t, 0)
|}.

Definition noop (id : string) : Node Z := mkNode id "noop" false (λ e, NRet e RSame).

Definition failing (id : string) : Node Z :=
  mkNode id "noop" false (λ e, NRet e (RErr (EFmt [PS "boom"]))).

(** The diamond [a -> b -> d], [a -> c -> d] over a given last node. *)
Definition diamond (last : Node Z) : BasicGraph (Node Z) :=
  let add n g := (AddNode (Some n) g).1 in
  let edge u v g := (AddEdge u v g).1 in
  (SetEntry "a" (edge "c" "d" (edge "b" "d" (edge "a" "c" (edge "a" "b"
    (add last (add (noop "c") (add (noop "b") (add (noop "a") (NewGraph "diamond")))))))))).1.

Lemma diamond_wf last : graph_wf (diamond last).
Proof. unfold diamond. cbv zeta. auto 12 with petal. Qed.

Definition start : RT Z := mkRT 0%Z 0 [] [] [].

Lemma start_fresh : fresh start.
Proof. split; simpl; try done. unfold eventCh_cap. lia. Qed.

Definition no_par : BasicGraph (Node Z) → Envelope → RunOptions Z → Z →
    GoM (RT Z) (option outcome) := λ _ _ _ _, panic.

Definition sample_run : RT Z * option (option outcome) :=
  Run no_par (Some (diamond (noop "d"))) None DefaultRunOptions start.

Lemma diamond_nodes v node :
  NodeByID (diamond (noop "d")) v = Some node → ∃ id, node = noop id.
Proof.
  intros Hn. apply (gl_nodes _ _ _ (diamond_wf _)) in Hn.
  change (Nodes (diamond (noop "d"))) with [noop "a"; noop "b"; noop "c"; noop "d"] in Hn.
  repeat (apply elem_of_cons in Hn as [->|Hn]; [eauto|]). inversion Hn.
Qed.

(** In a sequential run the join of the diamond is handled twice. *)
Example sample_run_log :
  map fst (rt_log sample_run.1) = ["a"; "b"; "c"; "d"; "d"].
Proof. vm_compute. reflexivity. Qed.


Lemma Run_hop_bound_witness :
  runs_of "d" (rt_log sample_run.1) = 2 ∧
  ∀ u, (Z.of_nat (runs_of u (rt_log sample_run.1)) <= hop_limit (DefaultRunOptions (W := Z)))%Z.
Proof.
  split; [vm_compute; reflexivity|].
  apply (Run_hop_bound (wf := graph_wf) no_par (diamond (noop "d")) None DefaultRunOptions
    start sample_run.1 sample_run.2);
    [apply diamond_wf|reflexivity|simpl; lia|apply start_fresh|vm_compute; reflexivity].
Defined.

Lemma Run_trace_witness :
  let g := diamond (noop "d") in
  (∀ u, u ∈ handled (rt_log sample_run.1) → rtc (succ_edge g) (Entry g) u) ∧
  ∀ pre u next post, rt_log sample_run.1 = pre ++ (u, next) :: post →
    is_Some (NodeByID g u) ∧ next ⊆ Successors g u ∧
    (u = Entry g ∨ ∃ w next', (w, next') ∈ pre ∧ u ∈ next').
Proof.
  apply (Run_trace (wf := graph_wf) no_par (diamond (noop "d")) None DefaultRunOptions
    start sample_run.1 sample_run.2);
    [apply diamond_wf|reflexivity|simpl; lia|apply start_fresh|vm_compute; reflexivity].
Defined.

Lemma Run_complete_witness :
  Entry (diamond (noop "d")) ∈ handled (rt_log sample_run.1) ∧
  ∀ u next v, (u, next) ∈ rt_log sample_run.1 → v ∈ next → v ∈ handled (rt_log sample_run.1).
Proof.
  apply (Run_complete (wf := graph_wf) no_par (diamond (noop "d")) None DefaultRunOptions
    start sample_run.1 (default (None, None) (default None sample_run.2)).1);
    [apply diamond_wf|reflexivity|simpl; lia|apply start_fresh|vm_compute; reflexivity].
Defined.

Lemma Run_plain_reachable_witness :
  "d" ∈ handled (rt_log sample_run.1) ∧
  ∀ u, u ∈ handled (rt_log sample_run.1) ↔
    rtc (succ_edge (diamond (noop "d"))) (Entry (diamond (noop "d"))) u.
Proof.
  split; [apply (bool_decide_unpack _); vm_compute; exact I|].
  apply (Run_plain_reachable (wf := graph_wf) no_par (diamond (noop "d")) None DefaultRunOptions
    start sample_run.1 (default (None, None) (default None sample_run.2)).1);
    [apply diamond_wf|reflexivity|simpl; lia|apply start_fresh|reflexivity| |discriminate
    |vm_compute; reflexivity].
  intros v node Hn. apply diamond_nodes in Hn as [id ->]. split; [reflexivity|].
  intros e He. split; [exact He|exact I].
Defined.


Definition failing_run : RT Z * option (option outcome) :=
  Run no_par (Some (diamond (failing "d"))) None DefaultRunOptions start.

Definition boom_error : error :=
  wrapf ErrNodeExecution [PS "node "; PS "d"; PS ": "; PE (EFmt [PS "boom"])].

Lemma Run_errors_witness :
  errors_Is boom_error (sentinel_name ErrMaxHopsExceeded) = false ∧
  ((∃ c (w : Z), (ctx_Done w).2 = Some c ∧ boom_error = wrapf ErrRunCanceled [PE c]) ∨
   (ContinueOnError (DefaultRunOptions (W := Z)) = false ∧ ∃ u e,
     is_Some (NodeByID (diamond (failing "d")) u) ∧
     boom_error = wrapf ErrNodeExecution [PS "node "; PS u; PS ": "; PE e])).
Proof.
  apply (Run_errors (wf := graph_wf) no_par (diamond (failing "d")) None DefaultRunOptions
    start failing_run.1 (default (None, None) (default None failing_run.2)).1 boom_error);
    [apply diamond_wf|reflexivity|simpl; lia|apply start_fresh|reflexivity
    |vm_compute; reflexivity].
Defined.
End Sample.
