(* ===== verification/Parallel.v ===== *)
(** * The parallel executor (runtime/runtime.go, [executeGraphParallel])

    A coordinator, [Concurrency] workers and two bounded channels, as a transition
    system. A move is one channel operation, one turn of the coordinator's loop
    over successors, one execution of a node, or one step of the shutdown; the
    order of the moves is the scheduler's. Envelope pointers are locations of a
    heap, because the executor hands the same envelope to a node state, to a
    merge input and to a work item. The execution of a node, between taking its
    work item and offering its result, is one move. *)

From stdpp Require Import gmap strings list fin_maps.
From Stdlib Require Import ZArith Lia.
From S2P Require Import Prelude Values Envelope Graph Events StepController Runtime.

(** ** Data *)

Notation heap := (list Envelope).

Record nodeResult := mkResult {
  nr_nodeID : string;
  nr_envelope : option nat;
  nr_err : option error
}.

Record nodeState := mkNodeState {
  ns_hopCount : Z;
  ns_completed : bool;
  ns_envelope : option nat
}.

Record workItem := mkWork { wi_nodeID : string; wi_envelope : option nat }.

(** What the type assertions [node.(core.MergeCapable)] and
    [node.(mergeRunner)] find: the expected inputs, and [MergeInputs], which may
    write the heap and allocate in it. *)
Record merge_view (W : Type) := mkMergeView {
  mv_ExpectedInputs : Z;
  mv_MergeInputs : option (list (option nat) → heap → W → W * heap * (option nat + error))
}.
Arguments mkMergeView {W}.
Arguments mv_ExpectedInputs {W}.
Arguments mv_MergeInputs {W}.

Class MergeNodes (W : Type) := as_merge : Node W → option (merge_view W).

(** ** The shared state *)

Record parallelState := mkParallelState {
  ps_states : gmap string nodeState;
  ps_recordedErrors : list NodeError;
  ps_mergeInputs : gmap string (list (option nat))
}.

Definition newParallelState (entryID : string) (entryEnv : option nat) : parallelState :=
  mkParallelState {[ entryID := mkNodeState 0 false entryEnv ]} [] ∅.

Definition state_of (p : parallelState) (nodeID : string) : nodeState :=
  default (mkNodeState 0 false None) (ps_states p !! nodeID).

Definition put_state (nodeID : string) (st : nodeState) (p : parallelState) : parallelState :=
  mkParallelState (<[nodeID := st]> (ps_states p)) (ps_recordedErrors p) (ps_mergeInputs p).

Definition incrementHop (nodeID : string) (p : parallelState)
    : parallelState * (Z * option nat) :=
  let st := state_of p nodeID in
  let st' := mkNodeState (ns_hopCount st + 1) (ns_completed st) (ns_envelope st) in
  (put_state nodeID st' p, (ns_hopCount st', ns_envelope st')).

Definition markNodeCompleted (nodeID : string) (env : option nat) (p : parallelState)
    : parallelState :=
  put_state nodeID (mkNodeState (ns_hopCount (state_of p nodeID)) true env) p.

Definition resetNode (nodeID : string) (env : option nat) (p : parallelState) : parallelState :=
  put_state nodeID (mkNodeState 0 false env) p.

Definition canScheduleSuccessor (nodeID : string) (maxHops : Z) (p : parallelState)
    : parallelState * bool :=
  let st := state_of p nodeID in
  (put_state nodeID st p, (ns_hopCount st <? maxHops)%Z).

Definition merge_inputs (p : parallelState) (nodeID : string) : list (option nat) :=
  default [] (ps_mergeInputs p !! nodeID).

Definition addMergeInput (nodeID : string) (env : option nat) (expectedInputs : Z)
    (p : parallelState) : parallelState * option (list (option nat)) :=
  let inputs := merge_inputs p nodeID ++ [env] in
  let p' := mkParallelState (ps_states p) (ps_recordedErrors p)
              (<[nodeID := inputs]> (ps_mergeInputs p)) in
  (p', if (Z.of_nat (length inputs) <? expectedInputs)%Z then None else Some inputs).

Definition addRecordedError (e : NodeError) (p : parallelState) : parallelState :=
  mkParallelState (ps_states p) (ps_recordedErrors p ++ [e]) (ps_mergeInputs p).

Definition appendRecordedErrors (p : parallelState) (env : Envelope) : Envelope :=
  fold_left (λ e err, AppendError err e) (ps_recordedErrors p) env.

(** ** The system *)

Inductive worker :=
| Idle
| Busy (w : workItem)                    (** took an item, runs its node *)
| Sending (r : nodeResult)               (** at [resultCh <- r] *)
| Exited.

(** Where the coordinator stands. *)
Inductive coord :=
| CSelect                                                       (** the [select] *)
| CSched (env : option nat) (succs : list string) (added : Z)   (** the loop over successors *)
| CSend (item : workItem) (env : option nat) (succs : list string) (added : Z)
                                                                (** at [workCh <- item] *)
| CStop (err : option error)                                    (** [stopWorkers], then return *)
| CReturn (env : option nat) (err : option error)
| CPanic.

Record psys (W : Type) := mkSys {
  y_rt : RT W;
  y_heap : heap;
  y_ps : parallelState;
  y_work : list workItem;
  y_results : list nodeResult;
  y_workers : list worker;
  y_pending : Z;
  y_final : option nat;
  y_ctx : option error;                  (** the error of the cancelled context *)
  y_coord : coord
}.
Arguments mkSys {W}.
Arguments y_rt {W}.
Arguments y_heap {W}.
Arguments y_ps {W}.
Arguments y_work {W}.
Arguments y_results {W}.
Arguments y_workers {W}.
Arguments y_pending {W}.
Arguments y_final {W}.
Arguments y_ctx {W}.
Arguments y_coord {W}.

Inductive move :=
| MRecv                                  (** the coordinator receives a result *)
| MCancel                                (** the coordinator sees the cancelled context *)
| MDone                                  (** no item is pending *)
| MSched                                 (** the next successor *)
| MSchedEnd                              (** the loop over the successors ends *)
| MSend                                  (** [workCh <- item] succeeds *)
| MReturn                                (** all workers are gone *)
| MTake (i : nat)                        (** worker [i] receives an item *)
| MFinish (i : nat)                      (** worker [i] has run its node *)
| MPut (i : nat)                         (** [resultCh <- r] of worker [i] succeeds *)
| MExit (i : nat)                        (** worker [i] sees its context cancelled *)
| MCtx (err : error).                    (** the caller cancels the context *)

Section System.
Context {W G : Type} `{World W} `{GraphIface G (Node W)} `{!MergeNodes W}.
Implicit Types (y : psys W) (opts : RunOptions W) (g : G).
Notation M := (GoM (RT W)).

Definition set_rt (s : RT W) y : psys W :=
  mkSys s (y_heap y) (y_ps y) (y_work y) (y_results y) (y_workers y) (y_pending y) (y_final y)
    (y_ctx y) (y_coord y).
Definition set_heap (h : heap) y : psys W :=
  mkSys (y_rt y) h (y_ps y) (y_work y) (y_results y) (y_workers y) (y_pending y) (y_final y)
    (y_ctx y) (y_coord y).
Definition set_ps (p : parallelState) y : psys W :=
  mkSys (y_rt y) (y_heap y) p (y_work y) (y_results y) (y_workers y) (y_pending y) (y_final y)
    (y_ctx y) (y_coord y).
Definition set_work (l : list workItem) y : psys W :=
  mkSys (y_rt y) (y_heap y) (y_ps y) l (y_results y) (y_workers y) (y_pending y) (y_final y)
    (y_ctx y) (y_coord y).
Definition set_results (l : list nodeResult) y : psys W :=
  mkSys (y_rt y) (y_heap y) (y_ps y) (y_work y) l (y_workers y) (y_pending y) (y_final y)
    (y_ctx y) (y_coord y).
Definition set_worker (i : nat) (w : worker) y : psys W :=
  mkSys (y_rt y) (y_heap y) (y_ps y) (y_work y) (y_results y) (<[i := w]> (y_workers y))
    (y_pending y) (y_final y) (y_ctx y) (y_coord y).
Definition set_pending (n : Z) y : psys W :=
  mkSys (y_rt y) (y_heap y) (y_ps y) (y_work y) (y_results y) (y_workers y) n (y_final y)
    (y_ctx y) (y_coord y).
Definition set_final (env : option nat) y : psys W :=
  mkSys (y_rt y) (y_heap y) (y_ps y) (y_work y) (y_results y) (y_workers y) (y_pending y) env
    (y_ctx y) (y_coord y).
Definition set_ctx (err : option error) y : psys W :=
  mkSys (y_rt y) (y_heap y) (y_ps y) (y_work y) (y_results y) (y_workers y) (y_pending y)
    (y_final y) err (y_coord y).
Definition set_coord (c : coord) y : psys W :=
  mkSys (y_rt y) (y_heap y) (y_ps y) (y_work y) (y_results y) (y_workers y) (y_pending y)
    (y_final y) (y_ctx y) c.

(** The envelope behind a pointer. *)
Definition load (h : heap) (p : option nat) : option Envelope := p ≫= λ l, h !! l.

(** The contents behind a pointer replaced. *)
Definition store (p : option nat) (e : option Envelope) (h : heap) : heap :=
  match p, e with Some l, Some e => <[l := e]> h | _, _ => h end.

(** A pointer to a new envelope. *)
Definition alloc (e : option Envelope) (h : heap) : heap * option nat :=
  match e with Some e => (h ++ [e], Some (length h)) | None => (h, None) end.

(** *** Results *)

Definition nodeKindOrUnknown (node : option (Node W)) : string :=
  match node with Some n => n_Kind n | None => "unknown" end.

Definition resolveParallelResultEnvelope g (r : nodeResult) opts (attempt : Z)
    (previousEnvelope : option nat) (p : parallelState)
    : M (parallelState * (option nat + error)) :=
  match nr_err r with
  | None => mret (p, inl (nr_envelope r))
  | Some err =>
      if negb (ContinueOnError opts) then
        mret (p, inr (wrapf ErrNodeExecution [PS "node "; PS (nr_nodeID r); PS ": "; PE err]))
      else
        t ← clock opts;
        mret (addRecordedError
                (mkNodeError (nr_nodeID r) (nodeKindOrUnknown (NodeByID g (nr_nodeID r))) err
                   attempt t ∅ (Some err)) p,
              inl previousEnvelope)
  end.

(** [handleParallelResult] up to the loop over the successors; the envelope may
    lose its redirect hint. The log records the handled node. *)
Definition handle_result g opts (runStart : Z) (r : nodeResult) y : psys W :=
  let id := nr_nodeID r in
  let '(p1, (attempt, previousEnvelope)) := incrementHop id (y_ps y) in
  match resolveParallelResultEnvelope g r opts attempt previousEnvelope p1 (y_rt y) with
  | (s, None) => set_coord CPanic (set_rt s y)
  | (s, Some (p2, inr err)) => set_coord (CStop (Some err)) (set_ps p2 (set_rt s y))
  | (s, Some (p2, inl renv)) =>
      let y := set_ps (markNodeCompleted id renv p2) (set_rt s y) in
      match NodeByID g id with
      | None => set_coord (CSched renv [] 0) y
      | Some node =>
          match (x ← determineSuccessors g node (load (y_heap y) renv) runStart opts;
                 log_node id x.1 ;; mret x) s with
          | (s', None) => set_coord CPanic (set_rt s' y)
          | (s', Some (succs, env')) =>
              set_coord (CSched renv succs 0)
                (set_heap (store renv env' (y_heap y)) (set_rt s' y))
          end
      end
  end.

(** *** Scheduling of a successor *)

Definition expected_inputs g (succID : string) (mv : merge_view W) : Z :=
  if (mv_ExpectedInputs mv =? 0)%Z then Z.of_nat (length (Predecessors g succID))
  else mv_ExpectedInputs mv.

Definition scheduleMergeSuccessor g opts (succID : string) (node : Node W) (mv : merge_view W)
    (env : option nat) (rest : list string) (added : Z) y : psys W :=
  let '(p1, ready) := addMergeInput succID env (expected_inputs g succID mv) (y_ps y) in
  let y := set_ps p1 y in
  let send merged p y :=
    set_coord (CSend (mkWork succID merged) env rest added)
      (set_ps (resetNode succID merged p) y) in
  match ready with
  | None => set_coord (CSched env rest added) y
  | Some inputs =>
      let first := default None (head inputs) in
      match mv_MergeInputs mv with
      | None => send first p1 y
      | Some merge =>
          let s := y_rt y in
          let '(w, h, res) := merge inputs (y_heap y) (rt_w s) in
          let s := mkRT w (rt_seq s) (rt_ch s) (rt_pub s) (rt_log s) in
          let y := set_heap h (set_rt s y) in
          match res with
          | inl merged => send merged p1 y
          | inr err =>
              if negb (ContinueOnError opts) then
                set_coord (CStop (Some (EFmt [PS "merge node "; PS succID; PS " failed: "; PW err])))
                  y
              else
                match clock opts s with
                | (s, None) => set_coord CPanic (set_rt s y)
                | (s, Some t) =>
                    send first
                      (addRecordedError (mkNodeError succID (n_Kind node) err 0 t ∅ (Some err)) p1)
                      (set_rt s y)
                end
          end
      end
  end.

(** The body of the loop of [scheduleParallelSuccessors]. *)
Definition sched_one g opts (succID : string) (env : option nat) (rest : list string) (added : Z)
    y : psys W :=
  match NodeByID g succID with
  | None => set_coord (CSched env rest added) y
  | Some node =>
      match as_merge node with
      | Some mv => scheduleMergeSuccessor g opts succID node mv env rest added y
      | None =>
          let '(p, ok) := canScheduleSuccessor succID (MaxHops opts) (y_ps y) in
          let y := set_ps p y in
          if ok then
            let '(h, branchEnv) := alloc (Clone (load (y_heap y) env)) (y_heap y) in
            set_coord (CSend (mkWork succID branchEnv) env rest added) (set_heap h y)
          else set_coord (CSched env rest added) y
      end
  end.

(** *** Workers *)

(** The body of a worker for one item: the result, or a panic. *)
Definition finish_work g opts (runStart : Z) (i : nat) (it : workItem) y : psys W :=
  let id := wi_nodeID it in
  match NodeByID g id with
  | None => set_worker i (Sending (mkResult id None (Some (wrapf ErrNodeNotFound [PS id])))) y
  | Some node =>
      match run_node node (load (y_heap y) (wi_envelope it)) opts runStart (y_rt y) with
      | (s, None) => set_coord CPanic (set_rt s y)
      | (s, Some (arg, r)) =>
          let h := store (wi_envelope it) (Some arg) (y_heap y) in
          let y := set_rt s y in
          let send h renv err :=
            set_worker i (Sending (mkResult id renv err)) (set_heap h y) in
          match r with
          | RSame => send h (wi_envelope it) None
          | RNew e => let '(h', l) := alloc (Some e) h in send h' l None
          | RNil => send h None None
          | RErr err => send h None (Some err)
          end
      end
  end.

Definition stopping y : bool :=
  match y_coord y with CStop _ | CReturn _ _ => true | _ => false end.

Definition is_exited (w : worker) : bool := match w with Exited => true | _ => false end.

(** The capacity of both channels. *)
Definition chan_cap opts : nat := Z.to_nat (Concurrency opts * 2).

(** What [executeGraphParallel] returns once the workers are gone: after an error
    the entry envelope, else the last result with the recorded errors. *)
Definition finish_run (err : option error) y : psys W :=
  match err with
  | Some err => set_coord (CReturn (Some 0) (Some err)) y
  | None =>
      let final := match y_final y with Some l => Some l | None => Some 0 end in
      let env := appendRecordedErrors (y_ps y) <$> load (y_heap y) final in
      set_coord (CReturn final None) (set_heap (store final env (y_heap y)) y)
  end.

(** *** The moves *)

Definition pexec g opts (runStart : Z) (m : move) y : option (psys W) :=
  match m, y_coord y with
  | _, CPanic => None
  | MRecv, CSelect =>
      match y_results y with
      | r :: rs =>
          if (0 <? y_pending y)%Z then
            Some (handle_result g opts runStart r
                    (set_pending (y_pending y - 1) (set_results rs y)))
          else None
      | [] => None
      end
  | MCancel, CSelect =>
      match y_ctx y with
      | Some c => if (0 <? y_pending y)%Z
                  then Some (set_coord (CStop (Some (wrapf ErrRunCanceled [PE c]))) y) else None
      | None => None
      end
  | MDone, CSelect =>
      if (0 <? y_pending y)%Z then None else Some (set_coord (CStop None) y)
  | MSched, CSched env (succID :: rest) added => Some (sched_one g opts succID env rest added y)
  | MSchedEnd, CSched env [] added =>
      Some (set_coord CSelect (set_final env (set_pending (y_pending y + added) y)))
  | MSend, CSend item env rest added =>
      if bool_decide (length (y_work y) < chan_cap opts)
      then Some (set_coord (CSched env rest (added + 1)) (set_work (y_work y ++ [item]) y))
      else None
  | MReturn, CStop err =>
      if forallb is_exited (y_workers y) then Some (finish_run err y) else None
  | MTake i, _ =>
      match y_workers y !! i, y_work y with
      | Some Idle, it :: rest => Some (set_worker i (Busy it) (set_work rest y))
      | _, _ => None
      end
  | MFinish i, _ =>
      match y_workers y !! i with
      | Some (Busy it) => Some (finish_work g opts runStart i it y)
      | _ => None
      end
  | MPut i, _ =>
      match y_workers y !! i with
      | Some (Sending r) =>
          if bool_decide (length (y_results y) < chan_cap opts)
          then Some (set_worker i Idle (set_results (y_results y ++ [r]) y)) else None
      | _ => None
      end
  | MExit i, _ =>
      match y_workers y !! i with
      | Some Idle => if stopping y || bool_decide (is_Some (y_ctx y))
                     then Some (set_worker i Exited y) else None
      | _ => None
      end
  | MCtx err, _ =>
      match y_ctx y with None => Some (set_ctx (Some err) y) | Some _ => None end
  | _, _ => None
  end.

(** The state before the first move: the workers started, the entry submitted. *)
Definition pinit g opts (env : Envelope) (s : RT W) : psys W :=
  mkSys s [env] (newParallelState (Entry g) (Some 0)) [mkWork (Entry g) (Some 0)] []
    (replicate (Z.to_nat (Concurrency opts)) Idle) 1 None None CSelect.

Fixpoint prun g opts (runStart : Z) (ms : list move) y : option (psys W) :=
  match ms with
  | [] => Some y
  | m :: rest => pexec g opts runStart m y ≫= prun g opts runStart rest
  end.

(** The executor under a schedule: the outcome if the schedule ends with the
    coordinator's return, a panic if it ends in one. *)
Definition executeGraphParallel (ms : list move) g (env : Envelope) opts (runStart : Z)
    : M (option outcome) := λ s,
  match prun g opts runStart ms (pinit g opts env s) with
  | None => (s, Some None)
  | Some y =>
      match y_coord y with
      | CReturn l err => (y_rt y, Some (Some (load (y_heap y) l, err)))
      | CPanic => (y_rt y, None)
      | _ => (y_rt y, Some None)
      end
  end.
End System.
