(* ===== verification/ParallelControl.v ===== *)
(** * The control skeleton of the parallel executor

    An abstract transition system that keeps of [executeGraphParallel] only which
    node is where: in the work channel, with a worker, in the result channel, or
    next in the coordinator's loop; how often each node was handled and how many
    inputs each merge node has received. Envelopes are forgotten, and what depends
    on them (the selected successors, failures, panics) is a free choice. The
    invariants of the executor are proved here; ParallelSpec.v shows that the
    executor refines the skeleton. *)

From stdpp Require Import gmap strings list fin_maps.
From Stdlib Require Import ZArith Lia.
From S2P Require Import Prelude Values Envelope Graph Events StepController Runtime.
From S2P Require Import RuntimeSafety Parallel.

Inductive aworker := AIdle | ABusy (u : string) | ASending (u : string) | AExited.

Inductive acoord :=
| ASelect
| ASched (succs : list string) (added : Z)
| ASend (v : string) (succs : list string) (added : Z)
| AStop (err : option error)
| AReturn (err : option error)
| APanic.

Notation log_t := (list (string * list string)).

Record actl := mkA {
  a_work : list string;
  a_results : list string;
  a_workers : list aworker;
  a_pending : Z;
  a_ctx : bool;
  a_coord : acoord;
  a_log : log_t;
  a_hops : string → Z;
  a_inputs : string → nat
}.

Definition item_of (w : aworker) : list string :=
  match w with ABusy u | ASending u => [u] | _ => [] end.

Definition active (ws : list aworker) : list string := ws ≫= item_of.

(** The item the coordinator is about to send. *)
Definition offered (c : acoord) : list string := match c with ASend v _ _ => [v] | _ => [] end.

(** The successors the coordinator has still to consider. *)
Definition remaining (c : acoord) : list string :=
  match c with ASched l _ | ASend _ l _ => l | _ => [] end.

Definition outstanding (a : actl) : list string :=
  a_work a ++ active (a_workers a) ++ a_results a ++ offered (a_coord a).

(** How often the handled nodes selected [v]. *)
Definition selections (v : string) (l : log_t) : nat := count (λ w, w = v) (l ≫= snd).

Definition a_stopping (c : acoord) : bool :=
  match c with AStop _ | AReturn _ => true | _ => false end.

(** ** Transitions *)

Section Control.
Context {W G : Type} `{GraphIface G (Node W)} `{!MergeNodes W}.
Implicit Types (opts : RunOptions W) (g : G) (a : actl).

(** What [node] may select: by the reference [choose] for some envelope. *)
Definition may_select g (node : Node W) (succs : list string) : Prop :=
  (∃ e, succs = choose g node e) ∨ (succs = [] ∧ Successors g (n_ID node) = []).

Definition merge_at g (v : string) (mv : merge_view W) : Prop :=
  ∃ node, NodeByID g v = Some node ∧ as_merge node = Some mv.

Definition plain_at g (v : string) : Prop :=
  ∃ node, NodeByID g v = Some node ∧ as_merge node = None.

Definition bump {A} (u : string) (x : A) (f f' : string → A) : Prop :=
  f' u = x ∧ ∀ v, v ≠ u → f' v = f v.

Inductive astep g opts : actl → actl → Prop :=
| A_recv wk u rs ws n cx l h i succs node h' :
    (0 < n)%Z → NodeByID g u = Some node → may_select g node succs → bump u (h u + 1)%Z h h' →
    astep g opts (mkA wk (u :: rs) ws n cx ASelect l h i)
      (mkA wk rs ws (n - 1) cx (ASched succs 0) (l ++ [(u, succs)]) h' i)
| A_recv_unknown wk u rs ws n cx l h i h' :
    (0 < n)%Z → NodeByID g u = None →
    astep g opts (mkA wk (u :: rs) ws n cx ASelect l h i)
      (mkA wk rs ws (n - 1) cx (ASched [] 0) l h' i)
| A_recv_stop wk u rs ws n cx l h i h' err :
    (0 < n)%Z → astep g opts (mkA wk (u :: rs) ws n cx ASelect l h i)
      (mkA wk rs ws (n - 1) cx (AStop (Some err)) l h' i)
| A_recv_panic wk u rs ws n cx l h i h' :
    (0 < n)%Z → astep g opts (mkA wk (u :: rs) ws n cx ASelect l h i)
      (mkA wk rs ws (n - 1) cx APanic l h' i)
| A_cancel wk rs ws n l h i err :
    (0 < n)%Z → astep g opts (mkA wk rs ws n true ASelect l h i)
      (mkA wk rs ws n true (AStop (Some err)) l h i)
| A_done wk rs ws n cx l h i :
    (n <= 0)%Z → astep g opts (mkA wk rs ws n cx ASelect l h i)
      (mkA wk rs ws n cx (AStop None) l h i)
| A_skip wk rs ws n cx v rest k l h i h' :
    NodeByID g v = None ∨ (plain_at g v ∧ (MaxHops opts <= h v)%Z) → (∀ u, h' u = h u) →
    astep g opts (mkA wk rs ws n cx (ASched (v :: rest) k) l h i)
      (mkA wk rs ws n cx (ASched rest k) l h' i)
| A_branch wk rs ws n cx v rest k l h i h' :
    plain_at g v → (∀ u, h' u = h u) →
    astep g opts (mkA wk rs ws n cx (ASched (v :: rest) k) l h i)
      (mkA wk rs ws n cx (ASend v rest k) l h' i)
| A_wait wk rs ws n cx v rest k l h i i' mv :
    merge_at g v mv → bump v (S (i v)) i i' →
    (Z.of_nat (S (i v)) < expected_inputs g v mv)%Z →
    astep g opts (mkA wk rs ws n cx (ASched (v :: rest) k) l h i)
      (mkA wk rs ws n cx (ASched rest k) l h i')
| A_merge wk rs ws n cx v rest k l h i h' i' mv :
    merge_at g v mv → bump v (S (i v)) i i' → bump v 0%Z h h' →
    (expected_inputs g v mv <= Z.of_nat (S (i v)))%Z →
    astep g opts (mkA wk rs ws n cx (ASched (v :: rest) k) l h i)
      (mkA wk rs ws n cx (ASend v rest k) l h' i')
| A_merge_stop wk rs ws n cx v rest k l h i h' i' err :
    astep g opts (mkA wk rs ws n cx (ASched (v :: rest) k) l h i)
      (mkA wk rs ws n cx (AStop (Some err)) l h' i')
| A_merge_panic wk rs ws n cx v rest k l h i h' i' :
    astep g opts (mkA wk rs ws n cx (ASched (v :: rest) k) l h i)
      (mkA wk rs ws n cx APanic l h' i')
| A_end wk rs ws n cx k l h i :
    astep g opts (mkA wk rs ws n cx (ASched [] k) l h i) (mkA wk rs ws (n + k) cx ASelect l h i)
| A_send wk rs ws n cx v rest k l h i :
    length wk < chan_cap opts →
    astep g opts (mkA wk rs ws n cx (ASend v rest k) l h i)
      (mkA (wk ++ [v]) rs ws n cx (ASched rest (k + 1)) l h i)
| A_return wk rs ws n cx err l h i :
    Forall (λ w, w = AExited) ws →
    astep g opts (mkA wk rs ws n cx (AStop err) l h i) (mkA wk rs ws n cx (AReturn err) l h i)
| A_take wk rs ws n cx c l h i j v :
    c ≠ APanic → ws !! j = Some AIdle →
    astep g opts (mkA (v :: wk) rs ws n cx c l h i) (mkA wk rs (<[j := ABusy v]> ws) n cx c l h i)
| A_finish wk rs ws n cx c l h i j v :
    c ≠ APanic → ws !! j = Some (ABusy v) →
    astep g opts (mkA wk rs ws n cx c l h i) (mkA wk rs (<[j := ASending v]> ws) n cx c l h i)
| A_crash wk rs ws n cx c l h i j v :
    c ≠ APanic → ws !! j = Some (ABusy v) →
    astep g opts (mkA wk rs ws n cx c l h i) (mkA wk rs ws n cx APanic l h i)
| A_put wk rs ws n cx c l h i j v :
    c ≠ APanic → ws !! j = Some (ASending v) → length rs < chan_cap opts →
    astep g opts (mkA wk rs ws n cx c l h i) (mkA wk (rs ++ [v]) (<[j := AIdle]> ws) n cx c l h i)
| A_exit wk rs ws n cx c l h i j :
    c ≠ APanic → ws !! j = Some AIdle → a_stopping c || cx = true →
    astep g opts (mkA wk rs ws n cx c l h i) (mkA wk rs (<[j := AExited]> ws) n cx c l h i)
| A_ctx wk rs ws n c l h i :
    c ≠ APanic → astep g opts (mkA wk rs ws n false c l h i) (mkA wk rs ws n true c l h i).
End Control.

(** ** Items of the workers *)

Lemma active_app ws ws' : active (ws ++ ws') = active ws ++ active ws'.
Proof. apply bind_app. Qed.

(** Replacing a worker's state replaces its item. *)
Lemma active_insert ws j w : ws !! j = Some w →
  ∃ k, active ws ≡ₚ item_of w ++ k ∧ ∀ w', active (<[j := w']> ws) ≡ₚ item_of w' ++ k.
Proof.
  intros Hj. apply list_elem_of_split_length in Hj as (l1 & l2 & -> & ->).
  exists (active l1 ++ active l2). split; [|intros w'; rewrite (insert_app_r_alt _ _ _ _ (le_n _)), Nat.sub_diag];
    rewrite active_app; simpl; unfold active at 2; simpl; by rewrite Permutation_app_swap_app.
Qed.

Section Invariants.
Context {W G : Type} `{GraphIface G (Node W)} `{!MergeNodes W} {wf : G → Prop}
  `{!GraphLaws G (Node W) wf}.
Variables (g : G) (opts : RunOptions W).
Hypothesis Hwf : wf g.
Hypothesis Hmax : (0 < MaxHops opts)%Z.
Implicit Types (a : actl) (O R : list string) (l : log_t).

(** *** The channels and the pending count *)

Definition live (c : acoord) : bool :=
  match c with ASelect | ASched _ _ | ASend _ _ _ => true | _ => false end.

Definition added_of (c : acoord) : Z := match c with ASched _ k | ASend _ _ k => k | _ => 0%Z end.

Definition failed (c : acoord) : bool :=
  match c with AStop (Some _) | AReturn (Some _) | APanic => true | _ => false end.

Definition in_flight a : list string := a_work a ++ active (a_workers a) ++ a_results a.

Record count_inv a : Prop := {
  ci_workers : length (a_workers a) = Z.to_nat (Concurrency opts);
  ci_work : length (a_work a) ≤ chan_cap opts;
  ci_results : length (a_results a) ≤ chan_cap opts;
  ci_live : live (a_coord a) = true →
    (a_pending a + added_of (a_coord a))%Z = Z.of_nat (length (in_flight a));
  ci_done : live (a_coord a) = false → failed (a_coord a) = false → in_flight a = []
}.

Lemma in_flight_length a : length (in_flight a) =
  length (a_work a) + length (active (a_workers a)) + length (a_results a).
Proof. unfold in_flight. rewrite !length_app. lia. Qed.

(** Moving an item between work channel, worker and result channel. *)
Lemma active_length ws j w w' : ws !! j = Some w →
  length (active (<[j := w']> ws)) + length (item_of w) =
  length (active ws) + length (item_of w').
Proof.
  intros (k & Hk & Hk')%active_insert. rewrite Hk, (Hk' w'), !length_app. lia.
Qed.

Lemma in_flight_nil a : in_flight a = [] ↔ length (in_flight a) = 0.
Proof. symmetry. apply length_zero_iff_nil. Qed.

Lemma count_inv_step a a' : (1 < Concurrency opts)%Z →
  count_inv a → astep g opts a a' → count_inv a'.
Proof.
  intros HC [H1 H2 H3 H4 H5] Hstep. setoid_rewrite in_flight_nil in H5.
  rewrite in_flight_length in *.
  destruct Hstep; simpl in *; split; simpl; rewrite ?length_insert, ?length_app in *; simpl in *;
    try setoid_rewrite in_flight_nil; rewrite ?in_flight_length; simpl; rewrite ?length_app;
    simpl; try done; try lia; intros; try discriminate; try lia;
    try (match goal with Hj : ?ws !! ?j = Some ?w |- context [<[?j := ?w']> ?ws] =>
           pose proof (active_length ws j w w' Hj) end; simpl in *).
  all: try (specialize (H4 ltac:(done)); simpl in *; lia).
  all: try (specialize (H5 ltac:(done) ltac:(done)); simpl in *; lia).
Qed.

(** *** Where the selected nodes are *)

Definition selected l (v : string) : Prop := ∃ w next, (w, next) ∈ l ∧ v ∈ next.

(** A merge node that has fewer inputs than it expects. *)
Definition waiting (i : string → nat) (v : string) : Prop :=
  ∃ mv, merge_at g v mv ∧ (Z.of_nat (i v) < expected_inputs g v mv)%Z.

(** [O]: the outstanding items; [R]: the successors still to be considered. *)
Record flow O R l (h : string → Z) (i : string → nat) : Prop := {
  fl_known : ∀ v, v ∈ O → is_Some (NodeByID g v) ∧ (v = Entry g ∨ selected l v);
  fl_rem : ∀ v, v ∈ R → is_Some (NodeByID g v) ∧ selected l v;
  fl_hops : ∀ v, (0 < h v)%Z → v ∈ handled l;
  fl_closed : ∀ v, selected l v → v ∈ handled l ∨ v ∈ O ∨ v ∈ R ∨ waiting i v;
  fl_entry : Entry g ∈ handled l ∨ Entry g ∈ O;
  fl_inputs : ∀ v mv, merge_at g v mv → i v + count (λ w, w = v) R = selections v l;
  fl_ready : ∀ v mv, merge_at g v mv → v ≠ Entry g → v ∈ handled l ∨ v ∈ O →
    (expected_inputs g v mv <= Z.of_nat (i v))%Z
}.

Lemma flow_perm O O' R l h h' i : O ≡ₚ O' → (∀ u, h' u = h u) →
  flow O R l h i → flow O' R l h' i.
Proof.
  intros HO Hh [H1 H2 H3 H4 H5 H6 H7].
  split; try setoid_rewrite <- HO; try setoid_rewrite Hh; done.
Qed.

Lemma selected_app l u succs v : selected (l ++ [(u, succs)]) v ↔ selected l v ∨ v ∈ succs.
Proof.
  unfold selected. setoid_rewrite elem_of_snoc. split.
  - intros (w & next & [Hin|[= -> ->]] & Hv); eauto.
  - intros [(w & next & Hin & Hv)|Hv]; eauto 10.
Qed.

Lemma handled_app l u succs v : v ∈ handled (l ++ [(u, succs)]) ↔ v ∈ handled l ∨ v = u.
Proof. unfold handled. rewrite map_app. simpl. apply elem_of_snoc. Qed.

Lemma selections_app l u succs v :
  selections v (l ++ [(u, succs)]) = selections v l + count (λ w, w = v) succs.
Proof. unfold selections. rewrite bind_app, count_app. simpl. by rewrite app_nil_r. Qed.

Lemma node_at_id u node : NodeByID g u = Some node → n_ID node = u.
Proof. exact (gl_node_id g u node Hwf). Qed.

Lemma may_select_sub node succs : may_select g node succs → succs ⊆ Successors g (n_ID node).
Proof. intros [[e ->]|[-> _]]; [apply choose_sub|set_solver]. Qed.

(** Handling [u], whose successors become the ones to consider. *)
Lemma flow_recv u O l h h' i node succs :
  NodeByID g u = Some node → may_select g node succs → bump u (h u + 1)%Z h h' →
  flow (u :: O) [] l h i → flow O succs (l ++ [(u, succs)]) h' i.
Proof.
  intros Hn Hsel [Hu Hh] [H1 H2 H3 H4 H5 H6 H7].
  apply may_select_sub in Hsel. rewrite (node_at_id u node Hn) in Hsel.
  split; try setoid_rewrite selected_app; try setoid_rewrite handled_app.
  - intros v Hv. destruct (H1 v) as [? [?|?]]; [by right|auto..].
  - intros v Hv. split; [|by right]. by eapply gl_succ_node, Hsel.
  - intros v. destruct (decide (v = u)) as [->|Hne]; [auto|]. rewrite Hh by done. auto.
  - intros v [Hv|Hv]; [|auto]. destruct (H4 v Hv) as [?|[Hin|[Hin|?]]]; auto.
    + apply elem_of_cons in Hin as [->|?]; auto.
    + set_solver.
  - destruct H5 as [?|Hin]; auto. apply elem_of_cons in Hin as [->|?]; auto.
  - intros v mv Hmv. rewrite selections_app. specialize (H6 v mv Hmv). rewrite count_nil in H6. lia.
  - intros v mv Hmv Hne Hv. apply (H7 v mv Hmv Hne). set_solver.
Qed.

Lemma count_cons_ne v w R : w ≠ v → count (λ x, x = v) (w :: R) = count (λ x, x = v) R.
Proof. intros. rewrite count_cons. by case_decide. Qed.

Lemma merge_at_fun v mv mv' : merge_at g v mv → merge_at g v mv' → mv = mv'.
Proof. intros (n & ? & ?) (n' & ? & ?). congruence. Qed.

Lemma merge_at_plain v mv : merge_at g v mv → ¬ plain_at g v.
Proof. intros (n & ? & ?) (n' & ? & ?). congruence. Qed.

(** A successor that is not scheduled again. *)
Lemma flow_skip v O R l h i :
  NodeByID g v = None ∨ (plain_at g v ∧ (MaxHops opts <= h v)%Z) →
  flow O (v :: R) l h i → flow O R l h i.
Proof.
  intros Hv [H1 H2 H3 H4 H5 H6 H7].
  destruct (H2 v) as [Hsome _]; [by left|].
  destruct Hv as [Hnone|[Hp Hh]]; [rewrite Hnone in Hsome; by destruct Hsome|].
  assert (v ∈ handled l) by (apply H3; lia).
  split; try done.
  - intros u Hu. apply H2. by right.
  - intros u Hu. destruct (H4 u Hu) as [?|[?|[Hin|?]]]; auto.
    apply elem_of_cons in Hin as [->|?]; auto.
  - intros u mv Hmv. rewrite <- (H6 u mv Hmv), count_cons_ne; [done|].
    intros ->. by eapply merge_at_plain.
Qed.

(** A successor that becomes an item. *)
Lemma flow_branch v O R l h i : plain_at g v →
  flow O (v :: R) l h i → flow (v :: O) R l h i.
Proof.
  intros Hp [H1 H2 H3 H4 H5 H6 H7]. split; try done.
  - intros u [->|Hu]%elem_of_cons; [|auto]. destruct (H2 v) as [? ?]; [by left|auto].
  - intros u Hu. apply H2. by right.
  - intros u Hu. specialize (H4 u Hu). set_solver.
  - set_solver.
  - intros u mv Hmv. rewrite <- (H6 u mv Hmv), count_cons_ne; [done|].
    intros ->. by eapply merge_at_plain.
  - intros u mv Hmv Hne Hu. apply (H7 u mv Hmv Hne). rewrite elem_of_cons in Hu.
    destruct Hu as [?|[->|?]]; auto. by destruct (merge_at_plain _ _ Hmv).
Qed.

(** One more input of a merge node. *)
Lemma flow_input v mv O O' R l h h' i i' :
  merge_at g v mv → bump v (S (i v)) i i' → (∀ u, (0 < h' u)%Z → u ∈ handled l) →
  (O' = O ∧ waiting i' v ∨
   O' = v :: O ∧ (expected_inputs g v mv <= Z.of_nat (S (i v)))%Z) →
  flow O (v :: R) l h i → flow O' R l h' i'.
Proof.
  intros Hmv [Hi Hi'] Hh HO [H1 H2 H3 H4 H5 H6 H7].
  assert (O ⊆ O') as Hsub by (destruct HO as [[-> _]|[-> _]]; set_solver).
  split; try done.
  - intros u Hu. destruct HO as [[-> _]|[-> _]]; [auto|].
    apply elem_of_cons in Hu as [->|?]; [|auto]. destruct (H2 v) as [? ?]; [by left|auto].
  - intros u Hu. apply H2. by right.
  - intros u Hu. destruct (decide (u = v)) as [->|Hne].
    { destruct HO as [[-> Hw]|[-> _]]; [auto|]. right; left. by left. }
    destruct (H4 u Hu) as [?|[?|[Hin|(m & Hm & Hlt)]]]; auto.
    + apply elem_of_cons in Hin as [->|?]; auto. done.
    + right; right; right. exists m. by rewrite Hi'.
  - destruct H5 as [?|?]; auto.
  - intros u m Hm. specialize (H6 u m Hm). rewrite count_cons in H6.
    destruct (decide (u = v)) as [->|Hne]; [rewrite Hi; case_decide; [lia|done]|].
    rewrite Hi' by done. case_decide; [congruence|lia].
  - intros u m Hm Hne Hu. destruct (decide (u = v)) as [->|Huv].
    + rewrite Hi. rewrite (merge_at_fun _ _ _ Hm Hmv).
      assert (v ∈ handled l ∨ v ∈ O → expected_inputs g v mv <= Z.of_nat (S (i v)))%Z as Hold.
      { intros Hin. specialize (H7 v mv Hmv Hne Hin). lia. }
      destruct HO as [[-> _]|[-> ?]]; auto.
    + rewrite Hi' by done. apply (H7 u m Hm Hne).
      destruct HO as [[-> _]|[-> _]]; set_solver.
Qed.

(** *** All of it *)

Record inv a : Prop := {
  inv_count : count_inv a;
  inv_trace : trace_ok g (a_log a);
  inv_flow : failed (a_coord a) = false →
    flow (outstanding a) (remaining (a_coord a)) (a_log a) (a_hops a) (a_inputs a)
}.

(** A move of an item, or of the coordinator between phases without items. *)
Lemma inv_flow_perm a a' :
  inv a → count_inv a' → a_log a' = a_log a →
  (failed (a_coord a') = false → failed (a_coord a) = false ∧
    outstanding a ≡ₚ outstanding a' ∧ remaining (a_coord a') = remaining (a_coord a) ∧
    (∀ u, a_hops a' u = a_hops a u) ∧ a_inputs a' = a_inputs a) → inv a'.
Proof.
  intros [Hc Ht Hf] Hc' Hl Hp. split; [done|by rewrite Hl|].
  intros Hfail. destruct (Hp Hfail) as (Hfa & HO & -> & Hh & ->). rewrite Hl.
  eapply flow_perm; eauto.
Qed.

Ltac worker_perm :=
  match goal with Hj : ?ws !! ?j = Some ?w |- context [<[?j := ?w']> ?ws] =>
    let k := fresh in let Hk := fresh in let Hk' := fresh in
    destruct (active_insert ws j w Hj) as (k & Hk & Hk'); rewrite Hk, (Hk' w'); simpl
  end.

Lemma inv_step a a' : (1 < Concurrency opts)%Z → inv a → astep g opts a a' → inv a'.
Proof.
  intros HC Hinv Hstep. pose proof (count_inv_step a a' HC (inv_count a Hinv) Hstep) as Hc'.
  destruct Hstep as [wk u rs ws n cx l h i succs node h' Hn Hnode Hsel Hb
    |? u ? ? ? ? ? ? ? ? ? Hnone| | | | |? ? ? ? ? v rest k ? ? ? ? Hv Hh
    |? ? ? ? ? v rest k ? ? ? ? Hv Hh|? ? ? ? ? v rest k ? ? ? ? mv Hmv Hi Hlt
    |? ? ? ? ? v rest k ? ? ? ? ? mv Hmv Hi Hh Hge| | | | | | | | | | |];
    try (apply (inv_flow_perm _ _ Hinv Hc'); [done|]; simpl; try done; intros Hfl;
         split_and!; try done; unfold outstanding; simpl; try worker_perm;
         rewrite ?app_nil_r; try done; solve_Permutation).
  all: destruct Hinv as [Hc Ht Hf]; specialize (Hf eq_refl); unfold outstanding in Hf; simpl in Hf;
    rewrite app_nil_r in Hf; split; [done|try done|intros _; unfold outstanding; simpl].
  - apply (flow_perm _ (u :: wk ++ active ws ++ rs) _ _ _ h) in Hf; [|solve_Permutation|done].
    apply trace_ok_snoc; [done|eauto| |].
    + apply may_select_sub in Hsel. by rewrite (node_at_id u node Hnode) in Hsel.
    + destruct (fl_known _ _ _ _ _ Hf u) as [_ [?|?]]; [by left|auto..].
  - apply (flow_perm _ (u :: wk ++ active ws ++ rs) _ _ _ h) in Hf; [|solve_Permutation|done].
    rewrite app_nil_r. by eapply flow_recv.
  - destruct (fl_known _ _ _ _ _ Hf u) as [[? ?] _]; [set_solver|congruence].
  - rewrite app_nil_r. eapply flow_perm; [done|exact Hh|]. by eapply flow_skip.
  - eapply flow_perm; [|exact Hh|by eapply flow_branch]. solve_Permutation.
  - rewrite app_nil_r. eapply flow_input; [done..|apply (fl_hops _ _ _ _ _ Hf)|left|done].
    split; [done|]. exists mv. destruct Hi as [-> _]. done.
  - apply (flow_perm (v :: wk ++ active ws ++ rs) _ _ _ h'); [solve_Permutation|done|].
    eapply flow_input; [done..| |right; done|done].
    intros w Hw. destruct Hh as [Hv Hh']. destruct (decide (w = v)) as [->|Hne]; [lia|].
    rewrite Hh' in Hw by done. by apply (fl_hops _ _ _ _ _ Hf).
Qed.
End Invariants.

(** ** Termination and load on acyclic graphs *)

Lemma sum_submseteq {A} (f : A → nat) (l k : list A) :
  l ⊆+ k → sum_list (map f l) ≤ sum_list (map f k).
Proof. induction 1; simpl; lia. Qed.

Lemma sum_perm {A} (f : A → nat) (l k : list A) :
  l ≡ₚ k → sum_list (map f l) = sum_list (map f k).
Proof. induction 1; simpl; lia. Qed.

Lemma sum_map_app {A} (f : A → nat) l k :
  sum_list (map f (l ++ k)) = sum_list (map f l) + sum_list (map f k).
Proof. induction l; simpl; lia. Qed.

Lemma sum_map_insert {A} (f : A → nat) (l : list A) j x x' : l !! j = Some x →
  sum_list (map f (<[j := x']> l)) + f x = sum_list (map f l) + f x'.
Proof.
  intros Hj. apply list_elem_of_split_length in Hj as (l1 & l2 & -> & ->).
  rewrite (insert_app_r_alt _ _ _ _ (le_n _)), Nat.sub_diag, !sum_map_app. simpl. lia.
Qed.

Section Measure.
Context {W G : Type} `{GraphIface G (Node W)} `{!MergeNodes W} {wf : G → Prop}
  `{!GraphLaws G (Node W) wf}.
Variables (g : G) (opts : RunOptions W).
Hypothesis Hwf : wf g.
Implicit Types a : actl.

Lemma may_select_submseteq node succs :
  may_select g node succs → succs ⊆+ Successors g (n_ID node).
Proof.
  intros [[e ->]|[-> _]]; [|apply submseteq_nil_l]. unfold choose.
  destruct (redirect_target _ _) as [t|] eqn:Hr.
  - by apply singleton_submseteq_l, (redirect_target_in e).
  - destruct (n_isRouter node); [|done]. destruct (GetVar e _) as [[]|]; try done.
    apply sublist_submseteq, sublist_filter.
Qed.

Lemma may_select_sum (f : string → nat) u node succs :
  NodeByID g u = Some node → may_select g node succs →
  sum_list (map f succs) ≤ sum_list (map f (Successors g u)).
Proof.
  intros Hn Hs%may_select_submseteq. rewrite (node_at_id g Hwf u node Hn) in Hs.
  by apply sum_submseteq.
Qed.

(** The moves an item of node [u] can still cause: itself through the channels,
    and the items of the successors. *)
Variable T : string → nat.
Hypothesis HT : ∀ u, 5 + sum_list (map (λ v, 2 + T v) (Successors g u)) ≤ T u.

Definition worker_cost (w : aworker) : nat :=
  match w with AIdle => 1 | ABusy u => T u | ASending u => T u - 1 | AExited => 0 end.

Definition coord_cost (c : acoord) : nat :=
  match c with
  | ASelect => 3
  | ASched l _ => 4 + sum_list (map (λ v, 2 + T v) l)
  | ASend v l _ => 5 + T v + sum_list (map (λ v, 2 + T v) l)
  | AStop _ => 2
  | AReturn _ => 1
  | APanic => 0
  end.

Definition measure a : nat :=
  sum_list (map T (a_work a)) + sum_list (map worker_cost (a_workers a)) +
  sum_list (map (λ u, T u - 3) (a_results a)) + coord_cost (a_coord a) +
  (if a_ctx a then 0 else 1).

Lemma measure_step a a' : astep g opts a a' → measure a' < measure a.
Proof.
  assert (∀ u, 5 ≤ T u) as H5 by (intros u; specialize (HT u); lia).
  intros Hstep. destruct Hstep as [wk u rs ws n cx l h i succs node h' Hn Hnode Hsel Hb
    | | | | | | | | | | | | | | | | | | | |]; unfold measure; simpl;
    rewrite ?sum_map_app; simpl;
    try match goal with
        | Hj : ?ws !! ?j = Some ?w |- context [<[?j := ?w']> ?ws] =>
            pose proof (sum_map_insert worker_cost ws j w w' Hj); simpl in *
        end;
    repeat match goal with
           | |- context [T ?u] => lazymatch goal with
               | _ : 5 ≤ T u |- _ => fail | _ => pose proof (H5 u) end
           end; try lia.
  - pose proof (may_select_sum (λ v, 2 + T v) u node succs Hnode Hsel). specialize (HT u). simpl in *. lia.
  - specialize (H5 v). lia.
  - destruct c; simpl; try done; lia.
Qed.

(** The number of maximal paths bounds the number of outstanding items. *)
Variable P : string → nat.
Hypothesis HP : ∀ u, 1 ≤ P u ∧ sum_list (map P (Successors g u)) ≤ P u.

Definition path_load a : nat := sum_list (map P (outstanding a ++ remaining (a_coord a))).

Lemma path_load_step a a' : astep g opts a a' → path_load a' ≤ path_load a.
Proof.
  intros Hstep. destruct Hstep as [wk u rs ws n cx l h i succs node h' Hn Hnode Hsel Hb
    | | | | | | | | | | | | | | | | | | | |]; unfold path_load, outstanding; simpl;
    try match goal with
        | Hj : ?ws !! ?j = Some ?w |- context [<[?j := ?w']> ?ws] =>
            destruct (active_insert ws j w Hj) as (k' & Hk & Hk');
            rewrite !sum_map_app, (sum_perm P _ _ Hk), (sum_perm P _ _ (Hk' w'))
        end; rewrite ?sum_map_app; simpl; rewrite ?sum_map_app; simpl; try lia.
  - pose proof (may_select_sum P u node succs Hnode Hsel). destruct (HP u). lia.
Qed.

Lemma path_load_outstanding a : length (outstanding a) ≤ path_load a.
Proof.
  unfold path_load. rewrite sum_map_app. apply (Nat.le_trans _ (sum_list (map P (outstanding a)))); [|lia].
  induction (outstanding a) as [|u l IH]; simpl; [lia|]. destruct (HP u). lia.
Qed.
End Measure.
