(* ===== verification/ParallelSpec.v ===== *)
(** * The parallel executor: refinement and properties

    Every move of the executor of Parallel.v is a transition of the control
    skeleton of ParallelControl.v, from which its properties follow: which nodes
    are handled, when merge nodes run, the bound on the moves of a schedule over
    an acyclic graph, and the absence of deadlock while the channels suffice. Two
    schedules show what happens when they do not. *)

From stdpp Require Import gmap strings list fin_maps.
From Stdlib Require Import ZArith Lia.
From S2P Require Import Prelude Values Envelope Kahn Graph Events StepController Runtime.
From S2P Require Import RuntimeSafety RuntimeSpec Parallel ParallelControl.

(** ** The abstraction *)

Definition abs_worker (w : worker) : aworker :=
  match w with
  | Idle => AIdle
  | Busy it => ABusy (wi_nodeID it)
  | Sending r => ASending (nr_nodeID r)
  | Exited => AExited
  end.

Definition abs_coord (c : coord) : acoord :=
  match c with
  | CSelect => ASelect
  | CSched _ l k => ASched l k
  | CSend it _ l k => ASend (wi_nodeID it) l k
  | CStop err => AStop err
  | CReturn _ err => AReturn err
  | CPanic => APanic
  end.

Definition hops (p : parallelState) (u : string) : Z := ns_hopCount (state_of p u).
Definition inputs (p : parallelState) (u : string) : nat := length (merge_inputs p u).

Definition abs {W} (y : psys W) : actl :=
  mkA (wi_nodeID <$> y_work y) (nr_nodeID <$> y_results y) (abs_worker <$> y_workers y)
    (y_pending y) (bool_decide (is_Some (y_ctx y))) (abs_coord (y_coord y)) (rt_log (y_rt y))
    (hops (y_ps y)) (inputs (y_ps y)).

Lemma hops_put u st p v : hops (put_state u st p) v = if decide (v = u) then ns_hopCount st else hops p v.
Proof.
  unfold hops, state_of, put_state. simpl. case_decide as Hv; [subst; by rewrite lookup_insert_eq|].
  by rewrite lookup_insert_ne.
Qed.

Lemma inputs_ext p q : ps_mergeInputs p = ps_mergeInputs q → inputs p = inputs q.
Proof. unfold inputs, merge_inputs. by intros ->. Qed.

Lemma inputs_add u env n p v : inputs (addMergeInput u env n p).1 v =
  if decide (v = u) then S (inputs p u) else inputs p v.
Proof.
  unfold inputs, merge_inputs at 1. simpl. case_decide as Hv.
  - subst. rewrite lookup_insert_eq. simpl. rewrite length_app. simpl. lia.
  - by rewrite lookup_insert_ne.
Qed.

Lemma bump_if {A} u (x : A) f f' : (∀ v, f' v = if decide (v = u) then x else f v) → bump u x f f'.
Proof.
  intros Hf. split; [rewrite Hf; by case_decide|]. intros v Hv. rewrite Hf. by case_decide.
Qed.

(** ** Refinement *)

Section Refinement.
Context {W G : Type} `{World W} `{GraphIface G (Node W)} `{!MergeNodes W}.
Implicit Types (y : psys W) (opts : RunOptions W) (g : G).

Lemma emits_run {A} (m : GoM (RT W) A) s s' r :
  emits m → numbered s → m s = (s', r) → numbered s' ∧ rt_log s' = rt_log s.
Proof.
  intros Hm Hs E. destruct (Hm s Hs) as (s1 & r1 & new & E1 & H1 & _ & L1).
  rewrite E in E1. by simplify_eq.
Qed.

Lemma resolve_emits_p g r opts att prev p :
  emits (resolveParallelResultEnvelope g r opts att prev p).
Proof.
  unfold resolveParallelResultEnvelope. go_monad; apply clock_emits.
Qed.

(** Resolving a result at most records an error. *)
Lemma resolve_yields_p g r opts att prev p :
  yields (λ x, (∀ v, hops x.1 v = hops p v) ∧ inputs x.1 = inputs p)
    (resolveParallelResultEnvelope g r opts att prev p).
Proof.
  unfold resolveParallelResultEnvelope. repeat case_match; try by apply yields_ret.
  apply yields_bind_any. intros t. by apply yields_ret.
Qed.

Lemma select_log g node env rs opts id s s' r : numbered s →
  (x ← determineSuccessors g node env rs opts; log_node id x.1 ;; mret x) s = (s', r) →
  numbered s' ∧
  match r with
  | Some x => may_select g node x.1 ∧ rt_log s' = rt_log s ++ [(id, x.1)]
  | None => rt_log s' = rt_log s
  end.
Proof.
  intros Hs. unfold mbind, gom_bind.
  destruct (determineSuccessors g node env rs opts s) as [s1 [x|]] eqn:E;
    destruct (emits_run _ _ _ _ (determineSuccessors_emits g node env rs opts) Hs E) as [[] L1];
    intros [= <- <-]; [|by split].
  split; [by split|]. simpl. rewrite L1. split; [|done].
  apply determineSuccessors_yields in E. destruct env as [e|]; [left; eauto|right; naive_solver].
Qed.

Lemma handle_result_refines g opts rs r wk res ws n f cx p h s :
  numbered s → (0 < n)%Z →
  let y' := handle_result g opts rs r (mkSys s h p wk res ws (n - 1) f cx CSelect) in
  numbered (y_rt y') ∧
  astep g opts (abs (mkSys s h p wk (r :: res) ws n f cx CSelect)) (abs y').
Proof.
  intros Hs Hn. unfold handle_result. cbv zeta.
  destruct (incrementHop (nr_nodeID r) p) as [p1 [att prev]] eqn:Hinc.
  assert (∀ v, hops p1 v = if decide (v = nr_nodeID r) then (hops p (nr_nodeID r) + 1)%Z
                           else hops p v) as Hh1.
  { unfold incrementHop in Hinc. simplify_eq. intros v. by rewrite hops_put. }
  assert (inputs p1 = inputs p) as Hi1 by (unfold incrementHop in Hinc; by simplify_eq).
  simpl y_ps. rewrite Hinc. simpl y_rt.
  destruct (resolveParallelResultEnvelope g r opts att prev p1 s) as [s1 [[p2 x]|]] eqn:E;
    destruct (emits_run _ _ _ _ (resolve_emits_p g r opts att prev p1) Hs E) as [Hs1 L1];
    [|split; [done|]; unfold abs; simpl; rewrite L1; by apply A_recv_panic].
  destruct (resolve_yields_p g r opts att prev p1 _ _ _ E) as [Hh2 Hi2]. simpl in Hh2, Hi2.
  destruct x as [renv|err];
    [|split; [done|]; unfold abs; simpl; rewrite L1, Hi2, Hi1; by apply A_recv_stop].
  assert (∀ v, hops (markNodeCompleted (nr_nodeID r) renv p2) v =
    if decide (v = nr_nodeID r) then (hops p (nr_nodeID r) + 1)%Z else hops p v) as Hh3.
  { intros v. unfold markNodeCompleted. rewrite hops_put. simpl.
    fold (hops p2 (nr_nodeID r)). rewrite !Hh2, !Hh1. by repeat case_decide. }
  assert (inputs (markNodeCompleted (nr_nodeID r) renv p2) = inputs p) as Hi3
    by (transitivity (inputs p2); [done|congruence]).
  destruct (NodeByID g (nr_nodeID r)) as [node|] eqn:Hnode;
    [|split; [done|]; unfold abs; simpl; rewrite L1, Hi3; by apply A_recv_unknown].
  simpl y_heap.
  destruct ((x ← determineSuccessors g node (load h renv) rs opts;
             log_node (nr_nodeID r) x.1 ;; mret x) s1) as [s2 x2] eqn:E2.
  apply select_log in E2 as [Hs2 Hx2]; [|done]. destruct x2 as [[succs env']|].
  - destruct Hx2 as [Hsel L2]. split; [done|]. unfold abs. simpl. rewrite L2, L1, Hi3.
    eapply A_recv; [done..|]. by apply bump_if.
  - split; [done|]. unfold abs. simpl. rewrite Hx2, L1, Hi3. by apply A_recv_panic.
Qed.

Lemma hops_touch p v u : hops (put_state v (state_of p v) p) u = hops p u.
Proof. rewrite hops_put. case_decide; by subst. Qed.

Lemma hops_reset u env p : bump u 0%Z (hops p) (hops (resetNode u env p)).
Proof. apply bump_if. intros v. apply hops_put. Qed.

Lemma inputs_bump u env n p : bump u (S (inputs p u)) (inputs p) (inputs (addMergeInput u env n p).1).
Proof. apply bump_if. intros v. apply inputs_add. Qed.

Lemma numbered_world (s : RT W) (w : W) :
  numbered s → numbered (mkRT w (rt_seq s) (rt_ch s) (rt_pub s) (rt_log s)).
Proof. by intros []. Qed.

Lemma merge_refines g opts v node mv env rest k wk res ws n f cx p h s :
  numbered s → NodeByID g v = Some node → as_merge node = Some mv →
  let y := mkSys s h p wk res ws n f cx (CSched env (v :: rest) k) in
  let y' := scheduleMergeSuccessor g opts v node mv env rest k y in
  numbered (y_rt y') ∧ astep g opts (abs y) (abs y').
Proof.
  intros Hs Hn Hmv y y'. subst y y'. unfold scheduleMergeSuccessor. simpl y_ps. cbv zeta.
  assert (merge_at g v mv) as Hat by (by exists node).
  pose proof (inputs_bump v env (expected_inputs g v mv) p) as Hi.
  pose proof (length_app (merge_inputs p v) [env]) as Hlen. simpl in Hlen.
  destruct (addMergeInput v env (expected_inputs g v mv) p) as [p1 ready] eqn:E.
  assert (hops p1 = hops p) as Hh by (unfold addMergeInput in E; by simplify_eq).
  unfold addMergeInput in E. apply pair_equal_spec in E as [_ E]. simpl in Hi.
  assert (length (merge_inputs p v ++ [env]) = S (inputs p v)) as Hl
    by (unfold inputs; lia). rewrite Hl in E.
  destruct (_ <? _)%Z eqn:Elt; [apply Z.ltb_lt in Elt|apply Z.ltb_ge in Elt]; subst ready.
  { split; [done|]. unfold abs. simpl. rewrite Hh. by eapply A_wait. }
  assert (∀ (s' : RT W) h' q merged, numbered s' → rt_log s' = rt_log s → hops q = hops p1 →
    inputs q = inputs p1 →
    astep g opts (abs (mkSys s h p wk res ws n f cx (CSched env (v :: rest) k)))
      (abs (mkSys s' h' (resetNode v merged q) wk res ws n f cx
             (CSend (mkWork v merged) env rest k)))) as Hsend.
  { intros s' h' q merged Hs' Hlog Hq Hq'. unfold abs. simpl. rewrite Hlog.
    eapply A_merge; [done| |by rewrite <- Hh, <- Hq; apply hops_reset|done].
    change (inputs (resetNode v merged q)) with (inputs q). by rewrite Hq'. }
  destruct (mv_MergeInputs mv) as [merge|]; [|split; [done|]; by apply Hsend].
  simpl. destruct (merge _ _ _) as [[w h'] [merged|err]].
  { split; [by apply numbered_world|]. apply Hsend; try done. by apply numbered_world. }
  destruct (ContinueOnError opts); simpl;
    [|split; [by apply numbered_world|]; unfold abs; simpl; apply A_merge_stop].
  destruct (clock opts _) as [s1 [t|]] eqn:Ec;
    destruct (emits_run _ _ _ _ (clock_emits opts) (numbered_world s w Hs) Ec) as [Hs1 L1];
    (split; [done|]); [by apply Hsend|]. unfold abs. simpl. rewrite L1. apply A_merge_panic.
Qed.

Lemma sched_one_refines g opts v env rest k wk res ws n f cx p h s :
  numbered s →
  let y := mkSys s h p wk res ws n f cx (CSched env (v :: rest) k) in
  let y' := sched_one g opts v env rest k y in
  numbered (y_rt y') ∧ astep g opts (abs y) (abs y').
Proof.
  intros Hs y y'. subst y y'. unfold sched_one.
  destruct (NodeByID g v) as [node|] eqn:Hn.
  2: { split; [done|]. unfold abs. simpl. apply A_skip; [by left|done]. }
  destruct (as_merge node) as [mv|] eqn:Hmv; [by apply merge_refines|].
  assert (plain_at g v) as Hp by (by exists node).
  unfold canScheduleSuccessor. cbv zeta. simpl y_ps.
  destruct (ns_hopCount (state_of p v) <? MaxHops opts)%Z eqn:Elt.
  - destruct (alloc _ _) as [h' benv]. split; [done|]. unfold abs. simpl.
    apply A_branch; [done|]. apply hops_touch.
  - split; [done|]. unfold abs. simpl. apply A_skip; [|apply hops_touch].
    right. split; [done|]. apply Z.ltb_ge in Elt. done.
Qed.

Lemma finish_work_refines g opts rs i it y :
  numbered (y_rt y) → y_coord y ≠ CPanic → y_workers y !! i = Some (Busy it) →
  let y' := finish_work g opts rs i it y in
  numbered (y_rt y') ∧ astep g opts (abs y) (abs y').
Proof.
  intros Hs Hc Hi y'. subst y'. destruct y as [s h p wk res ws n f cx c]. simpl in *.
  assert (abs_coord c ≠ APanic) as Hc' by (by destruct c).
  assert ((abs_worker <$> ws) !! i = Some (ABusy (wi_nodeID it))) as Hi'
    by (by rewrite list_lookup_fmap, Hi).
  assert (∀ (s' : RT W) h' r, numbered s' → rt_log s' = rt_log s → nr_nodeID r = wi_nodeID it →
    let y' := mkSys s' h' p wk res (<[i := Sending r]> ws) n f cx c in
    numbered (y_rt y') ∧ astep g opts (abs (mkSys s h p wk res ws n f cx c)) (abs y')) as Hsend.
  { intros s' h' r Hs' Hl Hr. split; [done|]. unfold abs. simpl.
    rewrite Hl, list_fmap_insert. simpl. rewrite Hr. by apply A_finish. }
  unfold finish_work. destruct (NodeByID g (wi_nodeID it)) as [node|]; [|by apply Hsend].
  simpl y_heap. simpl y_rt.
  destruct (run_node _ _ _ _ _) as [s1 [[arg r]|]] eqn:E;
    destruct (emits_run _ _ _ _ (run_node_emits node _ opts rs) Hs E) as [Hs1 L1].
  - destruct r; by apply Hsend.
  - split; [done|]. unfold abs. simpl. rewrite L1. by eapply A_crash.
Qed.

Lemma forallb_exited ws : forallb is_exited ws = true →
  Forall (λ w, w = AExited) (abs_worker <$> ws).
Proof.
  rewrite forallb_forall, Forall_fmap, Forall_forall. intros Hall w Hw%list_elem_of_In%Hall.
  by destruct w.
Qed.

(** A worker's state replaced, with what it does to the channels. *)
Lemma worker_refines g opts i w w' wk' res' y :
  numbered (y_rt y) → y_coord y ≠ CPanic → y_workers y !! i = Some w →
  match w, w' with
  | Idle, Busy it => y_work y = it :: wk' ∧ res' = y_results y
  | Sending r, Idle => wk' = y_work y ∧ res' = y_results y ++ [r] ∧
      length (y_results y) < chan_cap opts
  | Idle, Exited => wk' = y_work y ∧ res' = y_results y ∧
      stopping y || bool_decide (is_Some (y_ctx y)) = true
  | _, _ => False
  end →
  let y' := set_worker i w' (set_results res' (set_work wk' y)) in
  numbered (y_rt y') ∧ astep g opts (abs y) (abs y').
Proof.
  intros Hs Hc Hi Hw y'. split; [done|]. subst y'.
  destruct y as [s h p wk res ws n f cx c]. simpl in *.
  assert (abs_coord c ≠ APanic) as Hc' by (by destruct c).
  assert ((abs_worker <$> ws) !! i = Some (abs_worker w)) as Hi'
    by (by rewrite list_lookup_fmap, Hi).
  unfold abs. simpl. rewrite list_fmap_insert.
  destruct w, w'; try done; simpl in *.
  - destruct Hw as [-> ->]. by apply A_take.
  - destruct Hw as (-> & -> & Hst). apply A_exit; try done. by destruct c.
  - destruct Hw as (-> & -> & Hlt). rewrite fmap_app. eapply A_put; [done..|].
    by rewrite length_fmap.
Qed.

Lemma ctx_refines g opts err y : y_coord y ≠ CPanic → y_ctx y = None →
  astep g opts (abs y) (abs (set_ctx (Some err) y)).
Proof.
  intros Hc Hx. destruct y as [s h p wk res ws n f cx c]. simpl in *. subst cx.
  unfold abs. simpl. apply A_ctx. by destruct c.
Qed.

(** What a move tests and does. *)
Lemma pexec_inv g opts rs m y y' : pexec g opts rs m y = Some y' →
  y_coord y ≠ CPanic ∧
  match m with
  | MRecv => ∃ r res, y_coord y = CSelect ∧ y_results y = r :: res ∧ (0 < y_pending y)%Z ∧
      y' = handle_result g opts rs r (set_pending (y_pending y - 1) (set_results res y))
  | MCancel => ∃ c, y_coord y = CSelect ∧ y_ctx y = Some c ∧ (0 < y_pending y)%Z ∧
      y' = set_coord (CStop (Some (wrapf ErrRunCanceled [PE c]))) y
  | MDone => y_coord y = CSelect ∧ (y_pending y <= 0)%Z ∧ y' = set_coord (CStop None) y
  | MSched => ∃ env v rest k, y_coord y = CSched env (v :: rest) k ∧
      y' = sched_one g opts v env rest k y
  | MSchedEnd => ∃ env k, y_coord y = CSched env [] k ∧
      y' = set_coord CSelect (set_final env (set_pending (y_pending y + k) y))
  | MSend => ∃ it env rest k, y_coord y = CSend it env rest k ∧
      length (y_work y) < chan_cap opts ∧
      y' = set_coord (CSched env rest (k + 1)) (set_work (y_work y ++ [it]) y)
  | MReturn => ∃ err, y_coord y = CStop err ∧ forallb is_exited (y_workers y) = true ∧
      y' = finish_run err y
  | MTake i => ∃ it rest, y_workers y !! i = Some Idle ∧ y_work y = it :: rest ∧
      y' = set_worker i (Busy it) (set_work rest y)
  | MFinish i => ∃ it, y_workers y !! i = Some (Busy it) ∧ y' = finish_work g opts rs i it y
  | MPut i => ∃ r, y_workers y !! i = Some (Sending r) ∧ length (y_results y) < chan_cap opts ∧
      y' = set_worker i Idle (set_results (y_results y ++ [r]) y)
  | MExit i => y_workers y !! i = Some Idle ∧
      stopping y || bool_decide (is_Some (y_ctx y)) = true ∧ y' = set_worker i Exited y
  | MCtx err => y_ctx y = None ∧ y' = set_ctx (Some err) y
  end.
Proof.
  intros E. unfold pexec in E. split; [intros Hc; rewrite Hc in E; by destruct m|].
  destruct m as [| | | | | | |i|i|i|i|err].
  all: try (destruct (y_coord y) as [|env [|v rest] k|it env rest k|err'|l err'|]; try done; []).
  - destruct (y_results y); [done|]. destruct (0 <? y_pending y)%Z eqn:En; naive_solver (apply Z.ltb_lt; done).
  - destruct (y_ctx y); [|done]. destruct (0 <? y_pending y)%Z eqn:En; naive_solver (apply Z.ltb_lt; done).
  - destruct (0 <? y_pending y)%Z eqn:En; [done|]. naive_solver (apply Z.ltb_ge; done).
  - naive_solver.
  - naive_solver.
  - case_bool_decide; naive_solver.
  - destruct (forallb _ _) eqn:Ex; naive_solver.
  - destruct (y_coord y); repeat case_match; naive_solver.
  - destruct (y_coord y); repeat case_match; naive_solver.
  - destruct (y_coord y); repeat case_match; try done; case_bool_decide; naive_solver.
  - destruct (y_coord y); repeat case_match; naive_solver.
  - destruct (y_coord y); repeat case_match; naive_solver.
Qed.

Lemma pexec_refines g opts rs m y y' :
  numbered (y_rt y) → pexec g opts rs m y = Some y' →
  numbered (y_rt y') ∧ astep g opts (abs y) (abs y').
Proof.
  intros Hs [Hc E]%pexec_inv. destruct m as [| | | | | | |i|i|i|i|err].
  - destruct E as (r & res & Ec & Er & Hn & ->). destruct y. simpl in *. subst.
    by apply handle_result_refines.
  - destruct E as (c & Ec & Ex & Hn & ->). split; [done|]. unfold abs. simpl. rewrite Ec, Ex.
    by apply A_cancel.
  - destruct E as (Ec & Hn & ->). split; [done|]. unfold abs. simpl. rewrite Ec. by apply A_done.
  - destruct E as (env & v & rest & k & Ec & ->). destruct y. simpl in *. subst.
    by apply sched_one_refines.
  - destruct E as (env & k & Ec & ->). split; [done|]. unfold abs. simpl. rewrite Ec. apply A_end.
  - destruct E as (it & env & rest & k & Ec & Hlt & ->). split; [done|]. unfold abs. simpl.
    rewrite Ec, fmap_app. apply A_send. by rewrite length_fmap.
  - destruct E as (err & Ec & Hx%forallb_exited & ->). unfold finish_run.
    destruct err; (split; [done|]); unfold abs; simpl; rewrite Ec; by apply A_return.
  - destruct E as (it & rest & Hi & Hw & ->).
    by apply (worker_refines g opts i Idle (Busy it) rest (y_results y) y Hs Hc Hi).
  - destruct E as (it & Hi & ->). by apply finish_work_refines.
  - destruct E as (r & Hi & Hlt & ->).
    by apply (worker_refines g opts i (Sending r) Idle (y_work y) (y_results y ++ [r]) y Hs Hc Hi).
  - destruct E as (Hi & Hst & ->).
    by apply (worker_refines g opts i Idle Exited (y_work y) (y_results y) y Hs Hc Hi).
  - destruct E as [Hx ->]. split; [done|]. by apply ctx_refines.
Qed.
End Refinement.

(** ** Weights of an acyclic graph *)

(** The moves that an item of [u] can cause, and the maximal paths from [u]; the
    fuel is the height of [u]. *)
Fixpoint move_weight {W G} `{GraphIface G (Node W)} (g : G) (fuel : nat) (u : string) : nat :=
  match fuel with
  | 0 => 0
  | S f => 5 + sum_list (map (λ v, 2 + move_weight g f v) (Successors g u))
  end.

Fixpoint paths {W G} `{GraphIface G (Node W)} (g : G) (fuel : nat) (u : string) : nat :=
  match fuel with
  | 0 => 1
  | S f => Nat.max 1 (sum_list (map (paths g f) (Successors g u)))
  end.

Lemma sum_map_ext {A} (f f' : A → nat) l : (∀ x, x ∈ l → f x = f' x) →
  sum_list (map f l) = sum_list (map f' l).
Proof.
  intros Hf. f_equal. apply map_ext_in. intros x Hx. apply Hf. by apply list_elem_of_In.
Qed.

Section Weights.
Context {W G : Type} `{GraphIface G (Node W)}.
Variables (g : G) (rank : string → nat).
Hypothesis Hrank : ∀ u v, v ∈ Successors g u → rank v < rank u.

Lemma move_weight_stable n : ∀ m u, rank u < n → rank u < m →
  move_weight g n u = move_weight g m u.
Proof.
  induction n as [|n IH]; intros [|m] u Hn Hm; try lia. simpl. do 5 f_equal.
  apply sum_map_ext. intros v Hv%Hrank. by rewrite (IH m v) by lia.
Qed.

Lemma paths_stable n : ∀ m u, rank u < n → rank u < m → paths g n u = paths g m u.
Proof.
  induction n as [|n IH]; intros [|m] u Hn Hm; try lia. simpl paths. f_equal.
  apply sum_map_ext. intros v Hv%Hrank. by rewrite (IH m v) by lia.
Qed.

Lemma move_weight_rank u :
  5 + sum_list (map (λ v, 2 + move_weight g (S (rank v)) v) (Successors g u)) ≤
  move_weight g (S (rank u)) u.
Proof.
  change (move_weight g (S (rank u)) u) with
    (5 + sum_list (map (λ v, 2 + move_weight g (rank u) v) (Successors g u))).
  apply Nat.eq_le_incl. f_equal. apply sum_map_ext.
  intros v Hv%Hrank. by rewrite (move_weight_stable (rank u) (S (rank v)) v) by lia.
Qed.

Lemma paths_rank u : 1 ≤ paths g (S (rank u)) u ∧
  sum_list (map (λ v, paths g (S (rank v)) v) (Successors g u)) ≤ paths g (S (rank u)) u.
Proof.
  change (paths g (S (rank u)) u) with
    (Nat.max 1 (sum_list (map (paths g (rank u)) (Successors g u)))). split; [lia|].
  rewrite (sum_map_ext _ (paths g (rank u))); [lia|].
  intros v Hv%Hrank. by rewrite (paths_stable (rank u) (S (rank v)) v) by lia.
Qed.
End Weights.

(** ** Schedules *)

Section Schedules.
Context {W G : Type} `{World W} `{GraphIface G (Node W)} `{!MergeNodes W}.
Implicit Types (y : psys W) (opts : RunOptions W) (g : G).

Lemma prun_app g opts rs ms ms' y :
  prun g opts rs (ms ++ ms') y = prun g opts rs ms y ≫= prun g opts rs ms'.
Proof.
  revert y. induction ms as [|m ms IH]; intros y; [done|]. simpl.
  destruct (pexec g opts rs m y); simpl; [apply IH|done].
Qed.

(** What every transition of the skeleton preserves holds along a schedule. *)
Lemma prun_ind g opts rs (P : actl → Prop) ms y y' :
  (∀ a a', P a → astep g opts a a' → P a') → numbered (y_rt y) → P (abs y) →
  prun g opts rs ms y = Some y' → numbered (y_rt y') ∧ P (abs y').
Proof.
  intros HP. revert y. induction ms as [|m ms IH]; simpl; intros y Hs Hy E; [by simplify_eq|].
  destruct (pexec g opts rs m y) as [y1|] eqn:E1; [|done]. simpl in E.
  apply pexec_refines in E1 as [Hs1 Hstep]; [|done]. by eapply IH; [..|exact E]; eauto.
Qed.

Lemma prun_measure g opts rs (f : actl → nat) ms y y' :
  (∀ a a', astep g opts a a' → f a' < f a) → numbered (y_rt y) →
  prun g opts rs ms y = Some y' → length ms + f (abs y') ≤ f (abs y).
Proof.
  intros Hf. revert y. induction ms as [|m ms IH]; simpl; intros y Hs E; [by simplify_eq|].
  destruct (pexec g opts rs m y) as [y1|] eqn:E1; [|done]. simpl in E.
  apply pexec_refines in E1 as [Hs1 Hstep%Hf]; [|done]. specialize (IH y1 Hs1 E). lia.
Qed.

(** A worker leaves only when told to. *)
Definition exit_inv (a : actl) : Prop :=
  AExited ∈ a_workers a → a_stopping (a_coord a) = true ∨ a_ctx a = true ∨ a_coord a = APanic.

Lemma exit_inv_step g opts a a' : exit_inv a → astep g opts a a' → exit_inv a'.
Proof.
  assert (∀ (ws : list aworker) j w, w ≠ AExited → AExited ∈ <[j := w]> ws → AExited ∈ ws) as Hins.
  { intros ws j w Hw [k Hk]%list_elem_of_lookup. apply list_lookup_insert_Some in Hk.
    destruct Hk as [(-> & -> & _)|[_ Hk]]; [done|]. by eapply list_elem_of_lookup_2. }
  unfold exit_inv. intros Hinv Hstep. destruct Hstep; simpl in *; intros Hin; auto.
  all: try (apply Hins in Hin; [|done]). all: try by destruct (Hinv Hin) as [?|[?|?]]; auto.
  all: match goal with Hb : _ || _ = true |- _ => apply orb_prop in Hb as [?|?]; auto end.
Qed.
End Schedules.

Section Properties.
Context {W G : Type} `{World W} `{GraphIface G (Node W)} `{!MergeNodes W} {wf : G → Prop}
  `{!GraphLaws G (Node W) wf}.
Implicit Types (y : psys W).
Variables (g : G) (opts : RunOptions W) (rs : Z) (env : Envelope) (s : RT W).
Hypothesis Hwf : wf g.
Hypothesis Hmax : (0 < MaxHops opts)%Z.
Hypothesis Hconc : (1 < Concurrency opts)%Z.
Hypothesis Hentry : is_Some (NodeByID g (Entry g)).
Hypothesis Hs : numbered s.
Hypothesis Hlog : rt_log s = [].

Lemma active_idle n : active (replicate n AIdle) = [].
Proof. by induction n. Qed.

Lemma idle_cost T n : sum_list (map (worker_cost T) (replicate n AIdle)) = n.
Proof. induction n; simpl in *; lia. Qed.

Lemma pinit_inv : inv g opts (abs (pinit g opts env s)).
Proof.
  assert (2 ≤ chan_cap opts) as Hcap by (unfold chan_cap; lia).
  unfold abs, pinit. simpl. rewrite fmap_replicate. simpl. split; simpl.
  - split; simpl; try done; rewrite ?length_replicate; try lia.
    intros _. unfold in_flight. simpl. by rewrite active_idle.
  - rewrite Hlog. intros pre u next post Heq. by destruct pre.
  - intros _. unfold outstanding. simpl. rewrite active_idle, Hlog. simpl.
    split; try (by intros v (? & ? & Hin & _); set_solver); try set_solver; try done.
    + intros v Hv. unfold hops, state_of, newParallelState in Hv. simpl in Hv.
      destruct (decide (v = Entry g)) as [->|Hne];
        [rewrite lookup_singleton_eq in Hv|rewrite lookup_singleton_ne in Hv by done]; simpl in Hv; lia.
Qed.

Lemma prun_inv ms y : prun g opts rs ms (pinit g opts env s) = Some y →
  numbered (y_rt y) ∧ inv g opts (abs y) ∧ exit_inv (abs y).
Proof.
  apply (prun_ind g opts rs (λ a, inv g opts a ∧ exit_inv a)); [|done|split; [apply pinit_inv|]].
  - intros a a' [] ?. split; [by eapply inv_step|by eapply exit_inv_step].
  - unfold exit_inv, pinit. simpl. rewrite fmap_replicate. intros Hin.
    by apply elem_of_replicate in Hin as [? _].
Qed.

Variable rank : string → nat.
Hypothesis Hrank : ∀ u v, v ∈ Successors g u → rank v < rank u.

Lemma prun_bound ms y : prun g opts rs ms (pinit g opts env s) = Some y →
  length ms ≤ 4 + Z.to_nat (Concurrency opts) + move_weight g (S (rank (Entry g))) (Entry g).
Proof.
  set (T u := move_weight g (S (rank u)) u). intros E.
  apply (prun_measure g opts rs (measure T)) in E; [|by apply measure_step, (move_weight_rank g rank)|done].
  unfold measure at 2, pinit, abs in E. simpl in E. rewrite fmap_replicate in E. simpl in E.
  rewrite idle_cost in E.
  simpl. lia.
Qed.

Lemma prun_load ms y : prun g opts rs ms (pinit g opts env s) = Some y →
  length (outstanding (abs y)) ≤ paths g (S (rank (Entry g))) (Entry g).
Proof.
  set (P u := paths g (S (rank u)) u). intros E.
  assert (∀ u, 1 ≤ P u ∧ sum_list (map P (Successors g u)) ≤ P u) as HP
    by apply (paths_rank g rank Hrank).
  apply (prun_ind g opts rs (λ a, path_load P a ≤ P (Entry g))) in E as [_ E]; [| |done|].
  - etrans; [by apply (path_load_outstanding g P)|done].
  - intros a a' Ha Hstep. etrans; [by eapply path_load_step|done].
  - unfold path_load, outstanding, abs, pinit. simpl. rewrite fmap_replicate. simpl.
    rewrite active_idle. simpl. lia.
Qed.

(** *** Progress *)

Definition final y : Prop :=
  match y_coord y with CReturn _ _ | CPanic => True | _ => False end.

(** A move of the system, not of the caller. *)
Definition enabled y : Prop :=
  ∃ m y', (∀ err, m ≠ MCtx err) ∧ pexec g opts rs m y = Some y'.

Lemma enabled_intro m y : (∀ err, m ≠ MCtx err) → is_Some (pexec g opts rs m y) → enabled y.
Proof. intros Hm [y' E]. by exists m, y'. Qed.

(** The fields of the skeleton, as the moves test them. *)
Lemma abs_lengths y :
  length (outstanding (abs y)) =
  length (y_work y) + length (active (abs_worker <$> y_workers y)) + length (y_results y) +
  length (offered (abs_coord (y_coord y))).
Proof. unfold outstanding, abs. simpl. rewrite !length_app, !length_fmap. lia. Qed.

(** A worker with an item can move when the result channel has room. *)
Lemma worker_enabled y i w : y_coord y ≠ CPanic → y_workers y !! i = Some w →
  match w with
  | Busy _ => True
  | Sending _ => length (y_results y) < chan_cap opts
  | Idle => stopping y || bool_decide (is_Some (y_ctx y)) = true ∨ y_work y ≠ []
  | Exited => False
  end → enabled y.
Proof.
  intros Hc Hi Hw. destruct w as [|it|r|]; [|apply (enabled_intro (MFinish i))
    |apply (enabled_intro (MPut i))|done]; try done.
  - destruct Hw as [Hw|Hw]; [apply (enabled_intro (MExit i))|apply (enabled_intro (MTake i))];
      try done; unfold pexec; rewrite Hi.
    + rewrite Hw. destruct (y_coord y); eauto; done.
    + destruct (y_work y); [done|]. destruct (y_coord y); eauto; done.
  - unfold pexec. rewrite Hi. destruct (y_coord y); eauto; done.
  - unfold pexec. rewrite Hi, bool_decide_eq_true_2 by done. destruct (y_coord y); eauto; done.
Qed.

Lemma active_worker (ws : list worker) : active (abs_worker <$> ws) ≠ [] →
  ∃ i w, ws !! i = Some w ∧ match w with Busy _ | Sending _ => True | _ => False end.
Proof.
  induction ws as [|w ws IH]; [done|]. intros Hne. destruct w as [|it|r|].
  - destruct IH as (i & w & Hi & Hw); [done|]. by exists (S i), w.
  - by exists 0, (Busy it).
  - by exists 0, (Sending r).
  - destruct IH as (i & w & Hi & Hw); [done|]. by exists (S i), w.
Qed.

Lemma exited_or (ws : list worker) :
  forallb is_exited ws = true ∨ ∃ i w, ws !! i = Some w ∧ w ≠ Exited.
Proof.
  induction ws as [|w ws IH]; [by left|]. destruct (is_exited w) eqn:E.
  - destruct w; try done. destruct IH as [IH|(i & w & Hi & Hw)]; [by left|right].
    by exists (S i), w.
  - right. exists 0, w. split; [done|]. by intros ->.
Qed.

(** Taking one item more than the channel holds is the only way to block. *)
Lemma parallel_enabled ms y : paths g (S (rank (Entry g))) (Entry g) ≤ chan_cap opts →
  prun g opts rs ms (pinit g opts env s) = Some y → ¬ final y → enabled y.
Proof.
  intros Hcap E Hfin. pose proof (prun_load ms y E) as Hload. rewrite abs_lengths in Hload.
  destruct (prun_inv ms y E) as (_ & [Hcount _ _] & Hexit).
  destruct Hcount as [Hw _ _ Hlive _]. rewrite in_flight_length in Hlive. simpl in Hw, Hlive.
  rewrite !length_fmap in *. unfold final in Hfin.
  destruct (y_coord y) as [|e [|v rest] k|it e rest k|err|l err|] eqn:Ec; try done;
    assert (y_coord y ≠ CPanic) as Hnp by congruence; simpl in *.
  - destruct (0 <? y_pending y)%Z eqn:Ep;
      [|apply (enabled_intro MDone); [done|]; unfold pexec; rewrite Ec, Ep; eauto].
    destruct (y_results y) as [|r res] eqn:Er;
      [|apply (enabled_intro MRecv); [done|]; unfold pexec; rewrite Ec, Er, Ep; eauto].
    apply Z.ltb_lt in Ep. specialize (Hlive eq_refl).
    destruct (active (abs_worker <$> y_workers y)) as [|u us] eqn:Ea.
    + assert (y_work y ≠ []) as Hne by (intros Hn; rewrite Hn in Hlive; simpl in Hlive; lia).
      destruct (exited_or (y_workers y)) as [Hall|(i & w & Hi & Hx)].
      * destruct (y_workers y) as [|w ws] eqn:Ews; [simpl in Hw; lia|].
        simpl in Hall. apply andb_prop in Hall as [Hx _]. destruct w; try done.
        destruct Hexit as [Hst|[Hst|Hst]]; unfold abs in *; simpl in *; rewrite ?Ec, ?Ews in *;
          simpl in *; try done; [by left|].
        apply bool_decide_eq_true in Hst as [c Hc].
        apply (enabled_intro MCancel); [done|]. unfold pexec. rewrite Ec, Hc.
        rewrite (proj2 (Z.ltb_lt 0 (y_pending y))) by done. eauto.
      * eapply (worker_enabled y i w); [done..|]. destruct w as [|it|r|]; try done; [by right|].
        rewrite Er. simpl. unfold chan_cap. lia.
    + destruct (active_worker (y_workers y)) as (i & w & Hi & Hact); [by rewrite Ea|].
      eapply (worker_enabled y i w); [done..|]. destruct w; try done.
      rewrite Er. simpl. unfold chan_cap. lia.
  - apply (enabled_intro MSchedEnd); [done|]. unfold pexec. rewrite Ec. eauto.
  - apply (enabled_intro MSched); [done|]. unfold pexec. rewrite Ec. eauto.
  - apply (enabled_intro MSend); [done|]. unfold pexec. rewrite Ec, bool_decide_eq_true_2 by lia. eauto.
  - destruct (exited_or (y_workers y)) as [Hall|(i & w & Hi & Hx)].
    { apply (enabled_intro MReturn); [done|]. unfold pexec. rewrite Ec, Hall. eauto. }
    eapply (worker_enabled y i w); [done..|].
    assert (stopping y = true) as Hst by (unfold stopping; by rewrite Ec).
    destruct w as [|it|r|]; try done; [left; by rewrite Hst|].
    destruct (active_insert (abs_worker <$> y_workers y) i (ASending (nr_nodeID r)))
      as (k & Hk & _); [by rewrite list_lookup_fmap, Hi|].
    rewrite Hk in Hload. simpl in Hload. lia.
Qed.
End Properties.

(** ** Absence of panics *)

Definition ptr_ok (h : heap) (p : option nat) : Prop := is_Some (load h p).

Lemma ptr_ok_lt h p : ptr_ok h p ↔ ∃ l, p = Some l ∧ l < length h.
Proof.
  unfold ptr_ok, load. destruct p as [l|]; simpl; [|by split; [intros []|intros (?&?&?)]].
  rewrite lookup_lt_is_Some. naive_solver.
Qed.

Lemma ptr_ok_mono h h' p : length h ≤ length h' → ptr_ok h p → ptr_ok h' p.
Proof. rewrite !ptr_ok_lt. intros Hle (l & -> & Hl). exists l. split; [done|lia]. Qed.

Lemma length_store p e h : length (store p e h) = length h.
Proof. destruct p, e; simpl; by rewrite ?length_insert. Qed.

(** A result is an error or a live envelope. *)
Definition result_ok (h : heap) (r : nodeResult) : Prop :=
  nr_err r = None → ptr_ok h (nr_envelope r).

Definition worker_ok (h : heap) (w : worker) : Prop :=
  match w with
  | Busy it => ptr_ok h (wi_envelope it)
  | Sending r => result_ok h r
  | _ => True
  end.

Definition coord_ok (h : heap) (c : coord) : Prop :=
  match c with
  | CSched env _ _ => ptr_ok h env
  | CSend it env _ _ => ptr_ok h (wi_envelope it) ∧ ptr_ok h env
  | CPanic => False
  | _ => True
  end.

Record heap_inv {W} (y : psys W) : Prop := {
  hi_work : Forall (λ it, ptr_ok (y_heap y) (wi_envelope it)) (y_work y);
  hi_results : Forall (result_ok (y_heap y)) (y_results y);
  hi_workers : Forall (worker_ok (y_heap y)) (y_workers y);
  hi_inputs : ∀ u, Forall (ptr_ok (y_heap y)) (merge_inputs (y_ps y) u);
  hi_coord : coord_ok (y_heap y) (y_coord y)
}.

Section NoPanic.
Context {W G : Type} `{World W} `{GraphIface G (Node W)} `{!MergeNodes W}.
Implicit Types (y : psys W).
Variables (g : G) (opts : RunOptions W) (rs : Z).
Hypothesis Hcont : ContinueOnError opts = false.
Hypothesis Hnodes : ∀ v node, NodeByID g v = Some node → node_ok node.

(** A merge of live envelopes frees none and returns a live one, or an error. *)
Definition merge_ok (mv : merge_view W) : Prop :=
  ∀ f, mv_MergeInputs mv = Some f → ∀ ins h w, Forall (ptr_ok h) ins →
    let '(_, h', res) := f ins h w in
    length h ≤ length h' ∧ match res with inl m => ptr_ok h' m | inr _ => True end.

Hypothesis Hmerges : ∀ v node mv,
  NodeByID g v = Some node → as_merge node = Some mv → merge_ok mv.

Lemma result_ok_mono h h' r : length h ≤ length h' → result_ok h r → result_ok h' r.
Proof. intros Hle Hr Hn. by eapply ptr_ok_mono, Hr. Qed.

Lemma worker_ok_mono h h' w : length h ≤ length h' → worker_ok h w → worker_ok h' w.
Proof. intros Hle. destruct w; simpl; [done|by apply ptr_ok_mono|by apply result_ok_mono|done]. Qed.

(** Growing the heap keeps what the channels and the workers hold. *)
Lemma heap_inv_grow y y' :
  heap_inv y → length (y_heap y) ≤ length (y_heap y') →
  y_work y' = y_work y → y_results y' = y_results y → y_workers y' = y_workers y →
  ps_mergeInputs (y_ps y') = ps_mergeInputs (y_ps y) → coord_ok (y_heap y') (y_coord y') →
  heap_inv y'.
Proof.
  intros [H1 H2 H3 H4 _] Hle Hw Hr Hws Hp Hc. split; rewrite ?Hw, ?Hr, ?Hws; try done.
  - eapply Forall_impl; [done|]. intros it. by apply ptr_ok_mono.
  - eapply Forall_impl; [done|]. intros r. by apply result_ok_mono.
  - eapply Forall_impl; [done|]. intros w. by apply worker_ok_mono.
  - intros u. unfold merge_inputs. rewrite Hp. eapply Forall_impl; [apply H4|].
    intros q. by apply ptr_ok_mono.
Qed.

Lemma handle_result_ok r y :
  heap_inv y → result_ok (y_heap y) r → heap_inv (handle_result g opts rs r y).
Proof.
  intros Hy Hr. unfold handle_result.
  destruct (incrementHop (nr_nodeID r) (y_ps y)) as [p1 [att prev]] eqn:Hinc.
  assert (ps_mergeInputs p1 = ps_mergeInputs (y_ps y)) as Hp1
    by (unfold incrementHop in Hinc; by simplify_eq).
  unfold resolveParallelResultEnvelope. rewrite Hcont.
  destruct (nr_err r) as [err|] eqn:Herr; [by apply (heap_inv_grow y)|]. simpl.
  specialize (Hr Herr). destruct (NodeByID g (nr_nodeID r)) as [node|]; [|by apply (heap_inv_grow y)].
  destruct (determineSuccessors_total g node (load (y_heap y) (nr_envelope r)) rs opts Hr) as [Hsafe _].
  specialize (Hsafe (y_rt y)). unfold mbind, gom_bind.
  destruct (determineSuccessors _ _ _ _ _ _) as [s1 [[succs env']|]]; [|by destruct Hsafe].
  simpl. apply (heap_inv_grow y); simpl; rewrite ?length_store; try done.
  eapply ptr_ok_mono; [|exact Hr]. by rewrite length_store.
Qed.

(** The same when a merge node has received one more live input. *)
Lemma heap_inv_input v env n y y' : heap_inv y → ptr_ok (y_heap y) env →
  length (y_heap y) ≤ length (y_heap y') →
  y_work y' = y_work y → y_results y' = y_results y → y_workers y' = y_workers y →
  ps_mergeInputs (y_ps y') = ps_mergeInputs (addMergeInput v env n (y_ps y)).1 →
  coord_ok (y_heap y') (y_coord y') → heap_inv y'.
Proof.
  intros Hy Henv Hle Hw Hr Hws Hp Hc.
  assert (heap_inv (set_ps (addMergeInput v env n (y_ps y)).1 y)) as Hy1.
  { destruct Hy as [H1 H2 H3 H4 H5]. split; try done. intros u. unfold merge_inputs. simpl.
    destruct (decide (u = v)) as [->|Hne]; [|rewrite lookup_insert_ne by done; apply H4].
    rewrite lookup_insert_eq. apply Forall_app_2; [apply H4|by apply Forall_singleton]. }
  by apply (heap_inv_grow _ _ Hy1).
Qed.

Lemma scheduleMergeSuccessor_ok v node mv env rest k y :
  NodeByID g v = Some node → as_merge node = Some mv →
  heap_inv y → ptr_ok (y_heap y) env →
  heap_inv (scheduleMergeSuccessor g opts v node mv env rest k y).
Proof.
  intros Hn Hmv Hy Henv. unfold scheduleMergeSuccessor.
  pose proof (heap_inv_input v env (expected_inputs g v mv) y) as Hin.
  assert (Forall (ptr_ok (y_heap y)) (merge_inputs (y_ps y) v ++ [env])) as Hins.
  { apply Forall_app_2; [by apply hi_inputs|by apply Forall_singleton]. }
  destruct (addMergeInput v env (expected_inputs g v mv) (y_ps y)) as [p1 ready] eqn:E.
  unfold addMergeInput in E. apply pair_equal_spec in E as [Hp1 E].
  destruct (_ <? _)%Z; subst ready; [by apply Hin|].
  assert (ptr_ok (y_heap y) (default None (head (merge_inputs (y_ps y) v ++ [env])))) as Hfirst.
  { destruct (merge_inputs (y_ps y) v ++ [env]) as [|q l] eqn:El;
      [by destruct (merge_inputs (y_ps y) v)|]. by inversion Hins. }
  destruct (mv_MergeInputs mv) as [f|] eqn:Ef; [|by apply Hin].
  pose proof (Hmerges v node mv Hn Hmv f Ef _ _ (rt_w (y_rt y)) Hins) as Hf. simpl.
  destruct (f _ _ _) as [[w h'] [m|err]]; destruct Hf as [Hle Hm].
  - apply Hin; try done. simpl. split; [done|]. by eapply ptr_ok_mono.
  - rewrite Hcont. by apply Hin.
Qed.

Lemma sched_one_ok v env rest k y : heap_inv y → ptr_ok (y_heap y) env →
  heap_inv (sched_one g opts v env rest k y).
Proof.
  intros Hy Henv. unfold sched_one.
  destruct (NodeByID g v) as [node|] eqn:Hn; [|by apply (heap_inv_grow y)].
  destruct (as_merge node) as [mv|] eqn:Hmv; [by apply scheduleMergeSuccessor_ok|].
  unfold canScheduleSuccessor. destruct (_ <? _)%Z; [|by apply (heap_inv_grow y)].
  simpl. unfold ptr_ok in Henv. destruct Henv as [e He]. rewrite He. simpl.
  apply (heap_inv_grow y); simpl; rewrite ?length_app; simpl; try done; [lia|].
  split; rewrite ptr_ok_lt.
  - exists (length (y_heap y)). rewrite length_app. simpl. split; [done|lia].
  - assert (ptr_ok (y_heap y) env) as (l & -> & Hl)%ptr_ok_lt by (by exists e).
    exists l. rewrite length_app. split; [done|lia].
Qed.

Lemma finish_work_ok i it y : heap_inv y → y_workers y !! i = Some (Busy it) →
  heap_inv (finish_work g opts rs i it y).
Proof.
  intros Hy Hi. assert (ptr_ok (y_heap y) (wi_envelope it)) as Hp
    by exact (Forall_lookup_1 _ _ _ _ (hi_workers _ Hy) Hi).
  assert (∀ s' h' r, length (y_heap y) ≤ length h' → result_ok h' r →
    heap_inv (set_worker i (Sending r) (set_heap h' (set_rt s' y)))) as Hsend.
  { intros s' h' r Hle Hr.
    assert (heap_inv (set_heap h' (set_rt s' y))) as [H1 H2 H3 H4 H5].
    { apply (heap_inv_grow y); try done. pose proof (hi_coord _ Hy) as Hc. simpl.
      destruct (y_coord y); simpl in *; try done; [by eapply ptr_ok_mono|].
      destruct Hc. split; by eapply ptr_ok_mono. }
    split; try done. by apply Forall_insert. }
  unfold finish_work. destruct (NodeByID g (wi_nodeID it)) as [node|] eqn:Hn;
    [|by apply (Hsend (y_rt y) (y_heap y))].
  pose proof Hp as [e He]. rewrite He.
  destruct (run_node_total (λ _ r, r ≠ RNil) node e opts rs (Hnodes _ _ Hn e)) as [Hsafe Hnil].
  specialize (Hsafe (y_rt y)). specialize (Hnil (y_rt y)).
  destruct (run_node node (Some e) opts rs (y_rt y)) as [s1 [[arg r]|]]; [|by destruct Hsafe].
  specialize (Hnil _ _ eq_refl). simpl in Hnil.
  set (h' := store (wi_envelope it) (Some arg) (y_heap y)).
  assert (length h' = length (y_heap y)) as Hl by apply length_store.
  destruct r as [|e'| |err]; [| |done|]; simpl; apply Hsend; try done.
  - lia.
  - intros _. simpl. by eapply ptr_ok_mono; [|exact Hp]; lia.
  - rewrite length_app. lia.
  - intros _. simpl. apply ptr_ok_lt. exists (length h'). rewrite length_app. simpl. split; [done|lia].
  - lia.
Qed.

Lemma pexec_ok m y y' : heap_inv y → pexec g opts rs m y = Some y' → heap_inv y'.
Proof.
  intros Hy [Hc E]%pexec_inv. pose proof Hy as [H1 H2 H3 H4 H5].
  destruct m as [| | | | | | |i|i|i|i|err].
  - destruct E as (r & res & Ec & Er & Hn & ->). rewrite Er in H2. inversion H2; subst.
    apply handle_result_ok; [|done]. by split.
  - destruct E as (c & Ec & Ex & Hn & ->). by apply (heap_inv_grow y).
  - destruct E as (Ec & Hn & ->). by apply (heap_inv_grow y).
  - destruct E as (env & v & rest & k & Ec & ->). rewrite Ec in H5. by apply sched_one_ok.
  - destruct E as (env & k & Ec & ->). by apply (heap_inv_grow y).
  - destruct E as (it & env & rest & k & Ec & Hlt & ->). rewrite Ec in H5. destruct H5.
    split; try done. by apply Forall_app_2, Forall_singleton.
  - destruct E as (err & Ec & Hx & ->). unfold finish_run.
    destruct err; apply (heap_inv_grow y); simpl; rewrite ?length_store; done.
  - destruct E as (it & rest & Hi & Hw & ->). rewrite Hw in H1. inversion H1; subst.
    split; try done. by apply Forall_insert.
  - destruct E as (it & Hi & ->). by apply finish_work_ok.
  - destruct E as (r & Hi & Hlt & ->). split; try done; [|by apply Forall_insert].
    apply Forall_app_2, Forall_singleton; [done|]. exact (Forall_lookup_1 _ _ _ _ H3 Hi).
  - destruct E as (Hi & Hst & ->). split; try done. by apply Forall_insert.
  - destruct E as [Hx ->]. by split.
Qed.
End NoPanic.

(** ** Properties *)

(** A run of the parallel executor as [Run] starts it. *)
Record par_ready {W G} `{GraphIface G (Node W)} (wf : G → Prop) (g : G) (opts : RunOptions W)
    (s : RT W) : Prop := {
  pr_wf : wf g;
  pr_valid : validateGraph (Some g) = None;
  pr_hops : (0 < MaxHops opts)%Z;
  pr_conc : (1 < Concurrency opts)%Z;
  pr_numbered : numbered s;
  pr_log : rt_log s = []
}.

(** A rank that decreases along every edge: the graph is acyclic. *)
Definition ranked {W G} `{GraphIface G (Node W)} (g : G) (rank : string → nat) : Prop :=
  ∀ u v, v ∈ Successors g u → rank v < rank u.

Section Corollaries.
Context {W G : Type} `{World W} `{GraphIface G (Node W)} `{!MergeNodes W} {wf : G → Prop}
  `{!GraphLaws G (Node W) wf}.
Implicit Types (g : G) (opts : RunOptions W).

Lemma prun_heap g opts rs env s ms y :
  ContinueOnError opts = false → (∀ v node, NodeByID g v = Some node → node_ok node) →
  (∀ v node mv, NodeByID g v = Some node → as_merge node = Some mv → merge_ok mv) →
  prun g opts rs ms (pinit g opts env s) = Some y → heap_inv y.
Proof.
  intros Hc Hn Hm. assert (heap_inv (pinit g opts env s)) as Hi.
  { split; simpl; try done.
    - apply Forall_singleton, ptr_ok_lt. exists 0. split; [done|simpl; lia].
    - by apply Forall_replicate. }
  revert Hi. generalize (pinit g opts env s) as y0.
  induction ms as [|m ms IH]; simpl; intros y0 Hi E; [by simplify_eq|].
  destruct (pexec g opts rs m y0) as [y1|] eqn:E1; [|done]. simpl in E.
  eapply IH; [|done]. by eapply pexec_ok.
Qed.

(** From a state with a way to go on, and no panic, to a return. *)
Lemma prun_to_return g opts rs env s rank n : ∀ ms y,
  par_ready wf g opts s → ranked g rank →
  paths g (S (rank (Entry g))) (Entry g) ≤ chan_cap opts →
  ContinueOnError opts = false → (∀ v node, NodeByID g v = Some node → node_ok node) →
  (∀ v node mv, NodeByID g v = Some node → as_merge node = Some mv → merge_ok mv) →
  prun g opts rs ms (pinit g opts env s) = Some y →
  4 + Z.to_nat (Concurrency opts) + move_weight g (S (rank (Entry g))) (Entry g) ≤ length ms + n →
  ∃ ms' y' l err, prun g opts rs ms' y = Some y' ∧ y_coord y' = CReturn l err.
Proof.
  induction n as [|n IH]; intros ms y Hr Hrank Hp Hc Hn Hm E Hlen.
  all: pose proof Hr as [Hwf Hval Hmax Hconc Hs Hlog].
  all: pose proof (hi_coord _ (prun_heap g opts rs env s ms y Hc Hn Hm E)) as Hok.
  all: assert ((∃ l err, y_coord y = CReturn l err) ∨ ¬ final y) as [(l & err & Ec)|Hnf]
    by (unfold final; destruct (y_coord y); simpl in Hok; eauto); [by exists [], y, l, err|].
  all: destruct (parallel_enabled g opts rs env s Hwf Hmax Hconc (validateGraph_entry g Hval) Hs Hlog
         rank Hrank ms y Hp E Hnf) as (m & y1 & _ & E1).
  all: assert (prun g opts rs (ms ++ [m]) (pinit g opts env s) = Some y1) as E2
         by (rewrite prun_app, E; simpl; by rewrite E1).
  all: pose proof (prun_bound g opts rs env s Hwf Hconc Hs rank Hrank _ _ E2) as Hb;
       rewrite length_app in Hb; simpl length in Hb.
  1: lia.
  destruct (IH _ _ Hr Hrank Hp Hc Hn Hm E2) as (ms' & y' & l & err & E3 & Ec).
  { rewrite length_app. simpl length. lia. }
  exists (m :: ms'), y', l, err. simpl. by rewrite E1.
Qed.
End Corollaries.

(** C8: on an acyclic graph a parallel run takes a bounded number of moves,
    whatever the scheduler does, whatever nodes and merges return and whether or
    not the caller cancels. *)
Theorem parallel_bounded {W G} `{World W} `{GraphIface G (Node W)} `{!MergeNodes W}
    {wf : G → Prop} `{!GraphLaws G (Node W) wf} (g : G) (opts : RunOptions W) rs env s rank ms y :
  par_ready wf g opts s → ranked g rank →
  prun g opts rs ms (pinit g opts env s) = Some y →
  length ms ≤ 4 + Z.to_nat (Concurrency opts) + move_weight g (S (rank (Entry g))) (Entry g).
Proof. intros [] Hrank. by apply prun_bound. Qed.

(** C7: on an acyclic graph with at most [2 * Concurrency] maximal paths from the
    entry, without [ContinueOnError] and with nodes and merges that return no nil
    envelope, no schedule blocks or panics: each one can be continued, without help
    from the caller, until the coordinator returns. *)
Theorem parallel_returns {W G} `{World W} `{GraphIface G (Node W)} `{!MergeNodes W}
    {wf : G → Prop} `{!GraphLaws G (Node W) wf} (g : G) (opts : RunOptions W) rs env s rank ms y :
  par_ready wf g opts s → ranked g rank →
  paths g (S (rank (Entry g))) (Entry g) ≤ chan_cap opts →
  ContinueOnError opts = false → (∀ v node, NodeByID g v = Some node → node_ok node) →
  (∀ v node mv, NodeByID g v = Some node → as_merge node = Some mv → merge_ok mv) →
  prun g opts rs ms (pinit g opts env s) = Some y →
  ∃ ms' y' l err, prun g opts rs ms' y = Some y' ∧ y_coord y' = CReturn l err.
Proof. intros. eapply prun_to_return; eauto. apply Nat.le_add_l. Qed.

(** At every point of every schedule, each handled node is reachable from the
    entry, was selected by a node handled before it (or is the entry), and selects
    only successors of its own in the graph. *)
Theorem parallel_trace {W G} `{World W} `{GraphIface G (Node W)} `{!MergeNodes W}
    {wf : G → Prop} `{!GraphLaws G (Node W) wf} (g : G) (opts : RunOptions W) rs env s ms y :
  par_ready wf g opts s → prun g opts rs ms (pinit g opts env s) = Some y →
  (∀ u, u ∈ handled (rt_log (y_rt y)) → rtc (succ_edge g) (Entry g) u) ∧
  ∀ pre u next post, rt_log (y_rt y) = pre ++ (u, next) :: post →
    is_Some (NodeByID g u) ∧ next ⊆ Successors g u ∧
    (u = Entry g ∨ ∃ w next', (w, next') ∈ pre ∧ u ∈ next').
Proof.
  intros [Hwf Hval Hmax Hconc Hs Hlog] E.
  destruct (prun_inv g opts rs env s Hwf Hmax Hconc (validateGraph_entry g Hval) Hs Hlog ms y E)
    as (_ & [_ Htr _] & _).
  split; [by apply trace_reachable|done].
Qed.

(** C9: when a parallel run returns without error, no item is left in the channels
    or with the workers, the entry was handled, every selected node was handled
    unless it is a merge node with fewer inputs than it expects, and a merge node
    other than the entry was handled only after it had been selected as often as it
    expects inputs. *)
Theorem parallel_complete {W G} `{World W} `{GraphIface G (Node W)} `{!MergeNodes W}
    {wf : G → Prop} `{!GraphLaws G (Node W) wf} (g : G) (opts : RunOptions W) rs env s ms y l :
  par_ready wf g opts s → prun g opts rs ms (pinit g opts env s) = Some y →
  y_coord y = CReturn l None →
  y_work y = [] ∧ y_results y = [] ∧ Entry g ∈ handled (rt_log (y_rt y)) ∧
  (∀ v, selected (rt_log (y_rt y)) v → v ∈ handled (rt_log (y_rt y)) ∨
    ∃ mv, merge_at g v mv ∧
      (Z.of_nat (selections v (rt_log (y_rt y))) < expected_inputs g v mv)%Z) ∧
  (∀ v mv, merge_at g v mv → v ≠ Entry g → v ∈ handled (rt_log (y_rt y)) →
    (expected_inputs g v mv <= Z.of_nat (selections v (rt_log (y_rt y))))%Z).
Proof.
  intros [Hwf Hval Hmax Hconc Hs Hlog] E Ec.
  destruct (prun_inv g opts rs env s Hwf Hmax Hconc (validateGraph_entry g Hval) Hs Hlog ms y E)
    as (_ & [[_ _ _ _ Hdone] _ Hflow] & _).
  simpl in Hdone, Hflow. rewrite Ec in Hdone, Hflow. simpl in Hdone, Hflow.
  specialize (Hdone eq_refl eq_refl). specialize (Hflow eq_refl).
  unfold in_flight, outstanding in *. simpl in *. rewrite Ec in Hflow. simpl in Hflow.
  rewrite app_nil_r, Hdone in Hflow. destruct Hflow as [_ _ _ Hcl Hent Hin Hrdy].
  apply app_eq_nil in Hdone as [Hw [_ Hr]%app_eq_nil].
  split_and!; [by eapply fmap_nil_inv|by eapply fmap_nil_inv|set_solver| |].
  - intros v Hv. destruct (Hcl v Hv) as [?|[?|[?|(mv & Hmv & Hlt)]]]; [auto|set_solver..|].
    right. exists mv. rewrite <- (Hin v mv Hmv), count_nil, Nat.add_0_r. done.
  - intros v mv Hmv Hne Hv. rewrite <- (Hin v mv Hmv), count_nil, Nat.add_0_r. auto.
Qed.

(** ** Ranks of graphs *)

(** The position from the end of a topological order is a rank, so an acyclic
    graph has one. *)
Definition order_rank (l : list string) (u : string) : nat :=
  match list_find (λ w, w = u) l with Some (i, _) => length l - i | None => 0 end.

Lemma order_rank_before l u v : v ∈ l → before l u v → order_rank l v < order_rank l u.
Proof.
  intros Hv Hb. unfold order_rank.
  destruct (list_find_elem_of (λ w, w = v) l v Hv eq_refl) as [[i v'] Hi]. rewrite Hi.
  apply list_find_Some in Hi as (Hi & -> & _).
  pose proof (lookup_lt_Some _ _ _ Hi) as Hlt.
  apply list_elem_of_split_length in Hi as (l1 & l2 & -> & ->). specialize (Hb l1 l2 eq_refl).
  destruct (list_find_elem_of (λ w, w = u) l1 u Hb eq_refl) as [[j u'] Hj].
  rewrite (list_find_app_l _ _ _ _ _ Hj). apply list_find_Some in Hj as (Hj & _ & _).
  apply lookup_lt_Some in Hj. lia.
Qed.

Lemma ranked_edges {W} (g : BasicGraph (Node W)) rank : graph_wf g →
  (∀ u v, graph_edge g u v → rank v < rank u) → ranked g rank.
Proof. intros Hwf Hr u v Hv. apply Hr. by apply (elem_of_adj_succ g u v Hwf). Qed.

Lemma acyclic_ranked {W} (g : BasicGraph (Node W)) : graph_wf g →
  (∀ x, ¬ tc (graph_edge g) x x) → ∃ rank, ranked g rank.
Proof.
  intros Hwf Hac. destruct (TopologicalSort_run g _ Hwf (Permutation_refl _)) as (deg & R & _ & Hinv).
  assert (∀ u v, edge (edge_pairs g) u v → u ∈ g_nodeOrder g ∧ v ∈ g_nodeOrder g) as HE
    by (intros u v; by apply edge_pairs_nodes).
  assert (∀ v, v ∈ g_nodeOrder g → v ∈ R) as Hall.
  { apply (kahn_inv_all_length _ _ ltac:(apply Hwf) _ _ Hinv).
    apply (kahn_inv_acyclic_iff _ _ ltac:(apply Hwf) HE _ _ Hinv).
    intros x Hx. apply (Hac x). by apply tc_edge_pairs. }
  exists (order_rank R). apply ranked_edges; [done|]. intros u v Huv%elem_of_edge_pairs.
  destruct (HE u v Huv) as [_ Hv]. apply order_rank_before; [by apply Hall|].
  apply (ki_order _ _ _ _ _ Hinv); [done|by apply Hall].
Qed.

(** ** Concrete schedules *)

Section Samples.
#[local] Existing Instance clock_world.
(** Nodes of kind ["merge"] are merge nodes without a strategy of their own. *)
#[local] Instance kind_merge : MergeNodes Z :=
  λ node, if bool_decide (n_Kind node = "merge") then Some (mkMergeView 0 None) else None.
Notation sys := (psys Z).

(** The first candidate that can move, repeatedly. *)
Fixpoint greedy (g : BasicGraph (Node Z)) (opts : RunOptions Z) (cands : list move) (fuel : nat)
    (y : sys) : list move :=
  match fuel with
  | 0 => []
  | S f =>
      match list_find (λ m, is_Some (pexec g opts 0 m y)) cands with
      | Some (_, m) =>
          match pexec g opts 0 m y with Some y' => m :: greedy g opts cands f y' | None => [] end
      | None => []
      end
  end.

(** Workers first, the coordinator's [select] last. *)
Definition eager : list move :=
  [MPut 0; MPut 1; MFinish 0; MFinish 1; MTake 0; MTake 1; MExit 0; MExit 1;
   MSched; MSend; MSchedEnd; MRecv; MDone; MReturn].

Definition two_workers (cont : bool) : RunOptions Z :=
  mkRunOptions 100 cont 2 None (mkSinks None None None) None None false None None
    EmptyString EmptyString EmptyString.

Definition env0 : Envelope := NewEnvelope 0.

Definition schedule_of (g : BasicGraph (Node Z)) (cont : bool) : list move :=
  greedy g (two_workers cont) eager 200 (pinit g (two_workers cont) env0 start).

(** The diamond whose last node is a merge node. *)
Definition merge_node (id : string) : Node Z := mkNode id "merge" false (λ e, NRet e RSame).
Definition join : BasicGraph (Node Z) := diamond (merge_node "d").

Definition join_rank (u : string) : nat :=
  if bool_decide (u = "a") then 2 else if bool_decide (u = "d") then 0 else 1.

Definition join_end : sys :=
  let y0 := pinit join (two_workers false) env0 start in
  default y0 (prun join (two_workers false) 0 (schedule_of join false) y0).

Lemma join_run : prun join (two_workers false) 0 (schedule_of join false)
  (pinit join (two_workers false) env0 start) = Some join_end.
Proof. vm_compute. reflexivity. Qed.

(** The merge node runs once, after both branches. *)
Example join_log : map fst (rt_log (y_rt join_end)) = ["a"; "b"; "c"; "d"].
Proof. vm_compute. reflexivity. Qed.

Lemma start_numbered : numbered start.
Proof. apply fresh_numbered, start_fresh. Qed.

Lemma join_ready : par_ready graph_wf join (two_workers false) start.
Proof. split; [apply diamond_wf|reflexivity|simpl; lia..|apply start_numbered|reflexivity]. Qed.

Lemma join_ranked : ranked join join_rank.
Proof.
  apply ranked_edges; [apply diamond_wf|]. intros u v Huv. unfold graph_edge in Huv.
  assert (g_edges join = [mkEdge "a" "b"; mkEdge "a" "c"; mkEdge "b" "d"; mkEdge "c" "d"]) as Hl
    by (vm_compute; reflexivity). rewrite Hl in Huv. clear Hl.
  repeat (apply elem_of_cons in Huv as [[= -> ->]|Huv]; [vm_compute; lia|]). inversion Huv.
Qed.

Lemma join_nodes v node : NodeByID join v = Some node →
  node = merge_node "d" ∨ ∃ id, node = noop id.
Proof.
  intros Hv. assert (node ∈ Nodes join) as Hn by exact (gl_nodes join v node (diamond_wf _) Hv).
  assert (Nodes join = [noop "a"; noop "b"; noop "c"; merge_node "d"]) as Hl
    by (vm_compute; reflexivity). rewrite Hl in Hn. clear Hl.
  repeat (apply elem_of_cons in Hn as [->|Hn]; [eauto|]). inversion Hn.
Qed.

Lemma parallel_bounded_witness :
  length (schedule_of join false) = 31 ∧
  move_weight join (S (join_rank (Entry join))) (Entry join) = 33 ∧
  length (schedule_of join false) ≤ 4 + Z.to_nat (Concurrency (two_workers false)) +
    move_weight join (S (join_rank (Entry join))) (Entry join).
Proof.
  split; [vm_compute; reflexivity|]. split; [vm_compute; reflexivity|].
  exact (parallel_bounded (wf := graph_wf) join (two_workers false) 0 env0 start join_rank
    (schedule_of join false) join_end join_ready join_ranked join_run).
Defined.

Lemma parallel_returns_witness : ∃ ms' y' l err,
  prun join (two_workers false) 0 ms' (pinit join (two_workers false) env0 start) = Some y' ∧
  y_coord y' = CReturn l err.
Proof.
  apply (parallel_returns (wf := graph_wf) join (two_workers false) 0 env0 start join_rank []);
    [apply join_ready|apply join_ranked|vm_compute; lia|reflexivity| | |reflexivity].
  - intros v node Hn. apply join_nodes in Hn as [->|[id ->]]; intros e; discriminate.
  - intros v node mv Hn Hmv f Hf. apply join_nodes in Hn as [->|[id ->]]; [|discriminate Hmv].
    injection Hmv as <-. discriminate Hf.
Defined.

Lemma parallel_trace_witness :
  (∀ u, u ∈ handled (rt_log (y_rt join_end)) → rtc (succ_edge join) (Entry join) u) ∧
  ∀ pre u next post, rt_log (y_rt join_end) = pre ++ (u, next) :: post →
    is_Some (NodeByID join u) ∧ next ⊆ Successors join u ∧
    (u = Entry join ∨ ∃ w next', (w, next') ∈ pre ∧ u ∈ next').
Proof.
  exact (parallel_trace (wf := graph_wf) join (two_workers false) 0 env0 start
    (schedule_of join false) join_end join_ready join_run).
Defined.

Lemma parallel_complete_witness :
  y_work join_end = [] ∧ y_results join_end = [] ∧
  Entry join ∈ handled (rt_log (y_rt join_end)) ∧
  (∀ v, selected (rt_log (y_rt join_end)) v → v ∈ handled (rt_log (y_rt join_end)) ∨
    ∃ mv, merge_at join v mv ∧
      (Z.of_nat (selections v (rt_log (y_rt join_end))) < expected_inputs join v mv)%Z) ∧
  (∀ v mv, merge_at join v mv → v ≠ Entry join → v ∈ handled (rt_log (y_rt join_end)) →
    (expected_inputs join v mv <= Z.of_nat (selections v (rt_log (y_rt join_end))))%Z).
Proof.
  apply (parallel_complete (wf := graph_wf) join (two_workers false) 0 env0 start
    (schedule_of join false) join_end (Some 1) join_ready join_run). vm_compute. reflexivity.
Defined.

(** *** Schedules that block or panic *)

(** An entry with [n] successors. *)
Definition wide (mk : string → Node Z) (n : nat) : BasicGraph (Node Z) :=
  let ids := GoStr.Itoa <$> seq 0 n in
  let g0 := (SetEntry "e" (AddNode (Some (noop "e")) (NewGraph "wide")).1).1 in
  fold_left (λ g id, (AddEdge "e" id (AddNode (Some (mk id)) g).1).1) ids g0.

Definition wide_end (mk : string → Node Z) (n : nat) : sys :=
  let y0 := pinit (wide mk n) (two_workers false) env0 start in
  default y0 (prun (wide mk n) (two_workers false) 0 (schedule_of (wide mk n) false) y0).

(** No move but the caller's is possible, and the caller's changes nothing. *)
Definition stuck (g : BasicGraph (Node Z)) (opts : RunOptions Z) (y : sys) : Prop :=
  ¬ final y ∧ ∀ m, (∀ err, m ≠ MCtx err) →
    pexec g opts 0 m y = None ∧ ∀ err, pexec g opts 0 m (set_ctx (Some err) y) = None.

Ltac solve_stuck :=
  split; [vm_compute; tauto|];
  intros m Hm; split; [|intros err];
  (destruct m as [| | | | | | |i|i|i|i|err']; [..|by destruct (Hm err')]);
  try (destruct i as [|[|i]]); vm_compute; reflexivity.


(** The chain [e -> a -> b]. *)
Definition chain (a : Node Z) : BasicGraph (Node Z) :=
  let add n g := (AddNode (Some n) g).1 in
  let edge u v g := (AddEdge u v g).1 in
  (SetEntry "e" (edge "a" "b" (edge "e" "a"
    (add (noop "b") (add a (add (noop "e") (NewGraph "chain"))))))).1.

Definition chain_end : sys :=
  let y0 := pinit (chain (failing "a")) (two_workers true) env0 start in
  default y0 (prun (chain (failing "a")) (two_workers true) 0
    (schedule_of (chain (failing "a")) true) y0).

(** With [ContinueOnError] a parallel run can panic where a sequential one
    goes on: a failing node that is neither the entry nor a merge node has no
    previous envelope, and the nil envelope is dereferenced when its successors are
    determined. *)
Theorem parallel_continue_panics :
  (∃ ms y, prun (chain (failing "a")) (two_workers true) 0 ms
      (pinit (chain (failing "a")) (two_workers true) env0 start) = Some y ∧ y_coord y = CPanic) ∧
  ∃ s cur, executeGraphSequential (chain (failing "a")) env0 (two_workers true) 0 start =
    (s, Some (Some (cur, None))).
Proof.
  split.
  - exists (schedule_of (chain (failing "a")) true), chain_end.
    split; vm_compute; reflexivity.
  - eexists _, _. vm_compute. reflexivity.
Qed.

(** The hop limit is checked when an item is scheduled and counted when its result
    is handled: two items of one node can pass a limit of one. *)
Example hop_limit_overrun :
  let opts := set_MaxHops 1 (two_workers false) in
  let g := diamond (noop "d") in
  runs_of "d" (rt_log (y_rt (default (pinit g opts env0 start)
    (prun g opts 0 (greedy g opts eager 200 (pinit g opts env0 start))
       (pinit g opts env0 start))))) = 2.
Proof. vm_compute. reflexivity. Qed.
End Samples.
