(* ===== verification/Controllers.v ===== *)
(** * The step controllers (runtime/step_controller.go)

    The four implementations of [StepController]: callback, channel, breakpoint
    and auto. The operations under a controller's lock are functions on its state.
    [Step] and [Respond] of the channel controller, and [Step] and [Resume] of the
    auto controller, block and interleave: each call is a process with a phase, and
    a move advances one of them between two channel operations. *)

From stdpp Require Import gmap strings list fin_maps.
From Stdlib Require Import ZArith Lia.
From S2P Require Import Prelude Values Envelope Graph Events StepController Runtime RuntimeSafety.

(** ** Callback *)

Module Callback.
Record CallbackStepController (W : Type) := mkCallback {
  callback : Z → StepRequest → W → W * (option StepResponse + error);
  shouldPause : option (string → string → W → W * bool)
}.
Arguments mkCallback {W}.
Arguments callback {W}.
Arguments shouldPause {W}.

Definition NewCallbackStepController {W} f : CallbackStepController W := mkCallback f None.

Definition WithShouldPause {W} fn (c : CallbackStepController W) : CallbackStepController W :=
  mkCallback (callback c) (Some fn).

Definition Step {W} (c : CallbackStepController W) := callback c.

Definition ShouldPause {W} (c : CallbackStepController W) (nodeID point : string) (w : W)
    : W * bool :=
  match shouldPause c with Some fn => fn nodeID point w | None => (w, true) end.

Definition controller {W} (c : CallbackStepController W) : StepController W :=
  mkStepController (ShouldPause c) (Step c).
End Callback.

(** ** Breakpoints *)

Module Breakpoint.
Record BreakpointStepController (W : Type) := mkBreakpoint {
  breakpoints : gmap string string;
  handler : Z → StepRequest → W → W * (option StepResponse + error)
}.
Arguments mkBreakpoint {W}.
Arguments breakpoints {W}.
Arguments handler {W}.

Section Ops.
Context {W : Type}.
Implicit Types (c : BreakpointStepController W) (nodeID point : string).

Definition NewBreakpointStepController h : BreakpointStepController W := mkBreakpoint ∅ h.

Definition AddBreakpoint nodeID point c : BreakpointStepController W :=
  mkBreakpoint (<[nodeID := point]> (breakpoints c)) (handler c).

Definition AddBreakpointBefore nodeID c := AddBreakpoint nodeID StepPointBeforeNode c.
Definition AddBreakpointAfter nodeID c := AddBreakpoint nodeID StepPointAfterNode c.

Definition RemoveBreakpoint nodeID c : BreakpointStepController W :=
  mkBreakpoint (delete nodeID (breakpoints c)) (handler c).

Definition ClearAllBreakpoints c : BreakpointStepController W := mkBreakpoint ∅ (handler c).

Definition Step c := handler c.

Definition ShouldPause c nodeID point : bool :=
  match breakpoints c !! nodeID with Some bp => bool_decide (bp = point) | None => false end.

Definition ListBreakpoints c : gmap string string := breakpoints c.

Definition controller c : StepController W :=
  mkStepController (λ nodeID point w, (w, ShouldPause c nodeID point)) (Step c).
End Ops.
End Breakpoint.

(** ** Channels *)

Module Channel.
Record ChannelStepController := mkChannel {
  requests : list StepRequest;
  responses : list StepResponse;
  bufferSize : nat;
  pending : gmap string StepRequest;
  Breakpoints : gmap string bool;
  PausePoints : gmap string bool;
  runToBreakpoint : bool
}.
Implicit Types (c : ChannelStepController) (nodeID point : string).

Definition NewChannelStepController (bufferSize : nat) : ChannelStepController :=
  mkChannel [] [] bufferSize ∅ ∅ ∅ false.

Definition set_requests l c : ChannelStepController :=
  mkChannel l (responses c) (bufferSize c) (pending c) (Breakpoints c) (PausePoints c)
    (runToBreakpoint c).
Definition set_responses l c : ChannelStepController :=
  mkChannel (requests c) l (bufferSize c) (pending c) (Breakpoints c) (PausePoints c)
    (runToBreakpoint c).
Definition set_pending p c : ChannelStepController :=
  mkChannel (requests c) (responses c) (bufferSize c) p (Breakpoints c) (PausePoints c)
    (runToBreakpoint c).
Definition set_breakpoints b c : ChannelStepController :=
  mkChannel (requests c) (responses c) (bufferSize c) (pending c) b (PausePoints c)
    (runToBreakpoint c).
Definition set_run b c : ChannelStepController :=
  mkChannel (requests c) (responses c) (bufferSize c) (pending c) (Breakpoints c) (PausePoints c) b.

(** Reading a [map[string]bool]. *)
Definition flag (m : gmap string bool) (k : string) : bool := default false (m !! k).

Definition ShouldPause nodeID point c : ChannelStepController * bool :=
  if runToBreakpoint c then
    if flag (Breakpoints c) nodeID then (set_run false c, true) else (c, false)
  else if bool_decide (0 < size (PausePoints c)) && negb (flag (PausePoints c) point) then (c, false)
  else if bool_decide (0 < size (Breakpoints c)) then (c, flag (Breakpoints c) nodeID)
  else (c, true).

Definition SetBreakpoint nodeID c := set_breakpoints (<[nodeID := true]> (Breakpoints c)) c.
Definition ClearBreakpoint nodeID c := set_breakpoints (delete nodeID (Breakpoints c)) c.
Definition ClearAllBreakpoints c := set_breakpoints ∅ c.

(** In the order in which Go ranges over the map, which is not fixed. *)
Definition ListPending c : list StepRequest := (map_to_list (pending c)).*2.

(** *** [Step] and [Respond] as processes *)

Inductive step_call :=
| SSend (req : StepRequest)                       (** at [c.requests <- req] *)
| SWait (req : StepRequest)                       (** at [<-c.responses] *)
| SHold (req : StepRequest) (resp : StepResponse) (** has a response for another request *)
| SReturn (req : StepRequest) (r : StepResponse + error).

Inductive respond_call :=
| RSend (resp : StepResponse)                     (** at [c.responses <- resp] *)
| RReturn (resp : StepResponse) (err : option error).

Record exchange := mkExchange {
  x_ctl : ChannelStepController;
  x_steps : list step_call;
  x_responds : list respond_call
}.

Inductive xmove :=
| XStep (req : StepRequest)                       (** [Step] is called *)
| XSend (i : nat)
| XTake                                           (** the client receives a request *)
| XRespond (resp : StepResponse)                  (** [Respond] is called *)
| XDeliver (j : nat)
| XRecv (i : nat)
| XPutBack (i : nat)
| XCancel (i : nat) (err : error).                (** the context of a call is done *)

Definition set_step (i : nat) (p : step_call) (x : exchange) : exchange :=
  mkExchange (x_ctl x) (<[i := p]> (x_steps x)) (x_responds x).
Definition set_ctl c (x : exchange) : exchange := mkExchange c (x_steps x) (x_responds x).

Definition xexec (m : xmove) (x : exchange) : option exchange :=
  let c := x_ctl x in
  match m with
  | XStep req =>
      Some (mkExchange (set_pending (<[sr_ID req := req]> (pending c)) c)
              (x_steps x ++ [SSend req]) (x_responds x))
  | XSend i =>
      match x_steps x !! i with
      | Some (SSend req) =>
          if bool_decide (length (requests c) < bufferSize c)
          then Some (set_step i (SWait req) (set_ctl (set_requests (requests c ++ [req]) c) x))
          else None
      | _ => None
      end
  | XTake =>
      match requests c with _ :: rest => Some (set_ctl (set_requests rest c) x) | [] => None end
  | XRespond resp =>
      Some (mkExchange c (x_steps x) (x_responds x ++
        [match pending c !! sp_RequestID resp with
         | Some _ => RSend resp
         | None => RReturn resp (Some (wrapf ErrStepRequestNotFound [PS (sp_RequestID resp)]))
         end]))
  | XDeliver j =>
      match x_responds x !! j with
      | Some (RSend resp) =>
          if bool_decide (length (responses c) < bufferSize c)
          then Some (mkExchange (set_responses (responses c ++ [resp]) c) (x_steps x)
                       (<[j := RReturn resp None]> (x_responds x)))
          else None
      | _ => None
      end
  | XRecv i =>
      match x_steps x !! i, responses c with
      | Some (SWait req), resp :: rest =>
          if bool_decide (sp_RequestID resp = sr_ID req) then
            let c' := set_pending (delete (sr_ID req) (pending c)) (set_responses rest c) in
            let c'' := if bool_decide (sp_Action resp = StepActionRunToBreakpoint)
                       then set_run true c' else c' in
            Some (set_step i (SReturn req (inl resp)) (set_ctl c'' x))
          else Some (set_step i (SHold req resp) (set_ctl (set_responses rest c) x))
      | _, _ => None
      end
  | XPutBack i =>
      match x_steps x !! i with
      | Some (SHold req resp) =>
          let c' := if bool_decide (length (responses c) < bufferSize c)
                    then set_responses (responses c ++ [resp]) c else c in
          Some (set_step i (SWait req) (set_ctl c' x))
      | _ => None
      end
  | XCancel i err =>
      match x_steps x !! i with
      | Some (SSend req) | Some (SWait req) =>
          Some (set_step i (SReturn req (inr err))
                  (set_ctl (set_pending (delete (sr_ID req) (pending c)) c) x))
      | _ => None
      end
  end.

Inductive xstep : exchange → exchange → Prop :=
| xstep_intro m x x' : xexec m x = Some x' → xstep x x'.

Fixpoint xrun (ms : list xmove) (x : exchange) : option exchange :=
  match ms with [] => Some x | m :: rest => xexec m x ≫= xrun rest end.

Definition xinit (n : nat) : exchange := mkExchange (NewChannelStepController n) [] [].
End Channel.

(** ** Auto *)

Module Auto.
Record AutoStepController := mkAuto {
  delay : Z;
  breakpoints : gmap string bool;
  paused : bool
}.
Implicit Types c : AutoStepController.

Definition NewAutoStepController (delay : Z) : AutoStepController := mkAuto delay ∅ false.

Definition ShouldPause nodeID c : bool :=
  if bool_decide (0 < size (breakpoints c)) then Channel.flag (breakpoints c) nodeID else true.

Definition Pause c : AutoStepController := mkAuto (delay c) (breakpoints c) true.
Definition SetDelay d c : AutoStepController := mkAuto d (breakpoints c) (paused c).
Definition SetBreakpoint nodeID c : AutoStepController :=
  mkAuto (delay c) (<[nodeID := true]> (breakpoints c)) (paused c).
Definition ClearBreakpoint nodeID c : AutoStepController :=
  mkAuto (delay c) (delete nodeID (breakpoints c)) (paused c).

(** The phases of a [Step] call; [resumeCh] is unbuffered. *)
Inductive auto_call :=
| AStart (req : StepRequest)
| ARead (req : StepRequest) (isPaused : bool)     (** [paused] was read *)
| AWait (req : StepRequest)                       (** at [<-c.resumeCh] *)
| ADelay (req : StepRequest)                      (** at [<-time.After(c.delay)] *)
| AReturn (req : StepRequest) (r : StepResponse + error).

Record auto_sys := mkAutoSys { au_ctl : AutoStepController; au_calls : list auto_call }.

Inductive amove :=
| AmStep (req : StepRequest)                      (** [Step] is called *)
| AmRead (i : nat)                                (** it reads [paused] *)
| AmBranch (i : nat)                              (** it waits or goes on to the delay *)
| AmElapse (i : nat)                              (** the delay is over *)
| AmCancel (i : nat) (err : error)
| AmPause                                         (** [Pause] *)
| AmResume (i : option nat).                      (** [Resume]; the waiting call that receives *)

Definition set_call (i : nat) (p : auto_call) (s : auto_sys) : auto_sys :=
  mkAutoSys (au_ctl s) (<[i := p]> (au_calls s)).

(** After the pause: the delay if there is one, else the answer. *)
Definition after_pause (d : Z) (req : StepRequest) : auto_call :=
  if (0 <? d)%Z then ADelay req
  else AReturn req (inl (mkStepResponse (sr_ID req) StepActionContinue None ∅)).

Definition is_waiting (p : auto_call) : bool := match p with AWait _ => true | _ => false end.

Definition aexec (m : amove) (s : auto_sys) : option auto_sys :=
  let c := au_ctl s in
  match m with
  | AmStep req => Some (mkAutoSys c (au_calls s ++ [AStart req]))
  | AmRead i =>
      match au_calls s !! i with
      | Some (AStart req) => Some (set_call i (ARead req (paused c)) s)
      | _ => None
      end
  | AmBranch i =>
      match au_calls s !! i with
      | Some (ARead req isPaused) =>
          Some (set_call i (if isPaused : bool then AWait req else after_pause (delay c) req) s)
      | _ => None
      end
  | AmElapse i =>
      match au_calls s !! i with
      | Some (ADelay req) => Some (set_call i (after_pause 0 req) s)
      | _ => None
      end
  | AmCancel i err =>
      match au_calls s !! i with
      | Some (AWait req) | Some (ADelay req) => Some (set_call i (AReturn req (inr err)) s)
      | _ => None
      end
  | AmPause => Some (mkAutoSys (Pause c) (au_calls s))
  | AmResume w =>
      let c' := mkAuto (delay c) (breakpoints c) false in
      match w with
      | Some i =>
          match au_calls s !! i with
          | Some (AWait req) => Some (mkAutoSys c' (<[i := after_pause (delay c) req]> (au_calls s)))
          | _ => None
          end
      | None => if existsb is_waiting (au_calls s) then None else Some (mkAutoSys c' (au_calls s))
      end
  end.

Fixpoint arun (ms : list amove) (s : auto_sys) : option auto_sys :=
  match ms with [] => Some s | m :: rest => aexec m s ≫= arun rest end.
End Auto.

(** ** Pausing *)

Section Pausing.
Import Channel.

(** The answers to a sequence of queries of the runtime. *)
Fixpoint pauses (qs : list (string * string)) (c : ChannelStepController)
    : ChannelStepController * list bool :=
  match qs with
  | [] => (c, [])
  | (nodeID, point) :: rest =>
      let '(c1, b) := ShouldPause nodeID point c in
      let '(c2, bs) := pauses rest c1 in (c2, b :: bs)
  end.

(** The filter that applies outside run-to-breakpoint mode. *)
Definition wanted (c : ChannelStepController) (q : string * string) : Prop :=
  (PausePoints c = ∅ ∨ flag (PausePoints c) q.2 = true) ∧
  (Breakpoints c = ∅ ∨ flag (Breakpoints c) q.1 = true).

Lemma size_pos_dec (m : gmap string bool) : bool_decide (0 < size m) = false ↔ m = ∅.
Proof. rewrite bool_decide_eq_false, <- map_size_empty_iff. lia. Qed.

Lemma flag_empty k : flag ∅ k = false.
Proof. done. Qed.

Lemma ShouldPause_filter c q : runToBreakpoint c = false →
  ∃ b, ShouldPause q.1 q.2 c = (c, b) ∧ (b = true ↔ wanted c q).
Proof.
  intros Hr. unfold ShouldPause, wanted. rewrite Hr.
  destruct (bool_decide (0 < size (PausePoints c))) eqn:Ep,
    (bool_decide (0 < size (Breakpoints c))) eqn:Eb; simpl;
    rewrite ?size_pos_dec in *; rewrite ?bool_decide_eq_true in *.
  all: assert (∀ m : gmap string bool, 0 < size m → m ≠ ∅) as Hne
    by (intros m Hm ->; rewrite map_size_empty in Hm; lia).
  all: try destruct (flag (PausePoints c) q.2) eqn:Ef; eexists; (split; [done|]); naive_solver.
Qed.

Lemma pauses_filter c qs : runToBreakpoint c = false →
  ∃ bs, pauses qs c = (c, bs) ∧ Forall2 (λ q b, b = true ↔ wanted c q) qs bs.
Proof.
  intros Hr. induction qs as [|[n p] qs (bs & E & Hbs)]; [by exists []|].
  destruct (ShouldPause_filter c (n, p) Hr) as (b & Eb & Hb). simpl in *.
  rewrite Eb, E. exists (b :: bs). split; [done|]. by constructor.
Qed.

Lemma pauses_run c qs : runToBreakpoint c = true →
  Forall (λ q, flag (Breakpoints c) q.1 = false) qs →
  pauses qs c = (c, replicate (length qs) false).
Proof.
  intros Hr Hqs. induction Hqs as [|[n p] qs Hq Hqs IH]; [done|]. simpl in *.
  unfold ShouldPause. rewrite Hr, Hq. by rewrite IH.
Qed.

Lemma pauses_app qs qs' c : pauses (qs ++ qs') c =
  let '(c1, bs) := pauses qs c in let '(c2, bs') := pauses qs' c1 in (c2, bs ++ bs').
Proof.
  revert c. induction qs as [|[n p] qs IH]; intros c; simpl; [by destruct (pauses qs' c)|].
  destruct (ShouldPause n p c) as [c1 b]. rewrite IH.
  destruct (pauses qs c1) as [c2 bs]. by destruct (pauses qs' c2).
Qed.
End Pausing.

(** In run-to-breakpoint mode a channel controller lets every node pass until
    the first one with a breakpoint, pauses there whatever the pause points, and
    from then on (as in normal mode) pauses exactly at the wanted nodes and points. *)
Theorem channel_pauses c pre n p post :
  Channel.runToBreakpoint c = true →
  Forall (λ q, Channel.flag (Channel.Breakpoints c) q.1 = false) pre →
  Channel.flag (Channel.Breakpoints c) n = true →
  ∃ bs, pauses (pre ++ (n, p) :: post) c =
      (Channel.set_run false c, replicate (length pre) false ++ true :: bs) ∧
    Forall2 (λ q b, b = true ↔ wanted c q) post bs.
Proof.
  intros Hr Hpre Hn. rewrite pauses_app, pauses_run by done. simpl.
  unfold Channel.ShouldPause. rewrite Hr, Hn.
  destruct (pauses_filter (Channel.set_run false c) post eq_refl) as (bs & E & Hbs).
  exists bs. rewrite E. split; [done|]. exact Hbs.
Qed.

Lemma channel_pauses_witness :
  let c := Channel.set_run true (Channel.SetBreakpoint "b" (Channel.NewChannelStepController 1)) in
  ∃ bs, pauses ([("a", StepPointBeforeNode)] ++ ("b", StepPointAfterNode) :: [("a", "x"); ("b", "y")])
      c = (Channel.set_run false c, replicate 1 false ++ true :: bs) ∧
    Forall2 (λ q b, b = true ↔ wanted c q) [("a", "x"); ("b", "y")] bs.
Proof.
  apply channel_pauses; [reflexivity| |reflexivity]. repeat constructor.
Defined.

(** ** Exchange of requests and responses *)

Section Exchange.
Import Channel.
Implicit Types x : exchange.

Definition req_of (p : step_call) : StepRequest :=
  match p with SSend r | SWait r | SHold r _ | SReturn r _ => r end.

Definition unfinished (p : step_call) : Prop :=
  match p with SReturn _ _ => False | _ => True end.

Definition step_ids x : list string := (λ p, sr_ID (req_of p)) <$> x_steps x.

(** A response that is somewhere was handed over by a completed [Respond]. *)
Definition accepted x (resp : StepResponse) : Prop := RReturn resp None ∈ x_responds x.

Record exchange_inv (n : nat) x : Prop := {
  xi_buffer : bufferSize (x_ctl x) = n;
  xi_requests : length (requests (x_ctl x)) ≤ n;
  xi_responses : length (responses (x_ctl x)) ≤ n;
  xi_queued : ∀ resp, resp ∈ responses (x_ctl x) → accepted x resp;
  xi_held : ∀ req resp, SHold req resp ∈ x_steps x → accepted x resp;
  xi_returned : ∀ req resp, SReturn req (inl resp) ∈ x_steps x →
    sp_RequestID resp = sr_ID req ∧ accepted x resp
}.

Lemma elem_of_insert_step (l : list step_call) i p q :
  q ∈ <[i := p]> l → q = p ∨ q ∈ l.
Proof.
  intros [k Hk]%list_elem_of_lookup. apply list_lookup_insert_Some in Hk as [(_ & <- & _)|[_ Hk]];
    [by left|right]. by eapply list_elem_of_lookup_2.
Qed.

Lemma accepted_deliver x j resp r :
  x_responds x !! j = Some (RSend resp) → accepted x r →
  RReturn r None ∈ <[j := RReturn resp None]> (x_responds x).
Proof.
  intros Hj [k Hk]%list_elem_of_lookup. apply list_elem_of_lookup. exists k.
  rewrite list_lookup_insert_ne; [done|]. intros ->. rewrite Hj in Hk. congruence.
Qed.

Lemma exchange_inv_step n x x' : exchange_inv n x → xstep x x' → exchange_inv n x'.
Proof.
  intros Hinv Hstep. destruct Hstep as [m x0 x1 E]. destruct Hinv as [H1 H2 H3 H4 H5 H6].
  destruct m as [req|i| |resp|j|i|i|i err]; simpl in E.
  - injection E as <-. split; simpl; try done; intros req' resp';
      rewrite elem_of_snoc; intros [Hin|?]; eauto; done.
  - destruct (x_steps x0 !! i) as [[req| | |]|] eqn:Hi; try done. case_bool_decide; [|done].
    injection E as <-. split; simpl; try done.
    + rewrite length_app. simpl. lia.
    + intros req' resp' [?|?]%elem_of_insert_step; [done|eauto].
    + intros req' resp' [?|?]%elem_of_insert_step; [done|eauto].
  - destruct (requests (x_ctl x0)) as [|r rest] eqn:Er; [done|]. injection E as <-.
    split; simpl in *; try done. lia.
  - injection E as <-.
    assert (∀ r, accepted x0 r → RReturn r None ∈ x_responds x0 ++
      [match pending (x_ctl x0) !! sp_RequestID resp with Some _ => RSend resp
       | None => RReturn resp (Some (wrapf ErrStepRequestNotFound [PS (sp_RequestID resp)])) end])
      as Hacc by (intros r Hr; apply elem_of_app; by left).
    split; simpl; try done; unfold accepted; simpl; intros; [eauto..|].
    destruct (H6 req resp0) as [? ?]; [done|]. eauto.
  - destruct (x_responds x0 !! j) as [[resp|]|] eqn:Hj; try done. case_bool_decide; [|done].
    injection E as <-. pose proof (accepted_deliver x0 j resp) as Hacc.
    split; unfold accepted; simpl; try done.
    + rewrite length_app. simpl. lia.
    + intros r [Hr| ->]%elem_of_snoc; [auto|]. apply list_elem_of_lookup. exists j.
      apply list_lookup_insert_eq. by eapply lookup_lt_Some.
    + intros req r Hr. eauto.
    + intros req r Hr. destruct (H6 req r Hr). eauto.
  - destruct (x_steps x0 !! i) as [[|req| |]|] eqn:Hi; try done.
    destruct (responses (x_ctl x0)) as [|resp rest] eqn:Er; [done|]. simpl in H3.
    assert (accepted x0 resp) as Ha by (apply H4; by left).
    assert (∀ r, r ∈ rest → accepted x0 r) as Hrest by (intros r ?; apply H4; by right).
    case_bool_decide as Hid; injection E as <-.
    + split; simpl; try done; try (case_bool_decide; simpl; try done; try lia).
      all: intros req' resp' [Heq|Hin]%elem_of_insert_step; try done; eauto.
      all: injection Heq as -> ->; done.
    + split; simpl; try done; try lia.
      all: intros req' resp' [Heq|Hin]%elem_of_insert_step; try done; eauto.
      injection Heq as -> ->. done.
  - destruct (x_steps x0 !! i) as [[| |req resp|]|] eqn:Hi; try done. injection E as <-.
    assert (accepted x0 resp) as Ha by (eapply H5, list_elem_of_lookup_2, Hi).
    split; simpl; try (case_bool_decide; simpl; rewrite ?length_app; simpl; try done; try lia).
    1: by intros r [Hr| ->]%elem_of_snoc; [apply H4|].
    all: intros req' resp' [Heq|Hin]%elem_of_insert_step; [done|eauto].
  - destruct (x_steps x0 !! i) as [[req|req| |]|] eqn:Hi; try done; injection E as <-;
      split; simpl; try done; intros req' resp' Hin; apply elem_of_insert_step in Hin as [Heq|Hin];
      try done; eauto.
Qed.

(** *** Pending requests *)

(** With distinct request IDs, exactly the requests of the unfinished calls are
    pending. *)
Definition pending_inv x : Prop :=
  NoDup (step_ids x) → ∀ id req,
    pending (x_ctl x) !! id = Some req ↔
    sr_ID req = id ∧ ∃ p, p ∈ x_steps x ∧ unfinished p ∧ req_of p = req.

Lemma unfinished_insert (l : list step_call) i p q req : l !! i = Some p →
  req_of q = req_of p → NoDup ((λ p, sr_ID (req_of p)) <$> l) →
  (∃ p', p' ∈ <[i := q]> l ∧ unfinished p' ∧ req_of p' = req) ↔
  (sr_ID req ≠ sr_ID (req_of p) ∧ ∃ p', p' ∈ l ∧ unfinished p' ∧ req_of p' = req) ∨
  (req = req_of p ∧ unfinished q).
Proof.
  intros Hi Hq Hnd. pose proof (lookup_lt_Some _ _ _ Hi) as Hlt. split.
  - intros (p' & [k Hk]%list_elem_of_lookup & Hu & <-).
    apply list_lookup_insert_Some in Hk as [(<- & <- & _)|[Hne Hk]]; [right; by rewrite Hq|left].
    split; [|exists p'; split; [by eapply list_elem_of_lookup_2|done]].
    intros Hid. apply Hne. eapply (NoDup_lookup _ _ _ (sr_ID (req_of p)) Hnd);
      rewrite list_lookup_fmap; [by rewrite Hi|by rewrite Hk; simpl; f_equal].
  - intros [(Hid & p' & [k Hk]%list_elem_of_lookup & Hu & <-)|[-> Hu]].
    + exists p'. split; [|done]. apply list_elem_of_lookup. exists k.
      rewrite list_lookup_insert_ne; [done|]. intros ->. congruence.
    + exists q. split; [|done]. apply list_elem_of_lookup. exists i. by apply list_lookup_insert_eq.
Qed.

Lemma pending_set_step x i p q c :
  pending_inv x → x_steps x !! i = Some p → req_of q = req_of p → unfinished p →
  (unfinished q ∧ pending c = pending (x_ctl x) ∨
   ¬ unfinished q ∧ pending c = delete (sr_ID (req_of p)) (pending (x_ctl x))) →
  pending_inv (set_step i q (set_ctl c x)).
Proof.
  intros Hinv Hi Hq Hp Hc Hnd id req. unfold step_ids in Hnd. simpl in *.
  assert (NoDup (step_ids x)) as Hnd'.
  { unfold step_ids. rewrite <- (list_insert_id _ _ _ Hi), list_fmap_insert.
    rewrite list_fmap_insert in Hnd. by rewrite <- Hq. }
  rewrite (unfinished_insert _ i p q req Hi Hq Hnd').
  assert (∃ p', p' ∈ x_steps x ∧ unfinished p' ∧ req_of p' = req_of p) as Hex.
  { exists p. split; [by eapply list_elem_of_lookup_2|done]. }
  assert (pending (x_ctl x) !! sr_ID (req_of p) = Some (req_of p)) as Hpp by (by apply Hinv).
  destruct Hc as [[Hu ->]|[Hu ->]].
  - rewrite (Hinv Hnd' id req). split; [|naive_solver].
    intros [Hid He]. split; [done|]. destruct (decide (sr_ID req = sr_ID (req_of p))) as [Heq|]; [|auto].
    right. split; [|done]. assert (pending (x_ctl x) !! id = Some req) as Hr by (by apply Hinv).
    subst id. rewrite Heq in Hr. congruence.
  - rewrite lookup_delete_Some, (Hinv Hnd' id req). naive_solver.
Qed.

Lemma pending_inv_step x x' : pending_inv x → xstep x x' → pending_inv x'.
Proof.
  intros Hinv Hstep. destruct Hstep as [m x0 x1 E].
  destruct m as [req|i| |resp|j|i|i|i err]; simpl in E.
  - injection E as <-. intros Hnd id r. unfold step_ids in Hnd. simpl in *. rewrite fmap_app in Hnd.
    apply NoDup_app in Hnd as (Hnd & Hdis & _). setoid_rewrite elem_of_snoc.
    assert (∀ p, p ∈ x_steps x0 → sr_ID (req_of p) ≠ sr_ID req) as Hne.
    { intros p Hp Heq. apply (Hdis (sr_ID (req_of p))); [|rewrite Heq; simpl; left].
      by apply (list_elem_of_fmap_2 (λ p, sr_ID (req_of p))). }
    specialize (Hinv Hnd id r). destruct (decide (id = sr_ID req)) as [->|Hid].
    + rewrite lookup_insert_eq. split.
      * intros [= <-]. split; [done|]. exists (SSend req). split; [by right|done].
      * intros [Hid (p & [Hp| ->] & _ & <-)]; [by destruct (Hne p)|done].
    + rewrite lookup_insert_ne by done. rewrite Hinv. split; [naive_solver|].
      intros [Hr (p & [Hp| ->] & Hu & <-)]; [naive_solver|]. simpl in Hr. congruence.
  - destruct (x_steps x0 !! i) as [[req| | |]|] eqn:Hi; try done. case_bool_decide; [|done].
    injection E as <-. eapply pending_set_step; eauto; simpl; auto.
  - destruct (requests (x_ctl x0)) as [|r rest]; [done|]. by injection E as <-.
  - by injection E as <-.
  - destruct (x_responds x0 !! j) as [[resp|]|]; try done. case_bool_decide; [|done].
    by injection E as <-.
  - destruct (x_steps x0 !! i) as [[|req| |]|] eqn:Hi; try done.
    destruct (responses (x_ctl x0)) as [|resp rest]; [done|].
    case_bool_decide; injection E as <-; eapply pending_set_step; eauto; simpl; auto.
    right. split; [tauto|]. by case_bool_decide.
  - destruct (x_steps x0 !! i) as [[| |req resp|]|] eqn:Hi; try done. injection E as <-.
    eapply pending_set_step; eauto; simpl; auto. left. split; [done|]. by case_bool_decide.
  - destruct (x_steps x0 !! i) as [[req|req| |]|] eqn:Hi; try done; injection E as <-;
      eapply pending_set_step; eauto; simpl; auto.
Qed.

Lemma xrun_reachable ms x x' : xrun ms x = Some x' → rtc xstep x x'.
Proof.
  revert x. induction ms as [|m ms IH]; simpl; intros x E; [by injection E as ->|].
  destruct (xexec m x) as [x1|] eqn:E1; [|done]. eapply rtc_l; [by econstructor|by apply IH].
Qed.

Lemma exchange_reachable n x : rtc xstep (xinit n) x → exchange_inv n x ∧ pending_inv x.
Proof.
  intros Hx. apply rtc_ind_r with (P := λ x, exchange_inv n x ∧ pending_inv x) in Hx; [done| |].
  - split; [split; simpl; try lia; set_solver|]. intros _ id req. simpl.
    split; [done|]. intros (_ & p & Hp & _). set_solver.
  - intros y z _ Hyz [H1 H2]. split; [by eapply exchange_inv_step|by eapply pending_inv_step].
Qed.
End Exchange.

(** However the calls of [Step] and [Respond] of a channel controller and their
    cancellations interleave, a [Step] returns only a response that carries its own
    request ID and that a completed [Respond] handed over; the channels keep to their
    buffers; and, with distinct request IDs, exactly the requests of the unfinished
    calls are pending. *)
Theorem channel_exchange n x : rtc Channel.xstep (Channel.xinit n) x →
  (∀ req resp, Channel.SReturn req (inl resp) ∈ Channel.x_steps x →
    sp_RequestID resp = sr_ID req ∧ Channel.RReturn resp None ∈ Channel.x_responds x) ∧
  length (Channel.requests (Channel.x_ctl x)) ≤ n ∧
  length (Channel.responses (Channel.x_ctl x)) ≤ n ∧
  (NoDup (step_ids x) → ∀ id req,
    Channel.pending (Channel.x_ctl x) !! id = Some req ↔
    sr_ID req = id ∧ ∃ p, p ∈ Channel.x_steps x ∧ unfinished p ∧ req_of p = req).
Proof. intros [[] Hp]%exchange_reachable. auto. Qed.

(** ** Concrete interleavings *)

Section Samples.
Import Channel.

Definition sample_request (id : string) : StepRequest :=
  mkStepRequest id "run" StepPointBeforeNode "n" "noop" None 1 None (mkGraphSnap "g" "n" [] [] []) 0.

Definition answer (id : string) : StepResponse := mkStepResponse id StepActionContinue None ∅.

Definition one_exchange : list xmove :=
  [XStep (sample_request "a"); XSend 0; XTake; XRespond (answer "a"); XDeliver 0; XRecv 0].

Definition one_end : exchange := default (xinit 1) (xrun one_exchange (xinit 1)).

Lemma channel_exchange_witness :
  x_steps one_end = [SReturn (sample_request "a") (inl (answer "a"))] ∧
  ((∀ req resp, SReturn req (inl resp) ∈ x_steps one_end →
    sp_RequestID resp = sr_ID req ∧ RReturn resp None ∈ x_responds one_end) ∧
  length (requests (x_ctl one_end)) ≤ 1 ∧
  length (responses (x_ctl one_end)) ≤ 1 ∧
  (NoDup (step_ids one_end) → ∀ id req,
    pending (x_ctl one_end) !! id = Some req ↔
    sr_ID req = id ∧ ∃ p, p ∈ x_steps one_end ∧ unfinished p ∧ req_of p = req)).
Proof.
  split; [vm_compute; reflexivity|]. apply (channel_exchange 1 one_end).
  apply (xrun_reachable one_exchange). vm_compute. reflexivity.
Defined.

(** A response can be lost although its [Respond] returned nil: call [a] holds the
    response for [b] while [Respond] fills the buffer with the one for [a]. *)
Definition lossy : list xmove :=
  [XStep (sample_request "a"); XSend 0; XTake; XStep (sample_request "b"); XSend 1; XTake;
   XRespond (answer "b"); XDeliver 0; XRecv 0; XRespond (answer "a"); XDeliver 1;
   XPutBack 0; XRecv 0].

Example response_lost : ∃ x, xrun lossy (xinit 1) = Some x ∧
  x_steps x = [SReturn (sample_request "a") (inl (answer "a")); SWait (sample_request "b")] ∧
  x_responds x = [RReturn (answer "b") None; RReturn (answer "a") None] ∧
  responses (x_ctl x) = [].
Proof. eexists. split; [vm_compute; reflexivity|]. by vm_compute. Qed.

(** [Resume] between the test of [paused] and the wait is lost: the call waits on a
    controller that is not paused. *)
Example resume_lost : ∃ s,
  Auto.arun [Auto.AmPause; Auto.AmStep (sample_request "a"); Auto.AmRead 0; Auto.AmResume None;
             Auto.AmBranch 0] (Auto.mkAutoSys (Auto.NewAutoStepController 0) []) = Some s ∧
  Auto.paused (Auto.au_ctl s) = false ∧ Auto.au_calls s = [Auto.AWait (sample_request "a")].
Proof. eexists. split; [vm_compute; reflexivity|]. by vm_compute. Qed.
End Samples.
