(* ===== verification/ExprLexer.v ===== *)
(** * The expression lexer (nodes/conditional/expr/lexer.go)

    Tokens and the lexer state machine over the bytes of the source. [lexAll]
    carries fuel: every iteration consumes a byte, so [length src + 1] suffices. *)

From stdpp Require Import gmap strings list.
From Stdlib Require Import Ascii ZArith Lia Sorted.
From S2P Require Import Prelude Values Unicode.

(** ** Tokens *)

Inductive TokenKind :=
| TokenIdent | TokenNumber | TokenString
| TokenEq | TokenNeq | TokenGt | TokenGte | TokenLt | TokenLte
| TokenAnd | TokenOr | TokenNot | TokenNullCoal
| TokenIn | TokenHas | TokenContains | TokenStartsWith | TokenEndsWith | TokenMatches
| TokenDot | TokenLBracket | TokenRBracket | TokenLParen | TokenRParen | TokenComma
| TokenTrue | TokenFalse | TokenNull | TokenEOF.

#[export] Instance TokenKind_eq_dec : EqDecision TokenKind.
Proof. solve_decision. Defined.

(** [TokenKind.String]. *)
Definition token_name (k : TokenKind) : string :=
  match k with
  | TokenIdent => "identifier" | TokenNumber => "number" | TokenString => "string"
  | TokenEq => "==" | TokenNeq => "!=" | TokenGt => ">" | TokenGte => ">="
  | TokenLt => "<" | TokenLte => "<=" | TokenAnd => "&&" | TokenOr => "||"
  | TokenNot => "!" | TokenNullCoal => "??" | TokenIn => "in" | TokenHas => "has"
  | TokenContains => "contains" | TokenStartsWith => "startsWith" | TokenEndsWith => "endsWith"
  | TokenMatches => "matches" | TokenDot => "." | TokenLBracket => "[" | TokenRBracket => "]"
  | TokenLParen => "(" | TokenRParen => ")" | TokenComma => "," | TokenTrue => "true"
  | TokenFalse => "false" | TokenNull => "null" | TokenEOF => "EOF"
  end.

Record Token := mkToken { tk_Kind : TokenKind; tk_Value : string; tk_Pos : nat }.

#[export] Instance Token_eq_dec : EqDecision Token.
Proof. solve_decision. Defined.

(** The map [keywords]. *)
Definition keywords (word : string) : option TokenKind :=
  match word with
  | "in" => Some TokenIn
  | "has" => Some TokenHas
  | "contains" => Some TokenContains
  | "startsWith" => Some TokenStartsWith
  | "endsWith" => Some TokenEndsWith
  | "matches" => Some TokenMatches
  | "true" => Some TokenTrue
  | "false" => Some TokenFalse
  | "null" => Some TokenNull
  | _ => None
  end.

(** ** The lexer *)

(** [lx_rest] is [src[pos:]]. *)
Record Lexer := mkLexer { lx_rest : string; lx_pos : nat; lx_tokens : list Token }.

Definition consume (n : nat) (l : Lexer) : Lexer :=
  mkLexer (drop_bytes n (lx_rest l)) (lx_pos l + n) (lx_tokens l).

Definition push (t : Token) (l : Lexer) : Lexer :=
  mkLexer (lx_rest l) (lx_pos l) (lx_tokens l ++ [t]).

(** [emit1] and [emit2]: a token of [n] bytes. *)
Definition emit_n (n : nat) (kind : TokenKind) (l : Lexer) : Lexer :=
  consume n (push (mkToken kind (take_bytes n (lx_rest l)) (lx_pos l)) l).

(** [peekNext]: the byte after the current one, 0 at the end. *)
Definition peekNext (l : Lexer) : Z :=
  match lx_rest l with
  | String _ (String c _) => byte_val c
  | _ => 0
  end.

Definition rune (c : ascii) : Z := byte_val c.

(** [string(ch)] for the first rune of [s]: its bytes, or U+FFFD. *)
Definition rune_string (s : string) : string :=
  let '(ch, size) := DecodeRune s in
  if (ch =? RuneError)%Z then String "239"%char (String "191"%char (String "189"%char EmptyString))
  else take_bytes size s.

Definition tryEmitDoubleCharToken (ch : Z) (l : Lexer) : option Lexer :=
  let next := peekNext l in
  let pair a b := (ch =? rune a)%Z && (next =? rune b)%Z in
  if pair "="%char "="%char then Some (emit_n 2 TokenEq l)
  else if pair "!"%char "="%char then Some (emit_n 2 TokenNeq l)
  else if pair ">"%char "="%char then Some (emit_n 2 TokenGte l)
  else if pair "<"%char "="%char then Some (emit_n 2 TokenLte l)
  else if pair "&"%char "&"%char then Some (emit_n 2 TokenAnd l)
  else if pair "|"%char "|"%char then Some (emit_n 2 TokenOr l)
  else if pair "?"%char "?"%char then Some (emit_n 2 TokenNullCoal l)
  else None.

Definition tryEmitSingleCharToken (ch : Z) (l : Lexer) : option Lexer :=
  let eq_ch a := (ch =? rune a)%Z in
  if eq_ch ">"%char then Some (emit_n 1 TokenGt l)
  else if eq_ch "<"%char then Some (emit_n 1 TokenLt l)
  else if eq_ch "!"%char then Some (emit_n 1 TokenNot l)
  else if eq_ch "."%char then Some (emit_n 1 TokenDot l)
  else if eq_ch "["%char then Some (emit_n 1 TokenLBracket l)
  else if eq_ch "]"%char then Some (emit_n 1 TokenRBracket l)
  else if eq_ch "("%char then Some (emit_n 1 TokenLParen l)
  else if eq_ch ")"%char then Some (emit_n 1 TokenRParen l)
  else if eq_ch ","%char then Some (emit_n 1 TokenComma l)
  else None.

(** The loop of [skipWhitespace]: the number of bytes skipped. *)
Fixpoint space_bytes (fuel : nat) (s : string) : nat :=
  match fuel, s with
  | S fuel', String _ _ =>
      let '(ch, size) := DecodeRune s in
      if IsSpace ch then size + space_bytes fuel' (drop_bytes size s) else 0
  | _, _ => 0
  end.

Definition skipWhitespace (l : Lexer) : Lexer :=
  consume (space_bytes (String.length (lx_rest l)) (lx_rest l)) l.

(** What an escape sequence stands for. *)
Definition unescape (esc : ascii) : string :=
  if bool_decide (esc = "034"%char ∨ esc = "\"%char ∨ esc = "/"%char) then String esc EmptyString
  else if bool_decide (esc = "n"%char) then String "010"%char EmptyString
  else if bool_decide (esc = "t"%char) then String "009"%char EmptyString
  else if bool_decide (esc = "r"%char) then String "013"%char EmptyString
  else String "\"%char (String esc EmptyString).

(** The loop of [lexString] after the opening quote: the contents and the number
    of bytes read, the closing quote included; [None] when unterminated. *)
Fixpoint string_body (s : string) : option (string * nat) :=
  match s with
  | EmptyString => None
  | String c t =>
      if decide (c = "\"%char) then
        match t with
        | EmptyString => None
        | String esc u =>
            match string_body u with
            | Some (v, n) => Some (unescape esc ^^ v, S (S n))
            | None => None
            end
        end
      else if decide (c = "034"%char) then Some (EmptyString, 1)
      else match string_body t with
           | Some (v, n) => Some (String c v, S n)
           | None => None
           end
  end.

Definition lexString (l : Lexer) : Lexer + error :=
  match string_body (drop_bytes 1 (lx_rest l)) with
  | Some (v, n) => inl (consume (S n) (push (mkToken TokenString v (lx_pos l)) l))
  | None => inr (EFmt [PS "unterminated string at position "; PD (Z.of_nat (lx_pos l))])
  end.

Definition isDigit (ch : Z) : bool := (48 <=? ch)%Z && (ch <=? 57)%Z.

Fixpoint digit_bytes (s : string) : nat :=
  match s with
  | String c t => if isDigit (byte_val c) then S (digit_bytes t) else 0
  | EmptyString => 0
  end.

(** The length of a numeric literal. *)
Definition number_bytes (s : string) : nat :=
  let sign := match s with String c _ => if decide (c = "-"%char) then 1 else 0 | _ => 0 end in
  let s1 := drop_bytes sign s in
  let n1 := digit_bytes s1 in
  let s2 := drop_bytes n1 s1 in
  match s2 with
  | String c t => if decide (c = "."%char) then sign + n1 + S (digit_bytes t) else sign + n1
  | EmptyString => sign + n1
  end.

Definition lexNumber (l : Lexer) : Lexer := emit_n (number_bytes (lx_rest l)) TokenNumber l.

(** The last token after which a ['-'] starts a negative number. *)
Definition isNegativeNumber (l : Lexer) : bool :=
  match last (lx_tokens l) with
  | None => true
  | Some t =>
      match tk_Kind t with
      | TokenEq | TokenNeq | TokenGt | TokenGte | TokenLt | TokenLte
      | TokenAnd | TokenOr | TokenNot | TokenNullCoal
      | TokenLParen | TokenLBracket | TokenComma
      | TokenIn | TokenHas | TokenContains | TokenStartsWith
      | TokenEndsWith | TokenMatches => true
      | _ => false
      end
  end.

Section Lexing.
Context `{UnicodeTables}.

Definition isIdentStart (ch : Z) : bool := (ch =? rune "_"%char)%Z || IsLetter ch.
Definition isIdentPart (ch : Z) : bool := (ch =? rune "_"%char)%Z || IsLetter ch || IsDigit ch.

Fixpoint ident_bytes (fuel : nat) (s : string) : nat :=
  match fuel, s with
  | S fuel', String _ _ =>
      let '(ch, size) := DecodeRune s in
      if isIdentPart ch then size + ident_bytes fuel' (drop_bytes size s) else 0
  | _, _ => 0
  end.

Definition lexIdent (l : Lexer) : Lexer :=
  let n := ident_bytes (String.length (lx_rest l)) (lx_rest l) in
  let word := take_bytes n (lx_rest l) in
  emit_n n (default TokenIdent (keywords word)) l.

(** One iteration of [lexAll], white space skipped and input left. *)
Definition lex_one (l : Lexer) : Lexer + error :=
  let ch := (DecodeRune (lx_rest l)).1 in
  match tryEmitDoubleCharToken ch l with
  | Some l' => inl l'
  | None =>
      match tryEmitSingleCharToken ch l with
      | Some l' => inl l'
      | None =>
          if (ch =? rune "034"%char)%Z then lexString l
          else if isDigit ch || ((ch =? rune "-"%char)%Z && isNegativeNumber l)
          then inl (lexNumber l)
          else if isIdentStart ch then inl (lexIdent l)
          else inr (EFmt [PS "unexpected character "; PQ (rune_string (lx_rest l));
                          PS " at position "; PD (Z.of_nat (lx_pos l))])
      end
  end.

(** [None]: the fuel ran out. *)
Fixpoint lexAll (fuel : nat) (l : Lexer) : option (Lexer + error) :=
  match fuel with
  | 0 => None
  | S fuel' =>
      let l := skipWhitespace l in
      match lx_rest l with
      | EmptyString => Some (inl (push (mkToken TokenEOF EmptyString (lx_pos l)) l))
      | String _ _ =>
          match lex_one l with
          | inl l' => lexAll fuel' l'
          | inr err => Some (inr err)
          end
      end
  end.

Definition Lex (src : string) : option (list Token + error) :=
  match lexAll (S (String.length src)) (mkLexer src 0 []) with
  | Some (inl l) => Some (inl (lx_tokens l))
  | Some (inr err) => Some (inr err)
  | None => None
  end.
End Lexing.

(** ** Correctness *)

Lemma drop_drop_bytes n m s : drop_bytes n (drop_bytes m s) = drop_bytes (m + n) s.
Proof. revert s. induction m as [|m IH]; intros s; [done|]. destruct s; [by destruct n|apply IH]. Qed.

Section Correctness.
Context `{UnicodeTables}.

(** What a lexing step does: [n] bytes become the token [t]. *)
Record lexes (l : Lexer) (n : nat) (t : Token) : Prop := {
  lxs_pos : 0 < n ≤ String.length (lx_rest l);
  lxs_tok : tk_Pos t = lx_pos l;
  lxs_kind : tk_Kind t ≠ TokenEOF;
  lxs_text : tk_Kind t ≠ TokenString → tk_Value t = take_bytes n (lx_rest l)
}.

Definition lex_step (l : Lexer) (r : Lexer + error) : Prop :=
  ∀ l', r = inl l' → ∃ n t, lexes l n t ∧ l' = consume n (push t l).

Lemma emit_n_step n kind l :
  0 < n ≤ String.length (lx_rest l) → kind ≠ TokenEOF → lex_step l (inl (emit_n n kind l)).
Proof. intros Hn Hk l' [= <-]. eexists n, _. split; [|done]. by split. Qed.

Lemma double_step ch l l' : tryEmitDoubleCharToken ch l = Some l' → lex_step l (inl l').
Proof.
  intros Hd. assert (2 ≤ String.length (lx_rest l)) as Hlen.
  { unfold tryEmitDoubleCharToken, peekNext in Hd.
    destruct (lx_rest l) as [|c [|c' r]]; simpl in *; try lia; exfalso;
      by rewrite !andb_false_r in Hd. }
  unfold tryEmitDoubleCharToken in Hd.
  repeat (case_match; simplify_eq; try (apply emit_n_step; [lia|done])).
Qed.

Lemma single_step ch l l' :
  lx_rest l ≠ EmptyString → tryEmitSingleCharToken ch l = Some l' → lex_step l (inl l').
Proof.
  intros Hne Hd. assert (1 ≤ String.length (lx_rest l)) as Hlen
    by (destruct (lx_rest l); [done|simpl; lia]).
  unfold tryEmitSingleCharToken in Hd.
  repeat (case_match; simplify_eq; try (apply emit_n_step; [lia|done])).
Qed.

Lemma string_body_bytes s v n : string_body s = Some (v, n) → 0 < n ≤ String.length s.
Proof.
  remember (String.length s) as k eqn:Hk. revert s v n Hk.
  induction k as [k IH] using lt_wf_ind. intros s v n -> Hs.
  destruct s as [|c t]; [done|]. cbn [string_body] in Hs.
  destruct (decide (c = _)).
  - destruct t as [|esc u]; [done|]. destruct (string_body u) as [[v' n']|] eqn:E; [|done].
    simplify_eq. apply (IH (String.length u)) in E; simpl; try done; lia.
  - destruct (decide (c = _)); [simplify_eq; simpl; lia|].
    destruct (string_body t) as [[v' n']|] eqn:E; [|done].
    simplify_eq. apply (IH (String.length t)) in E; simpl; try done; lia.
Qed.

Lemma string_step l : lx_rest l ≠ EmptyString → lex_step l (lexString l).
Proof.
  intros Hne l' Hl. unfold lexString in Hl.
  destruct (string_body _) as [[v n]|] eqn:E; [|done]. injection Hl as <-.
  apply string_body_bytes in E. rewrite length_drop_bytes in E.
  eexists (S n), _. split; [|done]. split; simpl; try done. lia.
Qed.

Lemma digit_bytes_le s : digit_bytes s ≤ String.length s.
Proof. induction s as [|c s IH]; simpl; [lia|]. case_match; simpl; lia. Qed.

Lemma number_bytes_bound s : number_bytes s ≤ String.length s.
Proof.
  unfold number_bytes.
  set (sign := match s with String c _ => if decide (c = "-"%char) then 1 else 0 | _ => 0 end).
  assert (sign ≤ String.length s) as Hs.
  { unfold sign. destruct s; simpl; [lia|]. case_decide; lia. }
  pose proof (digit_bytes_le (drop_bytes sign s)) as Hd. rewrite length_drop_bytes in Hd.
  destruct (drop_bytes (digit_bytes _) _) as [|c t] eqn:E; [lia|].
  case_decide; [|lia]. pose proof (digit_bytes_le t).
  apply (f_equal String.length) in E. rewrite !length_drop_bytes in E. simpl in E. lia.
Qed.

(** The decoded rune is the first byte when it is an ASCII character. *)
Lemma DecodeRune_ascii c s k : (0 <= k < 128)%Z →
  (DecodeRune (String c s)).1 = k → byte_val c = k.
Proof.
  intros Hk. assert (0 <= byte_val c < 256)%Z as Hb.
  { unfold byte_val. pose proof (nat_ascii_bounded c). lia. }
  unfold DecodeRune. destruct (byte_val c <? 128)%Z eqn:E; simpl; [done|].
  apply Z.ltb_ge in E. unfold RuneError, in_range, second_lo, second_hi in *.
  repeat (case_match; simpl in *; try lia); intros ?; bool_simp; lia.
Qed.

Lemma number_step ch l : ch = (DecodeRune (lx_rest l)).1 → lx_rest l ≠ EmptyString →
  isDigit ch || ((ch =? rune "-"%char)%Z && isNegativeNumber l) = true →
  lex_step l (inl (lexNumber l)).
Proof.
  intros Hch Hne Hd. apply emit_n_step; [|done]. split; [|apply number_bytes_bound].
  destruct (lx_rest l) as [|c t] eqn:E; [done|]. unfold number_bytes.
  destruct (decide (c = "-"%char)) as [->|Hc].
  - case_match; [lia|]. case_decide; lia.
  - cbn [drop_bytes digit_bytes].
    assert (isDigit (byte_val c) = true) as ->; [|simpl; repeat case_match; lia].
    apply orb_true_iff in Hd as [Hd|Hd].
    + unfold isDigit in Hd. bool_simp. symmetry in Hch.
      apply DecodeRune_ascii in Hch; [|lia]. unfold isDigit. rewrite Hch. lia.
    + apply andb_true_iff in Hd as [Hd _]. apply Z.eqb_eq in Hd. rewrite Hd in Hch. symmetry in Hch.
      apply DecodeRune_ascii in Hch; [|by vm_compute; split]. destruct Hc.
      assert (nat_of_ascii c = nat_of_ascii "-"%char) as Hn by (by apply Nat2Z.inj).
      rewrite <- (ascii_nat_embedding c), Hn. done.
Qed.

Lemma ident_bytes_le fuel : ∀ s, ident_bytes fuel s ≤ String.length s.
Proof.
  induction fuel as [|fuel IH]; intros [|c s]; cbn [ident_bytes]; try (simpl; lia).
  pose proof (DecodeRune_width c s) as Hw.
  destruct (DecodeRune (String c s)) as [ch size]. cbn [fst snd] in Hw.
  case_match; [|lia]. specialize (IH (drop_bytes size (String c s))).
  rewrite length_drop_bytes in IH. lia.
Qed.

Lemma keywords_eof w : default TokenIdent (keywords w) ≠ TokenEOF.
Proof. unfold keywords. by repeat case_match. Qed.

Lemma ident_step l : lx_rest l ≠ EmptyString →
  isIdentStart (DecodeRune (lx_rest l)).1 = true → lex_step l (inl (lexIdent l)).
Proof.
  intros Hne Hs. apply emit_n_step; [|apply keywords_eof]. split; [|apply ident_bytes_le].
  destruct (lx_rest l) as [|c t]; [done|]. cbn [String.length ident_bytes].
  pose proof (DecodeRune_width c t) as Hw.
  destruct (DecodeRune (String c t)) as [ch size]. cbn [fst snd] in *.
  assert (isIdentPart ch = true) as ->; [|lia].
  unfold isIdentStart, isIdentPart in *. by rewrite Hs.
Qed.

Lemma lex_one_step l : lx_rest l ≠ EmptyString → lex_step l (lex_one l).
Proof.
  intros Hne. unfold lex_one.
  destruct (tryEmitDoubleCharToken _ l) eqn:E1; [by eapply double_step|].
  destruct (tryEmitSingleCharToken _ l) eqn:E2; [by eapply single_step|].
  case_match; [by apply string_step|].
  case_match; [by eapply number_step|].
  case_match; [by apply ident_step|done].
Qed.

Lemma space_bytes_le fuel : ∀ s, space_bytes fuel s ≤ String.length s.
Proof.
  induction fuel as [|fuel IH]; intros [|c s]; cbn [space_bytes]; try (simpl; lia).
  pose proof (DecodeRune_width c s) as Hw.
  destruct (DecodeRune (String c s)) as [ch size]. cbn [fst snd] in Hw.
  case_match; [|lia]. specialize (IH (drop_bytes size (String c s))).
  rewrite length_drop_bytes in IH. lia.
Qed.

(** The token stands at its position in the source. *)
Definition token_at (src : string) (t : Token) : Prop :=
  tk_Kind t ≠ TokenEOF ∧ tk_Pos t < String.length src ∧
  (tk_Kind t ≠ TokenString →
   tk_Value t = take_bytes (String.length (tk_Value t)) (drop_bytes (tk_Pos t) src)).

Record lex_inv (src : string) (l : Lexer) : Prop := {
  lxi_rest : lx_rest l = drop_bytes (lx_pos l) src;
  lxi_pos : lx_pos l ≤ String.length src;
  lxi_toks : Forall (token_at src) (lx_tokens l);
  lxi_sorted : StronglySorted lt (map tk_Pos (lx_tokens l));
  lxi_bound : Forall (λ t, tk_Pos t < lx_pos l) (lx_tokens l)
}.

Lemma skip_inv src l : lex_inv src l → lex_inv src (skipWhitespace l).
Proof.
  intros [H1 H2 H3 H4 H5]. unfold skipWhitespace.
  pose proof (space_bytes_le (String.length (lx_rest l)) (lx_rest l)) as Hle.
  split; simpl; try done.
  - by rewrite H1, drop_drop_bytes.
  - assert (String.length (lx_rest l) = String.length src - lx_pos l) as Hlen
      by (by rewrite H1, length_drop_bytes).
    lia.
  - eapply Forall_impl; [done|]. simpl. lia.
Qed.

Lemma StronglySorted_snoc (l : list nat) x :
  StronglySorted lt l → Forall (λ y, y < x) l → StronglySorted lt (l ++ [x]).
Proof.
  induction 1 as [|y l Hs IH Hy]; intros Hf; simpl; [repeat constructor|].
  inversion Hf; subst. constructor; [auto|]. apply Forall_app_2; [done|]. by constructor.
Qed.

Lemma lexes_inv src l n t : lex_inv src l → lexes l n t → lex_inv src (consume n (push t l)).
Proof.
  intros [H1 H2 H3 H4 H5] [[Hn Hle] Hp Hk Ht]. rewrite H1, length_drop_bytes in Hle.
  split; simpl.
  - by rewrite H1, drop_drop_bytes.
  - lia.
  - apply Forall_app_2; [done|]. apply Forall_singleton. split; [done|]. rewrite Hp. split; [lia|].
    intros Hks. rewrite (Ht Hks), length_take_bytes, H1, length_drop_bytes. f_equal. lia.
  - rewrite map_app. simpl. rewrite Hp. apply StronglySorted_snoc; [done|].
    rewrite Forall_map. done.
  - apply Forall_app_2; [|apply Forall_singleton; lia]. eapply Forall_impl; [done|]. simpl. lia.
Qed.

Lemma lexAll_total src fuel : ∀ l, lex_inv src l → String.length (lx_rest l) < fuel →
  (∃ l' toks, lexAll fuel l = Some (inl l') ∧
    lx_tokens l' = toks ++ [mkToken TokenEOF EmptyString (String.length src)] ∧
    Forall (token_at src) toks ∧ StronglySorted lt (map tk_Pos toks)) ∨
  ∃ err, lexAll fuel l = Some (inr err).
Proof.
  induction fuel as [|fuel IH]; intros l Hinv Hf; [lia|]. cbn [lexAll]. cbv zeta.
  pose proof (skip_inv src l Hinv) as Hinv'.
  assert (String.length (lx_rest (skipWhitespace l)) ≤ String.length (lx_rest l)) as Hle.
  { unfold skipWhitespace. simpl. rewrite length_drop_bytes. lia. }
  destruct (lx_rest (skipWhitespace l)) as [|c r] eqn:E.
  - left. eexists _, (lx_tokens (skipWhitespace l)). split; [done|].
    assert (lx_pos (skipWhitespace l) = String.length src) as Hpos.
    { destruct Hinv' as [H1 H2 _ _ _]. rewrite E in H1.
      apply (f_equal String.length) in H1. cbn [String.length] in H1. rewrite length_drop_bytes in H1. lia. }
    destruct Hinv'. cbn [push lx_tokens lx_pos]. by rewrite Hpos.
  - rewrite <- E in Hle. pose proof (lex_one_step (skipWhitespace l)) as Hstep.
    destruct (lex_one (skipWhitespace l)) as [l'|err]; [|right; eauto].
    destruct (Hstep ltac:(by rewrite E) l' eq_refl) as (n & t & Hlx & ->).
    apply IH; [by eapply lexes_inv|]. destruct Hlx as [[? ?] _ _ _].
    cbn [consume push lx_rest]. rewrite length_drop_bytes. lia.
Qed.
End Correctness.

Lemma lex_inv_init src : lex_inv src (mkLexer src 0 []).
Proof. split; simpl; try done; try constructor. lia. Qed.

(** [Lex] terminates on every byte string. It either reports an error or
    returns tokens that end with one EOF at the end of the source; before it, the
    positions increase strictly, and each token other than a string literal is
    spelled exactly as the source is at its position. *)
Theorem Lex_correct `{UnicodeTables} (src : string) :
  (∃ toks, Lex src = Some (inl (toks ++ [mkToken TokenEOF EmptyString (String.length src)])) ∧
    Forall (token_at src) toks ∧ StronglySorted lt (map tk_Pos toks)) ∨
  ∃ err, Lex src = Some (inr err).
Proof.
  destruct (lexAll_total src (S (String.length src)) (mkLexer src 0 []) (lex_inv_init src))
    as [(l' & toks & Hl & Ht & ? & ?)|[err Herr]]; [simpl; lia| |].
  - left. exists toks. unfold Lex. by rewrite Hl, Ht.
  - right. exists err. unfold Lex. by rewrite Herr.
Qed.
