(* ===== verification/ExprParser.v ===== *)
(** * The expression parser (nodes/conditional/expr/ast.go, parser.go, validate.go)

    The abstract syntax and the recursive-descent parser over the tokens of the
    lexer, together with the grammar its comments document; the parser accepts
    exactly the token sequences of the grammar and returns their syntax tree.

    A parser state is the list of the tokens left ([tokens[pos:]]). [parseExpr]
    carries fuel for its nesting depth and every loop fuel for its rounds; both
    are bounded by the number of tokens. *)

From stdpp Require Import gmap strings list.
From Stdlib Require Import Ascii ZArith Lia.
From S2P Require Import Prelude Values Unicode ExprLexer.

(** ** Syntax trees *)

Inductive Expr :=
| BinaryExpr (Left : Expr) (Op : TokenKind) (Right : Expr)
| UnaryExpr (Op : TokenKind) (Operand : Expr)
| LiteralExpr (Value : value)
| IdentExpr (Name : string)
| MemberExpr (Object : Expr) (Property : string)
| IndexExpr (Object Index : Expr)
| ArrayLiteral (Elements : list Expr).

(** ** Numbers *)

Fixpoint digits_value (acc : Z) (s : string) : Z :=
  match s with
  | String c t =>
      if isDigit (byte_val c) then digits_value (acc * 10 + (byte_val c - 48)) t else acc
  | EmptyString => acc
  end.

(** [strconv.ParseFloat(s, 64)] on the literals the lexer produces (an optional
    sign, digits, an optional point and digits): an error without a digit or out of
    range. *)
Definition ParseFloat (s : string) : option F64.t :=
  let '(neg, s1) := match s with
                    | String c t => if decide (c = "-"%char) then (true, t) else (false, s)
                    | EmptyString => (false, s)
                    end in
  let n1 := digit_bytes s1 in
  let s2 := match drop_bytes n1 s1 with
            | String c t => if decide (c = "."%char) then t else EmptyString
            | EmptyString => EmptyString
            end in
  let n2 := digit_bytes s2 in
  if bool_decide (n1 + n2 = 0) then None
  else
    let f := F64.of_decimal neg (digits_value (digits_value 0 s1) s2) n2 in
    if F64.is_inf f then None else Some f.

(** ** The parser *)

(** A syntax tree and the tokens left, or an error; [None]: out of fuel. *)
Definition presult (A : Type) : Type := option ((A * list Token) + error).

Definition pok {A} (a : A) (ts : list Token) : presult A := Some (inl (a, ts)).
Definition perr {A} (e : error) : presult A := Some (inr e).

Definition pbind {A B} (r : presult A) (k : A → list Token → presult B) : presult B :=
  match r with
  | Some (inl (a, ts)) => k a ts
  | Some (inr e) => Some (inr e)
  | None => None
  end.

Notation "'let*' ( x , ts ) := r 'in' k" := (pbind r (λ x ts, k))
  (at level 200, x name, ts name, r at level 100, k at level 200) : petal_scope.

Definition current (ts : list Token) : Token :=
  match ts with t :: _ => t | [] => mkToken TokenEOF EmptyString 0 end.

Definition advance (ts : list Token) : list Token := tail ts.

Definition unexpected (t : Token) : error :=
  EFmt [PS "unexpected token "; PS (token_name (tk_Kind t)); PS " at position ";
        PD (Z.of_nat (tk_Pos t))].

Definition expect (kind : TokenKind) (ts : list Token) : presult Token :=
  let tok := current ts in
  if bool_decide (tk_Kind tok ≠ kind) then
    perr (EFmt [PS "expected "; PS (token_name kind); PS " but got "; PS (token_name (tk_Kind tok));
                PS " at position "; PD (Z.of_nat (tk_Pos tok))])
  else pok tok (advance ts).

Definition isKeywordToken (k : TokenKind) : bool :=
  match k with
  | TokenIn | TokenHas | TokenContains | TokenStartsWith
  | TokenEndsWith | TokenMatches | TokenTrue | TokenFalse | TokenNull => true
  | _ => false
  end.

(** The operators of each level. *)
Definition is_null_coal (k : TokenKind) : bool := match k with TokenNullCoal => true | _ => false end.
Definition is_or (k : TokenKind) : bool := match k with TokenOr => true | _ => false end.
Definition is_and (k : TokenKind) : bool := match k with TokenAnd => true | _ => false end.
Definition is_equality (k : TokenKind) : bool :=
  match k with TokenEq | TokenNeq => true | _ => false end.
Definition is_comparison (k : TokenKind) : bool :=
  match k with TokenGt | TokenGte | TokenLt | TokenLte => true | _ => false end.
Definition is_membership (k : TokenKind) : bool :=
  match k with
  | TokenIn | TokenHas | TokenContains | TokenStartsWith | TokenEndsWith | TokenMatches => true
  | _ => false
  end.

Open Scope petal_scope.

Section Levels.
(** [parseExpr], for the nested expressions. *)
Variable parse_expr : list Token → presult Expr.

(** The loop of [parseArrayLiteral]. *)
Fixpoint array_elements (fuel : nat) (elements : list Expr) (ts : list Token) : presult Expr :=
  match fuel with
  | 0 => None
  | S fuel' =>
      let* (elem, ts1) := parse_expr ts in
      let elements := elements ++ [elem] in
      if bool_decide (tk_Kind (current ts1) ≠ TokenComma) then
        let* (_t, ts2) := expect TokenRBracket ts1 in
        pok (ArrayLiteral elements) ts2
      else array_elements fuel' elements (advance ts1)
  end.

(** At the opening bracket. *)
Definition parseArrayLiteral (ts : list Token) : presult Expr :=
  let ts := advance ts in
  if bool_decide (tk_Kind (current ts) = TokenRBracket) then pok (ArrayLiteral []) (advance ts)
  else array_elements (S (length ts)) [] ts.

Definition parsePrimary (ts : list Token) : presult Expr :=
  let tok := current ts in
  match tk_Kind tok with
  | TokenNumber =>
      match ParseFloat (tk_Value tok) with
      | Some f => pok (LiteralExpr (VFloat64 f)) (advance ts)
      | None => perr (EFmt [PS "invalid number "; PQ (tk_Value tok); PS " at position ";
                            PD (Z.of_nat (tk_Pos tok))])
      end
  | TokenString => pok (LiteralExpr (VString (tk_Value tok))) (advance ts)
  | TokenTrue => pok (LiteralExpr (VBool true)) (advance ts)
  | TokenFalse => pok (LiteralExpr (VBool false)) (advance ts)
  | TokenNull => pok (LiteralExpr VNil) (advance ts)
  | TokenIdent => pok (IdentExpr (tk_Value tok)) (advance ts)
  | TokenLParen =>
      let* (e, ts1) := parse_expr (advance ts) in
      let* (_t, ts2) := expect TokenRParen ts1 in
      pok e ts2
  | TokenLBracket => parseArrayLiteral ts
  | _ => perr (unexpected tok)
  end.

(** The loop of [parsePostfix]. *)
Fixpoint postfix_loop (fuel : nat) (e : Expr) (ts : list Token) : presult Expr :=
  match fuel with
  | 0 => None
  | S fuel' =>
      match tk_Kind (current ts) with
      | TokenDot =>
          let ts1 := advance ts in
          match expect TokenIdent ts1 with
          | Some (inl (name, ts2)) => postfix_loop fuel' (MemberExpr e (tk_Value name)) ts2
          | r =>
              let tok := current ts1 in
              if isKeywordToken (tk_Kind tok)
              then postfix_loop fuel' (MemberExpr e (tk_Value tok)) (advance ts1)
              else match r with Some (inr err) => perr err | _ => None end
          end
      | TokenLBracket =>
          let* (index, ts1) := parse_expr (advance ts) in
          let* (_t, ts2) := expect TokenRBracket ts1 in
          postfix_loop fuel' (IndexExpr e index) ts2
      | _ => pok e ts
      end
  end.

Definition parsePostfix (ts : list Token) : presult Expr :=
  let* (e, ts1) := parsePrimary ts in
  postfix_loop (S (length ts1)) e ts1.

Fixpoint parseUnary (ts : list Token) : presult Expr :=
  match ts with
  | t :: rest =>
      match tk_Kind t with
      | TokenNot =>
          let* (operand, ts1) := parseUnary rest in
          pok (UnaryExpr TokenNot operand) ts1
      | _ => parsePostfix ts
      end
  | [] => parsePostfix ts
  end.

Definition parseMembership (ts : list Token) : presult Expr :=
  let* (left, ts1) := parseUnary ts in
  let op := tk_Kind (current ts1) in
  if is_membership op then
    let* (right, ts2) := parseUnary (advance ts1) in
    pok (BinaryExpr left op right) ts2
  else pok left ts1.

(** [for is_op(p.current().Kind) { op := p.advance(); right := next(); ... }]. *)
Fixpoint left_loop (is_op : TokenKind → bool) (next : list Token → presult Expr)
    (fuel : nat) (left : Expr) (ts : list Token) : presult Expr :=
  match fuel with
  | 0 => None
  | S fuel' =>
      let op := tk_Kind (current ts) in
      if is_op op then
        let* (right, ts1) := next (advance ts) in
        left_loop is_op next fuel' (BinaryExpr left op right) ts1
      else pok left ts
  end.

(** A left-associative level over the next one. *)
Definition left_level (is_op : TokenKind → bool) (next : list Token → presult Expr)
    (ts : list Token) : presult Expr :=
  let* (left, ts1) := next ts in
  left_loop is_op next (S (length ts1)) left ts1.

Definition parseComparison : list Token → presult Expr := left_level is_comparison parseMembership.
Definition parseEquality : list Token → presult Expr := left_level is_equality parseComparison.
Definition parseAnd : list Token → presult Expr := left_level is_and parseEquality.
Definition parseOr : list Token → presult Expr := left_level is_or parseAnd.
Definition parseNullCoalescing : list Token → presult Expr := left_level is_null_coal parseOr.
End Levels.

Fixpoint parseExpr (fuel : nat) (ts : list Token) : presult Expr :=
  match fuel with
  | 0 => None
  | S fuel' => parseNullCoalescing (parseExpr fuel') ts
  end.

Definition parse_tokens (ts : list Token) : option (Expr + error) :=
  match parseExpr (S (length ts)) ts with
  | Some (inl (e, ts1)) =>
      if bool_decide (tk_Kind (current ts1) ≠ TokenEOF) then Some (inr (unexpected (current ts1)))
      else Some (inl e)
  | Some (inr err) => Some (inr err)
  | None => None
  end.

Section Parse.
Context `{UnicodeTables}.

Definition Parse (input : string) : option (Expr + error) :=
  match Lex input with
  | Some (inl tokens) => parse_tokens tokens
  | Some (inr err) => Some (inr err)
  | None => None
  end.

Definition ValidateSyntax (expression : string) : option (option error) :=
  match Parse expression with
  | Some (inl _) => Some None
  | Some (inr err) => Some (Some err)
  | None => None
  end.
End Parse.

(** ** The grammar *)

(** The left-associative levels 0 to 4. *)
Definition level_op (n : nat) : TokenKind → bool :=
  match n with
  | 0 => is_null_coal
  | 1 => is_or
  | 2 => is_and
  | 3 => is_equality
  | 4 => is_comparison
  | _ => λ _, false
  end.

(** Levels 5 to 8: membership (not associative), negation, postfix, primary. *)
Inductive Derives : nat → list Token → Expr → Prop :=
| d_up n ts e : n < 8 → Derives (S n) ts e → Derives n ts e
| d_left n ts1 op ts2 e1 e2 :
    level_op n (tk_Kind op) = true → Derives n ts1 e1 → Derives (S n) ts2 e2 →
    Derives n (ts1 ++ op :: ts2) (BinaryExpr e1 (tk_Kind op) e2)
| d_member_op ts1 op ts2 e1 e2 :
    is_membership (tk_Kind op) = true → Derives 6 ts1 e1 → Derives 6 ts2 e2 →
    Derives 5 (ts1 ++ op :: ts2) (BinaryExpr e1 (tk_Kind op) e2)
| d_not t ts e :
    tk_Kind t = TokenNot → Derives 6 ts e → Derives 6 (t :: ts) (UnaryExpr TokenNot e)
| d_property ts dot name e :
    Derives 7 ts e → tk_Kind dot = TokenDot →
    tk_Kind name = TokenIdent ∨ isKeywordToken (tk_Kind name) = true →
    Derives 7 (ts ++ [dot; name]) (MemberExpr e (tk_Value name))
| d_index ts lb ts' rb e i :
    Derives 7 ts e → tk_Kind lb = TokenLBracket → Derives 0 ts' i → tk_Kind rb = TokenRBracket →
    Derives 7 (ts ++ lb :: ts' ++ [rb]) (IndexExpr e i)
| d_number t f :
    tk_Kind t = TokenNumber → ParseFloat (tk_Value t) = Some f →
    Derives 8 [t] (LiteralExpr (VFloat64 f))
| d_string t : tk_Kind t = TokenString → Derives 8 [t] (LiteralExpr (VString (tk_Value t)))
| d_true t : tk_Kind t = TokenTrue → Derives 8 [t] (LiteralExpr (VBool true))
| d_false t : tk_Kind t = TokenFalse → Derives 8 [t] (LiteralExpr (VBool false))
| d_null t : tk_Kind t = TokenNull → Derives 8 [t] (LiteralExpr VNil)
| d_ident t : tk_Kind t = TokenIdent → Derives 8 [t] (IdentExpr (tk_Value t))
| d_paren lp ts rp e :
    tk_Kind lp = TokenLParen → Derives 0 ts e → tk_Kind rp = TokenRParen →
    Derives 8 (lp :: ts ++ [rp]) e
| d_array0 lb rb :
    tk_Kind lb = TokenLBracket → tk_Kind rb = TokenRBracket → Derives 8 [lb; rb] (ArrayLiteral [])
| d_array lb ts rb es :
    tk_Kind lb = TokenLBracket → DerivesList ts es → tk_Kind rb = TokenRBracket →
    Derives 8 (lb :: ts ++ [rb]) (ArrayLiteral es)
with DerivesList : list Token → list Expr → Prop :=
| dl_one ts e : Derives 0 ts e → DerivesList ts [e]
| dl_cons ts comma ts' e es :
    Derives 0 ts e → tk_Kind comma = TokenComma → DerivesList ts' es →
    DerivesList (ts ++ comma :: ts') (e :: es).

Scheme Derives_ind_m := Induction for Derives Sort Prop
with DerivesList_ind_m := Induction for DerivesList Sort Prop.
Combined Scheme Derives_mutind from Derives_ind_m, DerivesList_ind_m.

(** ** Soundness and termination of the parser *)

Lemma current_advance ts : tk_Kind (current ts) ≠ TokenEOF → ts = current ts :: advance ts.
Proof. by destruct ts. Qed.

Lemma expect_ok kind ts t ts' : kind ≠ TokenEOF →
  expect kind ts = Some (inl (t, ts')) → ts = t :: ts' ∧ tk_Kind t = kind.
Proof.
  intros Hk. unfold expect. case_bool_decide as Hne; [done|]. intros [= <- <-].
  split; [|done]. apply current_advance. congruence.
Qed.

Lemma expect_total kind ts : expect kind ts ≠ None.
Proof. unfold expect. by case_bool_decide. Qed.

Lemma Derives_tokens :
  (∀ n ts e, Derives n ts e → ts ≠ [] ∧ Forall (λ t, tk_Kind t ≠ TokenEOF) ts) ∧
  (∀ ts es, DerivesList ts es → ts ≠ [] ∧ Forall (λ t, tk_Kind t ≠ TokenEOF) ts).
Proof.
  apply Derives_mutind; intros; destruct_and?; split; try done; try (by destruct ts1);
    try (by destruct ts); rewrite ?Forall_app, ?Forall_cons, ?Forall_app, ?Forall_cons, ?Forall_nil;
    split_and?; try done; try congruence.
  - intros E. by rewrite E in *; destruct n as [|[|[|[|[|]]]]].
  - intros E. by rewrite E in *.
  - intros E. rewrite E in *. naive_solver.
Qed.

Lemma Derives_nonempty n ts e : Derives n ts e → ts ≠ [].
Proof. intros Hd. by apply Derives_tokens in Hd as [? _]. Qed.

Lemma pbind_ok {A B} (r : presult A) (k : A → list Token → presult B) x :
  pbind r k = Some (inl x) → ∃ a ts, r = Some (inl (a, ts)) ∧ k a ts = Some (inl x).
Proof. destruct r as [[[a ts]|]|]; simpl; naive_solver. Qed.

Lemma pbind_total {A B} (r : presult A) (k : A → list Token → presult B) :
  r ≠ None → (∀ a ts, r = Some (inl (a, ts)) → k a ts ≠ None) → pbind r k ≠ None.
Proof. destruct r as [[[a ts]|]|]; simpl; naive_solver. Qed.

(** A parsed expression is derived from the tokens consumed. *)
Definition sound (n : nat) (p : list Token → presult Expr) : Prop :=
  ∀ ts e rest, p ts = Some (inl (e, rest)) → ∃ used, ts = used ++ rest ∧ Derives n used e.

Lemma sound_length n p ts e rest :
  sound n p → p ts = Some (inl (e, rest)) → length rest < length ts.
Proof.
  intros Hs E. destruct (Hs _ _ _ E) as (used & -> & Hd). rewrite length_app.
  apply Derives_tokens in Hd as [Hne _]. destruct used; [done|]. simpl. lia.
Qed.

Section Soundness.
Variable parse_expr : list Token → presult Expr.
Hypothesis Hexpr : sound 0 parse_expr.

Lemma array_elements_sound fuel : ∀ acc ts e rest,
  array_elements parse_expr fuel acc ts = Some (inl (e, rest)) →
  ∃ used es rb, ts = used ++ rb :: rest ∧ tk_Kind rb = TokenRBracket ∧
    DerivesList used es ∧ e = ArrayLiteral (acc ++ es).
Proof.
  induction fuel as [|fuel IH]; intros acc ts e rest E; [done|]. cbn [array_elements] in E.
  apply pbind_ok in E as (elem & ts1 & E1 & E).
  destruct (Hexpr _ _ _ E1) as (used & -> & Hd). cbv zeta in E. case_bool_decide as Hc.
  - apply pbind_ok in E as (t & ts2 & E2 & [= <- <-]).
    apply expect_ok in E2 as [-> Hk]; [|done].
    exists used, [elem], t. split_and!; try done. by constructor.
  - apply IH in E as (used' & es & rb & Hts & Hk & Hl & ->).
    exists (used ++ current ts1 :: used'), (elem :: es), rb.
    split_and!; [|done|by constructor|by rewrite <- app_assoc].
    rewrite <- app_assoc. simpl. rewrite <- Hts, <- current_advance; [done|congruence].
Qed.

Lemma parsePrimary_sound : sound 8 (parsePrimary parse_expr).
Proof.
  intros ts e rest E. unfold parsePrimary in E.
  assert (tk_Kind (current ts) ≠ TokenEOF → ts = [current ts] ++ advance ts) as Hts
    by apply current_advance.
  destruct (tk_Kind (current ts)) eqn:Hk; try discriminate E.
  - injection E as <- <-. exists [current ts]. split; [by apply Hts|by constructor].
  - destruct (ParseFloat _) eqn:Hf; [|done]. injection E as <- <-.
    exists [current ts]. split; [by apply Hts|by constructor].
  - injection E as <- <-. exists [current ts]. split; [by apply Hts|by constructor].
  - unfold parseArrayLiteral in E. cbv zeta in E. case_bool_decide as Hr.
    + injection E as <- <-. exists [current ts; current (advance ts)].
      split; [|by constructor]. rewrite Hts at 1 by done. simpl. f_equal.
      apply current_advance. congruence.
    + apply array_elements_sound in E as (used & es & rb & Hr' & Hkr & Hl & ->).
      exists (current ts :: used ++ [rb]). split; [|by constructor].
      rewrite Hts at 1 by done. simpl. by rewrite Hr', <- app_assoc.
  - apply pbind_ok in E as (e' & ts1 & E1 & E). apply pbind_ok in E as (t & ts2 & E2 & [= <- <-]).
    apply expect_ok in E2 as [-> Hkr]; [|done].
    destruct (Hexpr _ _ _ E1) as (used & Hu & Hd).
    exists (current ts :: used ++ [t]). split; [|by constructor].
    rewrite Hts at 1 by done. simpl. by rewrite Hu, <- app_assoc.
  - injection E as <- <-. exists [current ts]. split; [by apply Hts|by constructor].
  - injection E as <- <-. exists [current ts]. split; [by apply Hts|by constructor].
  - injection E as <- <-. exists [current ts]. split; [by apply Hts|by constructor].
Qed.

(** A property name: an identifier or a keyword. *)
Lemma property_cases ts (k : Expr → list Token → presult Expr) e x :
  (match expect TokenIdent ts with
   | Some (inl (name, ts2)) => k (MemberExpr e (tk_Value name)) ts2
   | r => if isKeywordToken (tk_Kind (current ts))
          then k (MemberExpr e (tk_Value (current ts))) (advance ts)
          else match r with Some (inr err) => perr err | _ => None end
   end) = Some (inl x) →
  ∃ name ts2, ts = name :: ts2 ∧
    (tk_Kind name = TokenIdent ∨ isKeywordToken (tk_Kind name) = true) ∧
    k (MemberExpr e (tk_Value name)) ts2 = Some (inl x).
Proof.
  destruct (expect TokenIdent ts) as [[[name ts2]|err]|] eqn:E.
  - apply expect_ok in E as [-> Hk]; [|done]. eauto 6.
  - destruct (isKeywordToken _) eqn:Hkw; [|done]. intros Hx.
    exists (current ts), (advance ts). split_and!; [|auto|done].
    apply current_advance. intros Heq. by rewrite Heq in Hkw.
  - by apply expect_total in E.
Qed.

Lemma postfix_loop_sound fuel : ∀ pre e0 ts e rest,
  Derives 7 pre e0 → postfix_loop parse_expr fuel e0 ts = Some (inl (e, rest)) →
  ∃ used, ts = used ++ rest ∧ Derives 7 (pre ++ used) e.
Proof.
  induction fuel as [|fuel IH]; intros pre e0 ts e rest Hpre E; [done|].
  cbn [postfix_loop] in E.
  assert (tk_Kind (current ts) ≠ TokenEOF → ts = current ts :: advance ts) as Hts
    by apply current_advance.
  destruct (tk_Kind (current ts)) eqn:Hk;
    try (injection E as <- <-; exists []; by rewrite app_nil_r).
  - cbv zeta in E. apply (property_cases _ (postfix_loop parse_expr fuel)) in E
      as (name & ts2 & Ha & Hname & E).
    apply (IH (pre ++ [current ts; name])) in E as (used & -> & Hd); [|by constructor].
    exists (current ts :: name :: used). rewrite <- app_assoc in Hd. split; [|done].
    rewrite Hts at 1 by done. by rewrite Ha.
  - apply pbind_ok in E as (i & ts1 & E1 & E). apply pbind_ok in E as (t & ts2 & E2 & E).
    apply expect_ok in E2 as [-> Hkr]; [|done]. destruct (Hexpr _ _ _ E1) as (u & Hu & Hd).
    apply (IH (pre ++ current ts :: u ++ [t])) in E as (used & -> & Hd'); [|by constructor].
    exists (current ts :: u ++ t :: used). split.
    + rewrite Hts at 1 by done. simpl. by rewrite Hu, <- app_assoc.
    + rewrite <- app_assoc in Hd'. simpl in Hd'. by rewrite <- app_assoc in Hd'.
Qed.

Lemma parsePostfix_sound : sound 7 (parsePostfix parse_expr).
Proof.
  intros ts e rest E. unfold parsePostfix in E. apply pbind_ok in E as (e1 & ts1 & E1 & E).
  apply parsePrimary_sound in E1 as (pre & -> & Hd).
  apply (postfix_loop_sound _ pre) in E as (used & -> & Hd'); [|by apply d_up; [lia|]].
  exists (pre ++ used). by rewrite app_assoc.
Qed.

Lemma parseUnary_sound : sound 6 (parseUnary parse_expr).
Proof.
  assert (∀ ts e rest, parsePostfix parse_expr ts = Some (inl (e, rest)) →
    ∃ used, ts = used ++ rest ∧ Derives 6 used e) as Hpost.
  { intros ts e rest E. apply parsePostfix_sound in E as (used & ? & ?).
    exists used. split; [done|]. by apply d_up; [lia|]. }
  intros ts. induction ts as [|t ts IH]; intros e rest E; [by apply Hpost|].
  cbn [parseUnary] in E. destruct (tk_Kind t) eqn:Hk; try by apply Hpost.
  apply pbind_ok in E as (e1 & ts1 & E1 & [= <- <-]).
  apply IH in E1 as (used & -> & Hd). exists (t :: used). split; [done|by constructor].
Qed.

Lemma parseMembership_sound : sound 5 (parseMembership parse_expr).
Proof.
  intros ts e rest E. unfold parseMembership in E. apply pbind_ok in E as (e1 & ts1 & E1 & E).
  apply parseUnary_sound in E1 as (u1 & -> & Hd1). cbv zeta in E.
  destruct (is_membership _) eqn:Hm.
  - apply pbind_ok in E as (e2 & ts2 & E2 & [= <- <-]).
    apply parseUnary_sound in E2 as (u2 & Ha & Hd2).
    exists (u1 ++ current ts1 :: u2). split; [|by constructor].
    rewrite <- app_assoc. simpl. rewrite <- Ha, <- current_advance; [done|].
    intros Heq. by rewrite Heq in Hm.
  - injection E as <- <-. exists u1. split; [done|]. by apply d_up; [lia|].
Qed.

Lemma level_op_eof n : level_op n TokenEOF = false.
Proof. by destruct n as [|[|[|[|[|]]]]]. Qed.

Lemma left_loop_sound n next fuel : n < 5 → sound (S n) next → ∀ pre e0 ts e rest,
  Derives n pre e0 → left_loop (level_op n) next fuel e0 ts = Some (inl (e, rest)) →
  ∃ used, ts = used ++ rest ∧ Derives n (pre ++ used) e.
Proof.
  intros Hn Hnext. induction fuel as [|fuel IH]; intros pre e0 ts e rest Hpre E; [done|].
  cbn [left_loop] in E. cbv zeta in E. destruct (level_op n _) eqn:Hop.
  - apply pbind_ok in E as (e2 & ts2 & E2 & E). apply Hnext in E2 as (u2 & Ha & Hd2).
    apply (IH (pre ++ current ts :: u2)) in E as (used & -> & Hd); [|by constructor].
    exists (current ts :: u2 ++ used). split; [|by rewrite <- app_assoc in Hd].
    simpl. rewrite <- app_assoc, <- Ha. apply current_advance.
    intros Heq. by rewrite Heq, level_op_eof in Hop.
  - injection E as <- <-. exists []. by rewrite app_nil_r.
Qed.

Lemma left_level_sound n next : n < 5 → sound (S n) next → sound n (left_level (level_op n) next).
Proof.
  intros Hn Hnext ts e rest E. unfold left_level in E. apply pbind_ok in E as (e1 & ts1 & E1 & E).
  apply Hnext in E1 as (u1 & -> & Hd1).
  apply (left_loop_sound n next _ Hn Hnext u1) in E as (u2 & -> & Hd); [|by apply d_up; [lia|]].
  exists (u1 ++ u2). by rewrite app_assoc.
Qed.
End Soundness.

(** The parsing function of a level. *)
Definition parse_level (parse_expr : list Token → presult Expr) (n : nat)
    : list Token → presult Expr :=
  match n with
  | 0 => parseNullCoalescing parse_expr
  | 1 => parseOr parse_expr
  | 2 => parseAnd parse_expr
  | 3 => parseEquality parse_expr
  | 4 => parseComparison parse_expr
  | 5 => parseMembership parse_expr
  | 6 => parseUnary parse_expr
  | 7 => parsePostfix parse_expr
  | _ => parsePrimary parse_expr
  end.

Lemma parse_level_left pe n : n < 5 →
  parse_level pe n = left_level (level_op n) (parse_level pe (S n)).
Proof. intros Hn. do 5 (destruct n as [|n]; [done|]). lia. Qed.

Lemma parse_level_sound pe : sound 0 pe → ∀ n, n ≤ 8 → sound n (parse_level pe n).
Proof.
  intros Hpe. assert (sound 5 (parse_level pe 5)) as H5 by (by apply parseMembership_sound).
  assert (∀ k, k ≤ 5 → sound (5 - k) (parse_level pe (5 - k))) as Hlow.
  { induction k as [|k IH]; intros Hk; [done|]. rewrite parse_level_left by lia.
    apply left_level_sound; [lia|]. replace (S (5 - S k)) with (5 - k) by lia. apply IH. lia. }
  intros n Hn. destruct (decide (n ≤ 5)).
  - replace n with (5 - (5 - n)) by lia. apply Hlow. lia.
  - assert (n = 6 ∨ n = 7 ∨ n = 8) as [->|[->| ->]] by lia;
      [by apply parseUnary_sound|by apply parsePostfix_sound|by apply parsePrimary_sound].
Qed.

Lemma parseExpr_sound fuel : sound 0 (parseExpr fuel).
Proof.
  induction fuel as [|fuel IH]; [done|]. by apply (parse_level_sound (parseExpr fuel) IH 0); [lia|..].
Qed.

Lemma length_advance ts : length (advance ts) ≤ length ts.
Proof. destruct ts; simpl; lia. Qed.

Lemma length_advance_lt ts : tk_Kind (current ts) ≠ TokenEOF → length (advance ts) < length ts.
Proof. intros Hk. rewrite (current_advance ts Hk) at 2. simpl. lia. Qed.

(** A parser that returns on every state of at most [N] tokens. *)
Definition total_upto (N : nat) (p : list Token → presult Expr) : Prop :=
  ∀ ts, length ts ≤ N → p ts ≠ None.

Section Termination.
Variable parse_expr : list Token → presult Expr.
Variable N : nat.
Hypothesis Hexpr : sound 0 parse_expr.
Hypothesis Htotal : ∀ ts, length ts < N → parse_expr ts ≠ None.

Lemma array_elements_total fuel : ∀ acc ts, length ts < fuel → length ts < N →
  array_elements parse_expr fuel acc ts ≠ None.
Proof.
  induction fuel as [|fuel IH]; intros acc ts Hf HN; [lia|]. cbn [array_elements].
  apply pbind_total; [by apply Htotal|]. intros elem ts1 E.
  apply (sound_length 0) in E; [|done]. cbv zeta. case_bool_decide.
  - apply pbind_total; [apply expect_total|done].
  - pose proof (length_advance ts1). apply IH; lia.
Qed.

Lemma parsePrimary_total : total_upto N (parsePrimary parse_expr).
Proof.
  intros ts HN. unfold parsePrimary.
  destruct (tk_Kind (current ts)) eqn:Hk; try done; try (by case_match).
  - assert (length (advance ts) < length ts) by (apply length_advance_lt; congruence).
    unfold parseArrayLiteral. cbv zeta. case_bool_decide; [done|].
    apply array_elements_total; lia.
  - assert (length (advance ts) < length ts) by (apply length_advance_lt; congruence).
    apply pbind_total; [apply Htotal; lia|]. intros e ts1 _.
    apply pbind_total; [apply expect_total|done].
Qed.

Lemma postfix_loop_total fuel : ∀ e ts, length ts < fuel → length ts ≤ N →
  postfix_loop parse_expr fuel e ts ≠ None.
Proof.
  induction fuel as [|fuel IH]; intros e ts Hf HN; [lia|]. cbn [postfix_loop].
  destruct (tk_Kind (current ts)) eqn:Hk; try done.
  - assert (length (advance ts) < length ts) by (apply length_advance_lt; congruence).
    cbv zeta. destruct (expect TokenIdent (advance ts)) as [[[name ts2]|err]|] eqn:E.
    + apply expect_ok in E as [E _]; [|done]. apply (f_equal length) in E. simpl in E.
      apply IH; lia.
    + case_match; [|done]. pose proof (length_advance (advance ts)). apply IH; lia.
    + by apply expect_total in E.
  - assert (length (advance ts) < length ts) by (apply length_advance_lt; congruence).
    apply pbind_total; [apply Htotal; lia|]. intros i ts1 E. apply (sound_length 0) in E; [|done].
    apply pbind_total; [apply expect_total|]. intros t ts2 E2.
    apply expect_ok in E2 as [-> _]; [|done]. simpl in *. apply IH; lia.
Qed.

Lemma parsePostfix_total : total_upto N (parsePostfix parse_expr).
Proof.
  intros ts HN. apply pbind_total; [by apply parsePrimary_total|]. intros e ts1 E.
  apply (sound_length 8) in E; [|by apply parsePrimary_sound]. apply postfix_loop_total; lia.
Qed.

Lemma parseUnary_total : total_upto N (parseUnary parse_expr).
Proof.
  intros ts. induction ts as [|t ts IH]; intros HN; [by apply parsePostfix_total|].
  cbn [parseUnary]. destruct (tk_Kind t); try by apply parsePostfix_total.
  apply pbind_total; [|done]. apply IH. simpl in HN. lia.
Qed.

Lemma parseMembership_total : total_upto N (parseMembership parse_expr).
Proof.
  intros ts HN. apply pbind_total; [by apply parseUnary_total|]. intros e ts1 E.
  apply (sound_length 6) in E; [|by apply parseUnary_sound]. cbv zeta. case_match; [|done].
  pose proof (length_advance ts1). apply pbind_total; [apply parseUnary_total; lia|done].
Qed.

Lemma left_level_total n is_op next :
  sound n next → total_upto N next → total_upto N (left_level is_op next).
Proof.
  intros Hs Ht ts HN. apply pbind_total; [by apply Ht|]. intros e ts1 E.
  apply (sound_length n) in E; [|done].
  assert (∀ fuel e ts, length ts < fuel → length ts ≤ N →
    left_loop is_op next fuel e ts ≠ None) as Hloop; [|apply Hloop; lia].
  clear ts HN e ts1 E.
  induction fuel as [|fuel IH]; intros e ts Hf HN; [lia|]. cbn [left_loop]. cbv zeta.
  case_match; [|done]. pose proof (length_advance ts).
  apply pbind_total; [apply Ht; lia|]. intros e2 ts2 E2. apply (sound_length n) in E2; [|done].
  apply IH; lia.
Qed.

Lemma parse_level_total n : n ≤ 8 → total_upto N (parse_level parse_expr n).
Proof.
  assert (∀ k, k ≤ 5 → total_upto N (parse_level parse_expr (5 - k))) as Hlow.
  { induction k as [|k IH]; intros Hk; [by apply parseMembership_total|].
    rewrite parse_level_left by lia. apply (left_level_total (5 - k)).
    - replace (S (5 - S k)) with (5 - k) by lia. by apply parse_level_sound; [|lia].
    - replace (S (5 - S k)) with (5 - k) by lia. apply IH. lia. }
  intros Hn. destruct (decide (n ≤ 5)).
  - replace n with (5 - (5 - n)) by lia. apply Hlow. lia.
  - assert (n = 6 ∨ n = 7 ∨ n = 8) as [->|[->| ->]] by lia;
      [apply parseUnary_total|apply parsePostfix_total|apply parsePrimary_total].
Qed.
End Termination.

Lemma parseExpr_total fuel : ∀ ts, length ts < fuel → parseExpr fuel ts ≠ None.
Proof.
  induction fuel as [|fuel IH]; intros ts Hf; [lia|].
  apply (parse_level_total (parseExpr fuel) fuel (parseExpr_sound fuel) IH 0); lia.
Qed.

Lemma parse_tokens_total ts : is_Some (parse_tokens ts).
Proof.
  unfold parse_tokens.
  destruct (parseExpr (S (length ts)) ts) as [[[e ts1]|err]|] eqn:E; [by case_bool_decide|done|].
  apply parseExpr_total in E; [done|lia].
Qed.

(** ** Completeness *)

(** The tokens that continue an expression of level [n] or above. *)
Definition continues (n : nat) (k : TokenKind) : bool :=
  existsb (λ m, (n <=? m) && level_op m k) [0; 1; 2; 3; 4] ||
  ((n <=? 5) && is_membership k) ||
  ((n <=? 7) && match k with TokenDot | TokenLBracket => true | _ => false end).

Lemma continues_mono n m k : n ≤ m → continues n k = false → continues m k = false.
Proof.
  intros Hnm. assert (∀ j b, (n <=? j) && b = false → (m <=? j) && b = false) as Hj.
  { intros j b. rewrite !andb_false_iff, !Nat.leb_gt. intros [?|?]; [left; lia|by right]. }
  unfold continues. cbn [existsb]. rewrite !orb_false_iff. intros. destruct_and?. split_and!; auto.
Qed.

Lemma continues_op n k : n < 5 → continues n k = false → level_op n k = false.
Proof.
  intros Hn. unfold continues. cbn [existsb]. rewrite !orb_false_iff. intros Hc. destruct_and?.
  do 5 (destruct n as [|n]; [done|]). lia.
Qed.

Lemma continues_membership n k : n ≤ 5 → continues n k = false → is_membership k = false.
Proof.
  intros Hn Hc. apply (continues_mono n 5) in Hc; [|done]. unfold continues in Hc.
  rewrite !orb_false_iff in Hc. by destruct_and?.
Qed.

Lemma continues_postfix n k : n ≤ 7 → continues n k = false → k ≠ TokenDot ∧ k ≠ TokenLBracket.
Proof.
  intros Hn Hc. apply (continues_mono n 7) in Hc; [|done]. unfold continues in Hc.
  rewrite !orb_false_iff in Hc. destruct_and?. by split; intros ->.
Qed.

(** The operators of a level do not continue the levels above it. *)
Lemma level_op_stops n k : level_op n k = true → continues (S n) k = false.
Proof. do 5 (destruct n as [|n]; [by destruct k|]). done. Qed.

Lemma membership_stops k : is_membership k = true → continues 6 k = false.
Proof. by destruct k. Qed.

(** [pe] parses every derivation of level 0 on fewer than [N] tokens. *)
Definition complete_below (N : nat) (pe : list Token → presult Expr) : Prop :=
  ∀ ts e rest, Derives 0 ts e → continues 0 (tk_Kind (current rest)) = false →
    length (ts ++ rest) < N → pe (ts ++ rest) = pok e rest.

Section Completeness.
Variable parse_expr : list Token → presult Expr.
Variable N : nat.
Hypothesis Hexpr : sound 0 parse_expr.
Hypothesis Hcomplete : complete_below N parse_expr.

Lemma left_loop_fuel n is_op next : sound n next → ∀ f1 f2 e ts,
  length ts < f1 → length ts < f2 → left_loop is_op next f1 e ts = left_loop is_op next f2 e ts.
Proof.
  intros Hs. induction f1 as [|f1 IH]; intros [|f2] e ts H1 H2; try lia. cbn [left_loop]. cbv zeta.
  case_match; [|done]. destruct (next (advance ts)) as [[[e2 ts2]|]|] eqn:E; try done. simpl.
  apply (sound_length n) in E; [|done]. pose proof (length_advance ts). apply IH; lia.
Qed.

Lemma postfix_loop_fuel f1 : ∀ f2 e ts,
  length ts < f1 → length ts < f2 →
  postfix_loop parse_expr f1 e ts = postfix_loop parse_expr f2 e ts.
Proof.
  induction f1 as [|f1 IH]; intros [|f2] e ts H1 H2; try lia. cbn [postfix_loop]. cbv zeta.
  destruct (tk_Kind (current ts)) eqn:Hk; try done.
  - assert (length (advance ts) < length ts) by (apply length_advance_lt; congruence).
    destruct (expect TokenIdent (advance ts)) as [[[name ts2]|err]|] eqn:E.
    + apply expect_ok in E as [E _]; [|done]. apply (f_equal length) in E. simpl in E.
      apply IH; lia.
    + case_match; [|done]. pose proof (length_advance (advance ts)). apply IH; lia.
    + by apply expect_total in E.
  - assert (length (advance ts) < length ts) by (apply length_advance_lt; congruence).
    destruct (parse_expr (advance ts)) as [[[i ts1]|]|] eqn:E; try done. simpl.
    apply (sound_length 0) in E; [|done].
    destruct (expect TokenRBracket ts1) as [[[t ts2]|]|] eqn:E2; try done. simpl.
    apply expect_ok in E2 as [-> _]; [|done]. simpl in *. apply IH; lia.
Qed.

(** What the parser of level [n] does on a derivation of level [n]. *)
Definition parses (n : nat) (ts : list Token) (e : Expr) : Prop :=
  ∀ rest, length (ts ++ rest) ≤ N →
  match n with
  | 7 => parse_level parse_expr 7 (ts ++ rest) =
           postfix_loop parse_expr (S (length rest)) e rest
  | S (S (S (S (S _)))) => continues n (tk_Kind (current rest)) = false →
           parse_level parse_expr n (ts ++ rest) = pok e rest
  | _ => continues (S n) (tk_Kind (current rest)) = false →
           parse_level parse_expr n (ts ++ rest) =
             left_loop (level_op n) (parse_level parse_expr (S n)) (S (length rest)) e rest
  end.

Lemma parses_left n ts e rest : n < 5 → parses n ts e → length (ts ++ rest) ≤ N →
  continues (S n) (tk_Kind (current rest)) = false →
  parse_level parse_expr n (ts ++ rest) =
    left_loop (level_op n) (parse_level parse_expr (S n)) (S (length rest)) e rest.
Proof. intros Hn Hp HN. specialize (Hp rest HN). do 5 (destruct n as [|n]; [done|]). lia. Qed.

Lemma parses_postfix ts e rest : parses 7 ts e → length (ts ++ rest) ≤ N →
  parsePostfix parse_expr (ts ++ rest) = postfix_loop parse_expr (S (length rest)) e rest.
Proof. intros Hp HN. apply (Hp rest HN). Qed.

Lemma parses_stop n ts e rest : parses n ts e → length (ts ++ rest) ≤ N →
  continues n (tk_Kind (current rest)) = false → parse_level parse_expr n (ts ++ rest) = pok e rest.
Proof.
  intros Hp HN Hc. destruct (decide (n < 5)).
  - rewrite (parses_left n ts e); try done; [|by eapply continues_mono; [|done]; lia].
    cbn [left_loop]. by rewrite (continues_op n).
  - destruct (decide (n = 7)) as [->|].
    + rewrite (Hp rest HN). cbn [postfix_loop].
      destruct (continues_postfix 7 _ ltac:(lia) Hc) as [H1 H2].
      by destruct (tk_Kind (current rest)).
    + specialize (Hp rest HN). unfold parses in Hp.
      do 5 (destruct n as [|n]; [lia|]). do 2 (destruct n as [|n]; [by apply Hp|]).
      destruct n as [|n]; [done|by apply Hp].
Qed.

Lemma postfix_head n ts e : Derives n ts e → 7 ≤ n → tk_Kind (current ts) ≠ TokenNot.
Proof.
  induction 1; intros Hn; try lia; simpl; try congruence; auto.
  - do 5 (destruct n as [|n]; [lia|]). done.
  - apply Derives_tokens in H as [? _]. destruct ts; [done|]. simpl in *. auto.
  - apply Derives_tokens in H as [? _]. destruct ts; [done|]. simpl in *. auto.
Qed.

Lemma current_app ts ts' : ts ≠ [] → current (ts ++ ts') = current ts.
Proof. by destruct ts. Qed.

(** No expression starts with a closing bracket. *)
Lemma expr_head n ts e : Derives n ts e → tk_Kind (current ts) ≠ TokenRBracket.
Proof.
  induction 1; simpl; try congruence; rewrite ?current_app; try done;
    by eapply Derives_nonempty.
Qed.

Lemma array_head ts es : DerivesList ts es →
  ∃ t ts', ts = t :: ts' ∧ tk_Kind t ≠ TokenRBracket.
Proof.
  intros Hl. assert (ts ≠ [] ∧ tk_Kind (current ts) ≠ TokenRBracket) as [Hne Hk].
  { inversion Hl as [? e Hd|ts1 comma ts2 e es' Hd]; subst; pose proof (expr_head _ _ _ Hd);
      apply Derives_tokens in Hd as [? _]; [done|].
    split; [by destruct ts1|by rewrite current_app]. }
  destruct ts as [|t ts]; [done|]. eauto.
Qed.

Lemma parses_up n ts e : n < 8 → Derives (S n) ts e → parses (S n) ts e → parses n ts e.
Proof.
  intros Hn Hd Hp rest HN. pose proof (parses_stop (S n) ts e rest Hp HN) as Hq.
  assert (n < 5 → continues (S n) (tk_Kind (current rest)) = false →
    parse_level parse_expr n (ts ++ rest) = left_loop (level_op n)
      (parse_level parse_expr (S n)) (S (length rest)) e rest) as Hleft.
  { intros Hlt Hc. rewrite parse_level_left by done. unfold left_level. by rewrite (Hq Hc). }
  do 5 (destruct n as [|n]; [apply Hleft; lia|]). destruct n as [|[|[|]]]; [..|lia].
  - intros Hc. simpl in *. unfold parseMembership.
    rewrite Hq by (by eapply continues_mono; [|done]; lia). simpl.
    by rewrite (continues_membership 5).
  - intros Hc. simpl in *. pose proof (postfix_head 7 ts e Hd ltac:(lia)) as Hhead.
    apply Derives_tokens in Hd as [Hne _]. destruct ts as [|t ts]; [done|].
    rewrite <- Hq by (by eapply continues_mono; [|done]; lia). simpl in *.
    by destruct (tk_Kind t).
  - simpl in *. unfold parsePostfix. by rewrite Hq.
Qed.

Lemma parses_binary n ts1 op ts2 e1 e2 :
  level_op n (tk_Kind op) = true → parses n ts1 e1 → parses (S n) ts2 e2 →
  parses n (ts1 ++ op :: ts2) (BinaryExpr e1 (tk_Kind op) e2).
Proof.
  intros Hop Hp1 Hp2 rest HN.
  assert (n < 5) as Hn by (do 5 (destruct n as [|n]; [lia|]); done).
  rewrite <- app_assoc in *. simpl in *.
  assert (continues (S n) (tk_Kind (current rest)) = false →
    parse_level parse_expr n (ts1 ++ op :: ts2 ++ rest) = left_loop (level_op n)
      (parse_level parse_expr (S n)) (S (length rest)) (BinaryExpr e1 (tk_Kind op) e2) rest)
    as Hgoal.
  { intros Hc. rewrite (parses_left n ts1 e1); [|done..|by apply level_op_stops].
    assert (length (ts2 ++ rest) ≤ N) as HN2
      by (rewrite !length_app in HN; simpl in HN; rewrite length_app in *; lia).
    set (R := left_loop _ _ (S (length rest)) _ rest).
    cbn [left_loop current advance tail]. rewrite Hop, (parses_stop (S n) ts2 e2 rest Hp2 HN2 Hc).
    eapply left_loop_fuel; [apply (parse_level_sound _ Hexpr (S n)); lia|..];
      simpl; rewrite ?length_app; lia. }
  do 5 (destruct n as [|n]; [done|]). lia.
Qed.

Lemma array_elements_complete ts es : DerivesList ts es → ∀ fuel acc rb rest,
  tk_Kind rb = TokenRBracket → length (ts ++ rb :: rest) < N →
  length (ts ++ rb :: rest) < fuel →
  array_elements parse_expr fuel acc (ts ++ rb :: rest) = pok (ArrayLiteral (acc ++ es)) rest.
Proof.
  induction 1 as [ts e Hd|ts comma ts' e es Hd Hcomma Hl IH];
    intros fuel acc rb rest Hrb HN Hf; (destruct fuel as [|fuel]; [lia|]); cbn [array_elements].
  - rewrite (Hcomplete ts e) by (done || (simpl; by rewrite Hrb)). simpl.
    rewrite Hrb, bool_decide_true by done. unfold expect. simpl. rewrite Hrb.
    by rewrite bool_decide_false by naive_solver.
  - rewrite <- app_assoc in *. simpl in *.
    rewrite (Hcomplete ts e) by (done || (simpl; by rewrite Hcomma)). simpl.
    rewrite Hcomma, bool_decide_false by naive_solver. rewrite !length_app in *. simpl in *.
    rewrite IH; try done; try lia. by rewrite <- app_assoc.
Qed.

Lemma postfix_step_property fuel e dot name rest :
  tk_Kind dot = TokenDot → tk_Kind name = TokenIdent ∨ isKeywordToken (tk_Kind name) = true →
  postfix_loop parse_expr (S fuel) e (dot :: name :: rest) =
  postfix_loop parse_expr fuel (MemberExpr e (tk_Value name)) rest.
Proof.
  intros Hdot Hname. cbn [postfix_loop current advance tail]. rewrite Hdot. unfold expect.
  cbn [current advance tail]. case_bool_decide as Hid; [|done].
  destruct Hname as [?|Hkw]; [done|]. simpl. by rewrite Hkw.
Qed.

Lemma postfix_step_index fuel e lb ts rb i rest :
  tk_Kind lb = TokenLBracket → tk_Kind rb = TokenRBracket →
  parse_expr (ts ++ rb :: rest) = pok i (rb :: rest) →
  postfix_loop parse_expr (S fuel) e (lb :: ts ++ rb :: rest) =
  postfix_loop parse_expr fuel (IndexExpr e i) rest.
Proof.
  intros Hlb Hrb Hi. cbn [postfix_loop current advance tail]. rewrite Hlb, Hi. simpl.
  unfold expect. simpl. rewrite Hrb. by rewrite bool_decide_false by naive_solver.
Qed.

Lemma levels_complete n ts e : Derives n ts e → parses n ts e.
Proof.
  induction 1 as [n ts e Hn Hd IH|n ts1 op ts2 e1 e2 Hop _ IH1 _ IH2|ts1 op ts2 e1 e2 Hop _ IH1 _ IH2
    |t ts e Ht _ IH|ts dot name e _ IH Hdot Hname|ts lb ts' rb e i _ IH Hlb Hi _ Hrb
    |t f Ht Hf|t Ht|t Ht|t Ht|t Ht|t Ht|lp ts rp e Hlp Hd _ Hrp|lb rb Hlb Hrb|lb ts rb es Hlb Hl Hrb].
  - by apply parses_up.
  - by apply parses_binary.
  - intros rest HN Hc. rewrite <- app_assoc in *. simpl in *. unfold parseMembership.
    assert (length (ts2 ++ rest) ≤ N) as HN2
      by (rewrite !length_app in HN; simpl in HN; rewrite length_app in *; lia).
    pose proof (parses_stop 6 ts1 e1 (op :: ts2 ++ rest) IH1 HN (membership_stops _ Hop)) as E1.
    pose proof (parses_stop 6 ts2 e2 rest IH2 HN2
      ltac:(by eapply continues_mono; [|done]; lia)) as E2.
    simpl in E1, E2. rewrite E1. simpl. by rewrite Hop, E2.
  - intros rest HN Hc. simpl in *. rewrite Ht.
    pose proof (parses_stop 6 ts e rest IH ltac:(lia) Hc) as E. simpl in E. by rewrite E.
  - intros rest HN. rewrite <- app_assoc in *. simpl app in *.
    change (parse_level parse_expr 7) with (parsePostfix parse_expr).
    rewrite (parses_postfix ts e _ IH HN), (postfix_step_property _ e dot name rest Hdot Hname).
    apply postfix_loop_fuel; simpl; lia.
  - intros rest HN. rewrite <- app_assoc in *. simpl app in *. rewrite <- app_assoc in *.
    change (parse_level parse_expr 7) with (parsePostfix parse_expr).
    rewrite (parses_postfix ts e _ IH HN), (postfix_step_index _ e lb ts' rb i rest Hlb Hrb).
    + apply postfix_loop_fuel; simpl; rewrite ?length_app; simpl; lia.
    + apply Hcomplete; [done|simpl; by rewrite Hrb|].
      rewrite length_app in HN. simpl in HN. simpl. lia.
  - intros rest HN _. simpl. unfold parsePrimary. simpl. by rewrite Ht, Hf.
  - intros rest HN _. simpl. unfold parsePrimary. simpl. by rewrite Ht.
  - intros rest HN _. simpl. unfold parsePrimary. simpl. by rewrite Ht.
  - intros rest HN _. simpl. unfold parsePrimary. simpl. by rewrite Ht.
  - intros rest HN _. simpl. unfold parsePrimary. simpl. by rewrite Ht.
  - intros rest HN _. simpl. unfold parsePrimary. simpl. by rewrite Ht.
  - intros rest HN _. simpl in *. rewrite <- app_assoc in *. simpl in *. unfold parsePrimary. simpl.
    rewrite Hlp, (Hcomplete ts e); [|done|simpl; by rewrite Hrp|lia].
    simpl. unfold expect. simpl. by rewrite Hrp, bool_decide_false by naive_solver.
  - intros rest HN _. simpl. unfold parsePrimary, parseArrayLiteral. simpl. rewrite Hlb, Hrb.
    by rewrite bool_decide_true.
  - intros rest HN _. simpl in *. rewrite <- app_assoc in *. simpl in *.
    unfold parsePrimary, parseArrayLiteral. cbn [current advance tail]. rewrite Hlb.
    rewrite bool_decide_false.
    + rewrite (array_elements_complete ts es); try done; lia.
    + apply array_head in Hl as [t [ts' [-> Ht]]]. done.
Qed.
End Completeness.

Lemma parseExpr_complete fuel : complete_below fuel (parseExpr fuel).
Proof.
  induction fuel as [|fuel IH]; intros ts e rest Hd Hc Hlen; [lia|].
  apply (parses_stop (parseExpr fuel) fuel 0); [|lia|done].
  apply levels_complete; [apply parseExpr_sound|done|done].
Qed.

Lemma parse_tokens_sound (ts : list Token) (eof : Token) (e : Expr) :
  Forall (λ t, tk_Kind t ≠ TokenEOF) ts → tk_Kind eof = TokenEOF →
  parse_tokens (ts ++ [eof]) = Some (inl e) → Derives 0 ts e.
Proof.
  intros Hts Heof. unfold parse_tokens.
  destruct (parseExpr _ (ts ++ [eof])) as [[[e1 rest]|]|] eqn:E; try done.
  case_bool_decide as Hk; [done|]. intros [= ->].
  apply parseExpr_sound in E as (used & Heq & Hd).
  assert (Forall (λ t, tk_Kind t ≠ TokenEOF) used) as Hu by (by apply Derives_tokens in Hd as [_ ?]).
  destruct rest as [|t rest].
  - rewrite app_nil_r in Heq. rewrite <- Heq in Hu. apply Forall_app in Hu as [_ Hu].
    by inversion Hu.
  - simpl in Hk. assert (used = ts) as <-; [|done]. clear Hd.
    revert used Heq Hu. induction ts as [|x ts IH]; intros used Heq Hu.
    + destruct used as [|y used]; [done|]. simpl in Heq. injection Heq as -> Heq.
      by destruct used.
    + inversion Hts; subst. destruct used as [|y used]; simpl in Heq; injection Heq as -> Heq; [done|].
      inversion Hu; subst. f_equal. by apply IH.
Qed.

(** C14: the parser accepts exactly the grammar. On a token sequence closed by an
    EOF token it returns the tree [e] if and only if the grammar, with its precedence
    levels and associativity, derives the tokens with [e]. *)
Theorem parse_grammar (ts : list Token) (eof : Token) (e : Expr) :
  Forall (λ t, tk_Kind t ≠ TokenEOF) ts → tk_Kind eof = TokenEOF →
  parse_tokens (ts ++ [eof]) = Some (inl e) ↔ Derives 0 ts e.
Proof.
  intros Hts Heof. split; [by apply parse_tokens_sound|].
  intros Hd. unfold parse_tokens. rewrite (parseExpr_complete _ ts e [eof] Hd).
  - simpl. rewrite Heof. by rewrite bool_decide_false by naive_solver.
  - simpl. by rewrite Heof.
  - lia.
Qed.

(** [Parse] terminates on every input with a syntax tree or an error; a tree
    is derived by the grammar from the tokens of the input, and [ValidateSyntax]
    accepts exactly the inputs that have one. *)
Theorem Parse_total `{UnicodeTables} (input : string) :
  (∃ err, Parse input = Some (inr err) ∧ ValidateSyntax input = Some (Some err)) ∨
  (∃ toks e, Parse input = Some (inl e) ∧ ValidateSyntax input = Some None ∧ Derives 0 toks e ∧
    Lex input = Some (inl (toks ++ [mkToken TokenEOF EmptyString (String.length input)]))).
Proof.
  unfold ValidateSyntax, Parse.
  destruct (lexAll_total input (S (String.length input)) (mkLexer input 0 []) (lex_inv_init input))
    as [(l' & toks & Hl & Ht & Hat & _)|[err Herr]]; [simpl; lia| |].
  - unfold Lex. rewrite Hl, Ht.
    destruct (parse_tokens_total (toks ++ [mkToken TokenEOF EmptyString (String.length input)]))
      as [[e|err] Hp]; rewrite Hp; [|left; eauto].
    right. exists toks, e. split_and!; try done. apply parse_tokens_sound with (2 := eq_refl) (3 := Hp).
    eapply Forall_impl; [exact Hat|]. by intros t [? _].
  - left. exists err. unfold Lex. by rewrite Herr.
Qed.

(** [a in b == !c.in], with its token positions. *)
Definition sample_tokens : list Token :=
  [mkToken TokenIdent "a" 0; mkToken TokenIn "in" 2; mkToken TokenIdent "b" 5;
   mkToken TokenEq "==" 7; mkToken TokenNot "!" 10; mkToken TokenIdent "c" 11;
   mkToken TokenDot "." 12; mkToken TokenIn "in" 13].

Definition sample_tree : Expr :=
  BinaryExpr (BinaryExpr (IdentExpr "a") TokenIn (IdentExpr "b")) TokenEq
    (UnaryExpr TokenNot (MemberExpr (IdentExpr "c") "in")).

Lemma parse_grammar_witness :
  parse_tokens (sample_tokens ++ [mkToken TokenEOF "" 15]) = Some (inl sample_tree) ∧
  (parse_tokens (sample_tokens ++ [mkToken TokenEOF "" 15]) = Some (inl sample_tree) ↔
   Derives 0 sample_tokens sample_tree).
Proof.
  split; [vm_compute; reflexivity|]. apply parse_grammar; [|reflexivity].
  repeat constructor; discriminate.
Defined.
