(* ===== verification/ExprEval.v ===== *)
(** * The expression evaluator (nodes/conditional/expr/eval.go)

    Evaluation of a syntax tree against the variables, with the truthiness,
    equality, comparison, access and membership rules. The package-wide cache of
    compiled regular expressions is a state that evaluation threads; the regular
    expression engine is a parameter. *)

From stdpp Require Import gmap strings list fin_maps.
From Stdlib Require Import Ascii ZArith Lia.
From S2P Require Import Prelude Values Unicode ExprLexer ExprParser.

(** ** Values *)

(** The elements of a slice or array, as [reflect] sees them. *)
Definition slice_elements (v : value) : option (list value) :=
  match v with
  | VSlice l => Some l
  | VStrings l => Some (map VString l)
  | VSliceOf _ l => Some l
  | _ => None
  end.

(** [rv.Len()] for the kinds slice, array and map. *)
Definition container_len (v : value) : option nat :=
  match slice_elements v, value_map v with
  | Some l, _ => Some (length l)
  | None, Some m => Some (size m)
  | None, None => None
  end.

Definition IsTruthy (v : value) : bool :=
  match v with
  | VNil => false
  | VBool b => b
  | VFloat64 f => negb (F64.eqb f F64.zero)
  | VInt z => negb (z =? 0)%Z
  | VString s => bool_decide (s ≠ EmptyString)
  | _ => match container_len v with
         | Some n => bool_decide (0 < n)
         | None => true
         end
  end.

Definition toFloat64 (v : value) : option F64.t :=
  match v with
  | VFloat64 f | VFloat32 f => Some f
  | VInt z | VInt64 z | VInt32 z => Some (F64.of_Z z)
  | _ => None
  end.

(** [reflect.DeepEqual]: same dynamic type, contents compared in depth. *)
Fixpoint DeepEqual (a b : value) {struct a} : bool :=
  match a, b with
  | VNil, VNil => true
  | VBool x, VBool y => Bool.eqb x y
  | VInt x, VInt y | VInt32 x, VInt32 y | VInt64 x, VInt64 y => (x =? y)%Z
  | VFloat32 x, VFloat32 y | VFloat64 x, VFloat64 y => F64.eqb x y
  | VString x, VString y => bool_decide (x = y)
  | VSlice l, VSlice k =>
      (fix go (l k : list value) : bool :=
         match l, k with
         | [], [] => true
         | x :: l', y :: k' => DeepEqual x y && go l' k'
         | _, _ => false
         end) l k
  | VSliceOf t l, VSliceOf t' k =>
      bool_decide (t = t') &&
      (fix go (l k : list value) : bool :=
         match l, k with
         | [], [] => true
         | x :: l', y :: k' => DeepEqual x y && go l' k'
         | _, _ => false
         end) l k
  | VStrings l, VStrings k => bool_decide (l = k)
  | VMap m, VMap n =>
      bool_decide (size m = size n) &&
      map_fold (λ k x acc, acc && match n !! k with Some y => DeepEqual x y | None => false end)
        true m
  | VNilMap, VNilMap => true
  | VDecision t r c m, VDecision t' r' c' m' =>
      bool_decide (t = t') && bool_decide (r = r') &&
      match c, c' with
      | Some x, Some y => F64.eqb x y
      | None, None => true
      | _, _ => false
      end &&
      bool_decide (size m = size m') &&
      map_fold (λ k x acc, acc && match m' !! k with Some y => DeepEqual x y | None => false end)
        true m
  | VStruct ty m, VStruct ty' m' =>
      bool_decide (ty = ty') && bool_decide (size m = size m') &&
      map_fold (λ k x acc, acc && match m' !! k with Some y => DeepEqual x y | None => false end)
        true m
  | _, _ => false
  end.

Definition isEqual (a b : value) : bool :=
  match toFloat64 a, toFloat64 b with
  | Some x, Some y => F64.eqb x y
  | _, _ => DeepEqual a b
  end.

(** The sign of the comparison; [None] when the values are not comparable. *)
Definition compareNumeric (a b : value) : option Z :=
  match toFloat64 a, toFloat64 b with
  | Some x, Some y => Some (if F64.ltb x y then -1 else if F64.ltb y x then 1 else 0)%Z
  | _, _ =>
      match as_string a, as_string b with
      | Some x, Some y => Some (GoStr.Compare x y)
      | _, _ => None
      end
  end.

Definition evalNumericComparison (op : TokenKind) (left right : value) : bool :=
  match compareNumeric left right with
  | None => false
  | Some cmp =>
      match op with
      | TokenGt => (0 <? cmp)%Z
      | TokenGte => (0 <=? cmp)%Z
      | TokenLt => (cmp <? 0)%Z
      | TokenLte => (cmp <=? 0)%Z
      | _ => false
      end
  end.

Definition getLength (obj : value) : value :=
  match obj with
  | VString s => VFloat64 (F64.of_Z (Z.of_nat (String.length s)))
  | _ => match container_len obj with
         | Some n => VFloat64 (F64.of_Z (Z.of_nat n))
         | None => VNil
         end
  end.

Definition accessMember (obj : value) (prop : string) : value :=
  match obj with
  | VNil => VNil
  | _ =>
      if bool_decide (prop = "length") then getLength obj
      else match value_map obj with
           | Some m => default VNil (m !! prop)
           | None => VNil
           end
  end.

Definition accessIndex (obj idx : value) : value + error :=
  match obj with
  | VNil => inl VNil
  | _ =>
      match as_string idx with
      | Some key => inl (accessMember obj key)
      | None =>
          match toFloat64 idx with
          | None => inr (EFmt [PS "invalid index type "; PS (type_name idx)])
          | Some f =>
              let index := F64.to_int f in
              match slice_elements obj with
              | Some l =>
                  if (index <? 0)%Z || (Z.of_nat (length l) <=? index)%Z then inl VNil
                  else inl (default VNil (l !! Z.to_nat index))
              | None => inl VNil
              end
          end
      end
  end.

Definition checkIn (left right : value) : bool :=
  match slice_elements right with
  | Some l => existsb (isEqual left) l
  | None => false
  end.

Definition checkHas (left right : value) : bool :=
  match as_string right, value_map left with
  | Some key, Some m => bool_decide (is_Some (m !! key))
  | _, _ => false
  end.

(** [contains], [startsWith], [endsWith]: false unless both are strings. *)
Definition on_strings (f : string → string → bool) (left right : value) : bool :=
  match as_string left, as_string right with
  | Some l, Some r => f l r
  | _, _ => false
  end.

Definition checkContains : value → value → bool := on_strings GoStr.Contains.
Definition checkStartsWith : value → value → bool := on_strings GoStr.HasPrefix.
Definition checkEndsWith : value → value → bool := on_strings GoStr.HasSuffix.

(** ** Evaluation *)

(** [regexp.Compile] with [MatchString]: a documented deterministic function of
    the pattern. *)
Class RegexpEngine := {
  regexp_Compile : string → (string → bool) + error
}.

(** [regexCache]: compiled expressions by pattern. *)
Notation regex_cache := (gmap string (string → bool)).

(** A computation over the cache with an error. *)
Definition EvalM (A : Type) : Type := regex_cache → regex_cache * (A + error).

Definition eret {A} (a : A) : EvalM A := λ c, (c, inl a).
Definition eerr {A} (e : error) : EvalM A := λ c, (c, inr e).
Definition ebind {A B} (m : EvalM A) (k : A → EvalM B) : EvalM B := λ c,
  match m c with
  | (c', inl a) => k a c'
  | (c', inr e) => (c', inr e)
  end.

Notation "x <~ m ;; k" := (ebind m (λ x, k))
  (at level 100, m at next level, right associativity) : petal_scope.

Section Eval.
Context `{RegexpEngine}.

Definition checkMatches (left right : value) : EvalM bool :=
  match as_string left, as_string right with
  | Some ls, Some rs => λ cache,
      match cache !! rs with
      | Some re => (cache, inl (re ls))
      | None =>
          match regexp_Compile rs with
          | inr err => (cache, inr (EFmt [PS "invalid regex "; PQ rs; PS ": "; PW err]))
          | inl re => (<[rs := re]> cache, inl (re ls))
          end
      end
  | _, _ => eret false
  end.

Definition evalBinaryValues (op : TokenKind) (left right : value) : EvalM value :=
  match op with
  | TokenEq => eret (VBool (isEqual left right))
  | TokenNeq => eret (VBool (negb (isEqual left right)))
  | TokenGt | TokenGte | TokenLt | TokenLte =>
      eret (VBool (evalNumericComparison op left right))
  | TokenIn => eret (VBool (checkIn left right))
  | TokenHas => eret (VBool (checkHas left right))
  | TokenContains => eret (VBool (checkContains left right))
  | TokenStartsWith => eret (VBool (checkStartsWith left right))
  | TokenEndsWith => eret (VBool (checkEndsWith left right))
  | TokenMatches => b <~ checkMatches left right ;; eret (VBool b)
  | _ => eerr (EFmt [PS "unknown binary operator "; PS (token_name op)])
  end.

(** [evaluator.eval], with [evalUnary], [evalBinary] and
    [evalShortCircuitBinary] in place. *)
Fixpoint eval (vars : gmap string value) (e : Expr) {struct e} : EvalM value :=
  match e with
  | LiteralExpr v => eret v
  | IdentExpr name => eret (default VNil (vars !! name))
  | MemberExpr object property =>
      obj <~ eval vars object ;; eret (accessMember obj property)
  | IndexExpr object index =>
      obj <~ eval vars object ;;
      idx <~ eval vars index ;;
      match accessIndex obj idx with inl v => eret v | inr err => eerr err end
  | ArrayLiteral elements =>
      vs <~ (fix go (es : list Expr) : EvalM (list value) :=
               match es with
               | [] => eret []
               | x :: rest => v <~ eval vars x ;; vs <~ go rest ;; eret (v :: vs)
               end) elements ;;
      eret (VSlice vs)
  | UnaryExpr op operand =>
      v <~ eval vars operand ;;
      match op with
      | TokenNot => eret (VBool (negb (IsTruthy v)))
      | _ => eerr (EFmt [PS "unknown unary operator "; PS (token_name op)])
      end
  | BinaryExpr lhs op rhs =>
      match op with
      | TokenAnd =>
          l <~ eval vars lhs ;;
          if negb (IsTruthy l) then eret (VBool false)
          else r <~ eval vars rhs ;; eret (VBool (IsTruthy r))
      | TokenOr =>
          l <~ eval vars lhs ;;
          if IsTruthy l then eret (VBool true)
          else r <~ eval vars rhs ;; eret (VBool (IsTruthy r))
      | TokenNullCoal =>
          l <~ eval vars lhs ;;
          match l with VNil => eval vars rhs | _ => eret l end
      | _ =>
          l <~ eval vars lhs ;;
          r <~ eval vars rhs ;;
          evalBinaryValues op l r
      end
  end.

Definition Eval (e : Expr) (vars : gmap string value) : EvalM value := eval vars e.
End Eval.

(** ** Induction on syntax trees *)

Lemma Expr_induct (P : Expr → Prop) :
  (∀ l op r, P l → P r → P (BinaryExpr l op r)) →
  (∀ op e, P e → P (UnaryExpr op e)) →
  (∀ v, P (LiteralExpr v)) → (∀ x, P (IdentExpr x)) →
  (∀ o p, P o → P (MemberExpr o p)) → (∀ o i, P o → P i → P (IndexExpr o i)) →
  (∀ es, Forall P es → P (ArrayLiteral es)) → ∀ e, P e.
Proof.
  intros Hb Hu Hl Hi Hm Hx Ha. fix IH 1.
  intros [l op r|op e|v|x|o p|o i|es];
    [apply Hb; apply IH|apply Hu, IH|apply Hl|apply Hi|apply Hm, IH|apply Hx; apply IH|].
  apply Ha. induction es as [|e es IHes]; constructor; [apply IH|apply IHes].
Qed.

(** The evaluation of the elements of an array. *)
Fixpoint eval_list `{RegexpEngine} (vars : gmap string value) (es : list Expr)
    : EvalM (list value) :=
  match es with
  | [] => eret []
  | x :: rest => v <~ eval vars x ;; vs <~ eval_list vars rest ;; eret (v :: vs)
  end.

Lemma eval_array `{RegexpEngine} vars es :
  eval vars (ArrayLiteral es) = (vs <~ eval_list vars es ;; eret (VSlice vs)).
Proof.
  simpl. f_equal. induction es as [|x es IH]; [done|]. cbn [eval_list]. by rewrite <- IH.
Qed.

(** ** The cache is invisible *)

Section Cache.
Context `{RegexpEngine}.

(** Every entry is what compiling its pattern gives. *)
Definition coherent (c : regex_cache) : Prop :=
  ∀ p re, c !! p = Some re → regexp_Compile p = inl re.

(** The result does not depend on a coherent cache, which stays coherent. *)
Definition transparent {A} (m : EvalM A) : Prop :=
  ∀ c1 c2, coherent c1 → coherent c2 → (m c1).2 = (m c2).2 ∧ coherent (m c1).1.

Lemma transparent_ret {A} (a : A) : transparent (eret a).
Proof. done. Qed.

Lemma transparent_err {A} (e : error) : transparent (eerr (A := A) e).
Proof. done. Qed.

Lemma transparent_bind {A B} (m : EvalM A) (k : A → EvalM B) :
  transparent m → (∀ a, transparent (k a)) → transparent (ebind m k).
Proof.
  intros Hm Hk c1 c2 H1 H2. unfold ebind.
  destruct (Hm c1 c2 H1 H2) as [Heq Hc1]. destruct (Hm c2 c1 H2 H1) as [_ Hc2].
  destruct (m c1) as [c1' [a|]], (m c2) as [c2' [a'|]]; simpl in *; simplify_eq; [|done].
  by apply Hk.
Qed.

Lemma transparent_matches l r : transparent (checkMatches l r).
Proof.
  unfold checkMatches. destruct (as_string l) as [ls|]; [|apply transparent_ret].
  destruct (as_string r) as [rs|]; [|apply transparent_ret]. intros c1 c2 H1 H2.
  assert (∀ c re, coherent c → regexp_Compile rs = inl re → coherent (<[rs := re]> c)) as Hins.
  { intros c re Hc Hre p re'. rewrite lookup_insert. case_decide; [naive_solver|apply Hc]. }
  destruct (c1 !! rs) as [re1|] eqn:E1, (c2 !! rs) as [re2|] eqn:E2;
    try apply H1 in E1 as R1; try apply H2 in E2 as R2; rewrite ?R1, ?R2; simpl;
    try (split; [congruence|auto]).
  destruct (regexp_Compile rs) eqn:R; simpl; auto.
Qed.

#[local] Hint Resolve transparent_ret transparent_err transparent_matches : petal.

Lemma transparent_binary op l r : transparent (evalBinaryValues op l r).
Proof.
  destruct op; simpl; auto with petal. apply transparent_bind; auto with petal.
Qed.

#[local] Hint Resolve transparent_binary : petal.

Lemma transparent_eval vars e : transparent (eval vars e).
Proof.
  induction e as [l op r IHl IHr|op e IH|v|x|o p IHo|o i IHo IHi|es IHes] using Expr_induct.
  - assert (transparent (l' <~ eval vars l ;; r' <~ eval vars r ;; evalBinaryValues op l' r')) as Hb.
    { apply transparent_bind; [done|]. intros. apply transparent_bind; auto with petal. }
    destruct op; try exact Hb; simpl; (apply transparent_bind; [done|]); intros v.
    1, 2: case_match; auto with petal; apply transparent_bind; auto with petal.
    destruct v; auto with petal.
  - simpl. apply transparent_bind; [done|]. intros v. destruct op; auto with petal.
  - simpl. auto with petal.
  - simpl. auto with petal.
  - simpl. apply transparent_bind; auto with petal.
  - simpl. apply transparent_bind; [done|]. intros v. apply transparent_bind; [done|].
    intros v'. destruct (accessIndex v v'); auto with petal.
  - rewrite eval_array. apply transparent_bind; [|auto with petal].
    induction IHes as [|x l Hx _ IH]; simpl; [auto with petal|].
    apply transparent_bind; [done|]. intros v. apply transparent_bind; [done|]. auto with petal.
Qed.
End Cache.

(** C15: the global cache of compiled regular expressions never changes a result:
    whatever expressions were evaluated before, evaluating [e] gives what it gives
    with an empty cache, and leaves the cache coherent with the compiler. *)
Theorem eval_cache_transparent `{RegexpEngine} (e : Expr) (vars : gmap string value)
    (cache : regex_cache) :
  coherent cache →
  (Eval e vars cache).2 = (Eval e vars ∅).2 ∧ coherent (Eval e vars cache).1.
Proof. intros Hc. apply transparent_eval; [done|]. intros p re Hp. by rewrite lookup_empty in Hp. Qed.

(** ** The errors of evaluation *)

Section Errors.
Context `{RegexpEngine}.

(** The operators the parser puts into a tree. *)
Definition binary_op (k : TokenKind) : bool :=
  existsb (λ n, level_op n k) [0; 1; 2; 3; 4] || is_membership k.

Fixpoint ops_ok (e : Expr) : bool :=
  match e with
  | BinaryExpr l op r => binary_op op && ops_ok l && ops_ok r
  | UnaryExpr op x => bool_decide (op = TokenNot) && ops_ok x
  | LiteralExpr _ | IdentExpr _ => true
  | MemberExpr o _ => ops_ok o
  | IndexExpr o i => ops_ok o && ops_ok i
  | ArrayLiteral es => forallb ops_ok es
  end.

Lemma Derives_ops : (∀ n ts e, Derives n ts e → ops_ok e = true) ∧
  (∀ ts es, DerivesList ts es → forallb ops_ok es = true).
Proof.
  apply Derives_mutind; intros; simpl; rewrite ?andb_true_iff; split_and?; try done.
  - unfold binary_op. apply orb_true_iff. left. apply existsb_exists. exists n.
    split; [|done]. do 5 (destruct n as [|n]; [simpl; tauto|]). done.
  - unfold binary_op. apply orb_true_iff. by right.
Qed.

(** The two ways an evaluation fails. *)
Definition eval_failure (err : error) : Prop :=
  (∃ v, toFloat64 v = None ∧ as_string v = None ∧
    err = EFmt [PS "invalid index type "; PS (type_name v)]) ∨
  (∃ p cerr, regexp_Compile p = inr cerr ∧
    err = EFmt [PS "invalid regex "; PQ p; PS ": "; PW cerr]).

Definition fails_well {A} (m : EvalM A) : Prop :=
  ∀ c c' err, m c = (c', inr err) → eval_failure err.

Lemma fails_ret {A} (a : A) : fails_well (eret a).
Proof. by intros c c' err. Qed.

Lemma fails_bind {A B} (m : EvalM A) (k : A → EvalM B) :
  fails_well m → (∀ a, fails_well (k a)) → fails_well (ebind m k).
Proof.
  intros Hm Hk c c' err. unfold ebind. destruct (m c) as [c1 [a|e]] eqn:E.
  - apply Hk.
  - intros [= _ <-]. by eapply Hm.
Qed.

#[local] Hint Resolve fails_ret : petal.

Lemma fails_matches l r : fails_well (checkMatches l r).
Proof.
  unfold checkMatches. destruct (as_string l) as [ls|]; [|apply fails_ret].
  destruct (as_string r) as [rs|]; [|apply fails_ret]. intros c c' err.
  destruct (c !! rs); [done|]. destruct (regexp_Compile rs) eqn:R; [done|].
  intros [= _ <-]. right. eauto.
Qed.

Lemma fails_binary op l r : binary_op op = true →
  op ≠ TokenAnd → op ≠ TokenOr → op ≠ TokenNullCoal → fails_well (evalBinaryValues op l r).
Proof.
  destruct op; simpl; try done; intros; try apply fails_ret.
  apply fails_bind; [apply fails_matches|]. intros. apply fails_ret.
Qed.

Lemma fails_index v i :
  fails_well (match accessIndex v i with inl x => eret x | inr err => eerr err end).
Proof.
  intros c c' err. unfold accessIndex.
  destruct (as_string i) eqn:Es; [by destruct v|].
  destruct (toFloat64 i) eqn:Ef.
  - destruct v; simpl; try done; by destruct (_ || _).
  - destruct v; simpl; try done; intros [= _ <-]; left; eauto.
Qed.

Lemma fails_eval vars e : ops_ok e = true → fails_well (eval vars e).
Proof.
  induction e as [l op r IHl IHr|op e IH|v|x|o p IHo|o i IHo IHi|es IHes] using Expr_induct;
    intros Hok; simpl in Hok; bool_simp.
  - assert (op ≠ TokenAnd → op ≠ TokenOr → op ≠ TokenNullCoal →
      fails_well (l' <~ eval vars l ;; r' <~ eval vars r ;; evalBinaryValues op l' r')) as Hb.
    { intros. apply fails_bind; [auto|]. intros v. apply fails_bind; [auto|]. intros v'.
      by apply fails_binary. }
    destruct op; try (by apply Hb); simpl; (apply fails_bind; [auto|]); intros v.
    1, 2: case_match; auto with petal; apply fails_bind; auto with petal.
    destruct v; auto with petal.
  - subst op. simpl. apply fails_bind; auto with petal.
  - apply fails_ret.
  - apply fails_ret.
  - simpl. apply fails_bind; auto with petal.
  - simpl. apply fails_bind; [auto|]. intros v. apply fails_bind; [auto|]. intros v'.
    apply fails_index.
  - rewrite eval_array. apply fails_bind; [|auto with petal].
    induction IHes as [|x l Hx _ IH]; simpl in *; [apply fails_ret|]. bool_simp.
    apply fails_bind; [auto|]. intros v. apply fails_bind; [auto|]. auto with petal.
Qed.
End Errors.

(** Evaluating an expression that [Parse] accepted fails only by an index
    that is neither a string nor a number, or by a pattern that does not compile;
    the "unknown operator" errors cannot occur. *)
Theorem parsed_eval_errors `{UnicodeTables} `{RegexpEngine} (input : string) (e : Expr)
    (vars : gmap string value) (cache cache' : regex_cache) (err : error) :
  Parse input = Some (inl e) → Eval e vars cache = (cache', inr err) → eval_failure err.
Proof.
  intros Hp Herr. refine (fails_eval vars e _ cache cache' err Herr).
  unfold Parse in Hp. destruct (Lex input) as [[toks|]|]; try done.
  unfold parse_tokens in Hp. destruct (parseExpr _ toks) as [[[e1 rest]|]|] eqn:E; try done.
  case_bool_decide; [done|]. injection Hp as ->.
  apply parseExpr_sound in E as (used & _ & Hd). by eapply Derives_ops.
Qed.

(** ** Concrete evaluations *)

Section Sample.
(** No letters or digits above U+00FF, and a compiler that only knows literal
    patterns without brackets. *)
#[local] Instance ascii_tables : UnicodeTables :=
  {| uni_Letter := λ _, false; uni_Digit := λ _, false |}.

#[local] Instance literal_engine : RegexpEngine := {|
  regexp_Compile p :=
    if GoStr.Contains p "[" then inr (EFmt [PS "missing closing ]"])
    else inl (λ s, GoStr.Contains s p)
|}.

Definition sample_vars : gmap string value :=
  {[ "name" := VString "petal"; "tags" := VStrings ["a"; "b"] ]}.

Definition sample_expr : Expr := IndexExpr (IdentExpr "tags") (LiteralExpr (VBool true)).

Lemma eval_cache_transparent_witness :
  let e := BinaryExpr (IdentExpr "name") TokenMatches (LiteralExpr (VString "et")) in
  let cache : regex_cache := (Eval e sample_vars ∅).1 in
  is_Some (cache !! "et") ∧
  (Eval e sample_vars cache).2 = (Eval e sample_vars ∅).2 ∧ coherent (Eval e sample_vars cache).1.
Proof.
  intros e cache. split; [exists (λ s, GoStr.Contains s "et"); reflexivity|].
  apply (eval_cache_transparent e sample_vars cache).
  intros p re Hp. change cache with ({[ "et" := λ s, GoStr.Contains s "et" ]} : regex_cache) in Hp.
  apply lookup_singleton_Some in Hp as [<- <-]. reflexivity.
Defined.

Lemma parsed_eval_errors_witness :
  eval_failure (EFmt [PS "invalid index type "; PS "bool"]).
Proof.
  apply (parsed_eval_errors "tags[true]" sample_expr sample_vars ∅ ∅);
    vm_compute; reflexivity.
Defined.
End Sample.
