(* ===== verification/Filter.v ===== *)
(** * The filter node (nodes/filter.go)

    It prunes a collection (artifacts, messages or a variable) by a list of
    operations. Sorting with [sort.Slice] is an interface: it permutes, and sorts
    when the comparison is an order; it is not stable.

    The theorem: what each operation keeps. *)

From stdpp Require Import gmap strings list fin_maps sorting.
From Stdlib Require Import Ascii ZArith SpecFloat Lia.
From S2P Require Import Prelude Values GoFmt Envelope NodeHelpers Graph Events StepController Runtime NodeProg.
From S2P Require Import ExprEval.

(** ** Sorting *)

(** On the elements of the list, less is asymmetric and its negation transitive. *)
Definition weak_order {A} (less : A → A → bool) (l : list A) : Prop :=
  ∀ x y z, x ∈ l → y ∈ l → z ∈ l →
    (less x y = true → less y x = false) ∧
    (less x y = false → less y z = false → less x z = false).

Class SortSlice := {
  sort_Slice {A} (less : A → A → bool) : list A → list A;
  sort_Slice_perm {A} (less : A → A → bool) l : sort_Slice less l ≡ₚ l;
  sort_Slice_sorted {A} (less : A → A → bool) l : weak_order less l →
    StronglySorted (λ x y, less y x = false) (sort_Slice less l)
}.

(** ** Fields of items *)

Definition getArtifactField (f : gmap string value) (field : string) : option value :=
  if bool_decide (field ∈ ["ID"; "id"]) then f !! "ID"
  else if bool_decide (field ∈ ["Type"; "type"]) then f !! "Type"
  else if bool_decide (field ∈ ["MimeType"; "mimeType"; "mime_type"]) then f !! "MimeType"
  else if bool_decide (field ∈ ["Text"; "text"]) then f !! "Text"
  else if bool_decide (field ∈ ["URI"; "uri"]) then f !! "URI"
  else if bool_decide (field ∈ ["Meta"; "meta"]) then f !! "Meta"
  else map_field f "Meta" !! field.

Definition getMessageField (f : gmap string value) (field : string) : option value :=
  if bool_decide (field ∈ ["Role"; "role"]) then f !! "Role"
  else if bool_decide (field ∈ ["Content"; "content"]) then f !! "Content"
  else if bool_decide (field ∈ ["Name"; "name"]) then f !! "Name"
  else if bool_decide (field ∈ ["Meta"; "meta"]) then f !! "Meta"
  else map_field f "Meta" !! field.

(** A nil field counts as missing. *)
Definition present (v : option value) : option value := match v with Some VNil => None | _ => v end.

(** One part of a path; pointers to artifacts and messages do not occur. *)
Definition step_field (current : value) (part : string) : option value :=
  match current with
  | VMap m => m !! part
  | VStruct ty f =>
      if bool_decide (ty = "core.Artifact") then present (getArtifactField f part)
      else if bool_decide (ty = "core.Message") then present (getMessageField f part)
      else None
  | _ => None
  end.

Definition extractValue (item : value) (fieldPath : string) : option value :=
  if bool_decide (fieldPath = EmptyString) then None
  else foldl (λ c part, match c with Some v => step_field v part | None => None end) (Some item)
         (GoStr.SplitOn "."%char fieldPath).

Definition extractFloat (item : value) (fieldPath : string) : option F64.t :=
  match extractValue item fieldPath with
  | Some (VFloat64 f) | Some (VFloat32 f) => Some f
  | Some (VInt z) | Some (VInt64 z) | Some (VInt32 z) => Some (F64.of_Z z)
  | _ => None
  end.

(** ** Operations *)

Definition FilterOpTopN := "top_n".
Definition FilterOpThreshold := "threshold".
Definition FilterOpDedupe := "dedupe".
Definition FilterOpByType := "type".
Definition FilterOpMatch := "match".
Definition FilterOpExclude := "exclude".
Definition FilterOpCustom := "custom".
Definition FilterTargetArtifacts := "artifacts".
Definition FilterTargetMessages := "messages".
Definition FilterTargetVar := "var".

(** The custom function may write the envelope. *)
Record FilterOp (W : Type) := mkFilterOp {
  fo_Type : string;
  fo_N : Z;
  fo_ScoreField : string;
  fo_Order : string;
  fo_Min : option F64.t;
  fo_Max : option F64.t;
  fo_Field : string;
  fo_Value : value;
  fo_Pattern : string;
  fo_IncludeTypes : list string;
  fo_ExcludeTypes : list string;
  fo_Keep : string;
  fo_CustomFunc : option (value → Z → Envelope → Prog W (Envelope * (bool + error)))
}.
Arguments mkFilterOp {W}.
Arguments fo_Type {W}.
Arguments fo_N {W}.
Arguments fo_ScoreField {W}.
Arguments fo_Order {W}.
Arguments fo_Min {W}.
Arguments fo_Max {W}.
Arguments fo_Field {W}.
Arguments fo_Value {W}.
Arguments fo_Pattern {W}.
Arguments fo_IncludeTypes {W}.
Arguments fo_ExcludeTypes {W}.
Arguments fo_Keep {W}.
Arguments fo_CustomFunc {W}.

Record FilterNodeConfig (W : Type) := mkFilterConfig {
  fc_Target : string;
  fc_InputVar : string;
  fc_Filters : list (FilterOp W);
  fc_OutputVar : string;
  fc_StatsVar : string
}.
Arguments mkFilterConfig {W}.
Arguments fc_Target {W}.
Arguments fc_InputVar {W}.
Arguments fc_Filters {W}.
Arguments fc_OutputVar {W}.
Arguments fc_StatsVar {W}.

Record FilterNode (W : Type) := mkFilterNode { fn_ID : string; fn_config : FilterNodeConfig W }.
Arguments mkFilterNode {W}.
Arguments fn_ID {W}.
Arguments fn_config {W}.

Definition NewFilterNode {W} (id : string) (config : FilterNodeConfig W) : FilterNode W :=
  mkFilterNode id (mkFilterConfig
    (if bool_decide (fc_Target config = EmptyString) then FilterTargetArtifacts else fc_Target config)
    (fc_InputVar config) (fc_Filters config) (fc_OutputVar config) (fc_StatsVar config)).

Section Filter.
Context {W : Type} `{World W} `{SortSlice} `{Printer} `{RegexpEngine} `{RangeOrder}.
Implicit Types (op : FilterOp W) (items : list value).

(** *** The best items *)

Definition item_score op (item : value) : F64.t := default F64.zero (extractFloat item (fo_ScoreField op)).

Definition score_less op (x y : F64.t * value) : bool :=
  if bool_decide (fo_Order op ≠ "asc") then F64.ltb y.1 x.1 else F64.ltb x.1 y.1.

Definition filterTopN items op : list value :=
  if (fo_N op <=? 0)%Z then items
  else if (Z.of_nat (length items) <=? fo_N op)%Z then items
  else take (Z.to_nat (fo_N op))
         (map snd (sort_Slice (score_less op) (map (λ item, (item_score op item, item)) items))).

(** *** A range of scores *)

Definition in_bounds op (score : F64.t) : bool :=
  negb (match fo_Min op with Some m => F64.ltb score m | None => false end) &&
  negb (match fo_Max op with Some m => F64.ltb m score | None => false end).

Definition passes_threshold op (item : value) : bool :=
  match extractFloat item (fo_ScoreField op) with Some score => in_bounds op score | None => false end.

Definition filterThreshold items op : list value :=
  match fo_Min op, fo_Max op with
  | None, None => items
  | _, _ => List.filter (passes_threshold op) items
  end.

(** *** Duplicates *)

Record dedupe_entry := mkDE { de_index : nat; de_item : value; de_score : F64.t }.

Definition dedupe_key op (item : value) : string := Sprint (default VNil (extractValue item (fo_Field op))).

Definition keep_mode op : string := if bool_decide (fo_Keep op = EmptyString) then "first" else fo_Keep op.

(** One item; an [extractFloat] that fails gives 0. *)
Definition dedupe_step op (seen : gmap string dedupe_entry) (i : nat) (item : value) : gmap string dedupe_entry :=
  let key := dedupe_key op item in
  let score := item_score op item in
  match seen !! key with
  | None =>
      let score := if bool_decide (keep_mode op = "highest_score") && bool_decide (fo_ScoreField op ≠ EmptyString)
                   then score else F64.zero in
      <[key := mkDE i item score]> seen
  | Some existing =>
      if bool_decide (keep_mode op = "last") then <[key := mkDE i item (de_score existing)]> seen
      else if bool_decide (keep_mode op = "highest_score") && F64.ltb (de_score existing) score
      then <[key := mkDE i item score]> seen
      else seen
  end.

Fixpoint dedupe_loop op (items : list value) (i : nat) (seen : gmap string dedupe_entry) : gmap string dedupe_entry :=
  match items with
  | [] => seen
  | item :: rest => dedupe_loop op rest (S i) (dedupe_step op seen i item)
  end.

(** The indices in order, each with the item of the entry that has it. *)
Definition dedupe_result (seen : gmap string dedupe_entry) : list value :=
  let es := map snd (range_map "filterDedupe" seen) in
  let indexToEntry : gmap nat dedupe_entry := list_to_map (map (λ e, (de_index e, e)) es) in
  omap (λ i, de_item <$> indexToEntry !! i) (merge_sort Nat.le (map de_index es)).

Definition filterDedupe items op : list value + error :=
  if bool_decide (fo_Field op = EmptyString) then inr (EFmt [PS "dedupe requires Field"])
  else inl (dedupe_result (dedupe_loop op items 0 ∅)).

(** *** Types *)

Definition item_type (item : value) : string :=
  match item with
  | VStruct ty f => if bool_decide (ty = "core.Artifact") then string_or_empty (f !! "Type") else EmptyString
  | VMap m => match m !! "Type" with
              | Some (VString t) => t
              | _ => string_or_empty (m !! "type")
              end
  | _ => EmptyString
  end.

Definition passes_type op (item : value) : bool :=
  (bool_decide (length (fo_IncludeTypes op) = 0) || bool_decide (item_type item ∈ fo_IncludeTypes op)) &&
  negb (bool_decide (item_type item ∈ fo_ExcludeTypes op)).

Definition filterByType items op : list value :=
  if bool_decide (length (fo_IncludeTypes op) = 0) && bool_decide (length (fo_ExcludeTypes op) = 0) then items
  else List.filter (passes_type op) items.

(** *** Values and patterns *)

Definition item_matches op (re : option (string → bool)) (item : value) : bool :=
  if bool_decide (fo_Field op = EmptyString) then false
  else match extractValue item (fo_Field op) with
       | None => false
       | Some val =>
           match re with
           | Some re => re (Sprint val)
           | None => match fo_Value op with VNil => true | v => valuesEqual val v end
           end
       end.

Definition filterMatch items op (keepMatches : bool) : list value + error :=
  if bool_decide (fo_Pattern op = EmptyString) then
    inl (List.filter (λ item, Bool.eqb keepMatches (item_matches op None item)) items)
  else match regexp_Compile (fo_Pattern op) with
       | inr err => inr (EFmt [PS "invalid pattern "; PQ (fo_Pattern op); PS ": "; PW err])
       | inl re => inl (List.filter (λ item, Bool.eqb keepMatches (item_matches op (Some re) item)) items)
       end.

(** *** A function *)

Fixpoint custom_loop (f : value → Z → Envelope → Prog W (Envelope * (bool + error)))
    (items : list value) (i : nat) (acc : list value) (env : Envelope) : Prog W (Envelope * (list value + error)) :=
  match items with
  | [] => mret (env, inl acc)
  | item :: rest =>
      d ← act ctx_Done;
      match d with
      | Some err => mret (env, inr err)
      | None =>
          r ← f item (Z.of_nat i) env;
          match (r : Envelope * (bool + error)) with
          | (env, inr err) =>
              mret (env, inr (EFmt [PS "custom filter error at index "; PD (Z.of_nat i); PS ": "; PW err]))
          | (env, inl keep) => custom_loop f rest (S i) (if keep then acc ++ [item] else acc) env
          end
      end
  end.

Definition filterCustom (env : Envelope) items op : Prog W (Envelope * (list value + error)) :=
  match fo_CustomFunc op with
  | None => mret (env, inr (EFmt [PS "custom filter requires CustomFunc"]))
  | Some f => custom_loop f items 0 [] env
  end.

(** *** The node *)

Definition applyFilter (env : Envelope) items op : Prog W (Envelope * (list value + error)) :=
  if bool_decide (fo_Type op = FilterOpTopN) then mret (env, inl (filterTopN items op))
  else if bool_decide (fo_Type op = FilterOpThreshold) then mret (env, inl (filterThreshold items op))
  else if bool_decide (fo_Type op = FilterOpDedupe) then mret (env, filterDedupe items op)
  else if bool_decide (fo_Type op = FilterOpByType) then mret (env, inl (filterByType items op))
  else if bool_decide (fo_Type op = FilterOpMatch) then mret (env, filterMatch items op true)
  else if bool_decide (fo_Type op = FilterOpExclude) then mret (env, filterMatch items op false)
  else if bool_decide (fo_Type op = FilterOpCustom) then filterCustom env items op
  else mret (env, inr (EFmt [PS "unknown filter type: "; PS (fo_Type op)])).

Definition filter_error (n : FilterNode W) (ps : list part) : error :=
  EFmt (PS "filter node " :: PS (fn_ID n) :: PS ": " :: ps).

Fixpoint apply_filters (n : FilterNode W) (ops : list (FilterOp W)) (i : nat) (env : Envelope) items
  : Prog W (Envelope * (list value + error)) :=
  match ops with
  | [] => mret (env, inl items)
  | op :: ops =>
      r ← applyFilter env items op;
      match r with
      | (env, inr err) =>
          mret (env, inr (filter_error n [PS "filter "; PD (Z.of_nat i); PS " ("; PS (fo_Type op); PS "): "; PW err]))
      | (env, inl items) => apply_filters n ops (S i) env items
      end
  end.

Definition filter_items (n : FilterNode W) (env : Envelope) : list value + error :=
  let c := fn_config n in
  if bool_decide (fc_Target c = FilterTargetArtifacts) then inl (artifactsToAny (env_Artifacts env))
  else if bool_decide (fc_Target c = FilterTargetMessages) then inl (messagesToAny (env_Messages env))
  else if bool_decide (fc_Target c = FilterTargetVar) then
    if bool_decide (fc_InputVar c = EmptyString) then inr (filter_error n [PS "InputVar required for var target"])
    else match GetVarNested env (fc_InputVar c) with
         | None => inr (filter_error n [PS "variable "; PQ (fc_InputVar c); PS " not found"])
         | Some val => match toSlice val with
                       | inl items => inl items
                       | inr err => inr (filter_error n [PW err])
                       end
         end
  else inr (filter_error n [PS "unknown target "; PQ (fc_Target c)]).

Definition set_Artifacts (l : list Artifact) (e : Envelope) : Envelope :=
  mkEnvelope (env_Input e) (env_Vars e) l (env_Messages e) (env_Errors e) (env_Trace e).
Definition set_Messages (l : list Message) (e : Envelope) : Envelope :=
  mkEnvelope (env_Input e) (env_Vars e) (env_Artifacts e) l (env_Errors e) (env_Trace e).

Definition store_items (n : FilterNode W) items (env : Envelope) : Envelope :=
  let c := fn_config n in
  if bool_decide (fc_Target c = FilterTargetArtifacts) then
    if bool_decide (fc_OutputVar c ≠ EmptyString)
    then SetVar (fc_OutputVar c) (VSliceOf "core.Artifact" (artifactsToAny (anyToArtifacts items))) env
    else set_Artifacts (anyToArtifacts items) env
  else if bool_decide (fc_Target c = FilterTargetMessages) then
    if bool_decide (fc_OutputVar c ≠ EmptyString)
    then SetVar (fc_OutputVar c) (VSliceOf "core.Message" (messagesToAny (anyToMessages items))) env
    else set_Messages (anyToMessages items) env
  else SetVar (if bool_decide (fc_OutputVar c = EmptyString) then fc_InputVar c else fc_OutputVar c)
         (VSlice items) env.

Definition FilterStats (inputCount outputCount : Z) : value :=
  VStruct "nodes.FilterStats" (list_to_map [("InputCount", VInt inputCount); ("OutputCount", VInt outputCount);
    ("Removed", VInt (inputCount - outputCount))]).

Definition Run (n : FilterNode W) (env : Envelope) : Prog W (Envelope + error) :=
  match filter_items n env with
  | inr err => mret (inr err)
  | inl items =>
      r ← apply_filters n (fc_Filters (fn_config n)) 0 env items;
      match r with
      | (_, inr err) => mret (inr err)
      | (result, inl kept) =>
          let result := store_items n kept result in
          mret (inl (if bool_decide (fc_StatsVar (fn_config n) ≠ EmptyString)
                     then SetVar (fc_StatsVar (fn_config n))
                            (FilterStats (Z.of_nat (length items)) (Z.of_nat (length kept))) result
                     else result))
      end
  end.
End Filter.

(** ** Scores are ordered *)

Definition is_nan (f : F64.t) : bool := match f with S754_nan => true | _ => false end.

(** Floats that are numbers, by class, exponent and significand. *)
Definition rank (f : F64.t) : Z * Z * Z :=
  match f with
  | S754_infinity true => (-2, 0, 0)
  | S754_finite true m e => (-1, -e, -Zpos m)
  | S754_zero _ | S754_nan => (0, 0, 0)
  | S754_finite false m e => (1, e, Zpos m)
  | S754_infinity false => (2, 0, 0)
  end%Z.

Definition rank_lt (x y : Z * Z * Z) : bool :=
  let '(a, b, c) := x in let '(a', b', c') := y in
  ((a <? a') || ((a =? a') && ((b <? b') || ((b =? b') && (c <? c')))))%Z.

Lemma ltb_rank x y : is_nan x = false → is_nan y = false → F64.ltb x y = rank_lt (rank x) (rank y).
Proof.
  intros Hx Hy. unfold F64.ltb, SFltb, rank_lt.
  destruct x as [[]|[]| |[] m e], y as [[]|[]| |[] m' e']; try done; simpl;
    change (PosDef.Pos.compare_cont Eq m m') with (m ?= m')%positive;
    destruct (Z.compare_spec e e') as [->|He|He]; destruct (Pos.compare_spec m m') as [->|Hm|Hm]; simpl;
    symmetry; rewrite ?orb_true_iff, ?orb_false_iff, ?andb_true_iff, ?andb_false_iff, ?Z.ltb_lt, ?Z.ltb_ge,
      ?Z.eqb_eq, ?Z.eqb_neq; lia.
Qed.

Lemma score_less_order {W} (op : FilterOp W) x y z :
  is_nan x.1 = false → is_nan y.1 = false → is_nan z.1 = false →
  (score_less op x y = true → score_less op y x = false) ∧
  (score_less op x y = false → score_less op y z = false → score_less op x z = false).
Proof.
  intros Hx Hy Hz. unfold score_less. rewrite !ltb_rank by done. unfold rank_lt.
  destruct (rank x.1) as [[a b] c], (rank y.1) as [[a' b'] c'], (rank z.1) as [[a2 b2] c2].
  case_bool_decide; rewrite ?orb_true_iff, ?orb_false_iff, ?andb_true_iff, ?andb_false_iff, ?Z.ltb_lt, ?Z.ltb_ge,
    ?Z.eqb_eq, ?Z.eqb_neq; split; lia.
Qed.

(** ** The best items *)

Section Spec.
Context {W : Type} `{World W} `{SortSlice} `{Printer} `{RegexpEngine} `{RangeOrder}.
Implicit Types (op : FilterOp W) (items out : list value).

(** [y] has a strictly better score than [x]. *)
Definition better_item op (y x : value) : bool := score_less op (item_score op y, y) (item_score op x, x).

Lemma filterTopN_best items op : (0 < fo_N op)%Z → (fo_N op < Z.of_nat (length items))%Z →
  Z.of_nat (length (filterTopN items op)) = fo_N op ∧
  ∃ rest, filterTopN items op ++ rest ≡ₚ items ∧
    (Forall (λ x, is_nan (item_score op x) = false) items →
     ∀ x y, x ∈ filterTopN items op → y ∈ rest → better_item op y x = false).
Proof.
  intros Hn Hlen. unfold filterTopN. rewrite (proj2 (Z.leb_gt _ _)), (proj2 (Z.leb_gt _ _)) by lia.
  set (scored := map (λ item, (item_score op item, item)) items).
  set (sorted := sort_Slice (score_less op) scored).
  assert (sorted ≡ₚ scored) as Hperm by apply sort_Slice_perm.
  assert (map snd sorted ≡ₚ items) as Hitems.
  { rewrite Hperm. unfold scored. rewrite map_map. by rewrite map_id. }
  split.
  { rewrite length_take, (Permutation_length Hitems). lia. }
  exists (drop (Z.to_nat (fo_N op)) (map snd sorted)). rewrite take_drop. split; [done|].
  intros Hnan x y Hx Hy.
  assert (StronglySorted (λ a b, score_less op b a = false) sorted) as Hsort.
  { apply sort_Slice_sorted. intros a b c Ha Hb Hc. rewrite Forall_forall in Hnan.
    assert (∀ a, a ∈ scored → is_nan a.1 = false) as Hs
      by (intros ? (i & -> & Hi)%list_elem_of_fmap; by apply Hnan).
    apply score_less_order; auto. }
  assert (∀ a, a ∈ sorted → a = (item_score op a.2, a.2)) as Hform.
  { intros a Ha. rewrite Hperm in Ha. by apply list_elem_of_fmap in Ha as (i & -> & _). }
  rewrite <- (take_drop (Z.to_nat (fo_N op)) sorted) in Hsort.
  rewrite <- fmap_take in Hx. rewrite <- fmap_drop in Hy.
  apply list_elem_of_fmap in Hx as (a & -> & Ha). apply list_elem_of_fmap in Hy as (b & -> & Hb).
  assert (score_less op b a = false) as Hab by (by eapply (StronglySorted_app_1_elem_of _ _ _ a b Hsort)).
  unfold better_item. rewrite <- (Hform b), <- (Hform a); [done| |].
  - rewrite <- (take_drop (Z.to_nat (fo_N op)) sorted). set_solver.
  - rewrite <- (take_drop (Z.to_nat (fo_N op)) sorted). set_solver.
Qed.

(** ** Duplicates *)

(** The entries after the items [done]. *)
Record seen_ok op (done : list value) (seen : gmap string dedupe_entry) : Prop := {
  seen_entry : ∀ key e, seen !! key = Some e →
    done !! de_index e = Some (de_item e) ∧ dedupe_key op (de_item e) = key;
  seen_all : ∀ x, x ∈ done → is_Some (seen !! dedupe_key op x)
}.

Lemma seen_ok_insert op done seen item score : seen_ok op done seen →
  seen_ok op (done ++ [item]) (<[dedupe_key op item := mkDE (length done) item score]> seen).
Proof.
  intros [He Ha]. split.
  - intros key e [[<- <-]|[Hk Hs]]%lookup_insert_Some; simpl.
    + split; [by apply list_lookup_middle|done].
    + destruct (He key e Hs) as [Hi Hkey]. split; [|done]. by apply lookup_app_l_Some.
  - intros x [Hx| ->%list_elem_of_singleton]%elem_of_app; [|rewrite lookup_insert_eq; eauto].
    destruct (decide (dedupe_key op item = dedupe_key op x)) as [->|Hne];
      [rewrite lookup_insert_eq; eauto|rewrite lookup_insert_ne by done; by apply Ha].
Qed.

Lemma seen_ok_keep op done seen item : seen_ok op done seen → is_Some (seen !! dedupe_key op item) →
  seen_ok op (done ++ [item]) seen.
Proof.
  intros [He Ha] Hk. split.
  - intros key e Hs. destruct (He key e Hs) as [Hi Hkey]. split; [|done]. by apply lookup_app_l_Some.
  - intros x [Hx| ->%list_elem_of_singleton]%elem_of_app; [by apply Ha|done].
Qed.

Lemma dedupe_step_ok op done seen item : seen_ok op done seen →
  seen_ok op (done ++ [item]) (dedupe_step op seen (length done) item).
Proof.
  intros Hok. unfold dedupe_step. destruct (seen !! dedupe_key op item) as [e|] eqn:Hk;
    [|by apply seen_ok_insert].
  repeat case_match; try (by apply seen_ok_insert); apply seen_ok_keep; [done|by rewrite Hk].
Qed.

Lemma dedupe_loop_ok op done items seen : seen_ok op done seen →
  seen_ok op (done ++ items) (dedupe_loop op items (length done) seen).
Proof.
  revert done seen. induction items as [|item items IH]; intros done seen Hok; simpl; [by rewrite app_nil_r|].
  assert (S (length done) = length (done ++ [item])) as -> by (rewrite length_app; simpl; lia).
  replace (done ++ item :: items) with ((done ++ [item]) ++ items) by (by rewrite <- app_assoc).
  by apply IH, dedupe_step_ok.
Qed.


(** What is left after removing duplicates. *)
Definition deduplicated op items out : Prop :=
  out `sublist_of` items ∧ NoDup (map (dedupe_key op) out) ∧
  ∀ x, x ∈ items → dedupe_key op x ∈ map (dedupe_key op) out.

Lemma dedupe_result_ok op items seen : seen_ok op items seen → deduplicated op items (dedupe_result seen).
Proof.
  intros [He Ha]. unfold dedupe_result.
  set (es := map snd (range_map "filterDedupe" seen)). set (idx := map de_index es).
  assert (∀ e, e ∈ es → items !! de_index e = Some (de_item e) ∧ seen !! dedupe_key op (de_item e) = Some e) as Hes.
  { intros e ([k e'] & -> & Hk%elem_of_range)%list_elem_of_fmap. destruct (He k e' Hk) as [Hi Hkey].
    simpl. by rewrite Hkey. }
  assert (map (λ e, dedupe_key op (de_item e)) es = map fst (range_map "filterDedupe" seen)) as Hkeys.
  { unfold es. rewrite map_map. apply map_ext_in. intros [k e] Hk%list_elem_of_In%elem_of_range. by apply He. }
  assert (NoDup (map fst (range_map "filterDedupe" seen))) as Hnd
    by (rewrite (range_map_perm _ seen); apply NoDup_fst_map_to_list).
  assert (NoDup idx) as Hidx.
  { unfold idx. apply NoDup_fmap_2_strong; [|rewrite <- Hkeys in Hnd; by eapply NoDup_fmap_1].
    intros e1 e2 [H1i H1k]%Hes [H2i H2k]%Hes Heq. rewrite Heq, H2i in H1i. injection H1i as E.
    rewrite E, H1k in H2k. by injection H2k. }
  assert (∀ e, e ∈ es → (list_to_map (map (λ e, (de_index e, e)) es) : gmap nat dedupe_entry) !! de_index e = Some e) as Hmap.
  { intros e Hin. apply elem_of_list_to_map_1; [|apply list_elem_of_fmap; by exists e].
    unfold idx in Hidx. by rewrite <- list_fmap_compose. }
  assert (omap (λ i, de_item <$> (list_to_map (map (λ e, (de_index e, e)) es) : gmap nat dedupe_entry) !! i)
            (merge_sort Nat.le idx) = omap (items !!.) (merge_sort Nat.le idx)) as ->.
  { apply list_omap_ext_in. intros i Hi. rewrite merge_sort_Permutation in Hi.
    apply list_elem_of_fmap in Hi as (e & -> & Hin). rewrite (Hmap e Hin). simpl. symmetry. by apply Hes. }
  assert (omap (items !!.) (merge_sort Nat.le idx) ≡ₚ map de_item es) as Hperm.
  { rewrite merge_sort_Permutation. unfold idx. rewrite list_omap_map, list_fmap_alt.
    erewrite list_omap_ext_in; [reflexivity|]. intros e Hin. by apply Hes. }
  assert (map (dedupe_key op) (omap (items !!.) (merge_sort Nat.le idx)) ≡ₚ
          map fst (range_map "filterDedupe" seen)) as Hkp
    by (rewrite Hperm, map_map; by rewrite Hkeys).
  split_and!.
  - apply sublist_positions; [done|]. intros i (e & -> & Hin)%list_elem_of_fmap.
    eapply lookup_lt_Some. by apply Hes.
  - by rewrite Hkp.
  - intros x Hx. rewrite Hkp. destruct (Ha x Hx) as [e Hk]. apply list_elem_of_fmap.
    exists (dedupe_key op x, e). split; [done|by apply elem_of_range].
Qed.

(** ** What each operation keeps *)

Definition kept op items out : Prop :=
  if bool_decide (fo_Type op = FilterOpTopN) then
    if (fo_N op <=? 0)%Z || (Z.of_nat (length items) <=? fo_N op)%Z then out = items
    else Z.of_nat (length out) = fo_N op ∧ ∃ rest, out ++ rest ≡ₚ items ∧
      (Forall (λ x, is_nan (item_score op x) = false) items →
       ∀ x y, x ∈ out → y ∈ rest → better_item op y x = false)
  else if bool_decide (fo_Type op = FilterOpDedupe) then deduplicated op items out
  else if bool_decide (fo_Type op = FilterOpThreshold) then
    out = match fo_Min op, fo_Max op with
          | None, None => items
          | _, _ => List.filter (passes_threshold op) items
          end
  else if bool_decide (fo_Type op = FilterOpByType) then out = List.filter (passes_type op) items
  else if bool_decide (fo_Type op = FilterOpMatch ∨ fo_Type op = FilterOpExclude) then
    ∃ re, (if bool_decide (fo_Pattern op = EmptyString) then re = None
           else ∃ f, regexp_Compile (fo_Pattern op) = inl f ∧ re = Some f) ∧
    out = List.filter (λ x, Bool.eqb (bool_decide (fo_Type op = FilterOpMatch)) (item_matches op re x)) items
  else out `sublist_of` items.

Lemma custom_loop_sublist f items i acc env w w' env' out :
  exec (custom_loop f items i acc env) w = (w', Some (env', inl out)) →
  ∃ more, out = acc ++ more ∧ more `sublist_of` items.
Proof.
  revert i acc env w. induction items as [|x items IH]; intros i acc env w; cbn [custom_loop].
  { intros [= _ _ <-]. exists []. by rewrite app_nil_r. }
  rewrite exec_bind, exec_act. destruct (ctx_Done w).2; [done|]. rewrite exec_bind.
  destruct (exec (f x (Z.of_nat i) env) (ctx_Done w).1) as [w1 [[env1 [[]|err]]|]]; [| |done|done].
  - intros (more & -> & Hm)%IH. exists (x :: more). rewrite <- app_assoc. split; [done|by constructor].
  - intros (more & -> & Hm)%IH. exists more. split; [done|by constructor].
Qed.

Lemma filter_all_true {A} (p : A → bool) (l : list A) : (∀ x, p x = true) → List.filter p l = l.
Proof. intros Hp. induction l as [|x l IH]; [done|]. simpl. by rewrite Hp, IH. Qed.

(** Whatever operation is applied, its result is what the operation promises:
    the N items with the best scores (no item left out has a better one, unless a
    score is NaN), one item for every value of the field in the original order, the
    items within the bounds, of the wanted types, matching or not matching, or a
    selection of the items in their order for a custom function. *)
Theorem applyFilter_kept op env items w w' env' out :
  exec (applyFilter env items op) w = (w', Some (env', inl out)) → kept op items out.
Proof.
  unfold applyFilter, kept. case_bool_decide as Htop.
  { intros [= _ _ <-]. destruct (fo_N op <=? 0)%Z eqn:Hn; [unfold filterTopN; by rewrite Hn|].
    destruct (Z.of_nat (length items) <=? fo_N op)%Z eqn:Hl; [unfold filterTopN; by rewrite Hn, Hl|].
    simpl. apply filterTopN_best; lia. }
  case_bool_decide as Hth.
  { intros [= _ _ <-]. by rewrite bool_decide_false by (by rewrite Hth). }
  case_bool_decide as Hde.
  { intros [= _ _ Hout]. unfold filterDedupe in Hout.
    case_bool_decide; [done|]. injection Hout as <-. apply dedupe_result_ok.
    apply (dedupe_loop_ok op [] items ∅). split; [|intros x Hx; by apply not_elem_of_nil in Hx].
    intros k e Hk. by rewrite lookup_empty in Hk. }
  case_bool_decide as Hty.
  { intros [= _ _ <-]. unfold filterByType. case_match eqn:Hempty; [|done]. symmetry. apply filter_all_true.
    apply andb_true_iff in Hempty as [Hi%bool_decide_eq_true He%bool_decide_eq_true].
    intros x. unfold passes_type. rewrite bool_decide_true by done. simpl.
    apply nil_length_inv in He. rewrite He. rewrite bool_decide_false by (by intros ?%not_elem_of_nil). done. }
  assert (∀ b, filterMatch items op b = inl out → ∃ re,
    (if bool_decide (fo_Pattern op = EmptyString) then re = None
     else ∃ f, regexp_Compile (fo_Pattern op) = inl f ∧ re = Some f) ∧
    out = List.filter (λ x, Bool.eqb b (item_matches op re x)) items) as Hmatch.
  { intros b. unfold filterMatch. case_bool_decide; [intros [= <-]; eauto|].
    destruct (regexp_Compile (fo_Pattern op)) as [f|err]; [|done]. intros [= <-]. eauto. }
  destruct (decide (fo_Type op = FilterOpMatch)) as [Hma|Hma].
  { rewrite (bool_decide_true (fo_Type op = FilterOpMatch)), (bool_decide_true (_ ∨ _)) by auto.
    intros [= _ _ Hout]. by apply Hmatch. }
  rewrite (bool_decide_false (fo_Type op = FilterOpMatch)) by done.
  destruct (decide (fo_Type op = FilterOpExclude)) as [Hex|Hex].
  { rewrite (bool_decide_true (fo_Type op = FilterOpExclude)), (bool_decide_true (_ ∨ _)) by auto.
    intros [= _ _ Hout]. by apply Hmatch. }
  rewrite (bool_decide_false (fo_Type op = FilterOpExclude)), (bool_decide_false (_ ∨ _)) by tauto.
  destruct (decide (fo_Type op = FilterOpCustom)) as [Hcu|Hcu];
    [rewrite (bool_decide_true (fo_Type op = FilterOpCustom)) by done
    |rewrite (bool_decide_false (fo_Type op = FilterOpCustom)) by done; cbn; intros Hx; inversion Hx].
  unfold filterCustom. destruct (fo_CustomFunc op) as [f|]; [|cbn; intros Hx; inversion Hx].
  intros (more & -> & Hm)%custom_loop_sublist. done.
Qed.
End Spec.

(** ** Samples *)

(** Insertion sort as an instance of the interface. *)
Section InsertionSort.
Context {A : Type} (less : A → A → bool).

Fixpoint insert_sorted (x : A) (l : list A) : list A :=
  match l with
  | [] => [x]
  | y :: r => if less y x then y :: insert_sorted x r else x :: l
  end.

Definition insertion_sort (l : list A) : list A := foldr insert_sorted [] l.

Lemma insert_sorted_perm x l : insert_sorted x l ≡ₚ x :: l.
Proof.
  induction l as [|y l IH]; [done|]. simpl. destruct (less y x); [|done]. rewrite IH. apply Permutation_swap.
Qed.

Lemma insertion_sort_perm l : insertion_sort l ≡ₚ l.
Proof. induction l as [|x l IH]; [done|]. simpl. by rewrite insert_sorted_perm, IH. Qed.

Lemma insert_sorted_sorted x l : weak_order less (x :: l) → StronglySorted (λ a b, less b a = false) l →
  StronglySorted (λ a b, less b a = false) (insert_sorted x l).
Proof.
  intros Hord Hs. induction Hs as [|y l Hs IH Hy]; simpl; [repeat constructor|].
  rewrite Forall_forall in Hy. destruct (less y x) eqn:Hyx.
  - constructor.
    + apply IH. intros a b c Ha Hb Hc. apply Hord; set_solver.
    + apply Forall_forall. intros z. rewrite insert_sorted_perm. intros [->|Hz]%elem_of_cons; [|by apply Hy].
      by eapply (Hord y x x); [set_solver..|].
  - constructor; [by constructor; [|apply Forall_forall]|]. apply Forall_forall.
    intros z [->|Hz]%elem_of_cons; [done|]. destruct (Hord z y x) as [_ Ht]; [set_solver..|]. eauto.
Qed.

Lemma insertion_sort_sorted l : weak_order less l → StronglySorted (λ a b, less b a = false) (insertion_sort l).
Proof.
  induction l as [|x l IH]; intros Hord; simpl; [constructor|]. apply insert_sorted_sorted.
  - intros a b c Ha Hb Hc. apply Hord; [rewrite insertion_sort_perm in Ha|rewrite insertion_sort_perm in Hb|
      rewrite insertion_sort_perm in Hc]; done.
  - apply IH. intros a b c Ha Hb Hc. apply Hord; by right.
Qed.
End InsertionSort.

#[local] Instance insertion_SortSlice : SortSlice := {
  sort_Slice A less := insertion_sort less;
  sort_Slice_perm A less := insertion_sort_perm less;
  sort_Slice_sorted A less := insertion_sort_sorted less
}.

Section Sample.
#[local] Instance unit_World : World unit := {
  time_Now w := (w, 0%Z); rand_ID w := (w, ""); ctx_Done w := (w, None); chan_read w := (w, 0)
}.
#[local] Instance sample_printer : Printer := {| print_pointer _ := ""; print_struct ty _ := ty |}.
#[local] Instance no_engine : RegexpEngine := {| regexp_Compile p := inr (ESentinel p) |}.
#[local] Existing Instance key_order.

Definition doc (id : string) (score : Z) : value := VMap {[ "id" := VString id; "score" := VInt score ]}.

Definition filter_op (type : string) (n : Z) (keep : string) : FilterOp unit :=
  mkFilterOp type n "score" "" None None "id" VNil "" [] [] keep None.

Definition docs : list value := [doc "a" 1; doc "b" 5; doc "a" 7; doc "c" 3].

Definition ids (r : unit * option (Envelope * (list value + error))) : list (option value) :=
  match r with (_, Some (_, inl out)) => map (λ x, extractValue x "score") out | _ => [] end.

Example filter_samples :
  map (λ op, ids (exec (applyFilter (NewEnvelope 0) docs op) tt))
    [filter_op "top_n" 2 ""; filter_op "dedupe" 0 ""; filter_op "dedupe" 0 "last";
     filter_op "dedupe" 0 "highest_score"] =
  [[Some (VInt 7); Some (VInt 5)]; [Some (VInt 1); Some (VInt 5); Some (VInt 3)];
   [Some (VInt 5); Some (VInt 7); Some (VInt 3)]; [Some (VInt 5); Some (VInt 7); Some (VInt 3)]].
Proof. vm_compute. reflexivity. Qed.

Lemma applyFilter_kept_witness :
  ids (exec (applyFilter (NewEnvelope 0) docs (filter_op "top_n" 2 "")) tt) = [Some (VInt 7); Some (VInt 5)] ∧
  kept (filter_op "top_n" 2 "") docs [doc "a" 7; doc "b" 5].
Proof.
  split; [vm_compute; reflexivity|].
  apply (applyFilter_kept (filter_op "top_n" 2 "") (NewEnvelope 0) docs tt tt (NewEnvelope 0)).
  vm_compute. reflexivity.
Defined.

(** Artifacts kept in a variable have a slice type that no node reads: filtering the
    variable again fails. *)
Example filtered_artifacts_unreadable :
  let n := NewFilterNode "f" (mkFilterConfig "" "" [] "out" "" : FilterNodeConfig unit) in
  let again := NewFilterNode "g" (mkFilterConfig "var" "out" [] "" "" : FilterNodeConfig unit) in
  match exec (Run n (NewEnvelope 0)) tt with
  | (_, Some (inl env)) => match exec (Run again env) tt with (_, Some (inr _)) => true | _ => false end
  | _ => false
  end = true.
Proof. vm_compute. reflexivity. Qed.

(** A score that is not a number ends up anywhere: here it stays before a better one. *)
Example nan_score :
  map (λ x, extractValue x "score")
    (filterTopN [VMap {[ "score" := VFloat64 S754_nan ]}; doc "b" 5] (filter_op "top_n" 1 "")) =
  [Some (VFloat64 S754_nan)].
Proof. vm_compute. reflexivity. Qed.
End Sample.
