(* ===== verification/Guardian.v ===== *)
(** * The guardian node (nodes/guardian.go)

    Validation of a variable by a list of checks: required fields, lengths,
    patterns, enumerations, types, ranges, personal data, a simplified JSON schema
    and custom functions. The patterns for personal data are the regular
    expressions of the source with their word boundaries; compiled patterns of
    the configuration come from the regexp engine. A custom function may act on
    the world; it does not change the envelope it is given.

    The theorems: the schema validator reports nothing exactly for the values that
    conform to the schema, and a guardian lets an envelope pass exactly when every
    check of its list is satisfied. *)

From stdpp Require Import gmap strings list fin_maps pretty.
From Stdlib Require Import Ascii ZArith Lia.
From S2P Require Import Prelude Values Envelope GoFmt NodeHelpers Unicode Schema Graph Events StepController Runtime.
From S2P Require Import NodeProg ExprEval.

(** ** Configuration *)

Definition GuardianCheckRequired := "required".
Definition GuardianCheckMaxLength := "max_length".
Definition GuardianCheckMinLength := "min_length".
Definition GuardianCheckPattern := "pattern".
Definition GuardianCheckEnum := "enum".
Definition GuardianCheckType_ := "type".
Definition GuardianCheckRange := "range".
Definition GuardianCheckPII := "pii".
Definition GuardianCheckSchema := "schema".
Definition GuardianCheckCustom := "custom".

Definition GuardianActionFail := "fail".
Definition GuardianActionSkip := "skip".
Definition GuardianActionRedirect := "redirect".

Definition PIITypeSSN := "ssn".
Definition PIITypeEmail := "email".
Definition PIITypePhone := "phone".
Definition PIITypeCreditCard := "credit_card".
Definition PIITypeIPAddress := "ip_address".
Definition PIITypeDateOfBirth := "date_of_birth".

Record GuardianCheck (W : Type) := mkCheck {
  gk_Name : string;
  gk_Type : string;
  gk_Field : string;
  gk_RequiredFields : list string;
  gk_MaxLength : Z;
  gk_MinLength : Z;
  gk_Pattern : string;
  gk_AllowedValues : list value;
  gk_ExpectedType : string;
  gk_Min : option F64.t;
  gk_Max : option F64.t;
  gk_PIITypes : list string;
  gk_BlockPII : bool;
  gk_Schema : option (gmap string value);
  gk_CustomFunc : option (value → Envelope → Prog W (bool * string + error));
  gk_Message : string
}.
Arguments mkCheck {W}.
Arguments gk_Name {W}.
Arguments gk_Type {W}.
Arguments gk_Field {W}.
Arguments gk_RequiredFields {W}.
Arguments gk_MaxLength {W}.
Arguments gk_MinLength {W}.
Arguments gk_Pattern {W}.
Arguments gk_AllowedValues {W}.
Arguments gk_ExpectedType {W}.
Arguments gk_Min {W}.
Arguments gk_Max {W}.
Arguments gk_PIITypes {W}.
Arguments gk_BlockPII {W}.
Arguments gk_Schema {W}.
Arguments gk_CustomFunc {W}.
Arguments gk_Message {W}.

Record GuardianFailure := mkFailure {
  gf_CheckName : string; gf_CheckType : string; gf_Field : string; gf_Message : string;
  gf_Expected : value; gf_Actual : value; gf_PIIType : string
}.

Record GuardianNodeConfig (W : Type) := mkGuardianConfig {
  gn_InputVar : string;
  gn_Checks : list (GuardianCheck W);
  gn_OnFail : string;
  gn_FailMessage : string;
  gn_RedirectNodeID : string;
  gn_ResultVar : string;
  gn_StopOnFirstFailure : bool
}.
Arguments mkGuardianConfig {W}.
Arguments gn_InputVar {W}.
Arguments gn_Checks {W}.
Arguments gn_OnFail {W}.
Arguments gn_FailMessage {W}.
Arguments gn_RedirectNodeID {W}.
Arguments gn_ResultVar {W}.
Arguments gn_StopOnFirstFailure {W}.

Record GuardianNode (W : Type) := mkGuardian { gn_ID : string; gn_config : GuardianNodeConfig W }.
Arguments mkGuardian {W}.
Arguments gn_ID {W}.
Arguments gn_config {W}.

Definition NewGuardianNode {W} (id : string) (c : GuardianNodeConfig W) : GuardianNode W :=
  mkGuardian id (mkGuardianConfig (gn_InputVar c) (gn_Checks c)
    (if bool_decide (gn_OnFail c = EmptyString) then GuardianActionFail else gn_OnFail c)
    (if bool_decide (gn_FailMessage c = EmptyString) then "validation failed" else gn_FailMessage c)
    (gn_RedirectNodeID c) (gn_ResultVar c) (gn_StopOnFirstFailure c)).

(** ** Values *)

(** No value of the model is a nil pointer; structs are not empty. *)
Definition isEmpty (v : value) : bool :=
  match v with
  | VNil => true
  | VString s => bool_decide (s = EmptyString)
  | VSlice l | VSliceOf _ l => bool_decide (length l = 0)
  | VStrings l => bool_decide (length l = 0)
  | VMap m => bool_decide (size m = 0)
  | VNilMap => true
  | _ => false
  end.

Definition getLength (v : value) : Z :=
  match v with
  | VString s => Z.of_nat (String.length s)
  | VSlice l | VSliceOf _ l => Z.of_nat (length l)
  | VStrings l => Z.of_nat (length l)
  | VMap m => Z.of_nat (size m)
  | _ => 0
  end.

Definition getTypeString (v : value) : string :=
  match v with
  | VNil => "null"
  | VString _ => "string"
  | VBool _ => "bool"
  | VInt _ | VInt32 _ | VInt64 _ | VFloat32 _ | VFloat64 _ => "number"
  | VSlice _ | VStrings _ | VSliceOf _ _ => "array"
  | VMap _ | VNilMap => "object"
  | VDecision _ _ _ _ | VStruct _ _ => "unknown"
  end.

(** No value of the model is a [[]byte]. *)
Definition stringify `{JsonEncoder} `{Printer} (v : value) : string :=
  match v with
  | VString s => s
  | _ => match json_Marshal v with inl data => data | inr _ => Sprint v end
  end.

(** ** Personal data *)

(** The expressions are sequences of classes of ASCII characters between word
    boundaries, so that they are searched for byte by byte. *)
Section Search.
Definition word_byte (c : ascii) : bool := is_digit_byte c || is_letter_byte c || bool_decide (c = "_"%char).
Definition is_word (c : option ascii) : bool := match c with Some c => word_byte c | None => false end.
Definition boundary (prev next : option ascii) : bool := xorb (is_word prev) (is_word next).
Definition first_byte (s : string) : option ascii := match s with String c _ => Some c | EmptyString => None end.

(** A prefix of [s], which follows [prev], is in the language and ends at a boundary. *)
Fixpoint match_here (r : regex) (prev : option ascii) (s : string) : bool :=
  (nullable r && boundary prev (first_byte s)) ||
  match s with EmptyString => false | String c t => match_here (deriv c r) (Some c) t end.

(** [MatchString] of the expression between two [\b]. *)
Fixpoint match_word (r : regex) (prev : option ascii) (s : string) : bool :=
  (boundary prev (first_byte s) && match_here r prev s) ||
  match s with EmptyString => false | String c t => match_word r (Some c) t end.
End Search.

Fixpoint RRep (n : nat) (r : regex) : regex := match n with 0 => REps | S n' => RSeq r (RRep n' r) end.
Definition RSeqs (rs : list regex) : regex := foldr RSeq REps rs.
Definition ROneOf (s : string) : regex := RClass (λ c, bool_decide (c ∈ String.list_ascii_of_string s)).
Definition RDigit : regex := RClass is_digit_byte.
Definition RDigits (n : nat) : regex := RRep n RDigit.
Definition white_space : string :=
  String (ascii_of_nat 9) (String (ascii_of_nat 10) (String (ascii_of_nat 12) (String (ascii_of_nat 13) " "))).
Definition RLit (s : string) : regex := RSeqs (map RChar (String.list_ascii_of_string s)).
Definition RClassOf (f : ascii → bool) (s : string) : regex :=
  RClass (λ c, f c || bool_decide (c ∈ String.list_ascii_of_string s)).

Definition phone_sep : regex := ROpt (ROneOf ("-." ^^ white_space)).

(** The patterns without their [\b] at both ends. *)
Definition piiPatterns : gmap string regex := {[
  PIITypeSSN := RSeqs [RDigits 3; RChar "-"; RDigits 2; RChar "-"; RDigits 4];
  PIITypeEmail :=
    let local := RClassOf (λ c, is_letter_byte c || is_digit_byte c) "._%+-" in
    let domain := RClassOf (λ c, is_letter_byte c || is_digit_byte c) ".-" in
    let top := RClassOf is_letter_byte "|" in
    RSeqs [RPlus local; RChar "@"; RPlus domain; RChar "."; RSeqs [top; top; RStar top]];
  PIITypePhone :=
    RSeqs [ROpt (RSeqs [ROpt (RChar "+"); RChar "1"; phone_sep]); ROpt (RChar "("); RDigits 3; ROpt (RChar ")");
           phone_sep; RDigits 3; phone_sep; RDigits 4];
  PIITypeCreditCard := RSeqs [RRep 3 (RSeqs [RDigits 4; ROpt (ROneOf ("-" ^^ white_space))]); RDigits 4];
  PIITypeIPAddress :=
    let octet := RSeqs [RDigit; ROpt RDigit; ROpt RDigit] in
    RSeqs [RRep 3 (RSeqs [octet; RChar "."]); octet];
  PIITypeDateOfBirth :=
    RSeqs [RAlt (RSeqs [RChar "0"; ROneOf "123456789"]) (RSeqs [RChar "1"; ROneOf "012"]); ROneOf "/-";
           RAlt (RSeqs [RChar "0"; ROneOf "123456789"])
             (RAlt (RSeqs [ROneOf "12"; RDigit]) (RSeqs [RChar "3"; ROneOf "01"])); ROneOf "/-";
           RAlt (RLit "19") (RLit "20"); RDigits 2]
]}.

Definition allPIITypes : list string :=
  [PIITypeSSN; PIITypeEmail; PIITypePhone; PIITypeCreditCard; PIITypeIPAddress; PIITypeDateOfBirth].

(** ** The schema validator *)

Section Guardian.
Context `{RangeOrder} `{Printer} `{Quoter} `{RegexpEngine}.

Definition printZ (z : Z) : string := pretty z.
Definition print_float (f : F64.t) : string := Sprint (VFloat64 f).

(** A failure of the schema check. *)
Definition schema_failure (path name msg : string) : GuardianFailure :=
  mkFailure name GuardianCheckSchema path msg VNil VNil EmptyString.

Definition sub_path (path field : string) : string :=
  if bool_decide (path ≠ EmptyString) then path ^^ "." ^^ field else field.

(** The failures, and whether the type matched. *)
Definition validateSchemaType (schema : gmap string value) (v : value) (path name : string)
    : list GuardianFailure * bool :=
  match schema !! "type" with
  | Some (VString expectedType) =>
      let actualType := getTypeString v in
      if bool_decide (actualType = expectedType) then ([], true)
      else ([mkFailure name GuardianCheckSchema path
               ("expected type " ^^ strconv_Quote expectedType ^^ ", got " ^^ strconv_Quote actualType)
               (VString expectedType) (VString actualType) EmptyString], false)
  | _ => ([], true)
  end.

Definition validateSchemaRequired (schema : gmap string value) (v : value) (path name : string)
    : list GuardianFailure :=
  match schema !! "required", toMap v with
  | Some (VSlice required), Some objMap =>
      omap (λ r, let reqField := Sprint r in
                 match objMap !! reqField with
                 | Some _ => None
                 | None => Some (schema_failure (sub_path path reqField) name
                     ("required property " ^^ strconv_Quote reqField ^^ " is missing"))
                 end) required
  | _, _ => []
  end.

Definition validateSchemaStringConstraints (schema : gmap string value) (v : value) (path name : string)
    : list GuardianFailure :=
  match v with
  | VString str =>
      let len := Z.of_nat (String.length str) in
      match schema !! "minLength" with
      | Some (VFloat64 minLen) =>
          if (len <? F64.to_int minLen)%Z then
            [schema_failure path name ("string length " ^^ printZ len ^^ " is below minimum " ^^ printZ (F64.to_int minLen))]
          else []
      | _ => []
      end ++
      match schema !! "maxLength" with
      | Some (VFloat64 maxLen) =>
          if (F64.to_int maxLen <? len)%Z then
            [schema_failure path name ("string length " ^^ printZ len ^^ " exceeds maximum " ^^ printZ (F64.to_int maxLen))]
          else []
      | _ => []
      end ++
      match schema !! "pattern" with
      | Some (VString pattern) =>
          match regexp_Compile pattern with
          | inl re => if re str then []
                      else [schema_failure path name ("string does not match pattern " ^^ strconv_Quote pattern)]
          | inr _ => []
          end
      | _ => []
      end
  | _ => []
  end.

Definition validateSchemaNumericConstraints (schema : gmap string value) (v : value) (path name : string)
    : list GuardianFailure :=
  match toFloat64 v with
  | Some num =>
      match schema !! "minimum" with
      | Some (VFloat64 min) =>
          if F64.ltb num min then
            [schema_failure path name ("value " ^^ print_float num ^^ " is below minimum " ^^ print_float min)]
          else []
      | _ => []
      end ++
      match schema !! "maximum" with
      | Some (VFloat64 max) =>
          if F64.ltb max num then
            [schema_failure path name ("value " ^^ print_float num ^^ " exceeds maximum " ^^ print_float max)]
          else []
      | _ => []
      end
  | None => []
  end.

Definition validateSchemaEnum (schema : gmap string value) (v : value) (path name : string) : list GuardianFailure :=
  match schema !! "enum" with
  | Some (VSlice enum) =>
      if existsb (valuesEqual v) enum then []
      else [schema_failure path name ("value " ^^ Sprint v ^^ " is not in enum " ^^ Sprint (VSlice enum))]
  | _ => []
  end.

(** A validator for the values of a property. *)
Notation validator := (value → string → list GuardianFailure).

(** The range over the properties, with the validators of their schemas. *)
Definition check_properties (properties : gmap string validator) (v : value) (path : string) : list GuardianFailure :=
  match toMap v with
  | None => []
  | Some objMap =>
      range_over ("schema properties of " ^^ path) properties (λ propName check,
        match objMap !! propName with
        | None => []
        | Some propValue => check propValue (sub_path path propName)
        end)
  end.

(** [validateSchemaProperties] and [validateSchema] by recursion on the schema; what
    is not a map is no schema. *)
Fixpoint validate_schema (name : string) (schema : value) : validator := λ v path,
  match schema with
  | VMap m =>
      let properties := (λ x, match x with VMap ps => validate_schema name <$> ps | _ => ∅ end) <$> m in
      match validateSchemaType m v path name with
      | (failures, false) => failures
      | (_, true) =>
          validateSchemaRequired m v path name ++
          check_properties (default ∅ (properties !! "properties")) v path ++
          validateSchemaStringConstraints m v path name ++
          validateSchemaNumericConstraints m v path name ++
          validateSchemaEnum m v path name
      end
  | _ => []
  end.

Definition validateSchema (schema : gmap string value) (v : value) (path name : string) : list GuardianFailure :=
  validate_schema name (VMap schema) v path.

(** ** The checks *)

Context {W : Type} `{World W} `{JsonEncoder}.
Implicit Types (check : GuardianCheck W) (n : GuardianNode W).

Definition getMessage check (defaultMsg : string) : string :=
  if bool_decide (gk_Message check ≠ EmptyString) then gk_Message check else defaultMsg.

(** A failure of a check with the values it names. *)
Definition failure check (field msg : string) (expected actual : value) : GuardianFailure :=
  mkFailure (gk_Name check) (gk_Type check) field msg expected actual EmptyString.

Definition checkRequired check (v input : value) : list GuardianFailure :=
  if bool_decide (0 < length (gk_RequiredFields check)) then
    match toMap input with
    | None => [failure check EmptyString "required fields check needs map input" VNil VNil]
    | Some inputMap =>
        omap (λ field,
          let missing := Some (failure check field (getMessage check
            ("required field " ^^ strconv_Quote field ^^ " is missing or empty")) VNil VNil) in
          match getNestedValue inputMap field with
          | None => missing
          | Some val => if isEmpty val then missing else None
          end) (gk_RequiredFields check)
    end
  else if isEmpty v then
    [failure check (gk_Field check) (getMessage check
       ("field " ^^ strconv_Quote (gk_Field check) ^^ " is required but empty")) VNil VNil]
  else [].

Definition checkMaxLength check (v : value) : list GuardianFailure :=
  let length := getLength v in
  if (gk_MaxLength check <? length)%Z then
    [failure check (gk_Field check) (getMessage check
       ("length " ^^ printZ length ^^ " exceeds maximum " ^^ printZ (gk_MaxLength check)))
       (VInt (gk_MaxLength check)) (VInt length)]
  else [].

Definition checkMinLength check (v : value) : list GuardianFailure :=
  let length := getLength v in
  if (length <? gk_MinLength check)%Z then
    [failure check (gk_Field check) (getMessage check
       ("length " ^^ printZ length ^^ " is below minimum " ^^ printZ (gk_MinLength check)))
       (VInt (gk_MinLength check)) (VInt length)]
  else [].

Definition checkPattern check (v : value) : list GuardianFailure + error :=
  if bool_decide (gk_Pattern check = EmptyString) then inr (EFmt [PS "pattern check requires Pattern"])
  else match regexp_Compile (gk_Pattern check) with
       | inr err => inr (EFmt [PS "invalid pattern "; PQ (gk_Pattern check); PS ": "; PW err])
       | inl re =>
           let str := Sprint v in
           inl (if re str then []
                else [failure check (gk_Field check) (getMessage check
                        ("value " ^^ strconv_Quote str ^^ " does not match pattern " ^^ strconv_Quote (gk_Pattern check)))
                        (VString (gk_Pattern check)) (VString str)])
       end.

Definition checkEnum check (v : value) : list GuardianFailure + error :=
  if bool_decide (length (gk_AllowedValues check) = 0) then inr (EFmt [PS "enum check requires AllowedValues"])
  else inl (if existsb (valuesEqual v) (gk_AllowedValues check) then []
            else [failure check (gk_Field check) (getMessage check
                    ("value " ^^ Sprint v ^^ " is not in allowed values " ^^ Sprint (VSlice (gk_AllowedValues check))))
                    (VSlice (gk_AllowedValues check)) v]).

Definition checkType check (v : value) : list GuardianFailure + error :=
  if bool_decide (gk_ExpectedType check = EmptyString) then inr (EFmt [PS "type check requires ExpectedType"])
  else let actualType := getTypeString v in
       inl (if bool_decide (actualType ≠ gk_ExpectedType check) then
              [failure check (gk_Field check) (getMessage check
                 ("expected type " ^^ strconv_Quote (gk_ExpectedType check) ^^ ", got " ^^ strconv_Quote actualType))
                 (VString (gk_ExpectedType check)) (VString actualType)]
            else []).

Definition below_min check (num : F64.t) : bool :=
  match gk_Min check with Some min => F64.ltb num min | None => false end.
Definition above_max check (num : F64.t) : bool :=
  match gk_Max check with Some max => F64.ltb max num | None => false end.

Definition checkRange check (v : value) : list GuardianFailure :=
  let bound b := match b with Some f => f | None => F64.zero end in
  match toFloat64 v with
  | None =>
      [failure check (gk_Field check) (getMessage check
         ("range check requires numeric value, got " ^^ type_name v)) VNil VNil]
  | Some num =>
      if below_min check num then
        [failure check (gk_Field check) (getMessage check
           ("value " ^^ print_float num ^^ " is below minimum " ^^ print_float (bound (gk_Min check))))
           (VFloat64 (bound (gk_Min check))) (VFloat64 num)]
      else if above_max check num then
        [failure check (gk_Field check) (getMessage check
           ("value " ^^ print_float num ^^ " exceeds maximum " ^^ print_float (bound (gk_Max check))))
           (VFloat64 (bound (gk_Max check))) (VFloat64 num)]
      else []
  end.

Definition pii_types check : list string :=
  if bool_decide (length (gk_PIITypes check) = 0) then allPIITypes else gk_PIITypes check.

Definition checkPII check (v : value) : list GuardianFailure :=
  let str := stringify v in
  omap (λ piiType,
    match piiPatterns !! piiType with
    | None => None
    | Some pattern =>
        if match_word pattern None str && gk_BlockPII check then
          Some (mkFailure (gk_Name check) (gk_Type check) (gk_Field check)
                  (getMessage check ("potential " ^^ piiType ^^ " PII detected")) VNil VNil piiType)
        else None
    end) (pii_types check).

Definition checkSchema check (v : value) : list GuardianFailure + error :=
  match gk_Schema check with
  | None => inr (EFmt [PS "schema check requires Schema"])
  | Some schema => inl (validateSchema schema v (gk_Field check) (gk_Name check))
  end.

Definition checkCustom check (v : value) (env : Envelope) : Prog W (list GuardianFailure + error) :=
  match gk_CustomFunc check with
  | None => mret (inr (EFmt [PS "custom check requires CustomFunc"]))
  | Some f =>
      r ← f v env;
      match (r : bool * string + error) with
      | inr err => mret (inr err)
      | inl (true, _) => mret (inl [])
      | inl (false, message) =>
          let message := if bool_decide (message = EmptyString) then "custom validation failed" else message in
          mret (inl [failure check (gk_Field check) (getMessage check message) VNil VNil])
      end
  end.

(** The [switch] over the types of checks. *)
Definition dispatch check (v input : value) (env : Envelope) : Prog W (list GuardianFailure + error) :=
  if bool_decide (gk_Type check = GuardianCheckRequired) then mret (inl (checkRequired check v input))
  else if bool_decide (gk_Type check = GuardianCheckMaxLength) then mret (inl (checkMaxLength check v))
  else if bool_decide (gk_Type check = GuardianCheckMinLength) then mret (inl (checkMinLength check v))
  else if bool_decide (gk_Type check = GuardianCheckPattern) then mret (checkPattern check v)
  else if bool_decide (gk_Type check = GuardianCheckEnum) then mret (checkEnum check v)
  else if bool_decide (gk_Type check = GuardianCheckType_) then mret (checkType check v)
  else if bool_decide (gk_Type check = GuardianCheckRange) then mret (inl (checkRange check v))
  else if bool_decide (gk_Type check = GuardianCheckPII) then mret (inl (checkPII check v))
  else if bool_decide (gk_Type check = GuardianCheckSchema) then mret (checkSchema check v)
  else if bool_decide (gk_Type check = GuardianCheckCustom) then checkCustom check v env
  else mret (inr (EFmt [PS "unknown check type: "; PS (gk_Type check)])).

Definition runCheck check (input : value) (env : Envelope) : Prog W (list GuardianFailure + error) :=
  if bool_decide (gk_Field check ≠ EmptyString) then
    match toMap input with
    | None =>
        mret (inl [failure check (gk_Field check)
          ("cannot access field " ^^ strconv_Quote (gk_Field check) ^^ " on non-map input") VNil VNil])
    | Some inputMap =>
        match getNestedValue inputMap (gk_Field check) with
        | None =>
            mret (inl (if bool_decide (gk_Type check = GuardianCheckRequired) then
                         [failure check (gk_Field check) (getMessage check
                            ("required field " ^^ strconv_Quote (gk_Field check) ^^ " is missing")) VNil VNil]
                       else []))
        | Some val => dispatch check val input env
        end
    end
  else dispatch check input input env.

(** ** The node *)

Definition guardian_error n (ps : list part) : error :=
  EFmt (PS "guardian node " :: PS (gn_ID n) :: PS ": " :: ps).

(** The loop over the checks. *)
Fixpoint run_checks n (checks : list (GuardianCheck W)) (input : value) (env : Envelope)
    (failures : list GuardianFailure) : Prog W (list GuardianFailure + error) :=
  match checks with
  | [] => mret (inl failures)
  | check :: rest =>
      d ← act ctx_Done;
      match d with
      | Some err => mret (inr err)
      | None =>
          r ← runCheck check input env;
          match (r : list GuardianFailure + error) with
          | inr err => mret (inr (guardian_error n [PS "check "; PQ (gk_Name check); PS " error: "; PW err]))
          | inl checkFailures =>
              let failures := failures ++ checkFailures in
              if gn_StopOnFirstFailure (gn_config n) && bool_decide (0 < length failures) then mret (inl failures)
              else run_checks n rest input env failures
          end
      end
  end.

(** [GuardianResult] as a value. *)
Definition failure_value (f : GuardianFailure) : value :=
  VStruct "nodes.GuardianFailure" (list_to_map [("CheckName", VString (gf_CheckName f));
    ("CheckType", VString (gf_CheckType f)); ("Field", VString (gf_Field f)); ("Message", VString (gf_Message f));
    ("Expected", gf_Expected f); ("Actual", gf_Actual f); ("PIIType", VString (gf_PIIType f))]).

Definition GuardianResult (passed : bool) (failures : list GuardianFailure) : value :=
  VStruct "nodes.GuardianResult" (list_to_map [("Passed", VBool passed);
    ("Failures", VSliceOf "nodes.GuardianFailure" (map failure_value failures))]).

Definition guardian_redirect_key := "__guardian_redirect__".

(** The envelope with the result stored. *)
Definition store_result n (failures : list GuardianFailure) (result : Envelope) : Envelope :=
  if bool_decide (gn_ResultVar (gn_config n) ≠ EmptyString) then
    SetVar (gn_ResultVar (gn_config n)) (GuardianResult (bool_decide (length failures = 0)) failures) result
  else result.

(** What follows the checks. *)
Definition conclude n (failures : list GuardianFailure) (env : Envelope) : Envelope + error :=
  let c := gn_config n in
  let result := store_result n failures env in
  if bool_decide (length failures = 0) then inl result
  else if bool_decide (gn_OnFail c = GuardianActionFail) then
    inr (guardian_error n [PS (gn_FailMessage c); PS ": "; PS (GoStr.Join (map gf_Message failures) "; ")])
  else if bool_decide (gn_OnFail c = GuardianActionSkip) then inl result
  else if bool_decide (gn_OnFail c = GuardianActionRedirect) then
    if bool_decide (gn_RedirectNodeID c = EmptyString) then
      inr (guardian_error n [PS "redirect action requires RedirectNodeID"])
    else inl (SetVar guardian_redirect_key (VString (gn_RedirectNodeID c)) result)
  else inr (guardian_error n [PS "unknown action "; PQ (gn_OnFail c)]).

(** The value the checks look at. *)
Definition guardian_input n (env : Envelope) : value + error :=
  if bool_decide (gn_InputVar (gn_config n) ≠ EmptyString) then
    match GetVarNested env (gn_InputVar (gn_config n)) with
    | Some val => inl val
    | None => inr (guardian_error n [PS "variable "; PQ (gn_InputVar (gn_config n)); PS " not found"])
    end
  else inl (match env_Vars env with Some m => VMap m | None => VNilMap end).

Definition Run n (env : Envelope) : Prog W (Envelope + error) :=
  match guardian_input n env with
  | inr err => mret (inr err)
  | inl input =>
      r ← run_checks n (gn_Checks (gn_config n)) input env [];
      match (r : list GuardianFailure + error) with
      | inr err => mret (inr err)
      | inl failures => mret (conclude n failures env)
      end
  end.
End Guardian.

(** ** The search for personal data *)

Fixpoint last_byte (prev : option ascii) (s : string) : option ascii :=
  match s with EmptyString => prev | String c t => last_byte (Some c) t end.

(** A word of the language between word boundaries. *)
Definition contains_word (r : regex) (s : string) : Prop :=
  ∃ a m b, s = a ^^ m ^^ b ∧ denotes r m ∧
    boundary (last_byte None a) (first_byte (m ^^ b)) = true ∧
    boundary (last_byte None (a ^^ m)) (first_byte b) = true.

Lemma match_here_spec s : ∀ r prev,
  match_here r prev s = true ↔
  ∃ m b, s = m ^^ b ∧ denotes r m ∧ boundary (last_byte prev m) (first_byte b) = true.
Proof.
  induction s as [|c s IH]; intros r prev; simpl; rewrite orb_true_iff, andb_true_iff, nullable_spec.
  - split.
    + intros [[Hd Hb]|?]; [|done]. by exists EmptyString, EmptyString.
    + intros (m & b & [-> ->]%eq_sym%append_nil_inv & Hd & Hb). auto.
  - rewrite IH. split.
    + intros [[Hd Hb]|(m & b & -> & Hd & Hb)]; [by exists EmptyString, (String c s)|].
      exists (String c m), b. split_and!; [done| |done]. by apply deriv_spec.
    + intros (m & b & [[-> ->]|(m' & -> & ->)]%eq_sym%append_String_inv & Hd & Hb); [by auto|].
      right. exists m', b. split_and!; [done| |done]. by apply deriv_spec.
Qed.

Lemma match_word_spec r s : ∀ prev,
  match_word r prev s = true ↔
  ∃ a m b, s = a ^^ m ^^ b ∧ denotes r m ∧
    boundary (last_byte prev a) (first_byte (m ^^ b)) = true ∧
    boundary (last_byte prev (a ^^ m)) (first_byte b) = true.
Proof.
  assert (∀ prev s, boundary prev (first_byte s) && match_here r prev s = true ↔
    ∃ m b, s = m ^^ b ∧ denotes r m ∧ boundary prev (first_byte (m ^^ b)) = true ∧
      boundary (last_byte prev m) (first_byte b) = true) as Hhere.
  { intros prev t. rewrite andb_true_iff, match_here_spec. naive_solver. }
  induction s as [|c s IH]; intros prev; cbn [match_word]; rewrite orb_true_iff, Hhere.
  - split.
    + intros [(m & b & Hs & ?)|?]; [|done]. by exists EmptyString, m, b.
    + intros (a & m & b & Hs & Hd & Hb). symmetry in Hs. apply append_nil_inv in Hs as [-> Hs].
      left. by exists m, b.
  - rewrite IH. split.
    + intros [(m & b & Hs & ?)|(a & m & b & -> & ?)]; [by exists EmptyString, m, b|].
      by exists (String c a), m, b.
    + intros (a & m & b & Hs & Hd & Hb). symmetry in Hs. apply append_String_inv in Hs as [[-> Hs]|(a' & -> & ->)].
      * left. by exists m, b.
      * right. by exists a', m, b.
Qed.

(** ** Conformance to a schema *)

Section Spec.
Context `{RangeOrder} `{Printer} `{Quoter} `{RegexpEngine}.
Implicit Types (schema : gmap string value) (v : value).

Definition required_present schema v : Prop :=
  ∀ required objMap r, schema !! "required" = Some (VSlice required) → toMap v = Some objMap → r ∈ required →
    is_Some (objMap !! Sprint r).

Definition string_fits schema v : Prop :=
  ∀ str, v = VString str →
    (∀ f, schema !! "minLength" = Some (VFloat64 f) → (F64.to_int f ≤ Z.of_nat (String.length str))%Z) ∧
    (∀ f, schema !! "maxLength" = Some (VFloat64 f) → (Z.of_nat (String.length str) ≤ F64.to_int f)%Z) ∧
    (∀ p re, schema !! "pattern" = Some (VString p) → regexp_Compile p = inl re → re str = true).

Definition number_fits schema v : Prop :=
  ∀ num, toFloat64 v = Some num →
    (∀ f, schema !! "minimum" = Some (VFloat64 f) → F64.ltb num f = false) ∧
    (∀ f, schema !! "maximum" = Some (VFloat64 f) → F64.ltb f num = false).

Definition enum_allows schema v : Prop :=
  ∀ enum, schema !! "enum" = Some (VSlice enum) → ∃ a, a ∈ enum ∧ valuesEqual v a = true.

(** The properties of a value, as far as they are present, conform to their schemas. *)
Inductive conforms : gmap string value → value → Prop :=
| conforms_intro schema v :
    (∀ t, schema !! "type" = Some (VString t) → getTypeString v = t) →
    required_present schema v →
    (∀ ps objMap p sub x,
       schema !! "properties" = Some (VMap ps) → toMap v = Some objMap →
       ps !! p = Some (VMap sub) → objMap !! p = Some x → conforms sub x) →
    string_fits schema v → number_fits schema v → enum_allows schema v →
    conforms schema v.

(** Both sides hold of a keyword that is absent or has another type. *)
Ltac absent :=
  intros; match goal with Hx : _ = Some _ |- _ => discriminate Hx | Hx : _ = _ |- _ => discriminate Hx end.
Ltac vacuous := split; [absent|done].

Lemma schema_required_nil schema v path name :
  validateSchemaRequired schema v path name = [] ↔ required_present schema v.
Proof.
  unfold validateSchemaRequired, required_present. destruct (schema !! "required") as [[]|]; try vacuous.
  destruct (toMap v) as [objMap|]; [|vacuous]. rewrite omap_nil_iff. split.
  - intros Hall required om r [= <-] [= <-] Hr%Hall. by destruct (objMap !! Sprint r).
  - intros Hall r Hr. by destruct (Hall l objMap r eq_refl eq_refl Hr) as [? ->].
Qed.

Lemma string_nil schema v path name :
  validateSchemaStringConstraints schema v path name = [] ↔ string_fits schema v.
Proof.
  unfold validateSchemaStringConstraints, string_fits. destruct v; try vacuous.
  rewrite !app_nil. split.
  - intros (Hmin & Hmax & Hp) str [= <-]. split_and!.
    + intros f Hf. rewrite Hf in Hmin. by destruct (Z.ltb_spec (Z.of_nat (String.length s)) (F64.to_int f)).
    + intros f Hf. rewrite Hf in Hmax. by destruct (Z.ltb_spec (F64.to_int f) (Z.of_nat (String.length s))).
    + intros p re Hpat Hre. rewrite Hpat, Hre in Hp. by destruct (re s).
  - intros Hall. destruct (Hall s eq_refl) as (Hmin & Hmax & Hp). split_and!.
    + destruct (schema !! "minLength") as [[]|]; try done. specialize (Hmin _ eq_refl). case_match; [lia|done].
    + destruct (schema !! "maxLength") as [[]|]; try done. specialize (Hmax _ eq_refl). case_match; [lia|done].
    + destruct (schema !! "pattern") as [[]|]; try done. destruct (regexp_Compile _) as [re|] eqn:Hre; [|done].
      by rewrite (Hp _ _ eq_refl Hre).
Qed.

Lemma number_nil schema v path name :
  validateSchemaNumericConstraints schema v path name = [] ↔ number_fits schema v.
Proof.
  unfold validateSchemaNumericConstraints, number_fits. destruct (toFloat64 v) as [num|]; [|vacuous].
  rewrite app_nil. split.
  - intros (Hmin & Hmax) x [= <-]. split.
    + intros f Hf. rewrite Hf in Hmin. by destruct (F64.ltb num f).
    + intros f Hf. rewrite Hf in Hmax. by destruct (F64.ltb f num).
  - intros Hall. destruct (Hall num eq_refl) as (Hmin & Hmax). split.
    + destruct (schema !! "minimum") as [[]|]; try done. by rewrite Hmin.
    + destruct (schema !! "maximum") as [[]|]; try done. by rewrite Hmax.
Qed.

Lemma enum_nil schema v path name : validateSchemaEnum schema v path name = [] ↔ enum_allows schema v.
Proof.
  unfold validateSchemaEnum, enum_allows. destruct (schema !! "enum") as [[]|]; try vacuous.
  destruct (existsb (valuesEqual v) l) eqn:E; (split; [intros Hnil|intros Hall]); try done.
  - intros enum [= <-]. apply existsb_exists in E as (a & Ha%list_elem_of_In & Heq). eauto.
  - destruct (Hall l eq_refl) as (a & Ha%list_elem_of_In & Heq).
    assert (existsb (valuesEqual v) l = true) by (apply existsb_exists; eauto). congruence.
Qed.

Lemma properties_nil name schema v path :
  (∀ ps p sub x path, schema !! "properties" = Some (VMap ps) → ps !! p = Some (VMap sub) →
     validate_schema name (VMap sub) x path = [] ↔ conforms sub x) →
  check_properties (default ∅ (((λ x, match x with VMap ps => validate_schema name <$> ps | _ => ∅ end) <$> schema)
    !! "properties")) v path = [] ↔
  (∀ ps objMap p sub x,
     schema !! "properties" = Some (VMap ps) → toMap v = Some objMap →
     ps !! p = Some (VMap sub) → objMap !! p = Some x → conforms sub x).
Proof.
  intros Hsub. unfold check_properties. rewrite lookup_fmap.
  destruct (toMap v) as [objMap|]; [|vacuous]. rewrite range_over_nil.
  destruct (schema !! "properties") as [y|]; simpl; [|split; [absent|intros _ k x; by rewrite lookup_empty]].
  destruct y as [| | | | | | | | | | |ps| | |]; try (split; [absent|intros _ k x; by rewrite lookup_empty]).
  split.
  - intros Hall ps' om p sub x [= <-] [= <-] Hp Hx.
    apply (Hsub ps p sub x (sub_path path p) eq_refl Hp).
    specialize (Hall p (validate_schema name (VMap sub))). rewrite Hx in Hall. apply Hall.
    by rewrite lookup_fmap, Hp.
  - intros Hall p check Hp. rewrite lookup_fmap in Hp. destruct (ps !! p) as [s|] eqn:Hs; [|done].
    injection Hp as <-. destruct (objMap !! p) as [x|] eqn:Hx; [|done].
    destruct s; try reflexivity. eapply Hsub; [done..|]. eapply Hall; done.
Qed.

Lemma schema_step name schema v path :
  (∀ ps p sub x path, schema !! "properties" = Some (VMap ps) → ps !! p = Some (VMap sub) →
     validate_schema name (VMap sub) x path = [] ↔ conforms sub x) →
  validate_schema name (VMap schema) v path = [] ↔ conforms schema v.
Proof.
  intros Hsub. cbn [validate_schema].
  assert ((validateSchemaType schema v path name).2 = true ↔
    ∀ t, schema !! "type" = Some (VString t) → getTypeString v = t) as Hty.
  { unfold validateSchemaType. destruct (schema !! "type") as [[]|]; try vacuous.
    case_bool_decide; simpl; split; intros Hx; try done; [intros t [= <-]; done|]. by specialize (Hx _ eq_refl). }
  assert (∀ fs, validateSchemaType schema v path name = (fs, false) → fs ≠ []) as Hne.
  { unfold validateSchemaType. intros fs. destruct (schema !! "type") as [[]|]; try (intros [=]; done).
    case_bool_decide; intros [= <-]; done. }
  destruct (validateSchemaType schema v path name) as [fs []].
  - rewrite !app_nil, schema_required_nil, string_nil, number_nil, enum_nil, properties_nil by done. split.
    + intros (Hr & Hp & Hs & Hn & He). constructor; try done. by apply Hty.
    + intros Hc. inversion Hc; subst. done.
  - split; [intros ->; by destruct (Hne [] eq_refl)|]. intros Hc. inversion Hc; subst.
    apply Hty in H3. done.
Qed.

(** The validator decides conformance, whatever the order in which it visits the
    properties. *)
Lemma validateSchema_conforms schema v path name :
  validateSchema schema v path name = [] ↔ conforms schema v.
Proof.
  unfold validateSchema.
  set (Q := λ s : value, ∀ m x p, s = VMap m → validate_schema name s x p = [] ↔ conforms m x).
  assert (∀ s, Q s ∧ ∀ ps k x, s = VMap ps → ps !! k = Some x → Q x) as HQ.
  { apply value_map_induct. intros s IH. split.
    - intros m x p ->. apply schema_step. intros ps q sub y p' Hps Hq.
      destruct (IH m "properties" (VMap ps) eq_refl Hps) as [_ Hx]. by apply (Hx ps q (VMap sub)).
    - intros ps k x -> Hx. by destruct (IH ps k x eq_refl Hx). }
  by apply (HQ (VMap schema)).
Qed.
End Spec.

(** ** What a guardian lets pass *)

Section Verdict.
Context `{RangeOrder} `{Printer} `{Quoter} `{RegexpEngine} {W : Type} `{World W} `{JsonEncoder} `{!Inhabited W}.
Implicit Types (check : GuardianCheck W) (n : GuardianNode W) (v input : value) (env : Envelope).

(** The value [v] is what the check wants. *)
Record satisfies check v input env : Prop := {
  sat_required : gk_Type check = GuardianCheckRequired →
    (gk_RequiredFields check = [] → isEmpty v = false) ∧
    (gk_RequiredFields check ≠ [] → ∃ m, toMap input = Some m ∧
       ∀ f, f ∈ gk_RequiredFields check → ∃ val, getNestedValue m f = Some val ∧ isEmpty val = false);
  sat_max : gk_Type check = GuardianCheckMaxLength → (getLength v ≤ gk_MaxLength check)%Z;
  sat_min : gk_Type check = GuardianCheckMinLength → (gk_MinLength check ≤ getLength v)%Z;
  sat_pattern : gk_Type check = GuardianCheckPattern →
    ∃ re, regexp_Compile (gk_Pattern check) = inl re ∧ re (Sprint v) = true;
  sat_enum : gk_Type check = GuardianCheckEnum → ∃ a, a ∈ gk_AllowedValues check ∧ valuesEqual v a = true;
  sat_type : gk_Type check = GuardianCheckType_ → getTypeString v = gk_ExpectedType check;
  sat_range : gk_Type check = GuardianCheckRange →
    ∃ num, toFloat64 v = Some num ∧ below_min check num = false ∧ above_max check num = false;
  sat_pii : gk_Type check = GuardianCheckPII → gk_BlockPII check = true →
    ∀ t r, t ∈ pii_types check → piiPatterns !! t = Some r → ¬ contains_word r (stringify v);
  sat_schema : gk_Type check = GuardianCheckSchema → ∃ s, gk_Schema check = Some s ∧ conforms s v;
  sat_custom : gk_Type check = GuardianCheckCustom →
    ∃ f msg, gk_CustomFunc check = Some f ∧ yields (f v env) (inl (true, msg))
}.

(** The check is satisfied by the input: a missing field is accepted unless it is required. *)
Definition holds check input env : Prop :=
  if bool_decide (gk_Field check = EmptyString) then satisfies check input input env
  else ∃ m, toMap input = Some m ∧
         match getNestedValue m (gk_Field check) with
         | None => gk_Type check ≠ GuardianCheckRequired
         | Some v => satisfies check v input env
         end.

(** The check is configured: what its type needs is there, and a custom function
    answers without an error whatever the world does. *)
Record usable check env : Prop := {
  us_type : gk_Type check ∈ [GuardianCheckRequired; GuardianCheckMaxLength; GuardianCheckMinLength;
    GuardianCheckPattern; GuardianCheckEnum; GuardianCheckType_; GuardianCheckRange; GuardianCheckPII;
    GuardianCheckSchema; GuardianCheckCustom];
  us_pattern : gk_Type check = GuardianCheckPattern →
    gk_Pattern check ≠ EmptyString ∧ ∃ re, regexp_Compile (gk_Pattern check) = inl re;
  us_enum : gk_Type check = GuardianCheckEnum → gk_AllowedValues check ≠ [];
  us_expected : gk_Type check = GuardianCheckType_ → gk_ExpectedType check ≠ EmptyString;
  us_schema : gk_Type check = GuardianCheckSchema → is_Some (gk_Schema check);
  us_custom : gk_Type check = GuardianCheckCustom →
    ∃ f, gk_CustomFunc check = Some f ∧ ∀ v, ∃ b msg, yields (f v env) (inl (b, msg))
}.

Lemma required_check check v input :
  checkRequired check v input = [] ↔
  (gk_RequiredFields check = [] → isEmpty v = false) ∧
  (gk_RequiredFields check ≠ [] → ∃ m, toMap input = Some m ∧
     ∀ f, f ∈ gk_RequiredFields check → ∃ val, getNestedValue m f = Some val ∧ isEmpty val = false).
Proof.
  unfold checkRequired. case_bool_decide as Hl.
  - assert (gk_RequiredFields check ≠ []) as Hne by (intros Hx; rewrite Hx in Hl; simpl in Hl; lia).
    destruct (toMap input) as [m|]; [|split; [done|]; intros [_ Hx]; by destruct (Hx Hne) as (? & ? & _)].
    rewrite omap_nil_iff. split.
    + intros Hall. split; [done|]. intros _. exists m. split; [done|]. intros f Hf%Hall.
      destruct (getNestedValue m f) as [val|]; [|done]. exists val. by destruct (isEmpty val).
    + intros [_ Hx] f Hf. destruct (Hx Hne) as (m' & [= <-] & Hall).
      destruct (Hall f Hf) as (val & -> & Hval). by rewrite Hval.
  - assert (gk_RequiredFields check = []) as Hnil by (apply nil_length_inv; lia).
    destruct (isEmpty v); split; try done.
    + intros [Hx _]. by specialize (Hx Hnil).
Qed.

(** Lists that report something exactly when a condition fails. *)
Lemma report_nil {A} (b : bool) (x : A) : (if b then [x] else []) = [] ↔ b = false.
Proof. by destruct b. Qed.

Lemma report_not_nil {A} (b : bool) (x : A) : (if b then [] else [x]) = [] ↔ b = true.
Proof. by destruct b. Qed.

Lemma existsb_elem {A} (p : A → bool) l : existsb p l = true ↔ ∃ a, a ∈ l ∧ p a = true.
Proof.
  rewrite existsb_exists. split; intros (a & Ha & Hp); exists a; (split; [|done]); by apply list_elem_of_In.
Qed.

Lemma range_check check v :
  checkRange check v = [] ↔
  ∃ num, toFloat64 v = Some num ∧ below_min check num = false ∧ above_max check num = false.
Proof.
  unfold checkRange. destruct (toFloat64 v) as [num|]; [|split; [done|]; by intros (? & ? & _)].
  destruct (below_min check num) eqn:Hb; [split; [done|]; intros (? & [= <-] & ? & _); congruence|].
  rewrite report_nil. split; [eauto|]. by intros (? & [= <-] & _ & ?).
Qed.

Lemma pii_check check v :
  checkPII check v = [] ↔
  (gk_BlockPII check = true → ∀ t r, t ∈ pii_types check → piiPatterns !! t = Some r →
     ¬ contains_word r (stringify v)).
Proof.
  unfold checkPII. rewrite omap_nil_iff. unfold contains_word. setoid_rewrite <- match_word_spec. split.
  - intros Hall Hb t r Ht Hr Hm. specialize (Hall t Ht). rewrite Hr in Hall.
    destruct (match_word r None (stringify v)); [|done]. by rewrite Hb in Hall.
  - intros Hall t Ht. destruct (piiPatterns !! t) as [r|] eqn:Hr; [|done].
    destruct (match_word r None (stringify v)) eqn:Hm; [|done].
    destruct (gk_BlockPII check) eqn:Hb; [|done]. by destruct (Hall eq_refl t r Ht Hr).
Qed.

(** The record is about the one type the check has. *)
Ltac clause Hty :=
  split;
  [intros Hx; constructor; intros Ht; first [by rewrite Hty in Ht | exact Hx]
  |intros []; match goal with Hc : _ → ?g |- ?g => exact (Hc Hty) end].

Lemma dispatch_yields check v input env :
  usable check env →
  ∃ fs, yields (dispatch check v input env) (inl fs) ∧ (fs = [] ↔ satisfies check v input env).
Proof.
  intros [Hty Hpat Hen Hex Hsc Hcu]. unfold dispatch.
  repeat (apply elem_of_cons in Hty as [Hty|Hty]; [rewrite Hty|]); [..|by apply not_elem_of_nil in Hty].
  all: repeat (first [rewrite bool_decide_false by done | rewrite bool_decide_true by done]).
  - eexists. split; [reflexivity|]. rewrite required_check. clause Hty.
  - eexists. split; [reflexivity|]. unfold checkMaxLength. rewrite report_nil, Z.ltb_ge. clause Hty.
  - eexists. split; [reflexivity|]. unfold checkMinLength. rewrite report_nil, Z.ltb_ge. clause Hty.
  - destruct (Hpat Hty) as [Hne [re Hre]]. unfold checkPattern. rewrite bool_decide_false, Hre by done.
    eexists. split; [reflexivity|]. rewrite report_not_nil.
    trans (∃ re', regexp_Compile (gk_Pattern check) = inl re' ∧ re' (Sprint v) = true);
      [rewrite Hre; split; [eauto|by intros (? & [= <-] & ?)]|clause Hty].
  - unfold checkEnum. rewrite bool_decide_false by (intros ?%nil_length_inv; by apply (Hen Hty)).
    eexists. split; [reflexivity|]. rewrite report_not_nil, existsb_elem. clause Hty.
  - unfold checkType. rewrite bool_decide_false by auto. eexists. split; [reflexivity|].
    rewrite report_nil, bool_decide_eq_false. trans (getTypeString v = gk_ExpectedType check);
      [split; [apply dec_stable|by intros -> []]|clause Hty].
  - eexists. split; [reflexivity|]. rewrite range_check. clause Hty.
  - eexists. split; [reflexivity|]. rewrite pii_check. clause Hty.
  - destruct (Hsc Hty) as [schema Hschema]. unfold checkSchema. rewrite Hschema.
    eexists. split; [reflexivity|]. rewrite validateSchema_conforms.
    trans (∃ s, gk_Schema check = Some s ∧ conforms s v);
      [rewrite Hschema; split; [eauto|by intros (? & [= <-] & ?)]|clause Hty].
  - destruct (Hcu Hty) as (f & Hf & Hall). destruct (Hall v) as (b & msg & Hy). unfold checkCustom. rewrite Hf.
    exists (if b then [] else [failure check (gk_Field check) (getMessage check
      (if bool_decide (msg = EmptyString) then "custom validation failed" else msg)) VNil VNil]).
    split; [eapply yields_pbind; [done|]; by destruct b|]. rewrite report_not_nil.
    trans (∃ f msg, gk_CustomFunc check = Some f ∧ yields (f v env) (inl (true, msg))); [|clause Hty].
    rewrite Hf. split; [intros ->; eauto|]. intros (? & msg' & [= <-] & Hy').
    pose proof (yields_functional inhabitant _ _ _ Hy Hy') as [= ->]. done.
Qed.

Lemma runCheck_yields check input env :
  usable check env →
  ∃ fs, yields (runCheck check input env) (inl fs) ∧ (fs = [] ↔ holds check input env).
Proof.
  intros Hus. unfold runCheck, holds. destruct (decide (gk_Field check = EmptyString)) as [Hf|Hf].
  { rewrite (bool_decide_false (gk_Field check ≠ _)), (bool_decide_true (gk_Field check = _)) by tauto.
    by apply dispatch_yields. }
  rewrite (bool_decide_true (gk_Field check ≠ _)), (bool_decide_false (gk_Field check = _)) by done.
  destruct (toMap input) as [m|].
  2: { eexists. split; [reflexivity|]. split; [done|]. by intros (? & ? & _). }
  destruct (getNestedValue m (gk_Field check)) as [v|] eqn:Hv.
  - destruct (dispatch_yields check v input env Hus) as (fs & Hy & Hiff). exists fs. split; [done|].
    rewrite Hiff. split; [intros Hs; exists m; by rewrite Hv|]. intros (? & [= <-] & Hs). by rewrite Hv in Hs.
  - eexists. split; [reflexivity|]. rewrite report_nil, bool_decide_eq_false.
    split; [intros Hs; exists m; by rewrite Hv|]. intros (? & [= <-] & Hs). by rewrite Hv in Hs.
Qed.

Hypothesis live : ∀ w : W, (ctx_Done w).2 = None.

Lemma run_checks_yields n input env checks : ∀ failures,
  (∀ c, c ∈ checks → usable c env) →
  ∃ fs, yields (run_checks n checks input env failures) (inl (failures ++ fs)) ∧
    (failures = [] → fs = [] ↔ ∀ c, c ∈ checks → holds c input env).
Proof.
  induction checks as [|c rest IH]; intros failures Hus.
  { exists []. rewrite app_nil_r. split; [done|]. intros _. split; [by intros _ c ?%not_elem_of_nil|done]. }
  destruct (runCheck_yields c input env (Hus c (list_elem_of_here _ _))) as (fs & Hy & Hiff).
  assert (∀ out, (if gn_StopOnFirstFailure (gn_config n) && bool_decide (0 < length (failures ++ fs))
                  then yields (W:=W) (mret (inl (failures ++ fs))) out
                  else yields (run_checks n rest input env (failures ++ fs)) out) →
          yields (run_checks n (c :: rest) input env failures) out) as Hgo.
  { intros out Hout. cbn [run_checks]. eapply yields_pbind; [apply yields_act, live|].
    eapply yields_pbind; [exact Hy|]. cbn. destruct (_ && _); exact Hout. }
  destruct (gn_StopOnFirstFailure (gn_config n) && bool_decide (0 < length (failures ++ fs))) eqn:Hstop.
  - exists fs. split; [apply Hgo; reflexivity|]. intros ->. apply andb_true_iff in Hstop as [_ Hl%bool_decide_eq_true].
    split; [intros ->; simpl in Hl; lia|]. intros Hall. apply Hiff, Hall. left.
  - destruct (IH (failures ++ fs)) as (fs' & Hy' & Hiff'); [intros c' Hc'; apply Hus; by right|].
    exists (fs ++ fs'). rewrite app_assoc. split; [by apply Hgo|]. intros ->. simpl in Hiff'. rewrite app_nil. split.
    + intros [-> ->] c' [->|Hc']%elem_of_cons; [by apply Hiff|]. by apply Hiff'.
    + intros Hall. assert (fs = []) as -> by (apply Hiff, Hall; left). split; [done|].
      apply Hiff'; [done|]. intros c' Hc'. apply Hall. by right.
Qed.

(** C30: the verdict of a guardian. When its input is there, its checks are
    configured and the run is not cancelled, the guardian ends with failures that
    are absent exactly when every check of its list is satisfied by the input
    (whether or not it stops at the first failure), and concludes from them: with
    the action [fail] it returns an envelope exactly when every check is satisfied,
    and every envelope it returns differs from its argument at most in the result
    variable and the redirect hint. *)
Theorem guardian_verdict n env input :
  guardian_input n env = inl input →
  (∀ c, c ∈ gn_Checks (gn_config n) → usable c env) →
  ∃ failures,
    yields (Run n env) (conclude n failures env) ∧
    (failures = [] ↔ ∀ c, c ∈ gn_Checks (gn_config n) → holds c input env) ∧
    (gn_OnFail (gn_config n) = GuardianActionFail →
       (∃ e, conclude n failures env = inl e) ↔ ∀ c, c ∈ gn_Checks (gn_config n) → holds c input env) ∧
    (∀ e x, conclude n failures env = inl e → x ≠ gn_ResultVar (gn_config n) → x ≠ guardian_redirect_key →
       GetVar e x = GetVar env x).
Proof.
  intros Hin Hus. destruct (run_checks_yields n input env _ [] Hus) as (fs & Hy & Hiff). simpl in Hy.
  specialize (Hiff eq_refl). exists fs. split_and!.
  - unfold Run. rewrite Hin. eapply yields_pbind; [exact Hy|]. done.
  - done.
  - intros Hfail. rewrite <- Hiff. unfold conclude. destruct fs; [split; eauto|].
    rewrite bool_decide_false, bool_decide_true by done. split; [by intros [? ?]|done].
  - intros e x He Hx Hr. assert (GetVar (store_result n fs env) x = GetVar env x) as Hs.
    { unfold store_result. case_bool_decide; [|done]. by apply GetVar_SetVar_ne. }
    unfold conclude in He. repeat case_bool_decide; try discriminate; injection He as <-; try done.
    rewrite GetVar_SetVar_ne by done. done.
Qed.
End Verdict.

(** The runtime does not look at the hint of a guardian: its redirect changes nothing. *)
Lemma guardian_redirect_unread target e succs :
  redirect_target (SetVar guardian_redirect_key (VString target) e) succs = redirect_target e succs.
Proof. unfold redirect_target. by rewrite GetVar_SetVar_ne. Qed.

(** ** Samples *)

Section Samples.
#[local] Existing Instance quiet_world.
#[local] Existing Instance key_order.
#[local] Instance sample_printer : Printer := {| print_pointer _ := ""; print_struct ty _ := ty |}.
#[local] Instance sample_quoter : Quoter := {| strconv_Quote s := s |}.
#[local] Instance sample_engine : RegexpEngine := {| regexp_Compile p := inl (λ s, GoStr.Contains s p) |}.
#[local] Instance sample_json : JsonEncoder := {| json_Marshal v := inl (Sprint v) |}.

Definition finds (t s : string) : bool :=
  match piiPatterns !! t with Some r => match_word r None s | None => false end.

Example pii_samples :
  [finds PIITypeSSN "my ssn is 123-45-6789."; finds PIITypeSSN "id 0123-45-6789";
   finds PIITypeEmail "mail to a.b@ex.org now"; finds PIITypeEmail "a@b"; finds PIITypePhone "call 555-123-4567";
   finds PIITypePhone "call (555) 123-4567"; finds PIITypeIPAddress "at 10.0.0.1:80";
   finds PIITypeIPAddress "at 999.999.999.999"; finds PIITypeDateOfBirth "born 12/31/1999";
   finds PIITypeCreditCard "card 4111 1111 1111 1111"] =
  [true; false; true; false; true; true; true; true; true; true].
Proof. vm_compute. reflexivity. Qed.

Definition sample_check (type field : string) : GuardianCheck () :=
  mkCheck ("check " ^^ type) type field [] 5 1 "" [] "object" None None [] true
    (Some {[ "type" := VString "object"; "required" := VSlice [VString "name"];
             "properties" := VMap {[ "name" := VMap {[ "type" := VString "string"; "minLength" := VFloat64 (F64.of_Z 2) ]};
                                     "age" := VMap {[ "minimum" := VFloat64 (F64.of_Z 0) ]} ]} ]}) None "".

Definition sample_guardian (stop : bool) : GuardianNode () :=
  NewGuardianNode "g" (mkGuardianConfig "user"
    [sample_check "required" "name"; sample_check "max_length" "name"; sample_check "pii" "";
     sample_check "schema" ""] "" "" "" "verdict" stop).

Definition user (name : string) (age : Z) : Envelope :=
  SetVar "user" (VMap {[ "name" := VString name; "age" := VInt age ]}) (NewEnvelope 0).

Definition messages_of (r : Envelope + error) : list string :=
  match r with inr (EFmt parts) => omap (λ p, match p with PS s => Some s | _ => None end) parts | _ => [] end.

Definition sample_run (stop : bool) (env : Envelope) : option (list string) :=
  messages_of <$> (exec (Run (sample_guardian stop) env) tt).2.

Example guardian_samples :
  (sample_run false (user "Ann" 30), sample_run false (user "Alexander" (-1)), sample_run true (user "Alexander" (-1))) =
  (Some [],
   Some ["guardian node "; "g"; ": "; "validation failed"; ": ";
         "length 9 exceeds maximum 5; value -1 is below minimum 0"],
   Some ["guardian node "; "g"; ": "; "validation failed"; ": "; "length 9 exceeds maximum 5"]).
Proof. vm_compute. reflexivity. Qed.

Lemma guardian_verdict_witness :
  sample_run false (user "Ann" 30) = Some [] ∧
  ∃ failures, yields (Run (sample_guardian false) (user "Ann" 30))
                (conclude (sample_guardian false) failures (user "Ann" 30)).
Proof.
  split; [vm_compute; reflexivity|].
  assert (∀ w : (), (ctx_Done w).2 = None) as Hlive by reflexivity.
  destruct (guardian_verdict Hlive (sample_guardian false) (user "Ann" 30)
    (VMap {[ "name" := VString "Ann"; "age" := VInt 30 ]})) as (failures & Hy & _).
  - vm_compute. reflexivity.
  - intros c Hc. cbn in Hc. repeat (apply elem_of_cons in Hc as [->|Hc]; [constructor; try discriminate; try done|]).
    all: try (by apply not_elem_of_nil in Hc).
    all: try (apply (bool_decide_unpack _); vm_compute; exact I).
  - by exists failures.
Defined.
End Samples.
