(* ===== verification/Conditional.v ===== *)
(** * The conditional node (nodes/conditional/node.go)

    Construction (all expressions parsed eagerly), routing under the two
    evaluation orders with the default branch, and the node as the runtime sees
    it. The expression language is used through [Parse] and [Eval]. *)

From stdpp Require Import gmap strings list fin_maps.
From Stdlib Require Import Ascii ZArith Lia.
From S2P Require Import Prelude Values Envelope Unicode Graph Events StepController Runtime.
From S2P Require Import RuntimeSafety ExprLexer ExprParser ExprEval.

(** ** Data *)

Record Condition := mkCondition {
  c_Name : string;
  c_Expression : string;
  c_Description : string
}.

Record Config := mkConfig {
  cfg_Conditions : list Condition;
  cfg_Default : string;
  cfg_EvaluationOrder : string;
  cfg_PassThrough : bool;
  cfg_OutputKey : string
}.

(** The node: its conditions carry their parsed expressions. *)
Record ConditionalNode := mkConditional {
  cn_ID : string;
  cn_Conditions : list (Condition * Expr);
  cn_Default : string;
  cn_EvaluationOrder : string;
  cn_PassThrough : bool;
  cn_OutputKey : string
}.

Definition NodeKindConditional : string := "conditional".

(** ** Construction *)

Section Construction.
Context `{UnicodeTables}.

Definition cond_error (id : string) (ps : list part) : error :=
  EFmt (PS "conditional node " :: PQ id :: PS ": " :: ps).

(** The loop over the conditions; [None] only if parsing ran out of fuel. *)
Fixpoint parse_conditions (id : string) (i : nat) (seen : gset string) (cs : list Condition)
    : option (list (Condition * Expr) + error) :=
  match cs with
  | [] => Some (inl [])
  | c :: rest =>
      if bool_decide (c_Name c = EmptyString) then
        Some (inr (cond_error id [PS "condition "; PD (Z.of_nat i); PS " has empty name"]))
      else if bool_decide (c_Name c ∈ seen) then
        Some (inr (cond_error id [PS "duplicate condition name "; PQ (c_Name c)]))
      else if bool_decide (c_Expression c = EmptyString) then
        Some (inr (cond_error id [PS "condition "; PQ (c_Name c); PS " has empty expression"]))
      else
        match Parse (c_Expression c) with
        | None => None
        | Some (inr err) =>
            Some (inr (cond_error id [PS "condition "; PQ (c_Name c); PS ": "; PW err]))
        | Some (inl parsed) =>
            match parse_conditions id (S i) ({[c_Name c]} ∪ seen) rest with
            | Some (inl ps) => Some (inl ((c, parsed) :: ps))
            | r => r
            end
        end
  end.

Definition NewConditionalNode (id : string) (cfg : Config) : option (ConditionalNode + error) :=
  if bool_decide (length (cfg_Conditions cfg) = 0) then
    Some (inr (cond_error id [PS "at least one condition is required"]))
  else
    let order := if bool_decide (cfg_EvaluationOrder cfg = EmptyString) then "first_match"
                 else cfg_EvaluationOrder cfg in
    if bool_decide (order ≠ "first_match") && bool_decide (order ≠ "all") then
      Some (inr (cond_error id [PS "evaluation_order must be "; PQ "first_match"; PS " or ";
                                PQ "all"; PS ", got "; PQ order]))
    else
      let outputKey := if bool_decide (cfg_OutputKey cfg = EmptyString) then id ^^ "_output"
                       else cfg_OutputKey cfg in
      match parse_conditions id 0 ∅ (cfg_Conditions cfg) with
      | None => None
      | Some (inr err) => Some (inr err)
      | Some (inl cs) =>
          Some (inl (mkConditional id cs (cfg_Default cfg) order (cfg_PassThrough cfg) outputKey))
      end.
End Construction.

(** ** Routing *)

Record RouteDecision := mkDecision { rd_Targets : list string; rd_Reason : string }.

(** The decision as the value stored in the envelope. *)
Definition decision_value (d : RouteDecision) : value :=
  VDecision (rd_Targets d) (rd_Reason d) None ∅.

(** The namespace of the expressions: the variables, and all of them again under
    ["input"] unless a variable has that name. *)
Definition route_vars (env : Envelope) : gmap string value :=
  let vars := vars_of env in
  match vars !! "input" with
  | Some _ => vars
  | None => <["input" := match env_Vars env with Some m => VMap m | None => VNilMap end]> vars
  end.

Section Routing.
Context `{RegexpEngine}.

(** The loop of [Route]: the targets and the reasons. *)
Fixpoint route_loop (id : string) (first : bool) (vars : gmap string value)
    (cs : list (Condition * Expr)) (targets reasons : list string)
    : EvalM (list string * list string) :=
  match cs with
  | [] => eret (targets, reasons)
  | (cond, parsed) :: rest => λ cache,
      match Eval parsed vars cache with
      | (cache', inr err) =>
          (cache', inr (cond_error id [PS "condition "; PQ (c_Name cond); PS ": "; PW err]))
      | (cache', inl result) =>
          if IsTruthy result then
            let targets := targets ++ [c_Name cond] in
            let reason := if bool_decide (c_Description cond ≠ EmptyString)
                          then c_Description cond else c_Name cond in
            let reasons := reasons ++ [reason] in
            if first then (cache', inl (targets, reasons))
            else route_loop id first vars rest targets reasons cache'
          else route_loop id first vars rest targets reasons cache'
      end
  end.

Definition Route (n : ConditionalNode) (env : Envelope) : EvalM RouteDecision :=
  tr <~ route_loop (cn_ID n) (bool_decide (cn_EvaluationOrder n = "first_match"))
          (route_vars env) (cn_Conditions n) [] [] ;;
  let '(targets, reasons) := tr in
  let '(targets, reasons) :=
    if bool_decide (length targets = 0) && bool_decide (cn_Default n ≠ EmptyString)
    then ([cn_Default n], ["default branch"]) else (targets, reasons) in
  if bool_decide (length targets = 0) then
    eerr (cond_error (cn_ID n) [PS "no conditions matched and no default branch configured"])
  else
    let reason :=
      match reasons with
      | [] => EmptyString
      | [r] => r
      | _ => GoStr.Itoa (length reasons) ^^ " branches matched"
      end in
    eret (mkDecision targets reason).

(** [Run]: the envelope after it (its argument, mutated in place). *)
Definition Run (n : ConditionalNode) (env : Envelope) : EvalM Envelope :=
  decision <~ Route n env ;;
  let env := SetVar (cn_ID n ^^ "_decision") (decision_value decision) env in
  if negb (cn_PassThrough n) then
    let matchedName := match rd_Targets decision with t :: _ => t | [] => EmptyString end in
    eret (SetVar (cn_OutputKey n)
           (VMap {[ "matched" := VBool (bool_decide (0 < length (rd_Targets decision)));
                    "condition" := VString matchedName ]}) env)
  else eret env.

(** The node of the runtime; the regular expression cache is part of the world. *)
Definition conditional_node {W} (get : W → regex_cache) (set : regex_cache → W → W)
    (n : ConditionalNode) : Node W :=
  mkNode (cn_ID n) NodeKindConditional true (λ env,
    NWorld (λ w,
      match Run n env (get w) with
      | (cache, inl env') => (set cache w, NRet env' RSame)
      | (cache, inr err) => (set cache w, NRet env (RErr err))
      end)).
End Routing.

(** ** Correctness of the construction *)

Section ConstructionSpec.
Context `{UnicodeTables}.

(** A condition the constructor accepts. *)
Definition condition_ok (c : Condition) : Prop :=
  c_Name c ≠ EmptyString ∧ c_Expression c ≠ EmptyString ∧
  ∃ e, Parse (c_Expression c) = Some (inl e).

Lemma Parse_is_Some s : is_Some (Parse s).
Proof.
  unfold Parse, Lex.
  destruct (lexAll_total s (S (String.length s)) (mkLexer s 0 []) (lex_inv_init s))
    as [(l' & toks & -> & _)|[err ->]]; [simpl; lia|apply parse_tokens_total|eauto].
Qed.

Lemma parse_conditions_total id cs : ∀ i seen, is_Some (parse_conditions id i seen cs).
Proof.
  induction cs as [|c cs IH]; intros i seen; simpl; [eauto|].
  do 3 (case_bool_decide; [eauto|]). destruct (Parse_is_Some (c_Expression c)) as [[e|err] ->]; [|eauto].
  destruct (IH (S i) ({[c_Name c]} ∪ seen)) as [[ps|err] ->]; eauto.
Qed.

Lemma parse_conditions_iff id cs : ∀ i seen ps,
  parse_conditions id i seen cs = Some (inl ps) ↔
    Forall condition_ok cs ∧ NoDup (map c_Name cs) ∧ (∀ c, c ∈ cs → c_Name c ∉ seen) ∧
    map fst ps = cs ∧ Forall (λ ce, Parse (c_Expression ce.1) = Some (inl ce.2)) ps.
Proof.
  induction cs as [|c cs IH]; intros i seen ps; simpl.
  { split.
    - intros [= <-]. split_and!; try constructor. set_solver.
    - intros (_ & _ & _ & Hm & _). by destruct ps. }
  assert (∀ c' : Condition, c' ∈ cs → c_Name c' ∈ map c_Name cs) as Hmap.
  { intros c' Hc'. apply list_elem_of_In, in_map, list_elem_of_In, Hc'. }
  rewrite Forall_cons, NoDup_cons. unfold condition_ok at 1.
  do 3 (case_bool_decide; [split; [done|set_solver]|]).
  destruct (Parse (c_Expression c)) as [[e|err]|] eqn:He.
  2, 3: split; [done|]; intros (([_ [_ [e Hp]]] & _) & _); congruence.
  split.
  - destruct (parse_conditions id (S i) _ cs) as [[ps'|]|] eqn:Hr; try done. intros [= <-].
    apply IH in Hr as (F1 & F2 & F3 & F4 & F5). simpl. rewrite F4.
    assert (c_Name c ∉ map c_Name cs) as Hn.
    { intros Hin. apply list_elem_of_In, in_map_iff in Hin as (c' & Hc' & Hin).
      apply list_elem_of_In, F3 in Hin. set_solver. }
    split_and!; try done; [eauto|set_solver|by constructor].
  - intros ((_ & F1) & (Hn & F2) & F3 & F4 & F5).
    destruct ps as [|[c' e'] ps]; [done|]. simpl in F4. injection F4 as -> F4.
    inversion F5 as [|? ? He' F5']; subst. simpl in He'. rewrite He in He'. injection He' as ->.
    assert (parse_conditions id (S i) ({[c_Name c]} ∪ seen) (map fst ps) = Some (inl ps)) as ->;
      [|done].
    apply IH. split_and!; try done. intros c1 Hc1 Hin. apply elem_of_union in Hin as [Hin|Hin].
    + apply elem_of_singleton in Hin. apply Hn. rewrite <- Hin. by apply Hmap.
    + apply (F3 c1); [by right|done].
Qed.
End ConstructionSpec.

(** The constructor always returns. It builds a node exactly when there is a
    condition, the evaluation order is one of the two known ones (or empty, for
    [first_match]), the names are non-empty and distinct, and every expression is
    non-empty and parses; the node then holds the conditions in their order, each
    with the tree of its own expression. *)
Theorem NewConditionalNode_spec `{UnicodeTables} (id : string) (cfg : Config) :
  is_Some (NewConditionalNode id cfg) ∧
  ((∃ n, NewConditionalNode id cfg = Some (inl n)) ↔
    cfg_Conditions cfg ≠ [] ∧
    cfg_EvaluationOrder cfg ∈ [EmptyString; "first_match"; "all"] ∧
    Forall condition_ok (cfg_Conditions cfg) ∧ NoDup (map c_Name (cfg_Conditions cfg))) ∧
  ∀ n, NewConditionalNode id cfg = Some (inl n) →
    map fst (cn_Conditions n) = cfg_Conditions cfg ∧
    Forall (λ ce, Parse (c_Expression ce.1) = Some (inl ce.2)) (cn_Conditions n).
Proof.
  unfold NewConditionalNode.
  destruct (parse_conditions_total id (cfg_Conditions cfg) 0 ∅) as [r Hr].
  case_bool_decide as Hlen.
  { apply nil_length_inv in Hlen. split_and!; [eauto| |done]. split; [by intros []|].
    intros (? & _). done. }
  assert (cfg_Conditions cfg ≠ []) as Hne by (by destruct (cfg_Conditions cfg)).
  set (order := if bool_decide (cfg_EvaluationOrder cfg = EmptyString) then "first_match"
                else cfg_EvaluationOrder cfg).
  assert (bool_decide (order ≠ "first_match") && bool_decide (order ≠ "all") = true ↔
    cfg_EvaluationOrder cfg ∉ [EmptyString; "first_match"; "all"]) as Hord.
  { rewrite andb_true_iff, !bool_decide_eq_true, !not_elem_of_cons. unfold order.
    case_bool_decide; split; intros; destruct_and?; split_and?; try done; set_solver. }
  destruct (_ && _) eqn:Eo.
  { split_and!; [eauto| |done]. split; [by intros []|]. intros (_ & Hin & _).
    by destruct (proj1 Hord eq_refl). }
  assert (cfg_EvaluationOrder cfg ∈ [EmptyString; "first_match"; "all"]) as Hin
    by (apply dec_stable; rewrite <- Hord; done).
  pose proof (parse_conditions_iff id (cfg_Conditions cfg) 0 ∅) as Hiff.
  rewrite Hr in *. destruct r as [cs|err].
  - destruct (proj1 (Hiff cs) eq_refl) as (H1 & H2 & _ & H4 & H5).
    split_and!; [eauto|naive_solver|]. by intros n [= <-].
  - split_and!; [eauto| |done]. split; [by intros []|]. intros (_ & _ & Hok & Hnd).
    assert (∃ ps : list (Condition * Expr), map fst ps = cfg_Conditions cfg ∧
      Forall (λ ce, Parse (c_Expression ce.1) = Some (inl ce.2)) ps) as (ps & Hm & Hp).
    { clear -Hok. induction Hok as [|c l [_ [_ [e He]]] _ (ps & Hm & Hp)]; [by exists []|].
      exists ((c, e) :: ps). simpl. rewrite Hm. split; [done|by constructor]. }
    assert (Some (inr err) = Some (inl ps)) as Hx by (apply Hiff; split_and!; try done; set_solver).
    done.
Qed.

(** ** Correctness of routing *)

Section RouteSpec.
Context `{RegexpEngine}.

(** What the expression of a condition evaluates to, regardless of the cache. *)
Definition cond_value (env : Envelope) (ce : Condition * Expr) : value + error :=
  (Eval ce.2 (route_vars env) ∅).2.

Definition truthy (env : Envelope) (ce : Condition * Expr) : Prop :=
  match cond_value env ce with inl v => IsTruthy v = true | inr _ => False end.
Definition falsy (env : Envelope) (ce : Condition * Expr) : Prop :=
  match cond_value env ce with inl v => IsTruthy v = false | inr _ => False end.

#[export] Instance truthy_dec env ce : Decision (truthy env ce).
Proof. unfold truthy. destruct (cond_value env ce); apply _. Defined.

Definition names (cs : list (Condition * Expr)) : list string := map (λ ce, c_Name ce.1) cs.

(** The matched conditions, by evaluation order. *)
Definition matched (first : bool) (env : Envelope) (cs : list (Condition * Expr))
    (targets : list string) : Prop :=
  if first then
    (∃ pre ce post, cs = pre ++ ce :: post ∧ Forall (falsy env) pre ∧ truthy env ce ∧
       targets = [c_Name ce.1]) ∨
    (Forall (falsy env) cs ∧ targets = [])
  else Forall (λ ce, truthy env ce ∨ falsy env ce) cs ∧ targets = names (filter (truthy env) cs).

(** The first condition that fails to evaluate, before any match when only the
    first match counts. *)
Definition failing (first : bool) (env : Envelope) (cs : list (Condition * Expr)) : Prop :=
  ∃ pre ce post err, cs = pre ++ ce :: post ∧ cond_value env ce = inr err ∧
    Forall (λ x, falsy env x ∨ (first = false ∧ truthy env x)) pre.

Definition loop_result (first : bool) (env : Envelope) (cs : list (Condition * Expr))
    (ts : list string) (r : (list string * list string) + error) : Prop :=
  match r with
  | inl (targets, _) => ∃ ts', targets = ts ++ ts' ∧ matched first env cs ts'
  | inr _ => failing first env cs
  end.

Lemma loop_result_falsy first env ce cs ts r :
  falsy env ce → loop_result first env cs ts r → loop_result first env (ce :: cs) ts r.
Proof.
  intros Hf. destruct r as [[targets rs]|err]; simpl.
  - intros (ts' & -> & Hm). exists ts'. split; [done|]. destruct first; simpl in *.
    + destruct Hm as [(pre & ce' & post & -> & Hp & Ht & ->)|[Hp ->]].
      * left. exists (ce :: pre), ce', post. split_and!; try done. by constructor.
      * right. split; [by constructor|done].
    + destruct Hm as [Hall ->]. split; [constructor; auto|]. rewrite filter_cons_False; [done|].
      unfold truthy, falsy in *. destruct (cond_value env ce); [congruence|done].
  - intros (pre & ce' & post & e & -> & He & Hp). exists (ce :: pre), ce', post, e.
    split_and!; try done. constructor; auto.
Qed.

Lemma loop_result_truthy env ce cs ts r :
  truthy env ce → loop_result false env cs (ts ++ [c_Name ce.1]) r →
  loop_result false env (ce :: cs) ts r.
Proof.
  intros Ht. destruct r as [[targets rs]|err]; simpl.
  - intros (ts' & -> & Hall & ->). exists (names (filter (truthy env) (ce :: cs))).
    rewrite filter_cons_True by done. rewrite <- app_assoc. split; [done|]. split; [|done].
    constructor; auto.
  - intros (pre & ce' & post & e & -> & He & Hp). exists (ce :: pre), ce', post, e.
    split_and!; try done. constructor; auto.
Qed.

Lemma route_loop_spec id first env cs : ∀ ts rs cache,
  coherent cache →
  coherent (route_loop id first (route_vars env) cs ts rs cache).1 ∧
  loop_result first env cs ts (route_loop id first (route_vars env) cs ts rs cache).2.
Proof.
  induction cs as [|[cond parsed] cs IH]; intros ts rs cache Hc; cbn [route_loop].
  { split; [done|]. exists []. rewrite app_nil_r. split; [done|].
    destruct first; simpl; [right; by split|by split]. }
  destruct (transparent_eval (route_vars env) parsed cache ∅ Hc) as [Heq Hc'].
  { intros p re Hp. by rewrite lookup_empty in Hp. }
  unfold Eval. destruct (eval (route_vars env) parsed cache) as [cache' [v|err]]; simpl in *.
  - destruct (IsTruthy v) eqn:Hv.
    + assert (truthy env (cond, parsed)) as Ht
        by (unfold truthy, cond_value, Eval; simpl; by rewrite <- Heq).
      destruct first.
      * split; [done|]. exists [c_Name cond]. split; [done|]. left. by exists [], (cond, parsed), cs.
      * destruct (IH (ts ++ [c_Name cond]) (rs ++ [if bool_decide (c_Description cond ≠ "")
          then c_Description cond else c_Name cond]) cache' Hc') as [H1 H2].
        split; [done|]. by apply loop_result_truthy.
    + assert (falsy env (cond, parsed)) as Hf
        by (unfold falsy, cond_value, Eval; simpl; by rewrite <- Heq).
      destruct (IH ts rs cache' Hc') as [H1 H2]. split; [done|]. by apply loop_result_falsy.
  - split; [done|]. exists [], (cond, parsed), cs, err. split_and!; done.
Qed.
End RouteSpec.

(** [Route] follows the conditions in their order. Under [first_match] it
    selects the first condition that is truthy, and evaluates nothing after it;
    otherwise it selects every truthy condition. The default branch is selected
    exactly when nothing matched and one is configured. It fails only when a
    condition it evaluates fails, or when nothing matched without a default. *)
Theorem Route_correct `{RegexpEngine} (n : ConditionalNode) (env : Envelope) (cache : regex_cache) :
  coherent cache →
  let first := bool_decide (cn_EvaluationOrder n = "first_match") in
  match (Route n env cache).2 with
  | inl d =>
      (rd_Targets d ≠ [] ∧ matched first env (cn_Conditions n) (rd_Targets d)) ∨
      (matched first env (cn_Conditions n) [] ∧ cn_Default n ≠ EmptyString ∧
       rd_Targets d = [cn_Default n])
  | inr err =>
      failing first env (cn_Conditions n) ∨
      (matched first env (cn_Conditions n) [] ∧ cn_Default n = EmptyString)
  end.
Proof.
  intros Hc first. unfold Route, ebind. fold first.
  destruct (route_loop_spec (cn_ID n) first env (cn_Conditions n) [] [] cache Hc) as [_ Hl].
  destruct (route_loop _ _ _ _ _ _ cache) as [cache' [[targets reasons]|err]]; simpl in *; [|by left].
  destruct Hl as (ts' & -> & Hm).
  destruct ts' as [|t ts']; simpl; [|left; done].
  destruct (decide (cn_Default n = EmptyString)) as [->|Hd]; simpl; [by right|].
  rewrite bool_decide_true by done. by right.
Qed.

(** ** The node in the runtime *)


(** ** A concrete node *)

Section Sample.
#[local] Instance cond_tables : UnicodeTables :=
  {| uni_Letter := λ _, false; uni_Digit := λ _, false |}.

#[local] Instance cond_engine : RegexpEngine :=
  {| regexp_Compile p := inl (λ s, GoStr.Contains s p) |}.

Definition sample_config : Config :=
  mkConfig [mkCondition "high" "input.score > 5" "";
            mkCondition "mid" "score >= 3 && !(score in [4])" ""] "low" "" true "".

Definition sample_conditional : ConditionalNode :=
  match NewConditionalNode "c" sample_config with
  | Some (inl n) => n
  | _ => mkConditional "" [] "" "" true ""
  end.

Definition score_env (z : Z) : Envelope := SetVar "score" (VInt z) (NewEnvelope 0).

Example sample_routes :
  map (λ z, match (Route sample_conditional (score_env z) ∅).2 with
            | inl d => rd_Targets d
            | inr _ => []
            end) [7; 4; 3; 1]%Z = [["high"]; ["low"]; ["mid"]; ["low"]].
Proof. vm_compute. reflexivity. Qed.

Lemma Route_correct_witness :
  (rd_Targets (mkDecision ["high"] "high") ≠ [] ∧
   matched true (score_env 7) (cn_Conditions sample_conditional) ["high"]) ∨
  (matched true (score_env 7) (cn_Conditions sample_conditional) [] ∧
   cn_Default sample_conditional ≠ EmptyString ∧ ["high"] = [cn_Default sample_conditional]).
Proof.
  assert (coherent (∅ : regex_cache)) as Hc by (intros p re Hp; discriminate Hp).
  exact (Route_correct sample_conditional (score_env 7) ∅ Hc).
Defined.

#[local] Instance cond_graph : GraphIface (list string) (Node ()) := {|
  Name _ := ""; Nodes _ := []; NodeByID _ _ := None; Entry _ := "";
  Successors l _ := l; Predecessors _ _ := []
|}.

End Sample.
