(* ===== verification/Loader.v ===== *)
(** * Detection and loading of workflow files (loader/detect.go, loader/load.go)

    The kind of a file is what its [kind] field says, else what its shape says; a
    file is then decoded, validated and, when it is an agent workflow, compiled.

    The theorems: detection follows the header first and then the shape
    ([DetectSchema_kind]), and what is loaded is valid ([LoadWorkflow_valid]). *)

From stdpp Require Import gmap strings list fin_maps.
From Stdlib Require Import Ascii ZArith Lia.
From S2P Require Import Prelude Values GoFmt Unicode Schema Registry GraphDef AgentWorkflow AgentCompile.

Definition SchemaKindAgent := "agent_workflow".
Definition SchemaKindGraph := "graph".

(** The decoders: YAML and JSON objects, any YAML, agent workflows and graph
    definitions. *)
Class Decoders := {
  yaml_object : string → gmap string value + error;
  json_object_of : string → gmap string value + error;
  yaml_value : string → value + error;
  workflow_Unmarshal : string → AgentWorkflow + error;
  graph_Unmarshal : string → GraphDefinition + error
}.

Definition LoadFromBytes `{Decoders} (data : string) : AgentWorkflow + error :=
  match workflow_Unmarshal data with
  | inl wf => inl wf
  | inr err => inr (EFmt [PS "parsing agent workflow JSON: "; PW err])
  end.

(** [filepath.Ext]: from the last dot of the last element of the path on. *)
Fixpoint ext_from (s found : string) : string :=
  match s with
  | EmptyString => found
  | String c t =>
      if decide (c = "/"%char) then ext_from t EmptyString
      else if decide (c = "."%char) then ext_from t s
      else ext_from t found
  end.
Definition filepath_Ext (path : string) : string := ext_from path EmptyString.

Definition isYAML `{LowerTables} (path : string) : bool :=
  let ext := ToLower (filepath_Ext path) in bool_decide (ext = ".yaml") || bool_decide (ext = ".yml").

(** The value when the field is there. *)
Definition readStringField (raw : gmap string value) (field : string) : option string + error :=
  match raw !! field with
  | None => inl None
  | Some (VString s) => inl (Some s)
  | Some _ => inr (EFmt [PS field; PS " must be a string"])
  end.

Definition toSchemaKind (kind : WorkflowKind) : string :=
  match kind with KindAgent => SchemaKindAgent | KindGraph => SchemaKindGraph end.

Definition validateSchemaVersionForKind (schemaVersion kind : string) : option error :=
  let check major :=
    match ValidateSchemaVersion schemaVersion major with
    | Some err => Some (EFmt [PS "invalid schema_version: "; PW err])
    | None => None
    end in
  if bool_decide (kind = SchemaKindAgent) then check SupportedAgentSchemaMajor
  else if bool_decide (kind = SchemaKindGraph) then check SupportedGraphSchemaMajor
  else None.

Definition hasKey (m : gmap string value) (key : string) : bool := bool_decide (is_Some (m !! key)).

(** A kind that was found, once the schema version is checked. *)
Definition with_version (version : option string) (kind : string) : string + error :=
  match version with
  | Some v => match validateSchemaVersionForKind v kind with Some err => inr err | None => inl kind end
  | None => inl kind
  end.

(** [DetectSchema] on the decoded file. *)
Definition detect (raw : gmap string value) : string + error :=
  match readStringField raw "kind" with
  | inr err => inr err
  | inl kind =>
      match readStringField raw "schema_version" with
      | inr err => inr err
      | inl version =>
          match kind with
          | Some kind =>
              match NormalizeKind kind with
              | inr err => inr (EFmt [PS "invalid kind: "; PW err])
              | inl (normalized, _) => with_version version (toSchemaKind normalized)
              end
          | None =>
              if hasKey raw "nodes" && hasKey raw "edges" && negb (hasKey raw "agents") then with_version version SchemaKindGraph
              else if hasKey raw "agents" && hasKey raw "tasks" then with_version version SchemaKindAgent
              else inr (EFmt [PS "unable to detect schema format: file does not match agent_workflow or graph schema"])
          end
      end
  end.

Section Loading.
Context `{Decoders} `{JsonEncoder} `{LowerTables} `{RangeOrder} (reg : Registry) (exprValidator : option (string → option error)).

Definition DetectSchema (data filePath : string) : string + error :=
  match (if isYAML filePath then
           match yaml_object data with inl raw => inl raw | inr err => inr (EFmt [PS "parsing YAML: "; PW err]) end
         else match json_object_of data with inl raw => inl raw | inr err => inr (EFmt [PS "parsing JSON: "; PW err]) end) with
  | inr err => inr err
  | inl raw => detect raw
  end.

Definition yamlToJSON (data : string) : string + error :=
  match yaml_value data with
  | inl raw => json_Marshal raw
  | inr err => inr (EFmt [PS "parsing YAML: "; PW err])
  end.

Definition toJSON (data path : string) : string + error := if isYAML path then yamlToJSON data else inl data.

(** Why loading failed: an error, or the diagnostics of the validation. *)
Inductive load_error :=
| LoadError (err : error)
| DiagnosticError (diags : list Diagnostic).

(** The message of a [DiagnosticError], which indexes the first error. *)
Definition DiagnosticError_Error (diags : list Diagnostic) : option (list part) :=
  match Errors diags with
  | [] => None
  | [e] => Some (PS "validation error: " :: d_Message e)
  | e :: _ => Some ([PD (Z.of_nat (length (Errors diags))); PS " validation errors (first: "] ++ d_Message e ++ [PS ")"])
  end.

(** [None] only if a validation ran out of fuel. *)
Definition loadAgentWorkflow (compiled_at data path : string) : option (GraphDefinition + load_error) :=
  match toJSON data path with
  | inr err => Some (inr (LoadError err))
  | inl jsonData =>
      match LoadFromBytes jsonData with
      | inr err => Some (inr (LoadError err))
      | inl wf =>
          match AgentWorkflow.Validate reg exprValidator (Some wf) with
          | None => None
          | Some diags =>
              if HasErrors diags then Some (inr (DiagnosticError diags))
              else match Compile reg compiled_at (Some wf) with
                   | inr err => Some (inr (LoadError (EFmt [PS "compiling agent workflow: "; PW err])))
                   | inl gd => Some (inl gd)
                   end
          end
      end
  end.

Definition loadGraphDefinition (data path : string) : GraphDefinition + load_error :=
  match toJSON data path with
  | inr err => inr (LoadError err)
  | inl jsonData =>
      match graph_Unmarshal jsonData with
      | inr err => inr (LoadError (EFmt [PS "parsing graph definition: "; PW err]))
      | inl gd =>
          let diags := ValidateWithRegistry exprValidator (Some reg) gd in
          if HasErrors diags then inr (DiagnosticError diags) else inl gd
      end
  end.

(** The contents of the file, or why it cannot be read. *)
Definition LoadAgentWorkflow (compiled_at : string) (file : string + error) (path : string) : option (GraphDefinition + load_error) :=
  match file with
  | inr err => Some (inr (LoadError (EFmt [PS "reading file "; PS path; PS ": "; PW err])))
  | inl data => loadAgentWorkflow compiled_at data path
  end.

Definition LoadGraphDefinition (file : string + error) (path : string) : GraphDefinition + load_error :=
  match file with
  | inr err => inr (LoadError (EFmt [PS "reading file "; PS path; PS ": "; PW err]))
  | inl data => loadGraphDefinition data path
  end.

Definition LoadWorkflow (compiled_at : string) (file : string + error) (path : string)
    : option ((GraphDefinition + load_error) * string) :=
  match file with
  | inr err => Some (inr (LoadError (EFmt [PS "reading file "; PS path; PS ": "; PW err])), EmptyString)
  | inl data =>
      match DetectSchema data path with
      | inr err => Some (inr (LoadError err), EmptyString)
      | inl kind =>
          if bool_decide (kind = SchemaKindAgent) then
            match loadAgentWorkflow compiled_at data path with Some r => Some (r, SchemaKindAgent) | None => None end
          else if bool_decide (kind = SchemaKindGraph) then Some (loadGraphDefinition data path, SchemaKindGraph)
          else Some (inr (LoadError (EFmt [PS "unknown schema kind "; PQ kind])), EmptyString)
      end
  end.
End Loading.

(** ** What is detected *)

Lemma with_version_kind version kind k : with_version version kind = inl k → k = kind.
Proof. unfold with_version. destruct version; [case_match; [done|]|]; by intros [= <-]. Qed.

Lemma hasKey_true m key : hasKey m key = true ↔ is_Some (m !! key).
Proof. apply bool_decide_eq_true. Qed.

(** A kind in the header decides, and it has to be a known one; without it a file
    with nodes and edges but no agents is a graph, and one with agents and tasks an
    agent workflow. Nothing else is detected. *)
Theorem DetectSchema_kind (raw : gmap string value) (k : string) :
  detect raw = inl k →
  match raw !! "kind" with
  | Some v => ∃ s alias kind, v = VString s ∧ NormalizeKind s = inl (kind, alias) ∧ k = toSchemaKind kind
  | None =>
      (k = SchemaKindGraph ∧ is_Some (raw !! "nodes") ∧ is_Some (raw !! "edges") ∧ raw !! "agents" = None) ∨
      (k = SchemaKindAgent ∧ is_Some (raw !! "agents") ∧ is_Some (raw !! "tasks"))
  end.
Proof.
  unfold detect. destruct (readStringField raw "kind") as [kind|] eqn:Hkind; [|done].
  destruct (readStringField raw "schema_version") as [version|]; [|done]. unfold readStringField in Hkind.
  destruct (raw !! "kind") as [v|].
  - destruct v; try done. injection Hkind as <-. destruct (NormalizeKind s) as [[kind alias]|] eqn:Hn; [|done].
    intros Hv%with_version_kind. eauto 10.
  - injection Hkind as <-. destruct (hasKey raw "agents") eqn:Ha; simpl; rewrite ?andb_false_r, ?andb_true_r.
    + destruct (hasKey raw "tasks") eqn:Ht; [|done]. intros ->%with_version_kind. right.
      by rewrite !hasKey_true in *.
    + destruct (hasKey raw "nodes") eqn:Hn, (hasKey raw "edges") eqn:He; try done. intros ->%with_version_kind. left.
      rewrite !hasKey_true in *. split_and!; try done. apply eq_None_not_Some. intros Hs%hasKey_true. congruence.
Qed.

(** What is loaded is a graph definition without errors, or the compilation of an
    agent workflow without errors, as the detected kind says. *)
Theorem LoadWorkflow_valid `{Decoders} `{JsonEncoder} `{LowerTables} `{RangeOrder} reg exprValidator compiled_at data path gd kind :
  LoadWorkflow reg exprValidator compiled_at (inl data) path = Some (inl gd, kind) →
  DetectSchema data path = inl kind ∧ ∃ text, toJSON data path = inl text ∧
  ((kind = SchemaKindGraph ∧ graph_Unmarshal text = inl gd ∧
    HasErrors (ValidateWithRegistry exprValidator (Some reg) gd) = false) ∨
   (kind = SchemaKindAgent ∧ ∃ wf diags, LoadFromBytes text = inl wf ∧
      AgentWorkflow.Validate reg exprValidator (Some wf) = Some diags ∧ HasErrors diags = false ∧
      Compile reg compiled_at (Some wf) = inl gd)).
Proof.
  unfold LoadWorkflow. destruct (DetectSchema data path) as [k|]; [|done]. case_bool_decide as Ha.
  - unfold loadAgentWorkflow. destruct (toJSON data path) as [text|]; [|done]. destruct (LoadFromBytes text) as [wf|] eqn:Hl; [|done].
    destruct (AgentWorkflow.Validate reg exprValidator (Some wf)) as [diags|] eqn:Hv; [|done].
    destruct (HasErrors diags) eqn:He; [done|]. destruct (Compile reg compiled_at (Some wf)) as [g|] eqn:Hc; [|done].
    intros [= <- <-]. split; [by rewrite Ha|]. exists text. split; [done|]. right. split; [done|]. by exists wf, diags.
  - case_bool_decide as Hg; [|done]. unfold loadGraphDefinition. destruct (toJSON data path) as [text|]; [|done].
    destruct (graph_Unmarshal text) as [g|] eqn:Hu; [|done].
    destruct (HasErrors (ValidateWithRegistry exprValidator (Some reg) g)) eqn:He; [done|].
    intros [= <- <-]. split; [by rewrite Hg|]. exists text. split; [done|]. by left.
Qed.

(** The diagnostics a load reports hold an error, so that their message exists. *)
Lemma load_diagnostics_message `{Decoders} `{JsonEncoder} `{LowerTables} `{RangeOrder} reg exprValidator compiled_at file path diags kind :
  LoadWorkflow reg exprValidator compiled_at file path = Some (inr (DiagnosticError diags), kind) →
  is_Some (DiagnosticError_Error diags).
Proof.
  intros Hload. assert (HasErrors diags = true) as He.
  { unfold LoadWorkflow, loadAgentWorkflow, loadGraphDefinition in Hload. repeat (case_match; simplify_eq/=); done. }
  unfold HasErrors in He. apply existsb_exists in He as (d & Hd & Hsev).
  unfold DiagnosticError_Error. destruct (Errors diags) as [|e [|e' es]] eqn:Hes; [|by eexists..]. exfalso.
  assert (d ∈ Errors diags) as Hin; [|rewrite Hes in Hin; by apply elem_of_nil in Hin].
  apply bool_decide_eq_true in Hsev. apply list_elem_of_In in Hd. by apply list_elem_of_filter.
Qed.

Example extensions : map filepath_Ext ["a.b/c.yml"; "a.b/c"; "x.tar.gz"; ".yaml"] = [".yml"; ""; ".gz"; ".yaml"].
Proof. reflexivity. Qed.
