(* ===== verification/Hydrate.v ===== *)
(** * Hydration (hydrate/hydrate.go, hydrate/llmfactory.go, hydrate/tool_registry.go)

    How a graph definition becomes a graph of live nodes: the providers, the reading
    of the configuration of every node type, the factory with its cache of clients
    and the bindings of map and cache nodes, and the registry of tool actions.

    A live node is kept as the node of its component; a map or cache node is kept
    with the live node it wraps and as a function of what that node runs.

    Bounds: bindings and item transforms are nested in the configuration, so the
    nesting of its maps is fuel enough ([build_fuel], [transform_fuel]).

    The theorems: a node is built exactly when its type is supported and its
    configuration complete ([buildNode_iff]), at most one client is made per
    provider, and a valid definition of such nodes becomes a well-formed graph with
    the same nodes and edges ([hydrate_correct]). *)

From stdpp Require Import gmap strings list fin_maps.
From Stdlib Require Import Ascii ZArith Lia.
From S2P Require Import Prelude Values GoFmt Unicode Envelope Merge Graph GraphDef ToolManifest ToolRegistry Events StepController Runtime NodeProg MapNode Cache Human Transform CallNodes Webhook Gate RuleRouter ExprParser Filter Guardian Conditional.

(** ** Providers *)

Record ProviderConfig := mkProvider { pc_APIKey : string; pc_BaseURL : string }.
Notation ProviderMap := (gmap string ProviderConfig).

Definition no_provider : ProviderConfig := mkProvider "" "".

Definition set_APIKey (key : string) (p : option ProviderConfig) : ProviderConfig :=
  mkProvider key (pc_BaseURL (default no_provider p)).
Definition set_BaseURL (url : string) (p : option ProviderConfig) : ProviderConfig :=
  mkProvider (pc_APIKey (default no_provider p)) url.

(** [strings.SplitN(s, "=", 2)] when there are two parts. *)
Fixpoint split_equals (s : string) : option (string * string) :=
  match s with
  | EmptyString => None
  | String c t =>
      if decide (c = "="%char) then Some (EmptyString, t)
      else match split_equals t with Some (a, b) => Some (String c a, b) | None => None end
  end.

(** [strings.TrimSuffix] of a suffix that is there. *)
Definition cut_suffix (s suffix : string) : option string :=
  if GoStr.HasSuffix s suffix then Some (take_bytes (String.length s - String.length suffix) s) else None.

Section Providers.
Context `{LowerTables} `{RangeOrder}.

(** One variable of the environment. *)
Definition provider_env (providers : ProviderMap) (env : string) : ProviderMap :=
  match split_equals env with
  | None => providers
  | Some (key, val) =>
      if GoStr.HasPrefix key "PETALFLOW_PROVIDER_" then
        let rest := drop_bytes 19 key in
        match cut_suffix rest "_API_KEY" with
        | Some name => <[ToLower name := set_APIKey val (providers !! ToLower name)]> providers
        | None =>
            match cut_suffix rest "_BASE_URL" with
            | Some name => <[ToLower name := set_BaseURL val (providers !! ToLower name)]> providers
            | None => providers
            end
        end
      else providers
  end.

(** The contents of the configuration file, when there is one, or why it cannot be
    read; the environment in its order; the flags. *)
Definition ResolveProviders (file : option ProviderMap + error) (environ : list string) (flags : gmap string string)
    : ProviderMap + error :=
  match file with
  | inr err => inr err
  | inl cfg =>
      inl (fold_left (λ ps f, <[f.1 := set_APIKey f.2 (ps !! f.1)]> ps) (range_map "ResolveProviders" flags)
             (fold_left provider_env environ (default ∅ cfg)))
  end.
End Providers.

Fixpoint parse_flags (flags : list string) (result : gmap string string) : gmap string string + error :=
  match flags with
  | [] => inl result
  | flag :: rest =>
      let bad := inr (EFmt [PS "invalid provider-key format "; PQ flag; PS ": expected name=key"]) in
      match split_equals flag with
      | Some (name, key) =>
          if bool_decide (name = EmptyString) || bool_decide (key = EmptyString) then bad
          else parse_flags rest (<[name := key]> result)
      | None => bad
      end
  end.
Definition ParseProviderFlags (flags : list string) : gmap string string + error := parse_flags flags ∅.

(** ** Reading configurations *)

Definition configString (m : gmap string value) (key : string) : string := string_or_empty (m !! key).

Definition configFloat64 (m : gmap string value) (key : string) : option F64.t :=
  match m !! key with Some (VFloat64 v) => Some v | _ => None end.

Definition configInt (m : gmap string value) (key : string) : option Z :=
  match m !! key with
  | Some (VFloat64 v) => match v with SpecFloat.S754_nan | SpecFloat.S754_infinity _ => None | _ => Some (F64.to_int v) end
  | _ => None
  end.

Definition configDuration `{DurationParser} (m : gmap string value) (key : string) : Z :=
  match m !! key with
  | Some (VString v) => match time_ParseDuration v with inl d => d | inr _ => 0%Z end
  | Some (VFloat64 v) => F64.to_int (F64.mul v (F64.of_Z 1000000000))
  | _ => 0%Z
  end.

Definition configStringSlice (m : gmap string value) (key : string) : option (list string) :=
  match m !! key with Some (VSlice raw) => Some (omap as_string raw) | _ => None end.

Definition configMapAnyMap (m : gmap string value) (key : string) : option (gmap string value) :=
  match m !! key with Some (VMap t) => Some t | _ => None end.

(** A nil map is read like an empty one. *)
Definition configStringMap (m : gmap string value) (key : string) : gmap string string :=
  match configMapAnyMap m key with Some t => omap as_string t | None => ∅ end.

(** The maps of a list of objects. *)
Definition config_objects (m : gmap string value) (key : string) : list (gmap string value) :=
  match m !! key with Some (VSlice raw) => omap value_map raw | _ => [] end.

Definition config_values (m : gmap string value) (key : string) : list value :=
  match m !! key with Some (VSlice raw) => raw | _ => [] end.

Definition zero_policy : CallNodes.RetryPolicy := CallNodes.mkRetryPolicy 0 0.

(** ** Live nodes *)

Inductive live_node (W : Type) :=
| LiveLLM (n : LLMNode W)
| LiveLLMRouter (n : LLMRouter W)
| LiveRuleRouter (n : RuleRouter)
| LiveFilter (n : FilterNode W)
| LiveTransform (id : string) (config : TransformNodeConfig)
| LiveGate (n : GateNode W)
| LiveGuardian (n : GuardianNode W)
| LiveTrigger (n : WebhookTriggerNode)
| LiveCall (n : WebhookCallNode W)
| LiveMap (id : string) (mapper : live_node W) (n : Node W → MapNode W)
| LiveCache (id : string) (wrapped : live_node W) (n : Node W → CacheNode W)
| LiveMerge (n : MergeNode)
| LiveHuman (n : HumanNode W)
| LiveConditional (n : ConditionalNode)
| LiveNoop (id : string)
| LiveFunc (id : string)
| LiveTool (n : ToolNode W).
Arguments LiveLLM {W}. Arguments LiveLLMRouter {W}. Arguments LiveRuleRouter {W}. Arguments LiveFilter {W}.
Arguments LiveTransform {W}. Arguments LiveGate {W}. Arguments LiveGuardian {W}. Arguments LiveTrigger {W}.
Arguments LiveCall {W}. Arguments LiveMap {W}. Arguments LiveCache {W}. Arguments LiveMerge {W}. Arguments LiveHuman {W}.
Arguments LiveConditional {W}. Arguments LiveNoop {W}. Arguments LiveFunc {W}. Arguments LiveTool {W}.

Definition live_ID {W} (n : live_node W) : string :=
  match n with
  | LiveLLM n => ln_ID n | LiveLLMRouter n => lx_ID n | LiveRuleRouter n => ru_ID n | LiveFilter n => fn_ID n
  | LiveTransform id _ => id | LiveGate n => gt_ID n | LiveGuardian n => gn_ID n | LiveTrigger n => wn_ID n
  | LiveCall n => wk_ID n | LiveMap id _ _ => id | LiveCache id _ _ => id | LiveMerge n => mg_ID n
  | LiveHuman n => hn_ID n | LiveConditional n => Conditional.cn_ID n | LiveNoop id => id | LiveFunc id => id | LiveTool n => tn_ID n
  end.

Definition live_Kind {W} (n : live_node W) : string :=
  match n with
  | LiveLLM _ => "llm" | LiveLLMRouter _ => "router" | LiveRuleRouter _ => "router" | LiveFilter _ => "filter"
  | LiveTransform _ _ => "transform" | LiveGate _ => "gate" | LiveGuardian _ => "guardian"
  | LiveTrigger _ => "webhook_trigger" | LiveCall _ => "webhook_call" | LiveMap _ _ _ => "map" | LiveCache _ _ _ => "cache"
  | LiveMerge _ => "merge" | LiveHuman _ => "human" | LiveConditional _ => "conditional" | LiveNoop _ => "noop"
  | LiveFunc _ => "noop" | LiveTool _ => "tool"
  end.

#[export] Instance live_iface W : NodeIface (live_node W) := {| node_ID := live_ID; node_Kind := live_Kind |}.

(** ** The builders *)

Section Builders.
Context {W : Type} `{HTTPLib W} `{UpperTables} `{LowerTables} `{DurationParser} `{UnicodeTables} `{Printer} `{RangeOrder}.
Implicit Types (nd : NodeDef) (m : gmap string value).

Definition route_condition m : RouteCondition :=
  mkCond (configString m "var_path") (configString m "op") (default VNil (m !! "value")) (config_values m "values").

Definition route_rule m : RouteRule :=
  mkRule (map route_condition (config_objects m "conditions")) (configString m "target") (configString m "reason").

Definition buildRuleRouter nd : live_node W :=
  let c := nd_Config nd in
  LiveRuleRouter (NewRuleRouter (nd_ID nd) (mkRouterConfig (map route_rule (config_objects c "rules"))
    (configString c "default_target") (configString c "decision_key") (config_bool c "allow_multiple" false))).

Definition filter_op m : FilterOp W :=
  mkFilterOp (configString m "type") (default 0%Z (configInt m "n")) (configString m "score_field") (configString m "order")
    (configFloat64 m "min") (configFloat64 m "max") (configString m "field") (default VNil (m !! "value"))
    (configString m "pattern") (default [] (configStringSlice m "include_types"))
    (default [] (configStringSlice m "exclude_types")) (configString m "keep") None.

Definition buildFilterNode nd : live_node W :=
  let c := nd_Config nd in
  LiveFilter (NewFilterNode (nd_ID nd) (mkFilterConfig (configString c "target") (configString c "input_var")
    (map filter_op (config_objects c "filters")) (configString c "output_var") (configString c "stats_var"))).

Definition no_transform : TransformNodeConfig := mkTransform "" "" [] "" [] ∅ "" "" "" 0 "" None None.

Fixpoint parse_transform (fuel : nat) m : TransformNodeConfig :=
  match fuel with
  | 0 => no_transform
  | S fuel' =>
      mkTransform (configString m "transform") (configString m "input_var") (default [] (configStringSlice m "input_vars"))
        (configString m "output_var") (default [] (configStringSlice m "fields"))
        (match m !! "mapping" ≫= value_map with Some t => omap as_string t | None => ∅ end)
        (configString m "template") (configString m "format") (configString m "separator")
        (default 0%Z (configInt m "max_depth")) (configString m "merge_strategy")
        (match m !! "item_transform" ≫= value_map with Some item => Some (parse_transform fuel' item) | None => None end)
        None
  end.

Definition transform_fuel m : nat := S (depth (VMap m)).
Definition parseTransformConfig m : TransformNodeConfig := parse_transform (transform_fuel m) m.

Definition buildTransformNode nd : live_node W := LiveTransform (nd_ID nd) (parseTransformConfig (nd_Config nd)).

Definition buildGateNode nd : live_node W :=
  let c := nd_Config nd in
  LiveGate (NewGateNode (nd_ID nd) (mkGateConfig None (configString c "condition_var") (configString c "on_fail")
    (configString c "fail_message") (configString c "redirect_node_id") (configString c "result_var"))).

Definition guardian_check m : GuardianCheck W :=
  mkCheck (configString m "name") (configString m "type") (configString m "field")
    (default [] (configStringSlice m "required_fields")) (default 0%Z (configInt m "max_length"))
    (default 0%Z (configInt m "min_length")) (configString m "pattern") (config_values m "allowed_values")
    (configString m "expected_type") (configFloat64 m "min") (configFloat64 m "max")
    (default [] (configStringSlice m "pii_types")) (config_bool m "block_pii" false) (configMapAnyMap m "schema") None
    (configString m "message").

Definition buildGuardianNode nd : live_node W :=
  let c := nd_Config nd in
  LiveGuardian (NewGuardianNode (nd_ID nd) (mkGuardianConfig (configString c "input_var")
    (map guardian_check (config_objects c "checks")) (configString c "on_fail") (configString c "fail_message")
    (configString c "redirect_node_id") (configString c "result_var") (config_bool c "stop_on_first_failure" false))).

Definition buildWebhookTriggerNode nd : live_node W + error :=
  match ParseWebhookTriggerConfig (nd_Config nd) with
  | inr err => inr (EFmt [PS "node "; PQ (nd_ID nd); PS ": invalid webhook_trigger config: "; PW err])
  | inl cfg => inl (LiveTrigger (NewWebhookTriggerNode (nd_ID nd) cfg))
  end.

Definition buildWebhookCallNode nd : live_node W + error :=
  match ParseWebhookCallConfig (nd_Config nd) with
  | inr err => inr (EFmt [PS "node "; PQ (nd_ID nd); PS ": invalid webhook_call config: "; PW err])
  | inl cfg => inl (LiveCall (NewWebhookCallNode (nd_ID nd) cfg))
  end.

(** [now] is the time the strategies stamp new envelopes with. *)
Definition buildMergeNode (now : Z) nd : live_node W :=
  let c := nd_Config nd in
  let strategy := configString c "strategy" in
  LiveMerge (NewMergeNode now (nd_ID nd) (mkMergeConfig
    (Some (if bool_decide (strategy = "concat") then
             ConcatMergeStrategy (NewConcatMergeStrategy (mkConcat (configString c "var_name") "" (configString c "separator"))) now
           else if bool_decide (strategy = "best_score") then
             BestScoreMergeStrategy (mkBest (configString c "score_var") (config_bool c "higher_is_better" true)) now
           else JSONMergeStrategy (NewJSONMergeStrategy (mkJSON false "" false)) now))
    (configString c "output_key") 0)).

Definition buildHumanNode (handler : option (HumanHandler W)) nd : live_node W + error :=
  let c := nd_Config nd in
  match handler with
  | None => inr (EFmt [PS "node "; PQ (nd_ID nd); PS ": human node requires a HumanHandler (use WithHumanHandler)"])
  | Some h =>
      inl (LiveHuman (NewHumanNode (nd_ID nd) (mkHumanConfig (configString c "mode") (configString c "prompt") "" []
        (configString c "output_var") [] None (configDuration c "timeout") "" "" (Some h))))
  end.

Definition condition_of m : Condition :=
  mkCondition (configString m "name") (configString m "expression") (configString m "description").

Definition conditional_config m : Config :=
  mkConfig (map condition_of (config_objects m "conditions")) (configString m "default")
    (configString m "evaluation_order") (config_bool m "pass_through" true) (configString m "output_key").

(** [None] only if parsing ran out of fuel. *)
Definition buildConditionalNode nd : option (live_node W + error) :=
  match NewConditionalNode (nd_ID nd) (conditional_config (nd_Config nd)) with
  | None => None
  | Some (inr err) => Some (inr err)
  | Some (inl n) => Some (inl (LiveConditional n))
  end.

Definition buildToolNodeWithName nd (toolName : string) (tool : PetalTool W) : live_node W :=
  let c := nd_Config nd in
  LiveTool (NewToolNode (nd_ID nd) (Some tool) (mkToolConfig toolName (configStringMap c "args_template")
    (default ∅ (configMapAnyMap c "static_args")) (configString c "output_key") (configDuration c "timeout") zero_policy "")).

Definition buildToolNode nd (tool : PetalTool W) : live_node W := buildToolNodeWithName nd (nd_Type nd) tool.

Definition llm_config m : LLMNodeConfig :=
  mkLLMConfig (configString m "model") (configString m "system_prompt") (configString m "prompt_template") []
    (configString m "output_key") None (configFloat64 m "temperature") (configInt m "max_tokens") zero_policy 0 None false.

Definition llm_router_config m : LLMRouterConfig :=
  mkLLMRouterConfig (configString m "model") (configString m "system_prompt") [] (configStringMap m "allowed_targets")
    (configString m "decision_key") (configFloat64 m "temperature") 0 zero_policy.

Definition map_config m (mapper : Node W) : MapNodeConfig W :=
  mkMapConfig (configString m "input_var") (configString m "output_var") (configString m "item_var")
    (configString m "index_var") (default 0%Z (configInt m "concurrency")) None (Some mapper)
    (config_bool m "continue_on_error" false) (config_bool m "preserve_order" false).

Definition cache_config m (wrapped : Node W) : CacheNodeConfig W :=
  mkCacheConfig (configString m "cache_key") (default [] (configStringSlice m "input_vars")) (Some wrapped)
    (configDuration m "ttl") (Webhook.or_default (configString m "output_var") (configString m "output_key"))
    (config_bool m "include_artifacts" false) (config_bool m "include_input" false).
End Builders.

(** ** The factory *)

(** The clients made so far; [fs_made] is an observation the code does not keep: the
    calls of the client factory, in their order. *)
Record factory_state (W : Type) := mkFactory { fs_clients : gmap string (LLMClient W); fs_made : list string }.
Arguments mkFactory {W}.
Arguments fs_clients {W}.
Arguments fs_made {W}.

(** Bindings are looked up under the first key that is present. *)
Definition boundNodeDefFromConfig (nd : NodeDef) (keys : list string) (defaultID : string) : NodeDef + error :=
  let fail parts := inr (EFmt (PS "node " :: PQ (nd_ID nd) :: PS ": " :: parts)) in
  match keys with
  | [] => fail [PS "internal error: no binding keys configured"]
  | _ =>
      match list_find (λ key, is_Some (nd_Config nd !! key)) keys with
      | None => fail [PS "missing binding config; expected one of "; PS (GoStr.Join keys ", ")]
      | Some (_, key) =>
          match nd_Config nd !! key ≫= value_map with
          | None => fail [PS "config."; PS key; PS " must be an object"]
          | Some obj =>
              if bool_decide (configString obj "type" = EmptyString) then fail [PS "config."; PS key; PS ".type is required"]
              else
                let nodeID := Webhook.or_default (configString obj "id") defaultID in
                match obj !! "config" with
                | None => inl (mkNodeDef nodeID (configString obj "type") ∅)
                | Some rawCfg =>
                    match value_map rawCfg with
                    | Some cfg => inl (mkNodeDef nodeID (configString obj "type") cfg)
                    | None => fail [PS "config."; PS key; PS ".config must be an object"]
                    end
                end
          end
      end
  end.

Definition map_keys : list string := ["mapper_binding"; "mapper_node"].
Definition cache_keys : list string := ["wrapped_binding"; "wrapped_node"].

Section Factory.
Context {W : Type} `{HTTPLib W} `{UpperTables} `{LowerTables} `{DurationParser} `{UnicodeTables} `{Printer} `{RangeOrder}.
(** The factory of clients, given the name and the configuration of a provider, and
    the optional dependencies. *)
Context (providers : ProviderMap) (clientFactory : string → ProviderConfig → LLMClient W + error).
Context (toolRegistry : option (gmap string (PetalTool W))) (humanHandler : option (HumanHandler W)) (now : Z).
Implicit Types (nd : NodeDef) (σ : factory_state W).

Definition getClient (providerName : string) σ : factory_state W * (LLMClient W + error) :=
  match fs_clients σ !! providerName with
  | Some c => (σ, inl c)
  | None =>
      match providers !! providerName with
      | None => (σ, inr (EFmt [PS "provider "; PQ providerName; PS " not configured"]))
      | Some cfg =>
          let made := fs_made σ ++ [providerName] in
          match clientFactory providerName cfg with
          | inr err => (mkFactory (fs_clients σ) made, inr err)
          | inl c => (mkFactory (<[providerName := c]> (fs_clients σ)) made, inl c)
          end
      end
  end.

(** A node that needs a client. *)
Definition with_client nd (build : LLMClient W → live_node W) σ : factory_state W * (live_node W + error) :=
  let providerName := configString (nd_Config nd) "provider" in
  if bool_decide (providerName = EmptyString) then
    (σ, inr (EFmt [PS "node "; PQ (nd_ID nd); PS ": missing "; PQ "provider"; PS " in config"]))
  else
    match getClient providerName σ with
    | (σ, inr err) => (σ, inr (EFmt [PS "node "; PQ (nd_ID nd); PS ": "; PW err]))
    | (σ, inl client) => (σ, inl (build client))
    end.

Definition buildLLMNode nd := with_client nd (λ client, LiveLLM (NewLLMNode (nd_ID nd) client (llm_config (nd_Config nd)))).
Definition buildLLMRouter nd :=
  with_client nd (λ client, LiveLLMRouter (NewLLMRouter (nd_ID nd) client (llm_router_config (nd_Config nd)))).

Definition buildConfiguredToolNode nd : live_node W + error :=
  let fail parts := inr (EFmt (PS "node " :: PQ (nd_ID nd) :: PS ": " :: parts)) in
  match toolRegistry with
  | None => fail [PS "tool node requires a tool registry"]
  | Some registry =>
      let toolName := configString (nd_Config nd) "tool_name" in
      if bool_decide (toolName = EmptyString) then fail [PS "tool node requires config.tool_name"]
      else match registry_Get registry toolName with
           | None => fail [PS "tool "; PQ toolName; PS " not found in registry"]
           | Some tool => inl (buildToolNodeWithName nd toolName tool)
           end
  end.

Definition buildDynamicToolNode nd : live_node W + error :=
  match toolRegistry ≫= λ registry, registry_Get registry (nd_Type nd) with
  | Some tool => inl (buildToolNode nd tool)
  | None => inr (EFmt [PS "node "; PQ (nd_ID nd); PS ": unsupported node type "; PQ (nd_Type nd)])
  end.

(** A node around the one its configuration binds. *)
Definition with_binding (rec : NodeDef → factory_state W → factory_state W * option (live_node W + error)) nd
    (keys : list string) (suffix what : string) (wrap : live_node W → live_node W) σ
    : factory_state W * option (live_node W + error) :=
  match boundNodeDefFromConfig nd keys (nd_ID nd ^^ suffix) with
  | inr err => (σ, Some (inr err))
  | inl bound =>
      match rec bound σ with
      | (σ, None) => (σ, None)
      | (σ, Some (inr err)) =>
          (σ, Some (inr (EFmt [PS "node "; PQ (nd_ID nd); PS ": "; PS what; PS " binding hydration failed: "; PW err])))
      | (σ, Some (inl inner)) => (σ, Some (inl (wrap inner)))
      end
  end.

(** The builders that need neither clients nor bindings; [None] as before. *)
Definition build_plain nd : option (live_node W + error) :=
  let ty := nd_Type nd in
  if bool_decide (ty = "rule_router") then Some (inl (buildRuleRouter nd))
  else if bool_decide (ty = "filter") then Some (inl (buildFilterNode nd))
  else if bool_decide (ty = "transform") then Some (inl (buildTransformNode nd))
  else if bool_decide (ty = "gate") then Some (inl (buildGateNode nd))
  else if bool_decide (ty = "guardian") then Some (inl (buildGuardianNode nd))
  else if bool_decide (ty = "webhook_trigger") then Some (buildWebhookTriggerNode nd)
  else if bool_decide (ty = "webhook_call") then Some (buildWebhookCallNode nd)
  else if bool_decide (ty = "merge") then Some (inl (buildMergeNode now nd))
  else if bool_decide (ty = "human") then Some (buildHumanNode humanHandler nd)
  else if bool_decide (ty = "conditional") then buildConditionalNode nd
  else if bool_decide (ty = "noop") then Some (inl (LiveNoop (nd_ID nd)))
  else if bool_decide (ty = "func") then Some (inl (LiveFunc (nd_ID nd)))
  else if bool_decide (ty = "tool") then Some (buildConfiguredToolNode nd)
  else Some (buildDynamicToolNode nd).

Fixpoint build_node (fuel : nat) nd σ : factory_state W * option (live_node W + error) :=
  match fuel with
  | 0 => (σ, None)
  | S fuel' =>
      let ty := nd_Type nd in
      let c := nd_Config nd in
      if bool_decide (ty = "llm_prompt") then let '(σ, r) := buildLLMNode nd σ in (σ, Some r)
      else if bool_decide (ty = "llm_router") then let '(σ, r) := buildLLMRouter nd σ in (σ, Some r)
      else if bool_decide (ty = "map") then
        with_binding (build_node fuel') nd map_keys "__mapper" "map mapper"
          (λ inner, LiveMap (nd_ID nd) inner (λ run, NewMapNode (nd_ID nd) (map_config c run))) σ
      else if bool_decide (ty = "cache") then
        with_binding (build_node fuel') nd cache_keys "__wrapped" "cache wrapped"
          (λ inner, LiveCache (nd_ID nd) inner (λ run, NewCacheNode (nd_ID nd) (cache_config c run))) σ
      else (σ, build_plain nd)
  end.

(** The bindings of a node are nested in its configuration. *)
Definition build_fuel nd : nat := S (depth (VMap (nd_Config nd))).
Definition buildNode nd σ : factory_state W * option (live_node W + error) := build_node (build_fuel nd) nd σ.

(** [ToGraph] with a factory that keeps state. *)
Fixpoint add_live_nodes (nds : list NodeDef) (g : BasicGraph (live_node W)) σ
    : factory_state W * option (BasicGraph (live_node W) + error) :=
  match nds with
  | [] => (σ, Some (inl g))
  | nd :: rest =>
      match buildNode nd σ with
      | (σ, None) => (σ, None)
      | (σ, Some (inr err)) =>
          (σ, Some (inr (EFmt [PS "creating node "; PQ (nd_ID nd); PS " (type "; PQ (nd_Type nd); PS "): "; PW err])))
      | (σ, Some (inl node)) =>
          match AddNode (Some node) g with
          | (_, Some err) => (σ, Some (inr (EFmt [PS "adding node "; PQ (nd_ID nd); PS ": "; PW err])))
          | (g, None) => add_live_nodes rest g σ
          end
      end
  end.

Definition new_factory : factory_state W := mkFactory ∅ [].

(** The rest of [ToGraph], once the nodes are there. *)
Definition wire (gd : GraphDefinition) (g : BasicGraph (live_node W)) : BasicGraph (live_node W) + error :=
  match add_edges (gd_Edges gd) g with
  | inr err => inr err
  | inl g =>
      let entry := resolve_entry gd in
      if bool_decide (entry = EmptyString) then inl g
      else match SetEntry entry g with
           | (_, Some err) => inr (EFmt [PS "setting entry node "; PQ entry; PS ": "; PW err])
           | (g, None) => inl g
           end
  end.

(** [HydrateGraph] with the live factory. *)
Definition HydrateGraph (def : option GraphDefinition) : factory_state W * option (BasicGraph (live_node W) + error) :=
  match def with
  | None => (new_factory, Some (inr (EFmt [PS "graph definition is nil"])))
  | Some gd =>
      match add_live_nodes (gd_Nodes gd) (NewGraph (gd_ID gd)) new_factory with
      | (σ, Some (inl g)) => (σ, Some (wire gd g))
      | r => r
      end
  end.
End Factory.

(** The factory of dry runs, which only makes placeholders. *)
Definition defaultNodeFactory {W} (providers : ProviderMap) : NodeFactory (live_node W) := λ nd,
  let providerName := configString (nd_Config nd) "provider" in
  if (bool_decide (nd_Type nd = "llm_prompt") || bool_decide (nd_Type nd = "llm_router")) &&
     bool_decide (providerName ≠ EmptyString) && bool_decide (providers !! providerName = None) then
    inr (EFmt [PS "provider "; PQ providerName; PS " not configured (needed by node "; PQ (nd_ID nd); PS ")"])
  else inl (Some (LiveFunc (nd_ID nd))).

(** ** The registry of tool actions *)

Definition actionReference (toolName actionName : string) : string :=
  let toolName := TrimSpace toolName in
  let actionName := TrimSpace actionName in
  if bool_decide (toolName = EmptyString) || bool_decide (actionName = EmptyString) then EmptyString
  else toolName ^^ "." ^^ actionName.

Section ActionTools.
(** [TestAction] of the tool service; a nil map of outputs is [None]. *)
Context {W : Type} (test : string → string → gmap string value → W → W * (option (gmap string value) + error)).

Definition serviceActionTool (name toolName actionName : string) : PetalTool W :=
  mkTool name (λ args w,
    match test toolName actionName args w with
    | (w, inr err) => (w, inr err)
    | (w, inl outputs) => (w, inl (Some (default ∅ outputs)))
    end).

Definition register_action (toolName : string) (registry : gmap string (PetalTool W)) (actionName : string) :=
  let reference := actionReference toolName actionName in
  if bool_decide (reference = EmptyString) then registry
  else registry_Register (serviceActionTool reference toolName actionName) registry.

(** The registry from the listed registrations. *)
Definition BuildActionToolRegistry (registrations : list ToolRegistration) : gmap string (PetalTool W) :=
  fold_left (λ registry reg,
    if negb (tr_Enabled reg) || bool_decide (tr_Status reg = StatusDisabled) then registry
    else fold_left (register_action (tr_Name reg)) (ActionNames reg) registry) registrations ∅.
End ActionTools.

(** ** Fuel *)

Lemma depth_map_pos m : 1 ≤ depth (VMap m).
Proof. simpl. lia. Qed.

Lemma depth_empty : depth (VMap ∅) = 1.
Proof. reflexivity. Qed.

Lemma value_map_depth v m : value_map v = Some m → depth (VMap m) ≤ max 1 (depth v).
Proof. destruct v; intros [= <-]; [lia|]. rewrite depth_empty. lia. Qed.

Lemma config_map_depth m k v t : m !! k = Some v → value_map v = Some t → t ≠ ∅ → depth (VMap t) < depth (VMap m).
Proof.
  intros Hk Hv Ht. apply depth_lookup in Hk. destruct v; try done; injection Hv as <-; [done|by destruct Ht].
Qed.

(** A bound definition is nested in the configuration. *)
Lemma bound_depth nd keys id bound : boundNodeDefFromConfig nd keys id = inl bound →
  depth (VMap (nd_Config bound)) < depth (VMap (nd_Config nd)).
Proof.
  unfold boundNodeDefFromConfig. destruct keys as [|k keys]; [done|]. case_match; [|done].
  destruct (p) as [i key]. destruct (nd_Config nd !! key) as [v|] eqn:Hv; [|done]. simpl.
  destruct (value_map v) as [obj|] eqn:Hobj; [|done]. case_bool_decide as Hty; [done|].
  assert (depth (VMap obj) < depth (VMap (nd_Config nd))) as Hlt.
  { eapply config_map_depth; [done..|]. intros ->. by unfold configString in Hty. }
  destruct (obj !! "config") as [raw|] eqn:Hraw.
  - destruct (value_map raw) as [cfg|] eqn:Hcfg; [|done]. intros [= <-].
    change (depth (VMap cfg) < depth (VMap (nd_Config nd))). apply value_map_depth in Hcfg. apply depth_lookup in Hraw. pose proof (depth_map_pos obj). lia.
  - intros [= <-]. change (depth (VMap ∅) < depth (VMap (nd_Config nd))). rewrite depth_empty. pose proof (depth_map_pos obj). lia.
Qed.

Lemma parse_transform_empty fuel : parse_transform fuel ∅ = no_transform.
Proof. by destruct fuel. Qed.

(** More fuel than the nesting changes nothing. *)
Lemma parse_transform_fuel fuel1 fuel2 m : depth (VMap m) < fuel1 → depth (VMap m) < fuel2 →
  parse_transform fuel1 m = parse_transform fuel2 m.
Proof.
  revert fuel2 m. induction fuel1 as [|fuel1 IH]; intros [|fuel2] m H1 H2; [lia..|]. cbn [parse_transform]. f_equal.
  destruct (m !! "item_transform") as [v|] eqn:Hv; simpl; [|done]. destruct (value_map v) as [t|] eqn:Ht; [|done].
  f_equal. destruct (decide (t = ∅)) as [->|Hne]; [by rewrite !parse_transform_empty|].
  pose proof (config_map_depth _ _ _ _ Hv Ht Hne). apply IH; lia.
Qed.

(** ** What the factory builds *)

Definition always_built : list string := ["rule_router"; "filter"; "transform"; "gate"; "guardian"; "merge"; "noop"; "func"].
Definition known_types : list string :=
  always_built ++ ["llm_prompt"; "llm_router"; "map"; "cache"; "webhook_trigger"; "webhook_call"; "human"; "conditional"; "tool"].

Section FactoryProofs.
Context {W : Type} `{HTTPLib W} `{UpperTables} `{LowerTables} `{DurationParser} `{UnicodeTables} `{Printer} `{RangeOrder}.
Context (providers : ProviderMap) (clientFactory : string → ProviderConfig → LLMClient W + error).
Context (toolRegistry : option (gmap string (PetalTool W))) (humanHandler : option (HumanHandler W)) (now : Z).
Implicit Types (nd : NodeDef) (σ : factory_state W).
#[local] Abbreviation build_node := (build_node providers clientFactory toolRegistry humanHandler now).
#[local] Abbreviation buildNode := (buildNode providers clientFactory toolRegistry humanHandler now).
#[local] Abbreviation build_plain := (build_plain (W := W) toolRegistry humanHandler now).
#[local] Abbreviation getClient := (getClient providers clientFactory).

Definition registered (name : string) : Prop := ∃ registry, toolRegistry = Some registry ∧ is_Some (registry !! name).

(** When a node that binds no other node and needs no client can be built. *)
Definition plain_ready nd : Prop :=
  let ty := nd_Type nd in
  let c := nd_Config nd in
  ty ∈ always_built ∨
  (ty = "webhook_trigger" ∧ ∃ cfg, ParseWebhookTriggerConfig c = inl cfg) ∨
  (ty = "webhook_call" ∧ ∃ cfg, ParseWebhookCallConfig (W := W) c = inl cfg) ∨
  (ty = "human" ∧ is_Some humanHandler) ∨
  (ty = "conditional" ∧ ∃ n, NewConditionalNode (nd_ID nd) (conditional_config c) = Some (inl n)) ∨
  (ty = "tool" ∧ configString c "tool_name" ≠ EmptyString ∧ registered (configString c "tool_name")) ∨
  (ty ∉ known_types ∧ registered ty).

(** When a node can be built. *)
Inductive hydratable : NodeDef → Prop :=
| hy_client nd cfg client :
    nd_Type nd ∈ ["llm_prompt"; "llm_router"] →
    configString (nd_Config nd) "provider" ≠ EmptyString →
    providers !! configString (nd_Config nd) "provider" = Some cfg →
    clientFactory (configString (nd_Config nd) "provider") cfg = inl client →
    hydratable nd
| hy_map nd bound :
    nd_Type nd = "map" → boundNodeDefFromConfig nd map_keys (nd_ID nd ^^ "__mapper") = inl bound →
    hydratable bound → hydratable nd
| hy_cache nd bound :
    nd_Type nd = "cache" → boundNodeDefFromConfig nd cache_keys (nd_ID nd ^^ "__wrapped") = inl bound →
    hydratable bound → hydratable nd
| hy_plain nd : plain_ready nd → hydratable nd.

(** *** Nodes without clients and bindings *)

Lemma NewConditionalNode_total id cfg : ∃ r, NewConditionalNode id cfg = Some r ∧ ∀ n, r = inl n → Conditional.cn_ID n = id.
Proof.
  unfold NewConditionalNode. case_bool_decide; [by eexists|]. destruct (_ && _); [by eexists|].
  destruct (parse_conditions_total id (cfg_Conditions cfg) 0 ∅) as [[cs|err] ->]; eexists; (split; [reflexivity|]); [|done].
  by intros n [= <-].
Qed.

(** The cases of [plain_ready] at a known type. *)
Ltac by_type Hty Hready :=
  unfold plain_ready in Hready; cbv zeta in Hready; rewrite Hty in Hready;
  destruct Hready as [Hready|[[Heq Hready]|[[Heq Hready]|[[Heq Hready]|[[Heq Hready]|[[Heq Hready]|[Heq Hready]]]]]]];
  try discriminate Heq;
  try (exfalso; revert Hready; apply (bool_decide_unpack (_ ∉ _)); vm_compute; exact I);
  try (exfalso; apply Heq; apply (bool_decide_unpack (_ ∈ _)); vm_compute; exact I).

(** What the result of a builder has to be. *)
Definition builds nd (r : live_node W + error) (P : Prop) : Prop :=
  (∀ n, r = inl n → live_ID n = nd_ID nd) ∧ ((∃ n, r = inl n) ↔ P).

Lemma builds_always nd n : nd_Type nd ∈ always_built → live_ID n = nd_ID nd → builds nd (inl n) (plain_ready nd).
Proof. intros Hty Hid. split; [by intros ? [= <-]|]. split; [by left|by exists n]. Qed.

Lemma builds_trigger nd : nd_Type nd = "webhook_trigger" → builds nd (buildWebhookTriggerNode nd) (plain_ready nd).
Proof.
  intros Hty. unfold builds, buildWebhookTriggerNode.
  destruct (ParseWebhookTriggerConfig (nd_Config nd)) as [cfg|err] eqn:Hp; split.
  - intros n [= <-]. simpl. unfold NewWebhookTriggerNode. by destruct (normalizeWebhookTriggerConfig cfg) as [? []].
  - split; [intros _|by eexists]. right. left. eauto.
  - done.
  - split; [by intros [? ?]|]. intros Hr. by_type Hty Hr. destruct Hr as [cfg Hcfg]. congruence.
Qed.

Lemma builds_call nd : nd_Type nd = "webhook_call" → builds nd (buildWebhookCallNode nd) (plain_ready nd).
Proof.
  intros Hty. unfold builds, buildWebhookCallNode.
  destruct (ParseWebhookCallConfig (nd_Config nd)) as [cfg|err] eqn:Hp; split.
  - intros n [= <-]. simpl. unfold NewWebhookCallNode. by destruct (normalizeWebhookCallConfig cfg).
  - split; [intros _|by eexists]. do 2 right. left. eauto.
  - done.
  - split; [by intros [? ?]|]. intros Hr. by_type Hty Hr. destruct Hr as [cfg Hcfg]. congruence.
Qed.

Lemma builds_human nd : nd_Type nd = "human" → builds nd (buildHumanNode humanHandler nd) (plain_ready nd).
Proof.
  intros Hty. unfold builds, buildHumanNode. split.
  - intros n. destruct humanHandler; [|done]. by intros [= <-].
  - split.
    + intros [n Hn]. do 3 right. left. split; [done|]. by destruct humanHandler.
    + intros Hr. by_type Hty Hr. destruct humanHandler; [by eexists|by destruct Hr].
Qed.

Lemma builds_conditional nd : nd_Type nd = "conditional" →
  ∃ r, buildConditionalNode nd = Some r ∧ builds nd r (plain_ready nd).
Proof.
  intros Hty. destruct (NewConditionalNode_total (nd_ID nd) (conditional_config (nd_Config nd))) as (r & Hr & Hid).
  unfold buildConditionalNode. rewrite Hr. destruct r as [n|err]; (eexists; split; [reflexivity|]); split.
  - intros ? [= <-]. by apply Hid.
  - split; [intros _|by eexists]. do 4 right. left. eauto.
  - done.
  - split; [by intros [? ?]|]. intros Hready. by_type Hty Hready. destruct Hready as [n Hn]. congruence.
Qed.

Lemma builds_tool nd : nd_Type nd = "tool" → builds nd (buildConfiguredToolNode toolRegistry nd) (plain_ready nd).
Proof.
  intros Hty. unfold builds, buildConfiguredToolNode. split.
  - intros n. destruct toolRegistry as [registry|]; [|done]. case_bool_decide; [done|].
    destruct (registry_Get registry _); [|done]. by intros [= <-].
  - split.
    + intros [n Hn]. do 5 right. left. split; [done|]. unfold registered.
      destruct toolRegistry as [registry|]; [|done]. case_bool_decide as Hne; [done|]. split; [done|].
      exists registry. split; [done|]. unfold registry_Get in Hn. destruct (registry !! _); [by eexists|done].
    + intros Hr. by_type Hty Hr. destruct Hr as (Hne & registry & -> & [tool Htool]).
      rewrite bool_decide_false by done. unfold registry_Get. rewrite Htool. by eexists.
Qed.

Lemma builds_dynamic nd : nd_Type nd ∉ known_types → builds nd (buildDynamicToolNode toolRegistry nd) (plain_ready nd).
Proof.
  intros Hty. unfold builds, buildDynamicToolNode. split.
  - intros n. destruct (toolRegistry ≫= _); [|done]. by intros [= <-].
  - split.
    + intros [n Hn]. do 6 right. split; [done|]. unfold registered. destruct toolRegistry as [registry|]; [|done].
      exists registry. split; [done|]. simpl in Hn. unfold registry_Get in Hn. destruct (registry !! _); [by eexists|done].
    + intros Hr. assert (registered (nd_Type nd)) as (registry & -> & [tool Htool]).
      { unfold plain_ready in Hr. cbv zeta in Hr. unfold known_types in Hty. rewrite elem_of_app in Hty.
        destruct Hr as [Hr|[[Heq Hr]|[[Heq Hr]|[[Heq Hr]|[[Heq Hr]|[[Heq Hr]|[Heq Hr]]]]]]]; [tauto| | | | | |done];
          exfalso; apply Hty; right; rewrite Heq; apply (bool_decide_unpack _); vm_compute; exact I. }
      simpl. unfold registry_Get. rewrite Htool. by eexists.
Qed.

Lemma build_plain_spec nd : nd_Type nd ∉ ["llm_prompt"; "llm_router"; "map"; "cache"] →
  ∃ r, build_plain nd = Some r ∧ builds nd r (plain_ready nd).
Proof.
  intros Hnot. unfold build_plain.
  repeat match goal with
  | |- ∃ r, (if bool_decide (nd_Type nd = _) then _ else _) = _ ∧ _ => case_bool_decide
  end.
  1-5, 8, 11-12: (eexists; split; [reflexivity|]; apply builds_always; [|reflexivity];
    match goal with Heq : nd_Type ?x = _ |- nd_Type ?x ∈ _ => rewrite Heq end; apply (bool_decide_unpack _); vm_compute; exact I).
  - eexists. split; [reflexivity|]. by apply builds_trigger.
  - eexists. split; [reflexivity|]. by apply builds_call.
  - eexists. split; [reflexivity|]. by apply builds_human.
  - by apply builds_conditional.
  - eexists. split; [reflexivity|]. by apply builds_tool.
  - eexists. split; [reflexivity|]. apply builds_dynamic. unfold known_types, always_built. simpl.
    rewrite !not_elem_of_cons in *. tauto.
Qed.

(** *** Clients *)

(** The client of a provider, without a cache. *)
Definition client_of (p : string) : LLMClient W + error :=
  match providers !! p with
  | None => inr (EFmt [PS "provider "; PQ p; PS " not configured"])
  | Some cfg => clientFactory p cfg
  end.

(** No provider was asked for twice, and only configured ones were. *)
Definition made_once σ : Prop := NoDup (fs_made σ) ∧ ∀ p, p ∈ fs_made σ → is_Some (providers !! p).

Record factory_inv σ : Prop := {
  fi_client p c : fs_clients σ !! p = Some c → client_of p = inl c;
  fi_made p : p ∈ fs_made σ ↔ is_Some (fs_clients σ !! p);
  fi_once : made_once σ
}.

Lemma new_factory_inv : factory_inv new_factory.
Proof.
  split; [done| |].
  - intros p. simpl. rewrite lookup_empty, is_Some_alt. split; [by intros ?%not_elem_of_nil|done].
  - split; [constructor|]. by intros p ?%not_elem_of_nil.
Qed.

(** With the cache or without, a provider gets the same client. *)
Lemma getClient_spec p σ : factory_inv σ →
  (getClient p σ).2 = client_of p ∧ made_once (getClient p σ).1 ∧
  ∀ c, client_of p = inl c → factory_inv (getClient p σ).1.
Proof.
  intros Hinv. unfold Hydrate.getClient. destruct (fs_clients σ !! p) as [c|] eqn:Hc; simpl.
  { rewrite (fi_client _ Hinv p c Hc). split_and!; [done|apply Hinv|done]. }
  unfold client_of. destruct (providers !! p) as [cfg|] eqn:Hp; simpl; [|split_and!; [done|apply Hinv|done]].
  destruct (fi_once _ Hinv) as [Hnd Hconf].
  assert (made_once (mkFactory (fs_clients σ) (fs_made σ ++ [p]))) as Honce.
  { split; simpl.
    - apply NoDup_app. split_and!; [done| |apply NoDup_singleton]. intros q Hq. rewrite list_elem_of_singleton. intros ->.
      apply (fi_made _ Hinv) in Hq. rewrite Hc in Hq. by destruct Hq.
    - intros q. rewrite elem_of_app, list_elem_of_singleton. intros [Hq| ->]; [by apply Hconf|by eexists]. }
  destruct (clientFactory p cfg) as [c|err] eqn:Hf; simpl; (split_and!; [done|exact Honce|]); [|done].
  intros ? _. split; [| |exact Honce]; simpl.
  - intros q d. rewrite lookup_insert_Some. intros [[<- <-]|[_ Hd]]; [|by apply Hinv].
    unfold client_of. by rewrite Hp.
  - intros q. rewrite elem_of_app, list_elem_of_singleton, (fi_made _ Hinv), lookup_insert_is_Some. destruct (decide (p = q)) as [->|Hne]; [tauto|]. split; [intros [?| ->]; [by right|done]|tauto].
Qed.

(** What a step of the factory keeps; its result does not depend on the cache. *)
Record built nd (step : factory_state W → factory_state W * option (live_node W + error)) : Prop := {
  bu_same σ : factory_inv σ → (step σ).2 = (step new_factory).2;
  bu_once σ : factory_inv σ → made_once (step σ).1;
  bu_inv σ n : factory_inv σ → (step σ).2 = Some (inl n) → factory_inv (step σ).1;
  bu_ID n : (step new_factory).2 = Some (inl n) → live_ID n = nd_ID nd
}.

Lemma built_client nd mk : (∀ c, live_ID (mk c) = nd_ID nd) →
  built nd (λ σ, let '(σ, r) := with_client providers clientFactory nd mk σ in (σ, Some r)).
Proof.
  intros Hid. unfold with_client. case_bool_decide as Hp; simpl.
  { split; simpl; [done|intros ? Hi; apply Hi|done|done]. }
  set (p := configString (nd_Config nd) "provider").
  assert (∀ σ, factory_inv σ → ∃ σ', getClient p σ = (σ', client_of p) ∧ made_once σ' ∧
    ∀ c, client_of p = inl c → factory_inv σ') as Hget.
  { intros σ Hinv. destruct (getClient_spec p σ Hinv) as (H1' & H2' & H3').
    exists (getClient p σ).1. rewrite <- H1' at 1. by rewrite <- surjective_pairing. }
  destruct (Hget _ new_factory_inv) as (σ0 & Hσ0 & _). split.
  - intros σ Hinv. destruct (Hget σ Hinv) as (σ' & -> & _). rewrite Hσ0. by destruct (client_of p).
  - intros σ Hinv. destruct (Hget σ Hinv) as (σ' & -> & Honce & _). by destruct (client_of p).
  - intros σ n Hinv. destruct (Hget σ Hinv) as (σ' & -> & _ & Hkeep). destruct (client_of p) as [c|]; [|done].
    intros _. by apply (Hkeep c).
  - intros n. rewrite Hσ0. destruct (client_of p); simpl; [|done]. by intros [= <-].
Qed.

Lemma built_pure nd r : (∀ n, r = Some (inl n) → live_ID n = nd_ID nd) → built nd (λ σ, (σ, r)).
Proof. intros Hid. split; simpl; [done|intros σ Hi; apply Hi|done|done]. Qed.

Lemma built_binding rec nd keys suffix what wrap :
  (∀ bound, built bound (rec bound)) → (∀ n, live_ID (wrap n) = nd_ID nd) →
  built nd (with_binding rec nd keys suffix what wrap).
Proof.
  intros Hrec Hid. unfold with_binding. destruct (boundNodeDefFromConfig nd keys _) as [bound|err]; [|by apply built_pure].
  destruct (Hrec bound) as [Hsame Honce Hkeep _].
  assert (∀ σ, factory_inv σ → ∃ σ', rec bound σ = (σ', (rec bound new_factory).2) ∧ made_once σ' ∧
    ∀ n, (rec bound new_factory).2 = Some (inl n) → factory_inv σ') as Hget.
  { intros σ Hinv. exists (rec bound σ).1. rewrite <- (Hsame σ Hinv) at 1. split_and!; [apply surjective_pairing|auto|].
    intros n Hn. apply (Hkeep σ n Hinv). by rewrite Hsame. }
  destruct (rec bound new_factory) as [σ0 r0] eqn:Hr0. simpl in Hget. split.
  - intros σ Hinv. destruct (Hget σ Hinv) as (σ' & -> & _). rewrite Hr0. by destruct r0 as [[]|].
  - intros σ Hinv. destruct (Hget σ Hinv) as (σ' & -> & Ho & _). by destruct r0 as [[]|].
  - intros σ n Hinv. destruct (Hget σ Hinv) as (σ' & -> & _ & Hk). destruct r0 as [[m|]|]; simpl; [|done..].
    intros _. by apply (Hk m).
  - intros n. rewrite Hr0. destruct r0 as [[m|]|]; simpl; [|done..]. by intros [= <-].
Qed.

Lemma built_node fuel nd : built nd (build_node fuel nd).
Proof.
  revert nd. induction fuel as [|fuel IH]; intros nd; [by apply built_pure|]. cbn [Hydrate.build_node].
  case_bool_decide; [by apply built_client|]. case_bool_decide; [by apply built_client|].
  case_bool_decide; [by apply built_binding|]. case_bool_decide; [by apply built_binding|].
  apply built_pure. intros n Hn. destruct (build_plain_spec nd) as (r & Hr & Hid & _).
  - rewrite !not_elem_of_cons. split_and!; [done..|apply not_elem_of_nil].
  - apply Hid. congruence.
Qed.

(** *** When a node is built *)

Lemma client_ready nd mk σ : nd_Type nd ∈ ["llm_prompt"; "llm_router"] → factory_inv σ →
  (∃ n, (with_client providers clientFactory nd mk σ).2 = inl n) ↔ hydratable nd.
Proof.
  intros Hty Hinv. unfold with_client. set (p := configString (nd_Config nd) "provider").
  assert (hydratable nd ↔ p ≠ EmptyString ∧ ∃ c, client_of p = inl c) as ->.
  { split.
    - inversion 1 as [? cfg c _ Hp Hcfg Hc|? ? Heq|? ? Heq|? Hready]; subst.
      + split; [done|]. exists c. unfold client_of. fold p in Hcfg, Hc. by rewrite Hcfg.
      + rewrite Heq in Hty. exfalso. revert Hty. apply (bool_decide_unpack (_ ∉ _)). vm_compute. exact I.
      + rewrite Heq in Hty. exfalso. revert Hty. apply (bool_decide_unpack (_ ∉ _)). vm_compute. exact I.
      + exfalso. apply elem_of_cons in Hty as [Hty|Hty%list_elem_of_singleton]; by_type Hty Hready.
    - intros [Hp [c Hc]]. unfold client_of in Hc. destruct (providers !! p) as [cfg|] eqn:Hcfg; [|done].
      by apply (hy_client nd cfg c). }
  case_bool_decide as Hp; [split; [by intros [? ?]|by intros [? _]]|].
  destruct (getClient_spec p σ Hinv) as (Hc & _). destruct (getClient p σ) as [σ' r]. simpl in Hc. subst r.
  destruct (client_of p) as [c|]; simpl; [|split; [by intros [? ?]|by intros (_ & ? & ?)]].
  split; [intros _; eauto|intros _; by eexists].
Qed.

Lemma hydratable_map nd : nd_Type nd = "map" →
  hydratable nd ↔ ∃ bound, boundNodeDefFromConfig nd map_keys (nd_ID nd ^^ "__mapper") = inl bound ∧ hydratable bound.
Proof.
  intros Hty. split; [|intros (bound & Hb & Hh); by eapply hy_map].
  inversion 1 as [? ? ? Hin|? bound _ Hb Hh|? ? Heq|? Hready]; subst; [|by exists bound|congruence|by_type Hty Hready].
  exfalso. rewrite Hty in Hin. revert Hin. apply (bool_decide_unpack (_ ∉ _)). vm_compute. exact I.
Qed.

Lemma hydratable_cache nd : nd_Type nd = "cache" →
  hydratable nd ↔ ∃ bound, boundNodeDefFromConfig nd cache_keys (nd_ID nd ^^ "__wrapped") = inl bound ∧ hydratable bound.
Proof.
  intros Hty. split; [|intros (bound & Hb & Hh); by eapply hy_cache].
  inversion 1 as [? ? ? Hin|? ? Heq|? bound _ Hb Hh|? Hready]; subst; [|congruence|by exists bound|by_type Hty Hready].
  exfalso. rewrite Hty in Hin. revert Hin. apply (bool_decide_unpack (_ ∉ _)). vm_compute. exact I.
Qed.

Lemma hydratable_plain nd : nd_Type nd ∉ ["llm_prompt"; "llm_router"; "map"; "cache"] → hydratable nd ↔ plain_ready nd.
Proof.
  rewrite !not_elem_of_cons. intros (N1 & N2 & N3 & N4 & _). split; [|apply hy_plain].
  inversion 1 as [? ? ? Hin|? ? Heq|? ? Heq|? Hready]; subst; [|done..].
  exfalso. by apply elem_of_cons in Hin as [?|?%list_elem_of_singleton].
Qed.

(** A binding is built exactly when the bound node is. *)
Lemma binding_ready rec nd keys suffix what wrap σ :
  (∀ bound, depth (VMap (nd_Config bound)) < depth (VMap (nd_Config nd)) →
     ∃ r, (rec bound σ).2 = Some r ∧ ((∃ n, r = inl n) ↔ hydratable bound)) →
  ∃ r, (with_binding rec nd keys suffix what wrap σ).2 = Some r ∧
    ((∃ n, r = inl n) ↔ ∃ bound, boundNodeDefFromConfig nd keys (nd_ID nd ^^ suffix) = inl bound ∧ hydratable bound).
Proof.
  intros Hrec. unfold with_binding. destruct (boundNodeDefFromConfig nd keys _) as [bound|err] eqn:Hb.
  2: { eexists. split; [reflexivity|]. split; [by intros [? ?]|by intros (? & ? & _)]. }
  destruct (Hrec bound (bound_depth _ _ _ _ Hb)) as (r & Hr & Hiff). destruct (rec bound σ) as [σ' o]. simpl in Hr. subst o.
  destruct r as [n|err]; (eexists; split; [reflexivity|]).
  - split; [|by eexists]. intros _. exists bound. split; [done|]. apply Hiff. by exists n.
  - split; [by intros [? ?]|]. intros (b & [= <-] & Hh). by apply Hiff in Hh as [? ?].
Qed.

Lemma build_node_iff fuel nd σ : factory_inv σ → depth (VMap (nd_Config nd)) < fuel →
  ∃ r, (build_node fuel nd σ).2 = Some r ∧ ((∃ n, r = inl n) ↔ hydratable nd).
Proof.
  intros Hinv. revert nd. induction fuel as [|fuel IH]; intros nd Hlt; [lia|]. cbn [Hydrate.build_node].
  case_bool_decide as T1; [|case_bool_decide as T2].
  1-2: unfold buildLLMNode, buildLLMRouter; match goal with |- context [with_client _ _ ?x ?mk ?s] =>
    pose proof (client_ready x mk s) as Hc; destruct (with_client _ _ x mk s) as [σ' r] end;
    exists r; (split; [done|]); apply Hc; [|done]; rewrite ?T1, ?T2; apply (bool_decide_unpack _); vm_compute; exact I.
  assert (∀ bound, depth (VMap (nd_Config bound)) < depth (VMap (nd_Config nd)) →
     ∃ r, (build_node fuel bound σ).2 = Some r ∧ ((∃ n, r = inl n) ↔ hydratable bound)) as Hrec.
  { intros bound Hb. apply IH. lia. }
  case_bool_decide as T3; [setoid_rewrite (hydratable_map nd T3); by apply binding_ready|].
  case_bool_decide as T4; [setoid_rewrite (hydratable_cache nd T4); by apply binding_ready|].
  assert (nd_Type nd ∉ ["llm_prompt"; "llm_router"; "map"; "cache"]) as Hnot.
  { rewrite !not_elem_of_cons. split_and!; [done..|apply not_elem_of_nil]. }
  destruct (build_plain_spec nd Hnot) as (r & -> & _ & Hiff). exists r. split; [done|]. by rewrite Hiff, hydratable_plain.
Qed.

(** *** The whole graph *)

(** What the factory makes of a definition, without its cache. *)
Definition node_of : NodeFactory (live_node W) := λ nd,
  match (buildNode nd new_factory).2 with
  | Some (inl n) => inl (Some n)
  | Some (inr err) => inr err
  | None => inl None
  end.

Lemma node_of_hydratable nd : hydratable nd ↔ ∃ n, node_of nd = inl (Some n).
Proof.
  destruct (build_node_iff (build_fuel nd) nd new_factory new_factory_inv) as (r & Hr & Hiff); [unfold build_fuel; lia|].
  rewrite <- Hiff. unfold node_of, Hydrate.buildNode. rewrite Hr. destruct r as [n|err]; naive_solver.
Qed.

Lemma node_of_ID nd n : node_of nd = inl (Some n) → live_ID n = nd_ID nd.
Proof.
  unfold node_of, Hydrate.buildNode. intros Hn. apply (bu_ID nd _ (built_node (build_fuel nd) nd)).
  destruct (_.2) as [[m|]|]; naive_solver.
Qed.

(** The state of the factory does not show in the graph. *)
Lemma add_live_nodes_refines nds g σ : factory_inv σ →
  let '(σ', r) := add_live_nodes providers clientFactory toolRegistry humanHandler now nds g σ in
  r = Some (add_nodes node_of nds g) ∧ made_once σ'.
Proof.
  revert g σ. induction nds as [|nd nds IH]; intros g σ Hinv; cbn [add_live_nodes add_nodes]; [by split; [|apply Hinv]|].
  destruct (built_node (build_fuel nd) nd) as [Hsame Honce Hkeep _].
  destruct (build_node_iff (build_fuel nd) nd σ Hinv) as (r & Hr & _); [unfold build_fuel; lia|].
  unfold node_of, Hydrate.buildNode. set (step := build_node (build_fuel nd) nd) in *. clearbody step.
  specialize (Hsame σ Hinv). specialize (Honce σ Hinv). pose proof (λ n, Hkeep σ n Hinv) as Hk. clear Hkeep.
  rewrite <- Hsame. destruct (step σ) as [σ' o]. simpl in Hr, Hk, Honce |- *. subst o.
  destruct r as [n|err]; [|done]. destruct (AddNode (Some n) g) as [g' [err|]] eqn:Hadd; simpl in Hadd; rewrite Hadd; [done|].
  apply IH. by apply (Hk n).
Qed.

Lemma hydrate_refines gd :
  let '(σ, r) := HydrateGraph providers clientFactory toolRegistry humanHandler now (Some gd) in
  r = Some (ToGraph (Some node_of) gd) ∧ made_once σ.
Proof.
  unfold HydrateGraph, ToGraph. pose proof (add_live_nodes_refines (gd_Nodes gd) (NewGraph (gd_ID gd)) _ new_factory_inv) as Hadd.
  destruct (add_live_nodes _ _ _ _ _ _ _ _) as [σ r]. destruct Hadd as [-> Honce].
  by destruct (add_nodes node_of (gd_Nodes gd) (NewGraph (gd_ID gd))).
Qed.

Lemma add_nodes_all (factory : NodeFactory (live_node W)) nds g g' nd :
  add_nodes factory nds g = inl g' → nd ∈ nds → ∃ n, factory nd = inl (Some n).
Proof.
  revert g. induction nds as [|x nds IH]; intros g; [by intros _ ?%not_elem_of_nil|]. cbn [add_nodes].
  destruct (factory x) as [[n|]|] eqn:Hx; [|done..]. destruct (AddNode (Some n) g) as [g1 [|]] eqn:Ha; [done|].
  intros Hadd [->|Hin]%elem_of_cons; [by exists n|by eapply IH].
Qed.

Lemma ToGraph_all gd g nd : ToGraph (Some node_of) gd = inl g → nd ∈ gd_Nodes gd → hydratable nd.
Proof.
  unfold ToGraph. destruct (add_nodes node_of _ _) as [g1|] eqn:Ha; [|done]. intros _ Hnd.
  apply node_of_hydratable. by eapply add_nodes_all.
Qed.

(** Hydration of a valid definition: when it succeeds, and the graph it gives. *)
Lemma hydrate_outcome (validator : option (string → option error)) gd :
  HasErrors (GraphDef.Validate validator gd) = false → EmptyString ∉ node_ids gd →
  ∃ out, (HydrateGraph providers clientFactory toolRegistry humanHandler now (Some gd)).2 = Some out ∧
    ((∃ g, out = inl g) ↔ ∀ nd, nd ∈ gd_Nodes gd → hydratable nd) ∧
    ∀ g, out = inl g →
      graph_wf g ∧ g_nodeOrder g = node_ids gd ∧
      (∀ nd, nd ∈ gd_Nodes gd → ∃ n, (buildNode nd new_factory).2 = Some (inl n) ∧
         g_nodes g !! nd_ID nd = Some n ∧ live_ID n = nd_ID nd) ∧
      (∀ u v, graph_edge g u v ↔ def_edge gd u v) ∧ (∀ x, ¬ tc (graph_edge g) x x) ∧
      g_entry g = resolve_entry gd ∧ (gd_Nodes gd ≠ [] → Graph.Validate g = None).
Proof.
  intros Hval Hemp. pose proof (hydrate_refines gd) as Href.
  destruct (HydrateGraph _ _ _ _ _ _) as [σ r]. destruct Href as [-> _]. eexists. split; [reflexivity|].
  assert ((∀ nd, nd ∈ gd_Nodes gd → hydratable nd) → factory_ok node_of (gd_Nodes gd)) as Hok.
  { intros Hall nd Hin. apply Hall, node_of_hydratable in Hin as [n Hn]. exists n. split; [done|]. by apply node_of_ID. }
  split.
  - split; [intros [g Hg] nd; by apply (ToGraph_all gd g)|]. intros Hall.
    destruct (ToGraph_converts node_of validator gd Hval Hemp (Hok Hall)) as (g & Hg & _). by exists g.
  - intros g Hg. assert (∀ nd, nd ∈ gd_Nodes gd → hydratable nd) as Hall by (intros nd; by apply (ToGraph_all gd g)).
    destruct (ToGraph_converts node_of validator gd Hval Hemp (Hok Hall))
      as (g' & Hg' & Hwf & Ho & Hmade & He & Hac & Hent & Hv).
    rewrite Hg in Hg'. injection Hg' as <-. split_and!; [done|done| |done|done|done|done].
    intros nd Hin. destruct (Hok Hall nd Hin) as (n & Hn & Hid). exists n. split; [|split; [by apply Hmade|done]].
    unfold node_of in Hn. destruct (_.2) as [[m|]|]; naive_solver.
Qed.

End FactoryProofs.

(** ** Providers and tools *)

Lemma fold_flags (l : list (string * string)) (ps : ProviderMap) name : NoDup l.*1 →
  fold_left (λ ps f, <[f.1 := set_APIKey f.2 (ps !! f.1)]> ps) l ps !! name =
  match (list_to_map l : gmap string string) !! name with
  | Some key => Some (set_APIKey key (ps !! name))
  | None => ps !! name
  end.
Proof.
  revert ps. induction l as [|[k v] l IH]; intros ps; [done|]. simpl. intros [Hk Hl]%NoDup_cons. rewrite IH by done.
  destruct (decide (name = k)) as [->|Hne]; [|by rewrite !lookup_insert_ne by congruence].
  rewrite !lookup_insert_eq. by rewrite (not_elem_of_list_to_map_1 _ _ Hk).
Qed.

(** The flags win over the environment and the file, whatever the order in which they
    are visited; they only replace the key. *)
Lemma resolve_precedence `{LowerTables} `{RangeOrder} file environ flags ps name :
  ResolveProviders (inl file) environ flags = inl ps →
  let below := fold_left provider_env environ (default ∅ file) in
  ps !! name = match flags !! name with Some key => Some (set_APIKey key (below !! name)) | None => below !! name end.
Proof.
  intros [= <-] below. unfold below. rewrite fold_flags.
  - f_equal. by rewrite (list_to_map_proper _ (map_to_list flags)), list_to_map_to_list;
      [|rewrite range_map_perm; apply NoDup_fst_map_to_list|apply range_map_perm].
  - rewrite range_map_perm. apply NoDup_fst_map_to_list.
Qed.

Section ActionProofs.
Context {W : Type} (test : string → string → gmap string value → W → W * (option (gmap string value) + error)).

Definition usable_tool (reg : ToolRegistration) : Prop := tr_Enabled reg = true ∧ tr_Status reg ≠ StatusDisabled.

Lemma register_actions toolName actions registry ref :
  is_Some (fold_left (register_action test toolName) actions registry !! ref) ↔
  is_Some (registry !! ref) ∨ (ref ≠ EmptyString ∧ ∃ a, a ∈ actions ∧ actionReference toolName a = ref).
Proof.
  revert registry. induction actions as [|a actions IH]; intros registry; simpl.
  { split; [by left|]. by intros [?|(_ & a & ?%not_elem_of_nil & _)]. }
  rewrite IH. unfold register_action, registry_Register. case_bool_decide as He; simpl.
  - split; [intros [?|(? & b & ? & ?)]; [by left|right; split; [done|]; exists b; split; [by right|done]]|].
    intros [?|(? & b & [->|?]%elem_of_cons & Hb)]; [by left|congruence|right; eauto].
  - rewrite lookup_insert_is_Some. split.
    + intros [[<-|[_ ?]]|(? & b & ? & ?)]; [right; split; [done|]; exists a; split; [by left|done]|by left|].
      right. split; [done|]. exists b. split; [by right|done].
    + destruct (decide (actionReference toolName a = ref)) as [<-|Hne]; [by left; left|].
      intros [?|(? & b & [->|?]%elem_of_cons & Hb)]; [by left; right|congruence|right; eauto].
Qed.

(** The registry offers exactly the actions of the tools that can be used. *)
Lemma action_registry regs ref :
  is_Some (BuildActionToolRegistry test regs !! ref) ↔
  ref ≠ EmptyString ∧ ∃ reg a, reg ∈ regs ∧ usable_tool reg ∧ a ∈ ActionNames reg ∧ actionReference (tr_Name reg) a = ref.
Proof.
  assert (∀ registry, is_Some (fold_left (λ registry reg,
      if negb (tr_Enabled reg) || bool_decide (tr_Status reg = StatusDisabled) then registry
      else fold_left (register_action test (tr_Name reg)) (ActionNames reg) registry) regs registry !! ref) ↔
    is_Some (registry !! ref) ∨ (ref ≠ EmptyString ∧ ∃ reg a, reg ∈ regs ∧ usable_tool reg ∧ a ∈ ActionNames reg ∧
      actionReference (tr_Name reg) a = ref)) as Hfold.
  { induction regs as [|reg regs IH]; intros registry; simpl.
    { split; [by left|]. by intros [?|(_ & r & a & ?%not_elem_of_nil & _)]. }
    rewrite IH. destruct (negb (tr_Enabled reg) || bool_decide (tr_Status reg = StatusDisabled)) eqn:Hu.
    - assert (¬ usable_tool reg) as Hno.
      { intros [He Hs]. rewrite He, (bool_decide_false _ Hs) in Hu. done. }
      split; [intros [?|(? & r & a & ? & ?)]; [by left|right; split; [done|]; exists r, a; split; [by right|done]]|].
      intros [?|(? & r & a & [->|?]%elem_of_cons & ? & ?)]; [by left|done|right; split; [done|]; by exists r, a].
    - apply orb_false_iff in Hu as [He%negb_false_iff Hs%bool_decide_eq_false]. rewrite register_actions. split.
      + intros [[?|(? & a & ? & ?)]|(? & r & a & ? & ?)]; [by left|..].
        * right. split; [done|]. exists reg, a. split; [by left|]. done.
        * right. split; [done|]. exists r, a. split; [by right|done].
      + intros [?|(? & r & a & [->|?]%elem_of_cons & ? & ? & ?)]; [by left; left|left; right; eauto|].
        right. split; [done|]. by exists r, a. }
  unfold BuildActionToolRegistry. rewrite Hfold, lookup_empty, is_Some_alt. naive_solver.
Qed.
End ActionProofs.

(** ** Samples *)

Module HydrateSamples.
#[local] Instance upper : UpperTables := {| upper_other s := s |}.
#[local] Instance lower : LowerTables := {| lower_other s := s |}.
#[local] Instance durations : DurationParser := {| time_ParseDuration s := inr (ESentinel s) |}.
#[local] Instance http : HTTPLib () := {|
  CanonicalHeaderKey s := s; http_NewRequest _ _ := None; http_DefaultClient _ w := (w, inr (ESentinel "offline")) |}.
#[local] Instance tables : UnicodeTables := {| uni_Letter _ := false; uni_Digit _ := false |}.
#[local] Instance printer : Printer := {| print_pointer _ := "0xc0"; print_struct ty _ := ty |}.
#[local] Existing Instance key_order.

Example environment :
  ResolveProviders (inl (Some {[ "openai" := mkProvider "file" "u" ]}))
    ["PETALFLOW_PROVIDER_OPENAI_API_KEY=a=b"; "HOME=/"; "PETALFLOW_PROVIDER_LOCAL_BASE_URL=http://x"] {[ "local" := "flag" ]}
  = inl (<["openai" := mkProvider "a=b" "u"]> {[ "local" := mkProvider "flag" "http://x" ]}).
Proof. vm_compute. reflexivity. Qed.

Definition client : LLMClient () := mkClient (λ _ w, (w, inr (ESentinel "offline"))) None.
Definition hydrated (gd : GraphDefinition) :=
  HydrateGraph {[ "openai" := mkProvider "k" "" ]} (λ _ _, inl client) None None 0 (Some gd).

Definition ask (id : string) : NodeDef := mkNodeDef id "llm_prompt" {[ "provider" := VString "openai" ]}.
Definition mapping (inner : value) : NodeDef :=
  mkNodeDef "each" "map" {[ "mapper_node" := VMap (<["type" := VString "llm_prompt"]> {[ "config" := inner ]}) ]}.
Definition chain (nodes : list NodeDef) : GraphDefinition :=
  mkGraphDef "g" "1" "1.0.0" "graph" ∅ nodes [mkEdgeDef "a" "" "b" ""; mkEdgeDef "b" "" "each" ""] "".

Definition good : GraphDefinition := chain [ask "a"; ask "b"; mapping (VMap {[ "provider" := VString "openai" ]})].

(** Three nodes, one of them bound, and one client. *)
Example hydrated_once :
  match hydrated good with
  | (σ, Some (inl g)) => Some (fs_made σ, g_nodeOrder g, map live_ID (omap (λ id, g_nodes g !! id) (g_nodeOrder g)))
  | _ => None
  end = Some (["openai"], ["a"; "b"; "each"], ["a"; "b"; "each"]).
Proof. vm_compute. reflexivity. Qed.

(** A bound node that cannot be built fails the graph. *)
Example binding_refused :
  match hydrated (chain [ask "a"; ask "b"; mapping (VMap ∅)]) with (_, Some (inr _)) => true | _ => false end = true.
Proof. vm_compute. reflexivity. Qed.

(** The factory reads no input variables: a hydrated LLM router has an empty prompt. *)
Example router_prompt_empty :
  match (buildNode {[ "openai" := mkProvider "k" "" ]} (λ _ _, inl client) None None 0
      (mkNodeDef "r" "llm_router" (<["provider" := VString "openai"]> {[ "input_vars" := VSlice [VString "q"] ]})) new_factory).2 with
  | Some (inl (LiveLLMRouter r)) => Some (lx_InputVars (lx_config r))
  | _ => None
  end = Some [].
Proof. vm_compute. reflexivity. Qed.

Definition whole (f : SpecFloat.spec_float) : option Z := configInt {[ "n" := VFloat64 f ]} "n".
Example fractions_truncated : map whole [F64.of_Z 3; F64.of_decimal false 29 1] = [Some 3%Z; Some 2%Z].
Proof. vm_compute. reflexivity. Qed.

End HydrateSamples.
