(* ===== verification/Server.v ===== *)
(** * The workflow server (server/store.go, server/store_sqlite.go, server/handlers.go, server/run_service.go, server/envelope_adapter.go)

    The table of workflows, the handlers that change it, and the planning of runs.
    A row is the map of its columns, in which an absent column is NULL; tables made by
    earlier versions have additional columns, which the statements fill as well. An
    update reads the record and writes it back in two database operations, with other
    requests in between.

    The theorems: the statement chosen for the columns of a table gives every column
    its value ([insert_columns_match], [update_columns_match]); in every interleaving
    of requests, with database failures, IDs are unique and every row is what its
    own source compiles to ([server_invariant]). *)

From stdpp Require Import gmap strings list fin_maps.
From Stdlib Require Import Ascii ZArith Lia.
From S2P Require Import Prelude Values Unicode Schema Registry Envelope GoFmt GraphDef Graph AgentWorkflow AgentValid AgentCompile AgentCorrect Base64 Loader Builtins EventStore.

(** ** Records and rows *)

Record WorkflowRecord := mkWorkflowRecord {
  wr_ID : string; wr_SchemaKind : string; wr_Name : string; wr_Source : string; wr_Compiled : option GraphDefinition;
  wr_CreatedAt : Z; wr_UpdatedAt : Z
}.

Definition ErrWorkflowExists := ESentinel "workflow already exists".
Definition ErrWorkflowNotFound := ESentinel "workflow not found".

(** The columns of a row that are not NULL. *)
Notation row := (gmap string string).

(** The additional columns a table may have. *)
Record legacy := mkLegacy { has_kind : bool; has_source_json : bool; has_compiled_json : bool }.

Definition workflowLegacyColumnMask (l : legacy) : Z :=
  Z.lor (Z.lor (if has_kind l then 1 else 0) (if has_source_json l then 2 else 0)) (if has_compiled_json l then 4 else 0).

(** The columns of the statements, by mask. *)
Definition workflowInsertQueries : list (list string) :=
  [["id"; "schema_kind"; "name"; "source"; "compiled"; "created_at"; "updated_at"];
   ["id"; "schema_kind"; "kind"; "name"; "source"; "compiled"; "created_at"; "updated_at"];
   ["id"; "schema_kind"; "name"; "source"; "source_json"; "compiled"; "created_at"; "updated_at"];
   ["id"; "schema_kind"; "kind"; "name"; "source"; "source_json"; "compiled"; "created_at"; "updated_at"];
   ["id"; "schema_kind"; "name"; "source"; "compiled"; "compiled_json"; "created_at"; "updated_at"];
   ["id"; "schema_kind"; "kind"; "name"; "source"; "compiled"; "compiled_json"; "created_at"; "updated_at"];
   ["id"; "schema_kind"; "name"; "source"; "source_json"; "compiled"; "compiled_json"; "created_at"; "updated_at"];
   ["id"; "schema_kind"; "kind"; "name"; "source"; "source_json"; "compiled"; "compiled_json"; "created_at"; "updated_at"]].

Definition workflowUpdateQueries : list (list string) :=
  [["schema_kind"; "name"; "source"; "compiled"; "created_at"; "updated_at"];
   ["schema_kind"; "kind"; "name"; "source"; "compiled"; "created_at"; "updated_at"];
   ["schema_kind"; "name"; "source"; "source_json"; "compiled"; "created_at"; "updated_at"];
   ["schema_kind"; "kind"; "name"; "source"; "source_json"; "compiled"; "created_at"; "updated_at"];
   ["schema_kind"; "name"; "source"; "compiled"; "compiled_json"; "created_at"; "updated_at"];
   ["schema_kind"; "kind"; "name"; "source"; "compiled"; "compiled_json"; "created_at"; "updated_at"];
   ["schema_kind"; "name"; "source"; "source_json"; "compiled"; "compiled_json"; "created_at"; "updated_at"];
   ["schema_kind"; "kind"; "name"; "source"; "source_json"; "compiled"; "compiled_json"; "created_at"; "updated_at"]].

Definition query (queries : list (list string)) (l : legacy) : list string :=
  default [] (queries !! Z.to_nat (workflowLegacyColumnMask l)).

(** A statement with its arguments: each column gets the argument at its place. *)
Definition assign (columns : list string) (args : list (option string)) (r : row) : row :=
  fold_left (λ r ca, match ca.2 with Some v => <[ca.1 := v]> r | None => delete ca.1 r end) (zip columns args) r.

(** [json.Marshal] of a graph, and times in the format of the table. *)
Class StoreLibs := {
  graph_Marshal : GraphDefinition → string + error;
  format_nano : Z → string;
  parse_nano : string → Z + error
}.

(** [time.Time{}], in nanoseconds from 1970. *)
Definition zero_time : Z := -62135596800000000000.

Definition normalizeWorkflowSource (raw : string) : string := if bool_decide (raw = EmptyString) then "{}" else raw.

Section Store.
Context `{StoreLibs} `{Decoders}.
Implicit Types (rec : WorkflowRecord) (rows : list row) (l : legacy).

(** NULL when there is no graph. *)
Definition marshalCompiledGraph (compiled : option GraphDefinition) : option string + error :=
  match compiled with
  | None => inl None
  | Some gd =>
      match graph_Marshal gd with
      | inl data => inl (Some data)
      | inr err => inr (EFmt [PS "workflow sqlite store marshal compiled graph: "; PW err])
      end
  end.

Definition normalizeLegacyWorkflowCompiled (compiled : option string) : string :=
  match compiled with Some (String c s) => String c s | _ => "{}" end.

(** The arguments both statements share, from the kind on. *)
Definition record_args l rec (compiled : option string) : list (option string) :=
  let source := Some (normalizeWorkflowSource (wr_Source rec)) in
  [Some (wr_SchemaKind rec)] ++ (if has_kind l then [Some (wr_SchemaKind rec)] else []) ++
  [Some (wr_Name rec); source] ++ (if has_source_json l then [source] else []) ++
  [compiled] ++ (if has_compiled_json l then [Some (normalizeLegacyWorkflowCompiled compiled)] else []) ++
  [Some (format_nano (wr_CreatedAt rec)); Some (format_nano (wr_UpdatedAt rec))].

Definition has_ID (id : string) (r : row) : Prop := r !! "id" = Some id.
#[global] Instance has_ID_dec id r : Decision (has_ID id r).
Proof. unfold has_ID. apply _. Defined.

Definition set_times (created updated : Z) rec : WorkflowRecord :=
  mkWorkflowRecord (wr_ID rec) (wr_SchemaKind rec) (wr_Name rec) (wr_Source rec) (wr_Compiled rec) created updated.

(** [fail] is an error of the database. *)
Definition Create l (now : Z) (fail : option error) rec rows : list row * option error :=
  let created := if (wr_CreatedAt rec =? zero_time)%Z then now else wr_CreatedAt rec in
  let rec := set_times created (if (wr_UpdatedAt rec =? zero_time)%Z then created else wr_UpdatedAt rec) rec in
  match marshalCompiledGraph (wr_Compiled rec) with
  | inr err => (rows, Some err)
  | inl compiled =>
      match fail with
      | Some err => (rows, Some (EFmt [PS "workflow sqlite store create: "; PW err]))
      | None =>
          if bool_decide (Exists (has_ID (wr_ID rec)) rows) then (rows, Some ErrWorkflowExists)
          else (rows ++ [assign (query workflowInsertQueries l) (Some (wr_ID rec) :: record_args l rec compiled) ∅], None)
      end
  end.

Definition Update l (now : Z) (fail : option error) rec rows : list row * option error :=
  match marshalCompiledGraph (wr_Compiled rec) with
  | inr err => (rows, Some err)
  | inl compiled =>
      let rec := set_times (wr_CreatedAt rec) (if (wr_UpdatedAt rec =? zero_time)%Z then now else wr_UpdatedAt rec) rec in
      match fail with
      | Some err => (rows, Some (EFmt [PS "workflow sqlite store update: "; PW err]))
      | None =>
          if bool_decide (Exists (has_ID (wr_ID rec)) rows) then
            (map (λ r, if bool_decide (has_ID (wr_ID rec) r)
                       then assign (query workflowUpdateQueries l) (record_args l rec compiled) r else r) rows, None)
          else (rows, Some ErrWorkflowNotFound)
      end
  end.

Definition Delete (fail : option error) (id : string) rows : list row * option error :=
  match fail with
  | Some err => (rows, Some (EFmt [PS "workflow sqlite store delete: "; PW err]))
  | None =>
      if bool_decide (Exists (has_ID id) rows) then (filter (λ r, ¬ has_ID id r) rows, None)
      else (rows, Some ErrWorkflowNotFound)
  end.

Definition scan_time (what : string) (r : row) : Z + error :=
  match r !! what with
  | None => inr (ESentinel "converting NULL to string is unsupported")
  | Some s => match parse_nano s with inl t => inl t | inr err => inr (EFmt [PS "workflow sqlite store parse "; PS what; PS ": "; PW err]) end
  end.

Definition scanWorkflowRecord (r : row) : WorkflowRecord + error :=
  match r !! "id", r !! "schema_kind" with
  | Some id, Some kind =>
      match scan_time "created_at" r with
      | inr err => inr err
      | inl created =>
          match scan_time "updated_at" r with
          | inr err => inr err
          | inl updated =>
              let rec := mkWorkflowRecord id kind (default EmptyString (r !! "name")) (default EmptyString (r !! "source")) in
              match default EmptyString (r !! "compiled") with
              | EmptyString => inl (rec None created updated)
              | data =>
                  match graph_Unmarshal data with
                  | inr err => inr (EFmt [PS "workflow sqlite store unmarshal compiled graph: "; PW err])
                  | inl gd => inl (rec (Some gd) created updated)
                  end
              end
          end
      end
  | _, _ => inr (ESentinel "converting NULL to string is unsupported")
  end.

(** [None]: no such row. *)
Definition Get (fail : option error) (id : string) rows : option WorkflowRecord + error :=
  match fail with
  | Some err => inr err
  | None =>
      match list_find (has_ID id) rows with
      | None => inl None
      | Some (_, r) => match scanWorkflowRecord r with inl rec => inl (Some rec) | inr err => inr err end
      end
  end.

Fixpoint scan_rows rows : list WorkflowRecord + error :=
  match rows with
  | [] => inl []
  | r :: rest =>
      match scanWorkflowRecord r with
      | inr err => inr err
      | inl rec => match scan_rows rest with inl recs => inl (rec :: recs) | inr err => inr err end
      end
  end.

Definition List_ (fail : option error) rows : list WorkflowRecord + error :=
  match fail with
  | Some err => inr (EFmt [PS "workflow sqlite store list: "; PW err])
  | None => scan_rows rows
  end.
End Store.

(** ** Handlers *)

(** [writeError]: the status, the code, the message and the details. *)
Record api_error := mkAPIError { ae_Status : Z; ae_Code : string; ae_Message : error; ae_Details : list (list part) }.

Definition diagMessages (diags : list Diagnostic) : list (list part) := map d_Message (Errors diags).

Section Handlers.
Context `{StoreLibs} `{Decoders} `{RangeOrder} (reg : Registry) (exprValidator : option (string → option error)) (l : legacy).
Implicit Types (rec : WorkflowRecord) (rows : list row).

Definition refuse (status : Z) (code : string) (parts : list part) : api_error := mkAPIError status code (EFmt parts) [].
Definition store_error (err : error) : api_error := mkAPIError 500 "STORE_ERROR" err [].
Definition not_found (id : string) : api_error := refuse 404 "NOT_FOUND" [PS "workflow "; PQ id; PS " not found"].

(** The body, which fails to be read when it exceeds the limit ([true]) or otherwise. *)
Definition read_body (body : string + (bool * error)) : string + api_error :=
  match body with
  | inl b => inl b
  | inr (true, _) => inr (refuse 413 "BODY_TOO_LARGE" [PS "request body exceeds size limit"])
  | inr (false, err) => inr (mkAPIError 400 "READ_ERROR" err [])
  end.

(** The workflow in a body and its compilation, as both handlers of agent workflows
    make it; [None] only if validation ran out of fuel. *)
Definition compile_agent (compiled_at body : string) : option (AgentWorkflow * GraphDefinition + api_error) :=
  match LoadFromBytes body with
  | inr err => Some (inr (mkAPIError 400 "PARSE_ERROR" err []))
  | inl wf =>
      match AgentWorkflow.Validate reg exprValidator (Some wf) with
      | None => None
      | Some diags =>
          if HasErrors diags then
            Some (inr (mkAPIError 422 "VALIDATION_ERROR" (EFmt [PS "agent workflow validation failed"]) (diagMessages diags)))
          else match Compile reg compiled_at (Some wf) with
               | inr err => Some (inr (mkAPIError 422 "COMPILE_ERROR" err []))
               | inl gd => Some (inl (wf, gd))
               end
      end
  end.

(** The graph in a body. *)
Definition decode_graph (body : string) : GraphDefinition + api_error :=
  match graph_Unmarshal body with
  | inr err => inr (mkAPIError 400 "PARSE_ERROR" err [])
  | inl gd =>
      let diags := ValidateWithRegistry exprValidator (Some reg) gd in
      if HasErrors diags then inr (mkAPIError 422 "VALIDATION_ERROR" (EFmt [PS "graph validation failed"]) (diagMessages diags))
      else inl gd
  end.

(** Storing a new record. *)
Definition create_record (now : Z) (fail : option error) rec rows : list row * (WorkflowRecord + api_error) :=
  match Create l now fail rec rows with
  | (rows, None) => (rows, inl rec)
  | (rows, Some err) =>
      (rows, inr (if errors_Is err (sentinel_name ErrWorkflowExists) then
                    refuse 409 "CONFLICT" [PS "workflow "; PQ (wr_ID rec); PS " already exists"] else store_error err))
  end.

Definition id_or_new (id uuid : string) : string := if bool_decide (id = EmptyString) then uuid else id.

Definition handleCreateAgentWorkflow (now : Z) (compiled_at uuid : string) (fail : option error)
    (body : string + (bool * error)) rows : option (list row * (WorkflowRecord + api_error)) :=
  match read_body body with
  | inr e => Some (rows, inr e)
  | inl body =>
      match compile_agent compiled_at body with
      | None => None
      | Some (inr e) => Some (rows, inr e)
      | Some (inl (wf, gd)) =>
          let diags := ValidateWithRegistry exprValidator (Some reg) gd in
          if HasErrors diags then
            Some (rows, inr (mkAPIError 422 "VALIDATION_ERROR" (EFmt [PS "compiled graph validation failed"]) (diagMessages diags)))
          else Some (create_record now fail
                 (mkWorkflowRecord (id_or_new (wf_ID wf) uuid) SchemaKindAgent (wf_Name wf) body (Some gd) now now) rows)
      end
  end.

Definition handleCreateGraphWorkflow (now : Z) (uuid : string) (fail : option error)
    (body : string + (bool * error)) rows : list row * (WorkflowRecord + api_error) :=
  match read_body body with
  | inr e => (rows, inr e)
  | inl body =>
      match decode_graph body with
      | inr e => (rows, inr e)
      | inl gd =>
          let id := id_or_new (gd_ID gd) uuid in
          create_record now fail (mkWorkflowRecord id SchemaKindGraph id body (Some gd) now now) rows
      end
  end.

Definition handleGetWorkflow (fail : option error) (id : string) rows : WorkflowRecord + api_error :=
  match Get fail id rows with
  | inr err => inr (store_error err)
  | inl None => inr (not_found id)
  | inl (Some rec) => inl rec
  end.

Definition set_contents (name source : string) (compiled : GraphDefinition) rec : WorkflowRecord :=
  mkWorkflowRecord (wr_ID rec) (wr_SchemaKind rec) name source (Some compiled) (wr_CreatedAt rec) (wr_UpdatedAt rec).

(** [handleUpdateWorkflow] between its two database operations: the record it writes. *)
Definition updated_record (compiled_at : string) (body : string + (bool * error)) rec : option (WorkflowRecord + api_error) :=
  match read_body body with
  | inr e => Some (inr e)
  | inl body =>
      if bool_decide (wr_SchemaKind rec = SchemaKindAgent) then
        match compile_agent compiled_at body with
        | None => None
        | Some (inr e) => Some (inr e)
        | Some (inl (wf, gd)) => Some (inl (set_contents (wf_Name wf) body gd rec))
        end
      else if bool_decide (wr_SchemaKind rec = SchemaKindGraph) then
        match decode_graph body with
        | inr e => Some (inr e)
        | inl gd => Some (inl (set_contents (wr_Name rec) body gd rec))
        end
      else Some (inr (refuse 400 "UNKNOWN_KIND" [PS "unknown schema kind "; PQ (wr_SchemaKind rec)]))
  end.

(** Its second operation. *)
Definition write_update (now : Z) (fail : option error) rec rows : list row * (WorkflowRecord + api_error) :=
  let rec := set_times (wr_CreatedAt rec) now rec in
  match Update l now fail rec rows with
  | (rows, None) => (rows, inl rec)
  | (rows, Some err) => (rows, inr (store_error err))
  end.

Definition handleDeleteWorkflow (fail : option error) (id : string) rows : list row * option api_error :=
  match Delete fail id rows with
  | (rows, None) => (rows, None)
  | (rows, Some err) =>
      (rows, Some (if errors_Is err (sentinel_name ErrWorkflowNotFound) then not_found id else store_error err))
  end.

(** *** Requests in parallel *)

(** The table, and the updates between their two operations. *)
Record server := mkServer { sv_rows : list row; sv_updates : list WorkflowRecord }.

Inductive request :=
| ReqCreateAgent (now : Z) (compiled_at uuid : string) (fail : option error) (body : string + (bool * error))
| ReqCreateGraph (now : Z) (uuid : string) (fail : option error) (body : string + (bool * error))
| ReqUpdateRead (id compiled_at : string) (fail : option error) (body : string + (bool * error))
| ReqUpdateWrite (i : nat) (now : Z) (fail : option error)
| ReqDelete (id : string) (fail : option error).

(** [None] only if validation ran out of fuel. *)
Definition serve (q : request) (s : server) : option server :=
  match q with
  | ReqCreateAgent now at' uuid fail body =>
      match handleCreateAgentWorkflow now at' uuid fail body (sv_rows s) with
      | Some (rows, _) => Some (mkServer rows (sv_updates s))
      | None => None
      end
  | ReqCreateGraph now uuid fail body =>
      Some (mkServer (handleCreateGraphWorkflow now uuid fail body (sv_rows s)).1 (sv_updates s))
  | ReqUpdateRead id at' fail body =>
      match handleGetWorkflow fail id (sv_rows s) with
      | inr _ => Some s
      | inl rec =>
          match updated_record at' body rec with
          | None => None
          | Some (inr _) => Some s
          | Some (inl rec) => Some (mkServer (sv_rows s) (sv_updates s ++ [rec]))
          end
      end
  | ReqUpdateWrite i now fail =>
      match sv_updates s !! i with
      | None => Some s
      | Some rec => Some (mkServer (write_update now fail rec (sv_rows s)).1 (delete i (sv_updates s)))
      end
  | ReqDelete id fail => Some (mkServer (handleDeleteWorkflow fail id (sv_rows s)).1 (sv_updates s))
  end.

Fixpoint serve_all (qs : list request) (s : server) : option server :=
  match qs with
  | [] => Some s
  | q :: qs => s ← serve q s; serve_all qs s
  end.
End Handlers.

(** ** Statements and columns *)

(** The columns of a row made from a record. *)
Record row_is `{StoreLibs} (l : legacy) (rec : WorkflowRecord) (compiled : option string) (r : row) : Prop := {
  ri_id : r !! "id" = Some (wr_ID rec);
  ri_schema_kind : r !! "schema_kind" = Some (wr_SchemaKind rec);
  ri_name : r !! "name" = Some (wr_Name rec);
  ri_source : r !! "source" = Some (normalizeWorkflowSource (wr_Source rec));
  ri_compiled : r !! "compiled" = compiled;
  ri_created : r !! "created_at" = Some (format_nano (wr_CreatedAt rec));
  ri_updated : r !! "updated_at" = Some (format_nano (wr_UpdatedAt rec));
  ri_kind : has_kind l = true → r !! "kind" = Some (wr_SchemaKind rec);
  ri_source_json : has_source_json l = true → r !! "source_json" = Some (normalizeWorkflowSource (wr_Source rec));
  ri_compiled_json : has_compiled_json l = true → r !! "compiled_json" = Some (normalizeLegacyWorkflowCompiled compiled)
}.

(** The statement chosen by the mask has one column for every argument, and each
    argument is the value of its column. *)
Lemma insert_columns_match `{StoreLibs} l rec compiled :
  length (query workflowInsertQueries l) = length (Some (wr_ID rec) :: record_args l rec compiled) ∧
  row_is l rec compiled (assign (query workflowInsertQueries l) (Some (wr_ID rec) :: record_args l rec compiled) ∅).
Proof.
  destruct l as [[] [] []], compiled as [data|]; (split; [reflexivity|]); split; try done; intros _; reflexivity.
Qed.

Lemma update_columns_match `{StoreLibs} l rec compiled r : r !! "id" = Some (wr_ID rec) →
  length (query workflowUpdateQueries l) = length (record_args l rec compiled) ∧
  row_is l rec compiled (assign (query workflowUpdateQueries l) (record_args l rec compiled) r).
Proof.
  intros Hid. destruct l as [[] [] []], compiled as [data|]; (split; [reflexivity|]);
    cbv [assign query workflowUpdateQueries workflowLegacyColumnMask record_args has_kind has_source_json has_compiled_json
      app zip zip_with fold_left fst snd default lookup list_lookup Z.to_nat Z.lor Pos.to_nat Pos.iter_op Pos.lor Nat.add];
    simpl; split; intros; simplify_map_eq; done.
Qed.

(** ** The invariant *)

(** What the store relies on: times and graphs can be read back, and an empty text is
    no document. *)
Class StoreLaws `{StoreLibs} `{Decoders} : Prop := {
  parse_format t : parse_nano (format_nano t) = inl t;
  marshal_readable gd data : graph_Marshal gd = inl data → data ≠ EmptyString ∧ ∃ gd', graph_Unmarshal data = inl gd';
  empty_workflow wf : LoadFromBytes EmptyString ≠ inl wf;
  empty_graph gd : graph_Unmarshal EmptyString ≠ inl gd
}.

Section ServerProofs.
Context `{StoreLibs} `{Decoders} `{!StoreLaws} `{RangeOrder}.
Context (reg : Registry) (exprValidator : option (string → option error)) (l : legacy).
Implicit Types (rec : WorkflowRecord) (rows : list row) (r : row) (s : server) (gd : GraphDefinition).

(** A source of the given kind yields this graph (and this name, for an agent
    workflow). *)
Definition source_yields (kind name source : string) gd : Prop :=
  (kind = SchemaKindAgent ∧ ∃ wf diags at', LoadFromBytes source = inl wf ∧
     AgentWorkflow.Validate reg exprValidator (Some wf) = Some diags ∧ HasErrors diags = false ∧
     Compile reg at' (Some wf) = inl gd ∧ name = wf_Name wf) ∨
  (kind = SchemaKindGraph ∧ graph_Unmarshal source = inl gd ∧
     HasErrors (ValidateWithRegistry exprValidator (Some reg) gd) = false).

Definition record_ok rec : Prop :=
  ∃ gd, wr_Compiled rec = Some gd ∧ source_yields (wr_SchemaKind rec) (wr_Name rec) (wr_Source rec) gd.

Definition row_ok r : Prop :=
  ∃ rec gd data, row_is l rec (Some data) r ∧ wr_Compiled rec = Some gd ∧ graph_Marshal gd = inl data ∧ record_ok rec.

Definition ids (rows : list row) : list (option string) := map (λ r : row, r !! "id") rows.

Record server_inv s : Prop := {
  si_ids : NoDup (ids (sv_rows s));
  si_rows : Forall row_ok (sv_rows s);
  si_updates : Forall record_ok (sv_updates s)
}.

Lemma yields_nonempty kind name source gd : source_yields kind name source gd → source ≠ EmptyString.
Proof.
  intros [(_ & wf & ? & ? & Hl & _)|(_ & Hu & _)] ->; [by apply empty_workflow in Hl|by apply empty_graph in Hu].
Qed.

Lemma compile_agent_spec compiled_at body :
  match compile_agent reg exprValidator compiled_at body with
  | None => False
  | Some (inr _) => True
  | Some (inl (wf, gd)) => source_yields SchemaKindAgent (wf_Name wf) body gd
  end.
Proof.
  unfold compile_agent. destruct (LoadFromBytes body) as [wf|] eqn:Hl; [|done].
  destruct (AgentWorkflow.Validate reg exprValidator (Some wf)) as [diags|] eqn:Hv; [|by apply Validate_total in Hv].
  destruct (HasErrors diags) eqn:He; [done|]. destruct (Compile reg compiled_at (Some wf)) as [gd|] eqn:Hc; [|done].
  left. split; [done|]. by exists wf, diags, compiled_at.
Qed.

Lemma decode_graph_spec name body gd : decode_graph reg exprValidator body = inl gd → source_yields SchemaKindGraph name body gd.
Proof.
  unfold decode_graph. destruct (graph_Unmarshal body) as [g|] eqn:Hu; [|done].
  destruct (HasErrors _) eqn:He; [done|]. intros [= <-]. by right.
Qed.

Lemma updated_record_spec compiled_at body rec :
  match updated_record reg exprValidator compiled_at body rec with
  | None => False
  | Some (inr _) => True
  | Some (inl rec') => record_ok rec' ∧ wr_ID rec' = wr_ID rec
  end.
Proof.
  unfold updated_record. destruct (read_body body) as [b|]; [|done]. case_bool_decide as Ha.
  - pose proof (compile_agent_spec compiled_at b) as Hc. destruct (compile_agent _ _ _ _) as [[[wf gd]|]|]; [|done..].
    split; [|done]. exists gd. simpl. by rewrite Ha.
  - case_bool_decide as Hg; [|done]. destruct (decode_graph reg exprValidator b) as [gd|] eqn:Hd; [|done].
    split; [|done]. exists gd. simpl. rewrite Hg. split; [done|]. by apply decode_graph_spec.
Qed.

Lemma set_times_ok created updated rec : record_ok rec → record_ok (set_times created updated rec).
Proof. done. Qed.

Lemma exists_ids id rows : Exists (has_ID id) rows ↔ Some id ∈ ids rows.
Proof.
  unfold ids. rewrite list_elem_of_fmap, Exists_exists. split; intros (r & Hr & Hid); exists r; by split.
Qed.

Lemma row_ok_of rec gd data r : record_ok rec → wr_Compiled rec = Some gd → graph_Marshal gd = inl data →
  row_is l rec (Some data) r → row_ok r.
Proof. intros Hok Hg Hm Hr. by exists rec, gd, data. Qed.

(** *** The operations of the store *)

Lemma Create_spec now fail rec rows : NoDup (ids rows) → Forall row_ok rows → record_ok rec →
  let '(rows', err) := Create l now fail rec rows in
  NoDup (ids rows') ∧ Forall row_ok rows' ∧
  (err = None → ∃ r, rows' = rows ++ [r] ∧ has_ID (wr_ID rec) r) ∧ (err ≠ None → rows' = rows).
Proof.
  intros Hids Hrows (gd & Hgd & Hok). unfold Create. set (rec' := set_times _ _ rec). simpl (wr_Compiled _).
  unfold marshalCompiledGraph. rewrite Hgd. destruct (graph_Marshal gd) as [data|] eqn:Hm; [|done].
  destruct fail; [done|]. case_bool_decide as Hex; [done|].
  destruct (insert_columns_match l rec' (Some data)) as [_ Hr]. set (r := assign _ _ _) in *.
  assert (r !! "id" = Some (wr_ID rec)) as Hid by apply Hr. split_and!.
  - unfold ids. rewrite map_app. apply NoDup_app. split_and!; [done| |apply NoDup_singleton].
    intros x Hx. simpl. rewrite list_elem_of_singleton, Hid. intros ->. by apply Hex, exists_ids.
  - apply Forall_app. split; [done|]. apply Forall_singleton. apply (row_ok_of rec' gd data); [by exists gd|done..].
  - intros _. by exists r.
  - done.
Qed.

Lemma Update_spec now fail rec rows : NoDup (ids rows) → Forall row_ok rows → record_ok rec →
  let '(rows', err) := Update l now fail rec rows in
  ids rows' = ids rows ∧ Forall row_ok rows' ∧
  (∀ r, r ∈ rows → ¬ has_ID (wr_ID rec) r → r ∈ rows').
Proof.
  intros Hids Hrows (gd & Hgd & Hok). unfold Update, marshalCompiledGraph. rewrite Hgd.
  destruct (graph_Marshal gd) as [data|] eqn:Hm; [|done]. destruct fail; [done|]. case_bool_decide; [|done].
  set (rec' := set_times _ _ rec). set (f := λ r : row, if bool_decide (has_ID _ r) then _ else r).
  assert (∀ r, row_ok r → (f r) !! "id" = r !! "id" ∧ row_ok (f r)) as Hf.
  { intros r Hr. unfold f. case_bool_decide as Hid; [|done].
    destruct (update_columns_match l rec' (Some data) r Hid) as [_ Hr']. split; [by rewrite (ri_id _ _ _ _ Hr')|].
    apply (row_ok_of rec' gd data); [by exists gd|done..]. }
  clear Hids. split_and!.
  - clear -Hrows Hf. induction Hrows as [|r rows Hr _ IH]; [done|]. unfold ids in *. simpl. by rewrite IH, (proj1 (Hf r Hr)).
  - apply Forall_map. eapply Forall_impl; [exact Hrows|]. intros r Hr. by apply Hf.
  - intros r Hr Hne. apply list_elem_of_fmap. exists r. split; [|done]. unfold f. by rewrite bool_decide_false.
Qed.

Lemma filter_ids id rows : NoDup (ids rows) → NoDup (ids (filter (λ r, ¬ has_ID id r) rows)).
Proof. apply NoDup_map_filter. Qed.

(** *** Requests *)

Lemma create_record_inv now fail rec s : server_inv s → record_ok rec →
  server_inv (mkServer (create_record l now fail rec (sv_rows s)).1 (sv_updates s)).
Proof.
  intros [Hids Hrows Hups] Hok. pose proof (Create_spec now fail rec (sv_rows s) Hids Hrows Hok) as Hc.
  unfold create_record. destruct (Create l now fail rec (sv_rows s)) as [rows' [err|]]; destruct Hc as (? & ? & _); by split.
Qed.

Lemma serve_inv q s : server_inv s → ∃ s', serve reg exprValidator l q s = Some s' ∧ server_inv s'.
Proof.
  intros Hinv. destruct q as [now at' uuid fail body|now uuid fail body|id at' fail body|i now fail|id fail]; cbn [serve].
  - unfold handleCreateAgentWorkflow. destruct (read_body body) as [b|]; [|eexists; split; [done|by destruct Hinv]].
    pose proof (compile_agent_spec at' b) as Hc. destruct (compile_agent _ _ _ _) as [[[wf gd]|]|]; [|by eexists; split; [|destruct Hinv]|done].
    destruct (HasErrors _); [by eexists; split; [|destruct Hinv]|]. set (rec := mkWorkflowRecord _ _ _ _ _ _ _).
    pose proof (create_record_inv now fail rec s Hinv) as Hi.
    destruct (create_record l now fail rec (sv_rows s)) as [rows' r]. eexists. split; [done|]. apply Hi. by exists gd.
  - eexists. split; [done|]. unfold handleCreateGraphWorkflow. destruct (read_body body) as [b|]; [|by destruct Hinv].
    destruct (decode_graph reg exprValidator b) as [gd|] eqn:Hd; [|by destruct Hinv].
    apply create_record_inv; [done|]. exists gd. split; [done|]. by apply decode_graph_spec.
  - destruct (handleGetWorkflow fail id (sv_rows s)) as [rec|]; [|by exists s].
    pose proof (updated_record_spec at' body rec) as Hu. destruct (updated_record _ _ _ _ _) as [[rec'|]|]; [|by exists s|done].
    eexists. split; [done|]. destruct Hinv as [Hids Hrows Hups]. split; [done..|]. simpl. apply Forall_app. split; [done|].
    apply Forall_singleton, Hu.
  - destruct (sv_updates s !! i) as [rec|] eqn:Hi; [|by exists s]. eexists. split; [done|].
    destruct Hinv as [Hids Hrows Hups]. assert (record_ok rec) as Hrec by (by eapply Forall_lookup_1).
    pose proof (Update_spec now fail (set_times (wr_CreatedAt rec) now rec) (sv_rows s) Hids Hrows Hrec) as Hu.
    unfold write_update. destruct (Update l now fail _ (sv_rows s)) as [rows' [err|]]; destruct Hu as (He & Hr & _);
      (split; simpl; [by rewrite He|done|by apply Forall_delete]).
  - eexists. split; [done|]. destruct Hinv as [Hids Hrows Hups]. unfold handleDeleteWorkflow, Delete.
    destruct fail; [by split|]. case_bool_decide; [|by split]. split; simpl; [by apply filter_ids| |done].
    apply Forall_forall. intros r [_ Hin]%list_elem_of_filter. rewrite Forall_forall in Hrows. by apply Hrows.
Qed.

Lemma serve_all_inv qs s : server_inv s → ∃ s', serve_all reg exprValidator l qs s = Some s' ∧ server_inv s'.
Proof.
  revert s. induction qs as [|q qs IH]; intros s Hinv; [by exists s|]. cbn [serve_all].
  destruct (serve_inv q s Hinv) as (s1 & -> & Hinv1). by apply IH.
Qed.

(** *** Reading *)

(** A record that is read: its source yields a graph, and it holds what is read back
    of the encoding of that graph. *)
Definition stored rec : Prop :=
  ∃ gd data gd', source_yields (wr_SchemaKind rec) (wr_Name rec) (wr_Source rec) gd ∧
    graph_Marshal gd = inl data ∧ graph_Unmarshal data = inl gd' ∧ wr_Compiled rec = Some gd'.

Lemma scan_ok r : row_ok r → ∃ rec, scanWorkflowRecord r = inl rec ∧ r !! "id" = Some (wr_ID rec) ∧ stored rec.
Proof.
  intros (rec & gd & data & Hr & Hg & Hm & (gd0 & Hg0 & Hy)). rewrite Hg in Hg0. injection Hg0 as <-.
  destruct (marshal_readable gd data Hm) as [Hne [gd' Hu]].
  pose proof (yields_nonempty _ _ _ _ Hy) as Hsrc. unfold scanWorkflowRecord, scan_time.
  destruct Hr as [Hid Hkind Hname Hsource Hcomp Hcr Hup _ _ _]. rewrite Hid, Hkind, Hname, Hsource, Hcomp, Hcr, Hup, !parse_format.
  simpl. destruct data as [|c data]; [done|]. rewrite Hu. eexists. split; [reflexivity|]. split; [done|].
  exists gd, (String c data), gd'. simpl. unfold normalizeWorkflowSource. by rewrite bool_decide_false.
Qed.

Lemma scan_rows_ok rows : Forall row_ok rows →
  ∃ recs, scan_rows rows = inl recs ∧ map (λ rec, Some (wr_ID rec)) recs = ids rows ∧ Forall stored recs.
Proof.
  induction 1 as [|r rows Hr _ IH]; [by exists []|]. destruct (scan_ok r Hr) as (rec & Hs & Hid & Hst).
  destruct IH as (recs & Hrecs & Hids & Hall). exists (rec :: recs). cbn [scan_rows]. rewrite Hs, Hrecs.
  split; [done|]. split; [|by constructor]. unfold ids in *. simpl. by rewrite Hids, Hid.
Qed.

Lemma Get_listed rows recs id : scan_rows rows = inl recs →
  Get None id rows = inl (snd <$> list_find (λ rec, wr_ID rec = id) recs).
Proof.
  unfold Get. revert recs. induction rows as [|r rows IH]; intros recs; cbn [scan_rows]; [by intros [= <-]|].
  destruct (scanWorkflowRecord r) as [rec|] eqn:Hr; [|done]. destruct (scan_rows rows) as [recs'|] eqn:Hrs; [|done].
  intros [= <-]. specialize (IH recs' eq_refl). cbn [list_find].
  assert (r !! "id" = Some (wr_ID rec)) as Hid.
  { unfold scanWorkflowRecord in Hr. destruct (r !! "id") as [i|]; [|done]. destruct (r !! "schema_kind"); [|done].
    destruct (scan_time "created_at" r); [|done]. destruct (scan_time "updated_at" r); [|done].
    destruct (default _ (r !! "compiled")); [by injection Hr as <-|]. destruct (graph_Unmarshal _); [by injection Hr as <-|done]. }
  unfold has_ID at 1. destruct (decide (wr_ID rec = id)) as [Heq|Hne].
  - rewrite decide_True by congruence. by rewrite Hr.
  - rewrite decide_False by congruence.
    destruct (list_find (has_ID id) rows) as [[j x]|]; destruct (list_find (λ rec, wr_ID rec = id) recs') as [[k y]|]; simpl in *; done.
Qed.

(** What can be read after any requests. *)
Lemma served_get qs s id : serve_all reg exprValidator l qs (mkServer [] []) = Some s →
  ∃ found, Get None id (sv_rows s) = inl found ∧ ∀ rec, found = Some rec → stored rec.
Proof.
  intros Hs. destruct (serve_all_inv qs (mkServer [] [])) as (s' & Hs' & [_ Hrows _]); [split; constructor|].
  rewrite Hs in Hs'. injection Hs' as <-. destruct (scan_rows_ok _ Hrows) as (recs & Hrecs & _ & Hst).
  rewrite (Get_listed _ recs) by done. eexists. split; [done|]. intros rec.
  destruct (list_find _ recs) as [[j y]|] eqn:Hf; [|done]. intros [= <-]. apply list_find_Some in Hf as (Hy & _ & _).
  rewrite Forall_forall in Hst. apply Hst. by eapply list_elem_of_lookup_2.
Qed.

(** C37: However requests that create, update and delete workflows interleave, and
    whichever database operations fail, every request is answered; the listed
    workflows have different IDs, each can be read by its ID, and each was made from
    its own source: a graph that passed validation, or an agent workflow that passed
    validation and its compilation, under its name. An update that is overtaken by
    others keeps this. *)
Theorem server_invariant (qs : list request) :
  ∃ s recs, serve_all reg exprValidator l qs (mkServer [] []) = Some s ∧
    List_ None (sv_rows s) = inl recs ∧ NoDup (map wr_ID recs) ∧
    (∀ rec, rec ∈ recs → stored rec ∧ handleGetWorkflow None (wr_ID rec) (sv_rows s) = inl rec) ∧
    (∀ id rec, handleGetWorkflow None id (sv_rows s) = inl rec → rec ∈ recs ∧ wr_ID rec = id).
Proof.
  destruct (serve_all_inv qs (mkServer [] [])) as (s & Hs & [Hids Hrows _]); [split; constructor|].
  destruct (scan_rows_ok _ Hrows) as (recs & Hrecs & Heq & Hst). exists s, recs. split; [done|]. split; [done|].
  assert (NoDup (map wr_ID recs)) as Hnd.
  { apply (NoDup_fmap_1 Some). rewrite <- list_fmap_compose. by rewrite <- Heq in Hids. }
  split; [done|]. unfold handleGetWorkflow. setoid_rewrite (Get_listed (sv_rows s) recs); [|done..]. split.
  - intros rec Hin. split; [rewrite Forall_forall in Hst; by apply Hst|].
    destruct (list_find (λ x, wr_ID x = wr_ID rec) recs) as [[j y]|] eqn:Hf; simpl.
    + apply list_find_Some in Hf as (Hy & Hid & _). f_equal. apply list_elem_of_lookup in Hin as [i Hi].
      apply (f_equal (fmap wr_ID)) in Hy as Hy'. apply (f_equal (fmap wr_ID)) in Hi as Hi'.
      rewrite <- list_lookup_fmap in Hy', Hi'. simpl in Hy', Hi'. rewrite Hid in Hy'.
      assert (j = i) as -> by (by eapply NoDup_lookup). congruence.
    + apply list_find_None in Hf. rewrite Forall_forall in Hf. by destruct (Hf rec Hin).
  - intros id rec. destruct (list_find _ recs) as [[j y]|] eqn:Hf; simpl; [|done]. intros [= <-].
    apply list_find_Some in Hf as (Hy & Hid & _). split; [by eapply list_elem_of_lookup_2|done].
Qed.
End ServerProofs.

(** ** Samples *)

Module ServerSamples.
#[local] Existing Instance key_order.

(** A hierarchical workflow, whose manager exists. *)
Definition hier_wf : AgentWorkflow := sample_wf (mkExec "hierarchical" [] "" "w" None).

Definition plain_graph : GraphDefinition :=
  mkGraphDef "g1" "1" "1.0.0" "graph" ∅ [mkNodeDef "a" "noop" ∅] [] "a".

(** Three documents: two agent workflows and a graph. *)
#[local] Instance documents : Decoders := {|
  yaml_object _ := inr (ESentinel "yaml"); json_object_of _ := inr (ESentinel "json"); yaml_value _ := inr (ESentinel "yaml");
  workflow_Unmarshal s := if bool_decide (s = "custom") then inl custom_wf else if bool_decide (s = "managed") then inl hier_wf
                     else inr (ESentinel "no workflow");
  graph_Unmarshal s := if bool_decide (s = EmptyString) then inr (ESentinel "unexpected end of JSON input") else inl plain_graph |}.
#[local] Instance encodings : StoreLibs := {| graph_Marshal _ := inl "{...}"; format_nano := TextTimes.to_text; parse_nano := TextTimes.of_text |}.
#[local] Instance encodings_ok : StoreLaws.
Proof.
  split.
  - intros [|p|p]; simpl; by rewrite ?TextTimes.unbits_bits.
  - intros gd data [= <-]. split; [done|]. by exists plain_graph.
  - done.
  - done.
Defined.

Definition types : Registry := Global.
Definition now : Z := 7.
Definition agent (body : string) : request := ReqCreateAgent now "at" "u" None (inl body).
Definition put (id body : string) : list request := [ReqUpdateRead id "at" None (inl body); ReqUpdateWrite 0 now None].

(** The sources in the table, by ID. *)
Definition contents (qs : list request) : option (list (option string * option string)) :=
  match serve_all types None (mkLegacy true false true) qs (mkServer [] []) with
  | Some s => Some (map (λ r : row, (r !! "id", r !! "source")) (sv_rows s))
  | None => None
  end.

Definition custom_ID : string := wf_ID custom_wf.

(** A workflow that is refused when it is created is stored by an update. *)
Example update_unchecked :
  contents [agent "managed"] = Some [] ∧
  contents ([agent "custom"] ++ put custom_ID "managed") = Some [(Some custom_ID, Some "managed")].
Proof. vm_compute. split; reflexivity. Qed.

(** An update that reads before a deletion and writes after it changes nothing; when
    the workflow was created again in between, it overwrites the new one. *)
Example overtaken :
  contents [agent "custom"; ReqUpdateRead custom_ID "at" None (inl "managed"); ReqDelete custom_ID None; ReqUpdateWrite 0 now None] = Some [] ∧
  contents [agent "custom"; ReqUpdateRead custom_ID "at" None (inl "managed"); ReqDelete custom_ID None; agent "custom"; ReqUpdateWrite 0 now None]
  = Some [(Some custom_ID, Some "managed")].
Proof. vm_compute. split; reflexivity. Qed.

Lemma server_invariant_witness :
  ∃ s recs, serve_all types None (mkLegacy true false true) [agent "custom"; ReqCreateGraph now "u" None (inl "g")] (mkServer [] []) = Some s ∧
    List_ None (sv_rows s) = inl recs ∧ length recs = 2 ∧ NoDup (map wr_ID recs).
Proof.
  destruct (server_invariant types None (mkLegacy true false true) [agent "custom"; ReqCreateGraph now "u" None (inl "g")])
    as (s & recs & Hs & Hl & Hnd & _).
  exists s, recs. split; [exact Hs|]. split; [exact Hl|]. split; [|exact Hnd].
  assert (match serve_all types None (mkLegacy true false true) [agent "custom"; ReqCreateGraph now "u" None (inl "g")] (mkServer [] []) with
    | Some s => match List_ None (sv_rows s) with inl recs => length recs | inr _ => 0 end | None => 0 end = 2) as Hlen
    by (vm_compute; reflexivity).
  rewrite Hs, Hl in Hlen. exact Hlen.
Defined.
End ServerSamples.
