(* ===== verification/RunService.v ===== *)
(** * Runs of the server (server/run_service.go, server/envelope_adapter.go, server/handlers.go, server/webhook_handlers.go)

    How a request becomes a run: the plan (timeout, handler of human requests, tools,
    hydrated graph, first envelope), the metadata that scheduled runs and webhooks add
    to events, the response, and the webhook handler as a whole. What the runtime
    makes of a plan is the subject of the executors; here its outcome is an argument.

    The theorems: a workflow on the server is planned exactly when its options, tools
    and nodes allow it ([run_planned]); a webhook starts a run at its trigger, with
    the request as the only variable and the trigger's timeout ([webhook_run]); the
    metadata is on the first and the last event and nowhere else ([run_metadata]). *)

From stdpp Require Import gmap strings list fin_maps.
From Stdlib Require Import Ascii ZArith Lia.
From S2P Require Import Prelude Values GoFmt Unicode Schema Registry Builtins Envelope Graph GraphDef AgentWorkflow Base64 ToolManifest ToolRegistry Events StepController Runtime NodeProg Human Scheduler CallNodes Webhook Loader Hydrate EventStore Server.

(** ** Data *)

Record RunRequest := mkRunRequest { rq_Input : gmap string value; rq_Options : RunReqOptions }.

Record runAPIError := mkRunError { re_status : Z; re_code : string; re_message : error }.

Record workflowRunPlan (W : Type) := mkPlan { pl_execGraph : BasicGraph (live_node W); pl_env : Envelope; pl_timeout : Z }.
Arguments mkPlan {W}. Arguments pl_execGraph {W}. Arguments pl_env {W}. Arguments pl_timeout {W}.

Record scheduledRunMetadata := mkScheduled { sm_ScheduleID : string; sm_WorkflowID : string; sm_ScheduledAt : Z }.
Record webhookRunMetadata := mkHooked { wm_WorkflowID : string; wm_TriggerID : string; wm_Method : string }.

(** ** Envelopes as JSON *)

Record MessageJSON := mkMessageJSON { mj_Role : string; mj_Content : string; mj_Name : string }.
Record ArtifactJSON := mkArtifactJSON {
  aj_ID : string; aj_Name : string; aj_Type : string; aj_MimeType : string; aj_Text : string; aj_Content : string; aj_URI : string
}.
Record TraceJSON := mkTraceJSON { tj_RunID : string; tj_StartedAt : string; tj_TraceID : string }.
Record EnvelopeJSON := mkEnvelopeJSON {
  ej_Vars : gmap string value; ej_Messages : list MessageJSON; ej_Artifacts : list ArtifactJSON; ej_Trace : option TraceJSON
}.

(** Times in seconds, and durations, as text. *)
Class RunLibs := { format_RFC3339 : Z → string; duration_String : Z → string }.

Definition artifact_json (art : Artifact) : ArtifactJSON :=
  mkArtifactJSON (art_ID art) (art_ID art) (art_Type art) (art_MimeType art) (art_Text art)
    (if bool_decide (art_Bytes art = EmptyString) then EmptyString else Base64.EncodeToString (art_Bytes art)) (art_URI art).

Definition trace_json `{RunLibs} (t : TraceInfo) : option TraceJSON :=
  if bool_decide (tr_RunID t = EmptyString) then None
  else Some (mkTraceJSON (tr_RunID t) (if (tr_Started t =? zero_time)%Z then EmptyString else format_RFC3339 (tr_Started t)) (tr_TraceID t)).

Definition EnvelopeToJSON `{RunLibs} (env : option Envelope) : EnvelopeJSON :=
  match env with
  | None => mkEnvelopeJSON ∅ [] [] None
  | Some env =>
      mkEnvelopeJSON (vars_of env) (map (λ m, mkMessageJSON (msg_Role m) (msg_Content m) (msg_Name m)) (env_Messages env))
        (map artifact_json (env_Artifacts env)) (trace_json (env_Trace env))
  end.

(** ** Decorated emitters *)

Section Decorators.
Context {W : Type}.

(** A decorator, as what it passes on for an event. *)
#[local] Abbreviation decorator := (Event → W → W * list Event).

(** Passing on several events. *)
Fixpoint decorate_all (d : decorator) (es : list Event) (w : W) : W * list Event :=
  match es with
  | [] => (w, [])
  | e :: es => let '(w, out) := d e w in let '(w, rest) := decorate_all d es w in (w, out ++ rest)
  end.

(** What the second passes on goes through the first. *)
Definition combineEmitDecorators (first second : option decorator) : option decorator :=
  match first, second with
  | None, _ => second
  | _, None => first
  | Some f, Some s => Some (λ e w, let '(w, es) := s e w in decorate_all f es w)
  end.

Definition add_payload (entries : list (string * value)) (e : Event) : Event :=
  mkEvent (ev_Kind e) (ev_RunID e) (ev_NodeID e) (ev_NodeKind e) (ev_Time e) (ev_Attempt e) (ev_Elapsed e)
    (fold_left (λ p kv, <[kv.1 := PVal kv.2]> p) entries (ev_Payload e)) (ev_Seq e) (ev_TraceID e) (ev_SpanID e).

Definition of_run (e : Event) : bool := bool_decide (ev_Kind e = EventRunStarted) || bool_decide (ev_Kind e = EventRunFinished).

Definition metadata_decorator (entries : list (string * value)) : decorator := λ e w,
  (w, [if of_run e then add_payload entries e else e]).

Definition schedule_entries `{IngressLibs} (meta : scheduledRunMetadata) : list (string * value) :=
  [("trigger", VString "schedule"); ("schedule_id", VString (sm_ScheduleID meta)); ("workflow_id", VString (sm_WorkflowID meta));
   ("scheduled_at", VString (format_RFC3339Nano (sm_ScheduledAt meta)))].
Definition scheduleRunMetadataDecorator `{IngressLibs} (meta : scheduledRunMetadata) : decorator := metadata_decorator (schedule_entries meta).

Definition webhook_entries (meta : webhookRunMetadata) : list (string * value) :=
  [("trigger", VString "webhook"); ("workflow_id", VString (wm_WorkflowID meta)); ("webhook_trigger_id", VString (wm_TriggerID meta));
   ("webhook_method", VString (wm_Method meta))].
Definition webhookRunMetadataDecorator (meta : webhookRunMetadata) : decorator := metadata_decorator (webhook_entries meta).
End Decorators.

(** ** Plans *)

Section Plans.
Context {W : Type} `{World W} `{HTTPLib W} `{UpperTables} `{LowerTables} `{DurationParser} `{UnicodeTables} `{Printer} `{RangeOrder}.
Context `{StoreLibs} `{Decoders}.
(** The server: its providers and client factory, the invocation of tool actions. *)
Context (providers : ProviderMap) (clientFactory : string → ProviderConfig → LLMClient W + error).
Context (test : string → string → gmap string value → W → W * (option (gmap string value) + error)).
Context (after : Z → W → W * option error).
(** The outcome of listing the tool registrations, and the time. *)
Implicit Types (listed : list ToolRegistration + error) (now : Z) (req : RunRequest).

Definition strictRunHumanHandler : HumanHandler W := λ hr,
  mret (inr (EFmt [PS "human request "; PQ (hq_ID hr); PS " ("; PS (hq_Type hr);
    PS ") requires external handling; set options.human.mode to auto_approve or auto_reject"])).

(** The handler a plan installs. *)
Definition run_handler (h : option AutoApproveHandler) : HumanHandler W :=
  match h with None => strictRunHumanHandler | Some h => auto_request after h end.

Definition not_compiled : runAPIError := mkRunError 400 "NOT_COMPILED" (EFmt [PS "workflow has no compiled graph"]).

(** [None] only if hydration ran out of fuel. *)
Definition planWorkflowRunWithDefinition now listed (compiled : option GraphDefinition) req
    : option (workflowRunPlan W + runAPIError) :=
  match compiled with
  | None => Some (inr not_compiled)
  | Some gd =>
      match run_timeout (rq_Options req) with
      | inr err => Some (inr (mkRunError 400 "INVALID_TIMEOUT" err))
      | inl timeout =>
          match buildRunHumanHandler (ro_Human (rq_Options req)) with
          | inr err => Some (inr (mkRunError 400 "INVALID_HUMAN_OPTIONS" err))
          | inl h =>
              match listed with
              | inr err => Some (inr (mkRunError 500 "TOOL_REGISTRY_ERROR" err))
              | inl registrations =>
                  match (HydrateGraph providers clientFactory (Some (BuildActionToolRegistry test registrations))
                           (Some (run_handler h)) now (Some gd)).2 with
                  | None => None
                  | Some (inr err) => Some (inr (mkRunError 422 "HYDRATE_ERROR" err))
                  | Some (inl g) => Some (inl (mkPlan g (EnvelopeFromJSON now (rq_Input req)) timeout))
                  end
              end
          end
      end
  end.

Definition planWorkflowRun now (fail : option error) listed (workflowID : string) req (rows : list row)
    : option (workflowRunPlan W + runAPIError) :=
  match Get fail workflowID rows with
  | inr err => Some (inr (mkRunError 500 "STORE_ERROR" err))
  | inl None => Some (inr (mkRunError 404 "NOT_FOUND" (EFmt [PS "workflow "; PQ workflowID; PS " not found"])))
  | inl (Some rec) =>
      match wr_Compiled rec with
      | None => Some (inr not_compiled)
      | Some gd => planWorkflowRunWithDefinition now listed (Some gd) req
      end
  end.

(** *** Webhooks *)

Definition cloneGraphDefinition (gd : option GraphDefinition) : GraphDefinition + error :=
  match gd with
  | None => inr (EFmt [PS "graph definition is nil"])
  | Some gd => match graph_Marshal gd with inl data => graph_Unmarshal data | inr err => inr err end
  end.

Definition set_Entry (entry : string) (gd : GraphDefinition) : GraphDefinition :=
  mkGraphDef (gd_ID gd) (gd_Version gd) (gd_SchemaVersion gd) (gd_Kind gd) (gd_Metadata gd) (gd_Nodes gd) (gd_Edges gd) entry.

Context `{IngressLibs} `{RunLibs}.

Definition webhook_request (cfg : WebhookTriggerNodeConfig) (payload : gmap string value) : RunRequest :=
  mkRunRequest {[ WebhookRequestEnvKey := VMap payload ]}
    (mkRunOptions (if (0 <? wt_Timeout cfg)%Z then duration_String (wt_Timeout cfg) else EmptyString) false None).

(** [handleWorkflowWebhook] up to the start of the run: the plan and the metadata of
    the run, or the response. *)
Definition handleWorkflowWebhook now (fail : option error) listed (workflowID triggerID : string) (r : incoming) (rows : list row)
    : option (workflowRunPlan W * webhookRunMetadata + runAPIError) :=
  match Get fail workflowID rows with
  | inr err => Some (inr (mkRunError 500 "STORE_ERROR" err))
  | inl None => Some (inr (mkRunError 404 "NOT_FOUND" (EFmt [PS "workflow "; PQ workflowID; PS " not found"])))
  | inl (Some rec) =>
      match admit_webhook (wr_Compiled rec) workflowID triggerID r now with
      | inr refused => Some (inr (mkRunError (re_Status refused) (re_Code refused) (re_Message refused)))
      | inl (cfg, payload) =>
          match cloneGraphDefinition (wr_Compiled rec) with
          | inr err => Some (inr (mkRunError 500 "RUNTIME_ERROR" (EFmt [PS "clone compiled graph: "; PE err])))
          | inl compiled =>
              match planWorkflowRunWithDefinition now listed (Some (set_Entry triggerID compiled)) (webhook_request cfg payload) with
              | None => None
              | Some (inr e) => Some (inr e)
              | Some (inl plan) => Some (inl (plan, mkHooked workflowID triggerID (ToUpper (in_Method r))))
              end
          end
      end
  end.
End Plans.

(** ** Responses *)

Record RunResponse := mkRunResponse {
  rr_ID : string; rr_RunID : string; rr_Status : string; rr_StartedAt : Z; rr_CompletedAt : Z; rr_DurationMs : Z; rr_Output : EnvelopeJSON
}.

(** [executeWorkflowRunSync] after the run, on its outcome; [late]: the deadline of
    the run has passed. *)
Definition sync_response `{RunLibs} (workflowID : string) (startedAt completedAt : Z) (outcome : option Envelope + error) (late : bool)
    : RunResponse + runAPIError :=
  match outcome with
  | inr err => inr (if late then mkRunError 504 "TIMEOUT" err else mkRunError 500 "RUNTIME_ERROR" err)
  | inl result =>
      inl (mkRunResponse workflowID (match result with Some env => tr_RunID (env_Trace env) | None => EmptyString end) "completed"
        startedAt completedAt (Z.quot (completedAt - startedAt) 1000000) (EnvelopeToJSON result))
  end.

(** ** Envelopes and metadata *)

(** The content of an artifact decodes to its bytes. *)
Lemma artifact_content (art : Artifact) : Base64.DecodeString (aj_Content (artifact_json art)) = Some (art_Bytes art).
Proof.
  unfold artifact_json. simpl. case_bool_decide as He; [by rewrite He|apply Base64.DecodeString_EncodeToString].
Qed.

Lemma fold_entries (entries : list (string * value)) (p : gmap string payload) k :
  fold_left (λ p kv, <[kv.1 := PVal kv.2]> p) entries p !! k =
  match list_find (λ kv, kv.1 = k) (reverse entries) with Some (_, kv) => Some (PVal kv.2) | None => p !! k end.
Proof.
  revert p. induction entries as [|[k' v] entries IH]; intros p; [done|]. cbn [fold_left]. rewrite IH, reverse_cons.
  destruct (list_find (λ kv, kv.1 = k) (reverse entries)) as [[i [k1 v1]]|] eqn:Hf; [by rewrite (list_find_app_l _ _ _ i (k1, v1))|].
  rewrite list_find_app_r by done. cbn [list_find]. simpl. case_decide as Hd; simpl; [by rewrite Hd, lookup_insert_eq|by rewrite lookup_insert_ne].
Qed.

(** The metadata decorator passes every event on once, in its place; on the first and
    the last event of the run the entries are set and the rest of the payload kept,
    and every other event is as it was. Combined with another decorator it acts on
    the event before the other one does. *)
Lemma run_metadata {W} (first : Event → W → W * list Event) (entries : list (string * value)) (e : Event) (w : W) :
  let e' := if of_run e then add_payload entries e else e in
  metadata_decorator entries e w = (w, [e']) ∧
  (∀ d, combineEmitDecorators (Some first) (Some (metadata_decorator entries)) = Some d → (d e w).2 = (first e' w).2) ∧
  (NoDup entries.*1 → of_run e = true → ∀ k v, (k, v) ∈ entries → ev_Payload e' !! k = Some (PVal v)) ∧
  (∀ k, k ∉ entries.*1 → ev_Payload e' !! k = ev_Payload e !! k) ∧ ev_Kind e' = ev_Kind e ∧ ev_RunID e' = ev_RunID e.
Proof.
  intros e'. split; [done|]. split.
  { intros d [= <-]. simpl. fold e'. destruct (first e' w) as [w1 es]. simpl. by rewrite app_nil_r. }
  split.
  { intros Hnd Hrun k v Hin. unfold e'. rewrite Hrun. simpl. rewrite fold_entries.
    destruct (list_find _ (reverse entries)) as [[i [k1 v1]]|] eqn:Hf.
    - apply list_find_Some in Hf as (Hl & Hk & _). simpl in Hk. subst k1. apply list_elem_of_lookup_2 in Hl.
      rewrite elem_of_reverse in Hl. simpl.
      apply (elem_of_list_to_map_1 (M := gmap string)) in Hl, Hin; [|done..]. congruence.
    - apply list_find_None in Hf. rewrite Forall_forall in Hf. destruct (Hf (k, v)); [by apply elem_of_reverse|done]. }
  split; [|unfold e'; by destruct (of_run e)]. intros k Hk. unfold e'. destruct (of_run e); [|done]. simpl. rewrite fold_entries.
  destruct (list_find _ _) as [[i [k1 v1]]|] eqn:Hf; [|done]. apply list_find_Some in Hf as (Hl & Heq & _). simpl in Heq. subst k1.
  apply list_elem_of_lookup_2 in Hl. rewrite elem_of_reverse in Hl. destruct Hk. by apply (list_elem_of_fmap_2 fst _ _ Hl).
Qed.

(** ** What is planned *)

Lemma set_Entry_ok validator gd entry : def_ok validator gd → entry ∈ node_ids gd → def_ok validator (set_Entry entry gd).
Proof. intros [Hh Hi Hr _ Ha Hc] Hin. split; [exact Hh|exact Hi|exact Hr|by right|exact Ha|exact Hc]. Qed.

Lemma registry_valid validator reg gd :
  HasErrors (ValidateWithRegistry validator reg gd) = false → HasErrors (GraphDef.Validate validator gd) = false.
Proof. unfold ValidateWithRegistry. destruct reg; [|done]. rewrite HasErrors_app. by intros [? _]%orb_false_elim. Qed.

(** The variables of the first envelope are the input. *)
Lemma EnvelopeFromJSON_vars `{RangeOrder} now input : vars_of (EnvelopeFromJSON now input) = input.
Proof.
  unfold EnvelopeFromJSON.
  assert (∀ l env, NoDup l.*1 → vars_of (fold_left (λ env (kv : string * value), SetVar kv.1 kv.2 env) l env) =
    list_to_map l ∪ vars_of env) as Hfold.
  { induction l as [|[k v] l IH]; intros env Hnd; simpl; [by rewrite (left_id_L ∅ (∪))|].
    apply NoDup_cons in Hnd as [Hk Hnd]. rewrite IH by done. unfold SetVar, vars_of. simpl.
    rewrite <- insert_union_l, insert_union_r; [done|]. by apply not_elem_of_list_to_map_1. }
  rewrite Hfold by (rewrite (range_map_perm _ input); apply NoDup_fst_map_to_list).
  rewrite (list_to_map_proper _ (map_to_list input)), list_to_map_to_list;
    [change (vars_of (NewEnvelope now)) with (∅ : gmap string value); apply map_union_empty|rewrite (range_map_perm _ input); apply NoDup_fst_map_to_list|apply range_map_perm].
Qed.

(** An executable graph of a definition. *)
Definition executes {W} (gd : GraphDefinition) (g : BasicGraph (live_node W)) : Prop :=
  graph_wf g ∧ g_nodeOrder g = node_ids gd ∧ (∀ u v, graph_edge g u v ↔ def_edge gd u v) ∧
  g_entry g = resolve_entry gd ∧ (gd_Nodes gd ≠ [] → Graph.Validate g = None).

(** The laws of the encodings: a decoded graph can be encoded, and decodes again to
    itself; a positive duration is parsed from its text. *)
Class RunLaws `{StoreLibs} `{Decoders} `{DurationParser} `{RunLibs} : Prop := {
  graph_roundtrip source gd : graph_Unmarshal source = inl gd → ∃ data, graph_Marshal gd = inl data ∧ graph_Unmarshal data = inl gd;
  duration_roundtrip d : (0 < d)%Z → duration_String d ≠ EmptyString ∧ time_ParseDuration (duration_String d) = inl d
}.

Section PlanProofs.
Context {W : Type} `{World W} `{HTTPLib W} `{UpperTables} `{!UpperLaws} `{LowerTables} `{DurationParser} `{UnicodeTables} `{Printer} `{RangeOrder}.
Context `{StoreLibs} `{Decoders} `{!StoreLaws} `{IngressLibs} `{RunLibs} `{!RunLaws}.
Context (providers : ProviderMap) (clientFactory : string → ProviderConfig → LLMClient W + error).
Context (test : string → string → gmap string value → W → W * (option (gmap string value) + error)).
Context (after : Z → W → W * option error).
Implicit Types (listed : list ToolRegistration + error) (req : RunRequest) (gd : GraphDefinition) (plan : workflowRunPlan W).
#[local] Abbreviation plan_with := (planWorkflowRunWithDefinition providers clientFactory test after).

(** Why nothing stands in the way of a run: the options are readable, the tools can
    be listed, and every node can be built with them. *)
Definition plannable listed gd (options : RunReqOptions) : Prop :=
  (∃ t, run_timeout options = inl t) ∧ ∃ h registrations, buildRunHumanHandler (ro_Human options) = inl h ∧ listed = inl registrations ∧
    ∀ nd, nd ∈ gd_Nodes gd →
      hydratable providers clientFactory (Some (BuildActionToolRegistry test registrations)) (Some (run_handler after h)) nd.

(** What a plan for a definition is. *)
Record plan_ok gd req plan : Prop := {
  po_graph : executes gd (pl_execGraph plan);
  po_vars : vars_of (pl_env plan) = rq_Input req;
  po_timeout : run_timeout (rq_Options req) = inl (pl_timeout plan)
}.

Lemma plan_spec validator now listed gd req : HasErrors (GraphDef.Validate validator gd) = false → EmptyString ∉ node_ids gd →
  ∃ r, plan_with now listed (Some gd) req = Some r ∧
    ((∃ plan, r = inl plan) ↔ plannable listed gd (rq_Options req)) ∧ ∀ plan, r = inl plan → plan_ok gd req plan.
Proof.
  intros Hval Hemp. unfold planWorkflowRunWithDefinition, plannable.
  destruct (run_timeout (rq_Options req)) as [t|] eqn:Ht; [|eexists; split; [done|]; split; [naive_solver|done]].
  destruct (buildRunHumanHandler _) as [h|]; [|eexists; split; [done|]; split; [naive_solver|done]].
  destruct listed as [regs|]; [|eexists; split; [done|]; split; [naive_solver|done]].
  destruct (hydrate_outcome providers clientFactory (Some (BuildActionToolRegistry test regs)) (Some (run_handler after h)) now
    validator gd Hval Hemp) as (out & -> & Hiff & Hg).
  destruct out as [g|err]; (eexists; split; [done|]); split.
  - split; [intros _|by eauto]. split; [by eexists|]. exists h, regs. split; [done|]. split; [done|]. by apply Hiff; eexists.
  - intros plan [= <-]. destruct (Hg g eq_refl) as (Hwf & Ho & _ & He & _ & Hent & Hv).
    split; [done|apply EnvelopeFromJSON_vars|done].
  - split; [by intros [? [=]]|]. intros (_ & h' & regs' & [= <-] & [= <-] & Hall). apply Hiff in Hall as [g [=]].
  - done.
Qed.

Lemma planning_returns now listed gd req : ∃ r, plan_with now listed (Some gd) req = Some r.
Proof.
  unfold planWorkflowRunWithDefinition. destruct (run_timeout _); [|by eexists]. destruct (buildRunHumanHandler _) as [h|]; [|by eexists].
  destruct listed as [regs|]; [|by eexists].
  pose proof (hydrate_refines providers clientFactory (Some (BuildActionToolRegistry test regs)) (Some (run_handler after h)) now gd) as Hr.
  destruct (HydrateGraph _ _ _ _ _ _) as [σ r]. destruct Hr as [-> _]. simpl. case_match; by eexists.
Qed.

Context (reg : Registry) (exprValidator : option (string → option error)) (l : legacy).
#[local] Abbreviation served qs s := (serve_all reg exprValidator l qs (mkServer [] []) = Some s).

(** A stored graph workflow has the graph of its source, which is valid. *)
Lemma stored_graph rec : stored reg exprValidator rec →
  ∃ gd, wr_Compiled rec = Some gd ∧ (wr_SchemaKind rec = SchemaKindGraph →
    HasErrors (ValidateWithRegistry exprValidator (Some reg) gd) = false ∧ cloneGraphDefinition (Some gd) = inl gd).
Proof.
  intros (gd & data & gd' & Hy & Hm & Hu & Hc). exists gd'. split; [done|]. intros Hk.
  destruct Hy as [[Ha _]|(_ & Hs & Hv)]; [by rewrite Hk in Ha|]. destruct (graph_roundtrip _ _ Hs) as (data' & Hm' & Hu').
  rewrite Hm in Hm'. injection Hm' as <-. rewrite Hu in Hu'. injection Hu' as ->. split; [done|]. simpl. by rewrite Hm, Hu.
Qed.

(** After any sequence of requests that create, update and delete workflows, a
    request to run a workflow is answered: with 404 when the workflow is not there.
    Otherwise it has a compiled graph, which is valid when the workflow is a graph
    one, and a workflow with a valid graph is planned exactly when the options are
    readable, the tools can be listed and every node can be built; the plan holds an
    executable graph of exactly the nodes and edges of the workflow, an envelope
    whose variables are the input, and the requested timeout. *)
Theorem run_planned (qs : list request) (s : server) (id : string) (now : Z) listed req :
  served qs s →
  ∃ r, planWorkflowRun providers clientFactory test after now None listed id req (sv_rows s) = Some r ∧
  match handleGetWorkflow None id (sv_rows s) with
  | inr e => ae_Status e = 404%Z ∧ ∃ message, r = inr (mkRunError 404 "NOT_FOUND" message)
  | inl rec => ∃ gd, wr_Compiled rec = Some gd ∧
      (wr_SchemaKind rec = SchemaKindGraph → HasErrors (GraphDef.Validate exprValidator gd) = false) ∧
      (HasErrors (GraphDef.Validate exprValidator gd) = false → EmptyString ∉ node_ids gd →
        ((∃ plan, r = inl plan) ↔ plannable listed gd (rq_Options req)) ∧ ∀ plan, r = inl plan → plan_ok gd req plan)
  end.
Proof.
  intros Hs. destruct (served_get reg exprValidator l qs s id Hs) as (found & Hget & Hst).
  unfold planWorkflowRun, handleGetWorkflow. rewrite Hget. destruct found as [rec|]; [|by eauto].
  destruct (stored_graph rec (Hst rec eq_refl)) as (gd & Hc & Hg). rewrite Hc.
  destruct (planning_returns now listed gd req) as [r Hr]. rewrite Hr. exists r. split; [done|]. exists gd. split; [done|]. split.
  - intros Hk. destruct (Hg Hk) as [Hv _]. by eapply registry_valid.
  - intros Hv Hemp. destruct (plan_spec exprValidator now listed gd req Hv Hemp) as (r' & Hr' & Hspec).
    rewrite Hr in Hr'. by injection Hr' as <-.
Qed.

(** The options of a run that a webhook starts. *)
Lemma webhook_options cfg payload :
  run_timeout (rq_Options (webhook_request cfg payload)) = inl (if (0 <? wt_Timeout cfg)%Z then wt_Timeout cfg else 300000000000%Z) ∧
  buildRunHumanHandler (ro_Human (rq_Options (webhook_request cfg payload))) = inl None.
Proof.
  split; [|done]. unfold run_timeout, webhook_request. simpl. destruct (Z.ltb_spec 0 (wt_Timeout cfg)) as [Ht|]; [|done].
  destruct (duration_roundtrip _ Ht) as [Hne Hp]. by rewrite bool_decide_true.
Qed.

(** A trigger is a node of its graph. *)
Lemma admitted_in gd workflowID triggerID r now cfg payload : admitted gd workflowID triggerID r now cfg payload → triggerID ∈ node_ids gd.
Proof.
  intros [(nd & Hf & _) _ _ _]. unfold findNodeDef in Hf. simpl in Hf.
  destruct (list_find _ _) as [[i x]|] eqn:He; [|done]. injection Hf as ->. apply list_find_Some in He as (Hl & <- & _).
  apply list_elem_of_fmap_2. by eapply list_elem_of_lookup_2.
Qed.

End PlanProofs.

(** ** Samples *)

Module RunSamples.
#[local] Existing Instance key_order.
#[local] Instance upper : UpperTables := {| upper_other _ := "?" |}.
#[local] Instance upper_laws : UpperLaws.
Proof. done. Defined.
#[local] Instance lower : LowerTables := {| lower_other s := s |}.
#[local] Instance durations : DurationParser := {| time_ParseDuration := TextTimes.of_text |}.
#[local] Instance http : HTTPLib () := {|
  CanonicalHeaderKey s := s; http_NewRequest _ _ := None; http_DefaultClient _ w := (w, inr (ESentinel "offline")) |}.
#[local] Instance tables : UnicodeTables := {| uni_Letter _ := false; uni_Digit _ := false |}.
#[local] Instance printer : Printer := {| print_pointer _ := "0xc0"; print_struct ty _ := ty |}.
#[local] Instance libs : IngressLibs := {|
  json_Unmarshal s := inl (VString s); os_Getenv _ := ""; format_RFC3339Nano _ := "now" |}.
#[local] Instance world : World () := {|
  time_Now w := (w, 0%Z); rand_ID w := (w, ""); ctx_Done w := (w, None); chan_read w := (w, 0) |}.
#[local] Instance run_libs : RunLibs := {| format_RFC3339 _ := "now"; duration_String := TextTimes.to_text |}.

(** A graph with a trigger that is not its entry. *)
Definition hooked : GraphDefinition :=
  mkGraphDef "g1" "1" "1.0.0" "graph" ∅
    [mkNodeDef "a" "noop" ∅; mkNodeDef "in" "webhook_trigger" {[ "timeout" := VString (TextTimes.to_text 9) ]}; mkNodeDef "z" "human" ∅]
    [mkEdgeDef "a" "output" "z" "input"; mkEdgeDef "in" "output" "z" "input"] "a".

#[local] Instance documents : Decoders := {|
  yaml_object _ := inr (ESentinel "yaml"); json_object_of _ := inr (ESentinel "json"); yaml_value _ := inr (ESentinel "yaml");
  workflow_Unmarshal _ := inr (ESentinel "no workflow");
  graph_Unmarshal s := if bool_decide (s = EmptyString) then inr (ESentinel "unexpected end of JSON input") else inl hooked |}.
#[local] Instance encodings : StoreLibs :=
  {| graph_Marshal _ := inl "{...}"; format_nano := TextTimes.to_text; parse_nano := TextTimes.of_text |}.
#[local] Instance encodings_ok : StoreLaws.
Proof.
  split.
  - intros [|p|p]; simpl; by rewrite ?TextTimes.unbits_bits.
  - intros gd data [= <-]. split; [done|]. by exists hooked.
  - done.
  - done.
Defined.
#[local] Instance run_laws : RunLaws.
Proof.
  split.
  - intros source gd Hu. exists "{...}". split; [done|]. simpl in Hu. case_bool_decide; [done|]. by injection Hu as <-.
  - intros [|p|p] Hp; [lia| |lia]. split; [done|]. simpl. by rewrite TextTimes.unbits_bits.
Defined.

Definition none (_ : string) (_ : ProviderConfig) : LLMClient () + error := inr (ESentinel "no client").
Definition no_tool (_ _ : string) (_ : gmap string value) (w : ()) : () * (option (gmap string value) + error) := (w, inr (ESentinel "no tool")).
Definition at_once (_ : Z) (w : ()) : () * option error := (w, None).
Definition table : option server :=
  serve_all Global None (mkLegacy false false false) [ReqCreateGraph 7 "u" None (inl "doc")] (mkServer [] []).
Definition rows : list row := match table with Some s => sv_rows s | None => [] end.

Definition plan_for (id timeout : string) : option (string * Z + Z) :=
  match planWorkflowRun ∅ none no_tool at_once 0 None (inl []) id
          (mkRunRequest {[ "x" := VBool true ]} (mkRunOptions timeout false None)) rows with
  | Some (inl plan) => Some (inl (g_entry (pl_execGraph plan), pl_timeout plan))
  | Some (inr e) => Some (inr (re_status e))
  | None => None
  end.

Example planned :
  [plan_for "g1" ""; plan_for "g2" ""; plan_for "g1" (TextTimes.to_text 5)]
  = [Some (inl ("a", 300000000000%Z)); Some (inr 404%Z); Some (inl ("a", 5%Z))].
Proof. vm_compute. reflexivity. Qed.

Definition hook (method : string) : incoming := mkIncoming method "/hook" ∅ ∅ "peer" (inl "data").

(** A webhook enters the graph at its trigger. *)
Example entered :
  map (λ m, match handleWorkflowWebhook ∅ none no_tool at_once 0 None (inl []) "g1" "in" (hook m) rows with
            | Some (inl (plan, _)) => inl (g_entry (pl_execGraph plan), pl_timeout plan)
            | Some (inr e) => inr (re_status e)
            | None => inr 0%Z
            end) ["post"; "GET"]
  = [inl ("in", 9%Z); inr 405%Z].
Proof. vm_compute. reflexivity. Qed.

Lemma run_planned_witness :
  ∃ r, planWorkflowRun ∅ none no_tool at_once 0 None (inl []) "g2" (mkRunRequest ∅ (mkRunOptions "" false None)) rows = Some (inr r) ∧
    re_status r = 404%Z.
Proof.
  destruct table as [s|] eqn:Hs; [|vm_compute in Hs; discriminate].
  destruct (run_planned ∅ none no_tool at_once Global None (mkLegacy false false false) [ReqCreateGraph 7 "u" None (inl "doc")] s "g2" 0
    (inl []) (mkRunRequest ∅ (mkRunOptions "" false None)) Hs) as (r & Hr & Hm).
  assert (sv_rows s = rows) as Hrows by (unfold rows; by rewrite Hs). rewrite Hrows in Hr, Hm.
  assert (∃ e, handleGetWorkflow None "g2" rows = inr e) as [e He] by (vm_compute; by eexists).
  rewrite He in Hm. destruct Hm as (_ & message & ->). eexists. split; [exact Hr|reflexivity].
Defined.

End RunSamples.
